(* ===== verification/_CoqProject ===== *)
-Q . S2P
Prelude.v
Origins.v
GapRanges.v
EventLog.v
PgErrors.v
EventStore.v
QualifiedName.v
ConsumerState.v
Delivery.v
Dispatcher.v
DispatcherSafety.v
DispatcherStatus.v
DispatcherAdmin.v
Retention.v
Snapshot.v
Upcaster.v
AppendCore.v
Ownership.v
FieldAccess.v
Redis.v
Idempotency.v
RateLimit.v
RoleAssignment.v
TableInfo.v
TransitionGuard.v
DistributedLock.v
BlindIndex.v
WhereClause.v
TenantDb.v
EntityApply.v
FieldState.v
Executor.v
ExecutorProofs.v
ShadowSwap.v
ProjectionRebuild.v
RebuildProofs.v
MspRebuild.v
Gates.v
SecretLeak.v
WriteOrigin.v
ClientMasking.v
CommitSinks.v
CommandDispatch.v
CommandWrite.v
CommandBatch.v
CommandLogic.v
CommandExample.v
CommandProofs.v
BatchProofs.v
Cursor.v
ListRead.v
ListPaging.v
ListScope.v
EntityCache.v
DetailRead.v
SqlScript.v
MigrationRunner.v
MigrationSchema.v
MigrationCatalog.v
MigrationTables.v
MigrationReach.v
QueryDispatch.v
HttpRequest.v
ExtraRoutes.v
RequestAuth.v
JwtKeyring.v
