(* ===== verification/Prelude.v ===== *)
(** * Kumiko framework: verification library (root file)

    Kumiko is a TypeScript framework for multi-tenant applications on an event
    log in Postgres.  A command handler validates its input, checks access and
    appends events with an optimistic version check; projections are updated
    inline, and consumers (multi-stream projections, job triggers and the like)
    receive the log asynchronously through a dispatcher that keeps one cursor
    row per consumer.  This library models that core, from the source under
    [packages/framework/src/] and [packages/types/src/], and proves what makes
    it correct.  Every definition is executable.

    ** Files

    - [Prelude]: the [result] type with its notation, [sort_by], the tactics
      [branches] and [reflect_bools], the hint databases [kumiko] (proof search
      and rewriting), and the lemmas on lists and integers shared below.
    - [GapRanges] ([pipeline/pending-gap-ranges.ts]): id ranges a consumer still
      watches below its cursor; [covers] is the set of ids of a list of ranges.
    - [Origins]: the write origin that events and nested writes carry, with its
      JSON and schema.
    - [EventLog] ([event-store/events-schema.ts], [archive.ts],
      [db/queries/event-store.ts]): the tables as the record [EventsDb] and each
      SQL statement as a function on it.
    - [PgErrors] ([db/pg-error.ts]): which SQLSTATE a thrown value carries.
    - [EventStore] ([event-store/event-store.ts]): [append], the loads, the
      batched sweep, and the invariant [log_ok] of every reachable log.
    - [QualifiedName] ([engine/qualified-name.ts], [types/src/kebab-case.ts]).
    - [ConsumerState] ([pipeline/event-consumer-state.ts],
      [db/queries/event-consumer.ts]): the cursor table, a map from consumer and
      instance to the row, and its statements.
    - [Delivery] ([pipeline/event-dispatcher-delivery.ts]): acquiring a row,
      fetching, withholding, running handlers, dead letters.
    - [Dispatcher] ([pipeline/event-dispatcher.ts]): a turn ([run_turn],
      [turn_tx]), a pass over a consumer ([processConsumer]) with back-off and
      idle pre-check, and the slot semaphore as a step relation.
    - [DispatcherSafety]: turns interleaved with writers, as a step relation.
    - [DispatcherStatus]: status transitions over many turns, and progress.
    - [DispatcherAdmin] ([pipeline/event-dispatcher-admin.ts]): operator
      recovery and listings.
    - [Retention] ([pipeline/event-retention.ts]): pruning.
    - [Snapshot] ([event-store/snapshot.ts]).
    - [Upcaster] ([event-store/upcaster.ts], [upcaster-dead-letter.ts]).
    - [AppendCore] ([pipeline/append-event-core.ts], [projections-runner.ts],
      [event-store/provenance-append.ts]): the guarded append of a handler.
    - [Ownership] ([engine/ownership.ts]) and [FieldAccess]
      ([engine/field-access.ts], [access.ts], [membership-roles.ts]).
    - [Redis]: the string keys with expiry that the next three files use;
      [Idempotency] ([pipeline/idempotency.ts], [event-dedup.ts]), request
      guards as processes over atomic Redis commands; [RateLimit]
      ([rate-limit/resolver.ts], [bucket.ts]); [DistributedLock]
      ([pipeline/distributed-lock.ts]).
    - [RoleAssignment] ([engine/role-assignment.ts]).
    - [TransitionGuard] ([engine/state-machine.ts],
      [pipeline/write-transition-guard.ts]): declared transitions of state
      fields, their boot validation and their guard on updates.
    - [TableInfo] ([db/table-info.ts], [utils/case.ts]) and [WhereClause]
      ([db/where-clause.ts], [driver-value-preparation.ts]): where objects as
      conditions with placeholders, their SQL text, and their truth on a row.
    - [TenantDb] ([db/tenant-db.ts], [tenant-id-filter.ts],
      [tenant-db-upsert.ts], [query.ts], [render-rls-ddl.ts]): the database
      handle of a handler, on a table as a list of rows.
    - [BlindIndex] ([crypto/blind-index.ts], [pii-ciphertext-format.ts],
      [pii-field-encryption.ts], [types/src/kms-adapter-types.ts]): what applying
      an event reads of the key store, and how that ages when subjects are
      erased.
    - [EntityApply] ([db/apply-entity-event.ts]): entity events on the entity
      table, live and in replay, each under the keys of its time.
    - [FieldState] ([engine/field-state.ts], [screen-helpers.ts]): locks,
      conditional options and requirements.
    - [Executor] ([db/event-store-executor-write.ts] and its helpers): the five
      write verbs as programs on the log and the entity table;
      [ExecutorProofs] has their theorems.
    - [ShadowSwap] ([db/queries/shadow-swap.ts], [rebuild-rls-guard.ts],
      [rls-shape.ts]): the checks around a rebuild, guards and drift report.
    - [ProjectionRebuild] ([pipeline/projection-rebuild.ts],
      [db/queries/projection-rebuild.ts], [engine/registry-state.ts]): the
      rebuild as a step machine over the statements of its transaction, and the
      implicit projection of an entity; [RebuildProofs] has its theorems.
    - [MspRebuild] ([pipeline/msp-rebuild.ts]): the rebuild of a multi-stream
      projection and its hand-over to the dispatcher of [DispatcherSafety].

    - [Cursor] ([db/cursor.ts]): paging cursors, with base64url and the JSON of
      strings.
    - [ListRead] ([db/event-store-executor-read.ts] and its [-where], [-filter],
      [-sort] and [-paging] files, [db/entity-field-encryption.ts]): the list of
      an entity, as a statement with its text and its meaning on the rows;
      [ListPaging] has the theorems on pages, [ListScope] those on which rows
      and fields a caller reaches.
    - [EntityCache] ([pipeline/entity-cache.ts]): entries as JSON, read back with
      the reviver that turns text of ISO form into dates.
    - [DetailRead] ([db/event-store-executor-read.ts],
      [event-store-executor-context.ts]): the detail of a row, with the cache
      that details and lists fill while writers commit.
    - [Gates] ([pipeline/pre-handler-gates.ts], [dispatch-shared.ts],
      [system-identity-switch.ts], [errors/classes.ts]): what a command passes
      before its handler runs, and identity switches.  [SecretLeak]
      ([secrets/leak-guard.ts]) is the check of every answer for secrets.
    - [WriteOrigin] ([pipeline/write-origin.ts],
      [engine/personal-data-fields.ts]), [ClientMasking]
      ([pipeline/write-result-masking.ts]) and [CommitSinks]
      ([pipeline/after-rollback-sink.ts]): where a write comes from, what of its
      result a client sees, and the hooks it leaves for the end of the
      transaction, with the ledger they implement.
    - [CommandDispatch], [CommandWrite] ([pipeline/dispatch-write.ts],
      [lifecycle-pipeline.ts], [handler-context-dispatch.ts]) and
      [CommandBatch] ([pipeline/dispatch-batch.ts], [dispatch-nested-write.ts],
      [pre-transaction-reservations.ts]): the command dispatcher, for handlers
      given as trees of effects; a nested write calls the dispatcher again, with
      the depth of nesting as fuel.  [CommandLogic] is a program logic for it,
      [CommandExample] a small shop that runs on it, [CommandProofs] and
      [BatchProofs] have the theorems.
    - [QueryDispatch] ([pipeline/dispatch-query.ts], [dispatch-stream.ts],
      [dispatch-scope.ts], [effective-system-scope.ts],
      [member-read-only-transaction.ts], [api/sse-broker.ts],
      [token-expiry-timer.ts]): queries with their hooks and the read filter of
      their answers, reads on behalf of a resolved member, and streams as a step
      machine over chunks, invalidations, token expiry and the consumer.
    - [HttpRequest] ([api/session-cookies.ts], [origin-middleware.ts],
      [csrf-middleware.ts], [client-ip.ts], [api-constants.ts]),
      [ExtraRoutes] ([server-extra-routes.ts]), [RequestAuth]
      ([auth-middleware.ts], [pat-route-guard.ts], [pat-scope.ts],
      [server-middleware.ts]) and [JwtKeyring] ([jwt.ts]): what a request to the
      API passes before the dispatcher sees it, and the tokens of its sessions.
    - [SqlScript] and [MigrationRunner] ([db/migrate-runner.ts]): splitting a
      file of SQL, and the runs of migrations by sessions that share an advisory
      lock, as a step relation.
    - [MigrationSchema] ([db/migrate-generator.ts], [migrate-change-render.ts],
      [migrate-primary-key.ts], [migrate-rls-diff.ts], [render-ddl.ts],
      [render-rls-ddl.ts]): snapshots, their differences, and a migration as
      lines of statements and comments with their text.  [MigrationCatalog] is
      what the statements do to a catalog of tables, [MigrationTables] what the
      generated ones do to one table, [MigrationReach] the whole migration.

    [EventStore] and [Snapshot] work on the tables of [EventLog]; [AppendCore]
    calls [EventStore.append]; [Delivery], [Dispatcher], [DispatcherAdmin] and
    [Retention] share the rows of [ConsumerState] and the ranges of
    [GapRanges]; [FieldAccess] evaluates the rules of [Ownership].  [TenantDb]
    issues the clauses of [WhereClause]; [Executor] composes [TenantDb]'s
    visibility, [Ownership], [FieldAccess], [FieldState],
    [EventStore.append], [EntityApply] and the projections of [AppendCore].
    [ListRead] and [DetailRead] build their statements from [Ownership],
    [FieldAccess], [WhereClause] and the scope of [TenantDb].
    The dispatcher composes [Gates] (with [FieldAccess] and [RateLimit]),
    [TransitionGuard], [SecretLeak], [WriteOrigin], [Idempotency] and
    [ClientMasking]; the database its handlers change is any type, and so it is
    for [QueryDispatch], which shares [Gates], [FieldAccess] and [SecretLeak].  [MigrationRunner] runs the
    statements that [SqlScript] cuts; [MigrationSchema] writes the files.

    ** What the theorems show

    - Delivery: no committed event is passed over in any interleaving of turns
      and writers; what a turn persists; halt on poison; progress on the oldest
      open event; tenant order; bounded revival; the pre-check hides no work; a
      failed pass costs nothing; turn slots are bounded; operator recovery
      and pruning lose no event.
    - Log: every reachable log is well formed; [append] decides exactly; a
      second writer conflicts; only the appended stream changes; the sweep is
      complete; snapshots equal replay; migrations compose, and quarantine
      loses no event; a handler's append passes every guard.
    - Access: the SQL clause and the row check agree, where Postgres compares
      the claims with the columns as JavaScript does; write checks do not
      straddle roles; filtered reads do not leak; a membership never unlocks a
      reserved role.
    - Executor: whatever verbs run, the log grows exactly by the accepted ones
      and the entity table is the replay of the log, each event under the keys
      of its time (a refinement); an accepted
      update has passed every guard on rows that really were there, whatever
      other transactions commit in between; forget erases; restore undoes
      delete.
    - Tenancy: through a tenant handle reads stay within the tenant and the
      reference data, writes touch the tenant's own rows only; no change of
      roles escalates; where clauses are complete.
    - Reads: following the cursors of a list visits every row once, in order;
      listed rows are in the caller's scope, and fields the caller may not read
      are not probed; cursors decode to what was encoded; a detail read served
      from the cache is the one the table gives, up to the types that its JSON
      does not keep.
    - Queries: an answered query passed every gate, holds no secret and shows of
      each row only what the caller may read on it, where a list under the key
      rows makes an answer a page; a
      member's read leaves the database as it was; a stream ends with the access
      it was opened under, whatever its events are, and cleans up once.
    - State: the transition guard decides by the declared edges, and state
      fields walk the declared graph; conditional options decide.
    - Rebuild: a rebuild that commits has installed the replay of every
      subscribed event, whatever is appended before the fence, and of what it
      saw of the log if streams are archived meanwhile; it ends; the table of an
      entity equals its rebuild but for the values of subjects erased since; a multi-stream rebuild leaves a cursor
      row from which the live consumer passes over nothing.
    - Requests: one owner per lock; no double execution within a lock's life; a stale owner cannot
      store; the token bucket's bound, its advertised wait, and batches that
      are charged all or nothing.
    - Commands: the gates pass exactly when every check does, bill a bucket once
      per request, and an ungranted identity switch never widens access; a
      request of an anonymous visitor without public intake adds no personal
      data at any depth; nested dispatches end; a batch that fails leaves its
      database as it was, and sends only what its handlers send directly; the key
      of a request holds exactly what was returned, or stays as others left it;
      clients see masked results; nested children cannot name their parent; the
      hook lists of a transaction implement its ledger of savepoints.
    - Requests to the API: a request behind the guards runs as the caller its
      one credential names, or anonymously for a tenant the server accepts; a
      cookie changes state only with its CSRF token and past the origin guard;
      declared routes leave the guards of the framework's listed paths in place;
      rotating keys
      ends no session; spoofed addresses are ignored.
    - Migrations: the splitter cuts exactly at statement ends; whatever
      sessions, baselines and lost connections interleave, a migration runs
      exactly once and in order; a failed run resumes where it stopped; a
      generated migration takes the catalog of the previous snapshot to that of
      the declared tables, where Postgres casts the types and accepts the
      defaults it changes.
    - Range and name algebra used by the above.

    ** Conventions

    A Postgres transaction that throws returns the state it found, apart from
    drawn sequence ids.  Ids and versions are integers in [Z], with the int4
    bound of the version column written out; the source keeps bigints as decimal
    strings.  Instants are epoch milliseconds.  A handler is a function on a
    world whose effects survive its own error.  READ COMMITTED visibility is
    explicit: a turn gets an [Observation] with what each statement sees, and
    [DispatcherSafety] derives observations from a log with uncommitted rows.

    Loops without structural recursion take fuel: the sweep needs one batch per
    stored row and an empty one; an upcast needs as many steps as versions
    between stored and current; a rebuild takes as many steps as [ends] finds
    from the events left to drain; a request whose handlers dispatch only
    handlers of lower rank needs the rank of its commands, and the claim of its
    key a moment for each command of [Idempotency.check]; a run of migrations
    takes one step per file and five more; the [cause] chain is cut at the source's own
    depth of eight.  The theorems on these show that this fuel suffices.

    Parameters stand for code outside the files: the encryption of payloads,
    handlers, reducers, migrations, payload schemas, projection functions, the
    lint and truth of raw SQL rules, LIKE, ordering and jsonb containment in
    Postgres ([PgSemantics]), and what the executor takes from other parts
    ([Services]: encryption, compound types, file handles, hooks).  AES-GCM, HMAC
    and [JSON.parse] are [Crypto], the key store at one instant is [Keys]; a
    later instant may have lost keys ([keys_age]).  How Postgres compares a bound
    claim with a column is [SqlSemantics], its casts and defaults [PgTypes], and
    reading and printing dates [Dates].  What other clients of Redis do between
    the commands of a request, and when, is its [RequestTime].
    For lists they are the clauses of parent rows and read gates, the order of a
    column ([ColumnOrder]) with the text of its values ([cursor_faithful]), and
    the sort expressions of reference and derived fields; for details what
    decodes, decrypts and encrypts a row ([RowCodec]).
    For queries they are the handlers, the hooks and the generators of streams,
    and the SQLSTATE of what a handler throws ([rc_sqlstate]).
    For requests they are the parsers of cookies and URLs ([Platform]), the
    stores of sessions, tokens and tenants, and the token library ([Jose] with
    [jose_laws]).
    For migrations they are what a statement of a file does to the database, the
    hash of a file, the scan for retired tables and the date of a header.
    [interfere k] is what other transactions commit before statement [k].  [SnapshotLaws] states what Postgres
    documents about the xmin of a snapshot; [past_highest_completed], the
    manual's xmin and xmax, satisfies it.  The dispatcher needs more, that a
    sampled xmax is above the open writers ([samples_above_writers]): it would
    hold of the next unassigned transaction id, which the source takes xmax to
    be, and [documented_xmax_passes_over_an_event] is a run of the documented
    bounds without it in which a committed event is lost.  The hand-over of a
    multi-stream rebuild needs the same of its snapshot
    ([unlisted_writer_is_passed_over] is the case without).

    ** Not modelled

    NOTIFY and LISTEN, timers and telemetry; raw statements, aggregates and
    joins; full-text search, aggregates and derived columns of the entity reads,
    the feature registry, the routes of login and their answers, server-sent
    events, websockets, jobs, search, files, the encryption of secrets, user
    interface and tooling; the replay of migrations in a scratch database.  A
    generated statement is taken to succeed where its outcome depends on rows or
    on the expressions of predicates.  Work that the dispatcher starts in
    parallel runs one after the other; the keys of event dedup are read at one
    instant per batch.  Handlers of the dispatcher do not use raw SQL or the
    handle outside their transaction.
    Parts that could follow, in order: money and compound types, aggregates and
    searches of lists, and the feature registry. *)

From stdpp Require Export base gmap strings list sorting numbers pretty.
From Stdlib Require Export ZArith Lia.
From Stdlib Require QArith.

#[export] Set Default Proof Using "Type".
#[export] Set Default Goal Selector "!".

Declare Scope kumiko_scope.
Delimit Scope kumiko_scope with kumiko.
Open Scope kumiko_scope.

(** ** Fallible code

    A function that throws in the source returns [Err e]; the exception class
    and its fields are the constructors of the component's error type. *)

Inductive result (E A : Type) : Type :=
| Ok (a : A)
| Err (e : E).
Arguments Ok {E A} a.
Arguments Err {E A} e.

Definition result_bind {E A B} (f : A → result E B) (r : result E A) : result E B :=
  match r with Ok a => f a | Err e => Err e end.

Definition result_map {E A B} (f : A → B) (r : result E A) : result E B :=
  match r with Ok a => Ok (f a) | Err e => Err e end.

Definition is_ok {E A} (r : result E A) : bool :=
  match r with Ok _ => true | Err _ => false end.

Notation "'let?' x ':=' c1 'in' c2" :=
  (result_bind (λ x, c2) c1)
  (at level 10, x pattern, c1 at level 100, c2 at level 200)
  : kumiko_scope.

(** ** JavaScript values

    [Json] is the value language of payloads, rows and claims.  An object is
    its list of own enumerable entries in insertion order, which is the order
    [Object.entries] walks; a missing key reads as [None] (the source's
    [undefined]). *)

Inductive Json : Type :=
| JNull
| JBool (b : bool)
| JNum (n : Z)
| JStr (s : string)
| JArr (l : list Json)
| JObj (kvs : list (string * Json)).

Definition Row : Type := list (string * Json).

#[export] Instance Json_eq_dec : EqDecision Json.
Proof.
  refine (fix go (a b : Json) {struct a} : Decision (a = b) :=
    match a, b with
    | JNull, JNull => left eq_refl
    | JBool x, JBool y => cast_if (decide (x = y))
    | JNum x, JNum y => cast_if (decide (x = y))
    | JStr x, JStr y => cast_if (decide (x = y))
    | JArr x, JArr y => cast_if ((fix gol (l k : list Json) : Decision (l = k) :=
        match l, k with
        | [], [] => left eq_refl
        | v :: l', w :: k' => cast_if_and (go v w) (gol l' k')
        | _, _ => right _
        end) x y)
    | JObj x, JObj y => cast_if ((fix gol (l k : list (string * Json)) : Decision (l = k) :=
        match l, k with
        | [], [] => left eq_refl
        | (n, v) :: l', (m, w) :: k' => cast_if_and3 (decide (n = m)) (go v w) (gol l' k')
        | _, _ => right _
        end) x y)
    | _, _ => right _
    end); abstract congruence.
Defined.

(** [obj[key]] on a plain object. *)
Fixpoint assoc_get {V} (k : string) (m : list (string * V)) : option V :=
  match m with
  | [] => None
  | (k', v) :: m' => if decide (k' = k) then Some v else assoc_get k m'
  end.

(** [obj[key] = v]: an existing key keeps its position, a new one goes last. *)
Fixpoint assoc_set {V} (k : string) (v : V) (m : list (string * V)) : list (string * V) :=
  match m with
  | [] => [(k, v)]
  | (k', v') :: m' => if decide (k' = k) then (k, v) :: m' else (k', v') :: assoc_set k v m'
  end.

(** [delete obj[key]] *)
Fixpoint assoc_delete {V} (k : string) (m : list (string * V)) : list (string * V) :=
  match m with
  | [] => []
  | (k', v') :: m' => if decide (k' = k) then assoc_delete k m' else (k', v') :: assoc_delete k m'
  end.

(** [{ ...a, ...b }] *)
Definition assoc_spread {V} (a b : list (string * V)) : list (string * V) :=
  foldl (λ acc kv, assoc_set kv.1 kv.2 acc) a b.

(** [a === b] on JSON values: primitives by value; two arrays or two objects
    are distinct references unless they are the same object, and the model
    compares values read from different places, hence [false]. *)
Definition strict_equals (a b : Json) : bool :=
  match a, b with
  | JNull, JNull => true
  | JBool x, JBool y => Bool.eqb x y
  | JNum x, JNum y => Z.eqb x y
  | JStr x, JStr y => bool_decide (x = y)
  | _, _ => false
  end.

(** [Number.isInteger(q) ? q : none]; numbers a caller may pass with a
    fraction are rationals. *)
Definition integer_of (q : QArith_base.Q) : option Z :=
  let r := Qreduction.Qred q in
  if (Zpos (QArith_base.Qden r) =? 1)%Z then Some (QArith_base.Qnum r) else None.

(** ** Strings *)

Definition char_is (c : Ascii.ascii) (d : string) : bool :=
  match d with String e EmptyString => Ascii.eqb c e | _ => false end.

(** [s.indexOf(c)] for a one-character needle; [None] is [-1]. *)
Fixpoint index_of (c : Ascii.ascii) (s : string) : option nat :=
  match s with
  | EmptyString => None
  | String d s' => if Ascii.eqb d c then Some 0 else S <$> index_of c s'
  end.

Definition string_includes (c : Ascii.ascii) (s : string) : bool :=
  match index_of c s with Some _ => true | None => false end.

(** [s.slice(0, n)] and [s.slice(n)] for [0 <= n]. *)
Fixpoint slice_to (n : nat) (s : string) : string :=
  match n, s with
  | S n', String c s' => String c (slice_to n' s')
  | _, _ => EmptyString
  end.

Fixpoint slice_from (n : nat) (s : string) : string :=
  match n, s with
  | 0, _ => s
  | S n', String _ s' => slice_from n' s'
  | S _, EmptyString => EmptyString
  end.

(** [s.split(c)] for a one-character separator: never the empty list. *)
Fixpoint split_on (c : Ascii.ascii) (s : string) : list string :=
  match s with
  | EmptyString => [EmptyString]
  | String d s' =>
      if Ascii.eqb d c then EmptyString :: split_on c s'
      else match split_on c s' with
           | [] => [String d EmptyString]
           | w :: ws => String d w :: ws
           end
  end.

(** [parts.join(sep)] *)
Fixpoint join_with (sep : string) (parts : list string) : string :=
  match parts with
  | [] => EmptyString
  | [w] => w
  | w :: ws => w +:+ sep +:+ join_with sep ws
  end.

(** [s.startsWith(p)] *)
Fixpoint starts_with (p s : string) : bool :=
  match p, s with
  | EmptyString, _ => true
  | String c p', String d s' => Ascii.eqb c d && starts_with p' s'
  | String _ _, EmptyString => false
  end.

(** [s.endsWith(p)] *)
Definition ends_with (p s : string) : bool :=
  (String.length p <=? String.length s)%nat
  && bool_decide (slice_from (String.length s - String.length p) s = p).

(** The ASCII part of [toLowerCase]. *)
Definition lower_ascii (c : Ascii.ascii) : Ascii.ascii :=
  let n := Ascii.nat_of_ascii c in
  if (65 <=? n)%nat && (n <=? 90)%nat then Ascii.ascii_of_nat (n + 32) else c.

Fixpoint to_lower (s : string) : string :=
  match s with
  | EmptyString => EmptyString
  | String c s' => String (lower_ascii c) (to_lower s')
  end.

(** ASCII white space. *)
Definition is_space (c : Ascii.ascii) : bool :=
  let n := Ascii.nat_of_ascii c in ((9 <=? n)%nat && (n <=? 13)%nat) || (n =? 32)%nat.

Fixpoint trim_start (s : string) : string :=
  match s with
  | EmptyString => EmptyString
  | String c s' => if is_space c then trim_start s' else s
  end.

Fixpoint trim_end (s : string) : string :=
  match s with
  | EmptyString => EmptyString
  | String c s' => match trim_end s' with
                   | EmptyString => if is_space c then EmptyString else String c EmptyString
                   | t => String c t
                   end
  end.

(** [s.trim()], for ASCII white space. *)
Definition trim (s : string) : string := trim_end (trim_start s).

(** ** Sorting by an integer key *)

Section sort_by.
Context {A : Type} (key : A → Z).

Definition key_le (a b : A) : Prop := (key a ≤ key b)%Z.

#[global] Instance key_le_dec (a b : A) : Decision (key_le a b) := Z_le_dec (key a) (key b).

(** [xs.sort((a, b) => key(a) - key(b))] and SQL's [ORDER BY key ASC]. *)
Definition sort_by (l : list A) : list A := merge_sort key_le l.
End sort_by.

(** ** Automation *)

Create HintDb kumiko.
Create Rewrite HintDb kumiko.

(** Splits every boolean, [decide] and [match] of the goal and closes the
    branches that the hypotheses refute. *)
Ltac branches :=
  repeat (case_decide || case_match || case_bool_decide);
  simplify_eq/=; try done.

(** Turns boolean comparisons of the context into their propositions. *)
Ltac reflect_bools :=
  repeat match goal with
  | H : (_ && _) = true |- _ => apply andb_prop in H as [? ?]
  | H : (_ <=? _)%Z = true |- _ => apply Z.leb_le in H
  | H : (_ <=? _)%Z = false |- _ => apply Z.leb_gt in H
  | H : (_ <? _)%Z = true |- _ => apply Z.ltb_lt in H
  | H : (_ <? _)%Z = false |- _ => apply Z.ltb_ge in H
  | H : (_ =? _)%Z = true |- _ => apply Z.eqb_eq in H
  | H : (_ =? _)%Z = false |- _ => apply Z.eqb_neq in H
  | H : negb _ = true |- _ => apply negb_true_iff in H
  | H : negb _ = false |- _ => apply negb_false_iff in H
  | H : bool_decide _ = true |- _ => apply bool_decide_eq_true in H
  | H : bool_decide _ = false |- _ => apply bool_decide_eq_false in H
  end.

(** ** Lemmas on results *)

Lemma result_bind_Ok {E A B} (f : A → result E B) r b :
  result_bind f r = Ok b ↔ ∃ a, r = Ok a ∧ f a = Ok b.
Proof. destruct r; naive_solver. Qed.

Lemma result_bind_Err {E A B} (f : A → result E B) r e :
  result_bind f r = Err e ↔ r = Err e ∨ ∃ a, r = Ok a ∧ f a = Err e.
Proof. destruct r; naive_solver. Qed.

(** ** Lemmas on strings *)

Lemma string_app_assoc (a b c : string) : a +:+ (b +:+ c) = (a +:+ b) +:+ c.
Proof.
  induction a as [|x a IH]; [done|].
  change (String x (a +:+ (b +:+ c)) = String x ((a +:+ b) +:+ c)). by rewrite IH.
Qed.

Lemma slice_from_app p s : slice_from (String.length p) (p +:+ s) = s.
Proof. induction p as [|c p IH]; [by destruct s|exact IH]. Qed.

Lemma starts_with_app p s : starts_with p (p +:+ s) = true.
Proof. induction p as [|c p IH]; simpl; [done|]. by rewrite Ascii.eqb_refl. Qed.

Lemma starts_with_split p s : starts_with p s = true → s = p +:+ slice_from (String.length p) s.
Proof.
  revert s. induction p as [|c p IH]; intros s; [by destruct s|]. destruct s as [|d s]; [done|].
  simpl. intros [->%Ascii.eqb_eq H]%andb_prop. change (String d s = String d (p +:+ slice_from (String.length p) s)).
  f_equal. by apply IH.
Qed.

Lemma split_not_nil c s : split_on c s ≠ [].
Proof. destruct s as [|d s]; simpl; [done|]. by repeat case_match. Qed.

Lemma split_on_app c a b : split_on c (a +:+ String c b) = split_on c a ++ split_on c b.
Proof.
  induction a as [|d a IH]; [simpl; by rewrite Ascii.eqb_refl|].
  change (split_on c (String d a +:+ String c b)) with
    (if Ascii.eqb d c then "" :: split_on c (a +:+ String c b)
     else match split_on c (a +:+ String c b) with [] => [String d ""] | w :: ws => String d w :: ws end).
  rewrite IH. simpl. destruct (Ascii.eqb d c); [done|]. destruct (split_on c a) eqn:Ha; [by destruct (split_not_nil _ _ Ha)|done].
Qed.

Lemma split_on_free c s : string_includes c s = false → split_on c s = [s].
Proof.
  unfold string_includes. induction s as [|d s IH]; [done|]. cbn [index_of split_on]. destruct (Ascii.eqb d c); [done|].
  destruct (index_of c s); [done|]. intros _. by rewrite IH.
Qed.

Lemma split_on_join c parts : parts ≠ [] → Forall (λ s, string_includes c s = false) parts →
  split_on c (join_with (String c "") parts) = parts.
Proof.
  intros Hne Hp. induction Hp as [|s parts Hs Hp IH]; [done|]. destruct parts as [|t parts]; [by apply split_on_free|].
  change (join_with (String c "") (s :: t :: parts)) with (s +:+ String c (join_with (String c "") (t :: parts))).
  rewrite split_on_app, split_on_free, IH by done. done.
Qed.

(** ** Lemmas on association lists *)

Lemma assoc_get_set_eq {V} k (v : V) m : assoc_get k (assoc_set k v m) = Some v.
Proof. induction m as [|[k' v'] m IH]; simpl; repeat case_decide; simpl; by repeat case_decide. Qed.

Lemma assoc_get_set_ne {V} k k' (v : V) m :
  k ≠ k' → assoc_get k (assoc_set k' v m) = assoc_get k m.
Proof.
  intros Hne. induction m as [|[j w] m IH]; simpl; repeat case_decide; simpl;
    repeat case_decide; simplify_eq; done.
Qed.

Lemma assoc_get_delete_eq {V} k (m : list (string * V)) : assoc_get k (assoc_delete k m) = None.
Proof. induction m as [|[k' v'] m IH]; simpl; repeat case_decide; simpl; by repeat case_decide. Qed.

Lemma assoc_get_delete_ne {V} k k' (m : list (string * V)) :
  k ≠ k' → assoc_get k (assoc_delete k' m) = assoc_get k m.
Proof.
  intros Hne. induction m as [|[j w] m IH]; simpl; repeat case_decide; simpl;
    repeat case_decide; simplify_eq; done.
Qed.

Lemma assoc_get_elem_of {V} k (v : V) m : assoc_get k m = Some v → (k, v) ∈ m.
Proof.
  induction m as [|[k' v'] m IH]; simpl; [done|]. case_decide; intros; simplify_eq; set_solver.
Qed.

Lemma assoc_get_None {V} k (m : list (string * V)) : assoc_get k m = None ↔ k ∉ m.*1.
Proof.
  induction m as [|[k' v'] m IH]; simpl; [set_solver|].
  case_decide; subst; [|rewrite IH]; set_solver.
Qed.

#[export] Hint Rewrite @assoc_get_set_eq @assoc_get_delete_eq : kumiko.
#[export] Hint Resolve assoc_get_elem_of : kumiko.

(** ** Lemmas on sorting *)

Section sort_by_lemmas.
Context {A : Type} (key : A → Z).

#[global] Instance key_le_trans : Transitive (key_le key).
Proof. unfold key_le; intros ???; lia. Qed.

#[global] Instance key_le_total : Total (key_le key).
Proof. unfold key_le; intros ??; lia. Qed.

Lemma sort_by_perm l : sort_by key l ≡ₚ l.
Proof. apply merge_sort_Permutation. Qed.

Lemma elem_of_sort_by x l : x ∈ sort_by key l ↔ x ∈ l.
Proof. by rewrite sort_by_perm. Qed.

Lemma length_sort_by l : length (sort_by key l) = length l.
Proof. by rewrite sort_by_perm. Qed.

Lemma sort_by_nil l : sort_by key l = [] → l = [].
Proof. intros Hl. apply Permutation_nil_r. by rewrite <- Hl, sort_by_perm. Qed.

Lemma sort_by_sorted l : StronglySorted (key_le key) (sort_by key l).
Proof. apply StronglySorted_merge_sort; apply _. Qed.

Lemma key_sorted_cons x l :
  StronglySorted (key_le key) (x :: l) ↔
  (∀ y, y ∈ l → (key x ≤ key y)%Z) ∧ StronglySorted (key_le key) l.
Proof. rewrite StronglySorted_cons, Forall_forall. naive_solver. Qed.

Lemma key_sorted_take n l :
  StronglySorted (key_le key) l → StronglySorted (key_le key) (take n l).
Proof.
  intros Hs. rewrite <- (take_drop n l) in Hs. by eapply StronglySorted_app_1_l.
Qed.

(** [LIMIT n] over an ordered scan: a row it leaves out implies a full result
    whose rows all come before it. *)
Lemma take_sorted_leaves_out n l x :
  StronglySorted (key_le key) l → x ∈ l → x ∉ take n l →
  length (take n l) = n ∧ ∀ y, y ∈ take n l → (key y ≤ key x)%Z.
Proof.
  intros Hs Hx Hn. pose proof (take_drop n l) as Htd.
  assert (Hd : x ∈ drop n l) by (rewrite <- Htd in Hx; set_solver).
  split.
  - rewrite length_take. apply list_elem_of_lookup in Hd as [i Hi].
    apply lookup_lt_Some in Hi. rewrite length_drop in Hi. lia.
  - intros y Hy. rewrite <- Htd in Hs.
    by apply (StronglySorted_app_1_elem_of _ _ _ y x) in Hs.
Qed.

Lemma key_sorted_last l x y :
  StronglySorted (key_le key) l → last l = Some y → x ∈ l → (key x ≤ key y)%Z.
Proof.
  intros Hs Hl Hx. apply last_Some in Hl as [l' ->].
  rewrite elem_of_app, list_elem_of_singleton in Hx.
  destruct Hx as [Hx| ->]; [|done].
  apply (StronglySorted_app_1_elem_of _ _ _ x y) in Hs; set_solver.
Qed.

(** Distinct elements of a strictly ordered list have distinct keys. *)
Lemma key_strict_inj l a b :
  StronglySorted (λ a b, (key a < key b)%Z) l → a ∈ l → b ∈ l → key a = key b → a = b.
Proof.
  induction 1 as [|x l Hs IH Hf]; [set_solver|]. rewrite Forall_forall in Hf.
  rewrite !elem_of_cons. intros [->|Ha] [->|Hb] Hk; [done|..|by apply IH].
  - specialize (Hf _ Hb); lia.
  - specialize (Hf _ Ha); lia.
Qed.

(** A list that is already in key order is left as it is. *)
Lemma sort_by_id l :
  StronglySorted (λ a b, (key a < key b)%Z) l → sort_by key l = l.
Proof.
  intros Hs. symmetry. apply (StronglySorted_unique_strong (key_le key)).
  - intros a b Ha Hb Hab Hba. rewrite elem_of_sort_by in Hb. unfold key_le in *.
    eapply key_strict_inj; [done..|lia].
  - clear -Hs. induction Hs as [|x l Hs IH Hf]; constructor; [done|].
    eapply Forall_impl; [exact Hf|]. unfold key_le; simpl; lia.
  - apply sort_by_sorted.
  - symmetry; apply sort_by_perm.
Qed.
End sort_by_lemmas.

#[export] Hint Resolve sort_by_sorted key_sorted_take : kumiko.
#[export] Hint Rewrite @elem_of_sort_by : kumiko.

(** ** Lemmas on filters *)

Lemma filter_keeps_all {A} (P : A → Prop) `{∀ x, Decision (P x)} (l : list A) :
  (∀ x, x ∈ l → P x) → filter P l = l.
Proof.
  induction l as [|x l IH]; intros Hp; [done|]. rewrite filter_cons_True by (apply Hp; set_solver).
  rewrite IH; [done|]. intros y Hy. apply Hp. set_solver.
Qed.

Lemma filter_keeps_none {A} (P : A → Prop) `{∀ x, Decision (P x)} (l : list A) :
  (∀ x, x ∈ l → ¬ P x) → filter P l = [].
Proof.
  induction l as [|x l IH]; intros Hp; [done|]. rewrite filter_cons_False by (apply Hp; set_solver).
  apply IH. intros y Hy. apply Hp. set_solver.
Qed.

Lemma strongly_sorted_filter {A} (R : A → A → Prop) (P : A → Prop) `{∀ x, Decision (P x)} (l : list A) :
  StronglySorted R l → StronglySorted R (filter P l).
Proof.
  induction 1 as [|x l Hs IH Hf]; [constructor|]. rewrite filter_cons. case_decide; [|done].
  constructor; [done|]. rewrite Forall_forall in *. intros y [_ Hy]%list_elem_of_filter. auto.
Qed.

Lemma sort_by_strict {A} (key : A → Z) (l : list A) :
  NoDup (key <$> l) → StronglySorted (λ a b, (key a < key b)%Z) (sort_by key l).
Proof.
  intros Hn. assert (Hn' : NoDup (key <$> sort_by key l)) by by rewrite sort_by_perm.
  pose proof (sort_by_sorted key l) as Hs. induction Hs as [|x m Hs IH Hf]; [constructor|].
  apply NoDup_cons in Hn' as [Hx Hn']. constructor; [by apply IH|].
  rewrite Forall_forall in *. intros y Hy. specialize (Hf y Hy). unfold key_le in Hf.
  assert (key x ≠ key y) by (intros Heq; apply Hx; rewrite Heq; by apply list_elem_of_fmap_2). lia.
Qed.

(** A strictly ordered list is what sorting any of its permutations gives. *)
Lemma sort_by_unique {A} (key : A → Z) (k l : list A) :
  StronglySorted (λ a b, (key a < key b)%Z) k → k ≡ₚ l → sort_by key l = k.
Proof.
  intros Hk Hp. rewrite <- (sort_by_id key k Hk). apply (StronglySorted_unique_strong (key_le key)).
  - intros a b Ha Hb Hab Hba. rewrite elem_of_sort_by in Hb. rewrite elem_of_sort_by, <- Hp in Ha.
    unfold key_le in *. eapply key_strict_inj; [done..|lia].
  - apply sort_by_sorted.
  - apply sort_by_sorted.
  - by rewrite !sort_by_perm.
Qed.

Lemma sort_by_filter {A} (key : A → Z) (P : A → Prop) `{∀ x, Decision (P x)} (l : list A) :
  NoDup (key <$> l) → sort_by key (filter P l) = filter P (sort_by key l).
Proof.
  intros Hn. apply sort_by_unique; [by apply strongly_sorted_filter, sort_by_strict|].
  by rewrite sort_by_perm.
Qed.

(** Filtering above a key between two parts of an ordered list leaves the second. *)
Lemma filter_above {A} (key : A → Z) (c : Z) (a b : list A) :
  (∀ x, x ∈ a → (key x ≤ c)%Z) → (∀ x, x ∈ b → (c < key x)%Z) →
  filter (λ x, (c < key x)%Z) (a ++ b) = b.
Proof.
  intros Ha Hb. rewrite filter_app, filter_keeps_none; [|intros x Hx; specialize (Ha x Hx); lia].
  simpl. by apply filter_keeps_all.
Qed.

Lemma strongly_sorted_take {A} (R : A → A → Prop) n (l : list A) :
  StronglySorted R l → StronglySorted R (take n l).
Proof. intros Hs. rewrite <- (take_drop n l) in Hs. by eapply StronglySorted_app_1_l. Qed.

(** An element that a prefix leaves out lies behind all of it. *)
Lemma take_leaves_out {A} (R : A → A → Prop) n (l : list A) x :
  StronglySorted R l → x ∈ l → x ∉ take n l →
  length (take n l) = n ∧ ∀ y, y ∈ take n l → R y x.
Proof.
  intros Hs Hx Hn. assert (Hd : x ∈ drop n l) by (rewrite <- (take_drop n l) in Hx; set_solver).
  split.
  - rewrite length_take. apply list_elem_of_lookup in Hd as [i Hi%lookup_lt_Some].
    rewrite length_drop in Hi. lia.
  - intros y Hy. rewrite <- (take_drop n l) in Hs. by apply (StronglySorted_app_1_elem_of _ _ _ y x) in Hs.
Qed.

Lemma NoDup_fmap_sublist {A B} (f : A → B) (l1 l2 : list A) :
  sublist l1 l2 → NoDup (f <$> l2) → NoDup (f <$> l1).
Proof.
  intros Hs Hn. apply (sublist_NoDup _ _ Hn). clear Hn. induction Hs; simpl; by constructor.
Qed.

(** Fewer than [n] elements come before one of the first [n]. *)
Lemma before_in_take {A} (key : A → Z) n (s t : list A) e :
  StronglySorted (λ a b, (key a < key b)%Z) s → e ∈ take n s → NoDup t →
  (∀ x, x ∈ t → x ∈ s ∧ (key x < key e)%Z) → length t < n.
Proof.
  intros Hs He Ht Hsub. apply elem_of_take in He as (k & Hk & Hlt).
  enough (length t ≤ length (take k s)) by (rewrite length_take in *; lia).
  apply submseteq_length, NoDup_submseteq; [done|]. intros x Hx.
  destruct (Hsub x Hx) as [Hxs Hxe]. rewrite <- (take_drop k s), elem_of_app in Hxs.
  destruct Hxs as [Hxs|Hxs]; [done|]. exfalso.
  rewrite (drop_S _ e) in Hxs by done. apply elem_of_cons in Hxs as [->|Hxs]; [lia|].
  rewrite <- (take_drop_middle s k e Hk) in Hs.
  apply StronglySorted_app_1_r in Hs. apply StronglySorted_cons in Hs as [Hf _].
  rewrite Forall_forall in Hf. specialize (Hf x Hxs). simpl in Hf. lia.
Qed.

Lemma strictly_sorted_keys {A} (key : A → Z) (l : list A) :
  StronglySorted (λ a b, (key a < key b)%Z) l → NoDup (key <$> l).
Proof.
  induction 1 as [|x l Hs IH Hf]; simpl; constructor; [|done].
  rewrite list_elem_of_fmap. intros (y & Hy & Hin). rewrite Forall_forall in Hf.
  specialize (Hf y Hin). lia.
Qed.

(** Elements with distinct keys are decided by their key. *)
Lemma NoDup_key_inj {A B} (key : A → B) (l : list A) a b :
  NoDup (key <$> l) → a ∈ l → b ∈ l → key a = key b → a = b.
Proof.
  intros Hn Ha Hb Heq. apply list_elem_of_lookup in Ha as [i Hi], Hb as [j Hj].
  assert (i = j) as ->; [|by simplify_eq].
  apply (NoDup_lookup (key <$> l) i j (key a) Hn); rewrite list_lookup_fmap.
  - by rewrite Hi.
  - by rewrite Hj, Heq.
Qed.

Lemma elem_of_key_dec {A} (key : A → Z) (l m : list A) a :
  NoDup (key <$> l) → a ∈ l → (∀ x, x ∈ m → x ∈ l) → a ∈ m ∨ a ∉ m.
Proof.
  intros Hn Ha Hm. destruct (decide (key a ∈ key <$> m)) as [Hin|Hout].
  - left. apply list_elem_of_fmap in Hin as (b & Hk & Hb).
    by rewrite (NoDup_key_inj key l a b Hn Ha (Hm b Hb) Hk).
  - right. intros Hin. by apply Hout, list_elem_of_fmap_2.
Qed.
