(* ===== verification/Origins.v ===== *)
(** * Write origins

    [WriteOrigin] of [types/src/event-store-types.ts]: the root handler a write
    goes back to, passed along every nested dispatch and kept, as JSON, in the
    metadata of events, with its parser of [pipeline/write-origin.ts]. *)

From S2P Require Import Prelude.

Record WriteOrigin := mkOrigin {
  wo_rootHandler : string;
  wo_anonymousRoot : bool;
  wo_publicIntake : bool;
  wo_viaJob : option string }.

#[export] Instance WriteOrigin_eq_dec : EqDecision WriteOrigin.
Proof. solve_decision. Defined.

Definition isPersonalDataGated (origin : WriteOrigin) : bool := wo_anonymousRoot origin && negb (wo_publicIntake origin).

(** The JSON of an origin, and its strict schema. *)
Definition write_origin_json (o : WriteOrigin) : Json :=
  JObj ([("rootHandler", JStr (wo_rootHandler o)); ("anonymousRoot", JBool (wo_anonymousRoot o));
         ("publicIntake", JBool (wo_publicIntake o))]
        ++ match wo_viaJob o with Some job => [("viaJob", JStr job)] | None => [] end).

Definition parseWriteOrigin (value : Json) : option WriteOrigin :=
  match value with
  | JObj kvs =>
      if forallb (λ kv, bool_decide (kv.1 ∈ ["rootHandler"; "anonymousRoot"; "publicIntake"; "viaJob"])) kvs then
        match assoc_get "rootHandler" kvs, assoc_get "anonymousRoot" kvs, assoc_get "publicIntake" kvs, assoc_get "viaJob" kvs with
        | Some (JStr h), Some (JBool a), Some (JBool p), None => Some (mkOrigin h a p None)
        | Some (JStr h), Some (JBool a), Some (JBool p), Some (JStr j) => Some (mkOrigin h a p (Some j))
        | _, _, _, _ => None
        end
      else None
  | _ => None
  end.

Lemma parse_write_origin_json o : parseWriteOrigin (write_origin_json o) = Some o.
Proof. by destruct o as [h a p [job|]]. Qed.
