(* ===== verification/GapRanges.v ===== *)
(** * Pending gap ranges

    Models [packages/framework/src/pipeline/pending-gap-ranges.ts]: the id
    ranges below a consumer's cursor that it is still watching.  The source
    stores [from], [to] and [xmax] as decimal strings of bigints; every
    operation converts them with [BigInt] first, so the model keeps the
    integers.  The theorems say which ids a list of ranges covers after each
    operation, that the optimised subtraction agrees with the simple one, and
    that merging never lowers the transaction bound of a covered id. *)

From S2P Require Import Prelude.

Open Scope Z_scope.

(** ** Data and operations *)

Record PendingGapEntry := mkGap { gap_from : Z; gap_to : Z; gap_xmax : Z }.

#[export] Instance PendingGapEntry_eq_dec : EqDecision PendingGapEntry.
Proof. solve_decision. Defined.

Record PendingIdRange := mkRange { range_from : Z; range_to : Z }.

Definition toIdRanges (gaps : list PendingGapEntry) : list PendingIdRange :=
  (λ g, mkRange (gap_from g) (gap_to g)) <$> gaps.

Definition rangeContainsId (range : PendingGapEntry) (id : Z) : bool :=
  (gap_from range <=? id) && (id <=? gap_to range).

Definition isRangeFullyCoveredByFetch (range : PendingGapEntry) (truncated : bool)
    (maxFetchedId : option Z) : bool :=
  if negb truncated then true
  else match maxFetchedId with
       | None => false
       | Some m => gap_to range <? m
       end.

(** The loop body of [partitionBurntGaps] for one gap. *)
Definition isBurnt (fetchedIds : list Z) (truncated : bool) (xminNow : Z)
    (gap : PendingGapEntry) : bool :=
  let maxFetchedId := last fetchedIds in
  let hasVisibleId := existsb (rangeContainsId gap) fetchedIds in
  negb hasVisibleId
  && isRangeFullyCoveredByFetch gap truncated maxFetchedId
  && (gap_xmax gap <=? xminNow).

(** [(burnt, surviving)] *)
Definition partitionBurntGaps (gaps : list PendingGapEntry) (fetchedIds : list Z)
    (truncated : bool) (xminNow : Z) : list PendingGapEntry * list PendingGapEntry :=
  foldl (λ '(burnt, surviving) gap,
           if isBurnt fetchedIds truncated xminNow gap
           then (burnt ++ [gap], surviving) else (burnt, surviving ++ [gap]))
        ([], []) gaps.

(** The [for] loop of [splitRangeExcludingIds]: [cursor] is the next id not
    yet emitted. *)
Fixpoint split_loop (to xmax cursor : Z) (inRange : list Z) : list PendingGapEntry :=
  match inRange with
  | [] => if cursor <=? to then [mkGap cursor to xmax] else []
  | id :: rest =>
      (if cursor <? id then [mkGap cursor (id - 1) xmax] else [])
      ++ split_loop to xmax (id + 1) rest
  end.

Definition splitRangeExcludingIds (range : PendingGapEntry) (excludeIds : list Z)
    : list PendingGapEntry :=
  let inRange := sort_by id (filter (λ id, rangeContainsId range id = true) excludeIds) in
  match inRange with
  | [] => [range]
  | _ => split_loop (gap_to range) (gap_xmax range) (gap_from range) inRange
  end.

(** The two [while] loops of [subtractSortedIdsFromRanges]; the list is the
    suffix of [sortedIds] from the forward pointer. *)
Fixpoint skip_below (from : Z) (ids : list Z) : list Z :=
  match ids with
  | id :: rest => if id <? from then skip_below from rest else ids
  | [] => []
  end.

Fixpoint take_through (to : Z) (ids : list Z) : list Z * list Z :=
  match ids with
  | id :: rest =>
      if id <=? to then let '(inside, tail) := take_through to rest in (id :: inside, tail)
      else ([], ids)
  | [] => ([], [])
  end.

Fixpoint subtract_loop (ranges : list PendingGapEntry) (ids : list Z) : list PendingGapEntry :=
  match ranges with
  | [] => []
  | range :: ranges' =>
      let '(idsInRange, ids') := take_through (gap_to range) (skip_below (gap_from range) ids) in
      splitRangeExcludingIds range idsInRange ++ subtract_loop ranges' ids'
  end.

Definition subtractSortedIdsFromRanges (ranges : list PendingGapEntry) (sortedIds : list Z)
    : list PendingGapEntry :=
  match sortedIds with
  | [] => ranges
  | _ => subtract_loop ranges sortedIds
  end.

Definition capPendingGapsBelowCursor (gaps : list PendingGapEntry) (cursor : Z)
    : list PendingGapEntry :=
  if cursor <=? 0 then []
  else gaps ≫= λ gap,
    if cursor <=? gap_from gap then []
    else [mkGap (gap_from gap) (if cursor <=? gap_to gap then cursor - 1 else gap_to gap)
                (gap_xmax gap)].

(** The loop body of [mergeContiguousGapRanges]; [merged] is kept newest
    first, so [merged.at(-1)] is its head. *)
Definition merge_step (merged : list PendingGapEntry) (gap : PendingGapEntry)
    : list PendingGapEntry :=
  match merged with
  | top :: below =>
      if gap_to top + 1 =? gap_from gap
      then mkGap (gap_from top) (gap_to gap)
                 (if gap_xmax top <? gap_xmax gap then gap_xmax gap else gap_xmax top) :: below
      else gap :: merged
  | [] => [gap]
  end.

Definition mergeContiguousGapRanges (gaps : list PendingGapEntry) : list PendingGapEntry :=
  reverse (foldl merge_step [] (sort_by gap_from gaps)).

(** ** Specification *)

(** The id lies in the range. *)
Definition in_gap (g : PendingGapEntry) (id : Z) : Prop := gap_from g ≤ id ≤ gap_to g.

(** [id] is watched by some range of the list, with bound [x]. *)
Definition watched_at (gaps : list PendingGapEntry) (id x : Z) : Prop :=
  ∃ g, g ∈ gaps ∧ in_gap g id ∧ gap_xmax g = x.

Definition watched (gaps : list PendingGapEntry) (id : Z) : Prop :=
  ∃ g, g ∈ gaps ∧ in_gap g id.

(** Every range holds at least one id. *)
Definition gap_ok (g : PendingGapEntry) : Prop := gap_from g ≤ gap_to g.

(** Ranges in ascending order without overlap. *)
Definition ascending (gaps : list PendingGapEntry) : Prop :=
  StronglySorted (λ a b, gap_to a < gap_from b) gaps.

(** No two neighbours touch. *)
Definition no_touching (gaps : list PendingGapEntry) : Prop :=
  ∀ i a b, gaps !! i = Some a → gaps !! S i = Some b → gap_to a + 1 ≠ gap_from b.

(** ** Lemmas *)

Lemma rangeContainsId_true g id : rangeContainsId g id = true ↔ in_gap g id.
Proof. unfold rangeContainsId, in_gap. rewrite andb_true_iff, !Z.leb_le. done. Qed.

#[export] Hint Rewrite rangeContainsId_true : kumiko.

Lemma watched_app gs hs id : watched (gs ++ hs) id ↔ watched gs id ∨ watched hs id.
Proof. unfold watched. set_solver. Qed.

Lemma watched_cons g gs id : watched (g :: gs) id ↔ in_gap g id ∨ watched gs id.
Proof. unfold watched. set_solver. Qed.

Lemma watched_nil id : watched [] id ↔ False.
Proof. unfold watched. set_solver. Qed.

Lemma watched_bind {A} (f : A → list PendingGapEntry) l id :
  watched (l ≫= f) id ↔ ∃ a, a ∈ l ∧ watched (f a) id.
Proof. unfold watched. set_solver. Qed.

Lemma watched_watched_at gs id : watched gs id ↔ ∃ x, watched_at gs id x.
Proof. unfold watched, watched_at. naive_solver. Qed.

Lemma partitionBurntGaps_spec gaps ids truncated xmin :
  partitionBurntGaps gaps ids truncated xmin =
  (filter (λ g, isBurnt ids truncated xmin g = true) gaps,
   filter (λ g, isBurnt ids truncated xmin g ≠ true) gaps).
Proof.
  unfold partitionBurntGaps.
  assert (H : ∀ b s,
    foldl (λ '(burnt, surviving) gap,
             if isBurnt ids truncated xmin gap
             then (burnt ++ [gap], surviving) else (burnt, surviving ++ [gap])) (b, s) gaps
    = (b ++ filter (λ g, isBurnt ids truncated xmin g = true) gaps,
       s ++ filter (λ g, isBurnt ids truncated xmin g ≠ true) gaps)).
  { induction gaps as [|g gs IH]; intros b s; simpl; [by rewrite !app_nil_r|].
    rewrite !filter_cons. destruct (isBurnt ids truncated xmin g); rewrite IH; simpl;
      by rewrite <- !app_assoc. }
  apply H.
Qed.

Lemma split_loop_spec to x cursor ids :
  StronglySorted (key_le id) ids →
  (∀ i, i ∈ ids → cursor - 1 ≤ i ≤ to) →
  (∀ i, watched (split_loop to x cursor ids) i ↔ cursor ≤ i ≤ to ∧ i ∉ ids) ∧
  (∀ g, g ∈ split_loop to x cursor ids → gap_xmax g = x ∧ gap_ok g ∧ cursor ≤ gap_from g) ∧
  ascending (split_loop to x cursor ids).
Proof.
  revert cursor. induction ids as [|j ids IH]; intros cursor Hs Hin; simpl.
  - case_match; reflect_bools.
    + split_and!.
      * intros i. rewrite watched_cons, watched_nil, elem_of_nil. unfold in_gap; simpl. tauto.
      * intros g. rewrite list_elem_of_singleton. intros ->. unfold gap_ok; simpl. lia.
      * repeat constructor.
    + split_and!; [|set_solver|constructor].
      intros i. rewrite watched_nil. lia.
  - apply key_sorted_cons in Hs as [Hj Hs]. simpl in Hj.
    assert (Hjb := Hin j ltac:(set_solver)).
    destruct (IH (j + 1)) as (Hw & Hg & Ha); [done| |].
    { intros i Hi. specialize (Hj i Hi). specialize (Hin i ltac:(set_solver)). lia. }
    split_and!.
    + intros i. rewrite watched_app, Hw, not_elem_of_cons.
      case_match; reflect_bools.
      * rewrite watched_cons, watched_nil. unfold in_gap; simpl.
        assert (i ∈ ids → j ≤ i) by auto. destruct (decide (i ∈ ids)), (decide (i < j)); intuition lia.
      * rewrite watched_nil. destruct (decide (i = j)); intuition lia.
    + intros g. rewrite elem_of_app. intros [Hg'|Hg'].
      * case_match; reflect_bools; [|set_solver].
        rewrite list_elem_of_singleton in Hg'. subst. unfold gap_ok; simpl. lia.
      * specialize (Hg g Hg'). destruct Hg as (?&?&?). split_and!; [done|done|].
        lia.
    + unfold ascending. case_match; [|done]. simpl. constructor; [done|].
      rewrite Forall_forall. intros g Hg'. specialize (Hg g Hg'). simpl. lia.
Qed.

Lemma splitRangeExcludingIds_spec g ids :
  gap_ok g →
  (∀ i, watched (splitRangeExcludingIds g ids) i ↔ in_gap g i ∧ i ∉ ids) ∧
  (∀ h, h ∈ splitRangeExcludingIds g ids →
        gap_xmax h = gap_xmax g ∧ gap_ok h ∧ gap_from g ≤ gap_from h ∧ gap_to h ≤ gap_to g) ∧
  ascending (splitRangeExcludingIds g ids).
Proof.
  intros Hok. unfold splitRangeExcludingIds.
  set (inR := sort_by id (filter (λ i, rangeContainsId g i = true) ids)).
  assert (HinR : ∀ i, i ∈ inR ↔ in_gap g i ∧ i ∈ ids).
  { intros i. unfold inR. by rewrite elem_of_sort_by, list_elem_of_filter, rangeContainsId_true. }
  assert (Hs : StronglySorted (key_le id) inR) by apply sort_by_sorted.
  clearbody inR.
  assert (Hloop : (∀ i, watched (split_loop (gap_to g) (gap_xmax g) (gap_from g) inR) i
                        ↔ in_gap g i ∧ i ∉ ids) ∧
    (∀ h, h ∈ split_loop (gap_to g) (gap_xmax g) (gap_from g) inR →
        gap_xmax h = gap_xmax g ∧ gap_ok h ∧ gap_from g ≤ gap_from h ∧ gap_to h ≤ gap_to g) ∧
    ascending (split_loop (gap_to g) (gap_xmax g) (gap_from g) inR)).
  { destruct (split_loop_spec (gap_to g) (gap_xmax g) (gap_from g) inR) as (Hw & Hg & Ha); [done| |].
    { intros i [Hi _]%HinR. unfold in_gap in Hi. lia. }
    split_and!; [| |done].
    - intros i. rewrite Hw, HinR. unfold in_gap. tauto.
    - intros h Hh. destruct (Hg h Hh) as (?&Hho&?). split_and!; [done..|].
      assert (Hwh : watched (split_loop (gap_to g) (gap_xmax g) (gap_from g) inR) (gap_to h)).
      { exists h. split; [done|]. unfold in_gap, gap_ok in *. lia. }
      apply Hw in Hwh. lia. }
  destruct inR as [|j inR]; [|exact Hloop].
  split_and!.
  - intros i. rewrite watched_cons, watched_nil. specialize (HinR i). set_solver.
  - intros h. rewrite list_elem_of_singleton. intros ->. split_and!; [done..|lia|lia].
  - repeat constructor.
Qed.

Lemma partitionBurntGaps_complete gaps ids truncated xmin g :
  g ∈ gaps ↔ g ∈ (partitionBurntGaps gaps ids truncated xmin).1
             ∨ g ∈ (partitionBurntGaps gaps ids truncated xmin).2.
Proof.
  rewrite partitionBurntGaps_spec; simpl. rewrite !list_elem_of_filter.
  destruct (decide (isBurnt ids truncated xmin g = true)); tauto.
Qed.

Lemma isBurnt_true ids truncated xmin g :
  isBurnt ids truncated xmin g = true ↔
  (∀ i, i ∈ ids → ¬ in_gap g i) ∧
  (truncated = true → ∃ m, last ids = Some m ∧ gap_to g < m) ∧
  gap_xmax g ≤ xmin.
Proof.
  unfold isBurnt, isRangeFullyCoveredByFetch.
  rewrite !andb_true_iff, negb_true_iff, Z.leb_le.
  assert (Hex : existsb (rangeContainsId g) ids = false ↔ ∀ i, i ∈ ids → ¬ in_gap g i).
  { rewrite <- not_true_iff_false, existsb_exists.
    setoid_rewrite <- list_elem_of_In. setoid_rewrite rangeContainsId_true. naive_solver. }
  rewrite Hex. destruct truncated; simpl.
  - destruct (last ids) as [m|]; [rewrite Z.ltb_lt|]; naive_solver.
  - naive_solver.
Qed.

(** *** Subtraction *)

Lemma skip_below_spec from ids :
  StronglySorted Z.lt ids →
  StronglySorted Z.lt (skip_below from ids) ∧
  ∀ i, i ∈ skip_below from ids ↔ i ∈ ids ∧ from ≤ i.
Proof.
  induction 1 as [|j ids Hs [IHs IHi] Hj]; simpl; [split; [constructor|set_solver]|].
  rewrite Forall_forall in Hj. case_match; reflect_bools.
  - split; [done|]. intros i. rewrite IHi, elem_of_cons. split; [naive_solver|].
    intros [[->|?] ?]; [lia|done].
  - split; [by constructor; [|rewrite Forall_forall]|].
    intros i. rewrite elem_of_cons. split; [|tauto].
    intros [->|Hi]; [tauto|]. specialize (Hj _ Hi). split; [by right|lia].
Qed.

Lemma take_through_spec to ids :
  StronglySorted Z.lt ids →
  StronglySorted Z.lt (take_through to ids).1 ∧ StronglySorted Z.lt (take_through to ids).2 ∧
  (∀ i, i ∈ (take_through to ids).1 ↔ i ∈ ids ∧ i ≤ to) ∧
  (∀ i, i ∈ (take_through to ids).2 ↔ i ∈ ids ∧ to < i).
Proof.
  induction 1 as [|j ids Hs (IH1 & IH2 & IHi & IHo) Hj]; simpl.
  { split_and!; [constructor|constructor|set_solver|set_solver]. }
  rewrite Forall_forall in Hj. case_match eqn:Hjto; reflect_bools.
  - destruct (take_through to ids) as [inside tail] eqn:E; simpl in *. split_and!; [|done|..].
    + constructor; [done|]. rewrite Forall_forall. intros i Hi. apply Hj. by apply IHi.
    + intros i. rewrite !elem_of_cons, IHi. naive_solver.
    + intros i. rewrite elem_of_cons, IHo. split; [naive_solver|].
      intros [[->|?] ?]; [lia|done].
  - split_and!; [constructor|by constructor; [|rewrite Forall_forall]|..]; simpl.
    + intros i. rewrite elem_of_nil, elem_of_cons. split; [done|].
      intros [[->|Hi] ?]; [lia|]. specialize (Hj _ Hi). lia.
    + intros i. rewrite !elem_of_cons. split; [|tauto].
      intros [->|Hi]; [tauto|]. specialize (Hj _ Hi). split; [by right|lia].
Qed.

Lemma sorted_lt_unique (l1 l2 : list Z) :
  StronglySorted Z.lt l1 → StronglySorted Z.lt l2 → (∀ i, i ∈ l1 ↔ i ∈ l2) → l1 = l2.
Proof.
  intros H1. revert l2. induction H1 as [|x l1 Hs IH Hf]; intros l2 H2 Heq.
  - destruct l2 as [|y l2]; [done|]. exfalso. specialize (Heq y). set_solver.
  - destruct H2 as [|y l2 Hs2 Hf2]; [exfalso; specialize (Heq x); set_solver|].
    rewrite Forall_forall in Hf, Hf2.
    assert (x = y) as ->.
    { pose proof (proj1 (Heq x) ltac:(left)) as [->|Hx]%elem_of_cons; [done|].
      pose proof (proj2 (Heq y) ltac:(left)) as [->|Hy]%elem_of_cons; [done|].
      specialize (Hf _ Hy). specialize (Hf2 _ Hx). lia. }
    f_equal. apply IH; [done|]. intros i. specialize (Heq i). rewrite !elem_of_cons in Heq.
    split; intros Hi.
    + specialize (Hf _ Hi). destruct (proj1 Heq ltac:(by right)) as [->|?]; [lia|done].
    + specialize (Hf2 _ Hi). destruct (proj2 Heq ltac:(by right)) as [->|?]; [lia|done].
Qed.

Lemma sorted_lt_key_le (l : list Z) : StronglySorted Z.lt l → sort_by id l = l.
Proof. intros Hs. by apply sort_by_id. Qed.

Lemma sorted_lt_filter (P : Z → Prop) `{∀ x, Decision (P x)} (l : list Z) :
  StronglySorted Z.lt l → StronglySorted Z.lt (filter P l).
Proof.
  induction 1 as [|x l Hs IH Hf]; [constructor|].
  rewrite filter_cons. case_decide; [|done]. constructor; [done|].
  rewrite Forall_forall in *. intros y [_ Hy]%list_elem_of_filter. by apply Hf.
Qed.

(** Only the ids inside the range matter to the split. *)
Lemma splitRangeExcludingIds_inside g (ids1 ids2 : list Z) :
  StronglySorted Z.lt ids1 → StronglySorted Z.lt ids2 →
  (∀ i, in_gap g i → i ∈ ids1 ↔ i ∈ ids2) →
  splitRangeExcludingIds g ids1 = splitRangeExcludingIds g ids2.
Proof.
  intros H1 H2 Heq. unfold splitRangeExcludingIds.
  rewrite !sorted_lt_key_le by by apply sorted_lt_filter.
  rewrite (sorted_lt_unique (filter (λ i, rangeContainsId g i = true) ids1)
             (filter (λ i, rangeContainsId g i = true) ids2)); [done|..].
  - by apply sorted_lt_filter.
  - by apply sorted_lt_filter.
  - intros i. rewrite !list_elem_of_filter, rangeContainsId_true. naive_solver.
Qed.

Lemma subtract_loop_spec ranges ids :
  ascending ranges → Forall gap_ok ranges → StronglySorted Z.lt ids →
  subtract_loop ranges ids = ranges ≫= λ r, splitRangeExcludingIds r ids.
Proof.
  intros Ha. revert ids. induction Ha as [|r ranges Ha IH Hr]; intros ids Hok Hs; simpl; [done|].
  apply Forall_cons in Hok as [Hokr Hok].
  destruct (skip_below_spec (gap_from r) ids Hs) as [Hs1 Hi1].
  destruct (take_through_spec (gap_to r) _ Hs1) as (Ht1 & Ht2 & Hin & Hout).
  destruct (take_through (gap_to r) (skip_below (gap_from r) ids)) as [inside tail]; simpl in *.
  f_equal.
  - apply splitRangeExcludingIds_inside; [done..|].
    intros i [? ?]. rewrite Hin, Hi1. tauto.
  - rewrite IH by done. clear IH.
    assert (Hgo : ∀ h, h ∈ ranges → splitRangeExcludingIds h tail = splitRangeExcludingIds h ids).
    { intros h Hh. apply splitRangeExcludingIds_inside; [done..|].
      rewrite Forall_forall in Hr. specialize (Hr _ Hh).
      intros i [? ?]. rewrite Hout, Hi1. unfold gap_ok in *. intuition lia. }
    by apply Forall_bind_ext, Forall_forall.
Qed.

(** *** Merging *)

Definition bounded_by (gs hs : list PendingGapEntry) : Prop :=
  ∀ i x, watched_at gs i x → ∃ y, x ≤ y ∧ watched_at hs i y.

Lemma merge_step_spec acc g :
  Forall gap_ok acc → gap_ok g →
  (∀ i, watched (merge_step acc g) i ↔ watched acc i ∨ in_gap g i) ∧
  Forall gap_ok (merge_step acc g) ∧
  bounded_by (g :: acc) (merge_step acc g).
Proof.
  intros Hacc Hg. destruct acc as [|top acc]; simpl.
  - split_and!; [|by constructor|].
    + intros i. rewrite watched_cons, watched_nil. tauto.
    + intros i x Hx. exists x. done.
  - apply Forall_cons in Hacc as [Htop Hacc]. unfold gap_ok in Hg, Htop.
    case_match eqn:E; reflect_bools.
    + split_and!.
      * intros i. rewrite !watched_cons. unfold in_gap; simpl.
        destruct (decide (i ≤ gap_to top)); intuition lia.
      * constructor; [|done]. unfold gap_ok; simpl. lia.
      * intros i x (h & Hh & Hi & <-). rewrite !elem_of_cons in Hh.
        destruct Hh as [->|[->|Hh]].
        -- eexists. split; [|eexists; split; [left|]]; unfold in_gap in *; simpl;
             [|split; [lia|done]]. case_match; reflect_bools; lia.
        -- eexists. split; [|eexists; split; [left|]]; unfold in_gap in *; simpl;
             [|split; [lia|done]]. case_match; reflect_bools; lia.
        -- exists (gap_xmax h). split; [lia|]. exists h. split; [by right|done].
    + split_and!; [|by repeat constructor|].
      * intros i. rewrite !watched_cons. tauto.
      * intros i x Hx. exists x. done.
Qed.

Lemma merge_fold_spec acc l :
  Forall gap_ok acc → Forall gap_ok l →
  (∀ i, watched (foldl merge_step acc l) i ↔ watched acc i ∨ watched l i) ∧
  Forall gap_ok (foldl merge_step acc l) ∧
  bounded_by (l ++ acc) (foldl merge_step acc l).
Proof.
  intros Hacc Hl. revert acc Hacc. induction Hl as [|g l Hg Hl IH]; intros acc Hacc; simpl.
  - split_and!; [intros i; rewrite watched_nil; tauto|done|].
    intros i x Hx. exists x. done.
  - destruct (merge_step_spec acc g Hacc Hg) as (Hw & Hok & Hb).
    destruct (IH _ Hok) as (IHw & IHok & IHb). split_and!; [|done|].
    + intros i. rewrite IHw, Hw, watched_cons. tauto.
    + intros i x (h & Hh & Hi & Hx).
      rewrite elem_of_cons, elem_of_app in Hh.
      assert (Hcase : h ∈ l ∨ h ∈ g :: acc) by set_solver. destruct Hcase as [Hh'|Hh'].
      * apply IHb. exists h. split; [set_solver|done].
      * destruct (Hb i x) as (y & Hxy & k & Hk & Hik & Hy); [by exists h|].
        destruct (IHb i y) as (z & ? & ?); [exists k; split; [set_solver|done]|].
        exists z. split; [lia|done].
Qed.

Lemma watched_perm gs hs id : (∀ g, g ∈ gs ↔ g ∈ hs) → watched gs id ↔ watched hs id.
Proof. unfold watched. set_solver. Qed.

Lemma mergeContiguousGapRanges_spec gaps :
  Forall gap_ok gaps →
  (∀ i, watched (mergeContiguousGapRanges gaps) i ↔ watched gaps i) ∧
  Forall gap_ok (mergeContiguousGapRanges gaps) ∧
  bounded_by gaps (mergeContiguousGapRanges gaps).
Proof.
  intros Hok. unfold mergeContiguousGapRanges.
  destruct (merge_fold_spec [] (sort_by gap_from gaps)) as (Hw & Hok' & Hb).
  { constructor. }
  { by rewrite sort_by_perm. }
  split_and!.
  - intros i. rewrite (watched_perm _ (foldl merge_step [] (sort_by gap_from gaps)))
      by (intros; apply elem_of_reverse).
    rewrite Hw, watched_nil.
    rewrite (watched_perm (sort_by gap_from gaps) gaps) by (intros; apply elem_of_sort_by). tauto.
  - by rewrite Forall_reverse.
  - intros i x (g & Hg & Hi & Hx). destruct (Hb i x) as (y & ? & h & Hh & Hih & Hy).
    { exists g. rewrite app_nil_r, elem_of_sort_by. done. }
    exists y. split; [done|]. exists h. by rewrite elem_of_reverse.
Qed.

(** Newest-first list of ranges with a real hole between any two. *)
Definition separated (acc : list PendingGapEntry) : Prop :=
  StronglySorted (λ a b, gap_to b + 1 < gap_from a) acc.

Lemma merge_step_separated acc g :
  separated acc → Forall gap_ok acc → gap_ok g →
  (∀ h, h ∈ acc → gap_to h < gap_from g) →
  separated (merge_step acc g) ∧ (∀ h, h ∈ merge_step acc g → gap_to h ≤ gap_to g).
Proof.
  unfold separated. intros Hs Hok Hg Hlt. destruct acc as [|top acc]; simpl.
  { split; [repeat constructor|]. intros h ->%list_elem_of_singleton; lia. }
  apply StronglySorted_cons in Hs as [Ht Hs]. rewrite Forall_forall in Ht.
  apply Forall_cons in Hok as [Htop Hok]. unfold gap_ok in Htop, Hg.
  assert (Hlt1 := Hlt top ltac:(set_solver)).
  assert (Hle : ∀ h, h ∈ acc → gap_to h ≤ gap_to g).
  { intros h Hh. specialize (Hlt h ltac:(set_solver)). lia. }
  case_match; reflect_bools.
  - split.
    + constructor; [done|]. by rewrite Forall_forall.
    + intros h [->|?]%elem_of_cons; simpl; [lia|by apply Hle].
  - split.
    + constructor; [constructor; [done|by rewrite Forall_forall]|].
      rewrite Forall_cons, Forall_forall. split; [lia|].
      intros h Hh. specialize (Ht _ Hh). lia.
    + intros h [->|[->|?]%elem_of_cons]%elem_of_cons; [lia|lia|by apply Hle].
Qed.

Lemma merge_fold_separated acc l :
  separated acc → Forall gap_ok acc → Forall gap_ok l → ascending l →
  (∀ h g, h ∈ acc → g ∈ l → gap_to h < gap_from g) →
  separated (foldl merge_step acc l).
Proof.
  intros Hsep Hacc Hl Ha Hlt. revert acc Hsep Hacc Hlt.
  induction Ha as [|g l Ha IH Hg]; intros acc Hsep Hacc Hlt; simpl; [done|].
  apply Forall_cons in Hl as [Hokg Hl]. rewrite Forall_forall in Hg.
  destruct (merge_step_separated acc g) as [Hsep' Hle]; [done..| |].
  { intros h Hh. apply Hlt; set_solver. }
  apply IH; [done|done|by apply merge_step_spec|].
  intros h k Hh Hk. specialize (Hle _ Hh). specialize (Hg _ Hk). lia.
Qed.

Lemma mergeContiguousGapRanges_separated gaps :
  Forall gap_ok gaps → ascending (sort_by gap_from gaps) →
  separated (reverse (mergeContiguousGapRanges gaps)).
Proof.
  intros Hok Ha. unfold mergeContiguousGapRanges. rewrite reverse_involutive.
  apply merge_fold_separated; [constructor|constructor| |done|set_solver].
  by rewrite sort_by_perm.
Qed.

Lemma capPendingGapsBelowCursor_elem gaps cursor g :
  g ∈ capPendingGapsBelowCursor gaps cursor →
  0 < cursor ∧ ∃ h, h ∈ gaps ∧ gap_from h < cursor ∧
    g = mkGap (gap_from h) (Z.min (gap_to h) (cursor - 1)) (gap_xmax h).
Proof.
  unfold capPendingGapsBelowCursor. case_match; reflect_bools; [set_solver|].
  rewrite list_elem_of_bind. intros (h & Hg & Hh). split; [done|]. exists h. split; [done|].
  destruct (cursor <=? gap_from h) eqn:?; reflect_bools; [set_solver|].
  apply list_elem_of_singleton in Hg as ->. split; [lia|]. f_equal.
  case_match; reflect_bools; lia.
Qed.

(** ** Disjoint lists of ranges *)

(** Two non-empty ranges without a common id. *)
Definition apart (g h : PendingGapEntry) : Prop := gap_to g < gap_from h ∨ gap_to h < gap_from g.

Definition all_apart (gaps : list PendingGapEntry) : Prop := StronglySorted apart gaps.

Lemma apart_sym g h : apart g h → apart h g.
Proof. unfold apart. tauto. Qed.

Lemma ascending_all_apart gaps : ascending gaps → all_apart gaps.
Proof.
  induction 1 as [|g gs Ha IH Hf]; constructor; [done|].
  eapply Forall_impl; [exact Hf|]. intros h Hh. by left.
Qed.

Lemma all_apart_perm gaps gaps' : gaps ≡ₚ gaps' → all_apart gaps → all_apart gaps'.
Proof.
  induction 1 as [|g l l' Hp IH|g h l|l l' l'' _ IH1 _ IH2]; intros Ha; [done|..|auto].
  - apply StronglySorted_cons in Ha as [Hf Ha]. constructor; [by apply IH|]. by rewrite <- Hp.
  - apply StronglySorted_cons in Ha as [Hf Ha]. apply StronglySorted_cons in Ha as [Hf' Ha].
    apply Forall_cons in Hf as [Hgh Hf]. apply apart_sym in Hgh.
    apply StronglySorted_cons; rewrite Forall_cons. split; [done|]. by apply StronglySorted_cons.
Qed.

Lemma all_apart_sorted gaps :
  Forall gap_ok gaps → all_apart gaps → ascending (sort_by gap_from gaps).
Proof.
  intros Hok Ha. assert (Ha' : all_apart (sort_by gap_from gaps))
    by (eapply all_apart_perm; [symmetry; apply sort_by_perm|done]).
  assert (Hok' : Forall gap_ok (sort_by gap_from gaps)) by by rewrite sort_by_perm.
  pose proof (sort_by_sorted gap_from gaps) as Hs. clear Ha Hok.
  induction Hs as [|g l Hs IH Hf]; [constructor|].
  apply StronglySorted_cons in Ha' as [Hfa Ha']. apply Forall_cons in Hok' as [Hg Hok'].
  constructor; [by apply IH|]. rewrite Forall_forall in *. intros h Hh.
  specialize (Hf h Hh). specialize (Hfa h Hh). specialize (Hok' h Hh).
  unfold key_le, apart, gap_ok in *. lia.
Qed.

Lemma apart_by_ids g h :
  gap_ok g → gap_ok h → (∀ i, in_gap g i → in_gap h i → False) → apart g h.
Proof.
  unfold gap_ok, in_gap, apart. intros Hg Hh Hn.
  destruct (Z_lt_le_dec (gap_to g) (gap_from h)); [by left|].
  destruct (Z_lt_le_dec (gap_to h) (gap_from g)); [by right|].
  exfalso. apply (Hn (Z.max (gap_from g) (gap_from h))); lia.
Qed.

Lemma all_apart_app gaps gaps' :
  Forall gap_ok gaps → Forall gap_ok gaps' → all_apart gaps → all_apart gaps' →
  (∀ i, watched gaps i → watched gaps' i → False) → all_apart (gaps ++ gaps').
Proof.
  intros Hok Hok' Ha Ha' Hn. apply StronglySorted_app_2; [|done|done].
  intros g h Hg Hh. rewrite Forall_forall in Hok, Hok'.
  apply apart_by_ids; [by apply Hok|by apply Hok'|].
  intros i Hig Hih. apply (Hn i); [by exists g|by exists h].
Qed.

Lemma separated_ascending gaps :
  Forall gap_ok gaps → separated (reverse gaps) → ascending gaps.
Proof.
  intros Hok. induction gaps as [|g gaps IH]; [constructor|].
  apply Forall_cons in Hok as [Hg Hok]. rewrite reverse_cons. intros Hs.
  constructor; [by apply IH, (StronglySorted_app_1_l _ _ _ Hs)|].
  apply Forall_forall. intros h Hh.
  assert (Hlt := StronglySorted_app_1_elem_of _ _ _ h g Hs).
  simpl in Hlt. rewrite elem_of_reverse, list_elem_of_singleton in Hlt. specialize (Hlt Hh eq_refl). lia.
Qed.

Lemma ascending_unique gaps g h i :
  ascending gaps → g ∈ gaps → h ∈ gaps → in_gap g i → in_gap h i → g = h.
Proof.
  induction 1 as [|x gs Ha IH Hf]; [set_solver|]. rewrite Forall_forall in Hf.
  unfold in_gap in *. rewrite !elem_of_cons. intros [->|Hg] [->|Hh] Hig Hih; [done|..|by apply IH].
  - specialize (Hf h Hh). simpl in Hf. lia.
  - specialize (Hf g Hg). simpl in Hf. lia.
Qed.

(** Carving ids out of disjoint ranges leaves disjoint ranges. *)
Lemma split_all_spec gaps ids :
  Forall gap_ok gaps → ascending gaps →
  let kept := gaps ≫= λ g, splitRangeExcludingIds g ids in
  Forall gap_ok kept ∧ ascending kept ∧
  (∀ i, watched kept i ↔ watched gaps i ∧ i ∉ ids) ∧
  (∀ i x, watched_at kept i x → watched_at gaps i x) ∧
  (∀ h, h ∈ kept → ∃ g, g ∈ gaps ∧ gap_from g ≤ gap_from h ∧ gap_to h ≤ gap_to g).
Proof.
  intros Hok Ha kept.
  assert (Hsub : ∀ h, h ∈ kept → ∃ g, g ∈ gaps ∧ gap_xmax h = gap_xmax g ∧ gap_ok h ∧
                   gap_from g ≤ gap_from h ∧ gap_to h ≤ gap_to g ∧ h ∈ splitRangeExcludingIds g ids).
  { intros h Hh. unfold kept in Hh. rewrite list_elem_of_bind in Hh. destruct Hh as (g & Hh & Hg).
    exists g. rewrite Forall_forall in Hok.
    destruct (splitRangeExcludingIds_spec g ids (Hok g Hg)) as (_ & Hb & _).
    destruct (Hb h Hh) as (? & ? & ? & ?). done. }
  split_and!.
  - apply Forall_forall. intros h Hh. destruct (Hsub h Hh) as (g & _ & _ & ? & _). done.
  - clear Hsub. unfold kept. induction Ha as [|g gs Ha IH Hf]; simpl; [constructor|].
    apply Forall_cons in Hok as [Hg Hok].
    destruct (splitRangeExcludingIds_spec g ids Hg) as (_ & Hb & Hasc).
    apply StronglySorted_app_2; [|done|by apply IH]. intros h1 h2 H1 H2.
    rewrite list_elem_of_bind in H2. destruct H2 as (g2 & H2 & Hg2).
    rewrite Forall_forall in Hf, Hok. specialize (Hf g2 Hg2). specialize (Hok g2 Hg2).
    destruct (splitRangeExcludingIds_spec g2 ids Hok) as (_ & Hb2 & _).
    destruct (Hb h1 H1) as (_ & _ & _ & ?). destruct (Hb2 h2 H2) as (_ & _ & ? & _). simpl in *. lia.
  - intros i. unfold kept. rewrite watched_bind. split.
    + intros (g & Hg & Hi). rewrite Forall_forall in Hok.
      destruct (splitRangeExcludingIds_spec g ids (Hok g Hg)) as (Hw & _ & _).
      apply Hw in Hi as [Hi Hn]. split; [by exists g|done].
    + intros [(g & Hg & Hi) Hn]. exists g. split; [done|]. rewrite Forall_forall in Hok.
      destruct (splitRangeExcludingIds_spec g ids (Hok g Hg)) as (Hw & _ & _). by apply Hw.
  - intros i x (h & Hh & Hi & <-). destruct (Hsub h Hh) as (g & Hg & Hx & _ & ? & ? & _).
    exists g. unfold in_gap in *. split_and!; [done|lia|lia|done].
  - intros h Hh. destruct (Hsub h Hh) as (g & Hg & _ & _ & ? & ? & _). by exists g.
Qed.

(** ** Properties *)

(** Carving delivered ids out of a watched range watches exactly the
    range's other ids: none is lost and none reappears.  The pieces keep the
    range's transaction bound, are non-empty, lie inside the range, and are in
    ascending order without overlap. *)
Theorem split_watches_exactly_the_rest (g : PendingGapEntry) (excludeIds : list Z)
    (Hok : gap_ok g) :
  (∀ i, watched (splitRangeExcludingIds g excludeIds) i ↔ in_gap g i ∧ i ∉ excludeIds) ∧
  (∀ h, h ∈ splitRangeExcludingIds g excludeIds →
        gap_xmax h = gap_xmax g ∧ gap_ok h ∧ gap_from g ≤ gap_from h ∧ gap_to h ≤ gap_to g) ∧
  ascending (splitRangeExcludingIds g excludeIds).
Proof. by apply splitRangeExcludingIds_spec. Qed.

Lemma split_watches_exactly_the_rest_witness :
  splitRangeExcludingIds (mkGap 5 9 40) [9; 2; 7; 7] = [mkGap 5 6 40; mkGap 8 8 40] ∧
  (∀ i, watched (splitRangeExcludingIds (mkGap 5 9 40) [9; 2; 7; 7]) i
        ↔ in_gap (mkGap 5 9 40) i ∧ i ∉ [9; 2; 7; 7]).
Proof.
  split; [vm_compute; reflexivity|].
  apply (split_watches_exactly_the_rest (mkGap 5 9 40) [9; 2; 7; 7]).
  unfold gap_ok; simpl; lia.
Defined.

(** The single forward pass [subtractSortedIdsFromRanges] over sorted ids
    and ascending ranges returns what carving every id out of every range one
    range at a time returns. *)
Theorem subtract_agrees_with_split (ranges : list PendingGapEntry) (sortedIds : list Z)
    (Hasc : ascending ranges) (Hok : Forall gap_ok ranges) (Hids : StronglySorted Z.lt sortedIds) :
  subtractSortedIdsFromRanges ranges sortedIds
  = ranges ≫= λ r, splitRangeExcludingIds r sortedIds.
Proof.
  destruct sortedIds as [|i ids]; [|by apply subtract_loop_spec].
  simpl. induction ranges as [|r ranges IH]; [done|].
  apply Forall_cons in Hok as [_ Hok]. inversion Hasc; subst.
  rewrite bind_cons, <- IH; done.
Qed.

Lemma subtract_agrees_with_split_witness :
  subtractSortedIdsFromRanges [mkGap 2 4 7; mkGap 6 9 8] [1; 3; 6; 8; 20]
  = [mkGap 2 2 7; mkGap 4 4 7; mkGap 7 7 8; mkGap 9 9 8] ∧
  subtractSortedIdsFromRanges [mkGap 2 4 7; mkGap 6 9 8] [1; 3; 6; 8; 20]
  = ([mkGap 2 4 7; mkGap 6 9 8] ≫= λ r, splitRangeExcludingIds r [1; 3; 6; 8; 20]).
Proof.
  split; [vm_compute; reflexivity|].
  apply subtract_agrees_with_split.
  - unfold ascending. repeat constructor; simpl; lia.
  - repeat constructor; unfold gap_ok; simpl; lia.
  - repeat constructor; lia.
Defined.

(** Merging touching ranges changes no watched id, never lowers the
    transaction bound an id is watched with (so it can delay a finality
    verdict but never bring it forward), and, on ranges that do not overlap,
    leaves a real hole between any two ranges. *)
Theorem merge_keeps_coverage_and_bounds (gaps : list PendingGapEntry)
    (Hok : Forall gap_ok gaps) :
  (∀ i, watched (mergeContiguousGapRanges gaps) i ↔ watched gaps i) ∧
  (∀ i x, watched_at gaps i x →
          ∃ y, x ≤ y ∧ watched_at (mergeContiguousGapRanges gaps) i y) ∧
  (ascending (sort_by gap_from gaps) →
   separated (reverse (mergeContiguousGapRanges gaps))).
Proof.
  destruct (mergeContiguousGapRanges_spec gaps Hok) as (Hw & _ & Hb).
  split_and!; [done|done|]. by apply mergeContiguousGapRanges_separated.
Qed.

Lemma merge_keeps_coverage_and_bounds_witness :
  mergeContiguousGapRanges [mkGap 8 9 3; mkGap 2 4 11; mkGap 5 7 6; mkGap 20 20 1]
  = [mkGap 2 9 11; mkGap 20 20 1] ∧
  separated (reverse (mergeContiguousGapRanges
    [mkGap 8 9 3; mkGap 2 4 11; mkGap 5 7 6; mkGap 20 20 1])).
Proof.
  split; [vm_compute; reflexivity|].
  apply (merge_keeps_coverage_and_bounds [mkGap 8 9 3; mkGap 2 4 11; mkGap 5 7 6; mkGap 20 20 1]).
  - repeat constructor; unfold gap_ok; simpl; lia.
  - replace (sort_by gap_from [mkGap 8 9 3; mkGap 2 4 11; mkGap 5 7 6; mkGap 20 20 1])
      with [mkGap 2 4 11; mkGap 5 7 6; mkGap 8 9 3; mkGap 20 20 1] by (vm_compute; reflexivity).
    unfold ascending. repeat constructor; simpl; lia.
Defined.
