(* ===== verification/EventLog.v ===== *)
(** * The event-log tables and their queries

    The tables [kumiko_events], [kumiko_archived_streams] and
    [kumiko_snapshots] ([event-store/events-schema.ts], [archive.ts],
    [snapshot.ts]) as one record, and the SQL statements of
    [db/queries/event-store.ts] as functions on it.  [nextval] of the bigserial
    id is taken before the conflict check and is not undone by a rollback, so a
    lost race burns an id; timestamps are epoch milliseconds; uuids are
    strings in canonical form. *)

From S2P Require Import Prelude Origins GapRanges.

Open Scope Z_scope.

(** ** Rows *)

Record EventMetadata := mkMetadata {
  md_userId : string;
  md_requestId : option string;
  md_correlationId : option string;
  md_causationId : option string;
  md_idempotencyKey : option string;
  md_headers : option Row;
  md_feature : option string;
  md_handler : option string;
  md_writeOrigin : option Json }.

(** A row of [kumiko_events]; the same shape is [SelectedEvent] of
    event-store.ts and [StoredEventRow] of event-dispatcher-delivery.ts. *)
Record StoredEventRow := mkRow {
  row_id : Z;
  row_aggregateId : string;
  row_aggregateType : string;
  row_tenantId : string;
  row_version : Z;
  row_type : string;
  row_eventVersion : Z;
  row_payload : Row;
  row_metadata : EventMetadata;
  row_createdAt : Z;
  row_createdBy : string }.

Record StoredEvent := mkStored {
  se_id : string;
  se_aggregateId : string;
  se_aggregateType : string;
  se_tenantId : string;
  se_version : Z;
  se_type : string;
  se_eventVersion : Z;
  se_payload : Row;
  se_metadata : EventMetadata;
  se_createdAt : Z;
  se_createdBy : string }.

Definition toStoredEvent (row : StoredEventRow) : StoredEvent :=
  mkStored (pretty (row_id row)) (row_aggregateId row) (row_aggregateType row)
    (row_tenantId row) (row_version row) (row_type row) (row_eventVersion row)
    (row_payload row) (row_metadata row) (row_createdAt row) (row_createdBy row).

Record ArchivedStreamRow := mkArchived {
  ar_aggregateType : string;
  ar_archivedAt : Z;
  ar_archivedBy : string;
  ar_reason : option string }.

Record Snapshot := mkSnapshot {
  sn_aggregateId : string;
  sn_tenantId : string;
  sn_aggregateType : string;
  sn_version : Z;
  sn_state : Row;
  sn_snapshotVersion : Z;
  sn_createdAt : Z }.

(** ** The database

    [db_events] is the committed table in insertion order; [db_snapshots] is
    keyed by the primary key [(aggregate_id, version)]. *)
Record EventsDb := mkDb {
  db_events : list StoredEventRow;
  db_nextEventId : Z;
  db_archived : gmap (string * string) ArchivedStreamRow;
  db_snapshots : gmap (string * Z) Snapshot;
  db_now : Z }.

Definition emptyDb : EventsDb := mkDb [] 1 ∅ ∅ 0.

Definition with_events (db : EventsDb) (evs : list StoredEventRow) (next : Z) : EventsDb :=
  mkDb evs next (db_archived db) (db_snapshots db) (db_now db).

Inductive PgError :=
| PgUniqueViolation (constraint : string)
| PgNumericOutOfRange.

Definition int4 (n : Z) : bool := (-2147483648 <=? n) && (n <=? 2147483647).

(** ** Inserts *)

Record EventInsertParams := mkInsert {
  in_aggregateId : string;
  in_aggregateType : string;
  in_tenantId : string;
  in_newVersion : Z;
  in_type : string;
  in_eventVersion : Z;
  in_payload : Row;
  in_metadata : EventMetadata;
  in_createdBy : string;
  in_createdAt : option Z }.

Definition in_stream (aggregateId tenantId : string) (r : StoredEventRow) : Prop :=
  row_aggregateId r = aggregateId ∧ row_tenantId r = tenantId.

#[export] Instance in_stream_dec aggregateId tenantId r : Decision (in_stream aggregateId tenantId r).
Proof. unfold in_stream. apply _. Defined.

(** A row of the stream at that version exists. *)
Definition version_taken (evs : list StoredEventRow) (aggregateId tenantId : string) (v : Z) : bool :=
  bool_decide (Exists (λ r, in_stream aggregateId tenantId r ∧ row_version r = v) evs).

(** The partial unique index on [(tenant_id, metadata->>'idempotencyKey')]. *)
Definition idempotency_taken (evs : list StoredEventRow) (tenantId : string) (key : option string)
    : bool :=
  match key with
  | None => false
  | Some k => bool_decide (Exists (λ r, row_tenantId r = tenantId
                                        ∧ md_idempotencyKey (row_metadata r) = Some k) evs)
  end.

Definition row_of_insert (db : EventsDb) (p : EventInsertParams) : StoredEventRow :=
  mkRow (db_nextEventId db) (in_aggregateId p) (in_aggregateType p) (in_tenantId p)
    (in_newVersion p) (in_type p) (in_eventVersion p) (in_payload p) (in_metadata p)
    (default (db_now db) (in_createdAt p)) (in_createdBy p).

(** The common tail of both statements, once a row is to be inserted: the id
    is drawn, the arbiter index may swallow the row, the idempotency index may
    raise. *)
Definition insert_row (db : EventsDb) (p : EventInsertParams)
    : result PgError (option StoredEventRow) * EventsDb :=
  if negb (int4 (in_newVersion p) && int4 (in_eventVersion p)) then (Err PgNumericOutOfRange, db)
  else
    let db' := with_events db (db_events db) (db_nextEventId db + 1) in
    if version_taken (db_events db) (in_aggregateId p) (in_tenantId p) (in_newVersion p)
    then (Ok None, db')
    else if idempotency_taken (db_events db) (in_tenantId p) (md_idempotencyKey (in_metadata p))
    then (Err (PgUniqueViolation "events_idempotency_uq"), db')
    else let row := row_of_insert db p in
         (Ok (Some row), with_events db (db_events db ++ [row]) (db_nextEventId db + 1)).

Definition insertFirstEventRow (db : EventsDb) (p : EventInsertParams)
    : result PgError (option StoredEventRow) * EventsDb :=
  insert_row db p.

Definition insertSubsequentEventRow (db : EventsDb) (p : EventInsertParams) (expectedVersion : Z)
    : result PgError (option StoredEventRow) * EventsDb :=
  if version_taken (db_events db) (in_aggregateId p) (in_tenantId p) expectedVersion
  then insert_row db p
  else (Ok None, db).

(** ** Reads *)

Definition max_version (rows : list StoredEventRow) : Z :=
  foldr (λ r acc, Z.max (row_version r) acc) 0 rows.

(** [MAX(version) ?? 0]; versions are positive. *)
Definition selectStreamMaxVersion (db : EventsDb) (aggregateId tenantId : string) : Z :=
  max_version (filter (in_stream aggregateId tenantId) (db_events db)).

Definition selectAggregateMaxVersion (db : EventsDb) (aggregateId : string) : Z :=
  max_version (filter (λ r, row_aggregateId r = aggregateId) (db_events db)).

(** [GROUP BY aggregate_id]: only ids with a row get an entry. *)
Definition selectStreamMaxVersions (db : EventsDb) (aggregateIds : list string) (tenantId : string)
    : gmap string Z :=
  match aggregateIds with
  | [] => ∅
  | _ => foldr (λ r acc,
           if decide (row_tenantId r = tenantId ∧ row_aggregateId r ∈ aggregateIds)
           then <[row_aggregateId r := Z.max (row_version r)
                    (default (row_version r) (acc !! row_aggregateId r))]> acc
           else acc) ∅ (db_events db)
  end.

Definition selectEventsHighWaterMark (db : EventsDb) : Z :=
  foldr (λ r acc, Z.max (row_id r) acc) 0 (db_events db).

Definition selectNextEventIdAfter (evs : list StoredEventRow) (afterId : Z) : option Z :=
  row_id <$> head (sort_by row_id (filter (λ r, afterId < row_id r) evs)).

(** [selectMany(eventsTable, where, { orderBy: version asc })] *)
Definition select_stream (db : EventsDb) (P : StoredEventRow → Prop) `{∀ r, Decision (P r)}
    : list StoredEventRow :=
  sort_by row_version (filter P (db_events db)).

(** ** The per-turn fetch of the event dispatcher

    One id-ordered scan per pending range, each capped, then all of them
    ordered and capped; the new window separately; the union ordered and
    capped by the batch size. *)

Definition in_id_range (r : PendingIdRange) (row : StoredEventRow) : Prop :=
  range_from r ≤ row_id row ≤ range_to r.

#[export] Instance in_id_range_dec r row : Decision (in_id_range r row).
Proof. unfold in_id_range. apply _. Defined.

Definition pending_branch (evs : list StoredEventRow) (ranges : list PendingIdRange) (limit : nat)
    : list StoredEventRow :=
  take limit (sort_by row_id
    (ranges ≫= λ r, take limit (sort_by row_id (filter (in_id_range r) evs)))).

Definition new_branch (evs : list StoredEventRow) (cursor : Z) (batchSize : nat)
    : list StoredEventRow :=
  take batchSize (sort_by row_id (filter (λ r, cursor < row_id r) evs)).

Definition selectPendingAndNewEventRows (evs : list StoredEventRow) (cursor : Z)
    (pendingRanges : list PendingIdRange) (batchSize pendingLimit : nat) : list StoredEventRow :=
  match pendingRanges with
  | [] => new_branch evs cursor batchSize
  | _ => take batchSize (sort_by row_id
           (pending_branch evs pendingRanges pendingLimit ++ new_branch evs cursor batchSize))
  end.

Definition selectTenantIdsInRangesAbove (evs : list StoredEventRow)
    (pendingRanges : list PendingIdRange) (aboveId : Z) : gset string :=
  list_to_set (pendingRanges ≫= λ r,
    row_tenantId <$> filter (λ row, Z.max (range_from r) (aboveId + 1) ≤ row_id row ≤ range_to r) evs).

Definition selectSmallestVisibleIdInRanges (evs : list StoredEventRow)
    (pendingRanges : list PendingIdRange) : option Z :=
  match pendingRanges with
  | [] => None
  | _ => row_id <$> head (sort_by row_id
           (filter (λ row, Exists (λ r, in_id_range r row) pendingRanges) evs))
  end.

(** ** Archive and snapshot upserts *)

Definition upsertArchivedStream (db : EventsDb) (tenantId aggregateId aggregateType archivedBy : string)
    (reason : option string) : EventsDb :=
  mkDb (db_events db) (db_nextEventId db)
    (<[(tenantId, aggregateId) := mkArchived aggregateType (db_now db) archivedBy reason]>
       (db_archived db))
    (db_snapshots db) (db_now db).

(** [ON CONFLICT (aggregate_id, version) DO UPDATE SET state, aggregate_type,
    snapshot_version, created_at]: the row keeps its [tenant_id]. *)
Definition upsertSnapshot (db : EventsDb) (aggregateId tenantId aggregateType : string)
    (version : Z) (state : Row) (snapshotVersion : Z) : EventsDb :=
  let tenant := match db_snapshots db !! (aggregateId, version) with
                | Some old => sn_tenantId old
                | None => tenantId
                end in
  mkDb (db_events db) (db_nextEventId db) (db_archived db)
    (<[(aggregateId, version) :=
         mkSnapshot aggregateId tenant aggregateType version state snapshotVersion (db_now db)]>
       (db_snapshots db))
    (db_now db).

(** ** Archive *)

Definition archiveStream (db : EventsDb) (tenantId aggregateId aggregateType archivedBy : string)
    (reason : option string) : EventsDb :=
  upsertArchivedStream db tenantId aggregateId aggregateType archivedBy reason.

Definition isStreamArchived (db : EventsDb) (tenantId aggregateId : string) : bool :=
  bool_decide (is_Some (db_archived db !! (tenantId, aggregateId))).

Definition restoreStream (db : EventsDb) (tenantId aggregateId : string) : EventsDb :=
  mkDb (db_events db) (db_nextEventId db) (delete (tenantId, aggregateId) (db_archived db))
    (db_snapshots db) (db_now db).

(** ** Lemmas on the fetch *)

Section fetch.
Context (evs : list StoredEventRow) (cursor : Z) (gaps : list PendingGapEntry)
  (batchSize pendingLimit : nat).

Definition pending_rows : list StoredEventRow :=
  toIdRanges gaps ≫= λ r, take pendingLimit (sort_by row_id (filter (in_id_range r) evs)).

Definition rows_above : list StoredEventRow :=
  sort_by row_id (filter (λ r, cursor < row_id r) evs).

Lemma elem_of_pending_rows r :
  r ∈ pending_rows → r ∈ evs ∧ watched gaps (row_id r).
Proof.
  unfold pending_rows, toIdRanges. rewrite list_elem_of_bind. intros (g & Hr & Hg).
  apply list_elem_of_fmap in Hg as (h & -> & Hh).
  apply elem_of_take in Hr as (i & Hi & _). apply list_elem_of_lookup_2 in Hi.
  rewrite elem_of_sort_by, list_elem_of_filter in Hi. destruct Hi as [Hi Hr].
  split; [done|]. by exists h.
Qed.

Lemma pending_rows_ids :
  NoDup (row_id <$> evs) → ascending gaps → NoDup (row_id <$> pending_rows).
Proof.
  intros Hn. unfold pending_rows, toIdRanges. induction 1 as [|g gs Ha IH Hf]; simpl; [constructor|].
  rewrite fmap_app. apply NoDup_app. split_and!; [| |exact IH].
  - eapply NoDup_fmap_sublist; [apply sublist_take|]. rewrite sort_by_perm.
    eapply NoDup_fmap_sublist; [apply sublist_filter|done].
  - intros i Hi Hi'. apply list_elem_of_fmap in Hi as (r & -> & Hr).
    apply elem_of_take in Hr as (k & Hr & _). apply list_elem_of_lookup_2 in Hr.
    rewrite elem_of_sort_by, list_elem_of_filter in Hr. destruct Hr as [Hr _].
    apply list_elem_of_fmap in Hi' as (r' & Heq & Hr').
    rewrite list_elem_of_bind in Hr'. destruct Hr' as (h & Hr' & Hh).
    apply list_elem_of_fmap in Hh as (g' & -> & Hg').
    apply elem_of_take in Hr' as (k' & Hr' & _). apply list_elem_of_lookup_2 in Hr'.
    rewrite elem_of_sort_by, list_elem_of_filter in Hr'. destruct Hr' as [Hr' _].
    rewrite Forall_forall in Hf. specialize (Hf g' Hg').
    unfold in_id_range in *; simpl in *. lia.
Qed.

(** What the statement returns: the capped pending rows in id order, then as
    many of the newer rows, in id order, as the batch still holds. *)
Lemma fetch_decompose :
  NoDup (row_id <$> evs) → ascending gaps → (∀ i, watched gaps i → i ≤ cursor) →
  (pendingLimit ≤ batchSize)%nat →
  let P := take pendingLimit (sort_by row_id pending_rows) in
  selectPendingAndNewEventRows evs cursor (toIdRanges gaps) batchSize pendingLimit
    = P ++ take (batchSize - length P) rows_above ∧
  StronglySorted (λ a b, row_id a < row_id b) (P ++ rows_above).
Proof.
  intros Hn Ha Hc Hl P.
  assert (HP : StronglySorted (λ a b, row_id a < row_id b) P)
    by (apply strongly_sorted_take, sort_by_strict; by apply pending_rows_ids).
  assert (HN : StronglySorted (λ a b, row_id a < row_id b) rows_above).
  { apply sort_by_strict. eapply NoDup_fmap_sublist; [apply sublist_filter|done]. }
  assert (HPN : StronglySorted (λ a b, row_id a < row_id b) (P ++ rows_above)).
  { apply StronglySorted_app_2; [|done|done]. intros a b Ha' Hb.
    apply elem_of_take in Ha' as (k & Ha' & _). apply list_elem_of_lookup_2 in Ha'.
    rewrite elem_of_sort_by in Ha'. apply elem_of_pending_rows in Ha' as [_ Hw].
    unfold rows_above in Hb. rewrite elem_of_sort_by, list_elem_of_filter in Hb.
    specialize (Hc _ Hw). lia. }
  split; [|exact HPN]. unfold selectPendingAndNewEventRows.
  assert (HlP : (length P ≤ batchSize)%nat) by (unfold P; rewrite length_take; lia).
  destruct (toIdRanges gaps) as [|r rs] eqn:Hr.
  - assert (HP0 : P = []) by (unfold P, pending_rows; rewrite Hr; by destruct pendingLimit).
    rewrite HP0. simpl. by rewrite Nat.sub_0_r.
  - unfold pending_branch, new_branch. rewrite <- Hr. fold rows_above. fold pending_rows. fold P.
    rewrite sort_by_id.
    + rewrite take_app, (take_ge P) by done. f_equal. rewrite take_take. f_equal. lia.
    + rewrite <- (take_drop batchSize rows_above), (assoc_L (++)) in HPN.
      by apply StronglySorted_app_1_l in HPN.
Qed.

(** A visible row of a watched range is fetched, unless the pending part was
    cut off and the row lies behind everything it returned. *)
Lemma pending_part_covers r :
  NoDup (row_id <$> evs) → ascending gaps → r ∈ evs → watched gaps (row_id r) →
  let P := take pendingLimit (sort_by row_id pending_rows) in
  r ∈ P ∨ (length P = pendingLimit ∧ ∀ e, e ∈ P → row_id e < row_id r).
Proof.
  intros Hn Ha Hr (g & Hg & Hi) P.
  assert (HS : StronglySorted (λ a b, row_id a < row_id b) (sort_by row_id pending_rows))
    by (apply sort_by_strict; by apply pending_rows_ids).
  assert (Hsub : ∀ x, x ∈ pending_rows → x ∈ evs) by (intros x Hx; by apply elem_of_pending_rows).
  destruct (elem_of_key_dec row_id evs P r Hn Hr) as [|HnP]; [|by left|right].
  { intros x Hx. apply elem_of_take in Hx as (k & Hx & _). apply list_elem_of_lookup_2 in Hx.
    rewrite elem_of_sort_by in Hx. by apply Hsub. }
  destruct (elem_of_key_dec row_id evs pending_rows r Hn Hr Hsub) as [Hin|Hout].
  { apply (take_leaves_out _ pendingLimit _ r) in HS; [exact HS|by rewrite elem_of_sort_by|exact HnP]. }
  (* the row's own range was cut off: its rows before [r] alone fill the limit *)
  set (G := sort_by row_id (filter (in_id_range (mkRange (gap_from g) (gap_to g))) evs)).
  assert (HG : StronglySorted (λ a b, row_id a < row_id b) G).
  { apply sort_by_strict. eapply NoDup_fmap_sublist; [apply sublist_filter|done]. }
  assert (HGsub : ∀ x, x ∈ take pendingLimit G → x ∈ pending_rows).
  { intros x Hx. unfold pending_rows. rewrite list_elem_of_bind.
    exists (mkRange (gap_from g) (gap_to g)). split; [exact Hx|]. unfold toIdRanges.
    apply list_elem_of_fmap. by exists g. }
  destruct (take_leaves_out _ pendingLimit G r HG) as [HlG HG'].
  { unfold G. rewrite elem_of_sort_by, list_elem_of_filter. by split. }
  { intros Hx. by apply Hout, HGsub. }
  assert (Hbefore : ∀ e, e ∈ P → row_id e < row_id r).
  { intros e He. destruct (Z_lt_le_dec (row_id e) (row_id r)) as [|Hge]; [done|]. exfalso.
    assert (length (take pendingLimit G) < pendingLimit)%nat; [|lia].
    apply (before_in_take row_id _ (sort_by row_id pending_rows) _ e HS He).
    - apply NoDup_fmap_1 with row_id. by apply strictly_sorted_keys, strongly_sorted_take.
    - intros x Hx. rewrite elem_of_sort_by. split; [by apply HGsub|]. specialize (HG' x Hx).
      simpl in HG'. lia. }
  split; [|done]. unfold P. rewrite length_take, length_sort_by. rewrite Nat.min_l; [done|].
  rewrite <- HlG at 1. apply submseteq_length, NoDup_submseteq; [|done].
  apply NoDup_fmap_1 with row_id. by apply strictly_sorted_keys, strongly_sorted_take.
Qed.

Lemma pending_part_below e :
  (∀ i, watched gaps i → i ≤ cursor) →
  e ∈ take pendingLimit (sort_by row_id pending_rows) →
  e ∈ evs ∧ watched gaps (row_id e) ∧ row_id e ≤ cursor.
Proof.
  intros Hc He. apply elem_of_take in He as (k & He & _). apply list_elem_of_lookup_2 in He.
  rewrite elem_of_sort_by in He. apply elem_of_pending_rows in He as [He Hw].
  split_and!; [done|done|by apply Hc].
Qed.

Lemma elem_of_rows_above e : e ∈ rows_above ↔ e ∈ evs ∧ cursor < row_id e.
Proof. unfold rows_above. rewrite elem_of_sort_by, list_elem_of_filter. tauto. Qed.
End fetch.

(** What a turn may rely on about its fetch. *)
Record fetch_ok (evs events : list StoredEventRow) (cursor : Z) (gaps : list PendingGapEntry)
    (pendingLimit : nat) : Prop := {
  fo_sorted : StronglySorted (λ a b, row_id a < row_id b) events;
  fo_sound : ∀ e, e ∈ events → e ∈ evs ∧ (cursor < row_id e ∨ watched gaps (row_id e));
  fo_new : ∀ r, r ∈ evs → cursor < row_id r →
    r ∈ events ∨ ∀ e, e ∈ events → row_id e < row_id r;
  fo_pending : ∀ r, r ∈ evs → watched gaps (row_id r) →
    r ∈ events ∨
    (length (filter (λ e, row_id e ≤ cursor) events) = pendingLimit ∧
     ∀ e, e ∈ events → row_id e ≤ cursor → row_id e < row_id r) }.

Lemma fetch_is_ok evs cursor gaps batchSize pendingLimit :
  NoDup (row_id <$> evs) → ascending gaps → (∀ i, watched gaps i → i ≤ cursor) →
  (pendingLimit ≤ batchSize)%nat →
  fetch_ok evs (selectPendingAndNewEventRows evs cursor (toIdRanges gaps) batchSize pendingLimit)
    cursor gaps pendingLimit.
Proof.
  intros Hn Ha Hc Hl.
  destruct (fetch_decompose evs cursor gaps batchSize pendingLimit Hn Ha Hc Hl) as [-> Hs].
  set (P := take pendingLimit (sort_by row_id (pending_rows evs gaps pendingLimit))) in *.
  set (N := take (batchSize - length P) (rows_above evs cursor)).
  assert (HN : ∀ e, e ∈ N → e ∈ evs ∧ cursor < row_id e).
  { intros e He. apply elem_of_take in He as (k & He & _). apply list_elem_of_lookup_2 in He.
    by apply elem_of_rows_above. }
  assert (HP : ∀ e, e ∈ P → e ∈ evs ∧ watched gaps (row_id e) ∧ row_id e ≤ cursor)
    by (intros e; by apply pending_part_below).
  assert (Hf : filter (λ e, row_id e ≤ cursor) (P ++ N) = P).
  { rewrite filter_app, filter_keeps_all by (intros e He; apply HP in He; tauto).
    rewrite filter_keeps_none; [by rewrite app_nil_r|]. intros e He. apply HN in He. lia. }
  split.
  - rewrite <- (take_drop (batchSize - length P) (rows_above evs cursor)), (assoc_L (++)) in Hs.
    by apply StronglySorted_app_1_l in Hs.
  - intros e [He|He]%elem_of_app; [apply HP in He|apply HN in He]; tauto.
  - intros r Hr Hlt. destruct (elem_of_key_dec row_id evs N r Hn Hr) as [Hin|Hout];
      [intros x Hx; by apply HN|left; set_solver|right].
    apply StronglySorted_app_1_r in Hs.
    destruct (take_leaves_out _ (batchSize - length P) _ r Hs) as [_ Hb];
      [by apply elem_of_rows_above|exact Hout|].
    intros e [He|He]%elem_of_app; [apply HP in He; lia|by apply Hb].
  - intros r Hr Hw. rewrite Hf.
    destruct (pending_part_covers evs gaps pendingLimit r Hn Ha Hr Hw) as [Hin|[Hlen Hb]];
      [left; set_solver|right].
    split; [exact Hlen|]. intros e [He|He]%elem_of_app Hle; [by apply Hb|apply HN in He; lia].
Qed.
