(* ===== verification/PgErrors.v ===== *)
(** * Postgres errors as the driver throws them

    Models [db/pg-error.ts]: the SQLSTATE and constraint of a thrown value are
    read through its [cause] chain, at most [MAX_CAUSE_DEPTH] layers deep.  A
    thrown value is a chain of objects ending in a non-object; a cyclic chain
    is the same to the code as one longer than the cap. *)

From S2P Require Import Prelude.

(** What [extractPgError] reads of a thrown value: the three properties, each
    [None] unless it is a string, and [cause]. *)
Inductive Thrown :=
| NotAnObject
| ErrorObject (errno code constraint : option string) (cause : Thrown).

Definition MAX_CAUSE_DEPTH : nat := 8.

Record PgErrorInfo := mkPgErrorInfo {
  pg_code : option string;
  constraint_name : option string }.

Definition infoOfLayer (errno code constraint : option string) : option PgErrorInfo :=
  match errno with
  | Some sqlState => Some (mkPgErrorInfo (Some sqlState) constraint)
  | None => match code with
            | None => None
            | Some c => Some (mkPgErrorInfo (Some c) None)
            end
  end.

Fixpoint extract_loop (depth : nat) (current : Thrown) : option PgErrorInfo :=
  match depth, current with
  | S depth', ErrorObject errno code constraint cause =>
      match infoOfLayer errno code constraint with
      | Some info => Some info
      | None => extract_loop depth' cause
      end
  | _, _ => None
  end.

Definition extractPgError (e : Thrown) : option PgErrorInfo := extract_loop MAX_CAUSE_DEPTH e.

Definition code_of (e : Thrown) : option string :=
  match extractPgError e with Some info => pg_code info | None => None end.

Definition has_code (c : string) (e : Thrown) : bool := bool_decide (code_of e = Some c).

Definition isInvalidDateTimeValue (e : Thrown) : bool := has_code "22007" e || has_code "22008" e.
Definition isUniqueViolation (e : Thrown) : bool := has_code "23505" e.
Definition isTableAlreadyExists (e : Thrown) : bool := has_code "42P07" e.
Definition isLockNotAvailable (e : Thrown) : bool := has_code "55P03" e.
Definition isUndefinedTable (e : Thrown) : bool := has_code "42P01" e.
Definition isRowLevelSecurityViolation (e : Thrown) : bool := has_code "42501" e.

Definition constraintOf (e : Thrown) : option string :=
  match extractPgError e with Some info => constraint_name info | None => None end.

(** A server error as Bun.SQL throws it. *)
Definition server_error (sqlState : string) (constraint : option string) : Thrown :=
  ErrorObject (Some sqlState) (Some "ERR_POSTGRES_SERVER_ERROR") constraint NotAnObject.

(** [n] wrappers that carry no code of their own around a thrown value. *)
Fixpoint wrapped (n : nat) (e : Thrown) : Thrown :=
  match n with 0 => e | S n' => ErrorObject None None None (wrapped n' e) end.

Lemma extract_wrapped n depth e : extract_loop (n + depth) (wrapped n e) = extract_loop depth e.
Proof. induction n as [|n IH]; simpl; done. Qed.

Lemma isUniqueViolation_server_error s c :
  isUniqueViolation (server_error s c) = bool_decide (s = "23505").
Proof. unfold isUniqueViolation, has_code, code_of; simpl. apply bool_decide_ext. naive_solver. Qed.

Lemma constraintOf_server_error s c : constraintOf (server_error s c) = c.
Proof. done. Qed.

#[export] Hint Rewrite isUniqueViolation_server_error constraintOf_server_error : kumiko.
