(* ===== verification/EventStore.v ===== *)
(** * The event store

    [event-store/event-store.ts] on the tables of [EventLog]: [append] with
    its seed clock, origin stamp and error mapping, and every load.  A call
    that throws rolls its transaction back, so it returns the rows it found;
    ids drawn from the sequence stay drawn.  The PII encryption of the payload
    is the parameter [encrypt]; the row-level-security scope of the calls and
    the wake-up NOTIFY have no effect on the modelled tables. *)

From S2P Require Import Prelude Origins PgErrors EventLog.

Open Scope Z_scope.

(** ** Inputs *)

Record EventToAppend := mkToAppend {
  ev_aggregateId : string;
  ev_aggregateType : string;
  ev_tenantId : string;
  ev_expectedVersion : Z;
  ev_type : string;
  ev_eventVersion : option Z;
  ev_payload : Row;
  ev_metadata : EventMetadata }.

(** What [requestContext.get()] holds for the call. *)
Record RequestScope := mkScope {
  rq_requestId : option string;
  rq_correlationId : option string;
  rq_causationId : option string;
  rq_feature : option string;
  rq_handler : option string;
  rq_writeOrigin : option WriteOrigin;
  rq_irreversibleWithoutEntryHandler : option string }.

(** ** The seed clock *)

Record SeedEnv := mkSeedEnv {
  env_seed : option string;
  env_nodeEnv : option string;
  seed_scope : option Z }.

Definition liveClock : SeedEnv := mkSeedEnv None None None.

Definition isSeedModeEnabled (env : SeedEnv) : bool :=
  bool_decide (env_seed env = Some "1") && negb (bool_decide (env_nodeEnv env = Some "production")).

(** ** Errors *)

Inductive AppendError :=
| VersionConflictError (aggregateId : string) (expectedVersion : Z) (currentVersion : option Z)
| IdempotentAppendConflictError (tenantId idempotencyKey : string)
| SeedTimeOrderError (aggregateType aggregateId : string) (version seedCreatedAt predecessorCreatedAt : Z)
| SeedModeDisabledError
| AppendThrown (e : Thrown).

Definition assertSeedModeNotInProduction (env : SeedEnv) : result AppendError unit :=
  if bool_decide (env_seed env = Some "1") && bool_decide (env_nodeEnv env = Some "production")
  then Err SeedModeDisabledError else Ok tt.

(** [runSeedWritesAt] opens the scope in which [fn] runs. *)
Definition runSeedWritesAt {A} (createdAt : Z) (env : SeedEnv) (fn : SeedEnv → result AppendError A)
    : result AppendError A :=
  if isSeedModeEnabled env
  then fn (mkSeedEnv (env_seed env) (env_nodeEnv env) (Some createdAt))
  else Err SeedModeDisabledError.

Definition currentSeedCreatedAt (env : SeedEnv) : result AppendError (option Z) :=
  match seed_scope env with
  | None => Ok None
  | Some t => if isSeedModeEnabled env then Ok (Some t) else Err SeedModeDisabledError
  end.

Definition thrown_of (e : PgError) : Thrown :=
  match e with
  | PgUniqueViolation c => server_error "23505" (Some c)
  | PgNumericOutOfRange => server_error "22003" None
  end.

(** ** Attribution *)

Definition UNATTRIBUTED_ORIGIN : string := "unknown".

Definition stampOrigin (origin : option RequestScope) (e : EventToAppend) : EventToAppend :=
  let m := ev_metadata e in
  let m' := mkMetadata (md_userId m) (md_requestId m) (md_correlationId m) (md_causationId m)
              (md_idempotencyKey m) (md_headers m)
              (Some (default UNATTRIBUTED_ORIGIN (origin ≫= rq_feature)))
              (Some (default UNATTRIBUTED_ORIGIN (origin ≫= rq_handler)))
              (match origin ≫= rq_writeOrigin with
               | Some o => if isPersonalDataGated o then Some (write_origin_json o) else None
               | None => None
               end) in
  mkToAppend (ev_aggregateId e) (ev_aggregateType e) (ev_tenantId e) (ev_expectedVersion e)
    (ev_type e) (ev_eventVersion e) (ev_payload e) m'.

Definition with_payload (e : EventToAppend) (payload : Row) : EventToAppend :=
  mkToAppend (ev_aggregateId e) (ev_aggregateType e) (ev_tenantId e) (ev_expectedVersion e)
    (ev_type e) (ev_eventVersion e) payload (ev_metadata e).

(** ** Append *)

Definition at_version (e : EventToAppend) (v : Z) (r : StoredEventRow) : Prop :=
  in_stream (ev_aggregateId e) (ev_tenantId e) r ∧ row_version r = v.

#[export] Instance at_version_dec e v r : Decision (at_version e v r).
Proof. unfold at_version. apply _. Defined.

Definition assertSeedTimeNotBeforePredecessor (db : EventsDb) (e : EventToAppend) (seedCreatedAt : Z)
    : result AppendError unit :=
  match filter (at_version e (ev_expectedVersion e)) (db_events db) with
  | predecessor :: _ =>
      if seedCreatedAt <? row_createdAt predecessor
      then Err (SeedTimeOrderError (ev_aggregateType e) (ev_aggregateId e)
                  (ev_expectedVersion e + 1) seedCreatedAt (row_createdAt predecessor))
      else Ok tt
  | [] => Ok tt
  end.

Definition insert_params (e : EventToAppend) (newVersion eventVersion : Z) (seedCreatedAt : option Z)
    : EventInsertParams :=
  mkInsert (ev_aggregateId e) (ev_aggregateType e) (ev_tenantId e) newVersion (ev_type e)
    eventVersion (ev_payload e) (ev_metadata e) (md_userId (ev_metadata e)) seedCreatedAt.

(** What the write transaction raises: a typed error of its own or a driver
    error. *)
Definition versionConflictWithCurrentVersion (db : EventsDb) (e : EventToAppend) : AppendError :=
  VersionConflictError (ev_aggregateId e) (ev_expectedVersion e)
    (Some (selectStreamMaxVersion db (ev_aggregateId e) (ev_tenantId e))).

Record InsertReturn := mkInsertReturn { ins_id : Z; ins_createdAt : Z }.

Definition insertReturnOf (row : StoredEventRow) : InsertReturn :=
  mkInsertReturn (row_id row) (row_createdAt row).

Definition insert_outcome (e : EventToAppend)
    (res : result PgError (option StoredEventRow) * EventsDb)
    : result AppendError InsertReturn * EventsDb :=
  match res with
  | (Err err, db) => (Err (AppendThrown (thrown_of err)), db)
  | (Ok None, db) => (Err (versionConflictWithCurrentVersion db e), db)
  | (Ok (Some row), db) => (Ok (insertReturnOf row), db)
  end.

Definition insertFirstEvent (db : EventsDb) (e : EventToAppend) (newVersion eventVersion : Z)
    (seedCreatedAt : option Z) : result AppendError InsertReturn * EventsDb :=
  insert_outcome e (insertFirstEventRow db (insert_params e newVersion eventVersion seedCreatedAt)).

Definition insertSubsequentEvent (db : EventsDb) (e : EventToAppend) (newVersion eventVersion : Z)
    (seedCreatedAt : option Z) : result AppendError InsertReturn * EventsDb :=
  insert_outcome e (insertSubsequentEventRow db (insert_params e newVersion eventVersion seedCreatedAt)
                      (ev_expectedVersion e)).

Definition buildStoredEvent (e : EventToAppend) (newVersion eventVersion : Z) (row : InsertReturn)
    : StoredEvent :=
  mkStored (pretty (ins_id row)) (ev_aggregateId e) (ev_aggregateType e) (ev_tenantId e) newVersion
    (ev_type e) eventVersion (ev_payload e) (ev_metadata e) (ins_createdAt row)
    (md_userId (ev_metadata e)).

(** The transaction body of [append]; [toStore] carries the encrypted payload
    and the stamped metadata. *)
Definition append_write (db : EventsDb) (toStore : EventToAppend) (newVersion eventVersion : Z)
    (seedCreatedAt : option Z) : result AppendError InsertReturn * EventsDb :=
  let seed_check :=
    match seedCreatedAt with
    | Some t => if 0 <? ev_expectedVersion toStore
                then assertSeedTimeNotBeforePredecessor db toStore t else Ok tt
    | None => Ok tt
    end in
  match seed_check with
  | Err err => (Err err, db)
  | Ok _ =>
      if ev_expectedVersion toStore =? 0
      then insertFirstEvent db toStore newVersion eventVersion seedCreatedAt
      else insertSubsequentEvent db toStore newVersion eventVersion seedCreatedAt
  end.

(** [catch (e)]: only a unique violation is mapped; an empty idempotency key
    is falsy. *)
Definition map_append_error (e : EventToAppend) (err : AppendError) : AppendError :=
  match err with
  | AppendThrown t =>
      if isUniqueViolation t then
        match constraintOf t, md_idempotencyKey (ev_metadata e) with
        | Some c, Some key =>
            if bool_decide (c = "events_idempotency_uq") && negb (bool_decide (key = ""))
            then IdempotentAppendConflictError (ev_tenantId e) key
            else VersionConflictError (ev_aggregateId e) (ev_expectedVersion e) None
        | _, _ => VersionConflictError (ev_aggregateId e) (ev_expectedVersion e) None
        end
      else err
  | _ => err
  end.

Section append.
Context (encrypt : string → Row → string * string * string → result Thrown Row).

Definition append (origin : option RequestScope) (env : SeedEnv) (db : EventsDb) (e : EventToAppend)
    : result AppendError StoredEvent * EventsDb :=
  match encrypt (ev_type e) (ev_payload e) (ev_tenantId e, ev_aggregateType e, ev_aggregateId e) with
  | Err t => (Err (AppendThrown t), db)
  | Ok payload =>
      let toStore := stampOrigin origin (with_payload e payload) in
      match currentSeedCreatedAt env with
      | Err err => (Err err, db)
      | Ok seedCreatedAt =>
          let newVersion := ev_expectedVersion toStore + 1 in
          let eventVersion := default 1 (ev_eventVersion toStore) in
          match append_write db toStore newVersion eventVersion seedCreatedAt with
          | (Ok row, db') => (Ok (buildStoredEvent toStore newVersion eventVersion row), db')
          | (Err err, db') => (Err (map_append_error e err), db')
          end
      end
  end.
End append.

(** ** Loads *)

Record LoadOptions := mkLoadOptions {
  includeArchived : bool;
  opt_aggregateType : option string;
  atVersion : option Z }.

Definition noOptions : LoadOptions := mkLoadOptions false None None.

(** An absent option puts no condition into the [where]. *)
Definition load_where (aggregateId tenantId : string) (o : LoadOptions) (r : StoredEventRow) : Prop :=
  in_stream aggregateId tenantId r
  ∧ match opt_aggregateType o with Some t => row_aggregateType r = t | None => True end
  ∧ match atVersion o with Some v => row_version r = v | None => True end.

#[export] Instance load_where_dec aggregateId tenantId o r :
  Decision (load_where aggregateId tenantId o r).
Proof. unfold load_where. destruct (opt_aggregateType o), (atVersion o); apply _. Defined.

Inductive LoadError := EmptyAggregateType.

Definition loadAggregate (db : EventsDb) (aggregateId tenantId : string) (o : LoadOptions)
    : result LoadError (list StoredEvent) :=
  if bool_decide (opt_aggregateType o = Some "") then Err EmptyAggregateType
  else if negb (includeArchived o) && isStreamArchived db tenantId aggregateId then Ok []
  else Ok (toStoredEvent <$> select_stream db (load_where aggregateId tenantId o)).

Definition getStreamVersion (db : EventsDb) (aggregateId tenantId : string) : Z :=
  selectStreamMaxVersion db aggregateId tenantId.

Definition getStreamVersions (db : EventsDb) (aggregateIds : list string) (tenantId : string)
    : gmap string Z :=
  selectStreamMaxVersions db aggregateIds tenantId.

Definition loadAggregateForWriting (db : EventsDb) (aggregateId tenantId aggregateType : string)
    : result LoadError (list StoredEvent * Z) :=
  if bool_decide (aggregateType = "") then Err EmptyAggregateType
  else if isStreamArchived db tenantId aggregateId
  then Ok ([], getStreamVersion db aggregateId tenantId)
  else
    let all := toStoredEvent <$> select_stream db (in_stream aggregateId tenantId) in
    Ok (filter (λ e, se_aggregateType e = aggregateType) all, from_option se_version 0 (last all)).

Definition loadAggregateAsOf (db : EventsDb) (aggregateId tenantId : string) (asOf : Z)
    (includeArchived : bool) : list StoredEvent :=
  if negb includeArchived && isStreamArchived db tenantId aggregateId then []
  else toStoredEvent <$>
         select_stream db (λ r, in_stream aggregateId tenantId r ∧ row_createdAt r ≤ asOf).

Definition getUnscopedAggregateStreamMaxVersion (db : EventsDb) (aggregateId : string) : Z :=
  selectAggregateMaxVersion db aggregateId.

Definition getUnscopedStreamMaxVersionForSeed (db : EventsDb) (aggregateId : string) : Z :=
  getUnscopedAggregateStreamMaxVersion db aggregateId.

Definition getEventsHighWaterMark (db : EventsDb) : Z := selectEventsHighWaterMark db.

Definition loadEventsAfterVersion (db : EventsDb) (aggregateId tenantId : string) (afterVersion : Z)
    : list StoredEvent :=
  toStoredEvent <$>
    select_stream db (λ r, in_stream aggregateId tenantId r ∧ afterVersion < row_version r).

(** The rows of one batch of [streamAllEventsByType]. *)
Definition type_batch (db : EventsDb) (aggregateType : string) (cursorId : Z) (batchSize : nat)
    : list StoredEventRow :=
  take batchSize (sort_by row_id
    (filter (λ r, row_aggregateType r = aggregateType ∧ cursorId < row_id r) (db_events db))).

(** The generator drained over one state of the log.  [aborted n] is what the
    [n]-th [throwIfAborted] finds; the result is what was yielded and whether
    the generator ran to its end ([false]: it threw the abort).  One unit of
    fuel per batch, [None] when it runs out. *)
Fixpoint yield_rows (aborted : nat → bool) (tick : nat) (rows : list StoredEventRow)
    : list StoredEvent * option nat :=
  match rows with
  | [] => ([], Some tick)
  | row :: rest =>
      if aborted tick then ([], None)
      else let '(es, t) := yield_rows aborted (S tick) rest in (toStoredEvent row :: es, t)
  end.

Fixpoint stream_batches (fuel : nat) (aborted : nat → bool) (tick : nat) (db : EventsDb)
    (aggregateType : string) (batchSize : nat) (cursorId : Z) : option (list StoredEvent * bool) :=
  match fuel with
  | O => None
  | S fuel' =>
      if aborted tick then Some ([], false)
      else
        let rows := type_batch db aggregateType cursorId batchSize in
        match rows with
        | [] => Some ([], true)
        | _ =>
            let nextCursor := from_option row_id cursorId (last rows) in
            match yield_rows aborted (S tick) rows with
            | (es, None) => Some (es, false)
            | (es, Some tick') =>
                prod_map (app es) id <$>
                  stream_batches fuel' aborted tick' db aggregateType batchSize nextCursor
            end
        end
  end.

Definition streamAllEventsByType (aborted : nat → bool) (db : EventsDb) (aggregateType : string)
    (batchSize : nat) : option (list StoredEvent * bool) :=
  stream_batches (S (length (db_events db))) aborted 0 db aggregateType batchSize 0.

(** ** The log invariant *)

Definition stream (db : EventsDb) (aggregateId tenantId : string) : list StoredEventRow :=
  filter (in_stream aggregateId tenantId) (db_events db).

Definition versions_upto (n : nat) : list Z := seqZ 1 (Z.of_nat n).

(** Every stream holds the versions 1..n in insertion order, ids ascend below
    the sequence, and no two events of a tenant share an idempotency key. *)
Record log_ok (db : EventsDb) : Prop := {
  ok_streams : ∀ a t, row_version <$> stream db a t = versions_upto (length (stream db a t));
  ok_ids : StronglySorted (λ r s, row_id r < row_id s) (db_events db);
  ok_next : Forall (λ r, 0 < row_id r < db_nextEventId db) (db_events db);
  ok_next_pos : 0 < db_nextEventId db;
  ok_int4 : Forall (λ r, int4 (row_version r) = true) (db_events db);
  ok_keys : ∀ i j r s k, db_events db !! i = Some r → db_events db !! j = Some s →
      row_tenantId r = row_tenantId s →
      md_idempotencyKey (row_metadata r) = Some k → md_idempotencyKey (row_metadata s) = Some k →
      i = j }.

(** What a successful append has stored. *)
Definition appended (origin : option RequestScope) (db : EventsDb) (e : EventToAppend)
    (payload : Row) (createdAt : option Z) : StoredEventRow :=
  row_of_insert db (insert_params (stampOrigin origin (with_payload e payload))
    (ev_expectedVersion e + 1) (default 1 (ev_eventVersion e)) createdAt).

(** ** Lemmas on streams *)

Lemma stream_app db evs next a t :
  stream (with_events db evs next) a t = filter (in_stream a t) evs.
Proof. done. Qed.

Lemma elem_of_stream db a t r : r ∈ stream db a t ↔ in_stream a t r ∧ r ∈ db_events db.
Proof. unfold stream. apply list_elem_of_filter. Qed.

Lemma versions_upto_S n : versions_upto (S n) = versions_upto n ++ [Z.of_nat n + 1].
Proof.
  unfold versions_upto. rewrite seqZ_S. do 2 f_equal. lia.
Qed.

Lemma max_version_versions rows n :
  row_version <$> rows = versions_upto n → max_version rows = Z.of_nat n.
Proof.
  intros Hv. assert (Hn : length rows = n).
  { rewrite <- (length_fmap row_version rows), Hv. unfold versions_upto. rewrite length_seqZ. lia. }
  assert (Hle : ∀ r, r ∈ rows → 1 ≤ row_version r ≤ Z.of_nat n).
  { intros r Hr. assert (Hin : row_version r ∈ versions_upto n) by (rewrite <- Hv; by apply list_elem_of_fmap_2).
    unfold versions_upto in Hin. apply elem_of_seqZ in Hin. lia. }
  assert (Hup : ∀ l, (∀ r, r ∈ l → row_version r ≤ Z.of_nat n) → 0 ≤ max_version l ≤ Z.of_nat n).
  { induction l as [|x l IH]; intros Hl; simpl; [lia|].
    assert (row_version x ≤ Z.of_nat n) by (apply Hl; set_solver).
    assert (0 ≤ max_version l ≤ Z.of_nat n) by (apply IH; set_solver). lia. }
  assert (Hlow : ∀ l r, r ∈ l → row_version r ≤ max_version l).
  { induction l as [|x l IH]; intros r Hr; [set_solver|]; simpl.
    apply elem_of_cons in Hr as [->|Hr]; [lia|]. specialize (IH _ Hr). lia. }
  destruct (Hup rows) as [Hge Hlt]; [intros r Hr; specialize (Hle r Hr); lia|].
  destruct n as [|n]; [lia|].
  assert (Hin : Z.of_nat (S n) ∈ row_version <$> rows).
  { rewrite Hv. unfold versions_upto. apply elem_of_seqZ. lia. }
  apply list_elem_of_fmap in Hin as (r & Hr & Hin). specialize (Hlow _ _ Hin). lia.
Qed.

Section log_ok_lemmas.
#[local] Set Default Proof Using "Type*".
Context (db : EventsDb) (Hok : log_ok db).

Lemma getStreamVersion_length a t : getStreamVersion db a t = Z.of_nat (length (stream db a t)).
Proof. apply max_version_versions. apply (ok_streams db Hok). Qed.

Lemma stream_versions a t : row_version <$> stream db a t = versions_upto (length (stream db a t)).
Proof. apply (ok_streams db Hok). Qed.

Lemma version_taken_true a t v :
  version_taken (db_events db) a t v = true ↔ 1 ≤ v ≤ getStreamVersion db a t.
Proof.
  rewrite getStreamVersion_length. unfold version_taken.
  rewrite bool_decide_eq_true, Exists_exists.
  transitivity (v ∈ row_version <$> stream db a t).
  - rewrite list_elem_of_fmap. setoid_rewrite elem_of_stream. naive_solver.
  - rewrite stream_versions. unfold versions_upto. rewrite elem_of_seqZ. lia.
Qed.

Lemma version_taken_false a t v :
  version_taken (db_events db) a t v = false ↔ v < 1 ∨ getStreamVersion db a t < v.
Proof.
  rewrite <- not_true_iff_false, version_taken_true. lia.
Qed.

Lemma getStreamVersion_nonneg a t : 0 ≤ getStreamVersion db a t.
Proof. rewrite getStreamVersion_length. lia. Qed.

Lemma stream_sorted a t : StronglySorted (λ r s, row_version r < row_version s) (stream db a t).
Proof.
  assert (Hs : StronglySorted Z.lt (row_version <$> stream db a t)).
  { rewrite stream_versions. unfold versions_upto.
    generalize (length (stream db a t)) as n. intros n.
    replace (Z.of_nat n) with (Z.of_nat (length (seq 0 n))) by (rewrite length_seq; lia).
    rewrite length_seq. generalize 1. induction n as [|n IH]; intros m; [constructor|].
    rewrite Nat2Z.inj_succ, seqZ_cons by lia. rewrite Z.pred_succ. constructor; [apply IH|].
    rewrite Forall_forall. intros x Hx%elem_of_seqZ. lia. }
  remember (row_version <$> stream db a t) as vs eqn:Hvs. revert Hvs. generalize (stream db a t).
  induction Hs as [|v vs Hs IH Hf]; intros [|r l] Hvs; simplify_eq/=; constructor.
  - by apply IH.
  - by rewrite Forall_fmap in Hf.
Qed.
End log_ok_lemmas.

(** ** Lemmas on inserts *)

Definition bump (db : EventsDb) : EventsDb :=
  with_events db (db_events db) (db_nextEventId db + 1).

Definition add_row (db : EventsDb) (row : StoredEventRow) : EventsDb :=
  with_events db (db_events db ++ [row]) (db_nextEventId db + 1).

Lemma stream_bump db a t : stream (bump db) a t = stream db a t.
Proof. done. Qed.

Lemma stream_add_row db row a t :
  stream (add_row db row) a t =
  stream db a t ++ (if decide (in_stream a t row) then [row] else []).
Proof.
  unfold add_row. by rewrite stream_app, filter_app.
Qed.

Lemma log_ok_bump db : log_ok db → log_ok (bump db).
Proof.
  intros [H1 H2 H3 H4 H5 H6]. split; simpl; try done; [|lia].
  eapply Forall_impl; [exact H3|]. simpl; lia.
Qed.

Lemma idempotency_taken_false evs t k :
  idempotency_taken evs t (Some k) = false →
  ∀ r, r ∈ evs → row_tenantId r = t → md_idempotencyKey (row_metadata r) ≠ Some k.
Proof.
  simpl. rewrite bool_decide_eq_false, Exists_exists. naive_solver.
Qed.

(** A row that continues its stream keeps the log well formed. *)
Lemma log_ok_add_row db row :
  log_ok db → row_id row = db_nextEventId db →
  row_version row = getStreamVersion db (row_aggregateId row) (row_tenantId row) + 1 →
  int4 (row_version row) = true →
  idempotency_taken (db_events db) (row_tenantId row) (md_idempotencyKey (row_metadata row)) = false →
  log_ok (add_row db row).
Proof.
  intros Hok Hid Hv Hi4 Hkey. pose proof Hok as [H1 H2 H3 H4 H5 H6].
  split; simpl; try lia.
  - intros a t. rewrite stream_add_row. destruct (decide (in_stream a t row)) as [[<- <-]|Hn].
    + rewrite length_app, fmap_app, stream_versions by done. simpl.
      rewrite Nat.add_1_r, versions_upto_S, Hv, getStreamVersion_length by done. done.
    + rewrite app_nil_r. by apply stream_versions.
  - clear -H2 H3 Hid. induction H2 as [|x l Hs IH Hf]; simpl; [repeat constructor|].
    apply Forall_cons in H3 as [Hx H3]. constructor; [by apply IH|].
    apply Forall_app; split; [done|]. constructor; [lia|done].
  - apply Forall_app; split; [|constructor; [lia|done]].
    eapply Forall_impl; [exact H3|]. simpl; lia.
  - apply Forall_app; split; [done|]. by constructor.
  - assert (Hone : ∀ i r k, (db_events db ++ [row]) !! i = Some r → i ≠ length (db_events db) →
              row_tenantId r = row_tenantId row → md_idempotencyKey (row_metadata r) = Some k →
              md_idempotencyKey (row_metadata row) = Some k → False).
    { intros i r k Hi Hne Ht Hk Hk'. rewrite Hk' in Hkey.
      apply lookup_app_Some in Hi as [Hi|[Hl Hi]].
      - eapply idempotency_taken_false; [exact Hkey| |exact Ht|exact Hk].
        by eapply list_elem_of_lookup_2.
      - apply list_lookup_singleton_Some in Hi as [Hi _]. lia. }
    intros i j r s k Hi Hj Ht Hr Hs.
    apply lookup_app_Some in Hi as Hi'; apply lookup_app_Some in Hj as Hj'.
    destruct Hi' as [Hi'|[Hli Hi']], Hj' as [Hj'|[Hlj Hj']].
    + by eapply H6.
    + apply list_lookup_singleton_Some in Hj' as [Hj' ->]. exfalso.
      apply lookup_lt_Some in Hi'. eapply (Hone i); [exact Hi|lia|done..].
    + apply list_lookup_singleton_Some in Hi' as [Hi' ->]. exfalso.
      apply lookup_lt_Some in Hj'. eapply (Hone j); [exact Hj|lia|done..].
    + apply list_lookup_singleton_Some in Hi' as [Hi' _].
      apply list_lookup_singleton_Some in Hj' as [Hj' _]. lia.
Qed.

Lemma append_stamped_key origin e payload :
  md_idempotencyKey (ev_metadata (stampOrigin origin (with_payload e payload))) =
  md_idempotencyKey (ev_metadata e).
Proof. done. Qed.

Lemma idempotency_taken_Some evs t k :
  idempotency_taken evs t k = true → ∃ key, k = Some key.
Proof. destruct k; [by eexists|done]. Qed.

(** The error a reused key surfaces as. *)
Definition key_conflict (e : EventToAppend) : AppendError :=
  match md_idempotencyKey (ev_metadata e) with
  | Some key => if bool_decide (key = "")
                then VersionConflictError (ev_aggregateId e) (ev_expectedVersion e) None
                else IdempotentAppendConflictError (ev_tenantId e) key
  | None => VersionConflictError (ev_aggregateId e) (ev_expectedVersion e) None
  end.

(** The clock of the call does not put the event before its predecessor. *)
Definition seed_ok (db : EventsDb) (e : EventToAppend) (seed : option Z) : Prop :=
  ∀ t r, seed = Some t → r ∈ db_events db →
    in_stream (ev_aggregateId e) (ev_tenantId e) r → row_version r = ev_expectedVersion e →
    row_createdAt r ≤ t.

Lemma seed_ok_live db e : seed_ok db e None.
Proof. done. Qed.

Lemma seed_check_ok db e toStore t :
  seed_ok db e (Some t) →
  ev_aggregateId toStore = ev_aggregateId e → ev_tenantId toStore = ev_tenantId e →
  ev_expectedVersion toStore = ev_expectedVersion e →
  assertSeedTimeNotBeforePredecessor db toStore t = Ok tt.
Proof.
  intros Hs Ha Hn He. unfold assertSeedTimeNotBeforePredecessor.
  destruct (filter _ _) as [|r rest] eqn:Hf; [done|].
  assert (Hr : r ∈ filter (at_version toStore (ev_expectedVersion toStore)) (db_events db))
    by (rewrite Hf; set_solver).
  apply list_elem_of_filter in Hr as [[Hin Hv] Hr].
  rewrite Ha, Hn in Hin. rewrite He in Hv.
  specialize (Hs t r eq_refl Hr Hin Hv). case_match; reflect_bools; [lia|done].
Qed.

Lemma int4_streamVersion db a t : log_ok db → int4 (getStreamVersion db a t) = true.
Proof.
  intros Hok. pose proof (getStreamVersion_nonneg db Hok a t).
  destruct (decide (getStreamVersion db a t = 0)) as [->|Hne]; [done|].
  assert (Ht : version_taken (db_events db) a t (getStreamVersion db a t) = true)
    by (apply version_taken_true; [done|lia]).
  unfold version_taken in Ht. apply bool_decide_eq_true, Exists_exists in Ht as (r & Hr & _ & <-).
  pose proof (ok_int4 db Hok) as H4. rewrite Forall_forall in H4. by apply H4.
Qed.

(** [insert … where exists (predecessor)] and the plain first insert are one
    decision on the expected version. *)
Lemma version_reachable db a t v :
  log_ok db →
  (v =? 0) || version_taken (db_events db) a t v = (0 <=? v) && (v <=? getStreamVersion db a t).
Proof.
  intros Hok. pose proof (getStreamVersion_nonneg db Hok a t).
  apply eq_true_iff_eq. rewrite orb_true_iff, version_taken_true, andb_true_iff, !Z.leb_le, Z.eqb_eq
    by done. lia.
Qed.

Lemma insert_by_version db e p :
  log_ok db → in_aggregateId p = ev_aggregateId e → in_tenantId p = ev_tenantId e →
  (if ev_expectedVersion e =? 0 then insertFirstEventRow db p
   else insertSubsequentEventRow db p (ev_expectedVersion e)) =
  if (0 <=? ev_expectedVersion e)
     && (ev_expectedVersion e <=? getStreamVersion db (ev_aggregateId e) (ev_tenantId e))
  then insert_row db p else (Ok None, db).
Proof.
  intros Hok Ha Ht. rewrite <- version_reachable by done.
  unfold insertSubsequentEventRow, insertFirstEventRow. rewrite Ha, Ht.
  by destruct (ev_expectedVersion e =? 0).
Qed.

Section append_lemmas.
Context (encrypt : string → Row → string * string * string → result Thrown Row).
Context (origin : option RequestScope) (env : SeedEnv) (db : EventsDb) (e : EventToAppend)
  (payload : Row) (seed : option Z).
Context (Hok : log_ok db)
  (Henc : encrypt (ev_type e) (ev_payload e)
            (ev_tenantId e, ev_aggregateType e, ev_aggregateId e) = Ok payload)
  (Hseed : currentSeedCreatedAt env = Ok seed).

(** The whole decision of [append] once its inputs are prepared. *)
Lemma append_decision :
  seed_ok db e seed → int4 (default 1 (ev_eventVersion e)) = true →
  let cur := getStreamVersion db (ev_aggregateId e) (ev_tenantId e) in
  append encrypt origin env db e =
  if ev_expectedVersion e =? cur then
    if int4 (cur + 1) then
      if idempotency_taken (db_events db) (ev_tenantId e) (md_idempotencyKey (ev_metadata e))
      then (Err (key_conflict e), bump db)
      else let row := appended origin db e payload seed in (Ok (toStoredEvent row), add_row db row)
    else (Err (AppendThrown (server_error "22003" None)), db)
  else (Err (VersionConflictError (ev_aggregateId e) (ev_expectedVersion e) (Some cur)),
        if (0 <=? ev_expectedVersion e) && (ev_expectedVersion e <=? cur) then bump db else db).
Proof using Hok Henc Hseed.
  intros Hso Hev cur. set (toStore := stampOrigin origin (with_payload e payload)).
  assert (Hwrite : append_write db toStore (ev_expectedVersion e + 1) (default 1 (ev_eventVersion e)) seed
    = insert_outcome toStore
        (if (0 <=? ev_expectedVersion e) && (ev_expectedVersion e <=? cur)
         then insert_row db (insert_params toStore (ev_expectedVersion e + 1)
                               (default 1 (ev_eventVersion e)) seed)
         else (Ok None, db))).
  { unfold append_write. subst cur. rewrite <- (insert_by_version db e _ Hok) by done.
    unfold insertFirstEvent, insertSubsequentEvent. fold toStore.
    destruct seed as [t|]; [|simpl; by destruct (ev_expectedVersion e =? 0)].
    rewrite (seed_check_ok db e toStore t) by done.
    simpl. by destruct (0 <? _), (ev_expectedVersion e =? 0). }
  unfold append. rewrite Henc, Hseed. fold toStore. simpl. rewrite Hwrite. clear Hwrite.
  pose proof (getStreamVersion_nonneg db Hok (ev_aggregateId e) (ev_tenantId e)).
  unfold insert_row; simpl. rewrite Hev, andb_true_r.
  destruct (ev_expectedVersion e =? cur) eqn:Ecur; reflect_bools.
  - rewrite Ecur. replace ((0 <=? cur) && (cur <=? cur)) with true
      by (symmetry; apply andb_true_iff; rewrite !Z.leb_le; lia).
    destruct (int4 (cur + 1)); [|done]. simpl.
    replace (version_taken _ _ _ _) with false
      by (symmetry; apply version_taken_false; [done|fold cur; lia]).
    destruct (idempotency_taken _ _ _) eqn:Ek; simpl.
    + apply idempotency_taken_Some in Ek as [key Ek]. unfold key_conflict. rewrite Ek. simpl.
      by destruct (bool_decide (key = "")).
    + unfold buildStoredEvent, appended, row_of_insert; simpl. by rewrite Ecur.
  - destruct ((0 <=? ev_expectedVersion e) && (ev_expectedVersion e <=? cur)) eqn:Eb; [|done].
    reflect_bools. pose proof (int4_streamVersion db (ev_aggregateId e) (ev_tenantId e) Hok) as Hi.
    fold cur in Hi. replace (int4 (ev_expectedVersion e + 1)) with true
      by (symmetry; revert Hi; unfold int4; rewrite !andb_true_iff, !Z.leb_le; lia).
    simpl. replace (version_taken _ _ _ _) with true
      by (symmetry; apply version_taken_true; [done|fold cur; lia]).
    done.
Qed.
End append_lemmas.

(** Whatever its inputs, a call either adds the one row that continues its
    stream or throws and leaves the rows as they were. *)
Lemma append_effect encrypt origin env db e :
  log_ok db →
  let r := append encrypt origin env db e in
  (∃ payload seed,
      encrypt (ev_type e) (ev_payload e) (ev_tenantId e, ev_aggregateType e, ev_aggregateId e)
        = Ok payload ∧
      ev_expectedVersion e = getStreamVersion db (ev_aggregateId e) (ev_tenantId e) ∧
      let row := appended origin db e payload seed in
      r = (Ok (toStoredEvent row), add_row db row) ∧ log_ok (add_row db row)) ∨
  (∃ err, r = (Err err, db) ∨ r = (Err err, bump db)).
Proof.
  intros Hok r. unfold r, append.
  destruct (encrypt _ _ _) as [payload|t] eqn:Henc; [|naive_solver].
  destruct (currentSeedCreatedAt env) as [seed|err] eqn:Hseed; [|naive_solver].
  set (toStore := stampOrigin origin (with_payload e payload)).
  unfold append_write. destruct (match seed with Some t => _ | None => _ end) as [u|err];
    [clear u|naive_solver].
  assert (Hins := insert_by_version db e
    (insert_params toStore (ev_expectedVersion e + 1) (default 1 (ev_eventVersion e)) seed)
    Hok eq_refl eq_refl).
  change (ev_expectedVersion toStore) with (ev_expectedVersion e).
  change (ev_eventVersion toStore) with (ev_eventVersion e).
  unfold insertFirstEvent, insertSubsequentEvent in *.
  change (ev_expectedVersion toStore) with (ev_expectedVersion e).
  replace (if ev_expectedVersion e =? 0 then insert_outcome toStore _ else insert_outcome toStore _)
    with (insert_outcome toStore (if ev_expectedVersion e =? 0
      then insertFirstEventRow db (insert_params toStore (ev_expectedVersion e + 1)
              (default 1 (ev_eventVersion e)) seed)
      else insertSubsequentEventRow db (insert_params toStore (ev_expectedVersion e + 1)
              (default 1 (ev_eventVersion e)) seed) (ev_expectedVersion e)))
    by (by destruct (ev_expectedVersion e =? 0)).
  rewrite Hins. clear Hins. set (cur := getStreamVersion _ _ _).
  destruct (_ && _) eqn:Eb; [|naive_solver].
  unfold insert_row; simpl. destruct (negb _) eqn:Ei; [naive_solver|]. reflect_bools.
  destruct (version_taken _ _ _ _) eqn:Et; [naive_solver|]. simpl.
  destruct (idempotency_taken _ _ _) eqn:Ek; [naive_solver|].
  apply version_taken_false in Et; [|done]. fold cur in Et. simpl. left.
  assert (Heq : ev_expectedVersion e = cur) by lia.
  eexists payload, seed. split; [done|]. split; [done|].
  split; [done|]. apply log_ok_add_row; simpl; try done. fold cur. lia.
Qed.

Lemma append_keeps_log_ok encrypt origin env db e :
  log_ok db → log_ok (append encrypt origin env db e).2.
Proof.
  intros Hok. destruct (append_effect encrypt origin env db e Hok)
    as [(payload & seed & _ & _ & -> & H)|(err & [-> | ->])]; [done|done|by apply log_ok_bump].
Qed.

(** ** Lemmas on loads *)

Lemma select_stream_stream db a t :
  log_ok db → select_stream db (in_stream a t) = stream db a t.
Proof. intros Hok. unfold select_stream. apply sort_by_id. by apply stream_sorted. Qed.

(** Every ordered read of a part of one stream is that part of the stream. *)
Lemma select_stream_part db a t (P Q : StoredEventRow → Prop)
    `{∀ r, Decision (P r)} `{∀ r, Decision (Q r)} :
  log_ok db → (∀ r, P r ↔ Q r ∧ in_stream a t r) →
  select_stream db P = filter Q (stream db a t).
Proof.
  intros Hok HP. unfold select_stream, stream.
  rewrite (list_filter_iff P (λ r, Q r ∧ in_stream a t r)) by apply HP.
  rewrite <- list_filter_filter. apply sort_by_id.
  apply strongly_sorted_filter. by apply stream_sorted.
Qed.

Lemma loadAggregate_stream db a t :
  log_ok db → isStreamArchived db t a = false →
  loadAggregate db a t noOptions = Ok (toStoredEvent <$> stream db a t).
Proof.
  intros Hok Har. unfold loadAggregate; simpl. rewrite Har.
  do 2 f_equal. rewrite (select_stream_part db a t _ (λ _, True)); [|done|unfold load_where; naive_solver].
  by rewrite filter_keeps_all.
Qed.

Lemma last_version_stream db a t :
  log_ok db →
  from_option se_version 0 (last (toStoredEvent <$> stream db a t)) = getStreamVersion db a t.
Proof.
  intros Hok. rewrite getStreamVersion_length by done. pose proof (stream_versions db Hok a t) as Hv.
  rewrite fmap_last. destruct (stream db a t) as [|r l _] using rev_ind; [done|].
  rewrite last_snoc; simpl. rewrite length_app, fmap_app, Nat.add_1_r in *; simpl in Hv.
  rewrite versions_upto_S in Hv. apply app_inj_tail in Hv as [_ Hv]. lia.
Qed.

Lemma isStreamArchived_events db evs next t a :
  isStreamArchived (with_events db evs next) t a = isStreamArchived db t a.
Proof. done. Qed.

Lemma log_ok_empty : log_ok emptyDb.
Proof. split; simpl; try done; constructor. Qed.

(** Changes of the other tables and of the clock. *)
Lemma log_ok_same_events db db' :
  db_events db' = db_events db → db_nextEventId db' = db_nextEventId db → log_ok db → log_ok db'.
Proof.
  intros He Hn [H1 H2 H3 H4 H5 H6]. split; unfold stream in *; rewrite ?He, ?Hn; done.
Qed.

(** ** The event log as a transition system *)

Inductive log_step (encrypt : string → Row → string * string * string → result Thrown Row)
    : EventsDb → EventsDb → Prop :=
| step_append origin env e db :
    log_step encrypt db (append encrypt origin env db e).2
| step_archive db t a ty by_ reason :
    log_step encrypt db (archiveStream db t a ty by_ reason)
| step_restore db t a :
    log_step encrypt db (restoreStream db t a)
| step_snapshot db a t ty v st sv :
    log_step encrypt db (upsertSnapshot db a t ty v st sv)
| step_clock db now :
    db_now db ≤ now →
    log_step encrypt db
      (mkDb (db_events db) (db_nextEventId db) (db_archived db) (db_snapshots db) now).

Definition reachable_log (encrypt : string → Row → string * string * string → result Thrown Row)
    (db : EventsDb) : Prop :=
  rtc (log_step encrypt) emptyDb db.

Lemma log_step_keeps_log_ok encrypt db db' : log_step encrypt db db' → log_ok db → log_ok db'.
Proof.
  destruct 1; intros Hok; [by apply append_keeps_log_ok|by apply (log_ok_same_events db)..].
Qed.

(** A row of another stream changes no ordered read of this one. *)
Lemma select_stream_other db row a t (P : StoredEventRow → Prop) `{∀ r, Decision (P r)} :
  ¬ in_stream a t row → (∀ r, P r → in_stream a t r) →
  select_stream (add_row db row) P = select_stream db P.
Proof.
  intros Hrow HP. unfold select_stream; simpl. rewrite filter_app, (filter_cons_False P row []).
  - by rewrite app_nil_r.
  - intros Hp. by apply Hrow, HP.
Qed.

Lemma last_version_stream_select db a t :
  log_ok db →
  from_option se_version 0 (last (toStoredEvent <$> select_stream db (in_stream a t)))
  = getStreamVersion db a t.
Proof. intros Hok. rewrite select_stream_stream by done. by apply last_version_stream. Qed.

(** ** Lemmas on the type stream *)

Lemma yield_rows_live rows tick :
  yield_rows (λ _, false) tick rows = (toStoredEvent <$> rows, Some (tick + length rows)%nat).
Proof.
  revert tick. induction rows as [|r rows IH]; intros tick; simpl; [do 2 f_equal; lia|].
  rewrite IH. do 2 f_equal. lia.
Qed.

Section type_stream.
Context (db : EventsDb) (ty : string) (batchSize : nat).

Definition of_type_after (cursor : Z) : list StoredEventRow :=
  filter (λ r, row_aggregateType r = ty ∧ cursor < row_id r) (db_events db).

Lemma type_batch_ids cursor :
  log_ok db → type_batch db ty cursor batchSize = take batchSize (of_type_after cursor).
Proof.
  intros Hok. unfold type_batch, of_type_after. rewrite sort_by_id; [done|].
  apply strongly_sorted_filter. apply (ok_ids db Hok).
Qed.

(** Behind the last id of a batch lies exactly the rest. *)
Lemma of_type_after_rest cursor n r :
  log_ok db → last (take n (of_type_after cursor)) = Some r →
  of_type_after (row_id r) = drop n (of_type_after cursor).
Proof.
  intros Hok Hr.
  assert (Hs : StronglySorted (λ r s, row_id r < row_id s) (of_type_after cursor))
    by (apply strongly_sorted_filter, (ok_ids db Hok)).
  assert (Hin : r ∈ take n (of_type_after cursor)) by (by apply last_Some_elem_of).
  assert (Hc : cursor < row_id r).
  { assert (r ∈ of_type_after cursor) as Hr' by (rewrite <- (take_drop n); set_solver).
    unfold of_type_after in Hr'. apply list_elem_of_filter in Hr'. tauto. }
  transitivity (filter (λ s, row_id r < row_id s) (of_type_after cursor)).
  { unfold of_type_after. rewrite list_filter_filter. apply list_filter_iff. intros s. split; [|tauto].
    intros [Hty Hlt]. split; [done|]. split; [done|lia]. }
  rewrite <- (take_drop n (of_type_after cursor)) at 1. rewrite filter_app.
  rewrite <- (take_drop n (of_type_after cursor)) in Hs.
  rewrite filter_keeps_none, filter_keeps_all; [done|..].
  - intros s Hs'. by apply (StronglySorted_app_1_elem_of _ _ _ r s) in Hs.
  - intros s Hs'. apply StronglySorted_app_1_l in Hs.
    apply last_Some in Hr as [l' Hl']. rewrite Hl' in Hs, Hs'.
    apply elem_of_app in Hs' as [Hs'|Hs'].
    + apply (StronglySorted_app_1_elem_of _ _ _ s r) in Hs; [simpl in *; lia|done|set_solver].
    + apply list_elem_of_singleton in Hs' as ->. simpl; lia.
Qed.

Lemma stream_batches_live fuel tick cursor :
  log_ok db → (0 < batchSize)%nat → (length (of_type_after cursor) < fuel)%nat →
  stream_batches fuel (λ _, false) tick db ty batchSize cursor
  = Some (toStoredEvent <$> of_type_after cursor, true).
Proof.
  intros Hok Hb. revert tick cursor. induction fuel as [|fuel IH]; intros tick cursor Hf; [lia|].
  simpl. rewrite type_batch_ids by done.
  destruct (take batchSize (of_type_after cursor)) as [|r rows] eqn:Ht.
  { destruct (of_type_after cursor) as [|x l]; [done|]. destruct batchSize; [lia|done]. }
  destruct (last (r :: rows)) as [lr|] eqn:El; [|by rewrite last_None in El].
  simpl from_option. rewrite yield_rows_live.
  assert (Hrest : of_type_after (row_id lr) = drop batchSize (of_type_after cursor))
    by (apply of_type_after_rest; [done|by rewrite Ht]).
  rewrite IH.
  - rewrite Hrest. simpl. rewrite <- (take_drop batchSize (of_type_after cursor)) at 2.
    by rewrite Ht, fmap_app.
  - rewrite Hrest, length_drop. assert (of_type_after cursor ≠ []) by (intros E; by rewrite E, take_nil in Ht).
    destruct (of_type_after cursor); simpl in *; [done|lia].
Qed.
End type_stream.

(** ** Properties *)

Definition plain (type : string) (payload : Row) (scope : string * string * string)
    : result Thrown Row := Ok payload.

(** C2: [append] decides by optimistic concurrency: with a well-formed log the
    event is stored exactly when its expected version is the stream's current
    one, the next version fits int4 and its idempotency key is unused in the
    tenant; a stale or future expected version throws the version conflict that
    carries the current version, a reused key throws the idempotency conflict,
    and every refusal leaves the stored rows as they were. *)
Theorem append_decides encrypt origin env db e payload seed :
  log_ok db →
  encrypt (ev_type e) (ev_payload e) (ev_tenantId e, ev_aggregateType e, ev_aggregateId e) = Ok payload →
  currentSeedCreatedAt env = Ok seed → seed_ok db e seed →
  int4 (default 1 (ev_eventVersion e)) = true →
  let cur := getStreamVersion db (ev_aggregateId e) (ev_tenantId e) in
  append encrypt origin env db e =
  if ev_expectedVersion e =? cur then
    if int4 (cur + 1) then
      if idempotency_taken (db_events db) (ev_tenantId e) (md_idempotencyKey (ev_metadata e))
      then (Err (key_conflict e), bump db)
      else let row := appended origin db e payload seed in (Ok (toStoredEvent row), add_row db row)
    else (Err (AppendThrown (server_error "22003" None)), db)
  else (Err (VersionConflictError (ev_aggregateId e) (ev_expectedVersion e) (Some cur)),
        if (0 <=? ev_expectedVersion e) && (ev_expectedVersion e <=? cur) then bump db else db).
Proof. intros Hok Henc Hseed Hs Hv. by eapply append_decision. Qed.

Definition demo_metadata (key : option string) : EventMetadata :=
  mkMetadata "u1" None None None key None None None None.

Definition demo_event (tenant agg : string) (expected : Z) (key : option string) : EventToAppend :=
  mkToAppend agg "order" tenant expected "shop:event:placed" None [("n", JNum 1)] (demo_metadata key).

Definition demo_log : EventsDb :=
  (append plain None liveClock
    (append plain None liveClock
      (append plain None liveClock emptyDb (demo_event "t1" "a1" 0 None)).2
      (demo_event "t2" "a1" 0 (Some "k"))).2
    (demo_event "t1" "a1" 1 (Some "k"))).2.

Lemma log_ok_demo : log_ok demo_log.
Proof. unfold demo_log. repeat apply append_keeps_log_ok. apply log_ok_empty. Qed.

Lemma append_decides_witness :
  (append plain None liveClock demo_log (demo_event "t1" "a1" 1 None)).1
  = Err (VersionConflictError "a1" 1 (Some 2)).
Proof.
  rewrite (append_decides plain None liveClock demo_log (demo_event "t1" "a1" 1 None)
             [("n", JNum 1)] None log_ok_demo eq_refl eq_refl).
  - reflexivity.
  - apply seed_ok_live.
  - reflexivity.
Defined.

(** C12: every log the operations can produce from the empty one (appends under
    any origin and clock, archiving, restoring, snapshots, time) is well
    formed: each stream of a tenant holds the versions 1..n in insertion order
    without gap or duplicate, ids ascend strictly below the sequence, and an
    idempotency key occurs at most once per tenant. *)
Theorem reachable_log_ok encrypt db : reachable_log encrypt db → log_ok db.
Proof.
  unfold reachable_log. generalize log_ok_empty. generalize emptyDb.
  intros db0 H0 Hr. induction Hr; [done|]. eauto using log_step_keeps_log_ok.
Qed.

Lemma reachable_log_ok_witness :
  log_ok (append plain None liveClock emptyDb (demo_event "t1" "a1" 0 None)).2.
Proof.
  apply (reachable_log_ok plain). eapply rtc_l; [apply step_append|apply rtc_refl].
Defined.

(** Of two writers that both read a stream at the same version, the one
    that appends second is refused with the version the first one wrote, and
    the stream holds the first writer's event only. *)
Theorem second_writer_conflicts encrypt o1 o2 env1 env2 db e1 e2 p2 seed2 se1 db1 :
  log_ok db →
  append encrypt o1 env1 db e1 = (Ok se1, db1) →
  ev_aggregateId e2 = ev_aggregateId e1 → ev_tenantId e2 = ev_tenantId e1 →
  ev_expectedVersion e2 = ev_expectedVersion e1 →
  encrypt (ev_type e2) (ev_payload e2) (ev_tenantId e2, ev_aggregateType e2, ev_aggregateId e2) = Ok p2 →
  currentSeedCreatedAt env2 = Ok seed2 → seed_ok db1 e2 seed2 →
  int4 (default 1 (ev_eventVersion e2)) = true →
  append encrypt o2 env2 db1 e2 =
    (Err (VersionConflictError (ev_aggregateId e1) (ev_expectedVersion e1) (Some (se_version se1))),
     bump db1).
Proof.
  intros Hok H1 Ha Ht Hv Henc Hseed Hs Hi.
  destruct (append_effect encrypt o1 env1 db e1 Hok) as [(p1 & s1 & Henc1 & Hcur & Heq & Hok1)|(err & Heq)];
    [|destruct Heq; congruence].
  rewrite Heq in H1. simplify_eq. pose proof (getStreamVersion_nonneg db Hok (ev_aggregateId e1) (ev_tenantId e1)).
  assert (Hnew : getStreamVersion (add_row db (appended o1 db e1 p1 s1)) (ev_aggregateId e1) (ev_tenantId e1)
                 = ev_expectedVersion e1 + 1).
  { rewrite getStreamVersion_length, stream_add_row by done. rewrite decide_True by done.
    rewrite length_app, Nat2Z.inj_add, <- getStreamVersion_length by done. simpl. lia. }
  rewrite (append_decision encrypt o2 env2 _ e2 p2 seed2) by done.
  rewrite Ha, Ht, Hv, Hnew. replace (_ =? _) with false by (symmetry; apply Z.eqb_neq; lia).
  replace (_ && _) with true; [done|]. symmetry. apply andb_true_iff. rewrite !Z.leb_le. lia.
Qed.

Lemma second_writer_conflicts_witness :
  (append plain None liveClock
     (append plain None liveClock demo_log (demo_event "t1" "a1" 2 None)).2
     (demo_event "t1" "a1" 2 None)).1 = Err (VersionConflictError "a1" 2 (Some 3)).
Proof.
  destruct (append plain None liveClock demo_log (demo_event "t1" "a1" 2 None)) as [[se|err] db1] eqn:E1.
  - assert (se_version se = 3) as Hv by (vm_compute in E1; injection E1 as <- <-; reflexivity).
    rewrite <- Hv. simpl snd.
    rewrite (second_writer_conflicts plain None None liveClock liveClock demo_log
               (demo_event "t1" "a1" 2 None) (demo_event "t1" "a1" 2 None) [("n", JNum 1)] None se db1
               log_ok_demo E1 eq_refl eq_refl eq_refl eq_refl eq_refl (seed_ok_live _ _) eq_refl).
    reflexivity.
  - vm_compute in E1. discriminate E1.
Defined.

(** A writer reads its own write, and only its stream changes: after a
    successful append the stream's load is the earlier load followed by the
    returned event, its write view is at the returned version, and the load,
    the as-of load, the write view and the version of every other stream (of
    this or another tenant) are what they were. *)
Theorem append_extends_its_stream_only encrypt origin env db e se db' :
  log_ok db → append encrypt origin env db e = (Ok se, db') →
  (∀ a t, (a, t) = (ev_aggregateId e, ev_tenantId e) → isStreamArchived db t a = false →
    ∃ old, loadAggregate db a t noOptions = Ok old ∧
           loadAggregate db' a t noOptions = Ok (old ++ [se]) ∧
           getStreamVersion db' a t = getStreamVersion db a t + 1 ∧
           loadAggregateForWriting db' a t "" = Err EmptyAggregateType ∧
           ∀ ty, ty ≠ "" → loadAggregateForWriting db' a t ty
             = Ok (filter (λ x, se_aggregateType x = ty) (old ++ [se]), se_version se)) ∧
  (∀ a t o asOf ty, (a, t) ≠ (ev_aggregateId e, ev_tenantId e) →
    loadAggregate db' a t o = loadAggregate db a t o ∧
    loadAggregateAsOf db' a t asOf (includeArchived o) = loadAggregateAsOf db a t asOf (includeArchived o) ∧
    loadAggregateForWriting db' a t ty = loadAggregateForWriting db a t ty ∧
    getStreamVersion db' a t = getStreamVersion db a t).
Proof.
  intros Hok H1.
  destruct (append_effect encrypt origin env db e Hok) as [(p & s & _ & Hcur & Heq & Hok')|(err & Heq)];
    [|destruct Heq; congruence].
  rewrite Heq in H1. simplify_eq. set (row := appended origin db e p s) in *. split.
  - intros a t [= -> ->] Har. exists (toStoredEvent <$> stream db (ev_aggregateId e) (ev_tenantId e)).
    assert (Hst : stream (add_row db row) (ev_aggregateId e) (ev_tenantId e)
                  = stream db (ev_aggregateId e) (ev_tenantId e) ++ [row])
      by (rewrite stream_add_row, decide_True by done; done).
    assert (Hv : getStreamVersion (add_row db row) (ev_aggregateId e) (ev_tenantId e)
                 = ev_expectedVersion e + 1).
    { rewrite getStreamVersion_length, Hst, length_app, Nat2Z.inj_add, <- getStreamVersion_length by done.
      simpl. lia. }
    split; [by apply loadAggregate_stream|]. split.
    { by rewrite loadAggregate_stream, Hst, fmap_app by done. }
    split; [lia|]. split; [done|]. intros ty Hty. unfold loadAggregateForWriting.
    rewrite bool_decide_eq_false_2 by done. unfold add_row. rewrite isStreamArchived_events, Har.
    fold (add_row db row). rewrite last_version_stream_select by done. rewrite Hv.
    rewrite select_stream_stream, Hst, fmap_app by done. done.
  - intros a t o asOf ty Hne.
    unfold loadAggregate, loadAggregateAsOf, loadAggregateForWriting, getStreamVersion, selectStreamMaxVersion.
    unfold add_row. rewrite isStreamArchived_events. fold (add_row db row).
    assert (Hrow : ¬ in_stream a t row) by (unfold in_stream; simpl; intros [<- <-]; done).
    rewrite !(select_stream_other db row a t) by (done || (unfold load_where; tauto)).
    change (filter (in_stream a t) (db_events (add_row db row))) with (stream (add_row db row) a t).
    rewrite stream_add_row, decide_False, app_nil_r by done. done.
Qed.

Lemma append_extends_its_stream_only_witness :
  let r := append plain None liveClock demo_log (demo_event "t1" "a1" 2 None) in
  loadAggregate r.2 "a1" "t2" noOptions = loadAggregate demo_log "a1" "t2" noOptions ∧
  getStreamVersion r.2 "a1" "t1" = 3.
Proof.
  intros r. destruct r as [[se|err] db1] eqn:E1; [|vm_compute in E1; discriminate E1].
  destruct (append_extends_its_stream_only plain None liveClock demo_log
              (demo_event "t1" "a1" 2 None) se db1 log_ok_demo E1) as [Hown Hother].
  destruct (Hown "a1" "t1" eq_refl) as (old & _ & _ & Hv & _); [reflexivity|].
  destruct (Hother "a1" "t2" noOptions 0 "order") as (Hl & _); [discriminate|].
  split; [exact Hl|]. simpl snd. rewrite Hv. reflexivity.
Defined.

(** The per-type sweep yields every event of the type exactly once, in id
    order, whatever the batch size, and the generator terminates: the fuel of
    one batch per stored row, plus the empty one that ends it, suffices. *)
Theorem streamAllEventsByType_complete db ty batchSize :
  log_ok db → (0 < batchSize)%nat →
  streamAllEventsByType (λ _, false) db ty batchSize =
  Some (toStoredEvent <$> filter (λ r, row_aggregateType r = ty) (db_events db), true).
Proof.
  intros Hok Hb. unfold streamAllEventsByType. rewrite stream_batches_live by
    (done || (unfold of_type_after; rewrite Nat.lt_succ_r; apply length_filter)).
  do 2 f_equal. unfold of_type_after. f_equal. pose proof (ok_next db Hok) as Hpos.
  induction Hpos as [|r l Hr Hl IH]; [done|]. rewrite !filter_cons, IH.
  repeat case_decide; done || (exfalso; intuition lia).
Qed.

Lemma streamAllEventsByType_complete_witness :
  from_option (λ r, length r.1) O (streamAllEventsByType (λ _, false) demo_log "order" 2) = 3%nat.
Proof.
  rewrite (streamAllEventsByType_complete demo_log "order" 2 log_ok_demo); [reflexivity|lia].
Defined.
