(* ===== verification/QualifiedName.v ===== *)
(** * Qualified names

    [engine/qualified-name.ts] and [types/src/kebab-case.ts].  The regular
    expressions are written as functions on characters: a global replace of a
    two-character context is a scan that carries the previous character, since
    the matches of these patterns never overlap.  Characters beyond ASCII pass
    through [toLowerCase] unchanged. *)

From Stdlib Require Import Ascii.
From S2P Require Import Prelude.

Definition colon : Ascii.ascii := ":"%char.
Definition dash : Ascii.ascii := "-"%char.
Definition dot : Ascii.ascii := "."%char.

Definition in_range_c (lo hi c : Ascii.ascii) : bool :=
  (Ascii.nat_of_ascii lo <=? Ascii.nat_of_ascii c)%nat
  && (Ascii.nat_of_ascii c <=? Ascii.nat_of_ascii hi)%nat.

Definition is_lower (c : Ascii.ascii) : bool := in_range_c "a"%char "z"%char c.
Definition is_upper (c : Ascii.ascii) : bool := in_range_c "A"%char "Z"%char c.
Definition is_digit (c : Ascii.ascii) : bool := in_range_c "0"%char "9"%char c.

(** ** Kebab case *)

Fixpoint dots_to_dashes (s : string) : string :=
  match s with
  | EmptyString => EmptyString
  | String c s' => String (if Ascii.eqb c dot then dash else c) (dots_to_dashes s')
  end.

Definition head_is (p : Ascii.ascii → bool) (s : string) : bool :=
  match s with String c _ => p c | EmptyString => false end.

(** [/([A-Z]+)([A-Z][a-z])/g → "$1-$2"]: a dash before the last capital of a
    run that a small letter follows. *)
Fixpoint split_acronyms (prev_upper : bool) (s : string) : string :=
  match s with
  | EmptyString => EmptyString
  | String c s' =>
      if prev_upper && is_upper c && head_is is_lower s'
      then String dash (String c (split_acronyms (is_upper c) s'))
      else String c (split_acronyms (is_upper c) s')
  end.

(** [/([a-z0-9])([A-Z])/g → "$1-$2"] *)
Fixpoint split_camel (prev_small : bool) (s : string) : string :=
  match s with
  | EmptyString => EmptyString
  | String c s' =>
      if prev_small && is_upper c
      then String dash (String c (split_camel (is_lower c || is_digit c) s'))
      else String c (split_camel (is_lower c || is_digit c) s')
  end.

Definition toKebab (input : string) : string :=
  to_lower (split_camel false (split_acronyms false (dots_to_dashes input))).

(** ** Segments *)

Definition segment_tail (c : Ascii.ascii) : bool := is_lower c || is_digit c || Ascii.eqb c dash.

Fixpoint all_chars (p : Ascii.ascii → bool) (s : string) : bool :=
  match s with EmptyString => true | String c s' => p c && all_chars p s' end.

(** *** Identifiers *)

Definition is_lower_hex (c : Ascii.ascii) : bool :=
  let n := Ascii.nat_of_ascii c in
  ((48 <=? n)%nat && (n <=? 57)%nat) || ((97 <=? n)%nat && (n <=? 102)%nat).

(** [^[0-9a-f]{8}-[0-9a-f]{4}-[0-9a-f]{4}-[0-9a-f]{4}-[0-9a-f]{12}$] *)
Definition isUuid (s : string) : bool :=
  let groups := split_on "-"%char s in
  bool_decide (String.length <$> groups = [8; 4; 4; 4; 12]%nat) && forallb (all_chars is_lower_hex) groups.

(** *** Segments of a name *)

(** [/^[a-z][a-z0-9-]*$/.test(value)] *)
Definition QN_SEGMENT (value : string) : bool :=
  match value with
  | EmptyString => false
  | String c s' => is_lower c && all_chars segment_tail s'
  end.

Inductive QnError :=
| InvalidSegment (label value : string)
| DoubleQualified (scope name : string) (suggestion : option string)
| TooFewSegments (value : string).

Definition validateSegment (value label : string) : result QnError unit :=
  if QN_SEGMENT value then Ok tt else Err (InvalidSegment label value).

Fixpoint validate_all (parts : list string) (label : string) : result QnError unit :=
  match parts with
  | [] => Ok tt
  | part :: rest => let? _ := validateSegment part label in validate_all rest label
  end.

Definition QnTypes : list string :=
  ["write"; "query"; "hook"; "job"; "notify"; "event"; "channel"; "config"; "secret"; "screen";
   "nav"; "probe"].

Definition RESERVED_QN_SEGMENTS : list string := QnTypes ++ ["stream"; "projection"; "workspace"].

Definition isDoubleQualified (scope : string) (segments : list string) : bool :=
  match segments with
  | first :: second :: _ => bool_decide (first = scope) && bool_decide (second ∈ RESERVED_QN_SEGMENTS)
  | _ => false
  end.

(** ** Building and parsing *)

Definition colon_join (a b : string) : string := a +:+ String colon b.

Definition qn (scope type name : string) : result QnError string :=
  let? _ := validateSegment scope "scope" in
  let? _ := validateSegment type "type" in
  let nameSegments := split_on colon name in
  let? _ := validate_all nameSegments "name" in
  if isDoubleQualified scope nameSegments then
    let suggestion := join_with ":" (drop 2 nameSegments) in
    Err (DoubleQualified scope name
           (if (0 <? String.length suggestion)%nat then Some suggestion else None))
  else Ok (colon_join scope (colon_join type name)).

Record ParsedQn := mkParsedQn { pq_scope : string; pq_type : string; pq_name : string }.

Definition parseQn (value : string) : result QnError ParsedQn :=
  match index_of colon value with
  | None => Err (TooFewSegments value)
  | Some first =>
      (* [value.indexOf(":", first + 1)] *)
      match index_of colon (slice_from (first + 1) value) with
      | None => Err (TooFewSegments value)
      | Some k =>
          let second := first + 1 + k in
          let scope := slice_to first value in
          let type := slice_to (second - (first + 1)) (slice_from (first + 1) value) in
          let name := slice_from (second + 1) value in
          let? _ := validateSegment scope "scope" in
          let? _ := validateSegment type "type" in
          let? _ := validate_all (split_on colon name) "name" in
          Ok (mkParsedQn scope type name)
      end
  end.

Definition isValidQn (value : string) : bool := is_ok (parseQn value).

Definition isKebabSegment (name : string) : bool := QN_SEGMENT name.

Definition qnScope (qualifiedName : string) : option string :=
  match index_of colon qualifiedName with
  | Some (S i) => Some (slice_to (S i) qualifiedName)
  | _ => None
  end.

Definition qualifyEntityName (featureName type shortName : string) : result QnError string :=
  qn (toKebab featureName) type (toKebab shortName).

(** ** Lemmas on strings *)

Lemma slice_to_app a b : slice_to (String.length a) (a +:+ b) = a.
Proof. induction a as [|c a IH]; simpl; [by destruct b|by rewrite IH]. Qed.

Lemma slice_from_app_S a c b : slice_from (String.length a + 1) (a +:+ String c b) = b.
Proof. by induction a. Qed.

Lemma index_of_app c a b :
  index_of c a = None → index_of c (a +:+ String c b) = Some (String.length a).
Proof.
  induction a as [|d a IH]; simpl; [by rewrite Ascii.eqb_refl|].
  destruct (Ascii.eqb d c); [done|]. intros H.
  destruct (index_of c a); [done|]. by rewrite IH.
Qed.

Lemma index_of_Some c s i :
  index_of c s = Some i →
  s = slice_to i s +:+ String c (slice_from (i + 1) s) ∧ index_of c (slice_to i s) = None
  ∧ String.length (slice_to i s) = i.
Proof.
  revert i. induction s as [|d s IH]; intros i; simpl; [done|].
  destruct (Ascii.eqb d c) eqn:E.
  - intros [= <-]. apply Ascii.eqb_eq in E as ->. simpl. by destruct s.
  - destruct (index_of c s) as [j|]; [|done]. intros [= <-]. destruct (IH j eq_refl) as (H1 & H2 & H3).
    split; [exact (f_equal (String d) H1)|]. simpl. by rewrite E, H2, H3.
Qed.

(** A segment holds no separator. *)
Lemma tail_no_colon s : all_chars segment_tail s = true → index_of colon s = None.
Proof.
  induction s as [|c s IH]; [done|]. simpl. rewrite andb_true_iff. intros [Hc Hs].
  destruct (Ascii.eqb c colon) eqn:E; [|by rewrite IH].
  apply Ascii.eqb_eq in E as ->. by vm_compute in Hc.
Qed.

Lemma segment_no_colon s : QN_SEGMENT s = true → index_of colon s = None.
Proof.
  intros H. apply tail_no_colon. destruct s as [|c s]; [done|]. simpl in *.
  apply andb_prop in H as [Hc ->]. unfold segment_tail. by rewrite Hc.
Qed.

Lemma segment_nonempty s : QN_SEGMENT s = true → s ≠ "".
Proof. by destruct s. Qed.

Lemma validateSegment_Ok v l u : validateSegment v l = Ok u ↔ QN_SEGMENT v = true.
Proof. unfold validateSegment. destruct u, (QN_SEGMENT v); naive_solver. Qed.

Lemma qnScope_app a b : index_of colon a = None → a ≠ "" → qnScope (colon_join a b) = Some a.
Proof.
  intros Ha Hne. unfold qnScope, colon_join. rewrite index_of_app by done.
  destruct a as [|c a]; [done|]. change (S (String.length a)) with (String.length (String c a)).
  simpl String.length at 1. f_equal. apply (slice_to_app (String c a)).
Qed.

Lemma colon_join_inj a b a' b' :
  index_of colon a = None → index_of colon a' = None →
  colon_join a b = colon_join a' b' → a = a' ∧ b = b'.
Proof.
  unfold colon_join. revert a'. induction a as [|c a IH]; intros [|c' a'] Ha Ha' Heq; simpl in *.
  - by injection Heq.
  - injection Heq as <- _. by rewrite Ascii.eqb_refl in Ha'.
  - injection Heq as -> _. by rewrite Ascii.eqb_refl in Ha.
  - destruct (Ascii.eqb c colon); [done|]. destruct (Ascii.eqb c' colon); [done|].
    apply fmap_None in Ha, Ha'. injection Heq as <- Heq. by destruct (IH a' Ha Ha' Heq) as [-> ->].
Qed.

(** ** Lemmas on kebab case *)

Definition no_upper (s : string) : bool := all_chars (λ c, negb (is_upper c)) s.

Lemma lower_ascii_no_upper c : is_upper (lower_ascii c) = false.
Proof. by destruct c as [[] [] [] [] [] [] [] []]. Qed.

Lemma lower_ascii_id c : is_upper c = false → lower_ascii c = c.
Proof. by destruct c as [[] [] [] [] [] [] [] []]. Qed.

Lemma lower_ascii_dot c : Ascii.eqb (lower_ascii c) dot = Ascii.eqb c dot.
Proof. by destruct c as [[] [] [] [] [] [] [] []]. Qed.

Lemma to_lower_no_upper s : no_upper (to_lower s) = true.
Proof. induction s as [|c s IH]; [done|]. unfold no_upper in *; simpl. by rewrite lower_ascii_no_upper. Qed.

Lemma to_lower_id s : no_upper s = true → to_lower s = s.
Proof.
  induction s as [|c s IH]; [done|]. unfold no_upper in *; simpl.
  rewrite andb_true_iff, negb_true_iff. intros [Hc Hs]. by rewrite IH, lower_ascii_id.
Qed.

Lemma split_acronyms_id b s : no_upper s = true → split_acronyms b s = s.
Proof.
  revert b. induction s as [|c s IH]; [done|]. intros b. unfold no_upper in *; simpl.
  rewrite andb_true_iff, negb_true_iff. intros [Hc Hs]. by rewrite Hc, andb_false_r, IH.
Qed.

Lemma split_camel_id b s : no_upper s = true → split_camel b s = s.
Proof.
  revert b. induction s as [|c s IH]; [done|]. intros b. unfold no_upper in *; simpl.
  rewrite andb_true_iff, negb_true_iff. intros [Hc Hs]. by rewrite Hc, andb_false_r, IH.
Qed.

Definition no_dot (s : string) : bool := all_chars (λ c, negb (Ascii.eqb c dot)) s.

Lemma dots_to_dashes_no_dot s : no_dot (dots_to_dashes s) = true.
Proof.
  induction s as [|c s IH]; [done|]. unfold no_dot in *; simpl. rewrite IH.
  by destruct (Ascii.eqb c dot) eqn:E; [|rewrite E].
Qed.

Lemma dots_to_dashes_id s : no_dot s = true → dots_to_dashes s = s.
Proof.
  induction s as [|c s IH]; [done|]. unfold no_dot in *; simpl.
  rewrite andb_true_iff, negb_true_iff. intros [-> Hs]. by rewrite IH.
Qed.

Lemma split_acronyms_no_dot b s : no_dot s = true → no_dot (split_acronyms b s) = true.
Proof.
  revert b. induction s as [|c s IH]; [done|]. intros b. unfold no_dot in *; simpl.
  rewrite andb_true_iff. intros [Hc Hs]. case_match; simpl; by rewrite Hc, IH.
Qed.

Lemma split_camel_no_dot b s : no_dot s = true → no_dot (split_camel b s) = true.
Proof.
  revert b. induction s as [|c s IH]; [done|]. intros b. unfold no_dot in *; simpl.
  rewrite andb_true_iff. intros [Hc Hs]. case_match; simpl; by rewrite Hc, IH.
Qed.

Lemma to_lower_no_dot s : no_dot (to_lower s) = no_dot s.
Proof. induction s as [|c s IH]; [done|]. unfold no_dot in *; simpl. by rewrite IH, lower_ascii_dot. Qed.

Lemma toKebab_fixed s : no_upper s = true → no_dot s = true → toKebab s = s.
Proof.
  intros Hu Hd. unfold toKebab.
  by rewrite dots_to_dashes_id, split_acronyms_id, split_camel_id, to_lower_id.
Qed.

Lemma toKebab_shape s : no_upper (toKebab s) = true ∧ no_dot (toKebab s) = true.
Proof.
  unfold toKebab. split; [apply to_lower_no_upper|].
  rewrite to_lower_no_dot. apply split_camel_no_dot, split_acronyms_no_dot, dots_to_dashes_no_dot.
Qed.

Lemma segment_tail_plain c :
  segment_tail c = true → is_upper c = false ∧ Ascii.eqb c dot = false.
Proof. by destruct c as [[] [] [] [] [] [] [] []]. Qed.

Lemma segment_tail_shape s :
  all_chars segment_tail s = true → no_upper s = true ∧ no_dot s = true.
Proof.
  induction s as [|c s IH]; [done|]. simpl. rewrite andb_true_iff. intros [Hc Hs].
  destruct (IH Hs) as [Hu Hd]. destruct (segment_tail_plain c Hc) as [Hcu Hcd].
  unfold no_upper, no_dot in *; simpl. by rewrite Hcu, Hcd.
Qed.

Lemma toKebab_segment s : QN_SEGMENT s = true → toKebab s = s.
Proof.
  intros Hs. assert (Ht : all_chars segment_tail s = true).
  { destruct s as [|c s]; [done|]. simpl in *. apply andb_prop in Hs as [Hc ->].
    unfold segment_tail. by rewrite Hc. }
  destruct (segment_tail_shape s Ht). by apply toKebab_fixed.
Qed.

(** ** Properties *)

(** Building and parsing a qualified name are inverse: what [qn] accepts
    parses back to its three parts, and what [parseQn] accepts is the
    concatenation of the parts it returns; the owner read by [qnScope] is the
    scope in both cases. *)
Theorem qn_round_trip value scope type name :
  (qn scope type name = Ok value → parseQn value = Ok (mkParsedQn scope type name)) ∧
  (parseQn value = Ok (mkParsedQn scope type name) →
     value = colon_join scope (colon_join type name) ∧ qnScope value = Some scope ∧
     (isDoubleQualified scope (split_on colon name) = false → qn scope type name = Ok value)).
Proof.
  split.
  - unfold qn. rewrite !result_bind_Ok. intros (u & Hs & H). rewrite result_bind_Ok in H.
    destruct H as (u' & Ht & H). rewrite result_bind_Ok in H. destruct H as (u'' & Hn & H).
    destruct (isDoubleQualified _ _); [done|]. injection H as <-.
    apply validateSegment_Ok in Hs as Hs', Ht as Ht'.
    unfold parseQn, colon_join. rewrite index_of_app by by apply segment_no_colon.
    rewrite slice_from_app_S, index_of_app by by apply segment_no_colon.
    rewrite slice_to_app.
    replace (String.length scope + 1 + String.length type - (String.length scope + 1))
      with (String.length type) by lia.
    rewrite slice_to_app.
    replace (slice_from _ _) with name; [by rewrite Hs, Ht, Hn|].
    symmetry. clear. induction scope as [|c scope IH]; [simpl; apply slice_from_app_S|exact IH].
  - unfold parseQn. destruct (index_of colon value) as [i|] eqn:Hi; [|done].
    destruct (index_of colon (slice_from (i + 1) value)) as [k|] eqn:Hk; [|done].
    rewrite !result_bind_Ok. intros (u & Hs & H). rewrite result_bind_Ok in H.
    destruct H as (u' & Ht & H). rewrite result_bind_Ok in H. destruct H as (u'' & Hn & [= <- <- <-]).
    apply index_of_Some in Hi as (Hi & Hi0 & Hi'). apply index_of_Some in Hk as (Hk & _ & _).
    replace (i + 1 + k - (i + 1)) with k in * by lia.
    replace (slice_from (i + 1 + k + 1) value) with (slice_from (k + 1) (slice_from (i + 1) value)) in *
      by (clear; revert i; induction value as [|c v IH]; intros i; [by destruct i, k|];
          destruct i as [|i]; [done|apply (IH i)]).
    assert (Hv : value = colon_join (slice_to i value) (colon_join (slice_to k (slice_from (i + 1) value))
                   (slice_from (k + 1) (slice_from (i + 1) value)))).
    { unfold colon_join. by rewrite <- Hk. }
    split; [exact Hv|]. split.
    + rewrite Hv at 1. apply qnScope_app; [done|]. apply segment_nonempty. by eapply validateSegment_Ok.
    + intros Hd. unfold qn. rewrite Hs; simpl. rewrite Ht; simpl. rewrite Hn; simpl. rewrite Hd. by rewrite <- Hv.
Qed.

(** [toKebab] yields no capital and no dot, is idempotent, and leaves a
    valid segment unchanged, so a name is qualified the same way whether or not
    it was already in kebab case. *)
Theorem toKebab_idempotent s type short :
  no_upper (toKebab s) = true ∧ no_dot (toKebab s) = true ∧ toKebab (toKebab s) = toKebab s ∧
  (QN_SEGMENT s = true → toKebab s = s) ∧
  qualifyEntityName (toKebab s) type (toKebab short) = qualifyEntityName s type short.
Proof.
  assert (Hi : ∀ x, toKebab (toKebab x) = toKebab x) by (intros x; apply toKebab_fixed; apply toKebab_shape).
  unfold qualifyEntityName. rewrite !Hi. destruct (toKebab_shape s).
  split_and!; try done. apply toKebab_segment.
Qed.

Lemma qn_round_trip_witness :
  parseQn "tasks:write:task:create" = Ok (mkParsedQn "tasks" "write" "task:create") ∧
  qnScope "tasks:write:task:create" = Some "tasks".
Proof.
  assert (H : parseQn "tasks:write:task:create" = Ok (mkParsedQn "tasks" "write" "task:create")).
  { apply (qn_round_trip "tasks:write:task:create" "tasks" "write" "task:create"). reflexivity. }
  split; [exact H|]. apply (qn_round_trip "tasks:write:task:create" "tasks" "write" "task:create"), H.
Defined.

Lemma toKebab_idempotent_witness :
  toKebab "SSEBroadcast.ticketAssigned" = "sse-broadcast-ticket-assigned" ∧
  toKebab "sse-broadcast-ticket-assigned" = "sse-broadcast-ticket-assigned".
Proof.
  split; [reflexivity|].
  apply (toKebab_idempotent "sse-broadcast-ticket-assigned" "event" ""). reflexivity.
Defined.
