(* ===== verification/ConsumerState.v ===== *)
(** * The consumer cursor table

    The table [kumiko_event_consumers] ([pipeline/event-consumer-state.ts]) and
    its statements ([db/queries/event-consumer.ts]).  The table is a map from
    [(name, instance_id)] to the row; the row locks other transactions hold
    are an argument of the statements that use SKIP LOCKED.  What Postgres
    reports about the current snapshot is the record [PgSnapshot]. *)

From S2P Require Import Prelude GapRanges EventLog.

Open Scope Z_scope.

(** ** Rows *)

Inductive ConsumerStatus := Idle | Processing | Dead | Disabled.

#[export] Instance ConsumerStatus_eq_dec : EqDecision ConsumerStatus.
Proof. solve_decision. Defined.

Record ConsumerStateRow := mkConsumer {
  cs_lastProcessedEventId : Z;
  cs_status : ConsumerStatus;
  cs_attempts : Z;
  cs_rearmCount : Z;
  cs_pendingGaps : list PendingGapEntry;
  cs_lastFailedEventId : option Z;
  cs_lastError : option string;
  cs_updatedAt : Z }.

Notation ConsumerKey := (string * string)%type (only parsing).
Notation Consumers := (gmap (string * string) ConsumerStateRow) (only parsing).

(** [`${name}:${instanceId}`], the key of the dispatcher's own maps. *)
Definition turnKey (key : ConsumerKey) : string := key.1 +:+ ":" +:+ key.2.

Definition SHARED_INSTANCE_SENTINEL : string := "__shared__".

(** [pg_current_snapshot()] of the running transaction: xmin, xmax and the
    transactions in progress between them. *)
Record PgSnapshot := mkSnapshotBounds {
  snap_xmin : Z;
  snap_xmax : Z;
  snap_xip : list Z }.

Definition selectSnapshotXmin (s : PgSnapshot) : Z := snap_xmin s.
Definition selectSnapshotXmax (s : PgSnapshot) : Z := snap_xmax s.

(** ** Registration *)

(** [ORDER BY last_processed_event_id DESC LIMIT 1]; between equal cursors the
    statement promises no order. *)
Definition highest_consumer (cs : Consumers) : option ConsumerStateRow :=
  foldr (λ c best, match best with
                   | Some b => if cs_lastProcessedEventId b <? cs_lastProcessedEventId c
                               then Some c else best
                   | None => Some c
                   end) None (map_to_list cs).*2.

(** [w.id + 1 .. next_id - 1] for every adjacent pair that is not contiguous. *)
Fixpoint window_gaps (xmax prev : Z) (ids : list Z) : list PendingGapEntry :=
  match ids with
  | [] => []
  | i :: rest =>
      if prev + 1 <? i then mkGap (prev + 1) (i - 1) xmax :: window_gaps xmax i rest
      else window_gaps xmax i rest
  end.

(** The statement's three unions: the highest consumer's gaps, the gap before
    the first event above its cursor and the gaps between the events above it,
    the last two only while some transaction is in progress. *)
Definition selectEventIdHorizonWithMissingRanges (snap : PgSnapshot) (evs : list StoredEventRow)
    (cs : Consumers) : Z * list PendingGapEntry :=
  let cursor := from_option cs_lastProcessedEventId 0 (highest_consumer cs) in
  let own := from_option cs_pendingGaps [] (highest_consumer cs) in
  let above := row_id <$> sort_by row_id (filter (λ r, cursor < row_id r) evs) in
  let scanned := match snap_xip snap with
                 | [] => []
                 | _ => window_gaps (snap_xmax snap) cursor above
                 end in
  (foldr (λ r acc, Z.max (row_id r) acc) 0 evs, sort_by gap_from (own ++ scanned)).

Inductive StartFrom := FromBeginning | FromNow.

Definition fresh_consumer (cursor : Z) (gaps : list PendingGapEntry) (now : Z) : ConsumerStateRow :=
  mkConsumer cursor Idle 0 0 gaps None None now.

Definition insertConsumerIfAbsent (snap : PgSnapshot) (evs : list StoredEventRow) (now : Z)
    (cs : Consumers) (key : ConsumerKey) (startFrom : StartFrom) : Consumers :=
  match cs !! key with
  | Some _ => cs
  | None =>
      match startFrom with
      | FromNow =>
          let '(horizon, gaps) := selectEventIdHorizonWithMissingRanges snap evs cs in
          <[key := fresh_consumer horizon gaps now]> cs
      | FromBeginning => <[key := fresh_consumer 0 [] now]> cs
      end
  end.

(** ** The idle pre-check *)

Definition provably_idle (evs : list StoredEventRow) (c : ConsumerStateRow) : bool :=
  negb (bool_decide (cs_status c = Dead))
  && match cs_pendingGaps c with [] => true | _ => false end
  && negb (existsb (λ e, cs_lastProcessedEventId c <? row_id e) evs).

Definition selectProvablyIdleConsumerPairs (evs : list StoredEventRow) (cs : Consumers)
    (pairs : list ConsumerKey) : gset ConsumerKey :=
  list_to_set (filter (λ key, from_option (provably_idle evs) false (cs !! key) = true) pairs).

(** ** Row statements *)

Definition selectConsumerForUpdateSkipLocked (locked : gset ConsumerKey) (cs : Consumers)
    (key : ConsumerKey) : option ConsumerStateRow :=
  if decide (key ∈ locked) then None else cs !! key.

Definition selectConsumerForUpdate (cs : Consumers) (key : ConsumerKey) : option ConsumerStateRow :=
  cs !! key.

(** [UPDATE … RETURNING *]: the updated row, and no row if the key is absent. *)
Definition update_returning (f : ConsumerStateRow → ConsumerStateRow) (cs : Consumers)
    (key : ConsumerKey) : option ConsumerStateRow * Consumers :=
  (f <$> cs !! key, alter f key cs).

Definition markConsumerProcessing (now : Z) (cs : Consumers) (key : ConsumerKey) : Consumers :=
  alter (λ c, mkConsumer (cs_lastProcessedEventId c) Processing (cs_attempts c) (cs_rearmCount c)
                (cs_pendingGaps c) (cs_lastFailedEventId c) (cs_lastError c) now) key cs.

(** The write is skipped when the row is held elsewhere or has moved off the
    cursor the failed pass started from. *)
Definition recordConsumerPassFailure (locked : gset ConsumerKey) (now : Z) (cs : Consumers)
    (key : ConsumerKey) (errorMessage : string) (cursorBeforePass : option Z) : Consumers :=
  match selectConsumerForUpdateSkipLocked locked cs key with
  | Some c =>
      if match cursorBeforePass with
         | Some cur => cs_lastProcessedEventId c =? cur
         | None => true
         end
      then <[key := mkConsumer (cs_lastProcessedEventId c) (cs_status c) (cs_attempts c)
                      (cs_rearmCount c) (cs_pendingGaps c) (cs_lastFailedEventId c)
                      (Some errorMessage) now]> cs
      else cs
  | None => cs
  end.

Record ConsumerDeliveryOutcome := mkDeliveryWrite {
  dw_cursor : Z;
  dw_attempts : Z;
  dw_lastError : option string;
  dw_deadLettered : bool;
  dw_processed : Z;
  dw_pendingGaps : list PendingGapEntry;
  dw_failedEventId : option Z }.

Definition updateConsumerDeliveryOutcome (now : Z) (cs : Consumers) (key : ConsumerKey)
    (o : ConsumerDeliveryOutcome) : Consumers :=
  alter (λ c, mkConsumer (dw_cursor o) (if dw_deadLettered o then Dead else Idle) (dw_attempts o)
                (if 0 <? dw_processed o then 0 else cs_rearmCount c)
                (dw_pendingGaps o) (dw_failedEventId o) (dw_lastError o) now) key cs.

Definition updateConsumerStatusReturning (now : Z) (cs : Consumers) (key : ConsumerKey)
    (status : ConsumerStatus) : option ConsumerStateRow * Consumers :=
  update_returning (λ c, mkConsumer (cs_lastProcessedEventId c) status 0 0 (cs_pendingGaps c)
                           (cs_lastFailedEventId c) None now) cs key.

Definition advanceConsumerPastEventReturning (now : Z) (cs : Consumers) (key : ConsumerKey)
    (eventId : Z) (pendingGaps : list PendingGapEntry) : option ConsumerStateRow * Consumers :=
  update_returning (λ c, mkConsumer eventId Idle 0 0 pendingGaps None None now) cs key.

Definition resetConsumerForMspRebuild (now : Z) (cs : Consumers) (key : ConsumerKey) : Consumers :=
  match cs !! key with
  | Some c => <[key := mkConsumer 0 Idle 0 (cs_rearmCount c) [] None None now]> cs
  | None => <[key := fresh_consumer 0 [] now]> cs
  end.

Definition updateConsumerRebuildCursor (now : Z) (cs : Consumers) (key : ConsumerKey)
    (lastProcessedEventId : Z) (pendingGaps : list PendingGapEntry) : Consumers :=
  alter (λ c, mkConsumer lastProcessedEventId Idle 0 (cs_rearmCount c) pendingGaps None None now)
    key cs.

Definition markConsumerRebuildFailed (now : Z) (cs : Consumers) (key : ConsumerKey)
    (errorMessage : string) : Consumers :=
  alter (λ c, mkConsumer (cs_lastProcessedEventId c) Dead (cs_attempts c) (cs_rearmCount c)
                (cs_pendingGaps c) (cs_lastFailedEventId c) (Some errorMessage) now) key cs.

Definition rearmDeadConsumer (now : Z) (cs : Consumers) (key : ConsumerKey)
    : option ConsumerStateRow * Consumers :=
  update_returning (λ c, mkConsumer (cs_lastProcessedEventId c) Idle 0 (cs_rearmCount c + 1)
                           (cs_pendingGaps c) (cs_lastFailedEventId c) None now) cs key.

Definition removePendingGapReturning (now : Z) (cs : Consumers) (key : ConsumerKey)
    (newPendingGaps : list PendingGapEntry) : option ConsumerStateRow * Consumers :=
  update_returning (λ c, mkConsumer (cs_lastProcessedEventId c) Idle 0 0 newPendingGaps None None now)
    cs key.

(** ** Lemmas on row statements *)

Lemma update_returning_found (f : ConsumerStateRow → ConsumerStateRow) (cs : Consumers) key c :
  cs !! key = Some c →
  update_returning f cs key = (Some (f c), alter f key cs) ∧ alter f key cs !! key = Some (f c).
Proof. intros Hc. unfold update_returning. by rewrite lookup_alter_eq, Hc. Qed.

Lemma update_returning_missing (f : ConsumerStateRow → ConsumerStateRow) (cs : Consumers) key :
  cs !! key = None → update_returning f cs key = (None, cs).
Proof.
  intros Hc. unfold update_returning. rewrite Hc. f_equal. apply map_eq. intros k.
  destruct (decide (k = key)) as [->|Hne]; [by rewrite lookup_alter_eq, Hc|by rewrite lookup_alter_ne].
Qed.

(** A statement on one row leaves the others as they are. *)
Lemma update_returning_other (f : ConsumerStateRow → ConsumerStateRow) (cs : Consumers) key key' :
  key ≠ key' → (update_returning f cs key).2 !! key' = cs !! key'.
Proof. intros Hne. unfold update_returning; simpl. by rewrite lookup_alter_ne. Qed.
