(* ===== verification/Delivery.v ===== *)
(** * Delivering a turn's events to a consumer

    [pipeline/event-dispatcher-delivery.ts].  A handler is a function on the
    world [W] it may change; it returns the new world and, when it throws, the
    error.  What a handler did before it threw stays done: its effects are not
    part of the dispatcher's transaction. *)

From S2P Require Import Prelude Origins GapRanges EventLog EventStore QualifiedName ConsumerState.

Open Scope Z_scope.

(** ** Consumers *)

Record HandlerError := mkHandlerError { he_class : string; he_message : string }.

Record ErrorPolicy := mkErrorPolicy {
  ep_maxAttempts : option Z;
  ep_skipApplyErrors : bool;
  ep_isTransientError : option (HandlerError → bool) }.

(** One call of [turn.holdForRetry(eventIds, reason, options)]. *)
Record HoldCall := mkHold {
  hold_ids : list string;
  hold_reason : string;
  hold_stillBackingOff : bool }.

Inductive DeliveryMode := Shared | PerInstance.

Record EventConsumer (W : Type) := mkEventConsumer {
  ec_name : string;
  ec_handler : StoredEvent → RequestScope → W → W * option HandlerError;
  ec_batchHandler : option (list StoredEvent → RequestScope → W →
                            W * list HoldCall * option HandlerError);
  ec_errorPolicy : option ErrorPolicy;
  ec_featureName : option string;
  ec_delivery : DeliveryMode;
  ec_startFrom : StartFrom;
  ec_irreversibleWithoutEntryHandler : option string }.
Arguments mkEventConsumer {W}.
Arguments ec_name {W}.
Arguments ec_handler {W}.
Arguments ec_batchHandler {W}.
Arguments ec_errorPolicy {W}.
Arguments ec_featureName {W}.
Arguments ec_delivery {W}.
Arguments ec_startFrom {W}.
Arguments ec_irreversibleWithoutEntryHandler {W}.

(** ** Acquiring the row *)

Inductive SkipReason := SkipDisabled | SkipDead | SkipNotRegistered.

Inductive AcquireOutcome :=
| Acquired (state : ConsumerStateRow)
| Skipped (reason : SkipReason).

Definition acquireConsumerState (locked : gset ConsumerKey) (now : Z) (cs : Consumers)
    (key : ConsumerKey) (rearmCooldownMs maxRearmCount : Z) : AcquireOutcome * Consumers :=
  match selectConsumerForUpdateSkipLocked locked cs key with
  | None => (Skipped SkipNotRegistered, cs)
  | Some state =>
      match cs_status state with
      | Disabled => (Skipped SkipDisabled, cs)
      | Dead =>
          let cooldownElapsed := cs_updatedAt state <=? now - rearmCooldownMs in
          if cooldownElapsed && (cs_rearmCount state <? maxRearmCount) then
            match rearmDeadConsumer now cs key with
            | (Some rearmed, cs') => (Acquired rearmed, cs')
            | (None, cs') => (Skipped SkipDead, cs')
            end
          else (Skipped SkipDead, cs)
      | _ => (Acquired state, cs)
      end
  end.

Record ConsumerCursor := mkCursor {
  cur_lastProcessedEventId : Z;
  cur_pendingGaps : list PendingGapEntry }.

Definition selectConsumerCursorForUpdate (cs : Consumers) (key : ConsumerKey)
    : option ConsumerCursor :=
  (λ c, mkCursor (cs_lastProcessedEventId c) (cs_pendingGaps c)) <$> selectConsumerForUpdate cs key.

Definition selectIdleConsumerKeys (evs : list StoredEventRow) (cs : Consumers)
    (pairs : list ConsumerKey) : gset string :=
  match pairs with
  | [] => ∅
  | _ => set_map turnKey (selectProvablyIdleConsumerPairs evs cs pairs)
  end.

(** An absent or empty dispatcher id is falsy. *)
Definition consumerInstanceId {W : Type} (consumer : EventConsumer W) (dispatcherInstanceId : option string)
    : result string string :=
  match ec_delivery consumer with
  | Shared => Ok SHARED_INSTANCE_SENTINEL
  | PerInstance =>
      match dispatcherInstanceId with
      | Some i => if bool_decide (i = "") then Err "missing instanceId" else Ok i
      | None => Err "missing instanceId"
      end
  end.

Fixpoint preRegisterConsumers {W : Type} (snap : PgSnapshot) (evs : list StoredEventRow) (now : Z)
    (cs : Consumers) (consumers : list (EventConsumer W)) (dispatcherInstanceId : option string)
    : result string unit * Consumers :=
  match consumers with
  | [] => (Ok tt, cs)
  | consumer :: rest =>
      match consumerInstanceId consumer dispatcherInstanceId with
      | Err e => (Err e, cs)
      | Ok instanceId =>
          let cs' := insertConsumerIfAbsent snap evs now cs (ec_name consumer, instanceId)
                       (ec_startFrom consumer) in
          preRegisterConsumers snap evs now cs' rest dispatcherInstanceId
      end
  end.

Definition markProcessing (now : Z) (cs : Consumers) (key : ConsumerKey) : Consumers :=
  markConsumerProcessing now cs key.

(** ** Fetching *)

Definition fetchPendingEvents (evs : list StoredEventRow) (cursor : Z) (batchSize : nat)
    (pendingRanges : list PendingIdRange) (pendingLimit : nat) : list StoredEventRow :=
  selectPendingAndNewEventRows evs cursor pendingRanges batchSize pendingLimit.

Definition has_batch {W : Type} (consumer : EventConsumer W) : bool :=
  match ec_batchHandler consumer with Some _ => true | None => false end.

Definition pendingFetchLimit {W : Type} (consumer : EventConsumer W) (batchSize : nat) : nat :=
  if negb (has_batch consumer) then batchSize
  else Nat.max 1 (batchSize / 2).

Definition withholdNewEventsOfTenantsWithUnfetchedPending {W : Type} (evs : list StoredEventRow)
    (consumer : EventConsumer W) (events : list StoredEventRow) (cursor : Z)
    (pendingRanges : list PendingIdRange) (pendingLimit : nat) : list StoredEventRow :=
  if negb (has_batch consumer) then events
  else
    let pendingIds := row_id <$> filter (λ e, row_id e ≤ cursor) events in
    match last pendingIds with
    | None => events
    | Some lastPendingId =>
        if (length pendingIds <? pendingLimit)%nat then events
        else
          let tenantsLeftOut := selectTenantIdsInRangesAbove evs pendingRanges lastPendingId in
          if decide (tenantsLeftOut = ∅) then events
          else filter (λ e, row_id e ≤ cursor ∨ row_tenantId e ∉ tenantsLeftOut) events
    end.

(** ** Delivery outcomes *)

Record DeliveryOutcome := mkOutcome {
  do_cursor : Z;
  do_attempts : Z;
  do_lastError : option string;
  do_deadLettered : bool;
  do_processed : Z;
  do_failed : Z;
  do_failedEventId : option Z;
  do_resolvedPendingIds : list Z;
  do_heldNewIds : list Z;
  do_heldOnlyWhileBackingOff : bool }.

Section deliver.
Context {W : Type}.
Implicit Types consumer : EventConsumer W.

Definition policy_skips consumer : bool :=
  match ec_errorPolicy consumer with Some p => ep_skipApplyErrors p | None => false end.

Definition policy_transient consumer (e : HandlerError) : bool :=
  match ec_errorPolicy consumer with
  | Some p => match ep_isTransientError p with Some f => f e | None => false end
  | None => false
  end.

Definition effectiveMaxAttempts consumer (maxAttempts : Z) : Z :=
  match ec_errorPolicy consumer with
  | Some p => default maxAttempts (ep_maxAttempts p)
  | None => maxAttempts
  end.

(** Fails closed without throwing: an origin that does not parse is anonymous. *)
Definition UNPARSEABLE_STORED_WRITE_ORIGIN : WriteOrigin := mkOrigin "<unknown>" true false None.

(** [generateId()] draws from the world. *)
Definition buildConsumerRequestScope consumer (causationSource : StoredEvent)
    (freshCorrelationId freshRequestId : string) : RequestScope :=
  mkScope (Some freshRequestId)
    (Some (default freshCorrelationId (md_correlationId (se_metadata causationSource))))
    (Some (se_id causationSource))
    (match ec_featureName consumer with
     | Some f => Some f
     | None => qnScope (ec_name consumer)
     end)
    (Some (ec_name consumer))
    ((λ stored, default UNPARSEABLE_STORED_WRITE_ORIGIN (parseWriteOrigin stored))
       <$> md_writeOrigin (se_metadata causationSource))
    (match ec_irreversibleWithoutEntryHandler consumer with
     | Some EmptyString => None
     | declared => declared
     end).

(** The origin of a gated event is the origin its consumers write under, and one
    that cannot be read is gated. *)
Lemma consumer_scope_stays_gated consumer event c r stored :
  md_writeOrigin (se_metadata event) = Some stored →
  (∀ o, parseWriteOrigin stored = Some o → isPersonalDataGated o = true) →
  ∃ o, rq_writeOrigin (buildConsumerRequestScope consumer event c r) = Some o ∧ isPersonalDataGated o = true.
Proof.
  intros Hs Hg. simpl. rewrite Hs. simpl. eexists. split; [done|].
  destruct (parseWriteOrigin stored) as [o|]; [by apply Hg|done].
Qed.

Context (generateId : W → string * string).

Definition applyEvent consumer (row : StoredEventRow) (w : W) : W * option HandlerError :=
  let stored := toStoredEvent row in
  let '(c, r) := generateId w in
  ec_handler consumer stored (buildConsumerRequestScope consumer stored c r) w.

(** The state the [for] loop of [deliverEvents] carries. *)
Record LoopState := mkLoop {
  lp_cursor : Z;
  lp_attempts : Z;
  lp_lastError : option string;
  lp_deadLettered : bool;
  lp_processed : Z;
  lp_failed : Z;
  lp_failedEventId : option Z;
  lp_resolved : list Z;
  lp_world : W }.

(** The closure [resolve]. *)
Definition resolve (startCursor id : Z) (s : LoopState) : LoopState :=
  mkLoop (if lp_cursor s <? id then id else lp_cursor s) 0 None (lp_deadLettered s)
    (lp_processed s) (lp_failed s) (lp_failedEventId s)
    (if id <=? startCursor then lp_resolved s ++ [id] else lp_resolved s) (lp_world s).

Definition set_world (w : W) (s : LoopState) : LoopState :=
  mkLoop (lp_cursor s) (lp_attempts s) (lp_lastError s) (lp_deadLettered s) (lp_processed s)
    (lp_failed s) (lp_failedEventId s) (lp_resolved s) w.

Definition bump_processed (s : LoopState) : LoopState :=
  mkLoop (lp_cursor s) (lp_attempts s) (lp_lastError s) (lp_deadLettered s) (lp_processed s + 1)
    (lp_failed s) (lp_failedEventId s) (lp_resolved s) (lp_world s).

Definition bump_failed (s : LoopState) : LoopState :=
  mkLoop (lp_cursor s) (lp_attempts s) (lp_lastError s) (lp_deadLettered s) (lp_processed s)
    (lp_failed s + 1) (lp_failedEventId s) (lp_resolved s) (lp_world s).

(** The end of a pass that halts on [row]. *)
Definition halt_on consumer (maxAttempts : Z) (row : StoredEventRow) (e : HandlerError)
    (s : LoopState) : LoopState :=
  let attempts := if policy_transient consumer e then lp_attempts s else lp_attempts s + 1 in
  let dead := if policy_transient consumer e then lp_deadLettered s
              else (effectiveMaxAttempts consumer maxAttempts <=? attempts) || lp_deadLettered s in
  mkLoop (lp_cursor s) attempts (Some (he_message e)) dead (lp_processed s) (lp_failed s)
    (Some (row_id row)) (lp_resolved s) (lp_world s).

Fixpoint deliver_loop consumer (maxAttempts startCursor : Z) (events : list StoredEventRow)
    (s : LoopState) : LoopState :=
  match events with
  | [] => s
  | row :: rest =>
      match applyEvent consumer row (lp_world s) with
      | (w, None) =>
          deliver_loop consumer maxAttempts startCursor rest
            (bump_processed (resolve startCursor (row_id row) (set_world w s)))
      | (w, Some e) =>
          let s' := bump_failed (set_world w s) in
          if policy_skips consumer
          then deliver_loop consumer maxAttempts startCursor rest
                 (resolve startCursor (row_id row) s')
          else halt_on consumer maxAttempts row e s'
      end
  end.

Record BatchApplied := mkBatch {
  ba_held : list string;
  ba_heldReasons : list (string * string);
  ba_anyHoldAfterAttempt : bool }.

(** The three closure variables of [holdForRetry]. *)
Definition hold_step (b : BatchApplied) (h : HoldCall) : BatchApplied :=
  mkBatch (ba_held b ++ hold_ids h)
    (foldl (λ m id, match assoc_get id m with
                    | Some _ => m
                    | None => assoc_set id (hold_reason h) m
                    end) (ba_heldReasons b) (hold_ids h))
    (ba_anyHoldAfterAttempt b || negb (hold_stillBackingOff h)).

Definition applyBatch consumer (events : list StoredEventRow) (w : W)
    : W * list HoldCall * option HandlerError :=
  match ec_batchHandler consumer with
  | None => (w, [], None)
  | Some batchHandler =>
      let stored := toStoredEvent <$> events in
      match last stored with
      | None => (w, [], None)
      | Some lastStored =>
          let '(c, r) := generateId w in
          batchHandler stored (buildConsumerRequestScope consumer lastStored c r) w
      end
  end.

Definition tryApplyBatch consumer (events : list StoredEventRow) (w : W)
    : W * option BatchApplied :=
  match applyBatch consumer events w with
  | (w', holds, None) => (w', Some (foldl hold_step (mkBatch [] [] false) holds))
  | (w', _, Some _) => (w', None)
  end.

Definition is_held (batch : BatchApplied) (row : StoredEventRow) : Prop :=
  pretty (row_id row) ∈ ba_held batch.

#[global] Instance is_held_dec batch row : Decision (is_held batch row).
Proof. unfold is_held. apply _. Defined.

Definition outcomeOfAppliedBatch (events : list StoredEventRow) (state : ConsumerStateRow)
    (batch : BatchApplied) : DeliveryOutcome :=
  let startCursor := cs_lastProcessedEventId state in
  let deliveredIds := row_id <$> filter (λ row, ¬ is_held batch row) events in
  let heldIds := row_id <$> filter (is_held batch) events in
  let newIds := filter (λ id, startCursor < id) (row_id <$> events) in
  let anyDelivered := (0 <? length deliveredIds)%nat in
  let failedEventId := head heldIds in
  let failedReason := failedEventId ≫= λ id, assoc_get (pretty id) (ba_heldReasons batch) in
  mkOutcome (default startCursor (last newIds))
    (if anyDelivered then 0 else cs_attempts state)
    (match failedReason with
     | Some reason => Some reason
     | None => if anyDelivered then None else cs_lastError state
     end)
    false (Z.of_nat (length deliveredIds)) (Z.of_nat (length heldIds)) failedEventId
    (filter (λ id, id ≤ startCursor) deliveredIds)
    (filter (λ id, startCursor < id) heldIds)
    ((0 <? length heldIds)%nat && negb (ba_anyHoldAfterAttempt batch)).

Definition outcome_of_loop (s : LoopState) : DeliveryOutcome :=
  mkOutcome (lp_cursor s) (lp_attempts s) (lp_lastError s) (lp_deadLettered s) (lp_processed s)
    (lp_failed s) (lp_failedEventId s) (lp_resolved s) [] false.

Definition loop_start (state : ConsumerStateRow) (w : W) : LoopState :=
  mkLoop (cs_lastProcessedEventId state) (cs_attempts state) (cs_lastError state) false 0 0 None []
    w.

Definition deliverEvents consumer (events : list StoredEventRow) (maxAttempts : Z)
    (state : ConsumerStateRow) (w : W) : DeliveryOutcome * W :=
  let per_event w0 :=
    let s := deliver_loop consumer maxAttempts (cs_lastProcessedEventId state) events
               (loop_start state w0) in
    (outcome_of_loop s, lp_world s) in
  if has_batch consumer && (0 <? length events)%nat then
    match tryApplyBatch consumer events w with
    | (w', Some batch) => (outcomeOfAppliedBatch events state batch, w')
    | (w', None) => per_event w'
    end
  else per_event w.

Definition isIntakePausedByPendingGapLimit consumer (pendingGapCount maxPendingGapRanges : nat)
    : bool :=
  has_batch consumer && (maxPendingGapRanges <=? pendingGapCount)%nat.

Definition intake_message (pendingGapCount maxPendingGapRanges : nat) (heldTenant : string)
    (firstHeld : option Z) : string :=
  pretty pendingGapCount +:+ " pending gap ranges reached the limit of "
  +:+ pretty maxPendingGapRanges
  +:+ "; no new events are taken until the held events of tenant " +:+ heldTenant
  +:+ " drain (first held event " +:+ from_option pretty "unknown" firstHeld +:+ ")".

Definition escalateIntakePausedOutcome (outcome : DeliveryOutcome) (state : ConsumerStateRow)
    (deliverable : list StoredEventRow) (pendingGapCount maxPendingGapRanges : nat)
    (effectiveMax : Z) : DeliveryOutcome :=
  let firstHeld := match do_failedEventId outcome with
                   | Some i => Some i
                   | None => cs_lastFailedEventId state
                   end in
  let heldTenant := from_option row_tenantId "unknown"
                      (head (filter (λ e, Some (row_id e) = firstHeld) deliverable)) in
  let lastError := Some (intake_message pendingGapCount maxPendingGapRanges heldTenant firstHeld) in
  if (0 <? do_processed outcome) || do_heldOnlyWhileBackingOff outcome
  then mkOutcome (do_cursor outcome) (do_attempts outcome) lastError (do_deadLettered outcome)
         (do_processed outcome) (do_failed outcome) (do_failedEventId outcome)
         (do_resolvedPendingIds outcome) (do_heldNewIds outcome) (do_heldOnlyWhileBackingOff outcome)
  else
    let attempts := cs_attempts state + 1 in
    mkOutcome (do_cursor outcome) attempts lastError (effectiveMax <=? attempts)
      (do_processed outcome) (do_failed outcome) firstHeld
      (do_resolvedPendingIds outcome) (do_heldNewIds outcome) (do_heldOnlyWhileBackingOff outcome).

Definition idle_outcome (state : ConsumerStateRow) : DeliveryOutcome :=
  mkOutcome (cs_lastProcessedEventId state) (cs_attempts state) (cs_lastError state) false 0 0
    (cs_lastFailedEventId state) [] [] false.

(** [evs] is the table as the withholding query sees it. *)
Definition deliverConsumerTurn (evs : list StoredEventRow) consumer (events : list StoredEventRow)
    (state : ConsumerStateRow) (maxAttempts : Z) (pendingRanges : list PendingIdRange)
    (pendingLimit pendingGapCount maxPendingGapRanges : nat) (w : W)
    : list StoredEventRow * DeliveryOutcome * W :=
  let cursor := cs_lastProcessedEventId state in
  let intakePaused := isIntakePausedByPendingGapLimit consumer pendingGapCount maxPendingGapRanges in
  let withheld := withholdNewEventsOfTenantsWithUnfetchedPending evs consumer events cursor
                    pendingRanges pendingLimit in
  let deliverable := if intakePaused then filter (λ e, row_id e ≤ cursor) withheld else withheld in
  let '(delivered, w') :=
    if (0 <? length deliverable)%nat then deliverEvents consumer deliverable maxAttempts state w
    else (idle_outcome state, w) in
  let outcome :=
    if intakePaused
    then escalateIntakePausedOutcome delivered state deliverable pendingGapCount maxPendingGapRanges
           (effectiveMaxAttempts consumer maxAttempts)
    else delivered in
  (deliverable, outcome, w').
End deliver.
Arguments LoopState W : clear implicits.

(** ** What a pass has delivered *)

Section delivered.
Context {W : Type} (generateId : W → string * string).
Implicit Types consumer : EventConsumer W.

(** The handler was run on the row, and returned or its error is skipped by
    policy. *)
Inductive handled consumer : list StoredEventRow → W → W → Prop :=
| handled_nil w : handled consumer [] w w
| handled_cons row rows w1 w2 w3 res :
    applyEvent generateId consumer row w1 = (w2, res) →
    (res = None ∨ policy_skips consumer = true) →
    handled consumer rows w2 w3 →
    handled consumer (row :: rows) w1 w3.

(** The row on which a pass stops: its handler threw and policy does not skip. *)
Definition poisons consumer (row : StoredEventRow) (w w' : W) (e : HandlerError) : Prop :=
  applyEvent generateId consumer row w = (w', Some e) ∧ policy_skips consumer = false.

Definition max_id (start : Z) (rows : list StoredEventRow) : Z :=
  foldl (λ c r, Z.max c (row_id r)) start rows.

(** The counters after a prefix [done] succeeded from state [s]. *)
Record after_prefix consumer (startCursor : Z) (s : LoopState W) (done : list StoredEventRow)
    (s' : LoopState W) : Prop := {
  ap_cursor : lp_cursor s' = max_id (lp_cursor s) done;
  ap_resolved : lp_resolved s' = lp_resolved s ++ filter (λ i, i ≤ startCursor) (row_id <$> done);
  ap_attempts : lp_attempts s' = match done with [] => lp_attempts s | _ => 0 end;
  ap_error : lp_lastError s' = match done with [] => lp_lastError s | _ => None end;
  ap_dead : lp_deadLettered s' = lp_deadLettered s;
  ap_failedId : lp_failedEventId s' = lp_failedEventId s;
  ap_total : lp_processed s' + lp_failed s' = lp_processed s + lp_failed s + Z.of_nat (length done);
  ap_monotone : lp_processed s ≤ lp_processed s' ∧ lp_failed s ≤ lp_failed s';
  ap_strict : policy_skips consumer = false → lp_failed s' = lp_failed s }.

Lemma after_prefix_cons consumer startCursor s row done s1 s' :
  lp_cursor s1 = Z.max (lp_cursor s) (row_id row) →
  lp_resolved s1 = lp_resolved s ++ filter (λ i, i ≤ startCursor) [row_id row] →
  lp_attempts s1 = 0 → lp_lastError s1 = None → lp_deadLettered s1 = lp_deadLettered s →
  lp_failedEventId s1 = lp_failedEventId s →
  lp_processed s1 + lp_failed s1 = lp_processed s + lp_failed s + 1 →
  lp_processed s ≤ lp_processed s1 → lp_failed s ≤ lp_failed s1 →
  (policy_skips consumer = false → lp_failed s1 = lp_failed s) →
  after_prefix consumer startCursor s1 done s' →
  after_prefix consumer startCursor s (row :: done) s'.
Proof.
  intros Hc Hr Ha He Hd Hf Ht Hp1 Hp2 Hs [Ac Ar Aa Ae Ad Af At Am As]. split.
  - by rewrite Ac, Hc.
  - rewrite Ar, Hr, <- (assoc_L (++)). f_equal. by rewrite <- filter_app.
  - rewrite Aa, Ha. by destruct done.
  - rewrite Ae, He. by destruct done.
  - congruence.
  - congruence.
  - rewrite At, Ht. simpl length. lia.
  - lia.
  - intros Hsk. by rewrite As, Hs.
Qed.

Lemma resolve_appends startCursor id (l : list Z) :
  (if id <=? startCursor then l ++ [id] else l) = l ++ filter (λ i, i ≤ startCursor) [id].
Proof.
  rewrite filter_cons, filter_nil. destruct (id <=? startCursor) eqn:E; reflect_bools;
    case_decide; try lia; by rewrite ?app_nil_r.
Qed.

(** The [for] loop runs the handler on a prefix of the events and then either
    reaches the end or halts on the next row. *)
Lemma deliver_loop_spec consumer maxAttempts startCursor events s :
  let s' := deliver_loop generateId consumer maxAttempts startCursor events s in
  ∃ done rest sp, events = done ++ rest ∧ handled consumer done (lp_world s) (lp_world sp) ∧
    after_prefix consumer startCursor s done sp ∧
    ((rest = [] ∧ s' = sp) ∨
     ∃ row rest' w e, rest = row :: rest' ∧ poisons consumer row (lp_world sp) w e ∧
       s' = halt_on consumer maxAttempts row e (bump_failed (set_world w sp))).
Proof.
  revert s. induction events as [|row events IH]; intros s; simpl.
  { exists [], [], s. split_and!; [done|constructor| |by left].
    split; simpl; rewrite ?app_nil_r; try done; lia. }
  destruct (applyEvent generateId consumer row (lp_world s)) as [w [e|]] eqn:Happ;
    [destruct (policy_skips consumer) eqn:Hskip|].
  - destruct (IH (resolve startCursor (row_id row) (bump_failed (set_world w s))))
      as (done & rest & sp & -> & Hh & Hap & Hend).
    exists (row :: done), rest, sp. split_and!; [done| | |exact Hend].
    { eapply handled_cons; [exact Happ|by right|exact Hh]. }
    eapply after_prefix_cons; [..|exact Hap]; simpl; try apply resolve_appends; try done; try lia;
      try (case_match; reflect_bools); done || lia || (intros; congruence).
  - exists [], (row :: events), s. split_and!; [done|constructor| |].
    + split; simpl; rewrite ?app_nil_r; try done; lia.
    + right. exists row, events, w, e. done.
  - destruct (IH (bump_processed (resolve startCursor (row_id row) (set_world w s))))
      as (done & rest & sp & -> & Hh & Hap & Hend).
    exists (row :: done), rest, sp. split_and!; [done| | |exact Hend].
    { eapply handled_cons; [exact Happ|by left|exact Hh]. }
    eapply after_prefix_cons; [..|exact Hap]; simpl; try apply resolve_appends; try done; try lia;
      try (case_match; reflect_bools); done || lia || (intros; congruence).
Qed.

(** [done] are the rows the consumer's code has taken: by the batch handler,
    which returned without holding them, or one by one. *)
Inductive taken consumer (events done : list StoredEventRow) (w : W) : Prop :=
| taken_batch w' batch :
    tryApplyBatch generateId consumer events w = (w', Some batch) →
    done = filter (λ r, ¬ is_held batch r) events → taken consumer events done w
| taken_loop w0 w1 rest :
    (w0 = w ∨ tryApplyBatch generateId consumer events w = (w0, None)) →
    events = done ++ rest → handled consumer done w0 w1 → taken consumer events done w
| taken_none : done = [] → events = [] → taken consumer events done w.
End delivered.

(** How an outcome accounts for the rows it was given: what is taken, what is
    held and where the cursor stands. *)
Record accounts (startCursor : Z) (events done : list StoredEventRow) (o : DeliveryOutcome) : Prop := {
  ac_sub : ∀ r, r ∈ done → r ∈ events ∧ row_id r ≤ do_cursor o;
  ac_cursor : startCursor ≤ do_cursor o;
  ac_cursor_at : do_cursor o = startCursor ∨ ∃ r, r ∈ events ∧ row_id r = do_cursor o;
  ac_resolved : ∀ i, i ∈ do_resolvedPendingIds o ↔ i ≤ startCursor ∧ i ∈ row_id <$> done;
  ac_held : ∀ i, i ∈ do_heldNewIds o → startCursor < i ≤ do_cursor o ∧ i ∈ row_id <$> events;
  ac_held_nodup : NoDup (do_heldNewIds o);
  ac_new : ∀ e, e ∈ events → startCursor < row_id e ≤ do_cursor o →
    e ∈ done ∨ row_id e ∈ do_heldNewIds o;
  ac_disjoint : ∀ e, e ∈ done → row_id e ∉ do_heldNewIds o }.

Lemma max_id_spec start rows :
  start ≤ max_id start rows ∧ (∀ r, r ∈ rows → row_id r ≤ max_id start rows) ∧
  (max_id start rows = start ∨ ∃ r, r ∈ rows ∧ row_id r = max_id start rows).
Proof.
  unfold max_id. revert start. induction rows as [|r rows IH]; intros start; simpl.
  { split_and!; [lia|set_solver|by left]. }
  destruct (IH (Z.max start (row_id r))) as (H1 & H2 & H3). split_and!.
  - lia.
  - intros s [->|Hs]%elem_of_cons; [lia|by apply H2].
  - destruct H3 as [->|(s & Hs & <-)]; [|right; exists s; set_solver].
    destruct (Z.max_spec start (row_id r)) as [[_ ->]|[_ ->]]; [right; exists r; set_solver|by left].
Qed.

(** The per-event loop accounts for its rows: the cursor passes only rows that
    were taken. *)
Lemma prefix_accounts startCursor events done rest o :
  StronglySorted (λ a b, row_id a < row_id b) events → events = done ++ rest →
  do_cursor o = max_id startCursor done →
  do_resolvedPendingIds o = filter (λ i, i ≤ startCursor) (row_id <$> done) →
  do_heldNewIds o = [] →
  accounts startCursor events done o.
Proof.
  intros Hs -> Hc Hr Hh. destruct (max_id_spec startCursor done) as (H1 & H2 & H3).
  split; rewrite ?Hc, ?Hr, ?Hh.
  - intros r Hin. split; [set_solver|by apply H2].
  - done.
  - destruct H3 as [->|(r & Hin & <-)]; [by left|right; exists r; set_solver].
  - intros i. by rewrite list_elem_of_filter.
  - intros i Hi. by apply elem_of_nil in Hi.
  - constructor.
  - intros e [He|He]%elem_of_app Hi; [by left|]. exfalso.
    destruct H3 as [H3|(r & Hin & H3)]; [lia|].
    pose proof (StronglySorted_app_1_elem_of _ _ _ r e Hs Hin He) as Hlt. simpl in Hlt. lia.
  - intros e _ Hi. by apply elem_of_nil in Hi.
Qed.

Lemma batch_accounts events state batch :
  StronglySorted (λ a b, row_id a < row_id b) events →
  accounts (cs_lastProcessedEventId state) events
    (filter (λ r, ¬ is_held batch r) events) (outcomeOfAppliedBatch events state batch).
Proof.
  intros Hs. set (start := cs_lastProcessedEventId state).
  assert (Hnew : ∀ i, i ∈ filter (λ id, start < id) (row_id <$> events)
            → i ≤ default start (last (filter (λ id, start < id) (row_id <$> events)))).
  { assert (Hk : StronglySorted (key_le id) (filter (λ id, start < id) (row_id <$> events))).
    { apply strongly_sorted_filter. clear -Hs. induction Hs as [|x l Hs IH Hf]; simpl; constructor; [done|].
      rewrite Forall_fmap. eapply Forall_impl; [exact Hf|]. unfold key_le; simpl; lia. }
    intros i Hi. destruct (last _) as [l|] eqn:Hl; [by apply (key_sorted_last _ _ i l) in Hk|].
    apply last_None in Hl. rewrite Hl in Hi. set_solver. }
  assert (Hge : start ≤ default start (last (filter (λ id, start < id) (row_id <$> events)))).
  { destruct (last _) as [l|] eqn:Hl; simpl; [|lia]. apply last_Some_elem_of in Hl.
    apply list_elem_of_filter in Hl. lia. }
  assert (Hle : ∀ r, r ∈ events → row_id r ≤ default start (last (filter (λ id, start < id) (row_id <$> events)))).
  { intros r Hr. destruct (Z_lt_le_dec start (row_id r)); [|lia]. apply Hnew, list_elem_of_filter.
    split; [done|by apply list_elem_of_fmap_2]. }
  split; simpl; fold start.
  - intros r [_ Hr]%list_elem_of_filter. split; [done|by apply Hle].
  - done.
  - destruct (last _) as [l|] eqn:Hl; simpl; [right|by left].
    apply last_Some_elem_of, list_elem_of_filter in Hl as [_ Hl].
    apply list_elem_of_fmap in Hl as (r & -> & Hr). by exists r.
  - intros i. by rewrite list_elem_of_filter.
  - intros i [Hi Hin]%list_elem_of_filter. apply list_elem_of_fmap in Hin as (r & -> & [_ Hr]%list_elem_of_filter).
    split; [split; [done|by apply Hle]|by apply list_elem_of_fmap_2].
  - apply NoDup_filter, strictly_sorted_keys. by apply strongly_sorted_filter.
  - intros e He Hi. destruct (decide (is_held batch e)).
    + right. apply list_elem_of_filter. split; [lia|]. apply list_elem_of_fmap_2. by apply list_elem_of_filter.
    + left. by apply list_elem_of_filter.
  - intros e [Hnh He]%list_elem_of_filter [_ Hin]%list_elem_of_filter.
    apply list_elem_of_fmap in Hin as (r & Heq & [Hh _]%list_elem_of_filter).
    unfold is_held in *. by rewrite Heq in Hnh.
Qed.

Section accounted.
Context {W : Type} (generateId : W → string * string).
Implicit Types consumer : EventConsumer W.

Lemma loop_accounts consumer events maxAttempts state w0 w :
  StronglySorted (λ a b, row_id a < row_id b) events →
  (w0 = w ∨ tryApplyBatch generateId consumer events w = (w0, None)) →
  ∃ done, accounts (cs_lastProcessedEventId state) events done
            (outcome_of_loop (deliver_loop generateId consumer maxAttempts
               (cs_lastProcessedEventId state) events (loop_start state w0))) ∧
          taken generateId consumer events done w.
Proof.
  intros Hs Hw0.
  destruct (deliver_loop_spec generateId consumer maxAttempts (cs_lastProcessedEventId state) events
              (loop_start state w0)) as (done & rest & sp & Hev & Hh & Hap & Hend).
  exists done. split; [|by eapply taken_loop].
  eapply prefix_accounts; [done|exact Hev|..].
  - destruct Hend as [[_ ->]|(row & rest' & w1 & e & _ & _ & ->)]; apply (ap_cursor _ _ _ _ _ Hap).
  - destruct Hend as [[_ ->]|(row & rest' & w1 & e & _ & _ & ->)]; apply (ap_resolved _ _ _ _ _ Hap).
  - done.
Qed.

Lemma deliverEvents_accounts consumer events maxAttempts state w :
  StronglySorted (λ a b, row_id a < row_id b) events →
  ∃ done, accounts (cs_lastProcessedEventId state) events done
            (deliverEvents generateId consumer events maxAttempts state w).1 ∧
          taken generateId consumer events done w.
Proof.
  intros Hs. unfold deliverEvents. destruct (_ && _); [|by apply loop_accounts; auto].
  destruct (tryApplyBatch _ _ _ _) as [w' [batch|]] eqn:Hb; [|by apply loop_accounts; auto].
  exists (filter (λ r, ¬ is_held batch r) events). split; [by apply batch_accounts|].
  by eapply taken_batch.
Qed.

(** Withholding and pausing only drop rows from what is delivered. *)
Lemma withhold_sublist evs consumer events cursor ranges limit :
  sublist (withholdNewEventsOfTenantsWithUnfetchedPending evs consumer events cursor ranges limit) events
  ∧ (∀ e, e ∈ events → row_id e ≤ cursor →
       e ∈ withholdNewEventsOfTenantsWithUnfetchedPending evs consumer events cursor ranges limit).
Proof.
  unfold withholdNewEventsOfTenantsWithUnfetchedPending.
  repeat (case_match || case_decide); try done.
  split; [apply sublist_filter|]. intros e He Hle. apply list_elem_of_filter. auto.
Qed.

Lemma strongly_sorted_sublist {A} (R : A → A → Prop) (l1 l2 : list A) :
  sublist l1 l2 → StronglySorted R l2 → StronglySorted R l1.
Proof.
  induction 1 as [|x l1 l2 Hs IH|x l1 l2 Hs IH]; intros H; [done|..];
    apply StronglySorted_cons in H as [Hf H].
  - constructor; [by apply IH|]. rewrite Forall_forall in *. intros y Hy. apply Hf.
    by eapply elem_of_sublist.
  - by apply IH.
Qed.

(** The turn accounts for the rows it delivers; its escalation changes the
    error fields only. *)
Lemma deliverConsumerTurn_accounts evs consumer events state maxAttempts ranges limit count maxRanges w :
  StronglySorted (λ a b, row_id a < row_id b) events →
  let r := deliverConsumerTurn generateId evs consumer events state maxAttempts ranges limit
             count maxRanges w in
  sublist r.1.1 events ∧
  (∀ e, e ∈ events → row_id e ≤ cs_lastProcessedEventId state → e ∈ r.1.1) ∧
  ∃ done, accounts (cs_lastProcessedEventId state) r.1.1 done r.1.2 ∧
          taken generateId consumer r.1.1 done w.
Proof.
  intros Hs r.
  destruct (withhold_sublist evs consumer events (cs_lastProcessedEventId state) ranges limit) as [Hsub Hkeep].
  unfold r, deliverConsumerTurn.
  set (withheld := withholdNewEventsOfTenantsWithUnfetchedPending _ _ _ _ _ _) in *.
  set (paused := isIntakePausedByPendingGapLimit _ _ _).
  set (dl := if paused then filter (λ e, row_id e ≤ cs_lastProcessedEventId state) withheld else withheld).
  assert (Hdl : sublist dl events).
  { unfold dl. destruct paused; [|done]. etransitivity; [apply sublist_filter|done]. }
  assert (Hdk : ∀ e, e ∈ events → row_id e ≤ cs_lastProcessedEventId state → e ∈ dl).
  { intros e He Hle. unfold dl. destruct paused; [|by apply Hkeep].
    apply list_elem_of_filter. auto. }
  assert (Hdel : ∃ done, accounts (cs_lastProcessedEventId state) dl done
      (if (0 <? length dl)%nat then deliverEvents generateId consumer dl maxAttempts state w
       else (idle_outcome state, w)).1 ∧ taken generateId consumer dl done w).
  { destruct dl as [|d dl'] eqn:Edl; simpl.
    - exists []. split; [|by apply taken_none]. split; simpl; try constructor; set_solver by lia.
    - apply deliverEvents_accounts. by eapply strongly_sorted_sublist. }
  destruct (if (0 <? length dl)%nat then _ else _) as [delivered w'] eqn:E. simpl in Hdel.
  split; [done|]. split; [done|]. destruct Hdel as (done & Hacc & Ht). exists done. split; [|done].
  simpl. destruct paused; [|done]. destruct Hacc. unfold escalateIntakePausedOutcome.
  destruct (_ || _); by split.
Qed.
End accounted.

(** ** Properties *)

Section poison.
Context {W : Type} (generateId : W → string * string).
Implicit Types consumer : EventConsumer W.

Lemma deliverEvents_per_event consumer events maxAttempts state w :
  has_batch consumer = false →
  deliverEvents generateId consumer events maxAttempts state w =
  let s := deliver_loop generateId consumer maxAttempts (cs_lastProcessedEventId state) events
             (loop_start state w) in
  (outcome_of_loop s, lp_world s).
Proof. intros Hb. unfold deliverEvents. by rewrite Hb. Qed.
End poison.

(** C16: halt on poison.  A per-event consumer's pass runs the handler on the
    events in order and stops at the first one whose handler throws (unless
    the policy skips errors): everything before it is taken and moves the
    cursor, nothing behind it is run, the failing event is named, and only a
    non-transient error spends an attempt; the consumer is dead-lettered
    exactly when that attempt reaches the effective maximum.  A success on the
    way resets the attempts and the error. *)
Theorem deliverEvents_halts_on_poison {W : Type} generateId (consumer : EventConsumer W) events
    maxAttempts state w :
  has_batch consumer = false →
  let '(o, w') := deliverEvents generateId consumer events maxAttempts state w in
  ∃ done rest w1, events = done ++ rest ∧ handled generateId consumer done w w1 ∧
    do_cursor o = max_id (cs_lastProcessedEventId state) done ∧
    do_resolvedPendingIds o =
      filter (λ i, i ≤ cs_lastProcessedEventId state) (row_id <$> done) ∧
    let attempts := match done with [] => cs_attempts state | _ => 0 end in
    match rest with
    | [] => w' = w1 ∧ do_failedEventId o = None ∧ do_deadLettered o = false ∧ do_attempts o = attempts ∧
        do_lastError o = match done with [] => cs_lastError state | _ => None end
    | row :: _ => ∃ e, poisons generateId consumer row w1 w' e ∧
        do_failedEventId o = Some (row_id row) ∧ do_lastError o = Some (he_message e) ∧
        (if policy_transient consumer e
         then do_attempts o = attempts ∧ do_deadLettered o = false
         else do_attempts o = attempts + 1 ∧
              do_deadLettered o = (effectiveMaxAttempts consumer maxAttempts <=? attempts + 1))
    end.
Proof.
  intros Hb. rewrite deliverEvents_per_event by done.
  destruct (deliver_loop_spec generateId consumer maxAttempts (cs_lastProcessedEventId state) events
              (loop_start state w)) as (done & rest & sp & Hev & Hh & Hap & Hend).
  destruct Hap as [Ac Ar Aa Ae Ad Af _ _ _]. simpl in *.
  exists done, rest, (lp_world sp). split; [done|]. split; [done|].
  destruct Hend as [[-> ->]|(row & rest' & w1 & e & -> & Hp & ->)]; simpl.
  - done.
  - split; [done|]. split; [done|]. exists e. unfold halt_on; simpl. rewrite Aa, Ad.
    destruct (policy_transient consumer e); simpl; rewrite ?orb_false_r; done.
Qed.

Definition poison_consumer : EventConsumer nat :=
  mkEventConsumer "shop:consumer:mail"
    (λ e _ w, (S w, if decide (se_version e = 3) then Some (mkHandlerError "Error" "smtp down") else None))
    None None None Shared FromBeginning None.

Definition poison_row (id : Z) : StoredEventRow :=
  mkRow id "a1" "order" "t1" id "shop:event:placed" 1 []
    (mkMetadata "u1" None None None None None None None None) 0 "u1".

Definition poison_state : ConsumerStateRow := mkConsumer 1 Idle 4 0 [] None None 0.

Lemma deliverEvents_halts_on_poison_witness :
  let r := deliverEvents (λ _, ("c", "r")) poison_consumer (poison_row <$> [2; 3; 4]) 1 poison_state O in
  do_failedEventId r.1 = Some 3 ∧ do_deadLettered r.1 = true ∧
  ∃ done rest w1, poison_row <$> [2; 3; 4] = done ++ rest ∧
    handled (λ _, ("c", "r")) poison_consumer done O w1 ∧ do_cursor r.1 = max_id 1 done.
Proof.
  intros r. split; [reflexivity|]. split; [reflexivity|].
  pose proof (deliverEvents_halts_on_poison (λ _, ("c", "r")) poison_consumer (poison_row <$> [2; 3; 4])
                1 poison_state O eq_refl) as H. fold r in H. destruct r as [o w'].
  destruct H as (done & rest & w1 & Hev & Hh & Hc & _). exists done, rest, w1. done.
Defined.

(** No consumer that holds events sees a tenant's event before an older one
    it is still holding: when the pending part of a batch consumer's fetch was
    cut off, no newer event is delivered of a tenant that has a visible event
    in the pending ranges behind the cut. *)
Theorem withhold_keeps_tenant_order {W : Type} evs (consumer : EventConsumer W) events cursor gaps limit e r :
  has_batch consumer = true → (0 < limit)%nat →
  StronglySorted (λ a b, row_id a < row_id b) events →
  fetch_ok evs events cursor gaps limit → (∀ i, watched gaps i → i ≤ cursor) →
  r ∈ evs → watched gaps (row_id r) → r ∉ events →
  e ∈ withholdNewEventsOfTenantsWithUnfetchedPending evs consumer events cursor (toIdRanges gaps) limit →
  row_tenantId e = row_tenantId r → row_id e ≤ cursor ∧ row_id e < row_id r.
Proof.
  intros Hb Hlim Hs Hf Hbel Hr Hw Hout. unfold withholdNewEventsOfTenantsWithUnfetchedPending. rewrite Hb. simpl.
  destruct (fo_pending _ _ _ _ _ Hf r Hr Hw) as [|[Hlen Hlt]]; [done|].
  set (pend := filter (λ e, row_id e ≤ cursor) events) in *.
  destruct (last (row_id <$> pend)) as [lastId|] eqn:Hl.
  2:{ apply last_None in Hl. apply fmap_nil_inv in Hl. rewrite Hl in Hlen. simpl in Hlen. lia. }
  rewrite length_fmap, Hlen, Nat.ltb_irrefl.
  apply last_Some_elem_of, list_elem_of_fmap in Hl as (l & -> & [Hle Hin]%list_elem_of_filter).
  assert (Hten : row_tenantId r ∈ selectTenantIdsInRangesAbove evs (toIdRanges gaps) (row_id l)).
  { unfold selectTenantIdsInRangesAbove. apply elem_of_list_to_set. rewrite list_elem_of_bind.
    destruct Hw as (g & Hg & Hi). exists (mkRange (gap_from g) (gap_to g)). split.
    - apply list_elem_of_fmap_2, list_elem_of_filter. specialize (Hlt l Hin Hle).
      unfold in_gap in Hi; simpl. split; [lia|done].
    - unfold toIdRanges. apply list_elem_of_fmap. by exists g. }
  destruct (decide _) as [Hemp|_]; [rewrite Hemp in Hten; by apply not_elem_of_empty in Hten|].
  intros [Hor He]%list_elem_of_filter Heq. rewrite Heq in Hor.
  destruct Hor as [Hec|]; [|done]. split; [done|]. by apply Hlt.
Qed.

Definition batch_consumer : EventConsumer nat :=
  mkEventConsumer "shop:consumer:search" (λ _ _ w, (w, None)) (Some (λ _ _ w, (w, [], None))) None None
    Shared FromBeginning None.

Lemma withhold_keeps_tenant_order_witness :
  let evs := poison_row <$> [1; 2; 9] in
  let gaps := [mkGap 1 2 50] in
  let events := selectPendingAndNewEventRows evs 5 (toIdRanges gaps) 2 1 in
  row_id <$> events = [1; 9] ∧
  (∀ e, e ∈ withholdNewEventsOfTenantsWithUnfetchedPending evs batch_consumer events 5 (toIdRanges gaps) 1 →
    row_tenantId e = "t1" → row_id e ≤ 5 ∧ row_id e < 2).
Proof.
  intros evs gaps events. split; [reflexivity|]. intros e He Ht.
  assert (Hn : NoDup (row_id <$> evs)) by (vm_compute; repeat constructor; set_solver).
  assert (Ha : ascending gaps) by (repeat constructor).
  assert (Hc : ∀ i, watched gaps i → i ≤ 5).
  { intros i (g & Hg & Hi). apply list_elem_of_singleton in Hg as ->. unfold in_gap in Hi; simpl in Hi. lia. }
  assert (Hf : fetch_ok evs events 5 gaps 1) by (apply fetch_is_ok; [done|done|done|lia]).
  apply (withhold_keeps_tenant_order evs batch_consumer events 5 gaps 1 e (poison_row 2)); try done; try lia.
  - apply (fo_sorted _ _ _ _ _ Hf).
  - unfold evs; simpl; set_solver.
  - exists (mkGap 1 2 50). split; [set_solver|unfold in_gap; simpl; lia].
  - change events with (poison_row <$> [1; 9]). intros Hin.
    apply list_elem_of_fmap in Hin as (i & Heq & Hi). apply (f_equal row_id) in Heq. simpl in Heq. set_solver.
Defined.
