(* ===== verification/Dispatcher.v ===== *)
(** * The event dispatcher

    [pipeline/event-dispatcher.ts].  A turn reads the database several times
    under READ COMMITTED, so [processConsumer] takes an [Observation] with what
    each of its statements sees; the row lock of the turn makes every other
    column of the consumer's row its own.  The process-local maps and flags of
    [createEventDispatcher]'s closure are the record [DispatcherMem]. *)

From S2P Require Import Prelude PgErrors GapRanges EventLog EventStore ConsumerState Delivery.

Open Scope Z_scope.

(** ** Options *)

Record DispatcherOptions := mkOptions {
  batchSize : nat;
  maxAttempts : Z;
  rearmCooldownMs : Z;
  maxRearmCount : Z;
  maxPendingGapRanges : nat;
  opt_instanceId : option string }.

Definition DEFAULT_BATCH_SIZE : nat := 200.
Definition DEFAULT_MAX_ATTEMPTS : Z := 10.
Definition DEFAULT_REARM_COOLDOWN_MS : Z := 5 * 60000.
Definition DEFAULT_MAX_REARM_COUNT : Z := 3.
Definition PENDING_GAPS_WARN_THRESHOLD : nat := 1000.
Definition DEFAULT_MAX_PENDING_GAP_RANGES : nat := 2 * PENDING_GAPS_WARN_THRESHOLD.
Definition PASS_FAILURE_BASE_BACKOFF_MS : Z := 1000.
Definition PASS_FAILURE_MAX_BACKOFF_MS : Z := 60000.
Definition MAX_CONCURRENT_CONSUMER_TURNS : nat := 4.

Definition default_options : DispatcherOptions :=
  mkOptions DEFAULT_BATCH_SIZE DEFAULT_MAX_ATTEMPTS DEFAULT_REARM_COOLDOWN_MS
    DEFAULT_MAX_REARM_COUNT DEFAULT_MAX_PENDING_GAP_RANGES None.

(** The construction checks. *)
Definition options_accepted {W : Type} (consumers : list (EventConsumer W)) (o : DispatcherOptions)
    : result string unit :=
  if existsb (λ c, match ec_delivery c, opt_instanceId o with
                   | PerInstance, None => true
                   | PerInstance, Some i => bool_decide (i = "")
                   | Shared, _ => false
                   end) consumers
  then Err "per-instance consumer without instanceId"
  else if bool_decide (opt_instanceId o = Some SHARED_INSTANCE_SENTINEL)
  then Err "instanceId equals the reserved sentinel"
  else Ok tt.

(** [...BUN_SQL_CONNECTION_ERROR_CODES, "57P01"] *)
Definition CONNECTION_LOSS_CODES : list string :=
  ["ERR_POSTGRES_CONNECTION_CLOSED"; "ERR_POSTGRES_CONNECTION_REFUSED";
   "ERR_POSTGRES_CONNECTION_TIMEOUT"; "ERR_POSTGRES_CONNECTION_FAILED"; "57P01"].

Definition isConnectionLossError (e : Thrown) : bool :=
  match code_of e with
  | Some code => bool_decide (code ∈ CONNECTION_LOSS_CODES)
  | None => false
  end.

(** ** The gap arithmetic of a turn *)

(** The loop that pushes [newGapBounds]. *)
Fixpoint new_gap_bounds (prev : Z) (newWindowIds : list Z) : list (Z * Z) :=
  match newWindowIds with
  | [] => []
  | id :: rest => (if prev + 1 <? id then [(prev + 1, id - 1)] else []) ++ new_gap_bounds id rest
  end.

Definition turn_new_gaps (oldCursor : Z) (fetchedIds : list Z) (cursor : Z) (heldNewIds : list Z)
    (xmaxNow : Z) : list PendingGapEntry :=
  let newWindowIds := filter (λ id, oldCursor < id ≤ cursor) fetchedIds in
  (λ '(from, to), mkGap from to xmaxNow) <$>
    new_gap_bounds oldCursor newWindowIds ++ ((λ id, (id, id)) <$> heldNewIds).

Definition turn_gaps (oldCursor : Z) (survivingGaps : list PendingGapEntry) (fetchedIds : list Z)
    (outcome : DeliveryOutcome) (xmaxNow : Z) : list PendingGapEntry :=
  let keptGaps := survivingGaps ≫= λ gap, splitRangeExcludingIds gap (do_resolvedPendingIds outcome) in
  mergeContiguousGapRanges
    (keptGaps ++ turn_new_gaps oldCursor fetchedIds (do_cursor outcome) (do_heldNewIds outcome) xmaxNow).

(** ** One turn *)

(** What the statements of one turn see: the horizon read first, then the
    event table at the fetch and at the withholding query, and the snapshot
    bound read last. *)
Record Observation := mkObs {
  ob_xmin : Z;
  ob_fetch : list StoredEventRow;
  ob_withhold : list StoredEventRow;
  ob_xmax : Z }.

Inductive TurnResult :=
| TurnSkipped (reason : SkipReason)
| TurnIdle
| TurnDone (outcome : DeliveryOutcome) (pendingGaps : list PendingGapEntry).

Section turn.
Context {W : Type} (generateId : W → string * string).
Implicit Types consumer : EventConsumer W.

(** The fetch of a turn, its view of the pending part, and the ranges split by
    [partitionBurntGaps]. *)
Definition turn_events (o : DispatcherOptions) consumer (obs : Observation)
    (state : ConsumerStateRow) : list StoredEventRow :=
  fetchPendingEvents (ob_fetch obs) (cs_lastProcessedEventId state) (batchSize o)
    (toIdRanges (cs_pendingGaps state)) (pendingFetchLimit consumer (batchSize o)).

Definition turn_partition (o : DispatcherOptions) consumer (obs : Observation)
    (state : ConsumerStateRow) : list PendingGapEntry * list PendingGapEntry :=
  let pendingGaps := cs_pendingGaps state in
  let xminNow := if (0 <? length pendingGaps)%nat then ob_xmin obs else 0 in
  let pendingFetchedIds :=
    row_id <$> filter (λ e, row_id e ≤ cs_lastProcessedEventId state) (turn_events o consumer obs state) in
  let pendingTruncated := (length pendingFetchedIds =? pendingFetchLimit consumer (batchSize o))%nat in
  partitionBurntGaps pendingGaps pendingFetchedIds pendingTruncated xminNow.

Definition turn_delivery (o : DispatcherOptions) consumer (obs : Observation)
    (state : ConsumerStateRow) (w : W) : list StoredEventRow * DeliveryOutcome * W :=
  deliverConsumerTurn generateId (ob_withhold obs) consumer (turn_events o consumer obs state) state
    (maxAttempts o) (toIdRanges (cs_pendingGaps state)) (pendingFetchLimit consumer (batchSize o))
    (length (turn_partition o consumer obs state).2) (maxPendingGapRanges o) w.

(** The body of [db.begin] after the row is acquired. *)
Definition run_turn (o : DispatcherOptions) consumer (obs : Observation) (state : ConsumerStateRow)
    (w : W) : TurnResult * W :=
  let oldCursor := cs_lastProcessedEventId state in
  let events := turn_events o consumer obs state in
  let '(burntGaps, survivingGaps) := turn_partition o consumer obs state in
  if (length events =? 0)%nat && (length burntGaps =? 0)%nat then (TurnIdle, w)
  else
    let '(deliverable, outcome, w') := turn_delivery o consumer obs state w in
    (TurnDone outcome (turn_gaps oldCursor survivingGaps (row_id <$> deliverable) outcome
                         (ob_xmax obs)), w').

Definition delivery_write (outcome : DeliveryOutcome) (gaps : list PendingGapEntry)
    : ConsumerDeliveryOutcome :=
  mkDeliveryWrite (do_cursor outcome) (do_attempts outcome) (do_lastError outcome)
    (do_deadLettered outcome) (do_processed outcome) gaps (do_failedEventId outcome).

Definition persistConsumerOutcome (now : Z) (cs : Consumers) (key : ConsumerKey)
    (outcome : DeliveryOutcome) (gaps : list PendingGapEntry) : Consumers :=
  updateConsumerDeliveryOutcome now cs key (delivery_write outcome gaps).

(** The transaction of a turn that no infrastructure error interrupts. *)
Definition turn_tx (o : DispatcherOptions) consumer (key : ConsumerKey) (locked : gset ConsumerKey)
    (now : Z) (obs : Observation) (cs : Consumers) (w : W) : TurnResult * Consumers * W :=
  match acquireConsumerState locked now cs key (rearmCooldownMs o) (maxRearmCount o) with
  | (Skipped reason, cs') => (TurnSkipped reason, cs', w)
  | (Acquired state, cs') =>
      match run_turn o consumer obs state w with
      | (TurnDone outcome gaps, w') =>
          let cs'' := markProcessing now cs' key in
          (TurnDone outcome gaps, persistConsumerOutcome now cs'' key outcome gaps, w')
      | (res, w') => (res, cs', w')
      end
  end.
End turn.

(** ** Process memory *)

Record Backoff := mkBackoff { consecutiveFailures : Z; retryAtMs : Z }.

Record DispatcherMem := mkMem {
  consumerBackoff : gmap string Backoff;
  reportedDeadConsumers : gset string;
  reportedLargeGapSets : gset string;
  inFlightTurns : gset string;
  idlePreCheckErrorLogged : bool;
  listenSubscribed : bool }.

Definition emptyMem : DispatcherMem := mkMem ∅ ∅ ∅ ∅ false false.

Definition with_backoff (m : DispatcherMem) (b : gmap string Backoff) : DispatcherMem :=
  mkMem b (reportedDeadConsumers m) (reportedLargeGapSets m) (inFlightTurns m)
    (idlePreCheckErrorLogged m) (listenSubscribed m).

Definition with_reportedDead (m : DispatcherMem) (r : gset string) : DispatcherMem :=
  mkMem (consumerBackoff m) r (reportedLargeGapSets m) (inFlightTurns m)
    (idlePreCheckErrorLogged m) (listenSubscribed m).

(** [warnOnceOnLargeGapSet]: whether it logs, and the set after. *)
Definition warnOnceOnLargeGapSet (m : DispatcherMem) (key : string) (count : nat)
    : bool * DispatcherMem :=
  if (count <=? PENDING_GAPS_WARN_THRESHOLD)%nat || bool_decide (key ∈ reportedLargeGapSets m)
  then (false, m)
  else (true, mkMem (consumerBackoff m) (reportedDeadConsumers m) ({[key]} ∪ reportedLargeGapSets m)
                (inFlightTurns m) (idlePreCheckErrorLogged m) (listenSubscribed m)).

(** The metric of a row found dead and whether it is emitted now. *)
Definition note_skip (m : DispatcherMem) (key : string) (reason : SkipReason)
    : bool * DispatcherMem :=
  match reason with
  | SkipDead =>
      if bool_decide (key ∈ reportedDeadConsumers m) then (false, m)
      else (true, with_reportedDead m ({[key]} ∪ reportedDeadConsumers m))
  | _ => (false, m)
  end.

Definition backoffDelayMs (failures : Z) : Z :=
  Z.min (PASS_FAILURE_BASE_BACKOFF_MS * 2 ^ (failures - 1)) PASS_FAILURE_MAX_BACKOFF_MS.

Definition escalateBackoff (m : DispatcherMem) (key : string) (nowMs : Z) : DispatcherMem :=
  let failures := from_option consecutiveFailures 0 (consumerBackoff m !! key) + 1 in
  with_backoff m (<[key := mkBackoff failures (nowMs + backoffDelayMs failures)]> (consumerBackoff m)).

(** Where an infrastructure error strikes a pass, with its message. *)
Inductive InfraFailure :=
| NoFailure
| FailsBeforeCursor (msg : string)
| FailsBeforeDelivery (msg : string)
| FailsAfterDelivery (msg : string).

Record PassResult := mkPass { pass_processed : Z; pass_failed : Z }.

Section pass.
Context {W : Type} (generateId : W → string * string).
Implicit Types consumer : EventConsumer W.

(** The pass's [catch]: the transaction is gone, the failure goes to the row
    in a transaction of its own ([lockedAfter] are the rows held then; [None]
    when that write fails too) and the backoff grows. *)
Definition pass_failed_with (m : DispatcherMem) (key : ConsumerKey)
    (lockedAfter : option (gset ConsumerKey)) (now nowMs : Z) (cs : Consumers) (msg : string)
    (cursorBeforePass : option Z) : Consumers * DispatcherMem :=
  (match lockedAfter with
   | Some locked => recordConsumerPassFailure locked now cs key msg cursorBeforePass
   | None => cs
   end,
   escalateBackoff m (turnKey key) nowMs).

Definition processConsumer (o : DispatcherOptions) consumer (key : ConsumerKey)
    (locked : gset ConsumerKey) (lockedAfter : option (gset ConsumerKey)) (now nowMs : Z)
    (obs : Observation) (failure : InfraFailure) (m : DispatcherMem) (cs : Consumers) (w : W)
    : PassResult * DispatcherMem * Consumers * W :=
  let k := turnKey key in
  match failure with
  | FailsBeforeCursor msg =>
      let '(cs', m') := pass_failed_with m key lockedAfter now nowMs cs msg None in
      (mkPass 0 0, m', cs', w)
  | _ =>
    match acquireConsumerState locked now cs key (rearmCooldownMs o) (maxRearmCount o) with
    | (Skipped reason, cs') =>
        let m' := (note_skip m k reason).2 in
        (mkPass 0 0, with_backoff m' (delete k (consumerBackoff m')), cs', w)
    | (Acquired state, cs') =>
        let m1 := with_reportedDead m (reportedDeadConsumers m ∖ {[k]}) in
        match failure with
        | FailsBeforeDelivery msg =>
            let '(csf, mf) := pass_failed_with m1 key lockedAfter now nowMs cs msg
                                (Some (cs_lastProcessedEventId state)) in
            (mkPass 0 0, mf, csf, w)
        | _ =>
          match run_turn generateId o consumer obs state w with
          | (TurnDone outcome gaps, w') =>
              let m2 := (warnOnceOnLargeGapSet m1 k (length gaps)).2 in
              let res := mkPass (do_processed outcome) (do_failed outcome) in
              match failure with
              | FailsAfterDelivery msg =>
                  let '(csf, mf) := pass_failed_with m2 key lockedAfter now nowMs cs msg
                                      (Some (cs_lastProcessedEventId state)) in
                  (res, mf, csf, w')
              | _ =>
                  (res, with_backoff m2 (delete k (consumerBackoff m2)),
                   persistConsumerOutcome now (markProcessing now cs' key) key outcome gaps, w')
              end
          | (_, w') =>
              (mkPass 0 0, with_backoff m1 (delete k (consumerBackoff m1)), cs', w')
          end
        end
    end
  end.
End pass.

(** ** Gating a turn *)

Inductive TurnDecision :=
| JoinInFlight
| GatedFeature
| GatedBackoff
| GatedIdle
| StartTurn.

(** [runConsumerTurn] up to the promise it registers. *)
Definition runConsumerTurn {W : Type} (consumer : EventConsumer W) (key : string)
    (effective : option (gset string)) (idleKeys : gset string) (nowMs : Z) (m : DispatcherMem)
    : TurnDecision * DispatcherMem :=
  if bool_decide (key ∈ inFlightTurns m) then (JoinInFlight, m)
  else if match effective, ec_featureName consumer with
          | Some eff, Some f => negb (bool_decide (f = "")) && negb (bool_decide (f ∈ eff))
          | _, _ => false
          end
  then (GatedFeature, m)
  else if match consumerBackoff m !! key with
          | Some b => nowMs <? retryAtMs b
          | None => false
          end
  then (GatedBackoff, m)
  else if bool_decide (key ∈ idleKeys)
  then (GatedIdle, with_backoff m (delete key (consumerBackoff m)))
  else (StartTurn,
        mkMem (consumerBackoff m) (reportedDeadConsumers m) (reportedLargeGapSets m)
          ({[key]} ∪ inFlightTurns m) (idlePreCheckErrorLogged m) (listenSubscribed m)).

Definition finishTurn (key : string) (m : DispatcherMem) : DispatcherMem :=
  mkMem (consumerBackoff m) (reportedDeadConsumers m) (reportedLargeGapSets m)
    (inFlightTurns m ∖ {[key]}) (idlePreCheckErrorLogged m) (listenSubscribed m).

(** ** The idle pre-check of a pass *)

Definition set_preCheckLogged (b : bool) (m : DispatcherMem) : DispatcherMem :=
  mkMem (consumerBackoff m) (reportedDeadConsumers m) (reportedLargeGapSets m) (inFlightTurns m)
    b (listenSubscribed m).

Inductive PreCheckSignal :=
| SignalRecovered (listenGauge : bool)
| SignalFailed (gaugeDown : bool).

(** [query] is the answer of [selectIdleConsumerKeys] or what it threw; the
    signals are the logs and gauge writes. *)
Definition idlePreCheck (query : result Thrown (gset string)) (m : DispatcherMem)
    : gset string * option PreCheckSignal * DispatcherMem :=
  match query with
  | Ok keys =>
      if idlePreCheckErrorLogged m
      then (keys, Some (SignalRecovered (listenSubscribed m)), set_preCheckLogged false m)
      else (keys, None, m)
  | Err e =>
      if idlePreCheckErrorLogged m then (∅, None, m)
      else (∅, Some (SignalFailed (isConnectionLossError e)), set_preCheckLogged true m)
  end.

Record DispatcherPassResult := mkPassResult {
  pr_processed : Z;
  pr_failed : Z;
  pr_byConsumer : list (string * PassResult) }.

Definition collectResults (results : list (string * PassResult)) : DispatcherPassResult :=
  foldl (λ acc r, mkPassResult (pr_processed acc + pass_processed r.2) (pr_failed acc + pass_failed r.2)
                    (assoc_set r.1 r.2 (pr_byConsumer acc)))
    (mkPassResult 0 0 []) results.

(** ** Turn slots

    [acquireConsumerTurnSlot] and the release closures it returns.  A turn is
    a number; [sl_held] are the turns that got a slot, [sl_released] those whose
    closure has set its [released] flag. *)

Record SlotState := mkSlots {
  sl_active : nat;
  sl_waiters : list nat;
  sl_held : gset nat;
  sl_released : gset nat }.

Definition noSlots : SlotState := mkSlots 0 [] ∅ ∅.

Definition acquireConsumerTurnSlot (t : nat) (s : SlotState) : SlotState :=
  if (MAX_CONCURRENT_CONSUMER_TURNS <=? sl_active s)%nat
  then mkSlots (sl_active s) (sl_waiters s ++ [t]) (sl_held s) (sl_released s)
  else mkSlots (S (sl_active s)) (sl_waiters s) ({[t]} ∪ sl_held s) (sl_released s).

Definition releaseSlot (t : nat) (s : SlotState) : SlotState :=
  if bool_decide (t ∈ sl_released s) then s
  else
    match sl_waiters s with
    | next :: rest => mkSlots (sl_active s) rest ({[next]} ∪ sl_held s) ({[t]} ∪ sl_released s)
    | [] => mkSlots (Nat.pred (sl_active s)) [] (sl_held s) ({[t]} ∪ sl_released s)
    end.

(** Turns that run now. *)
Definition sl_running (s : SlotState) : gset nat := sl_held s ∖ sl_released s.

(** A fresh turn asks for a slot; a turn that got one releases it, once or
    more often. *)
Inductive slot_step : SlotState → SlotState → Prop :=
| slot_acquire t s :
    t ∉ sl_held s → t ∉ sl_waiters s → slot_step s (acquireConsumerTurnSlot t s)
| slot_release t s :
    t ∈ sl_held s → slot_step s (releaseSlot t s).

(** ** Lifecycle *)

Record LifecycleState := mkLifecycle {
  lc_running : bool;
  lc_preRegistered : bool;
  lc_timer : bool;
  lc_subscribed : bool;
  lc_pauseDepth : nat }.

Definition stoppedDispatcher : LifecycleState := mkLifecycle false false false false 0.

(** [listens]: a LISTEN client is configured and its subscription succeeds. *)
Definition dispatcher_start (listens : bool) (s : LifecycleState) : LifecycleState :=
  if lc_running s then s
  else mkLifecycle true true true (listens || lc_subscribed s) (lc_pauseDepth s).

Definition dispatcher_stop (s : LifecycleState) : LifecycleState :=
  if lc_running s then mkLifecycle false (lc_preRegistered s) false false (lc_pauseDepth s) else s.

Definition dispatcher_ensureRegistered (s : LifecycleState) : LifecycleState :=
  mkLifecycle (lc_running s) true (lc_timer s) (lc_subscribed s) (lc_pauseDepth s).

(** [withBackgroundPassesPaused] before and after [fn]. *)
Definition pause_enter (s : LifecycleState) : LifecycleState :=
  mkLifecycle (lc_running s) (lc_preRegistered s) (lc_timer s) (lc_subscribed s) (S (lc_pauseDepth s)).

Definition pause_leave (s : LifecycleState) : LifecycleState :=
  mkLifecycle (lc_running s) (lc_preRegistered s) (lc_timer s) (lc_subscribed s)
    (Nat.pred (lc_pauseDepth s)).

Definition runOnce_allowed (s : LifecycleState) : bool := lc_preRegistered s.

(** A timer tick or a NOTIFY starts a pass. *)
Definition runBackgroundPass_starts (s : LifecycleState) : bool :=
  (lc_pauseDepth s =? 0)%nat && runOnce_allowed s.

(** ** Lemmas on a turn's gaps *)

Definition as_gaps (xmax : Z) (bounds : list (Z * Z)) : list PendingGapEntry :=
  (λ '(from, to), mkGap from to xmax) <$> bounds.

Lemma new_gap_bounds_spec xmax prev ids :
  StronglySorted Z.lt ids → Forall (λ i, prev < i) ids →
  (∀ i, watched (as_gaps xmax (new_gap_bounds prev ids)) i ↔
        prev < i ∧ i ∉ ids ∧ ∃ j, j ∈ ids ∧ i < j) ∧
  Forall (λ g, gap_ok g ∧ prev < gap_from g ∧ gap_xmax g = xmax) (as_gaps xmax (new_gap_bounds prev ids)) ∧
  ascending (as_gaps xmax (new_gap_bounds prev ids)).
Proof.
  intros Hs. revert prev. induction Hs as [|id ids Hs IH Hf]; intros prev Hp; simpl.
  { split_and!; [|constructor|constructor]. intros i. rewrite watched_nil. set_solver. }
  apply Forall_cons in Hp as [Hid Hp]. destruct (IH id Hf) as (Hw & Hb & Ha).
  unfold as_gaps in *. rewrite fmap_app.
  set (first := (if prev + 1 <? id then [(prev + 1, id - 1)] else [])).
  assert (Hfirst : ∀ g, g ∈ (λ '(from, to), mkGap from to xmax) <$> first →
            prev + 1 < id ∧ g = mkGap (prev + 1) (id - 1) xmax).
  { intros g Hg. unfold first in Hg. destruct (prev + 1 <? id) eqn:E; reflect_bools; set_solver. }
  assert (Hfw : ∀ i, watched ((λ '(from, to), mkGap from to xmax) <$> first) i ↔ prev < i < id).
  { intros i. unfold first. destruct (prev + 1 <? id) eqn:E; reflect_bools; simpl.
    - rewrite watched_cons, watched_nil. unfold in_gap; simpl. lia.
    - rewrite watched_nil. lia. }
  split_and!.
  - intros i. rewrite watched_app, Hfw, Hw. rewrite Forall_forall in Hf. split.
    + intros [Hi|(Hi & Hn & j & Hj & Hlt)].
      * split; [lia|]. split; [|exists id; split; [set_solver|lia]].
        intros [->|Hin]%elem_of_cons; [lia|]. specialize (Hf i Hin). lia.
      * split; [lia|]. split; [|exists j; split; [set_solver|lia]].
        intros [->|Hin]%elem_of_cons; [lia|done].
    + intros (Hi & Hn & j & Hj & Hlt). destruct (Z_lt_le_dec i id); [left; lia|right].
      assert (i ≠ id) by set_solver. split; [lia|]. split; [set_solver|].
      apply elem_of_cons in Hj as [->|Hj]; [lia|]. by exists j.
  - apply Forall_app; split; [|eapply Forall_impl; [exact Hb|simpl; intros g ?; intuition lia]].
    apply Forall_forall. intros g Hg. destruct (Hfirst g Hg) as [Hlt ->].
    unfold gap_ok; simpl. lia.
  - apply StronglySorted_app_2; [| |done].
    + intros g h Hg Hh. destruct (Hfirst g Hg) as [Hlt ->]. rewrite Forall_forall in Hb.
      specialize (Hb h Hh). simpl. lia.
    + unfold first. destruct (_ <? _); repeat constructor.
Qed.

Lemma elem_of_held_gaps xmax held g :
  g ∈ as_gaps xmax ((λ i, (i, i)) <$> held) ↔ ∃ i, i ∈ held ∧ g = mkGap i i xmax.
Proof.
  unfold as_gaps. rewrite <- list_fmap_compose, list_elem_of_fmap. split.
  - intros (i & -> & Hi). by exists i.
  - intros (i & Hi & ->). by exists i.
Qed.

Lemma held_gaps_spec xmax held :
  NoDup held →
  (∀ i, watched (as_gaps xmax ((λ i, (i, i)) <$> held)) i ↔ i ∈ held) ∧
  Forall (λ g, gap_ok g ∧ gap_xmax g = xmax) (as_gaps xmax ((λ i, (i, i)) <$> held)) ∧
  all_apart (as_gaps xmax ((λ i, (i, i)) <$> held)).
Proof.
  intros Hn. split_and!.
  - intros i. unfold watched, in_gap. split.
    + intros (g & (j & Hj & ->)%elem_of_held_gaps & Hi). simpl in Hi. by replace i with j by lia.
    + intros Hi. exists (mkGap i i xmax). split; [apply elem_of_held_gaps; by exists i|simpl; lia].
  - apply Forall_forall. intros g (i & _ & ->)%elem_of_held_gaps.
    split; [unfold gap_ok; simpl; lia|done].
  - induction Hn as [|i held Hi Hn IH]; [constructor|].
    change (as_gaps xmax ((λ i, (i, i)) <$> i :: held))
      with (mkGap i i xmax :: as_gaps xmax ((λ i, (i, i)) <$> held)).
    constructor; [exact IH|]. apply Forall_forall. intros g (j & Hj & ->)%elem_of_held_gaps.
    unfold apart; simpl. assert (i ≠ j) by (intros ->; done). lia.
Qed.

(** The well-formedness of a consumer's ranges under its cursor. *)
Record gaps_ok (cursor : Z) (gaps : list PendingGapEntry) : Prop := {
  go_nonempty : Forall gap_ok gaps;
  go_ascending : ascending gaps;
  go_below : ∀ i, watched gaps i → i ≤ cursor }.

Section turn_gaps.
Context (start xmax : Z) (surviving : list PendingGapEntry) (events done : list StoredEventRow)
  (o : DeliveryOutcome).
Context (Hg : gaps_ok start surviving)
  (Hs : StronglySorted (λ a b, row_id a < row_id b) events)
  (Hacc : accounts start events done o).
#[local] Set Default Proof Using "Hg Hs Hacc".

Definition window_ids : list Z := filter (λ id, start < id ≤ do_cursor o) (row_id <$> events).

Lemma window_sorted : StronglySorted Z.lt window_ids.
Proof.
  apply strongly_sorted_filter. clear -Hs. induction Hs as [|x l Hs' IH Hf]; simpl; constructor; [by apply IH|].
  by rewrite Forall_fmap.
Qed.

Lemma new_gaps_spec :
  let new := turn_new_gaps start (row_id <$> events) (do_cursor o) (do_heldNewIds o) xmax in
  (∀ i, watched new i ↔ start < i ≤ do_cursor o ∧ i ∉ row_id <$> done) ∧
  Forall (λ g, gap_ok g ∧ gap_xmax g = xmax) new ∧ all_apart new.
Proof.
  intros new. unfold new, turn_new_gaps. fold window_ids. rewrite fmap_app.
  fold (as_gaps xmax (new_gap_bounds start window_ids)).
  fold (as_gaps xmax ((λ i, (i, i)) <$> do_heldNewIds o)).
  destruct (new_gap_bounds_spec xmax start window_ids window_sorted) as (Hw & Hb & Ha).
  { apply Forall_forall. intros i Hi%list_elem_of_filter. lia. }
  destruct (held_gaps_spec xmax (do_heldNewIds o) (ac_held_nodup _ _ _ _ Hacc)) as (Hhw & Hhb & Hha).
  assert (Hin : ∀ i, i ∈ window_ids ↔ start < i ≤ do_cursor o ∧ i ∈ row_id <$> events)
    by (intros i; unfold window_ids; by rewrite list_elem_of_filter).
  split_and!.
  - intros i. rewrite watched_app, Hw, Hhw. split.
    + intros [(Hlt & Hn & j & Hj & Hij)|Hi].
      * apply Hin in Hj as [Hj _]. split; [lia|]. intros (r & -> & Hr)%list_elem_of_fmap.
        apply Hn, Hin. split; [lia|]. apply list_elem_of_fmap_2. by apply (ac_sub _ _ _ _ Hacc).
      * split; [by apply (ac_held _ _ _ _ Hacc)|]. intros (r & -> & Hr)%list_elem_of_fmap.
        by apply (ac_disjoint _ _ _ _ Hacc r).
    + intros [Hi Hn]. destruct (decide (i ∈ window_ids)) as [Hwi|Hwi].
      * right. apply Hin in Hwi as [_ (r & -> & Hr)%list_elem_of_fmap].
        destruct (ac_new _ _ _ _ Hacc r Hr Hi) as [Hd|]; [|done].
        exfalso. by apply Hn, list_elem_of_fmap_2.
      * left. split; [lia|]. split; [done|].
        destruct (ac_cursor_at _ _ _ _ Hacc) as [|(r & Hr & Hc)]; [lia|].
        assert (Hcw : do_cursor o ∈ window_ids).
        { apply Hin. split; [lia|]. rewrite <- Hc. by apply list_elem_of_fmap_2. }
        exists (do_cursor o). split; [done|].
        destruct (decide (i = do_cursor o)); [subst; done|lia].
  - apply Forall_app; split; [|done]. eapply Forall_impl; [exact Hb|]. simpl. tauto.
  - apply all_apart_app; [| |by apply ascending_all_apart|done|].
    + eapply Forall_impl; [exact Hb|]. simpl. tauto.
    + eapply Forall_impl; [exact Hhb|]. simpl. tauto.
    + intros i (_ & Hn & _)%Hw Hi%Hhw. destruct (ac_held _ _ _ _ Hacc i Hi) as [Hlt He].
      apply Hn, Hin. by split.
Qed.

(** The persisted ranges watch exactly what the turn leaves open, and keep a
    bound at least as late as each id was recorded with. *)
Lemma turn_gaps_spec :
  let G := turn_gaps start surviving (row_id <$> events) o xmax in
  gaps_ok (do_cursor o) G ∧
  (∀ i, watched G i ↔
        (watched surviving i ∨ start < i ≤ do_cursor o) ∧ i ∉ row_id <$> done) ∧
  (∀ g i, g ∈ G → in_gap g i →
     (start < i → xmax ≤ gap_xmax g) ∧
     (∀ h, h ∈ surviving → in_gap h i → gap_xmax h ≤ gap_xmax g)).
Proof.
  intros G. destruct Hg as [Hok Hasc Hbel].
  destruct new_gaps_spec as (Hnw & Hnb & Hna).
  destruct (split_all_spec surviving (do_resolvedPendingIds o) Hok Hasc) as (Hkok & Hka & Hkw & Hkx & Hkb).
  unfold turn_gaps in G. cbv zeta in G.
  set (kept := surviving ≫= _) in *. set (new := turn_new_gaps _ _ _ _ _) in *.
  assert (Hnok : Forall gap_ok new) by (eapply Forall_impl; [exact Hnb|simpl; tauto]).
  assert (Hall : Forall gap_ok (kept ++ new)) by by apply Forall_app.
  assert (Hres : ∀ i, watched surviving i → i ∈ do_resolvedPendingIds o ↔ i ∈ row_id <$> done).
  { intros i Hi. rewrite (ac_resolved _ _ _ _ Hacc). specialize (Hbel i Hi). tauto. }
  assert (Hapart : all_apart (kept ++ new)).
  { apply all_apart_app; [done|done|by apply ascending_all_apart|done|].
    intros i [Hi _]%Hkw Hn%Hnw. specialize (Hbel i Hi). lia. }
  destruct (mergeContiguousGapRanges_spec (kept ++ new) Hall) as (Hw & HGok & Hbound). fold G in Hw, HGok, Hbound.
  assert (HGasc : ascending G).
  { apply separated_ascending; [done|]. apply mergeContiguousGapRanges_separated; [done|].
    by apply all_apart_sorted. }
  assert (HGw : ∀ i, watched G i ↔ (watched surviving i ∨ start < i ≤ do_cursor o) ∧ i ∉ row_id <$> done).
  { intros i. rewrite Hw, watched_app, Hkw, Hnw. specialize (Hres i). tauto. }
  split_and!; [split|exact HGw|].
  - done.
  - done.
  - intros i [[Hi|Hi] _]%HGw; [|lia]. specialize (Hbel i Hi). pose proof (ac_cursor _ _ _ _ Hacc). lia.
  - intros g i HgG Hi.
    assert (Hat : ∀ x, watched_at (kept ++ new) i x → x ≤ gap_xmax g).
    { intros x Hx. destruct (Hbound i x Hx) as (y & Hxy & g' & Hg' & Hi' & <-).
      by rewrite (ascending_unique G g g' i HGasc HgG Hg' Hi Hi'). }
    assert (Hwi : watched (kept ++ new) i) by (apply Hw; by exists g).
    split.
    + intros Hlt. apply watched_app in Hwi as [Hwk|(n & Hn & Hin)].
      { apply Hkw in Hwk as [Hwk _]. specialize (Hbel i Hwk). lia. }
      apply Hat. exists n. rewrite Forall_forall in Hnb. destruct (Hnb n Hn).
      split; [set_solver|done].
    + intros h Hh Hih. assert (Hws : watched surviving i) by by exists h.
      apply watched_app in Hwi as [(k & Hk & Hik)|Hwn];
        [|apply Hnw in Hwn as [Hlt _]; specialize (Hbel i Hws); lia].
      destruct (Hkx i (gap_xmax k)) as (h' & Hh' & Hih' & Hx); [by exists k|].
      rewrite (ascending_unique surviving h h' i Hasc Hh Hh' Hih Hih'), Hx.
      apply Hat. exists k. split; [set_solver|done].
Qed.
End turn_gaps.

(** ** Lemmas on a whole turn *)

(** Ids of the delivered rows that an outcome takes. *)
Definition taken_ids (start : Z) (deliverable : list StoredEventRow) (o : DeliveryOutcome) : list Z :=
  filter (λ i, (i ≤ start ∧ i ∈ do_resolvedPendingIds o)
               ∨ (start < i ≤ do_cursor o ∧ i ∉ do_heldNewIds o)) (row_id <$> deliverable).

Lemma taken_ids_spec start deliverable done o :
  accounts start deliverable done o →
  ∀ i, i ∈ taken_ids start deliverable o ↔ i ∈ row_id <$> done.
Proof.
  intros Hacc i. unfold taken_ids. rewrite list_elem_of_filter. split.
  - intros [[[Hle Hr]|[Hlt Hn]] Hi].
    + by apply (ac_resolved _ _ _ _ Hacc).
    + apply list_elem_of_fmap in Hi as (e & -> & He).
      destruct (ac_new _ _ _ _ Hacc e He Hlt); [by apply list_elem_of_fmap_2|done].
  - intros (e & -> & He)%list_elem_of_fmap. destruct (ac_sub _ _ _ _ Hacc e He) as [Hin Hc].
    split; [|by apply list_elem_of_fmap_2].
    destruct (Z_lt_le_dec start (row_id e)); [right|left].
    + split; [lia|]. by apply (ac_disjoint _ _ _ _ Hacc).
    + split; [done|]. apply (ac_resolved _ _ _ _ Hacc). split; [done|by apply list_elem_of_fmap_2].
Qed.

Lemma pendingFetchLimit_le {W : Type} (consumer : EventConsumer W) n :
  (0 < n)%nat → (pendingFetchLimit consumer n ≤ n)%nat.
Proof.
  intros Hn. unfold pendingFetchLimit. destruct (negb _); [done|].
  apply Nat.max_lub; [lia|]. apply Nat.div_le_upper_bound; lia.
Qed.

Section whole_turn.
Context {W : Type} (generateId : W → string * string) (o : DispatcherOptions)
  (consumer : EventConsumer W) (obs : Observation) (state : ConsumerStateRow) (w : W).
Context (Hb : (0 < batchSize o)%nat)
  (Hn : NoDup (row_id <$> ob_fetch obs))
  (Hg : gaps_ok (cs_lastProcessedEventId state) (cs_pendingGaps state)).
#[local] Set Default Proof Using "Hb Hn Hg".

Lemma turn_fetch_ok :
  fetch_ok (ob_fetch obs) (turn_events o consumer obs state) (cs_lastProcessedEventId state)
    (cs_pendingGaps state) (pendingFetchLimit consumer (batchSize o)).
Proof. destruct Hg. apply fetch_is_ok; try done. by apply pendingFetchLimit_le. Qed.

Lemma surviving_ok : gaps_ok (cs_lastProcessedEventId state) (turn_partition o consumer obs state).2.
Proof.
  destruct Hg as [H1 H2 H3]. unfold turn_partition. rewrite partitionBurntGaps_spec. simpl. split.
  - apply Forall_forall. intros g [_ Hin]%list_elem_of_filter. rewrite Forall_forall in H1. by apply H1.
  - by apply strongly_sorted_filter.
  - intros i (g & [_ Hin]%list_elem_of_filter & Hi). apply H3. by exists g.
Qed.

(** A discarded range was recorded before the horizon, and no visible row lies
    in it. *)
Lemma discarded_gap g :
  g ∈ cs_pendingGaps state → g ∉ (turn_partition o consumer obs state).2 →
  gap_xmax g ≤ ob_xmin obs ∧ ∀ r, r ∈ ob_fetch obs → ¬ in_gap g (row_id r).
Proof.
  intros Hin Hns. unfold turn_partition in Hns. rewrite partitionBurntGaps_spec in Hns. simpl in Hns.
  rewrite list_elem_of_filter in Hns.
  set (ids := row_id <$> filter _ _) in Hns. set (trunc := (length ids =? _)%nat) in Hns.
  set (xm := if (0 <? _)%nat then _ else _) in Hns.
  assert (Hb' : isBurnt ids trunc xm g = true)
    by (destruct (isBurnt ids trunc xm g); [done|exfalso; apply Hns; split; [congruence|done]]).
  apply isBurnt_true in Hb' as (Hvis & Hcov & Hx).
  assert (Hxm : xm = ob_xmin obs) by (unfold xm; by destruct (cs_pendingGaps state); [set_solver|]).
  split; [by rewrite <- Hxm|]. intros r Hr Hi.
  pose proof turn_fetch_ok as Hf. destruct Hg as [_ _ Hbel].
  assert (Hw : watched (cs_pendingGaps state) (row_id r)) by by exists g.
  destruct (fo_pending _ _ _ _ _ Hf r Hr Hw) as [He|[Hlen Hlt]].
  - apply (Hvis (row_id r)); [|done]. apply list_elem_of_fmap_2, list_elem_of_filter. split; [|done].
    by apply Hbel.
  - destruct Hcov as (m & Hm & Hlast).
    { unfold trunc, ids. rewrite length_fmap. apply Nat.eqb_eq, Hlen. }
    apply last_Some_elem_of in Hm. unfold ids in Hm.
    apply list_elem_of_fmap in Hm as (e & -> & [Hle He]%list_elem_of_filter).
    specialize (Hlt e He Hle). unfold in_gap in Hi. lia.
Qed.

(** One turn in full: the rows it takes, the cursor it reaches and the ranges
    it leaves account for every id at or below the new cursor. *)
Lemma run_turn_spec outcome gaps w' :
  run_turn generateId o consumer obs state w = (TurnDone outcome gaps, w') →
  let deliverable := (turn_delivery generateId o consumer obs state w).1.1 in
  let start := cs_lastProcessedEventId state in
  gaps_ok (do_cursor outcome) gaps ∧ start ≤ do_cursor outcome ∧
  (do_cursor outcome = start ∨ do_cursor outcome ∈ row_id <$> ob_fetch obs) ∧
  (∀ i, watched gaps i ↔
     (watched (turn_partition o consumer obs state).2 i ∨ start < i ≤ do_cursor outcome) ∧
     i ∉ taken_ids start deliverable outcome) ∧
  (∀ g i, g ∈ gaps → in_gap g i →
     (start < i → ob_xmax obs ≤ gap_xmax g) ∧
     (∀ h, h ∈ cs_pendingGaps state → in_gap h i → gap_xmax h ≤ gap_xmax g)) ∧
  (∀ i, i ∈ taken_ids start deliverable outcome → i ∈ row_id <$> ob_fetch obs).
Proof.
  unfold run_turn. intros Hrun. destruct (turn_partition o consumer obs state) as [burnt surviving] eqn:Hp.
  destruct (_ && _); [done|].
  destruct (turn_delivery generateId o consumer obs state w) as [[deliverable oc] w1] eqn:Hd.
  injection Hrun as -> <- ->. simpl.
  pose proof turn_fetch_ok as Hf. pose proof surviving_ok as Hsg. rewrite Hp in Hsg. simpl in Hsg.
  pose proof (deliverConsumerTurn_accounts generateId (ob_withhold obs) consumer
    (turn_events o consumer obs state) state (maxAttempts o) (toIdRanges (cs_pendingGaps state))
    (pendingFetchLimit consumer (batchSize o)) (length surviving) (maxPendingGapRanges o) w
    (fo_sorted _ _ _ _ _ Hf)) as (Hsub & _ & done & Hacc & _).
  unfold turn_delivery in Hd. rewrite Hp in Hd. simpl in Hd. rewrite Hd in Hsub, Hacc. simpl in Hsub, Hacc.
  assert (Hds : StronglySorted (λ a b, row_id a < row_id b) deliverable)
    by (eapply strongly_sorted_sublist; [exact Hsub|apply (fo_sorted _ _ _ _ _ Hf)]).
  assert (Hde : ∀ e, e ∈ deliverable → e ∈ ob_fetch obs).
  { intros e He. apply (fo_sound _ _ _ _ _ Hf e). by eapply elem_of_sublist. }
  pose proof (taken_ids_spec _ _ _ _ Hacc) as Htk.
  destruct (turn_gaps_spec _ (ob_xmax obs) surviving deliverable done outcome Hsg Hds Hacc)
    as (Hok & Hw & Hx).
  split_and!.
  - done.
  - apply (ac_cursor _ _ _ _ Hacc).
  - destruct (ac_cursor_at _ _ _ _ Hacc) as [|(r & Hr & <-)]; [by left|right].
    by apply list_elem_of_fmap_2, Hde.
  - intros i. rewrite Hw, Htk. done.
  - intros g i Hgi Hi. destruct (Hx g i Hgi Hi) as [Hx1 Hx2]. split; [done|].
    intros h Hh Hih. apply Hx2; [|done].
    assert (Hwi : watched (turn_gaps (cs_lastProcessedEventId state) surviving (row_id <$> deliverable)
              outcome (ob_xmax obs)) i) by by exists g.
    apply Hw in Hwi as [[(h' & Hh' & Hih')|Hlt] _].
    + destruct Hg as [_ Hasc _]. assert (Hin : h' ∈ cs_pendingGaps state).
      { assert (h' ∈ (turn_partition o consumer obs state).2) as Hs' by by rewrite Hp.
        unfold turn_partition in Hs'. rewrite partitionBurntGaps_spec in Hs'.
        simpl in Hs'. by apply list_elem_of_filter in Hs' as [_ ?]. }
      by rewrite (ascending_unique _ h h' i Hasc Hh Hin Hih Hih').
    + destruct Hg as [_ _ Hbel]. assert (i ≤ cs_lastProcessedEventId state) by (apply Hbel; by exists h). lia.
  - intros i Hi. apply Htk in Hi. apply list_elem_of_fmap in Hi as (e & -> & He).
    apply list_elem_of_fmap_2, Hde. by apply (ac_sub _ _ _ _ Hacc).
Qed.
End whole_turn.

(** ** Lemmas on slots *)

Record slots_ok (s : SlotState) : Prop := {
  so_count : size (sl_running s) = sl_active s;
  so_bound : (sl_active s ≤ MAX_CONCURRENT_CONSUMER_TURNS)%nat;
  so_full : sl_waiters s ≠ [] → sl_active s = MAX_CONCURRENT_CONSUMER_TURNS;
  so_released : sl_released s ⊆ sl_held s;
  so_waiting : NoDup (sl_waiters s) ∧ ∀ t, t ∈ sl_waiters s → t ∉ sl_held s }.

Lemma slots_ok_none : slots_ok noSlots.
Proof. split; simpl; try done; [lia|]. split; [constructor|set_solver]. Qed.

Lemma slot_acquire_ok t s :
  t ∉ sl_held s → t ∉ sl_waiters s → slots_ok s → slots_ok (acquireConsumerTurnSlot t s).
Proof.
  intros Ht Hw [H1 H2 H3 H4 [H5 H6]]. unfold acquireConsumerTurnSlot.
  destruct (_ <=? _)%nat eqn:E; [apply Nat.leb_le in E|apply Nat.leb_gt in E]; split; simpl; try done; try lia.
  - split; [|set_solver]. apply NoDup_app. split_and!; [done|set_solver|apply NoDup_singleton].
  - unfold sl_running in *; simpl. assert (t ∉ sl_released s) by set_solver.
    rewrite (difference_union_distr_l_L), (difference_disjoint_L {[t]}) by set_solver.
    rewrite size_union, size_singleton, H1 by set_solver. done.
  - intros Hne. specialize (H3 Hne). lia.
  - set_solver.
  - split; [done|]. intros u Hu. specialize (H6 u Hu). set_solver.
Qed.

Lemma slot_release_ok t s : t ∈ sl_held s → slots_ok s → slots_ok (releaseSlot t s).
Proof.
  intros Ht [H1 H2 H3 H4 [H5 H6]]. unfold releaseSlot. case_bool_decide as Hr; [by split|].
  assert (Hrun : t ∈ sl_running s) by (unfold sl_running; set_solver).
  assert (Hsz : size (sl_running s ∖ {[t]}) = Nat.pred (sl_active s))
    by (rewrite size_difference, size_singleton, H1 by set_solver; lia).
  assert (Hpos : (0 < sl_active s)%nat).
  { rewrite <- H1. apply Nat.neq_0_lt_0. intros Hz%size_empty_inv. set_solver. }
  destruct (sl_waiters s) as [|next rest] eqn:Hwt; split; simpl; try done; try lia.
  - rewrite <- Hsz. f_equal. unfold sl_running; simpl. set_solver.
  - set_solver.
  - assert (Hn : next ∉ sl_held s) by (apply H6; set_solver).
    rewrite <- H1. unfold sl_running in *; simpl.
    replace (({[next]} ∪ sl_held s) ∖ ({[t]} ∪ sl_released s))
      with ({[next]} ∪ ((sl_held s ∖ sl_released s) ∖ {[t]})).
    + rewrite size_union, size_singleton, Hsz by set_solver. lia.
    + assert (next ≠ t) by set_solver. assert (next ∉ sl_released s) by set_solver.
      apply set_eq. intros x. set_solver.
  - intros Hne. by apply H3.
  - set_solver.
  - apply NoDup_cons in H5 as [Hnr H5]. split; [done|]. intros u Hu.
    assert (u ∉ sl_held s) by (apply H6; set_solver). set_solver.
Qed.

Lemma slots_reachable_ok s : rtc slot_step noSlots s → slots_ok s.
Proof.
  generalize slots_ok_none. generalize noSlots. intros s0 H0 Hr. induction Hr as [|s0 s1 s2 Hstep _ IH]; [done|].
  apply IH. destruct Hstep; [by apply slot_acquire_ok|by apply slot_release_ok].
Qed.

(** ** Lemmas on failed passes *)

Lemma backoffDelayMs_bounds n : 0 < n → 1000 ≤ backoffDelayMs n ≤ 60000.
Proof.
  intros Hn. unfold backoffDelayMs, PASS_FAILURE_BASE_BACKOFF_MS, PASS_FAILURE_MAX_BACKOFF_MS.
  assert (1 ≤ 2 ^ (n - 1)) by (apply (Z.pow_le_mono_r 2 0 (n - 1)); lia). lia.
Qed.

Lemma backoffDelayMs_monotone n : 0 < n → backoffDelayMs n ≤ backoffDelayMs (n + 1).
Proof.
  intros Hn. unfold backoffDelayMs, PASS_FAILURE_BASE_BACKOFF_MS, PASS_FAILURE_MAX_BACKOFF_MS.
  assert (2 ^ (n - 1) ≤ 2 ^ (n + 1 - 1)) by (apply Z.pow_le_mono_r; lia). lia.
Qed.

(** The row still stands where [c] stood; only its error text and time moved. *)
Definition same_progress (c : ConsumerStateRow) (row : option ConsumerStateRow) : Prop :=
  ∃ c', row = Some c' ∧
    cs_lastProcessedEventId c' = cs_lastProcessedEventId c ∧ cs_pendingGaps c' = cs_pendingGaps c ∧
    cs_attempts c' = cs_attempts c ∧ cs_status c' = cs_status c ∧ cs_rearmCount c' = cs_rearmCount c.

Lemma recordConsumerPassFailure_keeps (locked : gset ConsumerKey) (now : Z) (cs : Consumers) (key : ConsumerKey)
    (msg : string) (cur : option Z) (c : ConsumerStateRow) :
  cs !! key = Some c → same_progress c (recordConsumerPassFailure locked now cs key msg cur !! key).
Proof.
  intros Hc. unfold recordConsumerPassFailure, selectConsumerForUpdateSkipLocked.
  assert (same_progress c (cs !! key)) by by exists c.
  destruct (decide _); [done|]. rewrite Hc.
  destruct cur as [cur|]; [destruct (_ =? _); [|done]|];
    (eexists; split; [by rewrite lookup_insert_eq|done]).
Qed.

Lemma warn_keeps_backoff m key n : consumerBackoff (warnOnceOnLargeGapSet m key n).2 = consumerBackoff m.
Proof. unfold warnOnceOnLargeGapSet. by destruct (_ || _). Qed.

Lemma pass_failed_result {W : Type} (res : PassResult) (m m1 : DispatcherMem) (key : ConsumerKey)
    (lockedAfter : option (gset ConsumerKey))
    (now nowMs : Z) (cs : Consumers) (msg : string) (cur : option Z) (w : W) (c : ConsumerStateRow)
    (failure : InfraFailure) :
  cs !! key = Some c →
  0 ≤ from_option consecutiveFailures 0 (consumerBackoff m !! turnKey key) →
  consumerBackoff m1 = consumerBackoff m → failure ≠ NoFailure →
  let '(_, m', cs', _) :=
    (let '(cs', m') := pass_failed_with m1 key lockedAfter now nowMs cs msg cur in (res, m', cs', w)) in
  (consumerBackoff m' !! turnKey key = None) ∨
  (failure ≠ NoFailure ∧ same_progress c (cs' !! key) ∧
   ∃ b, consumerBackoff m' !! turnKey key = Some b ∧
     consecutiveFailures b = from_option consecutiveFailures 0 (consumerBackoff m !! turnKey key) + 1 ∧
     nowMs + 1000 ≤ retryAtMs b ≤ nowMs + 60000 ∧
     backoffDelayMs (consecutiveFailures b) ≤ backoffDelayMs (consecutiveFailures b + 1)).
Proof.
  intros Hc Hpos Hm Hf. simpl. right. split; [done|]. split.
  - destruct lockedAfter; [by apply recordConsumerPassFailure_keeps|by exists c].
  - eexists. rewrite lookup_insert_eq. split; [done|]. rewrite Hm. simpl.
    set (n := from_option _ _ _) in *.
    pose proof (backoffDelayMs_bounds (n + 1) ltac:(lia)).
    pose proof (backoffDelayMs_monotone (n + 1) ltac:(lia)). lia.
Qed.

(** ** Properties *)

(** C11: what a turn persists is exact.  For a well-formed consumer row and any
    view of the log, the pending gaps a turn writes watch precisely the ids at
    or below the new cursor that were open (kept in a surviving range, or
    passed over between the old and the new cursor) and were not taken this
    turn; they stay sorted, disjoint and non-empty, the cursor never moves
    back, and only visible rows are taken. *)
Theorem turn_persists_exactly_the_open_ids {W : Type} generateId o (consumer : EventConsumer W) obs
    state w outcome gaps w' :
  (0 < batchSize o)%nat → NoDup (row_id <$> ob_fetch obs) →
  gaps_ok (cs_lastProcessedEventId state) (cs_pendingGaps state) →
  run_turn generateId o consumer obs state w = (TurnDone outcome gaps, w') →
  let start := cs_lastProcessedEventId state in
  let taken := taken_ids start (turn_delivery generateId o consumer obs state w).1.1 outcome in
  start ≤ do_cursor outcome ∧ gaps_ok (do_cursor outcome) gaps ∧
  (∀ i, watched gaps i ↔
     (watched (turn_partition o consumer obs state).2 i ∨ start < i ≤ do_cursor outcome) ∧ i ∉ taken) ∧
  (∀ i, i ∈ taken → i ∈ row_id <$> ob_fetch obs).
Proof.
  intros Hb Hn Hg Hrun start taken.
  destruct (run_turn_spec generateId o consumer obs state w Hb Hn Hg outcome gaps w' Hrun)
    as (Hok & Hm & _ & Hw & _ & Ht).
  done.
Qed.

Definition gap_state : ConsumerStateRow := mkConsumer 6 Idle 0 0 [mkGap 3 4 50] None None 0.

Lemma turn_persists_exactly_the_open_ids_witness :
  let r := run_turn (λ _, ("c", "r")) default_options poison_consumer
             (mkObs 40 (poison_row <$> [4; 9]) (poison_row <$> [4; 9]) 60) gap_state O in
  match r.1 with
  | TurnDone outcome gaps => gaps = [mkGap 3 3 50; mkGap 7 8 60] ∧ ∀ i, watched gaps i → i ≤ 9
  | _ => False
  end.
Proof.
  intros r. destruct r as [res w'] eqn:E. destruct res as [| |outcome gaps];
    [vm_compute in E; discriminate E..|]. simpl.
  assert (Hc : do_cursor outcome = 9 ∧ gaps = [mkGap 3 3 50; mkGap 7 8 60])
    by (vm_compute in E; injection E as <- <- <-; split; reflexivity).
  destruct Hc as [Hc ->]. split; [reflexivity|]. rewrite <- Hc.
  apply (turn_persists_exactly_the_open_ids (λ _, ("c", "r")) default_options poison_consumer
    (mkObs 40 (poison_row <$> [4; 9]) (poison_row <$> [4; 9]) 60) gap_state O outcome _ w').
  - unfold default_options, DEFAULT_BATCH_SIZE; simpl; lia.
  - vm_compute. repeat constructor; set_solver.
  - split; [repeat constructor; unfold gap_ok; simpl; lia|repeat constructor|].
    intros i (g & Hg & Hi). apply list_elem_of_singleton in Hg as ->. unfold in_gap in Hi; simpl in *. lia.
  - exact E.
Defined.

(** In every run of the slot semaphore the turns that hold a slot are
    counted exactly and never exceed four; a turn waits only while all four
    are taken, and releasing twice frees one slot. *)
Theorem turn_slots_bounded s :
  rtc slot_step noSlots s →
  size (sl_running s) = sl_active s ∧ (sl_active s ≤ 4)%nat ∧
  (sl_waiters s ≠ [] → size (sl_running s) = 4%nat) ∧
  ∀ t, t ∈ sl_held s → releaseSlot t (releaseSlot t s) = releaseSlot t s.
Proof.
  intros Hr. destruct (slots_reachable_ok s Hr) as [H1 H2 H3 _ _].
  split; [done|]. split; [exact H2|]. split; [intros Hne; rewrite H1; by apply H3|].
  intros t _. unfold releaseSlot at 1. rewrite bool_decide_eq_true_2; [done|].
  unfold releaseSlot. case_bool_decide; [done|]. destruct (sl_waiters s); simpl; set_solver.
Qed.

Lemma turn_slots_bounded_witness :
  sl_active (acquireConsumerTurnSlot 1 (releaseSlot 0 (acquireConsumerTurnSlot 0 noSlots))) = 1%nat ∧
  (sl_active (acquireConsumerTurnSlot 1 (releaseSlot 0 (acquireConsumerTurnSlot 0 noSlots))) ≤ 4)%nat.
Proof.
  split; [reflexivity|]. apply turn_slots_bounded.
  eapply rtc_l; [apply (slot_acquire 0); set_solver|].
  eapply rtc_l; [apply (slot_release 0); set_solver|].
  eapply rtc_l; [apply (slot_acquire 1); vm_compute; set_solver|]. apply rtc_refl.
Defined.

(** A pass either completes or costs nothing.  If it completes, the
    consumer's backoff is cleared, and a pass without an infrastructure error
    always completes.  If an infrastructure error strikes, wherever it strikes,
    the cursor, the pending gaps, the attempts, the status and the re-arm
    budget of the row stay as they were, the failure count grows by one and the
    next turn is at least one second and at most one minute away, never sooner
    than after the previous failure. *)
Theorem pass_completes_or_costs_nothing {W : Type} (generateId : W → string * string)
    (o : DispatcherOptions) (consumer : EventConsumer W) (key : ConsumerKey) (locked : gset ConsumerKey)
    (lockedAfter : option (gset ConsumerKey)) (now nowMs : Z) (obs : Observation)
    (failure : InfraFailure) (m : DispatcherMem) (cs : Consumers) (w : W) (c : ConsumerStateRow) :
  cs !! key = Some c →
  0 ≤ from_option consecutiveFailures 0 (consumerBackoff m !! turnKey key) →
  let '(_, m', cs', _) := processConsumer generateId o consumer key locked lockedAfter now nowMs obs
                            failure m cs w in
  (consumerBackoff m' !! turnKey key = None) ∨
  (failure ≠ NoFailure ∧ same_progress c (cs' !! key) ∧
   ∃ b, consumerBackoff m' !! turnKey key = Some b ∧
     consecutiveFailures b = from_option consecutiveFailures 0 (consumerBackoff m !! turnKey key) + 1 ∧
     nowMs + 1000 ≤ retryAtMs b ≤ nowMs + 60000 ∧
     backoffDelayMs (consecutiveFailures b) ≤ backoffDelayMs (consecutiveFailures b + 1)).
Proof.
  intros Hc Hpos. unfold processConsumer.
  destruct failure as [|msg|msg|msg].
  2: by apply pass_failed_result.
  all: destruct (acquireConsumerState _ _ _ _ _ _) as [[st|reason] cs1];
    [|left; simpl; by rewrite lookup_delete_eq].
  2: by apply pass_failed_result.
  all: destruct (run_turn _ _ _ _ _ _) as [[r| |out gaps] w1]; try (left; simpl; by rewrite lookup_delete_eq).
  apply pass_failed_result; [done|done| |done]. by rewrite warn_keeps_backoff.
Qed.

Lemma pass_completes_or_costs_nothing_witness :
  let r := processConsumer (λ _, ("c", "r")) default_options poison_consumer ("mail", "__shared__") ∅
             (Some ∅) 7 100 (mkObs 40 (poison_row <$> [4; 9]) [] 60) (FailsAfterDelivery "connection lost")
             emptyMem {[("mail", "__shared__") := gap_state]} O in
  r.1.1.1 = mkPass 2 0 ∧
  (consumerBackoff r.1.1.2 !! "mail:__shared__" = None ∨ same_progress gap_state (r.1.2 !! ("mail", "__shared__"))).
Proof.
  intros r. split; [reflexivity|].
  pose proof (pass_completes_or_costs_nothing (λ _, ("c", "r")) default_options poison_consumer
    ("mail", "__shared__") ∅ (Some ∅) 7 100 (mkObs 40 (poison_row <$> [4; 9]) [] 60)
    (FailsAfterDelivery "connection lost") emptyMem {[("mail", "__shared__") := gap_state]} O gap_state
    eq_refl ltac:(reflexivity || discriminate)) as H.
  fold r in H. destruct r as [[[p m'] cs'] w']. destruct H as [H|(_ & H & _)]; [by left|by right].
Defined.
