(* ===== verification/DispatcherSafety.v ===== *)
(** * No committed event is passed over

    The dispatcher's turns interleaved with concurrent writers.  Writers claim
    a transaction id before they draw event ids ([append]'s [claimXactId]), an
    uncommitted row is invisible, and ids become visible in any order.  A turn
    of one consumer reads the horizon, the events, the events again and the
    snapshot bound at different moments, with writer steps in between, and
    commits [Dispatcher.turn_tx] on what it saw, or rolls back. *)

From S2P Require Import Prelude GapRanges EventLog EventStore ConsumerState Delivery Dispatcher.

Open Scope Z_scope.

(** ** Writers *)

Record World := mkWorld {
  wd_committed : list StoredEventRow;
  wd_inflight : gmap Z (list StoredEventRow);
  wd_nextXid : Z;
  wd_nextId : Z;
  wd_lastCompleted : Z }.

Inductive writer_step : World → World → Prop :=
| writer_begin wd :
    writer_step wd (mkWorld (wd_committed wd) (<[wd_nextXid wd := []]> (wd_inflight wd))
                      (wd_nextXid wd + 1) (wd_nextId wd) (wd_lastCompleted wd))
| writer_insert wd x rows row :
    wd_inflight wd !! x = Some rows → row_id row = wd_nextId wd →
    writer_step wd (mkWorld (wd_committed wd) (<[x := rows ++ [row]]> (wd_inflight wd))
                      (wd_nextXid wd) (wd_nextId wd + 1) (wd_lastCompleted wd))
| writer_burn wd :
    writer_step wd (mkWorld (wd_committed wd) (wd_inflight wd) (wd_nextXid wd) (wd_nextId wd + 1)
                      (wd_lastCompleted wd))
| writer_commit wd x rows :
    wd_inflight wd !! x = Some rows →
    writer_step wd (mkWorld (wd_committed wd ++ rows) (delete x (wd_inflight wd)) (wd_nextXid wd)
                      (wd_nextId wd) (Z.max x (wd_lastCompleted wd)))
| writer_abort wd x rows :
    wd_inflight wd !! x = Some rows →
    writer_step wd (mkWorld (wd_committed wd) (delete x (wd_inflight wd)) (wd_nextXid wd)
                      (wd_nextId wd) (Z.max x (wd_lastCompleted wd))).

(** A row that is visible, or may still become so. *)
Definition alive (wd : World) (i : Z) : Prop :=
  i ∈ row_id <$> wd_committed wd ∨
  ∃ x rows, wd_inflight wd !! x = Some rows ∧ i ∈ row_id <$> rows.

(** The transaction that holds the uncommitted row. *)
Definition holds (wd : World) (x i : Z) : Prop :=
  ∃ rows, wd_inflight wd !! x = Some rows ∧ i ∈ row_id <$> rows.

(** Transaction ids and event ids are given out once, and a row belongs to one
    transaction. *)
Record world_ok (wd : World) : Prop := {
  wo_xids : ∀ x rows, wd_inflight wd !! x = Some rows → x < wd_nextXid wd;
  wo_completed : wd_lastCompleted wd < wd_nextXid wd;
  wo_ids : ∀ i, alive wd i → i < wd_nextId wd;
  wo_committed : NoDup (row_id <$> wd_committed wd);
  wo_rows : ∀ x rows, wd_inflight wd !! x = Some rows → NoDup (row_id <$> rows);
  wo_apart : ∀ x i, holds wd x i → i ∉ row_id <$> wd_committed wd ∧
    ∀ y, holds wd y i → y = x }.

(** ** Turns *)

Record TurnProgress := mkProgress {
  tp_now : Z;
  tp_xmin : Z;
  tp_fetch : option (list StoredEventRow);
  tp_withhold : option (list StoredEventRow);
  tp_xmax : option Z }.

(** [sys_taken] records the ids the consumer's code has taken. *)
Record System (W : Type) := mkSystem {
  sys_world : World;
  sys_consumers : Consumers;
  sys_turn : option TurnProgress;
  sys_taken : list Z;
  sys_w : W }.
Arguments mkSystem {W}.
Arguments sys_world {W}.
Arguments sys_consumers {W}.
Arguments sys_turn {W}.
Arguments sys_taken {W}.
Arguments sys_w {W}.

(** What Postgres reports about a snapshot of the world. *)
Class SnapshotBounds := {
  xminAt : World → Z;
  xmaxAt : World → Z }.

(** What Postgres documents about xmin: no transaction in progress is below it,
    and none that begins later either. *)
Class SnapshotLaws `{SnapshotBounds} : Prop := {
  xmin_below : ∀ wd x rows, world_ok wd → wd_inflight wd !! x = Some rows → xminAt wd ≤ x;
  xmin_next : ∀ wd, world_ok wd → xminAt wd ≤ wd_nextXid wd }.

Section system.
Context `{SB : SnapshotBounds}.
Context {W : Type} (generateId : W → string * string) (o : DispatcherOptions)
  (consumer : EventConsumer W) (key : ConsumerKey).

Definition taken_by_turn (obs : Observation) (cs : Consumers) (now : Z) (w : W) : list Z :=
  match acquireConsumerState ∅ now cs key (rearmCooldownMs o) (maxRearmCount o) with
  | (Acquired state, _) =>
      match run_turn generateId o consumer obs state w with
      | (TurnDone outcome _, _) =>
          taken_ids (cs_lastProcessedEventId state)
            (turn_delivery generateId o consumer obs state w).1.1 outcome
      | _ => []
      end
  | _ => []
  end.

Inductive sys_step : System W → System W → Prop :=
| sys_writer wd wd' cs t taken w :
    writer_step wd wd' → sys_step (mkSystem wd cs t taken w) (mkSystem wd' cs t taken w)
| sys_start wd cs taken w now :
    sys_step (mkSystem wd cs None taken w)
             (mkSystem wd cs (Some (mkProgress now (xminAt wd) None None None)) taken w)
| sys_fetch wd cs now xmin taken w :
    sys_step (mkSystem wd cs (Some (mkProgress now xmin None None None)) taken w)
             (mkSystem wd cs (Some (mkProgress now xmin (Some (wd_committed wd)) None None)) taken w)
| sys_withhold wd cs now xmin rows taken w :
    sys_step (mkSystem wd cs (Some (mkProgress now xmin (Some rows) None None)) taken w)
             (mkSystem wd cs (Some (mkProgress now xmin (Some rows) (Some (wd_committed wd)) None)) taken w)
| sys_xmax wd cs now xmin rows rows' taken w :
    sys_step (mkSystem wd cs (Some (mkProgress now xmin (Some rows) (Some rows') None)) taken w)
             (mkSystem wd cs (Some (mkProgress now xmin (Some rows) (Some rows') (Some (xmaxAt wd)))) taken w)
| sys_commit wd cs now xmin rows rows' xmax taken w res cs' w' :
    let obs := mkObs xmin rows rows' xmax in
    turn_tx generateId o consumer key ∅ now obs cs w = (res, cs', w') →
    sys_step (mkSystem wd cs (Some (mkProgress now xmin (Some rows) (Some rows') (Some xmax))) taken w)
             (mkSystem wd cs' None (taken ++ taken_by_turn obs cs now w) w')
| sys_rollback wd cs t taken w w' :
    sys_step (mkSystem wd cs (Some t) taken w) (mkSystem wd cs None taken w').

(** The bound a turn samples lies above every open writer that has drawn an id
    below one the turn fetched. *)
Definition samples_above_writers (s s' : System W) : Prop :=
  match sys_turn s, sys_turn s' with
  | Some (mkProgress _ _ (Some F) _ None), Some (mkProgress _ _ _ _ (Some m)) =>
      ∀ x i r, holds (sys_world s) x i → r ∈ F → i ≤ row_id r → x < m
  | _, _ => True
  end.

Definition sampled_step (s s' : System W) : Prop := sys_step s s' ∧ samples_above_writers s s'.

(** ** The invariant *)

(** The consumer's row covers every id it has moved past. *)
Record covers (wd : World) (c : ConsumerStateRow) (taken : list Z) : Prop := {
  cv_gaps : gaps_ok (cs_lastProcessedEventId c) (cs_pendingGaps c);
  cv_cursor : cs_lastProcessedEventId c < wd_nextId wd;
  cv_all : ∀ i, alive wd i → i ≤ cs_lastProcessedEventId c →
    i ∈ taken ∨ watched (cs_pendingGaps c) i;
  cv_bounds : ∀ g x i, g ∈ cs_pendingGaps c → in_gap g i → holds wd x i → x < gap_xmax g }.

(** What a turn in progress may still rely on. *)
Record progress_ok (wd : World) (c : ConsumerStateRow) (t : TurnProgress) : Prop := {
  pg_xmin : (∀ x rows, wd_inflight wd !! x = Some rows → tp_xmin t ≤ x) ∧ tp_xmin t ≤ wd_nextXid wd;
  pg_fetch : ∀ F, tp_fetch t = Some F →
    NoDup (row_id <$> F) ∧ (∀ r, r ∈ F → row_id r < wd_nextId wd) ∧
    (∀ i, alive wd i → i ≤ cs_lastProcessedEventId c → i ∉ row_id <$> F →
       ∀ g, g ∈ cs_pendingGaps c → in_gap g i → tp_xmin t < gap_xmax g);
  pg_xmax : ∀ F m, tp_fetch t = Some F → tp_xmax t = Some m →
    ∀ x i r, holds wd x i → r ∈ F → i ≤ row_id r → x < m;
  pg_order : tp_fetch t = None → tp_xmax t = None }.

Definition sys_ok (s : System W) : Prop :=
  world_ok (sys_world s) ∧
  ∃ c, sys_consumers s !! key = Some c ∧ covers (sys_world s) c (sys_taken s) ∧
    ∀ t, sys_turn s = Some t → progress_ok (sys_world s) c t.

(** A world with any history, and a consumer registered at the beginning. *)
Definition sys_initial (s : System W) : Prop :=
  world_ok (sys_world s) ∧ 0 < wd_nextId (sys_world s) ∧
  (∀ i, alive (sys_world s) i → 0 < i) ∧
  sys_turn s = None ∧ sys_taken s = [] ∧
  ∃ now, sys_consumers s !! key = Some (fresh_consumer 0 [] now).

End system.

(** ** Writers keep everything *)

Lemma holds_alive wd x i : holds wd x i → alive wd i.
Proof. intros (rows & Hx & Hi). right. by exists x, rows. Qed.

(** What a writer step can change: only the id it draws is new, and only the
    transaction it begins. *)
Record world_moves (wd wd' : World) : Prop := {
  wm_alive : ∀ i, alive wd' i → i < wd_nextId wd → alive wd i;
  wm_holds : ∀ x i, holds wd' x i → i < wd_nextId wd → holds wd x i;
  wm_inflight : ∀ x rows, wd_inflight wd' !! x = Some rows →
    x = wd_nextXid wd ∨ is_Some (wd_inflight wd !! x);
  wm_nextId : wd_nextId wd ≤ wd_nextId wd';
  wm_nextXid : wd_nextXid wd ≤ wd_nextXid wd' }.

Lemma holds_insert_row wd x rows row y i nx ni lc :
  wd_inflight wd !! x = Some rows →
  holds (mkWorld (wd_committed wd) (<[x := rows ++ [row]]> (wd_inflight wd)) nx ni lc) y i →
  (y = x ∧ i = row_id row) ∨ holds wd y i.
Proof.
  intros Hx (rs & Hy & Hi). simpl in Hy. destruct (decide (y = x)) as [->|Hne].
  - rewrite lookup_insert_eq in Hy. injection Hy as <-. rewrite fmap_app, elem_of_app in Hi.
    destruct Hi as [Hi|Hi]; [right; by exists rows|left; set_solver].
  - rewrite lookup_insert_ne in Hy by done. right. by exists rs.
Qed.

Lemma alive_cases wd i : alive wd i ↔ i ∈ row_id <$> wd_committed wd ∨ ∃ x, holds wd x i.
Proof.
  unfold alive, holds. split; (intros [Hi|(x & rows & Hi)]; [by left|right; by exists x, rows]).
Qed.

Lemma holds_delete wd x y i c nx ni lc :
  holds (mkWorld c (delete x (wd_inflight wd)) nx ni lc) y i → y ≠ x ∧ holds wd y i.
Proof.
  intros (rs & Hy & Hi). simpl in Hy. apply lookup_delete_Some in Hy as [Hne Hy].
  split; [done|]. by exists rs.
Qed.

Lemma writer_moves wd wd' : writer_step wd wd' → world_ok wd → world_moves wd wd'.
Proof.
  intros Hstep Hok. destruct Hstep as [wd|wd x rows row Hx Hrow|wd|wd x rows Hx|wd x rows Hx].
  - assert (Hh : ∀ y i, holds (mkWorld (wd_committed wd) (<[wd_nextXid wd:=[]]> (wd_inflight wd))
        (wd_nextXid wd + 1) (wd_nextId wd) (wd_lastCompleted wd)) y i → holds wd y i).
    { intros y i (rs & Hy & Hi). simpl in Hy. apply lookup_insert_Some in Hy as [[_ <-]|[_ Hy]];
        [set_solver|by exists rs]. }
    split; simpl; try lia.
    + intros i Hi _. apply alive_cases in Hi as [Hi|[y Hi]]; [by left|].
      eapply holds_alive, Hh, Hi.
    + intros y i Hi _. by apply Hh.
    + intros y rs Hy. apply lookup_insert_Some in Hy as [[-> _]|[_ Hy]]; [by left|right; eauto].
  - assert (Hh := λ y i, holds_insert_row wd x rows row y i (wd_nextXid wd) (wd_nextId wd + 1)
        (wd_lastCompleted wd) Hx).
    split; simpl; try lia.
    + intros i Hi Hlt. apply alive_cases in Hi as [Hi|[y Hi]]; [by left|].
      apply Hh in Hi as [[_ ->]|Hi]; [lia|by eapply holds_alive].
    + intros y i Hi Hlt. apply Hh in Hi as [[_ ->]|Hi]; [lia|done].
    + intros y rs Hy. apply lookup_insert_Some in Hy as [[<- _]|[_ Hy]]; right; eauto.
  - split; simpl; try lia; try done. intros y rs Hy. right; eauto.
  - split; simpl; try lia.
    + intros i Hi _. apply alive_cases in Hi as [Hi|[y Hi]].
      * simpl in Hi. rewrite fmap_app, elem_of_app in Hi. destruct Hi as [Hi|Hi]; [by left|].
        right. by exists x, rows.
      * apply holds_delete in Hi as [_ Hi]. by eapply holds_alive.
    + intros y i Hi _. apply holds_delete in Hi. tauto.
    + intros y rs Hy. apply lookup_delete_Some in Hy as [_ Hy]. right; eauto.
  - split; simpl; try lia.
    + intros i Hi _. apply alive_cases in Hi as [Hi|[y Hi]]; [by left|].
      apply holds_delete in Hi as [_ Hi]. by eapply holds_alive.
    + intros y i Hi _. apply holds_delete in Hi. tauto.
    + intros y rs Hy. apply lookup_delete_Some in Hy as [_ Hy]. right; eauto.
Qed.

Lemma insert_ok wd x rows row : wd_inflight wd !! x = Some rows → row_id row = wd_nextId wd → world_ok wd →
  world_ok (mkWorld (wd_committed wd) (<[x := rows ++ [row]]> (wd_inflight wd)) (wd_nextXid wd) (wd_nextId wd + 1)
              (wd_lastCompleted wd)).
Proof.
  intros Hx Hrow [H1 H2 H3 H4 H5 H6].
  assert (Hh := λ y i, holds_insert_row wd x rows row y i (wd_nextXid wd) (wd_nextId wd + 1)
      (wd_lastCompleted wd) Hx).
  assert (Hnew : ∀ i, alive wd i → i ≠ row_id row) by (intros i Hi ->; specialize (H3 _ Hi); lia).
  split; simpl; try done; try lia.
  + intros y rs Hy. apply lookup_insert_Some in Hy as [[<- _]|[_ Hy]]; by eapply H1.
  + intros i Hi. apply alive_cases in Hi as [Hi|[y Hi]].
    * assert (alive wd i) as Ha by by left. specialize (H3 i Ha). lia.
    * apply Hh in Hi as [[_ ->]|Hi]; [lia|]. apply holds_alive in Hi. specialize (H3 i Hi). lia.
  + intros y rs Hy. apply lookup_insert_Some in Hy as [[_ <-]|[_ Hy]]; [|by eapply H5].
    rewrite fmap_app. apply NoDup_app. split_and!; [by eapply H5| |apply NoDup_singleton].
    intros i Hi Hin. apply list_elem_of_singleton in Hin as ->.
    apply (Hnew (row_id row)); [right; by exists x, rows|done].
  + intros y i Hi. apply Hh in Hi as [[-> ->]|Hi].
    * split; [intros Hin; by apply (Hnew (row_id row)); [left|]|].
      intros z Hz. apply Hh in Hz as [[-> _]|Hz]; [done|].
      apply holds_alive, Hnew in Hz. done.
    * destruct (H6 y i Hi) as [Hn Hu]. split; [done|]. intros z Hz.
      apply Hh in Hz as [[_ ->]|Hz]; [|by apply Hu]. apply holds_alive, Hnew in Hi. done.
Qed.

Lemma turn_commit_ok wd x rows : wd_inflight wd !! x = Some rows → world_ok wd →
  world_ok (mkWorld (wd_committed wd ++ rows) (delete x (wd_inflight wd)) (wd_nextXid wd) (wd_nextId wd)
              (Z.max x (wd_lastCompleted wd))).
Proof.
  intros Hx Hok. pose proof (writer_moves wd _ (writer_commit wd x rows Hx) Hok) as Hm.
  destruct Hok as [H1 H2 H3 H4 H5 H6].
  split; simpl; try done.
  + intros y rs Hy. apply lookup_delete_Some in Hy as [_ Hy]. by eapply H1.
  + specialize (H1 x rows Hx). lia.
  + intros i Hi. apply H3. destruct (Z_lt_le_dec i (wd_nextId wd)); [by apply (wm_alive _ _ Hm)|].
    apply alive_cases in Hi as [Hi|[y Hi]].
    * simpl in Hi. rewrite fmap_app, elem_of_app in Hi. destruct Hi as [Hi|Hi]; [by left|].
      right. by exists x, rows.
    * apply holds_delete in Hi as [_ Hi]. by eapply holds_alive.
  + rewrite fmap_app. apply NoDup_app. split_and!; [done| |by eapply H5].
    intros i Hi Hi'. destruct (H6 x i) as [Hn _]; [by exists rows|done].
  + intros y rs Hy. apply lookup_delete_Some in Hy as [_ Hy]. by eapply H5.
  + intros y i Hi. apply holds_delete in Hi as [Hne Hi]. destruct (H6 y i Hi) as [Hn Hu]. split.
    * rewrite fmap_app, elem_of_app. intros [Hin|Hin]; [done|].
      apply Hne. symmetry. apply Hu. by exists rows.
    * intros z Hz. apply holds_delete in Hz as [_ Hz]. by apply Hu.
Qed.

Lemma writer_ok wd wd' : writer_step wd wd' → world_ok wd → world_ok wd'.
Proof.
  intros Hstep Hok. pose proof Hok as [H1 H2 H3 H4 H5 H6].
  destruct Hstep as [wd|wd x rows row Hx Hrow|wd|wd x rows Hx|wd x rows Hx].
  - split; simpl; try done; try lia.
    + intros y rs Hy. apply lookup_insert_Some in Hy as [[<- _]|[_ Hy]]; [lia|].
      specialize (H1 y rs Hy). lia.
    + intros i Hi. destruct (Z_lt_le_dec i (wd_nextId wd)) as [|Hge]; [done|].
      apply alive_cases in Hi as [Hi|[y (rs & Hy & Hi)]]; [apply H3; by left|].
      simpl in Hy. apply lookup_insert_Some in Hy as [[_ <-]|[_ Hy]]; [set_solver|].
      apply H3. right. by exists y, rs.
    + intros y rs Hy. apply lookup_insert_Some in Hy as [[_ <-]|[_ Hy]]; [constructor|by eapply H5].
    + assert (Hh : ∀ y i, holds (mkWorld (wd_committed wd) (<[wd_nextXid wd:=[]]> (wd_inflight wd))
        (wd_nextXid wd + 1) (wd_nextId wd) (wd_lastCompleted wd)) y i → holds wd y i).
      { intros y i (rs & Hy & Hi). simpl in Hy. apply lookup_insert_Some in Hy as [[_ <-]|[_ Hy]];
          [set_solver|by exists rs]. }
      intros y i Hi%Hh. destruct (H6 y i Hi) as [Hn Hu]. split; [done|]. intros z Hz%Hh. by apply Hu.
  - by apply insert_ok.
  - split; simpl; try done. intros i Hi. specialize (H3 i Hi). lia.
  - by apply turn_commit_ok.
  - split; simpl; try done.
    + intros y rs Hy. apply lookup_delete_Some in Hy as [_ Hy]. by eapply H1.
    + specialize (H1 x rows Hx). lia.
    + intros i Hi. apply H3. apply alive_cases in Hi as [Hi|[y Hi]]; [by left|].
      apply holds_delete in Hi as [_ Hi]. by eapply holds_alive.
    + intros y rs Hy. apply lookup_delete_Some in Hy as [_ Hy]. by eapply H5.
    + intros y i Hi. apply holds_delete in Hi as [Hne Hi]. destruct (H6 y i Hi) as [Hn Hu].
      split; [done|]. intros z Hz. apply holds_delete in Hz as [_ Hz]. by apply Hu.
Qed.

Lemma covers_moves wd wd' c taken : world_moves wd wd' → covers wd c taken → covers wd' c taken.
Proof.
  intros Hm [Hg Hc Ha Hb]. pose proof (wm_nextId _ _ Hm). split; [done|lia|..].
  - intros i Hi Hle. apply Ha; [|done]. apply (wm_alive _ _ Hm); [done|lia].
  - intros g x i Hin Hi Hh. apply (Hb g x i Hin Hi). apply (wm_holds _ _ Hm); [done|].
    destruct Hg as [_ _ Hbel]. assert (i ≤ cs_lastProcessedEventId c) by (apply Hbel; by exists g). lia.
Qed.

Lemma progress_moves wd wd' c taken t :
  world_moves wd wd' → covers wd c taken → progress_ok wd c t → progress_ok wd' c t.
Proof.
  intros Hm [_ Hc _ _] [[Hx1 Hx2] Hf Hxm Ho]. pose proof (wm_nextId _ _ Hm). pose proof (wm_nextXid _ _ Hm).
  split; [split; [|lia]|..].
  - intros x rows Hx. destruct (wm_inflight _ _ Hm x rows Hx) as [->|[rs Hrs]]; [done|by eapply Hx1].
  - intros F HF. destruct (Hf F HF) as (Hnd & Hlt & Hp). split_and!; [done|..].
    + intros r Hr. specialize (Hlt r Hr). lia.
    + intros i Hi Hle. apply Hp; [|done]. apply (wm_alive _ _ Hm); [done|lia].
  - intros F m HF Hmx x i r Hh Hr Hle. destruct (Hf F HF) as (_ & Hlt & _).
    apply (Hxm F m HF Hmx x i r); [|done|done]. apply (wm_holds _ _ Hm); [done|].
    specialize (Hlt r Hr). lia.
  - done.
Qed.

(** ** Turns keep the invariant *)

Lemma acquire_spec now cs key cooldown maxRearm c r cs' :
  cs !! key = Some c → acquireConsumerState ∅ now cs key cooldown maxRearm = (r, cs') →
  match r with
  | Skipped _ => cs' = cs
  | Acquired st => cs' !! key = Some st ∧
      cs_lastProcessedEventId st = cs_lastProcessedEventId c ∧ cs_pendingGaps st = cs_pendingGaps c
  end.
Proof.
  intros Hc. unfold acquireConsumerState, selectConsumerForUpdateSkipLocked.
  rewrite decide_False by set_solver. rewrite Hc.
  destruct (cs_status c) eqn:Hst; try (intros [= <- <-]; by rewrite ?Hc).
  destruct (_ && _); [|by intros [= <- <-]].
  unfold rearmDeadConsumer. destruct (update_returning_found
    (λ c, mkConsumer (cs_lastProcessedEventId c) Idle 0 (cs_rearmCount c + 1) (cs_pendingGaps c)
            (cs_lastFailedEventId c) None now) cs key c Hc) as [-> Hl].
  intros [= <- <-]. done.
Qed.

Lemma persist_lookup now cs key st outcome gaps :
  cs !! key = Some st →
  ∃ c', persistConsumerOutcome now (markProcessing now cs key) key outcome gaps !! key = Some c' ∧
    cs_lastProcessedEventId c' = do_cursor outcome ∧ cs_pendingGaps c' = gaps.
Proof.
  intros Hs. unfold persistConsumerOutcome, updateConsumerDeliveryOutcome, markProcessing, markConsumerProcessing.
  rewrite !lookup_alter_eq, Hs. simpl. by eexists.
Qed.

Section turns.
Context `{SL : SnapshotLaws}.
Context {W : Type} (generateId : W → string * string) (o : DispatcherOptions)
  (consumer : EventConsumer W) (key : ConsumerKey) (Hb : (0 < batchSize o)%nat).
#[local] Set Default Proof Using "All".

Lemma start_progress wd c now : world_ok wd → progress_ok wd c (mkProgress now (xminAt wd) None None None).
Proof.
  intros Hok. split; simpl; try done.
  split; [intros x rows; by apply xmin_below|by apply xmin_next].
Qed.

Lemma fetch_progress wd c taken now xmin :
  world_ok wd → covers wd c taken → progress_ok wd c (mkProgress now xmin None None None) →
  progress_ok wd c (mkProgress now xmin (Some (wd_committed wd)) None None).
Proof.
  intros Hok [Hg Hc Ha Hbd] [[Hx1 Hx2] _ _ _]. split; simpl in *; try done.
  intros F [= <-]. split_and!; [apply (wo_committed _ Hok)|..].
  - intros r Hr. apply (wo_ids _ Hok). left. by apply list_elem_of_fmap_2.
  - intros i Hi Hle Hn g Hgi Hin. apply alive_cases in Hi as [Hi|[x Hx]]; [done|].
    specialize (Hbd g x i Hgi Hin Hx). destruct Hx as (rows & Hrows & _).
    specialize (Hx1 x rows Hrows). lia.
Qed.

Lemma xmax_progress wd c now xmin rows rows' m :
  (∀ x i r, holds wd x i → r ∈ rows → i ≤ row_id r → x < m) →
  progress_ok wd c (mkProgress now xmin (Some rows) (Some rows') None) →
  progress_ok wd c (mkProgress now xmin (Some rows) (Some rows') (Some m)).
Proof.
  intros Habove [Hx Hf _ _]. split; simpl in *; try done.
  intros F n [= <-] [= <-] x i r. apply Habove.
Qed.

(** The crux: a committed turn leaves every id at or below its cursor taken,
    watched or dead. *)
Lemma turn_covers wd c st taken now xmin rows rows' xmax w outcome gaps w' c' :
  let obs := mkObs xmin rows rows' xmax in
  world_ok wd → covers wd c taken →
  cs_lastProcessedEventId st = cs_lastProcessedEventId c → cs_pendingGaps st = cs_pendingGaps c →
  progress_ok wd c (mkProgress now xmin (Some rows) (Some rows') (Some xmax)) →
  run_turn generateId o consumer obs st w = (TurnDone outcome gaps, w') →
  cs_lastProcessedEventId c' = do_cursor outcome → cs_pendingGaps c' = gaps →
  covers wd c' (taken ++ taken_ids (cs_lastProcessedEventId st)
                           (turn_delivery generateId o consumer obs st w).1.1 outcome).
Proof.
  intros obs Hok [Hg Hc Ha Hbd] Hcur Hgaps [[Hx1 Hx2] Hf Hxm _] Hrun Hc' Hg'.
  destruct (Hf rows eq_refl) as (Hnd & Hlt & Hinv). simpl in Hlt, Hinv.
  rewrite <- Hcur, <- Hgaps in *.
  destruct (run_turn_spec generateId o consumer obs st w Hb Hnd Hg outcome gaps w' Hrun)
    as (Hgok & Hmono & Hat & Hw & Hxb & Htk).
  set (tk := taken_ids _ _ _) in *.
  assert (Hat' : ∀ i, cs_lastProcessedEventId st < i ≤ do_cursor outcome →
            ∃ r, r ∈ rows ∧ row_id r = do_cursor outcome).
  { intros i Hi. destruct Hat as [|(r & Hr & Hin)%list_elem_of_fmap]; [lia|]. by exists r. }
  split; rewrite ?Hc', ?Hg'.
  - done.
  - destruct Hat as [->|(r & -> & Hr)%list_elem_of_fmap]; [done|by apply Hlt].
  - intros i Hi Hle. rewrite elem_of_app, Hw.
    destruct (decide (i ∈ tk)) as [|Hntk]; [tauto|].
    destruct (Z_lt_le_dec (cs_lastProcessedEventId st) i) as [|Hold]; [right; split; [right; lia|done]|].
    destruct (Ha i Hi Hold) as [|(g & Hgin & Hig)]; [tauto|].
    destruct (decide (g ∈ (turn_partition o consumer obs st).2)) as [Hs|Hburnt].
    { right. split; [left; by exists g|done]. }
    exfalso. destruct (discarded_gap o consumer obs st Hb Hnd Hg g Hgin Hburnt) as [Hbound Hno].
    simpl in Hbound, Hno. destruct (decide (i ∈ row_id <$> rows)) as [Hvis|Hinvis].
    + apply list_elem_of_fmap in Hvis as (r & -> & Hr). by apply (Hno r).
    + specialize (Hinv i Hi Hold Hinvis g Hgin Hig). lia.
  - intros g x i Hgin Hi Hh. destruct (Hxb g i Hgin Hi) as [Hnew Hold].
    assert (Hwi : watched gaps i) by by exists g.
    apply Hw in Hwi as [[(h & Hh' & Hih)|Hrange] _].
    + assert (Hin : h ∈ cs_pendingGaps st).
      { unfold turn_partition in Hh'. rewrite partitionBurntGaps_spec in Hh'. simpl in Hh'.
        by apply list_elem_of_filter in Hh' as [_ ?]. }
      specialize (Hold h Hin Hih). specialize (Hbd h x i Hin Hih Hh). lia.
    + destruct (Hat' i Hrange) as (r & Hr & Hrc). specialize (Hnew ltac:(lia)). simpl in Hnew.
      assert (x < xmax) by (apply (Hxm rows xmax eq_refl eq_refl x i r Hh Hr); lia). lia.
Qed.

Lemma sys_step_ok (s s' : System W) :
  sampled_step generateId o consumer key s s' → sys_ok key s → sys_ok key s'.
Proof.
  intros [Hstep Habove] (Hok & c & Hc & Hcov & Hp). unfold samples_above_writers in Habove.
  destruct Hstep as [wd wd' cs t taken w Hw|wd cs taken w now|wd cs now xmin taken w
    |wd cs now xmin rows taken w|wd cs now xmin rows rows' taken w
    |wd cs now xmin rows rows' xmax taken w res cs' w' obs Htx|wd cs t taken w w']; simpl in *.
  - pose proof (writer_moves wd wd' Hw Hok) as Hm.
    split; [by eapply writer_ok|]. exists c. split_and!; [done|by eapply covers_moves|].
    intros t' Ht'. eapply progress_moves; [done..|by apply Hp].
  - split; [done|]. exists c. split_and!; [done|done|]. intros t [= <-]. by apply start_progress.
  - split; [done|]. exists c. split_and!; [done|done|]. intros t [= <-].
    eapply fetch_progress; [done|done|by apply Hp].
  - split; [done|]. exists c. split_and!; [done|done|]. intros t [= <-].
    destruct (Hp _ eq_refl) as [H1 H2 H3 H4]. split; done.
  - split; [done|]. exists c. split_and!; [done|done|]. intros t [= <-].
    apply xmax_progress; [exact Habove|by apply Hp].
  - split; [done|]. unfold turn_tx in Htx. unfold taken_by_turn.
    destruct (acquireConsumerState _ _ _ _ _ _) as [acq cs1] eqn:Hacq.
    apply (acquire_spec _ _ _ _ _ c) in Hacq; [|done]. destruct acq as [st|reason].
    + destruct Hacq as (Hst & Hcur & Hgaps).
      destruct (run_turn generateId o consumer obs st w) as [tr w1] eqn:Hrun. destruct tr as [r| |outcome gaps].
      * injection Htx as <- <- <-. exists st. rewrite app_nil_r. split_and!; [done| |done].
        destruct Hcov as [H1 H2 H3 H4]. split; by rewrite ?Hcur, ?Hgaps.
      * injection Htx as <- <- <-. exists st. rewrite app_nil_r. split_and!; [done| |done].
        destruct Hcov as [H1 H2 H3 H4]. split; by rewrite ?Hcur, ?Hgaps.
      * injection Htx as <- <- <-.
        destruct (persist_lookup now cs1 key st outcome gaps Hst) as (c' & Hc' & Hcc & Hcg).
        exists c'. split_and!; [done| |done].
        eapply turn_covers; [done|exact Hcov|done|done|by apply Hp|exact Hrun|done|done].
    + injection Htx as <- <- <-. subst cs1. exists c. rewrite app_nil_r. split_and!; done.
  - split; [done|]. exists c. split_and!; done.
Qed.

Lemma sys_initial_ok (s : System W) : sys_initial key s → sys_ok key s.
Proof.
  intros (Hok & Hn & Hpos & Ht & Htk & now & Hc). split; [done|]. exists (fresh_consumer 0 [] now).
  split_and!; [done| |by rewrite Ht]. split; simpl; try done.
  - split; [constructor|constructor|]. intros i Hi. by apply watched_nil in Hi.
  - intros i Hi Hle. specialize (Hpos i Hi). lia.
  - intros g x i Hg. by apply elem_of_nil in Hg.
Qed.

Lemma reachable_sys_ok (s0 s : System W) :
  sys_initial key s0 → rtc (sampled_step generateId o consumer key) s0 s → sys_ok key s.
Proof.
  intros H0 Hr. apply sys_initial_ok in H0. induction Hr; [done|]. eauto using sys_step_ok.
Qed.
End turns.

(** ** Schedules

    A schedule is an executable run of the system, for concrete examples. *)

Inductive Action :=
| ABegin
| AInsert (x : Z) (row : Z → StoredEventRow)
| ABurn
| ACommit (x : Z)
| AAbort (x : Z)
| TStart (now : Z)
| TFetch
| TWithhold
| TXmax
| TCommit.

Section schedule.
Context `{SB : SnapshotBounds}.
Context {W : Type} (generateId : W → string * string) (o : DispatcherOptions)
  (consumer : EventConsumer W) (key : string * string).

Definition exec_writer (a : Action) (wd : World) : option World :=
  match a with
  | ABegin => Some (mkWorld (wd_committed wd) (<[wd_nextXid wd := []]> (wd_inflight wd))
                      (wd_nextXid wd + 1) (wd_nextId wd) (wd_lastCompleted wd))
  | AInsert x row =>
      let r := row (wd_nextId wd) in
      rows ← wd_inflight wd !! x;
      if decide (row_id r = wd_nextId wd)
      then Some (mkWorld (wd_committed wd) (<[x := rows ++ [r]]> (wd_inflight wd))
                   (wd_nextXid wd) (wd_nextId wd + 1) (wd_lastCompleted wd))
      else None
  | ABurn => Some (mkWorld (wd_committed wd) (wd_inflight wd) (wd_nextXid wd) (wd_nextId wd + 1)
                     (wd_lastCompleted wd))
  | ACommit x =>
      rows ← wd_inflight wd !! x;
      Some (mkWorld (wd_committed wd ++ rows) (delete x (wd_inflight wd)) (wd_nextXid wd)
              (wd_nextId wd) (Z.max x (wd_lastCompleted wd)))
  | AAbort x =>
      _ ← wd_inflight wd !! x;
      Some (mkWorld (wd_committed wd) (delete x (wd_inflight wd)) (wd_nextXid wd)
              (wd_nextId wd) (Z.max x (wd_lastCompleted wd)))
  | _ => None
  end.

Definition above_writers (wd : World) (F : list StoredEventRow) (m : Z) : bool :=
  forallb (λ xr, forallb (λ w, forallb (λ r, negb (row_id w <=? row_id r) || (xr.1 <? m)) F) xr.2)
    (map_to_list (wd_inflight wd)).

(** With [guarded] a run stops where a sampled bound is not above the open
    writers. *)
Definition exec_action (guarded : bool) (a : Action) (s : System W) : option (System W) :=
  match a with
  | ABegin | AInsert _ _ | ABurn | ACommit _ | AAbort _ =>
      wd ← exec_writer a (sys_world s);
      Some (mkSystem wd (sys_consumers s) (sys_turn s) (sys_taken s) (sys_w s))
  | _ =>
      let turn t := Some (mkSystem (sys_world s) (sys_consumers s) t (sys_taken s) (sys_w s)) in
      match a, sys_turn s with
      | TStart now, None => turn (Some (mkProgress now (xminAt (sys_world s)) None None None))
      | TFetch, Some (mkProgress now xmin None None None) =>
          turn (Some (mkProgress now xmin (Some (wd_committed (sys_world s))) None None))
      | TWithhold, Some (mkProgress now xmin (Some rows) None None) =>
          turn (Some (mkProgress now xmin (Some rows) (Some (wd_committed (sys_world s))) None))
      | TXmax, Some (mkProgress now xmin (Some rows) (Some rows') None) =>
          if guarded && negb (above_writers (sys_world s) rows (xmaxAt (sys_world s))) then None
          else turn (Some (mkProgress now xmin (Some rows) (Some rows') (Some (xmaxAt (sys_world s)))))
      | TCommit, Some (mkProgress now xmin (Some rows) (Some rows') (Some xmax)) =>
          let obs := mkObs xmin rows rows' xmax in
          let '(_, cs', w') := turn_tx generateId o consumer key ∅ now obs (sys_consumers s) (sys_w s) in
          Some (mkSystem (sys_world s) cs' None
                  (sys_taken s ++ taken_by_turn generateId o consumer key obs (sys_consumers s) now (sys_w s)) w')
      | _, _ => None
      end
  end.

Fixpoint exec (guarded : bool) (acts : list Action) (s : System W) : option (System W) :=
  match acts with
  | [] => Some s
  | a :: acts' => s' ← exec_action guarded a s; exec guarded acts' s'
  end.

Lemma above_writers_sound wd F m x i r :
  above_writers wd F m = true → holds wd x i → r ∈ F → i ≤ row_id r → x < m.
Proof.
  unfold above_writers. intros Ha (rows & Hx & Hi) Hr Hle. apply list_elem_of_fmap in Hi as (w & -> & Hw).
  rewrite forallb_forall in Ha. specialize (Ha (x, rows)). rewrite <- list_elem_of_In, elem_of_map_to_list in Ha.
  specialize (Ha Hx). simpl in Ha. rewrite forallb_forall in Ha. specialize (Ha w).
  rewrite <- list_elem_of_In in Ha. specialize (Ha Hw). rewrite forallb_forall in Ha. specialize (Ha r).
  rewrite <- list_elem_of_In in Ha. specialize (Ha Hr). apply orb_true_iff in Ha as [Ha|Ha]; reflect_bools; lia.
Qed.

Lemma exec_writer_sound a wd wd' : exec_writer a wd = Some wd' → writer_step wd wd'.
Proof.
  destruct a; simpl; try done.
  - intros [= <-]. apply writer_begin.
  - destruct (wd_inflight wd !! x) as [rows|] eqn:E; [|done]. simpl. case_decide; [|done].
    intros [= <-]. by apply writer_insert.
  - intros [= <-]. apply writer_burn.
  - destruct (wd_inflight wd !! x) as [rows|] eqn:E; [|done]. intros [= <-]. by apply writer_commit.
  - destruct (wd_inflight wd !! x) as [rows|] eqn:E; [|done]. intros [= <-].
    by apply (writer_abort wd x rows).
Qed.

Lemma exec_action_sound guarded a s s' :
  exec_action guarded a s = Some s' →
  sys_step generateId o consumer key s s' ∧ (guarded = true → samples_above_writers s s').
Proof.
  destruct s as [wd cs t taken w]. unfold exec_action, samples_above_writers.
  destruct a; try (destruct (exec_writer _ _) as [wd'|] eqn:E; simpl; [|done]; intros [= <-];
    split; [apply sys_writer; by eapply exec_writer_sound|by destruct t as [[now xmin [] ? []]|]]); simpl.
  - destruct t; [done|]. intros [= <-]. split; [apply sys_start|done].
  - destruct t as [[now xmin [] [] []]|]; try done. intros [= <-]. split; [apply sys_fetch|done].
  - destruct t as [[now xmin [] [] []]|]; try done. intros [= <-]. split; [apply sys_withhold|done].
  - destruct t as [[now xmin [] [] []]|]; try done. destruct (guarded && _) eqn:Hg; [done|].
    intros [= <-]. split; [apply sys_xmax|]. intros ->. simpl in Hg. apply negb_false_iff in Hg.
    intros x i r. by apply above_writers_sound.
  - destruct t as [[now xmin [] [] []]|]; try done.
    destruct (turn_tx _ _ _ _ _ _ _ _ _) as [[res cs'] w'] eqn:E. intros [= <-].
    split; [by eapply sys_commit|done].
Qed.

Lemma exec_sound acts s s' :
  exec false acts s = Some s' → rtc (sys_step generateId o consumer key) s s'.
Proof.
  revert s. induction acts as [|a acts IH]; intros s; simpl; [intros [= ->]; apply rtc_refl|].
  destruct (exec_action false a s) as [s1|] eqn:E; [|done]. simpl. intros H.
  eapply rtc_l; [by apply exec_action_sound in E as [? _]|by apply IH].
Qed.

Lemma exec_guarded_sound acts s s' :
  exec true acts s = Some s' → rtc (sampled_step generateId o consumer key) s s'.
Proof.
  revert s. induction acts as [|a acts IH]; intros s; simpl; [intros [= ->]; apply rtc_refl|].
  destruct (exec_action true a s) as [s1|] eqn:E; [|done]. simpl. intros H.
  eapply rtc_l; [|by apply IH]. apply exec_action_sound in E as [? Hs]. split; auto.
Qed.
End schedule.

(** ** Two readings of the snapshot bounds *)

Definition lowest_inflight (wd : World) (otherwise : Z) : Z :=
  map_fold (λ x _ acc, Z.min x acc) otherwise (wd_inflight wd).

(** The Postgres manual: xmin is the lowest transaction id in progress, and xmax
    one past the highest completed one. *)
#[export] Instance past_highest_completed : SnapshotBounds := {
  xminAt wd := lowest_inflight wd (wd_lastCompleted wd + 1);
  xmaxAt wd := wd_lastCompleted wd + 1 }.

(** The comments of the source: xmax is the next unassigned transaction id. *)
Definition next_unassigned : SnapshotBounds := {|
  xminAt wd := lowest_inflight wd (wd_nextXid wd);
  xmaxAt wd := wd_nextXid wd |}.

Lemma lowest_inflight_spec wd otherwise :
  (∀ x rows, wd_inflight wd !! x = Some rows → lowest_inflight wd otherwise ≤ x) ∧
  lowest_inflight wd otherwise ≤ otherwise.
Proof.
  unfold lowest_inflight.
  apply (map_fold_weak_ind (λ acc m, (∀ x (rows : list StoredEventRow), m !! x = Some rows → acc ≤ x) ∧ acc ≤ otherwise)).
  - split; [intros x rows Hx; by rewrite lookup_empty in Hx|lia].
  - intros x rows m acc _ [H1 H2]. split; [|lia].
    intros y rs Hy. apply lookup_insert_Some in Hy as [[<- _]|[_ Hy]]; [lia|]. specialize (H1 y rs Hy). lia.
Qed.

#[export] Instance past_highest_completed_laws : SnapshotLaws.
Proof.
  split; simpl.
  - intros wd x rows _. apply lowest_inflight_spec.
  - intros wd Hok. pose proof (proj2 (lowest_inflight_spec wd (wd_lastCompleted wd + 1))).
    pose proof (wo_completed wd Hok). lia.
Qed.

Lemma next_unassigned_laws : SnapshotLaws (H := next_unassigned).
Proof.
  split; simpl.
  - intros wd x rows _. apply lowest_inflight_spec.
  - intros wd _. apply lowest_inflight_spec.
Qed.

(** Were xmax the next unassigned id, every sample would be above the writers. *)
Lemma next_unassigned_samples {W : Type} generateId o (consumer : EventConsumer W) key (s s' : System W) :
  world_ok (sys_world s) → sys_step (SB := next_unassigned) generateId o consumer key s s' →
  samples_above_writers s s'.
Proof.
  intros Hok Hstep. unfold samples_above_writers.
  destruct Hstep as [wd wd' cs t taken w Hw| | | | | |wd cs t taken w w']; simpl in *; try done.
  1: by destruct t as [[now xmin [F|] F' [m|]]|].
  2: by destruct t as [now xmin [F|] F' [m|]].
  intros x i r (rs & Hrs & _) _ _. by apply (wo_xids _ Hok x rs).
Qed.

(** ** Properties *)

(** C1: no committed event is passed over.  In every interleaving of a
    consumer's turns with writers that insert, commit and abort out of order,
    each committed event whose id the consumer's cursor has reached was taken
    by the consumer's code or is still watched by a pending gap; the pending
    gaps stay sorted, non-empty, disjoint and below the cursor.  The
    hypotheses are that xmin bounds the transactions in progress from below,
    as Postgres documents, and that in this run every xmax a turn samples is
    above the open writers that have drawn an id below a fetched one. *)
Theorem no_event_passed_over `{SL : SnapshotLaws} {W : Type} generateId o (consumer : EventConsumer W) key
    (s0 s : System W) :
  (0 < batchSize o)%nat → sys_initial key s0 → rtc (sampled_step generateId o consumer key) s0 s →
  ∃ c, sys_consumers s !! key = Some c ∧
    gaps_ok (cs_lastProcessedEventId c) (cs_pendingGaps c) ∧
    ∀ r, r ∈ wd_committed (sys_world s) → row_id r ≤ cs_lastProcessedEventId c →
      row_id r ∈ sys_taken s ∨ watched (cs_pendingGaps c) (row_id r).
Proof.
  intros Hb Hinit Hr. destruct (reachable_sys_ok generateId o consumer key Hb s0 s Hinit Hr) as (_ & c & Hc & Hcov & _).
  exists c. split_and!; [done|apply (cv_gaps _ _ _ Hcov)|].
  intros r Hr' Hle. apply (cv_all _ _ _ Hcov); [left; by apply list_elem_of_fmap_2|done].
Qed.

Definition demo_row (id : Z) : StoredEventRow :=
  mkRow id "a1" "order" "t1" id "shop:event:placed" 1 [] (demo_metadata None) 0 "u1".

(** A consumer that records what it is handed and never throws. *)
Definition recorder : EventConsumer (list string) :=
  mkEventConsumer "shop:consumer:log" (λ e _ w, (w ++ [se_id e], None)) None None None Shared FromBeginning None.

Definition demo_ids (w : list string) : string * string := ("c", "r").

Definition demo_key : string * string := ("shop:consumer:log", SHARED_INSTANCE_SENTINEL).

Definition demo_system : System (list string) :=
  mkSystem (mkWorld [] ∅ 100 1 99) {[demo_key := fresh_consumer 0 [] 0]} None [] [].

Lemma demo_nothing_inflight x rows : wd_inflight (sys_world demo_system) !! x = Some rows → False.
Proof. change (wd_inflight (sys_world demo_system)) with (∅ : gmap Z (list StoredEventRow)). by rewrite lookup_empty. Qed.

Lemma demo_system_initial : sys_initial demo_key demo_system.
Proof.
  assert (Ha : ∀ i, ¬ alive (sys_world demo_system) i).
  { intros i [Hi|(x & rows & Hx & _)]; [by apply elem_of_nil in Hi|by apply demo_nothing_inflight in Hx]. }
  split.
  { split.
    - intros x rows Hx. by apply demo_nothing_inflight in Hx.
    - reflexivity.
    - intros i Hi. by apply Ha in Hi.
    - constructor.
    - intros x rows Hx. by apply demo_nothing_inflight in Hx.
    - intros x i (rows & Hx & _). by apply demo_nothing_inflight in Hx. }
  split; [reflexivity|]. split; [intros i Hi; by apply Ha in Hi|].
  split; [reflexivity|]. split; [reflexivity|]. exists 0. reflexivity.
Qed.

(** Transaction 100 draws id 1 and stays open while 101 commits id 2; a turn
    delivers 2, then 100 commits and the next turn delivers 1. *)
Definition late_commit : list Action :=
  [ABegin; ABegin; AInsert 100 demo_row; AInsert 101 demo_row; ACommit 101;
   TStart 0; TFetch; TWithhold; TXmax; TCommit;
   ACommit 100; TStart 0; TFetch; TWithhold; TXmax; TCommit].

Definition late_commit_end : option (System (list string)) :=
  exec demo_ids default_options recorder demo_key true late_commit demo_system.

Lemma no_event_passed_over_witness :
  match late_commit_end with
  | Some s => sys_w s = ["2"; "1"] ∧
      ∃ c, sys_consumers s !! demo_key = Some c ∧
        gaps_ok (cs_lastProcessedEventId c) (cs_pendingGaps c) ∧
        ∀ r, r ∈ wd_committed (sys_world s) → row_id r ≤ cs_lastProcessedEventId c →
          row_id r ∈ sys_taken s ∨ watched (cs_pendingGaps c) (row_id r)
  | None => False
  end.
Proof.
  destruct late_commit_end as [s|] eqn:E; [|vm_compute in E; discriminate E].
  split; [vm_compute in E; injection E as <-; reflexivity|].
  apply (no_event_passed_over demo_ids default_options recorder demo_key demo_system s).
  - unfold default_options, DEFAULT_BATCH_SIZE; simpl; lia.
  - exact demo_system_initial.
  - unfold late_commit_end in E. exact (exec_guarded_sound demo_ids default_options recorder demo_key _ _ _ E).
Defined.

(** With the documented xmax a turn can discard a range whose writer is still
    open: transaction 101 holds id 1, 100 commits id 2, and the bound recorded
    with the gap is 101, the xmin of every later turn until 101 finishes. *)
Definition premature_burn : list Action :=
  [ABegin; ABegin; AInsert 101 demo_row; AInsert 100 demo_row; ACommit 100;
   ABegin; TStart 0; TFetch; TWithhold; TXmax; TCommit; ACommit 102;
   ABegin; TStart 0; TFetch; TWithhold; TXmax; TCommit; ACommit 103;
   ACommit 101; TStart 0; TFetch; TWithhold; TXmax; TCommit].

Lemma documented_xmax_passes_over_an_event :
  ∃ s, rtc (sys_step demo_ids default_options recorder demo_key) demo_system s ∧
    sys_w s = ["2"] ∧ 1 ∈ row_id <$> wd_committed (sys_world s) ∧
    ∃ c, sys_consumers s !! demo_key = Some c ∧ cs_lastProcessedEventId c = 2 ∧ cs_pendingGaps c = [].
Proof.
  destruct (exec demo_ids default_options recorder demo_key false premature_burn demo_system)
    as [s|] eqn:E; [|vm_compute in E; discriminate E].
  exists s. split; [by eapply exec_sound|].
  vm_compute in E. injection E as <-. split; [reflexivity|]. split; [simpl; set_solver|].
  eexists. split; [reflexivity|]. split; reflexivity.
Qed.
