(* ===== verification/DispatcherStatus.v ===== *)
(** * The consumer's status over turns

    Dead-lettering, the bounded automatic re-arm, the idle pre-check and the
    progress of a single turn: what [acquireConsumerState],
    [selectIdleConsumerKeys] and [run_turn] promise together. *)

From S2P Require Import Prelude GapRanges EventLog EventStore ConsumerState Delivery Dispatcher.

Open Scope Z_scope.

(** ** Lemmas *)

Lemma acquire_dead (now : Z) (cs : Consumers) (key : ConsumerKey) (cooldown maxRearm : Z)
    (c : ConsumerStateRow) :
  cs !! key = Some c → cs_status c = Dead →
  acquireConsumerState ∅ now cs key cooldown maxRearm =
  if (cs_updatedAt c <=? now - cooldown) && (cs_rearmCount c <? maxRearm) then
    let st := mkConsumer (cs_lastProcessedEventId c) Idle 0 (cs_rearmCount c + 1) (cs_pendingGaps c)
                (cs_lastFailedEventId c) None now in
    (Acquired st, (rearmDeadConsumer now cs key).2)
  else (Skipped SkipDead, cs).
Proof.
  intros Hc Hd. unfold acquireConsumerState, selectConsumerForUpdateSkipLocked.
  rewrite decide_False by set_solver. rewrite Hc, Hd. destruct (_ && _); [|done].
  unfold rearmDeadConsumer.
  destruct (update_returning_found
    (λ c, mkConsumer (cs_lastProcessedEventId c) Idle 0 (cs_rearmCount c + 1) (cs_pendingGaps c)
            (cs_lastFailedEventId c) None now) cs key c Hc) as [-> _]. done.
Qed.

Lemma rearm_lookup (now : Z) (cs : Consumers) (key : ConsumerKey) (c : ConsumerStateRow) :
  cs !! key = Some c →
  (rearmDeadConsumer now cs key).2 !! key =
    Some (mkConsumer (cs_lastProcessedEventId c) Idle 0 (cs_rearmCount c + 1) (cs_pendingGaps c)
            (cs_lastFailedEventId c) None now).
Proof.
  intros Hc. unfold rearmDeadConsumer.
  destruct (update_returning_found
    (λ c, mkConsumer (cs_lastProcessedEventId c) Idle 0 (cs_rearmCount c + 1) (cs_pendingGaps c)
            (cs_lastFailedEventId c) None now) cs key c Hc) as [-> Hl]. done.
Qed.

Lemma acquire_live (now : Z) (cs : Consumers) (key : ConsumerKey) (cooldown maxRearm : Z)
    (c : ConsumerStateRow) :
  cs !! key = Some c → cs_status c ≠ Dead →
  acquireConsumerState ∅ now cs key cooldown maxRearm =
  (if decide (cs_status c = Disabled) then Skipped SkipDisabled else Acquired c, cs).
Proof.
  intros Hc Hd. unfold acquireConsumerState, selectConsumerForUpdateSkipLocked.
  rewrite decide_False by set_solver. rewrite Hc. by destruct (cs_status c).
Qed.

Lemma persist_row (now : Z) (cs : Consumers) (key : ConsumerKey) (st : ConsumerStateRow)
    (outcome : DeliveryOutcome) (gaps : list PendingGapEntry) :
  cs !! key = Some st →
  persistConsumerOutcome now (markProcessing now cs key) key outcome gaps !! key =
  Some (mkConsumer (do_cursor outcome) (if do_deadLettered outcome then Dead else Idle)
          (do_attempts outcome) (if 0 <? do_processed outcome then 0 else cs_rearmCount st) gaps
          (do_failedEventId outcome) (do_lastError outcome) now).
Proof.
  intros Hs. unfold persistConsumerOutcome, updateConsumerDeliveryOutcome, markProcessing, markConsumerProcessing.
  rewrite !lookup_alter_eq, Hs. done.
Qed.

(** The re-arm count after a turn, given what the turn did. *)
Definition rearm_after (o : DispatcherOptions) (now : Z) (c : ConsumerStateRow) (res : TurnResult) : Z :=
  match res with
  | TurnSkipped _ => cs_rearmCount c
  | TurnIdle => cs_rearmCount c + (if decide (cs_status c = Dead) then 1 else 0)
  | TurnDone outcome _ =>
      if 0 <? do_processed outcome then 0
      else cs_rearmCount c + (if decide (cs_status c = Dead) then 1 else 0)
  end.

Section status.
Context {W : Type} (generateId : W → string * string) (o : DispatcherOptions)
  (consumer : EventConsumer W) (key : ConsumerKey).

Lemma run_turn_not_skipped (obs : Observation) (st : ConsumerStateRow) (w w' : W) (r : SkipReason) :
  run_turn generateId o consumer obs st w ≠ (TurnSkipped r, w').
Proof.
  unfold run_turn. destruct (turn_partition o consumer obs st) as [burnt surviving].
  destruct (_ && _); [done|].
  by destruct (turn_delivery generateId o consumer obs st w) as [[deliverable outcome] w1].
Qed.

(** A turn seen from the row it works on. *)
Lemma turn_tx_row (now : Z) (obs : Observation) (cs : Consumers) (w : W) (c : ConsumerStateRow) :
  cs !! key = Some c →
  let '(res, cs', w') := turn_tx generateId o consumer key ∅ now obs cs w in
  ∃ c', cs' !! key = Some c' ∧ cs_rearmCount c' = rearm_after o now c res ∧
    (cs_status c = Dead →
       if (cs_updatedAt c <=? now - rearmCooldownMs o) && (cs_rearmCount c <? maxRearmCount o)
       then ∀ r, res ≠ TurnSkipped r else res = TurnSkipped SkipDead ∧ cs' = cs ∧ w' = w) ∧
    match res with
    | TurnDone outcome gaps =>
        cs_status c' = (if do_deadLettered outcome then Dead else Idle) ∧
        cs_attempts c' = do_attempts outcome ∧ cs_lastProcessedEventId c' = do_cursor outcome ∧
        cs_pendingGaps c' = gaps
    | _ => cs_lastProcessedEventId c' = cs_lastProcessedEventId c ∧ cs_pendingGaps c' = cs_pendingGaps c
    end.
Proof.
  intros Hc. unfold turn_tx. destruct (decide (cs_status c = Dead)) as [Hd|Hd].
  - rewrite (acquire_dead now cs key _ _ c Hc Hd). destruct (_ && _) eqn:Ere.
    + cbv beta iota zeta. destruct (run_turn generateId o consumer obs _ w) as [[r| |out gaps] w1] eqn:Hrun; simpl.
      * by apply run_turn_not_skipped in Hrun.
      * eexists. split; [by apply rearm_lookup|]. simpl. rewrite decide_True by done. done.
      * eexists. split; [by apply persist_row, rearm_lookup|]. simpl. rewrite decide_True by done. done.
    + exists c. done.
  - rewrite (acquire_live now cs key _ _ c Hc Hd). destruct (decide (cs_status c = Disabled)).
    + exists c. done.
    + cbv beta iota zeta. destruct (run_turn generateId o consumer obs _ w) as [[r| |out gaps] w1] eqn:Hrun; simpl.
      * by apply run_turn_not_skipped in Hrun.
      * exists c. rewrite decide_False by done. split; [done|]. split; [lia|done].
      * eexists. split; [by apply persist_row|]. simpl. rewrite decide_False by done.
        rewrite Z.add_0_r. done.
Qed.
End status.

(** ** Properties *)

(** Automatic revival is bounded.  Over any number of turns without a
    delivery the re-arm count never decreases and never passes the maximum, so
    a poisoned consumer is revived at most that often; a dead consumer whose
    budget is spent, or whose cooldown has not elapsed, is skipped without any
    change until an operator acts. *)
Theorem auto_rearm_is_bounded {W : Type} (generateId : W → string * string) (o : DispatcherOptions)
    (consumer : EventConsumer W) (key : ConsumerKey) (now : Z) (obs : Observation) (cs : Consumers)
    (w : W) (c : ConsumerStateRow) :
  cs !! key = Some c → 0 ≤ cs_rearmCount c ≤ maxRearmCount o →
  let '(res, cs', w') := turn_tx generateId o consumer key ∅ now obs cs w in
  (∃ c', cs' !! key = Some c' ∧ 0 ≤ cs_rearmCount c' ≤ maxRearmCount o ∧
     ((∃ outcome gaps, res = TurnDone outcome gaps ∧ 0 < do_processed outcome) ∨
      cs_rearmCount c ≤ cs_rearmCount c' ≤ cs_rearmCount c + 1) ∧
     (cs_status c = Dead → (∀ r, res ≠ TurnSkipped r) →
      (∃ outcome gaps, res = TurnDone outcome gaps ∧ 0 < do_processed outcome) ∨
      cs_rearmCount c' = cs_rearmCount c + 1)) ∧
  (cs_status c = Dead →
     cs_rearmCount c = maxRearmCount o ∨ now < cs_updatedAt c + rearmCooldownMs o →
     res = TurnSkipped SkipDead ∧ cs' = cs ∧ w' = w).
Proof.
  intros Hc Hr. pose proof (turn_tx_row generateId o consumer key now obs cs w c Hc) as H.
  destruct (turn_tx _ _ _ _ _ _ _ _ _) as [[res cs'] w'].
  destruct H as (c' & Hc' & Hre & Hdead & _). split.
  - exists c'. split; [done|]. rewrite Hre. unfold rearm_after in *.
    destruct (decide (cs_status c = Dead)) as [Hd|Hd].
    + specialize (Hdead Hd). destruct (_ && _) eqn:E.
      * apply andb_prop in E as [_ E]. apply Z.ltb_lt in E. destruct res as [r| |outcome gaps].
        -- by specialize (Hdead r).
        -- split; [lia|]. split; [right; lia|]. intros _ _. right. lia.
        -- destruct (0 <? do_processed outcome) eqn:Ep; reflect_bools.
           ++ split; [lia|]. split; [left; eauto|]. intros _ _. left; eauto.
           ++ split; [lia|]. split; [right; lia|]. intros _ _. right. lia.
      * destruct Hdead as (-> & _ & _). split; [done|]. split; [right; lia|].
        intros _ Hn. by specialize (Hn SkipDead).
    + destruct res as [r| |outcome gaps]; [..|destruct (0 <? do_processed outcome) eqn:Ep; reflect_bools];
        (split; [lia|]; split; [|done]); first [right; lia|left; eauto].
  - intros Hd Hor. specialize (Hdead Hd).
    replace (_ && _) with false in Hdead; [done|]. symmetry. apply andb_false_iff.
    rewrite Z.leb_gt, Z.ltb_ge. lia.
Qed.

Definition dead_state (rearms updatedAt : Z) : ConsumerStateRow :=
  mkConsumer 6 Dead 10 rearms [mkGap 3 4 50] (Some 4) (Some "smtp down") updatedAt.

Lemma auto_rearm_is_bounded_witness :
  let run rearms := turn_tx (λ _, ("c", "r")) default_options poison_consumer ("mail", "__shared__") ∅ 400000
    (mkObs 40 [] [] 60) {[("mail", "__shared__") := dead_state rearms 0]} O in
  (run 2).1.1 = TurnIdle ∧ (run 3).1.1 = TurnSkipped SkipDead.
Proof.
  intros run. split; [reflexivity|].
  pose proof (auto_rearm_is_bounded (λ _, ("c", "r")) default_options poison_consumer ("mail", "__shared__")
    400000 (mkObs 40 [] [] 60) {[("mail", "__shared__") := dead_state 3 0]} O (dead_state 3 0) eq_refl
    ltac:(simpl; unfold DEFAULT_MAX_REARM_COUNT; lia)) as H.
  fold (run 3) in H. destruct (run 3) as [[res cs'] w']. destruct H as [_ H].
  apply H; [reflexivity|left; reflexivity].
Defined.

(** The lock-free pre-check never hides work.  A consumer it reports idle
    exists, is not dead, and the turn it saves would, on the log the check
    saw, have delivered nothing and changed nothing. *)
Theorem idle_precheck_is_sound {W : Type} (generateId : W → string * string) (o : DispatcherOptions)
    (consumer : EventConsumer W) (key : ConsumerKey) (now : Z) (obs : Observation) (cs : Consumers)
    (w : W) (pairs : list ConsumerKey) :
  key ∈ selectProvablyIdleConsumerPairs (ob_fetch obs) cs pairs →
  turnKey key ∈ selectIdleConsumerKeys (ob_fetch obs) cs pairs ∧
  let '(res, cs', w') := turn_tx generateId o consumer key ∅ now obs cs w in
  (res = TurnIdle ∨ res = TurnSkipped SkipDisabled) ∧ cs' = cs ∧ w' = w.
Proof.
  intros Hin. split.
  { unfold selectIdleConsumerKeys. destruct pairs as [|p ps]; [by apply elem_of_list_to_set, elem_of_nil in Hin|].
    by apply elem_of_map_2. }
  unfold selectProvablyIdleConsumerPairs in Hin.
  apply elem_of_list_to_set, list_elem_of_filter in Hin as [Hidle _].
  destruct (cs !! key) as [c|] eqn:Hc; [|done]. simpl in Hidle. unfold provably_idle in Hidle.
  apply andb_prop in Hidle as [Hidle Hnew]. apply andb_prop in Hidle as [Hst Hgaps].
  apply negb_true_iff, bool_decide_eq_false in Hst. apply negb_true_iff in Hnew.
  destruct (cs_pendingGaps c) as [|g gs] eqn:Hg; [|done].
  unfold turn_tx. rewrite (acquire_live now cs key _ _ c Hc Hst).
  destruct (decide (cs_status c = Disabled)); [by split; [right|]|].
  replace (run_turn generateId o consumer obs c w) with ((TurnIdle, w) : TurnResult * W); [by split; [left|]|].
  unfold run_turn, turn_partition, turn_events, fetchPendingEvents. rewrite Hg. simpl.
  replace (new_branch (ob_fetch obs) (cs_lastProcessedEventId c) (batchSize o)) with (@nil StoredEventRow);
    [done|].
  unfold new_branch. rewrite filter_keeps_none; [by destruct (batchSize o)|].
  intros r Hr Hlt. assert (existsb (λ e, cs_lastProcessedEventId c <? row_id e) (ob_fetch obs) = true)
    as Hex; [|congruence].
  apply existsb_exists. exists r. split; [by apply list_elem_of_In|]. by apply Z.ltb_lt.
Qed.

Lemma idle_precheck_is_sound_witness :
  let cs : Consumers := {[("mail", "__shared__") := mkConsumer 9 Idle 0 0 [] None None 0]} in
  turnKey ("mail", "__shared__") ∈
    selectIdleConsumerKeys (poison_row <$> [4; 9]) cs [("mail", "__shared__")].
Proof.
  intros cs.
  assert (Hin : ("mail", "__shared__") ∈
      selectProvablyIdleConsumerPairs (poison_row <$> [4; 9]) cs [("mail", "__shared__")])
    by (apply elem_of_list_to_set, list_elem_of_filter; split; [reflexivity|set_solver]).
  exact (proj1 (idle_precheck_is_sound (λ w : nat, ("c", "r")) default_options poison_consumer
    ("mail", "__shared__") 0 (mkObs 40 (poison_row <$> [4; 9]) [] 60) cs O [("mail", "__shared__")] Hin)).
Defined.

(** The events of a turn start at or below any open one. *)
Lemma oldest_open_comes_first {W : Type} (o : DispatcherOptions) (consumer : EventConsumer W) (obs : Observation)
    (state : ConsumerStateRow) (r : StoredEventRow) :
  (0 < batchSize o)%nat → has_batch consumer = false → NoDup (row_id <$> ob_fetch obs) →
  gaps_ok (cs_lastProcessedEventId state) (cs_pendingGaps state) →
  r ∈ ob_fetch obs →
  (cs_lastProcessedEventId state < row_id r ∨ watched (cs_pendingGaps state) (row_id r)) →
  ∃ first rest, turn_events o consumer obs state = first :: rest ∧ row_id first ≤ row_id r.
Proof.
  intros Hb Hnb Hn Hg Hr Hopen.
  pose proof (turn_fetch_ok o consumer obs state Hb Hn Hg) as Hf.
  destruct (turn_events o consumer obs state) as [|first rest] eqn:Hev.
  - exfalso. destruct Hopen as [Hlt|Hw].
    + unfold turn_events, fetchPendingEvents in Hev.
      destruct Hg as [_ Hasc Hbel].
      destruct (fetch_decompose (ob_fetch obs) (cs_lastProcessedEventId state) (cs_pendingGaps state)
        (batchSize o) (pendingFetchLimit consumer (batchSize o)) Hn Hasc Hbel
        (pendingFetchLimit_le consumer _ Hb)) as [Hd _].
      rewrite Hd in Hev. apply app_eq_nil in Hev as [Hp Hnw]. rewrite Hp in Hnw. simpl in Hnw.
      assert (Hin : r ∈ rows_above (ob_fetch obs) (cs_lastProcessedEventId state))
        by by apply elem_of_rows_above.
      destruct (rows_above _ _); [by apply elem_of_nil in Hin|].
      destruct (batchSize o); [lia|done].
    + destruct (fo_pending _ _ _ _ _ Hf r Hr Hw) as [Hin|[Hlen _]]; [by apply elem_of_nil in Hin|].
      simpl in Hlen. unfold pendingFetchLimit in Hlen. rewrite Hnb in Hlen. simpl in Hlen. lia.
  - exists first, rest. split; [done|]. pose proof (fo_sorted _ _ _ _ _ Hf) as Hs.
    assert (Hhead : ∀ e, e ∈ first :: rest → row_id first ≤ row_id e).
    { intros e [->|He]%elem_of_cons; [lia|]. apply StronglySorted_cons in Hs as [Hs _].
      rewrite Forall_forall in Hs. specialize (Hs e He). simpl in Hs. lia. }
    destruct Hopen as [Hlt|Hw].
    + destruct (fo_new _ _ _ _ _ Hf r Hr Hlt) as [Hin|Hall]; [by apply Hhead|].
      specialize (Hall first ltac:(set_solver)). lia.
    + destruct (fo_pending _ _ _ _ _ Hf r Hr Hw) as [Hin|[Hlen Hall]]; [by apply Hhead|].
      destruct (Z_lt_le_dec (cs_lastProcessedEventId state) (row_id first)) as [Hgt|Hle].
      * exfalso. rewrite filter_keeps_none in Hlen.
        -- simpl in Hlen. unfold pendingFetchLimit in Hlen. rewrite Hnb in Hlen. simpl in Hlen. lia.
        -- intros e He Hle. specialize (Hhead e He). lia.
      * specialize (Hall first ltac:(set_solver) Hle). lia.
Qed.

(** The handler runs on [events] from [w], up to the end or the first that
    fails. *)
Definition ran_on {W : Type} (generateId : W → string * string) (consumer : EventConsumer W)
    (events : list StoredEventRow) (w w' : W) : Prop :=
  ∃ done rest w1, events = done ++ rest ∧ handled generateId consumer done w w1 ∧
    (rest = [] ∧ w' = w1 ∨ ∃ row rest' e, rest = row :: rest' ∧ poisons generateId consumer row w1 w' e).

Lemma handled_nil_inv {W : Type} (generateId : W → string * string) (consumer : EventConsumer W) (w w' : W) :
  handled generateId consumer [] w w' → w' = w.
Proof. by inversion 1. Qed.

(** The delivery of a turn of a per-event consumer is the loop over its events. *)
Lemma turn_delivery_per_event {W : Type} (generateId : W → string * string) (o : DispatcherOptions)
    (consumer : EventConsumer W) (obs : Observation) (state : ConsumerStateRow) (w : W) first later :
  has_batch consumer = false → turn_events o consumer obs state = first :: later →
  ∃ sf w', (deliver_loop generateId consumer (maxAttempts o) (cs_lastProcessedEventId state) (first :: later)
              (loop_start state w) = sf ∧ w' = lp_world sf) ∧
    turn_delivery generateId o consumer obs state w = (first :: later, outcome_of_loop sf, w').
Proof.
  intros Hnb Hev. eexists _, _. split; [by split|].
  unfold turn_delivery, deliverConsumerTurn, isIntakePausedByPendingGapLimit,
    withholdNewEventsOfTenantsWithUnfetchedPending. rewrite Hnb, Hev. simpl.
  by rewrite deliverEvents_per_event.
Qed.

(** C34: a turn makes progress on the oldest open event.  If a per-event
    consumer's turn sees any open event, it begins with the one with the
    smallest id: the handler is called on it, in the world the turn starts in.
    If it returns (or the policy skips its error), the event is taken by the
    cursor or its gap, and the turn goes on from the world the handler left,
    through the following events up to its end or the first that fails.  If it
    throws, the event is named as the failed one and the turn ends in the world
    that call left. *)
Theorem turn_runs_the_oldest_open_event {W : Type} (generateId : W → string * string)
    (o : DispatcherOptions) (consumer : EventConsumer W) (obs : Observation) (state : ConsumerStateRow)
    (w : W) (r : StoredEventRow) :
  (0 < batchSize o)%nat → has_batch consumer = false → NoDup (row_id <$> ob_fetch obs) →
  gaps_ok (cs_lastProcessedEventId state) (cs_pendingGaps state) →
  r ∈ ob_fetch obs →
  (cs_lastProcessedEventId state < row_id r ∨ watched (cs_pendingGaps state) (row_id r)) →
  ∃ first later outcome gaps w1 err w',
    turn_events o consumer obs state = first :: later ∧ row_id first ≤ row_id r ∧
    run_turn generateId o consumer obs state w = (TurnDone outcome gaps, w') ∧
    applyEvent generateId consumer first w = (w1, err) ∧
    match err with
    | Some e =>
        if policy_skips consumer then ran_on generateId consumer later w1 w'
        else w' = w1 ∧ do_failedEventId outcome = Some (row_id first) ∧ do_lastError outcome = Some (he_message e)
    | None => ran_on generateId consumer later w1 w'
    end ∧
    (err = None ∨ policy_skips consumer = true →
       row_id first ∈ taken_ids (cs_lastProcessedEventId state)
         (turn_delivery generateId o consumer obs state w).1.1 outcome).
Proof.
  intros Hb Hnb Hn Hg Hr Hopen.
  pose proof (turn_fetch_ok o consumer obs state Hb Hn Hg) as Hf.
  destruct (oldest_open_comes_first o consumer obs state r Hb Hnb Hn Hg Hr Hopen) as (first & later & Hev & Hle).
  destruct (turn_delivery_per_event generateId o consumer obs state w first later Hnb Hev) as (sf & w' & Hsf & Htd).
  pose proof (fo_sorted _ _ _ _ _ Hf) as Hs. rewrite Hev in Hs.
  unfold run_turn. destruct (turn_partition o consumer obs state) as [burnt surviving] eqn:Hp.
  rewrite Hev, Htd. cbn [length Nat.eqb andb fst snd].
  destruct (deliver_loop_spec generateId consumer (maxAttempts o) (cs_lastProcessedEventId state)
    (first :: later) (loop_start state w)) as (done & rest & sp & Hsplit & Hh & Hap & Hend).
  destruct Hsf as [Hsf ->]. rewrite Hsf in Hend. clear Hsf.
  destruct done as [|d done].
  - apply handled_nil_inv in Hh as Hw1. simpl in Hsplit. destruct Hend as [[-> _]|(row & rest' & w1 & e & -> & [Happ Hskip] & ->)]; [done|].
    injection Hsplit as <- <-. rewrite Hw1 in Happ. simpl in Happ.
    eexists first, later, _, _, w1, (Some e), w1. rewrite Hskip. split_and!; try done; by intros [|].
  - injection Hsplit as <- ->. inversion Hh as [|? ? ? w1 ? err Happ Herr Hh']; subst. simpl in Happ.
    assert (Hran : ran_on generateId consumer (done ++ rest) w1 (lp_world sf)).
    { exists done, rest, (lp_world sp). split_and!; [done..|].
      destruct Hend as [[-> ->]|(row & rest' & w2 & e & -> & Hpo & ->)]; [by left|right; by exists row, rest', e]. }
    eexists first, (done ++ rest), _, _, w1, err, (lp_world sf). split_and!; try done.
    + destruct err as [e|]; [|done]. destruct Herr as [?|Hs']; [done|by rewrite Hs'].
    + intros _. rewrite (taken_ids_spec _ _ (first :: done)); [set_solver|].
      eapply prefix_accounts; [done|done|..]; simpl.
      * destruct Hend as [[_ ->]|(row & rest'' & w2 & e & _ & _ & ->)]; apply (ap_cursor _ _ _ _ _ Hap).
      * destruct Hend as [[_ ->]|(row & rest'' & w2 & e & _ & _ & ->)]; apply (ap_resolved _ _ _ _ _ Hap).
      * done.
Qed.

Lemma turn_runs_the_oldest_open_event_witness :
  ∃ first outcome gaps w1 err w',
    run_turn (λ _, ("c", "r")) default_options poison_consumer
      (mkObs 40 (poison_row <$> [9; 4]) [] 60) gap_state O = (TurnDone outcome gaps, w') ∧
    applyEvent (λ _, ("c", "r")) poison_consumer first O = (w1, err) ∧ row_id first ≤ 4.
Proof.
  destruct (turn_runs_the_oldest_open_event (λ _, ("c", "r")) default_options poison_consumer
    (mkObs 40 (poison_row <$> [9; 4]) [] 60) gap_state O (poison_row 4)) as (f & later & oc & gs & w1 & err & w' & _ & H1 & H2 & H3 & _).
  - unfold default_options, DEFAULT_BATCH_SIZE; simpl; lia.
  - reflexivity.
  - vm_compute. repeat constructor; set_solver.
  - split; [repeat constructor; unfold gap_ok; simpl; lia|repeat constructor|].
    intros i (g & Hg & Hi). apply list_elem_of_singleton in Hg as ->. unfold in_gap in Hi; simpl in *. lia.
  - simpl. set_solver.
  - right. exists (mkGap 3 4 50). split; [simpl; set_solver|unfold in_gap; simpl; lia].
  - exists f, oc, gs, w1, err, w'. done.
Defined.
