(* ===== verification/DispatcherAdmin.v ===== *)
(** * Operator recovery of consumers

    [pipeline/event-dispatcher-admin.ts]: restart, disable, enable, skipping a
    poison event, and the listings.  An operation runs against the cursor
    table; where the source reads and writes in separate statements outside a
    transaction, what other connections commit in between is the argument
    [meanwhile].  An error leaves the table as it was. *)

From S2P Require Import Prelude GapRanges EventLog ConsumerState Dispatcher.

Open Scope Z_scope.

(** ** Data *)

Definition status_name (s : ConsumerStatus) : string :=
  match s with
  | Idle => "idle" | Processing => "processing" | Dead => "dead" | Disabled => "disabled"
  end.

Record ConsumerRecoveryState := mkRecovery {
  rs_name : string;
  rs_instanceId : string;
  rs_status : string;
  rs_lastProcessedEventId : Z;
  rs_attempts : Z;
  rs_rearmCount : Z;
  rs_lastError : option string;
  rs_updatedAt : Z }.

Definition normalizeConsumerState (key : ConsumerKey) (row : ConsumerStateRow) : ConsumerRecoveryState :=
  mkRecovery key.1 key.2 (status_name (cs_status row)) (cs_lastProcessedEventId row) (cs_attempts row)
    (cs_rearmCount row) (cs_lastError row) (cs_updatedAt row).

(** [ConsumerTransitionError] with its rejection, and the plain [Error] of a
    row that vanished between two statements. *)
Inductive AdminError :=
| UnknownConsumer (key : ConsumerKey)
| WrongStatus (key : ConsumerKey) (status : string)
| ConsumerVanished (key : ConsumerKey).

(** ** Status transitions *)

Definition requireConsumerRow (cs : Consumers) (key : ConsumerKey)
    : result AdminError ConsumerStateRow :=
  match cs !! key with Some row => Ok row | None => Err (UnknownConsumer key) end.

Definition requireConsumerRowForUpdate (cs : Consumers) (key : ConsumerKey)
    : result AdminError ConsumerStateRow :=
  match selectConsumerForUpdate cs key with Some row => Ok row | None => Err (UnknownConsumer key) end.

Definition applyConsumerStatusTransition (now : Z) (cs : Consumers) (key : ConsumerKey)
    (targetStatus : ConsumerStatus) : result AdminError (ConsumerRecoveryState * Consumers) :=
  match updateConsumerStatusReturning now cs key targetStatus with
  | (Some updated, cs') => Ok (normalizeConsumerState key updated, cs')
  | (None, _) => Err (ConsumerVanished key)
  end.

Definition returnConsumerToIdleFrom (now : Z) (cs : Consumers) (meanwhile : Consumers → Consumers)
    (key : ConsumerKey) (requiredStatus : ConsumerStatus)
    : result AdminError (ConsumerRecoveryState * Consumers) :=
  let? before := requireConsumerRow cs key in
  if decide (cs_status before = requiredStatus)
  then applyConsumerStatusTransition now (meanwhile cs) key Idle
  else Err (WrongStatus key (status_name (cs_status before))).

Definition restartConsumer (now : Z) (cs : Consumers) (meanwhile : Consumers → Consumers)
    (key : ConsumerKey) : result AdminError (ConsumerRecoveryState * Consumers) :=
  returnConsumerToIdleFrom now cs meanwhile key Dead.

Definition enableConsumer (now : Z) (cs : Consumers) (meanwhile : Consumers → Consumers)
    (key : ConsumerKey) : result AdminError (ConsumerRecoveryState * Consumers) :=
  returnConsumerToIdleFrom now cs meanwhile key Disabled.

Definition disableConsumer (now : Z) (cs : Consumers) (meanwhile : Consumers → Consumers)
    (key : ConsumerKey) : result AdminError (ConsumerRecoveryState * Consumers) :=
  let? _ := requireConsumerRow cs key in
  applyConsumerStatusTransition now (meanwhile cs) key Disabled.

(** ** Skipping a poison event *)

Definition invisibleWindowGap (snap : PgSnapshot) (cursor poisonId : Z) : option PendingGapEntry :=
  let windowStart := cursor + 1 in
  if poisonId <=? windowStart then None
  else Some (mkGap windowStart (poisonId - 1) (selectSnapshotXmax snap)).

Definition assertRequiredStatus (key : ConsumerKey) (row : ConsumerStateRow)
    (requiredStatus : option string) : result AdminError () :=
  match requiredStatus with
  | Some s => if decide (status_name (cs_status row) = s) then Ok ()
              else Err (WrongStatus key (status_name (cs_status row)))
  | None => Ok ()
  end.

Definition failed_is_pending (before : ConsumerStateRow) : bool :=
  match cs_lastFailedEventId before with
  | Some failed => existsb (λ gap, rangeContainsId gap failed) (cs_pendingGaps before)
  | None => false
  end.

Definition failed_is_above_cursor (before : ConsumerStateRow) : bool :=
  match cs_lastFailedEventId before with
  | Some failed => cs_lastProcessedEventId before <? failed
  | None => false
  end.

Definition pending_poison_id (evs : list StoredEventRow) (before : ConsumerStateRow) : option Z :=
  if failed_is_pending before then cs_lastFailedEventId before
  else if failed_is_above_cursor before then None
  else selectSmallestVisibleIdInRanges evs (toIdRanges (cs_pendingGaps before)).

Definition gaps_without (gaps : list PendingGapEntry) (id : Z) : list PendingGapEntry :=
  gaps ≫= λ gap, if rangeContainsId gap id then splitRangeExcludingIds gap [id] else [gap].

(** The body of the transaction; the row lock keeps other writers of the row
    out until it commits. *)
Definition skipPoisonEvent (snap : PgSnapshot) (evs : list StoredEventRow) (now : Z) (cs : Consumers)
    (key : ConsumerKey) (requireStatus : option string)
    : result AdminError (ConsumerRecoveryState * option Z * Consumers) :=
  let? before := requireConsumerRowForUpdate cs key in
  let? _ := assertRequiredStatus key before requireStatus in
  let pendingGaps := cs_pendingGaps before in
  match pending_poison_id evs before with
  | Some pendingPoisonId =>
      match removePendingGapReturning now cs key
              (mergeContiguousGapRanges (gaps_without pendingGaps pendingPoisonId)) with
      | (Some updated, cs') => Ok (normalizeConsumerState key updated, Some pendingPoisonId, cs')
      | (None, _) => Err (ConsumerVanished key)
      end
  | None =>
      let poison := if failed_is_above_cursor before then cs_lastFailedEventId before
                    else selectNextEventIdAfter evs (cs_lastProcessedEventId before) in
      match poison with
      | None =>
          match cs !! key with
          | Some unchanged => Ok (normalizeConsumerState key unchanged, None, cs)
          | None => Err (ConsumerVanished key)
          end
      | Some poisonId =>
          let gapToAdd := invisibleWindowGap snap (cs_lastProcessedEventId before) poisonId in
          match advanceConsumerPastEventReturning now cs key poisonId
                  (mergeContiguousGapRanges
                     (match gapToAdd with Some g => pendingGaps ++ [g] | None => pendingGaps end)) with
          | (Some updated, cs') => Ok (normalizeConsumerState key updated, Some poisonId, cs')
          | (None, _) => Err (ConsumerVanished key)
          end
      end
  end.

(** ** Listings *)

Definition getConsumerState (cs : Consumers) (key : ConsumerKey) : option ConsumerRecoveryState :=
  normalizeConsumerState key <$> cs !! key.

Record ConsumerListing := mkListing {
  cl_name : string;
  cl_instanceId : string;
  cl_status : string;
  cl_lastProcessedEventId : Z;
  cl_attempts : Z;
  cl_lastError : option string }.

Definition listing_of (key : ConsumerKey) (row : ConsumerStateRow) : ConsumerListing :=
  mkListing key.1 key.2 (status_name (cs_status row)) (cs_lastProcessedEventId row) (cs_attempts row)
    (cs_lastError row).

Definition never_run (name : string) : ConsumerListing :=
  mkListing name SHARED_INSTANCE_SENTINEL "never-run" 0 0 None.

(** [selectMany] without an order returns the rows in no promised order. *)
Definition listConsumersWithState (cs : Consumers) (registeredNames : list string)
    : list ConsumerListing :=
  let stateRows := filter (λ kr, kr.1.1 ∈ registeredNames) (map_to_list cs) in
  let seenNames := (λ kr, kr.1.1) <$> stateRows in
  ((λ kr, listing_of kr.1 kr.2) <$> stateRows)
  ++ (never_run <$> filter (λ name, name ∉ seenNames) registeredNames).

Record ConsumerProgress := mkConsumerProgress {
  cp_consumer : ConsumerListing;
  cp_highWaterMark : Z;
  cp_lag : Z }.

Definition getAllConsumerProgress (db : EventsDb) (cs : Consumers) (registeredNames : list string)
    : list ConsumerProgress :=
  let highWaterMark := selectEventsHighWaterMark db in
  (λ c, mkConsumerProgress c highWaterMark (highWaterMark - cl_lastProcessedEventId c))
    <$> listConsumersWithState cs registeredNames.

(** ** Specification *)

(** The ids a consumer may still deliver. *)
Definition still_open (c : ConsumerStateRow) (i : Z) : Prop :=
  watched (cs_pendingGaps c) i ∨ cs_lastProcessedEventId c < i.

(** ** Lemmas *)

Lemma update_row (f : ConsumerStateRow → ConsumerStateRow) (cs : Consumers) (key : ConsumerKey)
    (c : ConsumerStateRow) :
  cs !! key = Some c → update_returning f cs key = (Some (f c), <[key := f c]> cs).
Proof. intros Hc. unfold update_returning. by rewrite Hc, (alter_alt_Some _ _ _ _ Hc). Qed.

Lemma nothing_visible_open evs c e :
  e ∈ evs → selectNextEventIdAfter evs (cs_lastProcessedEventId c) = None →
  selectSmallestVisibleIdInRanges evs (toIdRanges (cs_pendingGaps c)) = None →
  ¬ still_open c (row_id e).
Proof.
  intros He Hn Hs [(g & Hg & Hi)|Hlt].
  - unfold selectSmallestVisibleIdInRanges in Hs.
    destruct (toIdRanges (cs_pendingGaps c)) as [|r rs] eqn:Hr.
    { unfold toIdRanges in Hr. apply fmap_nil_inv in Hr. rewrite Hr in Hg. set_solver. }
    apply fmap_None, head_None, sort_by_nil in Hs. apply (not_elem_of_nil e). rewrite <- Hs, <- Hr.
    apply list_elem_of_filter. split; [|done]. apply Exists_exists.
    exists (mkRange (gap_from g) (gap_to g)). split; [|done].
    unfold toIdRanges. by apply (list_elem_of_fmap_2 (λ g, mkRange (gap_from g) (gap_to g))).
  - unfold selectNextEventIdAfter in Hn. apply fmap_None, head_None, sort_by_nil in Hn.
    apply (not_elem_of_nil e). rewrite <- Hn. by apply list_elem_of_filter.
Qed.

Lemma existsb_watched gaps i :
  existsb (λ gap, rangeContainsId gap i) gaps = true ↔ watched gaps i.
Proof.
  rewrite existsb_exists. unfold watched. split.
  - intros (g & Hg & Hi%rangeContainsId_true). exists g. by rewrite list_elem_of_In.
  - intros (g & Hg & Hi%rangeContainsId_true). exists g. by rewrite <- list_elem_of_In.
Qed.

Lemma selectSmallestVisibleIdInRanges_watched evs gaps i :
  selectSmallestVisibleIdInRanges evs (toIdRanges gaps) = Some i → watched gaps i.
Proof.
  unfold selectSmallestVisibleIdInRanges, toIdRanges. destruct gaps as [|g gs]; [done|].
  rewrite fmap_cons. set (rs := _ :: _). intros Hh.
  apply fmap_Some in Hh as (row & Hrow & ->). apply head_Some_elem_of in Hrow.
  apply elem_of_sort_by, list_elem_of_filter in Hrow as [He _].
  apply Exists_exists in He as (r & Hr & Hin).
  change rs with ((λ g, mkRange (gap_from g) (gap_to g)) <$> (g :: gs)) in Hr.
  apply list_elem_of_fmap in Hr as (h & -> & Hh). exists h. by split.
Qed.

Lemma selectNextEventIdAfter_above evs after i : selectNextEventIdAfter evs after = Some i → after < i.
Proof.
  unfold selectNextEventIdAfter. intros (row & Hrow & ->)%fmap_Some. apply head_Some_elem_of in Hrow.
  apply elem_of_sort_by, list_elem_of_filter in Hrow. tauto.
Qed.

Lemma pending_poison_id_watched evs c i :
  pending_poison_id evs c = Some i → watched (cs_pendingGaps c) i.
Proof.
  unfold pending_poison_id, failed_is_pending, failed_is_above_cursor.
  destruct (cs_lastFailedEventId c) as [f|]; [|apply selectSmallestVisibleIdInRanges_watched].
  destruct (existsb _ _) eqn:Hw.
  - intros [= ->]. by apply existsb_watched.
  - case_match; [done|apply selectSmallestVisibleIdInRanges_watched].
Qed.

(** Splitting only the range that holds the id is splitting every range. *)
Lemma gaps_without_split gaps id :
  gaps_without gaps id = gaps ≫= λ g, splitRangeExcludingIds g [id].
Proof.
  unfold gaps_without. induction gaps as [|g gs IH]; [done|]. rewrite !bind_cons, IH. f_equal.
  destruct (rangeContainsId g id) eqn:Hc; [done|]. unfold splitRangeExcludingIds.
  by rewrite filter_cons_False, filter_nil by (by rewrite Hc).
Qed.

Lemma merge_gaps_ok gaps cursor :
  Forall gap_ok gaps → all_apart gaps → (∀ i, watched gaps i → i ≤ cursor) →
  gaps_ok cursor (mergeContiguousGapRanges gaps) ∧
  (∀ i, watched (mergeContiguousGapRanges gaps) i ↔ watched gaps i).
Proof.
  intros Hok Ha Hb. destruct (mergeContiguousGapRanges_spec gaps Hok) as (Hw & Hok' & _).
  split; [|exact Hw]. split; [done| |].
  - apply separated_ascending; [done|]. apply mergeContiguousGapRanges_separated; [done|].
    by apply all_apart_sorted.
  - intros i Hi%Hw. by apply Hb.
Qed.

(** Taking a watched id out of the ranges. *)
Lemma remove_id_spec cursor gaps id :
  gaps_ok cursor gaps →
  let G := mergeContiguousGapRanges (gaps_without gaps id) in
  gaps_ok cursor G ∧ (∀ i, watched G i ↔ watched gaps i ∧ i ≠ id).
Proof.
  intros [Hok Ha Hb] G. unfold G. rewrite gaps_without_split.
  destruct (split_all_spec gaps [id] Hok Ha) as (Hkok & Hka & Hkw & _).
  destruct (merge_gaps_ok _ cursor Hkok (ascending_all_apart _ Hka)) as [HG Hw].
  { intros i [Hi _]%Hkw. by apply Hb. }
  split; [done|]. intros i. rewrite Hw, Hkw. set_solver.
Qed.

(** Jumping the cursor onto an id keeps the window below it watched. *)
Lemma jump_spec snap cursor gaps id :
  gaps_ok cursor gaps → cursor < id →
  let G := mergeContiguousGapRanges
             (match invisibleWindowGap snap cursor id with Some g => gaps ++ [g] | None => gaps end) in
  gaps_ok id G ∧ (∀ i, watched G i ↔ watched gaps i ∨ cursor < i < id).
Proof.
  intros [Hok Ha Hb] Hlt G. unfold G, invisibleWindowGap.
  destruct (id <=? cursor + 1) eqn:Hw1; reflect_bools.
  - destruct (merge_gaps_ok gaps id Hok (ascending_all_apart _ Ha)) as [HG Hw].
    { intros i Hi%Hb. lia. }
    split; [done|]. intros i. rewrite Hw. intuition lia.
  - set (w := mkGap _ _ _). assert (Hwok : gap_ok w) by (unfold gap_ok; simpl; lia).
    assert (Hin : ∀ i, in_gap w i ↔ cursor < i < id) by (intros i; unfold in_gap; simpl; lia).
    destruct (merge_gaps_ok (gaps ++ [w]) id) as [HG Hw].
    + apply Forall_app; split; [done|by repeat constructor].
    + apply all_apart_app; [done|by repeat constructor|by apply ascending_all_apart|by repeat constructor|].
      intros i Hi%Hb Hiw. rewrite watched_cons, watched_nil, Hin in Hiw. lia.
    + intros i. rewrite watched_app, watched_cons, watched_nil, Hin.
      intros [Hi|[?|[]]]; [specialize (Hb i Hi)|]; lia.
    + split; [done|]. intros i. rewrite Hw, watched_app, watched_cons, watched_nil, Hin. tauto.
Qed.

(** What the skip of one id does to the row. *)
Record skipped (before after : ConsumerStateRow) (id : Z) : Prop := {
  sk_open_before : still_open before id;
  sk_exact : ∀ i, still_open after i ↔ still_open before i ∧ i ≠ id;
  sk_gaps : gaps_ok (cs_lastProcessedEventId after) (cs_pendingGaps after);
  sk_cursor : cs_lastProcessedEventId before ≤ cs_lastProcessedEventId after;
  sk_fresh : cs_status after = Idle ∧ cs_attempts after = 0 ∧ cs_rearmCount after = 0 ∧
             cs_lastError after = None ∧ cs_lastFailedEventId after = None }.

Lemma skip_pending_skipped now c id :
  gaps_ok (cs_lastProcessedEventId c) (cs_pendingGaps c) → watched (cs_pendingGaps c) id →
  skipped c (mkConsumer (cs_lastProcessedEventId c) Idle 0 0
               (mergeContiguousGapRanges (gaps_without (cs_pendingGaps c) id)) None None now) id.
Proof.
  intros Hg Hw. destruct (remove_id_spec _ _ id Hg) as [HG Hi].
  pose proof (go_below _ _ Hg _ Hw) as Hle. split; simpl; [by left| |done|lia|done].
  intros i. unfold still_open; simpl. rewrite Hi. intuition lia.
Qed.

Lemma skip_jump_skipped snap now c id :
  gaps_ok (cs_lastProcessedEventId c) (cs_pendingGaps c) → cs_lastProcessedEventId c < id →
  skipped c (mkConsumer id Idle 0 0
               (mergeContiguousGapRanges
                  (match invisibleWindowGap snap (cs_lastProcessedEventId c) id with
                   | Some g => cs_pendingGaps c ++ [g] | None => cs_pendingGaps c end)) None None now) id.
Proof.
  intros Hg Hlt. destruct (jump_spec snap _ _ id Hg Hlt) as [HG Hi].
  split; simpl; [by right| |done|lia|done].
  intros i. unfold still_open; simpl. rewrite Hi.
  split.
  - intros [[Hw|?]|?]; [|intuition lia..]. split; [by left|]. pose proof (go_below _ _ Hg _ Hw). lia.
  - intros [[?|?] ?]; [by left; left|]. destruct (Z.lt_total i id) as [?|[?|?]]; [left; right; lia|lia|by right].
Qed.

(** ** Properties *)

(** Skipping a poison event takes exactly one id off the consumer: the
    ids it may still deliver afterwards are those of before without the
    skipped one, whether the id was watched below the cursor or stands above
    it, so an id that was merely invisible is never lost with it.  The skipped
    id is the one delivery recorded as failed whenever that is still open; the
    row comes back idle with its counters cleared and its ranges well formed,
    and other rows are untouched. *)
Theorem skipPoisonEvent_skips_one (snap : PgSnapshot) (evs : list StoredEventRow) (now : Z)
    (cs : Consumers) (key : ConsumerKey) (requireStatus : option string) (before : ConsumerStateRow)
    (Hrow : cs !! key = Some before)
    (Hgaps : gaps_ok (cs_lastProcessedEventId before) (cs_pendingGaps before))
    (Hreq : requireStatus = None ∨ requireStatus = Some (status_name (cs_status before))) :
  (∃ id after,
     skipPoisonEvent snap evs now cs key requireStatus
       = Ok (normalizeConsumerState key after, Some id, <[key := after]> cs) ∧
     skipped before after id ∧
     (∀ failed, cs_lastFailedEventId before = Some failed → still_open before failed → id = failed))
  ∨ (skipPoisonEvent snap evs now cs key requireStatus = Ok (normalizeConsumerState key before, None, cs) ∧
     (∀ failed, cs_lastFailedEventId before = Some failed → ¬ still_open before failed) ∧
     ∀ e, e ∈ evs → ¬ still_open before (row_id e)).
Proof.
  unfold skipPoisonEvent, requireConsumerRowForUpdate, selectConsumerForUpdate. rewrite Hrow. cbn [result_bind].
  assert (assertRequiredStatus key before requireStatus = Ok ()) as ->.
  { unfold assertRequiredStatus. destruct Hreq as [->| ->]; [done|]. by rewrite decide_True. }
  cbn [result_bind].
  assert (Hfailed : ∀ failed, cs_lastFailedEventId before = Some failed → still_open before failed →
            pending_poison_id evs before = Some failed ∨
            (pending_poison_id evs before = None ∧ failed_is_above_cursor before = true)).
  { unfold pending_poison_id, failed_is_pending, failed_is_above_cursor. intros f -> Hf.
    destruct (existsb _ _) eqn:Hw; [by left|]. right.
    destruct Hf as [Hf|Hf]; [apply existsb_watched in Hf; congruence|].
    apply Z.ltb_lt in Hf. by rewrite Hf. }
  destruct (pending_poison_id evs before) as [id|] eqn:Hp.
  { rewrite (update_row _ _ _ _ Hrow : removePendingGapReturning now cs key _ = _). left. eexists id, _. split; [done|]. split.
    - by apply skip_pending_skipped, pending_poison_id_watched with evs.
    - intros f Hf Ho. destruct (Hfailed f Hf Ho) as [?|[? _]]; congruence. }
  destruct (if failed_is_above_cursor before then _ else _) as [id|] eqn:Hn.
  { rewrite (update_row _ _ _ _ Hrow : advanceConsumerPastEventReturning now cs key _ _ = _). left. eexists id, _. split; [done|]. split.
    - apply skip_jump_skipped; [done|]. revert Hn. unfold failed_is_above_cursor.
      destruct (cs_lastFailedEventId before); [|apply selectNextEventIdAfter_above].
      case_match; reflect_bools; [by intros [= ->]|apply selectNextEventIdAfter_above].
    - intros f Hf Ho. destruct (Hfailed f Hf Ho) as [?|[_ Ha]]; [done|]. rewrite Ha in Hn. congruence. }
  right. split; [done|].
  assert (Habove : failed_is_above_cursor before = false).
  { destruct (failed_is_above_cursor before) eqn:Ha; [|done]. unfold failed_is_above_cursor in Ha.
    rewrite Hn in Ha. done. }
  rewrite Habove in Hn. split.
  - intros f Hf Ho. destruct (Hfailed f Hf Ho) as [?|[_ Ha]]; congruence.
  - intros e He. apply nothing_visible_open with evs; [done..|].
    revert Hp. unfold pending_poison_id. rewrite Habove.
    destruct (failed_is_pending before) eqn:Hf; [|done]. unfold failed_is_pending in Hf.
    by destruct (cs_lastFailedEventId before).
Qed.

Definition stuck_row : ConsumerStateRow :=
  mkConsumer 10 Dead 10 0 [mkGap 4 8 90] (Some 6) (Some "smtp down") 1000.

Definition mailer : ConsumerKey := ("mailer", SHARED_INSTANCE_SENTINEL).

Lemma stuck_row_gaps_ok : gaps_ok (cs_lastProcessedEventId stuck_row) (cs_pendingGaps stuck_row).
Proof.
  split; [repeat constructor; by unfold gap_ok|repeat constructor|].
  intros i (g & ->%list_elem_of_singleton & Hi). unfold in_gap in Hi. simpl in *. lia.
Qed.

Lemma skipPoisonEvent_skips_one_witness :
  skipPoisonEvent (mkSnapshotBounds 100 101 []) [] 2000 {[mailer := stuck_row]} mailer (Some "dead")
    = Ok (mkRecovery "mailer" "__shared__" "idle" 10 0 0 None 2000, Some 6,
          {[mailer := mkConsumer 10 Idle 0 0 [mkGap 4 5 90; mkGap 7 8 90] None None 2000]})
  ∧ ∃ id after, skipped stuck_row after id ∧ id = 6.
Proof.
  split; [reflexivity|].
  destruct (skipPoisonEvent_skips_one (mkSnapshotBounds 100 101 []) [] 2000 {[mailer := stuck_row]} mailer
              (Some "dead") stuck_row (lookup_singleton_eq _ _) stuck_row_gaps_ok
              (or_intror eq_refl)) as [(id & after & _ & Hs & Hid)|(Hnone & _)].
  - exists id, after. split; [exact Hs|]. apply Hid; [reflexivity|]. left. exists (mkGap 4 8 90).
    split; [by left|]. unfold in_gap; simpl; lia.
  - discriminate Hnone.
Defined.

(** A skip without a required status also returns a disabled consumer to idle. *)
Lemma skip_reenables_a_disabled_consumer :
  let row := mkConsumer 10 Disabled 0 0 [] (Some 11) None 1000 in
  ∃ after cs', skipPoisonEvent (mkSnapshotBounds 100 101 []) [] 2000 {[mailer := row]} mailer None
                 = Ok (after, Some 11, cs') ∧ rs_status after = "idle".
Proof. eexists _, _. split; reflexivity. Qed.

(** What an operator's status change leaves of a row. *)
Definition with_status (now : Z) (status : ConsumerStatus) (c : ConsumerStateRow) : ConsumerStateRow :=
  mkConsumer (cs_lastProcessedEventId c) status 0 0 (cs_pendingGaps c) (cs_lastFailedEventId c) None now.

Lemma transition_decides (now : Z) (cs : Consumers) (key : ConsumerKey) (status : ConsumerStatus) :
  applyConsumerStatusTransition now cs key status =
    match cs !! key with
    | Some c => Ok (normalizeConsumerState key (with_status now status c),
                    <[key := with_status now status c]> cs)
    | None => Err (ConsumerVanished key)
    end.
Proof.
  unfold applyConsumerStatusTransition, updateConsumerStatusReturning.
  destruct (cs !! key) as [c|] eqn:Hc.
  - by rewrite (update_row _ _ _ _ Hc).
  - by rewrite (update_returning_missing _ _ _ Hc).
Qed.

(** The operator's transitions, on every branch: an unknown consumer and a
    wrong status are rejected from what was read; restart leaves only the dead
    status and enable only the disabled one, while disable leaves any; the
    write keeps the cursor, the watched ranges and the failed event as they
    are when it happens, so a restarted consumer retries the same event; a row
    deleted in between is reported.  Every other row keeps its state. *)
Theorem operator_transitions_decide (now : Z) (cs : Consumers) (meanwhile : Consumers → Consumers)
    (key : ConsumerKey) :
  let write status :=
    match meanwhile cs !! key with
    | Some c => Ok (normalizeConsumerState key (with_status now status c),
                    <[key := with_status now status c]> (meanwhile cs))
    | None => Err (ConsumerVanished key)
    end in
  let back_to_idle from :=
    match cs !! key with
    | None => Err (UnknownConsumer key)
    | Some c => if decide (cs_status c = from) then write Idle
                else Err (WrongStatus key (status_name (cs_status c)))
    end in
  restartConsumer now cs meanwhile key = back_to_idle Dead ∧
  enableConsumer now cs meanwhile key = back_to_idle Disabled ∧
  disableConsumer now cs meanwhile key =
    match cs !! key with None => Err (UnknownConsumer key) | Some _ => write Disabled end.
Proof.
  unfold restartConsumer, enableConsumer, disableConsumer, returnConsumerToIdleFrom, requireConsumerRow.
  destruct (cs !! key) as [c|]; cbn [result_bind]; rewrite ?transition_decides; done.
Qed.

(** The listing shows exactly the registered consumers: every shard row of
    a registered name with its own state, one placeholder for each registered
    name without a shard, and no row of a name the registry does not know.
    The progress listing adds the log's highest id and the distance to it. *)
Theorem listing_is_registry_joined_with_rows (db : EventsDb) (cs : Consumers)
    (registeredNames : list string) :
  (∀ c, c ∈ listConsumersWithState cs registeredNames ↔
     cl_name c ∈ registeredNames ∧
     ((∃ key row, cs !! key = Some row ∧ c = listing_of key row)
      ∨ ((∀ instanceId, cs !! (cl_name c, instanceId) = None) ∧ c = never_run (cl_name c)))) ∧
  (∀ p, p ∈ getAllConsumerProgress db cs registeredNames →
     cp_consumer p ∈ listConsumersWithState cs registeredNames ∧
     cl_lastProcessedEventId (cp_consumer p) + cp_lag p = cp_highWaterMark p ∧
     ∀ e, e ∈ db_events db → row_id e ≤ cp_highWaterMark p).
Proof.
  split.
  - intros c. unfold listConsumersWithState. rewrite elem_of_app, !list_elem_of_fmap.
    split.
    + intros [([key row] & -> & [Hr Hm]%list_elem_of_filter)|(name & -> & [Hn Hr]%list_elem_of_filter)]; simpl in *.
      * split; [done|]. left. exists key, row. by rewrite elem_of_map_to_list in Hm.
      * split; [done|]. right. split; [|done]. intros i. apply eq_None_not_Some. intros [row Hrow].
        apply Hn. apply list_elem_of_fmap. exists ((name, i), row). split; [done|].
        apply list_elem_of_filter. split; [done|]. by apply elem_of_map_to_list.
    + intros [Hr [(key & row & Hm & ->)|[Hnone Hc]]].
      * left. exists (key, row). split; [done|]. apply list_elem_of_filter. split; [done|].
        by apply elem_of_map_to_list.
      * right. exists (cl_name c). split; [exact Hc|]. apply list_elem_of_filter. split; [|done].
        intros ([[n i] row] & Hn & [_ Hm]%list_elem_of_filter)%list_elem_of_fmap.
        apply elem_of_map_to_list in Hm. simpl in Hn. specialize (Hnone i). rewrite Hn in Hnone. congruence.
  - intros p (c & -> & Hc)%list_elem_of_fmap. split_and!; [done|simpl; lia|].
    intros e He. simpl. unfold selectEventsHighWaterMark. clear -He.
    induction (db_events db) as [|r rs IH]; [set_solver|]. simpl.
    apply elem_of_cons in He as [->|He]; [lia|]. specialize (IH He). lia.
Qed.
