(* ===== verification/Retention.v ===== *)
(** * Retention of the event log

    [pipeline/event-retention.ts]: pruning events of named aggregate types that
    are older than a cutoff, guarded by the consumers' cursors.  [now] is
    [Temporal.Now.instant()] in epoch milliseconds; numbers the caller passes
    are rationals, because the source tests whether they are integers.  The
    transaction holds the consumer table in share mode, so the table is one
    argument. *)

From Stdlib Require Import QArith.
From S2P Require Import Prelude GapRanges EventLog ConsumerState DispatcherAdmin.

Open Scope Z_scope.

(** ** Data *)

Record PruneEventsOptions := mkPrune {
  pr_olderThan : option Z;
  pr_olderThanDays : option Q;
  pr_aggregateTypes : list string;
  pr_aggregateIds : option (list string);
  pr_dryRun : bool;
  pr_batchSize : option Q }.

Record PruneEventsResult := mkPruned {
  pd_deletedCount : Z;
  pd_cutoff : Z;
  pd_aggregateTypes : list string;
  pd_dryRun : bool }.

(** The [throw]s of the module; [FractionalHours] is the [RangeError] of
    [Instant.subtract] on a number of hours that is not an integer. *)
Inductive PruneError :=
| NoCutoff
| FractionalHours
| NoAggregateTypes
| EmptyAggregateIds
| BadBatchSize
| ConsumerLag (laggingConsumer : string) (consumerCursor maxCandidateId : Z).

(** ** Operations *)

Definition MS_PER_HOUR : Z := 3600000.

Definition resolveCutoff (now : Z) (opts : PruneEventsOptions) : result PruneError Z :=
  match pr_olderThan opts with
  | Some t => Ok t
  | None =>
      match pr_olderThanDays opts with
      | None => Err NoCutoff
      | Some days =>
          if Qle_bool days 0 then Err NoCutoff
          else match integer_of (Qmult days (24 # 1)) with
               | Some hours => Ok (now - hours * MS_PER_HOUR)
               | None => Err FractionalHours
               end
      end
  end.

(** The guards of [pruneEvents] before it opens its transaction; the second
    component is the [LIMIT]. *)
Definition checked_options (now : Z) (opts : PruneEventsOptions) : result PruneError (Z * option nat) :=
  let? cutoff := resolveCutoff now opts in
  match pr_aggregateTypes opts with
  | [] => Err NoAggregateTypes
  | _ =>
      if decide (pr_aggregateIds opts = Some []) then Err EmptyAggregateIds
      else match pr_batchSize opts with
           | None => Ok (cutoff, None)
           | Some q =>
               match integer_of q with
               | Some n => if n <? 1 then Err BadBatchSize else Ok (cutoff, Some (Z.to_nat n))
               | None => Err BadBatchSize
               end
           end
  end.

Definition is_candidate (opts : PruneEventsOptions) (cutoff : Z) (r : StoredEventRow) : Prop :=
  row_aggregateType r ∈ pr_aggregateTypes opts ∧
  match pr_aggregateIds opts with Some ids => row_aggregateId r ∈ ids | None => True end ∧
  row_createdAt r < cutoff.

#[export] Instance is_candidate_dec opts cutoff r : Decision (is_candidate opts cutoff r).
Proof. unfold is_candidate. destruct (pr_aggregateIds opts); apply _. Defined.

Definition prune_candidates (evs : list StoredEventRow) (opts : PruneEventsOptions) (cutoff : Z)
    (limit : option nat) : list StoredEventRow :=
  let rows := filter (is_candidate opts cutoff) evs in
  match limit with None => rows | Some n => take n (sort_by row_id rows) end.

Definition maxCandidateId (candidates : list StoredEventRow) : Z :=
  foldl (λ acc r, if acc <? row_id r then row_id r else acc) (from_option row_id 0 (head candidates))
    candidates.

(** The first row the guard refuses, in the order the rows come back. *)
Definition lagging_consumer (cs : Consumers) (maxId : Z) : option (ConsumerKey * ConsumerStateRow) :=
  head (filter (λ kr, cs_status kr.2 ≠ Disabled ∧ cs_lastProcessedEventId kr.2 < maxId)
          (map_to_list cs)).

(** The result and the event table after the transaction. *)
Definition pruneEvents (now : Z) (evs : list StoredEventRow) (cs : Consumers)
    (opts : PruneEventsOptions) : result PruneError (PruneEventsResult * list StoredEventRow) :=
  let? checked := checked_options now opts in
  let '(cutoff, limit) := checked in
  let candidates := prune_candidates evs opts cutoff limit in
  match candidates with
  | [] => Ok (mkPruned 0 cutoff (pr_aggregateTypes opts) (pr_dryRun opts), evs)
  | _ =>
      let maxId := maxCandidateId candidates in
      match lagging_consumer cs maxId with
      | Some (key, c) => Err (ConsumerLag key.1 (cs_lastProcessedEventId c) maxId)
      | None =>
          let count := Z.of_nat (length candidates) in
          if pr_dryRun opts then Ok (mkPruned count cutoff (pr_aggregateTypes opts) true, evs)
          else Ok (mkPruned count cutoff (pr_aggregateTypes opts) false,
                   filter (λ r, row_id r ∉ row_id <$> candidates) evs)
      end
  end.

(** ** Lemmas *)

Lemma maxCandidateId_spec r rows :
  (∀ x, x ∈ r :: rows → row_id x ≤ maxCandidateId (r :: rows)) ∧
  ∃ x, x ∈ r :: rows ∧ row_id x = maxCandidateId (r :: rows).
Proof.
  unfold maxCandidateId; simpl from_option. set (f := λ _ _, _).
  assert (Hfold : ∀ l acc, acc ≤ foldl f acc l ∧ (∀ x, x ∈ l → row_id x ≤ foldl f acc l) ∧
            (foldl f acc l = acc ∨ ∃ x, x ∈ l ∧ row_id x = foldl f acc l)).
  { induction l as [|y l IH]; intros acc; simpl; [split_and!; [lia|set_solver|by left]|].
    destruct (IH (f acc y)) as (H1 & H2 & H3).
    assert (Hf : (f acc y = row_id y ∧ acc ≤ row_id y) ∨ (f acc y = acc ∧ row_id y ≤ acc)).
    { unfold f. destruct (acc <? row_id y) eqn:?; reflect_bools; [left|right]; lia. }
    split_and!.
    - lia.
    - intros x [->|Hx]%elem_of_cons; [lia|by apply H2].
    - destruct H3 as [H3|(x & Hx & H3)]; [|right; exists x; set_solver].
      destruct Hf as [[Hf _]|[Hf _]]; [right; exists y; split; [set_solver|congruence]|left; congruence]. }
  destruct (Hfold (r :: rows) (row_id r)) as (_ & Hall & Hmax). split; [exact Hall|].
  destruct Hmax as [Hm|Hx]; [exists r; split; [set_solver|by symmetry]|exact Hx].
Qed.

Lemma lagging_consumer_None (cs : Consumers) (maxId : Z) :
  lagging_consumer cs maxId = None →
  ∀ (key : ConsumerKey) (c : ConsumerStateRow),
    cs !! key = Some c → cs_status c = Disabled ∨ maxId ≤ cs_lastProcessedEventId c.
Proof.
  unfold lagging_consumer. intros Hn key c Hc. apply head_None in Hn.
  destruct (decide (cs_status c = Disabled)) as [|Hs]; [by left|]. right.
  apply Z.nlt_ge. intros Hlt. apply (not_elem_of_nil (key, c)). rewrite <- Hn.
  apply list_elem_of_filter. split; [done|]. by apply elem_of_map_to_list.
Qed.

Lemma lagging_consumer_Some (cs : Consumers) (maxId : Z) (key : ConsumerKey) (c : ConsumerStateRow) :
  lagging_consumer cs maxId = Some (key, c) →
  cs !! key = Some c ∧ cs_status c ≠ Disabled ∧ cs_lastProcessedEventId c < maxId.
Proof.
  unfold lagging_consumer. intros Hs. apply head_Some_elem_of, list_elem_of_filter in Hs as [[] Hs].
  by apply elem_of_map_to_list in Hs.
Qed.

Lemma prune_candidates_spec evs opts cutoff limit :
  (∀ r, r ∈ prune_candidates evs opts cutoff limit → r ∈ evs ∧ is_candidate opts cutoff r) ∧
  match limit with
  | None => ∀ r, r ∈ evs → is_candidate opts cutoff r → r ∈ prune_candidates evs opts cutoff limit
  | Some n => (length (prune_candidates evs opts cutoff limit) ≤ n)%nat ∧
      ∀ r s, r ∈ evs → is_candidate opts cutoff r → r ∉ prune_candidates evs opts cutoff limit →
             s ∈ prune_candidates evs opts cutoff limit → row_id s ≤ row_id r
  end.
Proof.
  unfold prune_candidates. destruct limit as [n|]; split_and!.
  - intros r Hr.
    assert (Hr' : r ∈ sort_by row_id (filter (is_candidate opts cutoff) evs))
      by (rewrite <- (take_drop n); set_solver).
    rewrite elem_of_sort_by, list_elem_of_filter in Hr'. tauto.
  - rewrite length_take. lia.
  - intros r s Hr Hc Hn Hs.
    destruct (take_sorted_leaves_out row_id n (sort_by row_id (filter (is_candidate opts cutoff) evs)) r)
      as [_ Hle]; [apply sort_by_sorted|by rewrite elem_of_sort_by, list_elem_of_filter|done|by apply Hle].
  - intros r Hr. rewrite list_elem_of_filter in Hr. tauto.
  - intros r Hr Hc. by apply list_elem_of_filter.
Qed.

(** A row the transaction removes was a candidate no active consumer has
    still to reach. *)
Definition safely_deletable (cs : Consumers) (opts : PruneEventsOptions) (cutoff : Z)
    (r : StoredEventRow) : Prop :=
  is_candidate opts cutoff r ∧
  ∀ (key : ConsumerKey) (c : ConsumerStateRow),
    cs !! key = Some c → cs_status c ≠ Disabled → row_id r ≤ cs_lastProcessedEventId c.

Lemma guard_covers_candidates cs opts evs cutoff limit c0 rest :
  prune_candidates evs opts cutoff limit = c0 :: rest →
  lagging_consumer cs (maxCandidateId (c0 :: rest)) = None →
  ∀ r, r ∈ c0 :: rest → r ∈ evs ∧ safely_deletable cs opts cutoff r.
Proof.
  intros Hc Hlag r Hr. destruct (prune_candidates_spec evs opts cutoff limit) as [Hin _].
  rewrite Hc in Hin. destruct (Hin r Hr) as [He Hcand]. split; [done|]. split; [done|].
  intros key c Hk Hs. destruct (lagging_consumer_None _ _ Hlag key c Hk) as [|Hle]; [done|].
  destruct (maxCandidateId_spec c0 rest) as [Hmax _]. specialize (Hmax r Hr). lia.
Qed.

(** Deleting by id removes exactly the candidates. *)
Lemma delete_by_id_exact (evs rows : list StoredEventRow) :
  NoDup (row_id <$> evs) → (∀ r, r ∈ rows → r ∈ evs) →
  ∀ r, r ∈ evs → r ∈ filter (λ r, row_id r ∉ row_id <$> rows) evs ↔ r ∉ rows.
Proof.
  intros Hnd Hsub r Hr. rewrite list_elem_of_filter. split.
  - intros [Hn _] Hin. by apply Hn, list_elem_of_fmap_2.
  - intros Hn. split; [|done]. intros (s & Hs & Hin)%list_elem_of_fmap. apply Hn.
    by rewrite (NoDup_key_inj row_id evs r s Hnd Hr (Hsub s Hin) Hs).
Qed.

(** ** Properties *)

(** Pruning is exact and guarded.  It refuses while a consumer that is not
    disabled stands below the highest candidate, naming such a consumer and
    its cursor; otherwise the rows it deletes are exactly the candidates (named
    type, named aggregate if ids are given, strictly older than the cutoff),
    each at or below the cursor of every consumer that is not disabled, and at
    most the batch size of them, lowest ids first; the reported count is
    theirs; a dry run deletes nothing. *)
Theorem pruneEvents_deletes_only_passed_events (now : Z) (evs : list StoredEventRow) (cs : Consumers)
    (opts : PruneEventsOptions) (cutoff : Z) (limit : option nat)
    (Hids : NoDup (row_id <$> evs))
    (Hopts : checked_options now opts = Ok (cutoff, limit)) :
  let candidates := prune_candidates evs opts cutoff limit in
  match pruneEvents now evs cs opts with
  | Err e =>
      ∃ (key : ConsumerKey) (c : ConsumerStateRow) (r : StoredEventRow),
        e = ConsumerLag key.1 (cs_lastProcessedEventId c) (row_id r) ∧
        cs !! key = Some c ∧ cs_status c ≠ Disabled ∧
        r ∈ candidates ∧ cs_lastProcessedEventId c < row_id r
  | Ok (res, evs') =>
      res = mkPruned (Z.of_nat (length candidates)) cutoff (pr_aggregateTypes opts) (pr_dryRun opts) ∧
      evs' `sublist_of` evs ∧
      (∀ r, r ∈ evs → r ∉ evs' ↔ r ∈ candidates ∧ pr_dryRun opts = false) ∧
      (∀ r, r ∈ candidates → safely_deletable cs opts cutoff r) ∧
      match limit with
      | Some n => (length candidates ≤ n)%nat ∧
          ∀ r s, r ∈ evs → is_candidate opts cutoff r → r ∉ candidates → s ∈ candidates →
                 row_id s ≤ row_id r
      | None => ∀ r, r ∈ evs → is_candidate opts cutoff r → r ∈ candidates
      end
  end.
Proof.
  intros candidates. unfold pruneEvents. rewrite Hopts. cbn [result_bind]. fold candidates.
  destruct (prune_candidates_spec evs opts cutoff limit) as [Hin Hlim]. fold candidates in Hin, Hlim.
  destruct candidates as [|c0 rest] eqn:Hc.
  { split_and!; [done|done| |set_solver|done]. intros r Hr. set_solver. }
  destruct (lagging_consumer cs _) as [[key c]|] eqn:Hlag.
  { destruct (lagging_consumer_Some _ _ _ _ Hlag) as (Hk & Hs & Hlt).
    destruct (maxCandidateId_spec c0 rest) as [_ (x & Hx & Hm)]. rewrite <- Hm in *.
    by exists key, c, x. }
  pose proof (guard_covers_candidates cs opts evs cutoff limit c0 rest Hc Hlag) as Hsafe.
  destruct (pr_dryRun opts) eqn:Hdry.
  - split_and!; [done|done| |intros r Hr; by apply Hsafe|done]. intros r Hr. set_solver.
  - split_and!; [done|apply sublist_filter| |intros r Hr; by apply Hsafe|done].
    intros r Hr. pose proof (delete_by_id_exact evs (c0 :: rest) Hids (λ r Hr, proj1 (Hsafe r Hr)) r Hr) as Hdel.
    destruct (decide (row_id r ∈ row_id <$> c0 :: rest)) as [Hd|Hd].
    + rewrite Hdel. split; [|tauto]. intros Hn. split; [|done].
      apply list_elem_of_fmap in Hd as (s & Hs & Hsin).
      by rewrite (NoDup_key_inj row_id evs r s Hids Hr (proj1 (Hsafe s Hsin)) Hs).
    + split; [|intros [Hx _] _; by apply Hd, list_elem_of_fmap_2].
      intros Hn. exfalso. apply Hn. by apply list_elem_of_filter.
Qed.

Definition ledger_event (id : Z) (createdAt : Z) : StoredEventRow :=
  mkRow id "a1" "ledger" "t1" id "ledger:event:posted" 1 []
    (mkMetadata "u1" None None None None None None None None) createdAt "u1".

Definition prune_ledger : PruneEventsOptions :=
  mkPrune (Some 5000) None ["ledger"] None false (Some (2 # 1)%Q).

Definition ledger_log : list StoredEventRow :=
  [ledger_event 1 100; ledger_event 2 200; ledger_event 3 300; ledger_event 4 9000].

Definition ledger_consumers : Consumers := {[mailer := mkConsumer 4 Idle 0 0 [] None None 0]}.

Lemma ledger_pruned :
  pruneEvents 9999 ledger_log ledger_consumers prune_ledger
    = Ok (mkPruned 2 5000 ["ledger"] false, [ledger_event 3 300; ledger_event 4 9000]).
Proof. reflexivity. Qed.

Lemma pruneEvents_deletes_only_passed_events_witness :
  NoDup (row_id <$> ledger_log) ∧
  checked_options 9999 prune_ledger = Ok (5000, Some 2%nat) ∧
  ∀ r, r ∈ prune_candidates ledger_log prune_ledger 5000 (Some 2%nat) →
       safely_deletable ledger_consumers prune_ledger 5000 r.
Proof.
  assert (Hnd : NoDup (row_id <$> ledger_log)) by (apply (bool_decide_eq_true_1 _); reflexivity).
  split; [exact Hnd|]. split; [reflexivity|].
  pose proof (pruneEvents_deletes_only_passed_events 9999 ledger_log ledger_consumers
                prune_ledger 5000 (Some 2%nat) Hnd eq_refl) as Hall.
  cbv zeta in Hall. rewrite ledger_pruned in Hall.
  exact (proj1 (proj2 (proj2 (proj2 Hall)))).
Defined.

(** The guard reads the cursor only: an event that a consumer still watches
    below its cursor (a failed event of a batch, or one that was invisible when
    the cursor passed it) is deleted although it has not been delivered. *)
Lemma prune_deletes_a_watched_event :
  let evs := [ledger_event 1 100; ledger_event 2 200] in
  let row := mkConsumer 2 Idle 0 0 [mkGap 1 1 90] None (Some "held") 0 in
  still_open row 1 ∧
  ∃ res evs', pruneEvents 9999 evs {[mailer := row]} prune_ledger = Ok (res, evs') ∧
              ledger_event 1 100 ∈ evs ∧ ledger_event 1 100 ∉ evs'.
Proof.
  split.
  - left. exists (mkGap 1 1 90). split; [by left|]. unfold in_gap; simpl; lia.
  - eexists _, _. split; [reflexivity|]. split; [by left|]. apply not_elem_of_nil.
Qed.
