(* ===== verification/Snapshot.v ===== *)
(** * Aggregate snapshots

    [event-store/snapshot.ts]: generations, saving, the latest snapshot of a
    stream and the snapshot-aware rehydrate.  States are rows, the caller's
    reducer and upcaster are arguments; [saveFails] says whether the
    best-effort write of the auto-snapshot raises. *)

From S2P Require Import Prelude EventLog EventStore.

Open Scope Z_scope.

(** ** Generations *)

Definition ENTITY_EVENT_VERSION_RADIX : Z := 1000.

Definition effectiveSnapshotGeneration (callerVersion : Z) (entityEventVersion : option Z) : Z :=
  match entityEventVersion with
  | None => callerVersion
  | Some v => if v =? 1 then callerVersion
              else - (callerVersion * ENTITY_EVENT_VERSION_RADIX + v)
  end.

(** ** Save and latest *)

Record SaveSnapshotArgs := mkSaveSnapshot {
  ss_aggregateId : string;
  ss_tenantId : string;
  ss_aggregateType : string;
  ss_version : Z;
  ss_state : Row;
  ss_snapshotVersion : option Z }.

Definition saveSnapshot (db : EventsDb) (args : SaveSnapshotArgs) : EventsDb :=
  upsertSnapshot db (ss_aggregateId args) (ss_tenantId args) (ss_aggregateType args)
    (ss_version args) (ss_state args) (default 1 (ss_snapshotVersion args)).

Definition snapshot_of (aggregateId tenantId : string) (s : Snapshot) : Prop :=
  sn_aggregateId s = aggregateId ∧ sn_tenantId s = tenantId.

#[export] Instance snapshot_of_dec a t s : Decision (snapshot_of a t s).
Proof. unfold snapshot_of. apply _. Defined.

Definition loadLatestSnapshot (db : EventsDb) (aggregateId tenantId : string) : option Snapshot :=
  head (sort_by (λ s, - sn_version s)
          (filter (snapshot_of aggregateId tenantId) (map_to_list (db_snapshots db)).*2)).

(** ** Rehydrate *)

Section rehydrate.
Context {E : Type}.

Record LoadAggregateWithSnapshotOptions := mkSnapshotOptions {
  so_includeArchived : bool;
  so_upcastEvent : option (StoredEvent → result E StoredEvent);
  so_snapshotEvery : option QArith_base.Q;
  so_snapshotVersion : option Z;
  so_entityEventVersionOf : option (string → option Z) }.

Record LoadAggregateWithSnapshotResult := mkSnapshotResult {
  sr_state : Row;
  sr_version : Z;
  sr_snapshotHit : bool }.

Inductive SnapshotLoadError :=
| BadSnapshotEvery
| UpcastFailed (e : E).

Definition snapshotEvery_ok (o : LoadAggregateWithSnapshotOptions) : bool :=
  match so_snapshotEvery o with
  | None => true
  | Some q => match integer_of q with Some n => 1 <=? n | None => false end
  end.

Definition generationFor (o : LoadAggregateWithSnapshotOptions) (aggregateType : string) : Z :=
  effectiveSnapshotGeneration (default 1 (so_snapshotVersion o))
    (so_entityEventVersionOf o ≫= λ f, f aggregateType).

(** The [for] loop over the delta. *)
Fixpoint fold_delta (o : LoadAggregateWithSnapshotOptions) (reducer : Row → StoredEvent → Row)
    (state : Row) (delta : list StoredEvent) : result E Row :=
  match delta with
  | [] => Ok state
  | event :: rest =>
      match match so_upcastEvent o with Some f => f event | None => Ok event end with
      | Ok effective => fold_delta o reducer (reducer state effective) rest
      | Err e => Err e
      end
  end.

Definition reaches_policy (o : LoadAggregateWithSnapshotOptions) (delta : list StoredEvent) : bool :=
  match so_snapshotEvery o ≫= integer_of with
  | Some n => n <=? Z.of_nat (length delta)
  | None => false
  end.

Definition loadAggregateWithSnapshot (saveFails : bool) (db : EventsDb) (aggregateId tenantId : string)
    (reducer : Row → StoredEvent → Row) (initial : Row) (o : LoadAggregateWithSnapshotOptions)
    : result SnapshotLoadError LoadAggregateWithSnapshotResult * EventsDb :=
  if negb (snapshotEvery_ok o) then (Err BadSnapshotEvery, db)
  else if negb (so_includeArchived o) && isStreamArchived db tenantId aggregateId
  then (Ok (mkSnapshotResult initial 0 false), db)
  else
    let snapshot := match loadLatestSnapshot db aggregateId tenantId with
                    | Some stored =>
                        if sn_snapshotVersion stored =? generationFor o (sn_aggregateType stored)
                        then Some stored else None
                    | None => None
                    end in
    let afterVersion := from_option sn_version 0 snapshot in
    let delta := loadEventsAfterVersion db aggregateId tenantId afterVersion in
    match fold_delta o reducer (from_option sn_state initial snapshot) delta with
    | Err e => (Err (UpcastFailed e), db)
    | Ok state =>
        let latestVersion := from_option se_version afterVersion (last delta) in
        let db' :=
          match last delta with
          | Some lastDelta =>
              if reaches_policy o delta && negb saveFails
              then saveSnapshot db
                     (mkSaveSnapshot aggregateId tenantId (se_aggregateType lastDelta) latestVersion state
                        (Some (generationFor o (se_aggregateType lastDelta))))
              else db
          | None => db
          end in
        (Ok (mkSnapshotResult state latestVersion (bool_decide (is_Some snapshot))), db')
    end.
End rehydrate.
Arguments LoadAggregateWithSnapshotOptions E : clear implicits.
Arguments SnapshotLoadError E : clear implicits.

(** ** Specification *)

(** What replaying the whole stream computes. *)
Definition replay {E} (o : LoadAggregateWithSnapshotOptions E) (reducer : Row → StoredEvent → Row)
    (initial : Row) (rows : list StoredEventRow) : result E Row :=
  fold_delta o reducer initial (toStoredEvent <$> rows).

(** The snapshots of one stream: filed under their own key, taken by the
    stream's tenant, and, when their generation is the reader's, equal to the
    replay of the prefix they cover. *)
Record snapshots_sound {E} (o : LoadAggregateWithSnapshotOptions E)
    (reducer : Row → StoredEvent → Row) (initial : Row) (db : EventsDb) (a t : string) : Prop := {
  snd_key : ∀ v s, db_snapshots db !! (a, v) = Some s →
    sn_aggregateId s = a ∧ sn_version s = v ∧ sn_tenantId s = t;
  snd_other : ∀ b v s, db_snapshots db !! (b, v) = Some s → sn_aggregateId s = b;
  snd_state : ∀ v s, db_snapshots db !! (a, v) = Some s →
    sn_snapshotVersion s = generationFor o (sn_aggregateType s) →
    0 ≤ v ≤ Z.of_nat (length (stream db a t)) ∧
    replay o reducer initial (take (Z.to_nat v) (stream db a t)) = Ok (sn_state s) }.

(** ** Lemmas *)

Lemma fold_delta_app {E} (o : LoadAggregateWithSnapshotOptions E) reducer state d1 d2 :
  fold_delta o reducer state (d1 ++ d2) = result_bind (λ s, fold_delta o reducer s d2)
                                            (fold_delta o reducer state d1).
Proof.
  revert state. induction d1 as [|e d1 IH]; intros state; simpl; [done|].
  destruct (so_upcastEvent o) as [f|]; [|apply IH]. by destruct (f e); [apply IH|].
Qed.

Lemma filter_versions_drop (l : list StoredEventRow) k n :
  row_version <$> l = seqZ k (Z.of_nat (length l)) → k - 1 ≤ n →
  filter (λ r, n < row_version r) l = drop (Z.to_nat (n - k + 1)) l.
Proof.
  revert k n. induction l as [|r l IH]; intros k n Hv Hn; [by rewrite drop_nil|].
  rewrite fmap_cons, length_cons, Nat2Z.inj_succ, seqZ_cons in Hv by lia.
  injection Hv as Hr Hl. rewrite Z.pred_succ in Hl.
  destruct (decide (n < k)) as [Hlt|Hge].
  - replace (Z.to_nat (n - k + 1)) with 0%nat by lia. simpl drop. apply filter_keeps_all.
    intros x [->|Hx]%elem_of_cons; [lia|].
    assert (Hin : row_version x ∈ seqZ (Z.succ k) (Z.of_nat (length l)))
      by (rewrite <- Hl; by apply list_elem_of_fmap_2).
    apply elem_of_seqZ in Hin. lia.
  - rewrite filter_cons_False by lia. rewrite (IH (Z.succ k) n Hl) by lia.
    replace (Z.to_nat (n - k + 1)) with (S (Z.to_nat (n - Z.succ k + 1))) by lia. done.
Qed.

(** The delta after a version is the stream without its first rows. *)
Lemma delta_is_the_rest db a t n :
  log_ok db → 0 ≤ n →
  loadEventsAfterVersion db a t n = toStoredEvent <$> drop (Z.to_nat n) (stream db a t).
Proof.
  intros Hok Hn. unfold loadEventsAfterVersion.
  rewrite (select_stream_part db a t _ (λ r, n < row_version r)); [|done|naive_solver].
  rewrite (filter_versions_drop _ 1 n) by (apply (stream_versions db Hok) || lia).
  do 2 f_equal. lia.
Qed.

Lemma loadLatestSnapshot_spec db a t s :
  loadLatestSnapshot db a t = Some s →
  snapshot_of a t s ∧ ∃ k, db_snapshots db !! k = Some s.
Proof.
  unfold loadLatestSnapshot. intros Hs%head_Some_elem_of.
  rewrite elem_of_sort_by, list_elem_of_filter in Hs. destruct Hs as [Hof Hs].
  split; [done|]. apply list_elem_of_fmap in Hs as ([k s'] & -> & Hk).
  exists k. by apply elem_of_map_to_list in Hk.
Qed.

Lemma last_drop_version db a t n e :
  log_ok db → last (toStoredEvent <$> drop n (stream db a t)) = Some e →
  se_version e = getStreamVersion db a t.
Proof.
  intros Hok Hl. rewrite <- (last_version_stream db a t Hok).
  assert (Hs : last (toStoredEvent <$> stream db a t) = Some e).
  { rewrite <- (take_drop n (stream db a t)), fmap_app, last_app, Hl. done. }
  by rewrite Hs.
Qed.

(** The snapshot a load starts from. *)
Definition usable_snapshot {E} (o : LoadAggregateWithSnapshotOptions E) (db : EventsDb)
    (a t : string) : option Snapshot :=
  match loadLatestSnapshot db a t with
  | Some stored => if sn_snapshotVersion stored =? generationFor o (sn_aggregateType stored)
                   then Some stored else None
  | None => None
  end.

Section sound.
Context {E : Type} (o : LoadAggregateWithSnapshotOptions E) (reducer : Row → StoredEvent → Row)
  (initial : Row) (db : EventsDb) (a t : string).
Context (Hok : log_ok db) (Hsound : snapshots_sound o reducer initial db a t).
#[local] Set Default Proof Using "All".

Lemma usable_snapshot_covers :
  let n := from_option sn_version 0 (usable_snapshot o db a t) in
  0 ≤ n ≤ Z.of_nat (length (stream db a t)) ∧
  replay o reducer initial (take (Z.to_nat n) (stream db a t))
    = Ok (from_option sn_state initial (usable_snapshot o db a t)).
Proof.
  unfold usable_snapshot. destruct (loadLatestSnapshot db a t) as [s|] eqn:Hl; simpl; [|split; [lia|done]].
  destruct (_ =? _) eqn:Hg; simpl; [|split; [lia|done]]. reflect_bools.
  destruct (loadLatestSnapshot_spec _ _ _ _ Hl) as [[Ha Ht] ([b v] & Hk)].
  assert (b = a) as -> by (by rewrite <- (snd_other _ _ _ _ _ _ Hsound _ _ _ Hk)).
  destruct (snd_key _ _ _ _ _ _ Hsound _ _ Hk) as (_ & -> & _).
  by apply (snd_state _ _ _ _ _ _ Hsound).
Qed.

Lemma delta_completes_replay :
  let u := usable_snapshot o db a t in
  fold_delta o reducer (from_option sn_state initial u)
    (loadEventsAfterVersion db a t (from_option sn_version 0 u))
  = replay o reducer initial (stream db a t).
Proof.
  intros u. destruct usable_snapshot_covers as [Hn Hr]. fold u in Hn, Hr.
  rewrite delta_is_the_rest by (done || lia). unfold replay in *.
  set (n := Z.to_nat _) in *.
  rewrite <- (take_drop n (stream db a t)) at 2. by rewrite fmap_app, fold_delta_app, Hr.
Qed.

Lemma loaded_version :
  let n := from_option sn_version 0 (usable_snapshot o db a t) in
  from_option se_version n (last (loadEventsAfterVersion db a t n)) = getStreamVersion db a t.
Proof.
  intros n. destruct usable_snapshot_covers as [Hn _]. fold n in Hn.
  rewrite delta_is_the_rest by (done || lia).
  destruct (last _) as [e|] eqn:Hl; simpl; [by eapply last_drop_version|].
  apply last_None, fmap_nil_inv, (f_equal length) in Hl. rewrite length_drop in Hl. simpl in Hl.
  rewrite getStreamVersion_length by done. lia.
Qed.

Lemma saving_keeps_sound ty state :
  replay o reducer initial (stream db a t) = Ok state →
  snapshots_sound o reducer initial
    (saveSnapshot db (mkSaveSnapshot a t ty (getStreamVersion db a t) state (Some (generationFor o ty)))) a t.
Proof.
  intros Hr. unfold saveSnapshot; simpl. unfold upsertSnapshot. rewrite getStreamVersion_length by done.
  set (len := Z.of_nat _). set (tenant := match db_snapshots db !! (a, len) with Some old => sn_tenantId old | None => t end).
  assert (tenant = t) as ->.
  { unfold tenant. destruct (db_snapshots db !! (a, len)) as [old|] eqn:Hold; [|done].
    by destruct (snd_key _ _ _ _ _ _ Hsound _ _ Hold) as (_ & _ & ->). }
  split; simpl.
  - intros v s [[[= <-] <-]|[_ Hk]]%lookup_insert_Some; [done|]. by apply (snd_key _ _ _ _ _ _ Hsound).
  - intros b v s [[[= <- _] <-]|[_ Hk]]%lookup_insert_Some; [done|].
    by apply (snd_other _ _ _ _ _ _ Hsound _ v).
  - change (stream (mkDb _ _ _ _ _) a t) with (stream db a t).
    intros v s [[[= <-] <-]|[_ Hk]]%lookup_insert_Some; simpl.
    + intros _. split; [lia|]. unfold len. by rewrite Nat2Z.id, firstn_all.
    + by apply (snd_state _ _ _ _ _ _ Hsound).
Qed.
End sound.

(** ** Properties *)

(** Rehydrating through snapshots computes what a full replay computes.
    If the stored snapshots of the stream are sound, the load returns the fold
    of the whole stream and the stream's version (or the upcaster's error on
    the same delta), whether a snapshot was hit, skipped for another
    generation, or absent; an archived stream reads as the initial state; and
    the snapshot the load saves is sound again, so the next load is too. *)
Theorem snapshot_load_equals_replay {E} (o : LoadAggregateWithSnapshotOptions E)
    (reducer : Row → StoredEvent → Row) (initial : Row) (saveFails : bool) (db : EventsDb) (a t : string)
    (Hok : log_ok db) (Hsound : snapshots_sound o reducer initial db a t)
    (Hevery : snapshotEvery_ok o = true) :
  let r := loadAggregateWithSnapshot saveFails db a t reducer initial o in
  snapshots_sound o reducer initial r.2 a t ∧
  (negb (so_includeArchived o) && isStreamArchived db t a = true →
     r = (Ok (mkSnapshotResult initial 0 false), db)) ∧
  (negb (so_includeArchived o) && isStreamArchived db t a = false →
     match replay o reducer initial (stream db a t) with
     | Ok state => ∃ hit, r.1 = Ok (mkSnapshotResult state (getStreamVersion db a t) hit)
     | Err e => r = (Err (UpcastFailed e), db)
     end).
Proof.
  intros r. unfold r, loadAggregateWithSnapshot. rewrite Hevery. simpl negb. cbv iota.
  destruct (negb _ && _) eqn:Har; [by split_and!|].
  fold (usable_snapshot o db a t). cbv zeta.
  rewrite (delta_completes_replay o reducer initial db a t Hok Hsound).
  rewrite (loaded_version o reducer initial db a t Hok Hsound).
  destruct (replay o reducer initial (stream db a t)) as [state|e] eqn:Hr; [|by split_and!].
  split_and!; [|done|intros _; by eexists].
  simpl. destruct (last _) as [lastDelta|]; [|done]. case_match; [|done].
  by apply saving_keeps_sound.
Qed.

Definition count_reducer (s : Row) (e : StoredEvent) : Row := assoc_set (se_type e) (JNum (se_version e)) s.

Definition every_two : LoadAggregateWithSnapshotOptions string :=
  mkSnapshotOptions false None (Some (QArith_base.Qmake 2 1)) None None.

Lemma no_snapshots_sound {E} (o : LoadAggregateWithSnapshotOptions E) reducer initial db a t :
  db_snapshots db = ∅ → snapshots_sound o reducer initial db a t.
Proof. intros Hn. split; intros *; rewrite Hn; by rewrite lookup_empty. Qed.

Lemma snapshot_load_equals_replay_witness :
  let r := loadAggregateWithSnapshot false demo_log "a1" "t1" count_reducer [] every_two in
  snapshots_sound every_two count_reducer [] r.2 "a1" "t1" ∧
  loadLatestSnapshot r.2 "a1" "t1"
    = Some (mkSnapshot "a1" "t1" "order" 2 [("shop:event:placed", JNum 2)] 1 0).
Proof.
  split; [|reflexivity].
  exact (proj1 (snapshot_load_equals_replay every_two count_reducer [] false demo_log "a1" "t1" log_ok_demo
           (no_snapshots_sound every_two count_reducer [] demo_log "a1" "t1" eq_refl) eq_refl)).
Defined.

(** Snapshot generations do not collide: two (caller version, entity event
    version) pairs get the same generation only if neither names a version of
    its own, or they are the same pair; a generation the caller chose alone is
    positive and one that folds in an entity version is negative.  The bound
    on the entity version is the radix of the encoding. *)
Theorem snapshot_generations_disjoint (c1 c2 : Z) (v1 v2 : option Z)
    (Hc1 : 1 ≤ c1) (Hc2 : 1 ≤ c2)
    (Hv1 : ∀ v, v1 = Some v → 1 ≤ v < ENTITY_EVENT_VERSION_RADIX)
    (Hv2 : ∀ v, v2 = Some v → 1 ≤ v < ENTITY_EVENT_VERSION_RADIX) :
  (effectiveSnapshotGeneration c1 v1 = effectiveSnapshotGeneration c2 v2
     ↔ c1 = c2 ∧ default 1 v1 = default 1 v2) ∧
  (0 < effectiveSnapshotGeneration c1 v1 ↔ default 1 v1 = 1).
Proof.
  unfold effectiveSnapshotGeneration, ENTITY_EVENT_VERSION_RADIX in *.
  destruct v1 as [v1|], v2 as [v2|]; simpl;
    repeat match goal with H : ∀ v, Some ?w = Some v → _ |- _ => specialize (H w eq_refl) end;
    repeat (case_match; reflect_bools); simpl; nia.
Qed.

Lemma snapshot_generations_disjoint_witness :
  effectiveSnapshotGeneration 1 (Some 2) ≠ effectiveSnapshotGeneration 2 None ∧
  ¬ 0 < effectiveSnapshotGeneration 1 (Some 2).
Proof.
  destruct (snapshot_generations_disjoint 1 2 (Some 2) None) as [Heq Hpos];
    [lia|lia|intros v [= <-]; unfold ENTITY_EVENT_VERSION_RADIX; lia|intros v [=]|].
  split; [intros [H _]%Heq; discriminate H|intros H%Hpos; discriminate H].
Defined.

(** At the radix the encoding stops being injective. *)
Lemma snapshot_generations_collide_at_the_radix :
  effectiveSnapshotGeneration 1 (Some 1002) = effectiveSnapshotGeneration 2 (Some 2).
Proof. reflexivity. Qed.

(** The primary key leaves the tenant out: in one database scope a tenant that
    saves a snapshot at an aggregate id and version another tenant already
    uses replaces that tenant's state, and does not get a row of its own. *)
Lemma snapshot_upsert_crosses_tenants :
  let save t x db := saveSnapshot db (mkSaveSnapshot "a1" t "order" 1 [("owner", JStr x)] None) in
  let db := save "t2" "second" (save "t1" "first" emptyDb) in
  sn_state <$> loadLatestSnapshot db "a1" "t1" = Some [("owner", JStr "second")] ∧
  loadLatestSnapshot db "a1" "t2" = None.
Proof. split; reflexivity. Qed.
