(* ===== verification/Upcaster.v ===== *)
(** * Event schema evolution

    [event-store/upcaster.ts] and [upcaster-dead-letter.ts]: stored events are
    walked through the registered migrations of their type up to its current
    version; a failing migration aborts the read or, in quarantine mode, files
    the event as a dead letter and drops it.  A migration is a function of the
    payload and the context ([D] is the database it may read); the message of
    what it throws is its error.  [Promise.all] runs the events of a bulk read
    concurrently, so the order in which they finish is an argument. *)

From S2P Require Import Prelude EventLog.

Open Scope Z_scope.

(** ** Data *)

Inductive UpcasterErrorPolicy := PolicyThrow | PolicyQuarantine.

Record EventUpcastCtx (D : Type) := mkUpcastCtx { uc_db : D; uc_tenantId : string }.
Arguments mkUpcastCtx {D}.

Notation EventUpcastFn D := (Row → EventUpcastCtx D → result string Row) (only parsing).

Record EventUpcaster (D : Type) := mkUpcaster {
  up_currentVersion : Z;
  up_chain : gmap Z (EventUpcastFn D) }.
Arguments mkUpcaster {D}.
Arguments up_currentVersion {D}.
Arguments up_chain {D}.

Notation EventUpcasters D := (gmap string (EventUpcaster D)) (only parsing).

Record DeadLetterRow := mkDeadLetter {
  dl_id : Z;
  dl_eventId : string;
  dl_tenantId : string;
  dl_aggregateId : string;
  dl_aggregateType : string;
  dl_eventType : string;
  dl_fromVersion : Z;
  dl_targetVersion : Z;
  dl_errorMessage : string;
  dl_originalPayload : Row;
  dl_createdAt : Z }.

Record DeadLetters := mkDeadLetters { dls_rows : list DeadLetterRow; dls_nextId : Z }.

Record DeadLetterArgs := mkDeadLetterArgs {
  da_event : StoredEvent;
  da_fromVersion : Z;
  da_targetVersion : Z;
  da_error : string }.

(** ** Dead letters *)

Definition recordUpcasterDeadLetter (now : Z) (t : DeadLetters) (args : DeadLetterArgs) : DeadLetters :=
  let e := da_event args in
  mkDeadLetters
    (dls_rows t ++ [mkDeadLetter (dls_nextId t) (se_id e) (se_tenantId e) (se_aggregateId e)
                      (se_aggregateType e) (se_type e) (da_fromVersion args) (da_targetVersion args)
                      (da_error args) (se_payload e) now])
    (dls_nextId t + 1).

(** [ORDER BY created_at DESC LIMIT limit] *)
Definition listDeadLetters (t : DeadLetters) (eventType : option string) (limit : option nat)
    : list DeadLetterRow :=
  take (default 100%nat limit)
    (sort_by (λ r, - dl_createdAt r)
       (match eventType with
        | Some ty => filter (λ r, dl_eventType r = ty) (dls_rows t)
        | None => dls_rows t
        end)).

(** ** Upcasting one event *)

(** What a walk throws: a hole in the chain or the migration's own error. *)
Inductive UpcastError :=
| MissingUpcaster (type : string) (fromVersion : Z)
| MigrationThrew (message : string).

Section upcast.
Context {D : Type}.

Definition makeUpcastCtx (db : D) (tenantId : string) : EventUpcastCtx D := mkUpcastCtx db tenantId.

(** The three ends of the policy-aware worker. *)
Inductive UpcastOutcome :=
| Upcast (event : StoredEvent)
| Quarantined (args : DeadLetterArgs)
| UpcastThrown (e : UpcastError).

(** The [while] loop: [Ok (payload, v)] when the current version is reached,
    an error otherwise. *)
Fixpoint upcast_loop (fuel : nat) (type : string) (info : EventUpcaster D) (ctx : EventUpcastCtx D)
    (payload : Row) (v : Z) : option (result UpcastError (Row * Z)) :=
  if v <? up_currentVersion info then
    match fuel with
    | O => None
    | S fuel' =>
        match up_chain info !! v with
        | None => Some (Err (MissingUpcaster type v))
        | Some transform =>
            match transform payload ctx with
            | Ok payload' => upcast_loop fuel' type info ctx payload' (v + 1)
            | Err message => Some (Err (MigrationThrew message))
            end
        end
    end
  else Some (Ok (payload, v)).

Definition versions_behind (info : EventUpcaster D) (event : StoredEvent) : nat :=
  Z.to_nat (up_currentVersion info - se_eventVersion event).

Definition with_upcast (event : StoredEvent) (payload : Row) (v : Z) : StoredEvent :=
  mkStored (se_id event) (se_aggregateId event) (se_aggregateType event) (se_tenantId event)
    (se_version event) (se_type event) v payload (se_metadata event) (se_createdAt event)
    (se_createdBy event).

Definition upcastStoredEventWithPolicy (event : StoredEvent) (upcasters : EventUpcasters D)
    (ctx : EventUpcastCtx D) (policy : UpcasterErrorPolicy) : option UpcastOutcome :=
  match upcasters !! se_type event with
  | None => Some (Upcast event)
  | Some info =>
      if up_currentVersion info <=? se_eventVersion event then Some (Upcast event)
      else
        match upcast_loop (versions_behind info event) (se_type event) info ctx
                (se_payload event) (se_eventVersion event) with
        | None => None
        | Some (Ok (payload, v)) => Some (Upcast (with_upcast event payload v))
        | Some (Err e) =>
            Some (match policy, e with
                  | PolicyQuarantine, MigrationThrew message =>
                      Quarantined (mkDeadLetterArgs event (se_eventVersion event)
                                     (up_currentVersion info) message)
                  | _, _ => UpcastThrown e
                  end)
        end
  end.

(** [None] stands for the unreachable error of a quarantined event. *)
Definition upcastStoredEvent (event : StoredEvent) (upcasters : EventUpcasters D)
    (ctx : EventUpcastCtx D) : option (result UpcastError StoredEvent) :=
  match upcastStoredEventWithPolicy event upcasters ctx PolicyThrow with
  | Some (Upcast e) => Some (Ok e)
  | Some (UpcastThrown e) => Some (Err e)
  | Some (Quarantined _) | None => None
  end.

(** ** Upcasting many events *)

Definition upcast_event_of (o : UpcastOutcome) : option StoredEvent :=
  match o with Upcast e => Some e | _ => None end.

Definition thrown_by (o : UpcastOutcome) : option UpcastError :=
  match o with UpcastThrown e => Some e | _ => None end.

Definition file_outcome (now : Z) (t : DeadLetters) (o : UpcastOutcome) : DeadLetters :=
  match o with Quarantined args => recordUpcasterDeadLetter now t args | _ => t end.

(** [finish] lists the positions of the events in the order their walks end:
    dead letters are filed in that order and the first throw rejects the
    whole call. *)
Definition upcastStoredEvents (now : Z) (finish : list nat) (t : DeadLetters)
    (events : list StoredEvent) (upcasters : EventUpcasters D) (ctx : EventUpcastCtx D)
    (policy : UpcasterErrorPolicy) : option (result UpcastError (list StoredEvent) * DeadLetters) :=
  if decide (upcasters = ∅) then Some (Ok events, t)
  else
    match mapM (λ e, upcastStoredEventWithPolicy e upcasters ctx policy) events with
    | None => None
    | Some outcomes =>
        let ended := omap (λ i, outcomes !! i) finish in
        let t' := foldl (file_outcome now) t ended in
        Some (match head (omap thrown_by ended) with
              | Some message => (Err message, t')
              | None => (Ok (omap upcast_event_of outcomes), t')
              end)
    end.

(** ** Specification *)

(** The migrations of the versions [vs] applied in order. *)
Definition run_migrations (info : EventUpcaster D) (ctx : EventUpcastCtx D) (payload : Row) (vs : list Z)
    : result string Row :=
  foldl (λ acc v, let? p := acc in
                  match up_chain info !! v with Some f => f p ctx | None => Ok p end)
    (Ok payload) vs.

(** The chain has a migration from every version an event may be read at. *)
Definition chain_complete (info : EventUpcaster D) (v : Z) : Prop :=
  ∀ k, v ≤ k < up_currentVersion info → is_Some (up_chain info !! k).

Definition migrations_complete (upcasters : EventUpcasters D) (event : StoredEvent) : Prop :=
  ∀ info, upcasters !! se_type event = Some info → chain_complete info (se_eventVersion event).

(** What a dead letter says of its event. *)
Definition letter_args (r : DeadLetterRow) : string * string * Z * Z * string * Row :=
  (dl_eventId r, dl_eventType r, dl_fromVersion r, dl_targetVersion r, dl_errorMessage r,
   dl_originalPayload r).

Definition quarantined_args (o : UpcastOutcome) : option (string * string * Z * Z * string * Row) :=
  match o with
  | Quarantined a => Some (se_id (da_event a), se_type (da_event a), da_fromVersion a, da_targetVersion a,
                           da_error a, se_payload (da_event a))
  | _ => None
  end.

(** ** Lemmas *)

Lemma run_migrations_err (info : EventUpcaster D) (ctx : EventUpcastCtx D) e vs :
  foldl (λ acc v, let? p := acc in
                  match up_chain info !! v with Some f => f p ctx | None => Ok p end)
    (Err e) vs = @Err string Row e.
Proof. induction vs; [done|]. simpl. done. Qed.

(** The loop ends within the fuel of its version gap. *)
Lemma upcast_loop_total fuel type (info : EventUpcaster D) ctx payload v :
  up_currentVersion info - v ≤ Z.of_nat fuel → is_Some (upcast_loop fuel type info ctx payload v).
Proof.
  revert payload v. induction fuel as [|fuel IH]; intros payload v Hf; simpl.
  - case_match; reflect_bools; [lia|done].
  - case_match; [|done]. destruct (up_chain info !! v); [|done].
    case_match; [|done]. apply IH. lia.
Qed.

Lemma upcast_loop_migrates fuel type (info : EventUpcaster D) ctx payload v :
  v ≤ up_currentVersion info → up_currentVersion info - v = Z.of_nat fuel → chain_complete info v →
  upcast_loop fuel type info ctx payload v =
    Some (match run_migrations info ctx payload (seqZ v (Z.of_nat fuel)) with
          | Ok p => Ok (p, up_currentVersion info)
          | Err message => Err (MigrationThrew message)
          end).
Proof.
  revert payload v. induction fuel as [|fuel IH]; intros payload v Hv Hf Hc.
  - simpl. destruct (v <? up_currentVersion info) eqn:?; reflect_bools; [lia|]. do 3 f_equal. lia.
  - rewrite Nat2Z.inj_succ, seqZ_cons, Z.pred_succ by lia.
    unfold run_migrations. cbn [upcast_loop foldl result_bind].
    destruct (v <? up_currentVersion info) eqn:?; reflect_bools; [|lia].
    destruct (Hc v ltac:(lia)) as [f Hf']. rewrite Hf'.
    destruct (f payload ctx) as [p|e]; [|by rewrite run_migrations_err].
    apply IH; [lia|lia|]. intros k Hk. apply Hc. lia.
Qed.

Lemma upcast_total event (upcasters : EventUpcasters D) ctx policy :
  is_Some (upcastStoredEventWithPolicy event upcasters ctx policy).
Proof.
  unfold upcastStoredEventWithPolicy. destruct (upcasters !! se_type event) as [info|]; [|done].
  case_match; reflect_bools; [done|].
  destruct (upcast_loop_total (versions_behind info event) (se_type event) info ctx (se_payload event)
              (se_eventVersion event)) as [r ->]; [unfold versions_behind; lia|].
  by destruct r as [[]|[]].
Qed.

Lemma omap_lookup_seq {A} (l : list A) : omap (λ i, l !! i) (seq 0 (length l)) = l.
Proof.
  assert (Hgen : ∀ pre, omap (λ i, (pre ++ l) !! i) (seq (length pre) (length l)) = l).
  { induction l as [|x l IH]; intros pre; [done|]. simpl.
    rewrite list_lookup_middle by done. simpl. f_equal.
    specialize (IH (pre ++ [x])). rewrite length_app, Nat.add_1_r, <- app_assoc in IH. exact IH. }
  exact (Hgen []).
Qed.

Lemma ended_perm {A} (l : list A) finish :
  finish ≡ₚ seq 0 (length l) → omap (λ i, l !! i) finish ≡ₚ l.
Proof. intros Hp. rewrite Hp. by rewrite omap_lookup_seq. Qed.

Lemma filed_letters now t (os : list UpcastOutcome) :
  ∃ rows, dls_rows (foldl (file_outcome now) t os) = dls_rows t ++ rows ∧
          letter_args <$> rows = omap quarantined_args os.
Proof.
  revert t. induction os as [|o os IH]; intros t; simpl.
  { exists []. by rewrite app_nil_r. }
  destruct (IH (file_outcome now t o)) as (rows & -> & Hrows). destruct o as [e|a|e]; simpl.
  - by exists rows.
  - eexists (_ :: rows). rewrite <- app_assoc. split; [done|]. rewrite fmap_cons, Hrows. done.
  - by exists rows.
Qed.

(** Without a hole in the chain only a migration fails, and then policy decides. *)
Lemma upcast_policy_decides event (upcasters : EventUpcasters D) ctx policy :
  migrations_complete upcasters event →
  upcastStoredEventWithPolicy event upcasters ctx policy =
    Some (match upcasters !! se_type event with
          | Some info =>
              if up_currentVersion info <=? se_eventVersion event then Upcast event
              else
                match run_migrations info ctx (se_payload event)
                        (seqZ (se_eventVersion event) (up_currentVersion info - se_eventVersion event)) with
                | Ok p => Upcast (with_upcast event p (up_currentVersion info))
                | Err message =>
                    match policy with
                    | PolicyQuarantine => Quarantined (mkDeadLetterArgs event (se_eventVersion event)
                                                         (up_currentVersion info) message)
                    | PolicyThrow => UpcastThrown (MigrationThrew message)
                    end
                end
          | None => Upcast event
          end).
Proof.
  intros Hc. unfold upcastStoredEventWithPolicy.
  destruct (upcasters !! se_type event) as [info|] eqn:Hi; [|done].
  destruct (_ <=? _) eqn:Hle; [done|]. reflect_bools. specialize (Hc info Hi).
  rewrite (upcast_loop_migrates (versions_behind info event)); [|lia|unfold versions_behind; lia|done].
  replace (Z.of_nat (versions_behind info event))
    with (up_currentVersion info - se_eventVersion event) by (unfold versions_behind; lia).
  destruct (run_migrations _ _ _ _) as [p|m]; [done|by destruct policy].
Qed.

Lemma upcast_keeps_type event (upcasters : EventUpcasters D) ctx policy e :
  upcastStoredEventWithPolicy event upcasters ctx policy = Some (Upcast e) → se_type e = se_type event.
Proof.
  unfold upcastStoredEventWithPolicy. intros H. repeat case_match; by simplify_eq.
Qed.

(** ** Properties *)

(** An event that is behind its type's current version is read as the
    composition of exactly the migrations between the two versions, in
    ascending order, with the version set to the current one and everything
    else as stored; the walk always ends; a migration that throws ends it as
    the error policy says, with the stored payload in the dead letter.  Events
    of unregistered types and current events pass unchanged, and reading an
    upcast event again changes nothing. *)
Theorem upcast_walks_the_chain (event : StoredEvent) (upcasters : EventUpcasters D)
    (ctx : EventUpcastCtx D) (policy : UpcasterErrorPolicy) (info : EventUpcaster D)
    (Hinfo : upcasters !! se_type event = Some info)
    (Hbehind : se_eventVersion event < up_currentVersion info)
    (Hchain : chain_complete info (se_eventVersion event)) :
  let behind := seqZ (se_eventVersion event) (up_currentVersion info - se_eventVersion event) in
  match run_migrations info ctx (se_payload event) behind with
  | Ok p =>
      let e := with_upcast event p (up_currentVersion info) in
      upcastStoredEventWithPolicy event upcasters ctx policy = Some (Upcast e) ∧
      upcastStoredEventWithPolicy e upcasters ctx policy = Some (Upcast e) ∧
      upcastStoredEvent event upcasters ctx = Some (Ok e)
  | Err message =>
      upcastStoredEventWithPolicy event upcasters ctx PolicyQuarantine
        = Some (Quarantined (mkDeadLetterArgs event (se_eventVersion event) (up_currentVersion info) message)) ∧
      upcastStoredEvent event upcasters ctx = Some (Err (MigrationThrew message))
  end.
Proof.
  intros behind. assert (Hc : migrations_complete upcasters event) by (intros i Hi; by simplify_eq).
  assert (Hlt : up_currentVersion info <=? se_eventVersion event = false) by (apply Z.leb_gt; lia).
  unfold upcastStoredEvent. rewrite !(upcast_policy_decides event) by done. rewrite Hinfo, Hlt. fold behind.
  destruct (run_migrations _ _ _ _) as [p|m]; [|done].
  cbv zeta. split_and!; [done| |done].
  unfold upcastStoredEventWithPolicy. simpl. by rewrite Hinfo, Z.leb_refl.
Qed.

(** A bulk read in quarantine mode loses no event, in whatever order the
    concurrent walks end: when no chain has a hole it succeeds, returns the
    events that could be upcast in their original order, and files exactly one
    dead letter, with version span, error and original payload, for each of
    the others. *)
Theorem quarantine_loses_no_event (now : Z) (finish : list nat) (t : DeadLetters)
    (events : list StoredEvent) (upcasters : EventUpcasters D) (ctx : EventUpcastCtx D)
    (Hfinish : finish ≡ₚ seq 0 (length events))
    (Hsome : upcasters ≠ ∅)
    (Hchain : ∀ e, e ∈ events → migrations_complete upcasters e) :
  let outcome e := upcastStoredEventWithPolicy e upcasters ctx PolicyQuarantine in
  ∃ kept t' letters,
    upcastStoredEvents now finish t events upcasters ctx PolicyQuarantine = Some (Ok kept, t') ∧
    kept = omap (λ e, outcome e ≫= upcast_event_of) events ∧
    dls_rows t' = dls_rows t ++ letters ∧
    letter_args <$> letters ≡ₚ omap (λ e, outcome e ≫= quarantined_args) events ∧
    (length kept + length letters = length events)%nat.
Proof.
  intros outcome. unfold upcastStoredEvents. rewrite decide_False by done.
  destruct (mapM (λ e, outcome e) events) as [os|] eqn:Hm; [|exfalso].
  2:{ apply mapM_None in Hm. apply Exists_exists in Hm as (e & _ & He).
      destruct (upcast_total e upcasters ctx PolicyQuarantine) as [? Hs]. unfold outcome in He. congruence. }
  unfold outcome in Hm. rewrite Hm. apply mapM_Some in Hm.
  pose proof (Forall2_length _ _ _ Hm) as Hlen. rewrite Hlen in Hfinish.
  set (ended := omap (λ i, os !! i) finish).
  assert (Hp : ended ≡ₚ os) by by apply ended_perm.
  destruct (filed_letters now t ended) as (letters & Hrows & Hargs).
  assert (Hno : omap thrown_by ended = []).
  { apply Permutation_nil_r. rewrite Hp. clear -Hm Hchain. induction Hm as [|e o es os Ho Hm IH]; [done|].
    rewrite upcast_policy_decides in Ho by (apply Hchain; set_solver). simpl.
    assert (thrown_by o = None) as -> by (injection Ho as <-; repeat case_match; done).
    apply IH. intros x Hx. apply Hchain. set_solver. }
  rewrite Hno. simpl. eexists _, _, letters. split; [done|]. split_and!; [|exact Hrows| |].
  - unfold outcome. clear -Hm. induction Hm as [|e o es os Ho Hm IH]; [done|]. simpl. rewrite Ho; simpl.
    case_match; [f_equal|]; exact IH.
  - rewrite Hargs, Hp. unfold outcome. clear -Hm. induction Hm as [|e o es os Ho Hm IH]; [done|]. simpl.
    rewrite Ho; simpl. case_match; [f_equiv|]; exact IH.
  - assert (Hl : length letters = length (omap quarantined_args os)).
    { rewrite <- (length_fmap letter_args), Hargs. by rewrite Hp. }
    assert (Hall : ∀ o, o ∈ os → thrown_by o = None).
    { intros o Ho. destruct (thrown_by o) as [m|] eqn:Ht; [|done].
      assert (Hin : m ∈ omap thrown_by ended) by (rewrite list_elem_of_omap; exists o; by rewrite Hp).
      rewrite Hno in Hin. set_solver. }
    rewrite Hl, Hlen. clear -Hall. induction os as [|o os IH]; [done|].
    assert (Ho := Hall o ltac:(set_solver)).
    specialize (IH (λ x Hx, Hall x ltac:(set_solver))). unfold omap in *. destruct o; simpl in *; [lia|lia|done].
Qed.
End upcast.

(** ** Witnesses *)

Definition order_event (id : string) (eventVersion : Z) (payload : Row) : StoredEvent :=
  mkStored id "a1" "order" "t1" 1 "shop:event:placed" eventVersion payload
    (mkMetadata "u1" None None None None None None None None) 0 "u1".

(** v1 to v2 adds a currency; v2 to v3 wants a total and renames it. *)
Definition order_upcaster : EventUpcaster () :=
  mkUpcaster 3
    (<[1 := λ p _, Ok (assoc_set "currency" (JStr "EUR") p)]>
       (<[2 := λ p _, match assoc_get "total" p with
                      | Some t => Ok (assoc_set "amount" t (assoc_delete "total" p))
                      | None => Err "no total"
                      end]> ∅)).

Definition order_upcasters : gmap string (EventUpcaster ()) :=
  {["shop:event:placed" := order_upcaster]}.

Lemma order_chain_complete v : 1 ≤ v → chain_complete order_upcaster v.
Proof.
  intros Hv k Hk. simpl in Hk. destruct (decide (k = 1)) as [->|]; [by eexists|].
  destruct (decide (k = 2)) as [->|]; [by eexists|lia].
Qed.

Lemma order_migrations_complete e : 1 ≤ se_eventVersion e → migrations_complete order_upcasters e.
Proof.
  intros Hv info Hi. unfold order_upcasters in Hi. apply lookup_singleton_Some in Hi as [_ <-]. by apply order_chain_complete.
Qed.

Lemma upcast_walks_the_chain_witness :
  se_eventVersion (order_event "7" 1 [("total", JNum 5)]) < up_currentVersion order_upcaster ∧
  upcastStoredEvent (order_event "7" 1 [("total", JNum 5)]) order_upcasters (mkUpcastCtx () "t1")
  = Some (Ok (order_event "7" 3 [("currency", JStr "EUR"); ("amount", JNum 5)])).
Proof.
  split; [reflexivity|].
  pose proof (upcast_walks_the_chain (order_event "7" 1 [("total", JNum 5)]) order_upcasters
                (mkUpcastCtx () "t1") PolicyThrow order_upcaster eq_refl eq_refl
                (order_chain_complete 1 ltac:(lia))) as (_ & _ & H).
  exact H.
Defined.

Definition two_orders : list StoredEvent := [order_event "7" 1 []; order_event "8" 2 [("total", JNum 5)]].

Lemma quarantine_loses_no_event_witness :
  [1%nat; 0%nat] ≡ₚ seq 0 (length two_orders) ∧
  ∃ kept t' letters,
    upcastStoredEvents 50 [1%nat; 0%nat] (mkDeadLetters [] 1) two_orders order_upcasters
      (mkUpcastCtx () "t1") PolicyQuarantine = Some (Ok kept, t') ∧
    dls_rows t' = letters ∧ (length kept + length letters = 2)%nat.
Proof.
  assert (Hp : [1%nat; 0%nat] ≡ₚ seq 0 (length two_orders)) by apply Permutation_swap.
  split; [exact Hp|].
  destruct (quarantine_loses_no_event 50 [1%nat; 0%nat] (mkDeadLetters [] 1) two_orders order_upcasters
              (mkUpcastCtx () "t1") Hp) as (kept & t' & letters & Hr & _ & Hrows & _ & Hlen).
  - discriminate.
  - intros e He. apply order_migrations_complete.
    apply elem_of_cons in He as [->| ->%list_elem_of_singleton]; simpl; lia.
  - exists kept, t', letters. split; [exact Hr|]. split; [exact Hrows|exact Hlen].
Defined.
