(* ===== verification/AppendCore.v ===== *)
(** * Appending domain events

    [pipeline/append-event-core.ts], [pipeline/projections-runner.ts] and
    [event-store/provenance-append.ts]: the guarded path from a handler's
    [appendEvent] to the event store and its inline projections.  The
    registered payload schemas (zod) and the projections' apply functions are
    fields of the registry; [W] is the state of the projection tables.  The
    functions run inside the caller's transaction, so what they return on an
    error is the still open transaction, which the caller rolls back. *)

From Stdlib Require Import Ascii.
From S2P Require Import Prelude PgErrors EventLog EventStore QualifiedName.

Open Scope Z_scope.

(** ** Data *)

Definition SYSTEM_EVENT_PREFIX : string := "kumiko:system:".

Record EventDef (V : Type) := mkEventDef {
  ed_version : Z;
  ed_safeParse : Json → result V Json }.
Arguments mkEventDef {V}.
Arguments ed_version {V}.
Arguments ed_safeParse {V}.

(** An apply function changes the projection tables or throws (its message). *)
Record ProjectionDefinition (W : Type) := mkProjection {
  pj_isImplicit : bool;
  pj_apply : list (string * (StoredEvent → W → result string W)) }.
Arguments mkProjection {W}.
Arguments pj_isImplicit {W}.
Arguments pj_apply {W}.

Record Registry (V W : Type) := mkRegistry {
  getEvent : string → option (EventDef V);
  getProjectionsForSource : string → list (ProjectionDefinition W) }.
Arguments mkRegistry {V W}.
Arguments getEvent {V W}.
Arguments getProjectionsForSource {V W}.

Record AppendDeps (V W : Type) := mkDeps {
  dp_registry : Registry V W;
  dp_tenantId : string;
  dp_userId : string;
  dp_callerFeature : option string }.
Arguments mkDeps {V W}.
Arguments dp_registry {V W}.
Arguments dp_tenantId {V W}.
Arguments dp_userId {V W}.
Arguments dp_callerFeature {V W}.

Record AppendEventArgs := mkAppendArgs {
  aa_aggregateId : string;
  aa_aggregateType : string;
  aa_type : string;
  aa_payload : option Json;
  aa_headers : option Row;
  aa_expectedVersion : option Z }.

Inductive CoreError (V : Type) :=
| EventNotRegistered (type : string)
| ForeignEvent (owner callerKebab : string)
| SchemaRejected (v : V)
| PayloadNotObject (type : string)
| ArchivedStreamError (tenantId aggregateId : string)
| AppendFailed (e : AppendError)
| ProjectionThrew (message : string).
Arguments EventNotRegistered {V}.
Arguments ForeignEvent {V}.
Arguments SchemaRejected {V}.
Arguments PayloadNotObject {V}.
Arguments ArchivedStreamError {V}.
Arguments AppendFailed {V}.
Arguments ProjectionThrew {V}.

(** A string in a condition: absent and empty are both falsy. *)
Definition truthy (s : option string) : option string :=
  match s with Some "" | None => None | Some x => Some x end.

(** ** Guards *)

Section core.
Context {V W : Type}.
Context (encrypt : string → Row → string * string * string → result Thrown Row).

Definition requirePayloadObject (payload : Json) (eventType : string) : result (CoreError V) Row :=
  match payload with JObj kvs => Ok kvs | _ => Err (PayloadNotObject eventType) end.

Definition isSystemEvent (args : AppendEventArgs) : bool := starts_with SYSTEM_EVENT_PREFIX (aa_type args).

(** [payload ?? {}] *)
Definition payload_or_empty (p : option Json) : Json :=
  match p with None | Some JNull => JObj [] | Some j => j end.

Definition assert_owned (deps : AppendDeps V W) (args : AppendEventArgs) : result (CoreError V) () :=
  match truthy (dp_callerFeature deps) with
  | Some feature =>
      if isSystemEvent args then Ok ()
      else match qnScope (aa_type args) with
           | Some owner => if decide (owner = toKebab feature) then Ok ()
                           else Err (ForeignEvent owner (toKebab feature))
           | None => Ok ()
           end
  | None => Ok ()
  end.

Definition validated_payload (deps : AppendDeps V W) (args : AppendEventArgs) : result (CoreError V) Row :=
  match getEvent (dp_registry deps) (aa_type args) with
  | Some def =>
      if isSystemEvent args then requirePayloadObject (payload_or_empty (aa_payload args)) (aa_type args)
      else match ed_safeParse def (payload_or_empty (aa_payload args)) with
           | Ok data => requirePayloadObject data (aa_type args)
           | Err v => Err (SchemaRejected v)
           end
  | None => requirePayloadObject (payload_or_empty (aa_payload args)) (aa_type args)
  end.

(** The checks before the first statement, in their order. *)
Definition checked_payload (deps : AppendDeps V W) (args : AppendEventArgs) : result (CoreError V) Row :=
  if negb (isSystemEvent args) && bool_decide (getEvent (dp_registry deps) (aa_type args) = None)
  then Err (EventNotRegistered (aa_type args))
  else let? _ := assert_owned deps args in validated_payload deps args.

(** ** Inline projections *)

Definition liveProjectionsForEvent (event : StoredEvent) (registry : Registry V W)
    : list (StoredEvent → W → result string W) :=
  omap (λ p, if pj_isImplicit p then None else assoc_get (se_type event) (pj_apply p))
    (getProjectionsForSource registry (se_aggregateType event)).

Definition hasLiveProjectionsForEvent (event : StoredEvent) (registry : Registry V W) : bool :=
  match liveProjectionsForEvent event registry with [] => false | _ => true end.

Fixpoint apply_all (fns : list (StoredEvent → W → result string W)) (event : StoredEvent) (w : W)
    : result string () * W :=
  match fns with
  | [] => (Ok (), w)
  | applyFn :: rest =>
      match applyFn event w with
      | Ok w' => apply_all rest event w'
      | Err message => (Err message, w)
      end
  end.

(** Event objects are identified by [oid]; [projectedEvents] is the weak set of
    those already projected. *)
Definition runProjectionsForEvent (projectedEvents : gset nat) (oid : nat) (event : StoredEvent)
    (registry : Registry V W) (w : W) : result string () * W * gset nat :=
  if decide (oid ∈ projectedEvents) then (Ok (), w, projectedEvents)
  else match apply_all (liveProjectionsForEvent event registry) event w with
       | (Ok _, w') => (Ok (), w', {[oid]} ∪ projectedEvents)
       | (Err message, w') => (Err message, w', projectedEvents)
       end.

(** ** The append *)

Definition core_event (deps : AppendDeps V W) (args : AppendEventArgs) (reqCtx : option RequestScope)
    (payload : Row) (expectedVersion : Z) : EventToAppend :=
  mkToAppend (aa_aggregateId args) (aa_aggregateType args) (dp_tenantId deps) expectedVersion (aa_type args)
    (Some (from_option ed_version 1 (getEvent (dp_registry deps) (aa_type args)))) payload
    (mkMetadata (dp_userId deps) (truthy (reqCtx ≫= rq_requestId)) (truthy (reqCtx ≫= rq_correlationId))
       (truthy (reqCtx ≫= rq_causationId)) None (aa_headers args) None None None).

(** [oid] is the identity of the event object [append] creates. *)
Definition appendDomainEventCore (reqCtx : option RequestScope) (env : SeedEnv) (projectedEvents : gset nat)
    (oid : nat) (db : EventsDb) (w : W) (deps : AppendDeps V W) (args : AppendEventArgs)
    : result (CoreError V) StoredEvent * EventsDb * W :=
  match checked_payload deps args with
  | Err e => (Err e, db, w)
  | Ok payload =>
      if isStreamArchived db (dp_tenantId deps) (aa_aggregateId args)
      then (Err (ArchivedStreamError (dp_tenantId deps) (aa_aggregateId args)), db, w)
      else
        let expectedVersion :=
          default (getStreamVersion db (aa_aggregateId args) (dp_tenantId deps)) (aa_expectedVersion args) in
        match append encrypt reqCtx env db (core_event deps args reqCtx payload expectedVersion) with
        | (Err e, db') => (Err (AppendFailed e), db', w)
        | (Ok stored, db') =>
            match runProjectionsForEvent projectedEvents oid stored (dp_registry deps) w with
            | (Ok _, w', _) => (Ok stored, db', w')
            | (Err message, w', _) => (Err (ProjectionThrew message), db', w')
            end
        end
  end.
End core.

(** ** Provenance events *)

Record ProvenanceEventInput := mkProvenance {
  pv_aggregateId : string;
  pv_aggregateType : string;
  pv_tenantId : string;
  pv_expectedVersion : option Z;
  pv_type : string;
  pv_payload : Row;
  pv_metadata : EventMetadata }.

Inductive ProvenanceError :=
| SystemNamespace (type : string)
| UnownedType (type : string)
| ForeignTenant (eventTenant dbTenant : string)
| ProvenanceAppendFailed (e : AppendError).

(** [s.endsWith(c)] for one character. *)
Fixpoint ends_with_char (c : ascii) (s : string) : bool :=
  match s with
  | EmptyString => false
  | String d EmptyString => Ascii.eqb d c
  | String _ s' => ends_with_char c s'
  end.

(** [pv_expectedVersion] is [None] for ["current"]; the savepoint gives the
    surrounding transaction back its rows when the append throws. *)
Definition appendProvenanceEvent (encrypt : string → Row → string * string * string → result Thrown Row)
    (origin : option RequestScope) (env : SeedEnv) (dbTenant : string) (db : EventsDb)
    (event : ProvenanceEventInput) : result ProvenanceError () * EventsDb :=
  if starts_with SYSTEM_EVENT_PREFIX (pv_type event) then (Err (SystemNamespace (pv_type event)), db)
  else if bool_decide (qnScope (pv_type event) = None) || ends_with_char colon (pv_type event)
  then (Err (UnownedType (pv_type event)), db)
  else if negb (bool_decide (pv_tenantId event = dbTenant))
  then (Err (ForeignTenant (pv_tenantId event) dbTenant), db)
  else
    let expectedVersion := default (getStreamVersion db (pv_aggregateId event) (pv_tenantId event))
                             (pv_expectedVersion event) in
    match append encrypt origin env db
            (mkToAppend (pv_aggregateId event) (pv_aggregateType event) (pv_tenantId event) expectedVersion
               (pv_type event) None (pv_payload event) (pv_metadata event)) with
    | (Ok _, db') => (Ok (), db')
    | (Err e, db') => (Err (ProvenanceAppendFailed e), with_events db (db_events db) (db_nextEventId db'))
    end.

(** ** Specification *)

(** Who may emit the event: the framework its own, a feature its own. *)
Definition may_emit {V W} (deps : AppendDeps V W) (args : AppendEventArgs) : Prop :=
  isSystemEvent args = true ∨
  (is_Some (getEvent (dp_registry deps) (aa_type args)) ∧
   ∀ feature, truthy (dp_callerFeature deps) = Some feature →
     qnScope (aa_type args) = None ∨ qnScope (aa_type args) = Some (toKebab feature)).

(** ** Lemmas *)

Lemma checked_payload_emits {V W} (deps : AppendDeps V W) args payload :
  checked_payload deps args = Ok payload → may_emit deps args.
Proof.
  unfold checked_payload, may_emit, assert_owned. destruct (isSystemEvent args); [by left|]. simpl.
  destruct (getEvent _ _) as [def|] eqn:Hd; simpl; [|by intros [=]].
  rewrite result_bind_Ok. intros (u & Ho & _). right. split; [done|]. intros feature Hf. rewrite Hf in Ho.
  destruct (qnScope _) as [owner|]; [|by left]. case_decide as Heq; [|done]. right. by rewrite Heq.
Qed.

(** A system event's payload is not run through a schema. *)
Lemma system_payload_unparsed {V W} (deps : AppendDeps V W) args :
  isSystemEvent args = true →
  checked_payload deps args = requirePayloadObject (payload_or_empty (aa_payload args)) (aa_type args).
Proof.
  intros Hs. unfold checked_payload, assert_owned, validated_payload. rewrite Hs. simpl.
  by destruct (truthy _), (getEvent _ _).
Qed.

Section append_facts.
Context (encrypt : string → Row → string * string * string → result Thrown Row)
  (origin : option RequestScope) (env : SeedEnv) (db : EventsDb).
#[local] Set Default Proof Using "All".

Lemma append_Ok_row e stored db' :
  log_ok db → append encrypt origin env db e = (Ok stored, db') →
  ev_expectedVersion e = getStreamVersion db (ev_aggregateId e) (ev_tenantId e) ∧
  ∃ row, db' = add_row db row ∧ stored = toStoredEvent row ∧
    in_stream (ev_aggregateId e) (ev_tenantId e) row ∧ row_type row = ev_type e ∧
    row_version row = ev_expectedVersion e + 1 ∧ row_aggregateType row = ev_aggregateType e ∧
    encrypt (ev_type e) (ev_payload e) (ev_tenantId e, ev_aggregateType e, ev_aggregateId e)
      = Ok (row_payload row).
Proof.
  intros Hok Ha. destruct (append_effect encrypt origin env db e Hok)
    as [(payload & seed & Henc & Hv & Hr & _)|(err & [Hr|Hr])]; rewrite Hr in Ha; simplify_eq.
  split; [done|]. eexists. split; [done|]. by split_and!.
Qed.

Lemma append_Err_rows e err db' :
  log_ok db → append encrypt origin env db e = (Err err, db') → db_events db' = db_events db.
Proof.
  intros Hok Ha. destruct (append_effect encrypt origin env db e Hok)
    as [(payload & seed & Henc & Hv & Hr & _)|(er & [Hr|Hr])]; rewrite Hr in Ha; by simplify_eq.
Qed.
End append_facts.

(** ** Properties *)

(** A domain event reaches the log only past every guard.  When the call
    succeeds the caller may emit the type, the stream is not archived, the
    version the caller pinned (if any) is the stream's current one, exactly
    one row of the caller's tenant was added with the next version, its payload
    is the encryption of the validated object, and every live projection has
    applied the event.  When it fails no row is added and no projection has
    run, except when a projection threw, in which case the row and the partial
    projection writes are in the open transaction for the caller to roll
    back. *)
Theorem domain_append_is_guarded {V W} (encrypt : string → Row → string * string * string → result Thrown Row)
    (reqCtx : option RequestScope) (env : SeedEnv) (projectedEvents : gset nat) (oid : nat)
    (db : EventsDb) (w : W) (deps : AppendDeps V W) (args : AppendEventArgs)
    (Hok : log_ok db) (Hfresh : oid ∉ projectedEvents) :
  let current := getStreamVersion db (aa_aggregateId args) (dp_tenantId deps) in
  let stored_as row :=
    in_stream (aa_aggregateId args) (dp_tenantId deps) row ∧ row_type row = aa_type args ∧
    row_version row = current + 1 ∧
    ∃ payload, checked_payload deps args = Ok payload ∧
      encrypt (aa_type args) payload (dp_tenantId deps, aa_aggregateType args, aa_aggregateId args)
        = Ok (row_payload row) in
  match appendDomainEventCore encrypt reqCtx env projectedEvents oid db w deps args with
  | (Ok stored, db', w') =>
      may_emit deps args ∧ isStreamArchived db (dp_tenantId deps) (aa_aggregateId args) = false ∧
      (∀ v, aa_expectedVersion args = Some v → v = current) ∧
      (∃ row, db' = add_row db row ∧ stored = toStoredEvent row ∧ stored_as row) ∧
      apply_all (liveProjectionsForEvent stored (dp_registry deps)) stored w = (Ok (), w')
  | (Err (ProjectionThrew message), db', w') =>
      ∃ row, db' = add_row db row ∧ stored_as row ∧
        apply_all (liveProjectionsForEvent (toStoredEvent row) (dp_registry deps)) (toStoredEvent row) w
          = (Err message, w')
  | (Err _, db', w') => db_events db' = db_events db ∧ w' = w
  end.
Proof.
  intros current stored_as. unfold appendDomainEventCore.
  destruct (checked_payload deps args) as [payload|e] eqn:Hc; [|destruct e; try done].
  2:{ unfold checked_payload, validated_payload, assert_owned, requirePayloadObject in Hc.
      repeat case_match; simplify_eq/=. }
  destruct (isStreamArchived _ _ _) eqn:Har; [done|].
  destruct (append _ _ _ _ _) as [[stored|err] db'] eqn:Ha; [|split; [by eapply append_Err_rows|done]].
  destruct (append_Ok_row _ _ _ _ _ _ _ Hok Ha) as (Hv & row & Hdb & Hst & Hin & Hty & Hver & _ & Hpay).
  simpl in *. fold current in Hv, Hver. rewrite Hv in Hver.
  assert (Hstored : stored_as row) by (unfold stored_as; split_and!; [done|done|done|by exists payload]).
  unfold runProjectionsForEvent. rewrite decide_False by done.
  destruct (apply_all _ _ _) as [[[]|message] w'] eqn:Hp.
  - split_and!; [by eapply checked_payload_emits|done| |by exists row|done].
    intros v Hpin. by rewrite Hpin in Hv.
  - exists row. subst. done.
Qed.

Definition shop_registry : Registry string (list string) :=
  mkRegistry
    (λ type, if decide (type = "shop:event:placed")
             then Some (mkEventDef 2 (λ j, match j with JObj (_ :: _) => Ok j | _ => Err "empty" end)) else None)
    (λ source, if decide (source = "order")
               then [mkProjection false [("shop:event:placed", λ e w, Ok (w ++ [se_aggregateId e]))]] else []).

Definition shop_deps (feature : string) : AppendDeps string (list string) :=
  mkDeps shop_registry "t1" "u1" (Some feature).

Definition place_order : AppendEventArgs :=
  mkAppendArgs "a1" "order" "shop:event:placed" (Some (JObj [("n", JNum 1)])) None None.

Lemma domain_append_is_guarded_witness :
  log_ok demo_log ∧ 0%nat ∉ (∅ : gset nat) ∧
  (∃ stored db', appendDomainEventCore plain None liveClock ∅ 0 demo_log [] (shop_deps "shop") place_order
                   = (Ok stored, db', ["a1"]) ∧ may_emit (shop_deps "shop") place_order) ∧
  (appendDomainEventCore plain None liveClock ∅ 0 demo_log [] (shop_deps "billing") place_order).1.1
    = Err (ForeignEvent "shop" "billing").
Proof.
  assert (Hn : 0%nat ∉ (∅ : gset nat)) by set_solver.
  split; [exact log_ok_demo|]. split; [exact Hn|]. split; [|reflexivity].
  pose proof (domain_append_is_guarded plain None liveClock ∅ 0 demo_log [] (shop_deps "shop") place_order
                log_ok_demo Hn) as H.
  assert (Hr : ∃ stored db', appendDomainEventCore plain None liveClock ∅ 0 demo_log [] (shop_deps "shop")
                               place_order = (Ok stored, db', ["a1"])) by (eexists _, _; reflexivity).
  destruct Hr as (stored & db' & Hr). rewrite Hr in H. exists stored, db'. split; [exact Hr|exact (proj1 H)].
Defined.

(** A provenance event is stored only under an owner-qualified type outside
    the system namespace and only in the tenant the database handle is bound
    to; it then is the next event of its stream, at the version the caller
    named or the current one.  Every refusal leaves the stored rows as they
    were. *)
Theorem provenance_append_is_confined (encrypt : string → Row → string * string * string → result Thrown Row)
    (origin : option RequestScope) (env : SeedEnv) (dbTenant : string) (db : EventsDb)
    (event : ProvenanceEventInput) (Hok : log_ok db) :
  let current := getStreamVersion db (pv_aggregateId event) (pv_tenantId event) in
  match appendProvenanceEvent encrypt origin env dbTenant db event with
  | (Ok _, db') =>
      starts_with SYSTEM_EVENT_PREFIX (pv_type event) = false ∧
      (∃ owner, qnScope (pv_type event) = Some owner) ∧ pv_tenantId event = dbTenant ∧
      default current (pv_expectedVersion event) = current ∧
      ∃ row, db' = add_row db row ∧ in_stream (pv_aggregateId event) dbTenant row ∧
             row_type row = pv_type event ∧ row_version row = current + 1
  | (Err _, db') => db_events db' = db_events db
  end.
Proof.
  intros current. unfold appendProvenanceEvent.
  destruct (starts_with _ _); [done|].
  destruct (bool_decide _ || _) eqn:Hq; [done|]. apply orb_false_iff in Hq as [Hq _].
  destruct (negb _) eqn:Ht; [done|]. reflect_bools.
  destruct (append _ _ _ _ _) as [[stored|err] db'] eqn:Ha; [|done].
  destruct (append_Ok_row _ _ _ _ _ _ _ Hok Ha) as (Hv & row & Hdb & _ & Hin & Hty & Hver & _).
  simpl in *. fold current in Hv, Hver. subst dbTenant.
  split_and!; [done| |done|done|].
  - destruct (qnScope _) as [owner|]; [by exists owner|done].
  - exists row. split_and!; [done|done|done|by rewrite Hver, Hv].
Qed.

Lemma provenance_append_is_confined_witness :
  let event t := mkProvenance "a1" "order" t None "shop:imported" [] (demo_metadata None) in
  (∃ db', appendProvenanceEvent plain None liveClock "t1" demo_log (event "t1") = (Ok (), db') ∧
     ∃ row, db' = add_row demo_log row ∧ row_version row = 3) ∧
  (appendProvenanceEvent plain None liveClock "t1" demo_log (event "t2")).1 = Err (ForeignTenant "t2" "t1").
Proof.
  intros event. split; [|reflexivity].
  pose proof (provenance_append_is_confined plain None liveClock "t1" demo_log (event "t1") log_ok_demo) as H.
  assert (Hr : ∃ db', appendProvenanceEvent plain None liveClock "t1" demo_log (event "t1") = (Ok (), db'))
    by (eexists; reflexivity).
  destruct Hr as (db' & Hr). rewrite Hr in H. exists db'. split; [exact Hr|].
  destruct H as (_ & _ & _ & _ & row & Hdb & _ & _ & Hv). exists row. split; [exact Hdb|exact Hv].
Defined.
