(* ===== verification/Ownership.v ===== *)
(** * Ownership rules

    [engine/ownership.ts] with the types of [types/src/ownership.ts]: the rule
    parser, the in-memory checks on rows, and the SQL clause of the same rules.
    An access map is its list of own entries by role.  A SQL fragment is the
    tree whose printing [sql_text] is the source's string; raw text that a
    where-rule supplies is a list of literal parts and placeholders; its truth on
    a row and what Postgres makes of a parameter compared to a column are fields
    of [SqlSemantics], and the lint of such text ([where-rule-lint.ts]) is the
    argument [lint]. *)

From Stdlib Require Import Ascii.
From S2P Require Import Prelude QualifiedName.

(** ** Users and rules *)

Record SessionUser := mkUser {
  us_id : string;
  us_tenantId : string;
  us_roles : list string;
  us_claims : option Row }.

Inductive FromRuleKind := KindUser | KindClaim.

Record FromRule := mkFrom {
  fr_refKind : FromRuleKind;
  fr_refPath : string;
  fr_column : string }.

Inductive SqlPart := SqlText (s : string) | SqlParam (n : nat).

Inductive Sql :=
| SqlTrue
| SqlEq (column : string) (n : nat)
| SqlIn (column : string) (ns : list nat)
| SqlRaw (parts : list SqlPart)
| SqlParen (s : Sql)
| SqlOr (s : Sql) (rest : list Sql)
| SqlAnd (s t : Sql).

Record SqlFragment := mkFragment { sf_sql : Sql; sf_params : list Json }.

Inductive OwnershipRule :=
| RuleAll
| RuleFrom (r : FromRule)
| RuleWhere (where_ : SessionUser → string → nat → SqlFragment).

Definition OwnershipMap : Type := list (string * OwnershipRule).

Inductive OwnershipClause :=
| ClausePass
| ClauseEmpty
| ClauseSql (f : SqlFragment).

(** ** The printed SQL *)

(** The name between double quotes, each double quote in it doubled. *)
Definition dquote : ascii := "034"%char.

Fixpoint double_quotes (s : string) : string :=
  match s with
  | EmptyString => EmptyString
  | String c s' => if Ascii.eqb c dquote then String c (String c (double_quotes s'))
                   else String c (double_quotes s')
  end.

Definition quoteIdent (name : string) : string :=
  String dquote (double_quotes name +:+ String dquote EmptyString).

Definition placeholder (n : nat) : string := "$" +:+ pretty n.

Fixpoint sql_text (s : Sql) : string :=
  match s with
  | SqlTrue => "TRUE"
  | SqlEq c n => quoteIdent c +:+ " = " +:+ placeholder n
  | SqlIn c ns => quoteIdent c +:+ " IN (" +:+ join_with ", " (placeholder <$> ns) +:+ ")"
  | SqlRaw parts => join_with "" ((λ p, match p with SqlText t => t | SqlParam n => placeholder n end) <$> parts)
  | SqlParen t => "(" +:+ sql_text t +:+ ")"
  | SqlOr t rest => "(" +:+ join_with " OR " (((λ x, "(" +:+ sql_text x +:+ ")") t)
                              :: map (λ x, "(" +:+ sql_text x +:+ ")") rest) +:+ ")"
  | SqlAnd t u => "(" +:+ sql_text t +:+ " AND " +:+ sql_text u +:+ ")"
  end.

(** ** Parsing references *)

Inductive FromError :=
| RefWithoutColon
| UserColumnMissing
| UserRefUnsupported
| ClaimRefInvalid
| PrefixUnsupported.

Definition from (ref : string) (column : option string) : result FromError FromRule :=
  match index_of colon ref with
  | None => Err RefWithoutColon
  | Some firstColon =>
      let prefix := slice_to firstColon ref in
      let rest := slice_from (S firstColon) ref in
      if decide (prefix = "user") then
        match column with
        | None | Some "" => Err UserColumnMissing
        | Some c => if decide (rest ≠ "id" ∧ rest ≠ "tenantId") then Err UserRefUnsupported
                    else Ok (mkFrom KindUser rest c)
        end
      else if decide (prefix = "claim") then
        match index_of colon rest with
        | None => Err ClaimRefInvalid
        | Some i => Ok (mkFrom KindClaim rest (default (slice_from (S i) rest) column))
        end
      else Err PrefixUnsupported
  end.

(** ** Checks on a row in memory *)

Definition resolveUserValue (rule : FromRule) (user : SessionUser) : option Json :=
  match fr_refKind rule with
  | KindUser => Some (JStr (if decide (fr_refPath rule = "id") then us_id user else us_tenantId user))
  | KindClaim => us_claims user ≫= assoc_get (fr_refPath rule)
  end.

Definition matches_from (rule : FromRule) (user : SessionUser) (row : Row) : bool :=
  match resolveUserValue rule user with
  | None => false
  | Some userValue =>
      match assoc_get (fr_column rule) row with
      | None | Some JNull => false
      | Some rowValue =>
          match userValue with
          | JArr values => existsb (λ v, strict_equals v rowValue) values
          | _ => strict_equals userValue rowValue
          end
      end
  end.

(** [Err] is the error a where-rule throws in memory. *)
Definition matchesRule (rule : OwnershipRule) (user : SessionUser) (row : Row) : result () bool :=
  match rule with
  | RuleAll => Ok true
  | RuleWhere _ => Err ()
  | RuleFrom r => Ok (matches_from r user row)
  end.

Definition empty_map (accessMap : option OwnershipMap) : bool :=
  match accessMap with None | Some [] => true | _ => false end.

(** The [for] loops over the user's roles: [accepts] is the loop body's test
    of one rule. *)
Definition some_role (user : SessionUser) (accessMap : option OwnershipMap)
    (accepts : OwnershipRule → bool) : bool :=
  if empty_map accessMap then true
  else existsb (λ role, match assoc_get role (default [] accessMap) with
                        | None => false
                        | Some rule => accepts rule
                        end) (us_roles user).

Definition userCanReadFieldRow (user : SessionUser) (accessMap : option OwnershipMap) (row : Row) : bool :=
  some_role user accessMap (λ rule,
    match rule with
    | RuleWhere _ => false
    | _ => match matchesRule rule user row with Ok b => b | Err _ => false end
    end).

Definition userCanWriteFieldRow (user : SessionUser) (accessMap : option OwnershipMap)
    (oldRow newRow : Row) : bool :=
  some_role user accessMap (λ rule,
    match rule with
    | RuleAll => true
    | RuleWhere _ => false
    | RuleFrom r => matches_from r user oldRow && matches_from r user newRow
    end).

Definition userCanCreateFieldRow (user : SessionUser) (accessMap : option OwnershipMap) (newRow : Row)
    : bool :=
  some_role user accessMap (λ rule,
    match rule with
    | RuleAll => true
    | RuleWhere _ => false
    | RuleFrom r => matches_from r user newRow
    end).

(** The legacy array of roles or a map. *)
Inductive AccessEntry := EntryRoles (roles : list string) | EntryMap (m : OwnershipMap).

Definition normalizeAccessEntry (entry : option AccessEntry) : option OwnershipMap :=
  match entry with
  | None => None
  | Some (EntryRoles []) => None
  | Some (EntryRoles roles) => Some (foldl (λ m role, assoc_set role RuleAll m) [] roles)
  | Some (EntryMap m) => Some m
  end.

(** ** The SQL clause *)

Fixpoint shift_sql (s : Sql) (shift : nat) : Sql :=
  match s with
  | SqlTrue => SqlTrue
  | SqlEq c n => SqlEq c (n + shift)
  | SqlIn c ns => SqlIn c ((λ n, (n + shift)%nat) <$> ns)
  | SqlRaw parts => SqlRaw ((λ p, match p with SqlText t => SqlText t | SqlParam n => SqlParam (n + shift) end)
                              <$> parts)
  | SqlParen t => SqlParen (shift_sql t shift)
  | SqlOr t rest => SqlOr (shift_sql t shift) (map (λ x, shift_sql x shift) rest)
  | SqlAnd t u => SqlAnd (shift_sql t shift) (shift_sql u shift)
  end.

Definition shiftParams (fragment : SqlFragment) (shift : nat) : SqlFragment :=
  if decide (shift = 0)%nat then fragment
  else mkFragment (shift_sql (sf_sql fragment) shift) (sf_params fragment).

(** A table: its name and the SQL name of each of its fields. *)
Record Table := mkTable { tb_name : string; tb_columns : list (string * string) }.

Definition columnSqlName (table : Table) (field : string) : option string :=
  assoc_get field (tb_columns table).

(** [Err] is the lint's throw; [Ok None] is the empty result. *)
Definition ruleToFragment (lint : Sql → Table → bool) (rule : OwnershipRule) (user : SessionUser)
    (table : Table) (paramStart : nat) (tableNameOverride : option string)
    : result () (option SqlFragment) :=
  match rule with
  | RuleAll => Ok (Some (mkFragment SqlTrue []))
  | RuleWhere where_ =>
      let frag := where_ user (default (tb_name table) tableNameOverride) paramStart in
      if lint (sf_sql frag) table then Ok (Some frag) else Err ()
  | RuleFrom r =>
      match columnSqlName table (fr_column r), resolveUserValue r user with
      | None, _ => Ok None
      | Some _, (None | Some JNull | Some (JArr [])) => Ok None
      | Some c, Some (JArr values) =>
          Ok (Some (mkFragment (SqlIn c (seq paramStart (length values))) values))
      | Some c, Some value => Ok (Some (mkFragment (SqlEq c paramStart) [value]))
      end
  end.

(** The loop over the roles: [inl] is the early return of the pass clause;
    otherwise the collected clauses and whether any role was mapped. *)
Fixpoint collect_clauses (lint : Sql → Table → bool) (accessMap : OwnershipMap) (user : SessionUser)
    (table : Table) (tableNameOverride : option string) (roles : list string)
    (nextParamIdx : nat) : result () (() + list SqlFragment * bool) :=
  match roles with
  | [] => Ok (inr ([], false))
  | role :: rest =>
      match assoc_get role accessMap with
      | None => collect_clauses lint accessMap user table tableNameOverride rest nextParamIdx
      | Some RuleAll => Ok (inl ())
      | Some rule =>
          let? resolved := ruleToFragment lint rule user table nextParamIdx tableNameOverride in
          let taken := from_option (λ f, length (sf_params f)) 0%nat resolved in
          let? more := collect_clauses lint accessMap user table tableNameOverride rest
                         (nextParamIdx + taken) in
          Ok (match more with
              | inl u => inl u
              | inr (clauses, _) => inr (option_list resolved ++ clauses, true)
              end)
      end
  end.

Definition join_clauses (clauses : list SqlFragment) : OwnershipClause :=
  match clauses with
  | [] => ClauseEmpty
  | [only] => ClauseSql (mkFragment (SqlParen (sf_sql only)) (sf_params only))
  | c :: rest => ClauseSql (mkFragment (SqlOr (sf_sql c) (sf_sql <$> rest)) (clauses ≫= sf_params))
  end.

Definition buildOwnershipClause (lint : Sql → Table → bool) (user : SessionUser)
    (accessMap : option OwnershipMap) (table : Table) (paramStart : nat)
    (tableNameOverride : option string) : result () OwnershipClause :=
  if empty_map accessMap then Ok ClausePass
  else
    let? collected := collect_clauses lint (default [] accessMap) user table tableNameOverride
                        (us_roles user) paramStart in
    Ok (match collected with
        | inl _ => ClausePass
        | inr (_, false) => ClauseEmpty
        | inr (clauses, true) => join_clauses clauses
        end).

Definition combineClauses (a b : OwnershipClause) : OwnershipClause :=
  match a, b with
  | ClauseEmpty, _ | _, ClauseEmpty => ClauseEmpty
  | ClausePass, _ => b
  | _, ClausePass => a
  | ClauseSql fa, ClauseSql fb =>
      let shifted := shiftParams fb (length (sf_params fa)) in
      ClauseSql (mkFragment (SqlAnd (sf_sql fa) (sf_sql shifted)) (sf_params fa ++ sf_params shifted))
  end.

(** ** Specification: what the SQL admits *)

(** [raw_holds] is the truth of raw text.  A parameter compared to a column is
    bound as text and read as a value of the column's type, [param_reads]; a value
    the type does not take makes the statement fail, and no row is admitted. *)
Record SqlSemantics := mkSemantics {
  raw_holds : list (string + option Json) → Row → bool;
  param_reads : string → Json → option Json }.

Section admits.
Context (sem : SqlSemantics).

(** [column = value] is true; a null on either side is not. *)
Definition column_equals (row : Row) (column : string) (value : option Json) : bool :=
  match assoc_get column row, value ≫= param_reads sem column with
  | None, _ | Some JNull, _ | _, None => false
  | Some x, Some v => strict_equals v x
  end.

Fixpoint sql_admits (bind : nat → option Json) (row : Row) (s : Sql) : bool :=
  match s with
  | SqlTrue => true
  | SqlEq c n => column_equals row c (bind n)
  | SqlIn c ns => existsb (λ n, column_equals row c (bind n)) ns
  | SqlRaw parts => raw_holds sem ((λ p, match p with SqlText t => inl t | SqlParam n => inr (bind n) end)
                                 <$> parts) row
  | SqlParen t => sql_admits bind row t
  | SqlOr t rest => sql_admits bind row t || existsb (sql_admits bind row) rest
  | SqlAnd t u => sql_admits bind row t && sql_admits bind row u
  end.

(** The parameter list of a statement: [$1] is its first element. *)
Definition bind_of (params : list Json) (n : nat) : option Json :=
  match n with O => None | S i => params !! i end.

Definition clause_admits (clause : OwnershipClause) (row : Row) : bool :=
  match clause with
  | ClausePass => true
  | ClauseEmpty => false
  | ClauseSql f => sql_admits (bind_of (sf_params f)) row (sf_sql f)
  end.
End admits.

(** The parameters stand at their places from [start] on. *)
Definition binds (bind : nat → option Json) (start : nat) (params : list Json) : Prop :=
  ∀ i v, params !! i = Some v → bind (start + i)%nat = Some v.

(** The stored row [sqlRow] holds the fields of [row] under their SQL names. *)
Definition represents (table : Table) (row sqlRow : Row) : Prop :=
  ∀ f, match columnSqlName table f with
       | Some c => assoc_get c sqlRow = assoc_get f row
       | None => assoc_get f row = None
       end.

(** What a from-rule compares a column to. *)
Definition user_values (r : FromRule) (user : SessionUser) : list Json :=
  match resolveUserValue r user with
  | None => []
  | Some (JArr values) => values
  | Some v => [v]
  end.

(** The values have the type of the column: Postgres reads them as they are. *)
Definition values_fit (sem : SqlSemantics) (table : Table) (user : SessionUser) (r : FromRule) : Prop :=
  ∀ c v, columnSqlName table (fr_column r) = Some c → v ∈ user_values r user → param_reads sem c v = Some v.

(** Where-rules have no in-memory evaluation. *)
Definition is_where (rule : OwnershipRule) : bool :=
  match rule with RuleWhere _ => true | _ => false end.

Definition no_where_rules (m : OwnershipMap) : Prop := Forall (λ kr, is_where kr.2 = false) m.

Fixpoint placeholders (s : Sql) : list nat :=
  match s with
  | SqlTrue => []
  | SqlEq _ n => [n]
  | SqlIn _ ns => ns
  | SqlRaw parts => omap (λ p, match p with SqlText _ => None | SqlParam n => Some n end) parts
  | SqlParen t => placeholders t
  | SqlOr t rest => placeholders t ++ concat (map placeholders rest)
  | SqlAnd t u => placeholders t ++ placeholders u
  end.

(** Every placeholder refers to one of the fragment's own parameters. *)
Definition closed_fragment (f : SqlFragment) : Prop :=
  Forall (λ n, 1 ≤ n ≤ length (sf_params f))%nat (placeholders (sf_sql f)).

Definition closed_clause (c : OwnershipClause) : Prop :=
  match c with ClauseSql f => closed_fragment f | _ => True end.

(** ** Lemmas on fragments *)

Lemma Sql_nested_ind (P : Sql → Prop) :
  P SqlTrue → (∀ c n, P (SqlEq c n)) → (∀ c ns, P (SqlIn c ns)) → (∀ parts, P (SqlRaw parts)) →
  (∀ s, P s → P (SqlParen s)) → (∀ s rest, P s → Forall P rest → P (SqlOr s rest)) →
  (∀ s t, P s → P t → P (SqlAnd s t)) → ∀ s, P s.
Proof.
  intros H1 H2 H3 H4 H5 H6 H7. fix IH 1. intros s. destruct s as [|c n|c ns|parts|t|t rest|t u].
  - exact H1.
  - apply H2.
  - apply H3.
  - apply H4.
  - apply H5, IH.
  - apply H6; [apply IH|]. induction rest; constructor; [apply IH|assumption].
  - apply H7; apply IH.
Qed.

Lemma existsb_ext_in {A} (f g : A → bool) l : (∀ x, x ∈ l → f x = g x) → existsb f l = existsb g l.
Proof.
  induction l as [|x l IH]; intros H; simpl; [done|]. rewrite H by set_solver. f_equal. apply IH.
  intros y Hy. apply H. set_solver.
Qed.

Section fragments.
Context (sem : SqlSemantics) (row : Row).
Notation admits := (sql_admits sem).

(** A fragment sees the binding at its placeholders only. *)
Lemma admits_ext s (b1 b2 : nat → option Json) :
  (∀ n, n ∈ placeholders s → b1 n = b2 n) → admits b1 row s = admits b2 row s.
Proof.
  induction s as [|c n|c ns|parts|t IH|t rest IH IHr|t u IHt IHu] using Sql_nested_ind; intros Hb; simpl in *.
  - done.
  - by rewrite Hb by set_solver.
  - apply existsb_ext_in. intros n Hn. by rewrite Hb.
  - f_equal. apply list_fmap_ext. intros i p Hp. destruct p as [x|n]; [done|]. f_equal. apply Hb.
    apply list_elem_of_omap. exists (SqlParam n). split; [by eapply list_elem_of_lookup_2|done].
  - by apply IH.
  - f_equal; [apply IH; set_solver|]. rewrite Forall_forall in IHr. apply existsb_ext_in.
    intros x Hx. apply IHr; [done|]. intros n Hn. apply Hb. apply elem_of_app. right.
    rewrite <- flat_map_concat_map. apply list_elem_of_In, in_flat_map. exists x.
    by rewrite <- !list_elem_of_In.
  - f_equal; [apply IHt|apply IHu]; set_solver.
Qed.

Lemma admits_shift s (b : nat → option Json) k :
  admits b row (shift_sql s k) = admits (λ n, b (n + k)%nat) row s.
Proof.
  induction s as [|c n|c ns|parts|t IH|t rest IH IHr|t u IHt IHu] using Sql_nested_ind; simpl.
  - done.
  - done.
  - induction ns as [|n ns IH]; simpl; [done|]. f_equal. exact IH.
  - f_equal. rewrite <- list_fmap_compose. apply list_fmap_ext. intros i p _. by destruct p.
  - done.
  - rewrite IH. f_equal. induction IHr as [|x rest Hx _ IHr]; simpl; [done|]. by rewrite Hx, IHr.
  - by rewrite IHt, IHu.
Qed.

Lemma shiftParams_sql f k : sf_sql (shiftParams f k) = shift_sql (sf_sql f) k ∨
  (k = 0%nat ∧ shiftParams f k = f).
Proof. unfold shiftParams. case_decide; [by right|by left]. Qed.

Lemma admits_shiftParams f (b : nat → option Json) k :
  admits b row (sf_sql (shiftParams f k)) = admits (λ n, b (n + k)%nat) row (sf_sql f).
Proof.
  destruct (shiftParams_sql f k) as [->|[-> ->]]; [apply admits_shift|].
  apply admits_ext. intros n _. by rewrite Nat.add_0_r.
Qed.

Lemma shiftParams_params f k : sf_params (shiftParams f k) = sf_params f.
Proof. unfold shiftParams. by case_decide. Qed.
End fragments.

(** ** Properties *)

(** Joining two read clauses admits exactly the rows both admit: denial on
    either side denies, an unrestricted side changes nothing, and two SQL
    clauses are conjoined with the second one's placeholders moved behind the
    first one's parameters, so that each still reads its own values. *)
Theorem combined_clause_is_conjunction (sem : SqlSemantics)
    (a b : OwnershipClause) (row : Row) (Ha : closed_clause a) (Hb : closed_clause b) :
  clause_admits sem (combineClauses a b) row
  = clause_admits sem a row && clause_admits sem b row.
Proof.
  destruct a as [| |fa], b as [| |fb]; simpl; rewrite ?andb_true_r, ?andb_false_r; try done.
  rewrite shiftParams_params. unfold closed_clause, closed_fragment in *. rewrite Forall_forall in Ha, Hb.
  f_equal.
  - apply admits_ext. intros n Hn. specialize (Ha n Hn). destruct n as [|i]; simpl; [lia|].
    by rewrite lookup_app_l by lia.
  - rewrite admits_shiftParams. apply admits_ext. intros n Hn. specialize (Hb n Hn).
    destruct n as [|i]; [lia|]. simpl. rewrite lookup_app_r by lia. f_equal. lia.
Qed.

(** ** Lemmas on the clause of a map *)

Lemma existsb_never {A} (l : list A) : existsb (λ _, false) l = false.
Proof. by induction l. Qed.

Section clause.
Context (sem : SqlSemantics) (lint : Sql → Table → bool)
  (user : SessionUser) (table : Table) (tableNameOverride : option string) (row sqlRow : Row).
Context (Hrep : represents table row sqlRow).
#[local] Set Default Proof Using "All".

Lemma binds_app bind start p1 p2 :
  binds bind start (p1 ++ p2) ↔ binds bind start p1 ∧ binds bind (start + length p1) p2.
Proof.
  unfold binds. split.
  - intros H. split; intros i v Hi.
    + apply H. by apply lookup_app_l_Some.
    + rewrite <- Nat.add_assoc. apply H. rewrite lookup_app_r by lia. rewrite <- Hi. f_equal. lia.
  - intros [H1 H2] i v [Hi|[Hle Hi]]%lookup_app_Some; [by apply H1|].
    replace (start + i)%nat with (start + length p1 + (i - length p1))%nat by lia. by apply H2.
Qed.

Lemma in_list_admits bind start c values :
  binds bind start values →
  existsb (λ n, column_equals sem sqlRow c (bind n)) (seq start (length values))
  = existsb (λ v, column_equals sem sqlRow c (Some v)) values.
Proof.
  revert start. induction values as [|v values IH]; intros start Hb; simpl; [done|].
  rewrite <- (Nat.add_0_r start) at 1. rewrite (Hb 0%nat v eq_refl). f_equal. apply IH.
  intros i w Hi. rewrite Nat.add_succ_comm. by apply Hb.
Qed.

Lemma column_equals_field c field v :
  columnSqlName table field = Some c → param_reads sem c v = Some v →
  column_equals sem sqlRow c (Some v)
  = match assoc_get field row with None | Some JNull => false | Some x => strict_equals v x end.
Proof.
  intros Hc Hv. specialize (Hrep field). rewrite Hc in Hrep. unfold column_equals. simpl. rewrite Hrep, Hv.
  by destruct (assoc_get field row) as [[]|].
Qed.

Definition within (start : nat) (f : SqlFragment) : Prop :=
  Forall (λ n, start ≤ n < start + length (sf_params f))%nat (placeholders (sf_sql f)).

Lemma from_rule_fragment r start :
  values_fit sem table user r →
  ∃ resolved, ruleToFragment lint (RuleFrom r) user table start tableNameOverride = Ok resolved ∧
    match resolved with
    | None => matches_from r user row = false
    | Some f => within start f ∧ ∀ bind, binds bind start (sf_params f) →
                  sql_admits sem bind sqlRow (sf_sql f) = matches_from r user row
    end.
Proof.
  intros Hfit. simpl. unfold matches_from, within.
  destruct (columnSqlName table (fr_column r)) as [c|] eqn:Hc.
  2:{ eexists. split; [done|]. specialize (Hrep (fr_column r)). rewrite Hc in Hrep. rewrite Hrep.
      by destruct (resolveUserValue r user). }
  assert (Hvals : ∀ v, v ∈ user_values r user → param_reads sem c v = Some v) by (intros v; by apply Hfit).
  clear Hfit. unfold user_values in Hvals.
  destruct (resolveUserValue r user) as [v|] eqn:Hv; [|by eexists].
  assert (Hscalar : param_reads sem c v = Some v → ∀ bind, binds bind start [v] →
            sql_admits sem bind sqlRow (SqlEq c start)
            = match assoc_get (fr_column r) row with None | Some JNull => false | Some x => strict_equals v x end).
  { intros Hr bind Hb. simpl. rewrite <- (Nat.add_0_r start), (Hb 0%nat v eq_refl). by apply column_equals_field. }
  destruct v as [|b|n|s|[|x l]|o].
  - eexists. split; [done|]. simpl. by destruct (assoc_get _ row) as [[]|].
  - eexists. split; [done|]. simpl in *. split; [repeat constructor; lia|apply Hscalar, Hvals; by left].
  - eexists. split; [done|]. simpl in *. split; [repeat constructor; lia|apply Hscalar, Hvals; by left].
  - eexists. split; [done|]. simpl in *. split; [repeat constructor; lia|apply Hscalar, Hvals; by left].
  - eexists. split; [done|]. simpl. by destruct (assoc_get _ row) as [[]|].
  - eexists. split; [done|]. simpl sf_sql. simpl sf_params. split.
    + apply Forall_forall. intros k Hk. apply elem_of_seq in Hk. simpl in *. lia.
    + intros bind Hb.
      transitivity (existsb (λ n, column_equals sem sqlRow c (bind n)) (seq start (length (x :: l)))); [done|].
      rewrite (in_list_admits bind start c (x :: l) Hb).
      rewrite (existsb_ext_in _ (λ v, match assoc_get (fr_column r) row with
                                       None | Some JNull => false | Some y => strict_equals v y end))
        by (intros; apply column_equals_field; [done|by apply Hvals]).
      destruct (assoc_get (fr_column r) row) as [y|];
        [destruct y; try done|]; by rewrite existsb_never.
  - eexists. split; [done|]. simpl in *. split; [repeat constructor; lia|apply Hscalar, Hvals; by left].
Qed.

(** The test of one role by the in-memory loop. *)
Definition accepts (m : OwnershipMap) (role : string) : bool :=
  match assoc_get role m with
  | None => false
  | Some (RuleWhere _) => false
  | Some rule => match matchesRule rule user row with Ok b => b | Err _ => false end
  end.

Definition all_params (clauses : list SqlFragment) : list Json := clauses ≫= sf_params.

Lemma collect_clauses_agree m roles start :
  no_where_rules m → (∀ role r, role ∈ roles → assoc_get role m = Some (RuleFrom r) → values_fit sem table user r) →
  ∃ collected, collect_clauses lint m user table tableNameOverride roles start = Ok collected ∧
    match collected with
    | inl _ => existsb (accepts m) roles = true
    | inr (clauses, any) =>
        (any = false → clauses = []) ∧
        Forall (λ n, start ≤ n < start + length (all_params clauses))%nat
          (clauses ≫= λ f, placeholders (sf_sql f)) ∧
        ∀ bind, binds bind start (all_params clauses) →
          existsb (λ f, sql_admits sem bind sqlRow (sf_sql f)) clauses = existsb (accepts m) roles
    end.
Proof.
  intros Hnw. revert start. induction roles as [|role roles IH]; intros start Hfit; cbn [collect_clauses].
  { eexists. split; [done|]. simpl. by split_and!. }
  simpl existsb. assert (Hacc : accepts m role = accepts m role) by done. revert Hacc. unfold accepts at 1.
  destruct (assoc_get role m) as [[|r|w]|] eqn:Hr; intros Hacc.
  - eexists. split; [done|]. simpl. by rewrite <- Hacc.
  - destruct (from_rule_fragment r start) as (resolved & -> & Hres); [by apply (Hfit role); [left|]|]. cbn [result_bind].
    destruct (IH (start + from_option (λ f, length (sf_params f)) 0 resolved)%nat)
      as (more & -> & Hmore); [intros role' r' Hin; apply Hfit; by right|].
    cbn [result_bind]. eexists. split; [done|]. simpl in Hacc.
    destruct more as [[]|[clauses any]]; [by rewrite Hmore, orb_true_r|].
    destruct Hmore as (_ & Hin & Hev). split; [done|]. destruct resolved as [f|]; simpl in *.
    + destruct Hres as [Hwithin Hf]. unfold all_params in *. simpl. split.
      * rewrite length_app. apply Forall_app. split; eapply Forall_impl; [exact Hwithin| |exact Hin|].
        -- simpl. intros; lia.
        -- simpl. intros; lia.
      * intros bind [Hb1 Hb2]%binds_app. by rewrite (Hf _ Hb1), (Hev _ Hb2), <- Hacc.
    + rewrite Nat.add_0_r in *. split; [done|]. intros bind Hb. by rewrite (Hev _ Hb), <- Hacc, Hres.
  - exfalso. unfold no_where_rules in Hnw. rewrite Forall_forall in Hnw.
    apply assoc_get_elem_of in Hr. by specialize (Hnw _ Hr).
  - destruct (IH start) as (more & -> & Hmore); [intros role' r' Hin; apply Hfit; by right|]. eexists. split; [done|]. by rewrite <- Hacc.
Qed.
End clause.

Lemma join_clauses_admits sem bind row c rest f :
  join_clauses (c :: rest) = ClauseSql f →
  sql_admits sem bind row (sf_sql f)
    = existsb (λ g, sql_admits sem bind row (sf_sql g)) (c :: rest) ∧
  sf_params f = (c :: rest) ≫= sf_params ∧
  placeholders (sf_sql f) = (c :: rest) ≫= λ g, placeholders (sf_sql g).
Proof.
  destruct rest as [|d rest]; simpl; intros [= <-]; simpl.
  - rewrite orb_false_r, !app_nil_r. done.
  - split_and!; [|done|].
    + do 2 f_equal. induction rest; simpl; [done|]. by f_equal.
    + do 2 f_equal. induction rest as [|x rest IH]; simpl; [done|]. by f_equal.
Qed.

Lemma userCanReadFieldRow_accepts user m row :
  m ≠ [] → userCanReadFieldRow user (Some m) row = existsb (accepts user row m) (us_roles user).
Proof.
  intros Hm. unfold userCanReadFieldRow, some_role, accepts. destruct m as [|kr m]; [done|]. cbn [empty_map default].
  apply existsb_ext_in. intros role _. by destruct (assoc_get role _) as [[]|].
Qed.

(** C40: the SQL clause of an access map filters exactly the rows the in-memory
    check lets a user read, for users whose values have the types of the columns
    they are compared to (Postgres reads a text parameter as the column's type
    and so takes more: text_claim_meets_number_column).  For a map without
    where-rules the clause is always built; an unrestricted clause means every
    such row is readable, an empty one that none is, and otherwise the fragment,
    with its parameters bound from the given position, holds on a stored row just
    when the check accepts it.  Its placeholders are exactly among its own
    parameters. *)
Theorem sql_clause_agrees_with_row_check (sem : SqlSemantics)
    (lint : Sql → Table → bool) (user : SessionUser) (accessMap : option OwnershipMap) (table : Table)
    (paramStart : nat) (tableNameOverride : option string) (row sqlRow : Row)
    (Hnw : no_where_rules (default [] accessMap)) (Hrep : represents table row sqlRow)
    (Hfit : ∀ role r, role ∈ us_roles user → assoc_get role (default [] accessMap) = Some (RuleFrom r) →
              values_fit sem table user r) :
  ∃ clause, buildOwnershipClause lint user accessMap table paramStart tableNameOverride = Ok clause ∧
    match clause with
    | ClausePass => userCanReadFieldRow user accessMap row = true
    | ClauseEmpty => userCanReadFieldRow user accessMap row = false
    | ClauseSql f =>
        within paramStart f ∧
        ∀ bind, binds bind paramStart (sf_params f) →
          sql_admits sem bind sqlRow (sf_sql f) = userCanReadFieldRow user accessMap row
    end.
Proof.
  unfold buildOwnershipClause. destruct accessMap as [[|kr m]|]; [by eexists| |by eexists].
  simpl empty_map. cbv iota. simpl default. rewrite userCanReadFieldRow_accepts by done.
  destruct (collect_clauses_agree sem lint user table tableNameOverride row sqlRow Hrep
              (kr :: m) (us_roles user) paramStart Hnw Hfit) as (collected & Hc & Hcol).
  simpl default in Hc. rewrite Hc. cbn [result_bind]. eexists. split; [done|].
  destruct collected as [[]|[clauses any]]; [done|]. destruct Hcol as (Hnone & Hin & Hev).
  destruct any; [|rewrite (Hnone eq_refl) in *; symmetry; by apply (Hev (λ _, None))].
  destruct clauses as [|c rest]; [symmetry; by apply (Hev (λ _, None))|].
  destruct (join_clauses (c :: rest)) as [| |f] eqn:Hj; [by destruct rest..|].
  destruct (join_clauses_admits sem (λ _, None) sqlRow c rest f Hj) as (_ & Hp & Hph).
  unfold within. rewrite Hp, Hph. split; [exact Hin|]. intros bind Hb.
  destruct (join_clauses_admits sem bind sqlRow c rest f Hj) as (-> & _). by apply Hev.
Qed.

(** A field write is accepted only by one role for both states of the row:
    unless the map is empty, some single role of the user has a rule that is
    unrestricted or a from-rule that matches the old row and the new row; a
    where-rule never accepts.  So no two roles can be stitched together to move
    a row from one owner to another, and whoever may write may read both
    states and could have created the new one. *)
Theorem write_check_is_straddle_safe (user : SessionUser) (accessMap : option OwnershipMap)
    (oldRow newRow : Row) :
  (userCanWriteFieldRow user accessMap oldRow newRow = true ↔
     empty_map accessMap = true ∨
     ∃ role rule, role ∈ us_roles user ∧ assoc_get role (default [] accessMap) = Some rule ∧
       match rule with
       | RuleAll => True
       | RuleWhere _ => False
       | RuleFrom r => matches_from r user oldRow = true ∧ matches_from r user newRow = true
       end) ∧
  (userCanWriteFieldRow user accessMap oldRow newRow = true →
     userCanReadFieldRow user accessMap oldRow = true ∧ userCanReadFieldRow user accessMap newRow = true ∧
     userCanCreateFieldRow user accessMap newRow = true).
Proof.
  assert (Hiff : userCanWriteFieldRow user accessMap oldRow newRow = true ↔
     empty_map accessMap = true ∨
     ∃ role rule, role ∈ us_roles user ∧ assoc_get role (default [] accessMap) = Some rule ∧
       match rule with
       | RuleAll => True
       | RuleWhere _ => False
       | RuleFrom r => matches_from r user oldRow = true ∧ matches_from r user newRow = true
       end).
  { unfold userCanWriteFieldRow, some_role. destruct (empty_map accessMap); [naive_solver|].
    rewrite existsb_exists. split.
    - intros (role & Hin%list_elem_of_In & Ha). right. exists role.
      destruct (assoc_get role _) as [rule|]; [|done]. exists rule. split_and!; [done|done|].
      destruct rule; [done|by apply andb_prop in Ha|done].
    - intros [|(role & rule & Hin & Hr & Ha)]; [done|]. exists role. rewrite Hr, <- list_elem_of_In.
      split; [done|]. destruct rule; [done|by apply andb_true_intro|done]. }
  split; [exact Hiff|]. intros [He|(role & rule & Hin & Hr & Ha)]%Hiff.
  - unfold userCanReadFieldRow, userCanCreateFieldRow, some_role. by rewrite He.
  - assert (Hsome : ∀ test, test rule = true → some_role user accessMap test = true).
    { intros test Ht. unfold some_role. destruct (empty_map accessMap); [done|]. apply existsb_exists. exists role.
      rewrite Hr, <- list_elem_of_In. done. }
    destruct rule as [|r|w]; [split_and!; by apply Hsome| |done]. destruct Ha as [Ho Hn].
    unfold userCanReadFieldRow, userCanCreateFieldRow. split_and!; apply Hsome; done.
Qed.

(** ** Witnesses *)

Definition regional : OwnershipMap :=
  [("sales", RuleFrom (mkFrom KindClaim "crm:regions" "region"));
   ("owner", RuleFrom (mkFrom KindUser "id" "ownerId"))].

Definition seller : SessionUser :=
  mkUser "u7" "t1" ["sales"; "owner"] (Some [("crm:regions", JArr [JStr "north"; JStr "west"])]).

Definition accounts_table : Table := mkTable "accounts" [("region", "region"); ("ownerId", "owner_id")].

Lemma account_represented (region owner : Json) :
  represents accounts_table [("region", region); ("ownerId", owner)] [("region", region); ("owner_id", owner)].
Proof.
  intros f. unfold columnSqlName; simpl. repeat case_decide; simplify_eq; simpl; repeat case_decide; done.
Qed.

Lemma regional_has_no_where : no_where_rules regional.
Proof. by repeat constructor. Qed.

(** Text columns: a parameter is the text it is bound as. *)
Definition text_columns : SqlSemantics :=
  mkSemantics (λ _ _, true)
    (λ _ v, match v with
            | JStr t => Some (JStr t)
            | JBool b => Some (JStr (if b then "true" else "false"))
            | _ => None
            end).

Lemma regional_values_fit role r :
  role ∈ us_roles seller → assoc_get role (default [] (Some regional)) = Some (RuleFrom r) →
  values_fit text_columns accounts_table seller r.
Proof.
  intros _ Hr. apply assoc_get_elem_of in Hr. unfold regional in Hr. simpl in Hr.
  apply elem_of_cons in Hr as [[= _ ->]|Hr].
  - intros c v _ Hv. unfold user_values in Hv. simpl in Hv.
    by repeat (apply elem_of_cons in Hv as [->|Hv]); [..|apply elem_of_nil in Hv].
  - apply list_elem_of_singleton in Hr as [= _ ->]. intros c v _ Hv%list_elem_of_singleton. by subst.
Qed.

(** A claim with the text 5 on a number column: the SQL clause admits the row
    with the number 5, which the check in memory refuses. *)
Definition number_column : SqlSemantics :=
  mkSemantics (λ _ _, true) (λ _ v, match v with JStr "5" => Some (JNum 5) | JNum n => Some (JNum n) | _ => None end).

Lemma text_claim_meets_number_column :
  let user := mkUser "u7" "t1" ["sales"] (Some [("crm:team", JStr "5")]) in
  let teams := [("sales", RuleFrom (mkFrom KindClaim "crm:team" "team"))] in
  let row := [("team", JNum 5)] in
  userCanReadFieldRow user (Some teams) row = false ∧
  ∃ clause, buildOwnershipClause (λ _ _, true) user (Some teams) (mkTable "accounts" [("team", "team")]) 1 None = Ok clause ∧
            clause_admits number_column clause row = true.
Proof. split; [reflexivity|]. eexists. split; reflexivity. Qed.

Lemma sql_clause_agrees_with_row_check_witness :
  (∃ f, buildOwnershipClause (λ _ _, true) seller (Some regional) accounts_table 3 None = Ok (ClauseSql f) ∧
        placeholders (sf_sql f) = [3; 4; 5]%nat ∧
        sf_params f = [JStr "north"; JStr "west"; JStr "u7"]) ∧
  userCanReadFieldRow seller (Some regional) [("region", JStr "west"); ("ownerId", JStr "u1")] = true.
Proof.
  split; [eexists; split; [reflexivity|]; split; reflexivity|].
  destruct (sql_clause_agrees_with_row_check text_columns (λ _ _, true) seller (Some regional) accounts_table 3
              None _ _ regional_has_no_where (account_represented (JStr "west") (JStr "u1")) regional_values_fit)
    as (clause & Hc & Hag).
  injection Hc as <-. destruct Hag as [_ Hag]. rewrite <- (Hag (λ n, [JStr "north"; JStr "west"; JStr "u7"] !! (n - 3)%nat)).
  - reflexivity.
  - intros i v Hi. cbv beta. replace (3 + i - 3)%nat with i by lia. exact Hi.
Defined.

Definition own_clause : OwnershipClause := ClauseSql (mkFragment (SqlParen (SqlEq "owner_id" 1)) [JStr "u7"]).
Definition region_clause : OwnershipClause := ClauseSql (mkFragment (SqlParen (SqlEq "region" 1)) [JStr "west"]).

Lemma combined_clause_is_conjunction_witness :
  closed_clause own_clause ∧ closed_clause region_clause ∧
  clause_admits text_columns (combineClauses own_clause region_clause)
    [("region", JStr "west"); ("owner_id", JStr "u7")] = true.
Proof.
  assert (H1 : closed_clause own_clause) by (repeat constructor).
  assert (H2 : closed_clause region_clause) by (repeat constructor).
  split; [exact H1|]. split; [exact H2|].
  rewrite (combined_clause_is_conjunction text_columns own_clause region_clause _ H1 H2). reflexivity.
Defined.

(** Two roles that each accept one of the two rows do not add up. *)
Lemma write_check_is_straddle_safe_witness :
  let mine := [("region", JStr "south"); ("ownerId", JStr "u7")] in
  let foreign := [("region", JStr "west"); ("ownerId", JStr "u1")] in
  userCanReadFieldRow seller (Some regional) mine = true ∧
  userCanReadFieldRow seller (Some regional) foreign = true ∧
  userCanWriteFieldRow seller (Some regional) mine foreign = false ∧
  userCanCreateFieldRow seller (Some regional) mine = true.
Proof.
  intros mine foreign. split; [reflexivity|]. split; [reflexivity|]. split; [reflexivity|].
  exact (proj2 (proj2 (proj2 (write_check_is_straddle_safe seller (Some regional) mine mine) eq_refl))).
Defined.
