(* ===== verification/FieldAccess.v ===== *)
(** * Field-level access and session roles

    [engine/field-access.ts]: read filtering, write-only masking and the two
    stages of the write check, on the rules of [Ownership]; [engine/access.ts],
    [types/src/access-predicates.ts] and [engine/membership-roles.ts]: the
    handler gate and the roles a session is minted with.  Rows are plain
    objects; role and field names that exist on every JavaScript object's
    prototype are not modelled. *)

From Stdlib Require Import Ascii.
From S2P Require Import Prelude Ownership.

(** ** Entities *)

Record SubFieldDef := mkSubField { sub_read : option AccessEntry; sub_write : option AccessEntry }.

Inductive FieldKind :=
| FieldText (writeOnly : bool)
| FieldEmbedded (schema : list (string * SubFieldDef))
| FieldOther (type : string).

Record FieldDef := mkField {
  fd_kind : FieldKind;
  fd_read : option AccessEntry;
  fd_write : option AccessEntry }.

Definition Entity : Type := list (string * FieldDef).

Definition is_writeOnly (f : FieldDef) : bool :=
  match fd_kind f with FieldText true => true | _ => false end.

Definition writeOnlyFieldNames (entity : Entity) : list string :=
  (filter (λ kf, is_writeOnly kf.2 = true) entity).*1.

(** ** Write-only fields *)

Definition maskWriteOnlyValue (value : option Json) : Json :=
  match value with
  | None | Some JNull => JNull
  | Some (JStr s) => if decide (s = "") then JNull else JBool true
  | Some _ => JBool true
  end.

Definition maskWriteOnlyFields (entity : Entity) (row : Row) : Row :=
  foldl (λ masked name, match assoc_get name masked with
                        | Some v => assoc_set name (maskWriteOnlyValue (Some v)) masked
                        | None => masked
                        end) row (writeOnlyFieldNames entity).

Definition is_empty_string (v : option Json) : bool :=
  match v with Some (JStr s) => bool_decide (s = "") | _ => false end.

Definition dropEmptyWriteOnlyValues (entity : Entity) (values : Row) : Row :=
  foldl (λ kept name, assoc_delete name kept) values
    (filter (λ name, is_empty_string (assoc_get name values) = true) (writeOnlyFieldNames entity)).

(** ** Read filtering *)

Definition has_role_in (user : SessionUser) (accessMap : OwnershipMap) : bool :=
  existsb (λ role, match assoc_get role accessMap with Some _ => true | None => false end) (us_roles user).

Definition userMayReadFieldInBulk (entity : Entity) (fieldName : string) (user : SessionUser) : bool :=
  match assoc_get fieldName entity with
  | None => false
  | Some field =>
      if is_writeOnly field then false
      else match normalizeAccessEntry (fd_read field) with
           | None => true
           | Some m => has_role_in user m
           end
  end.

(** [Object.entries] of an object or an array. *)
Definition entries_of (v : Json) : list (string * Json) :=
  match v with
  | JObj kvs => kvs
  | JArr l => imap (λ i x, (pretty i, x)) l
  | _ => []
  end.

Definition filter_sub_row (schema : list (string * SubFieldDef)) (user : SessionUser) (row : Json) : Json :=
  JObj (filter (λ kv, userCanReadFieldRow user
                        (normalizeAccessEntry (assoc_get kv.1 schema ≫= sub_read)) (entries_of row) = true)
          (entries_of row)).

Definition is_object (v : Json) : bool := match v with JObj _ | JArr _ => true | _ => false end.

Definition filter_embedded (schema : list (string * SubFieldDef)) (user : SessionUser) (value : Json) : Json :=
  match value with
  | JArr rows => JArr ((λ row, if is_object row then filter_sub_row schema user row else row) <$> rows)
  | JObj _ => filter_sub_row schema user value
  | _ => value
  end.

(** What the filter emits for one entry of the row. *)
Definition shown (entity : Entity) (data : Row) (user : SessionUser) (entry : string * Json)
    : option (string * Json) :=
  let '(key, value) := entry in
  match assoc_get key entity with
  | None => Some (key, value)
  | Some field =>
      if negb (userCanReadFieldRow user (normalizeAccessEntry (fd_read field)) data) then None
      else if is_writeOnly field then Some (key, maskWriteOnlyValue (Some value))
      else match fd_kind field with
           | FieldEmbedded schema => Some (key, filter_embedded schema user value)
           | _ => Some (key, value)
           end
  end.

Definition filterReadFields (entity : Entity) (data : Row) (user : SessionUser) : Row :=
  omap (shown entity data user) data.

(** ** Write checks *)

Definition userHasWriteRole (user : SessionUser) (accessMap : OwnershipMap) : bool :=
  has_role_in user accessMap.

(** The first key whose check denies. *)
Fixpoint first_denied {A} (denies : string → option A) (keys : list string) : option A :=
  match keys with
  | [] => None
  | key :: rest => match denies key with Some d => Some d | None => first_denied denies rest end
  end.

Definition checkWriteFieldRoles (entity : Entity) (changes : Row) (user : SessionUser) : option string :=
  first_denied (λ key,
    match assoc_get key entity with
    | None => None
    | Some field =>
        match normalizeAccessEntry (fd_write field) with
        | None => None
        | Some accessMap => if has_role_in user accessMap then None else Some key
        end
    end) changes.*1.

Definition is_all (rule : OwnershipRule) : bool := match rule with RuleAll => true | _ => false end.

(** Equality of [stableJson] texts: equal up to the order of object keys. *)
Fixpoint same_json (a b : Json) : bool :=
  match a, b with
  | JNull, JNull => true
  | JBool x, JBool y => Bool.eqb x y
  | JNum x, JNum y => Z.eqb x y
  | JStr x, JStr y => bool_decide (x = y)
  | JArr xs, JArr ys =>
      (fix go xs ys := match xs, ys with
                       | [], [] => true
                       | x :: xs', y :: ys' => same_json x y && go xs' ys'
                       | _, _ => false
                       end) xs ys
  | JObj xs, JObj ys =>
      (length xs =? length ys)%nat
      && forallb (λ kv, match kv with
                        | (k, v) => match assoc_get k ys with Some w => same_json v w | None => false end
                        end) xs
  | _, _ => false
  end.

Definition isUnchangedValue (a b : option Json) : bool :=
  match a, b with
  | None, None => true
  | Some x, Some y => same_json x y
  | _, _ => false
  end.

Definition embeddedRows (value : option Json) : list (option Row) :=
  match value with
  | Some (JArr rows) => (λ row, match row with JObj kvs => Some kvs | _ => None end) <$> rows
  | Some (JObj kvs) => [Some kvs]
  | _ => []
  end.

Definition row_get (row : option Row) (key : string) : option Json := row ≫= assoc_get key.

(** The inner loop over the row pairs for one sub-field. *)
Definition sub_field_denied (user : SessionUser) (accessMap : OwnershipMap) (subKey : string)
    (newRows oldRows : list (option Row)) : bool :=
  existsb (λ i,
    let newRow := mjoin (newRows !! i) in
    let oldRow := mjoin (oldRows !! i) in
    if isUnchangedValue (row_get newRow subKey) (row_get oldRow subKey) then false
    else
      let rowAfter := default (default [] oldRow) newRow in
      negb (userCanWriteFieldRow user (Some accessMap) (default rowAfter oldRow) rowAfter))
    (seq 0 (Nat.max (length newRows) (length oldRows))).

Definition deniedEmbeddedSubField (schema : list (string * SubFieldDef)) (newValue oldValue : option Json)
    (user : SessionUser) : option string :=
  first_denied (λ subKey,
    match normalizeAccessEntry (assoc_get subKey schema ≫= sub_write) with
    | None => None
    | Some accessMap =>
        if sub_field_denied user accessMap subKey (embeddedRows newValue) (embeddedRows oldValue)
        then Some subKey else None
    end) schema.*1.

(** [{ ...(oldRow ?? {}), ...rowContext }] *)
Definition row_after (oldRow : option Row) (rowContext : Row) : Row :=
  assoc_spread (default [] oldRow) rowContext.

Definition checkWriteFieldOwnership (entity : Entity) (submittedChanges : Row) (user : SessionUser)
    (oldRow : option Row) (rowContext : Row) (checkEmbeddedSubFields : bool) : option string :=
  first_denied (λ key,
    match assoc_get key entity with
    | None => None
    | Some field =>
        let embedded_denial :=
          match fd_kind field with
          | FieldEmbedded schema =>
              if checkEmbeddedSubFields
              then deniedEmbeddedSubField schema (assoc_get key submittedChanges) (row_get oldRow key) user
              else None
          | _ => None
          end in
        match embedded_denial with
        | Some sub => Some (key +:+ "." +:+ sub)
        | None =>
            match normalizeAccessEntry (fd_write field) with
            | None => None
            | Some accessMap =>
                if forallb (λ kr, is_all kr.2) accessMap then None
                else
                  let newRow := row_after oldRow rowContext in
                  if userCanWriteFieldRow user (Some accessMap) (default newRow oldRow) newRow
                  then None else Some key
            end
        end
    end) submittedChanges.*1.

(** ** Handler access *)

Definition ANONYMOUS_ROLE : string := "anonymous".
Definition SYSTEM_ROLE : string := "system".

(** [openToAll] as found on the rule: its [reason], [None] when malformed. *)
Inductive AccessRule :=
| OpenToAllRule (reason : option string)
| RoleAccessRule (roles : list string) (anySignedIn : bool).

(** [s.trim().length > 0], for ASCII white space. *)
Fixpoint not_blank (s : string) : bool :=
  match s with EmptyString => false | String c s' => negb (is_space c) || not_blank s' end.

Definition isOpenToAllGranted (rule : AccessRule) : bool :=
  match rule with OpenToAllRule (Some reason) => not_blank reason | _ => false end.

Definition includes (roles : list string) (role : string) : bool := bool_decide (role ∈ roles).

Definition isAnySignedInGranted (rule : AccessRule) : bool :=
  match rule with
  | RoleAccessRule roles anySignedIn => anySignedIn && includes roles ANONYMOUS_ROLE
  | OpenToAllRule _ => false
  end.

Definition hasAccess (userRoles : list string) (access : option AccessRule) : bool :=
  match access with
  | None => false
  | Some (OpenToAllRule reason) =>
      isOpenToAllGranted (OpenToAllRule reason) && negb (includes userRoles ANONYMOUS_ROLE)
  | Some (RoleAccessRule [] _) => false
  | Some (RoleAccessRule roles anySignedIn) =>
      (isAnySignedInGranted (RoleAccessRule roles anySignedIn) && negb (includes userRoles ANONYMOUS_ROLE))
      || existsb (includes userRoles) roles
  end.

Definition isUiAccessGranted (access : option AccessRule) (userRoles : option (list string)) : bool :=
  match access with
  | None => true
  | Some (OpenToAllRule reason) => isOpenToAllGranted (OpenToAllRule reason)
  | Some (RoleAccessRule roles anySignedIn) =>
      match userRoles with
      | None => false
      | Some us =>
          (isAnySignedInGranted (RoleAccessRule roles anySignedIn) && negb (includes us ANONYMOUS_ROLE))
          || existsb (includes us) roles
      end
  end.

(** ** Session roles *)

Definition access_privileged : list string := ["system"; "SystemAdmin"].
Definition access_all : list string := ["all"].
Definition access_anonymous : list string := ["anonymous"].

Definition FORBIDDEN_MEMBERSHIP_ROLES : list string := access_privileged ++ access_all ++ access_anonymous.

Definition isForbiddenMembershipRole (role : string) : bool := includes FORBIDDEN_MEMBERSHIP_ROLES role.

Definition findForbiddenMembershipRole (roles : list string) : option string :=
  head (filter (λ r, isForbiddenMembershipRole r = true) roles).

Definition stripForbiddenMembershipRoles (roles : list string) : list string :=
  filter (λ r, isForbiddenMembershipRole r = false) roles.

Definition NON_MINTABLE_GLOBAL_ROLES : list string := access_all ++ access_anonymous ++ [SYSTEM_ROLE].

Definition stripNonMintableGlobalRoles (roles : list string) : list string :=
  filter (λ r, includes NON_MINTABLE_GLOBAL_ROLES r = false) roles.

Definition RESERVED_TOKEN_ROLES : list string := access_all ++ [SYSTEM_ROLE].

Definition stripReservedTokenRoles (roles : list string) : list string :=
  filter (λ r, includes RESERVED_TOKEN_ROLES r = false) roles.

(** [Array.from(new Set(xs))]: the first occurrence of each element. *)
Definition dedupe (xs : list string) : list string :=
  foldl (λ seen x, if decide (x ∈ seen) then seen else seen ++ [x]) [] xs.

Definition buildSessionRoles (globalRoles membershipRoles : list string) : list string :=
  dedupe (stripNonMintableGlobalRoles globalRoles ++ stripForbiddenMembershipRoles membershipRoles).

(** ** Lemmas *)

Lemma first_denied_None {A} (denies : string → option A) keys :
  first_denied denies keys = None ↔ ∀ key, key ∈ keys → denies key = None.
Proof.
  induction keys as [|k keys IH]; simpl; [set_solver|].
  destruct (denies k) as [d|] eqn:Hd; [|rewrite IH; set_solver].
  split; [done|]. intros H. rewrite (H k) in Hd by set_solver. done.
Qed.

Lemma has_role_in_true user m :
  has_role_in user m = true ↔ ∃ role rule, role ∈ us_roles user ∧ assoc_get role m = Some rule.
Proof.
  unfold has_role_in. rewrite existsb_exists. split.
  - intros (role & Hin%list_elem_of_In & Hr). destruct (assoc_get role m) as [rule|] eqn:Hm; [|done].
    by exists role, rule.
  - intros (role & rule & Hin & Hr). exists role. split; [by apply list_elem_of_In|]. by rewrite Hr.
Qed.

(** For a map of unrestricted rules the role gate decides the write. *)
Lemma all_map_write user m oldRow newRow :
  m ≠ [] → forallb (λ kr, is_all kr.2) m = true →
  userCanWriteFieldRow user (Some m) oldRow newRow = has_role_in user m.
Proof.
  intros Hm Hall. unfold userCanWriteFieldRow, some_role, has_role_in.
  destruct m as [|kr m]; [done|]. cbn [empty_map].
  change (default [] (Some (kr :: m))) with (kr :: m). apply existsb_ext_in. intros role _.
  destruct (assoc_get role (kr :: m)) as [rule|] eqn:Hr; [|done].
  rewrite forallb_forall in Hall. apply assoc_get_elem_of, list_elem_of_In in Hr.
  specialize (Hall _ Hr). by destruct rule.
Qed.

Lemma write_needs_role user m oldRow newRow :
  m ≠ [] → userCanWriteFieldRow user (Some m) oldRow newRow = true → has_role_in user m = true.
Proof.
  intros Hm. unfold userCanWriteFieldRow, some_role, has_role_in. destruct m as [|kr m]; [done|].
  cbn [empty_map]. change (default [] (Some (kr :: m))) with (kr :: m). rewrite !existsb_exists. intros (role & Hin & Ha). exists role. split; [done|].
  by destruct (assoc_get role (kr :: m)).
Qed.

(** *** Reads that do not look at a column *)

Definition reads_other_columns (k : string) (accessMap : option OwnershipMap) : Prop :=
  ∀ role r, assoc_get role (default [] accessMap) = Some (RuleFrom r) → fr_column r ≠ k.

Lemma assoc_get_around k c (v1 v2 : Json) pre post :
  c ≠ k → assoc_get c (pre ++ (k, v1) :: post) = assoc_get c (pre ++ (k, v2) :: post).
Proof.
  intros Hne. induction pre as [|[k' v'] pre IH]; simpl.
  - by rewrite !decide_False by done.
  - by rewrite IH.
Qed.

Lemma read_ignores_column user accessMap k v1 v2 pre post :
  reads_other_columns k accessMap →
  userCanReadFieldRow user accessMap (pre ++ (k, v1) :: post)
  = userCanReadFieldRow user accessMap (pre ++ (k, v2) :: post).
Proof.
  intros Hcol. unfold userCanReadFieldRow, some_role. destruct (empty_map accessMap); [done|].
  apply existsb_ext_in. intros role _. specialize (Hcol role).
  destruct (assoc_get role _) as [[|r|w]|]; [done| |done|done]. simpl. unfold matches_from.
  by rewrite (assoc_get_around k (fr_column r) v1 v2 pre post) by by apply Hcol.
Qed.

Definition filter_ignores_column (entity : Entity) (k : string) : Prop :=
  ∀ key field, assoc_get key entity = Some field →
    reads_other_columns k (normalizeAccessEntry (fd_read field)).

Lemma shown_ignores_column entity user k v1 v2 pre post entry :
  filter_ignores_column entity k →
  shown entity (pre ++ (k, v1) :: post) user entry = shown entity (pre ++ (k, v2) :: post) user entry.
Proof.
  intros Hcol. destruct entry as [key value]. unfold shown.
  destruct (assoc_get key entity) as [field|] eqn:Hf; [|done].
  by rewrite (read_ignores_column user _ k v1 v2 pre post (Hcol key field Hf)).
Qed.

(** *** Roles *)

Lemma elem_of_dedupe x xs : x ∈ dedupe xs ↔ x ∈ xs.
Proof.
  unfold dedupe. assert (Hgen : ∀ seen, x ∈ foldl (λ seen x, if decide (x ∈ seen) then seen else seen ++ [x]) seen xs
                                         ↔ x ∈ seen ∨ x ∈ xs).
  { induction xs as [|y xs IH]; intros seen; simpl; [set_solver|]. rewrite IH. case_decide; set_solver. }
  rewrite Hgen. set_solver.
Qed.

Lemma NoDup_dedupe xs : NoDup (dedupe xs).
Proof.
  unfold dedupe. assert (Hgen : ∀ seen, NoDup seen →
    NoDup (foldl (λ seen x, if decide (x ∈ seen) then seen else seen ++ [x]) seen xs)).
  { induction xs as [|y xs IH]; intros seen Hs; simpl; [done|]. apply IH. case_decide; [done|].
    apply NoDup_app. split_and!; [done|set_solver|apply NoDup_singleton]. }
  apply Hgen. constructor.
Qed.

Lemma includes_true roles role : includes roles role = true ↔ role ∈ roles.
Proof. apply bool_decide_eq_true. Qed.

Lemma elem_of_buildSessionRoles role g m :
  role ∈ buildSessionRoles g m ↔
  (role ∈ g ∧ role ∉ NON_MINTABLE_GLOBAL_ROLES) ∨ (role ∈ m ∧ role ∉ FORBIDDEN_MEMBERSHIP_ROLES).
Proof.
  unfold buildSessionRoles, stripNonMintableGlobalRoles, stripForbiddenMembershipRoles,
    isForbiddenMembershipRole, includes.
  rewrite elem_of_dedupe, elem_of_app, !list_elem_of_filter, !bool_decide_eq_false. tauto.
Qed.

(** ** Properties *)

(** Read filtering does not leak a hidden field.  If two rows differ only
    in one field, no read rule of the entity refers to that column, and the
    user either may not read the field or it is write-only with the same
    set-or-empty state, then the filtered rows are equal: nothing of the value
    reaches the output, neither directly nor through the presence or the
    content of another field. *)
Theorem read_filter_hides_the_field (entity : Entity) (user : SessionUser) (k : string) (field : FieldDef)
    (v1 v2 : Json) (pre post : Row)
    (Hfield : assoc_get k entity = Some field)
    (Hcolumns : filter_ignores_column entity k)
    (Hhidden : userCanReadFieldRow user (normalizeAccessEntry (fd_read field)) (pre ++ (k, v1) :: post) = false
               ∨ (is_writeOnly field = true ∧ maskWriteOnlyValue (Some v1) = maskWriteOnlyValue (Some v2))) :
  filterReadFields entity (pre ++ (k, v1) :: post) user
  = filterReadFields entity (pre ++ (k, v2) :: post) user.
Proof.
  unfold filterReadFields.
  rewrite (list_omap_ext _ (shown entity (pre ++ (k, v2) :: post) user) _ (pre ++ (k, v1) :: post)).
  2:{ apply Forall2_same_length_lookup. split; [done|]. intros i x y Hx Hy. simplify_eq.
      by apply shown_ignores_column. }
  assert (Heq : shown entity (pre ++ (k, v2) :: post) user (k, v1)
                = shown entity (pre ++ (k, v2) :: post) user (k, v2)).
  { unfold shown. rewrite Hfield, <- (read_ignores_column user _ k v1 v2 pre post (Hcolumns k field Hfield)).
    destruct Hhidden as [Hh|[Hwo Hm]]; [by rewrite Hh|by rewrite Hwo, Hm]. }
  rewrite !omap_app. f_equal. cbn [omap list_omap]. by rewrite Heq.
Qed.

(** The two stages of the write check together decide every submitted
    field.  If the dispatcher's role gate and the executor's ownership check
    both let a change through, each submitted field that declares write access
    is writable by one of the user's roles for the row before and after the
    change, also where a hook derived part of the row; and if every such field
    is writable, neither stage refuses (embedded sub-fields apart). *)
Theorem write_stages_decide_each_field (entity : Entity) (changes : Row) (user : SessionUser)
    (oldRow : option Row) (rowContext : Row) (checkEmbedded : bool) :
  let newRow := row_after oldRow rowContext in
  let writable key :=
    match assoc_get key entity ≫= (λ f, normalizeAccessEntry (fd_write f)) with
    | None => True
    | Some m => m ≠ [] ∧ userCanWriteFieldRow user (Some m) (default newRow oldRow) newRow = true
    end in
  (checkWriteFieldRoles entity changes user = None →
   checkWriteFieldOwnership entity changes user oldRow rowContext checkEmbedded = None →
   ∀ key, key ∈ changes.*1 → writable key) ∧
  ((∀ key, key ∈ changes.*1 → writable key) →
   checkWriteFieldRoles entity changes user = None ∧
   checkWriteFieldOwnership entity changes user oldRow rowContext false = None).
Proof.
  intros newRow writable. unfold checkWriteFieldRoles, checkWriteFieldOwnership.
  rewrite !first_denied_None. split.
  - intros Hroles Hown key Hkey. specialize (Hroles key Hkey). specialize (Hown key Hkey). unfold writable.
    destruct (assoc_get key entity) as [f|]; [|done]. simpl in *.
    destruct (normalizeAccessEntry (fd_write f)) as [m|]; [|done].
    destruct (has_role_in user m) eqn:Hr; [|done].
    assert (Hm : m ≠ []) by (intros ->; apply has_role_in_true in Hr as (? & ? & _ & [=])).
    split; [done|]. destruct (match fd_kind f with FieldEmbedded _ => _ | _ => _ end); [done|].
    destruct (forallb _ m) eqn:Hall; [by rewrite all_map_write|].
    fold newRow in Hown. cbv zeta in Hown.
    change ((if userCanWriteFieldRow user (Some m) (default newRow oldRow) newRow then None else Some key) = None) in Hown.
    by destruct (userCanWriteFieldRow _ _ _ _).
  - intros Hw. split; intros key Hkey; specialize (Hw key Hkey); unfold writable in Hw;
      (destruct (assoc_get key entity) as [f|]; [|done]); simpl in Hw.
    + destruct (normalizeAccessEntry (fd_write f)) as [m|]; [|done]. destruct Hw as [Hm Hw].
      by rewrite (write_needs_role _ _ _ _ Hm Hw).
    + assert ((match fd_kind f with FieldEmbedded _ => None | _ => None end) = @None string) as -> by by destruct (fd_kind f).
      destruct (normalizeAccessEntry (fd_write f)) as [m|]; [|done]. destruct Hw as [Hm Hw].
      cbv zeta. fold newRow.
      change (userCanWriteFieldRow user (Some m) (default newRow oldRow) newRow = true) in Hw.
      rewrite Hw. by case_match.
Qed.

(** A tenant membership never unlocks a reserved surface.  Whatever roles a
    membership names, the minted session holds no system, "all" or anonymous
    role, and [SystemAdmin] only from the global roles; so a handler that lists
    reserved roles only is open to the session exactly if it is open on the
    global roles alone, and minting is without duplicates. *)
Theorem membership_never_unlocks_reserved (globalRoles membershipRoles allowed : list string)
    (Hreserved : ∀ r, r ∈ allowed → r ∈ FORBIDDEN_MEMBERSHIP_ROLES) :
  let session := buildSessionRoles globalRoles membershipRoles in
  "system" ∉ session ∧ "all" ∉ session ∧ "anonymous" ∉ session ∧
  ("SystemAdmin" ∈ session → "SystemAdmin" ∈ globalRoles) ∧ NoDup session ∧
  hasAccess session (Some (RoleAccessRule allowed false))
    = hasAccess (buildSessionRoles globalRoles []) (Some (RoleAccessRule allowed false)).
Proof.
  intros session. unfold session.
  assert (Hno : ∀ r, r ∈ NON_MINTABLE_GLOBAL_ROLES → r ∈ FORBIDDEN_MEMBERSHIP_ROLES →
            r ∉ buildSessionRoles globalRoles membershipRoles)
    by (intros r H1 H2; rewrite elem_of_buildSessionRoles; tauto).
  split_and!.
  - apply Hno; [right; right; left|left].
  - apply Hno; [left|right; right; left].
  - apply Hno; [right; left|right; right; right; left].
  - rewrite elem_of_buildSessionRoles. intros [[H _]|[_ H]]; [done|]. exfalso. apply H. right; left.
  - apply NoDup_dedupe.
  - unfold hasAccess. destruct allowed as [|a0 allowed]; [done|]. simpl isAnySignedInGranted. cbn [andb orb].
    apply existsb_ext_in. intros r Hr. specialize (Hreserved r Hr).
    apply eq_bool_prop_intro. unfold Is_true. unfold includes. 
    destruct (bool_decide_reflect (r ∈ buildSessionRoles globalRoles membershipRoles)) as [H1|H1],
      (bool_decide_reflect (r ∈ buildSessionRoles globalRoles [])) as [H2|H2]; try done;
      rewrite elem_of_buildSessionRoles in H1, H2; set_solver.
Qed.

(** ** Witnesses *)

Definition employee : Entity :=
  [("name", mkField (FieldOther "text") None None);
   ("salary", mkField (FieldOther "number") (Some (EntryRoles ["hr"])) (Some (EntryRoles ["hr"])));
   ("note", mkField (FieldOther "text") (Some (EntryMap [("owner", RuleFrom (mkFrom KindUser "id" "ownerId"))]))
              (Some (EntryMap [("owner", RuleFrom (mkFrom KindUser "id" "ownerId"))])))].

Lemma employee_ignores_salary : filter_ignores_column employee "salary".
Proof.
  intros key field Hf role r Hr. simpl in Hf. repeat case_decide; simplify_eq/=; repeat case_decide; by simplify_eq/=.
Qed.

Lemma read_filter_hides_the_field_witness :
  userCanReadFieldRow seller (normalizeAccessEntry (Some (EntryRoles ["hr"])))
    ([("name", JStr "Ada")] ++ ("salary", JNum 9000) :: [("ownerId", JStr "u7")]) = false ∧
  filterReadFields employee [("name", JStr "Ada"); ("salary", JNum 9000); ("ownerId", JStr "u7")] seller
  = filterReadFields employee [("name", JStr "Ada"); ("salary", JNum 1); ("ownerId", JStr "u7")] seller.
Proof.
  split; [reflexivity|].
  exact (read_filter_hides_the_field employee seller "salary" _ (JNum 9000) (JNum 1) [("name", JStr "Ada")]
           [("ownerId", JStr "u7")] eq_refl employee_ignores_salary (or_introl eq_refl)).
Defined.

Lemma write_stages_decide_each_field_witness :
  let old := [("ownerId", JStr "u7"); ("note", JStr "a")] in
  let change := [("note", JStr "b")] in
  checkWriteFieldRoles employee change seller = None ∧
  checkWriteFieldOwnership employee change seller (Some old) change true = None ∧
  checkWriteFieldOwnership employee change seller (Some [("ownerId", JStr "u1")]) change true = Some "note" ∧
  userCanWriteFieldRow seller (Some [("owner", RuleFrom (mkFrom KindUser "id" "ownerId"))]) old
    (row_after (Some old) change) = true.
Proof.
  intros old change. split; [reflexivity|]. split; [reflexivity|]. split; [reflexivity|].
  exact (proj2 (proj1 (write_stages_decide_each_field employee change seller (Some old) change true)
                  eq_refl eq_refl "note" (list_elem_of_here _ _))).
Defined.

Lemma membership_never_unlocks_reserved_witness :
  (∀ r, r ∈ ["SystemAdmin"] → r ∈ FORBIDDEN_MEMBERSHIP_ROLES) ∧
  hasAccess (buildSessionRoles ["User"] ["SystemAdmin"; "editor"]) (Some (RoleAccessRule ["SystemAdmin"] false))
    = false.
Proof.
  assert (H : ∀ r, r ∈ ["SystemAdmin"] → r ∈ FORBIDDEN_MEMBERSHIP_ROLES).
  { intros r ->%list_elem_of_singleton. right; left. }
  split; [exact H|].
  pose proof (membership_never_unlocks_reserved ["User"] ["SystemAdmin"; "editor"] ["SystemAdmin"] H)
    as (_ & _ & _ & _ & _ & Hacc).
  rewrite Hacc. reflexivity.
Defined.
