(* ===== verification/Redis.v ===== *)
(** * Redis

    The string keys of Redis as the modelled code uses them: a map from keys to
    a value with its expiry instant in milliseconds.  A command or a Lua script
    is one function on the map, since Redis runs them one at a time; an expired
    key reads as absent. *)

From S2P Require Import Prelude.

Open Scope Z_scope.

Notation Redis := (gmap string (string * Z)) (only parsing).

Definition redis_get (now : Z) (r : Redis) (key : string) : option string :=
  match r !! key with
  | Some (v, expiresAt) => if now <? expiresAt then Some v else None
  | None => None
  end.

(** [SET key v EX ttl NX]: the key's new state if the command answers OK. *)
Definition redis_set_nx (now : Z) (r : Redis) (key v : string) (ttlSeconds : Z) : option Redis :=
  match redis_get now r key with
  | Some _ => None
  | None => Some (<[key := (v, now + ttlSeconds * 1000)]> r)
  end.

Lemma redis_get_insert now (r : Redis) key v t :
  redis_get now (<[key := (v, t)]> r) key = if now <? t then Some v else None.
Proof. unfold redis_get. by rewrite lookup_insert_eq. Qed.

Lemma redis_get_Some now (r : Redis) key v : redis_get now r key = Some v ↔ ∃ t, r !! key = Some (v, t) ∧ now < t.
Proof.
  unfold redis_get. split.
  - destruct (r !! key) as [[w t]|] eqn:Hr; [|done]. destruct (now <? t) eqn:Ht; [|done]. reflect_bools.
    intros [= ->]. by exists t.
  - intros (t & -> & Ht). by rewrite (proj2 (Z.ltb_lt _ _) Ht).
Qed.
