(* ===== verification/Idempotency.v ===== *)
(** * Request idempotency

    [pipeline/idempotency.ts] and [pipeline/event-dedup.ts].  Every Redis
    command is one atomic step, and a request that calls [check] is a process
    whose program counter stands between two commands, so any interleaving of
    any number of requests on a key is a run of [sys_step].  The ids of
    [generateId] are distinct. *)

From S2P Require Import Prelude QualifiedName Redis.

Open Scope Z_scope.

(** ** Options and keys *)

Definition PENDING_PREFIX : string := "__pending__:".
Definition idempotency_prefix : string := "kumiko:idempotency:".

Record IdempotencyOptions := mkIdempotency {
  ttlSeconds : option Z;
  pendingTtlSeconds : option Z;
  opt_waitTimeoutMs : option Z }.

Definition ttl (o : IdempotencyOptions) : Z := default 300 (ttlSeconds o).
Definition pendingTtl (o : IdempotencyOptions) : Z := default 30 (pendingTtlSeconds o).
Definition waitTimeoutMs (o : IdempotencyOptions) : Z :=
  Z.max (default 35000 (opt_waitTimeoutMs o)) (pendingTtl o * 1000 + 5000).

Definition request_key (tenantId userId requestId : string) : string :=
  idempotency_prefix +:+ colon_join tenantId (colon_join userId requestId).

Definition is_pending (v : string) : bool := starts_with PENDING_PREFIX v.

(** ** Commands of the guard *)

(** [tryAcquire] with the id it generated. *)
Definition tryAcquire (o : IdempotencyOptions) (now : Z) (r : Redis) (key id : string)
    : option string * Redis :=
  let token := PENDING_PREFIX +:+ id in
  match redis_set_nx now r key token (pendingTtl o) with
  | Some r' => (Some token, r')
  | None => (None, r)
  end.

Definition storeScript (o : IdempotencyOptions) (now : Z) (r : Redis) (key token result : string)
    : Z * Redis :=
  if decide (redis_get now r key = Some token)
  then (1, <[key := (result, now + ttl o * 1000)]> r) else (0, r).

Definition releaseScript (now : Z) (r : Redis) (key token : string) : Z * Redis :=
  if decide (redis_get now r key = Some token) then (1, delete key r) else (0, r).

(** ** A request as a process *)

(** Where a request stands: before its first claim; in the polling loop until
    [deadline]; having read an absent key; past the deadline; before the last
    claim; running the handler under [token] since [since]; done with a cached
    result; failed with the contention error; finished, having written its
    result or not; released. *)
Inductive Request :=
| AtCheck
| Polling (deadline : Z)
| Reclaiming (deadline : Z)
| PastDeadline
| LastResort
| Owner (token : string) (since : Z)
| Cached (result : string)
| Contended
| Finished (token result : string) (written : bool)
| Released.

#[export] Instance Request_eq_dec : EqDecision Request.
Proof. solve_decision. Defined.

(** One command of a request: the id is the one [generateId] returns if the
    step claims, [result] the serialized result if the handler ends by storing,
    [None] if it ends by releasing. *)
Definition request_step (o : IdempotencyOptions) (now : Z) (key id : string) (result : option string)
    (r : Redis) (q : Request) : Request * Redis :=
  match q with
  | AtCheck =>
      match tryAcquire o now r key id with
      | (Some token, r') => (Owner token now, r')
      | (None, r') => (Polling (now + waitTimeoutMs o), r')
      end
  | Polling deadline =>
      if now <? deadline then
        match redis_get now r key with
        | None => (Reclaiming deadline, r)
        | Some v => if is_pending v then (Polling deadline, r) else (Cached v, r)
        end
      else (PastDeadline, r)
  | Reclaiming deadline =>
      match tryAcquire o now r key id with
      | (Some token, r') => (Owner token now, r')
      | (None, r') => (Polling deadline, r')
      end
  | PastDeadline =>
      match redis_get now r key with
      | Some v => if is_pending v then (LastResort, r) else (Cached v, r)
      | None => (LastResort, r)
      end
  | LastResort =>
      match tryAcquire o now r key id with
      | (Some token, r') => (Owner token now, r')
      | (None, r') => (Contended, r')
      end
  | Owner token _ =>
      match result with
      | Some json => let '(written, r') := storeScript o now r key token json in
                     (Finished token json (bool_decide (written = 1)), r')
      | None => (Released, (releaseScript now r key token).2)
      end
  | _ => (q, r)
  end.

(** ** One request against the clock *)

(** What a request meets at one of its Redis commands: the clock, the id
    [generateId] returns, and what the other clients did since the command
    before. *)
Record Moment := mkMoment { mo_now : Z; mo_id : string; mo_others : Redis → Redis }.

(** [check] along the moments of its commands.  It has ended as owner of the
    key, with a cached result or with the contention error; otherwise the
    moments ran out. *)
Fixpoint check (o : IdempotencyOptions) (key : string) (moments : list Moment) (r : Redis) (q : Request) : Request * Redis :=
  match q, moments with
  | (AtCheck | Polling _ | Reclaiming _ | PastDeadline | LastResort), m :: moments =>
      let '(q', r') := request_step o (mo_now m) key (mo_id m) None (mo_others m r) q in check o key moments r' q'
  | _, _ => (q, r)
  end.

(** The moments of the commands of [check], and that of the command which
    stores the answer or gives the key back. *)
Record RequestTime := mkRequestTime { rt_check : list Moment; rt_answer : Moment }.

(** ** Event dedup *)

Definition eventDedup_prefix : string := "kumiko:event-dedup:".

Definition dedup_tryAcquire (ttlOption : option Z) (now : Z) (r : Redis) (eventId : string) : bool * Redis :=
  match redis_set_nx now r (eventDedup_prefix +:+ eventId) "1" (default 300 ttlOption) with
  | Some r' => (true, r')
  | None => (false, r)
  end.

(** ** The system of requests on one key *)

Section system.
Context (o : IdempotencyOptions) (key : string).
#[local] Set Default Proof Using "Type*".

Record Sys := mkSys {
  sys_now : Z;
  sys_redis : Redis;
  sys_reqs : gmap nat Request;
  sys_used : gset string }.

(** A serialized result is JSON text, which never starts like a pending
    marker; ids are not generated twice. *)
Inductive sys_step : Sys → Sys → Prop :=
| step_clock s now' :
    sys_now s ≤ now' → sys_step s (mkSys now' (sys_redis s) (sys_reqs s) (sys_used s))
| step_arrive s n :
    sys_reqs s !! n = None →
    sys_step s (mkSys (sys_now s) (sys_redis s) (<[n := AtCheck]> (sys_reqs s)) (sys_used s))
| step_command s n q id result q' r' :
    sys_reqs s !! n = Some q →
    PENDING_PREFIX +:+ id ∉ sys_used s →
    (∀ json, result = Some json → is_pending json = false) →
    request_step o (sys_now s) key id result (sys_redis s) q = (q', r') →
    sys_step s (mkSys (sys_now s) r' (<[n := q']> (sys_reqs s)) ({[PENDING_PREFIX +:+ id]} ∪ sys_used s)).

Definition sys_start (now : Z) : Sys := mkSys now ∅ ∅ ∅.

Definition reachable (s : Sys) : Prop := ∃ now, rtc sys_step (sys_start now) s.

(** ** Invariant *)

Definition lock_ms : Z := pendingTtl o * 1000.

Definition cell (s : Sys) : option (string * Z) := sys_redis s !! key.

Definition owns (s : Sys) (n : nat) (token : string) (since : Z) : Prop :=
  sys_reqs s !! n = Some (Owner token since).

Definition result_stored (s : Sys) (result : string) : Prop :=
  ∃ n token, sys_reqs s !! n = Some (Finished token result true).

Record sys_ok (s : Sys) : Prop := {
  so_token : ∀ n token since, owns s n token since →
    token ∈ sys_used s ∧ is_pending token = true ∧ since ≤ sys_now s;
  so_cell_used : ∀ v e, cell s = Some (v, e) → is_pending v = true → v ∈ sys_used s;
  so_distinct : ∀ n m token t u, owns s n token t → owns s m token u → n = m;
  so_lock : ∀ n token t e, owns s n token t → cell s = Some (token, e) → e = t + lock_ms;
  so_held : ∀ n token t, owns s n token t →
    cell s = Some (token, t + lock_ms) ∨ t + lock_ms ≤ sys_now s;
  so_apart : ∀ n m tn tm t u, n ≠ m → owns s n tn t → owns s m tm u →
    t + lock_ms ≤ u ∨ u + lock_ms ≤ t;
  so_result : ∀ v e, cell s = Some (v, e) → is_pending v = false → result_stored s v;
  so_cached : ∀ n v, sys_reqs s !! n = Some (Cached v) → result_stored s v }.

(** ** Lemmas *)

Lemma is_pending_token id : is_pending (PENDING_PREFIX +:+ id) = true.
Proof. apply starts_with_app. Qed.

Lemma redis_get_None now r k : redis_get now r k = None → ∀ v e, r !! k = Some (v, e) → e ≤ now.
Proof.
  unfold redis_get. intros H v e Hr. rewrite Hr in H. destruct (now <? e) eqn:?; reflect_bools; [done|lia].
Qed.

(** The three effects of a command on the key and on the request. *)
Inductive effect (now : Z) (r : Redis) (id : string) (result : option string)
    : Request → Request → Redis → Prop :=
| eff_claim q :
    redis_get now r key = None → (∀ token json, q ≠ Finished token json true) →
    effect now r id result q (Owner (PENDING_PREFIX +:+ id) now)
      (<[key := (PENDING_PREFIX +:+ id, now + lock_ms)]> r)
| eff_read q v :
    redis_get now r key = Some v → is_pending v = false → (∀ token json, q ≠ Finished token json true) →
    effect now r id result q (Cached v) r
| eff_store token since json :
    result = Some json → redis_get now r key = Some token →
    effect now r id result (Owner token since) (Finished token json true)
      (<[key := (json, now + ttl o * 1000)]> r)
| eff_release token since :
    redis_get now r key = Some token →
    effect now r id result (Owner token since) Released (delete key r)
| eff_quiet q q' :
    (∀ token since, q' = Owner token since → q = q') → (∀ v, q' = Cached v → q = q') →
    (∀ token json, q' ≠ Finished token json true) → (∀ token json, q ≠ Finished token json true) →
    effect now r id result q q' r
| eff_done q : effect now r id result q q r.

Lemma request_effect now r id result q q' r' :
  request_step o now key id result r q = (q', r') → effect now r id result q q' r'.
Proof.
  assert (Hclaim : ∀ q qfail, (∀ t u, qfail ≠ Owner t u) → (∀ v, qfail ≠ Cached v) →
            (∀ t j w, qfail ≠ Finished t j w) → (∀ t j, q ≠ Finished t j true) →
            match tryAcquire o now r key id with
            | (Some token, r') => (Owner token now, r')
            | (None, r') => (qfail, r')
            end = (q', r') → effect now r id result q q' r').
  { intros q0 qfail H1 H2 H3 H4. unfold tryAcquire, redis_set_nx.
    destruct (redis_get now r key) eqn:Hg; intros [= <- <-].
    - apply eff_quiet; [intros t u He; by destruct (H1 t u)|intros v He; by destruct (H2 v)| |done].
      intros t j. apply H3.
    - by apply eff_claim. }
  destruct q as [|d|d| | |token since|v| |token json w|]; simpl.
  - by apply Hclaim.
  - destruct (now <? d); [|intros [= <- <-]; by apply eff_quiet].
    destruct (redis_get now r key) as [v|] eqn:Hg; [|intros [= <- <-]; by apply eff_quiet].
    destruct (is_pending v) eqn:Hp; intros [= <- <-]; [by apply eff_done|by apply eff_read].
  - by apply Hclaim.
  - destruct (redis_get now r key) as [v|] eqn:Hg; [|intros [= <- <-]; by apply eff_quiet].
    destruct (is_pending v) eqn:Hp; intros [= <- <-]; [by apply eff_quiet|by apply eff_read].
  - by apply Hclaim.
  - destruct result as [json|]; unfold storeScript, releaseScript.
    + case_decide as Hd; intros [= <- <-]; [by eapply eff_store|by apply eff_quiet].
    + case_decide as Hd; intros [= <- <-]; [by eapply eff_release|by apply eff_quiet].
  - intros [= <- <-]. apply eff_done.
  - intros [= <- <-]. apply eff_done.
  - intros [= <- <-]. apply eff_done.
  - intros [= <- <-]. apply eff_done.
Qed.

(** Every owner but the one that stepped is the owner it was. *)
Lemma owns_after now r reqs used n q' m token t :
  owns (mkSys now r (<[n := q']> reqs) used) m token t ↔
  (m = n ∧ q' = Owner token t) ∨ (m ≠ n ∧ reqs !! m = Some (Owner token t)).
Proof.
  unfold owns; simpl. destruct (decide (m = n)) as [->|Hne].
  - rewrite lookup_insert_eq. naive_solver.
  - rewrite lookup_insert_ne by done. naive_solver.
Qed.

Lemma result_stored_after s n q q' r used v :
  sys_reqs s !! n = Some q → (∀ token json, q ≠ Finished token json true) ∨ q' = q →
  result_stored s v → result_stored (mkSys (sys_now s) r (<[n := q']> (sys_reqs s)) used) v.
Proof.
  intros Hq Hkeep (m & token & Hm). exists m, token. simpl. destruct (decide (m = n)) as [->|Hne].
  - rewrite lookup_insert_eq. destruct Hkeep as [Hk| ->]; [exfalso; apply (Hk token v); congruence|congruence].
  - by rewrite lookup_insert_ne by done.
Qed.

(** The lock of an owner is lost to others only after its time. *)
Lemma owner_expired s n token t :
  sys_ok s → owns s n token t → redis_get (sys_now s) (sys_redis s) key ≠ Some token →
  t + lock_ms ≤ sys_now s.
Proof.
  intros Hok Hn Hg. destruct (so_held s Hok n token t Hn) as [Hc|]; [|done].
  apply Z.nlt_ge. intros Hlt. apply Hg, redis_get_Some. eexists. split; [exact Hc|lia].
Qed.

Ltac other_owner := let Hne := fresh in let Ho := fresh in
  intros [[-> Ho]|[Hne Ho]]; simplify_eq.

Lemma claim_keeps_ok s n q id :
  sys_ok s → sys_reqs s !! n = Some q → (∀ token json, q ≠ Finished token json true) →
  PENDING_PREFIX +:+ id ∉ sys_used s → redis_get (sys_now s) (sys_redis s) key = None →
  sys_ok (mkSys (sys_now s) (<[key := (PENDING_PREFIX +:+ id, sys_now s + lock_ms)]> (sys_redis s))
            (<[n := Owner (PENDING_PREFIX +:+ id) (sys_now s)]> (sys_reqs s))
            ({[PENDING_PREFIX +:+ id]} ∪ sys_used s)).
Proof.
  intros Hok Hq Hnf Hid Hg. set (tok := PENDING_PREFIX +:+ id) in *.
  assert (Hexp : ∀ m token t, owns s m token t → t + lock_ms ≤ sys_now s).
  { intros m token t Hm. apply (owner_expired s m token t Hok Hm). by rewrite Hg. }
  assert (Hold : ∀ m token t, owns s m token t → token ≠ tok).
  { intros m token t Hm ->. by apply Hid, (so_token s Hok m tok t). }
  split; unfold cell; simpl.
  - intros m token t [[-> [= <- <-]]|[Hne Hm]]%owns_after.
    + split_and!; [set_solver|apply is_pending_token|lia].
    + destruct (so_token s Hok m token t Hm) as (? & ? & ?). split_and!; [set_solver|done|lia].
  - intros v e. rewrite lookup_insert_eq. intros [= <- <-] _. set_solver.
  - intros a b token t u [[-> [= <- <-]]|[Ha Hoa]]%owns_after [[-> Hb]|[Hb Hob]]%owns_after.
    + done.
    + by destruct (Hold b tok u).
    + injection Hb as <- <-. by destruct (Hold a tok t).
    + by apply (so_distinct s Hok a b token t u).
  - intros m token t e [[-> [= <- <-]]|[Hne Hm]]%owns_after; rewrite lookup_insert_eq; intros Heq.
    + by injection Heq.
    + injection Heq as Ht _. by destruct (Hold m token t Hm).
  - intros m token t [[-> [= <- <-]]|[Hne Hm]]%owns_after.
    + left. by rewrite lookup_insert_eq.
    + right. by apply (Hexp m token t).
  - intros a b ta tb t u Hab [[-> [= <- <-]]|[Ha Hoa]]%owns_after [[-> Hb]|[Hb Hob]]%owns_after.
    + done.
    + right. by apply (Hexp b tb u).
    + injection Hb as <- <-. left. by apply (Hexp a ta t).
    + by apply (so_apart s Hok a b ta tb t u).
  - intros v e. rewrite lookup_insert_eq. intros [= <- <-] Hp. unfold tok in Hp. by rewrite is_pending_token in Hp.
  - intros m v. destruct (decide (m = n)) as [->|Hne]; [by rewrite lookup_insert_eq|].
    rewrite lookup_insert_ne by done. intros Hc%(so_cached s Hok).
    eapply result_stored_after; [exact Hq|by left|exact Hc].
Qed.

(** A step that changes the request only, not into an owner. *)
Lemma read_keeps_ok s n q q' used :
  sys_ok s → sys_reqs s !! n = Some q → sys_used s ⊆ used →
  (∀ token t, q' ≠ Owner token t) → (∀ v, q' = Cached v → result_stored s v) →
  (∀ token json, q ≠ Finished token json true) ∨ q' = q →
  sys_ok (mkSys (sys_now s) (sys_redis s) (<[n := q']> (sys_reqs s)) used).
Proof.
  intros Hok Hq Hused Hno Hcached Hkeep.
  assert (Hown : ∀ m token t, owns (mkSys (sys_now s) (sys_redis s) (<[n := q']> (sys_reqs s)) used) m token t
                              → owns s m token t).
  { intros m token t [[_ He]|[_ Hm]]%owns_after; [by destruct (Hno token t)|done]. }
  split; unfold cell; simpl.
  - intros m token t (? & ? & ?)%Hown%(so_token s Hok). split_and!; [set_solver|done|done].
  - intros v e Hc Hp. apply Hused. by eapply (so_cell_used s Hok).
  - intros a b token t u Ha%Hown Hb%Hown. by apply (so_distinct s Hok a b token t u).
  - intros m token t e Hm%Hown. by apply (so_lock s Hok m).
  - intros m token t Hm%Hown. by apply (so_held s Hok m).
  - intros a b ta tb t u Hab Ha%Hown Hb%Hown. by apply (so_apart s Hok a b ta tb t u).
  - intros v e Hc Hp. eapply result_stored_after; [exact Hq|done|]. by eapply (so_result s Hok).
  - intros m v. destruct (decide (m = n)) as [->|Hne].
    + rewrite lookup_insert_eq. intros [= Hc]. eapply result_stored_after; [exact Hq|done|by apply Hcached].
    + rewrite lookup_insert_ne by done. intros Hc. eapply result_stored_after; [exact Hq|done|].
      by apply (so_cached s Hok m).
Qed.

(** The owner of the live lock replaces or deletes it and is done. *)
Lemma finish_keeps_ok s n token since q' r' used :
  sys_ok s → owns s n token since → redis_get (sys_now s) (sys_redis s) key = Some token →
  sys_used s ⊆ used → (∀ t u, q' ≠ Owner t u) → (∀ v, q' ≠ Cached v) →
  (∀ v e, r' !! key = Some (v, e) → is_pending v = false ∧ ∃ t, q' = Finished t v true) →
  sys_ok (mkSys (sys_now s) r' (<[n := q']> (sys_reqs s)) used).
Proof.
  intros Hok Hn Hg Hused Hno Hnc Hr.
  assert (Hown : ∀ m tk t, owns (mkSys (sys_now s) r' (<[n := q']> (sys_reqs s)) used) m tk t
                           → m ≠ n ∧ owns s m tk t).
  { intros m tk t [[_ He]|[Hne Hm]]%owns_after; [by destruct (Hno tk t)|done]. }
  split; unfold cell; simpl.
  - intros m tk t [_ (? & ? & ?)%(so_token s Hok)]%Hown. split_and!; [set_solver|done|done].
  - intros v e [Hp _]%Hr. by rewrite Hp.
  - intros a b tk t u [_ Ha]%Hown [_ Hb]%Hown. by apply (so_distinct s Hok a b tk t u).
  - intros m tk t e [_ Hm]%Hown [Hp _]%Hr. destruct (so_token s Hok m tk t Hm) as (_ & Ht & _). congruence.
  - intros m tk t [Hne Hm]%Hown. right. apply (owner_expired s m tk t Hok Hm). rewrite Hg. intros [= ->].
    by apply Hne, (so_distinct s Hok m n tk t since).
  - intros a b ta tb t u Hab [_ Ha]%Hown [_ Hb]%Hown. by apply (so_apart s Hok a b ta tb t u).
  - intros v e [_ (t & Hq)]%Hr _. exists n, t. simpl. by rewrite lookup_insert_eq, Hq.
  - intros m v. destruct (decide (m = n)) as [->|Hne].
    + rewrite lookup_insert_eq. intros [= Hc]. by destruct (Hnc v).
    + rewrite lookup_insert_ne by done. intros Hc%(so_cached s Hok).
      eapply result_stored_after; [exact Hn|by left|exact Hc].
Qed.

(** A command without effect. *)
Lemma same_keeps_ok s n q id :
  sys_ok s → sys_reqs s !! n = Some q →
  sys_ok (mkSys (sys_now s) (sys_redis s) (<[n := q]> (sys_reqs s)) ({[PENDING_PREFIX +:+ id]} ∪ sys_used s)).
Proof.
  intros [H1 H2 H3 H4 H5 H6 H7 H8] Hq. rewrite insert_id by done. split; try done.
  - intros m token t (? & ? & ?)%H1. split_and!; [set_solver|done|done].
  - intros v e Hc Hp. specialize (H2 v e Hc Hp). set_solver.
Qed.

Lemma sys_ok_step s s' : sys_ok s → sys_step s s' → sys_ok s'.
Proof.
  intros Hok Hs. destruct Hs as [s now' Hle|s n Hn|s n q id result q' r' Hq Hid Hj Hstep].
  - destruct Hok as [H1 H2 H3 H4 H5 H6 H7 H8]. split; try done.
    + intros n token t (? & ? & ?)%H1. split_and!; [done|done|simpl; lia].
    + intros n token t [?|?]%H5; [by left|right; simpl; lia].
  - assert (Hown : ∀ m token t, owns (mkSys (sys_now s) (sys_redis s) (<[n := AtCheck]> (sys_reqs s)) (sys_used s))
                                  m token t → owns s m token t).
    { intros m token t [[_ [=]]|[_ Hm]]%owns_after. done. }
    assert (Hst : ∀ v, result_stored s v →
              result_stored (mkSys (sys_now s) (sys_redis s) (<[n := AtCheck]> (sys_reqs s)) (sys_used s)) v).
    { intros v (m & token & Hm). exists m, token. simpl. rewrite lookup_insert_ne; [done|congruence]. }
    destruct Hok as [H1 H2 H3 H4 H5 H6 H7 H8]. split; unfold cell; simpl.
    + intros m token t Hm%Hown. by apply (H1 m).
    + exact H2.
    + intros a b token t u Ha%Hown Hb%Hown. by apply (H3 a b token t u).
    + intros m token t e Hm%Hown. by apply (H4 m).
    + intros m token t Hm%Hown. by apply (H5 m).
    + intros a b ta tb t u Hab Ha%Hown Hb%Hown. by apply (H6 a b ta tb t u).
    + intros v e Hc Hp. by eapply Hst, H7.
    + intros m v. destruct (decide (m = n)) as [->|Hne]; [by rewrite lookup_insert_eq|].
      rewrite lookup_insert_ne by done. intros Hc. by eapply Hst, H8.
  - apply request_effect in Hstep. destruct Hstep as [q Hg Hnf|q v Hg Hp Hnf|token since json Hr Hg|token since Hg|q q' Ho Hc Hf Hnf|q].
    + by apply (claim_keeps_ok s n q id).
    + apply (read_keeps_ok s n q); [done|done|set_solver|done| |by left].
      intros w [= <-]. apply redis_get_Some in Hg as (e & Hc & _). by eapply (so_result s Hok).
    + apply (finish_keeps_ok s n token since); [done..|set_solver|done|done|].
      intros v e. rewrite lookup_insert_eq. intros [= <- _]. split; [by apply Hj|by eexists].
    + apply (finish_keeps_ok s n token since); [done..|set_solver|done|done|].
      intros v e. by rewrite lookup_delete_eq.
    + destruct (decide (q = q')) as [->|Hne].
      * exact (same_keeps_ok s n q' _ Hok Hq).
      * apply (read_keeps_ok s n q); [done|done|set_solver| | |by left].
        -- intros t u Hq'. by apply Hne, (Ho t u).
        -- intros v Hq'. by destruct Hne; apply (Hc v).
    + exact (same_keeps_ok s n q _ Hok Hq).
Qed.

Lemma sys_ok_start now : sys_ok (sys_start now).
Proof.
  split; unfold owns, cell, result_stored; simpl; intros *; rewrite ?lookup_empty; try done.
Qed.

Lemma reachable_ok s : reachable s → sys_ok s.
Proof.
  intros (now & Hr). assert (Hgen : ∀ s0, sys_ok s0 → rtc sys_step s0 s → sys_ok s).
  { clear Hr. intros s0 Hs0 Hrun. induction Hrun as [|s1 s2 s3 H12 H23 IH]; [done|]. apply IH. by eapply sys_ok_step. }
  exact (Hgen _ (sys_ok_start now) Hr).
Qed.
End system.

(** ** Properties *)

(** C38: no handler runs twice within the life of a lock.  In every reachable
    interleaving of any number of requests with one key, two requests that are
    running their handler took the lock at least the pending time apart, so the
    second started only after the first one's lock had expired; and every
    result a request was answered from the cache is one that a request stored
    under its own live lock. *)
Theorem idempotency_excludes_double_execution (o : IdempotencyOptions) (key : string) (s : Sys)
    (Hreach : reachable o key s) :
  (∀ n m tn tm t u, n ≠ m → owns s n tn t → owns s m tm u →
     t + pendingTtl o * 1000 ≤ u ∨ u + pendingTtl o * 1000 ≤ t) ∧
  (∀ n result, sys_reqs s !! n = Some (Cached result) →
     ∃ m token, sys_reqs s !! m = Some (Finished token result true)).
Proof.
  apply reachable_ok in Hreach as Hok. split.
  - intros n m tn tm t u Hne Hn Hm. by apply (so_apart o key s Hok n m tn tm).
  - intros n result Hc. by apply (so_cached o key s Hok n).
Qed.

(** A handler that outlived its lock cannot overwrite or release its
    successor's.  If another request has taken the lock since, the late one's
    store is recorded as not written and leaves Redis as it is, and so does its
    release; while a handler whose lock is alive stores its result under the
    key, where the next [check] finds it. *)
Theorem stale_owner_cannot_store (o : IdempotencyOptions) (key : string) (s : Sys) (n : nat)
    (token : string) (since : Z) (id json : string)
    (Hreach : reachable o key s) (Howner : owns s n token since) :
  (∀ m tm u, m ≠ n → owns s m tm u → since ≤ u →
     0 < pendingTtl o →
     request_step o (sys_now s) key id (Some json) (sys_redis s) (Owner token since)
       = (Finished token json false, sys_redis s) ∧
     request_step o (sys_now s) key id None (sys_redis s) (Owner token since) = (Released, sys_redis s)) ∧
  (sys_now s < since + pendingTtl o * 1000 → is_pending json = false → 0 < ttl o →
     let '(q', r') := request_step o (sys_now s) key id (Some json) (sys_redis s) (Owner token since) in
     q' = Finished token json true ∧
     request_step o (sys_now s) key id None r' (Polling (sys_now s + 1)) = (Cached json, r')).
Proof.
  apply reachable_ok in Hreach as Hok. split.
  - intros m tm u Hne Hm Hle Hpos.
    assert (Hg : redis_get (sys_now s) (sys_redis s) key ≠ Some token).
    { intros (e & Hc & Hlt)%redis_get_Some. pose proof (so_lock o key s Hok n token since e Howner Hc) as He.
      destruct (so_token o key s Hok m tm u Hm) as (_ & _ & Hu). unfold lock_ms in He.
      destruct (so_apart o key s Hok n m token tm since u (not_eq_sym Hne) Howner Hm); unfold lock_ms in *; lia. }
    simpl. unfold storeScript, releaseScript. by rewrite !decide_False by done.
  - intros Hlive Hjson Httl. simpl. unfold storeScript.
    rewrite decide_True.
    2:{ apply redis_get_Some. destruct (so_held o key s Hok n token since Howner) as [Hc|Hx];
          unfold lock_ms in *; [|lia]. eexists. split; [exact Hc|lia]. }
    split; [done|]. simpl. destruct (sys_now s <? sys_now s + 1) eqn:?; reflect_bools; [|lia].
    unfold redis_get. rewrite lookup_insert_eq.
    destruct (sys_now s <? sys_now s + ttl o * 1000) eqn:?; reflect_bools; [|lia]. by rewrite Hjson.
Qed.

(** Tenants and users hold no colon, so requests do not share a key. *)
Lemma request_key_inj t u q t' u' q' :
  index_of colon t = None → index_of colon u = None → index_of colon t' = None → index_of colon u' = None →
  request_key t u q = request_key t' u' q' → t = t' ∧ u = u' ∧ q = q'.
Proof.
  intros Ht Hu Ht' Hu'. unfold request_key. intros Heq.
  assert (Hpre : ∀ p a b, p +:+ a = p +:+ b → a = b) by (induction p; simpl; [done|intros x y [= ?]; auto]).
  apply Hpre in Heq. apply colon_join_inj in Heq as [-> Heq]; [|done|done].
  apply colon_join_inj in Heq as [-> ->]; done.
Qed.

(** ** Witnesses *)

Definition defaults : IdempotencyOptions := mkIdempotency None None None.

(** Two requests: the first took the lock at 0, the second after its expiry. *)
Definition late_pair : Sys :=
  mkSys 31000 {["k" := ("__pending__:b", 61000)]}
    {[0%nat := Owner "__pending__:a" 0; 1%nat := Owner "__pending__:b" 31000]}
    ({["__pending__:b"]} ∪ ({["__pending__:a"]} ∪ ∅)).

Lemma late_pair_reachable : reachable defaults "k" late_pair.
Proof.
  exists 0. unfold sys_start.
  eapply rtc_l; [apply (step_arrive _ _ _ 0%nat); done|].
  eapply rtc_l; [apply (step_arrive _ _ _ 1%nat); done|].
  eapply rtc_l; [eapply (step_command _ _ _ 0%nat AtCheck "a" None); [done|simpl; set_solver|done|reflexivity]|].
  eapply rtc_l; [apply (step_clock _ _ _ 31000); simpl; lia|].
  eapply rtc_l; [eapply (step_command _ _ _ 1%nat AtCheck "b" None); [done|simpl; set_solver|done|reflexivity]|].
  apply rtc_refl.
Qed.

Lemma idempotency_excludes_double_execution_witness :
  owns late_pair 0 "__pending__:a" 0 ∧ owns late_pair 1 "__pending__:b" 31000 ∧
  (0 + pendingTtl defaults * 1000 ≤ 31000 ∨ 31000 + pendingTtl defaults * 1000 ≤ 0).
Proof.
  split; [reflexivity|]. split; [reflexivity|].
  exact (proj1 (idempotency_excludes_double_execution defaults "k" late_pair late_pair_reachable)
           0%nat 1%nat "__pending__:a" "__pending__:b" 0 31000 ltac:(lia) eq_refl eq_refl).
Defined.

Lemma stale_owner_cannot_store_witness :
  request_step defaults 31000 "k" "c" (Some "{}") (sys_redis late_pair) (Owner "__pending__:a" 0)
    = (Finished "__pending__:a" "{}" false, sys_redis late_pair).
Proof.
  refine (proj1 (proj1 (stale_owner_cannot_store defaults "k" late_pair 0 "__pending__:a" 0 "c" "{}"
                          late_pair_reachable eq_refl) 1%nat "__pending__:b" 31000 _ eq_refl _ _)).
  - discriminate.
  - lia.
  - reflexivity.
Defined.
