(* ===== verification/RateLimit.v ===== *)
(** * Rate limiting

    [rate-limit/resolver.ts] and [rate-limit/bucket.ts].  The three Lua scripts
    run atomically in Redis, so a bucket store is a map and a script a function
    on it.  Tokens and rates are rationals where the scripts compute with
    floating point; [nowMs] is the caller's clock and [redisNow] the clock by
    which Redis expires keys. *)

From Stdlib Require Import QArith Qround Qminmax Lqa.
From S2P Require Import Prelude QualifiedName Ownership.

Open Scope Q_scope.

(** ** The store *)

Record Bucket := mkBucket { b_tokens : Q; b_ts : Z; b_expiresAt : Z }.

Notation Buckets := (gmap string Bucket) (only parsing).

Definition stored (redisNow : Z) (s : Buckets) (key : string) : option Bucket :=
  match s !! key with
  | Some b => if (redisNow <? b_expiresAt b)%Z then Some b else None
  | None => None
  end.

Record RateLimitConfig := mkConfig {
  rl_limit : Q;
  rl_windowSeconds : Z;
  rl_cost : option Q }.

Definition cost_of (config : RateLimitConfig) : Q := default 1 (rl_cost config).

Definition refillRatePerMs (config : RateLimitConfig) : Q :=
  rl_limit config / inject_Z (rl_windowSeconds config * 1000).

Definition ttlSeconds (config : RateLimitConfig) : Z := Z.max 1 (rl_windowSeconds config * 2).

(** ** The scripts *)

(** The first half of each script: load and refill. *)
Definition refilled (config : RateLimitConfig) (nowMs : Z) (b : option Bucket) : Q :=
  match b with
  | None => rl_limit config
  | Some b => Qmin (rl_limit config)
                (b_tokens b + inject_Z (Z.max 0 (nowMs - b_ts b)) * refillRatePerMs config)
  end.

Definition retry_after (config : RateLimitConfig) (cost tokens : Q) : Z :=
  Qceiling ((cost - tokens) / refillRatePerMs config).

Definition write_back (config : RateLimitConfig) (redisNow nowMs : Z) (tokens : Q) : Bucket :=
  mkBucket tokens nowMs (redisNow + ttlSeconds config * 1000).

(** [TOKEN_BUCKET_LUA]: allowed, remaining tokens, milliseconds to wait. *)
Definition token_bucket (config : RateLimitConfig) (redisNow nowMs : Z) (s : Buckets) (key : string)
    : bool * Z * Z * Buckets :=
  let tokens := refilled config nowMs (stored redisNow s key) in
  let cost := cost_of config in
  if Qle_bool cost tokens
  then (true, Qfloor (tokens - cost), 0%Z, <[key := write_back config redisNow nowMs (tokens - cost)]> s)
  else (false, Qfloor tokens, retry_after config cost tokens,
        <[key := write_back config redisNow nowMs tokens]> s).

(** [TOKEN_BUCKET_PEEK_LUA] *)
Definition token_bucket_peek (config : RateLimitConfig) (redisNow nowMs : Z) (s : Buckets) (key : string)
    : Z * Z :=
  let tokens := refilled config nowMs (stored redisNow s key) in
  (Qfloor tokens, if Qle_bool 1 tokens then 0%Z else retry_after config 1 tokens).

Record RateLimitBucketRequest := mkRequest { rq_bucket : string; rq_config : RateLimitConfig }.

(** [TOKEN_BUCKET_ALL_LUA]: per bucket the remaining tokens and the wait. *)
Definition has_enough (redisNow nowMs : Z) (s : Buckets) (prefix : string) (r : RateLimitBucketRequest) : bool :=
  Qle_bool (cost_of (rq_config r)) (refilled (rq_config r) nowMs (stored redisNow s (prefix +:+ rq_bucket r))).

Definition charge (all : bool) (redisNow nowMs : Z) (s0 : Buckets) (prefix : string)
    (acc : Buckets) (r : RateLimitBucketRequest) : Buckets :=
  let tokens := refilled (rq_config r) nowMs (stored redisNow s0 (prefix +:+ rq_bucket r)) in
  <[prefix +:+ rq_bucket r :=
      write_back (rq_config r) redisNow nowMs (if all then tokens - cost_of (rq_config r) else tokens)]> acc.

Definition token_bucket_all (redisNow nowMs : Z) (s : Buckets) (prefix : string)
    (requests : list RateLimitBucketRequest) : bool * list (Z * Z) * Buckets :=
  let all := forallb (has_enough redisNow nowMs s prefix) requests in
  (all,
   (λ r, let tokens := refilled (rq_config r) nowMs (stored redisNow s (prefix +:+ rq_bucket r)) in
         (Qfloor (if all then tokens - cost_of (rq_config r) else tokens),
          if has_enough redisNow nowMs s prefix r then 0%Z
          else retry_after (rq_config r) (cost_of (rq_config r)) tokens)) <$> requests,
   foldl (charge all redisNow nowMs s prefix) s requests).

(** ** The resolver *)

Record RateLimitDecision := mkDecision {
  rd_allowed : bool;
  rd_limit : Q;
  rd_remaining : Z;
  rd_retryAfterSeconds : Z;
  rd_windowSeconds : Z;
  rd_resetAt : Z }.

Definition decision_of (config : RateLimitConfig) (nowMs : Z) (allowed : bool) (remaining retryAfterMs : Z)
    : RateLimitDecision :=
  mkDecision allowed (rl_limit config) remaining (Qceiling (inject_Z retryAfterMs / 1000))
    (rl_windowSeconds config) (nowMs + retryAfterMs).

Inductive RateLimitFailure :=
| NotReady
| RateLimited (publicBucket : string) (d : RateLimitDecision)
| DuplicateBucket (bucket : string).

(** The scope tag before the first colon. *)
Definition toPublicBucketName (bucket : string) : string :=
  match index_of colon bucket with None => bucket | Some i => slice_to i bucket end.

Definition check (ready : bool) (prefix : string) (redisNow nowMs : Z) (s : Buckets) (bucket : string)
    (config : RateLimitConfig) : result RateLimitFailure RateLimitDecision * Buckets :=
  if negb ready then (Err NotReady, s)
  else let '(allowed, remaining, retryAfterMs, s') :=
         token_bucket config redisNow nowMs s (prefix +:+ bucket) in
       (Ok (decision_of config nowMs allowed remaining retryAfterMs), s').

Definition enforce (ready : bool) (prefix : string) (redisNow nowMs : Z) (s : Buckets) (bucket : string)
    (config : RateLimitConfig) : result RateLimitFailure RateLimitDecision * Buckets :=
  match check ready prefix redisNow nowMs s bucket config with
  | (Ok d, s') => if rd_allowed d then (Ok d, s') else (Err (RateLimited (toPublicBucketName bucket) d), s')
  | (Err e, s') => (Err e, s')
  end.

(** The first key that repeats an earlier one. *)
Fixpoint first_duplicate (seen : list string) (keys : list string) : option string :=
  match keys with
  | [] => None
  | k :: rest => if decide (k ∈ seen) then Some k else first_duplicate (k :: seen) rest
  end.

(** The rejection names the bucket with the longest wait, the first of equals. *)
Definition worst_outcome (o0 : string * Z * RateLimitDecision) (outcomes : list (string * Z * RateLimitDecision))
    : string * Z * RateLimitDecision :=
  foldl (λ worst o, if (worst.1.2 <? o.1.2)%Z then o else worst) o0 outcomes.

Definition enforceAll (ready : bool) (prefix : string) (redisNow nowMs : Z) (s : Buckets)
    (requests : list RateLimitBucketRequest)
    : result RateLimitFailure (list RateLimitDecision) * Buckets :=
  match requests with
  | [] => (Ok [], s)
  | _ =>
      if negb ready then (Err NotReady, s)
      else match first_duplicate [] (rq_bucket <$> requests) with
           | Some d => (Err (DuplicateBucket d), s)
           | None =>
               let '(all, flat, s') := token_bucket_all redisNow nowMs s prefix requests in
               let outcomes :=
                 zip_with (λ r f, (rq_bucket r, f.2,
                                   decision_of (rq_config r) nowMs (f.2 =? 0)%Z f.1 f.2)) requests flat in
               if (all : bool) then (Ok (snd <$> outcomes), s')
               else match outcomes with
                    | [] => (Ok [], s')
                    | o0 :: rest => let w := worst_outcome o0 rest in
                                    (Err (RateLimited (toPublicBucketName w.1.1) w.2), s')
                    end
           end
  end.

Definition peek (ready : bool) (prefix : string) (redisNow nowMs : Z) (s : Buckets) (bucket : string)
    (config : RateLimitConfig) : result RateLimitFailure RateLimitDecision :=
  if negb ready then Err NotReady
  else let '(remaining, retryAfterMs) := token_bucket_peek config redisNow nowMs s (prefix +:+ bucket) in
       Ok (decision_of config nowMs (1 <=? remaining)%Z remaining retryAfterMs).

(** ** Bucket keys *)

Inductive RateLimitPer := PerUser | PerTenant | PerIp | PerUserHandler | PerTenantHandler | PerIpHandler.

Record BucketContext := mkBucketContext {
  bc_handlerName : string;
  bc_user : SessionUser;
  bc_ip : option string }.

Inductive BucketResult := BucketKey (key : string) | BucketSkip (reason : string).

Definition with_ip (ctx : BucketContext) (f : string → string) : BucketResult :=
  match bc_ip ctx with
  | None | Some "" => BucketSkip "no_ip"
  | Some ip => BucketKey (f ip)
  end.

Definition buildBucketKey (per : RateLimitPer) (ctx : BucketContext) : BucketResult :=
  match per with
  | PerUser => BucketKey (colon_join "user" (us_id (bc_user ctx)))
  | PerTenant => BucketKey (colon_join "tenant" (us_tenantId (bc_user ctx)))
  | PerIp => with_ip ctx (colon_join "ip")
  | PerUserHandler => BucketKey (colon_join "user+handler" (colon_join (us_id (bc_user ctx)) (bc_handlerName ctx)))
  | PerTenantHandler =>
      BucketKey (colon_join "tenant+handler" (colon_join (us_tenantId (bc_user ctx)) (bc_handlerName ctx)))
  | PerIpHandler => with_ip ctx (λ ip, colon_join "ip+handler" (colon_join ip (bc_handlerName ctx)))
  end.

Definition buildPayloadBucketKey (tenantId handlerName field digest : string) : string :=
  colon_join "payload+handler"
    (colon_join tenantId (colon_join handlerName (colon_join field digest))).

(** ** Specification *)

(** The tokens a call at [now] finds, under one clock. *)
Definition available (config : RateLimitConfig) (now : Z) (s : Buckets) (key : string) : Q :=
  refilled config now (stored now s key).

Definition config_ok (config : RateLimitConfig) : Prop :=
  0 < rl_limit config ∧ (1 ≤ rl_windowSeconds config)%Z.

(** A bucket as the scripts leave it. *)
Definition bucket_ok (config : RateLimitConfig) (now : Z) (s : Buckets) (key : string) : Prop :=
  ∀ b, s !! key = Some b →
    0 <= b_tokens b ∧ (b_ts b ≤ now)%Z ∧ (b_ts b + ttlSeconds config * 1000 ≤ b_expiresAt b)%Z.

(** The cost admitted by a sequence of calls [(time, cost)] on one bucket. *)
Fixpoint admitted (config : RateLimitConfig) (s : Buckets) (key : string) (calls : list (Z * Q)) : Q :=
  match calls with
  | [] => 0
  | (t, c) :: rest =>
      let '(allowed, _, _, s') :=
        token_bucket (mkConfig (rl_limit config) (rl_windowSeconds config) (Some c)) t t s key in
      (if (allowed : bool) then c else 0) + admitted config s' key rest
  end.

(** ** Lemmas *)

Section bucket.
Context (config : RateLimitConfig) (Hcfg : config_ok config).
#[local] Set Default Proof Using "All".

Notation rate := (refillRatePerMs config).
Notation lim := (rl_limit config).

Definition window_ms : Z := (rl_windowSeconds config * 1000)%Z.

Lemma window_pos : 0 < inject_Z window_ms.
Proof. destruct Hcfg as [_ Hw]. unfold window_ms. change 0 with (inject_Z 0). rewrite <- Zlt_Qlt. lia. Qed.

Lemma rate_pos : 0 < rate.
Proof.
  destruct Hcfg as [Hl _]. unfold refillRatePerMs. fold window_ms. pose proof window_pos as Hp.
  apply Qlt_shift_div_l; [done|]. lra.
Qed.

Lemma rate_window : inject_Z window_ms * rate == lim.
Proof. unfold refillRatePerMs. fold window_ms. pose proof window_pos. field. lra. Qed.

Lemma elapsed_rate (a b : Z) : (a ≤ b)%Z → inject_Z a * rate <= inject_Z b * rate.
Proof.
  intros Hab. apply Qmult_le_compat_r; [by rewrite <- Zle_Qle|]. pose proof rate_pos. lra.
Qed.

Lemma refill_nonneg (a : Z) : (0 ≤ a)%Z → 0 <= inject_Z a * rate.
Proof.
  intros Ha. pose proof (elapsed_rate 0 a Ha) as He. assert (Hz : inject_Z 0 * rate == 0) by ring.
  by rewrite Hz in He.
Qed.

Lemma ttl_ms : (2 * window_ms ≤ ttlSeconds config * 1000)%Z.
Proof. unfold ttlSeconds, window_ms. lia. Qed.

Lemma refilled_le now b : refilled config now b <= lim.
Proof. unfold refilled. destruct b; [apply Q.le_min_l|lra]. Qed.

Lemma available_nonneg now s key : bucket_ok config now s key → 0 <= available config now s key.
Proof.
  intros Hok. unfold available, refilled, stored. destruct Hcfg as [Hl _].
  destruct (s !! key) as [b|] eqn:Hb; [|lra]. destruct (_ <? _)%Z; [|lra].
  destruct (Hok b Hb) as (Ht & _ & _). apply Q.min_glb; [lra|].
  pose proof (refill_nonneg (Z.max 0 (now - b_ts b)) ltac:(lia)). lra.
Qed.

(** Between two instants the tokens grow by at most the refill, also when the
    key expires in between. *)
Lemma available_grows s key t t' :
  bucket_ok config t s key → (t ≤ t')%Z →
  available config t' s key <= available config t s key + inject_Z (t' - t) * rate.
Proof.
  intros Hok Ht. pose proof (refill_nonneg (t' - t) ltac:(lia)) as Hpos.
  unfold available, stored. destruct (s !! key) as [b|] eqn:Hb; [|cbn [refilled]; lra].
  destruct (Hok b Hb) as (Htok & Hts & Hexp).
  destruct (t <? b_expiresAt b)%Z eqn:Hlive; reflect_bools; cbn [refilled].
  2:{ destruct (t' <? b_expiresAt b)%Z eqn:Hlive'; reflect_bools; [lia|]. cbn [refilled]. lra. }
  rewrite Z.max_r by lia.
  assert (Hsum : inject_Z (t' - b_ts b) * rate == inject_Z (t - b_ts b) * rate + inject_Z (t' - t) * rate).
  { replace (t' - b_ts b)%Z with ((t - b_ts b) + (t' - t))%Z by lia. rewrite inject_Z_plus. ring. }
  destruct (t' <? b_expiresAt b)%Z eqn:Hlive'; reflect_bools; cbn [refilled].
  - rewrite Z.max_r by lia. destruct (Q.min_spec lim (b_tokens b + inject_Z (t - b_ts b) * rate)) as [[_ ->]|[_ ->]].
    + pose proof (Q.le_min_l lim (b_tokens b + inject_Z (t' - b_ts b) * rate)). lra.
    + pose proof (Q.le_min_r lim (b_tokens b + inject_Z (t' - b_ts b) * rate)). lra.
  - destruct (Q.min_spec lim (b_tokens b + inject_Z (t - b_ts b) * rate)) as [[_ ->]|[_ ->]]; [lra|].
    pose proof (elapsed_rate (2 * window_ms) (t' - b_ts b)) as He. pose proof ttl_ms.
    specialize (He ltac:(lia)). pose proof rate_window as Hrw.
    assert (Htwo : inject_Z (2 * window_ms) * rate == 2 * lim) by (rewrite inject_Z_mult, <- Hrw; ring).
    destruct Hcfg as [Hl _]. lra.
Qed.

(** Right after a write the bucket holds what was written. *)
Lemma available_after now s key tokens :
  0 <= tokens → tokens <= lim →
  available config now (<[key := write_back config now now tokens]> s) key == tokens ∧
  bucket_ok config now (<[key := write_back config now now tokens]> s) key.
Proof.
  intros H0 Hl. pose proof ttl_ms. pose proof window_pos as Hw. change 0 with (inject_Z 0) in Hw.
  rewrite <- Zlt_Qlt in Hw. split.
  - unfold available, stored. rewrite lookup_insert_eq. simpl.
    destruct (now <? now + ttlSeconds config * 1000)%Z eqn:?; reflect_bools; [|lia]. simpl.
    rewrite Z.sub_diag. change (inject_Z (Z.max 0 0)) with 0.
    destruct (Q.min_spec lim (tokens + 0 * rate)) as [[? ->]|[? ->]]; lra.
  - intros b. rewrite lookup_insert_eq. intros [= <-]. simpl. split_and!; [done|lia|lia].
Qed.

Lemma bucket_ok_later s key t t' : bucket_ok config t s key → (t ≤ t')%Z → bucket_ok config t' s key.
Proof. intros Hok Ht b Hb. destruct (Hok b Hb) as (? & ? & ?). split_and!; [done|lia|done]. Qed.

(** A call takes exactly its cost, or nothing. *)
Lemma call_effect now s key c :
  bucket_ok config now s key → 0 <= c →
  let cfg := mkConfig (rl_limit config) (rl_windowSeconds config) (Some c) in
  let '(allowed, _, _, s') := token_bucket cfg now now s key in
  bucket_ok config now s' key ∧
  available config now s' key == available config now s key - (if (allowed : bool) then c else 0) ∧
  (allowed = true ↔ c <= available config now s key).
Proof.
  intros Hok Hc cfg. unfold token_bucket.
  change (refilled cfg now (stored now s key)) with (available config now s key).
  change (cost_of cfg) with c.
  pose proof (available_nonneg now s key Hok) as H0. pose proof (refilled_le now (stored now s key)) as Hle.
  fold (available config now s key) in Hle.
  destruct (Qle_bool c (available config now s key)) eqn:Hq.
  - apply Qle_bool_iff in Hq.
    destruct (available_after now s key (available config now s key - c)) as [Ha Hb]; [lra|lra|].
    split_and!; [exact Hb|exact Ha|done].
  - assert (Hn : ¬ c <= available config now s key) by (rewrite <- Qle_bool_iff, Hq; done).
    destruct (available_after now s key (available config now s key)) as [Ha Hb]; [lra|lra|].
    split_and!; [exact Hb| |naive_solver]. etransitivity; [exact Ha|]. ring.
Qed.

Lemma admitted_bound s key t0 t1 calls :
  bucket_ok config t0 s key → (t0 ≤ t1)%Z →
  StronglySorted (λ a b, (a.1 ≤ b.1)%Z) calls →
  Forall (λ tc, (t0 ≤ tc.1 ≤ t1)%Z ∧ 0 <= tc.2) calls →
  admitted config s key calls <= available config t0 s key + inject_Z (t1 - t0) * rate.
Proof.
  intros Hok Ht Hs. revert s t0 Hok Ht. induction Hs as [|[t c] calls Hs IH Hf]; intros s t0 Hok Ht Hall.
  - simpl. pose proof (available_nonneg t0 s key Hok). pose proof (refill_nonneg (t1 - t0) ltac:(lia)). lra.
  - apply Forall_cons in Hall as [[Htt Hc] Hall]. simpl in Htt, Hc.
    pose proof (bucket_ok_later s key t0 t Hok ltac:(lia)) as Hok'.
    pose proof (call_effect t s key c Hok' Hc) as He. pose proof (available_grows s key t0 t Hok ltac:(lia)) as Hg.
    cbn [admitted]. cbv zeta in He.
    destruct (token_bucket _ _ _ _ _) as [[[allowed rem] wait] s']. destruct He as (Hok2 & Hav & _).
    assert (Hrest : admitted config s' key calls <= available config t s' key + inject_Z (t1 - t) * rate).
    { apply IH; [done|lia|]. apply Forall_forall. intros [u d] Hin. rewrite Forall_forall in Hall, Hf.
      destruct (Hall _ Hin) as [Hu Hd]. specialize (Hf _ Hin). simpl in *. split; [lia|done]. }
    assert (Hsum : inject_Z (t1 - t0) * rate == inject_Z (t - t0) * rate + inject_Z (t1 - t) * rate).
    { replace (t1 - t0)%Z with ((t - t0) + (t1 - t))%Z by lia. rewrite inject_Z_plus. ring. }
    rewrite Hav in Hrest. lra.
Qed.
End bucket.

Lemma Qceiling_le (q : Q) (z : Z) : (Qceiling q ≤ z)%Z ↔ q <= inject_Z z.
Proof.
  split; intros H.
  - apply Qle_trans with (inject_Z (Qceiling q)); [apply Qle_ceiling|]. by rewrite <- Zle_Qle.
  - apply Qceiling_resp_le in H. by rewrite Qceiling_Z in H.
Qed.

Lemma retry_after_le config cost tokens (d : Z) :
  config_ok config →
  (retry_after config cost tokens ≤ d)%Z ↔ cost <= tokens + inject_Z d * refillRatePerMs config.
Proof.
  intros Hcfg. pose proof (rate_pos config Hcfg) as Hr. unfold retry_after. rewrite Qceiling_le. split; intros H.
  - apply (Qmult_le_compat_r _ _ (refillRatePerMs config)) in H; [|lra].
    assert (Hd : (cost - tokens) / refillRatePerMs config * refillRatePerMs config == cost - tokens) by (field; lra).
    rewrite Hd in H. lra.
  - apply Qle_shift_div_r; [done|]. lra.
Qed.

(** A bucket that lacks tokens reports a positive wait of at most a window. *)
Lemma retry_after_range config cost tokens :
  config_ok config → 0 <= tokens → cost <= rl_limit config → ¬ cost <= tokens →
  (1 ≤ retry_after config cost tokens ≤ window_ms config)%Z.
Proof.
  intros Hcfg H0 Hl Hn. pose proof (rate_window config Hcfg) as Hw. split.
  - destruct (decide (1 ≤ retry_after config cost tokens)%Z) as [|Hz]; [done|].
    destruct Hn. assert (Hle : (retry_after config cost tokens ≤ 0)%Z) by lia.
    rewrite retry_after_le in Hle by done. assert (Hzero : inject_Z 0 * refillRatePerMs config == 0) by ring.
    rewrite Hzero in Hle. lra.
  - apply retry_after_le; [done|]. rewrite Hw. lra.
Qed.

(** The tokens a rejected call leaves behind refill linearly up to the limit. *)
Lemma available_after_later config now d s key tokens cost :
  config_ok config → 0 <= tokens → tokens <= rl_limit config → cost <= rl_limit config → (0 ≤ d)%Z →
  cost <= available config (now + d) (<[key := write_back config now now tokens]> s) key ↔
  cost <= tokens + inject_Z d * refillRatePerMs config.
Proof.
  intros Hcfg H0 Hl Hc Hd. unfold available, stored. rewrite lookup_insert_eq. cbn [b_expiresAt write_back].
  destruct (now + d <? now + ttlSeconds config * 1000)%Z eqn:Hlive; reflect_bools; cbn [refilled].
  - cbn [write_back b_tokens b_ts]. replace (now + d - now)%Z with d by lia. rewrite Z.max_r by lia.
    rewrite Q.min_glb_iff. naive_solver.
  - split; [|done]. intros _. rewrite <- (retry_after_le config cost tokens d Hcfg).
    destruct (Qlt_le_dec tokens cost) as [Hlt|Hle]; [apply Qlt_not_le in Hlt|].
    + pose proof (retry_after_range config cost tokens Hcfg H0 Hc Hlt).
      pose proof (ttl_ms config Hcfg). pose proof (proj2 Hcfg). unfold window_ms in *. lia.
    + etransitivity; [|exact Hd]. apply retry_after_le; [done|].
      assert (Hz : inject_Z 0 * refillRatePerMs config == 0) by ring. rewrite Hz. lra.
Qed.

(** *** All buckets at once *)

Lemma charge_other all redisNow now s0 prefix reqs acc key :
  key ∉ (λ r, prefix +:+ rq_bucket r) <$> reqs →
  foldl (charge all redisNow now s0 prefix) acc reqs !! key = acc !! key.
Proof.
  revert acc. induction reqs as [|r reqs IH]; intros acc Hk; [done|].
  rewrite fmap_cons, not_elem_of_cons in Hk. destruct Hk as [Hne Hk]. cbn [foldl]. rewrite IH by done.
  unfold charge. by apply lookup_insert_ne.
Qed.

Lemma charge_requested all redisNow now s0 prefix reqs acc r :
  NoDup ((λ r, prefix +:+ rq_bucket r) <$> reqs) → r ∈ reqs →
  foldl (charge all redisNow now s0 prefix) acc reqs !! (prefix +:+ rq_bucket r) =
  charge all redisNow now s0 prefix ∅ r !! (prefix +:+ rq_bucket r).
Proof.
  revert acc. induction reqs as [|r' reqs IH]; intros acc Hnd Hin; [by apply elem_of_nil in Hin|].
  rewrite fmap_cons in Hnd. apply NoDup_cons in Hnd as [Hn Hnd]. cbn [foldl].
  apply elem_of_cons in Hin as [->|Hin]; [|by apply IH].
  rewrite charge_other by done. unfold charge. by rewrite !lookup_insert_eq.
Qed.

Lemma first_duplicate_none seen keys :
  NoDup keys → (∀ k, k ∈ keys → k ∉ seen) → first_duplicate seen keys = None.
Proof.
  revert seen. induction keys as [|k keys IH]; intros seen Hnd Hs; [done|]. cbn [first_duplicate].
  apply NoDup_cons in Hnd as [Hn Hnd]. rewrite decide_False by (apply Hs; left).
  apply IH; [done|]. intros k' Hk' Hin. apply elem_of_cons in Hin as [->|Hin]; [done|].
  apply (Hs k'); [by right|done].
Qed.

Lemma first_duplicate_some seen keys d : first_duplicate seen keys = Some d → d ∈ keys ∧ (d ∈ seen ∨ ¬ NoDup keys).
Proof.
  revert seen. induction keys as [|k keys IH]; intros seen Hd; [done|]. cbn [first_duplicate] in Hd.
  destruct (decide (k ∈ seen)) as [Hin|]; [injection Hd as <-; split; [left|by left]|].
  destruct (IH _ Hd) as [Hdk Hor]. split; [by right|]. destruct Hor as [Hor|Hor].
  - apply elem_of_cons in Hor as [->|Hor]; [|by left]. right. by intros [? _]%NoDup_cons.
  - right. by intros [_ ?]%NoDup_cons.
Qed.

(** The outcome with the longest wait is one of the outcomes. *)
Lemma worst_outcome_max o0 outcomes :
  let w := worst_outcome o0 outcomes in
  w ∈ o0 :: outcomes ∧ Forall (λ o, (o.1.2 ≤ w.1.2)%Z) (o0 :: outcomes).
Proof.
  unfold worst_outcome. revert o0. induction outcomes as [|o outcomes IH]; intros o0; cbn [foldl].
  { split; [left|by constructor]. }
  specialize (IH (if (o0.1.2 <? o.1.2)%Z then o else o0)). cbv zeta in IH. destruct IH as [Hin Hall].
  apply Forall_cons in Hall as [H0 Hall]. destruct (o0.1.2 <? o.1.2)%Z eqn:Hlt; reflect_bools; split.
  - apply elem_of_cons in Hin as [->|Hin]; [right; left|by right; right].
  - constructor; [lia|]. by constructor.
  - apply elem_of_cons in Hin as [->|Hin]; [left|by right; right].
  - constructor; [lia|]. constructor; [lia|done].
Qed.

(** *** A rejected batch *)

Definition wait_of (now : Z) (s : Buckets) (prefix : string) (r : RateLimitBucketRequest) : Z :=
  if has_enough now now s prefix r then 0%Z
  else retry_after (rq_config r) (cost_of (rq_config r)) (available (rq_config r) now s (prefix +:+ rq_bucket r)).

(** What [enforceAll] needs of a request: a sane configuration whose cost fits
    the limit, and a bucket as the scripts leave it. *)
Definition request_ok (now : Z) (s : Buckets) (prefix : string) (r : RateLimitBucketRequest) : Prop :=
  config_ok (rq_config r) ∧ 0 <= cost_of (rq_config r) ∧ cost_of (rq_config r) <= rl_limit (rq_config r) ∧
  bucket_ok (rq_config r) now s (prefix +:+ rq_bucket r).

Definition enough (now : Z) (s : Buckets) (prefix : string) (r : RateLimitBucketRequest) : Prop :=
  cost_of (rq_config r) <= available (rq_config r) now s (prefix +:+ rq_bucket r).

Lemma has_enough_iff now s prefix r : has_enough now now s prefix r = true ↔ enough now s prefix r.
Proof. unfold has_enough, enough, available. apply Qle_bool_iff. Qed.

Lemma wait_of_positive now s prefix r :
  request_ok now s prefix r → has_enough now now s prefix r = false → (1 ≤ wait_of now s prefix r)%Z.
Proof.
  intros (Hcfg & H0 & Hl & Hok) He. unfold wait_of. rewrite He.
  pose proof (retry_after_range (rq_config r) (cost_of (rq_config r))
    (available (rq_config r) now s (prefix +:+ rq_bucket r)) Hcfg) as Hr.
  assert (Hn : ¬ enough now s prefix r) by (by rewrite <- has_enough_iff, He).
  specialize (Hr (available_nonneg _ Hcfg _ _ _ Hok) Hl Hn). lia.
Qed.

Lemma wait_of_zero now s prefix r :
  request_ok now s prefix r → wait_of now s prefix r = 0%Z ↔ enough now s prefix r.
Proof.
  intros Hok. rewrite <- has_enough_iff. pose proof (wait_of_positive now s prefix r Hok) as Hp.
  destruct (has_enough now now s prefix r) eqn:He; [unfold wait_of; by rewrite He|].
  split; [|done]. intros Hz. specialize (Hp eq_refl). lia.
Qed.

Lemma wait_of_nonneg now s prefix r : request_ok now s prefix r → (0 ≤ wait_of now s prefix r)%Z.
Proof.
  intros Hok. pose proof (wait_of_positive now s prefix r Hok) as Hp.
  destruct (has_enough now now s prefix r) eqn:He; [unfold wait_of; by rewrite He|].
  specialize (Hp eq_refl). lia.
Qed.

(** The tokens each requested bucket holds after the script. *)
Lemma charged_available all now s prefix reqs r :
  NoDup ((λ r, prefix +:+ rq_bucket r) <$> reqs) → r ∈ reqs → request_ok now s prefix r →
  (all = true → enough now s prefix r) →
  available (rq_config r) now (foldl (charge all now now s prefix) s reqs) (prefix +:+ rq_bucket r) ==
  available (rq_config r) now s (prefix +:+ rq_bucket r) - (if (all : bool) then cost_of (rq_config r) else 0).
Proof.
  intros Hnd Hin (Hcfg & H0 & Hl & Hok) Hall.
  pose proof (available_nonneg _ Hcfg _ _ _ Hok) as Hav.
  pose proof (refilled_le _ Hcfg now (stored now s (prefix +:+ rq_bucket r))) as Hle.
  set (key := prefix +:+ rq_bucket r) in *.
  assert (Hsame : available (rq_config r) now (foldl (charge all now now s prefix) s reqs) key =
                  available (rq_config r) now (charge all now now s prefix (∅ : Buckets) r) key).
  { unfold available, stored. unfold key. by rewrite charge_requested. }
  rewrite Hsame. unfold charge. fold key.
  change (refilled (rq_config r) now (stored now s key)) with (available (rq_config r) now s key) in *.
  unfold enough in Hall. fold key in Hall. destruct all.
  - specialize (Hall eq_refl). apply available_after; [done|lra|lra].
  - destruct (available_after _ Hcfg now (∅ : Buckets) key (available (rq_config r) now s key)) as [Ha _]; [lra|lra|].
    apply Qeq_trans with (available (rq_config r) now s key); [exact Ha|ring].
Qed.

Definition outcome_of (now : Z) (s : Buckets) (prefix : string) (all : bool) (r : RateLimitBucketRequest)
    : string * Z * RateLimitDecision :=
  let left := available (rq_config r) now s (prefix +:+ rq_bucket r) in
  (rq_bucket r, wait_of now s prefix r,
   decision_of (rq_config r) now (wait_of now s prefix r =? 0)%Z
     (Qfloor (if all then left - cost_of (rq_config r) else left)) (wait_of now s prefix r)).

Lemma outcomes_eq now s prefix reqs (all : bool) :
  zip_with (λ (r : RateLimitBucketRequest) (f : Z * Z), (rq_bucket r, f.2,
    decision_of (rq_config r) now (f.2 =? 0)%Z f.1 f.2)) reqs
    ((λ r, let tokens := refilled (rq_config r) now (stored now s (prefix +:+ rq_bucket r)) in
         (Qfloor (if all then tokens - cost_of (rq_config r) else tokens),
          if has_enough now now s prefix r then 0%Z
          else retry_after (rq_config r) (cost_of (rq_config r)) tokens)) <$> reqs)
  = outcome_of now s prefix all <$> reqs.
Proof. induction reqs as [|r reqs IH]; [done|]. by rewrite !fmap_cons, <- IH. Qed.

Definition rejection (now : Z) (s : Buckets) (prefix : string) (requests : list RateLimitBucketRequest)
    : option (string * Z * RateLimitDecision) :=
  match outcome_of now s prefix false <$> requests with
  | [] => None
  | o0 :: rest => Some (worst_outcome o0 rest)
  end.

Lemma enforceAll_unfold prefix now s requests :
  requests ≠ [] → NoDup (rq_bucket <$> requests) →
  enforceAll true prefix now now s requests =
  (let all := forallb (has_enough now now s prefix) requests in
   (if all then Ok (snd <$> (outcome_of now s prefix true <$> requests))
    else match rejection now s prefix requests with
         | None => Ok []
         | Some w => Err (RateLimited (toPublicBucketName w.1.1) w.2)
         end,
    foldl (charge all now now s prefix) s requests)).
Proof.
  intros Hne Hnd. unfold enforceAll. destruct requests as [|r0 rest] eqn:Hr; [done|]. rewrite <- Hr in *.
  cbn [negb]. rewrite (first_duplicate_none [] (rq_bucket <$> requests)) by (done || (intros ? _; apply not_elem_of_nil)).
  unfold token_bucket_all, rejection. cbv zeta. rewrite outcomes_eq.
  destruct (forallb _ _); [done|]. by destruct (outcome_of _ _ _ _ <$> requests).
Qed.

Lemma rejection_names_the_longest_wait now s prefix requests :
  Forall (request_ok now s prefix) requests → forallb (has_enough now now s prefix) requests = false →
  ∃ r, r ∈ requests ∧ ¬ enough now s prefix r ∧
    rejection now s prefix requests = Some (outcome_of now s prefix false r) ∧
    rd_allowed (outcome_of now s prefix false r).2 = false ∧
    Forall (λ r', (wait_of now s prefix r' ≤ wait_of now s prefix r)%Z) requests.
Proof.
  intros Hok Hb.
  assert (∃ w, rejection now s prefix requests = Some w ∧ w ∈ outcome_of now s prefix false <$> requests ∧
    Forall (λ o, (o.1.2 ≤ w.1.2)%Z) (outcome_of now s prefix false <$> requests)) as (w & Hw & Hin & Hmax).
  { unfold rejection. destruct requests as [|r0 rest]; [done|]. rewrite fmap_cons.
    eexists. split; [done|]. apply worst_outcome_max. }
  apply list_elem_of_fmap in Hin as (r & -> & Hin). rewrite Forall_fmap in Hmax.
  assert (Hn : ¬ enough now s prefix r).
  { intros He. rewrite <- (wait_of_zero now s prefix r) in He by (by eapply Forall_forall in Hok).
    apply not_true_iff_false in Hb. apply Hb. apply forallb_forall. intros r' Hr'. apply list_elem_of_In in Hr'.
    rewrite Forall_forall in Hok, Hmax. specialize (Hmax r' Hr'). cbn in Hmax.
    apply has_enough_iff, wait_of_zero; [by apply Hok|].
    assert (0 ≤ wait_of now s prefix r')%Z; [|lia]. by apply wait_of_nonneg, Hok. }
  exists r. split_and!; try done. cbn. rewrite <- (wait_of_zero now s prefix r) in Hn by (by eapply Forall_forall in Hok).
  by apply Z.eqb_neq.
Qed.

(** ** Properties *)

(** C39: While all callers and Redis read one clock that never runs backwards, a
    bucket admits no more than a full bucket plus the steady refill: over a span
    of that clock, whatever the costs and the number of calls, and also when the
    key expires in between, the admitted cost is at most the limit plus the
    refill rate times the length of the span.  (The script takes the clock of its
    caller; without a common one the bound fails, as
    [skewed_clocks_refill_twice] shows.) *)
Theorem token_bucket_bounds_the_window config s key t0 t1 calls :
  config_ok config → bucket_ok config t0 s key → (t0 ≤ t1)%Z →
  StronglySorted (λ a b, (a.1 ≤ b.1)%Z) calls →
  Forall (λ tc, (t0 ≤ tc.1 ≤ t1)%Z ∧ 0 <= tc.2) calls →
  admitted config s key calls <= rl_limit config + inject_Z (t1 - t0) * refillRatePerMs config.
Proof.
  intros Hcfg Hok Ht Hs Hall. pose proof (admitted_bound config Hcfg s key t0 t1 calls Hok Ht Hs Hall).
  pose proof (refilled_le config Hcfg t0 (stored t0 s key)) as Hle. fold (available config t0 s key) in Hle. lra.
Qed.

(** The advertised wait of a rejection is exact.  A rejected call deducts
    nothing, its wait is between a millisecond and a window, and when nobody else
    uses the bucket a second call with the same cost is admitted [d] milliseconds
    later exactly when the wait has passed. *)
Theorem retry_after_is_exact config now d s key :
  config_ok config → bucket_ok config now s key → 0 <= cost_of config → cost_of config <= rl_limit config →
  (0 ≤ d)%Z →
  let '(allowed, _, wait, s') := token_bucket config now now s key in
  allowed = false →
  available config now s' key == available config now s key ∧ (1 ≤ wait ≤ rl_windowSeconds config * 1000)%Z ∧
  ((token_bucket config (now + d) (now + d) s' key).1.1.1 = true ↔ (wait ≤ d)%Z).
Proof.
  intros Hcfg Hok H0 Hc Hd. unfold token_bucket at 1. cbv zeta.
  change (refilled config now (stored now s key)) with (available config now s key).
  pose proof (available_nonneg config Hcfg now s key Hok) as Hav.
  pose proof (refilled_le config Hcfg now (stored now s key)) as Hle. fold (available config now s key) in Hle.
  destruct (Qle_bool (cost_of config) (available config now s key)) eqn:Hq; [done|]. intros _.
  assert (Hn : ¬ cost_of config <= available config now s key) by (by rewrite <- Qle_bool_iff, Hq).
  destruct (available_after config Hcfg now s key _ Hav Hle) as [Ha _]. split_and!; [exact Ha| | |].
  1,2: by apply retry_after_range.
  rewrite retry_after_le, <- (available_after_later config now d s key) by done.
  unfold token_bucket, available. rewrite <- Qle_bool_iff. clear Hq. by destruct (Qle_bool _ _).

Qed.

(** A batch is admitted exactly when every bucket has enough, and then every
    bucket pays its own cost; otherwise none pays, and the error names a requested
    bucket that lacks tokens and waits longest.  Buckets outside the batch are not
    touched. *)
Theorem enforceAll_is_all_or_nothing prefix now s requests :
  requests ≠ [] → NoDup (rq_bucket <$> requests) → Forall (request_ok now s prefix) requests →
  let '(res, s') := enforceAll true prefix now now s requests in
  (is_ok res = true ↔ Forall (enough now s prefix) requests) ∧
  (∀ r, r ∈ requests →
     available (rq_config r) now s' (prefix +:+ rq_bucket r) ==
     available (rq_config r) now s (prefix +:+ rq_bucket r) - (if is_ok res then cost_of (rq_config r) else 0)) ∧
  (∀ key, key ∉ (λ r, prefix +:+ rq_bucket r) <$> requests → s' !! key = s !! key) ∧
  (is_ok res = false → ∃ r d, r ∈ requests ∧ ¬ enough now s prefix r ∧
     res = Err (RateLimited (toPublicBucketName (rq_bucket r)) d) ∧ rd_allowed d = false ∧
     Forall (λ r', (wait_of now s prefix r' ≤ wait_of now s prefix r)%Z) requests).
Proof.
  intros Hne Hnd Hok.
  assert (Hnd' : NoDup ((λ r, prefix +:+ rq_bucket r) <$> requests)).
  { rewrite (list_fmap_compose rq_bucket (String.app prefix)). apply NoDup_fmap; [|done]. apply _. }
  assert (Hall : forallb (has_enough now now s prefix) requests = true ↔ Forall (enough now s prefix) requests).
  { rewrite forallb_forall, List.Forall_forall. by setoid_rewrite has_enough_iff. }
  rewrite enforceAll_unfold by done.
  assert (Hcharged := λ all Ha r Hin, charged_available all now s prefix requests r Hnd' Hin
       (proj1 (Forall_forall _ _) Hok r Hin) (λ H, proj1 (Forall_forall _ _) (Ha H) r Hin)).
  destruct (forallb _ _) eqn:Hb.
  - split_and!; [done|intros r Hin; apply (Hcharged true); naive_solver|by intros; apply charge_other|done].
  - destruct (rejection_names_the_longest_wait now s prefix requests Hok Hb) as (w & Hin & Hn & Hw & Hd & Hmax).
    rewrite Hw. split_and!; [by rewrite <- Hall|by intros r Hr; apply (Hcharged false)|by intros; apply charge_other|].
    intros _. by exists w, (outcome_of now s prefix false w).2.
Qed.

(** The bucket takes the caller's clock as its refill time even when that clock
    is behind: two callers whose clocks differ by a window are admitted a full
    bucket at every change of caller. *)
Lemma skewed_clocks_refill_twice :
  let cfg := mkConfig 1 1 None in
  let call := λ (nowMs : Z) s, (token_bucket cfg 0 nowMs s "k").2 in
  let allowed := λ (nowMs : Z) s, (token_bucket cfg 0 nowMs s "k").1.1.1 in
  let s1 := call 1000%Z (∅ : Buckets) in let s2 := call 0%Z s1 in
  let s3 := call 1000%Z s2 in let s4 := call 0%Z s3 in
  allowed 1000%Z (∅ : Buckets) = true ∧ allowed 1000%Z s2 = true ∧ allowed 1000%Z s4 = true ∧
  allowed 1000%Z s1 = false.
Proof. by vm_compute. Qed.

(** ** Witnesses *)

Definition wcfg : RateLimitConfig := mkConfig 2 1 None.

Lemma wcfg_ok : config_ok wcfg.
Proof. by split. Qed.

Lemma fresh_ok config now key : bucket_ok config now (∅ : Buckets) key.
Proof. intros b Hb. by rewrite lookup_empty in Hb. Qed.

Definition wcalls : list (Z * Q) := [(0%Z, 1); (0%Z, 1); (0%Z, 1); (500%Z, 1); (500%Z, 1); (1000%Z, 1)].

Lemma token_bucket_bounds_the_window_witness :
  admitted wcfg (∅ : Buckets) "k" wcalls == 4 ∧ admitted wcfg (∅ : Buckets) "k" wcalls <= 4.
Proof.
  split; [by vm_compute|].
  apply Qle_trans with (2 + inject_Z (1000 - 0) * refillRatePerMs wcfg); [|by vm_compute].
  apply (token_bucket_bounds_the_window wcfg ∅ "k" 0 1000 wcalls wcfg_ok (fresh_ok _ _ _)); [done| |].
  - repeat constructor; done.
  - repeat constructor; done.
Defined.

Definition drained : Buckets := <["k" := mkBucket (1 # 2) 0 5000]> ∅.

Lemma drained_ok : bucket_ok wcfg 0 drained "k".
Proof. intros b [= <-]. by vm_compute. Qed.

Lemma retry_after_is_exact_witness :
  (token_bucket wcfg 0 0 drained "k").1 = (false, 0%Z, 250%Z) ∧
  ((token_bucket wcfg (0 + 250) (0 + 250) (token_bucket wcfg 0 0 drained "k").2 "k").1.1.1 = true ↔ (250 ≤ 250)%Z).
Proof.
  pose proof (retry_after_is_exact wcfg 0 250 drained "k" wcfg_ok drained_ok
    ltac:(by vm_compute) ltac:(by vm_compute) ltac:(lia)) as H.
  split; [by vm_compute|]. exact (proj2 (proj2 (H eq_refl))).
Defined.

Definition wrequests : list RateLimitBucketRequest := [mkRequest "k" wcfg; mkRequest "other" wcfg].

Lemma enforceAll_is_all_or_nothing_witness :
  is_ok (enforceAll true "" 0 0 drained wrequests).1 = false ∧
  (∀ key, key ∉ ["k"; "other"] → (enforceAll true "" 0 0 drained wrequests).2 !! key = drained !! key).
Proof.
  assert (Hok : Forall (request_ok 0 drained "") wrequests).
  { apply Forall_cons. split; [|apply Forall_singleton]; split_and!; try (by vm_compute). exact drained_ok. }
  assert (Hnd : NoDup (rq_bucket <$> wrequests)) by (apply (bool_decide_eq_true_1 _); reflexivity).
  pose proof (enforceAll_is_all_or_nothing "" 0 drained wrequests ltac:(done) Hnd Hok) as H.
  destruct (enforceAll true "" 0 0 drained wrequests) as [res s'] eqn:He.
  split; [|exact (proj1 (proj2 (proj2 H)))]. by vm_compute in He; injection He as <- _.
Defined.
