(* ===== verification/RoleAssignment.v ===== *)
(** * Assigning membership roles

    [engine/role-assignment.ts]: the ranks of the built-in roles, the roles an
    app declares as assignable, and the check that guards a change of a
    member's roles.  A rank is an integer; [None] is the source's positive
    infinity, the rank of a role nobody may grant. *)

From S2P Require Import Prelude Ownership FieldAccess.

Open Scope Z_scope.

(** ** Ranks *)

Definition ROLE_RANKS : list (string * Z) :=
  [("User", 0); ("Member", 0); ("Editor", 1); ("Admin", 2); ("TenantAdmin", 3);
   ("SystemAdmin", 4); ("system", 5)].

Definition BUILT_IN_MEMBERSHIP_ROLES : list string :=
  filter (λ role, role ≠ "system") ROLE_RANKS.*1.

(** The values of [ROLES] in [auth/roles.ts]. *)
Definition PLATFORM_ROLE_NAMES : list string :=
  ["TenantOwner"; "TenantAdmin"; "DataProtectionOfficer"; "SystemAdmin"; "Member"].

Definition ASSIGNABLE_FROM_ROLE_LIST : list string :=
  ["User"; "Member"; "Editor"; "Admin"; "TenantAdmin"; "SystemAdmin"].

Definition DEFAULT_APP_ROLE_ASSIGNABLE_FROM : string := "Admin".

(** [a <= b] with [None] as positive infinity. *)
Definition rank_le (a b : option Z) : bool :=
  match a, b with
  | _, None => true
  | None, Some _ => false
  | Some x, Some y => x <=? y
  end.

Definition knownRoleRank (role : string) : option Z := assoc_get role ROLE_RANKS.

(** [getRoleRank]: an unknown role is out of everybody's reach. *)
Definition getRoleRank (role : string) : option Z := knownRoleRank role.

Definition maxRoleRank (roles : list string) : Z :=
  foldr (λ role acc, Z.max (default (-1) (knownRoleRank role)) acc) (-1) roles.

(** ** Declared app roles *)

Notation AssignableAppRoles := (list (string * string)) (only parsing).

Record ExtensionUsage := mkUsage {
  eu_entityName : string;
  eu_assignableFrom : option Json }.

Inductive RoleRuleError :=
| NameEmpty
| BuiltInRole (role : string)
| ReservedMembershipRole (role : string)
| AssignableFromInvalid (role : string)
| AssignableFromConflict (role existing assignableFrom : string).

Definition isAssignableFromRole (value : Json) : bool :=
  match value with JStr s => includes ASSIGNABLE_FROM_ROLE_LIST s | _ => false end.

Definition declare_role (acc : AssignableAppRoles) (usage : ExtensionUsage)
    : result RoleRuleError (AssignableAppRoles) :=
  let role := eu_entityName usage in
  if bool_decide (role = "") then Err NameEmpty
  else if bool_decide (is_Some (knownRoleRank role)) || includes PLATFORM_ROLE_NAMES role
  then Err (BuiltInRole role)
  else if isForbiddenMembershipRole role then Err (ReservedMembershipRole role)
  else
    let declared := eu_assignableFrom usage in
    if match declared with Some v => negb (isAssignableFromRole v) | None => false end
    then Err (AssignableFromInvalid role)
    else
      let assignableFrom :=
        match declared with Some (JStr s) => s | _ => DEFAULT_APP_ROLE_ASSIGNABLE_FROM end in
      match assoc_get role acc with
      | Some existing =>
          if bool_decide (existing = assignableFrom) then Ok (assoc_set role assignableFrom acc)
          else Err (AssignableFromConflict role existing assignableFrom)
      | None => Ok (assoc_set role assignableFrom acc)
      end.

Fixpoint declare_roles (acc : AssignableAppRoles) (usages : list ExtensionUsage)
    : result RoleRuleError (AssignableAppRoles) :=
  match usages with
  | [] => Ok acc
  | usage :: rest => let? acc' := declare_role acc usage in declare_roles acc' rest
  end.

Definition assignableAppRolesFromUsages (usages : list ExtensionUsage)
    : result RoleRuleError (AssignableAppRoles) := declare_roles [] usages.

Definition isAssignableByRole (assignableFrom actorRole : string) : bool :=
  rank_le (getRoleRank assignableFrom) (getRoleRank actorRole).

(** ** Checking an assignment *)

Definition requiredAssignRank (role : string) (appRoles : AssignableAppRoles) : option Z :=
  match knownRoleRank role with
  | Some builtIn => Some builtIn
  | None => match assoc_get role appRoles with Some f => getRoleRank f | None => None end
  end.

Definition canActorAssignRole (actorRoles : list string) (role : string)
    (appRoles : AssignableAppRoles) : bool :=
  rank_le (requiredAssignRank role appRoles) (Some (maxRoleRank actorRoles)).

Definition mergeAssignedRoles (actorRoles assignedRoles targetCurrentRoles : list string)
    (appRoles : AssignableAppRoles) : list string :=
  let preserved := filter (λ role, includes assignedRoles role = false ∧
                                   canActorAssignRole actorRoles role appRoles = false) targetCurrentRoles in
  dedupe (assignedRoles ++ preserved).

(** The first role of the request the actor may not put on this member. *)
Definition forbidden_assigned (actorRoles assignedRoles targetCurrentRoles : list string)
    (appRoles : AssignableAppRoles) : option string :=
  head (filter (λ role, canActorAssignRole actorRoles role appRoles = false ∧
                        ¬ (knownRoleRank role = None ∧ role ∈ targetCurrentRoles)) assignedRoles).

(** The first role of the member that outranks the actor. *)
Definition outranks (actorRank : Z) (role : string) : bool :=
  match knownRoleRank role with Some rank => actorRank <? rank | None => false end.

Definition forbidden_target (actorRoles targetCurrentRoles : list string) : option string :=
  head (filter (λ role, outranks (maxRoleRank actorRoles) role = true) targetCurrentRoles).

Definition findForbiddenRoleAssignment (actorRoles assignedRoles targetCurrentRoles : list string)
    (appRoles : AssignableAppRoles) : option string :=
  match forbidden_assigned actorRoles assignedRoles targetCurrentRoles appRoles with
  | Some role => Some role
  | None => forbidden_target actorRoles targetCurrentRoles
  end.

(** ** Lemmas *)

Lemma maxRoleRank_le roles bound :
  maxRoleRank roles ≤ bound ↔ -1 ≤ bound ∧ ∀ role rank, role ∈ roles → knownRoleRank role = Some rank → rank ≤ bound.
Proof.
  induction roles as [|r roles IH]; simpl.
  - split; [intros; split; [lia|]|tauto]. intros role rank Hin. by apply elem_of_nil in Hin.
  - rewrite Z.max_lub_iff, IH. split.
    + intros (Hr & Hb & Hall). split; [done|]. intros role rank [->|Hin]%elem_of_cons Hk; [by rewrite Hk in Hr|eauto].
    + intros (Hb & Hall). split_and!; [|done|].
      * destruct (knownRoleRank r) as [rank|] eqn:Hk; simpl; [|lia]. apply (Hall r rank); [left|done].
      * intros role rank Hin. apply Hall. by right.
Qed.

Lemma head_filter_None {A} (P : A → Prop) `{∀ x, Decision (P x)} (l : list A) :
  head (filter P l) = None ↔ ∀ x, x ∈ l → ¬ P x.
Proof.
  rewrite head_None. split.
  - intros Hf x Hin HP. assert (Hx : x ∈ filter P l) by by apply list_elem_of_filter.
    rewrite Hf in Hx. by apply elem_of_nil in Hx.
  - apply filter_keeps_none.
Qed.

Lemma rank_le_Some r a : rank_le r (Some a) = true ↔ ∃ x, r = Some x ∧ x ≤ a.
Proof. destruct r as [x|]; simpl; [rewrite Z.leb_le|]; naive_solver. Qed.

Lemma canActorAssignRole_builtin actorRoles role appRoles rank :
  knownRoleRank role = Some rank → canActorAssignRole actorRoles role appRoles = true → rank ≤ maxRoleRank actorRoles.
Proof.
  unfold canActorAssignRole, requiredAssignRank. intros -> (x & [= <-] & Hle)%rank_le_Some. done.
Qed.

Lemma findForbidden_None actorRoles assigned current appRoles :
  findForbiddenRoleAssignment actorRoles assigned current appRoles = None ↔
  (∀ role, role ∈ assigned → canActorAssignRole actorRoles role appRoles = true ∨
                             (knownRoleRank role = None ∧ role ∈ current)) ∧
  (∀ role rank, role ∈ current → knownRoleRank role = Some rank → rank ≤ maxRoleRank actorRoles).
Proof.
  unfold findForbiddenRoleAssignment.
  assert (Ht : forbidden_target actorRoles current = None ↔
    ∀ role rank, role ∈ current → knownRoleRank role = Some rank → rank ≤ maxRoleRank actorRoles).
  { unfold forbidden_target, outranks. rewrite head_filter_None. split.
    - intros H role rank Hin Hk. specialize (H role Hin). rewrite Hk, Z.ltb_lt in H. lia.
    - intros H role Hin. destruct (knownRoleRank role) as [rank|] eqn:Hk; [|done]. rewrite Z.ltb_lt.
      specialize (H role rank Hin Hk). lia. }
  assert (Ha : forbidden_assigned actorRoles assigned current appRoles = None ↔
    ∀ role, role ∈ assigned → canActorAssignRole actorRoles role appRoles = true ∨
                              (knownRoleRank role = None ∧ role ∈ current)).
  { unfold forbidden_assigned. rewrite head_filter_None. split; intros H role Hin; specialize (H role Hin).
    - destruct (canActorAssignRole actorRoles role appRoles); [by left|right].
      destruct (decide (knownRoleRank role = None ∧ role ∈ current)); [done|tauto].
    - destruct (canActorAssignRole actorRoles role appRoles); naive_solver. }
  rewrite <- Ht, <- Ha. destruct (forbidden_assigned _ _ _ _); naive_solver.
Qed.

Lemma elem_of_merged actorRoles assigned current appRoles role :
  role ∈ mergeAssignedRoles actorRoles assigned current appRoles ↔
  role ∈ assigned ∨ (role ∈ current ∧ canActorAssignRole actorRoles role appRoles = false).
Proof.
  unfold mergeAssignedRoles. rewrite elem_of_dedupe, elem_of_app, list_elem_of_filter.
  unfold includes. rewrite bool_decide_eq_false. destruct (decide (role ∈ assigned)); tauto.
Qed.

(** What a declaration can add. *)
Definition app_role_ok (role assignableFrom : string) : Prop :=
  role ≠ "" ∧ knownRoleRank role = None ∧ role ∉ PLATFORM_ROLE_NAMES ∧
  isForbiddenMembershipRole role = false ∧ assignableFrom ∈ ASSIGNABLE_FROM_ROLE_LIST.

Definition app_roles_ok (appRoles : AssignableAppRoles) : Prop :=
  ∀ role f, assoc_get role appRoles = Some f → app_role_ok role f.

Lemma declare_role_ok acc usage acc' :
  app_roles_ok acc → declare_role acc usage = Ok acc' →
  app_roles_ok acc' ∧ ∀ role f, assoc_get role acc = Some f → assoc_get role acc' = Some f.
Proof.
  unfold declare_role. intros Hacc H. set (name := eu_entityName usage) in *.
  destruct (bool_decide (name = "")) eqn:Hempty; [done|]. reflect_bools.
  destruct (_ || _) eqn:Hbuilt; [done|]. apply orb_false_iff in Hbuilt as [Hrank Hplat].
  destruct (isForbiddenMembershipRole name) eqn:Hforb; [done|].
  destruct (match eu_assignableFrom usage with Some v => _ | None => _ end) eqn:Hval; [done|].
  set (f := match eu_assignableFrom usage with Some (JStr s) => s | _ => _ end) in *.
  assert (Hf : app_role_ok name f).
  { unfold includes in Hplat. apply bool_decide_eq_false in Hrank, Hplat. split_and!; try done.
    - by apply eq_None_not_Some.
    - subst f. destruct (eu_assignableFrom usage) as [[]|]; try done; try (by apply (bool_decide_eq_true_1 _)).
      simpl in Hval. apply negb_false_iff, bool_decide_eq_true_1 in Hval. done. }
  assert (Hset : acc' = assoc_set name f acc ∧ (∀ f', assoc_get name acc = Some f' → f' = f)).
  { destruct (assoc_get name acc) as [g|] eqn:Hg; [case_bool_decide as Heq; [|done]|]; injection H as <-; naive_solver. }
  destruct Hset as [-> Hold]. split; intros role f0 Hr.
  - destruct (decide (role = name)) as [->|Hne].
    + rewrite assoc_get_set_eq in Hr. by injection Hr as <-.
    + rewrite assoc_get_set_ne in Hr by done. by apply Hacc.
  - destruct (decide (role = name)) as [->|Hne].
    + rewrite assoc_get_set_eq. by rewrite (Hold f0 Hr).
    + by rewrite assoc_get_set_ne.
Qed.

Lemma declare_roles_ok acc usages acc' :
  app_roles_ok acc → declare_roles acc usages = Ok acc' → app_roles_ok acc'.
Proof.
  revert acc. induction usages as [|u usages IH]; intros acc Hacc H; [by injection H as <-|].
  cbn [declare_roles] in H. apply result_bind_Ok in H as (acc1 & H1 & H2).
  by eapply IH; [eapply declare_role_ok|].
Qed.

Lemma appRoles_ok usages appRoles :
  assignableAppRolesFromUsages usages = Ok appRoles → app_roles_ok appRoles.
Proof. apply declare_roles_ok. by intros role f. Qed.

(** ** Properties *)

(** C35: a change of roles never escalates.  When the check lets an actor give a
    member the requested roles, the member outranks the actor neither before nor
    after; each role the member ends up with was already held or is one the
    actor may grant, so a platform role an app cannot declare is never newly
    granted; whatever the member may grant to others afterwards, the actor may
    grant too; and a role the member loses is one the actor may grant. *)
Theorem role_assignment_never_escalates usages appRoles actorRoles assigned current :
  assignableAppRolesFromUsages usages = Ok appRoles →
  findForbiddenRoleAssignment actorRoles assigned current appRoles = None →
  let after := mergeAssignedRoles actorRoles assigned current appRoles in
  maxRoleRank current ≤ maxRoleRank actorRoles ∧
  maxRoleRank after ≤ maxRoleRank actorRoles ∧
  (∀ role, role ∈ after → role ∈ current ∨ canActorAssignRole actorRoles role appRoles = true) ∧
  (∀ role, role ∈ after → role ∈ PLATFORM_ROLE_NAMES → knownRoleRank role = None → role ∈ current) ∧
  (∀ role, canActorAssignRole after role appRoles = true → canActorAssignRole actorRoles role appRoles = true) ∧
  (∀ role, role ∈ current → role ∉ after →
     canActorAssignRole actorRoles role appRoles = true ∧ role ∉ assigned).
Proof.
  intros Hdecl [Hassigned Hcurrent]%findForbidden_None after. apply appRoles_ok in Hdecl.
  assert (Hgrant : ∀ role, role ∈ after → role ∈ current ∨ canActorAssignRole actorRoles role appRoles = true).
  { intros role [Hin|[Hin _]]%elem_of_merged; [|by left]. destruct (Hassigned role Hin) as [|[_ ?]]; [by right|by left]. }
  assert (Hmin : -1 ≤ maxRoleRank actorRoles) by (apply (maxRoleRank_le actorRoles (maxRoleRank actorRoles)); lia).
  assert (Hafter : maxRoleRank after ≤ maxRoleRank actorRoles).
  { apply maxRoleRank_le. split; [lia|]. intros role rank [Hin|Hc]%Hgrant Hk; [specialize (Hcurrent role rank Hin Hk)|
      pose proof (canActorAssignRole_builtin _ _ _ _ Hk Hc)]; lia. }
  split_and!; [| exact Hafter | exact Hgrant | | |].
  - apply maxRoleRank_le. split; [lia|]. intros role rank Hin Hk. specialize (Hcurrent role rank Hin Hk). lia.
  - intros role Hin Hp Hk. destruct (Hgrant role Hin) as [|Hc]; [done|].
    unfold canActorAssignRole, requiredAssignRank in Hc. rewrite Hk in Hc.
    destruct (assoc_get role appRoles) as [f|] eqn:Hf; [|done]. by destruct (Hdecl role f Hf) as (_ & _ & Hnp & _).
  - unfold canActorAssignRole. intros role. rewrite !rank_le_Some. intros (x & Hx & Hle). exists x. split; [done|lia].
  - intros role Hin Hn. unfold after in Hn. rewrite elem_of_merged in Hn.
    destruct (canActorAssignRole actorRoles role appRoles); tauto.
Qed.

Definition demo_usages : list ExtensionUsage :=
  [mkUsage "Billing" None; mkUsage "Auditor" (Some (JStr "TenantAdmin")); mkUsage "Billing" (Some (JStr "Admin"))].

Definition demo_app_roles : AssignableAppRoles := [("Billing", "Admin"); ("Auditor", "TenantAdmin")].

(** An admin makes a member with a kept [Auditor] role a billing editor. *)
Lemma role_assignment_never_escalates_witness :
  mergeAssignedRoles ["Admin"] ["Editor"; "Billing"] ["Member"; "Auditor"] demo_app_roles = ["Editor"; "Billing"; "Auditor"] ∧
  maxRoleRank (mergeAssignedRoles ["Admin"] ["Editor"; "Billing"] ["Member"; "Auditor"] demo_app_roles) ≤ maxRoleRank ["Admin"].
Proof.
  split; [reflexivity|].
  exact (proj1 (proj2 (role_assignment_never_escalates demo_usages demo_app_roles ["Admin"] ["Editor"; "Billing"]
    ["Member"; "Auditor"] eq_refl eq_refl))).
Defined.
