(* ===== verification/TableInfo.v ===== *)
(** * Table descriptions

    [db/table-info.ts] on the metadata of [db/entity-table-meta-types.ts], with
    the name conversions it uses ([utils/case.ts], [env/internals.ts]).  Rows
    are keyed by field names (camel case) in the API and by column names
    (snake case) in SQL; a [TableInfo] maps both kinds of name to the column. *)

From S2P Require Import Prelude QualifiedName.
From Stdlib Require Import Ascii.

(** ** Case conversion *)

Fixpoint toSnakeCase (s : string) : string :=
  match s with
  | EmptyString => EmptyString
  | String c s' =>
      if Ascii.eqb c dash then String "_"%char (toSnakeCase s')
      else if is_upper c then String "_"%char (String (lower_ascii c) (toSnakeCase s'))
      else String c (toSnakeCase s')
  end.

Definition upper_ascii (c : ascii) : ascii :=
  let n := nat_of_ascii c in
  if (97 <=? n)%nat && (n <=? 122)%nat then ascii_of_nat (n - 32) else c.

Definition ucfirst (s : string) : string :=
  match s with EmptyString => EmptyString | String c s' => String (upper_ascii c) s' end.

Definition camelCase (snakeShout : string) : string :=
  match filter (λ w, w ≠ "") (split_on "_"%char (to_lower snakeShout)) with
  | [] => to_lower snakeShout
  | first :: rest => first +:+ join_with "" (ucfirst <$> rest)
  end.

Definition snakeToCamel (key : string) : string :=
  if string_includes "_"%char key then camelCase key else key.

(** ** Metadata *)

(** The SQL name of a column type. *)
Definition pgTypeToSqlType (pgType : string) : string :=
  if decide (pgType = "timestamptz") then "timestamp with time zone"
  else if decide (pgType = "timestamptz(3)") then "timestamp(3) with time zone" else pgType.

Record ColumnMeta := mkColumn {
  cm_name : string;
  cm_pgType : string;
  cm_primaryKey : bool }.

Record IndexMeta := mkIndex {
  ix_columns : list string;
  ix_unique : bool;
  ix_whereSql : option string;
  ix_needsManualWhere : bool }.

Record EntityTableMeta := mkMeta {
  tm_tableName : string;
  tm_columns : list ColumnMeta;
  tm_tenancy : option string;
  tm_indexes : list IndexMeta;
  tm_compositePrimaryKey : option (list string) }.

(** ** The maps of a table *)

Record TableInfo := mkTableInfo {
  ti_name : string;
  colByField : list (string * string);
  fieldByCol : list (string * string);
  typeByCol : list (string * string) }.

(** One column adds its own name and its camel-case form; [Map.set] of a known
    key replaces the value. *)
Definition add_column (info : TableInfo) (c : ColumnMeta) : TableInfo :=
  let camel := snakeToCamel (cm_name c) in
  let byField := assoc_set (cm_name c) (cm_name c) (colByField info) in
  mkTableInfo (ti_name info)
    (if decide (camel = cm_name c) then byField else assoc_set camel (cm_name c) byField)
    (assoc_set (cm_name c) camel (fieldByCol info))
    (assoc_set (cm_name c) (cm_pgType c) (typeByCol info)).

Definition extractTableInfo (meta : EntityTableMeta) : TableInfo :=
  foldl add_column (mkTableInfo (tm_tableName meta) [] [] []) (tm_columns meta).

Definition columnOf (info : TableInfo) (field : string) : string :=
  default (toSnakeCase field) (assoc_get field (colByField info)).

Definition pgTypeOf (info : TableInfo) (column : string) : option string :=
  assoc_get column (typeByCol info).

Definition fieldOf (info : TableInfo) (column : string) : string :=
  default (snakeToCamel column) (assoc_get column (fieldByCol info)).

Definition has_key {V} (k : string) (m : list (string * V)) : bool :=
  match assoc_get k m with Some _ => true | None => false end.

Definition hasColumn (info : TableInfo) (fieldOrColumn : string) : bool :=
  has_key fieldOrColumn (colByField info) || has_key fieldOrColumn (fieldByCol info).

(** ** Lemmas *)

Lemma assoc_get_set {V} k k' (v : V) m :
  assoc_get k (assoc_set k' v m) = if decide (k = k') then Some v else assoc_get k m.
Proof. case_decide; subst; [apply assoc_get_set_eq|by apply assoc_get_set_ne]. Qed.

(** A column name or field name resolves to a column of the table. *)
Lemma columnOf_column meta field column :
  assoc_get field (colByField (extractTableInfo meta)) = Some column →
  column ∈ cm_name <$> tm_columns meta.
Proof.
  unfold extractTableInfo. set (i0 := mkTableInfo _ [] [] []).
  assert (H0 : ∀ f c, assoc_get f (colByField i0) = Some c → c ∈ cm_name <$> tm_columns meta) by done.
  revert H0. generalize i0. clear i0.
  assert (Hall : ∀ c, c ∈ tm_columns meta → cm_name c ∈ cm_name <$> tm_columns meta)
    by (intros; by apply list_elem_of_fmap_2).
  revert Hall. generalize (cm_name <$> tm_columns meta) as names.
  induction (tm_columns meta) as [|c cs IH]; intros names Hall info H0; simpl; [apply H0|].
  apply IH; [set_solver|]. intros f col. unfold add_column. simpl.
  assert (Hc : cm_name c ∈ names) by (apply Hall; set_solver).
  destruct (decide (snakeToCamel (cm_name c) = cm_name c)); rewrite ?assoc_get_set;
    repeat case_decide; intros; simplify_eq; eauto.
Qed.

Lemma typeByCol_foldl cs info column :
  column ∉ cm_name <$> cs →
  assoc_get column (typeByCol (foldl add_column info cs)) = assoc_get column (typeByCol info).
Proof.
  revert info. induction cs as [|c cs IH]; intros info Hn; [done|]. simpl.
  rewrite IH by set_solver. simpl. rewrite assoc_get_set, decide_False; [done|set_solver].
Qed.

Example snakeToCamel_tenant : snakeToCamel "tenant_id" = "tenantId".
Proof. reflexivity. Qed.

Example snakeToCamel_keeps_camel : snakeToCamel "tenantId" = "tenantId".
Proof. reflexivity. Qed.
