(* ===== verification/TransitionGuard.v ===== *)
(** * State machines and the transition guard

    [engine/state-machine.ts], [pipeline/write-transition-guard.ts] and the
    validation of declared transitions in
    [engine/boot-validator/entity-handler.ts].  The registry is given by its
    lookups; [readRow] is what the guard's SELECT returns.  Values of rows and
    payloads are JSON values, because the guard compares what it finds. *)

From Stdlib Require Import Ascii.
From S2P Require Import Prelude QualifiedName TableInfo Ownership FieldAccess.

(** ** Transition graphs *)

Definition TransitionMap : Type := list (string * list string).

Notation TransitionGraph := (gmap string (list string)) (only parsing).

Definition defineTransitions (m : TransitionMap) : TransitionGraph :=
  foldl (λ g ft, <[ft.1 := dedupe ft.2]> g) ∅ m.

(** [internal.get(v)] for any value [v]. *)
Definition targets_of (g : TransitionGraph) (from : option Json) : option (list string) :=
  match from with Some (JStr s) => g !! s | _ => None end.

Definition set_has (targets : list string) (to : option Json) : bool :=
  match to with Some (JStr s) => includes targets s | _ => false end.

Definition canTransition (g : TransitionGraph) (from to : option Json) : bool :=
  match targets_of g from with Some targets => set_has targets to | None => false end.

Definition allowedFrom (g : TransitionGraph) (from : option Json) : list string :=
  default [] (targets_of g from).

Record InvalidTransition := mkInvalid {
  it_from : option Json;
  it_to : option Json;
  it_allowed : list string }.

Definition assertTransition (g : TransitionGraph) (from to : option Json) : result InvalidTransition () :=
  if canTransition g from to then Ok ()
  else Err (mkInvalid from to (allowedFrom g from)).

Definition guardTransition (g : TransitionGraph) (from to : option Json) : result InvalidTransition () :=
  assertTransition g from to.

(** ** Validation at boot *)

Record EntityDef := mkEntityDef {
  en_fields : list (string * option (list string));
  en_transitions : option (list (string * TransitionMap));
  en_softDelete : bool }.

Inductive TransitionRuleError :=
| TransitionUnknownField (field : string)
| TransitionFieldNotSelect (field : string)
| TransitionStateNotOption (field from : string)
| TransitionTargetNotOption (field from to : string).

Fixpoint first_error {A E} (check : A → option E) (l : list A) : option E :=
  match l with
  | [] => None
  | x :: rest => match check x with Some e => Some e | None => first_error check rest end
  end.

Definition check_state (field : string) (options : list string) (ft : string * list string)
    : option TransitionRuleError :=
  if includes options ft.1
  then first_error (λ to, if includes options to then None
                          else Some (TransitionTargetNotOption field ft.1 to)) ft.2
  else Some (TransitionStateNotOption field ft.1).

(** A field is [None] options unless it is a select. *)
Definition check_transition_field (entity : EntityDef) (fm : string * TransitionMap)
    : option TransitionRuleError :=
  match assoc_get fm.1 (en_fields entity) with
  | None => Some (TransitionUnknownField fm.1)
  | Some None => Some (TransitionFieldNotSelect fm.1)
  | Some (Some options) => first_error (check_state fm.1 options) fm.2
  end.

Definition validateTransitions (entities : list (string * EntityDef)) : option TransitionRuleError :=
  first_error (λ ne, match en_transitions ne.2 with
                     | None => None
                     | Some fields => first_error (check_transition_field ne.2) fields
                     end) entities.

(** ** The guard *)

(** [!v] *)
Definition falsy (v : option Json) : bool :=
  match v with
  | None | Some JNull | Some (JBool false) | Some (JNum 0) | Some (JStr "") => true
  | _ => false
  end.

(** [v[key]] and [a ?? b]. *)
Definition prop_of (v : Json) (key : string) : option Json :=
  match v with JObj kvs => assoc_get key kvs | _ => None end.

Definition nullish (a b : option Json) : option Json :=
  match a with None | Some JNull => b | _ => a end.

Notation TransitionCache := (gmap string (gmap string (list string))) (only parsing).

Definition transition_key (entityName fieldName : string) : string := colon_join entityName fieldName.

Definition getTransitions (cache : TransitionCache) (entityName fieldName : string) (m : TransitionMap)
    : TransitionGraph * TransitionCache :=
  match cache !! transition_key entityName fieldName with
  | Some cached => (cached, cache)
  | None => let transitions := defineTransitions m in
            (transitions, <[transition_key entityName fieldName := transitions]> cache)
  end.

Definition current_value (row : Row) (fieldName : string) : option Json :=
  nullish (assoc_get fieldName row) (assoc_get (toSnakeCase fieldName) row).

Definition is_deleted (row : Row) : bool :=
  match nullish (assoc_get "isDeleted" row) (assoc_get "is_deleted" row) with
  | Some (JBool true) => true
  | _ => false
  end.

(** [===], where [undefined] equals itself. *)
Definition same_value (a b : option Json) : bool :=
  match a, b with
  | Some x, Some y => strict_equals x y
  | None, None => true
  | _, _ => false
  end.

Definition payload_changes (payload : Row) : Json :=
  match assoc_get "changes" payload with None | Some JNull => JObj payload | Some v => v end.

Definition payload_id (payload : Row) : option Json := nullish (assoc_get "id" payload) None.

Section guard.
Context (getHandlerEntity : string → option string) (getEntity : string → option EntityDef)
  (readRow : string → Json → option Row).

Definition getTable (entityName : string) : bool := bool_decide (is_Some (getEntity entityName)).

Definition guardFieldTransition (cache : TransitionCache) (entityName : string) (entity : EntityDef)
    (changes : Json) (id : option Json) (fm : string * TransitionMap)
    : result InvalidTransition () * TransitionCache :=
  let newValue := prop_of changes fm.1 in
  match id with
  | Some rowId =>
      if falsy newValue || falsy id then (Ok (), cache)
      else if negb (getTable entityName) then (Ok (), cache)
      else match readRow entityName rowId with
           | None => (Ok (), cache)
           | Some row =>
               if en_softDelete entity && is_deleted row then (Ok (), cache)
               else
                 let currentValue := current_value row fm.1 in
                 if same_value currentValue newValue then (Ok (), cache)
                 else let '(transitions, cache') := getTransitions cache entityName fm.1 fm.2 in
                      (guardTransition transitions currentValue newValue, cache')
           end
  | None => (Ok (), cache)
  end.

Fixpoint guard_fields (cache : TransitionCache) (entityName : string) (entity : EntityDef)
    (changes : Json) (id : option Json) (fields : list (string * TransitionMap))
    : result InvalidTransition () * TransitionCache :=
  match fields with
  | [] => (Ok (), cache)
  | fm :: rest =>
      match guardFieldTransition cache entityName entity changes id fm with
      | (Ok _, cache') => guard_fields cache' entityName entity changes id rest
      | (Err e, cache') => (Err e, cache')
      end
  end.

Definition guardAutoTransitions (cache : TransitionCache) (unsafeSkipTransitionGuard hasDb : bool)
    (type : string) (payload : Row) : result InvalidTransition () * TransitionCache :=
  match getHandlerEntity type with
  | None => (Ok (), cache)
  | Some entityName =>
      if unsafeSkipTransitionGuard then (Ok (), cache)
      else match getEntity entityName with
           | None => (Ok (), cache)
           | Some entity =>
               match en_transitions entity with
               | None => (Ok (), cache)
               | Some fields =>
                   if negb hasDb then (Ok (), cache)
                   else guard_fields cache entityName entity (payload_changes payload)
                          (payload_id payload) fields
               end
           end
  end.
End guard.

(** ** Specification *)

(** The declared edges of a field. *)
Definition edge (m : TransitionMap) (from to : option Json) : Prop :=
  ∃ f t targets, from = Some (JStr f) ∧ to = Some (JStr t) ∧ (f, targets) ∈ m ∧ t ∈ targets.

(** A map is a JavaScript object: one entry for each state. *)
Definition map_ok (m : TransitionMap) : Prop := NoDup m.*1.

Definition fields_ok (fields : list (string * TransitionMap)) : Prop :=
  NoDup fields.*1 ∧ Forall (λ fm, map_ok fm.2) fields.

(** What the guard demands of one field: a write of a value to a stored row that
    is not deleted moves along an edge or not at all. *)
Definition field_passes (readRow : string → Json → option Row) (entityName : string) (entity : EntityDef)
    (changes : Json) (id : option Json) (fm : string * TransitionMap) : Prop :=
  ∀ rowId row, id = Some rowId → falsy id = false → falsy (prop_of changes fm.1) = false →
    readRow entityName rowId = Some row → en_softDelete entity && is_deleted row = false →
    same_value (current_value row fm.1) (prop_of changes fm.1) = true ∨
    edge fm.2 (current_value row fm.1) (prop_of changes fm.1).

(** Every cached graph is the graph of its field. *)
Definition cache_ok (getEntity : string → option EntityDef) (cache : TransitionCache) : Prop :=
  ∀ entityName entity fields field m g,
    getEntity entityName = Some entity → en_transitions entity = Some fields → (field, m) ∈ fields →
    cache !! transition_key entityName field = Some g → g = defineTransitions m.

Definition registry_ok (getEntity : string → option EntityDef) : Prop :=
  ∀ entityName entity fields, getEntity entityName = Some entity → en_transitions entity = Some fields →
    index_of colon entityName = None ∧ fields_ok fields.

(** ** Lemmas *)

Lemma defineTransitions_lookup m s :
  map_ok m → defineTransitions m !! s = dedupe <$> assoc_get s m.
Proof.
  intros Hm. unfold defineTransitions.
  assert (Hgen : ∀ (g : TransitionGraph), foldl (λ g ft, <[ft.1 := dedupe ft.2]> g) g m !! s =
            match assoc_get s m with Some ts => Some (dedupe ts) | None => g !! s end).
  { revert Hm. induction m as [|[f ts] m IH]; intros Hm g; [done|]. unfold map_ok in *. cbn [fmap list_fmap] in Hm.
    apply NoDup_cons in Hm as [Hf Hm]. cbn [foldl]. rewrite IH by done. cbn [assoc_get fst snd].
    destruct (decide (f = s)) as [->|Hne].
    - assert (Hn : assoc_get s m = None) by by apply assoc_get_None. by rewrite Hn, lookup_insert_eq.
    - destruct (assoc_get s m); [done|]. by apply lookup_insert_ne. }
  rewrite Hgen. by destruct (assoc_get s m).
Qed.

Lemma elem_of_assoc_get {V} k (v : V) m : NoDup m.*1 → (k, v) ∈ m → assoc_get k m = Some v.
Proof.
  induction m as [|[k' v'] m IH]; intros Hnd Hin; [by apply elem_of_nil in Hin|].
  cbn in Hnd. apply NoDup_cons in Hnd as [Hk Hnd]. cbn [assoc_get].
  apply elem_of_cons in Hin as [[= <- <-]|Hin]; [by rewrite decide_True|].
  rewrite decide_False; [by apply IH|]. intros ->. apply Hk. by apply (list_elem_of_fmap_2 fst) in Hin.
Qed.

Lemma canTransition_edge m from to : map_ok m → canTransition (defineTransitions m) from to = true ↔ edge m from to.
Proof.
  intros Hm. unfold canTransition, edge, targets_of. split.
  - destruct from as [[| | |f| |]|]; try done. rewrite defineTransitions_lookup by done.
    destruct (assoc_get f m) as [ts|] eqn:Hf; [|done]. cbn. destruct to as [[| | |t| |]|]; try done.
    cbn. unfold includes. rewrite bool_decide_eq_true, elem_of_dedupe. intros Ht.
    exists f, t, ts. split_and!; try done. by apply assoc_get_elem_of.
  - intros (f & t & ts & -> & -> & Hf & Ht). rewrite defineTransitions_lookup by done.
    rewrite (elem_of_assoc_get f ts m) by done. cbn. unfold includes. by rewrite bool_decide_eq_true, elem_of_dedupe.
Qed.

Lemma first_error_None {A E} (check : A → option E) l : first_error check l = None ↔ ∀ x, x ∈ l → check x = None.
Proof.
  induction l as [|x l IH]; cbn [first_error]; [set_solver|]. destruct (check x) as [e|] eqn:Hx.
  - split; [done|]. intros H. rewrite (H x) in Hx by left. done.
  - rewrite IH. set_solver.
Qed.

Section guard_lemmas.
Context (getEntity : string → option EntityDef) (readRow : string → Json → option Row) (Hreg : registry_ok getEntity).
#[local] Set Default Proof Using "Type*".

Lemma transition_key_inj e1 e2 f1 f2 d1 d2 fs1 fs2 :
  getEntity e1 = Some d1 → en_transitions d1 = Some fs1 → getEntity e2 = Some d2 → en_transitions d2 = Some fs2 →
  transition_key e1 f1 = transition_key e2 f2 → e1 = e2 ∧ f1 = f2.
Proof.
  intros H1 H1' H2 H2'. apply colon_join_inj; [by destruct (Hreg e1 d1 fs1)|by destruct (Hreg e2 d2 fs2)].
Qed.

Lemma getTransitions_ok cache entityName entity fields field m :
  getEntity entityName = Some entity → en_transitions entity = Some fields → (field, m) ∈ fields →
  cache_ok getEntity cache →
  let '(g, cache') := getTransitions cache entityName field m in
  g = defineTransitions m ∧ cache_ok getEntity cache'.
Proof.
  intros He Hf Hin Hc. unfold getTransitions.
  destruct (cache !! transition_key entityName field) as [g|] eqn:Hg; [split; [by eapply Hc|done]|].
  split; [done|]. intros e2 d2 fs2 f2 m2 g2 He2 Hf2 Hin2 Hg2.
  apply lookup_insert_Some in Hg2 as [[Hk <-]|[_ Hg2]]; [|by eapply Hc].
  destruct (transition_key_inj _ _ _ _ _ _ _ _ He Hf He2 Hf2 Hk) as [<- <-].
  rewrite He in He2. injection He2 as <-. rewrite Hf in Hf2. injection Hf2 as <-.
  destruct (Hreg _ _ _ He Hf) as (_ & Hnd & _).
  assert (Hsame : Some m = Some m2) by (rewrite <- (elem_of_assoc_get field m fields), <- (elem_of_assoc_get field m2 fields); done).
  by injection Hsame as ->.
Qed.

Lemma guardFieldTransition_spec cache entityName entity fields fm changes id :
  getEntity entityName = Some entity → en_transitions entity = Some fields → fm ∈ fields → cache_ok getEntity cache →
  let '(r, cache') := guardFieldTransition getEntity readRow cache entityName entity changes id fm in
  cache_ok getEntity cache' ∧
  match r with
  | Ok _ => field_passes readRow entityName entity changes id fm
  | Err e => ¬ field_passes readRow entityName entity changes id fm ∧
      ∃ rowId row, id = Some rowId ∧ readRow entityName rowId = Some row ∧
        e = mkInvalid (current_value row fm.1) (prop_of changes fm.1)
              (allowedFrom (defineTransitions fm.2) (current_value row fm.1))
  end.
Proof.
  intros He Hf Hin Hc. unfold guardFieldTransition, field_passes.
  destruct id as [rowId|]; [|done]. destruct (falsy (prop_of changes fm.1) || falsy (Some rowId)) eqn:Hfalsy.
  { split; [done|]. intros ? ? _ H1 H2. by rewrite H1, H2 in Hfalsy. }
  apply orb_false_iff in Hfalsy as [Hnv Hid]. unfold getTable. rewrite bool_decide_true by by eexists. cbn [negb].
  destruct (readRow entityName rowId) as [row|] eqn:Hrow; [|split; [done|naive_solver]].
  destruct (en_softDelete entity && is_deleted row) eqn:Hdel; [split; [done|]; intros ? ? [= <-] _ _ Hr; congruence|].
  destruct (same_value (current_value row fm.1) (prop_of changes fm.1)) eqn:Hsame.
  { split; [done|]. intros ? ? [= <-] _ _ Hr _. left. congruence. }
  destruct fm as [field m]. cbn [fst snd] in *.
  pose proof (getTransitions_ok cache entityName entity fields field m He Hf Hin Hc) as Hg.
  destruct (getTransitions cache entityName field m) as [g cache']. destruct Hg as [-> Hc']. split; [done|].
  destruct (Hreg _ _ _ He Hf) as (_ & _ & Hmaps). rewrite Forall_forall in Hmaps. specialize (Hmaps _ Hin). cbn in Hmaps.
  unfold guardTransition, assertTransition. pose proof (canTransition_edge m (current_value row field) (prop_of changes field) Hmaps) as Hedge.
  destruct (canTransition _ _ _).
  - intros ? ? [= <-] _ _ Hr _. right. rewrite Hrow in Hr. injection Hr as <-. by apply Hedge.
  - split; [|by exists rowId, row]. intros H. destruct (H rowId row) as [Hs|He']; try done; [congruence|].
    apply Hedge in He'. done.
Qed.

Lemma guard_fields_spec cache entityName entity all fields changes id :
  getEntity entityName = Some entity → en_transitions entity = Some all → (∀ fm, fm ∈ fields → fm ∈ all) →
  cache_ok getEntity cache →
  let '(r, cache') := guard_fields getEntity readRow cache entityName entity changes id fields in
  cache_ok getEntity cache' ∧
  match r with
  | Ok _ => ∀ fm, fm ∈ fields → field_passes readRow entityName entity changes id fm
  | Err e => ∃ pre fm post, fields = pre ++ fm :: post ∧
      (∀ fm', fm' ∈ pre → field_passes readRow entityName entity changes id fm') ∧
      ¬ field_passes readRow entityName entity changes id fm ∧
      ∃ rowId row, id = Some rowId ∧ readRow entityName rowId = Some row ∧
        e = mkInvalid (current_value row fm.1) (prop_of changes fm.1)
              (allowedFrom (defineTransitions fm.2) (current_value row fm.1))
  end.
Proof.
  intros He Hf. revert cache. induction fields as [|fm fields IH]; intros cache Hin Hc; cbn [guard_fields].
  { split; [done|]. intros fm Hfm. by apply elem_of_nil in Hfm. }
  pose proof (guardFieldTransition_spec cache entityName entity all fm changes id He Hf (Hin fm ltac:(left)) Hc) as H1.
  destruct (guardFieldTransition _ _ _ _ _ _ _ _) as [[[]|e] cache1]; destruct H1 as [Hc1 H1].
  - specialize (IH cache1 (λ fm' H, Hin fm' ltac:(by right)) Hc1). destruct (guard_fields _ _ _ _ _ _ _ _) as [[u|e] cache2].
    + destruct IH as [Hc2 IH]. split; [done|]. intros fm' [->|Hfm]%elem_of_cons; [done|by apply IH].
    + destruct IH as (Hc2 & pre & fm2 & post & -> & Hpre & Hn & Hrest). split; [done|].
      exists (fm :: pre), fm2, post. split_and!; [done| |exact Hn|exact Hrest]. intros fm' [->|Hfm]%elem_of_cons; [done|by apply Hpre].
  - destruct H1 as [Hn Hrest]. split; [done|]. exists [], fm, fields.
    split_and!; [done| |exact Hn|exact Hrest]. intros fm' Hfm. by apply elem_of_nil in Hfm.
Qed.
End guard_lemmas.

(** ** Properties *)

(** The guard decides exactly by the declared edges.  Whatever the cache
    holds of graphs built before, a write passes exactly when each state field it
    sets to a value, on a stored row that is not deleted, keeps its value or
    moves along a declared edge; otherwise the error names the first field that
    does not, its stored value, the requested one and the states allowed from
    the stored one.  The cache stays right for every entity. *)
Theorem guard_decides_by_the_edges getHandlerEntity getEntity readRow cache type payload entityName entity fields :
  registry_ok getEntity → cache_ok getEntity cache →
  getHandlerEntity type = Some entityName → getEntity entityName = Some entity →
  en_transitions entity = Some fields →
  let passes := field_passes readRow entityName entity (payload_changes payload) (payload_id payload) in
  let '(r, cache') := guardAutoTransitions getHandlerEntity getEntity readRow cache false true type payload in
  cache_ok getEntity cache' ∧
  match r with
  | Ok _ => ∀ fm, fm ∈ fields → passes fm
  | Err e => ∃ pre fm post, fields = pre ++ fm :: post ∧ (∀ fm', fm' ∈ pre → passes fm') ∧ ¬ passes fm ∧
      ∃ rowId row, payload_id payload = Some rowId ∧ readRow entityName rowId = Some row ∧
        e = mkInvalid (current_value row fm.1) (prop_of (payload_changes payload) fm.1)
              (allowedFrom (defineTransitions fm.2) (current_value row fm.1))
  end.
Proof.
  intros Hreg Hc Hh He Hf passes. unfold guardAutoTransitions. rewrite Hh, He, Hf. cbn [negb].
  by apply (guard_fields_spec getEntity readRow Hreg cache entityName entity fields).
Qed.

(** A write of a stored row that is not deleted, whose handler passed the guard
    and then kept the old value of the field if none was submitted, and stored
    the submitted one otherwise: a value, or null or the empty string, which
    empty the field. *)
Inductive guarded_write (getHandlerEntity : string → option string) (getEntity : string → option EntityDef)
    (type field : string) : Row → Row → Prop :=
| guarded_write_intro cache cache' payload row row' :
    cache_ok getEntity cache →
    guardAutoTransitions getHandlerEntity getEntity (λ _ _, Some row) cache false true type payload = (Ok (), cache') →
    falsy (payload_id payload) = false → is_deleted row = false →
    match prop_of (payload_changes payload) field with
    | None => current_value row' field = current_value row field
    | Some v => if falsy (Some v) then falsy (current_value row' field) = true
                else current_value row' field = Some v
    end →
    guarded_write getHandlerEntity getEntity type field row row'.

(** What became of a value: it followed the graph, from where it started or from
    the last time it was emptied. *)
Definition follows_from (m : TransitionMap) (v v' : option Json) : Prop :=
  rtc (edge m) v v' ∨ ∃ e, falsy e = true ∧ rtc (edge m) e v'.

Lemma follows_step m v1 v2 v3 : follows_from m v1 v2 → v3 = v2 ∨ edge m v2 v3 ∨ falsy v3 = true → follows_from m v1 v3.
Proof.
  intros Hf [->|[He|Hv]]; [done| |right; by exists v3].
  destruct Hf as [Hf|(e & Hf & Hr)]; [left; by eapply rtc_r|right; exists e; split; [done|by eapply rtc_r]].
Qed.

Lemma same_value_eq a b : same_value a b = true → a = b.
Proof.
  destruct a as [[]|], b as [[]|]; simpl; try done; intros H; try done.
  - apply eqb_prop in H. by subst.
  - apply Z.eqb_eq in H. by subst.
  - apply bool_decide_eq_true in H. by subst.
Qed.

(** What one accepted write does to the field. *)
Lemma guarded_write_step getHandlerEntity getEntity type entityName entity fields field m row row' :
  registry_ok getEntity → getHandlerEntity type = Some entityName → getEntity entityName = Some entity →
  en_transitions entity = Some fields → (field, m) ∈ fields →
  guarded_write getHandlerEntity getEntity type field row row' →
  current_value row' field = current_value row field ∨ edge m (current_value row field) (current_value row' field) ∨
  falsy (current_value row' field) = true.
Proof.
  intros Hreg Hh He Hf Hin [cache cache' payload row0 row1 Hc Hg Hid Hdel Hstore].
  unfold guardAutoTransitions in Hg. rewrite Hh, He, Hf in Hg. cbn [negb] in Hg.
  pose proof (guard_fields_spec getEntity (λ _ _, Some row0) Hreg cache entityName entity fields fields
    (payload_changes payload) (payload_id payload) He Hf (λ _ H, H) Hc) as Hspec.
  rewrite Hg in Hspec. destruct Hspec as [_ Hpass]. specialize (Hpass _ Hin).
  destruct (prop_of (payload_changes payload) field) as [v|] eqn:Hv; [|by left].
  destruct (falsy (Some v)) eqn:Hnv; [by right; right|]. rewrite Hstore.
  destruct (payload_id payload) as [rowId|] eqn:Hpid; [|done].
  destruct (Hpass rowId row0 eq_refl Hid) as [Hs|Hedge]; cbn [fst snd]; rewrite ?Hv; [done..|by rewrite Hdel, andb_false_r| |].
  - left. cbn [fst] in Hs. rewrite Hv in Hs. by rewrite (same_value_eq _ _ Hs).
  - right; left. cbn [fst snd] in Hedge. by rewrite Hv in Hedge.
Qed.

(** An edge of a graph the boot validation accepted ends in one of the options. *)
Lemma validated_edges entityName entity fields field m :
  en_transitions entity = Some fields → (field, m) ∈ fields → validateTransitions [(entityName, entity)] = None →
  ∃ options, assoc_get field (en_fields entity) = Some (Some options) ∧
    ∀ v v', rtc (edge m) v v' → v' = v ∨ ∃ s, v' = Some (JStr s) ∧ s ∈ options.
Proof.
  intros Hf Hin Hval. unfold validateTransitions in Hval. rewrite first_error_None in Hval. specialize (Hval _ ltac:(left)).
  cbn [snd] in Hval. rewrite Hf, first_error_None in Hval. specialize (Hval _ Hin). unfold check_transition_field in Hval.
  cbn [fst snd] in Hval. destruct (assoc_get field (en_fields entity)) as [[options|]|]; [|done|done].
  exists options. split; [done|]. intros v v' Hr. induction Hr as [v|v1 v2 v3 Hedge _ [->|IH]]; [by left| |by right].
  right. destruct Hedge as (f & t & targets & _ & -> & Hft & Ht). exists t. split; [done|].
  rewrite first_error_None in Hval. specialize (Hval _ Hft). unfold check_state in Hval. cbn [fst snd] in Hval.
  destruct (includes options f); [|done]. rewrite first_error_None in Hval. specialize (Hval _ Ht). cbn in Hval.
  destruct (includes options t) eqn:Hi; [|done]. unfold includes in Hi. by apply bool_decide_eq_true in Hi.
Qed.

(** C36: state fields are type safe over a row's life, up to being emptied.  Along
    any sequence of writes that pass the guard on a stored row that is not
    deleted, each of which keeps the field, stores the submitted value, or
    empties the field (null or the empty string, which the guard lets pass from
    any state), the value follows the declared graph from where it started or
    from the last emptying.  If the boot validation accepted the entity, a value
    that was one of the field's options is an option or empty forever. *)
Theorem guarded_rows_follow_the_graph getHandlerEntity getEntity type entityName entity fields field m row row' :
  registry_ok getEntity → getHandlerEntity type = Some entityName → getEntity entityName = Some entity →
  en_transitions entity = Some fields → (field, m) ∈ fields →
  validateTransitions [(entityName, entity)] = None →
  rtc (guarded_write getHandlerEntity getEntity type field) row row' →
  follows_from m (current_value row field) (current_value row' field) ∧
  ∃ options, assoc_get field (en_fields entity) = Some (Some options) ∧
    ((∃ s, current_value row field = Some (JStr s) ∧ s ∈ options) →
     falsy (current_value row' field) = true ∨ ∃ s, current_value row' field = Some (JStr s) ∧ s ∈ options).
Proof.
  intros Hreg Hh He Hf Hin Hval Hrun.
  assert (Hpath : follows_from m (current_value row field) (current_value row' field)).
  { revert row' Hrun. apply rtc_ind_r; [left; apply rtc_refl|]. intros row1 row2 _ Hw IH.
    eapply follows_step; [exact IH|]. by eapply guarded_write_step. }
  split; [exact Hpath|]. destruct (validated_edges _ _ _ _ _ Hf Hin Hval) as (options & Ho & Hends).
  exists options. split; [done|]. intros Hs. destruct Hpath as [Hp|(e & Hfalsy & Hp)]; destruct (Hends _ _ Hp) as [Heq|?]; auto.
  - right. by rewrite Heq.
  - left. by rewrite Heq.
Qed.

(** The guard takes an empty value for an absent one, so a state field can be
    cleared from any state. *)
Lemma clearing_a_state_is_not_guarded getHandlerEntity getEntity readRow cache type id field :
  (∀ entityName entity fields, getHandlerEntity type = Some entityName → getEntity entityName = Some entity →
     en_transitions entity = Some fields → fields.*1 = [field]) →
  guardAutoTransitions getHandlerEntity getEntity readRow cache false true type
    [("id", id); ("changes", JObj [(field, JNull)])] = (Ok (), cache).
Proof.
  intros Hone. unfold guardAutoTransitions. destruct (getHandlerEntity type) as [entityName|]; [|done].
  destruct (getEntity entityName) as [entity|] eqn:He; [|done]. destruct (en_transitions entity) as [fields|] eqn:Hf; [|done].
  specialize (Hone _ _ _ eq_refl He Hf). destruct fields as [|[f m] [|]]; try done. injection Hone as ->.
  cbn [negb guard_fields]. unfold guardFieldTransition. cbn [fst].
  change (payload_changes _) with (JObj [(field, JNull)]).
  assert (Hnone : falsy (prop_of (JObj [(field, JNull)]) field) = true) by (cbn; by rewrite decide_True).
  rewrite Hnone. by destruct (payload_id _).
Qed.

(** ** Witnesses *)

Definition order_map : TransitionMap := [("draft", ["sent"]); ("sent", ["paid"; "void"]); ("paid", []); ("void", [])].

Definition order_entity : EntityDef :=
  mkEntityDef [("status", Some ["draft"; "sent"; "paid"; "void"])] (Some [("status", order_map)]) true.

Definition order_registry (name : string) : option EntityDef := if decide (name = "order") then Some order_entity else None.
Definition order_handler (_ : string) : option string := Some "order".

Lemma order_registry_ok : registry_ok order_registry.
Proof.
  intros name entity fields He Hf. unfold order_registry in He. case_decide as Hn; [|done]. subst name.
  injection He as <-. injection Hf as <-. split; [reflexivity|]. split; [apply (bool_decide_eq_true_1 _); reflexivity|].
  apply Forall_singleton. apply (bool_decide_eq_true_1 _). reflexivity.
Qed.

Lemma empty_cache_ok getEntity : cache_ok getEntity ∅.
Proof. intros e d fs f m g _ _ _ Hg. by rewrite lookup_empty in Hg. Qed.

Definition status_row (s : string) : Row := [("id", JStr "o1"); ("status", JStr s)].

Definition set_status (s : string) : Row := [("id", JStr "o1"); ("changes", JObj [("status", JStr s)])].

Lemma guard_decides_by_the_edges_witness :
  (guardAutoTransitions order_handler order_registry (λ _ _, Some (status_row "sent")) ∅ false true "shop:write:order"
     (set_status "draft")).1 = Err (mkInvalid (Some (JStr "sent")) (Some (JStr "draft")) ["paid"; "void"]) ∧
  cache_ok order_registry (guardAutoTransitions order_handler order_registry (λ _ _, Some (status_row "sent")) ∅
     false true "shop:write:order" (set_status "draft")).2.
Proof.
  split; [reflexivity|].
  pose proof (guard_decides_by_the_edges order_handler order_registry (λ _ _, Some (status_row "sent")) ∅ "shop:write:order"
    (set_status "draft") "order" order_entity [("status", order_map)] order_registry_ok (empty_cache_ok _)
    eq_refl eq_refl eq_refl) as H. cbv zeta in H.
  destruct (guardAutoTransitions _ _ _ _ _ _ _ _) as [r cache']. exact (proj1 H).
Defined.

Lemma send_order : guarded_write order_handler order_registry "shop:write:order" "status" (status_row "draft") (status_row "sent").
Proof.
  apply (guarded_write_intro _ _ _ _ ∅ (guardAutoTransitions order_handler order_registry (λ _ _, Some (status_row "draft")) ∅
    false true "shop:write:order" (set_status "sent")).2 (set_status "sent")).
  - apply empty_cache_ok.
  - reflexivity.
  - reflexivity.
  - reflexivity.
  - reflexivity.
Qed.

(** From any state a write may empty the field. *)
Lemma empty_order : guarded_write order_handler order_registry "shop:write:order" "status" (status_row "sent") [("id", JStr "o1"); ("status", JNull)].
Proof.
  apply (guarded_write_intro _ _ _ _ ∅ ∅ [("id", JStr "o1"); ("changes", JObj [("status", JNull)])]); try reflexivity. apply empty_cache_ok.
Qed.

Lemma guarded_rows_follow_the_graph_witness :
  follows_from order_map (Some (JStr "draft")) (Some (JStr "sent")) ∧
  follows_from order_map (Some (JStr "draft")) (Some JNull).
Proof.
  split; [|exact (proj1 (guarded_rows_follow_the_graph order_handler order_registry "shop:write:order" "order" order_entity
    [("status", order_map)] "status" order_map (status_row "draft") [("id", JStr "o1"); ("status", JNull)] order_registry_ok
    eq_refl eq_refl eq_refl ltac:(left) eq_refl (rtc_l _ _ _ _ send_order (rtc_once _ _ empty_order))))].
  exact (proj1 (guarded_rows_follow_the_graph order_handler order_registry "shop:write:order" "order" order_entity
    [("status", order_map)] "status" order_map (status_row "draft") (status_row "sent") order_registry_ok
    eq_refl eq_refl eq_refl ltac:(left) eq_refl (rtc_once _ _ send_order))).
Defined.
