(* ===== verification/DistributedLock.v ===== *)
(** * Distributed locks

    [pipeline/distributed-lock.ts]: a lock is a Redis key that holds the token
    of its owner until it expires.  Owners are processes that remember the token
    they got and until when they may rely on it; [lock_step] interleaves their
    calls on one key with the passing of time.  The tokens of [generateId] are
    distinct. *)

From S2P Require Import Prelude Redis.

Open Scope Z_scope.

(** ** Operations *)

Definition lock_prefix : string := "kumiko:lock:".

Definition lock_ttl (ttlSeconds : option Z) : Z := default 30 ttlSeconds.

Definition acquire (prefix : string) (now : Z) (r : Redis) (key token : string) (ttlSeconds : option Z)
    : option string * Redis :=
  match redis_set_nx now r (prefix +:+ key) token (lock_ttl ttlSeconds) with
  | Some r' => (Some token, r')
  | None => (None, r)
  end.

(** The release script: compare and delete. *)
Definition release (prefix : string) (now : Z) (r : Redis) (key token : string) : bool * Redis :=
  if decide (redis_get now r (prefix +:+ key) = Some token) then (true, delete (prefix +:+ key) r)
  else (false, r).

(** The renew script: compare and set the expiry. *)
Definition renewScript (now : Z) (r : Redis) (key token : string) (ttlSeconds : Z) : Z * Redis :=
  if decide (redis_get now r key = Some token) then (1, <[key := (token, now + ttlSeconds * 1000)]> r)
  else (0, r).

Definition renew (prefix : string) (now : Z) (r : Redis) (key token : string) (ttlSeconds : QArith_base.Q)
    : bool * Redis :=
  match integer_of ttlSeconds with
  | None => (false, r)
  | Some ttl =>
      if ttl <? 1 then (false, r)
      else let '(result, r') := renewScript now r (prefix +:+ key) token ttl in (result =? 1, r')
  end.

(** ** Owners *)

(** [ls_owners] maps a process to its token and the instant up to which it may
    rely on the lock; [ls_used] are the tokens given out. *)
Record LockSys := mkLockSys {
  ls_now : Z;
  ls_redis : gmap string (string * Z);
  ls_owners : gmap nat (string * Z);
  ls_used : gset string }.

Inductive lock_step (prefix key : string) : LockSys → LockSys → Prop :=
| lock_tick s dt :
    0 ≤ dt → lock_step prefix key s (mkLockSys (ls_now s + dt) (ls_redis s) (ls_owners s) (ls_used s))
| lock_acquire s p token ttlSeconds r r' :
    ls_owners s !! p = None → token ∉ ls_used s → 0 < lock_ttl ttlSeconds →
    acquire prefix (ls_now s) (ls_redis s) key token ttlSeconds = (r, r') →
    lock_step prefix key s
      (mkLockSys (ls_now s) r'
         (match r with
          | Some t => <[p := (t, ls_now s + lock_ttl ttlSeconds * 1000)]> (ls_owners s)
          | None => ls_owners s
          end) ({[token]} ∪ ls_used s))
| lock_release s p token until b r' :
    ls_owners s !! p = Some (token, until) →
    release prefix (ls_now s) (ls_redis s) key token = (b, r') →
    lock_step prefix key s (mkLockSys (ls_now s) r' (delete p (ls_owners s)) (ls_used s))
| lock_renew s p token until ttlSeconds ttl b r' :
    ls_owners s !! p = Some (token, until) → integer_of ttlSeconds = Some ttl →
    renew prefix (ls_now s) (ls_redis s) key token ttlSeconds = (b, r') →
    lock_step prefix key s
      (mkLockSys (ls_now s) r'
         (if (b : bool) then <[p := (token, ls_now s + ttl * 1000)]> (ls_owners s) else delete p (ls_owners s))
         (ls_used s))
| lock_crash s p :
    lock_step prefix key s (mkLockSys (ls_now s) (ls_redis s) (delete p (ls_owners s)) (ls_used s)).

Definition lock_start (now : Z) : LockSys := mkLockSys now ∅ ∅ ∅.

(** The process may rely on the lock now. *)
Definition holds_lock (s : LockSys) (p : nat) : Prop :=
  ∃ token until, ls_owners s !! p = Some (token, until) ∧ ls_now s < until.

(** ** The invariant *)

Record lock_ok (prefix key : string) (s : LockSys) : Prop := {
  lk_used : ∀ token t, ls_redis s !! (prefix +:+ key) = Some (token, t) → token ∈ ls_used s;
  lk_owner_used : ∀ p token until, ls_owners s !! p = Some (token, until) → token ∈ ls_used s;
  lk_apart : ∀ p q token u v, ls_owners s !! p = Some (token, u) → ls_owners s !! q = Some (token, v) → p = q;
  lk_live : ∀ p token until, ls_owners s !! p = Some (token, until) → ls_now s < until →
    ls_redis s !! (prefix +:+ key) = Some (token, until) }.

(** ** Lemmas *)

Lemma lock_acquire_spec prefix now r key token ttlSeconds res r' :
  acquire prefix now r key token ttlSeconds = (res, r') →
  (res = Some token ∧ redis_get now r (prefix +:+ key) = None ∧
   r' = <[prefix +:+ key := (token, now + lock_ttl ttlSeconds * 1000)]> r) ∨
  (res = None ∧ is_Some (redis_get now r (prefix +:+ key)) ∧ r' = r).
Proof.
  unfold acquire, redis_set_nx. destruct (redis_get _ _ _) as [v|]; intros [= <- <-]; [right|left]; naive_solver.
Qed.

Lemma release_spec prefix now r key token b r' :
  release prefix now r key token = (b, r') →
  (b = true ∧ redis_get now r (prefix +:+ key) = Some token ∧ r' = delete (prefix +:+ key) r) ∨
  (b = false ∧ redis_get now r (prefix +:+ key) ≠ Some token ∧ r' = r).
Proof. unfold release. case_decide; intros [= <- <-]; [left|right]; done. Qed.

Lemma renew_spec prefix now r key token ttlSeconds ttl b r' :
  integer_of ttlSeconds = Some ttl → renew prefix now r key token ttlSeconds = (b, r') →
  (b = true ∧ 1 ≤ ttl ∧ redis_get now r (prefix +:+ key) = Some token ∧
   r' = <[prefix +:+ key := (token, now + ttl * 1000)]> r) ∨
  (b = false ∧ r' = r).
Proof.
  intros Ht. unfold renew, renewScript. rewrite Ht. destruct (ttl <? 1) eqn:Hlt; [intros [= <- <-]; by right|].
  reflect_bools. case_decide; intros [= <- <-]; [left|right]; done.
Qed.

(** A change of the key's owner leaves no other process in possession. *)
Lemma lock_ok_update prefix key s p token until r' used' :
  lock_ok prefix key s → token ∈ used' → ls_used s ⊆ used' →
  r' !! (prefix +:+ key) = Some (token, until) →
  (∀ q t u, q ≠ p → ls_owners s !! q = Some (t, u) → t ≠ token ∧ u ≤ ls_now s) →
  lock_ok prefix key (mkLockSys (ls_now s) r' (<[p := (token, until)]> (ls_owners s)) used').
Proof.
  intros [Hu Ho Ha Hl] Htok Hsub Hr Hothers. split; simpl.
  - intros t u H. rewrite Hr in H. by injection H as <- _.
  - intros q t u H. apply lookup_insert_Some in H as [[_ [= <- _]]|[_ H]]; [done|]. apply Ho in H. set_solver.
  - intros q1 q2 t u v H1 H2.
    apply lookup_insert_Some in H1 as [[<- [= <- _]]|[Hn1 H1]], H2 as [[<- Heq]|[Hn2 H2]]; try done.
    + by destruct (Hothers q2 _ _ (not_eq_sym Hn2) H2).
    + injection Heq as <- _. by destruct (Hothers q1 _ _ (not_eq_sym Hn1) H1).
    + by eapply Ha.
  - intros q t u H Hlt. apply lookup_insert_Some in H as [[_ [= <- <-]]|[Hn H]]; [done|].
    destruct (Hothers q t u (not_eq_sym Hn) H). lia.
Qed.

Lemma lock_ok_drop prefix key s p r' :
  lock_ok prefix key s →
  (r' = ls_redis s ∨
   r' = delete (prefix +:+ key) (ls_redis s) ∧ ∀ q t u, q ≠ p → ls_owners s !! q = Some (t, u) → u ≤ ls_now s) →
  lock_ok prefix key (mkLockSys (ls_now s) r' (delete p (ls_owners s)) (ls_used s)).
Proof.
  intros [Hu Ho Ha Hl] Hr. split; simpl.
  - intros t u H. destruct Hr as [->|[-> _]]; [by eapply Hu|by rewrite lookup_delete_eq in H].
  - intros q t u H. apply lookup_delete_Some in H as [_ H]. by eapply Ho.
  - intros q1 q2 t u v H1 H2. apply lookup_delete_Some in H1 as [_ H1], H2 as [_ H2]. by eapply Ha.
  - intros q t u H Hlt. apply lookup_delete_Some in H as [Hn H].
    destruct Hr as [->|[-> Hothers]]; [by eapply Hl|]. specialize (Hothers q t u (not_eq_sym Hn) H). lia.
Qed.

(** While a key holds a process's token, no other process may rely on it. *)
Lemma token_excludes prefix key s p token until :
  lock_ok prefix key s → ls_owners s !! p = Some (token, until) →
  redis_get (ls_now s) (ls_redis s) (prefix +:+ key) = Some token →
  ∀ q t u, q ≠ p → ls_owners s !! q = Some (t, u) → t ≠ token ∧ u ≤ ls_now s.
Proof.
  intros [Hu Ho Ha Hl] Hp (e & He & _)%redis_get_Some q t u Hn Hq.
  assert (Hne : t ≠ token) by (intros ->; by apply Hn, (Ha q p token u until)). split; [done|].
  destruct (Z_lt_le_dec (ls_now s) u) as [Hlt|]; [|done]. specialize (Hl q t u Hq Hlt). congruence.
Qed.

Lemma lock_step_ok prefix key s s' : lock_step prefix key s s' → lock_ok prefix key s → lock_ok prefix key s'.
Proof.
  intros Hstep Hok. destruct Hstep as [s dt Hdt|s p token ttl r r' Hp Hfresh Hpos Hacq|s p token until b r' Hp Hrel
    |s p token until q ttl b r' Hp Hq Hren|s p].
  - destruct Hok as [Hu Ho Ha Hl]. split; simpl; [done..|]. intros p token until Hp Hlt. apply (Hl p); [done|lia].
  - apply lock_acquire_spec in Hacq as [(-> & Hfree & ->)|(-> & _ & ->)].
    + apply lock_ok_update; [done|set_solver|set_solver|by rewrite lookup_insert_eq|].
      intros q t u _ Hq. destruct Hok as [_ Ho _ Hl]. split; [intros ->; by apply Ho in Hq|].
      destruct (Z_lt_le_dec (ls_now s) u) as [Hlt|]; [|done]. specialize (Hl q t u Hq Hlt).
      assert (Hs : redis_get (ls_now s) (ls_redis s) (prefix +:+ key) = Some t) by (apply redis_get_Some; eauto).
      congruence.
    + destruct Hok as [Hu Ho Ha Hl]. split; simpl; [|..|done|done].
      * intros t u H. apply Hu in H. set_solver.
      * intros q t u H. apply Ho in H. set_solver.
  - apply lock_ok_drop; [done|]. apply release_spec in Hrel as [(_ & Hg & ->)|(_ & _ & ->)]; [right|by left].
    split; [done|]. intros q t u Hn Hq. by destruct (token_excludes prefix key s p token until Hok Hp Hg q t u Hn Hq).
  - apply renew_spec with (ttl := ttl) in Hren as [(-> & _ & Hg & ->)|(-> & ->)]; [| |done].
    + apply lock_ok_update; [done|by eapply lk_owner_used|done|by rewrite lookup_insert_eq|by eapply token_excludes].
    + apply lock_ok_drop; [done|by left].
  - apply lock_ok_drop; [done|by left].
Qed.

Lemma lock_reachable_ok prefix key now s : rtc (lock_step prefix key) (lock_start now) s → lock_ok prefix key s.
Proof.
  assert (H0 : lock_ok prefix key (lock_start now)).
  { split; simpl; intros; by match goal with H : ∅ !! _ = Some _ |- _ => rewrite lookup_empty in H end. }
  intros Hr. revert H0. induction Hr; [done|]. eauto using lock_step_ok.
Qed.

(** ** Properties *)

(** At most one process may rely on a lock at any time.  In every
    interleaving of acquisitions, renewals, releases, crashes and the passing of
    time, two processes that both may rely on the lock are the same one; while
    one may, the key holds its token, every other acquisition is refused, and
    a release or a renewal with any other token answers no and changes nothing. *)
Theorem lock_excludes prefix key now s p :
  rtc (lock_step prefix key) (lock_start now) s → holds_lock s p →
  (∀ q, holds_lock s q → q = p) ∧
  ∃ token until, ls_owners s !! p = Some (token, until) ∧
    redis_get (ls_now s) (ls_redis s) (prefix +:+ key) = Some token ∧
    (∀ other ttl, acquire prefix (ls_now s) (ls_redis s) key other ttl = (None, ls_redis s)) ∧
    (∀ other, other ≠ token → release prefix (ls_now s) (ls_redis s) key other = (false, ls_redis s)) ∧
    (∀ other ttl, other ≠ token → renew prefix (ls_now s) (ls_redis s) key other ttl = (false, ls_redis s)).
Proof.
  intros Hr (token & until & Hp & Hlt). pose proof (lock_reachable_ok prefix key now s Hr) as Hok.
  assert (Hg : redis_get (ls_now s) (ls_redis s) (prefix +:+ key) = Some token).
  { apply redis_get_Some. exists until. split; [by eapply lk_live|done]. }
  split.
  - intros q (t & u & Hq & Hltq). destruct (decide (q = p)) as [|Hn]; [done|].
    destruct (token_excludes prefix key s p token until Hok Hp Hg q t u Hn Hq). lia.
  - exists token, until. split_and!; [done|done|..].
    + intros other ttl. unfold acquire, redis_set_nx. by rewrite Hg.
    + intros other Hne. unfold release. rewrite decide_False; [done|congruence].
    + intros other ttl Hne. unfold renew, renewScript. destruct (integer_of ttl) as [z|]; [|done].
      destruct (z <? 1); [done|]. by rewrite decide_False by congruence.
Qed.

(** The lock a crashed process leaves behind can be taken once it has expired. *)
Lemma lock_frees_on_expiry prefix now (r : gmap string (string * Z)) key token t other ttlSeconds :
  r !! (prefix +:+ key) = Some (token, t) → t ≤ now →
  (acquire prefix now r key other ttlSeconds).1 = Some other.
Proof.
  intros Hr Ht. unfold acquire, redis_set_nx, redis_get. rewrite Hr.
  destruct (now <? t) eqn:Hlt; reflect_bools; [lia|done].
Qed.

(** ** Witnesses *)

Definition held_once : LockSys :=
  mkLockSys 0 {[ "kumiko:lock:job" := ("a", 30000) ]} {[ 0%nat := ("a", 30000) ]} {[ "a" ]}.

Lemma held_once_reachable : rtc (lock_step lock_prefix "job") (lock_start 0) held_once.
Proof.
  apply rtc_once. change held_once with
    (mkLockSys (ls_now (lock_start 0)) {[ "kumiko:lock:job" := ("a", 30000) ]}
       (<[0%nat := ("a", 0 + lock_ttl None * 1000)]> (ls_owners (lock_start 0))) {[ "a" ]}).
  replace ({["a"]} : gset string) with ({["a"]} ∪ ls_used (lock_start 0)) by set_solver.
  apply (lock_acquire lock_prefix "job" (lock_start 0) 0%nat "a" None (Some "a")
           {[ "kumiko:lock:job" := ("a", 30000) ]}); [done|set_solver|done|reflexivity].
Qed.

Lemma lock_excludes_witness :
  holds_lock held_once 0 ∧ ∀ q, holds_lock held_once q → q = 0%nat.
Proof.
  assert (Hh : holds_lock held_once 0) by (exists "a", 30000; done).
  split; [exact Hh|]. exact (proj1 (lock_excludes lock_prefix "job" 0 held_once 0 held_once_reachable Hh)).
Defined.
