(* ===== verification/BlindIndex.v ===== *)
(** * Personal data under subject keys

    What [applyEntityEvent] reads of the key store:
    [crypto/pii-ciphertext-format.ts], the decrypting half of
    [crypto/pii-field-encryption.ts], [crypto/blind-index.ts] and the subject
    keys of [kms-adapter-types.ts].  [Keys] is the state of the store at one
    instant: a later state may have lost the key of a subject that was erased,
    so the same ciphertext reads as NULL from then on.  AES-GCM over the
    base64 text, HMAC and [JSON.parse] are the fields of [Crypto]. *)

From Stdlib Require Import Ascii.
From S2P Require Import Prelude QualifiedName.

Notation EntityRow := (gmap string Json) (only parsing).

(** ** Subjects *)

Inductive SubjectId :=
| SubjectUser (userId : string)
| SubjectTenant (tenantId : string)
| SubjectRecord (entity id : string).

Definition subjectIdFromKey (key : string) : option SubjectId :=
  if starts_with "user:" key then Some (SubjectUser (slice_from 5 key))
  else if starts_with "tenant:" key then Some (SubjectTenant (slice_from 7 key))
  else if starts_with "record:" key then
    let rest := slice_from 7 key in
    match index_of colon rest with
    | None => None
    | Some i =>
        let entity := slice_to i rest in
        let id := slice_from (S i) rest in
        if bool_decide (entity = "") || bool_decide (id = "") then None else Some (SubjectRecord entity id)
    end
  else None.

Definition is_letter (c : Ascii.ascii) : bool := is_upper c || is_lower c.

(** [RECORD_ENTITY_PATTERN] *)
Definition record_entity_tail (c : Ascii.ascii) : bool :=
  is_letter c || is_digit c || Ascii.eqb c "_"%char || Ascii.eqb c dash.

Definition record_entity (s : string) : bool :=
  match s with String c rest => is_letter c && all_chars record_entity_tail rest | EmptyString => false end.

Definition subjectIdToKey (s : SubjectId) : option string :=
  match s with
  | SubjectUser userId => Some ("user:" +:+ userId)
  | SubjectTenant tenantId => Some ("tenant:" +:+ tenantId)
  | SubjectRecord entity id =>
      if negb (record_entity entity) || bool_decide (id = "") then None
      else Some ("record:" +:+ entity +:+ ":" +:+ id)
  end.

(** ** The key store *)

(** What [getKey] answers: the key, or one of its errors. *)
Inductive DekState :=
| DekLive (dek : string)
| DekErased
| DekNotFound
| DekUnavailable.

Record Keys := mkKeys {
  ks_blindIndex : option string;
  ks_subjectKms : option (SubjectId → DekState) }.

Record Crypto := mkCrypto {
  hmac : string → string → string;
  aesOpen : string → string → option string → option string;
  parseJson : string → option Json }.

Inductive PiiError :=
| PiiCiphertextCorrupt (field : string)
| KeyNotFound (subject : SubjectId)
| EncryptionUnavailable.

(** ** Ciphertexts *)

Definition PII_CIPHERTEXT_PREFIX_V1 : string := "kumiko-pii:v1:".
Definition PII_CIPHERTEXT_PREFIX : string := "kumiko-pii:v2:".
Definition PII_CIPHERTEXT_PREFIX_JSON : string := "kumiko-pii:v3:".
Definition PII_ERASED_SENTINEL : string := "[[erased]]".
Definition DEK_LENGTH : nat := 32.

Definition isPiiCiphertext (v : Json) : bool :=
  match v with
  | JStr s => starts_with PII_CIPHERTEXT_PREFIX s || starts_with PII_CIPHERTEXT_PREFIX_JSON s
              || starts_with PII_CIPHERTEXT_PREFIX_V1 s
  | _ => false
  end.

Record ParsedCiphertext := mkParsed {
  pc_subject : SubjectId;
  pc_blob : string;
  pc_hasAad : bool;
  pc_isJson : bool }.

(** [rest.lastIndexOf(":")] splits the subject key from the blob. *)
Definition split_last_colon (s : string) : option (string * string) :=
  match rev (split_on colon s) with
  | blob :: w :: ws => Some (join_with ":" (rev (w :: ws)), blob)
  | _ => None
  end.

Definition parseCiphertext (value : string) : option ParsedCiphertext :=
  let isJson := starts_with PII_CIPHERTEXT_PREFIX_JSON value in
  let hasAad := isJson || starts_with PII_CIPHERTEXT_PREFIX value in
  let prefix := if isJson then PII_CIPHERTEXT_PREFIX_JSON
                else if hasAad then PII_CIPHERTEXT_PREFIX else PII_CIPHERTEXT_PREFIX_V1 in
  match split_last_colon (slice_from (String.length prefix) value) with
  | None => None
  | Some (key, blob) => (λ s, mkParsed s blob hasAad isJson) <$> subjectIdFromKey key
  end.

Section decrypt.
Context (crypto : Crypto).

Definition buildAad (subject : SubjectId) (field : string) (isJson : bool) : option string :=
  (λ key, key +:+ "|" +:+ field +:+ (if isJson then "|json" else "")) <$> subjectIdToKey subject.

Definition decryptValue (dek field : string) (c : ParsedCiphertext) : result PiiError string :=
  if negb (String.length dek =? DEK_LENGTH)%nat then Err EncryptionUnavailable
  else
    let opened :=
      if pc_hasAad c then
        match buildAad (pc_subject c) field (pc_isJson c) with
        | Some aad => aesOpen crypto dek (pc_blob c) (Some aad)
        | None => None
        end
      else aesOpen crypto dek (pc_blob c) None in
    match opened with Some plain => Ok plain | None => Err (PiiCiphertextCorrupt field) end.

Definition decode_plain (field : string) (isJson : bool) (plain : string) : result PiiError Json :=
  if isJson then
    match parseJson crypto plain with Some v => Ok v | None => Err (PiiCiphertextCorrupt field) end
  else Ok (JStr plain).

(** One field of [decryptPiiFieldValues]. *)
Definition decrypt_value (kms : SubjectId → DekState) (field : string) (v : Json) : result PiiError Json :=
  match v with
  | JStr s =>
      if isPiiCiphertext v then
        match parseCiphertext s with
        | None => Err (PiiCiphertextCorrupt field)
        | Some c =>
            match kms (pc_subject c) with
            | DekErased => Ok (JStr PII_ERASED_SENTINEL)
            | DekNotFound => Err (KeyNotFound (pc_subject c))
            | DekUnavailable => Err EncryptionUnavailable
            | DekLive dek => let? plain := decryptValue dek field c in decode_plain field (pc_isJson c) plain
            end
        end
      else Ok v
  | _ => Ok v
  end.

Fixpoint decryptPiiFieldValues (kms : SubjectId → DekState) (piiFields : list string) (row : EntityRow)
    : result PiiError EntityRow :=
  match piiFields with
  | [] => Ok row
  | name :: rest =>
      match row !! name with
      | None => decryptPiiFieldValues kms rest row
      | Some v => let? plain := decrypt_value kms name v in decryptPiiFieldValues kms rest (<[name := plain]> row)
      end
  end.

(** ** Blind indexes *)

Definition BLIND_INDEX_PREFIX : string := "kumiko-bidx:v1:".

Definition computeBlindIndex (key plaintext : string) : string := BLIND_INDEX_PREFIX +:+ hmac crypto key plaintext.

Definition blindIndexFieldName (fieldName : string) : string := fieldName +:+ "Bidx".

(** The index of a value that is not ciphertext. *)
Definition index_plain (key : string) (v : Json) : Json :=
  match v with
  | JStr s => if bool_decide (s = PII_ERASED_SENTINEL) then JNull else JStr (computeBlindIndex key s)
  | _ => JNull
  end.

Definition blindIndexForValue (keys : Keys) (key field : string) (v : Json) : result PiiError Json :=
  if negb (isPiiCiphertext v) then Ok (index_plain key v)
  else match ks_subjectKms keys with
       | None => Ok JNull
       | Some kms => let? plain := decrypt_value kms field v in Ok (index_plain key plain)
       end.

Fixpoint index_fields (keys : Keys) (key : string) (values : EntityRow) (fields : list string)
    : result PiiError EntityRow :=
  match fields with
  | [] => Ok ∅
  | name :: rest =>
      match values !! name with
      | None => index_fields keys key values rest
      | Some v =>
          let? index := blindIndexForValue keys key name v in
          let? more := index_fields keys key values rest in
          Ok (<[blindIndexFieldName name := index]> more)
      end
  end.

Definition computeBlindIndexValues (keys : Keys) (lookupableFields : list string) (values : EntityRow)
    : result PiiError EntityRow :=
  match ks_blindIndex keys with
  | None => Ok ∅
  | Some key => index_fields keys key values lookupableFields
  end.

(** ** File references *)

(** The loop that turns the sentinel of an erased subject into NULL. *)
Definition erased_to_null (v : Json) : Json :=
  if bool_decide (v = JStr PII_ERASED_SENTINEL) then JNull else v.

Definition null_erased (fields : list string) (row : EntityRow) : EntityRow :=
  foldl (λ acc name, alter erased_to_null name acc) row fields.

Definition ciphertext_fields (fileFields : list string) (values : EntityRow) : list string :=
  filter (λ name, from_option isPiiCiphertext false (values !! name) = true) fileFields.

(** [None]: the fields hold ciphertext and no key store is configured. *)
Definition decryptFileReferenceCiphertext (keys : Keys) (fileFields : list string) (values : EntityRow)
    : option (result PiiError EntityRow) :=
  match ciphertext_fields fileFields values with
  | [] => Some (Ok values)
  | fields =>
      match ks_subjectKms keys with
      | None => None
      | Some kms => Some (let? plain := decryptPiiFieldValues kms fields values in Ok (null_erased fields plain))
      end
  end.
End decrypt.

(** ** Ageing

    A later state of the same store: a key is still there or its subject was
    erased, an erased subject stays erased, and a subject without a key may have
    got one. *)

Definition dek_ages (erased : Prop) (before after : DekState) : Prop :=
  match before with
  | DekLive dek => after = DekLive dek ∨ (erased ∧ after = DekErased)
  | DekErased => after = DekErased
  | DekNotFound | DekUnavailable => True
  end.

Definition keys_age (erased : SubjectId → Prop) (before after : Keys) : Prop :=
  ks_blindIndex after = ks_blindIndex before ∧
  match ks_subjectKms before, ks_subjectKms after with
  | None, None => True
  | Some a, Some b => ∀ s, dek_ages (erased s) (a s) (b s)
  | _, _ => False
  end.

(** The value is ciphertext under the key of this subject. *)
Definition sealed_for (v : Json) (s : SubjectId) : Prop :=
  ∃ text c, v = JStr text ∧ isPiiCiphertext v = true ∧ parseCiphertext text = Some c ∧ pc_subject c = s.

(** The same row, except that a column that is [gone] may hold [mark]. *)
Definition faded (mark : Json) (gone : string → Prop) (a b : EntityRow) : Prop :=
  ∀ c, b !! c = a !! c ∨ (gone c ∧ is_Some (a !! c) ∧ b !! c = Some mark).

Lemma faded_refl mark gone a : faded mark gone a a.
Proof. intros c. by left. Qed.

Lemma faded_eq mark gone a b : (∀ c, ¬ gone c) → faded mark gone a b → b = a.
Proof. intros Hn Hf. apply map_eq. intros c. destruct (Hf c) as [?|[Hg _]]; [done|by destruct (Hn c)]. Qed.

Lemma faded_lookup_None mark gone a b c : faded mark gone a b → a !! c = None ↔ b !! c = None.
Proof.
  intros Hf. destruct (Hf c) as [->|(_ & [v ->] & ->)]; done.
Qed.

Lemma faded_union mark gone a b a' b' : faded mark gone a b → faded mark gone a' b' → faded mark gone (a' ∪ a) (b' ∪ b).
Proof.
  intros Ha Ha' c. pose proof (faded_lookup_None _ _ _ _ c Ha') as Hn. rewrite !lookup_union.
  destruct (Ha' c) as [->|(Hg & [v Hv] & Hv')].
  - destruct (a' !! c) as [v|]; [left; by destruct (a !! c), (b !! c)|].
    destruct (Ha c) as [->|(Hg & [v Hv] & Hv')]; [by left|right]. rewrite Hv, Hv'. by split_and!.
  - right. rewrite Hv, Hv'. destruct (a !! c), (b !! c); simpl; by split_and!.
Qed.

Lemma faded_filter mark gone (P : string → Prop) `{!∀ c, Decision (P c)} a b :
  faded mark gone a b → faded mark gone (filter (λ kv, P kv.1) a) (filter (λ kv, P kv.1) b).
Proof.
  intros Hf c. rewrite !map_lookup_filter.
  destruct (Hf c) as [->|(Hg & [v Hv] & Hv')]; [by left|]. rewrite Hv, Hv'. simpl.
  destruct (decide (P c)) as [HP|HP].
  - right. rewrite !option_guard_True by done. split_and!; eauto.
  - left. by rewrite !option_guard_False.
Qed.

Lemma faded_empty mark gone a b : faded mark gone a b → a = ∅ ↔ b = ∅.
Proof.
  intros Hf. split; intros ->; apply map_empty; intros c; by apply (faded_lookup_None _ _ _ _ c Hf), lookup_empty.
Qed.

Section ageing.
Context (crypto : Crypto) (erased : SubjectId → Prop).

Lemma decrypt_value_ages a b field v x :
  (∀ s, dek_ages (erased s) (a s) (b s)) → decrypt_value crypto a field v = Ok x →
  decrypt_value crypto b field v = Ok x ∨
  ∃ s, sealed_for v s ∧ erased s ∧ decrypt_value crypto b field v = Ok (JStr PII_ERASED_SENTINEL).
Proof.
  intros Hab. unfold decrypt_value. destruct v as [| | |text| |]; try (intros ->; by left).
  destruct (isPiiCiphertext (JStr text)) eqn:Hc; [|intros ->; by left].
  destruct (parseCiphertext text) as [c|] eqn:Hp; [|done].
  specialize (Hab (pc_subject c)). destruct (a (pc_subject c)) as [dek| | |]; simpl in Hab; try done.
  - destruct Hab as [->|[He ->]]; intros Hx; [by left|]. right. exists (pc_subject c).
    split; [by exists text, c|done].
  - rewrite Hab. intros ->. by left.
Qed.

Lemma decrypt_fields_age a b (gone : string → Prop) fields row row' x :
  (∀ s, dek_ages (erased s) (a s) (b s)) → NoDup fields →
  (∀ f, f ∈ fields → row' !! f = row !! f) →
  (∀ f v s, f ∈ fields → row !! f = Some v → sealed_for v s → erased s → gone f) →
  decryptPiiFieldValues crypto a fields row = Ok x →
  ∃ x', decryptPiiFieldValues crypto b fields row' = Ok x' ∧
    ∀ f, if decide (f ∈ fields)
         then x' !! f = x !! f ∨ (gone f ∧ is_Some (x !! f) ∧ x' !! f = Some (JStr PII_ERASED_SENTINEL))
         else x !! f = row !! f ∧ x' !! f = row' !! f.
Proof.
  intros Hab. revert row row'. induction fields as [|name fields IH]; intros row row' Hnd Heq Hgone Hx.
  { exists row'. injection Hx as ->. split; [done|]. intros f. by rewrite decide_False by (apply not_elem_of_nil). }
  apply NoDup_cons in Hnd as [Hnin Hnd]. cbn [decryptPiiFieldValues] in *.
  rewrite (Heq name) by (by left). destruct (row !! name) as [v|] eqn:Hv.
  - apply result_bind_Ok in Hx as (p & Hp & Hx).
    assert (∃ p', decrypt_value crypto b name v = Ok p' ∧
              (p' = p ∨ gone name ∧ p' = JStr PII_ERASED_SENTINEL)) as (p' & Hp' & Hpp).
    { destruct (decrypt_value_ages a b name v p Hab Hp) as [H|(s & Hs & He & H)]; [by exists p; auto|].
      exists (JStr PII_ERASED_SENTINEL). split; [done|]. right. split; [|done]. eapply Hgone; [by left|done..]. }
    rewrite Hp'. cbn [result_bind].
    destruct (IH (<[name:=p]> row) (<[name:=p']> row') Hnd) as (x' & Hx' & Hrel); [| |done|].
    { intros f Hf. rewrite !lookup_insert_ne by (intros ->; done). apply Heq. by right. }
    { intros f w s Hf. rewrite lookup_insert_ne by (intros ->; done). apply Hgone. by right. }
    exists x'. split; [done|]. intros f. specialize (Hrel f).
    destruct (decide (f = name)) as [->|Hne].
    + rewrite decide_True by (by left). rewrite decide_False in Hrel by done. rewrite !lookup_insert_eq in Hrel.
      destruct Hrel as [-> ->]. destruct Hpp as [->|[Hg ->]]; [by left|right]. by split_and!.
    + rewrite !lookup_insert_ne in Hrel by done. destruct (decide (f ∈ fields)) as [Hin|Hin].
      * rewrite decide_True by (by right). done.
      * rewrite decide_False by (rewrite not_elem_of_cons; done). done.
  - destruct (IH row row' Hnd) as (x' & Hx' & Hrel); [| |done|].
    { intros f Hf. apply Heq. by right. }
    { intros f w s Hf. apply Hgone. by right. }
    exists x'. split; [done|]. intros f. specialize (Hrel f).
    destruct (decide (f = name)) as [->|Hne].
    + rewrite decide_True by (by left). rewrite decide_False in Hrel by done. left.
      destruct Hrel as [-> ->]. by apply Heq; left.
    + destruct (decide (f ∈ fields)) as [Hin|Hin].
      * rewrite decide_True by (by right). done.
      * rewrite decide_False by (rewrite not_elem_of_cons; done). done.
Qed.

Lemma lookup_null_erased fields row f :
  null_erased fields row !! f = if decide (f ∈ fields) then erased_to_null <$> row !! f else row !! f.
Proof.
  assert (Hid : ∀ v, erased_to_null (erased_to_null v) = erased_to_null v).
  { intros v. unfold erased_to_null. destruct (bool_decide (v = _)) eqn:Hd; [done|]. by rewrite Hd. }
  revert row. induction fields as [|name fields IH]; intros row; [done|].
  change (null_erased (name :: fields) row) with (null_erased fields (alter erased_to_null name row)).
  rewrite IH. destruct (decide (f = name)) as [->|Hne].
  - rewrite lookup_alter_eq, (decide_True (P := name ∈ name :: fields)) by (by left). destruct (decide _); [|done].
    destruct (row !! name); simpl; [by rewrite Hid|done].
  - rewrite lookup_alter_ne by done. destruct (decide (f ∈ fields)).
    + by rewrite decide_True by (by right).
    + by rewrite decide_False by (rewrite not_elem_of_cons; done).
Qed.

(** File references under later keys. *)
Lemma fileRefs_age k K (gone : string → Prop) fields values x :
  keys_age erased k K → NoDup fields →
  (∀ f v s, f ∈ fields → values !! f = Some v → sealed_for v s → erased s → gone f) →
  decryptFileReferenceCiphertext crypto k fields values = Some (Ok x) →
  ∃ x', decryptFileReferenceCiphertext crypto K fields values = Some (Ok x') ∧ faded JNull gone x x' ∧
        ∀ f, f ∉ fields → x !! f = values !! f ∧ x' !! f = values !! f.
Proof.
  intros [_ Hk] Hnd Hgone. unfold decryptFileReferenceCiphertext.
  destruct (ciphertext_fields fields values) as [|n0 ns] eqn:Hcf.
  { intros [= <-]. exists values. split_and!; [done|apply faded_refl|done]. }
  rewrite <- Hcf. clear Hcf.
  assert (Hsub : ∀ f, f ∈ ciphertext_fields fields values → f ∈ fields).
  { intros f Hf. by apply list_elem_of_filter in Hf as [_ ?]. }
  destruct (ks_subjectKms k) as [a|]; [|done]. destruct (ks_subjectKms K) as [b|]; [|done].
  intros [= (p & Hp & Hx)%result_bind_Ok]. injection Hx as <-.
  destruct (decrypt_fields_age a b gone (ciphertext_fields fields values) values values p Hk)
    as (p' & Hp' & Hrel); [by apply NoDup_filter|done|by intros; eapply Hgone; eauto|done|].
  exists (null_erased (ciphertext_fields fields values) p'). rewrite Hp'. split; [done|]. split.
  - intros f. rewrite !lookup_null_erased. specialize (Hrel f). destruct (decide _).
    + destruct Hrel as [->|(Hg & [v ->] & ->)]; [by left|right]. simpl. split_and!; [done|by eexists|done].
    + left. destruct Hrel as [-> ->]. done.
  - intros f Hf. rewrite !lookup_null_erased. specialize (Hrel f).
    rewrite decide_False in Hrel by (intros H; by apply Hf, Hsub). by rewrite !decide_False by (intros H; by apply Hf, Hsub).
Qed.

(** Blind indexes under later keys. *)
Lemma bidx_ages k K (gone : string → Prop) fields values values' x :
  keys_age erased k K → (∀ f, f ∈ fields → values' !! f = values !! f) →
  (∀ f v s, f ∈ fields → values !! f = Some v → sealed_for v s → erased s → gone (blindIndexFieldName f)) →
  computeBlindIndexValues crypto k fields values = Ok x →
  ∃ x', computeBlindIndexValues crypto K fields values' = Ok x' ∧ faded JNull gone x x'.
Proof.
  intros [Hkey Hk] Heq Hgone. unfold computeBlindIndexValues. rewrite Hkey.
  destruct (ks_blindIndex k) as [key|]; [|intros [= <-]; exists ∅; split; [done|apply faded_refl]].
  assert (Hone : ∀ f v i, blindIndexForValue crypto k key f v = Ok i →
    blindIndexForValue crypto K key f v = Ok i ∨
    ∃ s, sealed_for v s ∧ erased s ∧ blindIndexForValue crypto K key f v = Ok JNull).
  { intros f v i. unfold blindIndexForValue. destruct (negb (isPiiCiphertext v)); [by left|].
    destruct (ks_subjectKms k) as [a|], (ks_subjectKms K) as [b|]; try done; [|by left].
    intros (p & Hp & Hi)%result_bind_Ok.
    destruct (decrypt_value_ages a b f v p Hk Hp) as [->|(s & Hs & He & ->)]; [by left|right].
    exists s. by split_and!. }
  revert x. induction fields as [|name fields IH]; intros x; cbn [index_fields].
  { intros [= <-]. exists ∅. split; [done|apply faded_refl]. }
  rewrite (Heq name) by (by left). destruct (values !! name) as [v|] eqn:Hv.
  - intros (i & Hi & (more & Hmore & Hx)%result_bind_Ok)%result_bind_Ok. injection Hx as <-.
    destruct (IH (λ f Hf, Heq f (list_elem_of_further _ _ _ Hf))
                (λ f w s Hf, Hgone f w s (list_elem_of_further _ _ _ Hf)) more Hmore) as (more' & Hmore' & Hf).
    rewrite Hmore'.
    assert (∃ i', blindIndexForValue crypto K key name v = Ok i' ∧
              (i' = i ∨ gone (blindIndexFieldName name) ∧ i' = JNull)) as (i' & -> & Hii).
    { destruct (Hone name v i Hi) as [H|(s & Hs & He & H)]; [by exists i; auto|].
      exists JNull. split; [done|right]. split; [|done]. eapply Hgone; [left|done..]. }
    eexists. split; [done|]. intros c. destruct (decide (c = blindIndexFieldName name)) as [->|Hne].
    + rewrite !lookup_insert_eq. destruct Hii as [->|[Hg ->]]; [by left|right]. by split_and!.
    + rewrite !lookup_insert_ne by done. apply Hf.
  - intros Hx. apply IH; [..|done].
    + intros f Hf. apply Heq. by right.
    + intros f w s Hf. apply Hgone. by right.
Qed.
End ageing.
