(* ===== verification/WhereClause.v ===== *)
(** * Where clauses

    [db/where-clause.ts] and [db/driver-value-preparation.ts]: a [WhereObject]
    becomes SQL conditions with numbered placeholders and the list of values
    bound to them.  The SQL is a syntax tree with its printed form
    ([cond_text]) and its three-valued meaning on a row ([cond_eval]).  Values
    are JSON: Temporal and Date objects do not occur; parsing an ISO instant
    and the HMAC of the blind index are parameters, and so are the Postgres
    operators other than equality. *)

From S2P Require Import Prelude TableInfo Ownership BlindIndex.

(** ** Values of the caller *)

(** [JsSql] is a branded SQL expression; [JsArray] and [JsObject] may hold
    undefined. *)
Inductive Js :=
| JsUndefined
| JsJson (v : Json)
| JsSql (text : string)
| JsArray (vs : list Js)
| JsObject (entries : list (string * Js)).

Definition WhereObject : Type := list (string * Js).

Definition as_array (v : Js) : option (list Js) :=
  match v with JsArray vs => Some vs | JsJson (JArr l) => Some (JsJson <$> l) | _ => None end.

(** [isPlainObject(v)] with its entries. *)
Definition as_object (v : Js) : option (list (string * Js)) :=
  match v with
  | JsObject es => Some es
  | JsJson (JObj kvs) => Some (prod_map id JsJson <$> kvs)
  | JsSql text => Some [("kind", JsJson (JStr "sql-expr")); ("text", JsJson (JStr text))]
  | _ => None
  end.

Definition is_null (v : Js) : bool := match v with JsJson JNull => true | _ => false end.

(** [value !== null && typeof value !== "object"] *)
Definition isJsonbScalar (v : Js) : bool :=
  match v with JsUndefined | JsJson (JBool _ | JNum _ | JStr _) => true | _ => false end.

(** [o[key]] *)
Definition js_get (key : string) (o : list (string * Js)) : Js := default JsUndefined (assoc_get key o).

Definition is_defined (v : Js) : bool := match v with JsUndefined => false | _ => true end.

(** ** Prepared values *)

(** What the driver binds: the value, its [JSON.stringify], or its
    [String(n)]. *)
Inductive Bound :=
| BoundValue (v : Js)
| BoundJsonText (v : Js)
| BoundText (n : Z)
| BoundInstant (text : string).

Inductive Cast := NoCast | CastJsonb | CastTextJsonb.

Inductive PreparedValue :=
| Param (cast : Cast) (bound : Bound)
| Literal (text : string).

Definition isPiiValue (v : Js) : bool :=
  match v with JsJson j => isPiiCiphertext j | _ => false end.

Definition is_boolean (v : Js) : bool := match v with JsJson (JBool _) => true | _ => false end.

Definition prepareJsonbValue (v : Js) : option PreparedValue :=
  match v with
  | JsJson (JBool _) | JsJson (JNum _) => Some (Param CastTextJsonb (BoundJsonText v))
  | JsUndefined | JsJson (JStr _) => None
  | _ => match as_array v with
         | None => Some (Param CastJsonb (BoundValue v))
         | Some vs => if negb (bool_decide (length vs = 0%nat)) && forallb is_boolean vs
                      then Some (Param CastTextJsonb (BoundJsonText v))
                      else Some (Param CastJsonb (BoundValue v))
         end
  end.

Definition INTEGER_PG_TYPES : list string :=
  ["integer"; "int4"; "smallint"; "int2"; "bigint"; "int8"; "serial"; "bigserial"].

Section prepare.
Context (instantText : string → option string).

Definition prepareDriverNeutralScalar (v : Js) (pgType : option string) : option PreparedValue :=
  let instant :=
    if bool_decide (pgType = Some "timestamptz" ∨ pgType = Some "timestamptz(3)")
    then match v with JsJson (JStr s) => instantText s | _ => None end else None in
  match instant with
  | Some text => Some (Param NoCast (BoundInstant text))
  | None => match v, pgType with
            | JsJson (JNum n), Some t => if bool_decide (t ∈ INTEGER_PG_TYPES)
                                         then Some (Param NoCast (BoundText n)) else None
            | _, _ => None
            end
  end.

Definition prepareValue (v : Js) (pgType : option string) : PreparedValue :=
  let jsonb := bool_decide (pgType = Some "jsonb") in
  match v with
  | JsSql text => Literal text
  | _ =>
      if jsonb && isPiiValue v then Param CastTextJsonb (BoundJsonText v)
      else match (if jsonb && negb (is_null v) then prepareJsonbValue v else None) with
           | Some p => p
           | None => default (Param NoCast (BoundValue v)) (prepareDriverNeutralScalar v pgType)
           end
  end.
End prepare.

(** ** Conditions *)

Inductive Operand := OpParam (n : nat) (cast : Cast) | OpLiteral (text : string).

Inductive Cond :=
| CFalse
| CTrue
| CIsNull (column : string)
| CIsNotNull (column : string)
| CCompare (column symbol : string) (o : Operand)
| CIn (column : string) (negated : bool) (os : list Operand)
| CContains (column : string) (o : Operand)
| CJsonEq (column : string) (n : nat)
| CJsonText (column : string) (keys : list nat) (n : nat)
| CAny (alternatives : list Cond)
| CNullOrNot (column : string) (alternatives : list Cond).

Definition cast_text (c : Cast) : string :=
  match c with NoCast => "" | CastJsonb => "::jsonb" | CastTextJsonb => "::text::jsonb" end.

Definition operand_text (o : Operand) : string :=
  match o with OpParam n c => placeholder n +:+ cast_text c | OpLiteral t => t end.

Section text.
Context (ref : string → string).

Fixpoint cond_text (c : Cond) : string :=
  match c with
  | CFalse => "FALSE"
  | CTrue => "TRUE"
  | CIsNull col => ref col +:+ " IS NULL"
  | CIsNotNull col => ref col +:+ " IS NOT NULL"
  | CCompare col symbol o => ref col +:+ " " +:+ symbol +:+ " " +:+ operand_text o
  | CIn col negated os => ref col +:+ (if negated then " NOT IN (" else " IN (")
                          +:+ join_with ", " (operand_text <$> os) +:+ ")"
  | CContains col o => ref col +:+ " @> " +:+ operand_text o
  | CJsonEq col n => ref col +:+ " = " +:+ placeholder n +:+ "::text::jsonb"
  | CJsonText col keys n =>
      let lookups := (λ k, ref col +:+ "->>" +:+ placeholder k +:+ "::text") <$> keys in
      "(" +:+ match lookups with [l] => l | _ => "COALESCE(" +:+ join_with ", " lookups +:+ ")" end
      +:+ " = " +:+ placeholder n +:+ ")"
  | CAny cs => "(" +:+ join_with " OR " (map cond_text cs) +:+ ")"
  | CNullOrNot col cs => "(" +:+ ref col +:+ " IS NULL OR NOT (" +:+ join_with " OR " (map cond_text cs) +:+ "))"
  end.
End text.

(** A join qualifier reaches every column reference. *)
Definition column_ref (qualifier : option string) (column : string) : string :=
  match qualifier with
  | None => quoteIdent column
  | Some q => quoteIdent q +:+ "." +:+ quoteIdent column
  end.

(** ** Building: conditions, values bound so far, errors *)

Inductive WhereError :=
| JsonTextInvalid (column : string)
| JsonTextCombined (column : string)
| JsonTextNeedsJsonb (column : string)
| InNeedsArray (column : string)
| NotInNeedsArray (column : string)
| NotInOnJsonb (column : string)
| NoDefinedOperand (column : string).

Definition Emit (A : Type) : Type := list Bound → result WhereError (A * list Bound).

Definition eret {A} (a : A) : Emit A := λ values, Ok (a, values).
Definition ethrow {A} (e : WhereError) : Emit A := λ _, Err e.
Definition ebind {A B} (f : A → Emit B) (m : Emit A) : Emit B :=
  λ values, let? r := m values in f r.1 r.2.

Notation "'let!' x ':=' c1 'in' c2" := (ebind (λ x, c2) c1)
  (at level 10, x pattern, c1 at level 100, c2 at level 200).

Fixpoint emap {A B} (f : A → Emit B) (xs : list A) : Emit (list B) :=
  match xs with
  | [] => eret []
  | x :: rest => let! y := f x in let! ys := emap f rest in eret (y :: ys)
  end.

Record WhereColumn := mkWhereColumn {
  wc_info : TableInfo;
  wc_column : string;
  wc_pgType : option string }.

Definition is_jsonb (target : WhereColumn) : bool := bool_decide (wc_pgType target = Some "jsonb").

Section build.
Context (instantText : string → option string) (blindIndex : option (string → string)) (startIndex : nat).

(** [bind(value)]: the placeholder of the value just bound. *)
Definition bind (b : Bound) : Emit nat := λ values, Ok (startIndex + length values, values ++ [b])%nat.

Definition operand_of (p : PreparedValue) : Emit Operand :=
  match p with
  | Literal text => eret (OpLiteral text)
  | Param cast b => let! n := bind b in eret (OpParam n cast)
  end.

Definition valueList (target : WhereColumn) (values : list Js) : Emit (list Operand) :=
  emap (λ v, operand_of (prepareValue instantText v (wc_pgType target))) values.

Definition contains_parts (target : WhereColumn) (v : Js) : Emit (list Cond) :=
  let! contained :=
    match prepareJsonbValue (JsArray [v]) with
    | Some (Param cast b) => let! n := bind b in eret [CContains (wc_column target) (OpParam n cast)]
    | _ => eret []
    end in
  if isJsonbScalar v
  then let! n := bind (BoundJsonText v) in eret (contained ++ [CJsonEq (wc_column target) n])
  else eret contained.

Definition jsonbContainsAny (target : WhereColumn) (candidates : list Js) : Emit Cond :=
  let! parts := emap (contains_parts target) candidates in
  match concat parts with [] => eret CFalse | ps => eret (CAny ps) end.

Definition comparisonCondition (target : WhereColumn) (symbol : string) (v : Js) : Emit Cond :=
  let! o := operand_of (prepareValue instantText v (wc_pgType target)) in
  eret (CCompare (wc_column target) symbol o).

(** A match as given: its keys and text, when well formed. *)
Definition as_string (v : Js) : option string := match v with JsJson (JStr s) => Some s | _ => None end.

Definition validJsonTextMatch (v : Js) : option (list string * string) :=
  match as_object v with
  | None => None
  | Some o =>
      match as_array (js_get "keys" o), as_string (js_get "eq" o) with
      | Some (k :: ks), Some eq => (λ keys, (keys, eq)) <$> mapM as_string (k :: ks)
      | _, _ => None
      end
  end.

Definition jsonTextMatchCondition (target : WhereColumn) (v : Js) : Emit Cond :=
  match validJsonTextMatch v with
  | None => ethrow (JsonTextInvalid (wc_column target))
  | Some (keys, eq) =>
      let! ns := emap (λ k, bind (BoundValue (JsJson (JStr k)))) keys in
      let! n := bind (BoundValue (JsJson (JStr eq))) in
      eret (CJsonText (wc_column target) ns n)
  end.

(** An emitter returns the conditions an operator contributes. *)
Definition emitJsonText (target : WhereColumn) (op : list (string * Js)) : Emit (list Cond) :=
  let operand := js_get "jsonText" op in
  if negb (is_defined operand) then eret []
  else if (1 <? length op)%nat then ethrow (JsonTextCombined (wc_column target))
  else if negb (is_jsonb target) then ethrow (JsonTextNeedsJsonb (wc_column target))
  else match default [operand] (as_array operand) with
       | [] => eret [CFalse]
       | matches => emap (jsonTextMatchCondition target) matches
       end.

Definition comparisonEmitter (key symbol : string) (target : WhereColumn) (op : list (string * Js))
    : Emit (list Cond) :=
  let operand := js_get key op in
  if negb (is_defined operand) then eret []
  else if is_jsonb target then eret [CFalse]
  else let! c := comparisonCondition target symbol operand in eret [c].

Definition jsonbNotEqualCondition (target : WhereColumn) (operand : Js) : option (Emit Cond) :=
  match as_array operand with
  | Some [] => Some (eret CFalse)
  | Some (_ :: _) =>
      match prepareJsonbValue operand with
      | Some (Param cast b) =>
          Some (let! n := bind b in
                eret (CNullOrNot (wc_column target) [CContains (wc_column target) (OpParam n cast)]))
      | _ => None
      end
  | None =>
      if isJsonbScalar operand then
        match prepareJsonbValue (JsArray [operand]) with
        | Some (Param cast b) =>
            Some (let! n := bind b in let! m := bind (BoundJsonText operand) in
                  eret (CNullOrNot (wc_column target)
                          [CContains (wc_column target) (OpParam n cast); CJsonEq (wc_column target) m]))
        | _ => None
        end
      else None
  end.

Definition emitNotEqual (target : WhereColumn) (op : list (string * Js)) : Emit (list Cond) :=
  let operand := js_get "ne" op in
  if negb (is_defined operand) then eret []
  else if is_null operand && (length op =? 1)%nat then eret [CIsNotNull (wc_column target)]
  else match (if is_jsonb target then jsonbNotEqualCondition target operand else None) with
       | Some m => let! c := m in eret [c]
       | None => let! c := comparisonCondition target "<>" operand in eret [c]
       end.

Definition emitIn (target : WhereColumn) (op : list (string * Js)) : Emit (list Cond) :=
  let operand := js_get "in" op in
  if negb (is_defined operand) then eret []
  else match as_array operand with
       | None => ethrow (InNeedsArray (wc_column target))
       | Some vs =>
           if is_jsonb target then let! c := jsonbContainsAny target vs in eret [c]
           else match vs with
                | [] => eret [CFalse]
                | _ => let! os := valueList target vs in eret [CIn (wc_column target) false os]
                end
       end.

Definition emitNotIn (target : WhereColumn) (op : list (string * Js)) : Emit (list Cond) :=
  let operand := js_get "notIn" op in
  if negb (is_defined operand) then eret []
  else match as_array operand with
       | None => ethrow (NotInNeedsArray (wc_column target))
       | Some vs =>
           if is_jsonb target then ethrow (NotInOnJsonb (wc_column target))
           else match vs with
                | [] => eret [CTrue]
                | _ => let! os := valueList target vs in eret [CIn (wc_column target) true os]
                end
       end.

Definition OPERATOR_EMITTERS : list (string * (WhereColumn → list (string * Js) → Emit (list Cond))) :=
  [("jsonText", emitJsonText); ("gt", comparisonEmitter "gt" ">"); ("gte", comparisonEmitter "gte" ">=");
   ("lt", comparisonEmitter "lt" "<"); ("lte", comparisonEmitter "lte" "<="); ("ne", emitNotEqual);
   ("like", comparisonEmitter "like" "LIKE"); ("in", emitIn); ("notIn", emitNotIn)].

Definition isWhereOperator (v : Js) : option (list (string * Js)) :=
  match as_object v with
  | Some ((_ :: _) as op) =>
      if forallb (λ kv, bool_decide (kv.1 ∈ OPERATOR_EMITTERS.*1)) op then Some op else None
  | _ => None
  end.

Definition operatorConditions (target : WhereColumn) (op : list (string * Js)) : Emit (list Cond) :=
  let! parts := emap (λ e : string * _, e.2 target op) OPERATOR_EMITTERS in
  match concat parts with
  | [] => ethrow (NoDefinedOperand (wc_column target))
  | conditions => eret conditions
  end.

(** With a blind index on the column, equality also matches the HMAC. *)
Definition equalityCondition (target : WhereColumn) (value : Js) : Emit Cond :=
  let column := wc_column target in
  let bidxCol := column +:+ "_bidx" in
  match prepareValue instantText value (wc_pgType target) with
  | Literal text => eret (CCompare column "=" (OpLiteral text))
  | Param cast b =>
      match blindIndex, value with
      | Some hmac, JsJson (JStr s) =>
          if negb (ends_with "_bidx" column) && hasColumn (wc_info target) bidxCol then
            let! n := bind b in
            let! m := bind (BoundValue (JsJson (JStr (hmac s)))) in
            eret (CAny [CCompare column "=" (OpParam n NoCast); CCompare bidxCol "=" (OpParam m NoCast)])
          else let! n := bind b in eret (CCompare column "=" (OpParam n cast))
      | _, _ => let! n := bind b in eret (CCompare column "=" (OpParam n cast))
      end
  end.

Definition arrayCondition (target : WhereColumn) (values : list Js) : Emit Cond :=
  match values with
  | [] => eret CFalse
  | _ => if is_jsonb target then jsonbContainsAny target values
         else let! os := valueList target values in eret (CIn (wc_column target) false os)
  end.

Definition conditionsForValue (target : WhereColumn) (value : Js) : Emit (list Cond) :=
  if is_null value then eret [CIsNull (wc_column target)]
  else match as_array value with
       | Some vs => let! c := arrayCondition target vs in eret [c]
       | None =>
           match isWhereOperator value with
           | Some op => operatorConditions target op
           | None =>
               if is_jsonb target && isJsonbScalar value
               then let! c := jsonbContainsAny target [value] in eret [c]
               else let! c := equalityCondition target value in eret [c]
           end
       end.

Definition where_column (info : TableInfo) (field : string) : WhereColumn :=
  let column := columnOf info field in mkWhereColumn info column (pgTypeOf info column).

(** The conditions of a where object, to be joined by AND. *)
Definition where_conditions (info : TableInfo) (where_ : WhereObject) : Emit (list Cond) :=
  let! parts := emap (λ fv : string * Js, conditionsForValue (where_column info fv.1) fv.2) where_ in
  eret (concat parts).

Definition buildWhereClause (info : TableInfo) (where_ : WhereObject) (qualifier : option string)
    : result WhereError (string * list Bound) :=
  let? built := where_conditions info where_ [] in
  Ok (join_with " AND " (cond_text (column_ref qualifier) <$> built.1), built.2).
End build.

(** ** The meaning of a condition

    SQL's three-valued logic: [None] is unknown.  [pg_op] is a Postgres operator
    on two values that are not NULL, [contains] is [@>], [text_of] is the text
    [->>] yields, [literal] the value of a SQL expression. *)

Definition or3 (a b : option bool) : option bool :=
  match a, b with
  | Some true, _ | _, Some true => Some true
  | Some false, Some false => Some false
  | _, _ => None
  end.

Definition not3 (a : option bool) : option bool := negb <$> a.

Definition any3 (l : list (option bool)) : option bool := foldr or3 (Some false) l.

Definition non_null (v : Json) : option Json := match v with JNull => None | _ => Some v end.

Fixpoint js_json (v : Js) : Json :=
  match v with
  | JsUndefined => JNull
  | JsJson j => j
  | JsSql text => JStr text
  | JsArray vs => JArr (map js_json vs)
  | JsObject es => JObj (map (λ kv, (kv.1, js_json kv.2)) es)
  end.

Definition bound_json (b : Bound) : Json :=
  match b with
  | BoundValue v | BoundJsonText v => js_json v
  | BoundText n => JNum n
  | BoundInstant t => JStr t
  end.

(** The value behind placeholder [n]. *)
Definition bound_at (startIndex : nat) (values : list Bound) (n : nat) : Json :=
  default JNull (bound_json <$> (values !! (n - startIndex)%nat)).

Record PgSemantics := mkPg {
  pg_op : string → Json → Json → bool;
  pg_contains : Json → Json → bool;
  pg_text_of : Json → string;
  pg_literal : string → Json }.

Section meaning.
Context (pg : PgSemantics) (env : nat → Json) (row : string → Json).

Definition operand_value (o : Operand) : Json :=
  match o with OpParam n _ => env n | OpLiteral text => pg_literal pg text end.

(** Text is equal when the strings are. *)
Definition pg_equal (a b : Json) : bool :=
  match a, b with
  | JStr x, JStr y => bool_decide (x = y)
  | _, _ => pg_op pg "=" a b
  end.

Definition compare3 (symbol : string) (a b : Json) : option bool :=
  match non_null a, non_null b with
  | Some x, Some y => Some (if bool_decide (symbol = "=") then pg_equal x y else pg_op pg symbol x y)
  | _, _ => None
  end.

Definition text_at (stored : Json) (key : Json) : option Json :=
  match stored, key with
  | JObj kvs, JStr k => v ← assoc_get k kvs; x ← non_null v; Some (JStr (pg_text_of pg x))
  | _, _ => None
  end.

Fixpoint cond_eval (c : Cond) : option bool :=
  match c with
  | CFalse => Some false
  | CTrue => Some true
  | CIsNull col => Some (match non_null (row col) with None => true | Some _ => false end)
  | CIsNotNull col => Some (match non_null (row col) with None => false | Some _ => true end)
  | CCompare col symbol o => compare3 symbol (row col) (operand_value o)
  | CIn col negated os =>
      let found := any3 ((λ o, compare3 "=" (row col) (operand_value o)) <$> os) in
      if negated then not3 found else found
  | CContains col o =>
      match non_null (row col), non_null (operand_value o) with
      | Some x, Some y => Some (pg_contains pg x y)
      | _, _ => None
      end
  | CJsonEq col n => compare3 "=" (row col) (env n)
  | CJsonText col keys n =>
      match head (omap (λ k, text_at (row col) (env k)) keys) with
      | Some t => compare3 "=" t (env n)
      | None => None
      end
  | CAny cs => any3 (map cond_eval cs)
  | CNullOrNot col cs =>
      or3 (Some (match non_null (row col) with None => true | Some _ => false end))
        (not3 (any3 (map cond_eval cs)))
  end.

(** A row passes [WHERE c1 AND ... AND cn]. *)
Definition admitted (conditions : list Cond) : bool :=
  forallb (λ c, match cond_eval c with Some true => true | _ => false end) conditions.
End meaning.

(** ** Placeholders *)

Definition operand_placeholders (o : Operand) : list nat :=
  match o with OpParam n _ => [n] | OpLiteral _ => [] end.

Fixpoint cond_placeholders (c : Cond) : list nat :=
  match c with
  | CFalse | CTrue | CIsNull _ | CIsNotNull _ => []
  | CCompare _ _ o | CContains _ o => operand_placeholders o
  | CIn _ _ os => os ≫= operand_placeholders
  | CJsonEq _ n => [n]
  | CJsonText _ keys n => keys ++ [n]
  | CAny cs | CNullOrNot _ cs => concat (map cond_placeholders cs)
  end.

Definition placeholders_of (cs : list Cond) : list nat := cs ≫= cond_placeholders.

Lemma placeholders_of_app a b : placeholders_of (a ++ b) = placeholders_of a ++ placeholders_of b.
Proof. apply bind_app. Qed.

Lemma placeholders_of_concat cs : concat (map cond_placeholders cs) = placeholders_of cs.
Proof. induction cs as [|c cs IH]; [done|]. simpl. by rewrite IH. Qed.

(** [emits m Φ]: the values [m] binds get the next placeholders, in order, and
    its result satisfies [Φ] on them. *)
Section emits.
Context (startIndex : nat).

Definition emits {A} (m : Emit A) (Φ : list nat → A → Prop) : Prop :=
  ∀ values a values', m values = Ok (a, values') →
    ∃ new, values' = values ++ new ∧ Φ (seq (startIndex + length values) (length new)) a.

Lemma emits_ret {A} (a : A) (Φ : list nat → A → Prop) : Φ [] a → emits (eret a) Φ.
Proof. intros H values b values' [= <- <-]. exists []. by rewrite app_nil_r. Qed.

Lemma emits_throw {A} e (Φ : list nat → A → Prop) : emits (ethrow e) Φ.
Proof. by intros values a values'. Qed.

Lemma emits_bind {A B} (m : Emit A) (f : A → Emit B) (Φ : list nat → A → Prop) (Ψ : list nat → B → Prop) :
  emits m Φ → (∀ ns a, Φ ns a → emits (f a) (λ ms b, Ψ (ns ++ ms) b)) → emits (ebind f m) Ψ.
Proof.
  intros Hm Hf values b values' H. unfold ebind in H. apply result_bind_Ok in H as ([a v1] & H1 & H2).
  destruct (Hm _ _ _ H1) as (n1 & -> & HΦ). destruct (Hf _ _ HΦ _ _ _ H2) as (n2 & -> & HΨ).
  exists (n1 ++ n2). rewrite app_assoc. split; [done|].
  rewrite length_app, seq_app. cbn [fst snd] in HΨ. by rewrite length_app, Nat.add_assoc in HΨ.
Qed.

Lemma emits_mono {A} (m : Emit A) (Φ Ψ : list nat → A → Prop) :
  emits m Φ → (∀ ns a, Φ ns a → Ψ ns a) → emits m Ψ.
Proof. intros Hm HΨ values a values' H. destruct (Hm _ _ _ H) as (new & -> & HΦ). eauto. Qed.

Lemma emits_binding b : emits (bind startIndex b) (λ ns n, ns = [n]).
Proof. intros values n values' [= <- <-]. by exists [b]. Qed.

Lemma emits_map {A B} (f : A → Emit B) (ph : B → list nat) (good : B → Prop) xs :
  (∀ x, emits (f x) (λ ns b, ns = ph b ∧ good b)) →
  emits (emap f xs) (λ ns bs, ns = bs ≫= ph ∧ length bs = length xs ∧ Forall good bs).
Proof.
  intros Hf. induction xs as [|x xs IH]; simpl; [apply emits_ret; by repeat constructor|].
  apply (emits_bind _ _ _ _ (Hf x)). intros ns b [-> Hb].
  apply (emits_bind _ _ _ _ IH). intros ms bs (-> & Hl & Hg). apply emits_ret. rewrite app_nil_r.
  simpl. split_and!; [done|by rewrite Hl|by constructor].
Qed.

Lemma emits_map_all {A B} (f : A → Emit B) (ph : B → list nat) xs :
  (∀ x, emits (f x) (λ ns b, ns = ph b)) → emits (emap f xs) (λ ns bs, ns = bs ≫= ph).
Proof.
  intros Hf. apply (emits_mono _ (λ ns bs, ns = bs ≫= ph ∧ length bs = length xs ∧ Forall (λ _, True) bs)).
  - apply (emits_map _ _ (λ _, True)). intros x. by eapply emits_mono; [apply Hf|].
  - by intros ns bs [-> _].
Qed.
End emits.

Section build_lemmas.
#[local] Set Default Proof Using "Type".
Context (instantText : string → option string) (blindIndex : option (string → string)) (startIndex : nat).

Notation emits' m Φ := (emits startIndex m Φ) (only parsing).
Notation one := (λ ns c, ns = cond_placeholders c) (only parsing).
Notation many := (λ ns cs, ns = placeholders_of cs) (only parsing).

Lemma emits_one (m : Emit Cond) :
  emits' m one → emits' (let! c := m in eret [c]) (λ ns cs, ns = placeholders_of cs ∧ cs ≠ []).
Proof.
  intros Hm. apply (emits_bind _ _ _ _ _ Hm). intros ns c ->. apply emits_ret.
  unfold placeholders_of. simpl. by rewrite !app_nil_r.
Qed.

Lemma emits_operand p : emits' (operand_of startIndex p) (λ ns o, ns = operand_placeholders o).
Proof.
  destruct p as [cast b|text]; [|by apply emits_ret].
  apply (emits_bind _ _ _ _ _ (emits_binding _ b)). intros ns n ->. by apply emits_ret.
Qed.

Lemma emits_valueList target values :
  emits' (valueList instantText startIndex target values) (λ ns os, ns = os ≫= operand_placeholders).
Proof. apply emits_map_all. intros v. apply emits_operand. Qed.

Lemma emits_comparison target symbol v : emits' (comparisonCondition instantText startIndex target symbol v) one.
Proof.
  apply (emits_bind _ _ _ _ _ (emits_operand _)). intros ns o ->. apply emits_ret. by rewrite app_nil_r.
Qed.

Lemma emits_in_list target negated values :
  emits' (let! os := valueList instantText startIndex target values in eret (CIn (wc_column target) negated os)) one.
Proof.
  apply (emits_bind _ _ _ _ _ (emits_valueList _ _)). intros ns os ->. apply emits_ret. by rewrite app_nil_r.
Qed.

Lemma emits_contains_parts target v : emits' (contains_parts startIndex target v) many.
Proof.
  apply (emits_bind _ _ _ many).
  - destruct (prepareJsonbValue _) as [[cast b|]|]; try by apply emits_ret.
    apply (emits_bind _ _ _ _ _ (emits_binding _ b)). intros ns n ->. by apply emits_ret.
  - intros ns cs ->. destruct (isJsonbScalar v); [|apply emits_ret; by rewrite app_nil_r].
    apply (emits_bind _ _ _ _ _ (emits_binding _ _)). intros ms n ->. apply emits_ret.
    by rewrite placeholders_of_app, app_nil_r.
Qed.

Lemma emits_containsAny target candidates : emits' (jsonbContainsAny startIndex target candidates) one.
Proof.
  apply (emits_bind _ _ _ (λ ns pss, ns = pss ≫= placeholders_of)).
  - apply emits_map_all. intros v. apply emits_contains_parts.
  - intros ns pss ->.
    assert (Hc : ∀ l : list (list Cond), l ≫= placeholders_of = placeholders_of (concat l)).
    { induction l as [|x l IH]; [done|].
      rewrite bind_cons, IH. cbn [concat]. by rewrite placeholders_of_app. }
    rewrite Hc. destruct (concat pss) as [|p ps]; apply emits_ret; rewrite app_nil_r; [done|].
    cbn [cond_placeholders]. by rewrite placeholders_of_concat.
Qed.

Lemma emits_notEqual_jsonb target operand m :
  jsonbNotEqualCondition startIndex target operand = Some m → emits' m one.
Proof.
  unfold jsonbNotEqualCondition. destruct (as_array operand) as [[|v vs]|].
  - intros [= <-]. by apply emits_ret.
  - destruct (prepareJsonbValue operand) as [[cast b|]|]; [|done|done]. intros [= <-].
    apply (emits_bind _ _ _ _ _ (emits_binding _ b)). intros ns n ->. by apply emits_ret.
  - destruct (isJsonbScalar operand); [|done]. destruct (prepareJsonbValue _) as [[cast b|]|]; [|done|done].
    intros [= <-]. apply (emits_bind _ _ _ _ _ (emits_binding _ b)). intros ns n ->.
    apply (emits_bind _ _ _ _ _ (emits_binding _ _)). intros ms m' ->. by apply emits_ret.
Qed.

Notation clause := (λ ns cs, ns = placeholders_of cs) (only parsing).

(** Each operator contributes conditions over the values it bound. *)
Lemma emits_operator_jsonText target op : emits' (emitJsonText startIndex target op) clause.
Proof.
  unfold emitJsonText. destruct (negb _); [by apply emits_ret|].
  destruct (1 <? length op)%nat; [apply emits_throw|]. destruct (negb _); [apply emits_throw|].
  destruct (default _ _) as [|v vs]; [by apply emits_ret|].
  apply emits_map_all. intros w. unfold jsonTextMatchCondition.
  destruct (validJsonTextMatch w) as [[keys eq]|]; [|apply emits_throw].
  apply (emits_bind _ _ _ (λ ns ms, ns = ms ≫= (λ n, [n]))).
  - apply emits_map_all. intros k. apply emits_binding.
  - intros ns ms ->. apply (emits_bind _ _ _ _ _ (emits_binding _ _)). intros ks n ->.
    apply emits_ret. rewrite app_nil_r. cbn [cond_placeholders]. f_equal.
    induction ms as [|m ms IH]; [done|]. by rewrite bind_cons, IH.
Qed.

Lemma emits_weak (m : Emit (list Cond)) :
  emits' m (λ ns cs, ns = placeholders_of cs ∧ cs ≠ []) → emits' m clause.
Proof. intros H. eapply emits_mono; [exact H|]. by intros ns cs [-> _]. Qed.

Lemma emits_operator_comparison key symbol target op :
  emits' (comparisonEmitter instantText startIndex key symbol target op) clause.
Proof.
  unfold comparisonEmitter. destruct (negb _); [by apply emits_ret|].
  destruct (is_jsonb target); [by apply emits_ret|]. apply emits_weak, emits_one, emits_comparison.
Qed.

Lemma emits_operator_ne target op : emits' (emitNotEqual instantText startIndex target op) clause.
Proof.
  unfold emitNotEqual. destruct (negb _); [by apply emits_ret|].
  destruct (is_null _ && _); [by apply emits_ret|].
  destruct (if is_jsonb target then _ else _) as [m|] eqn:Hm; apply emits_weak, emits_one.
  - destruct (is_jsonb target); [|done]. by eapply emits_notEqual_jsonb.
  - apply emits_comparison.
Qed.

Lemma emits_operator_in target op : emits' (emitIn instantText startIndex target op) clause.
Proof.
  unfold emitIn. destruct (negb _); [by apply emits_ret|].
  destruct (as_array _) as [vs|]; [|apply emits_throw].
  destruct (is_jsonb target); [apply emits_weak, emits_one, emits_containsAny|].
  destruct vs as [|v vs]; [by apply emits_ret|].
  apply (emits_bind _ _ _ _ _ (emits_valueList _ _)). intros ns os ->. apply emits_ret.
  unfold placeholders_of. by rewrite app_nil_r, bind_cons, app_nil_r.
Qed.

Lemma emits_operator_notIn target op : emits' (emitNotIn instantText startIndex target op) clause.
Proof.
  unfold emitNotIn. destruct (negb _); [by apply emits_ret|].
  destruct (as_array _) as [vs|]; [|apply emits_throw]. destruct (is_jsonb target); [apply emits_throw|].
  destruct vs as [|v vs]; [by apply emits_ret|].
  apply (emits_bind _ _ _ _ _ (emits_valueList _ _)). intros ns os ->. apply emits_ret.
  unfold placeholders_of. by rewrite app_nil_r, bind_cons, app_nil_r.
Qed.

Definition emitter : Type := WhereColumn → list (string * Js) → Emit (list Cond).

Lemma emits_all_operators target op (es : list (string * emitter)) :
  Forall (λ e : string * emitter, emits' (e.2 target op) clause) es →
  emits' (emap (λ e : string * emitter, e.2 target op) es) (λ ns pss, ns = placeholders_of (concat pss)).
Proof.
  induction 1 as [|e es He _ IH]; simpl; [by apply emits_ret|].
  apply (emits_bind _ _ _ _ _ He). intros ns cs ->.
  apply (emits_bind _ _ _ _ _ IH). intros ms pss ->. apply emits_ret. cbn [concat].
  by rewrite app_nil_r, placeholders_of_app.
Qed.

Lemma emits_operatorConditions target op :
  emits' (operatorConditions instantText startIndex target op) (λ ns cs, ns = placeholders_of cs ∧ cs ≠ []).
Proof.
  apply (emits_bind _ _ _ (λ ns pss, ns = placeholders_of (concat pss))).
  - apply emits_all_operators. repeat constructor; cbn [snd];
      auto using emits_operator_jsonText, emits_operator_comparison, emits_operator_ne,
        emits_operator_in, emits_operator_notIn.
  - intros ns pss ->. destruct (concat pss) as [|c cs]; [apply emits_throw|].
    apply emits_ret. by rewrite app_nil_r.
Qed.

Lemma emits_equality target v : emits' (equalityCondition instantText blindIndex startIndex target v) one.
Proof.
  assert (Hplain : ∀ b cast, emits' (let! n := bind startIndex b in
            eret (CCompare (wc_column target) "=" (OpParam n cast))) one).
  { intros b cast. apply (emits_bind _ _ _ _ _ (emits_binding _ b)). intros ns n ->. by apply emits_ret. }
  unfold equalityCondition. destruct (prepareValue _ _ _) as [cast b|text]; [|by apply emits_ret].
  destruct blindIndex as [hmac|]; [|apply Hplain].
  destruct v as [|[| | |s'| |]| | |]; try apply Hplain.
  destruct (_ && _); [|apply Hplain].
  apply (emits_bind _ _ _ _ _ (emits_binding _ b)). intros ns n ->.
  apply (emits_bind _ _ _ _ _ (emits_binding _ _)). intros ms m ->. by apply emits_ret.
Qed.

Lemma emits_conditionsForValue target v :
  emits' (conditionsForValue instantText blindIndex startIndex target v)
    (λ ns cs, ns = placeholders_of cs ∧ cs ≠ []).
Proof.
  unfold conditionsForValue. destruct (is_null v); [by apply emits_ret|].
  destruct (as_array v) as [vs|].
  - apply emits_one. unfold arrayCondition. destruct vs as [|w ws]; [by apply emits_ret|].
    destruct (is_jsonb target); [apply emits_containsAny|apply emits_in_list].
  - destruct (isWhereOperator instantText startIndex v) as [op|]; [apply emits_operatorConditions|].
    destruct (_ && _); apply emits_one; [apply emits_containsAny|apply emits_equality].
Qed.

Lemma emits_where info where_ :
  emits' (where_conditions instantText blindIndex startIndex info where_)
    (λ ns cs, ns = placeholders_of cs ∧ (length where_ ≤ length cs)%nat).
Proof.
  eapply emits_bind.
  - apply (emits_map _ _ placeholders_of (λ cs, cs ≠ [])). intros fv. apply emits_conditionsForValue.
  - intros ns pss (-> & Hl & Hg). apply emits_ret. rewrite app_nil_r. split.
    + clear. induction pss as [|p pss IH]; [done|]. rewrite bind_cons, IH. cbn [concat].
      by rewrite placeholders_of_app.
    + rewrite <- Hl. clear Hl. induction Hg as [|p pss Hp _ IH]; simpl; [lia|].
      rewrite length_app. destruct p; simpl; [done|lia].
Qed.
End build_lemmas.

(** A where object with n fields yields at least n conditions, so a statement never loses
    its WHERE, and the placeholders of the conditions, read from left to right, are consecutive
    from the start index and are exactly the values bound, each once and in order. *)
Theorem where_clause_is_complete instantText blindIndex startIndex info where_ conditions values :
  where_conditions instantText blindIndex startIndex info where_ [] = Ok (conditions, values) →
  (length where_ ≤ length conditions)%nat ∧
  placeholders_of conditions = seq startIndex (length values).
Proof.
  intros H. destruct (emits_where instantText blindIndex startIndex info where_ _ _ _ H)
    as (new & -> & Hph & Hl). split; [done|]. rewrite <- Hph. simpl. by rewrite Nat.add_0_r.
Qed.

(** ** Reading a clause back *)

Lemma emap_elem {A B} (f : A → Emit B) xs values ys values' x :
  (∀ y v b v', f y v = Ok (b, v') → v `prefix_of` v') →
  emap f xs values = Ok (ys, values') → x ∈ xs →
  ∃ y v0 v1, f x v0 = Ok (y, v1) ∧ y ∈ ys ∧ v1 `prefix_of` values'.
Proof.
  intros Hext. revert values ys values'. induction xs as [|z xs IH]; intros values ys values' H Hx; [set_solver|].
  cbn [emap] in H. unfold ebind in H. apply result_bind_Ok in H as ([b v1] & H1 & H).
  apply result_bind_Ok in H as ([bs v2] & H2 & H). cbn in H2, H. injection H as <- <-.
  assert (Hp : ∀ zs v0 cs v', emap f zs v0 = Ok (cs, v') → v0 `prefix_of` v').
  { clear -Hext. induction zs as [|z zs IH]; intros v0 cs v' H; cbn [emap] in H; [by injection H as <- <-|].
    unfold ebind in H. apply result_bind_Ok in H as ([b v1] & H1 & H).
    apply result_bind_Ok in H as ([bs v2] & H2 & H). cbn in H2, H. injection H as <- <-.
    etrans; [by eapply Hext|by eapply IH]. }
  apply elem_of_cons in Hx as [->|Hx].
  - exists b, values, v1. split; [done|]. split; [set_solver|]. by eapply Hp.
  - destruct (IH _ _ _ H2 Hx) as (y & v0 & v3 & Hy & Hin & Hpre). exists y, v0, v3. set_solver.
Qed.

Lemma emits_prefix {A} startIndex (m : Emit A) Φ v a v' :
  emits startIndex m Φ → m v = Ok (a, v') → v `prefix_of` v'.
Proof. intros Hm H. destruct (Hm _ _ _ H) as (new & -> & _). by eexists. Qed.

(** The conditions of each entry are among those of the clause. *)
Lemma where_conditions_entry instantText blindIndex startIndex info where_ conditions values field v :
  where_conditions instantText blindIndex startIndex info where_ [] = Ok (conditions, values) →
  (field, v) ∈ where_ →
  ∃ cs v0 v1,
    conditionsForValue instantText blindIndex startIndex (where_column info field) v v0 = Ok (cs, v1) ∧
    (∀ c, c ∈ cs → c ∈ conditions) ∧ v1 `prefix_of` values.
Proof.
  intros H Hin. unfold where_conditions, ebind in H. apply result_bind_Ok in H as ([pss v'] & H & Heq).
  cbn in Heq. injection Heq as <- <-.
  eapply (emap_elem _ _ _ _ _ (field, v)) in H as (cs & v0 & v1 & Hf & Hcs & Hp); [|clear Hin|done].
  - exists cs, v0, v1. split; [done|]. split; [|done]. intros c Hc. apply list_elem_of_In, in_concat.
    exists cs. by rewrite <- !list_elem_of_In.
  - intros fv w b w'. apply (emits_prefix startIndex _ _ _ _ _ (emits_conditionsForValue instantText blindIndex startIndex _ _)).
Qed.

Lemma admitted_elem pg env row conditions c :
  admitted pg env row conditions = true → c ∈ conditions → cond_eval pg env row c = Some true.
Proof.
  unfold admitted. rewrite forallb_forall. intros H Hc%list_elem_of_In. specialize (H c Hc).
  by destruct (cond_eval _ _ _ _) as [[]|].
Qed.

Lemma any3_true l : any3 l = Some true → Some true ∈ l.
Proof.
  induction l as [|a l IH]; [done|]. simpl. destruct a as [[]|]; simpl; [set_solver|..];
    destruct (any3 l) as [[]|]; try done; set_solver.
Qed.

(** Text binds as itself on a text or uuid column. *)
Definition text_column (pgType : option string) : Prop := pgType = Some "text" ∨ pgType = Some "uuid".

Lemma prepareValue_text instantText pgType s :
  text_column pgType → prepareValue instantText (JsJson (JStr s)) pgType = Param NoCast (BoundValue (JsJson (JStr s))).
Proof. by intros [->| ->]. Qed.

Lemma not_jsonb target : text_column (wc_pgType target) → is_jsonb target = false.
Proof. unfold is_jsonb. by intros [->| ->]. Qed.

Section text_lists.
Context (instantText : string → option string) (startIndex : nat) (target : WhereColumn)
  (Htext : text_column (wc_pgType target)).

Definition string_values (ids : list string) : list Js := (λ s, JsJson (JStr s)) <$> ids.

Lemma valueList_strings ids values os values' o :
  valueList instantText startIndex target (string_values ids) values = Ok (os, values') → o ∈ os →
  ∃ n s, o = OpParam (startIndex + n) NoCast ∧ s ∈ ids ∧ values' !! n = Some (BoundValue (JsJson (JStr s))).
Proof using Htext.
  revert values os. induction ids as [|id ids IH]; intros values os H Ho.
  { cbn in H. injection H as <- <-. set_solver. }
  unfold valueList, string_values in *. rewrite fmap_cons in H. cbn [emap] in H.
  rewrite (prepareValue_text _ _ _ Htext) in H.
  apply result_bind_Ok in H as ([o1 v1] & H1 & H). cbn in H1. injection H1 as <- <-.
  apply result_bind_Ok in H as ([os' v2] & H2 & H). cbn [fst snd] in H2, H. injection H as <- <-.
  apply elem_of_cons in Ho as [->|Ho].
  - exists (length values), id. split; [done|]. split; [set_solver|].
    assert (Hp : values ++ [BoundValue (JsJson (JStr id))] `prefix_of` v2).
    { eapply emits_prefix; [|exact H2]. apply (emits_valueList instantText startIndex target). }
    destruct Hp as [rest ->]. rewrite <- app_assoc. by apply list_lookup_middle.
  - destruct (IH _ _ H2 Ho) as (n & s & -> & Hs & Hl). exists n, s. set_solver.
Qed.
End text_lists.


(** ** A concrete clause *)

Definition notes_info : TableInfo :=
  extractTableInfo (mkMeta "notes" [mkColumn "tenant_id" "uuid" false; mkColumn "tags" "jsonb" false;
    mkColumn "rank" "integer" false] None [] None).

Definition notes_where : WhereObject :=
  [("tenantId", JsArray [JsJson (JStr "acme"); JsJson (JStr "system")]);
   ("tags", JsJson (JStr "red")); ("rank", JsObject [("gte", JsJson (JNum 3)); ("lt", JsUndefined)])].

Example notes_where_text :
  fst <$> (match buildWhereClause (λ _, None) None 1 notes_info notes_where None with Ok r => Some r | Err _ => None end)
  = Some (join_with "" [quoteIdent "tenant_id"; " IN ($1, $2) AND ("; quoteIdent "tags"; " @> $3::jsonb OR ";
          quoteIdent "tags"; " = $4::text::jsonb) AND "; quoteIdent "rank"; " >= $5"]).
Proof. vm_compute. reflexivity. Qed.

Definition notes_clause : list Cond * list Bound := Eval vm_compute in
  match where_conditions (λ _, None) None 1 notes_info notes_where [] with Ok r => r | Err _ => ([], []) end.

Lemma where_clause_is_complete_witness :
  where_conditions (λ _, None) None 1 notes_info notes_where [] = Ok (notes_clause.1, notes_clause.2) ∧
  (3 ≤ length notes_clause.1)%nat ∧ placeholders_of notes_clause.1 = seq 1 (length notes_clause.2).
Proof.
  assert (H : where_conditions (λ _, None) None 1 notes_info notes_where [] = Ok (notes_clause.1, notes_clause.2))
    by (vm_compute; reflexivity).
  split; [exact H|]. exact (where_clause_is_complete _ _ _ _ _ _ _ H).
Defined.
