(* ===== verification/TenantDb.v ===== *)
(** * The tenant database handle

    [db/tenant-db.ts], [tenant-id-filter.ts], [tenant-db-upsert.ts] and the
    statements of [query.ts] they issue, under the row-level-security policies
    of [render-rls-ddl.ts].  A table is its list of rows, a row a map from
    column names to values.  Select options beyond the where clause, telemetry
    and the audit reports are left out; unique constraints are the parameter
    [violates]. *)

From S2P Require Import Prelude TableInfo Ownership FieldAccess WhereClause.

Notation DbRow := (gmap string Json) (only parsing).

Definition SYSTEM_TENANT_ID : string := "00000000-0000-4000-8000-000000000000".
Definition TENANT_COLUMN : string := "tenant_id".

(** ** Tables and handles *)

Record DbTable := mkDbTable {
  dt_meta : EntityTableMeta;
  dt_systemRowsReadable : bool;
  (** in the registry of [executor-managed-tables.ts] *)
  dt_executorManaged : bool }.

Inductive TenantDbMode := ModeTenant | ModeSystem.

Record TenantDbGrants := mkGrants {
  gr_globalWrites : option string;
  gr_writesDeniedReason : option string;
  (** refuses fields an anonymous caller may not store *)
  gr_personalDataGate : option (string → list string → bool) }.

Record TenantDb := mkTenantDb {
  td_tenantId : string;
  td_mode : TenantDbMode;
  td_grants : TenantDbGrants;
  (** the runner may write executor-managed tables *)
  td_capability : bool }.

Inductive DbError :=
| WritesDenied (operation reason : string)
| GlobalTableDenied (operation : string)
| NotGlobalTable
| MissingEscapeHatch
| ForeignTenantOnGlobal
| PersonalDataDenied
| ExecutorManagedDenied (operation : string)
| WhereRequired (operation : string)
| WhereInvalid (e : WhereError)
| EmptyInsert
| EmptySet
| ConflictTargetWithoutTenant
| ConflictTargetUndeclared
| UpdateSetsTenant
| ValuesWithoutTenant
| NothingToUpdate
| PgUndefinedColumn (column : string)
| PgDuplicateColumn
| PgRowLevelSecurity
| PgConstraint.

Definition hasTenantColumn (table : DbTable) : bool :=
  bool_decide (TENANT_COLUMN ∈ cm_name <$> tm_columns (dt_meta table)).

Definition is_global (table : DbTable) : bool := bool_decide (tm_tenancy (dt_meta table) = Some "global").
Definition is_tenant_mode (db : TenantDb) : bool := match td_mode db with ModeTenant => true | ModeSystem => false end.

(** ** Row-level security *)

Inductive RowLevelSecurityScope := ScopeTenant (tenantId : string) | ScopeSystem.

Definition tenantDbRowLevelSecurityScope (db : TenantDb) (table : DbTable) : RowLevelSecurityScope :=
  match td_mode db with
  | ModeSystem => ScopeSystem
  | ModeTenant => if is_global table then ScopeSystem else ScopeTenant (td_tenantId db)
  end.

Definition column_value (row : DbRow) (column : string) : Json := default JNull (row !! column).

Definition tenant_is (tenantId : string) (row : DbRow) : bool :=
  match column_value row TENANT_COLUMN with JStr t => bool_decide (t = tenantId) | _ => false end.

(** The isolation policy, for every command, as [USING] and [WITH CHECK]. *)
Definition isolation (scope : RowLevelSecurityScope) (row : DbRow) : bool :=
  match scope with
  | ScopeSystem => true
  | ScopeTenant t => tenant_is t row
  end.

(** The read policy of tables whose system rows every tenant may see. *)
Definition system_read (table : DbTable) (row : DbRow) : bool :=
  dt_systemRowsReadable table && tenant_is SYSTEM_TENANT_ID row.

Definition rls_selects (rls : bool) (scope : RowLevelSecurityScope) (table : DbTable) (row : DbRow) : bool :=
  if rls && hasTenantColumn table then isolation scope row || system_read table row else true.

Definition rls_writes (rls : bool) (scope : RowLevelSecurityScope) (table : DbTable) (row : DbRow) : bool :=
  if rls && hasTenantColumn table then isolation scope row else true.

(** ** The tenant filter *)

Definition same_js (a : Js) (b : string) : bool :=
  match a with JsJson (JStr s) => bool_decide (s = b) | _ => false end.

Definition tenantIdsAfterExclusion (requested : Js) (allowed : list string) : option (list string) :=
  match as_object requested with
  | None => None
  | Some o =>
      match assoc_get "ne" o with
      | Some ne => Some (filter (λ t, same_js ne t = false) allowed)
      | None => match as_array (js_get "notIn" o) with
                | Some excluded => Some (filter (λ t, existsb (λ x, same_js x t) excluded = false) allowed)
                | None => None
                end
      end
  end.

Definition requestedTenantIds (requested : Js) : option (list Js) :=
  match as_array requested with
  | Some vs => Some vs
  | None =>
      match as_object requested with
      | None => Some [requested]
      | Some o => match as_array (js_get "in" o) with
                  | Some vs => Some vs
                  | None => match assoc_get "eq" o with Some v => Some [v] | None => None end
                  end
      end
  end.

Definition isForeignTenantId (v : Js) : bool := is_defined v && negb (same_js v SYSTEM_TENANT_ID).

Definition js_strings (l : list string) : Js := JsArray ((λ s, JsJson (JStr s)) <$> l).

Definition allowed_ids (db : TenantDb) : list string := [td_tenantId db; SYSTEM_TENANT_ID].

(** The strings of a list that are in the allowed scope. *)
Definition narrow (allowed : list string) (requested : list Js) : list string :=
  omap (λ v, match v with
             | JsJson (JStr s) => if bool_decide (s ∈ allowed) then Some s else None
             | _ => None end) requested.

(** The tenant ids the enforced filter lets through. *)
Definition read_scope (db : TenantDb) (requested : Js) : list string :=
  let allowed := allowed_ids db in
  if negb (is_defined requested) then allowed
  else match requestedTenantIds requested with
       | None => default allowed (tenantIdsAfterExclusion requested allowed)
       | Some [] => []
       | Some list => match narrow allowed list with [] => allowed | ids => ids end
       end.

Definition readWhere (db : TenantDb) (table : DbTable) (where_ : WhereObject) : WhereObject :=
  if negb (hasTenantColumn table) || negb (is_tenant_mode db) then where_
  else assoc_set "tenantId" (js_strings (read_scope db (js_get "tenantId" where_))) where_.

Definition writeWhere (db : TenantDb) (table : DbTable) (where_ : WhereObject) : WhereObject :=
  if negb (hasTenantColumn table) || negb (is_tenant_mode db) then where_
  else assoc_set "tenantId" (JsJson (JStr (td_tenantId db))) where_.

Definition insertValues (db : TenantDb) (table : DbTable) (data : list (string * Js)) : list (string * Js) :=
  let own := JsJson (JStr (td_tenantId db)) in
  if negb (hasTenantColumn table) then data
  else match td_mode db with
       | ModeSystem => if bool_decide (is_Some (assoc_get "tenantId" data)) then data
                       else ("tenantId", own) :: data
       | ModeTenant => assoc_set "tenantId" own data
       end.

(** ** Statements *)

Section statements.
Context (pg : PgSemantics) (instantText : string → option string) (blindIndex : option (string → string))
  (violates : list (gmap string Json) → gmap string Json → bool) (rls : bool).

Definition info_of (table : DbTable) : TableInfo := extractTableInfo (dt_meta table).

(** [WHERE] of the built clause on one row; no clause for an empty object. *)
Definition passes (table : DbTable) (where_ : WhereObject) : result DbError (DbRow → bool) :=
  match where_conditions instantText blindIndex 1 (info_of table) where_ [] with
  | Err e => Err (WhereInvalid e)
  | Ok (conditions, values) => Ok (λ row, admitted pg (bound_at 1 values) (column_value row) conditions)
  end.

Definition bunSelectMany (scope : RowLevelSecurityScope) (table : DbTable) (rows : list DbRow)
    (where_ : WhereObject) : result DbError (list DbRow) :=
  let? p := passes table where_ in
  Ok (filter (λ row, rls_selects rls scope table row = true ∧ p row = true) rows).

Definition bunFetchOne (scope : RowLevelSecurityScope) (table : DbTable) (rows : list DbRow)
    (where_ : WhereObject) : result DbError (option DbRow) :=
  let? found := bunSelectMany scope table rows where_ in Ok (head found).

Definition bunCountWhere (scope : RowLevelSecurityScope) (table : DbTable) (rows : list DbRow)
    (where_ : WhereObject) : result DbError nat :=
  let? found := bunSelectMany scope table rows where_ in Ok (length found).

(** The value a prepared entry stores. *)
Definition stored_value (table : DbTable) (column : string) (v : Js) : Json :=
  match prepareValue instantText v (pgTypeOf (info_of table) column) with
  | Param _ b => bound_json b
  | Literal text => pg_literal pg text
  end.

Definition entry_of (table : DbTable) (kv : string * Js) : string * Json :=
  let column := columnOf (info_of table) kv.1 in (column, stored_value table column kv.2).

Definition insertEntries (table : DbTable) (values : list (string * Js)) : list (string * Json) :=
  entry_of table <$> filter (λ kv, hasColumn (info_of table) kv.1 = true) values.

Definition checked_columns (table : DbTable) (entries : list (string * Json)) : result DbError () :=
  match list_find (λ e, e.1 ∉ cm_name <$> tm_columns (dt_meta table)) entries with
  | Some (_, e) => Err (PgUndefinedColumn e.1)
  | None => if bool_decide (NoDup entries.*1) then Ok tt else Err PgDuplicateColumn
  end.

Definition bunInsertOne (scope : RowLevelSecurityScope) (table : DbTable) (rows : list DbRow)
    (values : list (string * Js)) : result DbError (DbRow * list DbRow) :=
  match insertEntries table values with
  | [] => Err EmptyInsert
  | entries =>
      let? _ := checked_columns table entries in
      let row := list_to_map entries in
      if negb (rls_writes rls scope table row) then Err PgRowLevelSecurity
      else if violates rows row then Err PgConstraint
      else Ok (row, rows ++ [row])
  end.

(** Every matching row gets the set values; one bad row fails the statement. *)
Fixpoint update_rows (check : DbRow → bool) (matches : DbRow → bool) (set : DbRow) (rows : list DbRow)
    : result DbError (list DbRow * list DbRow) :=
  match rows with
  | [] => Ok ([], [])
  | row :: rest =>
      let? r := update_rows check matches set rest in
      if matches row then
        let row' := set ∪ row in
        if check row' then Ok (row' :: r.1, row' :: r.2) else Err PgRowLevelSecurity
      else Ok (r.1, row :: r.2)
  end.

Definition bunUpdateMany (scope : RowLevelSecurityScope) (table : DbTable) (rows : list DbRow)
    (set : list (string * Js)) (where_ : WhereObject) : result DbError (list DbRow * list DbRow) :=
  match entry_of table <$> set with
  | [] => Err EmptySet
  | entries =>
      let? p := passes table where_ in
      let? _ := checked_columns table entries in
      let? r := update_rows (rls_writes rls scope table)
                  (λ row, rls_writes rls scope table row && p row) (list_to_map entries) rows in
      if existsb (violates r.2) r.1 then Err PgConstraint else Ok r
  end.

Definition bunDeleteMany (scope : RowLevelSecurityScope) (table : DbTable) (rows : list DbRow)
    (where_ : WhereObject) : result DbError (nat * list DbRow) :=
  let? p := passes table where_ in
  let gone := filter (λ row, rls_writes rls scope table row = true ∧ p row = true) rows in
  Ok (length gone, filter (λ row, ¬ (rls_writes rls scope table row = true ∧ p row = true)) rows).

(** ** Upsert *)

Definition sameColumnSet (a b : list string) : bool :=
  (length a =? length b)%nat && bool_decide (NoDup a) && forallb (λ c, bool_decide (c ∈ b)) a.

Definition primary_key_columns (meta : EntityTableMeta) : list string :=
  cm_name <$> filter (λ c, cm_primaryKey c = true) (tm_columns meta).

Definition declaredUniqueColumnSets (meta : EntityTableMeta) : list (list string) :=
  (ix_columns <$> filter (λ i, ix_unique i = true ∧ ix_whereSql i = None ∧ ix_needsManualWhere i = false)
                    (tm_indexes meta))
  ++ match tm_compositePrimaryKey meta with Some cols => [cols] | None => [] end
  ++ match primary_key_columns meta with [] => [] | cols => [cols] end.

Definition primaryKeyColumnsOf (meta : EntityTableMeta) : list string :=
  primary_key_columns meta ++ default [] (tm_compositePrimaryKey meta).

Definition assertTenantSafeConflictTarget (meta : EntityTableMeta) (conflictCols : list string)
    : result DbError () :=
  if bool_decide (conflictCols = [] ∨ TENANT_COLUMN ∉ conflictCols) then Err ConflictTargetWithoutTenant
  else if existsb (λ s, sameColumnSet s conflictCols) (declaredUniqueColumnSets meta) then Ok tt
  else Err ConflictTargetUndeclared.

(** The columns set on conflict: the given update, or the inserted values of
    the columns outside [skipCols]. *)
Definition conflictUpdateParts (table : DbTable) (entries : list (string * Json))
    (update : option (list (string * Js))) (skipCols : list string) : list (string * Json) :=
  match update with
  | None => filter (λ e, e.1 ∉ skipCols) entries
  | Some u => entry_of table <$> u
  end.

Definition same_on (columns : list string) (a b : DbRow) : bool :=
  forallb (λ c, match column_value a c with JNull => false | v => strict_equals v (column_value b c) end) columns.

Definition upsertTenantRow (scope : RowLevelSecurityScope) (table : DbTable) (rows : list DbRow)
    (values : list (string * Js)) (conflictTarget : list string) (update : option (list (string * Js)))
    : result DbError (option DbRow * list DbRow) :=
  let info := info_of table in
  let conflictCols := columnOf info <$> conflictTarget in
  let? _ := (if hasColumn info "tenantId" then Ok tt else Err ValuesWithoutTenant) in
  let? _ := assertTenantSafeConflictTarget (dt_meta table) conflictCols in
  if existsb (λ kv, bool_decide (columnOf info kv.1 = TENANT_COLUMN)) (default [] update)
  then Err UpdateSetsTenant
  else
    let entries := insertEntries table values in
    if negb (bool_decide (TENANT_COLUMN ∈ entries.*1)) then Err ValuesWithoutTenant
    else
      let skipCols := conflictCols ++ primaryKeyColumnsOf (dt_meta table) ++ [TENANT_COLUMN] in
      let parts := conflictUpdateParts table entries update skipCols in
      if (length parts =? 0)%nat then Err NothingToUpdate
      else
        let? _ := checked_columns table entries in
        let? _ := checked_columns table parts in
        let row : DbRow := list_to_map entries in
        if negb (rls_writes rls scope table row) then Err PgRowLevelSecurity
        else match list_find (λ old, same_on conflictCols row old = true) rows with
             | None => if violates rows row then Err PgConstraint else Ok (Some row, rows ++ [row])
             | Some (i, old) =>
                 let new := list_to_map parts ∪ old in
                 if negb (same_on [TENANT_COLUMN] row old) then Ok (None, rows)
                 else if negb (rls_writes rls scope table old && rls_writes rls scope table new)
                 then Err PgRowLevelSecurity
                 else if violates (delete i rows) new then Err PgConstraint
                 else Ok (Some new, <[i := new]> rows)
             end.

(** ** The handle *)

Definition guard (denials : list (option DbError)) : result DbError () :=
  match head (omap id denials) with Some e => Err e | None => Ok tt end.

Definition writesDenied (db : TenantDb) (operation : string) : option DbError :=
  WritesDenied operation <$> gr_writesDeniedReason (td_grants db).

Definition executorManagedWriteDenied (db : TenantDb) (table : DbTable) (operation : string) : option DbError :=
  if negb (dt_executorManaged table) || td_capability db then None else Some (ExecutorManagedDenied operation).

Definition personalDataDenied (db : TenantDb) (table : DbTable) (keys : list string) : option DbError :=
  match gr_personalDataGate (td_grants db) with
  | Some gate => if gate (tm_tableName (dt_meta table)) keys then None else Some PersonalDataDenied
  | None => None
  end.

Definition foreignTenantOnGlobalWrite (v : Js) : option DbError :=
  if isForeignTenantId v then Some ForeignTenantOnGlobal else None.

Definition tenantWriteOnGlobalTable (db : TenantDb) (table : DbTable) (method : string) : option DbError :=
  if negb (is_tenant_mode db) || negb (hasTenantColumn table) || negb (is_global table) then None
  else Some (GlobalTableDenied method).

Definition scope_of := tenantDbRowLevelSecurityScope.

Definition selectMany (db : TenantDb) (table : DbTable) (rows : list DbRow) (where_ : WhereObject)
    : result DbError (list DbRow) :=
  bunSelectMany (scope_of db table) table rows (readWhere db table where_).

Definition fetchOne (db : TenantDb) (table : DbTable) (rows : list DbRow) (where_ : WhereObject)
    : result DbError (option DbRow) :=
  bunFetchOne (scope_of db table) table rows (readWhere db table where_).

Definition count (db : TenantDb) (table : DbTable) (rows : list DbRow) (where_ : WhereObject)
    : result DbError nat :=
  bunCountWhere (scope_of db table) table rows (readWhere db table where_).

Definition insertOne (db : TenantDb) (table : DbTable) (rows : list DbRow) (values : list (string * Js))
    : result DbError (DbRow * list DbRow) :=
  let? _ := guard
    [writesDenied db "ctx.db.insertOne";
     (if is_tenant_mode db && hasTenantColumn table && is_global table
      then foreignTenantOnGlobalWrite (JsJson (JStr (td_tenantId db))) else None);
     personalDataDenied db table values.*1;
     executorManagedWriteDenied db table "ctx.db.insertOne"] in
  bunInsertOne (scope_of db table) table rows (insertValues db table values).

Definition upsertTableDenied (db : TenantDb) (table : DbTable) : option DbError :=
  if dt_executorManaged table then Some (ExecutorManagedDenied "ctx.db.upsert")
  else if is_tenant_mode db && is_global table then Some (GlobalTableDenied "upsert") else None.

Definition upsert (db : TenantDb) (table : DbTable) (rows : list DbRow) (values : list (string * Js))
    (conflictTarget : list string) (update : option (list (string * Js)))
    : result DbError (option DbRow * list DbRow) :=
  let? _ := guard
    [writesDenied db "ctx.db.upsert"; upsertTableDenied db table;
     personalDataDenied db table (values.*1 ++ (default [] update).*1)] in
  upsertTenantRow (scope_of db table) table rows (insertValues db table values) conflictTarget update.

Definition where_required (operation : string) (where_ : WhereObject) : option DbError :=
  match where_ with [] => Some (WhereRequired operation) | _ => None end.

Definition updateMany (db : TenantDb) (table : DbTable) (rows : list DbRow) (set : list (string * Js))
    (where_ : WhereObject) : result DbError (list DbRow * list DbRow) :=
  let? _ := guard
    [writesDenied db "ctx.db.updateMany"; where_required "updateMany" where_;
     tenantWriteOnGlobalTable db table "updateMany"; personalDataDenied db table set.*1;
     executorManagedWriteDenied db table "ctx.db.updateMany"] in
  bunUpdateMany (scope_of db table) table rows set (writeWhere db table where_).

Definition deleteMany (db : TenantDb) (table : DbTable) (rows : list DbRow) (where_ : WhereObject)
    : result DbError (nat * list DbRow) :=
  let? _ := guard
    [writesDenied db "ctx.db.deleteMany"; where_required "deleteMany" where_;
     tenantWriteOnGlobalTable db table "deleteMany";
     executorManagedWriteDenied db table "ctx.db.deleteMany"] in
  bunDeleteMany (scope_of db table) table rows (writeWhere db table where_).

(** ** [db.global(table)] *)

Definition hasGrant (reason : option string) : bool :=
  match reason with Some r => FieldAccess.not_blank r | None => false end.

Definition missingEscapeHatch (db : TenantDb) : option DbError :=
  if hasGrant (gr_globalWrites (td_grants db)) then None else Some MissingEscapeHatch.

Definition globalTable (table : DbTable) : result DbError () :=
  if is_global table then Ok tt else Err NotGlobalTable.

Definition global_insertOne (db : TenantDb) (table : DbTable) (rows : list DbRow) (values : list (string * Js))
    : result DbError (DbRow * list DbRow) :=
  let? _ := globalTable table in
  let? _ := guard
    [writesDenied db "ctx.db.global().insertOne"; missingEscapeHatch db;
     executorManagedWriteDenied db table "db.global().insertOne";
     foreignTenantOnGlobalWrite (js_get "tenantId" values); personalDataDenied db table values.*1] in
  bunInsertOne (scope_of db table) table rows values.

Definition global_updateMany (db : TenantDb) (table : DbTable) (rows : list DbRow) (set : list (string * Js))
    (where_ : WhereObject) : result DbError (list DbRow * list DbRow) :=
  let? _ := globalTable table in
  let? _ := guard
    [writesDenied db "ctx.db.global().updateMany"; missingEscapeHatch db;
     executorManagedWriteDenied db table "db.global().updateMany";
     foreignTenantOnGlobalWrite (js_get "tenantId" set); personalDataDenied db table set.*1;
     where_required "updateMany" where_] in
  bunUpdateMany (scope_of db table) table rows set where_.

Definition global_deleteMany (db : TenantDb) (table : DbTable) (rows : list DbRow) (where_ : WhereObject)
    : result DbError (nat * list DbRow) :=
  let? _ := globalTable table in
  let? _ := guard
    [writesDenied db "ctx.db.global().deleteMany"; missingEscapeHatch db;
     executorManagedWriteDenied db table "db.global().deleteMany"; where_required "deleteMany" where_] in
  bunDeleteMany (scope_of db table) table rows where_.
End statements.

(** ** Well-formed tenant columns *)

(** The tenant column is text or uuid and resolves from its field name, and no
    blind index sits beside it. *)
Definition tenant_column_ok (table : DbTable) : Prop :=
  hasTenantColumn table = true ∧
  columnOf (extractTableInfo (dt_meta table)) "tenantId" = TENANT_COLUMN ∧
  hasColumn (extractTableInfo (dt_meta table)) "tenantId" = true ∧
  text_column (pgTypeOf (extractTableInfo (dt_meta table)) TENANT_COLUMN) ∧
  hasColumn (extractTableInfo (dt_meta table)) "tenant_id_bidx" = false.

Definition text_or_null (v : Json) : bool := match v with JStr _ | JNull => true | _ => false end.

(** What a text column holds. *)
Definition tenants_typed (rows : list DbRow) : Prop :=
  Forall (λ row, text_or_null (column_value row TENANT_COLUMN) = true) rows.

Definition in_scope (ids : list string) (row : DbRow) : Prop := ∃ t, t ∈ ids ∧ tenant_is t row = true.

Lemma tenant_is_spec t row : tenant_is t row = true ↔ column_value row TENANT_COLUMN = JStr t.
Proof.
  unfold tenant_is. destruct (column_value row TENANT_COLUMN) as [| | |s| |]; try done.
  rewrite bool_decide_eq_true. naive_solver.
Qed.

Lemma assoc_set_elem {V} k (v : V) m : (k, v) ∈ assoc_set k v m.
Proof. apply assoc_get_elem_of, assoc_get_set_eq. Qed.

Section scope_lemmas.
Context (pg : PgSemantics) (instantText : string → option string) (blindIndex : option (string → string)).
Context (table : DbTable) (Hok : tenant_column_ok table).

Lemma tenant_where_column :
  where_column (info_of table) "tenantId" =
  mkWhereColumn (info_of table) TENANT_COLUMN (pgTypeOf (info_of table) TENANT_COLUMN).
Proof using Hok. destruct Hok as (_ & Hc & _). unfold where_column, info_of. by rewrite Hc. Qed.

(** An equality on text that holds is an equality of the strings. *)
Lemma compare_text_true row s :
  text_or_null (column_value row TENANT_COLUMN) = true →
  compare3 pg "=" (column_value row TENANT_COLUMN) (JStr s) = Some true → tenant_is s row = true.
Proof.
  rewrite tenant_is_spec. destruct (column_value row TENANT_COLUMN) as [| | |t| |]; try done.
  intros _. unfold compare3; cbn. intros [= ->%bool_decide_eq_true]. done.
Qed.

Lemma bound_at_spec values n b : values !! n = Some b → bound_at 1 values (1 + n) = bound_json b.
Proof. intros H. unfold bound_at. replace (1 + n - 1)%nat with n by lia. by rewrite H. Qed.

(** The enforced list of tenants holds of every row that passes. *)
Lemma passes_tenant_list where_ ids p row :
  passes pg instantText blindIndex table (assoc_set "tenantId" (js_strings ids) where_) = Ok p →
  text_or_null (column_value row TENANT_COLUMN) = true → p row = true → in_scope ids row.
Proof using Hok.
  unfold passes. destruct (where_conditions _ _ _ _ _ _) as [[conditions values]|] eqn:Hw; [|done].
  intros [= <-] Htyped Hadm.
  destruct (where_conditions_entry _ _ _ _ _ _ _ _ _ Hw (assoc_set_elem "tenantId" (js_strings ids) where_))
    as (cs & v0 & v1 & Hcs & Hin & Hpre).
  rewrite tenant_where_column in Hcs. destruct Hok as (_ & _ & _ & Htext & _).
  assert (Hone : ∀ c, cs = [c] → cond_eval pg (bound_at 1 values) (column_value row) c = Some true).
  { intros c ->. apply (admitted_elem _ _ _ conditions); [done|]. apply Hin. set_solver. }
  destruct ids as [|id ids].
  { cbn in Hcs. injection Hcs as <- <-. by specialize (Hone CFalse eq_refl). }
  set (target := mkWhereColumn _ _ _) in Hcs.
  assert (Hlist : (let! c := (let! os := valueList instantText 1 target (string_values (id :: ids)) in
            eret (CIn (wc_column target) false os)) in eret [c]) v0 = Ok (cs, v1)).
  { rewrite <- Hcs. unfold conditionsForValue, arrayCondition. cbn [js_strings is_null as_array fmap].
    by rewrite (not_jsonb target). }
  clear Hcs. rename Hlist into Hcs.
  apply result_bind_Ok in Hcs as ([c v2] & Hcs & Heq). injection Heq as <- <-.
  apply result_bind_Ok in Hcs as ([os v3] & Hos & Heq). injection Heq as <- <-.
  specialize (Hone _ eq_refl). cbn [cond_eval wc_column] in Hone. apply any3_true in Hone.
  apply list_elem_of_fmap in Hone as (o & Ho & Hin'). symmetry in Ho.
  cbn [fst snd] in Hpre.
  destruct (valueList_strings instantText 1 target Htext _ _ _ _ _ Hos Hin') as (n & s & -> & Hs & Hl).
  cbn [operand_value] in Ho. rewrite (bound_at_spec values n (BoundValue (JsJson (JStr s)))) in Ho
    by (eapply prefix_lookup_Some; eassumption).
  exists s. split; [done|]. by apply compare_text_true.
Qed.

Lemma passes_tenant_own where_ own p row :
  passes pg instantText blindIndex table (assoc_set "tenantId" (JsJson (JStr own)) where_) = Ok p →
  text_or_null (column_value row TENANT_COLUMN) = true → p row = true → tenant_is own row = true.
Proof using Hok.
  unfold passes. destruct (where_conditions _ _ _ _ _ _) as [[conditions values]|] eqn:Hw; [|done].
  intros [= <-] Htyped Hadm.
  destruct (where_conditions_entry _ _ _ _ _ _ _ _ _ Hw (assoc_set_elem "tenantId" (JsJson (JStr own)) where_))
    as (cs & v0 & v1 & Hcs & Hin & Hpre).
  rewrite tenant_where_column in Hcs. destruct Hok as (_ & _ & _ & Htext & Hb).
  unfold conditionsForValue in Hcs. cbn [is_null as_array] in Hcs.
  replace (isWhereOperator instantText 1 (JsJson (JStr own))) with (@None (list (string * Js))) in Hcs by done.
  rewrite not_jsonb in Hcs by done. cbn [andb] in Hcs.
  apply result_bind_Ok in Hcs as ([c v2] & Hcs & Heq). injection Heq as <- <-.
  assert (Hc : cond_eval pg (bound_at 1 values) (column_value row) c = Some true).
  { apply (admitted_elem _ _ _ conditions); [done|]. apply Hin. set_solver. }
  unfold equalityCondition in Hcs. rewrite prepareValue_text in Hcs by done. cbn [wc_info wc_column] in Hcs.
  change (TENANT_COLUMN +:+ "_bidx") with "tenant_id_bidx" in Hcs. unfold info_of in Hcs. rewrite Hb, andb_false_r in Hcs.
  assert (Hcs' : c = CCompare TENANT_COLUMN "=" (OpParam (1 + length v0) NoCast) ∧
                 v2 = v0 ++ [BoundValue (JsJson (JStr own))]).
  { by destruct blindIndex; cbn in Hcs; injection Hcs as <- <-. }
  destruct Hcs' as [-> ->]. cbn [cond_eval operand_value fst snd] in Hc, Hpre.
  rewrite (bound_at_spec values _ (BoundValue (JsJson (JStr own)))) in Hc.
  - by apply compare_text_true.
  - eapply prefix_lookup_Some; [|exact Hpre]. by apply list_lookup_middle.
Qed.
End scope_lemmas.

(** ** Rows of other tenants *)

Definition foreign (own : string) (rows : list DbRow) : list DbRow :=
  filter (λ row, tenant_is own row = false) rows.

Lemma foreign_snoc own rows row : tenant_is own row = true → foreign own (rows ++ [row]) = foreign own rows.
Proof.
  intros H. unfold foreign. rewrite filter_app, (filter_cons_False _ row) by (rewrite H; done).
  by rewrite app_nil_r.
Qed.

Lemma foreign_insert own rows i old new :
  rows !! i = Some old → tenant_is own old = true → tenant_is own new = true →
  foreign own (<[i := new]> rows) = foreign own rows.
Proof.
  intros Hi Ho Hn. unfold foreign. rewrite (insert_take_drop rows i new) by (by eapply lookup_lt_Some).
  rewrite <- (take_drop_middle rows i old Hi) at 3. rewrite !filter_app, !filter_cons_False;
    [done|by rewrite Ho|by rewrite Hn].
Qed.

Lemma foreign_filter own rows (gone : DbRow → Prop) `{∀ row, Decision (gone row)} :
  (∀ row, row ∈ rows → gone row → tenant_is own row = true) →
  foreign own (filter (λ row, ¬ gone row) rows) = foreign own rows.
Proof.
  unfold foreign. induction rows as [|row rows IH]; intros Hg; [done|].
  rewrite (filter_cons _ row rows). destruct (decide (¬ gone row)) as [Hk|Hk].
  - rewrite !filter_cons. case_decide; rewrite IH by set_solver; done.
  - rewrite (filter_cons_False _ row); [apply IH; set_solver|].
    rewrite Hg; [done|set_solver|]. by destruct (decide (gone row)).
Qed.

Lemma update_rows_foreign own check matches set rows changed rows' :
  update_rows check matches set rows = Ok (changed, rows') →
  (∀ row, row ∈ rows → matches row = true →
     tenant_is own row = true ∧ (check (set ∪ row) = true → tenant_is own (set ∪ row) = true)) →
  foreign own rows' = foreign own rows.
Proof.
  revert changed rows'. induction rows as [|row rows IH]; intros changed rows' H Hm; simpl in H.
  { by injection H as <- <-. }
  apply result_bind_Ok in H as ([c r] & Hr & H). cbn in H.
  specialize (IH _ _ Hr ltac:(intros; apply Hm; [set_solver|done])). unfold foreign in *.
  destruct (matches row) eqn:Hmatch.
  - destruct (check (set ∪ row)) eqn:Hc; [|done]. injection H as <- <-.
    destruct (Hm row ltac:(set_solver) Hmatch) as [Ho Hn].
    rewrite !filter_cons_False by (rewrite ?Ho, ?Hn; done). done.
  - injection H as <- <-. by rewrite !filter_cons, IH.
Qed.

(** A matching row of an update keeps its place; any other row its content. *)
Lemma update_rows_unmatched check matches set rows changed rows' i row :
  update_rows check matches set rows = Ok (changed, rows') →
  rows !! i = Some row → matches row = false → rows' !! i = Some row.
Proof.
  revert changed rows' i. induction rows as [|r rows IH]; intros changed rows' i H Hi Hm; [done|].
  simpl in H. apply result_bind_Ok in H as ([c r'] & Hr & H). cbn in H.
  destruct i as [|i]; simplify_eq/=.
  - rewrite Hm in H. by injection H as <- <-.
  - destruct (matches r); [destruct (check _); [|done]|]; injection H as <- <-; simpl; eauto.
Qed.

Lemma guard_Ok denials : guard denials = Ok tt ↔ Forall (λ d, d = None) denials.
Proof.
  unfold guard. induction denials as [|d ds IH]; simpl; [done|]. rewrite Forall_cons.
  destruct d as [e|]; simpl; [naive_solver|]. rewrite <- IH. naive_solver.
Qed.

Lemma read_scope_allowed db requested t : t ∈ read_scope db requested → t ∈ allowed_ids db.
Proof.
  unfold read_scope. destruct (negb _); [done|].
  assert (Hn : ∀ l, t ∈ narrow (allowed_ids db) l → t ∈ allowed_ids db).
  { intros l (v & Hv & Ht)%list_elem_of_omap. destruct v as [|[]| | |]; try done.
    case_bool_decide; naive_solver. }
  destruct (requestedTenantIds requested) as [[|v vs]|].
  - by intros H%elem_of_nil.
  - destruct (narrow _ _) as [|x xs] eqn:Hx; [done|]. intros H. apply (Hn (v :: vs)). by rewrite Hx.
  - unfold tenantIdsAfterExclusion. destruct (as_object requested) as [o|]; [|done].
    destruct (assoc_get "ne" o); simpl; [by intros [_ H]%list_elem_of_filter|].
    destruct (as_array _); simpl; [by intros [_ H]%list_elem_of_filter|done].
Qed.

Section writes.
Context (pg : PgSemantics) (instantText : string → option string) (blindIndex : option (string → string))
  (violates : list (gmap string Json) → gmap string Json → bool) (rls : bool).
Context (db : TenantDb) (table : DbTable) (Hmode : td_mode db = ModeTenant) (Hok : tenant_column_ok table).

Notation own := (td_tenantId db) (only parsing).

Lemma has_tenant : hasTenantColumn table = true.
Proof using Hok. by destruct Hok as (H & _). Qed.

Lemma readWhere_tenant where_ :
  readWhere db table where_ =
  assoc_set "tenantId" (js_strings (read_scope db (js_get "tenantId" where_))) where_.
Proof using Hmode Hok. unfold readWhere, is_tenant_mode. by rewrite has_tenant, Hmode. Qed.

Lemma writeWhere_tenant where_ :
  writeWhere db table where_ = assoc_set "tenantId" (JsJson (JStr own)) where_.
Proof using Hmode Hok. unfold writeWhere, is_tenant_mode. by rewrite has_tenant, Hmode. Qed.

Lemma insertValues_tenant data : insertValues db table data = assoc_set "tenantId" (JsJson (JStr own)) data.
Proof using Hmode Hok. unfold insertValues. by rewrite has_tenant, Hmode. Qed.

(** A row built from a tenant's values is the tenant's. *)
Lemma inserted_row_is_own data :
  checked_columns table (insertEntries pg instantText table (insertValues db table data)) = Ok tt →
  tenant_is own (list_to_map (insertEntries pg instantText table (insertValues db table data))) = true.
Proof using Hmode Hok.
  rewrite insertValues_tenant. set (entries := insertEntries _ _ _ _). intros Hchk. apply tenant_is_spec.
  assert (Hn : NoDup entries.*1).
  { unfold checked_columns in Hchk. destruct (list_find _ _) as [[]|]; [done|].
    destruct (bool_decide _) eqn:?; [by reflect_bools|done]. }
  unfold column_value. erewrite elem_of_list_to_map_1; [|exact Hn|]; [done|].
  destruct Hok as (_ & Hc & Hh & Ht & _).
  unfold entries, insertEntries. apply list_elem_of_fmap.
  exists ("tenantId", JsJson (JStr own)). split.
  - unfold entry_of, info_of, stored_value. cbn [fst snd]. rewrite Hc. unfold info_of.
    by rewrite prepareValue_text.
  - apply list_elem_of_filter. split; [exact Hh|]. apply assoc_set_elem.
Qed.

Lemma rls_writes_own row :
  rls = true → is_global table = false →
  rls_writes rls (scope_of db table) table row = true → tenant_is own row = true.
Proof using Hmode Hok.
  intros -> Hg. unfold rls_writes, scope_of, tenantDbRowLevelSecurityScope.
  by rewrite has_tenant, Hmode, Hg.
Qed.

Lemma same_on_tenant columns row old :
  TENANT_COLUMN ∈ columns → same_on columns row old = true → tenant_is own row = true → tenant_is own old = true.
Proof.
  intros Hin Hs. rewrite !tenant_is_spec. intros Hr. unfold same_on in Hs. rewrite forallb_forall in Hs.
  specialize (Hs _ (proj1 (list_elem_of_In _ _) Hin)). rewrite Hr in Hs. cbn in Hs.
  destruct (column_value old TENANT_COLUMN) as [| | |s| |]; try done. by apply bool_decide_eq_true in Hs as ->.
Qed.

Lemma set_keeps_tenant (set : list (string * Json)) row :
  TENANT_COLUMN ∉ set.*1 → tenant_is own (list_to_map set ∪ row) = tenant_is own row.
Proof.
  intros Hn. unfold tenant_is, column_value. rewrite lookup_union_r; [done|].
  by apply not_elem_of_list_to_map_1.
Qed.

Lemma insertOne_foreign rows values row rows' :
  insertOne pg instantText violates rls db table rows values = Ok (row, rows') →
  tenant_is own row = true ∧ foreign own rows' = foreign own rows.
Proof using Hmode Hok.
  intros H. unfold insertOne in H. apply result_bind_Ok in H as ([] & _ & H).
  unfold bunInsertOne in H. pose proof (inserted_row_is_own values) as Hown.
  set (entries := insertEntries _ _ _ _) in *. destruct entries as [|e es] eqn:He; [done|].
  apply result_bind_Ok in H as ([] & Hchk & H). specialize (Hown Hchk).
  destruct (negb _); [done|]. destruct (violates _ _); [done|]. injection H as <- <-.
  split; [exact Hown|]. by apply foreign_snoc.
Qed.

Lemma deleteMany_foreign rows where_ n rows' :
  tenants_typed rows →
  deleteMany pg instantText blindIndex rls db table rows where_ = Ok (n, rows') →
  foreign own rows' = foreign own rows.
Proof using Hmode Hok.
  intros Ht H. unfold deleteMany in H. apply result_bind_Ok in H as ([] & _ & H).
  unfold bunDeleteMany in H. apply result_bind_Ok in H as (p & Hp & H).
  rewrite writeWhere_tenant in Hp. injection H as _ <-.
  apply foreign_filter. intros row Hrow [_ Hm]. unfold tenants_typed in Ht. rewrite Forall_forall in Ht.
  by eapply passes_tenant_own; [|exact Hp|apply Ht|].
Qed.

Lemma updateMany_foreign rows set where_ changed rows' :
  tenants_typed rows → rls = true ∨ TENANT_COLUMN ∉ columnOf (info_of table) <$> set.*1 →
  updateMany pg instantText blindIndex violates rls db table rows set where_ = Ok (changed, rows') →
  foreign own rows' = foreign own rows.
Proof using Hmode Hok.
  intros Ht Hset H. unfold updateMany in H. apply result_bind_Ok in H as ([] & Hguard & H).
  assert (Hg : is_global table = false).
  { apply guard_Ok in Hguard. do 2 apply Forall_cons in Hguard as [_ Hguard].
    apply Forall_cons in Hguard as [Hg _]. revert Hg. unfold tenantWriteOnGlobalTable, is_tenant_mode.
    rewrite Hmode, has_tenant. by destruct (is_global table). }
  unfold bunUpdateMany in H. set (entries := entry_of pg instantText table <$> set) in *.
  assert (Hkeys : entries.*1 = columnOf (info_of table) <$> set.*1) by (unfold entries; by rewrite <- !list_fmap_compose).
  destruct entries as [|e es] eqn:He; [done|]. rewrite <- He in *.
  apply result_bind_Ok in H as (p & Hp & H). rewrite writeWhere_tenant in Hp.
  apply result_bind_Ok in H as ([] & _ & H). apply result_bind_Ok in H as (r & Hr & H).
  destruct (existsb _ _); [done|]. injection H as ->. eapply update_rows_foreign; [exact Hr|].
  intros row Hrow [_ Hm]%andb_prop. unfold tenants_typed in Ht. rewrite Forall_forall in Ht.
  assert (Ho : tenant_is own row = true) by (eapply passes_tenant_own; [|exact Hp|apply Ht|]; done).
  split; [done|]. intros Hc. destruct Hset as [Hrls|Hset].
  - by apply rls_writes_own.
  - rewrite set_keeps_tenant; [done|]. by rewrite Hkeys.
Qed.

Lemma upsert_foreign rows values conflictTarget update row rows' :
  upsert pg instantText violates rls db table rows values conflictTarget update = Ok (row, rows') →
  foreign own rows' = foreign own rows.
Proof using Hmode Hok.
  intros H. unfold upsert in H. apply result_bind_Ok in H as ([] & _ & H). unfold upsertTenantRow in H.
  apply result_bind_Ok in H as ([] & _ & H). apply result_bind_Ok in H as ([] & Hct & H).
  destruct (existsb _ _) eqn:Hu; [done|]. destruct (negb _); [done|].
  set (entries := insertEntries _ _ _ _) in H. set (parts := conflictUpdateParts _ _ _ _ _ _) in H.
  destruct (length parts =? 0)%nat; [done|].
  apply result_bind_Ok in H as ([] & Hchk & H). apply result_bind_Ok in H as ([] & _ & H).
  pose proof (inserted_row_is_own values Hchk) as Hown. fold entries in Hown.
  destruct (negb _); [done|]. destruct (list_find _ _) as [[i old]|] eqn:Hf.
  - destruct (negb (same_on _ _ _)); [by injection H as _ <-|]. destruct (negb _); [done|].
    destruct (violates _ _); [done|]. injection H as _ <-.
    apply list_find_Some in Hf as (Hi & Hsame & _).
    assert (Hcol : TENANT_COLUMN ∈ columnOf (info_of table) <$> conflictTarget).
    { unfold assertTenantSafeConflictTarget in Hct. case_bool_decide as Hc; [done|].
      destruct (decide (TENANT_COLUMN ∈ columnOf (info_of table) <$> conflictTarget)); [done|].
      exfalso. apply Hc. by right. }
    assert (Hold : tenant_is own old = true) by (by eapply same_on_tenant).
    apply (foreign_insert _ _ _ old); [done|done|]. rewrite set_keeps_tenant; [done|].
    unfold parts, conflictUpdateParts. destruct update as [u|].
    + intros (e & He & Hin)%list_elem_of_fmap. apply list_elem_of_fmap in Hin as (kv & -> & Hkv).
      cbn [default] in Hu. apply not_true_iff_false in Hu. apply Hu, existsb_exists.
      exists kv. split; [by apply list_elem_of_In|]. by apply bool_decide_eq_true.
    + intros (e & He & Hin)%list_elem_of_fmap. apply list_elem_of_filter in Hin as [Hskip _].
      apply Hskip. rewrite <- He. set_solver.
  - destruct (violates _ _); [done|]. injection H as _ <-. by apply foreign_snoc.
Qed.
End writes.

(** C21: through a tenant-mode handle every row a select or a fetch returns belongs to the tenant or to
    the system tenant, and to a tenant the caller's own [tenantId] filter names when that filter
    names one in scope; no where object widens this. *)
Theorem tenant_reads_stay_in_scope pg instantText blindIndex rls db table rows where_ :
  td_mode db = ModeTenant → tenant_column_ok table → tenants_typed rows →
  (∀ found, selectMany pg instantText blindIndex rls db table rows where_ = Ok found →
     Forall (λ row, row ∈ rows ∧ in_scope (read_scope db (js_get "tenantId" where_)) row) found) ∧
  (∀ row, fetchOne pg instantText blindIndex rls db table rows where_ = Ok (Some row) →
     row ∈ rows ∧ in_scope (read_scope db (js_get "tenantId" where_)) row) ∧
  (∀ t, t ∈ read_scope db (js_get "tenantId" where_) → t = td_tenantId db ∨ t = SYSTEM_TENANT_ID).
Proof.
  intros Hmode Hok Ht.
  assert (Hsel : ∀ found, bunSelectMany pg instantText blindIndex rls (scope_of db table) table rows
            (readWhere db table where_) = Ok found →
            Forall (λ row, row ∈ rows ∧ in_scope (read_scope db (js_get "tenantId" where_)) row) found).
  { intros found H. unfold bunSelectMany in H. apply result_bind_Ok in H as (p & Hp & H).
    rewrite readWhere_tenant in Hp by done. injection H as <-. rewrite Forall_forall.
    intros row [[_ Hrow] Hin]%list_elem_of_filter. split; [done|].
    unfold tenants_typed in Ht. rewrite Forall_forall in Ht.
    eapply passes_tenant_list; [exact Hok|exact Hp|by apply Ht|done]. }
  split_and!; [exact Hsel|..].
  - intros row H. unfold fetchOne, bunFetchOne in H. apply result_bind_Ok in H as (found & Hf & H).
    specialize (Hsel _ Hf). destruct found as [|r found]; [done|]. injection H as <-. by inversion Hsel.
  - intros t Htin%read_scope_allowed. unfold allowed_ids in Htin. set_solver.
Qed.

(** C33: through a tenant-mode handle no insert, upsert, update or delete changes, removes or adds a row of
    another tenant, reference rows of the system tenant included.  For updates this needs
    row-level security, or a set that does not name the tenant column. *)
Theorem tenant_writes_touch_own_rows_only pg instantText blindIndex violates rls db table rows :
  td_mode db = ModeTenant → tenant_column_ok table → tenants_typed rows →
  (∀ values row rows', insertOne pg instantText violates rls db table rows values = Ok (row, rows') →
     tenant_is (td_tenantId db) row = true ∧ foreign (td_tenantId db) rows' = foreign (td_tenantId db) rows) ∧
  (∀ values target update row rows',
     upsert pg instantText violates rls db table rows values target update = Ok (row, rows') →
     foreign (td_tenantId db) rows' = foreign (td_tenantId db) rows) ∧
  (∀ where_ n rows', deleteMany pg instantText blindIndex rls db table rows where_ = Ok (n, rows') →
     foreign (td_tenantId db) rows' = foreign (td_tenantId db) rows) ∧
  (∀ set where_ changed rows', rls = true ∨ TENANT_COLUMN ∉ columnOf (info_of table) <$> set.*1 →
     updateMany pg instantText blindIndex violates rls db table rows set where_ = Ok (changed, rows') →
     foreign (td_tenantId db) rows' = foreign (td_tenantId db) rows).
Proof.
  intros Hmode Hok Ht. split_and!; intros.
  - by eapply insertOne_foreign.
  - by eapply upsert_foreign.
  - by eapply deleteMany_foreign.
  - by eapply updateMany_foreign.
Qed.

(** ** Concrete tables *)

Definition notes_table : DbTable :=
  mkDbTable (mkMeta "notes" [mkColumn "id" "uuid" true; mkColumn "tenant_id" "uuid" false; mkColumn "title" "text" false]
    None [] None) false false.

Definition note (id tenant title : string) : DbRow :=
  list_to_map [("id", JStr id); ("tenant_id", JStr tenant); ("title", JStr title)].

Definition notes : list DbRow :=
  [note "n1" "acme" "a"; note "n2" "globex" "b"; note "n3" SYSTEM_TENANT_ID "c"].

Definition acme_db : TenantDb := mkTenantDb "acme" ModeTenant (mkGrants None None None) false.

Definition plain_pg : PgSemantics := mkPg (λ _ _ _, false) (λ _ _, false) (λ _, "") JStr.
Definition no_instants : string → option string := λ _, None.
Definition no_violation (rows : list DbRow) (row : DbRow) : bool := false.

Lemma notes_table_ok : tenant_column_ok notes_table.
Proof. split_and!; [reflexivity|reflexivity|reflexivity|by right|reflexivity]. Qed.

Lemma notes_typed : tenants_typed notes.
Proof. by repeat constructor. Qed.


Lemma tenant_reads_stay_in_scope_witness :
  selectMany plain_pg no_instants None true acme_db notes_table notes [("tenantId", JsJson (JStr "globex"))]
    = Ok [note "n1" "acme" "a"] ∧
  (∀ found, selectMany plain_pg no_instants None false acme_db notes_table notes
              [("tenantId", JsJson (JStr "globex"))] = Ok found →
     Forall (λ row, row ∈ notes ∧ in_scope (read_scope acme_db (JsJson (JStr "globex"))) row) found).
Proof.
  split; [vm_compute; reflexivity|].
  exact (proj1 (tenant_reads_stay_in_scope plain_pg no_instants None false acme_db notes_table notes
    [("tenantId", JsJson (JStr "globex"))] eq_refl notes_table_ok notes_typed)).
Defined.

Lemma tenant_writes_touch_own_rows_only_witness :
  deleteMany plain_pg no_instants None true acme_db notes_table notes [("title", js_strings ["a"; "b"; "c"])]
    = Ok (1, [note "n2" "globex" "b"; note "n3" SYSTEM_TENANT_ID "c"]) ∧
  (∀ where_ n rows', deleteMany plain_pg no_instants None true acme_db notes_table notes where_ = Ok (n, rows') →
     foreign "acme" rows' = foreign "acme" notes).
Proof.
  split; [vm_compute; reflexivity|].
  exact (proj1 (proj2 (proj2 (tenant_writes_touch_own_rows_only plain_pg no_instants None no_violation true
    acme_db notes_table notes eq_refl notes_table_ok notes_typed)))).
Defined.

(** Without row-level security an update may hand a row to another tenant: the
    handle checks the where clause, not the set. *)
Lemma update_can_move_a_row_out :
  updateMany plain_pg no_instants None no_violation false acme_db notes_table notes
    [("tenantId", JsJson (JStr "globex"))] [("id", JsJson (JStr "n1"))]
    = Ok ([note "n1" "globex" "a"], <[0 := note "n1" "globex" "a"]> notes) ∧
  updateMany plain_pg no_instants None no_violation true acme_db notes_table notes
    [("tenantId", JsJson (JStr "globex"))] [("id", JsJson (JStr "n1"))] = Err PgRowLevelSecurity.
Proof. split; vm_compute; reflexivity. Qed.

(** An exclusion beside [in] is dropped, and of [ne] and [notIn] only [ne] is
    kept: the filter is wider than what was asked for. *)
Lemma combined_exclusions_are_dropped :
  read_scope acme_db (JsObject [("in", js_strings ["acme"; SYSTEM_TENANT_ID]); ("ne", JsJson (JStr SYSTEM_TENANT_ID))])
    = ["acme"; SYSTEM_TENANT_ID] ∧
  read_scope acme_db (JsObject [("ne", JsJson (JStr "globex")); ("notIn", js_strings [SYSTEM_TENANT_ID])])
    = ["acme"; SYSTEM_TENANT_ID].
Proof. split; vm_compute; reflexivity. Qed.
