(* ===== verification/EntityApply.v ===== *)
(** * Applying entity events to entity tables

    [db/apply-entity-event.ts] and the statements of [db/query.ts] it uses.
    [applyEntityEvent] is the only writer of entity tables: the executor calls it
    on the event it just appended, a rebuild on the events of the log.  A table
    is a map from primary keys to rows; a row is a map from field names to
    values, where a missing column is NULL.  The blind-index columns and the
    decryption of file references depend on the key store, whose state at the
    moment of the write is an argument. *)

From S2P Require Import Prelude EventLog EventStore BlindIndex.

Open Scope Z_scope.

(** ** Tables *)

Notation EntityRows := (gmap string (gmap string Json)) (only parsing).

(** The field types that concern the key store: a lookupable text field and a
    file field with a subject annotation. *)
Inductive KeyedField := LookupableText | SubjectFile.

#[export] Instance KeyedField_eq_dec : EqDecision KeyedField.
Proof. solve_decision. Defined.

Record EntityTable := mkEntityTable {
  et_entityName : string;
  et_columns : list string;
  et_fields : list string;
  et_keyed : list (string * KeyedField);
  et_softDelete : bool;
  (** the column defaults of the table *)
  et_defaults : gmap string Json }.

(** The names a row object is keyed by. *)
Definition hasColumn (t : EntityTable) (field : string) : bool := bool_decide (field ∈ et_columns t).

(** [{ ...a, ...b }] *)
Definition spread (a b : EntityRow) : EntityRow := b ∪ a.

Definition values_of (kvs : Row) : EntityRow := list_to_map kvs.

(** The value as an object, for [Object.entries]. *)
Definition object_of (v : option Json) : EntityRow :=
  match v with Some (JObj kvs) => values_of kvs | _ => ∅ end.

Inductive ApplyError :=
| InvalidPayloadTenant (value : Json)
| PiiWithoutKms
| TableUniqueViolation
| UnknownColumn
| EmptyValues
| PiiUnreadable (e : PiiError).

Definition keyed_fields (t : EntityTable) (kind : KeyedField) : list string :=
  filter (λ name, assoc_get name (et_keyed t) = Some kind) (et_fields t).

Definition collectLookupableFields (t : EntityTable) : list string := keyed_fields t LookupableText.

Definition collectPiiFileReferenceFields (t : EntityTable) : list string := keyed_fields t SubjectFile.

Section table.
Context (t : EntityTable) (violates : gmap string (gmap string Json) → string → gmap string Json → bool).

(** The primary key of a row to be stored. *)
Definition key_of (row : EntityRow) (fallback : string) : string :=
  match row !! "id" with Some (JStr id) => id | _ => fallback end.

(** [insertOne]: unknown fields are dropped. *)
Definition insertOne (rows : EntityRows) (values : EntityRow) : result ApplyError (EntityRow * EntityRows) :=
  let entries := filter (λ kv, hasColumn t kv.1 = true) values in
  let row := spread (et_defaults t) entries in
  if bool_decide (entries = ∅) then Err EmptyValues
  else let id := key_of row "" in
       if bool_decide (is_Some (rows !! id)) || violates rows id row then Err TableUniqueViolation
       else Ok (row, <[id := row]> rows).

(** [updateMany(table, set, { id })]: a field without a column is an error of the
    statement, also when no row matches. *)
Definition updateById (rows : EntityRows) (set : EntityRow) (id : string)
    : result ApplyError (option EntityRow * EntityRows) :=
  if bool_decide (set = ∅) then Err EmptyValues
  else if negb (forallb (λ kv, hasColumn t kv.1) (map_to_list set)) then Err UnknownColumn
  else match rows !! id with
       | None => Ok (None, rows)
       | Some old =>
           let row := spread old set in
           let others := delete id rows in
           let newId := key_of row id in
           if bool_decide (is_Some (others !! newId)) || violates others newId row
           then Err TableUniqueViolation
           else Ok (Some row, <[newId := row]> others)
       end.

Definition deleteById (rows : EntityRows) (id : string) : EntityRows := delete id rows.
End table.

(** ** Verbs *)

Inductive AutoVerb := Created | Updated | Deleted | Restored | Forgotten.

Definition verb_name (v : AutoVerb) : string :=
  match v with
  | Created => "created" | Updated => "updated" | Deleted => "deleted"
  | Restored => "restored" | Forgotten => "forgotten"
  end.

Definition AUTO_VERBS : list AutoVerb := [Created; Updated; Deleted; Restored; Forgotten].

Definition entityEventName (entityName : string) (verb : AutoVerb) : string :=
  entityName +:+ "." +:+ verb_name verb.

Definition verb_of (name : string) : option AutoVerb :=
  head (filter (λ v, verb_name v = name) AUTO_VERBS).

(** The verb a type names for an aggregate type, [None] for a domain event. *)
Definition auto_verb (aggregateType type : string) : option AutoVerb :=
  let prefix := aggregateType +:+ "." in
  if starts_with prefix type then verb_of (slice_from (String.length prefix) type) else None.

Definition parseAutoVerb (event : StoredEvent) : option AutoVerb :=
  auto_verb (se_aggregateType event) (se_type event).

(** ** Applying an event *)

Inductive ApplyResult :=
| Applied (verb : AutoVerb) (row : option (gmap string Json))
| SkippedEvent.

Section apply.
Context (t : EntityTable) (violates : gmap string (gmap string Json) → string → gmap string Json → bool)
  (crypto : Crypto) (keys : Keys).

Definition plain_values (values : EntityRow) : result ApplyError EntityRow :=
  match decryptFileReferenceCiphertext crypto keys (collectPiiFileReferenceFields t) values with
  | None => Err PiiWithoutKms
  | Some (Ok plain) => Ok plain
  | Some (Err e) => Err (PiiUnreadable e)
  end.

Definition blind_indexes (values : EntityRow) : result ApplyError EntityRow :=
  match computeBlindIndexValues crypto keys (collectLookupableFields t) values with
  | Ok indexes => Ok indexes
  | Err e => Err (PiiUnreadable e)
  end.

Definition created_tenant (event : StoredEvent) : result ApplyError string :=
  match assoc_get "tenantId" (se_payload event) with
  | None => Ok (se_tenantId event)
  | Some (JStr "") => Err (InvalidPayloadTenant (JStr ""))
  | Some (JStr tenantId) => Ok tenantId
  | Some v => Err (InvalidPayloadTenant v)
  end.

Definition created_values (event : StoredEvent) (tenantId : string) (plain indexes : EntityRow) : EntityRow :=
  spread (spread plain indexes)
    (list_to_map [("tenantId", JStr tenantId); ("id", JStr (se_aggregateId event));
                  ("version", JNum (se_version event)); ("insertedAt", JNum (se_createdAt event));
                  ("insertedById", JStr (se_createdBy event))]).

(** The columns every write after the first sets. *)
Definition modified_values (event : StoredEvent) : EntityRow :=
  list_to_map [("version", JNum (se_version event)); ("modifiedAt", JNum (se_createdAt event));
               ("modifiedById", JStr (se_createdBy event))].

(** Historical events may carry fields since removed from the entity. *)
Definition known_changes (plain : EntityRow) : EntityRow :=
  filter (λ kv, kv.1 ∈ et_fields t ∨ kv.1 ∈ et_columns t) plain.

Definition deleted_values (event : StoredEvent) : EntityRow :=
  spread (list_to_map [("isDeleted", JBool true); ("deletedAt", JNum (se_createdAt event));
                       ("deletedById", JStr (se_createdBy event))]) (modified_values event).

Definition restored_values (event : StoredEvent) : EntityRow :=
  spread (list_to_map [("isDeleted", JBool false); ("deletedAt", JNull); ("deletedById", JNull)])
    (modified_values event).

Definition apply_update (rows : EntityRows) (event : StoredEvent) (verb : AutoVerb) (set : EntityRow)
    : result ApplyError (ApplyResult * EntityRows) :=
  let? updated := updateById t violates rows set (se_aggregateId event) in
  Ok (Applied verb updated.1, updated.2).

Definition applyEntityEvent (rows : EntityRows) (event : StoredEvent)
    : result ApplyError (ApplyResult * EntityRows) :=
  match parseAutoVerb event with
  | None => Ok (SkippedEvent, rows)
  | Some Created =>
      let? tenantId := created_tenant event in
      let? plain := plain_values (values_of (se_payload event)) in
      let? indexes := blind_indexes (values_of (se_payload event)) in
      let? inserted := insertOne t violates rows (created_values event tenantId plain indexes) in
      Ok (Applied Created (Some inserted.1), inserted.2)
  | Some Updated =>
      let? plain := plain_values (object_of (assoc_get "changes" (se_payload event))) in
      let changes := known_changes plain in
      let? indexes := blind_indexes changes in
      apply_update rows event Updated (spread (spread changes indexes) (modified_values event))
  | Some Deleted =>
      if et_softDelete t then apply_update rows event Deleted (deleted_values event)
      else Ok (Applied Deleted None, deleteById rows (se_aggregateId event))
  | Some Restored =>
      if negb (et_softDelete t) then Ok (SkippedEvent, rows)
      else apply_update rows event Restored (restored_values event)
  | Some Forgotten => Ok (Applied Forgotten None, deleteById rows (se_aggregateId event))
  end.

(** ** Replay *)

(** The table a list of events builds, one event after the other, under one
    state of the key store. *)
Fixpoint apply_events (rows : EntityRows) (events : list StoredEvent) : result ApplyError (EntityRows) :=
  match events with
  | [] => Ok rows
  | event :: rest => let? applied := applyEntityEvent rows event in apply_events applied.2 rest
  end.

(** ** Lemmas *)

Lemma parse_entityEventName event verb :
  se_type event = entityEventName (se_aggregateType event) verb → parseAutoVerb event = Some verb.
Proof.
  intros Ht. unfold parseAutoVerb, auto_verb. rewrite Ht. unfold entityEventName.
  rewrite string_app_assoc, starts_with_app, slice_from_app. by destruct verb.
Qed.

Lemma verb_of_Some name v : verb_of name = Some v → verb_name v = name.
Proof.
  unfold verb_of. intros H%head_Some_elem_of. by apply list_elem_of_filter in H as [H _].
Qed.

(** The type of an entity event names its verb. *)
Lemma parsed_type event v :
  parseAutoVerb event = Some v → se_type event = entityEventName (se_aggregateType event) v.
Proof.
  unfold parseAutoVerb, auto_verb, entityEventName. destruct (starts_with _ _) eqn:Hs; [|done].
  intros Hv%verb_of_Some. rewrite string_app_assoc, Hv. by apply starts_with_split.
Qed.

(** Only the aggregate's own row changes, unless a payload moves a primary key. *)
Lemma updateById_other rows set id row rows' id' :
  set !! "id" = None → (∀ old, rows !! id = Some old → key_of old id = id) →
  updateById t violates rows set id = Ok (row, rows') → id' ≠ id → rows' !! id' = rows !! id'.
Proof.
  intros Hset Hkey H Hne. unfold updateById in H. destruct (bool_decide (set = ∅)); [done|].
  destruct (negb _); [done|]. destruct (rows !! id) as [old|] eqn:Hold; [|by injection H as _ <-].
  assert (Hk : key_of (spread old set) id = id).
  { rewrite <- (Hkey old eq_refl) at 2. unfold key_of, spread. by rewrite lookup_union_r. }
  rewrite Hk in H. destruct (_ || _); [done|]. injection H as _ <-.
  by rewrite lookup_insert_ne, lookup_delete_ne.
Qed.

(** An update by key changes the one row, in the fields it sets. *)
Lemma updateById_same rows set id old row rows' :
  set !! "id" = None → rows !! id = Some old → key_of old id = id →
  updateById t violates rows set id = Ok (row, rows') → rows' = <[id := spread old set]> rows.
Proof.
  intros Hset Hold Hkey H. unfold updateById in H. destruct (bool_decide (set = ∅)); [done|].
  destruct (negb _); [done|]. rewrite Hold in H.
  assert (Hk : key_of (spread old set) id = id).
  { unfold key_of, spread in *. rewrite lookup_union_r by done. exact Hkey. }
  rewrite Hk in H. destruct (_ || _); [done|]. injection H as _ <-. by rewrite insert_delete_eq.
Qed.

(** A stored row stays in the way of a second insert under its key. *)
Lemma insertOne_twice rows values row rows' :
  insertOne t violates rows values = Ok (row, rows') → insertOne t violates rows' values = Err TableUniqueViolation.
Proof.
  unfold insertOne. destruct (bool_decide (_ = ∅)); [done|]. destruct (_ || _); [done|].
  intros [= <- <-]. rewrite lookup_insert_eq. by rewrite bool_decide_eq_true_2 by eauto.
Qed.

(** A created event is not idempotent: applied again it violates the primary key. *)
Lemma created_applied_twice_fails rows event r rows' :
  parseAutoVerb event = Some Created → applyEntityEvent rows event = Ok (r, rows') →
  applyEntityEvent rows' event = Err TableUniqueViolation.
Proof.
  intros Hp. unfold applyEntityEvent. rewrite Hp.
  destruct (created_tenant event) as [tenantId|]; [|done]. cbn [result_bind].
  destruct (plain_values _) as [plain|]; [|done]. destruct (blind_indexes _) as [indexes|]; [|done]. cbn [result_bind].
  destruct (insertOne t violates rows _) as [[row rows1]|] eqn:Hi; [|done]. cbn [result_bind fst snd].
  intros [= _ <-]. by rewrite (insertOne_twice _ _ _ _ Hi).
Qed.

Lemma applied_deleted rows event old r rows' :
  et_softDelete t = true → parseAutoVerb event = Some Deleted →
  rows !! se_aggregateId event = Some old → key_of old (se_aggregateId event) = se_aggregateId event →
  applyEntityEvent rows event = Ok (r, rows') →
  rows' = <[se_aggregateId event := spread old (deleted_values event)]> rows.
Proof.
  intros Hs Hp Hold Hkey H. unfold applyEntityEvent in H. rewrite Hp, Hs in H. unfold apply_update in H.
  apply result_bind_Ok in H as ([u rows1] & Hu & H). injection H as _ <-.
  by eapply updateById_same; [|exact Hold|exact Hkey|exact Hu].
Qed.

Lemma applied_restored rows event old r rows' :
  et_softDelete t = true → parseAutoVerb event = Some Restored →
  rows !! se_aggregateId event = Some old → key_of old (se_aggregateId event) = se_aggregateId event →
  applyEntityEvent rows event = Ok (r, rows') →
  rows' = <[se_aggregateId event := spread old (restored_values event)]> rows.
Proof.
  intros Hs Hp Hold Hkey H. unfold applyEntityEvent in H. rewrite Hp, Hs in H. unfold apply_update in H.
  apply result_bind_Ok in H as ([u rows1] & Hu & H). injection H as _ <-.
  by eapply updateById_same; [|exact Hold|exact Hkey|exact Hu].
Qed.

Lemma applied_forgotten rows event r rows' :
  parseAutoVerb event = Some Forgotten → applyEntityEvent rows event = Ok (r, rows') →
  rows' = delete (se_aggregateId event) rows.
Proof. intros Hp H. unfold applyEntityEvent in H. rewrite Hp in H. by injection H as _ <-. Qed.

(** The columns the bookkeeping of removals writes. *)
Definition removal_columns : list string :=
  ["isDeleted"; "deletedAt"; "deletedById"; "version"; "modifiedAt"; "modifiedById"].

Lemma deleted_values_other event field : field ∉ removal_columns → deleted_values event !! field = None.
Proof.
  intros Hn. unfold deleted_values, modified_values, spread.
  apply lookup_union_None; split; apply not_elem_of_list_to_map_1; set_solver.
Qed.

Lemma restored_values_other event field : field ∉ removal_columns → restored_values event !! field = None.
Proof.
  intros Hn. unfold restored_values, modified_values, spread.
  apply lookup_union_None; split; apply not_elem_of_list_to_map_1; set_solver.
Qed.
End apply.

(** The table a history builds, each event under the keys of its own time. *)
Fixpoint apply_history (t : EntityTable) violates (crypto : Crypto) (rows : EntityRows)
    (history : list (Keys * StoredEvent)) : result ApplyError EntityRows :=
  match history with
  | [] => Ok rows
  | (keys, event) :: rest =>
      let? applied := applyEntityEvent t violates crypto keys rows event in
      apply_history t violates crypto applied.2 rest
  end.

Lemma apply_history_snoc t violates crypto rows history keys event rows' :
  apply_history t violates crypto rows history = Ok rows' →
  apply_history t violates crypto rows (history ++ [(keys, event)])
    = (let? applied := applyEntityEvent t violates crypto keys rows' event in Ok applied.2).
Proof.
  revert rows. induction history as [|[k e] history IH]; intros rows; cbn [app apply_history].
  - intros [= ->]. by destruct (applyEntityEvent _ _ _ _ _ _) as [[]|].
  - destruct (applyEntityEvent _ _ _ _ rows e) as [[r rows1]|]; [|done]. cbn [result_bind snd]. apply IH.
Qed.

(** ** Replay under later keys *)

(** The values an event brings. *)
Definition written (event : StoredEvent) : EntityRow :=
  match parseAutoVerb event with
  | Some Created => values_of (se_payload event)
  | Some Updated => object_of (assoc_get "changes" (se_payload event))
  | _ => ∅
  end.

(** The same rows, except that the columns that are [gone] may be NULL. *)
Definition rows_faded (gone : string → Prop) (rows rows' : EntityRows) : Prop :=
  ∀ id, option_Forall2 (faded JNull gone) (rows !! id) (rows' !! id).

(** A unique index takes NULLs for distinct: blanking values out causes no conflict. *)
Definition nulls_distinct (violates : EntityRows → string → EntityRow → bool) : Prop :=
  ∀ gone rows rows' id row row',
    rows_faded gone rows rows' → faded JNull gone row row' → violates rows id row = false → violates rows' id row' = false.

(** A column whose value was sealed for an erased subject in the events. *)
Definition column_of_erased (t : EntityTable) (erased : SubjectId → Prop) (events : list StoredEvent)
    (c : string) : Prop :=
  ∃ event f v s, event ∈ events ∧ written event !! f = Some v ∧ sealed_for v s ∧ erased s ∧
    ((f ∈ collectPiiFileReferenceFields t ∧ c = f) ∨
     (f ∈ collectLookupableFields t ∧ c = blindIndexFieldName f)).

Lemma keyed_disjoint t f : f ∈ collectLookupableFields t → f ∈ collectPiiFileReferenceFields t → False.
Proof.
  unfold collectLookupableFields, collectPiiFileReferenceFields, keyed_fields.
  intros [H1 _]%list_elem_of_filter [H2 _]%list_elem_of_filter. by rewrite H1 in H2.
Qed.

Lemma rows_faded_eq gone rows rows' : (∀ c, ¬ gone c) → rows_faded gone rows rows' → rows' = rows.
Proof.
  intros Hn Hr. apply map_eq. intros id. destruct (Hr id) as [a b Hf|]; [|done].
  by rewrite (faded_eq JNull gone a b Hn Hf).
Qed.

Section ageing.
#[local] Set Default Proof Using "Type*".
Context (t : EntityTable) (violates : gmap string (gmap string Json) → string → gmap string Json → bool)
  (crypto : Crypto) (gone : string → Prop).
Context (Hv : nulls_distinct violates) (Hid : ¬ gone "id").

Lemma faded_key_of row row' fallback : faded JNull gone row row' → key_of row' fallback = key_of row fallback.
Proof. intros Hf. unfold key_of. by destruct (Hf "id") as [->|[Hg _]]. Qed.

Lemma rows_faded_some rows rows' id :
  rows_faded gone rows rows' → bool_decide (is_Some (rows' !! id)) = bool_decide (is_Some (rows !! id)).
Proof. intros Hr. specialize (Hr id). destruct Hr as [a b Hf|]; [|done]. by rewrite !bool_decide_eq_true_2. Qed.

Lemma rows_faded_insert rows rows' id row row' :
  rows_faded gone rows rows' → faded JNull gone row row' → rows_faded gone (<[id := row]> rows) (<[id := row']> rows').
Proof.
  intros Hr Hf i. destruct (decide (i = id)) as [->|Hne]; [rewrite !lookup_insert_eq; by constructor|].
  rewrite !lookup_insert_ne by done. apply Hr.
Qed.

Lemma rows_faded_delete rows rows' id :
  rows_faded gone rows rows' → rows_faded gone (delete id rows) (delete id rows').
Proof.
  intros Hr i. destruct (decide (i = id)) as [->|Hne]; [rewrite !lookup_delete_eq; constructor|].
  rewrite !lookup_delete_ne by done. apply Hr.
Qed.

Lemma insertOne_ages rows rows' values values' row rows1 :
  rows_faded gone rows rows' → faded JNull gone values values' →
  insertOne t violates rows values = Ok (row, rows1) →
  ∃ row' rows1', insertOne t violates rows' values' = Ok (row', rows1') ∧ rows_faded gone rows1 rows1'.
Proof.
  intros Hr Hf. unfold insertOne.
  pose proof (faded_filter JNull gone (λ c, hasColumn t c = true) _ _ Hf) as He.
  set (entries := filter _ values) in *. set (entries' := filter _ values') in *.
  destruct (bool_decide (entries = ∅)) eqn:Hemp; [done|]. apply bool_decide_eq_false in Hemp.
  rewrite (bool_decide_eq_false_2 (entries' = ∅)) by (intros H; apply Hemp; by apply (proj2 (faded_empty _ _ _ _ He))).
  assert (Hrow : faded JNull gone (spread (et_defaults t) entries) (spread (et_defaults t) entries')).
  { unfold spread. apply faded_union; [apply faded_refl|done]. }
  rewrite (faded_key_of _ _ "" Hrow). set (key := key_of _ "").
  rewrite (rows_faded_some rows rows' key Hr).
  destruct (bool_decide (is_Some (rows !! key))); [done|]. cbn [orb].
  destruct (violates rows key _) eqn:Hviol; [done|]. intros [= _ <-].
  rewrite (Hv gone rows rows' key _ _ Hr Hrow Hviol). eexists _, _. split; [done|]. by apply rows_faded_insert.
Qed.

Lemma updateById_ages rows rows' set set' id row rows1 :
  rows_faded gone rows rows' → faded JNull gone set set' →
  updateById t violates rows set id = Ok (row, rows1) →
  ∃ row' rows1', updateById t violates rows' set' id = Ok (row', rows1') ∧ rows_faded gone rows1 rows1'.
Proof.
  intros Hr Hf. unfold updateById.
  destruct (bool_decide (set = ∅)) eqn:Hemp; [done|]. apply bool_decide_eq_false in Hemp.
  rewrite (bool_decide_eq_false_2 (set' = ∅)) by (intros H; apply Hemp; by apply (proj2 (faded_empty _ _ _ _ Hf))).
  destruct (forallb _ (map_to_list set)) eqn:Hcols; [|done]. cbn [negb].
  assert (forallb (λ kv, hasColumn t kv.1) (map_to_list set') = true) as ->.
  { apply forallb_forall. intros [c v] Hc. apply list_elem_of_In, elem_of_map_to_list in Hc.
    destruct (set !! c) as [w|] eqn:Hw.
    - rewrite forallb_forall in Hcols. apply (Hcols (c, w)), list_elem_of_In. by apply elem_of_map_to_list.
    - apply (faded_lookup_None _ _ _ _ c Hf) in Hw. by rewrite Hw in Hc. }
  cbn [negb]. pose proof (Hr id) as Hold. destruct (rows !! id) as [old|], (rows' !! id) as [old'|]; inversion Hold; subst.
  - assert (Hrow : faded JNull gone (spread old set) (spread old' set')) by by apply faded_union.
    rewrite (faded_key_of _ _ id Hrow). set (key := key_of _ id).
    pose proof (rows_faded_delete rows rows' id Hr) as Hdel. rewrite (rows_faded_some _ _ key Hdel).
    destruct (bool_decide (is_Some (base.delete id rows !! key))); [done|]. cbn [orb].
    destruct (violates _ key (spread old set)) eqn:Hviol; [done|]. intros [= _ <-].
    rewrite (Hv gone _ _ key _ _ Hdel Hrow Hviol). eexists _, _. split; [done|]. by apply rows_faded_insert.
  - intros [= _ <-]. by eexists _, _.
Qed.

Lemma apply_update_ages rows rows' event verb set set' r rows1 :
  rows_faded gone rows rows' → faded JNull gone set set' →
  apply_update t violates rows event verb set = Ok (r, rows1) →
  ∃ r' rows1', apply_update t violates rows' event verb set' = Ok (r', rows1') ∧ rows_faded gone rows1 rows1'.
Proof.
  intros Hr Hf ([u rows2] & Hu & [= _ <-])%result_bind_Ok.
  destruct (updateById_ages _ _ _ _ _ _ _ Hr Hf Hu) as (u' & rows2' & Hu' & Hr').
  unfold apply_update. rewrite Hu'. by eexists _, _.
Qed.

Context (erased : SubjectId → Prop) (k K : Keys) (Hages : keys_age erased k K) (Hnd : NoDup (et_fields t)).

(** One event under later keys. *)
Lemma applyEntityEvent_ages rows rows' event r rows1 :
  (∀ f v s, written event !! f = Some v → sealed_for v s → erased s →
     (f ∈ collectPiiFileReferenceFields t → gone f) ∧
     (f ∈ collectLookupableFields t → gone (blindIndexFieldName f))) →
  rows_faded gone rows rows' → applyEntityEvent t violates crypto k rows event = Ok (r, rows1) →
  ∃ r' rows1', applyEntityEvent t violates crypto K rows' event = Ok (r', rows1') ∧ rows_faded gone rows1 rows1'.
Proof.
  intros Hgone Hr. unfold applyEntityEvent, written in *.
  assert (Hplain : ∀ values x,
    (∀ f v s, values !! f = Some v → sealed_for v s → erased s → f ∈ collectPiiFileReferenceFields t → gone f) →
    plain_values t crypto k values = Ok x →
    ∃ x', plain_values t crypto K values = Ok x' ∧ faded JNull gone x x' ∧
          ∀ f, f ∉ collectPiiFileReferenceFields t → x !! f = values !! f ∧ x' !! f = values !! f).
  { intros values x Hg. unfold plain_values.
    destruct (decryptFileReferenceCiphertext crypto k _ values) as [[y|e]|] eqn:Hd; [|done..]. intros [= ->].
    destruct (fileRefs_age crypto erased k K gone (collectPiiFileReferenceFields t) values x Hages)
      as (x' & -> & Hf & Ho); [by apply NoDup_filter|by intros; eapply Hg|done|by exists x']. }
  assert (Hindex : ∀ values values' x,
    (∀ f v s, values !! f = Some v → sealed_for v s → erased s → f ∈ collectLookupableFields t →
       gone (blindIndexFieldName f)) →
    (∀ f, f ∈ collectLookupableFields t → values' !! f = values !! f) →
    blind_indexes t crypto k values = Ok x →
    ∃ x', blind_indexes t crypto K values' = Ok x' ∧ faded JNull gone x x').
  { intros values values' x Hg Heq. unfold blind_indexes.
    destruct (computeBlindIndexValues crypto k _ values) as [y|e] eqn:Hd; [|done]. intros [= ->].
    destruct (bidx_ages crypto erased k K gone (collectLookupableFields t) values values' x Hages Heq)
      as (x' & -> & Hf); [by intros; eapply Hg|done|by exists x']. }
  destruct (parseAutoVerb event) as [[| | | |]|].
  - intros (tenantId & -> & (plain & Hp & (indexes & Hi & ([row rows2] & Hins & [= _ <-])%result_bind_Ok)
      %result_bind_Ok)%result_bind_Ok)%result_bind_Ok. cbn [result_bind].
    destruct (Hplain _ _ (λ f v s Hf Hs He Hin, proj1 (Hgone f v s Hf Hs He) Hin) Hp) as (plain' & -> & Hpf & _).
    destruct (Hindex _ (values_of (se_payload event)) _ (λ f v s Hf Hs He Hin, proj2 (Hgone f v s Hf Hs He) Hin)
                (λ _ _, eq_refl) Hi) as (indexes' & -> & Hif). cbn [result_bind].
    edestruct (insertOne_ages rows rows' (created_values event tenantId plain indexes)
      (created_values event tenantId plain' indexes')) as (row' & rows2' & -> & Hr2); [done| |exact Hins|].
    { unfold created_values, spread. by repeat apply faded_union; [..|apply faded_refl]. }
    by eexists _, _.
  - intros (plain & Hp & (indexes & Hi & Hup)%result_bind_Ok)%result_bind_Ok.
    destruct (Hplain _ _ (λ f v s Hf Hs He Hin, proj1 (Hgone f v s Hf Hs He) Hin) Hp) as (plain' & -> & Hpf & Ho).
    cbn [result_bind].
    pose proof (faded_filter JNull gone (λ c, c ∈ et_fields t ∨ c ∈ et_columns t) _ _ Hpf) as Hkf.
    assert (Hlook : ∀ f, f ∈ collectLookupableFields t →
      known_changes t plain' !! f = known_changes t plain !! f ∧
      ∀ v, known_changes t plain !! f = Some v → object_of (assoc_get "changes" (se_payload event)) !! f = Some v).
    { intros f Hf. destruct (Ho f) as [H1 H2]; [by intros H; destruct (keyed_disjoint t f)|].
      unfold known_changes. rewrite !map_lookup_filter, H1, H2. split; [done|].
      intros v (w & -> & (? & _ & [= ->])%bind_Some)%bind_Some. done. }
    destruct (Hindex (known_changes t plain) (known_changes t plain') indexes) as (indexes' & -> & Hif); [| |done|].
    { intros f v s Hf Hs He Hin. by apply (Hgone f v s); [apply Hlook|..]. }
    { intros f Hf. by apply Hlook. }
    cbn [result_bind]. eapply apply_update_ages; [done| |exact Hup].
    unfold spread. repeat apply faded_union; [done..|apply faded_refl].
  - destruct (et_softDelete t); [intros H; eapply apply_update_ages; [done|apply faded_refl|exact H]|].
    intros [= _ <-]. eexists _, _. split; [done|]. by apply rows_faded_delete.
  - destruct (negb (et_softDelete t)); [intros [= _ <-]; by eexists _, _|].
    intros H. eapply apply_update_ages; [done|apply faded_refl|exact H].
  - intros [= _ <-]. eexists _, _. split; [done|]. by apply rows_faded_delete.
  - intros [= _ <-]. by eexists _, _.
Qed.
End ageing.

Lemma blindIndexFieldName_not_id f : blindIndexFieldName f ≠ "id".
Proof.
  intros H. unfold blindIndexFieldName in H. destruct f as [|a [|b [|c f]]]; discriminate H.
Qed.

(** A history replayed under later keys: it goes through, and only columns of
    erased subjects may be NULL instead. *)
Lemma history_ages t violates crypto erased K history rows :
  nulls_distinct violates → NoDup (et_fields t) → "id" ∉ collectPiiFileReferenceFields t →
  Forall (λ ke, keys_age erased ke.1 K) history →
  apply_history t violates crypto ∅ history = Ok rows →
  ∃ rows', apply_events t violates crypto K ∅ history.*2 = Ok rows' ∧
           rows_faded (column_of_erased t erased history.*2) rows rows'.
Proof.
  intros Hv Hnd Hid Hages. set (gone := column_of_erased t erased history.*2).
  assert (Hg : ¬ gone "id").
  { intros (e & f & v & s & _ & _ & _ & _ & [[Hf <-]|[_ Hb]]); [done|by destruct (blindIndexFieldName_not_id f)]. }
  assert (Hsub : ∀ event, event ∈ history.*2 → ∀ f v s, written event !! f = Some v → sealed_for v s → erased s →
     (f ∈ collectPiiFileReferenceFields t → gone f) ∧
     (f ∈ collectLookupableFields t → gone (blindIndexFieldName f))).
  { intros event Hin f v s Hf Hs He. split; intros Hk; exists event, f, v, s; split_and!; auto. }
  assert (Hrefl : rows_faded gone ∅ ∅) by (intros i; rewrite lookup_empty; constructor).
  revert Hrefl. generalize (∅ : EntityRows) at 1 3 as rows0. generalize (∅ : EntityRows) as rows0'.
  intros rows0' rows0 Hr Happ. clearbody gone. revert rows0 rows0' Hr Happ.
  induction Hages as [|[k event] history Hk _ IH]; intros rows0 rows0' Hr Happ; cbn [apply_history fmap list_fmap apply_events snd] in *.
  { injection Happ as <-. by exists rows0'. }
  apply result_bind_Ok in Happ as ([r rows1] & Ha & Happ).
  destruct (applyEntityEvent_ages t violates crypto gone Hv Hg erased k K Hk Hnd rows0 rows0' event r rows1)
    as (r' & rows1' & -> & Hr'); [by apply Hsub; left|done|done|].
  cbn [result_bind snd]. apply (IH (λ e He, Hsub e (list_elem_of_further _ _ _ He)) rows1 rows1' Hr' Happ).
Qed.
