(* ===== verification/FieldState.v ===== *)
(** * Conditional field state

    The conditions of [types/src/field-state-conditions.ts] and their checks on
    the write path: record locks and conditional select options
    ([engine/screen-helpers.ts]), conditional requirements
    ([engine/field-state.ts]).  A row is its list of entries; a missing key
    reads as undefined ([None]). *)

From S2P Require Import Prelude FieldAccess.

(** ** Conditions *)

Inductive FieldTest :=
| TestEq (v : option Json)
| TestIn (vs : list Json)
| TestNotIn (vs : list Json)
| TestNe (v : option Json).

Inductive FieldCondition :=
| CondConst (b : bool)
| CondOn (field : string) (test : FieldTest).

(** [a === b] with undefined. *)
Definition js_equals (a b : option Json) : bool :=
  match a, b with
  | None, None => true
  | Some x, Some y => strict_equals x y
  | _, _ => false
  end.

Definition js_includes (vs : list Json) (v : option Json) : bool :=
  match v with Some x => existsb (λ y, strict_equals y x) vs | None => false end.

Definition eval_test (test : FieldTest) (val : option Json) : bool :=
  match test with
  | TestEq v => js_equals val v
  | TestIn vs => js_includes vs val
  | TestNotIn vs => negb (js_includes vs val)
  | TestNe v => negb (js_equals val v)
  end.

Definition evalFieldCondition (cond : FieldCondition) (values : Row) : bool :=
  match cond with
  | CondConst b => b
  | CondOn field test => eval_test test (assoc_get field values)
  end.

(** A row without the condition's field counts as locked. *)
Definition isRecordLocked (lockedWhen : option FieldCondition) (row : Row) : bool :=
  match lockedWhen with
  | None => false
  | Some (CondConst b) => b
  | Some (CondOn field test) =>
      match assoc_get field row with
      | None => true
      | Some v => eval_test test (Some v)
      end
  end.

(** ** Field definitions *)

Record SelectRule := mkSelectRule {
  sr_options : list string;
  sr_field : string;
  sr_test : FieldTest }.

Record StateConditions := mkConditions {
  sc_required : bool;
  sc_visibleWhen : option (string * FieldTest);
  sc_requiredWhen : option (string * FieldTest) }.

Inductive StateKind :=
| StateSelect (options : list string) (conditionalOptions : option (list SelectRule))
| StateEmbedded (multiple : bool) (schema : list (string * StateConditions))
| StatePlain.

Record StateField := mkStateField {
  sf_kind : StateKind;
  sf_conditions : StateConditions }.

Definition eval_on (cond : string * FieldTest) (values : Row) : bool :=
  evalFieldCondition (CondOn cond.1 cond.2) values.

(** ** Select options *)

Definition availableSelectOptions (options : list string) (rules : option (list SelectRule)) (values : Row)
    : list string :=
  match rules with
  | None | Some [] => options
  | Some rs =>
      filter (λ option, forallb (λ rule, negb (bool_decide (option ∈ sr_options rule))
                                         || eval_on (sr_field rule, sr_test rule) values) rs = true) options
  end.

Record UnavailableSelectOption := mkUnavailable {
  un_field : string;
  un_value : string;
  un_allowed : list string }.

Definition unchanged (values : Row) (previous : option Row) (keys : list string) : bool :=
  match previous with
  | None => false
  | Some p => forallb (λ key, isUnchangedValue (assoc_get key values) (assoc_get key p)) keys
  end.

Definition unavailable_option (values : Row) (previous : option Row) (nf : string * StateField)
    : option UnavailableSelectOption :=
  match sf_kind nf.2 with
  | StateSelect options (Some rules) =>
      match assoc_get nf.1 values with
      | Some (JStr value) =>
          if bool_decide (value = "") then None
          else if unchanged values previous (nf.1 :: (sr_field <$> rules)) then None
          else let allowed := availableSelectOptions options (Some rules) values in
               if bool_decide (value ∈ allowed) then None else Some (mkUnavailable nf.1 value allowed)
      | _ => None
      end
  | _ => None
  end.

Definition findUnavailableSelectOptions (fields : list (string * StateField)) (values : Row)
    (previous : option Row) : list UnavailableSelectOption :=
  omap (unavailable_option values previous) fields.

(** ** Requirements *)

Definition isMissingRequiredValue (v : option Json) : bool :=
  match v with
  | None | Some JNull | Some (JStr "") | Some (JArr []) => true
  | _ => false
  end.

Definition isFieldVisible (def : StateConditions) (values : Row) : bool :=
  match sc_visibleWhen def with None => true | Some c => eval_on c values end.

Definition isFieldRequired (def : StateConditions) (values : Row) : bool :=
  isFieldVisible def values
  && (sc_required def || match sc_requiredWhen def with Some c => eval_on c values | None => false end).

Definition watchedKeys (name : string) (def : StateConditions) : list string :=
  name :: (match sc_requiredWhen def with Some c => [c.1] | None => [] end)
       ++ (match sc_visibleWhen def with Some c => [c.1] | None => [] end).

(** The rows of an embedded value with the index to print, if any. *)
Definition embeddedRowsOf (multiple : bool) (value : option Json) : list (option nat * Json) :=
  match multiple, value with
  | true, Some (JArr rows) => imap (λ i row, (Some i, row)) rows
  | false, Some (JObj kvs) => [(None, JObj kvs)]
  | _, _ => []
  end.

Definition sub_path (name : string) (index : option nat) (subName : string) : string :=
  match index with
  | None => name +:+ "." +:+ subName
  | Some i => name +:+ "." +:+ pretty i +:+ "." +:+ subName
  end.

Definition missing_in_row (name : string) (schema : list (string * StateConditions)) (ir : option nat * Json)
    : list string :=
  match ir.2 with
  | JObj row =>
      omap (λ sub, match sc_requiredWhen sub.2 with
                   | None => None
                   | Some _ => if isFieldRequired sub.2 row && isMissingRequiredValue (assoc_get sub.1 row)
                               then Some (sub_path name ir.1 sub.1) else None
                   end) schema
  | _ => []
  end.

Definition findMissingEmbeddedRequirements (name : string) (multiple : bool)
    (schema : list (string * StateConditions)) (value : option Json) : list string :=
  embeddedRowsOf multiple value ≫= missing_in_row name schema.

Definition missing_own (values : Row) (previous : option Row) (name : string) (def : StateConditions)
    : list string :=
  match sc_requiredWhen def with
  | None => []
  | Some _ =>
      if negb (unchanged values previous (watchedKeys name def)) && isFieldRequired def values
         && isMissingRequiredValue (assoc_get name values) then [name] else []
  end.

Definition missing_requirements (values : Row) (previous : option Row) (nf : string * StateField) : list string :=
  let '(name, field) := nf in
  if negb (isFieldVisible (sf_conditions field) values) then []
  else missing_own values previous name (sf_conditions field)
       ++ match sf_kind field with
          | StateEmbedded multiple schema =>
              if unchanged values previous [name] then []
              else findMissingEmbeddedRequirements name multiple schema (assoc_get name values)
          | _ => []
          end.

Definition findMissingConditionalRequirements (fields : list (string * StateField)) (values : Row)
    (previous : option Row) : list string :=
  fields ≫= missing_requirements values previous.

(** ** Decisions *)

(** The rules decide an option: it is declared and every rule naming it holds. *)
Lemma elem_of_availableSelectOptions options rules values option :
  option ∈ availableSelectOptions options (Some rules) values ↔
  option ∈ options ∧ ∀ rule, rule ∈ rules → option ∈ sr_options rule →
    eval_on (sr_field rule, sr_test rule) values = true.
Proof.
  assert (Hf : forallb (λ rule, negb (bool_decide (option ∈ sr_options rule))
                                || eval_on (sr_field rule, sr_test rule) values) rules = true ↔
               ∀ rule, rule ∈ rules → option ∈ sr_options rule → eval_on (sr_field rule, sr_test rule) values = true).
  { rewrite forallb_forall. split.
    - intros H rule Hr Ho. specialize (H rule (proj1 (list_elem_of_In _ _) Hr)).
      by rewrite bool_decide_eq_true_2 in H.
    - intros H rule Hr%list_elem_of_In. case_bool_decide; simpl; [auto|done]. }
  unfold availableSelectOptions. destruct rules as [|r rs].
  - split; [|naive_solver]. intros H. split; [done|]. intros rule Hr. by apply elem_of_nil in Hr.
  - rewrite list_elem_of_filter, Hf. naive_solver.
Qed.

(** A write is refused for a select field exactly when the new value is not the empty string, no
    comparison with a previous row shows the field and everything its rules watch unchanged,
    and the value is undeclared or a rule that names it does not hold on the new row. *)
Theorem select_rules_decide fields values previous name value :
  (∃ allowed, mkUnavailable name value allowed ∈ findUnavailableSelectOptions fields values previous) ↔
  ∃ field options rules,
    (name, field) ∈ fields ∧ sf_kind field = StateSelect options (Some rules) ∧
    assoc_get name values = Some (JStr value) ∧ value ≠ "" ∧
    unchanged values previous (name :: (sr_field <$> rules)) = false ∧
    (value ∉ options ∨ ∃ rule, rule ∈ rules ∧ value ∈ sr_options rule ∧
                       eval_on (sr_field rule, sr_test rule) values = false).
Proof.
  assert (Hrules : ∀ options rules, value ∉ availableSelectOptions options (Some rules) values ↔
            value ∉ options ∨ ∃ rule, rule ∈ rules ∧ value ∈ sr_options rule ∧
                              eval_on (sr_field rule, sr_test rule) values = false).
  { intros options rules. rewrite elem_of_availableSelectOptions. split.
    - intros Hn. destruct (decide (value ∈ options)) as [Ho|]; [right|by left].
      destruct (decide (Exists (λ rule, value ∈ sr_options rule ∧ eval_on (sr_field rule, sr_test rule) values = false) rules))
        as [(rule & Hr & Hs & He)%Exists_exists|Hne]; [by exists rule|].
      exfalso. apply Hn. split; [done|]. intros rule Hr Hs. apply not_false_iff_true. intros He.
      apply Hne, Exists_exists. by exists rule.
    - intros [Ho|(rule & Hr & Hs & He)] [Ho' Hall]; [done|]. by rewrite (Hall rule Hr Hs) in He. }
  unfold findUnavailableSelectOptions. split.
  - intros (allowed & ([n f] & Hin & Hu)%list_elem_of_omap). unfold unavailable_option in Hu. cbn [fst snd] in Hu.
    destruct (sf_kind f) as [options [rules|]| |] eqn:Hk; try done.
    destruct (assoc_get n values) as [[| | |s| |]|] eqn:Hv; try done.
    case_bool_decide as Hs; [done|]. destruct (unchanged _ _ _) eqn:Hun; [done|].
    case_bool_decide as Ha; [done|]. simplify_eq. exists f, options, rules. by rewrite <- Hrules.
  - intros (f & options & rules & Hin & Hk & Hv & Hs & Hun & Hbad). rewrite <- Hrules in Hbad.
    eexists. apply list_elem_of_omap. exists (name, f). split; [done|].
    unfold unavailable_option. cbn [fst snd]. rewrite Hk, Hv, bool_decide_eq_false_2 by done.
    by rewrite Hun, bool_decide_eq_false_2.
Qed.
