(* ===== verification/Executor.v ===== *)
(** * The entity executor

    The five write verbs of [db/event-store-executor-write.ts] with their steps
    ([event-store-executor-write-steps.ts], [write-ownership-failures.ts],
    [event-store-executor-context.ts], [lock-guard.ts],
    [pipeline/irreversible-operation-gate.ts]) and the scope that rolls a failed
    verb back ([event-store-executor-write-atomic.ts]).  A verb is a program on
    the world: the event log, the entity table and the projection tables.

    Encryption, compound types, file handles, the [preSave] hook with its
    output schema and the read gate are fields of [Services].  [interfere] is
    what other transactions commit before a numbered statement (READ
    COMMITTED); the entity cache and row-level security are left out. *)

From S2P Require Import Prelude PgErrors EventLog EventStore AppendCore BlindIndex.
From S2P Require Import Ownership FieldAccess FieldState WhereClause TenantDb EntityApply.

Open Scope Z_scope.

(** ** Data *)

Record EntityDefinition := mkEntity {
  en_name : string;
  en_table : EntityTable;
  en_global : bool;
  en_systemStream : bool;
  en_write : option OwnershipMap;
  en_fields : FieldAccess.Entity;
  en_state : list (string * StateField);
  en_lockedWhen : option FieldCondition;
  en_defaults : Row;
  en_sensitive : list string;
  en_encrypted : list string;
  en_instruction : list string;
  en_eventVersion : option Z }.

Inductive WritePurpose := PurposeRetention | PurposeErasure.

Record WriteOptions := mkOptions {
  wo_streamTenantId : option string;
  wo_skipOptimisticLock : bool;
  wo_expect : option Row;
  wo_includeDeleted : bool;
  wo_skipUnchanged : bool;
  wo_unsafeSkipLockGuard : bool;
  wo_writePurpose : option WritePurpose }.

Definition noWriteOptions : WriteOptions := mkOptions None false None false false false None.

Inductive WriteFailure :=
| NotFoundError (entityId : string)
| AccessDenied (reason : string)
| RecordLockedError (entityId : string)
| OwnershipDenied (scope action : string) (field : option string)
| VersionConflict (entityId : string) (expectedVersion currentVersion : Z)
| PreconditionFailedError (field : string)
| IdempotentReplayError (idempotencyKey : string)
| UniqueViolationError
| UnprocessableError (code : string)
| InternalFailure (message : string)
| InvalidFileRef (field : string)
| SelectOptionNotAvailable (entries : list UnavailableSelectOption)
| RequiredMissing (paths : list string)
| SubjectErased.

Inductive ExecThrown :=
| ThrewAccessDenied (reason : string)
| ThrewArchived (tenantId aggregateId : string)
| ThrewAppend (e : AppendError)
| ThrewApply (e : ApplyError)
| ThrewProjection (message : string)
| ThrewSubjectErased
| ThrewCrypto (message : string)
| ThrewInternal (message : string).

Inductive CryptoError := KeyErased | CryptoFailed (message : string).

Inductive outcome (A : Type) :=
| Done (a : A)
| Failed (f : WriteFailure)
| Threw (e : ExecThrown).
Arguments Done {A}.
Arguments Failed {A}.
Arguments Threw {A}.

(** What [encryptForStorage] is told besides the row. *)
Record EncryptOptions := mkEncrypt {
  eo_onlyKeys : option (list string);
  eo_subjectSource : option Row;
  eo_keyTenantId : option string;
  eo_ownerFallback : option Row;
  eo_sentinel : bool }.

Record Services := mkServices {
  encryptForStorage : SessionUser → EncryptOptions → Row → result CryptoError Row;
  decryptForRead : Row → result string Row;
  flattenCompoundTypes : Row → Row;
  rehydrateCompoundTypes : Row → Row;
  resolveFileHandles : Row → result WriteFailure Row;
  preSave : option (Row → Row → bool → result string Row);
  outputSchema : Row → bool;
  ownerTransitionRekeys : Row → Row → Row → Row;
  generateId : string }.

(** [requestContext.get()]: the directly dispatched handler's risk. *)
Record EntryScope := mkEntry {
  es_highRisk : option bool;
  es_declaredException : bool }.

Record SaveResult := mkSave {
  sv_kind : string;
  sv_id : string;
  sv_data : Row;
  sv_changes : Row;
  sv_previous : Row;
  sv_isNew : bool;
  sv_event : StoredEvent }.

(** ** The world *)

Record World (W : Type) := mkWorld {
  w_db : EventsDb;
  w_rows : gmap string (gmap string Json);
  w_projections : W }.
Arguments mkWorld {W}.
Arguments w_db {W}.
Arguments w_rows {W}.
Arguments w_projections {W}.

Section exec.
Context {W : Type}.

Definition Exec (A : Type) : Type := World W → outcome A * World W.

Definition xret {A} (a : A) : Exec A := λ w, (Done a, w).
Definition xfail {A} (f : WriteFailure) : Exec A := λ w, (Failed f, w).
Definition xthrow {A} (e : ExecThrown) : Exec A := λ w, (Threw e, w).
Definition xbind {A B} (m : Exec A) (f : A → Exec B) : Exec B :=
  λ w, match m w with
       | (Done a, w') => f a w'
       | (Failed e, w') => (Failed e, w')
       | (Threw e, w') => (Threw e, w')
       end.

(** A value computed without touching the world, or a failure. *)
Definition xcheck (failure : option WriteFailure) : Exec () :=
  match failure with Some f => xfail f | None => xret () end.
Definition xread {A} (f : World W → A) : Exec A := λ w, (Done (f w), w).
End exec.

Notation "'let$' x ':=' c1 'in' c2" := (xbind c1 (λ x, c2))
  (at level 10, x pattern, c1 at level 100, c2 at level 200).

(** ** Rows *)

(** A row as the driver returns it: every column, NULL where nothing is stored. *)
Definition read_row (t : EntityTable) (row : gmap string Json) : Row :=
  (λ c, (c, default JNull (row !! c))) <$> et_columns t.

Definition row_tenantId (row : Row) : option Json := assoc_get "tenantId" row.

(** TenantDb's filter on one row of an entity table. *)
Definition tenant_reads (db : TenantDb) (t : EntityTable) (row : gmap string Json) : bool :=
  if negb (hasColumn t "tenantId") || negb (is_tenant_mode db) then true
  else match row !! "tenantId" with
       | Some (JStr tenant) => bool_decide (tenant ∈ allowed_ids db)
       | _ => false
       end.

Definition fetch_row (db : TenantDb) (t : EntityTable) (live_only : bool)
    (rows : gmap string (gmap string Json)) (id : string) : option Row :=
  match rows !! id with
  | Some row =>
      if tenant_reads db t row
         && (negb live_only || match row !! "isDeleted" with Some (JBool false) => true | _ => false end)
      then Some (read_row t row) else None
  | None => None
  end.

(** ** The executor context *)

Definition ownershipSubject (user : SessionUser) (streamTenantId : option string) : SessionUser :=
  match streamTenantId with
  | None => user
  | Some t => mkUser (us_id user) t (us_roles user) (us_claims user)
  end.

Section context.
Context (entity : EntityDefinition).

Definition isForeignTenantOnGlobalEntity (tenantIdValue : option Json) : bool :=
  en_global entity
  && match tenantIdValue with
     | None => false
     | Some v => negb (strict_equals v (JStr SYSTEM_TENANT_ID))
     end.

Definition streamTenantFor (user : SessionUser) (requested : option string) : string :=
  if en_systemStream entity then SYSTEM_TENANT_ID else default (us_tenantId user) requested.

Definition streamTenantOverrideFailure (db : TenantDb) (row : Row) (requested : option string)
    : option WriteFailure :=
  match requested with
  | None => None
  | Some t =>
      if is_tenant_mode db && negb (bool_decide (td_tenantId db = t))
      then Some (AccessDenied "streamTenantId requires a system-mode db or a db bound to that tenant")
      else if js_equals (row_tenantId row) (Some (JStr t)) then None
      else Some (AccessDenied "streamTenantId does not match the tenant of the addressed row")
  end.

(** [payload.tenantId ?? requested] *)
Definition streamTenantCreateFailure (db : TenantDb) (payload : Row) (requested : option string)
    : option WriteFailure :=
  let tenant := match assoc_get "tenantId" payload with
                | None | Some JNull => JStr <$> requested
                | v => v
                end in
  streamTenantOverrideFailure db (match tenant with Some v => [("tenantId", v)] | None => [] end) requested.

Definition applyDefaults (payload : Row) : Row :=
  foldl (λ acc nd, match assoc_get nd.1 acc with None => assoc_set nd.1 nd.2 acc | Some _ => acc end)
    payload (en_defaults entity).

Definition stripSensitive (payload : Row) : Row :=
  filter (λ kv, kv.1 ∉ en_sensitive entity) payload.

Definition buildEventMetadata (reqCtx : option RequestScope) (user : SessionUser) : EventMetadata :=
  mkMetadata (us_id user) (truthy (reqCtx ≫= rq_requestId)) (truthy (reqCtx ≫= rq_correlationId))
    (truthy (reqCtx ≫= rq_causationId)) None None None None None.

(** ** Guards *)

Definition SYSTEM_USER_ID : string := "00000000-0000-0000-0000-000000000000".

Definition isFrameworkSystemUser (user : SessionUser) : bool :=
  bool_decide (us_id user = SYSTEM_USER_ID) && includes (us_roles user) SYSTEM_ROLE.

Definition has_purpose (o : WriteOptions) : bool :=
  match wo_writePurpose o with Some _ => true | None => false end.

Definition isLockGuardBypassed (user : SessionUser) (o : WriteOptions) : bool :=
  wo_unsafeSkipLockGuard o || (has_purpose o && isFrameworkSystemUser user).

Definition recordLockedFailure (row : Row) (id : string) (user : SessionUser) (o : WriteOptions)
    : option WriteFailure :=
  if isLockGuardBypassed user o || negb (isRecordLocked (en_lockedWhen entity) row) then None
  else Some (RecordLockedError id).

Definition erasureSentinel (o : WriteOptions) : bool :=
  match wo_writePurpose o with Some PurposeErasure => true | _ => false end.

Definition isIrreversibleEntityVerb (verb : string) : bool :=
  bool_decide (verb = "forget") || negb (et_softDelete (en_table entity)).

Definition assertEntryHandlerHighRisk (scope : option EntryScope) (reason : string) : option ExecThrown :=
  match scope with
  | None => None
  | Some s => match es_highRisk s with
              | None => if es_declaredException s then None
                        else Some (ThrewAccessDenied "irreversible_operation_without_entry_handler")
              | Some high => if high then None else Some (ThrewAccessDenied reason)
              end
  end.

Definition assertInstructionFieldWriteAllowed (scope : option EntryScope) (written : list string)
    : option ExecThrown :=
  match filter (λ name, name ∈ en_instruction entity) written with
  | [] => None
  | _ => assertEntryHandlerHighRisk scope "instruction_field_write_requires_high_risk"
  end.

Definition createOwnershipFailure (user : SessionUser) (streamTenantId : option string)
    (payloadWithoutId data : Row) : option WriteFailure :=
  let subject := ownershipSubject user streamTenantId in
  if negb (userCanCreateFieldRow subject (en_write entity) data)
  then Some (OwnershipDenied "entity" "create" None)
  else match checkWriteFieldOwnership (en_fields entity) (applyDefaults payloadWithoutId) subject None data true with
       | Some field => Some (OwnershipDenied "field" "create" (Some field))
       | None => None
       end.

Definition updateOwnershipFailure (user : SessionUser) (streamTenantId : option string)
    (submittedChanges previous changes mergedNew : Row) : option WriteFailure :=
  let subject := ownershipSubject user streamTenantId in
  if negb (userCanWriteFieldRow subject (en_write entity) previous mergedNew)
  then Some (OwnershipDenied "entity" "update" None)
  else match checkWriteFieldOwnership (en_fields entity) submittedChanges subject (Some previous) changes true with
       | Some field => Some (OwnershipDenied "field" "update" (Some field))
       | None => None
       end.

Definition rowOwnershipFailure (user : SessionUser) (streamTenantId : option string) (action : string)
    (row : Row) : option WriteFailure :=
  if userCanWriteFieldRow (ownershipSubject user streamTenantId) (en_write entity) row row then None
  else Some (OwnershipDenied "entity" action None).

Definition fieldStateFailure (values : Row) (previous : option Row) : option WriteFailure :=
  match findUnavailableSelectOptions (en_state entity) values previous with
  | [] => match findMissingConditionalRequirements (en_state entity) values previous with
          | [] => None
          | paths => Some (RequiredMissing paths)
          end
  | entries => Some (SelectOptionNotAvailable entries)
  end.

Definition updateSelectOptionFailure (user : SessionUser) (mergedNew previous : Row) (o : WriteOptions)
    : option WriteFailure :=
  if has_purpose o && isFrameworkSystemUser user then None else fieldStateFailure mergedNew (Some previous).

Definition optimisticLockFailure (id : string) (submittedVersion : option Z) (currentVersion : Z) (skip : bool)
    : option WriteFailure :=
  if skip then None
  else match submittedVersion with
       | None => Some (VersionConflict id 0 currentVersion)
       | Some v => if currentVersion =? v then None else Some (VersionConflict id v currentVersion)
       end.

(** [a ?? b] on failures. *)
Definition orElse (a b : option WriteFailure) : option WriteFailure :=
  match a with Some _ => a | None => b end.
End context.

(** ** The verbs *)

Section verbs.
Context {V W : Type} (svc : Services) (entity : EntityDefinition).
Context (reqCtx : option RequestScope) (env : SeedEnv) (scope : option EntryScope).
Context (encryptEvent : string → Row → string * string * string → result Thrown Row)
  (violates : gmap string (gmap string Json) → string → gmap string Json → bool)
  (crypto : Crypto) (keys : Keys)
  (registry : option (Registry V W))
  (isRowReadable : World W → string → SessionUser → bool)
  (interfere : nat → World W → World W).

(** Statement [k] sees what others have committed by then. *)
Definition xstmt {A} (k : nat) (m : Exec A) : Exec A := λ w : World W, m (interfere k w).

Definition lift_crypto {A} (r : result CryptoError A) : Exec (W := W) A :=
  match r with
  | Ok a => xret a
  | Err KeyErased => xthrow ThrewSubjectErased
  | Err (CryptoFailed message) => xthrow (ThrewCrypto message)
  end.

Definition lift_decrypt {A} (r : result string A) : Exec (W := W) A :=
  match r with Ok a => xret a | Err message => xthrow (ThrewCrypto message) end.

Definition xthrow_if (e : option ExecThrown) : Exec (W := W) () :=
  match e with Some t => xthrow t | None => xret () end.

(** [tenantDbWriteRunnerForTable] *)
Definition writeRunner (db : TenantDb) : Exec (W := W) () :=
  match gr_writesDeniedReason (td_grants db) with Some r => xthrow (ThrewInternal r) | None => xret () end.

Definition readProjectedRow (row : Row) : Exec (W := W) Row :=
  lift_decrypt (decryptForRead svc (rehydrateCompoundTypes svc row)).

Definition fetch (k : nat) (db : TenantDb) (live_only : bool) (id : string) : Exec (W := W) (option Row) :=
  xstmt k (xread (λ w : World W, fetch_row db (en_table entity) live_only (w_rows w) id)).

Definition has_isDeleted : bool := et_softDelete (en_table entity) && hasColumn (en_table entity) "isDeleted".

Definition loadById (k : nat) (db : TenantDb) (includeDeleted : bool) (id : string) : Exec (W := W) (option Row) :=
  let$ found := fetch k db (negb includeDeleted && has_isDeleted) id in
  match found with
  | None => xret None
  | Some row => let$ plain := readProjectedRow row in xret (Some plain)
  end.

Definition required (id : string) (found : option Row) : Exec (W := W) Row :=
  match found with Some row => xret row | None => xfail (NotFoundError id) end.

Definition unreadableRowFailure (k : nat) (id : string) (user : SessionUser) : Exec (W := W) () :=
  xstmt k (let$ readable := xread (λ w : World W, isFrameworkSystemUser user || isRowReadable w id user) in
           if readable then xret () else xfail (NotFoundError id)).

Definition assertStreamWritable (k : nat) (id tenantId : string) : Exec (W := W) () :=
  xstmt k (let$ archived := xread (λ w : World W, isStreamArchived (w_db w) tenantId id) in
           if archived then xthrow (ThrewArchived tenantId id) else xret ()).

Definition stream_version (k : nat) (id tenantId : string) : Exec (W := W) Z :=
  xstmt k (xread (λ w : World W, getStreamVersion (w_db w) id tenantId)).

(** The [expect] fields and the version in one statement. *)
Definition bad_expect_key (key : string) : bool :=
  negb (hasColumn (en_table entity) key) || bool_decide (key ∈ en_encrypted entity).

Definition expectedStreamVersion (k : nat) (db : TenantDb) (id streamTenant : string) (expect : Row)
    : Exec (W := W) Z :=
  if existsb bad_expect_key expect.*1 then xthrow (ThrewInternal "expect: not a comparable column")
  else
    let$ seen := xstmt k (xread (λ w : World W, (fetch_row db (en_table entity) false (w_rows w) id,
                                       getStreamVersion (w_db w) id streamTenant))) in
    match seen.1 with
    | None => xfail (PreconditionFailedError "id")
    | Some row =>
        match list_find (λ kv, js_equals (assoc_get kv.1 row) (Some kv.2) = false) expect with
        | Some (_, kv) => xfail (PreconditionFailedError kv.1)
        | None => xret seen.2
        end
    end.

Definition currentStreamVersion (k : nat) (db : TenantDb) (id streamTenant : string) (expect : option Row)
    : Exec (W := W) Z :=
  match expect with
  | Some e => expectedStreamVersion k db id streamTenant e
  | None => stream_version k id streamTenant
  end.

(** ** Appending *)

Definition entity_event (user : SessionUser) (id streamTenant : string) (expectedVersion : Z) (verb : AutoVerb)
    (payload : Row) : EventToAppend :=
  mkToAppend id (en_name entity) streamTenant expectedVersion (entityEventName (en_name entity) verb)
    (Some (default 1 (en_eventVersion entity))) payload (buildEventMetadata reqCtx user).

Definition appendEvent (k : nat) (event : EventToAppend) : Exec (W := W) StoredEvent :=
  xstmt k (λ w, match append encryptEvent reqCtx env (w_db w) event with
                | (Ok stored, db') => (Done stored, mkWorld db' (w_rows w) (w_projections w))
                | (Err e, db') => (Threw (ThrewAppend e), mkWorld db' (w_rows w) (w_projections w))
                end).

Definition appendConflictFailure {A} (id : string) (expectedVersion : Z) (streamTenant : string)
    (e : AppendError) : Exec (W := W) A :=
  match e with
  | VersionConflictError _ _ current =>
      let$ now := xread (λ w : World W, getStreamVersion (w_db w) id streamTenant) in
      xfail (VersionConflict id expectedVersion (default now current))
  | IdempotentAppendConflictError _ key => xfail (IdempotentReplayError key)
  | _ => xthrow (ThrewAppend e)
  end.

(** [try { m } catch (e) { return appendConflictFailure(e) }] *)
Definition catchingConflicts {A} (id : string) (expectedVersion : Z) (streamTenant : string) (m : Exec A)
    : Exec (W := W) A :=
  λ w, match m w with
       | (Threw (ThrewAppend e), w') => appendConflictFailure id expectedVersion streamTenant e w'
       | r => r
       end.

(** ** Projecting *)

Definition apply_event (k : nat) (event : StoredEvent) : Exec (W := W) (result ApplyError ApplyResult) :=
  xstmt k (λ w, match applyEntityEvent (en_table entity) violates crypto keys
                        (w_rows w) event with
                | Ok (r, rows') => (Done (Ok r), mkWorld (w_db w) rows' (w_projections w))
                | Err e => (Done (Err e), w)
                end).

Definition applyProjection (k : nat) (event : StoredEvent) (noRowMessage : string) : Exec (W := W) Row :=
  let$ r := apply_event k event in
  match r with
  | Ok (Applied _ (Some row)) => xret (read_row (en_table entity) row)
  | Ok _ => xfail (InternalFailure noRowMessage)
  | Err TableUniqueViolation => xfail UniqueViolationError
  | Err e => xthrow (ThrewApply e)
  end.

Definition applyRemoval (k : nat) (event : StoredEvent) (message : string) : Exec (W := W) () :=
  let$ r := apply_event k event in
  match r with
  | Ok (Applied _ _) => xret ()
  | Ok SkippedEvent => xfail (InternalFailure message)
  | Err e => xthrow (ThrewApply e)
  end.

(** Custom projections run in a savepoint. *)
Definition projectEntityEvent (event : StoredEvent) : Exec (W := W) () :=
  match registry with
  | None => xret ()
  | Some r =>
      if negb (hasLiveProjectionsForEvent event r) then xret ()
      else λ w, match apply_all (liveProjectionsForEvent event r) event (w_projections w) with
                | (Ok _, w') => (Done (), mkWorld (w_db w) (w_rows w) w')
                | (Err message, _) => (Threw (ThrewProjection message), w)
                end
  end.

Definition with_payload (event : StoredEvent) (payload : Row) : StoredEvent :=
  mkStored (se_id event) (se_aggregateId event) (se_aggregateType event) (se_tenantId event)
    (se_version event) (se_type event) (se_eventVersion event) payload (se_metadata event)
    (se_createdAt event) (se_createdBy event).

(** ** preSave *)

Definition runPreSave (changes previous : Row) (isNew : bool) : Exec (W := W) Row :=
  match preSave svc with
  | None => xret changes
  | Some hook =>
      match hook changes previous isNew with
      | Err _ => xfail (UnprocessableError "presave_hook_failed")
      | Ok hookResult =>
          let safe := assoc_delete "version" (assoc_delete "id" hookResult) in
          if outputSchema svc safe then xret safe
          else xfail (UnprocessableError "presave_hook_invalid_output")
      end
  end.

Definition assertFieldWritesAllowed (db : TenantDb) (data : Row) : Exec (W := W) () :=
  let$ _ := xthrow_if (match gr_personalDataGate (td_grants db) with
                       | Some gate => if gate (et_entityName (en_table entity)) data.*1 then None
                                      else Some (ThrewAccessDenied "personal_data")
                       | None => None
                       end) in
  xthrow_if (assertInstructionFieldWriteAllowed entity scope data.*1).

Definition assertTenantAllowedOnGlobalEntity (tenantId : option Json) : Exec (W := W) () :=
  xthrow_if (if isForeignTenantOnGlobalEntity entity tenantId then Some (ThrewAccessDenied "global_entity") else None).

Definition resolved (values : Row) : Exec (W := W) Row :=
  match resolveFileHandles svc values with Ok v => xret v | Err f => xfail f end.

(** ** create *)

Definition create (payload : Row) (user : SessionUser) (db : TenantDb) (o : WriteOptions)
    : Exec (W := W) SaveResult :=
  let streamTenantId := wo_streamTenantId o in
  let streamTenant := streamTenantFor entity user streamTenantId in
  let$ _ := assertTenantAllowedOnGlobalEntity (assoc_get "tenantId" payload) in
  let$ _ := xcheck (streamTenantCreateFailure db payload streamTenantId) in
  let$ _ := writeRunner db in
  let aggregateId := match assoc_get "id" payload with Some (JStr id) => id | _ => generateId svc end in
  let$ payloadWithoutId := resolved (assoc_delete "id" payload) in
  let$ data := runPreSave (applyDefaults entity payloadWithoutId) [] true in
  let$ _ := assertFieldWritesAllowed db data in
  let$ _ := xcheck (createOwnershipFailure entity user streamTenantId payloadWithoutId data) in
  let$ _ := xcheck (fieldStateFailure entity data None) in
  let flat := flattenCompoundTypes svc data in
  let$ flatData := lift_crypto (encryptForStorage svc user
    (mkEncrypt None (Some (assoc_set "id" (JStr aggregateId) flat)) streamTenantId None false) flat) in
  let$ event := catchingConflicts aggregateId 0 streamTenant
                  (appendEvent 5 (entity_event user aggregateId streamTenant 0 Created flatData)) in
  let$ row := applyProjection 6 event "projection insert returned no row" in
  let$ projection := readProjectedRow row in
  let echo := with_payload event (stripSensitive entity flat) in
  let$ _ := projectEntityEvent echo in
  xret (mkSave "save" aggregateId projection data [] true echo).

(** ** update *)

Record UpdatePayload := mkUpdate {
  up_id : string;
  up_version : option Z;
  up_changes : Row }.

Definition encryptUpdatePayload (user : SessionUser) (o : WriteOptions) (previous changes mergedNew : Row)
    : Exec (W := W) (Row * Row * Row) :=
  let submitted := if wo_skipUnchanged o
                   then filter (λ kv, isUnchangedValue (Some kv.2) (assoc_get kv.1 previous) = false) changes
                   else changes in
  let changesToPersist := assoc_spread submitted (ownerTransitionRekeys svc previous mergedNew submitted) in
  let flat := flattenCompoundTypes svc changesToPersist in
  let$ flatChanges := lift_crypto (encryptForStorage svc user
    (mkEncrypt (Some changesToPersist.*1) (Some mergedNew) (wo_streamTenantId o) None (erasureSentinel o)) flat) in
  let$ encryptedPrevious := lift_crypto (encryptForStorage svc user
    (mkEncrypt None None (wo_streamTenantId o) (Some submitted) (erasureSentinel o)) previous) in
  xret (flat, flatChanges, encryptedPrevious).

Definition persistUpdate (user : SessionUser) (id streamTenant : string) (currentVersion : Z)
    (o : WriteOptions) (previous changes mergedNew : Row) : Exec (W := W) (Row * StoredEvent) :=
  let$ p := encryptUpdatePayload user o previous changes mergedNew in
  let$ event := appendEvent 5 (entity_event user id streamTenant currentVersion Updated
                  [("changes", JObj p.1.2); ("previous", JObj p.2)]) in
  let$ row := applyProjection 6 event "projection update returned no row" in
  let$ data := readProjectedRow row in
  let echo := with_payload event [("changes", JObj (stripSensitive entity p.1.1));
                                  ("previous", JObj (stripSensitive entity previous))] in
  let$ _ := projectEntityEvent echo in
  xret (data, echo).

Definition data_id (data : Row) (fallback : string) : string :=
  match assoc_get "id" data with Some (JStr id) => id | _ => fallback end.

Definition update (payload : UpdatePayload) (user : SessionUser) (db : TenantDb) (o : WriteOptions)
    : Exec (W := W) SaveResult :=
  let id := up_id payload in
  let streamTenantId := wo_streamTenantId o in
  let streamTenant := streamTenantFor entity user streamTenantId in
  let$ _ := writeRunner db in
  let$ _ := assertTenantAllowedOnGlobalEntity (assoc_get "tenantId" (up_changes payload)) in
  let$ _ := unreadableRowFailure 0 id user in
  let$ found := loadById 1 db (wo_includeDeleted o) id in
  let$ previous := required id found in
  let$ _ := xcheck (streamTenantOverrideFailure db previous streamTenantId) in
  let$ submittedChanges := resolved (up_changes payload) in
  let$ changes := runPreSave submittedChanges previous false in
  let$ _ := assertFieldWritesAllowed db changes in
  let mergedNew := assoc_spread previous changes in
  let$ _ := xcheck (orElse (updateOwnershipFailure entity user streamTenantId submittedChanges previous changes mergedNew)
                   (orElse (recordLockedFailure entity previous id user o)
                           (updateSelectOptionFailure entity user mergedNew previous o))) in
  let$ _ := assertStreamWritable 3 id streamTenant in
  let$ currentVersion := currentStreamVersion 4 db id streamTenant (wo_expect o) in
  let$ _ := xcheck (optimisticLockFailure id (up_version payload) currentVersion (wo_skipOptimisticLock o)) in
  let$ persisted := catchingConflicts id currentVersion streamTenant
                      (persistUpdate user id streamTenant currentVersion o previous changes mergedNew) in
  xret (mkSave "save" (data_id persisted.1 id) persisted.1 changes previous false persisted.2).

(** ** delete, forget *)

(** The part both share: append the removal, apply it, run the projections. *)
Definition removeRow (user : SessionUser) (id streamTenant : string) (currentVersion : Z) (verb : AutoVerb)
    (o : WriteOptions) (sentinel : bool) (existing : Row) (message : string) : Exec (W := W) SaveResult :=
  let$ event := catchingConflicts id currentVersion streamTenant
    (let$ previous := lift_crypto (encryptForStorage svc user
        (mkEncrypt None None (wo_streamTenantId o) None sentinel) existing) in
     appendEvent 5 (entity_event user id streamTenant currentVersion verb [("previous", JObj previous)])) in
  let$ _ := applyRemoval 6 event message in
  let echo := with_payload event [("previous", JObj (stripSensitive entity existing))] in
  let$ _ := projectEntityEvent echo in
  xret (mkSave "delete" id existing [] existing false echo).

Definition delete (id : string) (user : SessionUser) (db : TenantDb) (o : WriteOptions)
    : Exec (W := W) SaveResult :=
  let streamTenant := streamTenantFor entity user (wo_streamTenantId o) in
  let$ _ := xthrow_if (if isIrreversibleEntityVerb entity "delete"
                       then assertEntryHandlerHighRisk scope "irreversible_operation_requires_high_risk" else None) in
  let$ _ := writeRunner db in
  let$ _ := unreadableRowFailure 0 id user in
  let$ found := loadById 1 db false id in
  let$ existing := required id found in
  let$ _ := xcheck (streamTenantOverrideFailure db existing (wo_streamTenantId o)) in
  let$ _ := xcheck (rowOwnershipFailure entity user (wo_streamTenantId o) "delete" existing) in
  let$ _ := xcheck (recordLockedFailure entity existing id user o) in
  let$ _ := assertStreamWritable 3 id streamTenant in
  let$ currentVersion := currentStreamVersion 4 db id streamTenant (wo_expect o) in
  removeRow user id streamTenant currentVersion Deleted o (erasureSentinel o) existing
    "projection delete: applyEntityEvent skipped".

Definition forget (id : string) (user : SessionUser) (db : TenantDb) (o : WriteOptions)
    : Exec (W := W) SaveResult :=
  let streamTenant := streamTenantFor entity user (wo_streamTenantId o) in
  let$ _ := xthrow_if (assertEntryHandlerHighRisk scope "irreversible_operation_requires_high_risk") in
  let$ _ := writeRunner db in
  let$ raw := fetch 1 db false id in
  let$ row := required id raw in
  let$ _ := unreadableRowFailure 2 id user in
  let$ _ := xcheck (streamTenantOverrideFailure db row (wo_streamTenantId o)) in
  let$ existing := readProjectedRow row in
  let$ _ := xcheck (if isFrameworkSystemUser user then None
                    else rowOwnershipFailure entity user (wo_streamTenantId o) "delete" existing) in
  let$ _ := assertStreamWritable 3 id streamTenant in
  let$ currentVersion := stream_version 4 id streamTenant in
  removeRow user id streamTenant currentVersion Forgotten o true existing
    "projection forget: applyEntityEvent skipped".

(** ** restore *)

Definition loadSoftDeletedRow (k : nat) (db : TenantDb) (id : string) (streamTenantId : option string)
    : Exec (W := W) Row :=
  let$ found := fetch k db false id in
  let$ row := required id found in
  let$ _ := xcheck (streamTenantOverrideFailure db row streamTenantId) in
  if match assoc_get "isDeleted" row with Some (JBool true) => true | _ => false end then xret row
  else xfail (UnprocessableError "not_deleted").

Definition appendRestoredEvent (user : SessionUser) (id streamTenant : string) (currentVersion : Z)
    (o : WriteOptions) (previousPlain : Row) : Exec (W := W) StoredEvent :=
  λ w, match encryptForStorage svc user (mkEncrypt None None (wo_streamTenantId o) None false) previousPlain with
       | Err KeyErased => (Failed SubjectErased, w)
       | Err (CryptoFailed m) => (Threw (ThrewCrypto m), w)
       | Ok previous =>
           catchingConflicts id currentVersion streamTenant
             (appendEvent 5 (entity_event user id streamTenant currentVersion Restored [("previous", JObj previous)])) w
       end.

Definition restore (id : string) (user : SessionUser) (db : TenantDb) (o : WriteOptions)
    : Exec (W := W) SaveResult :=
  let streamTenant := streamTenantFor entity user (wo_streamTenantId o) in
  let$ _ := xcheck (if et_softDelete (en_table entity) then None
                    else Some (UnprocessableError "soft_delete_not_enabled")) in
  let$ _ := writeRunner db in
  let$ _ := unreadableRowFailure 0 id user in
  let$ data := loadSoftDeletedRow 1 db id (wo_streamTenantId o) in
  let$ _ := xcheck (rowOwnershipFailure entity user (wo_streamTenantId o) "restore" data) in
  let$ _ := assertStreamWritable 3 id streamTenant in
  let$ currentVersion := stream_version 4 id streamTenant in
  let$ previousPlain := readProjectedRow data in
  let$ event := appendRestoredEvent user id streamTenant currentVersion o previousPlain in
  let$ row := applyProjection 6 event "projection restore returned no row" in
  let$ restored := readProjectedRow row in
  let echo := with_payload event [("previous", JObj (stripSensitive entity previousPlain))] in
  let$ _ := projectEntityEvent echo in
  xret (mkSave "save" id restored [("isDeleted", JBool false)] previousPlain false echo).

(** ** The scope of a verb *)

(** The transaction or savepoint a verb runs in undoes a failure or an
    exception; drawn sequence ids stay drawn. *)
Definition rolled_back (before after : World W) : World W :=
  mkWorld (with_events (w_db before) (db_events (w_db before)) (db_nextEventId (w_db after)))
    (w_rows before) (w_projections before).

Definition runVerbAtomically {A} (verb : Exec A) : Exec (W := W) A :=
  λ w, match verb w with
       | (Done a, w') => (Done a, w')
       | (Failed f, w') => (Failed f, rolled_back w w')
       | (Threw e, w') => (Threw e, rolled_back w w')
       end.
End verbs.
