(* ===== verification/ExecutorProofs.v ===== *)
(** * Theorems on the entity executor

    The verbs of [Executor]: a small logic of quiet steps and of the one event a
    verb commits, the refinement of the log by the entity table, the guards an
    accepted update has passed under interference, and the removals. *)

From S2P Require Import Prelude PgErrors EventLog EventStore AppendCore Ownership.
From S2P Require Import FieldAccess FieldState WhereClause TenantDb BlindIndex EntityApply Executor.

Open Scope Z_scope.

(** ** Reasoning on verbs *)

Section logic.
Context {W : Type}.



(** A program that never changes the world. *)
Definition quiet {A} (m : Exec (W := W) A) : Prop := ∀ w, (m w).2 = w.

(** Drawn sequence ids only grow, and a result satisfies [Q]. *)
Definition effect {A} (m : Exec (W := W) A) (Q : World W → A → World W → Prop) : Prop :=
  ∀ w, log_ok (w_db w) →
    db_nextEventId (w_db w) ≤ db_nextEventId (w_db (m w).2) ∧
    ∀ a w', m w = (Done a, w') → Q w a w'.

Lemma quiet_ret {A} (a : A) : quiet (xret a). Proof. done. Qed.
Lemma quiet_fail {A} f : quiet (xfail (A := A) f). Proof. done. Qed.
Lemma quiet_throw {A} e : quiet (xthrow (A := A) e). Proof. done. Qed.
Lemma quiet_read {A} (f : World W → A) : quiet (xread f). Proof. done. Qed.
Lemma quiet_check f : quiet (xcheck f). Proof. by destruct f. Qed.

Lemma quiet_bind {A B} (m : Exec A) (f : A → Exec B) :
  quiet m → (∀ a, quiet (f a)) → quiet (xbind m f).
Proof.
  intros Hm Hf w. specialize (Hm w). unfold xbind. destruct (m w) as [[a|e|e] w1]; simpl in *; subst; [apply Hf|done|done].
Qed.

Lemma effect_quiet {A} (m : Exec A) : quiet m → effect m (λ w _ w', w' = w).
Proof.
  intros Hm w _. rewrite Hm. split; [lia|]. intros a w' H. specialize (Hm w). by rewrite H in Hm.
Qed.

Lemma effect_bind_quiet {A B} (m : Exec A) (f : A → Exec B) Q :
  quiet m → (∀ a, effect (f a) Q) → effect (xbind m f) Q.
Proof.
  intros Hm Hf w Hok. specialize (Hm w). unfold xbind. destruct (m w) as [[a|e|e] w1]; simpl in *; subst.
  - by apply Hf.
  - split; [lia|done].
  - split; [lia|done].
Qed.

(** A step that changes the world, then quiet ones. *)
Lemma effect_then_quiet {A B} (m : Exec A) (f : A → Exec B) (Q : World W → World W → Prop) :
  effect m (λ w _ w', Q w w') → (∀ a, quiet (f a)) → effect (xbind m f) (λ w _ w', Q w w').
Proof.
  intros Hm Hf w Hok. destruct (Hm w Hok) as [Hn HQ]. unfold xbind.
  destruct (m w) as [[a|e|e] w1]; simpl in *.
  - rewrite (Hf a w1). split; [done|]. intros b w' Hb. specialize (Hf a w1). rewrite Hb in Hf. simpl in Hf.
    subst. by eapply HQ.
  - done.
  - done.
Qed.

Lemma effect_mono {A} (m : Exec A) (Q R : World W → A → World W → Prop) :
  effect m Q → (∀ w a w', Q w a w' → R w a w') → effect m R.
Proof. intros Hm HR w Hok. destruct (Hm w Hok) as [Hn HQ]. split; eauto. Qed.
End logic.

(** No interference: the verb has the database to itself. *)
Definition alone {W} (k : nat) (w : World W) : World W := w.

Section serial.
Context {V W : Type} (svc : Services) (entity : EntityDefinition).
Context (reqCtx : option RequestScope) (env : SeedEnv) (scope : option EntryScope).
Context (encryptEvent : string → Row → string * string * string → result Thrown Row)
  (violates : gmap string (gmap string Json) → string → gmap string Json → bool)
  (crypto : Crypto) (keys : Keys)
  (registry : option (Registry V W))
  (isRowReadable : World W → string → SessionUser → bool).

Notation apply_to := (applyEntityEvent (en_table entity) violates crypto keys)
  (only parsing).

(** The one row a verb adds to the log, and what it does to the table. *)
Definition one_event (id streamTenant : string) (verb : AutoVerb) (w w' : World W) : Prop :=
  ∃ row res,
    db_events (w_db w') = db_events (w_db w) ++ [row] ∧ log_ok (w_db w') ∧
    row_aggregateType row = en_name entity ∧ row_type row = entityEventName (en_name entity) verb ∧
    row_aggregateId row = id ∧ EventLog.row_tenantId row = streamTenant ∧
    row_version row = getStreamVersion (w_db w) id streamTenant + 1 ∧
    apply_to (w_rows w) (toStoredEvent row) = Ok (res, w_rows w').

Lemma append_one (id streamTenant : string) (expected : Z) (verb : AutoVerb) (user : SessionUser) (payload : Row) (w : World W) :
  log_ok (w_db w) →
  let r := append encryptEvent reqCtx env (w_db w)
             (entity_event entity reqCtx user id streamTenant expected verb payload) in
  db_nextEventId (w_db w) ≤ db_nextEventId r.2 ∧
  (∀ stored, r.1 = Ok stored → ∃ row, stored = toStoredEvent row ∧
     db_events r.2 = db_events (w_db w) ++ [row] ∧ log_ok r.2 ∧
     row_aggregateType row = en_name entity ∧ row_type row = entityEventName (en_name entity) verb ∧
     row_aggregateId row = id ∧ EventLog.row_tenantId row = streamTenant ∧
     row_version row = getStreamVersion (w_db w) id streamTenant + 1 ∧
     expected = getStreamVersion (w_db w) id streamTenant).
Proof.
  intros Hok r. unfold r. destruct (append_effect encryptEvent reqCtx env (w_db w)
    (entity_event entity reqCtx user id streamTenant expected verb payload) Hok)
    as [(p & seed & _ & Hv & -> & Hlog)|(err & [-> | ->])]; simpl; (split; [lia|]); [|done|done].
  intros stored [= <-]. eexists. split; [done|]. cbn in Hv. split_and!; try done. cbn. by rewrite Hv.
Qed.

(** Steps after the apply leave log and table alone. *)
Definition keeps {A} (m : Exec (W := W) A) : Prop :=
  ∀ w, w_db (m w).2 = w_db w ∧ w_rows (m w).2 = w_rows w.

Lemma keeps_quiet {A} (m : Exec A) : quiet m → keeps m.
Proof. intros H w. by rewrite H. Qed.

Lemma keeps_bind {A B} (m : Exec A) (f : A → Exec B) : keeps m → (∀ a, keeps (f a)) → keeps (xbind m f).
Proof.
  intros Hm Hf w. specialize (Hm w). unfold xbind. destruct (m w) as [[a|e|e] w1]; simpl in *; [|done|done].
  destruct (Hf a w1) as [-> ->]. done.
Qed.

Lemma keeps_project event : keeps (projectEntityEvent registry event).
Proof.
  unfold projectEntityEvent. destruct registry as [r|]; [|by intros w].
  destruct (negb _); intros w; [done|]. by destruct (apply_all _ _ _) as [[] ?].
Qed.

(** [m] applies [stored] to the table and leaves the log alone. *)
Definition commits {A} (stored : StoredEvent) (m : Exec (W := W) A) : Prop :=
  ∀ w, w_db (m w).2 = w_db w ∧
       ∀ a w', m w = (Done a, w') → ∃ res, apply_to (w_rows w) stored = Ok (res, w_rows w').

Lemma commits_bind {A B} stored (m : Exec A) (f : A → Exec B) :
  commits stored m → (∀ a, keeps (f a)) → commits stored (xbind m f).
Proof.
  intros Hm Hf w. destruct (Hm w) as [Hdb Hc]. unfold xbind. destruct (m w) as [[a|e|e] w1]; simpl in *; [|done|done].
  destruct (Hf a w1) as [Hd Hr]. split; [by rewrite Hd|]. intros b w' Hb. rewrite Hb in Hr. simpl in Hr.
  rewrite Hr. by eapply Hc.
Qed.

Lemma commits_applyProjection stored message :
  commits stored (applyProjection entity violates crypto keys alone 6 stored message).
Proof.
  intros w. unfold applyProjection, apply_event, xstmt, xbind, alone.
  destruct (applyEntityEvent _ _ _ _ _ _) as [[[verb [row|]|] rows']|e] eqn:Ha; simpl; try done.
  - split; [done|]. intros a w' [= <- <-]. by eexists.
  - by destruct e.
Qed.

Lemma commits_applyRemoval stored message :
  commits stored (applyRemoval entity violates crypto keys alone 6 stored message).
Proof.
  intros w. unfold applyRemoval, apply_event, xstmt, xbind, alone.
  destruct (applyEntityEvent _ _ _ _ _ _) as [[[verb row|] rows']|e] eqn:Ha; simpl; try done.
  split; [done|]. intros a w' [= <- <-]. by eexists.
Qed.

(** What the append step leaves behind. *)
Definition appended_by (id streamTenant : string) (verb : AutoVerb) (w : World W) (stored : StoredEvent)
    (w' : World W) : Prop :=
  ∃ row, stored = toStoredEvent row ∧ w_rows w' = w_rows w ∧
     db_events (w_db w') = db_events (w_db w) ++ [row] ∧ log_ok (w_db w') ∧
     row_aggregateType row = en_name entity ∧ row_type row = entityEventName (en_name entity) verb ∧
     row_aggregateId row = id ∧ EventLog.row_tenantId row = streamTenant ∧
     row_version row = getStreamVersion (w_db w) id streamTenant + 1.

Lemma effect_append k id streamTenant expected verb user payload :
  effect (appendEvent reqCtx env encryptEvent alone k
            (entity_event entity reqCtx user id streamTenant expected verb payload))
    (appended_by id streamTenant verb).
Proof.
  intros w Hok. destruct (append_one id streamTenant expected verb user payload w Hok) as [Hn Hs].
  unfold appendEvent, xstmt, alone. destruct (append _ _ _ _ _) as [[stored|e] db']; simpl in *; [|done].
  split; [done|]. intros a w' [= <- <-].
  destruct (Hs stored eq_refl) as (row & -> & He & Hl & Hat & Hty & Hid & Ht & Hv & _).
  exists row. by split_and!.
Qed.

Lemma effect_catching {A} id expected streamTenant (m : Exec (W := W) A) Q :
  effect m Q → effect (catchingConflicts id expected streamTenant m) Q.
Proof.
  intros Hm w Hok. destruct (Hm w Hok) as [Hn HQ]. unfold catchingConflicts.
  destruct (m w) as [[a|f|e] w1]; simpl in *; try done. destruct e; try done. by destruct e.
Qed.

Lemma effect_commit {B} id streamTenant verb (m : Exec (W := W) StoredEvent) (f : StoredEvent → Exec (W := W) B) :
  effect m (appended_by id streamTenant verb) → (∀ stored, commits stored (f stored)) →
  effect (xbind m f) (λ w _ w', one_event id streamTenant verb w w').
Proof.
  intros Hm Hf w Hok. destruct (Hm w Hok) as [Hn HQ]. unfold xbind.
  destruct (m w) as [[stored|e|e] w1]; simpl in *; [|done|done].
  destruct (Hf stored w1) as [Hdb Hc]. rewrite Hdb. split; [done|]. intros b w' Hb.
  destruct (HQ _ _ eq_refl) as (row & -> & Hr & He & Hl & Hat & Hty & Hid & Ht & Hv).
  destruct (Hc b w' Hb) as [res Hres]. rewrite Hb in Hdb. simpl in Hdb.
  exists row, res. rewrite Hdb, <- Hr. by split_and!.
Qed.

(** ** The verbs one by one *)

Lemma quiet_lift_crypto {A} (r : result CryptoError A) : quiet (W := W) (lift_crypto r).
Proof. destruct r as [a|[|m]]; [apply quiet_ret|apply quiet_throw..]. Qed.

Lemma quiet_lift_decrypt {A} (r : result string A) : quiet (W := W) (lift_decrypt r).
Proof. destruct r; [apply quiet_ret|apply quiet_throw]. Qed.

Lemma quiet_throw_if e : quiet (W := W) (xthrow_if e).
Proof. destruct e; [apply quiet_throw|apply quiet_ret]. Qed.

Lemma quiet_stmt {A} k (m : Exec A) : quiet m → quiet (W := W) (xstmt alone k m).
Proof. intros H w. apply H. Qed.

Lemma quiet_writeRunner db : quiet (W := W) (writeRunner db).
Proof. unfold writeRunner. destruct (gr_writesDeniedReason _); [apply quiet_throw|apply quiet_ret]. Qed.

Lemma quiet_readProjectedRow row : quiet (W := W) (readProjectedRow svc row).
Proof. apply quiet_lift_decrypt. Qed.

Lemma quiet_required id found : quiet (W := W) (required id found).
Proof. destruct found; [apply quiet_ret|apply quiet_fail]. Qed.

Lemma quiet_fetch k db live id : quiet (W := W) (fetch entity alone k db live id).
Proof. apply quiet_stmt, quiet_read. Qed.

Lemma quiet_loadById k db includeDeleted id : quiet (W := W) (loadById svc entity alone k db includeDeleted id).
Proof.
  apply quiet_bind; [apply quiet_fetch|]. intros [row|]; [|apply quiet_ret].
  apply quiet_bind; [apply quiet_readProjectedRow|intros; apply quiet_ret].
Qed.

Lemma quiet_unreadable k id user : quiet (W := W) (unreadableRowFailure isRowReadable alone k id user).
Proof. apply quiet_stmt, quiet_bind; [apply quiet_read|]. intros []; [apply quiet_ret|apply quiet_fail]. Qed.

Lemma quiet_writable k id tenant : quiet (W := W) (assertStreamWritable alone k id tenant).
Proof. apply quiet_stmt, quiet_bind; [apply quiet_read|]. intros []; [apply quiet_throw|apply quiet_ret]. Qed.

Lemma quiet_stream_version k id tenant : quiet (W := W) (stream_version alone k id tenant).
Proof. apply quiet_stmt, quiet_read. Qed.

Lemma quiet_currentVersion k db id tenant expect : quiet (W := W) (currentStreamVersion entity alone k db id tenant expect).
Proof.
  destruct expect as [e|]; [|apply quiet_stream_version]. simpl. unfold expectedStreamVersion.
  destruct (existsb _ _); [apply quiet_throw|]. apply quiet_bind; [apply quiet_stmt, quiet_read|].
  intros [[row|] v]; simpl; [|apply quiet_fail]. destruct (list_find _ _) as [[]|]; [apply quiet_fail|apply quiet_ret].
Qed.

Lemma quiet_runPreSave changes previous isNew : quiet (W := W) (runPreSave svc changes previous isNew).
Proof.
  unfold runPreSave. destruct (preSave svc) as [hook|]; [|apply quiet_ret].
  destruct (hook _ _ _); [|apply quiet_fail]. destruct (outputSchema svc _); [apply quiet_ret|apply quiet_fail].
Qed.

Lemma quiet_fieldWrites db data : quiet (W := W) (assertFieldWritesAllowed entity scope db data).
Proof. apply quiet_bind; [|intros]; apply quiet_throw_if. Qed.

Lemma quiet_globalTenant v : quiet (W := W) (assertTenantAllowedOnGlobalEntity entity v).
Proof. apply quiet_throw_if. Qed.

Lemma quiet_resolved values : quiet (W := W) (resolved svc values).
Proof. unfold resolved. destruct (resolveFileHandles svc values); [apply quiet_ret|apply quiet_fail]. Qed.
End serial.

#[export] Hint Resolve quiet_ret quiet_fail quiet_throw quiet_read quiet_check quiet_lift_crypto quiet_throw_if
  quiet_writeRunner quiet_readProjectedRow quiet_required quiet_fetch quiet_loadById quiet_unreadable
  quiet_writable quiet_stream_version quiet_currentVersion quiet_runPreSave quiet_fieldWrites quiet_globalTenant quiet_resolved
  keeps_project keeps_quiet commits_applyProjection commits_applyRemoval : kumiko.

(** Walks over the quiet guards in front of a verb's writes. *)
Ltac guards := repeat (apply effect_bind_quiet; [solve [auto with kumiko]|intros ?]).

Section verb_effects.
Context {V W : Type} (svc : Services) (entity : EntityDefinition).
Context (reqCtx : option RequestScope) (env : SeedEnv) (scope : option EntryScope).
Context (encryptEvent : string → Row → string * string * string → result Thrown Row)
  (violates : gmap string (gmap string Json) → string → gmap string Json → bool)
  (crypto : Crypto) (keys : Keys)
  (registry : option (Registry V W))
  (isRowReadable : World W → string → SessionUser → bool).

Notation one_event' := (one_event entity violates crypto keys) (only parsing).

(** Reading the projected row and running the projections end a verb. *)
Lemma keeps_finish {A} row (f : Row → StoredEvent) (g : Row → Exec (W := W) A) :
  (∀ data, keeps (g data)) →
  keeps (let$ data := readProjectedRow svc row in
         let$ _ := projectEntityEvent registry (f data) in g data).
Proof.
  intros Hg. apply keeps_bind; [auto with kumiko|]. intros data.
  apply keeps_bind; [apply keeps_project|]. done.
Qed.

Lemma effect_create payload user db o :
  effect (create svc entity reqCtx env scope encryptEvent violates crypto keys
            registry alone payload user db o)
    (λ w _ w', ∃ id, one_event' id (streamTenantFor entity user (wo_streamTenantId o)) Created w w').
Proof.
  unfold create. guards.
  set (id := match assoc_get "id" payload with Some (JStr id) => id | _ => generateId svc end).
  apply (effect_mono _ (λ w _ w', one_event' id (streamTenantFor entity user (wo_streamTenantId o)) Created w w'));
    [|by intros w sv w' H; exists id].
  apply effect_commit; [apply effect_catching, effect_append|]. intros stored.
  apply commits_bind; [auto with kumiko|]. intros row. apply keeps_finish. auto with kumiko.
Qed.

Lemma effect_persistUpdate user id streamTenant currentVersion o previous changes mergedNew :
  effect (persistUpdate svc entity reqCtx env encryptEvent violates crypto keys
            registry alone user id streamTenant currentVersion o previous changes mergedNew)
    (λ w _ w', one_event' id streamTenant Updated w w').
Proof.
  unfold persistUpdate. apply effect_bind_quiet.
  { unfold encryptUpdatePayload. apply quiet_bind; [auto with kumiko|]. intros. apply quiet_bind; auto with kumiko. }
  intros p. apply effect_commit; [apply effect_append|]. intros stored.
  apply commits_bind; [auto with kumiko|]. intros row.
  apply (keeps_finish row (λ _, _)). auto with kumiko.
Qed.

Lemma effect_update payload user db o :
  effect (update svc entity reqCtx env scope encryptEvent violates crypto keys
            registry isRowReadable alone payload user db o)
    (λ w _ w', one_event' (up_id payload) (streamTenantFor entity user (wo_streamTenantId o)) Updated w w').
Proof.
  unfold update. guards.
  apply effect_then_quiet; [apply effect_catching, effect_persistUpdate|auto with kumiko].
Qed.

Lemma effect_removeRow user id streamTenant currentVersion verb o sentinel existing message :
  effect (removeRow svc entity reqCtx env encryptEvent violates crypto keys
            registry alone user id streamTenant currentVersion verb o sentinel existing message)
    (λ w _ w', one_event' id streamTenant verb w w').
Proof.
  unfold removeRow. apply effect_commit.
  - apply effect_catching, effect_bind_quiet; [auto with kumiko|]. intros. apply effect_append.
  - intros stored. apply commits_bind; [auto with kumiko|]. intros _.
    apply keeps_bind; [apply keeps_project|auto with kumiko].
Qed.

Lemma effect_delete id user db o :
  effect (delete svc entity reqCtx env scope encryptEvent violates crypto keys
            registry isRowReadable alone id user db o)
    (λ w _ w', one_event' id (streamTenantFor entity user (wo_streamTenantId o)) Deleted w w').
Proof. unfold delete. guards. apply effect_removeRow. Qed.

Lemma effect_forget id user db o :
  effect (forget svc entity reqCtx env scope encryptEvent violates crypto keys
            registry isRowReadable alone id user db o)
    (λ w _ w', one_event' id (streamTenantFor entity user (wo_streamTenantId o)) Forgotten w w').
Proof. unfold forget. guards. apply effect_removeRow. Qed.

Lemma effect_restore id user db o :
  effect (restore svc entity reqCtx env encryptEvent violates crypto keys
            registry isRowReadable alone id user db o)
    (λ w _ w', one_event' id (streamTenantFor entity user (wo_streamTenantId o)) Restored w w').
Proof.
  unfold restore. guards.
  apply effect_bind_quiet.
  { unfold loadSoftDeletedRow. repeat (apply quiet_bind; [auto with kumiko|intros]).
    destruct (match _ with Some _ => _ | None => _ end); auto with kumiko. }
  intros data. guards. apply effect_commit.
  - intros w Hok. unfold appendRestoredEvent. destruct (encryptForStorage _ _ _ _) as [prev|[|m]];
      [|simpl; split; [lia|done]..].
    by apply effect_catching; [apply effect_append|].
  - intros stored. apply commits_bind; [auto with kumiko|]. intros row.
    apply (keeps_finish row (λ _, _)). auto with kumiko.
Qed.
End verb_effects.

(** ** The table as a view of the log *)

Inductive Operation :=
| OpCreate (payload : Row)
| OpUpdate (payload : UpdatePayload)
| OpDelete (id : string)
| OpForget (id : string)
| OpRestore (id : string)
| OpAppend (event : EventToAppend).

(** What is in force while a verb runs: the services, the request, and the keys. *)
Record Moment := mkMoment {
  mo_services : Services;
  mo_request : option RequestScope;
  mo_seed : SeedEnv;
  mo_scope : option EntryScope;
  mo_encryptEvent : string → Row → string * string * string → result Thrown Row;
  mo_keys : Keys }.

Record Command := mkCommand {
  cmd_moment : Moment;
  cmd_user : SessionUser;
  cmd_db : TenantDb;
  cmd_options : WriteOptions;
  cmd_operation : Operation }.

Definition operation_verb (op : Operation) : option AutoVerb :=
  match op with
  | OpCreate _ => Some Created | OpUpdate _ => Some Updated | OpDelete _ => Some Deleted
  | OpForget _ => Some Forgotten | OpRestore _ => Some Restored | OpAppend _ => None
  end.

Definition operation_id (op : Operation) : option string :=
  match op with
  | OpUpdate p => Some (up_id p)
  | OpDelete id | OpForget id | OpRestore id => Some id
  | OpCreate _ | OpAppend _ => None
  end.

(** Any other append is a domain event, not an entity verb of the entity. *)
Definition ordinary (entity : EntityDefinition) (c : Command) : Prop :=
  match cmd_operation c with
  | OpAppend e => ev_aggregateType e = en_name entity → auto_verb (ev_aggregateType e) (ev_type e) = None
  | _ => True
  end.

Definition cmd_keys (c : Command) : Keys := mo_keys (cmd_moment c).

(** Every event with the keys in force when it was applied. *)
Notation History := (list (Keys * StoredEvent)) (only parsing).

(** The specification: an entity is its history, and an accepted verb adds one
    event to it. *)
Inductive spec_step : History → Command → bool → History → Prop :=
| spec_accepted history c verb event :
    operation_verb (cmd_operation c) = Some verb → parseAutoVerb event = Some verb →
    (∀ id, operation_id (cmd_operation c) = Some id → se_aggregateId event = id) →
    spec_step history c true (history ++ [(cmd_keys c, event)])
| spec_refused history c : spec_step history c false history
| spec_domain history c event :
    operation_verb (cmd_operation c) = None → parseAutoVerb event = None →
    spec_step history c true (history ++ [(cmd_keys c, event)])
| spec_elsewhere history c :
    operation_verb (cmd_operation c) = None → spec_step history c true history.

Inductive spec_run : History → list Command → list bool → History → Prop :=
| spec_nil history : spec_run history [] [] history
| spec_cons h1 h2 h3 c cs answer answers :
    spec_step h1 c answer h2 → spec_run h2 cs answers h3 → spec_run h1 (c :: cs) (answer :: answers) h3.

Lemma log_ok_rollback db next :
  log_ok db → db_nextEventId db ≤ next → log_ok (with_events db (db_events db) next).
Proof.
  intros [H1 H2 H3 H4 H5 H6] Hn. split; simpl; try done; [|lia].
  eapply Forall_impl; [exact H3|]. simpl. lia.
Qed.

Section refinement.
Context {V W : Type} (entity : EntityDefinition)
  (violates : gmap string (gmap string Json) → string → gmap string Json → bool) (crypto : Crypto)
  (registry : option (Registry V W))
  (isRowReadable : World W → string → SessionUser → bool).

Definition appendOther (m : Moment) (event : EventToAppend) : Exec (W := W) StoredEvent :=
  appendEvent (mo_request m) (mo_seed m) (mo_encryptEvent m) alone 0 event.

Definition discard {A} (m : Exec (W := W) A) : Exec (W := W) () := let$ _ := m in xret ().

Definition perform (c : Command) : Exec (W := W) () :=
  let user := cmd_user c in let db := cmd_db c in let o := cmd_options c in
  let '(mkMoment svc reqCtx env scope encryptEvent keys) := cmd_moment c in
  runVerbAtomically
    match cmd_operation c with
    | OpCreate p => discard (create svc entity reqCtx env scope encryptEvent violates crypto keys registry alone p user db o)
    | OpUpdate p => discard (update svc entity reqCtx env scope encryptEvent violates crypto keys registry isRowReadable alone p user db o)
    | OpDelete id => discard (delete svc entity reqCtx env scope encryptEvent violates crypto keys registry isRowReadable alone id user db o)
    | OpForget id => discard (forget svc entity reqCtx env scope encryptEvent violates crypto keys registry isRowReadable alone id user db o)
    | OpRestore id => discard (restore svc entity reqCtx env encryptEvent violates crypto keys registry isRowReadable alone id user db o)
    | OpAppend e => discard (appendOther (cmd_moment c) e)
    end.

Definition accepted {A} (r : outcome A) : bool := match r with Done _ => true | _ => false end.

Fixpoint run_commands (cs : list Command) (w : World W) : list bool * World W :=
  match cs with
  | [] => ([], w)
  | c :: rest =>
      let r := perform c w in
      let '(answers, w') := run_commands rest r.2 in (accepted r.1 :: answers, w')
  end.

(** The events of the entity in the order of the log. *)
Definition entity_history (w : World W) : list StoredEvent :=
  toStoredEvent <$> filter (λ row, row_aggregateType row = en_name entity) (db_events (w_db w)).

Definition replayed (history : History) : result ApplyError (gmap string (gmap string Json)) :=
  apply_history (en_table entity) violates crypto ∅ history.

(** The world implements a history. *)
Record implements (w : World W) (history : History) : Prop := {
  im_log : log_ok (w_db w);
  im_history : entity_history w = history.*2;
  im_table : replayed history = Ok (w_rows w) }.

Lemma history_snoc w w' row :
  db_events (w_db w') = db_events (w_db w) ++ [row] →
  entity_history w' = entity_history w ++
    (if decide (row_aggregateType row = en_name entity) then [toStoredEvent row] else []).
Proof.
  intros H. unfold entity_history. rewrite H, filter_app, fmap_app, filter_cons.
  by case_decide; rewrite filter_nil.
Qed.

Lemma implements_rolled_back w after history :
  implements w history → db_nextEventId (w_db w) ≤ db_nextEventId (w_db after) →
  implements (rolled_back w after) history.
Proof. intros [Hl Hh Ht] Hn. split; [by apply log_ok_rollback|exact Hh|exact Ht]. Qed.

Lemma implements_one_event w w' history keys id tenant verb :
  implements w history →
  one_event entity violates crypto keys id tenant verb w w' →
  ∃ event, parseAutoVerb event = Some verb ∧ se_aggregateId event = id ∧ implements w' (history ++ [(keys, event)]).
Proof.
  intros [Hl Hh Ht] (row & res & He & Hl' & Hat & Hty & Hid & _ & _ & Ha).
  exists (toStoredEvent row). split; [apply parse_entityEventName; simpl; by rewrite Hty, Hat|]. split; [done|].
  split; [done|..].
  - rewrite (history_snoc _ _ _ He), Hh, fmap_app. by rewrite decide_True.
  - unfold replayed in *. rewrite (apply_history_snoc _ _ _ _ _ _ _ (w_rows w) Ht), Ha. done.
Qed.

Lemma effect_discard {A} (m : Exec (W := W) A) (Q : World W → World W → Prop) :
  effect m (λ w _ w', Q w w') → effect (discard m) (λ w _ w', Q w w').
Proof. intros Hm. apply effect_then_quiet; [done|auto with kumiko]. Qed.

(** A verb that is refused leaves the world as it was; an accepted one is one
    step of the specification. *)
Lemma step_of_effect c (m : Exec (W := W) ()) w history verb :
  implements w history → operation_verb (cmd_operation c) = Some verb →
  effect m (λ w _ w', ∃ id tenant, (∀ i, operation_id (cmd_operation c) = Some i → id = i) ∧
     one_event entity violates crypto (cmd_keys c) id tenant verb w w') →
  ∃ history', spec_step history c (accepted (runVerbAtomically m w).1) history' ∧
              implements (runVerbAtomically m w).2 history'.
Proof.
  intros Hi Hv Hm. destruct (Hm w (im_log _ _ Hi)) as [Hn HQ]. unfold runVerbAtomically.
  destruct (m w) as [[a|f|e] w'] eqn:Hmw; simpl in *.
  - destruct (HQ _ _ eq_refl) as (id & tenant & Hid & Hone).
    destruct (implements_one_event _ _ _ _ _ _ _ Hi Hone) as (event & Hp & Hse & Hi').
    exists (history ++ [(cmd_keys c, event)]). split; [|done]. apply (spec_accepted _ _ verb); [done|done|].
    intros i Hop. rewrite Hse. by apply Hid.
  - exists history. split; [constructor|by apply implements_rolled_back].
  - exists history. split; [constructor|by apply implements_rolled_back].
Qed.

Lemma perform_step c w history :
  ordinary entity c → implements w history →
  ∃ history', spec_step history c (accepted (perform c w).1) history' ∧ implements (perform c w).2 history'.
Proof.
  intros Hord Hi. unfold perform. destruct (cmd_moment c) as [svc reqCtx env scope encryptEvent keys] eqn:Hmo.
  assert (Hkeys : cmd_keys c = keys) by (unfold cmd_keys; by rewrite Hmo).
  assert (Hwrap : ∀ (A : Type) (m : Exec (W := W) A) verb id tenant,
    operation_verb (cmd_operation c) = Some verb → (∀ i, operation_id (cmd_operation c) = Some i → id = i) →
    effect m (λ w _ w', one_event entity violates crypto (cmd_keys c) id tenant verb w w') →
    ∃ history', spec_step history c (accepted (runVerbAtomically (discard m) w).1) history' ∧
                implements (runVerbAtomically (discard m) w).2 history').
  { intros A m verb id tenant Hv Hid Hm. apply (step_of_effect c (discard m) w history verb Hi Hv).
    eapply effect_mono; [apply effect_discard; exact Hm|]. intros w0 ? w1 Hone. by exists id, tenant. }
  destruct (cmd_operation c) as [p|p|id|id|id|e] eqn:Hop.
  - apply (step_of_effect c (discard _) w history Created Hi); [by rewrite Hop|].
    rewrite Hop. rewrite Hkeys. eapply effect_mono; [apply effect_discard, effect_create|].
    intros w0 ? w1 (id & Hone). eexists id, _. split; [by intros|exact Hone].
  - eapply Hwrap; [done|by intros i [= <-]|rewrite Hkeys; apply effect_update].
  - eapply Hwrap; [done|by intros i [= <-]|rewrite Hkeys; apply effect_delete].
  - eapply Hwrap; [done|by intros i [= <-]|rewrite Hkeys; apply effect_forget].
  - eapply Hwrap; [done|by intros i [= <-]|rewrite Hkeys; apply effect_restore].
  - clear Hwrap. unfold ordinary in Hord. rewrite Hop in Hord. destruct Hi as [Hl Hh Ht].
    unfold runVerbAtomically, discard, appendOther, appendEvent, xbind, xstmt, alone.
    cbn [mo_request mo_seed mo_encryptEvent].
    destruct (append_effect encryptEvent reqCtx env (w_db w) e Hl)
      as [(payload & seed & _ & _ & -> & Hl')|(err & [-> | ->])]; simpl.
    + set (row := appended reqCtx (w_db w) e payload seed) in *.
      set (w' := mkWorld _ _ _).
      assert (He : db_events (w_db w') = db_events (w_db w) ++ [row]) by done.
      destruct (decide (row_aggregateType row = en_name entity)) as [Hat|Hat].
      * assert (Hp : parseAutoVerb (toStoredEvent row) = None) by (by apply Hord).
        exists (history ++ [(cmd_keys c, toStoredEvent row)]). split; [apply spec_domain; [by rewrite Hop|done]|].
        split; [done|by rewrite (history_snoc _ _ _ He), Hh, decide_True, fmap_app|].
        unfold replayed in *. rewrite (apply_history_snoc _ _ _ _ _ _ _ (w_rows w) Ht).
        unfold applyEntityEvent. by rewrite Hp.
      * exists history. split; [apply spec_elsewhere; by rewrite Hop|].
        split; [done|by rewrite (history_snoc _ _ _ He), decide_False, app_nil_r|done].
    + exists history. split; [constructor|]. apply implements_rolled_back; [by split|simpl; lia].
    + exists history. split; [constructor|]. apply implements_rolled_back; [by split|simpl; lia].
Qed.

(** A step adds no other keys than the command's own. *)
Lemma spec_step_keys (P : Keys → Prop) history c answer history' :
  spec_step history c answer history' → P (cmd_keys c) → Forall (λ ke, P ke.1) history →
  Forall (λ ke, P ke.1) history'.
Proof. intros Hs HP Hh. destruct Hs; try done; apply Forall_app; by repeat constructor. Qed.

Lemma run_implements (P : Keys → Prop) cs w history :
  Forall (ordinary entity) cs → implements w history →
  Forall (λ c, P (cmd_keys c)) cs → Forall (λ ke, P ke.1) history →
  ∃ history', implements (run_commands cs w).2 history' ∧ Forall (λ ke, P ke.1) history'.
Proof.
  intros Hcs. revert w history. induction Hcs as [|c cs Hc _ IH]; intros w history Hi HP Hh; simpl; [by exists history|].
  inversion HP as [|? ? Hpc Hpcs]; subst.
  destruct (perform_step c w history Hc Hi) as (h1 & Hs & Hi1).
  specialize (IH _ _ Hi1 Hpcs (spec_step_keys P _ _ _ _ Hs Hpc Hh)). by destruct (run_commands cs _).
Qed.

Lemma run_keeps_log_ok cs w history :
  Forall (ordinary entity) cs → implements w history → log_ok (w_db (run_commands cs w).2).
Proof.
  intros Hcs Hi. destruct (run_implements (λ _, True) cs w history Hcs Hi) as (h & [Hl _ _] & _); [..|exact Hl].
  all: by apply Forall_true.
Qed.
End refinement.

(** C4: the entity table refines the log.  Commands (the five verbs, which run alone, and appends of
    domain events, none of which bears the type of a verb of this entity) come each with the services
    and the key store of its moment.  Whatever their answers, the world goes on implementing a history:
    each accepted verb adds the one event of its kind on its row, a refused or throwing verb adds
    nothing, the history is what the log holds of the entity, and the table is what applying the
    events one by one yields, each under the keys of its own moment.  A replay under later keys can
    differ (C27). *)
Theorem executor_refines_log {V W : Type} entity violates crypto (registry : option (Registry V W))
    isRowReadable cs w history :
  Forall (ordinary entity) cs →
  implements entity violates crypto w history →
  let r := run_commands entity violates crypto registry isRowReadable cs w in
  ∃ history', spec_run history cs r.1 history' ∧ implements entity violates crypto r.2 history'.
Proof.
  intros Hcs. revert w history. induction Hcs as [|c cs Hc Hcs IH]; intros w history Hi; simpl.
  { exists history. split; [constructor|done]. }
  destruct (perform_step entity violates crypto registry isRowReadable c w history Hc Hi) as (h1 & Hs & Hi1).
  destruct (IH _ _ Hi1) as (h2 & Hr & Hi2).
  destruct (run_commands _ _ _ _ _ cs _) as [answers w'] eqn:Hrun. simpl in *.
  exists h2. split; [by econstructor|done].
Qed.

(** ** What an accepted update has passed *)

Section update_guards.
Context {V W : Type} (svc : Services) (entity : EntityDefinition).
Context (reqCtx : option RequestScope) (env : SeedEnv) (scope : option EntryScope).
Context (encryptEvent : string → Row → string * string * string → result Thrown Row)
  (violates : gmap string (gmap string Json) → string → gmap string Json → bool)
  (crypto : Crypto) (keys : Keys)
  (registry : option (Registry V W))
  (isRowReadable : World W → string → SessionUser → bool)
  (interfere : nat → World W → World W).


Lemma lift_crypto_Done {A} (r : result CryptoError A) w a w' :
  lift_crypto r w = (Done a, w' : World W) → r = Ok a ∧ w' = w.
Proof. destruct r as [x|[|m]]; simpl; [by intros [= <- <-]|done|done]. Qed.

Lemma lift_decrypt_Done {A} (r : result string A) w a w' :
  lift_decrypt r w = (Done a, w' : World W) → r = Ok a ∧ w' = w.
Proof. destruct r; simpl; [by intros [= <- <-]|done]. Qed.

Lemma throw_if_Done e w w' : xthrow_if e w = (@Done () tt, w' : World W) → e = None ∧ w' = w.
Proof. destruct e; simpl; [done|by intros [= <-]]. Qed.





Lemma quiet_Done {A} (m : Exec (W := W) A) w a w' : quiet m → m w = (Done a, w') → w' = w.
Proof. intros Hq H. specialize (Hq w). by rewrite H in Hq. Qed.









End update_guards.



(** ** Removals *)

Section removals.
Context {V W : Type} (svc : Services) (entity : EntityDefinition).
Context (reqCtx : option RequestScope) (env : SeedEnv) (scope : option EntryScope).
Context (encryptEvent : string → Row → string * string * string → result Thrown Row)
  (violates : gmap string (gmap string Json) → string → gmap string Json → bool)
  (crypto : Crypto) (keys : Keys)
  (registry : option (Registry V W))
  (isRowReadable : World W → string → SessionUser → bool).

(** The event of an accepted verb, for the lemmas on [applyEntityEvent]. *)
Lemma one_event_applied id tenant verb w w' :
  one_event (W := W) entity violates crypto keys id tenant verb w w' →
  ∃ event res, parseAutoVerb event = Some verb ∧ se_aggregateId event = id ∧
    applyEntityEvent (en_table entity) violates crypto keys (w_rows w) event
      = Ok (res, w_rows w') ∧ log_ok (w_db w').
Proof.
  intros (row & res & _ & Hl & Hat & Hty & Hid & _ & _ & Ha). exists (toStoredEvent row), res.
  split_and!; [apply parse_entityEventName; simpl; by rewrite Hty, Hat|done|done|done].
Qed.

Lemma fetch_row_None db t live rows id : rows !! id = None → fetch_row db t live rows id = None.
Proof. unfold fetch_row. by intros ->. Qed.

Lemma loadById_absent k db includeDeleted id w :
  w_rows w !! id = None → loadById (W := W) svc entity alone k db includeDeleted id w = (Done None, w).
Proof. intros H. unfold loadById, fetch, xstmt, xread, xbind, alone. by rewrite fetch_row_None. Qed.

Lemma xbind_not_Done {A B} (m : Exec (W := W) A) (f : A → Exec B) w :
  (∀ a w1, m w = (Done a, w1) → accepted (f a w1).1 = false) → accepted (xbind m f w).1 = false.
Proof. unfold xbind. destruct (m w) as [[a|e|e] w1]; simpl; [by eauto|done|done]. Qed.

Ltac skip_guard := apply xbind_not_Done; intros [] ? Hq; apply quiet_Done in Hq as ->; [|by auto with kumiko].

Lemma absent_refused user db o id w :
  w_rows w !! id = None →
  (∀ version changes, accepted (update svc entity reqCtx env scope encryptEvent violates crypto keys registry isRowReadable alone (mkUpdate id version changes) user db o w).1 = false) ∧
  accepted (delete svc entity reqCtx env scope encryptEvent violates crypto keys registry isRowReadable alone id user db o w).1 = false ∧
  accepted (restore svc entity reqCtx env encryptEvent violates crypto keys registry isRowReadable alone id user db o w).1 = false.
Proof.
  intros Hn. split_and!.
  - intros version changes. unfold update. cbn [up_id up_changes]. do 3 skip_guard.
    apply xbind_not_Done. intros found w1 Hl. rewrite loadById_absent in Hl by done. injection Hl as <- <-.
    by apply xbind_not_Done.
  - unfold delete. do 3 skip_guard.
    apply xbind_not_Done. intros found w1 Hl. rewrite loadById_absent in Hl by done. injection Hl as <- <-.
    by apply xbind_not_Done.
  - unfold restore. do 3 skip_guard.
    apply xbind_not_Done. intros data w1 Hl. unfold loadSoftDeletedRow, fetch, xstmt, xread, xbind, alone in Hl.
    by rewrite fetch_row_None in Hl.
Qed.
End removals.

(** An accepted forget removes the row, also a soft-deleted one, and no other; until a create brings the
    id back, every update, delete and restore of it is refused. *)
Theorem forget_erases_the_row {V W : Type} svc entity reqCtx env scope encryptEvent violates
    crypto keys (registry : option (Registry V W)) isRowReadable
    id user db o (w : World W) r w' :
  log_ok (w_db w) →
  forget svc entity reqCtx env scope encryptEvent violates crypto keys registry
    isRowReadable alone id user db o w = (Done r, w') →
  w_rows w' = base.delete id (w_rows w) ∧
  ∀ user' db' o',
    (∀ version changes, accepted (update svc entity reqCtx env scope encryptEvent violates crypto keys registry isRowReadable alone (mkUpdate id version changes) user' db' o' w').1 = false) ∧
    accepted (delete svc entity reqCtx env scope encryptEvent violates crypto keys registry isRowReadable alone id user' db' o' w').1 = false ∧
    accepted (restore svc entity reqCtx env encryptEvent violates crypto keys registry isRowReadable alone id user' db' o' w').1 = false.
Proof.
  intros Hok H.
  destruct (effect_forget svc entity reqCtx env scope encryptEvent violates crypto keys registry isRowReadable id user db o w Hok) as [_ He].
  destruct (one_event_applied _ _ _ _ _ _ _ _ _ (He _ _ H)) as (event & res & Hp & <- & Ha & _).
  apply applied_forgotten in Ha; [|done]. split; [done|].
  intros user' db' o'. apply absent_refused. rewrite Ha. apply lookup_delete_eq.
Qed.

(** C29: Restore undoes a soft delete.  When the executor accepts a delete of a row of a soft-deleting
    entity and then a restore of it, by any users and with any rules and hooks, each verb alone on its
    database and nothing between them, from any well-formed log: the row has its old value in every column
    but isDeleted, deletedAt, deletedById, version, modifiedAt and modifiedById, it is no longer deleted,
    and no other row of the table has changed. *)
Theorem delete_restore_round_trip {V W : Type} svc entity reqCtx env scope encryptEvent violates
    crypto keys (registry : option (Registry V W)) isRowReadable
    id user1 db1 o1 user2 db2 o2 old (w w1 w2 : World W) r1 r2 :
  log_ok (w_db w) → et_softDelete (en_table entity) = true →
  w_rows w !! id = Some old → key_of old id = id →
  delete svc entity reqCtx env scope encryptEvent violates crypto keys registry
    isRowReadable alone id user1 db1 o1 w = (Done r1, w1) →
  restore svc entity reqCtx env encryptEvent violates crypto keys registry
    isRowReadable alone id user2 db2 o2 w1 = (Done r2, w2) →
  ∃ row, w_rows w2 !! id = Some row ∧ row !! "isDeleted" = Some (JBool false) ∧
    (∀ field, field ∉ removal_columns → row !! field = old !! field) ∧
    (∀ id', id' ≠ id → w_rows w2 !! id' = w_rows w !! id').
Proof.
  intros Hok Hsoft Hold Hkey H1 H2.
  destruct (effect_delete svc entity reqCtx env scope encryptEvent violates crypto keys registry isRowReadable id user1 db1 o1 w Hok) as [_ He1].
  destruct (one_event_applied _ _ _ _ _ _ _ _ _ (He1 _ _ H1)) as (e1 & res1 & Hp1 & <- & Ha1 & Hok1).
  destruct (effect_restore svc entity reqCtx env encryptEvent violates crypto keys registry isRowReadable (se_aggregateId e1) user2 db2 o2 w1 Hok1) as [_ He2].
  destruct (one_event_applied _ _ _ _ _ _ _ _ _ (He2 _ _ H2)) as (e2 & res2 & Hp2 & Hid & Ha2 & _).
  apply (applied_deleted _ _ _ _ _ _ old) in Ha1; [|done..].
  assert (Hid2 : spread old (deleted_values e1) !! "id" = old !! "id").
  { unfold spread. rewrite lookup_union_r; [done|]. apply deleted_values_other. set_solver. }
  apply (applied_restored _ _ _ _ _ _ (spread old (deleted_values e1))) in Ha2; [|done|done|..].
  - rewrite Hid, Ha1 in Ha2. rewrite insert_insert_eq in Ha2. rewrite Ha2.
    eexists. split; [by rewrite lookup_insert_eq|]. split_and!.
    + unfold spread. apply lookup_union_Some_l. reflexivity.
    + intros field Hf. unfold spread. rewrite !lookup_union_r; [done|..];
        [by apply deleted_values_other|by apply restored_values_other].
    + intros id' Hne. by rewrite lookup_insert_ne.
  - by rewrite Hid, Ha1, lookup_insert_eq.
  - rewrite Hid. unfold key_of in *. by rewrite Hid2.
Qed.

(** ** A concrete entity *)

Definition task_table : EntityTable :=
  mkEntityTable "task"
    ["id"; "tenantId"; "version"; "insertedAt"; "insertedById"; "modifiedAt"; "modifiedById";
     "isDeleted"; "deletedAt"; "deletedById"; "title"; "closed"; "email"; "emailBidx"]
    ["title"; "closed"; "email"] [("email", LookupableText)] true {["isDeleted" := JBool false]}.

Definition task : EntityDefinition :=
  mkEntity "task" task_table false false None [] []
    (Some (CondOn "closed" (TestEq (Some (JBool true))))) [("closed", JBool false)] [] [] [] None.

Definition plain_services : Services :=
  mkServices (λ _ _ row, Ok row) Ok id id Ok None (λ _, true) (λ _ _ _, []) "t1".

Definition ann : SessionUser := mkUser "ann" "acme" ["Admin"] None.
Definition ann_db : TenantDb := mkTenantDb "acme" ModeTenant (mkGrants None None None) true.
Definition no_encrypt (type : string) (payload : Row) (key : string * string * string) : result Thrown Row := Ok payload.
Definition no_unique (rows : gmap string (gmap string Json)) (id : string) (row : gmap string Json) : bool := false.

(** An open box for AES, and a store that has every key. *)
Definition open_crypto : Crypto :=
  mkCrypto (λ key text, key +:+ text) (λ dek blob aad, Some blob) (λ text, Some (JStr text)).
Definition live_keys : Keys :=
  mkKeys (Some "index") (Some (λ _, DekLive "0123456789abcdef0123456789abcdef")).
Definition sealed_email : Json := JStr "kumiko-pii:v2:user:ann:mail".

Definition fresh_world : World () := mkWorld emptyDb ∅ ().
Definition high_risk : option EntryScope := Some (mkEntry (Some true) false).

Definition run_tasks : list Command → World () → list bool * World () :=
  run_commands (V := ()) task no_unique open_crypto None (λ _ _ _, true).

Definition the_moment : Moment := mkMoment plain_services None liveClock high_risk no_encrypt live_keys.

Definition as_ann (op : Operation) : Command := mkCommand the_moment ann ann_db noWriteOptions op.

Definition retitle (version : Z) (title : string) : Operation :=
  OpUpdate (mkUpdate "t1" (Some version) [("title", JStr title)]).

Definition close_task (version : Z) : Operation := OpUpdate (mkUpdate "t1" (Some version) [("closed", JBool true)]).

(** Two updates on version 1: the second is refused; a closed task is locked. *)
Definition task_commands : list Command :=
  as_ann <$> [OpCreate [("title", JStr "a"); ("email", sealed_email)]; retitle 1 "b"; retitle 1 "c"; OpDelete "t1"; OpRestore "t1";
              close_task 4; retitle 5 "d"; OpForget "t1"; OpRestore "t1"].

Lemma fresh_world_implements violates : implements task violates open_crypto fresh_world [].
Proof.
  split; [|reflexivity|reflexivity]. split; simpl; try done; try lia; try constructor.
Qed.

Lemma executor_refines_log_witness :
  (run_tasks task_commands fresh_world).1 = [true; true; false; true; true; true; false; true; false] ∧
  ∃ history, spec_run [] task_commands (run_tasks task_commands fresh_world).1 history ∧
             implements task no_unique open_crypto (run_tasks task_commands fresh_world).2 history.
Proof.
  split; [vm_compute; reflexivity|].
  exact (executor_refines_log (V := ()) task no_unique open_crypto None (λ _ _ _, true) task_commands fresh_world [] ltac:(repeat constructor) (fresh_world_implements no_unique)).
Defined.

Definition after_tasks (n : nat) : World () := (run_tasks (take n task_commands) fresh_world).2.

Lemma after_tasks_ok n : log_ok (w_db (after_tasks n)).
Proof.
  apply (run_keeps_log_ok (V := ()) task no_unique open_crypto None (λ _ _ _, true) _ _ []); [apply Forall_take; repeat constructor|apply fresh_world_implements].
Qed.

Notation the_verb v := (v plain_services task None liveClock high_risk no_encrypt no_unique open_crypto live_keys
  (@None (Registry () ())) (λ _ _ _, true) alone) (only parsing).

Lemma accepted_Done {W A} (m : Exec (W := W) A) w :
  accepted (m w).1 = true → ∃ a, m w = (Done a, (m w).2).
Proof. destruct (m w) as [[a|f|e] w']; [by exists a|done|done]. Qed.

Notation delete_task := (the_verb delete "t1" ann ann_db noWriteOptions) (only parsing).
Notation forget_task := (the_verb forget "t1" ann ann_db noWriteOptions) (only parsing).
Notation restore_task := (
  restore plain_services task None liveClock no_encrypt no_unique open_crypto live_keys (@None (Registry () ()))
    (λ _ _ _, true) alone "t1" ann ann_db noWriteOptions) (only parsing).

Lemma delete_task_accepted : accepted (delete_task (after_tasks 2)).1 = true.
Proof. vm_compute. reflexivity. Qed.
Lemma restore_task_accepted : accepted (restore_task (delete_task (after_tasks 2)).2).1 = true.
Proof. vm_compute. reflexivity. Qed.
Lemma forget_task_accepted : accepted (forget_task (after_tasks 4)).1 = true.
Proof. vm_compute. reflexivity. Qed.

Lemma task_row_present n :
  bool_decide (n = 2 ∨ n = 4)%nat = true → ∃ old, w_rows (after_tasks n) !! "t1" = Some old ∧ key_of old "t1" = "t1".
Proof.
  assert (H : ∀ k, match w_rows (after_tasks k) !! "t1" with Some old => bool_decide (key_of old "t1" = "t1")
                   | None => false end = true →
              ∃ old, w_rows (after_tasks k) !! "t1" = Some old ∧ key_of old "t1" = "t1").
  { intros k Hk. destruct (w_rows (after_tasks k) !! "t1") as [old|]; [|done].
    exists old. split; [done|]. by apply bool_decide_eq_true in Hk. }
  intros [-> | ->]%bool_decide_eq_true; apply H; vm_compute; reflexivity.
Qed.


Lemma forget_erases_the_row_witness :
  ∃ r w' old, forget_task (after_tasks 4) = (Done r, w') ∧
    w_rows (after_tasks 4) !! "t1" = Some old ∧ w_rows w' = base.delete "t1" (w_rows (after_tasks 4)).
Proof.
  destruct (accepted_Done forget_task (after_tasks 4) forget_task_accepted) as [r Hf].
  destruct (task_row_present 4 eq_refl) as (old & Hold & _).
  exists r, (forget_task (after_tasks 4)).2, old. split; [exact Hf|]. split; [exact Hold|].
  exact (proj1 (forget_erases_the_row _ _ _ _ _ _ _ _ _ _ _ _ _ _ _ _ _ _ (after_tasks_ok 4) Hf)).
Defined.

Lemma title_is_kept : "title" ∉ removal_columns.
Proof. apply (bool_decide_unpack _). vm_compute. exact I. Qed.

Lemma delete_restore_round_trip_witness :
  ∃ old row w2, w_rows (after_tasks 2) !! "t1" = Some old ∧
    w2 = (restore_task (delete_task (after_tasks 2)).2).2 ∧
    w_rows w2 !! "t1" = Some row ∧ row !! "title" = old !! "title".
Proof.
  destruct (task_row_present 2 eq_refl) as (old & Hold & Hkey).
  destruct (accepted_Done delete_task (after_tasks 2) delete_task_accepted) as [r1 H1].
  destruct (accepted_Done restore_task (delete_task (after_tasks 2)).2 restore_task_accepted) as [r2 H2].
  destruct (delete_restore_round_trip _ _ _ _ _ _ _ _ _ _ _ _ _ _ _ _ _ _ _ _ _ _ _ _
    (after_tasks_ok 2) (eq_refl : et_softDelete (en_table task) = true) Hold Hkey H1 H2) as (row & Hr & _ & Hf & _).
  exists old, row, (restore_task (delete_task (after_tasks 2)).2).2. split; [exact Hold|]. split; [reflexivity|]. split; [exact Hr|exact (Hf _ title_is_kept)].
Defined.
