(* ===== verification/ShadowSwap.v ===== *)
(** * The shadow table of a rebuild

    The guards of [db/queries/shadow-swap.ts] and [rebuild-rls-guard.ts] with
    [rls-shape.ts]: when a rebuild may start, and when its shadow may replace
    the live table.  A table is the map of [EntityApply] from primary keys to
    row objects; the column of a row object is its camel-case key.  What the
    catalog of Postgres answers is the record [Catalog]. *)

From Stdlib Require Import Ascii.
From S2P Require Import Prelude EventLog QualifiedName TableInfo WhereClause TenantDb EntityApply Upcaster.

Open Scope Z_scope.

(** ** Errors *)

Inductive RebuildError :=
| NotRegistered (projection : string)
| NoTableMeta (projection : string)
| PartialIndexWithoutWhere (projection : string)
| NoBackingTable (projection : string)
| RowLevelSecurityUnreliable (policies : list string)
| ColumnsDiffer (onlyLive onlyMeta : list string)
| BadFenceTimeout (lockTimeoutMs : Z)
| LiveTableMissing
| GhostRows (ids : list string) (truncated : bool)
| TenantNotUuid (tenantId : string)
| DerivedIdNotUuid (derived aggregateId : string)
| BlindIndexKeyDiffers (rows : nat)
| BlindIndexKeyMissing (rows : nat)
| UpcastThrew (e : UpcastError)
| ApplyThrew (message : string)
| RowsDropped (processed expected : nat)
| TransactionAborted (message : string).

(** ** Row-level security of the live table *)

Record PolicyShape := mkPolicyShape {
  pl_name : string;
  pl_permissive : bool;
  pl_command : string;
  pl_appliesToPublic : bool }.

Record RowLevelSecurityShape := mkShape {
  rs_enabled : bool;
  rs_forced : bool;
  rs_policies : list PolicyShape }.

(** [ct_columns] is [None] when the live table does not exist;
    [ct_isolationMatches] is the comparison of the two policy expressions as
    Postgres deparses them; [ct_blindIndexKey] whether this process has a key. *)
Record Catalog := mkCatalog {
  ct_columns : option (list string);
  ct_shape : option RowLevelSecurityShape;
  ct_isolationMatches : bool;
  ct_blindIndexKey : bool }.

Definition TENANT_ISOLATION_POLICY : string := "kumiko_tenant_isolation".

Definition isFrameworkIsolationIntact (shape : RowLevelSecurityShape) : bool :=
  match head (filter (λ p, pl_name p = TENANT_ISOLATION_POLICY) (rs_policies shape)) with
  | Some isolation =>
      pl_permissive isolation && bool_decide (pl_command isolation = "ALL") && pl_appliesToPublic isolation
      && forallb pl_permissive (rs_policies shape)
  | None => false
  end.

(** A table without a tenant column has no isolation policy to compare. *)
Definition isolationExpressionsMatchFramework (catalog : Catalog) (meta : EntityTableMeta) : bool :=
  if bool_decide (TENANT_COLUMN ∈ cm_name <$> tm_columns meta) then ct_isolationMatches catalog else true.

Definition assertRebuildableRowLevelSecurity (catalog : Catalog) (meta : EntityTableMeta)
    : result RebuildError () :=
  match ct_shape catalog with
  | None => Ok tt
  | Some shape =>
      if negb (rs_enabled shape) then Ok tt
      else if isFrameworkIsolationIntact shape && isolationExpressionsMatchFramework catalog meta then Ok tt
      else Err (RowLevelSecurityUnreliable (pl_name <$> rs_policies shape))
  end.

(** ** Before the replay *)

Definition rebuildMetaOrThrow (meta : option EntityTableMeta) (projectionName : string)
    : result RebuildError EntityTableMeta :=
  match meta with
  | None => Err (NoTableMeta projectionName)
  | Some m => if existsb ix_needsManualWhere (tm_indexes m)
              then Err (PartialIndexWithoutWhere projectionName) else Ok m
  end.

Definition missing_from (names others : list string) : list string := filter (λ c, c ∉ others) names.

Definition assertLiveColumnsMatchMeta (catalog : Catalog) (meta : EntityTableMeta) : result RebuildError () :=
  match ct_columns catalog with
  | None => Ok tt
  | Some live =>
      let metaNames := cm_name <$> tm_columns meta in
      match missing_from live metaNames, missing_from metaNames live with
      | [], [] => Ok tt
      | onlyLive, onlyMeta => Err (ColumnsDiffer onlyLive onlyMeta)
      end
  end.

(** [renderTableDdl] of the meta under a fresh name: a table without rows. *)
Definition buildShadowTable : gmap string (gmap string Json) := ∅.

Definition fenceLiveTable (lockTimeoutMs : Z) : result RebuildError () :=
  if lockTimeoutMs <=? 0 then Err (BadFenceTimeout lockTimeoutMs) else Ok tt.

(** ** Rows no event can reconstruct *)

Definition UNREACHABLE_SAMPLE_LIMIT : nat := 20.

(** The distinct streams of an aggregate type, also archived ones.  The pages of
    the keyset walk are one list, in log order: the order decides only which
    bad key is reported. *)
Definition source_streams (db : EventsDb) (aggregateType : string) : list (string * string) :=
  remove_dups ((λ r, (row_tenantId r, row_aggregateId r)) <$>
    filter (λ r, row_aggregateType r = aggregateType) (db_events db)).

Definition derived_id (rowIdOf : string → string → string) (stream : string * string)
    : result RebuildError string :=
  if negb (isUuid stream.1) then Err (TenantNotUuid stream.1)
  else let derived := rowIdOf stream.1 stream.2 in
       if isUuid derived then Ok derived else Err (DerivedIdNotUuid derived stream.2).

Fixpoint derived_ids (rowIdOf : string → string → string) (streams : list (string * string))
    : result RebuildError (list string) :=
  match streams with
  | [] => Ok []
  | s :: rest => let? id := derived_id rowIdOf s in let? ids := derived_ids rowIdOf rest in Ok (id :: ids)
  end.

(** [fillDerivedRowIdTable] for every derived type. *)
Fixpoint fillDerivedRowIds (db : EventsDb) (derivedRowIds : list (string * (string → string → string)))
    (types : list string) : result RebuildError (list string) :=
  match types with
  | [] => Ok []
  | ty :: rest =>
      match assoc_get ty derivedRowIds with
      | None => fillDerivedRowIds db derivedRowIds rest
      | Some rowIdOf =>
          let? ids := derived_ids rowIdOf (source_streams db ty) in
          let? more := fillDerivedRowIds db derivedRowIds rest in Ok (ids ++ more)
      end
  end.

(** An event of a direct type carries the row's id as its aggregate. *)
Definition backed_directly (db : EventsDb) (directTypes : list string) (id : string) : bool :=
  existsb (λ r, bool_decide (row_aggregateId r = id ∧ row_aggregateType r ∈ directTypes)) (db_events db).

Definition assertNoUnreachableLiveRows (db : EventsDb) (live : gmap string (gmap string Json))
    (aggregateTypes : list string) (derivedRowIds : list (string * (string → string → string)))
    : result RebuildError () :=
  match aggregateTypes with
  | [] => Ok tt
  | _ =>
      let directTypes := filter (λ ty, assoc_get ty derivedRowIds = None) aggregateTypes in
      let? derived := fillDerivedRowIds db derivedRowIds aggregateTypes in
      let backed id := backed_directly db directTypes id || bool_decide (id ∈ derived) in
      let ghosts := filter (λ id, backed id = false) (map_to_list live).*1 in
      match take UNREACHABLE_SAMPLE_LIMIT ghosts with
      | [] => Ok tt
      | ids => Err (GhostRows ids (length ids =? UNREACHABLE_SAMPLE_LIMIT)%nat)
      end
  end.

(** ** Blind indexes *)

Definition is_bidx (column : string) : bool := ends_with "_bidx" column.

Definition column_of (row : gmap string Json) (column : string) : Json :=
  default JNull (row !! snakeToCamel column).

Definition not_null (v : Json) : bool := match v with JNull => false | _ => true end.

(** A populated pair of blind-index values that differ. *)
Definition bidx_differs (bidxCols : list string) (l s : gmap string Json) : bool :=
  existsb (λ c, not_null (column_of l c) && not_null (column_of s c)
                && negb (strict_equals (column_of l c) (column_of s c))) bidxCols.

(** [JOIN shadow s ON s.id = l.id] *)
Definition joined (live shadow : gmap string (gmap string Json))
    : list (string * gmap string Json * gmap string Json) :=
  omap (λ kv, (λ s, (kv.1, kv.2, s)) <$> shadow !! kv.1) (map_to_list live).

Definition assertBlindIndexKeyMatchesLive (bidxCols : list string) (live shadow : gmap string (gmap string Json))
    : result RebuildError () :=
  match length (filter (λ p, bidx_differs bidxCols p.1.2 p.2 = true) (joined live shadow)) with
  | O => Ok tt
  | n => Err (BlindIndexKeyDiffers n)
  end.

Definition assertNoBlindIndexLoss (catalog : Catalog) (meta : EntityTableMeta)
    (live shadow : gmap string (gmap string Json)) : result RebuildError () :=
  match filter (λ c, is_bidx c = true) (cm_name <$> tm_columns meta) with
  | [] => Ok tt
  | bidxCols =>
      if ct_blindIndexKey catalog then assertBlindIndexKeyMatchesLive bidxCols live shadow
      else match length (filter (λ kv, existsb (λ c, not_null (column_of kv.2 c)) bidxCols = true)
                           (map_to_list live)) with
           | O => Ok tt
           | n => Err (BlindIndexKeyMissing n)
           end
  end.

(** ** Column drift *)

Definition COLUMN_DRIFT_SAMPLE_LIMIT : nat := 20.

Record ColumnDriftResult := mkDrift { cd_rowCount : nat; cd_sample : list string }.

Definition comparable_columns (meta : EntityTableMeta) : list string :=
  cm_name <$> filter (λ c, cm_primaryKey c = false ∧ is_bidx (cm_name c) = false) (tm_columns meta).

(** [l.col IS DISTINCT FROM s.col] *)
Definition drifted_columns (meta : EntityTableMeta) (l s : gmap string Json) : list string :=
  filter (λ c, column_of l c ≠ column_of s c) (comparable_columns meta).

Definition countColumnDrift (meta : EntityTableMeta) (live shadow : gmap string (gmap string Json))
    : ColumnDriftResult :=
  let drifted := filter (λ p, drifted_columns meta p.1.2 p.2 ≠ []) (joined live shadow) in
  mkDrift (length drifted)
    (p ← take COLUMN_DRIFT_SAMPLE_LIMIT drifted;
     (λ c, p.1.1 +:+ "." +:+ c) <$> drifted_columns meta p.1.2 p.2).

(** [s.slice(0, s.lastIndexOf("."))] of a sample [<id>.<column>]. *)
Definition sampled_row_id (s : string) : string :=
  join_with "." (reverse (tail (reverse (split_on "."%char s)))).

Definition sampledRowIds (drift : ColumnDriftResult) : gset string :=
  list_to_set (sampled_row_id <$> cd_sample drift).

Definition TENANT_COLUMN_SUFFIX : string := ".tenant_id".

(** Whether the warning names a stream-tenant move as the expected cause. *)
Definition columnDriftLikelyCause (drift : ColumnDriftResult) : bool :=
  negb (bool_decide (cd_sample drift = []))
  && (size (sampledRowIds drift) =? cd_rowCount drift)%nat
  && forallb (ends_with TENANT_COLUMN_SUFFIX) (cd_sample drift).

(** ** Lemmas *)

(** A shadow equal to the live table has no drift. *)
Lemma drift_of_equal_tables meta rows : countColumnDrift meta rows rows = mkDrift 0 [].
Proof.
  unfold countColumnDrift. rewrite filter_keeps_none; [done|].
  intros [[id l] s] Hin. unfold joined in Hin. apply list_elem_of_omap in Hin as ([k v] & Hkv & Hs).
  apply elem_of_map_to_list in Hkv. simpl in Hs. rewrite Hkv in Hs. simpl in Hs. simplify_eq.
  simpl. intros H. apply H. unfold drifted_columns. apply filter_keeps_none. by intros c _ Hc.
Qed.

(** No guard can drop a row that a source event backs. *)
Lemma ghost_guard_passes db live types derivedRowIds :
  assertNoUnreachableLiveRows db live types derivedRowIds = Ok tt → types ≠ [] →
  ∀ id, is_Some (live !! id) →
  (∃ r, r ∈ db_events db ∧ row_aggregateId r = id ∧ row_aggregateType r ∈ types) ∨
  ∃ ids, fillDerivedRowIds db derivedRowIds types = Ok ids ∧ id ∈ ids.
Proof.
  intros H Ht id [row Hid]. unfold assertNoUnreachableLiveRows in H. destruct types as [|ty types]; [done|].
  destruct (fillDerivedRowIds db derivedRowIds (ty :: types)) as [ids|] eqn:Hf; [|done]. cbn [result_bind] in H.
  destruct (take _ _) eqn:Htake in H; [|done].
  set (ghosts := filter _ _) in Htake.
  assert (Hnil : ghosts = []) by (destruct ghosts; [done|discriminate]).
  destruct (backed_directly db (filter (λ ty, assoc_get ty derivedRowIds = None) (ty :: types)) id
            || bool_decide (id ∈ ids)) eqn:Hb.
  - apply orb_true_iff in Hb as [Hb|Hb]; [left|right; exists ids; by apply bool_decide_eq_true in Hb].
    unfold backed_directly in Hb. apply existsb_exists in Hb as (r & Hr & Hb).
    apply bool_decide_eq_true in Hb as [Ha Hty]. exists r. rewrite list_elem_of_In. split_and!; [done|done|].
    by apply list_elem_of_filter in Hty as [_ Hty].
  - exfalso. assert (Hg : id ∈ ghosts).
    { unfold ghosts. apply list_elem_of_filter. split; [exact Hb|].
      apply list_elem_of_fmap. exists (id, row). split; [done|]. by apply elem_of_map_to_list. }
    rewrite Hnil in Hg. by apply elem_of_nil in Hg.
Qed.
