(* ===== verification/ProjectionRebuild.v ===== *)
(** * Rebuilding a projection from the log

    [pipeline/projection-rebuild.ts] with [db/queries/projection-rebuild.ts] and
    [event-store/rebuild-dead-letter.ts].  A rebuild runs in one transaction
    whose statements see what other transactions have committed in between, so
    it is a machine: [rebuild_next] is its next statement on the committed world,
    and what it has written so far is part of the phase.  [rebuild_step] adds
    the exceptions Postgres or an abort signal may raise at any statement, and
    [other_commit] the transactions of writers.  Advisory output (metrics,
    warnings, durations) and the state row's lock, which keeps a second rebuild
    of the same projection out, are left out. *)

From S2P Require Import Prelude EventLog EventStore QualifiedName TableInfo BlindIndex EntityApply Upcaster ShadowSwap.

Open Scope Z_scope.

Notation Rows := (gmap string (gmap string Json)) (only parsing).

(** ** Data *)

Definition REBUILD_BATCH_SIZE : nat := 1000.
Definition MAX_UNLOCKED_BATCHES : nat := Z.to_nat 10000.
Definition DEFAULT_FENCE_LOCK_TIMEOUT_MS : Z := 5000.

Notation ApplyFn := (StoredEvent → gmap string (gmap string Json) → result string (gmap string (gmap string Json)))
  (only parsing).

Record RebuildDefinition := mkRebuildDef {
  rd_name : string;
  rd_meta : option EntityTableMeta;
  rd_sources : list string;
  rd_extraSources : list string;
  rd_extraSourceRowIds : list (string * (string → string → string));
  rd_apply : list (string * (StoredEvent → gmap string (gmap string Json) →
                             result string (gmap string (gmap string Json))));
  rd_isImplicit : bool }.

Inductive ProjectionStatus := StatusIdle | StatusRebuilding | StatusFailed.

Record ProjectionStateRow := mkState {
  ps_lastProcessedEventId : Z;
  ps_status : ProjectionStatus;
  ps_lastRebuildAt : option Z;
  ps_lastError : option RebuildError;
  ps_updatedAt : Z }.

Record SkippedApply := mkSkipped { sk_event : StoredEvent; sk_error : string }.

Record RebuildDeadLetterRow := mkRebuildLetter {
  rl_projectionName : string;
  rl_eventId : string;
  rl_tenantId : string;
  rl_aggregateId : string;
  rl_aggregateType : string;
  rl_eventType : string;
  rl_errorMessage : string;
  rl_payload : Row }.

(** What a rebuild reads and writes of the database. *)
Record RebuildWorld := mkRebuildWorld {
  rw_db : EventsDb;
  rw_live : gmap string (gmap string Json);
  rw_states : gmap string ProjectionStateRow;
  rw_letters : list RebuildDeadLetterRow }.

Record RebuildResult := mkRebuildResult {
  rr_projection : string;
  rr_eventsProcessed : nat;
  rr_eventsSkipped : nat;
  rr_lastProcessedEventId : Z;
  rr_columnDriftCount : nat }.

(** The local variables of a run. *)
Record Replay := mkReplay {
  rp_shadow : gmap string (gmap string Json);
  rp_cursor : Z;
  rp_processed : nat;
  rp_skipped : list SkippedApply }.

Definition fresh_replay : Replay := mkReplay buildShadowTable 0 0 [].

Inductive Phase :=
| PStart
| PUnlocked (batchesLeft : nat) (rp : Replay)
| PFence (rp : Replay)
| PFenced (rp : Replay)
| PCount (rp : Replay)
| PReplay (expected : nat) (rp : Replay)
| PSwap (rp : Replay)
| PDone (res : RebuildResult)
| PFailed (e : RebuildError).

(** ** Statements *)

Definition not_archived (db : EventsDb) (r : StoredEventRow) : Prop :=
  isStreamArchived db (row_tenantId r) (row_aggregateId r) = false.

Definition subscribed_row (db : EventsDb) (aggregateTypes eventTypes : list string) (r : StoredEventRow) : Prop :=
  row_aggregateType r ∈ aggregateTypes ∧ row_type r ∈ eventTypes ∧ not_archived db r.

#[export] Instance subscribed_row_dec db ats ets r : Decision (subscribed_row db ats ets r).
Proof. unfold subscribed_row, not_archived. apply _. Defined.

Definition selectEventsForProjectionRebuildBatch (db : EventsDb) (aggregateTypes eventTypes : list string)
    (afterId : Z) (limit : nat) : list StoredEventRow :=
  take limit (sort_by row_id
    (filter (λ r, subscribed_row db aggregateTypes eventTypes r ∧ afterId < row_id r) (db_events db))).

Definition countSubscribedEvents (db : EventsDb) (aggregateTypes eventTypes : list string) : nat :=
  length (filter (subscribed_row db aggregateTypes eventTypes) (db_events db)).

(** The upsert of a new row takes the column defaults. *)
Definition state_row (states : gmap string ProjectionStateRow) (name : string) (now : Z) : ProjectionStateRow :=
  default (mkState 0 StatusIdle None None now) (states !! name).

Definition markProjectionRebuilding (now : Z) (states : gmap string ProjectionStateRow) (name : string)
    : gmap string ProjectionStateRow :=
  let s := state_row states name now in
  <[name := mkState (ps_lastProcessedEventId s) StatusRebuilding (ps_lastRebuildAt s) None now]> states.

Definition finalizeProjectionRebuild (now : Z) (states : gmap string ProjectionStateRow) (name : string)
    (lastProcessedEventId : Z) : gmap string ProjectionStateRow :=
  match states !! name with
  | None => states
  | Some _ => <[name := mkState lastProcessedEventId StatusIdle (Some now) None now]> states
  end.

Definition markProjectionRebuildFailed (now : Z) (states : gmap string ProjectionStateRow) (name : string)
    (e : RebuildError) : gmap string ProjectionStateRow :=
  let s := state_row states name now in
  <[name := mkState (ps_lastProcessedEventId s) StatusFailed (ps_lastRebuildAt s) (Some e) now]> states.

Definition letter_of (projectionName : string) (s : SkippedApply) : RebuildDeadLetterRow :=
  let e := sk_event s in
  mkRebuildLetter projectionName (se_id e) (se_tenantId e) (se_aggregateId e) (se_aggregateType e) (se_type e)
    (sk_error s) (se_payload e).

Definition recordRebuildDeadLetters (letters : list RebuildDeadLetterRow) (projectionName : string)
    (skipped : list SkippedApply) : list RebuildDeadLetterRow :=
  letters ++ (letter_of projectionName <$> skipped).

Definition swapShadowIntoLive (catalog : Catalog) (shadow : gmap string (gmap string Json))
    : result RebuildError (gmap string (gmap string Json)) :=
  match ct_columns catalog with None => Err LiveTableMissing | Some _ => Ok shadow end.

(** ** A run

    [upcasters] with the database [ctxDb] they may read stand for the
    registry's migrations. *)

Section rebuild.
Context {D : Type} (upcasters : gmap string (EventUpcaster D)) (ctxDb : D)
  (catalog : Catalog) (p : RebuildDefinition) (meta : EntityTableMeta)
  (skipApplyErrors : bool) (batchSize maxUnlockedBatches : nat) (fenceLockTimeoutMs : Z).

Definition sourcesList : list string := rd_sources p ++ rd_extraSources p.
Definition subscribedList : list string := (rd_apply p).*1.

Definition upcast_row (r : StoredEventRow) : result RebuildError StoredEvent :=
  match upcastStoredEvent (toStoredEvent r) upcasters (makeUpcastCtx ctxDb (row_tenantId r)) with
  | Some (Ok e) => Ok e
  | Some (Err e) => Err (UpcastThrew e)
  | None => Err (UpcastThrew (MigrationThrew ""))
  end.

(** The body of the loop over a batch. *)
Definition drain_row (rp : Replay) (r : StoredEventRow) : result RebuildError Replay :=
  let? event := upcast_row r in
  match assoc_get (row_type r) (rd_apply p) with
  | None => Ok rp
  | Some applyFn =>
      match applyFn event (rp_shadow rp) with
      | Ok shadow => Ok (mkReplay shadow (row_id r) (S (rp_processed rp)) (rp_skipped rp))
      | Err message =>
          if skipApplyErrors
          then Ok (mkReplay (rp_shadow rp) (row_id r) (S (rp_processed rp))
                     (rp_skipped rp ++ [mkSkipped event message]))
          else Err (ApplyThrew message)
      end
  end.

Fixpoint drain_rows (rp : Replay) (rows : list StoredEventRow) : result RebuildError Replay :=
  match rows with
  | [] => Ok rp
  | r :: rest => let? rp' := drain_row rp r in drain_rows rp' rest
  end.

Definition drainBatch (db : EventsDb) (rp : Replay) : result RebuildError (Replay * nat) :=
  let rows := selectEventsForProjectionRebuildBatch db sourcesList subscribedList (rp_cursor rp) batchSize in
  let? rp' := drain_rows rp rows in Ok (rp', length rows).

(** The outer catch: the transaction is gone, the failure is recorded in its own write. *)
Definition fail (w : RebuildWorld) (e : RebuildError) : Phase * RebuildWorld :=
  (PFailed e, mkRebuildWorld (rw_db w) (rw_live w)
                (markProjectionRebuildFailed (db_now (rw_db w)) (rw_states w) (rd_name p) e) (rw_letters w)).

Definition or_fail {A} (w : RebuildWorld) (r : result RebuildError A) (k : A → Phase * RebuildWorld)
    : Phase * RebuildWorld :=
  match r with Ok a => k a | Err e => fail w e end.

(** The guards of the swap. *)
Definition guards (w : RebuildWorld) (rp : Replay) : result RebuildError nat :=
  let? _ := assertNoBlindIndexLoss catalog meta (rw_live w) (rp_shadow rp) in
  if rd_isImplicit p then
    let? _ := assertNoUnreachableLiveRows (rw_db w) (rw_live w) sourcesList (rd_extraSourceRowIds p) in
    Ok (cd_rowCount (countColumnDrift meta (rw_live w) (rp_shadow rp)))
  else Ok 0%nat.

Definition committed (w : RebuildWorld) (rp : Replay) (live : gmap string (gmap string Json)) : RebuildWorld :=
  let now := db_now (rw_db w) in
  mkRebuildWorld (rw_db w) live
    (finalizeProjectionRebuild now (markProjectionRebuilding now (rw_states w) (rd_name p)) (rd_name p)
       (rp_cursor rp))
    (match rp_skipped rp with
     | [] => rw_letters w
     | skipped => recordRebuildDeadLetters (rw_letters w) (rd_name p) skipped
     end).

Definition rebuild_next (ph : Phase) (w : RebuildWorld) : Phase * RebuildWorld :=
  match ph with
  | PStart =>
      or_fail w (assertRebuildableRowLevelSecurity catalog meta) (λ _,
      or_fail w (assertLiveColumnsMatchMeta catalog meta) (λ _,
        (match subscribedList with
         | [] => PSwap fresh_replay
         | _ => PUnlocked maxUnlockedBatches fresh_replay
         end, w)))
  | PUnlocked 0 rp => (PFence rp, w)
  | PUnlocked (S n) rp =>
      or_fail w (drainBatch (rw_db w) rp) (λ drained,
        (if (drained.2 <? batchSize)%nat then PFence drained.1 else PUnlocked n drained.1, w))
  | PFence rp => or_fail w (fenceLiveTable fenceLockTimeoutMs) (λ _, (PFenced rp, w))
  | PFenced rp =>
      or_fail w (drainBatch (rw_db w) rp) (λ drained,
        (if (drained.2 =? batchSize)%nat then PFenced drained.1 else PCount drained.1, w))
  | PCount rp =>
      let expected := countSubscribedEvents (rw_db w) sourcesList subscribedList in
      (if (rp_processed rp <? expected)%nat then PReplay expected fresh_replay else PSwap rp, w)
  | PReplay expected rp =>
      or_fail w (drainBatch (rw_db w) rp) (λ drained,
        if (drained.2 =? batchSize)%nat then (PReplay expected drained.1, w)
        else if (rp_processed drained.1 <? expected)%nat
        then fail w (RowsDropped (rp_processed drained.1) expected)
        else (PSwap drained.1, w))
  | PSwap rp =>
      or_fail w (guards w rp) (λ drift,
      or_fail w (swapShadowIntoLive catalog (rp_shadow rp)) (λ live,
        (PDone (mkRebuildResult (rd_name p) (rp_processed rp) (length (rp_skipped rp)) (rp_cursor rp) drift),
         committed w rp live)))
  | PDone _ | PFailed _ => (ph, w)
  end.

Definition finished (ph : Phase) : bool :=
  match ph with PDone _ | PFailed _ => true | _ => false end.

(** The phases that hold ACCESS EXCLUSIVE on the live table. *)
Definition fenced (ph : Phase) : bool :=
  match ph with PFenced _ | PCount _ | PReplay _ _ | PSwap _ => true | _ => false end.

Fixpoint run_alone (n : nat) (ph : Phase) (w : RebuildWorld) : Phase * RebuildWorld :=
  match n with
  | O => (ph, w)
  | S n' => if finished ph then (ph, w) else let '(ph', w') := rebuild_next ph w in run_alone n' ph' w'
  end.
End rebuild.

(** [rebuildProjection]: what throws before the transaction begins leaves no trace. *)
Definition rebuildProjection (projections : list (string * RebuildDefinition)) (projectionName : string)
    : result RebuildError (RebuildDefinition * EntityTableMeta) :=
  match assoc_get projectionName projections with
  | None => Err (NotRegistered projectionName)
  | Some p => let? meta := rebuildMetaOrThrow (rd_meta p) projectionName in Ok (p, meta)
  end.

(** ** State listings *)

Definition getProjectionState (states : gmap string ProjectionStateRow) (name : string)
    : option (string * ProjectionStateRow) :=
  (λ s, (name, s)) <$> states !! name.

Record ProjectionListing := mkListing {
  pl_projection : string;
  pl_sources : list string;
  pl_status : option ProjectionStatus;
  pl_lastProcessedEventId : Z;
  pl_lastRebuildAt : option Z;
  pl_lastError : option RebuildError }.

(** The status of a projection without a state row is never-rebuilt ([None]). *)
Definition listing_of (states : gmap string ProjectionStateRow) (p : RebuildDefinition) : ProjectionListing :=
  let s := states !! rd_name p in
  mkListing (rd_name p) (rd_sources p) (ps_status <$> s) (from_option ps_lastProcessedEventId 0 s)
    (s ≫= ps_lastRebuildAt) (s ≫= ps_lastError).

Definition listProjectionsWithState (states : gmap string ProjectionStateRow) (projections : list RebuildDefinition)
    (includeImplicit : bool) : list ProjectionListing :=
  listing_of states <$> filter (λ p, includeImplicit = true ∨ rd_isImplicit p = false) projections.

Definition getAllProjectionProgress (db : EventsDb) (states : gmap string ProjectionStateRow)
    (projections : list RebuildDefinition) : list (ProjectionListing * Z * Z) :=
  let highWaterMark := selectEventsHighWaterMark db in
  (λ l, (l, highWaterMark, highWaterMark - pl_lastProcessedEventId l)) <$>
    listProjectionsWithState states projections false.

(** ** Implicit projections

    [buildImplicitProjection] of [engine/registry-state.ts]: the projection an
    entity gets for its own table.  Functions have an identity in the source,
    so a row id function comes with a number. *)

Record EntityProjectionExtension := mkExtension {
  ex_sources : list string;
  ex_rowIdOf : option (nat * (string → string → string));
  ex_apply : list (string * (StoredEvent → gmap string (gmap string Json) →
                             result string (gmap string (gmap string Json)))) }.

Inductive ExtensionError :=
| BadName (e : QnError)
| ApplyKeyCollides (eventType : string)
| RowIdWithoutSources
| RowIdOnOwnStream
| AmbiguousRowId (source : string).

Definition IMPLICIT_PROJECTION_SUFFIX : string := "-entity".

Definition assertRowIdOfSources (entityName : string) (ext : EntityProjectionExtension)
    : result ExtensionError () :=
  match ex_rowIdOf ext with
  | None => Ok tt
  | Some _ =>
      if bool_decide (ex_sources ext = []) then Err RowIdWithoutSources
      else if bool_decide (entityName ∈ ex_sources ext) then Err RowIdOnOwnStream else Ok tt
  end.

(** [rowIdDeclaredBy], with the row ids to be returned. *)
Fixpoint declare_row_ids (rowIdOf : option (nat * (string → string → string))) (sources : list string)
    (declaredBy : list (string * option (nat * (string → string → string))))
    : result ExtensionError (list (string * option (nat * (string → string → string)))) :=
  match sources with
  | [] => Ok declaredBy
  | s :: rest =>
      match assoc_get s declaredBy with
      | Some other =>
          if bool_decide (fst <$> other = fst <$> rowIdOf)
          then declare_row_ids rowIdOf rest (assoc_set s rowIdOf declaredBy)
          else Err (AmbiguousRowId s)
      | None => declare_row_ids rowIdOf rest (assoc_set s rowIdOf declaredBy)
      end
  end.

Fixpoint collect_extensions (entityName : string) (extensions : list EntityProjectionExtension)
    (extraSources : list string) (declaredBy : list (string * option (nat * (string → string → string))))
    : result ExtensionError (list string * list (string * option (nat * (string → string → string)))) :=
  match extensions with
  | [] => Ok (extraSources, declaredBy)
  | ext :: rest =>
      let extra := foldl (λ acc s, if bool_decide (s = entityName ∨ s ∈ acc) then acc else acc ++ [s])
                     extraSources (ex_sources ext) in
      let? _ := assertRowIdOfSources entityName ext in
      let? declaredBy' := declare_row_ids (ex_rowIdOf ext) (ex_sources ext) declaredBy in
      collect_extensions entityName rest extra declaredBy'
  end.

Definition collectExtensionSources (entityName : string) (extensions : list EntityProjectionExtension)
    : result ExtensionError (list string * list (string * (string → string → string))) :=
  let? c := collect_extensions entityName extensions [] [] in
  Ok (c.1, omap (λ kv, (λ f, (kv.1, f.2)) <$> kv.2) c.2).

(** An apply key may be declared once. *)
Fixpoint merge_applies (apply ext : list (string * (StoredEvent → gmap string (gmap string Json) →
                                                   result string (gmap string (gmap string Json)))))
    : result ExtensionError (list (string * (StoredEvent → gmap string (gmap string Json) →
                                              result string (gmap string (gmap string Json))))) :=
  match ext with
  | [] => Ok apply
  | (eventType, fn) :: rest =>
      if has_key eventType apply then Err (ApplyKeyCollides eventType)
      else merge_applies (apply ++ [(eventType, fn)]) rest
  end.

Section implicit.
Context (t : EntityTable) (violates : gmap string (gmap string Json) → string → gmap string Json → bool)
  (crypto : Crypto) (keys : Keys) (messageOf : ApplyError → string).

(** The handler of every verb. *)
Definition implicit_apply (event : StoredEvent) (rows : gmap string (gmap string Json))
    : result string (gmap string (gmap string Json)) :=
  match applyEntityEvent t violates crypto keys rows event with
  | Ok applied => Ok applied.2
  | Err e => Err (messageOf e)
  end.

Definition lifecycle_verbs : list AutoVerb :=
  [Created; Updated; Deleted; Forgotten] ++ (if et_softDelete t then [Restored] else []).

Definition buildImplicitProjection (featureName : string) (meta : option EntityTableMeta)
    (extensions : list EntityProjectionExtension) : result ExtensionError RebuildDefinition :=
  let entityName := et_entityName t in
  match qualifyEntityName featureName "projection" (entityName +:+ IMPLICIT_PROJECTION_SUFFIX) with
  | Err e => Err (BadName e)
  | Ok name =>
      let? apply := merge_applies ((λ v, (entityEventName entityName v, implicit_apply)) <$> lifecycle_verbs)
                      (extensions ≫= ex_apply) in
      let? extra := collectExtensionSources entityName extensions in
      Ok (mkRebuildDef name meta [entityName] extra.1 extra.2 apply true)
  end.
End implicit.
