(* ===== verification/RebuildProofs.v ===== *)
(** * Theorems on projection rebuilds

    A rebuild among the transactions of writers, as a step relation: what the
    replay reflects in every phase, that the swap installs the replay of the
    log, that the machine ends, and that an entity table equals its rebuild. *)

From S2P Require Import Prelude EventLog EventStore QualifiedName TableInfo Upcaster BlindIndex EntityApply.
From S2P Require Import Executor ExecutorProofs ShadowSwap ProjectionRebuild.

Open Scope Z_scope.

(** Event ids are distinct and positive; they need not be in commit order. *)
Definition ids_ok (db : EventsDb) : Prop :=
  NoDup (row_id <$> db_events db) ∧ Forall (λ r, 0 < row_id r) (db_events db).

Notation before := (λ r s, row_id r < row_id s).

Section system.
Context {D : Type} (upcasters : gmap string (EventUpcaster D)) (ctxDb : D)
  (catalog : Catalog) (p : RebuildDefinition) (meta : EntityTableMeta)
  (skipApplyErrors : bool) (batchSize maxUnlockedBatches : nat) (fenceLockTimeoutMs : Z).

Notation drain := (drain_rows upcasters ctxDb p skipApplyErrors).
Notation next := (rebuild_next upcasters ctxDb catalog p meta skipApplyErrors batchSize maxUnlockedBatches
                    fenceLockTimeoutMs).
Notation selects db := (subscribed_row db (sourcesList p) (subscribedList p)).

(** The committed events the projection subscribes to, in id order. *)
Definition subscribed_events (db : EventsDb) : list StoredEventRow :=
  sort_by row_id (filter (selects db) (db_events db)).

(** ** Batches *)

Lemma subscribed_sorted db : ids_ok db → StronglySorted before (subscribed_events db).
Proof.
  intros [Hn _]. apply sort_by_strict. apply (NoDup_fmap_sublist _ _ (db_events db)); [|done].
  apply sublist_filter.
Qed.

Lemma subscribed_positive db r : ids_ok db → r ∈ subscribed_events db → 0 < row_id r.
Proof.
  intros [_ Hp] Hr. unfold subscribed_events in Hr. rewrite elem_of_sort_by in Hr.
  apply list_elem_of_filter in Hr as [_ Hr]. rewrite Forall_forall in Hp. auto.
Qed.

Lemma batch_of_subscribed db c :
  ids_ok db →
  selectEventsForProjectionRebuildBatch db (sourcesList p) (subscribedList p) c batchSize
    = take batchSize (filter (λ r, c < row_id r) (subscribed_events db)).
Proof.
  intros [Hn _]. unfold selectEventsForProjectionRebuildBatch, subscribed_events. f_equal.
  rewrite <- sort_by_filter.
  - f_equal. rewrite list_filter_filter. apply list_filter_iff. intros r. tauto.
  - apply (NoDup_fmap_sublist _ _ (db_events db)); [apply sublist_filter|done].
Qed.

Lemma drain_app rp a b : drain rp (a ++ b) = (let? rp' := drain rp a in drain rp' b).
Proof.
  revert rp. induction a as [|r a IH]; intros rp; [done|]. cbn [app drain_rows].
  destruct (drain_row _ _ _ _ rp r) as [rp'|]; [|done]. apply IH.
Qed.

(** A replay counts its rows and stands at the last of them. *)
Lemma drain_counts rp rows rp' :
  (∀ r, r ∈ rows → is_Some (assoc_get (row_type r) (rd_apply p))) → drain rp rows = Ok rp' →
  rp_processed rp' = (rp_processed rp + length rows)%nat ∧
  rp_cursor rp' = from_option row_id (rp_cursor rp) (last rows).
Proof.
  revert rp. induction rows as [|r rows IH]; intros rp Hall; [intros [= <-]; simpl; split; [lia|done]|].
  cbn [drain_rows]. intros (rp1 & H1 & H2)%result_bind_Ok.
  destruct (IH rp1) as [Hp Hc]; [intros s Hs; apply Hall; by right|done|].
  assert (Hstep : rp_processed rp1 = S (rp_processed rp) ∧ rp_cursor rp1 = row_id r).
  { unfold drain_row in H1. apply result_bind_Ok in H1 as (e & _ & H1).
    destruct (Hall r ltac:(left)) as [fn Hfn]. rewrite Hfn in H1.
    destruct (fn e (rp_shadow rp)); [by injection H1 as <-|].
    destruct skipApplyErrors; [by injection H1 as <-|done]. }
  destruct Hstep as [Hs1 Hs2]. split; [simpl; lia|]. rewrite Hc, Hs2.
  rewrite last_cons. by destruct (last rows).
Qed.

(** ** What a replay reflects *)

(** What a batch can hold: a committed event of a source and a type of the
    projection, whether its stream is archived or not. *)
Definition candidate (db : EventsDb) (r : StoredEventRow) : Prop :=
  r ∈ db_events db ∧ row_aggregateType r ∈ sourcesList p ∧ row_type r ∈ subscribedList p.

Lemma subscribed_candidate db r : r ∈ subscribed_events db → candidate db r.
Proof.
  unfold subscribed_events. rewrite elem_of_sort_by. intros [(? & ? & _) ?]%list_elem_of_filter. by split_and!.
Qed.

Lemma candidate_has_apply db r : candidate db r → is_Some (assoc_get (row_type r) (rd_apply p)).
Proof.
  intros (_ & _ & Ht). destruct (assoc_get (row_type r) (rd_apply p)) eqn:Ha; [by eexists|].
  by apply assoc_get_None in Ha.
Qed.

(** Some events of a pool, each once, in id order. *)
Definition reflects (pool : StoredEventRow → Prop) (rp : Replay) : Prop :=
  ∃ seen, StronglySorted before seen ∧ (∀ r, r ∈ seen → pool r) ∧ drain fresh_replay seen = Ok rp.

Notation subscribed_in db := (λ r, r ∈ subscribed_events db).

Lemma reflects_mono (P Q : StoredEventRow → Prop) rp : (∀ r, P r → Q r) → reflects P rp → reflects Q rp.
Proof. intros HPQ (seen & Hs & Hin & Hd). exists seen. split_and!; auto. Qed.

(** All subscribed events up to some point. *)
Definition complete (db : EventsDb) (rp : Replay) : Prop :=
  ∃ seen rest, subscribed_events db = seen ++ rest ∧ drain fresh_replay seen = Ok rp.

Lemma subscribed_has_apply db r : r ∈ subscribed_events db → is_Some (assoc_get (row_type r) (rd_apply p)).
Proof. intros Hr. by eapply candidate_has_apply, subscribed_candidate. Qed.

Lemma cursor_bounds db seen rp :
  StronglySorted before seen → (∀ r, r ∈ seen → candidate db r) →
  drain fresh_replay seen = Ok rp →
  rp_processed rp = length seen ∧ ∀ r, r ∈ seen → row_id r ≤ rp_cursor rp.
Proof.
  intros Hs Hin Hd. destruct (drain_counts fresh_replay seen rp) as [Hp Hc]; [|done|].
  { intros r Hr. by eapply candidate_has_apply, Hin. }
  split; [by rewrite Hp|]. intros r Hr. rewrite Hc.
  destruct (last seen) as [l|] eqn:Hl; simpl.
  - apply last_Some in Hl as [seen' ->]. apply elem_of_app in Hr as [Hr|Hr%list_elem_of_singleton]; [|by subst].
    apply (StronglySorted_app_1_elem_of _ _ _ r l) in Hs; [simpl in Hs; lia|done|set_solver].
  - apply last_None in Hl as ->. by apply elem_of_nil in Hr.
Qed.

Lemma reflects_batch (pool : StoredEventRow → Prop) db rp rp' n :
  ids_ok db → (∀ r, r ∈ subscribed_events db → pool r) → (∀ r, pool r → candidate db r) → reflects pool rp →
  drainBatch upcasters ctxDb p skipApplyErrors batchSize db rp = Ok (rp', n) → reflects pool rp'.
Proof.
  intros Hi Hsub Hcand (seen & Hs & Hin & Hd). unfold drainBatch. rewrite batch_of_subscribed by done.
  intros (rp1 & H1 & [= <- <-])%result_bind_Ok.
  destruct (cursor_bounds db seen rp Hs (λ r Hr, Hcand r (Hin r Hr)) Hd) as [_ Hle].
  set (batch := take _ _) in *.
  assert (Hb : ∀ r, r ∈ batch → r ∈ subscribed_events db ∧ rp_cursor rp < row_id r).
  { intros r Hr%elem_of_take. destruct Hr as (i & Hr & _). apply list_elem_of_lookup_2 in Hr.
    by apply list_elem_of_filter in Hr as [? ?]. }
  exists (seen ++ batch). split_and!.
  - apply StronglySorted_app_2; [|done|].
    + intros r s Hr Hs'. specialize (Hle r Hr). destruct (Hb s Hs'). lia.
    + by apply strongly_sorted_take, strongly_sorted_filter, subscribed_sorted.
  - intros r [Hr|Hr]%elem_of_app; [by apply Hin|by apply Hsub, Hb].
  - by rewrite drain_app, Hd.
Qed.

Lemma complete_batch db rp rp' n :
  ids_ok db → complete db rp →
  drainBatch upcasters ctxDb p skipApplyErrors batchSize db rp = Ok (rp', n) →
  complete db rp' ∧ (n ≠ batchSize → drain fresh_replay (subscribed_events db) = Ok rp').
Proof.
  intros Hi (seen & rest & Heq & Hd). unfold drainBatch. rewrite batch_of_subscribed by done.
  intros (rp1 & H1 & [= <- <-])%result_bind_Ok.
  pose proof (subscribed_sorted db Hi) as Hs. rewrite Heq in Hs.
  assert (Hrest : filter (λ r, rp_cursor rp < row_id r) (subscribed_events db) = rest).
  { rewrite Heq. destruct (cursor_bounds db seen rp) as [_ Hle]; [by eapply StronglySorted_app_1_l| |done|].
    - intros r Hr. apply subscribed_candidate. rewrite Heq. set_solver.
    - apply filter_above; [done|]. intros x Hx.
      destruct (drain_counts fresh_replay seen rp) as [_ ->]; [|done|].
      + intros r Hr. apply (subscribed_has_apply db). rewrite Heq. set_solver.
      + destruct (last seen) as [l|] eqn:Hl; simpl.
        * apply last_Some in Hl as [seen' ->]. apply (StronglySorted_app_1_elem_of _ _ _ l x) in Hs; set_solver.
        * apply (subscribed_positive db); [done|]. rewrite Heq. set_solver. }
  rewrite Hrest in H1 |- *. split.
  - exists (seen ++ take batchSize rest), (drop batchSize rest).
    split; [by rewrite <- app_assoc, take_drop|by rewrite drain_app, Hd].
  - intros Hn. rewrite length_take in Hn. rewrite take_ge in H1 by lia. by rewrite Heq, drain_app, Hd.
Qed.

(** Counting suffices: as many events as there are, all of them subscribed, are
    all of them. *)
Lemma reflects_all db rp :
  ids_ok db → reflects (subscribed_in db) rp → (length (subscribed_events db) ≤ rp_processed rp)%nat →
  drain fresh_replay (subscribed_events db) = Ok rp.
Proof.
  intros Hi (seen & Hs & Hin & Hd) Hlen.
  destruct (cursor_bounds db seen rp Hs (λ r Hr, subscribed_candidate db r (Hin r Hr)) Hd) as [Hp _]. rewrite Hp in Hlen.
  enough (seen = subscribed_events db) as <- by done.
  assert (Hn : NoDup seen).
  { clear -Hs. induction Hs as [|x l Hs IH Hf]; [constructor|]. constructor; [|done].
    intros Hx. rewrite Forall_forall in Hf. specialize (Hf x Hx). lia. }
  assert (Hperm : seen ≡ₚ subscribed_events db).
  { apply submseteq_length_Permutation; [by apply NoDup_submseteq|done]. }
  rewrite <- (sort_by_id row_id seen Hs). apply sort_by_unique; [by apply subscribed_sorted|done].
Qed.
(** ** The system

    A transaction that commits subscribed events has also written the live
    table, so none can under the fence; before it, what the writer makes of the
    live table is arbitrary.  Streams are archived and restored at any moment,
    also under the fence, which does not cover the table of archived streams;
    [archiving] says whether that may change which committed events the
    projection subscribes to. *)

Context (archiving : bool).

Definition commit_rows (w : RebuildWorld) (rows : list StoredEventRow) (nextId : Z)
    (live : gmap string (gmap string Json)) : RebuildWorld :=
  mkRebuildWorld (with_events (rw_db w) (db_events (rw_db w) ++ rows) nextId) live (rw_states w) (rw_letters w).

Definition archive_streams (w : RebuildWorld) (archived : gmap (string * string) ArchivedStreamRow) : RebuildWorld :=
  let db := rw_db w in
  mkRebuildWorld (mkDb (db_events db) (db_nextEventId db) archived (db_snapshots db) (db_now db)) (rw_live w)
    (rw_states w) (rw_letters w).

Inductive sys_step : Phase * RebuildWorld → Phase * RebuildWorld → Prop :=
| sys_rebuild ph w : sys_step (ph, w) (next ph w)
| sys_throw ph w message :
    finished ph = false → sys_step (ph, w) (fail p w (TransactionAborted message))
| sys_commit ph w rows nextId live :
    ids_ok (rw_db (commit_rows w rows nextId live)) →
    (fenced ph = true → live = rw_live w ∧ ∀ r, r ∈ rows → ¬ selects (rw_db w) r) →
    sys_step (ph, w) (ph, commit_rows w rows nextId live)
| sys_archive ph w archived :
    (archiving = false → subscribed_events (rw_db (archive_streams w archived)) = subscribed_events (rw_db w)) →
    sys_step (ph, w) (ph, archive_streams w archived).

(** What the replay has seen, whatever is archived meanwhile. *)
Definition phase_seen (ph : Phase) (db : EventsDb) : Prop :=
  match ph with
  | PUnlocked _ rp | PFence rp | PFenced rp | PCount rp | PReplay _ rp | PSwap rp => reflects (candidate db) rp
  | PStart | PDone _ | PFailed _ => True
  end.

(** While archiving does not touch the subscribed events, it has seen all of them. *)
Definition phase_ok (ph : Phase) (db : EventsDb) : Prop :=
  match ph with
  | PUnlocked _ rp | PFence rp | PFenced rp | PCount rp => reflects (subscribed_in db) rp
  | PReplay expected rp => expected = length (subscribed_events db) ∧ complete db rp
  | PSwap rp => drain fresh_replay (subscribed_events db) = Ok rp
  | PStart | PDone _ | PFailed _ => True
  end.

Lemma fresh_reflects pool : reflects pool fresh_replay.
Proof. exists []. split_and!; [constructor|by intros r Hr%elem_of_nil|done]. Qed.

Lemma fresh_complete db : complete db fresh_replay.
Proof. by exists [], (subscribed_events db). Qed.

Lemma count_is_length db :
  countSubscribedEvents db (sourcesList p) (subscribedList p) = length (subscribed_events db).
Proof. unfold subscribed_events. by rewrite length_sort_by. Qed.

Lemma no_subscription db : subscribedList p = [] → subscribed_events db = [].
Proof.
  intros He. unfold subscribed_events. rewrite filter_keeps_none; [done|].
  intros r _ (_ & Hr & _). rewrite He in Hr. by apply elem_of_nil in Hr.
Qed.

Lemma or_fail_cases {A} w (r : result RebuildError A) k :
  (∃ a, r = Ok a ∧ or_fail p w r k = k a) ∨ ∃ e, or_fail p w r k = fail p w e.
Proof. destruct r as [a|e]; [left; by exists a|right; by exists e]. Qed.

Lemma next_seen ph w : ids_ok (rw_db w) → phase_seen ph (rw_db w) →
  phase_seen (next ph w).1 (rw_db w) ∧ rw_db (next ph w).2 = rw_db w.
Proof.
  intros Hi Hok.
  assert (Hbatch : ∀ rp rp' n, reflects (candidate (rw_db w)) rp →
    drainBatch upcasters ctxDb p skipApplyErrors batchSize (rw_db w) rp = Ok (rp', n) →
    reflects (candidate (rw_db w)) rp').
  { intros rp rp' n. apply reflects_batch; [done|apply subscribed_candidate|done]. }
  destruct ph as [|n rp|rp|rp|rp|expected rp|rp|res|e]; simpl in Hok |- *; try done.
  - destruct (assertRebuildableRowLevelSecurity catalog meta); [|done]. simpl.
    destruct (assertLiveColumnsMatchMeta catalog meta); [|done]. simpl. split; [|done].
    destruct (subscribedList p); apply fresh_reflects.
  - destruct n as [|n]; [done|].
    edestruct (or_fail_cases (A := Replay * nat)) as [([rp' m] & Hd & ->)|[e ->]]; [|done]. simpl.
    pose proof (Hbatch _ _ _ Hok Hd). by destruct (_ <? _)%nat.
  - by destruct (fenceLiveTable _).
  - edestruct (or_fail_cases (A := Replay * nat)) as [([rp' m] & Hd & ->)|[e ->]]; [|done]. simpl.
    pose proof (Hbatch _ _ _ Hok Hd). by destruct (_ =? _)%nat.
  - destruct (_ <? _)%nat; [split; [apply fresh_reflects|done]|done].
  - edestruct (or_fail_cases (A := Replay * nat)) as [([rp' m] & Hd & ->)|[e ->]]; [|done]. simpl.
    pose proof (Hbatch _ _ _ Hok Hd). destruct (_ =? _)%nat; [done|]. by destruct (_ <? _)%nat.
  - edestruct (or_fail_cases (A := nat)) as [(drift & _ & ->)|[e ->]]; [|done].
    edestruct (or_fail_cases (A := gmap string (gmap string Json))) as [(live & _ & ->)|[e ->]]; done.
Qed.

Lemma next_ok ph w : ids_ok (rw_db w) → phase_ok ph (rw_db w) → phase_ok (next ph w).1 (rw_db w).
Proof.
  intros Hi Hok.
  assert (Hbatch : ∀ rp rp' n, reflects (subscribed_in (rw_db w)) rp →
    drainBatch upcasters ctxDb p skipApplyErrors batchSize (rw_db w) rp = Ok (rp', n) →
    reflects (subscribed_in (rw_db w)) rp').
  { intros rp rp' n. apply reflects_batch; [done|done|apply subscribed_candidate]. }
  destruct ph as [|n rp|rp|rp|rp|expected rp|rp|res|e]; simpl in Hok |- *; try done.
  - destruct (assertRebuildableRowLevelSecurity catalog meta); [|done]. simpl.
    destruct (assertLiveColumnsMatchMeta catalog meta); [|done]. simpl.
    destruct (subscribedList p) eqn:He; simpl; [by rewrite no_subscription|apply fresh_reflects].
  - destruct n as [|n]; [done|].
    edestruct (or_fail_cases (A := Replay * nat)) as [([rp' m] & Hd & ->)|[e ->]]; [|done]. simpl.
    pose proof (Hbatch _ _ _ Hok Hd). by destruct (_ <? _)%nat.
  - by destruct (fenceLiveTable _).
  - edestruct (or_fail_cases (A := Replay * nat)) as [([rp' m] & Hd & ->)|[e ->]]; [|done]. simpl.
    pose proof (Hbatch _ _ _ Hok Hd). by destruct (_ =? _)%nat.
  - rewrite count_is_length. destruct (Nat.ltb_spec (rp_processed rp) (length (subscribed_events (rw_db w)))); simpl.
    + split; [done|apply fresh_complete].
    + by apply reflects_all.
  - destruct Hok as [-> Hc].
    edestruct (or_fail_cases (A := Replay * nat)) as [([rp' m] & Hd & ->)|[e ->]]; [|done]. simpl.
    destruct (complete_batch _ _ _ _ Hi Hc Hd) as [Hc' Hall].
    destruct (m =? batchSize)%nat eqn:Hm; [done|]. apply Nat.eqb_neq in Hm.
    destruct (_ <? _)%nat; [done|]. by apply Hall.
  - edestruct (or_fail_cases (A := nat)) as [(drift & _ & ->)|[e ->]]; [|done].
    edestruct (or_fail_cases (A := gmap string (gmap string Json))) as [(live & _ & ->)|[e ->]]; done.
Qed.

Lemma seen_grows ph db db' :
  (∀ r, r ∈ db_events db → r ∈ db_events db') → phase_seen ph db → phase_seen ph db'.
Proof.
  intros Hgrow.
  assert (Hc : ∀ rp, reflects (candidate db) rp → reflects (candidate db') rp).
  { intros rp. apply reflects_mono. intros r (Hr & ? & ?). split_and!; auto. }
  destruct ph; simpl; auto.
Qed.

Lemma commit_ok ph w rows nextId live :
  (fenced ph = true → live = rw_live w ∧ ∀ r, r ∈ rows → ¬ selects (rw_db w) r) →
  phase_ok ph (rw_db w) → phase_ok ph (rw_db (commit_rows w rows nextId live)).
Proof.
  intros Hf Hok.
  assert (Hkeep : fenced ph = true → subscribed_events (rw_db (commit_rows w rows nextId live))
                    = subscribed_events (rw_db w)).
  { intros [_ Hn]%Hf. unfold subscribed_events. simpl. rewrite filter_app.
    rewrite (filter_keeps_none _ rows); [by rewrite app_nil_r|exact Hn]. }
  assert (Hgrow : ∀ rp, reflects (subscribed_in (rw_db w)) rp →
    reflects (subscribed_in (rw_db (commit_rows w rows nextId live))) rp).
  { intros rp. apply reflects_mono. intros r Hin. unfold subscribed_events in *. rewrite elem_of_sort_by in *.
    apply list_elem_of_filter in Hin as [Hsel Hin]. apply list_elem_of_filter. split; [exact Hsel|].
    apply elem_of_app. by left. }
  destruct ph as [|n rp|rp|rp|rp|expected rp|rp|res|e]; cbn [phase_ok] in Hok |- *; auto.
  - destruct Hok as [-> Hc]. unfold complete. by rewrite Hkeep.
  - by rewrite Hkeep.
Qed.

Lemma archive_ok ph w archived :
  subscribed_events (rw_db (archive_streams w archived)) = subscribed_events (rw_db w) →
  phase_ok ph (rw_db w) → phase_ok ph (rw_db (archive_streams w archived)).
Proof.
  intros Heq. destruct ph as [|n rp|rp|rp|rp|expected rp|rp|res|e]; unfold phase_ok, complete; by rewrite ?Heq.
Qed.

Lemma system_ok s s' :
  rtc sys_step s s' → ids_ok (rw_db s.2) → phase_seen s.1 (rw_db s.2) →
  (archiving = false → phase_ok s.1 (rw_db s.2)) →
  ids_ok (rw_db s'.2) ∧ phase_seen s'.1 (rw_db s'.2) ∧ (archiving = false → phase_ok s'.1 (rw_db s'.2)).
Proof.
  induction 1 as [|s s1 s' Hstep _ IH]; intros Hi Hseen Hok; [done|].
  apply IH; clear IH; destruct Hstep as [ph w|ph w m|ph w rows n live Hids Hf|ph w archived Ha];
    simpl in *; try done; try (destruct (next_seen ph w Hi Hseen) as [Hs ->]; done).
  - eapply seen_grows; [|exact Hseen]. intros r Hr. apply elem_of_app. by left.
  - destruct (next_seen ph w Hi Hseen) as [_ ->]. intros Hq. by apply next_ok, Hok.
  - intros Hq. apply (commit_ok ph w rows n live); auto.
  - intros Hq. apply archive_ok; auto.
Qed.
(** ** Ending *)

(** The subscribed events a replay has not reached. *)
Definition ahead (db : EventsDb) (rp : Replay) : list StoredEventRow :=
  filter (λ r, rp_cursor rp < row_id r) (subscribed_events db).

Lemma drained_ahead db rp rp' n :
  ids_ok db → drainBatch upcasters ctxDb p skipApplyErrors batchSize db rp = Ok (rp', n) →
  n = length (take batchSize (ahead db rp)) ∧ ahead db rp' = drop batchSize (ahead db rp).
Proof.
  intros Hi. unfold drainBatch. rewrite batch_of_subscribed by done.
  fold (ahead db rp). intros (rp1 & H1 & [= <- <-])%result_bind_Ok. split; [done|].
  assert (Hs : StronglySorted before (ahead db rp)) by by apply strongly_sorted_filter, subscribed_sorted.
  assert (Hc : rp_cursor rp1 = from_option row_id (rp_cursor rp) (last (take batchSize (ahead db rp)))).
  { apply drain_counts; [|done]. intros r Hr%elem_of_take. destruct Hr as (i & Hr & _).
    apply list_elem_of_lookup_2, list_elem_of_filter in Hr as [_ Hr]. by eapply subscribed_has_apply. }
  rewrite <- (take_drop batchSize (ahead db rp)) in Hs.
  assert (Hle : rp_cursor rp ≤ rp_cursor rp1).
  { rewrite Hc. destruct (last _) as [l|] eqn:Hl; simpl; [|done].
    apply last_Some in Hl as [k Hk]. assert (Hin : l ∈ ahead db rp).
    { rewrite <- (take_drop batchSize (ahead db rp)), Hk. set_solver. }
    apply list_elem_of_filter in Hin as [Hlt _]. lia. }
  transitivity (filter (λ r, rp_cursor rp1 < row_id r) (ahead db rp)).
  { unfold ahead. rewrite list_filter_filter. apply list_filter_iff. intros r. lia. }
  rewrite <- (take_drop batchSize (ahead db rp)) at 1. apply filter_above.
  - intros x Hx. rewrite Hc. destruct (last _) as [l|] eqn:Hl; simpl.
    + apply last_Some in Hl as [k Hk]. rewrite Hk in Hx, Hs.
      apply elem_of_app in Hx as [Hx|Hx%list_elem_of_singleton]; [|by subst].
      apply StronglySorted_app_1_l in Hs.
      apply (StronglySorted_app_1_elem_of _ _ _ x l) in Hs; [simpl in Hs; lia|done|set_solver].
    + apply last_None in Hl. rewrite Hl in Hx. by apply elem_of_nil in Hx.
  - intros x Hx. rewrite Hc. destruct (last _) as [l|] eqn:Hl; simpl.
    + apply last_Some in Hl as [k Hk]. rewrite Hk in Hs.
      apply (StronglySorted_app_1_elem_of _ _ _ l x) in Hs; set_solver.
    + assert (Hin : x ∈ ahead db rp).
      { rewrite <- (take_drop batchSize (ahead db rp)). set_solver. }
      by apply list_elem_of_filter in Hin as [? _].
Qed.

Definition ends (ph : Phase) (w : RebuildWorld) : Prop :=
  ∃ n, finished (run_alone upcasters ctxDb catalog p meta skipApplyErrors batchSize maxUnlockedBatches
                   fenceLockTimeoutMs n ph w).1 = true.

Lemma ends_now ph w : finished ph = true → ends ph w.
Proof. intros H. by exists 0%nat. Qed.

Lemma ends_next ph w ph' w' : next ph w = (ph', w') → ends ph' w' → ends ph w.
Proof.
  intros Hn [n He]. destruct (finished ph) eqn:Hf; [by apply ends_now|].
  exists (S n). cbn [run_alone]. by rewrite Hf, Hn.
Qed.

Lemma ends_or_fail {A} w (r : result RebuildError A) k ph :
  next ph w = or_fail p w r k → (∀ a, r = Ok a → ends (k a).1 (k a).2) → ends ph w.
Proof.
  intros Hn Hk. destruct r as [a|e]; simpl in Hn.
  - eapply ends_next; [by rewrite Hn, (surjective_pairing (k a))|by apply Hk].
  - eapply ends_next; [exact Hn|by apply ends_now].
Qed.

Lemma ends_swap rp w : ends (PSwap rp) w.
Proof.
  eapply ends_or_fail; [reflexivity|]. intros drift _. simpl.
  destruct (swapShadowIntoLive catalog (rp_shadow rp)); by apply ends_now.
Qed.

(** A full batch leaves less ahead. *)
Lemma full_batch_progress db rp rp' n :
  (0 < batchSize)%nat → ids_ok db →
  drainBatch upcasters ctxDb p skipApplyErrors batchSize db rp = Ok (rp', n) → n = batchSize →
  (length (ahead db rp') < length (ahead db rp))%nat.
Proof.
  intros Hb Hi Hd Hn. destruct (drained_ahead _ _ _ _ Hi Hd) as [Hl ->].
  rewrite length_take in Hl. rewrite length_drop. lia.
Qed.

Lemma ends_replay expected rp w : (0 < batchSize)%nat → ids_ok (rw_db w) → ends (PReplay expected rp) w.
Proof.
  intros Hb Hi. remember (length (ahead (rw_db w) rp)) as m eqn:Hm. revert rp Hm.
  induction m as [m IH] using lt_wf_ind. intros rp Hm.
  eapply (ends_or_fail (A := Replay * nat)); [reflexivity|]. intros [rp1 k] Hd. cbn [fst snd].
  destruct (k =? batchSize)%nat eqn:Hn; simpl.
  - apply Nat.eqb_eq in Hn. eapply IH; [|reflexivity]. rewrite Hm. by eapply full_batch_progress.
  - destruct (_ <? _)%nat; [by apply ends_now|apply ends_swap].
Qed.

Lemma ends_count rp w : (0 < batchSize)%nat → ids_ok (rw_db w) → ends (PCount rp) w.
Proof.
  intros Hb Hi. eapply ends_next; [reflexivity|].
  destruct (_ <? _)%nat; [by apply ends_replay|apply ends_swap].
Qed.

Lemma ends_fenced rp w : (0 < batchSize)%nat → ids_ok (rw_db w) → ends (PFenced rp) w.
Proof.
  intros Hb Hi. remember (length (ahead (rw_db w) rp)) as m eqn:Hm. revert rp Hm.
  induction m as [m IH] using lt_wf_ind. intros rp Hm.
  eapply (ends_or_fail (A := Replay * nat)); [reflexivity|]. intros [rp1 k] Hd. cbn [fst snd].
  destruct (k =? batchSize)%nat eqn:Hn; simpl; [|by apply ends_count].
  apply Nat.eqb_eq in Hn. eapply IH; [|reflexivity]. rewrite Hm. by eapply full_batch_progress.
Qed.

Lemma ends_fence rp w : (0 < batchSize)%nat → ids_ok (rw_db w) → ends (PFence rp) w.
Proof. intros Hb Hi. eapply ends_or_fail; [reflexivity|]. intros [] _. by apply ends_fenced. Qed.

Lemma ends_unlocked n rp w : (0 < batchSize)%nat → ids_ok (rw_db w) → ends (PUnlocked n rp) w.
Proof.
  intros Hb Hi. revert rp. induction n as [|n IH]; intros rp.
  - eapply ends_next; [reflexivity|by apply ends_fence].
  - eapply (ends_or_fail (A := Replay * nat)); [reflexivity|]. intros [rp1 k] _. cbn [fst snd].
    destruct (_ <? _)%nat; [by apply ends_fence|apply IH].
Qed.

(** ** Properties *)

(** C15: a rebuild that commits has replaced the live table by a replay of the log.  Other transactions
    may commit events between its statements, also with ids below its cursor, and archive or restore
    streams.  The committing step finds the guards passed and installs what one pass in id order builds
    from the empty table over committed events of the projection's sources and types, each once; it
    reports their number and the last id and files the quarantined ones.  As long as no archiving or
    restoring during the run changes which committed events count as subscribed, those are all the
    committed subscribed events and none is left out; with archiving, one can be
    (archiving_hides_a_late_event).  Any other step, a failure included, leaves the live table, the log
    and the dead letters as they are. *)
Theorem rebuild_replays_the_log w0 ph w ph' w' :
  ids_ok (rw_db w0) → rtc sys_step (PStart, w0) (ph, w) → next ph w = (ph', w') → finished ph = false →
  match ph' with
  | PDone res =>
      ∃ rp drift seen, ph = PSwap rp ∧
        StronglySorted before seen ∧ (∀ r, r ∈ seen → candidate (rw_db w) r) ∧
        (archiving = false → seen = subscribed_events (rw_db w)) ∧
        drain fresh_replay seen = Ok rp ∧
        guards catalog p meta w rp = Ok drift ∧
        rw_live w' = rp_shadow rp ∧ rw_db w' = rw_db w ∧
        rr_eventsProcessed res = length seen ∧
        rr_lastProcessedEventId res = from_option row_id 0 (last seen) ∧
        rr_eventsSkipped res = length (rp_skipped rp) ∧
        rw_letters w' = rw_letters w ++ (letter_of (rd_name p) <$> rp_skipped rp) ∧
        rw_states w' !! rd_name p = Some (mkState (rr_lastProcessedEventId res) StatusIdle
                                            (Some (db_now (rw_db w))) None (db_now (rw_db w)))
  | _ => rw_live w' = rw_live w ∧ rw_db w' = rw_db w ∧ rw_letters w' = rw_letters w
  end.
Proof.
  intros Hi Hr Hn Hf. destruct (system_ok _ _ Hr Hi I (λ _, I)) as (Hi' & Hseen & Hok). simpl in Hi', Hseen, Hok.
  destruct ph as [|n rp|rp|rp|rp|expected rp|rp|res|e]; try done; cbn [rebuild_next] in Hn.
  all: try (unfold or_fail, fail in Hn; repeat case_match; simplify_eq/=; done).
  unfold or_fail in Hn. destruct (guards catalog p meta w rp) as [drift|] eqn:Hg; [|by injection Hn as <- <-].
  unfold swapShadowIntoLive in Hn. destruct (ct_columns catalog); [|by injection Hn as <- <-].
  injection Hn as <- <-. cbn [phase_ok phase_seen] in Hok, Hseen.
  assert (∃ seen, StronglySorted before seen ∧ (∀ r, r ∈ seen → candidate (rw_db w) r) ∧
            (archiving = false → seen = subscribed_events (rw_db w)) ∧ drain fresh_replay seen = Ok rp)
    as (seen & Hs & Hin & Hall & Hd).
  { destruct archiving; [destruct Hseen as (seen & ? & ? & ?); by exists seen|].
    exists (subscribed_events (rw_db w)).
    split_and!; [by apply subscribed_sorted|apply subscribed_candidate|done|by apply Hok]. }
  destruct (drain_counts fresh_replay seen rp) as [Hp Hc]; [intros r Hr'; by eapply candidate_has_apply, Hin|done|].
  exists rp, drift, seen. cbn [rr_eventsProcessed rr_lastProcessedEventId rr_eventsSkipped]. split_and!; try done.
  - simpl. destruct (rp_skipped rp); [by rewrite app_nil_r|done].
  - simpl. unfold finalizeProjectionRebuild, markProjectionRebuilding.
    by rewrite !lookup_insert_eq.
Qed.

(** C28: a rebuild ends: from any phase over a log with distinct positive ids the machine, run to itself,
    reaches success or failure, also when every batch before the fence was full. *)
Theorem rebuild_terminates ph w :
  (0 < batchSize)%nat → ids_ok (rw_db w) →
  ∃ n, finished (run_alone upcasters ctxDb catalog p meta skipApplyErrors batchSize maxUnlockedBatches
                   fenceLockTimeoutMs n ph w).1 = true.
Proof.
  intros Hb Hi. change (ends ph w). destruct ph as [|n rp|rp|rp|rp|expected rp|rp|res|e].
  - eapply ends_or_fail; [reflexivity|]. intros [] _.
    destruct (assertLiveColumnsMatchMeta catalog meta); simpl; [|by apply ends_now].
    destruct (subscribedList p); [apply ends_swap|by apply ends_unlocked].
  - by apply ends_unlocked.
  - by apply ends_fence.
  - by apply ends_fenced.
  - by apply ends_count.
  - by apply ends_replay.
  - apply ends_swap.
  - by apply ends_now.
  - by apply ends_now.
Qed.
End system.

(** ** Entity tables

    The implicit projection of an entity replays the events of the entity's own
    streams with the function that applied them live. *)

Section entity.
Context (t : EntityTable) (violates : gmap string (gmap string Json) → string → gmap string Json → bool)
  (crypto : Crypto) (keys : Keys) (messageOf : ApplyError → string)
  {D : Type} (ctxDb : D) (skipApplyErrors : bool).

Notation handler := (implicit_apply t violates crypto keys messageOf).
Notation applies rows events := (apply_events t violates crypto keys rows events).

(** A projection with the keys and sources of the implicit one. *)
Record implicit_for (p : RebuildDefinition) : Prop := {
  if_sources : sourcesList p = [et_entityName t];
  if_apply : rd_apply p = (λ v, (entityEventName (et_entityName t) v, handler)) <$> lifecycle_verbs t }.

Lemma built_without_extensions feature meta p :
  buildImplicitProjection t violates crypto keys messageOf feature meta [] = Ok p →
  implicit_for p.
Proof.
  unfold buildImplicitProjection. destruct (qualifyEntityName _ _ _) as [name|]; [|done].
  intros [= <-]. by split.
Qed.

Lemma lifecycle_has_apply p r v :
  implicit_for p → row_aggregateType r = et_entityName t →
  row_type r = entityEventName (et_entityName t) v → v ∈ lifecycle_verbs t →
  row_type r ∈ subscribedList p ∧ assoc_get (row_type r) (rd_apply p) = Some handler.
Proof.
  intros [_ Ha] _ Hty Hv. unfold subscribedList. rewrite Ha, Hty.
  assert (Hin : entityEventName (et_entityName t) v ∈ ((λ v, (entityEventName (et_entityName t) v, handler)) <$> lifecycle_verbs t).*1).
  { apply list_elem_of_fmap. exists (entityEventName (et_entityName t) v, handler).
    split; [done|]. apply list_elem_of_fmap. by exists v. }
  split; [done|].
  destruct (assoc_get _ _) as [fn|] eqn:Hg; [|by apply assoc_get_None in Hg].
  apply assoc_get_elem_of, list_elem_of_fmap in Hg as (v' & [= _ ->] & _). done.
Qed.

Lemma subscribed_is_lifecycle p r :
  implicit_for p → row_type r ∈ subscribedList p →
  ∃ v, row_type r = entityEventName (et_entityName t) v ∧ v ∈ lifecycle_verbs t.
Proof.
  intros [_ Ha] Hin. unfold subscribedList in Hin. rewrite Ha in Hin.
  apply list_elem_of_fmap in Hin as ([k fn] & Hk & Hin). apply list_elem_of_fmap in Hin as (v & [= -> ->] & Hv).
  by exists v.
Qed.

(** An event of the entity's streams that the projection does not subscribe to is one the live path skips. *)
Lemma unsubscribed_is_skipped p r rows :
  implicit_for p → row_aggregateType r = et_entityName t → row_type r ∉ subscribedList p →
  applyEntityEvent t violates crypto keys rows (toStoredEvent r) = Ok (SkippedEvent, rows).
Proof.
  intros Hp Hat Hn. unfold applyEntityEvent.
  destruct (parseAutoVerb (toStoredEvent r)) as [v|] eqn:Hv; [|done].
  apply parsed_type in Hv. simpl in Hv. rewrite Hat in Hv.
  assert (Hout : v ∉ lifecycle_verbs t).
  { intros Hin. by destruct (lifecycle_has_apply p r v Hp Hat Hv Hin). }
  unfold lifecycle_verbs in Hout. destruct v; try (exfalso; apply Hout; clear; set_solver).
  destruct (et_softDelete t); [exfalso; apply Hout; clear; set_solver|done].
Qed.

Lemma drain_replays p db events rp rows' :
  implicit_for p → (∀ r, r ∈ events → not_archived db r) →
  applies (rp_shadow rp) (toStoredEvent <$> filter (λ r, row_aggregateType r = et_entityName t) events) = Ok rows' →
  ∃ rp', drain_rows (D := D) ∅ ctxDb p skipApplyErrors rp
           (filter (subscribed_row db (sourcesList p) (subscribedList p)) events) = Ok rp' ∧
         rp_shadow rp' = rows' ∧ rp_skipped rp' = rp_skipped rp.
Proof.
  intros Hp. revert rp. induction events as [|r events IH]; intros rp Hna Happ.
  { exists rp. injection Happ as <-. by split_and!. }
  rewrite filter_cons in Happ. rewrite filter_cons. destruct (decide (row_aggregateType r = et_entityName t)) as [Hat|Hat].
  - cbn [fmap list_fmap apply_events] in Happ. apply result_bind_Ok in Happ as ([res rows1] & H1 & Happ).
    destruct (decide (row_type r ∈ subscribedList p)) as [Hin|Hnin].
    + rewrite decide_True.
      2:{ split_and!; [rewrite (if_sources p Hp), Hat; set_solver|done|apply Hna; by left]. }
      destruct (subscribed_is_lifecycle p r Hp Hin) as (v & Hv & Hvin).
      destruct (lifecycle_has_apply p r v Hp Hat Hv Hvin) as [_ Hfn].
      cbn [drain_rows]. unfold drain_row at 1, upcast_row, upcastStoredEvent, upcastStoredEventWithPolicy.
      rewrite lookup_empty. cbn [result_bind]. rewrite Hfn. unfold implicit_apply at 1. rewrite H1. cbn [result_bind fst snd].
      destruct (IH (mkReplay rows1 (row_id r) (S (rp_processed rp)) (rp_skipped rp))) as (rp' & Hd & Hs & Hk);
        [intros s Hs; apply Hna; by right|done|]. by exists rp'.
    + rewrite decide_False by (intros (_ & Hin & _); done).
      rewrite (unsubscribed_is_skipped p r _ Hp Hat Hnin) in H1. injection H1 as _ <-.
      apply IH; [intros s Hs; apply Hna; by right|done].
  - rewrite decide_False; [apply IH; [intros s Hs; apply Hna; by right|done]|].
    intros (Hin & _ & _). rewrite (if_sources p Hp) in Hin. set_solver.
Qed.
End entity.

(** C27: an entity table is its own rebuild, up to erased subjects.  After any commands through the
    executor (one at a time, domain events not named like verbs of the entity), the rebuild of the
    entity's implicit projection, without extensions, upcasters or archived streams, under the keys of
    its own moment: each key of an earlier moment is still there or its subject was erased since.
    The replay of the log goes through, quarantines nothing, and yields the live table, except that
    blind indexes and file references which some event brought sealed for an erased subject may be NULL.
    If no subject was erased it is exactly the live table, and no column drifts.  Unique indexes take
    NULLs for distinct, and the primary key is no file reference. *)
Theorem entity_table_equals_its_rebuild {V W D : Type} entity violates crypto
    (registry : option (AppendCore.Registry V W)) isRowReadable (cs : list Command) (w : World W) history
    (erased : SubjectId → Prop) (later : Keys) (ctxDb : D) feature meta messageOf p skipApplyErrors m :
  let t := en_table entity in
  Forall (ordinary entity) cs → implements entity violates crypto w history →
  Forall (λ c, keys_age erased (cmd_keys c) later) cs → Forall (λ ke, keys_age erased ke.1 later) history →
  nulls_distinct violates → NoDup (et_fields t) → "id" ∉ collectPiiFileReferenceFields t →
  et_entityName t = en_name entity →
  buildImplicitProjection t violates crypto later messageOf feature meta [] = Ok p →
  let w' := (run_commands entity violates crypto registry isRowReadable cs w).2 in
  db_archived (w_db w') = ∅ →
  ∃ rp, drain_rows ∅ ctxDb p skipApplyErrors fresh_replay (subscribed_events p (w_db w')) = Ok rp ∧
        rp_skipped rp = [] ∧
        rows_faded (column_of_erased t erased (entity_history entity w')) (w_rows w') (rp_shadow rp) ∧
        ((∀ s, ¬ erased s) → rp_shadow rp = w_rows w' ∧
                             countColumnDrift m (w_rows w') (rp_shadow rp) = mkDrift 0 []).
Proof.
  intros t Hcs Hi Hkc Hkh Hv Hnd Hid Hname Hb w' Harch.
  destruct (run_implements entity violates crypto registry isRowReadable (λ k, keys_age erased k later) cs w history
    Hcs Hi Hkc Hkh) as (h & [Hl Hh Ht] & Hkeys). fold w' in Hl, Hh, Ht.
  pose proof (built_without_extensions _ _ _ _ _ _ _ _ Hb) as Hp.
  assert (Hsub : subscribed_events p (w_db w') = filter (subscribed_row (w_db w') (sourcesList p) (subscribedList p)) (db_events (w_db w'))).
  { apply sort_by_id, strongly_sorted_filter, (ok_ids _ Hl). }
  destruct (history_ages t violates crypto erased later h (w_rows w') Hv Hnd Hid Hkeys Ht) as (rows' & Ha & Hf).
  rewrite <- Hh in Ha, Hf. rewrite Hsub. unfold entity_history in Ha. rewrite <- Hname in Ha.
  destruct (drain_replays t violates crypto later messageOf ctxDb skipApplyErrors p (w_db w')
    (db_events (w_db w')) fresh_replay rows' Hp) as (rp & Hd & Hs & Hk).
  - intros r _. unfold not_archived, isStreamArchived. rewrite Harch. done.
  - exact Ha.
  - exists rp. rewrite Hs. split_and!; [exact Hd|exact Hk|exact Hf|]. intros Hno.
    enough (rows' = w_rows w') as -> by (split; [done|apply drift_of_equal_tables]).
    eapply rows_faded_eq; [|exact Hf]. intros c (e & f & v & s & _ & _ & _ & He & _). by apply (Hno s).
Qed.

(** ** Concrete rebuilds *)

(** One row per aggregate with the version of its last event; an event of
    version zero is refused. *)
Definition latest (event : StoredEvent) (rows : gmap string (gmap string Json))
    : result string (gmap string (gmap string Json)) :=
  if se_version event =? 0 then Err "version zero"
  else Ok (<[se_aggregateId event := {["version" := JNum (se_version event)]}]> rows).

Definition latest_meta : EntityTableMeta := mkMeta "read_latest" [mkColumn "id" "uuid" true] None [] None.

Definition latest_projection : RebuildDefinition :=
  mkRebuildDef "shop:projection:latest" (Some latest_meta) ["order"] [] [] [("order.placed", latest)] false.

Definition plain_catalog : Catalog := mkCatalog (Some ["id"]) None true false.

Definition order_row (id : Z) (aggregate : string) : StoredEventRow :=
  mkRow id aggregate "order" "acme" 1 "order.placed" 1 [] (mkMetadata "u" None None None None None None None None) 0 "u".

Definition log_of (rows : list StoredEventRow) : EventsDb := with_events emptyDb rows 10.

Definition rebuild_world (rows : list StoredEventRow) : RebuildWorld := mkRebuildWorld (log_of rows) ∅ ∅ [].

Notation latest_next := (rebuild_next (D := ()) ∅ () plain_catalog latest_projection latest_meta false 2 5 5000) (only parsing).
Notation latest_step := (sys_step (D := ()) ∅ () plain_catalog latest_projection latest_meta false 2 5 5000 false) (only parsing).

(** A schedule: [None] is the next statement of the rebuild, [Some] a commit. *)
Fixpoint follow (schedule : list (option (list StoredEventRow))) (s : Phase * RebuildWorld)
    : option (Phase * RebuildWorld) :=
  match schedule with
  | [] => Some s
  | None :: rest => follow rest (latest_next s.1 s.2)
  | Some rows :: rest =>
      let w := commit_rows s.2 rows 10 (rw_live s.2) in
      if negb (fenced s.1) && bool_decide (NoDup (row_id <$> db_events (rw_db w)))
         && forallb (λ r, 0 <? row_id r) (db_events (rw_db w))
      then follow rest (s.1, w) else None
  end.

Lemma follow_runs schedule s s' : follow schedule s = Some s' → rtc latest_step s s'.
Proof.
  revert s. induction schedule as [|[rows|] schedule IH]; intros [ph w] H; cbn [follow] in H.
  - injection H as <-. constructor.
  - destruct (negb _ && _ && _) eqn:Hc in H; [|done]. apply andb_prop in Hc as [[Hf Hn]%andb_prop Hp].
    apply bool_decide_eq_true in Hn. apply negb_true_iff in Hf.
    eapply rtc_l; [|by apply IH]. apply sys_commit.
    + split; [done|]. rewrite forallb_forall in Hp. apply Forall_forall. intros r Hr.
      apply Z.ltb_lt, Hp, list_elem_of_In, Hr.
    + intros Hx. cbn [fst] in *. by rewrite Hf in Hx.
  - eapply rtc_l; [apply sys_rebuild|by apply IH].
Qed.

(** Event 2 commits after the unlocked drain has passed it: the count finds the
    shortfall and the replay starts over. *)
Definition late_event : list (option (list StoredEventRow)) :=
  [None; None; None; Some [order_row 2 "b"]; None; None; None; None; None].

Definition late_start : RebuildWorld := rebuild_world [order_row 1 "a"; order_row 3 "c"].

Definition swap_state : Phase * RebuildWorld :=
  default (PStart, rebuild_world []) (follow late_event (PStart, late_start)).

Lemma rtc_pair {A B} (R : A * B → A * B → Prop) x s : rtc R x s → rtc R x (s.1, s.2).
Proof. by destruct s. Qed.

Lemma swap_state_reached : follow late_event (PStart, late_start) = Some swap_state.
Proof.
  assert (Hs : match follow late_event (PStart, late_start) with Some _ => true | None => false end = true)
    by (vm_compute; reflexivity).
  unfold swap_state. destruct (follow late_event (PStart, late_start)); [done|discriminate Hs].
Qed.

Lemma rebuild_ids_ok rows :
  bool_decide (NoDup (row_id <$> rows)) && forallb (λ r, 0 <? row_id r) rows = true → ids_ok (log_of rows).
Proof.
  intros [Hn Hp]%andb_prop. apply bool_decide_eq_true in Hn. split; [done|].
  rewrite forallb_forall in Hp. apply Forall_forall. intros r Hr. apply Z.ltb_lt, Hp, list_elem_of_In, Hr.
Qed.

(** What a step answers, as a test. *)
Definition swapped (s : Phase * RebuildWorld) : bool :=
  match s.1 with
  | PDone res => (rr_eventsProcessed res =? 3)%nat && (rr_lastProcessedEventId res =? 3)
  | _ => false
  end.

Lemma swap_pending : finished swap_state.1 = false.
Proof. vm_compute. reflexivity. Qed.

Lemma swap_succeeds :
  ∃ res w', latest_next swap_state.1 swap_state.2 = (PDone res, w') ∧ rr_eventsProcessed res = 3%nat.
Proof.
  assert (Hs : swapped (latest_next swap_state.1 swap_state.2) = true) by (vm_compute; reflexivity).
  destruct (latest_next _ _) as [[| | | | | | |res|] w']; try discriminate Hs.
  exists res, w'. split; [done|]. by apply andb_prop in Hs as [H3%Nat.eqb_eq _].
Qed.

Lemma swap_reached :
  rtc latest_step (PStart, late_start) (swap_state.1, swap_state.2).
Proof. apply rtc_pair, (follow_runs late_event). exact swap_state_reached. Qed.

Lemma rebuild_replays_the_log_witness :
  ∃ res w' rp, latest_next swap_state.1 swap_state.2 = (PDone res, w') ∧ rr_eventsProcessed res = 3%nat ∧
    swap_state.1 = PSwap rp ∧ rw_live w' = rp_shadow rp.
Proof.
  destruct swap_succeeds as (res & w' & Hn & H3).
  destruct (rebuild_replays_the_log (D := ()) ∅ () plain_catalog latest_projection latest_meta false 2 5 5000 false
    late_start swap_state.1 swap_state.2 (PDone res) w'
    (rebuild_ids_ok [order_row 1 "a"; order_row 3 "c"] eq_refl) swap_reached Hn swap_pending)
    as (rp & drift & seen & Hph & _ & _ & _ & _ & _ & Hlive & _).
  exists res, w', rp. split; [exact Hn|]. split; [exact H3|]. split; [exact Hph|exact Hlive].
Defined.

Lemma rebuild_terminates_witness :
  ∃ n, finished (run_alone (D := ()) ∅ () plain_catalog latest_projection latest_meta false 2 5 5000 n PStart
                   (rebuild_world [order_row 3 "c"; order_row 1 "a"])).1 = true.
Proof.
  exact (rebuild_terminates (D := ()) ∅ () plain_catalog latest_projection latest_meta false 2 5 5000 PStart
    (rebuild_world [order_row 3 "c"; order_row 1 "a"]) (le_S _ _ (le_n 1))
    (rebuild_ids_ok [order_row 3 "c"; order_row 1 "a"] eq_refl)).
Defined.

(** The count compares numbers, not events.  Between the unlocked drain and the
    fence one stream is archived, whose event is already in the shadow, and a
    lower id commits: the numbers agree, and the swap installs the archived row
    without the committed one. *)
Definition archived_and_late : Phase * RebuildWorld :=
  match follow [None; None; None] (PStart, rebuild_world [order_row 1 "a"; order_row 3 "c"]) with
  | Some (ph, w) =>
      let db := archiveStream (rw_db w) "acme" "a" "order" "ops" None in
      let w' := mkRebuildWorld (with_events db (db_events db ++ [order_row 2 "b"]) 10) (rw_live w) (rw_states w) [] in
      default (ph, w') (follow [None; None; None; None] (ph, w'))
  | None => (PStart, rebuild_world [])
  end.

Lemma archiving_hides_a_late_event :
  swapped archived_and_late = false ∧ finished archived_and_late.1 = true ∧
  (row_id <$> subscribed_events latest_projection (rw_db archived_and_late.2)) = [2; 3] ∧
  bool_decide ((map_to_list (rw_live archived_and_late.2)).*1 ≡ₚ ["a"; "c"]) = true.
Proof. split_and!; vm_compute; reflexivity. Qed.

(** A unique index on one column, which takes NULLs for distinct. *)
Definition unique_index (column : string) (rows : gmap string (gmap string Json)) (id : string)
    (row : gmap string Json) : bool :=
  match row !! column with
  | Some (JStr v) => existsb (λ kv, bool_decide (kv.2 !! column = Some (JStr v))) (map_to_list rows)
  | _ => false
  end.

Lemma unique_index_nulls column : nulls_distinct (unique_index column).
Proof.
  intros gone rows rows' id row row' Hr Hf. unfold unique_index. intros Hno.
  destruct (row' !! column) as [[| | |v| |]|] eqn:Hv; try done.
  destruct (Hf column) as [Heq|(_ & _ & Hnull)]; [|by rewrite Hv in Hnull].
  rewrite <- Heq, Hv in Hno. apply not_true_is_false. intros [[i r'] [Hin Hr']]%existsb_exists.
  apply bool_decide_eq_true in Hr'. simpl in Hr'.
  apply list_elem_of_In, elem_of_map_to_list in Hin. pose proof (Hr i) as Hi. rewrite Hin in Hi.
  inversion Hi as [r ? Hfr Hri|]; subst.
  assert (existsb (λ kv, bool_decide (kv.2 !! column = Some (JStr v))) (map_to_list rows) = true) as Hyes; [|congruence].
  apply existsb_exists. exists (i, r). split; [by apply list_elem_of_In, elem_of_map_to_list|].
  apply bool_decide_eq_true. simpl.
  destruct (Hfr column) as [<-|(_ & _ & Hnull)]; [done|congruence].
Qed.

Definition task_message (e : ApplyError) : string := "apply".

(** The store after the erasure of ann. *)
Definition keys_without_ann : Keys :=
  mkKeys (Some "index")
    (Some (λ s, if bool_decide (subjectIdToKey s = Some "user:ann") then DekErased
                else DekLive "0123456789abcdef0123456789abcdef")).

Definition is_ann (s : SubjectId) : Prop := subjectIdToKey s = Some "user:ann".

Lemma ann_was_erased : keys_age is_ann live_keys keys_without_ann.
Proof.
  split; [reflexivity|]. intros s. simpl. unfold is_ann. case_bool_decide; [right; by split|by left].
Qed.

Definition task_built : result ExtensionError RebuildDefinition :=
  buildImplicitProjection task_table (unique_index "emailBidx") open_crypto keys_without_ann task_message "shop" None [].

Definition task_projection : RebuildDefinition :=
  match task_built with Ok p => p | Err _ => latest_projection end.

Lemma task_projection_built : task_built = Ok task_projection.
Proof.
  unfold task_projection. destruct task_built eqn:H; [done|]. exfalso.
  assert (Hs : is_ok task_built = true) by (vm_compute; reflexivity). by rewrite H in Hs.
Qed.

Notation tasks_world := (run_commands (V := ()) task (unique_index "emailBidx") open_crypto None (λ _ _ _, true)
  (take 7 task_commands) fresh_world).2 (only parsing).

Lemma tasks_ordinary : Forall (ordinary task) (take 7 task_commands).
Proof. apply Forall_take. repeat constructor. Qed.

Lemma tasks_aged : Forall (λ c, keys_age is_ann (cmd_keys c) keys_without_ann) (take 7 task_commands).
Proof. apply Forall_take. repeat (constructor; [exact ann_was_erased|]). constructor. Qed.

Definition email_index (rows : gmap string (gmap string Json)) : option Json := rows !! "t1" ≫= λ row, row !! "emailBidx".

Lemma tasks_unarchived : db_archived (w_db tasks_world) = ∅.
Proof.
  apply map_to_list_empty_iff.
  assert (H : match map_to_list (db_archived (w_db tasks_world)) with [] => true | _ => false end = true)
    by (vm_compute; reflexivity).
  by destruct (map_to_list _).
Qed.

Lemma task_fields_distinct : NoDup (et_fields (en_table task)).
Proof. apply (bool_decide_unpack _). vm_compute. exact I. Qed.

Lemma task_id_is_no_file : "id" ∉ collectPiiFileReferenceFields (en_table task).
Proof. apply (bool_decide_unpack _). vm_compute. exact I. Qed.

(** The rebuild after the erasure: the live index of the address is gone. *)
Definition rebuilt_tasks : result RebuildError Replay :=
  drain_rows (D := ()) ∅ () task_projection false fresh_replay (subscribed_events task_projection (w_db tasks_world)).

Definition live_email_index : Json := JStr "kumiko-bidx:v1:indexmail".

Lemma live_index : email_index (w_rows tasks_world) = Some live_email_index.
Proof. vm_compute. reflexivity. Qed.

Lemma rebuilt_index_is_null :
  match rebuilt_tasks with Ok rp => email_index (rp_shadow rp) | Err _ => None end = Some JNull.
Proof. vm_compute. reflexivity. Qed.

Lemma rebuilt_email_index rp : rebuilt_tasks = Ok rp → email_index (rp_shadow rp) = Some JNull.
Proof. intros H. pose proof rebuilt_index_is_null as Hn. rewrite H in Hn. exact Hn. Qed.

Lemma entity_table_equals_its_rebuild_witness :
  email_index (w_rows tasks_world) = Some live_email_index ∧
  ∃ rp, rebuilt_tasks = Ok rp ∧ rp_skipped rp = [] ∧ email_index (rp_shadow rp) = Some JNull ∧
        rows_faded (column_of_erased task_table is_ann (entity_history task tasks_world)) (w_rows tasks_world) (rp_shadow rp).
Proof.
  split; [exact live_index|].
  destruct (entity_table_equals_its_rebuild (V := ()) task (unique_index "emailBidx") open_crypto None (λ _ _ _, true)
    (take 7 task_commands) fresh_world [] is_ann keys_without_ann () "shop" None task_message task_projection
    false latest_meta tasks_ordinary (fresh_world_implements _) tasks_aged (Forall_nil_2 _)
    (unique_index_nulls "emailBidx") task_fields_distinct task_id_is_no_file eq_refl task_projection_built
    tasks_unarchived) as (rp & Hd & Hs & Hf & _).
  exists rp. split; [exact Hd|]. split; [exact Hs|]. split; [exact (rebuilt_email_index rp Hd)|exact Hf].
Defined.
