(* ===== verification/MspRebuild.v ===== *)
(** * Rebuilding a multi-stream projection

    [pipeline/msp-rebuild.ts]: the replay of a multi-stream projection into a
    shadow table and the hand-over to its live consumer.  The row lock of the
    transaction makes the consumer's row its own; what its three reading
    statements see of the log is the record [MspObservation].  The lemmas join
    the rebuild to the interleavings of [DispatcherSafety]. *)

From S2P Require Import Prelude GapRanges EventLog EventStore ConsumerState Dispatcher DispatcherSafety.
From S2P Require Import TableInfo EntityApply Upcaster ShadowSwap ProjectionRebuild RebuildProofs Delivery.

Open Scope Z_scope.

(** ** Data *)

Record RebuildCtx := mkRebuildCtx {
  rc_appendEvent : string → result string ();
  rc_loadAggregate : string → option Z → result string (list StoredEvent) }.

Record MspErrorMode := mkErrorMode {
  em_continuous : option (option bool);
  em_rebuild : option (option bool) }.

(** [md_table] is [None] for a projection without a table. *)
Record MspDefinition := mkMsp {
  md_name : string;
  md_table : option (option EntityTableMeta);
  md_apply : list (string * (StoredEvent → RebuildCtx → gmap string (gmap string Json) →
                             result string (gmap string (gmap string Json))));
  md_errorMode : option MspErrorMode }.

(** The snapshot and rows of the horizon statement, the database of the replay
    and the xmax read after it. *)
Record MspObservation := mkMspObs {
  mo_snap : PgSnapshot;
  mo_events : list StoredEventRow;
  mo_db : EventsDb;
  mo_xmax : Z }.

Record MspWorld := mkMspWorld {
  mw_consumers : gmap (string * string) ConsumerStateRow;
  mw_live : gmap string (gmap string Json);
  mw_letters : list RebuildDeadLetterRow }.

(** ** The replay *)

(** [(errorMode?.rebuild ?? errorMode?.continuous)?.skipApplyErrors === true] *)
Definition msp_skips (msp : MspDefinition) : bool :=
  match md_errorMode msp with
  | None => false
  | Some m => match em_rebuild m with
              | Some policy => default false policy
              | None => default false (default None (em_continuous m))
              end
  end.

Section msp.
Context {D : Type} (upcasters : gmap string (EventUpcaster D)) (ctxDb : D) (catalog : Catalog)
  (messageOf : RebuildError → string) (loadMessage : LoadError → string) (upcastMessage : UpcastError → string).

Fixpoint upcast_all (tenantId : string) (events : list StoredEvent) : result string (list StoredEvent) :=
  match events with
  | [] => Ok []
  | e :: rest =>
      match upcastStoredEvent e upcasters (makeUpcastCtx ctxDb tenantId) with
      | Some (Ok e') => let? rest' := upcast_all tenantId rest in Ok (e' :: rest')
      | Some (Err err) => Err (upcastMessage err)
      | None => Err ""
      end
  end.

Definition createRebuildCtx (db : EventsDb) (tenantId : string) : RebuildCtx :=
  mkRebuildCtx (λ type, Err ("rebuildMultiStreamProjection: ctx.appendEvent(" +:+ type +:+ ") is not supported"))
    (λ aggregateId asOf,
       match asOf with
       | Some t => upcast_all tenantId (loadAggregateAsOf db aggregateId tenantId t false)
       | None => match loadAggregate db aggregateId tenantId noOptions with
                 | Ok events => upcast_all tenantId events
                 | Err e => Err (loadMessage e)
                 end
       end).

(** The projection with its context supplied: the loop over its events is the
    one of a single-stream rebuild. *)
Definition with_ctx (msp : MspDefinition) (db : EventsDb) : RebuildDefinition :=
  mkRebuildDef (md_name msp) (default None (md_table msp)) [] [] []
    ((λ kf, (kf.1, λ event rows, kf.2 event (createRebuildCtx db (se_tenantId event)) rows)) <$> md_apply msp) false.

Definition subscribedTypes (msp : MspDefinition) : list string := (md_apply msp).*1.

(** Events past the horizon are the live dispatcher's. *)
Definition msp_events (msp : MspDefinition) (evs : list StoredEventRow) (horizon : Z) : list StoredEventRow :=
  match subscribedTypes msp with
  | [] => []
  | types => sort_by row_id (filter (λ r, row_type r ∈ types ∧ row_id r ≤ horizon) evs)
  end.

Definition msp_replay (msp : MspDefinition) (db : EventsDb) (horizon : Z) : result RebuildError Replay :=
  drain_rows upcasters ctxDb (with_ctx msp db) (msp_skips msp) fresh_replay (msp_events msp (db_events db) horizon).

(** The gaps the consumer watches from here on. *)
Definition msp_pending_gaps (seeded : list PendingGapEntry) (replayedIds : list Z) (cursor xmax : Z)
    : list PendingGapEntry :=
  let surviving := subtractSortedIdsFromRanges seeded replayedIds in
  let capped := capPendingGapsBelowCursor surviving cursor in
  mergeContiguousGapRanges
    (match capped with
     | [] => capped
     | _ => (λ g, mkGap (gap_from g) (gap_to g) xmax) <$> capped
     end).

Definition msp_key (msp : MspDefinition) : string * string := (md_name msp, SHARED_INSTANCE_SENTINEL).

Definition msp_tx (now : Z) (msp : MspDefinition) (meta : EntityTableMeta) (obs : MspObservation) (w : MspWorld)
    : result RebuildError (RebuildResult * MspWorld) :=
  let? _ := assertRebuildableRowLevelSecurity catalog meta in
  let cs := resetConsumerForMspRebuild now (mw_consumers w) (msp_key msp) in
  let '(horizon, seeded) := selectEventIdHorizonWithMissingRanges (mo_snap obs) (mo_events obs) cs in
  let? _ := assertLiveColumnsMatchMeta catalog meta in
  let? rp := msp_replay msp (mo_db obs) horizon in
  let replayedIds := row_id <$> msp_events msp (db_events (mo_db obs)) horizon in
  let pending := msp_pending_gaps seeded replayedIds (rp_cursor rp) (mo_xmax obs) in
  let cs' := updateConsumerRebuildCursor now cs (msp_key msp) (rp_cursor rp) pending in
  let? live := swapShadowIntoLive catalog (rp_shadow rp) in
  Ok (mkRebuildResult (md_name msp) (rp_processed rp) (length (rp_skipped rp)) (rp_cursor rp) 0,
      mkMspWorld cs' live (match rp_skipped rp with
                           | [] => mw_letters w
                           | skipped => recordRebuildDeadLetters (mw_letters w) (md_name msp) skipped
                           end)).

(** [markDeadOnFailure] defaults to true. *)
Definition rebuildMultiStreamProjection (now : Z) (msps : list (string * MspDefinition)) (mspName : string)
    (markDeadOnFailure : option bool) (obs : MspObservation) (w : MspWorld)
    : result RebuildError RebuildResult * MspWorld :=
  match assoc_get mspName msps with
  | None => (Err (NotRegistered mspName), w)
  | Some msp =>
      match md_table msp with
      | None => (Err (NoBackingTable mspName), w)
      | Some table =>
          match rebuildMetaOrThrow table mspName with
          | Err e => (Err e, w)
          | Ok meta =>
              match msp_tx now msp meta obs w with
              | Ok (res, w') => (Ok res, w')
              | Err e =>
                  (Err e,
                   if default true markDeadOnFailure
                   then mkMspWorld (markConsumerRebuildFailed now (mw_consumers w) (msp_key msp) (messageOf e))
                          (mw_live w) (mw_letters w)
                   else w)
              end
          end
      end
  end.
End msp.

(** ** Gaps of the horizon statement *)

Lemma window_gaps_spec xmax prev ids :
  StronglySorted Z.lt ids → (∀ i, i ∈ ids → prev < i) →
  (∀ i, watched (window_gaps xmax prev ids) i ↔ prev < i ∧ i ∉ ids ∧ ∃ j, j ∈ ids ∧ i < j) ∧
  Forall gap_ok (window_gaps xmax prev ids) ∧ ascending (window_gaps xmax prev ids).
Proof.
  intros Hs. revert prev. induction Hs as [|j ids Hs IH Hf]; intros prev Hp; cbn [window_gaps].
  { split_and!; [|constructor|constructor]. intros i. rewrite watched_nil. set_solver. }
  rewrite Forall_forall in Hf. specialize (Hp j ltac:(left)) as Hj.
  destruct (IH j Hf) as (Hw & Hok & Ha).
  assert (Hbelow : ∀ h, h ∈ window_gaps xmax j ids → j < gap_from h).
  { intros h Hh. rewrite Forall_forall in Hok. specialize (Hok h Hh). unfold gap_ok in Hok.
    assert (Hwh : watched (window_gaps xmax j ids) (gap_from h)) by (exists h; unfold in_gap; split; [done|lia]).
    apply Hw in Hwh. lia. }
  assert (Hrest : ∀ i, j < i → (watched (window_gaps xmax j ids) i ↔ prev < i ∧ i ∉ j :: ids ∧ ∃ k, k ∈ j :: ids ∧ i < k)).
  { intros i Hi. rewrite Hw. split.
    - intros (_ & Hn & k & Hk & Hlt). split_and!; [lia| |exists k; set_solver].
      intros [->|?]%elem_of_cons; [lia|done].
    - intros (_ & Hn & k & [->|Hk]%elem_of_cons & Hlt); [lia|]. split_and!; [done|set_solver|by exists k]. }
  destruct (prev + 1 <? j) eqn:Hgap; reflect_bools.
  - split_and!.
    + intros i. rewrite watched_cons. unfold in_gap at 1. cbn [gap_from gap_to].
      destruct (Z_lt_le_dec j i) as [Hlt|Hle].
      * rewrite Hrest by done. split; [intros [?|?]; [lia|done]|by right].
      * split.
        -- intros [Hin|Hwi]; [|apply Hw in Hwi; lia]. split_and!; [lia| |exists j; split; [left|lia]].
           intros [->|Hi]%elem_of_cons; [lia|]. specialize (Hf i Hi). lia.
        -- intros (Hlt & Hn & _). left. assert (i ≠ j) by (intros ->; apply Hn; left). lia.
    + constructor; [unfold gap_ok; simpl; lia|done].
    + constructor; [done|]. apply Forall_forall. intros h Hh. cbn [gap_to]. specialize (Hbelow h Hh). lia.
  - split_and!; [|done|done]. intros i. destruct (Z_lt_le_dec j i) as [Hlt|Hle]; [by apply Hrest|].
    rewrite Hw. split; [lia|]. intros (Hlt & Hn & _). exfalso. apply Hn. assert (i = j) as -> by lia. left.
Qed.

(** What the horizon statement must find in the row it takes over: a well-formed
    list that watches every uncommitted id at or below its cursor. *)
Record takes_over (wd : World) (cs : gmap (string * string) ConsumerStateRow) : Prop := {
  to_gaps : gaps_ok (from_option cs_lastProcessedEventId 0 (highest_consumer cs))
              (from_option cs_pendingGaps [] (highest_consumer cs));
  to_watched : ∀ x i, holds wd x i → i ≤ from_option cs_lastProcessedEventId 0 (highest_consumer cs) →
    watched (from_option cs_pendingGaps [] (highest_consumer cs)) i }.

Lemma horizon_max evs i : i ∈ row_id <$> evs → i ≤ foldr (λ r acc, Z.max (row_id r) acc) 0 evs.
Proof. induction evs as [|r evs IH]; [set_solver|]. cbn [fmap list_fmap foldr]. intros [->|Hi]%elem_of_cons; [lia|]. specialize (IH Hi). lia. Qed.

Lemma horizon_reached evs : 0 < foldr (λ r acc, Z.max (row_id r) acc) 0 evs →
  foldr (λ r acc, Z.max (row_id r) acc) 0 evs ∈ row_id <$> evs.
Proof.
  induction evs as [|r evs IH]; cbn [fmap list_fmap foldr]; [lia|]. intros Hp.
  destruct (Z.max_spec (row_id r) (foldr (λ r acc, Z.max (row_id r) acc) 0 evs)) as [[Hlt ->]|[Hle ->]];
    [right; apply IH; lia|left].
Qed.

Section horizon.
Context (wd : World) (snap : PgSnapshot) (cs : gmap (string * string) ConsumerStateRow)
  (Hok : world_ok wd) (Hto : takes_over wd cs).

Notation cursor := (from_option cs_lastProcessedEventId 0 (highest_consumer cs)).
Notation own := (from_option cs_pendingGaps [] (highest_consumer cs)).
Notation above := (row_id <$> sort_by row_id (filter (λ r, cursor < row_id r) (wd_committed wd))).
Notation seeded := (selectEventIdHorizonWithMissingRanges snap (wd_committed wd) cs).
#[local] Set Default Proof Using "Hok Hto".

Lemma above_sorted : StronglySorted Z.lt above ∧ ∀ i, i ∈ above ↔ cursor < i ∧ i ∈ row_id <$> wd_committed wd.
Proof.
  split.
  - assert (Hs : StronglySorted (λ r s, row_id r < row_id s) (sort_by row_id (filter (λ r, cursor < row_id r) (wd_committed wd)))).
    { apply sort_by_strict, (NoDup_fmap_sublist _ _ (wd_committed wd)); [apply sublist_filter|apply (wo_committed _ Hok)]. }
    induction Hs as [|x l _ IH Hf]; [constructor|]. cbn [fmap list_fmap]. constructor; [done|]. by rewrite Forall_fmap.
  - intros i. rewrite list_elem_of_fmap. split.
    + intros (r & -> & Hr). rewrite elem_of_sort_by in Hr. apply list_elem_of_filter in Hr as [? Hr].
      split; [done|by apply list_elem_of_fmap_2].
    + intros [Hlt Hi]. apply list_elem_of_fmap in Hi as (r & -> & Hr). exists r. split; [done|].
      rewrite elem_of_sort_by. by apply list_elem_of_filter.
Qed.

(** The seeded gaps are disjoint ranges, and they watch every uncommitted id
    below the horizon once the scan has run. *)
Lemma seeded_spec :
  Forall gap_ok seeded.2 ∧ ascending seeded.2 ∧
  (snap_xip snap ≠ [] ∨ (∀ x i, holds wd x i → i ≤ cursor ∨ seeded.1 < i) →
   ∀ x i, holds wd x i → 0 < i → i ≤ seeded.1 → watched seeded.2 i).
Proof.
  destruct above_sorted as [Hs Hin]. destruct Hto as [[Hg Ha Hb] Hw].
  destruct (window_gaps_spec (snap_xmax snap) cursor above Hs) as (Hwin & Hgw & Haw); [intros i Hi; by apply Hin|].
  unfold selectEventIdHorizonWithMissingRanges. cbn [fst snd].
  set (scanned := match snap_xip snap with [] => [] | _ => _ end).
  assert (Hsc : Forall gap_ok scanned ∧ ascending scanned ∧ ∀ i, watched scanned i → cursor < i).
  { unfold scanned. destruct (snap_xip snap).
    - split_and!; [constructor|constructor|intros i Hi; by apply watched_nil in Hi].
    - split_and!; [done|done|intros i Hi; apply Hwin in Hi; tauto]. }
  destruct Hsc as (Hgs & Has & Hbs).
  assert (Hgall : Forall gap_ok (own ++ scanned)) by by apply Forall_app.
  assert (Hwall : ∀ i, watched (sort_by gap_from (own ++ scanned)) i ↔ watched own i ∨ watched scanned i).
  { intros i. rewrite (watched_perm _ (own ++ scanned)) by (intros; apply elem_of_sort_by). apply watched_app. }
  split_and!.
  - by rewrite sort_by_perm.
  - apply all_apart_sorted; [done|]. apply all_apart_app; [done|done|by apply ascending_all_apart..|].
    intros i Hi1 Hi2. specialize (Hb i Hi1). specialize (Hbs i Hi2). lia.
  - intros Hx x i Hi Hpos Hle. apply Hwall. destruct (Z_le_gt_dec i cursor) as [Hc|Hc]; [left; by eapply Hw|right].
    destruct Hx as [Hx|Hx]; [|destruct (Hx x i Hi) as [?|?]; lia].
    unfold scanned. destruct (snap_xip snap); [done|]. apply Hwin. split; [lia|].
    destruct (wo_apart _ Hok x i Hi) as [Hn _]. split; [intros Hi'; apply Hin in Hi'; tauto|].
    set (h := foldr _ _ _) in Hle. assert (Hh : h ∈ row_id <$> wd_committed wd) by (apply horizon_reached; fold h; lia).
    exists h. split; [apply Hin; split; [lia|done]|].
    destruct (decide (i = h)) as [->|]; [done|lia].
Qed.
End horizon.

(** ** The gaps handed over *)

Lemma cap_spec gaps cursor :
  Forall gap_ok gaps → ascending gaps →
  Forall gap_ok (capPendingGapsBelowCursor gaps cursor) ∧ ascending (capPendingGapsBelowCursor gaps cursor) ∧
  (∀ i, watched (capPendingGapsBelowCursor gaps cursor) i ↔ 0 < cursor ∧ i < cursor ∧ watched gaps i).
Proof.
  intros Hok Ha. split_and!.
  - apply Forall_forall. intros g Hg. apply capPendingGapsBelowCursor_elem in Hg as (_ & h & Hh & Hlt & ->).
    rewrite Forall_forall in Hok. specialize (Hok h Hh). unfold gap_ok in *. simpl. lia.
  - unfold capPendingGapsBelowCursor. destruct (cursor <=? 0); [constructor|].
    induction Ha as [|g gs Ha IH Hf]; [constructor|]. apply Forall_cons in Hok as [Hg Hok].
    rewrite bind_cons. apply StronglySorted_app_2; [|by destruct (cursor <=? gap_from g); repeat constructor|by apply IH].
    intros a b Hina Hinb. apply list_elem_of_bind in Hinb as (h & Hb & Hh).
    rewrite Forall_forall in Hf. specialize (Hf h Hh).
    destruct (cursor <=? gap_from g); [by apply elem_of_nil in Hina|]. apply list_elem_of_singleton in Hina as ->.
    destruct (cursor <=? gap_from h) eqn:Hc; [by apply elem_of_nil in Hb|]. apply list_elem_of_singleton in Hb as ->.
    simpl. destruct (cursor <=? gap_to g) eqn:?; reflect_bools; lia.
  - intros i. split.
    + intros (g & Hg & Hi). apply capPendingGapsBelowCursor_elem in Hg as (Hp & h & Hh & Hlt & ->).
      unfold in_gap in Hi. simpl in Hi. split_and!; [done|lia|]. exists h. unfold in_gap. split; [done|lia].
    + intros (Hp & Hlt & g & Hg & Hi). unfold in_gap in Hi. unfold capPendingGapsBelowCursor.
      rewrite (proj2 (Z.leb_gt _ _)) by done.
      exists (mkGap (gap_from g) (if cursor <=? gap_to g then cursor - 1 else gap_to g) (gap_xmax g)).
      split.
      * apply list_elem_of_bind. exists g. rewrite (proj2 (Z.leb_gt cursor (gap_from g))) by lia. split; [left|done].
      * unfold in_gap. simpl. destruct (cursor <=? gap_to g) eqn:?; reflect_bools; lia.
Qed.

Lemma rebound_spec gaps xmax :
  let g' := (λ g, mkGap (gap_from g) (gap_to g) xmax) <$> gaps in
  (Forall gap_ok gaps → Forall gap_ok g') ∧ (ascending gaps → ascending g') ∧
  (∀ i, watched g' i ↔ watched gaps i) ∧ Forall (λ g, gap_xmax g = xmax) g'.
Proof.
  intros g'. split_and!.
  - intros Hok. by apply Forall_fmap.
  - intros Ha. unfold g'. induction Ha as [|g gs Ha IH Hf]; [constructor|]. cbn [fmap list_fmap].
    constructor; [done|]. by rewrite Forall_fmap.
  - intros i. split.
    + intros (h & Hh & Hi). apply list_elem_of_fmap in Hh as (g & -> & Hg). by exists g.
    + intros (g & Hg & Hi). exists (mkGap (gap_from g) (gap_to g) xmax). split; [|done]. apply list_elem_of_fmap. by exists g.
  - apply Forall_fmap, Forall_true. done.
Qed.

(** The ranges handed over watch what the seeded ones watched below the cursor
    and the replay has not read, each with the bound read after the replay. *)
Lemma msp_pending_gaps_spec seeded replayedIds cursor xmax :
  Forall gap_ok seeded → ascending seeded → StronglySorted Z.lt replayedIds →
  let gaps := msp_pending_gaps seeded replayedIds cursor xmax in
  gaps_ok cursor gaps ∧
  (∀ i, watched gaps i ↔ 0 < cursor ∧ i < cursor ∧ watched seeded i ∧ i ∉ replayedIds) ∧
  (∀ g, g ∈ gaps → xmax ≤ gap_xmax g).
Proof.
  intros Hok Ha Hs. unfold msp_pending_gaps. cbv zeta.
  replace (subtractSortedIdsFromRanges seeded replayedIds) with (seeded ≫= λ g, splitRangeExcludingIds g replayedIds)
    by (symmetry; by apply subtract_agrees_with_split).
  destruct (split_all_spec seeded replayedIds Hok Ha) as (Hok1 & Ha1 & Hw1 & _).
  set (surviving := seeded ≫= _) in *.
  destruct (cap_spec surviving cursor Hok1 Ha1) as (Hok2 & Ha2 & Hw2).
  set (capped := capPendingGapsBelowCursor surviving cursor) in *.
  destruct (rebound_spec capped xmax) as (Hok3 & Ha3 & Hw3 & Hx3). specialize (Hok3 Hok2). specialize (Ha3 Ha2).
  replace (match capped with [] => capped | _ => (λ g, mkGap (gap_from g) (gap_to g) xmax) <$> capped end)
    with ((λ g, mkGap (gap_from g) (gap_to g) xmax) <$> capped) by by destruct capped.
  set (rebound := _ <$> capped) in *.
  destruct (mergeContiguousGapRanges_spec rebound Hok3) as (Hw4 & Hok4 & Hb4).
  assert (Ha4 : ascending (mergeContiguousGapRanges rebound)).
  { apply separated_ascending; [done|]. apply mergeContiguousGapRanges_separated; [done|].
    apply all_apart_sorted; [done|by apply ascending_all_apart]. }
  assert (Hw : ∀ i, watched (mergeContiguousGapRanges rebound) i ↔ 0 < cursor ∧ i < cursor ∧ watched seeded i ∧ i ∉ replayedIds).
  { intros i. rewrite Hw4, Hw3, Hw2, Hw1. tauto. }
  split_and!; [split; [done|done|]|exact Hw|].
  - intros i Hi. apply Hw in Hi. lia.
  - intros g Hg. rewrite Forall_forall in Hok4. specialize (Hok4 g Hg).
    assert (Hwg : watched rebound (gap_from g)).
    { apply Hw4. exists g. unfold in_gap, gap_ok in *. split; [done|lia]. }
    destruct Hwg as (h & Hh & Hi). rewrite Forall_forall in Hx3. specialize (Hx3 h Hh).
    destruct (Hb4 (gap_from g) (gap_xmax h)) as (y & Hle & g' & Hg' & Hi' & <-); [by exists h|].
    assert (g = g') as ->; [|lia].
    apply (ascending_unique _ g g' (gap_from g) Ha4 Hg Hg'); [unfold in_gap, gap_ok in *; lia|done].
Qed.

(** ** Moving worlds *)

Lemma worlds_run wd wd' : rtc writer_step wd wd' → world_ok wd →
  world_ok wd' ∧ wd_nextId wd ≤ wd_nextId wd' ∧
  (∀ r, r ∈ wd_committed wd → r ∈ wd_committed wd') ∧
  (∀ i, alive wd' i → i < wd_nextId wd → alive wd i) ∧
  (∀ x i, holds wd' x i → i < wd_nextId wd → holds wd x i).
Proof.
  induction 1 as [wd|wd wd1 wd' Hs Hr IH]; intros Hok; [by split_and!|].
  pose proof (writer_moves wd wd1 Hs Hok) as Hm. destruct Hm as [Ha Hh _ Hi _].
  destruct (IH (writer_ok wd wd1 Hs Hok)) as (Hok' & Hn & Hc & Ha' & Hh').
  split_and!; [done|lia|..].
  - intros r Hr'. apply Hc. destruct Hs; simpl; try done. set_solver.
  - intros i Hal Hlt. apply Ha; [|done]. apply Ha'; [done|lia].
  - intros x i Hx Hlt. apply Hh; [|done]. apply Hh'; [done|lia].
Qed.

Lemma msp_events_elem msp evs horizon r :
  r ∈ msp_events msp evs horizon ↔ row_type r ∈ subscribedTypes msp ∧ row_id r ≤ horizon ∧ r ∈ evs.
Proof.
  unfold msp_events. destruct (subscribedTypes msp) eqn:Ht; [set_solver|].
  rewrite elem_of_sort_by, list_elem_of_filter. tauto.
Qed.

Lemma msp_events_sorted msp evs horizon :
  NoDup (row_id <$> evs) → StronglySorted Z.lt (row_id <$> msp_events msp evs horizon).
Proof.
  intros Hn. unfold msp_events. destruct (subscribedTypes msp) as [|t ts]; [constructor|].
  assert (Hs : StronglySorted (λ r s, row_id r < row_id s)
    (sort_by row_id (filter (λ r, row_type r ∈ t :: ts ∧ row_id r ≤ horizon) evs))).
  { apply sort_by_strict, (NoDup_fmap_sublist _ _ evs); [apply sublist_filter|done]. }
  induction Hs as [|x l _ IH Hf]; [constructor|]. cbn [fmap list_fmap]. constructor; [done|]. by rewrite Forall_fmap.
Qed.

(** The cursor is 0 or the id of a replayed event. *)
Lemma last_replayed msp evs horizon :
  let ids := row_id <$> msp_events msp evs horizon in
  0 < default 0 (last ids) → default 0 (last ids) ∈ ids ∧ default 0 (last ids) ≤ horizon.
Proof.
  intros ids Hp. destruct (last ids) as [i|] eqn:Hl; [|done]. simpl in *.
  assert (Hin : i ∈ ids) by (apply last_Some in Hl as [l ->]; set_solver).
  split; [done|]. apply list_elem_of_fmap in Hin as (r & -> & Hr). apply msp_events_elem in Hr. tauto.
Qed.

Section handover.
#[local] Set Default Proof Using "Type".
Context {D : Type} (upcasters : gmap string (EventUpcaster D)) (ctxDb : D) (catalog : Catalog)
  (messageOf : RebuildError → string) (loadMessage : LoadError → string) (upcastMessage : UpcastError → string).

Notation mrun := (rebuildMultiStreamProjection upcasters ctxDb catalog messageOf loadMessage upcastMessage).
Notation mreplay := (msp_replay upcasters ctxDb loadMessage upcastMessage).

Lemma with_ctx_types msp db :
  (rd_apply (with_ctx upcasters ctxDb loadMessage upcastMessage msp db)).*1 = subscribedTypes msp.
Proof. unfold with_ctx, subscribedTypes. simpl. rewrite <- list_fmap_compose. by apply list_fmap_ext. Qed.

(** The replay stands at the last of its events. *)
Lemma msp_replay_counts msp db horizon rp :
  mreplay msp db horizon = Ok rp →
  rp_processed rp = length (msp_events msp (db_events db) horizon) ∧
  rp_cursor rp = default 0 (last (row_id <$> msp_events msp (db_events db) horizon)).
Proof.
  intros Hr. apply drain_counts in Hr as [Hp Hc].
  - rewrite Hp, Hc, fmap_last. simpl. split; [done|]. by destruct (last _).
  - intros r [Ht _]%msp_events_elem. destruct (assoc_get _ _) eqn:Ha; [by eexists|].
    apply assoc_get_None in Ha. by rewrite with_ctx_types in Ha.
Qed.

(** What a rebuild that succeeds has done. *)
Lemma msp_rebuild_ok now msps mspName msp markDead obs w res w' :
  assoc_get mspName msps = Some msp → mrun now msps mspName markDead obs w = (Ok res, w') →
  let hs := selectEventIdHorizonWithMissingRanges (mo_snap obs) (mo_events obs)
              (resetConsumerForMspRebuild now (mw_consumers w) (msp_key msp)) in
  ∃ rp rearm, mreplay msp (mo_db obs) hs.1 = Ok rp ∧ mw_live w' = rp_shadow rp ∧
    rr_eventsProcessed res = rp_processed rp ∧ rr_lastProcessedEventId res = rp_cursor rp ∧
    mw_consumers w' !! msp_key msp = Some (mkConsumer (rp_cursor rp) Idle 0 rearm
      (msp_pending_gaps hs.2 (row_id <$> msp_events msp (db_events (mo_db obs)) hs.1) (rp_cursor rp) (mo_xmax obs))
      None None now).
Proof.
  unfold rebuildMultiStreamProjection. intros -> Hrun. destruct (md_table msp) as [table|]; [|discriminate Hrun].
  destruct (rebuildMetaOrThrow table mspName) as [meta|]; [|discriminate Hrun].
  destruct (msp_tx _ _ _ _ _ _ _ _ _ _) as [[res' w1]|e] eqn:Htx; [|discriminate Hrun].
  injection Hrun as -> ->. unfold msp_tx in Htx.
  apply result_bind_Ok in Htx as (_ & _ & Htx). revert Htx.
  set (cs := resetConsumerForMspRebuild _ _ _).
  destruct (selectEventIdHorizonWithMissingRanges _ _ cs) as [horizon seeded]. cbn [fst snd].
  intros (_ & _ & (rp & Hrp & (live & Hlive & Hok)%result_bind_Ok)%result_bind_Ok)%result_bind_Ok.
  injection Hok as <- <-.
  assert (Hcs : ∃ c, cs !! msp_key msp = Some c)
    by (unfold cs, resetConsumerForMspRebuild; destruct (mw_consumers w !! msp_key msp); eexists; apply lookup_insert_eq).
  destruct Hcs as [c Hc]. exists rp, (cs_rearmCount c). split_and!; try done.
  - unfold swapShadowIntoLive in Hlive. destruct (ct_columns catalog); [by injection Hlive|done].
  - cbn [mw_consumers]. unfold updateConsumerRebuildCursor. by rewrite lookup_alter_eq, Hc.
Qed.

Section covering.
Context (msp : MspDefinition) (snap : PgSnapshot) (cs : gmap (string * string) ConsumerStateRow)
  (wd1 wd2 wd3 : World) (xmax : Z)
  (Hok : world_ok wd1) (Hid : 0 < wd_nextId wd1) (Hpos : ∀ i, alive wd1 i → 0 < i)
  (H12 : rtc writer_step wd1 wd2) (H23 : rtc writer_step wd2 wd3) (Hto : takes_over wd1 cs).
#[local] Set Default Proof Using "Hok Hid Hpos H12 H23 Hto".

Notation hs := (selectEventIdHorizonWithMissingRanges snap (wd_committed wd1) cs).
Notation replayed := (msp_events msp (wd_committed wd2) hs.1).
Notation ignored := (filter (λ r, row_type r ∉ subscribedTypes msp) (wd_committed wd1)).
Notation cursor := (default 0 (last (row_id <$> replayed))).
Notation gaps := (msp_pending_gaps hs.2 (row_id <$> replayed) cursor xmax).

Lemma cursor_replayed : 0 < cursor → cursor ∈ row_id <$> replayed ∧ cursor ≤ hs.1 ∧ hs.1 < wd_nextId wd1.
Proof.
  intros Hp. destruct (last_replayed msp (wd_committed wd2) hs.1 Hp) as [Hin Hle]. split_and!; [done|done|].
  apply (wo_ids _ Hok). left. apply horizon_reached. change (0 < hs.1). lia.
Qed.

(** The row the rebuild writes covers every id at or below its cursor. *)
Lemma handed_row_covers rearm now :
  (snap_xip snap ≠ [] ∨ ∀ x i, holds wd1 x i →
     i ≤ from_option cs_lastProcessedEventId 0 (highest_consumer cs) ∨ hs.1 < i) →
  (∀ x i, holds wd3 x i → i ≤ cursor → x < xmax) →
  world_ok wd3 ∧
  (∀ r, r ∈ replayed → ¬ watched gaps (row_id r)) ∧
  covers wd3 (mkConsumer cursor Idle 0 rearm gaps None None now) (row_id <$> replayed ++ ignored).
Proof.
  intros Hxip Hxmax.
  destruct (worlds_run _ _ H12 Hok) as (Hok2 & Hn2 & Hc2 & Ha2 & Hh2).
  destruct (worlds_run _ _ H23 Hok2) as (Hok3 & Hn3 & Hc3 & Ha3 & Hh3).
  destruct (seeded_spec wd1 snap cs Hok Hto) as (Hs1 & Hs2 & Hs3). specialize (Hs3 Hxip).
  destruct (msp_pending_gaps_spec hs.2 (row_id <$> replayed) cursor xmax Hs1 Hs2) as (Hg & Hw & Hx);
    [apply msp_events_sorted, (wo_committed _ Hok2)|].
  split; [done|]. split.
  { intros r Hr (_ & _ & _ & Hn)%Hw. by apply Hn, list_elem_of_fmap_2. }
  split; cbn [cs_lastProcessedEventId cs_pendingGaps]; [done|..].
  - destruct (Z_lt_le_dec 0 cursor) as [Hp|]; [|lia]. destruct (cursor_replayed Hp) as (_ & ? & ?). lia.
  - intros i Hi Hle. destruct (Z_lt_le_dec 0 cursor) as [Hp|Hnp].
    2:{ assert (0 < i); [|lia]. apply Hpos, Ha2; [apply Ha3|]; [done|lia..]. }
    destruct (cursor_replayed Hp) as (Hin & Hle1 & Hlt).
    assert (Hi1 : alive wd1 i) by (apply Ha2; [apply Ha3|]; [done|lia..]).
    specialize (Hpos i Hi1) as Hip. apply alive_cases in Hi1 as [Hi1|[x Hi1]].
    + apply list_elem_of_fmap in Hi1 as (r & -> & Hr). left. apply list_elem_of_fmap_2, elem_of_app.
      destruct (decide (row_type r ∈ subscribedTypes msp)); [left|right; by apply list_elem_of_filter].
      apply msp_events_elem. split_and!; [done|lia|by apply Hc2].
    + specialize (Hs3 x i Hi1 Hip). rewrite fmap_app, elem_of_app.
      destruct (decide (i ∈ row_id <$> replayed)) as [|Hnr]; [by left; left|right].
      apply Hw. split_and!; [done| |apply Hs3; lia|done]. destruct (decide (i = cursor)) as [->|]; [done|lia].
  - intros g x i Hg' Hi Hh. specialize (Hx g Hg'). assert (x < xmax); [|lia].
    apply (Hxmax x i Hh). apply (go_below _ _ Hg). by exists g.
Qed.
End covering.

(** C17: what a multi-stream rebuild hands to its live consumer is complete.  The
    horizon is read in one world, the events in a later one, and the cursor is
    written in a later one still; between them other transactions insert,
    commit and abort in any order.  The live table becomes the replay of every
    subscribed event up to the horizon, and from then on, whatever the
    consumer's turns and the writers do, each committed event at or below the
    cursor has been replayed, taken by a turn, or carries a type the projection
    ignores, or is still watched by a pending gap.  The hypotheses are that the
    row with the highest cursor watches every open id it has passed, that the
    snapshot lists a transaction whenever one holds an id the horizon scan must
    find, and that the xmax read after the replay is above the writers that
    still hold one. *)
Theorem msp_rebuild_hands_over_every_event `{SL : SnapshotLaws} {W : Type} generateId o (consumer : EventConsumer W)
    now msps mspName msp markDead obs w res w' (wd1 wd2 wd3 : World) (v : W) (s : System W) :
  let key := msp_key msp in
  let horizon := foldr (λ r acc, Z.max (row_id r) acc) 0 (mo_events obs) in
  let replayed := msp_events msp (wd_committed wd2) horizon in
  let ignored := filter (λ r, row_type r ∉ subscribedTypes msp) (wd_committed wd1) in
  let before := from_option cs_lastProcessedEventId 0
                  (highest_consumer (resetConsumerForMspRebuild now (mw_consumers w) key)) in
  assoc_get mspName msps = Some msp → mrun now msps mspName markDead obs w = (Ok res, w') →
  world_ok wd1 → 0 < wd_nextId wd1 → (∀ i, alive wd1 i → 0 < i) →
  rtc writer_step wd1 wd2 → rtc writer_step wd2 wd3 →
  mo_events obs = wd_committed wd1 → db_events (mo_db obs) = wd_committed wd2 →
  takes_over wd1 (resetConsumerForMspRebuild now (mw_consumers w) key) →
  (snap_xip (mo_snap obs) ≠ [] ∨ ∀ x i, holds wd1 x i → i ≤ before ∨ horizon < i) →
  (∀ x i, holds wd3 x i → i ≤ rr_lastProcessedEventId res → x < mo_xmax obs) →
  (0 < batchSize o)%nat →
  rtc (sampled_step generateId o consumer key)
    (mkSystem wd3 (mw_consumers w') None (row_id <$> replayed ++ ignored) v) s →
  (∃ rp, drain_rows upcasters ctxDb (with_ctx upcasters ctxDb loadMessage upcastMessage msp (mo_db obs))
           (msp_skips msp) fresh_replay replayed = Ok rp ∧
         mw_live w' = rp_shadow rp ∧ rr_eventsProcessed res = length replayed ∧
         rr_lastProcessedEventId res = default 0 (last (row_id <$> replayed))) ∧
  (∃ c, mw_consumers w' !! key = Some c ∧ cs_lastProcessedEventId c = rr_lastProcessedEventId res ∧
        cs_status c = Idle ∧ ∀ r, r ∈ replayed → ¬ watched (cs_pendingGaps c) (row_id r)) ∧
  (∃ c, sys_consumers s !! key = Some c ∧
    ∀ r, r ∈ wd_committed (sys_world s) → row_id r ≤ cs_lastProcessedEventId c →
      row_id r ∈ sys_taken s ∨ watched (cs_pendingGaps c) (row_id r)).
Proof.
  destruct obs as [snap evs db xmax].
  intros key horizon replayed ignored before Hmsp Hrun Hok Hid Hpos H12 H23 Hev Hdb Hto Hxip Hxmax Hb Hsys.
  cbn [mo_events mo_db mo_snap mo_xmax] in *. subst evs.
  destruct (msp_rebuild_ok _ _ _ _ _ _ _ _ _ Hmsp Hrun) as (rp & rearm & Hrp & Hlive & Hproc & Hlast & Hrow).
  destruct (msp_replay_counts _ _ _ _ Hrp) as [Hcount Hcursor]. cbn [mo_events mo_db mo_snap mo_xmax] in *. rewrite Hdb in *.
  destruct (handed_row_covers msp snap _ wd1 wd2 wd3 xmax Hok Hid Hpos H12 H23 Hto rearm now Hxip)
    as (Hok3 & Hnot & Hcov).
  { intros x i Hh Hle. apply (Hxmax x i Hh). by rewrite Hlast, Hcursor. }
  rewrite Hcursor in Hrow, Hlast.
  split_and!.
  - exists rp. split_and!; [|done|by rewrite Hproc|done].
    unfold msp_replay in Hrp. rewrite Hdb in Hrp. exact Hrp.
  - eexists. split; [exact Hrow|]. split_and!; [by symmetry|done|exact Hnot].
  - assert (H0 : sys_ok key (mkSystem wd3 (mw_consumers w') None (row_id <$> replayed ++ ignored) v)).
    { split; [done|]. eexists. split; [exact Hrow|]. split; [exact Hcov|done]. }
    clear Hrow Hcov. revert H0. induction Hsys as [s|s0 s1 s Hs _ IH]; [|eauto using sys_step_ok].
    intros (_ & c & Hc & Hcov & _). exists c. split; [done|]. intros r Hr Hle.
    apply (cv_all _ _ _ Hcov); [left; by apply list_elem_of_fmap_2|done].
Qed.
End handover.

(** ** Examples

    A projection that keeps one row per aggregate; transaction 100 holds id 1
    while 101 has committed id 2, and commits after the replay. *)

Definition seen_projection : MspDefinition :=
  mkMsp "shop:projection:seen" (Some (Some latest_meta))
    [("shop:event:placed", λ e _ rows, Ok (<[se_id e := ∅]> rows))] None.

Definition seen_key : string * string := ("shop:projection:seen", SHARED_INSTANCE_SENTINEL).

Definition open_world : World := mkWorld [demo_row 2] {[100 := [demo_row 1]]} 102 3 101.

Definition closed_world : World := mkWorld ([demo_row 2] ++ [demo_row 1]) (delete 100 {[100 := [demo_row 1]]}) 102 3 101.

Notation seen_rebuild rows snap xmax :=
  (rebuildMultiStreamProjection (D := ()) ∅ () plain_catalog (λ _, "") (λ _, "") (λ _, "") 7
     [("seen", seen_projection)] "seen" None
     (mkMspObs snap rows (log_of rows) xmax) (mkMspWorld ∅ ∅ [])).

(** Cursor and gaps of the row a rebuild leaves behind. *)
Definition left_behind (run : result RebuildError RebuildResult * MspWorld) : option (Z * list PendingGapEntry) :=
  match run with
  | (Ok _, w') => (λ c, (cs_lastProcessedEventId c, cs_pendingGaps c)) <$> mw_consumers w' !! seen_key
  | _ => None
  end.

Lemma handover_runs :
  left_behind (seen_rebuild [demo_row 2] (mkSnapshotBounds 100 102 [100]) 102) = Some (2, [mkGap 1 1 102]).
Proof. vm_compute. reflexivity. Qed.

Lemma open_world_holds x i : holds open_world x i → x = 100 ∧ i = 1.
Proof.
  intros (rows & Hx & Hi). unfold open_world in Hx. simpl in Hx. apply lookup_singleton_Some in Hx as [<- <-].
  cbn in Hi. set_solver.
Qed.

Lemma open_world_alive i : alive open_world i → i = 1 ∨ i = 2.
Proof.
  intros [Hi|[x Hx]]%alive_cases; [cbn in Hi; set_solver|]. apply open_world_holds in Hx. tauto.
Qed.

Lemma open_world_inflight x rows : wd_inflight open_world !! x = Some rows → x = 100 ∧ rows = [demo_row 1].
Proof. unfold open_world. simpl. by intros [<- <-]%lookup_singleton_Some. Qed.

Lemma open_world_ok : world_ok open_world.
Proof.
  split.
  - intros x rows [-> _]%open_world_inflight. reflexivity.
  - reflexivity.
  - intros i [->| ->]%open_world_alive; reflexivity.
  - cbn. apply NoDup_singleton.
  - intros x rows [_ ->]%open_world_inflight. cbn. apply NoDup_singleton.
  - intros x i [-> ->]%open_world_holds. split; [cbn; set_solver|]. intros y Hy. apply open_world_holds in Hy. tauto.
Qed.

Lemma open_world_closes : writer_step open_world closed_world.
Proof. apply (writer_commit open_world 100 [demo_row 1]). apply lookup_singleton_eq. Qed.

Lemma closed_world_holds x i : holds closed_world x i → False.
Proof. intros [Hne Hh]%(holds_delete open_world). apply open_world_holds in Hh. tauto. Qed.

Lemma fresh_takes_over wd cs now :
  highest_consumer cs = Some (fresh_consumer 0 [] now) → (∀ x i, holds wd x i → 0 < i) → takes_over wd cs.
Proof.
  intros Hh Hpos. split; rewrite Hh; cbn.
  - split; [constructor|constructor|]. intros i (g & Hg & _). by apply elem_of_nil in Hg.
  - intros x i Hx Hle. specialize (Hpos x i Hx). lia.
Qed.

Lemma nothing_passed_over : takes_over open_world (resetConsumerForMspRebuild 7 ∅ seen_key).
Proof.
  apply (fresh_takes_over _ _ 7); [vm_compute; reflexivity|]. intros x i [_ ->]%open_world_holds. lia.
Qed.

Lemma msp_rebuild_hands_over_every_event_witness :
  ∃ res w', seen_rebuild [demo_row 2] (mkSnapshotBounds 100 102 [100]) 102 = (Ok res, w') ∧
    left_behind (Ok res, w') = Some (2, [mkGap 1 1 102]) ∧
    1 ∈ row_id <$> wd_committed closed_world ∧
    ∃ c, mw_consumers w' !! seen_key = Some c ∧
      ∀ r, r ∈ wd_committed closed_world → row_id r ≤ cs_lastProcessedEventId c →
        row_id r ∈ [2] ∨ watched (cs_pendingGaps c) (row_id r).
Proof.
  pose proof handover_runs as Hl.
  destruct (seen_rebuild [demo_row 2] (mkSnapshotBounds 100 102 [100]) 102) as [[res|e] w'] eqn:Hrun; [|discriminate Hl].
  exists res, w'. split; [reflexivity|]. split; [exact Hl|]. split; [cbn; set_solver|].
  destruct (msp_rebuild_hands_over_every_event (D := ()) ∅ () plain_catalog (λ _, "") (λ _, "") (λ _, "")
    demo_ids default_options recorder 7 [("seen", seen_projection)] "seen" seen_projection None
    (mkMspObs (mkSnapshotBounds 100 102 [100]) [demo_row 2] (log_of [demo_row 2]) 102) (mkMspWorld ∅ ∅ []) res w'
    open_world open_world closed_world [] (mkSystem closed_world (mw_consumers w') None [2] [])
    eq_refl Hrun open_world_ok eq_refl) as (_ & _ & Hc).
  - intros i [->| ->]%open_world_alive; reflexivity.
  - apply rtc_refl.
  - apply rtc_once, open_world_closes.
  - reflexivity.
  - reflexivity.
  - exact nothing_passed_over.
  - left. discriminate.
  - intros x i Hh. destruct (closed_world_holds x i Hh).
  - unfold default_options, DEFAULT_BATCH_SIZE; simpl; lia.
  - apply rtc_refl.
  - exact Hc.
Defined.

(** The xip list names the open transactions below xmax, which is one past the
    highest completed one.  Here 101 holds id 1 and 100 has committed id 2:
    xmax is 101, the list is empty, the scan is skipped, and id 1, committed
    after the replay, lies below the cursor and in no gap. *)
Definition unlisted_world : World := mkWorld [demo_row 2] {[101 := [demo_row 1]]} 102 3 100.

Definition documented_snapshot (wd : World) : PgSnapshot :=
  mkSnapshotBounds (xminAt wd) (xmaxAt wd) (filter (λ x, x < xmaxAt wd) (map_to_list (wd_inflight wd)).*1).

Lemma unlisted_writer_is_passed_over :
  left_behind (seen_rebuild (wd_committed unlisted_world) (documented_snapshot unlisted_world) (xmaxAt unlisted_world))
    = Some (2, []) ∧
  writer_step unlisted_world (mkWorld ([demo_row 2] ++ [demo_row 1]) (delete 101 {[101 := [demo_row 1]]}) 102 3 101).
Proof.
  split; [vm_compute; reflexivity|]. apply (writer_commit unlisted_world 101 [demo_row 1]). apply lookup_singleton_eq.
Qed.
