(* ===== verification/Gates.v ===== *)
(** * The gates before a write handler

    [pipeline/pre-handler-gates.ts] with the checks it calls: the feature gate
    and the rate limits of [dispatch-shared.ts], [engine/validation.ts],
    [engine/cross-tenant.ts], [handler-access-error.ts], and the identity switch
    of [system-identity-switch.ts].  Rate limits charge the buckets of
    [RateLimit]; the other gates only read. *)

From S2P Require Import Prelude QualifiedName Ownership FieldAccess RateLimit TransitionGuard Executor.
From Stdlib Require Import QArith Qround.

Open Scope string_scope.
Open Scope list_scope.
Open Scope Z_scope.

(** ** Errors *)

Record FieldIssue := mkIssue { fi_path : string; fi_code : string }.

(** [we_reason] is the machine-readable slug of the details, or the message of
    an internal error. *)
Record WriteErrorInfo := mkErrorInfo {
  we_code : string;
  we_httpStatus : Z;
  we_reason : string;
  we_fields : list FieldIssue }.

Definition NotFoundError (entity : string) : WriteErrorInfo := mkErrorInfo "not_found" 404 (entity +:+ "_not_found") [].
Definition FeatureDisabledError : WriteErrorInfo := mkErrorInfo "feature_disabled" 403 "feature_disabled" [].
Definition AccessDeniedError (reason : string) : WriteErrorInfo := mkErrorInfo "access_denied" 403 reason [].
Definition UnauthenticatedError : WriteErrorInfo := mkErrorInfo "unauthenticated" 401 "" [].
Definition ValidationError (fields : list FieldIssue) : WriteErrorInfo := mkErrorInfo "validation_error" 400 "" fields.
Definition UnprocessableError (reason : string) : WriteErrorInfo := mkErrorInfo "unprocessable" 422 reason [].
Definition InternalError (message : string) : WriteErrorInfo := mkErrorInfo "internal_error" 500 message [].
Definition RateLimitError : WriteErrorInfo := mkErrorInfo "rate_limited" 429 "" [].
Definition RateLimitUnavailableError : WriteErrorInfo := mkErrorInfo "rate_limit_unavailable" 503 "" [].
Definition VersionConflictError : WriteErrorInfo := mkErrorInfo "version_conflict" 409 "" [].

(** A thrown value as [wrapToKumiko] tells them apart. *)
Inductive Thrown :=
| ThrewKumiko (e : WriteErrorInfo)
| ThrewStoreConflict
| ThrewInvalidDateTime
| ThrewOther (message : string).

Definition wrapToKumiko (t : Thrown) : WriteErrorInfo :=
  match t with
  | ThrewKumiko e => e
  | ThrewStoreConflict => VersionConflictError
  | ThrewInvalidDateTime => ValidationError []
  | ThrewOther _ => InternalError "internal error"
  end.

(** ** Principals *)

(** A session user with the [origin] of its session. *)
Record Principal := mkPrincipal { pr_user : SessionUser; pr_origin : option string }.

Definition isMemberResolutionPrincipal (p : Principal) : bool := bool_decide (pr_origin p = Some "member-resolution").

Definition isAnonymousSessionUser (user : SessionUser) : bool := includes (us_roles user) ANONYMOUS_ROLE.

Definition isSystemIdentity (user : SessionUser) : bool :=
  bool_decide (us_id user = SYSTEM_USER_ID) || includes (us_roles user) SYSTEM_ROLE.

Definition hasSameClaims (caller asUser : SessionUser) : bool :=
  let callerClaims := default [] (us_claims caller) in
  let asUserClaims := default [] (us_claims asUser) in
  (length callerClaims =? length asUserClaims)%nat
  && forallb (λ kv, match assoc_get kv.1 asUserClaims with Some v => same_json kv.2 v | None => false end) callerClaims.

Definition isSelfDelegation (caller asUser : Principal) : bool :=
  bool_decide (us_id (pr_user asUser) = us_id (pr_user caller))
  && bool_decide (us_tenantId (pr_user asUser) = us_tenantId (pr_user caller))
  && bool_decide (pr_origin asUser = pr_origin caller)
  && forallb (includes (us_roles (pr_user caller))) (us_roles (pr_user asUser))
  && hasSameClaims (pr_user caller) (pr_user asUser).

Definition isIdentitySwitchAllowed (caller : option Principal) (asUser : Principal) (hasGrant : bool) : bool :=
  if hasGrant then true
  else if isSystemIdentity (pr_user asUser) then false
  else match caller with None => false | Some c => isSelfDelegation c asUser end.

Definition identitySwitchDenied (asUser : Principal) : WriteErrorInfo :=
  if isSystemIdentity (pr_user asUser) then AccessDeniedError "system_identity_switch_denied"
  else AccessDeniedError "identity_switch_denied".

Definition handlerAccessError (user : SessionUser) : WriteErrorInfo :=
  if isAnonymousSessionUser user then UnauthenticatedError else AccessDeniedError "".

Definition memberResolutionReadOnlyDenied : WriteErrorInfo := AccessDeniedError "member_resolution_read_only".

(** ** What a handler declares for the gates *)

Record RateLimitOption := mkLimit { lo_per : RateLimitPer; lo_config : RateLimitConfig }.

Inductive RateLimitDeclaration :=
| NoRateLimit
| RateLimitDisabled
| RateLimits (options : list RateLimitOption).

Record PayloadRateLimitOption := mkPayloadLimit {
  po_field : string;
  po_config : RateLimitConfig;
  po_normalize : option string }.

(** [hd_rateLimitCost] answers [None] for a number that is not finite. *)
Record HandlerGates := mkGates {
  hg_access : option AccessRule;
  hg_rateLimit : RateLimitDeclaration;
  hg_rateLimitCost : option (Json → option Q);
  hg_additionalRateLimits : option (list PayloadRateLimitOption);
  hg_schema : Json → result (list FieldIssue) Json }.

Record GateRegistry := mkGateRegistry {
  gr_handlerFeature : string → option string;
  gr_isHandlerSystemScoped : string → bool;
  gr_handlerEntity : string → option string;
  gr_entity : string → option Entity;
  gr_validation : list (string * list (string * (Json → list FieldIssue))) }.

(** The configuration and the clocks of a call.  [ge_limiter] holds whether the
    resolver is connected, and its key prefix. *)
Record GateEnv := mkGateEnv {
  ge_effectiveFeatures : option (string → gset string);
  ge_trialGate : option (string → string → bool);
  ge_limiter : option (bool * string);
  ge_digest : option (string → string);
  ge_normalize : string → option string → string;
  ge_ip : option string;
  ge_redisNow : Z;
  ge_now : Z }.

(** The buckets in Redis, and the buckets this request has been charged for,
    with the limits they were charged under; [None] without a request scope.
    The source joins each entry to one string. *)
Record GateState := mkGateState {
  gs_buckets : gmap string Bucket;
  gs_charged : option (list (string * RateLimitConfig)) }.

(** ** Feature gate *)

Definition checkFeatureEnabled (env : GateEnv) (reg : GateRegistry) (handler tenantId : string) : option WriteErrorInfo :=
  match ge_effectiveFeatures env with
  | None => None
  | Some effective =>
      match gr_handlerFeature reg handler with
      | None => None
      | Some owner =>
          if decide (owner ∈ effective tenantId) then None
          else match ge_trialGate env with
               | Some trial => if trial tenantId owner then None else Some FeatureDisabledError
               | None => Some FeatureDisabledError
               end
      end
  end.

(** ** Rate limits *)

Definition declaredRateLimitOptions (d : RateLimitDeclaration) : list RateLimitOption :=
  match d with RateLimits options => options | _ => [] end.

Definition DEFAULT_SYSTEM_SCOPE_RATE_LIMIT : RateLimitOption := mkLimit PerTenantHandler (mkConfig 600 60 None).

Definition resolveEffectiveRateLimits (d : RateLimitDeclaration) (isSystemScope : bool) (user : SessionUser)
    (limiter : option (bool * string)) : list RateLimitOption :=
  match declaredRateLimitOptions d with
  | [] => if negb isSystemScope then []
          else match limiter with
               | None => []
               | Some _ => if isSystemIdentity user then [] else [DEFAULT_SYSTEM_SCOPE_RATE_LIMIT]
               end
  | declared => declared
  end.

(** One bucket takes the plain call, several the atomic one. *)
Definition enforceBuckets (env : GateEnv) (limiter : bool * string) (requests : list RateLimitBucketRequest)
    (s : gmap string Bucket) : result RateLimitFailure () * gmap string Bucket :=
  match requests with
  | [] => (Ok tt, s)
  | [r] => let '(res, s') := enforce limiter.1 limiter.2 (ge_redisNow env) (ge_now env) s (rq_bucket r) (rq_config r) in
           (result_map (λ _, tt) res, s')
  | _ => let '(res, s') := enforceAll limiter.1 limiter.2 (ge_redisNow env) (ge_now env) s requests in
         (result_map (λ _, tt) res, s')
  end.

Definition same_config (a b : RateLimitConfig) : bool :=
  Qeq_bool (rl_limit a) (rl_limit b) && (rl_windowSeconds a =? rl_windowSeconds b)
  && match rl_cost a, rl_cost b with
     | Some x, Some y => Qeq_bool x y
     | None, None => true
     | _, _ => false
     end.

Definition is_charged (charged : option (list (string * RateLimitConfig))) (r : RateLimitBucketRequest) : bool :=
  match charged with
  | None => false
  | Some l => existsb (λ kc, bool_decide (kc.1 = rq_bucket r) && same_config kc.2 (rq_config r)) l
  end.

(** What an option asks for, unless its bucket needs an address the call has
    not. *)
Definition bucket_request (env : GateEnv) (handlerName : string) (user : SessionUser) (costOverride : option Q)
    (option : RateLimitOption) : list RateLimitBucketRequest :=
  match buildBucketKey (lo_per option) (mkBucketContext handlerName user (ge_ip env)) with
  | BucketSkip _ => []
  | BucketKey key =>
      [mkRequest key (mkConfig (rl_limit (lo_config option)) (rl_windowSeconds (lo_config option))
                        (match costOverride with Some c => Some c | None => rl_cost (lo_config option) end))]
  end.

Definition pending_requests (env : GateEnv) (handlerName : string) (user : SessionUser) (costOverride : option Q)
    (charged : option (list (string * RateLimitConfig))) (options : list RateLimitOption) : list RateLimitBucketRequest :=
  filter (λ r, is_charged charged r = false) (options ≫= bucket_request env handlerName user costOverride).

Definition enforceRateLimit (env : GateEnv) (d : RateLimitDeclaration) (handlerName : string) (user : SessionUser)
    (isSystemScope : bool) (costOverride : option Q) (s : GateState) : result Thrown () * GateState :=
  match d with
  | RateLimitDisabled => (Ok tt, s)
  | _ =>
      let effective := resolveEffectiveRateLimits d isSystemScope user (ge_limiter env) in
      match pending_requests env handlerName user costOverride (gs_charged s) effective with
      | [] => (Ok tt, s)
      | pending =>
          match ge_limiter env with
          | None => (Err (ThrewKumiko (InternalError "declares rateLimit but no RateLimitResolver is configured")), s)
          | Some limiter =>
              match enforceBuckets env limiter pending (gs_buckets s) with
              | (Ok _, buckets) =>
                  (Ok tt, mkGateState buckets ((λ l, ((λ r, (rq_bucket r, rq_config r)) <$> pending) ++ l) <$> gs_charged s))
              | (Err (RateLimited _ _), buckets) => (Err (ThrewKumiko RateLimitError), mkGateState buckets (gs_charged s))
              | (Err _, buckets) => (Err (ThrewKumiko RateLimitUnavailableError), mkGateState buckets (gs_charged s))
              end
          end
      end
  end.

(** The bucket requests of the payload fields that were sent. *)
Fixpoint payload_requests (env : GateEnv) (digest : string → string) (handlerName tenantId : string) (data : Row)
    (limits : list PayloadRateLimitOption) : result Thrown (list RateLimitBucketRequest) :=
  match limits with
  | [] => Ok []
  | l :: rest =>
      match assoc_get (po_field l) data with
      | None => payload_requests env digest handlerName tenantId data rest
      | Some (JStr value) =>
          let? more := payload_requests env digest handlerName tenantId data rest in
          Ok (mkRequest (buildPayloadBucketKey tenantId handlerName (po_field l)
                           (digest (ge_normalize env value (po_normalize l)))) (po_config l) :: more)
      | Some _ => Err (ThrewKumiko (InternalError "additionalRateLimits payloadField is not a string"))
      end
  end.

(** A rejection reaches the caller as such; a failing backend as a throw. *)
Definition enforcePayloadRateLimits (env : GateEnv) (limits : option (list PayloadRateLimitOption)) (handlerName : string)
    (user : SessionUser) (data : Json) (s : GateState) : result Thrown () * GateState :=
  match limits with
  | None => (Ok tt, s)
  | Some limits =>
      if isSystemIdentity user then (Ok tt, s)
      else match ge_limiter env, ge_digest env with
           | Some limiter, Some digest =>
               match data with
               | JObj row =>
                   match payload_requests env digest handlerName (us_tenantId user) row limits with
                   | Err t => (Err t, s)
                   | Ok requests =>
                       match enforceBuckets env limiter requests (gs_buckets s) with
                       | (Ok _, buckets) => (Ok tt, mkGateState buckets (gs_charged s))
                       | (Err (RateLimited _ _), buckets) =>
                           (Err (ThrewKumiko RateLimitError), mkGateState buckets (gs_charged s))
                       | (Err _, buckets) => (Err (ThrewOther "rate limit backend"), mkGateState buckets (gs_charged s))
                       end
                   end
               | _ => (Err (ThrewKumiko (InternalError "declares additionalRateLimits but its payload is not an object")), s)
               end
           | _, _ =>
               (Err (ThrewKumiko (InternalError "declares additionalRateLimits but no RateLimitResolver is configured")), s)
           end
  end.

(** ** Validation hooks and field roles *)

(** The hooks of every feature whose kebab name is the scope of the handler. *)
Definition runValidation (reg : GateRegistry) (hookName : string) (data : Json) : result Thrown (list FieldIssue) :=
  match parseQn hookName with
  | Err _ => Err (ThrewOther "invalid qualified name")
  | Ok parsed =>
      Ok (gr_validation reg ≫= λ feature,
            if decide (toKebab feature.1 = pq_scope parsed)
            then match assoc_get (pq_name parsed) feature.2 with Some hook => hook data | None => [] end
            else [])
  end.

Definition carriesTenantOverride (payload : Json) : bool :=
  match prop_of payload "tenantIdOverride" with Some _ => true | None => false end.

Definition mayOverrideTenant (user : SessionUser) : bool := includes (us_roles user) "SystemAdmin".

Definition tenantOverrideDenied (user : SessionUser) (payload : Json) : option WriteErrorInfo :=
  if negb (carriesTenantOverride payload) || mayOverrideTenant user then None
  else Some (AccessDeniedError "tenant_override_requires_system_admin").

(** The written columns: [payload.changes ?? payload]. *)
Definition write_payload (payload : Json) : Row :=
  match nullish (prop_of payload "changes") (Some payload) with Some (JObj row) => row | _ => [] end.

(** ** The gates in order *)

Inductive GateMode := Charge | Recheck.

(** A gate lets the call pass, refuses it with a failure result, or throws. *)
Inductive GateOutcome (A : Type) :=
| Pass (a : A)
| Refused (e : WriteErrorInfo)
| GateThrew (t : Thrown).
Arguments Pass {A} a.
Arguments Refused {A} e.
Arguments GateThrew {A} t.

Definition Gate (A : Type) : Type := GateState → GateOutcome A * GateState.

Definition gbind {A B} (m : Gate A) (f : A → Gate B) : Gate B :=
  λ s, match m s with
       | (Pass a, s') => f a s'
       | (Refused e, s') => (Refused e, s')
       | (GateThrew t, s') => (GateThrew t, s')
       end.

Definition gpass {A} (a : A) : Gate A := λ s, (Pass a, s).

Notation "'let!' x ':=' c1 'in' c2" := (gbind c1 (λ x, c2))
  (at level 10, x pattern, c1 at level 100, c2 at level 200) : kumiko_scope.

Definition refuse_if (e : option WriteErrorInfo) : Gate () :=
  λ s, (match e with Some e => Refused e | None => Pass tt end, s).

(** [catch (e) { if (isKumikoError(e)) return writeFailure(e); throw e; }] *)
Definition catching (r : GateState → result Thrown () * GateState) : Gate () :=
  λ s, match r s with
       | (Ok _, s') => (Pass tt, s')
       | (Err (ThrewKumiko e), s') => (Refused e, s')
       | (Err t, s') => (GateThrew t, s')
       end.

Definition normalizeRateLimitCost (cost : option Q) : result Thrown Q :=
  match cost with
  | None => Err (ThrewKumiko (InternalError "rateLimitCost expected a finite number"))
  | Some q => Ok (inject_Z (Z.max 1 (Qceiling q)))
  end.

Section gates.
Context (env : GateEnv) (reg : GateRegistry) (g : HandlerGates) (type : string) (user : SessionUser) (mode : GateMode).

Definition rejectDisabledFeature : Gate () := refuse_if (checkFeatureEnabled env reg type (us_tenantId user)).

(** [resolveCostOverride] may throw before anything is charged. *)
Definition rejectRateLimited (resolveCostOverride : result Thrown (option Q)) : Gate () :=
  catching (λ s, match resolveCostOverride with
                 | Err t => (Err t, s)
                 | Ok cost => enforceRateLimit env (hg_rateLimit g) type user (gr_isHandlerSystemScoped reg type) cost s
                 end).

Definition rejectPayloadRateLimited (payload : Json) : Gate () :=
  catching (enforcePayloadRateLimits env (hg_additionalRateLimits g) type user payload).

Definition rejectInvalidByHooks (payload : Json) : Gate () :=
  λ s, match runValidation reg type payload with
       | Err t => (GateThrew t, s)
       | Ok [] => (Pass tt, s)
       | Ok issues => (Refused (ValidationError issues), s)
       end.

Definition rejectDeniedFieldRoles (payload : Json) : Gate () :=
  match gr_handlerEntity reg type ≫= gr_entity reg with
  | None => gpass tt
  | Some entity =>
      match payload with
      | JNull => λ s, (GateThrew (ThrewOther "cannot read properties of null"), s)
      | _ => refuse_if ((λ _, AccessDeniedError "field_access_denied")
                          <$> checkWriteFieldRoles entity (write_payload payload) user)
      end
  end.

Definition handler_access : Gate () :=
  refuse_if (if hasAccess (us_roles user) (hg_access g) then None else Some (handlerAccessError user)).

Definition rejectBeforeParse : Gate () :=
  let! _ := rejectDisabledFeature in
  let! _ := match mode, hg_rateLimitCost g with
            | Charge, None => rejectRateLimited (Ok None)
            | _, _ => gpass tt
            end in
  handler_access.

Definition rejectAfterParse (payload : Json) : Gate () :=
  let! _ := refuse_if (tenantOverrideDenied user payload) in
  let! _ := match mode, hg_rateLimitCost g with
            | Charge, Some rateLimitCost =>
                rejectRateLimited (result_map Some (normalizeRateLimitCost (rateLimitCost payload)))
            | _, _ => gpass tt
            end in
  let! _ := match mode with
            | Charge => rejectPayloadRateLimited payload
            | Recheck => gpass tt
            end in
  let! _ := rejectInvalidByHooks payload in
  rejectDeniedFieldRoles payload.

Definition runPreHandlerGates (rawPayload : Json) : Gate Json :=
  let! _ := rejectBeforeParse in
  match hg_schema g rawPayload with
  | Err issues => λ s, (Refused (ValidationError issues), s)
  | Ok payload => let! _ := rejectAfterParse payload in gpass payload
  end.
End gates.

(** ** Specification *)

Section spec.
Context (env : GateEnv) (reg : GateRegistry) (g : HandlerGates) (type : string) (user : SessionUser).
#[local] Set Default Proof Using "Type".

Definition field_roles_pass (payload : Json) : Prop :=
  match gr_handlerEntity reg type ≫= gr_entity reg with
  | None => True
  | Some entity => payload ≠ JNull ∧ checkWriteFieldRoles entity (write_payload payload) user = None
  end.

(** Every condition that only reads. *)
Definition reads_pass (raw payload : Json) : Prop :=
  checkFeatureEnabled env reg type (us_tenantId user) = None ∧
  hasAccess (us_roles user) (hg_access g) = true ∧
  hg_schema g raw = Ok payload ∧
  tenantOverrideDenied user payload = None ∧
  runValidation reg type payload = Ok [] ∧
  field_roles_pass payload.

(** What a call is billed for: its own buckets, by the declared cost or by the
    cost of its payload, and the buckets of its payload fields. *)
Definition billing (payload : Json) : Gate () :=
  let! _ := rejectRateLimited env reg g type user
              (match hg_rateLimitCost g with
               | None => Ok None
               | Some rateLimitCost => result_map Some (normalizeRateLimitCost (rateLimitCost payload))
               end) in
  rejectPayloadRateLimited env g type user payload.

(** ** Lemmas *)

Lemma gbind_Pass {A B} (m : Gate A) (f : A → Gate B) s b s' :
  gbind m f s = (Pass b, s') ↔ ∃ a s1, m s = (Pass a, s1) ∧ f a s1 = (Pass b, s').
Proof.
  unfold gbind. destruct (m s) as [[a|e|t] s1]; split; try (intros; by naive_solver).
Qed.

Lemma gbind_step {B} (m : Gate ()) (f : () → Gate B) s b s' :
  gbind m f s = (Pass b, s') ↔ ∃ s1, m s = (Pass tt, s1) ∧ f tt s1 = (Pass b, s').
Proof. rewrite gbind_Pass. split; [intros ([] & s1 & H)|]; naive_solver. Qed.

Lemma refuse_if_Pass e s u s' : refuse_if e s = (Pass u, s') ↔ e = None ∧ s' = s.
Proof. unfold refuse_if. destruct e, u; naive_solver. Qed.

Lemma gpass_Pass {A} (a b : A) s s' : gpass a s = (Pass b, s') ↔ b = a ∧ s' = s.
Proof. unfold gpass. naive_solver. Qed.

Lemma invalid_by_hooks_Pass payload s u s' :
  rejectInvalidByHooks reg type payload s = (Pass u, s') ↔ runValidation reg type payload = Ok [] ∧ s' = s.
Proof. unfold rejectInvalidByHooks. destruct (runValidation _ _ _) as [[|i l]|t], u; naive_solver. Qed.

Lemma denied_field_roles_Pass payload s u s' :
  rejectDeniedFieldRoles reg type user payload s = (Pass u, s') ↔ field_roles_pass payload ∧ s' = s.
Proof.
  unfold rejectDeniedFieldRoles, field_roles_pass. destruct (_ ≫= _) as [entity|].
  - destruct (checkWriteFieldRoles entity (write_payload payload) user) eqn:E;
      destruct payload; rewrite ?refuse_if_Pass; simpl in *; rewrite ?E; simpl; naive_solver.
  - rewrite gpass_Pass. destruct u. naive_solver.
Qed.

Lemma handler_access_Pass s u s' :
  handler_access g user s = (Pass u, s') ↔ hasAccess (us_roles user) (hg_access g) = true ∧ s' = s.
Proof. unfold handler_access. rewrite refuse_if_Pass. destruct (hasAccess _ _); naive_solver. Qed.

#[local] Opaque handler_access rejectInvalidByHooks rejectDeniedFieldRoles rejectRateLimited rejectPayloadRateLimited.

#[local] Ltac gates := repeat first [setoid_rewrite gbind_step | setoid_rewrite handler_access_Pass
  | setoid_rewrite invalid_by_hooks_Pass | setoid_rewrite denied_field_roles_Pass
  | setoid_rewrite refuse_if_Pass | setoid_rewrite gpass_Pass].

Lemma before_parse_Pass mode s u s' :
  rejectBeforeParse env reg g type user mode s = (Pass u, s') ↔
  checkFeatureEnabled env reg type (us_tenantId user) = None ∧ hasAccess (us_roles user) (hg_access g) = true ∧
  match mode, hg_rateLimitCost g with
  | Charge, None => rejectRateLimited env reg g type user (Ok None) s = (Pass tt, s')
  | _, _ => s' = s
  end.
Proof.
  unfold rejectBeforeParse, rejectDisabledFeature.
  destruct u, mode, (hg_rateLimitCost g); gates; naive_solver.
Qed.

(** C7: A write passes the gates exactly when every check on it passes and, on
    its first pass, the rate limits admit what it is billed: its feature is
    enabled for the tenant, the caller has access, the payload parses, an
    override of the tenant comes from a system administrator, the validation
    hooks find nothing, and the caller may write every field.  The handler gets
    the parsed payload, and a second pass bills nothing. *)
Theorem gates_pass_exactly mode raw p s s' :
  runPreHandlerGates env reg g type user mode raw s = (Pass p, s') ↔
  reads_pass raw p ∧
  match mode with Charge => billing p s = (Pass tt, s') | Recheck => s' = s end.
Proof.
  unfold runPreHandlerGates, reads_pass, billing. rewrite gbind_step. setoid_rewrite before_parse_Pass.
  destruct (hg_schema g raw) as [q|issues] eqn:Hs; [|naive_solver].
  unfold rejectAfterParse. destruct mode, (hg_rateLimitCost g); gates; naive_solver.
Qed.
End spec.

(** ** Charges of one request *)

Lemma same_config_refl c : same_config c c = true.
Proof.
  unfold same_config. destruct c as [l w [cost|]]; simpl;
    rewrite Z.eqb_refl, ?(proj2 (Qeq_bool_iff _ _) (Qeq_refl _)); done.
Qed.

Lemma is_charged_mono l l' r : l ⊆ l' → is_charged (Some l) r = true → is_charged (Some l') r = true.
Proof.
  unfold is_charged. rewrite !existsb_exists. intros Hsub (x & Hx & H). exists x. split; [|done].
  apply list_elem_of_In, Hsub. by apply list_elem_of_In.
Qed.

Lemma is_charged_self l r : (rq_bucket r, rq_config r) ∈ l → is_charged (Some l) r = true.
Proof.
  intros Hin. apply existsb_exists. exists (rq_bucket r, rq_config r). rewrite <- list_elem_of_In.
  split; [done|]. simpl. by rewrite bool_decide_true, same_config_refl.
Qed.

Lemma recorded_is_charged (pending : list RateLimitBucketRequest) l r :
  r ∈ pending → is_charged (Some (((λ r, (rq_bucket r, rq_config r)) <$> pending) ++ l)) r = true.
Proof. intros Hr. apply is_charged_self, elem_of_app. left. apply list_elem_of_fmap. by exists r. Qed.

Lemma pending_requests_nil env h user cost charged options :
  (∀ r, r ∈ options ≫= bucket_request env h user cost → is_charged charged r = true) →
  pending_requests env h user cost charged options = [].
Proof.
  unfold pending_requests. induction (options ≫= _) as [|r rs IH]; intros H; [done|].
  rewrite filter_cons_False by (rewrite H; [done|left]). apply IH. intros x Hx. apply H. by right.
Qed.

Lemma pending_requests_charged env h user cost charged options r :
  r ∈ options ≫= bucket_request env h user cost →
  is_charged charged r = true ∨ r ∈ pending_requests env h user cost charged options.
Proof.
  intros Hr. destruct (is_charged charged r) eqn:E; [by left|right]. by apply list_elem_of_filter.
Qed.

Lemma bucket_request_ip env env' h user cost option :
  ge_ip env = ge_ip env' → bucket_request env h user cost option = bucket_request env' h user cost option.
Proof. unfold bucket_request. by intros ->. Qed.

(** The buckets a successful charge leaves recorded. *)
Lemma charge_records env d h user scope cost s s' l :
  gs_charged s = Some l →
  enforceRateLimit env d h user scope cost s = (Ok tt, s') →
  d = RateLimitDisabled ∨
  ∃ l', gs_charged s' = Some l' ∧ l ⊆ l' ∧
    ∀ r, r ∈ resolveEffectiveRateLimits d scope user (ge_limiter env) ≫= bucket_request env h user cost →
      is_charged (Some l') r = true.
Proof.
  intros Hl. unfold enforceRateLimit. set (options := resolveEffectiveRateLimits d scope user (ge_limiter env)).
  destruct d; [| by left |].
  all: intros H; right; destruct (pending_requests env h user cost (gs_charged s) options) as [|p0 ps] eqn:Hp;
    [injection H as <-; exists l; split_and!; [done|done|intros r Hr];
     pose proof (pending_requests_charged env h user cost (gs_charged s) options r Hr) as [Hc|Hc];
     [by rewrite Hl in Hc|rewrite Hp in Hc; set_solver]|].
  all: destruct (ge_limiter env) as [limiter|]; [|done];
    destruct (enforceBuckets env limiter (p0 :: ps) (gs_buckets s)) as [[[]|[]] buckets]; try done;
    injection H as <-; cbn [gs_charged]; rewrite Hl; cbn [fmap option_fmap option_map];
    eexists; split_and!; [done|set_solver|intros r Hr];
    destruct (pending_requests_charged env h user cost (gs_charged s) options r Hr) as [Hc|Hc];
    [rewrite Hl in Hc; eapply is_charged_mono, Hc; set_solver|];
    apply (recorded_is_charged (p0 :: ps)); by rewrite <- Hp.
Qed.

(** Within one entry dispatch a bucket is billed once: after a call has
    been charged, any later call of the same handler by the same user, at
    whatever time and depth, passes the limits and changes no bucket, as long
    as the request keeps the record of what it was charged for. *)
Theorem nested_call_is_billed_once env env' d h user scope cost s s' t l :
  gs_charged s = Some l →
  enforceRateLimit env d h user scope cost s = (Ok tt, s') →
  ge_limiter env' = ge_limiter env → ge_ip env' = ge_ip env →
  (∃ lt, gs_charged t = Some lt ∧ default [] (gs_charged s') ⊆ lt) →
  enforceRateLimit env' d h user scope cost t = (Ok tt, t).
Proof.
  intros Hl H Hlim Hip (lt & Ht & Hsub). pose proof (charge_records _ _ _ _ _ _ _ _ _ Hl H) as [->|(l' & Hl' & _ & Hall)];
    [done|]. rewrite Hl' in Hsub. simpl in Hsub.
  assert (Hnil : pending_requests env' h user cost (gs_charged t) (resolveEffectiveRateLimits d scope user (ge_limiter env')) = []).
  { apply pending_requests_nil. intros r Hr. rewrite Ht. apply (is_charged_mono l'); [done|]. apply Hall.
    rewrite Hlim in Hr. erewrite list_bind_ext; [exact Hr| |done]. intros o. by apply bucket_request_ip. }
  unfold enforceRateLimit. destruct d; [| done |]; by rewrite Hnil.
Qed.

(** ** Identity switches *)

Lemma hasAccess_subset asUser caller rule :
  (∀ r, r ∈ asUser → r ∈ caller) → (ANONYMOUS_ROLE ∈ caller → ANONYMOUS_ROLE ∈ asUser) →
  hasAccess asUser rule = true → hasAccess caller rule = true.
Proof.
  intros Hsub Hanon. unfold hasAccess. destruct rule as [[reason|roles any]|]; [..|done].
  - rewrite !andb_true_iff, !negb_true_iff, <- !not_true_iff_false, !includes_true. naive_solver.
  - destruct roles as [|r0 roles]; [done|].
    rewrite !orb_true_iff, !andb_true_iff, !negb_true_iff, <- !not_true_iff_false, !existsb_exists.
    setoid_rewrite includes_true. naive_solver.
Qed.

(** C30: Without a grant a handler switches identity only to its own caller:
    the same user, tenant and session origin, never the system.  Unless the
    switch drops the anonymous role, it opens no handler the caller could not
    call itself. *)
Theorem ungranted_switch_never_widens caller asUser rule :
  isIdentitySwitchAllowed (Some caller) asUser false = true →
  us_id (pr_user asUser) = us_id (pr_user caller) ∧
  us_tenantId (pr_user asUser) = us_tenantId (pr_user caller) ∧
  isMemberResolutionPrincipal asUser = isMemberResolutionPrincipal caller ∧
  isSystemIdentity (pr_user asUser) = false ∧
  (isAnonymousSessionUser (pr_user asUser) = isAnonymousSessionUser (pr_user caller) →
   hasAccess (us_roles (pr_user asUser)) rule = true → hasAccess (us_roles (pr_user caller)) rule = true).
Proof.
  unfold isIdentitySwitchAllowed. destruct (isSystemIdentity (pr_user asUser)); [done|].
  unfold isSelfDelegation. rewrite !andb_true_iff, !bool_decide_eq_true, forallb_forall.
  intros ((((Hid & Ht) & Ho) & Hroles) & _). split_and!; try done.
  - unfold isMemberResolutionPrincipal. by rewrite Ho.
  - unfold isAnonymousSessionUser. intros Ha. apply hasAccess_subset.
    + intros r Hr. apply includes_true, Hroles. by apply list_elem_of_In.
    + rewrite <- !includes_true. congruence.
Qed.

(** ** Witnesses *)

Definition clerk : SessionUser := mkUser "u1" "t1" ["clerk"] None.
Definition visitor : SessionUser := mkUser "anon" "t1" [ANONYMOUS_ROLE] None.

Definition order_gates : HandlerGates :=
  mkGates (Some (RoleAccessRule ["clerk"] false)) (RateLimits [mkLimit PerUser (mkConfig 2 60 None)]) None None
    (λ raw, match prop_of raw "amount" with Some (JNum _) => Ok raw | _ => Err [mkIssue "amount" "invalid_type"] end).

Definition order_reg : GateRegistry :=
  mkGateRegistry (λ _, Some "shop") (λ _, false) (λ _, None) (λ _, None) [].

Definition order_env : GateEnv := mkGateEnv None None (Some (true, "rl:")) None (λ v _, v) None 0 0.

Definition order_payload : Json := JObj [("amount", JNum 3)].

Definition fresh_gates : GateState := mkGateState ∅ (Some []).

(** The gates on a request that passes, and what it leaves. *)
Definition order_run (s : GateState) : GateOutcome Json * GateState :=
  runPreHandlerGates order_env order_reg order_gates "shop:write:order:create" clerk Charge order_payload s.

Definition charged_keys (s : GateState) : list string := (default [] (gs_charged s)).*1.

Definition tokens_left (s : GateState) (key : string) : Q := from_option b_tokens 0%Q (gs_buckets s !! key).

Example order_passes :
  match order_run fresh_gates with
  | (Pass p, s') => bool_decide (charged_keys s' = ["user:u1"])
      && match order_run s' with
         | (Pass _, s'') => Qeq_bool (tokens_left s' "rl:user:u1") 1 && Qeq_bool (tokens_left s'' "rl:user:u1") 1
         | _ => false
         end
  | _ => false
  end = true.
Proof. vm_compute. reflexivity. Qed.

Definition charge_once : result Thrown () * GateState :=
  enforceRateLimit order_env (hg_rateLimit order_gates) "shop:write:order:create" clerk false None fresh_gates.

Lemma charge_once_ok : charge_once = (Ok tt, charge_once.2).
Proof. vm_compute. reflexivity. Qed.

Lemma charge_once_recorded : gs_charged charge_once.2 = Some (default [] (gs_charged charge_once.2)).
Proof. vm_compute. reflexivity. Qed.

Lemma nested_call_is_billed_once_witness :
  gs_charged fresh_gates = Some [] ∧
  enforceRateLimit (mkGateEnv None None (Some (true, "rl:")) None (λ v _, v) None 5 5)
    (hg_rateLimit order_gates) "shop:write:order:create" clerk false None charge_once.2 = (Ok tt, charge_once.2).
Proof.
  split; [reflexivity|].
  apply (nested_call_is_billed_once order_env
           (mkGateEnv None None (Some (true, "rl:")) None (λ v _, v) None 5 5)
           (hg_rateLimit order_gates) "shop:write:order:create" clerk false None fresh_gates charge_once.2
           charge_once.2 [] eq_refl charge_once_ok eq_refl eq_refl).
  exists (default [] (gs_charged charge_once.2)). split; [exact charge_once_recorded|]. intros x Hx. exact Hx.
Defined.

Lemma ungranted_switch_never_widens_witness :
  isIdentitySwitchAllowed (Some (mkPrincipal (mkUser "u1" "t1" ["clerk"; "admin"] None) None)) (mkPrincipal clerk None) false = true ∧
  isSystemIdentity (pr_user (mkPrincipal clerk None)) = false.
Proof.
  split; [vm_compute; reflexivity|].
  apply (ungranted_switch_never_widens (mkPrincipal (mkUser "u1" "t1" ["clerk"; "admin"] None) None) (mkPrincipal clerk None)
           (Some (RoleAccessRule ["clerk"] false)) ltac:(vm_compute; reflexivity)).
Defined.

(** A subset of the roles may lack the anonymous one: the same visitor then
    counts as signed in. *)
Lemma dropped_anonymous_role_opens_handlers :
  let signed_in := mkPrincipal (mkUser "anon" "t1" [] None) None in
  let rule := Some (OpenToAllRule (Some "every signed-in user")) in
  isIdentitySwitchAllowed (Some (mkPrincipal visitor None)) signed_in false = true ∧
  hasAccess (us_roles visitor) rule = false ∧ hasAccess (us_roles (pr_user signed_in)) rule = true.
Proof. vm_compute. done. Qed.
