(* ===== verification/SecretLeak.v ===== *)
(** * Secrets in answers

    [secrets/leak-guard.ts] with the brand of [types/src/secrets-types.ts].
    Answers are JSON values: class instances, [Map]s and [Set]s are left out, and
    a symbol key is a string key that starts with [@@]. *)

From S2P Require Import Prelude FieldAccess TransitionGuard Gates.

Open Scope string_scope.
Open Scope list_scope.

Definition SecretBrand : string := "@@kumiko.secret".

Definition isSecret (v : Json) : bool :=
  match v with JObj kvs => bool_decide (SecretBrand ∈ kvs.*1) | _ => false end.

Definition MAX_DEPTH : nat := 12.

(** [room]: how many levels the walk still descends. *)
Fixpoint leaks (room : nat) (v : Json) : bool :=
  isSecret v
  || match room with
     | O => false
     | S room => match v with
                 | JArr l => existsb (leaks room) l
                 | JObj kvs => existsb (λ kv, leaks room kv.2) kvs
                 | _ => false
                 end
     end.

Definition assertNoSecretLeak (value : option Json) : option Thrown :=
  match value with
  | Some v => if leaks MAX_DEPTH v then Some (ThrewKumiko (InternalError "Secret<> leaked into response")) else None
  | None => None
  end.

(** ** The leak guard *)

(** [inside k v w]: [w] lies [k] levels below [v]. *)
Inductive inside : nat → Json → Json → Prop :=
| inside_here v : inside 0 v v
| inside_item k l x w : x ∈ l → inside k x w → inside (S k) (JArr l) w
| inside_member k kvs kv w : kv ∈ kvs → inside k kv.2 w → inside (S k) (JObj kvs) w.

Lemma leaks_spec room v : leaks room v = true ↔ ∃ k w, (k <= room)%nat ∧ inside k v w ∧ isSecret w = true.
Proof.
  revert v. induction room as [|room IH]; intros v; cbn [leaks]; rewrite orb_true_iff; split.
  - intros [H|H]; [|done]. exists 0%nat, v. split; [lia|]. split; [constructor|done].
  - intros (k & w & Hk & Hi & Hw). left. inversion Hi; subst; [done|lia..].
  - intros [H|H]; [exists 0%nat, v; split; [lia|]; split; [constructor|done]|].
    destruct v as [| | | |l|kvs]; try done; apply existsb_exists in H as (x & Hx%list_elem_of_In & H); apply IH in H as (k & w & Hk & Hi & Hw);
      exists (S k), w; split; [lia| |lia|]; (split; [by econstructor|done]).
  - intros (k & w & Hk & Hi & Hw). destruct Hi as [v|k l x w Hx Hi|k kvs kv w Hx Hi]; [by left| |]; right;
      apply existsb_exists; [exists x|exists kv]; (split; [by apply list_elem_of_In|]); apply IH; exists k, w; (split; [lia|done]).
Qed.

Lemma no_leak v x : assertNoSecretLeak v = None → v = Some x → ∀ k w, (k <= MAX_DEPTH)%nat → inside k x w → isSecret w = false.
Proof.
  unfold assertNoSecretLeak. intros H -> k w Hk Hi. destruct (isSecret w) eqn:Hw; [|done].
  assert (leaks MAX_DEPTH x = true) as Hl by (apply leaks_spec; by exists k, w). by rewrite Hl in H.
Qed.
