(* ===== verification/WriteOrigin.v ===== *)
(** * Write origins and the personal-data gate

    [pipeline/write-origin.ts] and [engine/personal-data-fields.ts]: which root
    handler a write goes back to, and the gate that keeps a write with an
    anonymous root out of the columns that hold personal data, however deep it
    is nested. *)

From S2P Require Import Prelude Origins TableInfo Ownership FieldAccess Gates.

Open Scope string_scope.
Open Scope list_scope.

(** ** Personal data of an entity *)

Record PiiFlags := mkPii {
  pii : bool;
  userOwned : option string;
  recordOwned : bool }.

Record PersonalEntity := mkPersonal {
  pe_fields : list (string * PiiFlags);
  pe_write : option OwnershipMap }.

Definition isPersonalDataField (annot : PiiFlags) : bool :=
  pii annot || bool_decide (is_Some (userOwned annot)) || recordOwned annot.

Definition isCallerIdRuleOn (rule : OwnershipRule) (column : string) : bool :=
  match rule with
  | RuleFrom r => match fr_refKind r with
                  | KindUser => bool_decide (fr_refPath r = "id") && bool_decide (fr_column r = column)
                  | KindClaim => false
                  end
  | _ => false
  end.

Definition writeMapBindsRowsToCaller (writeMap : option OwnershipMap) (ownerColumn : string) : bool :=
  match default [] writeMap with
  | [] => false
  | rules => forallb (λ kv, isCallerIdRuleOn kv.2 ownerColumn) rules
  end.

Definition ROW_ID_COLUMN : string := "id".

Definition callerBindingColumn (annot : PiiFlags) : option string :=
  match userOwned annot with
  | Some ownerField => Some ownerField
  | None => if pii annot || recordOwned annot then Some ROW_ID_COLUMN else None
  end.

Definition isOwnerBoundField (annot : PiiFlags) (entity : PersonalEntity) : bool :=
  match callerBindingColumn annot with
  | Some column => writeMapBindsRowsToCaller (pe_write entity) column
  | None => false
  end.

Definition personalFieldNames (entity : PersonalEntity) (honorOwnerBinding : bool) : list string :=
  (filter (λ nf, isPersonalDataField nf.2 && negb (honorOwnerBinding && isOwnerBoundField nf.2 entity) = true)
     (pe_fields entity)).*1.

(** ** Declared access *)

(** An access rule with the [personalData] it declares. *)
Record AccessDeclaration := mkAccess { ad_rule : AccessRule; ad_personalData : option string }.

Definition declaredPersonalData (access : AccessDeclaration) : option string := ad_personalData access.

Definition accessAllowsAnonymous (access : AccessDeclaration) : bool :=
  match ad_rule access with
  | OpenToAllRule _ => false
  | RoleAccessRule roles _ => includes roles ANONYMOUS_ROLE
  end.

Definition declaresPublicIntake (access : AccessDeclaration) : bool :=
  accessAllowsAnonymous access && bool_decide (declaredPersonalData access = Some "public-intake").

(** ** Origins *)

Definition effectiveWriteOrigin (root : WriteOrigin) (inherited : option WriteOrigin) : WriteOrigin :=
  match inherited with
  | None => root
  | Some i => if isPersonalDataGated root then root else if isPersonalDataGated i then i else root
  end.

Definition rootWriteOrigin (handlerAccess : string → option AccessDeclaration) (type : string) (user : SessionUser)
    : WriteOrigin :=
  mkOrigin type (includes (us_roles user) ANONYMOUS_ROLE)
    (match handlerAccess type with Some access => declaresPublicIntake access | None => false end) None.

(** ** The gate *)

Definition personalColumnNames (entity : PersonalEntity) : list string :=
  toSnakeCase <$> personalFieldNames entity false.

(** The tables of the registry's entities with the personal columns of each. *)
Definition buildPersonalDataTableMap (entities : list (string * PersonalEntity)) : gmap string (list string) :=
  foldl (λ m te, match personalColumnNames te.2 with [] => m | columns => <[te.1 := columns]> m end) ∅ entities.

Definition publicIntakeRequiredError : WriteErrorInfo := AccessDeniedError "public_intake_required".

Definition offending_columns (personal keys : list string) : list string :=
  filter (λ k, includes personal k = true) (dedupe (toSnakeCase <$> keys)).

Definition personalDataGate (entities : list (string * PersonalEntity)) (origin : WriteOrigin)
    (tableName : string) (keys : list string) (entity : option PersonalEntity) : option WriteErrorInfo :=
  if negb (isPersonalDataGated origin) then None
  else match match entity with
             | Some e => Some (personalColumnNames e)
             | None => buildPersonalDataTableMap entities !! tableName
             end with
       | None => None
       | Some personal => match offending_columns personal keys with [] => None | _ => Some publicIntakeRequiredError end
       end.

(** ** Lemmas *)

(** An inherited gate is never lifted, and neither is the root's own. *)
Lemma effectiveWriteOrigin_gated root inherited :
  isPersonalDataGated (effectiveWriteOrigin root inherited)
    = isPersonalDataGated root || from_option isPersonalDataGated false inherited.
Proof.
  unfold effectiveWriteOrigin. destruct inherited as [i|]; simpl; [|by rewrite orb_false_r].
  destruct (isPersonalDataGated root) eqn:Hr; [by rewrite Hr|].
  destruct (isPersonalDataGated i) eqn:Hi; [by rewrite Hi|by rewrite Hr].
Qed.

Lemma offending_columns_nil personal keys :
  offending_columns personal keys = [] ↔ ∀ k, k ∈ keys → toSnakeCase k ∉ personal.
Proof.
  unfold offending_columns. split.
  - intros Hnil k Hk Hp. assert (Hin : toSnakeCase k ∈ filter (λ k, includes personal k = true) (dedupe (toSnakeCase <$> keys))).
    { apply list_elem_of_filter. split; [by apply includes_true|]. apply elem_of_dedupe, list_elem_of_fmap. by exists k. }
    rewrite Hnil in Hin. set_solver.
  - intros Hall. destruct (filter _ _) as [|c l] eqn:Hf; [done|]. exfalso.
    assert (Hin : c ∈ c :: l) by left. rewrite <- Hf in Hin. apply list_elem_of_filter in Hin as [Hc Hd].
    apply elem_of_dedupe, list_elem_of_fmap in Hd as (k & -> & Hk). by apply (Hall k Hk), includes_true.
Qed.

(** A gated origin may write a table exactly when no written column holds
    personal data. *)
Lemma personalDataGate_decides entities origin tableName keys entity :
  personalDataGate entities origin tableName keys entity = None ↔
  isPersonalDataGated origin = false ∨
  ∀ personal, (match entity with Some e => Some (personalColumnNames e) | None => buildPersonalDataTableMap entities !! tableName end) = Some personal →
    ∀ k, k ∈ keys → toSnakeCase k ∉ personal.
Proof.
  unfold personalDataGate. destruct (isPersonalDataGated origin); simpl; [|naive_solver].
  destruct (match entity with Some e => _ | None => _ end) as [personal|]; [|naive_solver].
  pose proof (offending_columns_nil personal keys) as Hn.
  destruct (offending_columns personal keys); naive_solver.
Qed.
