(* ===== verification/ClientMasking.v ===== *)
(** * What leaves the dispatcher

    [pipeline/write-result-masking.ts]: the values of write-only fields and the
    events that lifecycle results carry are removed from a result before a
    client or the idempotency cache sees it. *)

From S2P Require Import Prelude Ownership FieldAccess TransitionGuard Gates.

Open Scope string_scope.
Open Scope list_scope.

(** ** Results *)

(** [result.isSuccess] with its data and the lifecycle beside it. *)
Inductive WriteResult :=
| WriteSuccess (data : Json) (lifecycle : option Json)
| WriteFailed (error : WriteErrorInfo).

Inductive BatchResult :=
| BatchOk (results : list WriteResult)
| BatchFailed (error : WriteErrorInfo) (failedIndex : nat) (results : list WriteResult).

Definition batch_results (b : BatchResult) : list WriteResult :=
  match b with BatchOk rs => rs | BatchFailed _ _ rs => rs end.

Definition writeFailure (e : WriteErrorInfo) : WriteResult := WriteFailed e.

Definition isSuccess (r : WriteResult) : bool := match r with WriteSuccess _ _ => true | WriteFailed _ => false end.

Inductive LifecycleKind := KindSave | KindDelete.

(** [isLifecycleResult], with the kind it finds. *)
Definition lifecycle_kind (data : Json) : option LifecycleKind :=
  match prop_of data "kind" with
  | Some (JStr k) => if decide (k = "save") then Some KindSave else if decide (k = "delete") then Some KindDelete else None
  | _ => None
  end.

Definition isLifecycleResult (data : Json) : bool := bool_decide (is_Some (lifecycle_kind data)).

(** ** Masking *)

Definition MAX_NESTED_EVENT_STRIP_DEPTH : nat := 8.

(** [fuel] levels are walked; the source starts at depth 0 and stops past the
    maximum. *)
Fixpoint strip_levels (fuel : nat) (value : Json) : Json :=
  match fuel with
  | O => value
  | S fuel =>
      match value with
      | JArr items => JArr (strip_levels fuel <$> items)
      | JObj entries =>
          let isNestedLifecycle := isLifecycleResult value && bool_decide (is_Some (assoc_get "event" entries)) in
          JObj ((λ kv, (kv.1, strip_levels fuel kv.2))
                  <$> (if isNestedLifecycle then filter (λ kv, kv.1 ≠ "event") entries else entries))
      | _ => value
      end
  end.

Definition stripNestedEchoedEvents (value : Json) : Json := strip_levels (S MAX_NESTED_EVENT_STRIP_DEPTH) value.

(** [maskWriteOnlyFields] on a property of a lifecycle result: a missing one
    spreads to an empty object. *)
Definition mask_prop (entity : Entity) (key : string) (kvs : Row) : Row :=
  match assoc_get key kvs with
  | Some (JObj row) => assoc_set key (JObj (maskWriteOnlyFields entity row)) kvs
  | Some _ => kvs
  | None => match writeOnlyFieldNames entity with [] => kvs | _ => assoc_set key (JObj []) kvs end
  end.

Definition maskLifecycleOrRow (entity : option Entity) (data : Json) : Json :=
  match data with
  | JObj entries =>
      match lifecycle_kind data with
      | None =>
          match entity, stripNestedEchoedEvents data with
          | Some entity, JObj row => JObj (maskWriteOnlyFields entity row)
          | _, row => row
          end
      | Some kind =>
          let lifecycle := assoc_delete "event" entries in
          match entity, kind with
          | None, _ => JObj lifecycle
          | Some entity, KindSave =>
              JObj (mask_prop entity "previous" (mask_prop entity "changes" (mask_prop entity "data" lifecycle)))
          | Some entity, KindDelete => JObj (mask_prop entity "data" lifecycle)
          end
      end
  | _ => stripNestedEchoedEvents data
  end.

Definition maskWriteResultForClient (reg : GateRegistry) (handlerType : string) (result : WriteResult) : WriteResult :=
  match result with
  | WriteFailed e => WriteFailed e
  | WriteSuccess data _ => WriteSuccess (maskLifecycleOrRow (gr_handlerEntity reg handlerType ≫= gr_entity reg) data) None
  end.

(** Results beyond the commands are left as they are. *)
Fixpoint mask_results (reg : GateRegistry) (types : list string) (results : list WriteResult) : list WriteResult :=
  match results, types with
  | r :: results, type :: types => maskWriteResultForClient reg type r :: mask_results reg types results
  | _, _ => results
  end.

Definition maskBatchResultForClient (reg : GateRegistry) (types : list string) (batch : BatchResult) : BatchResult :=
  match batch with
  | BatchOk results => BatchOk (mask_results reg types results)
  | BatchFailed e i results => BatchFailed e i (mask_results reg types results)
  end.

(** ** Specification *)

(** No lifecycle result within [fuel] levels carries its event. *)
Fixpoint no_echo (fuel : nat) (value : Json) : Prop :=
  match fuel with
  | O => True
  | S fuel =>
      match value with
      | JArr items => Forall (no_echo fuel) items
      | JObj entries =>
          (isLifecycleResult value = true → assoc_get "event" entries = None) ∧ Forall (λ kv, no_echo fuel kv.2) entries
      | _ => True
      end
  end.

Definition masked_value (v : Json) : Prop := v = JNull ∨ v = JBool true.

(** Every write-only field of a row reads as set or not set. *)
Definition row_masked (entity : Entity) (row : Row) : Prop :=
  ∀ name v, name ∈ writeOnlyFieldNames entity → assoc_get name row = Some v → masked_value v.

Definition prop_masked (entity : Entity) (key : string) (kvs : Row) : Prop :=
  ∀ row, assoc_get key kvs = Some (JObj row) → row_masked entity row.

(** ** Lemmas *)

Lemma maskWriteOnlyValue_masked v : masked_value (maskWriteOnlyValue v).
Proof. unfold masked_value, maskWriteOnlyValue. destruct v as [[| | |s| |]|]; auto. case_decide; auto. Qed.

(** One step of the loop masks its name and keeps the others as they are. *)
Lemma mask_step name n row v :
  assoc_get n (match assoc_get name row with
               | Some w => assoc_set name (maskWriteOnlyValue (Some w)) row
               | None => row
               end) = Some v →
  (n = name ∧ masked_value v) ∨ (n ≠ name ∧ assoc_get n row = Some v).
Proof.
  destruct (decide (n = name)) as [->|Hne]; destruct (assoc_get name row) as [w|] eqn:Hw.
  - rewrite assoc_get_set_eq. intros [= <-]. left. split; [done|apply (maskWriteOnlyValue_masked (Some w))].
  - by rewrite Hw.
  - rewrite assoc_get_set_ne by done. by right.
  - by right.
Qed.

Lemma mask_loop names row n v :
  assoc_get n (foldl (λ masked name, match assoc_get name masked with
                                     | Some w => assoc_set name (maskWriteOnlyValue (Some w)) masked
                                     | None => masked
                                     end) row names) = Some v →
  masked_value v ∨ (n ∉ names ∧ assoc_get n row = Some v).
Proof.
  revert row. induction names as [|name names IH]; intros row; simpl; [intros; right; set_solver|].
  intros [Hm|[Hn Hr]]%IH; [by left|]. apply mask_step in Hr as [[-> Hm]|[Hne Hr]]; [by left|right; set_solver].
Qed.

Lemma row_masked_mask entity row : row_masked entity (maskWriteOnlyFields entity row).
Proof. intros name v Hin Hv. by apply mask_loop in Hv as [|[? _]]. Qed.

Lemma prop_masked_mask entity key kvs : prop_masked entity key (mask_prop entity key kvs).
Proof.
  unfold prop_masked, mask_prop. destruct (assoc_get key kvs) as [v|] eqn:Hv.
  - destruct v; try (intros row; rewrite Hv; congruence). intros row. rewrite assoc_get_set_eq. intros [= <-].
    apply row_masked_mask.
  - destruct (writeOnlyFieldNames entity) eqn:Hw; intros row; [congruence|]. rewrite assoc_get_set_eq. intros [= <-].
    intros name v _. done.
Qed.

Lemma mask_prop_other entity key k kvs : k ≠ key → assoc_get k (mask_prop entity key kvs) = assoc_get k kvs.
Proof.
  intros Hne. unfold mask_prop. destruct (assoc_get key kvs) as [[]|]; try done; [by rewrite assoc_get_set_ne|].
  destruct (writeOnlyFieldNames entity); [done|]. by rewrite assoc_get_set_ne.
Qed.

Lemma prop_masked_other entity key k kvs :
  k ≠ key → prop_masked entity k kvs → prop_masked entity k (mask_prop entity key kvs).
Proof. intros Hne Hm row. rewrite mask_prop_other by done. apply Hm. Qed.

Lemma assoc_get_values {V W} (f : V → W) k (m : list (string * V)) :
  assoc_get k ((λ kv, (kv.1, f kv.2)) <$> m) = f <$> assoc_get k m.
Proof. induction m as [|[k' v] m IH]; simpl; [done|]. case_decide; [done|apply IH]. Qed.

Lemma assoc_get_without k k' (m : list (string * Json)) :
  k ≠ k' → assoc_get k (filter (λ kv : string * Json, kv.1 ≠ k') m) = assoc_get k m.
Proof.
  intros Hne. induction m as [|[k0 v] m IH]; [done|]. destruct (decide (k0 = k')) as [->|Hk].
  - rewrite filter_cons_False by (simpl; naive_solver). simpl. by case_decide.
  - rewrite filter_cons_True by done. simpl. case_decide; [done|apply IH].
Qed.

Lemma assoc_get_without_eq k (m : list (string * Json)) : assoc_get k (filter (λ kv : string * Json, kv.1 ≠ k) m) = None.
Proof. apply assoc_get_None. intros ([k' v] & -> & Hin)%list_elem_of_fmap. by apply list_elem_of_filter in Hin as [? _]. Qed.

(** Stripping keeps the kind of a value, so it makes no lifecycle result. *)
Lemma lifecycle_of_stripped fuel (entries entries' : Row) :
  assoc_get "kind" entries' = assoc_get "kind" entries →
  isLifecycleResult (JObj ((λ kv, (kv.1, strip_levels fuel kv.2)) <$> entries')) = isLifecycleResult (JObj entries).
Proof.
  intros Hk. unfold isLifecycleResult, lifecycle_kind, prop_of. rewrite assoc_get_values, Hk.
  destruct (assoc_get "kind" entries) as [[]|], fuel; done.
Qed.

Lemma strip_no_echo fuel value : no_echo fuel (strip_levels fuel value).
Proof.
  revert value. induction fuel as [|fuel IH]; intros value; [done|]. destruct value as [| | | |items|entries]; try done.
  - simpl. apply Forall_fmap, Forall_true. intros x. apply IH.
  - cbn [strip_levels].
    set (echo := isLifecycleResult (JObj entries) && bool_decide (is_Some (assoc_get "event" entries))).
    set (entries' := if echo then filter (λ kv, kv.1 ≠ "event") entries else entries).
    cbn [no_echo]. split.
    + assert (Hk : assoc_get "kind" entries' = assoc_get "kind" entries)
        by (unfold entries'; destruct echo; [by apply assoc_get_without|done]).
      rewrite (lifecycle_of_stripped fuel entries entries' Hk). intros Hl. rewrite assoc_get_values. subst entries' echo.
      rewrite Hl. simpl. destruct (bool_decide_reflect (is_Some (assoc_get "event" entries))) as [_|Hn].
      * by rewrite assoc_get_without_eq.
      * destruct (assoc_get "event" entries) eqn:He; [|done]. destruct Hn. by eexists.
    + apply Forall_fmap, Forall_true. intros kv. apply IH.
Qed.

Lemma Forall_assoc_set {V} (P : V → Prop) k v (m : list (string * V)) :
  P v → Forall (λ kv, P kv.2) m → Forall (λ kv, P kv.2) (assoc_set k v m).
Proof.
  intros Hv. induction 1 as [|[k' v'] m Hk Hm IH]; simpl; [by repeat constructor|].
  case_decide; by constructor.
Qed.

Lemma no_echo_masked fuel v : masked_value v → no_echo fuel v.
Proof. by intros [-> | ->]; destruct fuel. Qed.

Lemma no_echo_mask fuel entity row :
  no_echo (S fuel) (JObj row) → no_echo (S fuel) (JObj (maskWriteOnlyFields entity row)).
Proof.
  unfold maskWriteOnlyFields. revert row. induction (writeOnlyFieldNames entity) as [|name names IH]; intros row Hrow; [done|].
  cbn [foldl]. apply IH. destruct (assoc_get name row) as [w|] eqn:Hw; [|done].
  pose proof (maskWriteOnlyValue_masked (Some w)) as Hm. destruct Hrow as [Hev Hall]. split.
  - unfold isLifecycleResult, lifecycle_kind, prop_of in *. destruct (decide (name = "kind")) as [->|Hk].
    + rewrite assoc_get_set_eq. destruct Hm as [-> | ->]; done.
    + rewrite assoc_get_set_ne by done. intros Hl. specialize (Hev Hl). destruct (decide (name = "event")) as [->|He]; [congruence|].
      by rewrite assoc_get_set_ne.
  - apply Forall_assoc_set; [by apply no_echo_masked|done].
Qed.

(** What a client and the idempotency cache get of a successful write holds
    no plaintext: the lifecycle beside the data is dropped; a lifecycle result
    loses its event and shows every write-only field of its rows as set or not
    set; any other result is masked the same way and carries no lifecycle
    result with an event within the walked depth. *)
Theorem client_results_are_masked reg type data lifecycle :
  ∃ out, maskWriteResultForClient reg type (WriteSuccess data lifecycle) = WriteSuccess out None ∧
  let entity := gr_handlerEntity reg type ≫= gr_entity reg in
  match lifecycle_kind data with
  | None => no_echo (S MAX_NESTED_EVENT_STRIP_DEPTH) out ∧ ∀ e row, entity = Some e → out = JObj row → row_masked e row
  | Some kind =>
      ∃ kvs, out = JObj kvs ∧ assoc_get "event" kvs = None ∧
        ∀ e, entity = Some e → prop_masked e "data" kvs ∧
          (kind = KindSave → prop_masked e "changes" kvs ∧ prop_masked e "previous" kvs)
  end.
Proof.
  eexists; split; [done|]. cbv zeta. set (entity := gr_handlerEntity reg type ≫= gr_entity reg).
  pose proof (strip_no_echo (S MAX_NESTED_EVENT_STRIP_DEPTH) data) as Hstrip. fold (stripNestedEchoedEvents data) in Hstrip.
  destruct data as [| | | |items|entries]; try (split; [exact Hstrip|done]).
  unfold maskLifecycleOrRow. destruct (lifecycle_kind (JObj entries)) as [kind|].
  - assert (Hdel : assoc_get "event" (assoc_delete "event" entries) = None) by apply assoc_get_delete_eq.
    destruct entity as [e|]; [destruct kind|]; eexists; split; try done; split;
      rewrite ?mask_prop_other by done; try done; intros e' [= <-]; split; try done;
      repeat (apply prop_masked_other; [done|]); try (by apply prop_masked_mask).
    intros _. split; repeat (apply prop_masked_other; [done|]); apply prop_masked_mask.
  - destruct entity as [e|]; [|split; [exact Hstrip|done]].
    change (stripNestedEchoedEvents (JObj entries)) with (strip_levels 9 (JObj entries)) in *.
    cbn [strip_levels] in *. split; [by apply no_echo_mask|]. intros e' row [= <-] [= <-]. apply row_masked_mask.
Qed.

(** ** Witness *)

Definition secret_entity : Entity := [("apiKey", mkField (FieldText true) None None); ("name", mkField (FieldText false) None None)].

Definition secret_reg : GateRegistry := mkGateRegistry (λ _, None) (λ _, false) (λ _, Some "conn") (λ _, Some secret_entity) [].

Example masked_save :
  maskWriteResultForClient secret_reg "shop:write:conn:create"
    (WriteSuccess (JObj [("kind", JStr "save"); ("data", JObj [("apiKey", JStr "k1"); ("name", JStr "n")]); ("event", JStr "plaintext")]) None)
  = WriteSuccess (JObj [("kind", JStr "save"); ("data", JObj [("apiKey", JBool true); ("name", JStr "n")]);
                        ("changes", JObj []); ("previous", JObj [])]) None.
Proof. vm_compute. reflexivity. Qed.
