(* ===== verification/CommitSinks.v ===== *)
(** * Commit and rollback sinks

    [pipeline/after-rollback-sink.ts] with the merging of a savepoint's sinks in
    [handler-context-dispatch.ts].  What the dispatcher needs of its sinks is
    the class [SinkOps]: the source's pair of lists is one instance; a ledger
    that keeps, for every savepoint, what was registered in it and whether it was
    rolled back, is another and says which hooks have to run. *)

From S2P Require Import Prelude.

Open Scope list_scope.

Class SinkOps (H S : Type) := {
  no_hooks : S;
  push_commit : H → S → S;
  push_rollback : H → S → S;
  carry_savepoint : bool → S → S → S;
  sink_length : S → nat;
  rewrap_hooks : (H → H) → nat → S → S;
  commit_hooks : S → list H;
  rollback_hooks : S → list H }.

(** ** The source's sinks *)

Record Sinks (H : Type) := mkSinks { commitSink : list H; rollbackSink : list H }.
Arguments mkSinks {H}.
Arguments commitSink {H}.
Arguments rollbackSink {H}.

Section sinks.
Context {H : Type}.

Definition afterRollbackHooksOf (s : Sinks H) : list H := rollbackSink s.

Definition scheduleAfterCommit (hook : H) (s : Sinks H) : Sinks H := mkSinks (commitSink s ++ [hook]) (rollbackSink s).

Definition scheduleAfterRollback (hook : H) (s : Sinks H) : Sinks H :=
  mkSinks (commitSink s) (afterRollbackHooksOf s ++ [hook]).

Definition carrySavepointRollbackHooks (savepointRolledBack : bool) (inner outer : Sinks H) : Sinks H :=
  mkSinks (commitSink outer ++ (if savepointRolledBack then afterRollbackHooksOf inner else []))
    (afterRollbackHooksOf outer ++ afterRollbackHooksOf inner).

(** The end of a savepoint: [bridgeSink.push(...innerAfterCommitHooks)] only if
    it was kept. *)
Definition leave_savepoint (savepointRolledBack : bool) (inner outer : Sinks H) : Sinks H :=
  carrySavepointRollbackHooks savepointRolledBack inner
    (if savepointRolledBack then outer else mkSinks (commitSink outer ++ commitSink inner) (rollbackSink outer)).

Definition rewrapHooksWithOrigin (rewrap : H → H) (fromIndex : nat) (s : Sinks H) : Sinks H :=
  mkSinks (take fromIndex (commitSink s) ++ (rewrap <$> drop fromIndex (commitSink s))) (rollbackSink s).

#[export] Instance source_sinks : SinkOps H (Sinks H) := {|
  no_hooks := mkSinks [] [];
  push_commit := scheduleAfterCommit;
  push_rollback := scheduleAfterRollback;
  carry_savepoint := leave_savepoint;
  sink_length := λ s, length (commitSink s);
  rewrap_hooks := rewrapHooksWithOrigin;
  commit_hooks := commitSink;
  rollback_hooks := rollbackSink |}.

(** ** The ledger *)

(** A registration, or a savepoint with what happened in it. *)
Inductive Entry :=
| OnCommit (hook : H)
| OnRollback (hook : H)
| Savepoint (rolledBack : bool) (entries : list Entry).

(** The compensations registered anywhere below. *)
Fixpoint compensations (e : Entry) : list H :=
  match e with
  | OnCommit _ => []
  | OnRollback hook => [hook]
  | Savepoint _ entries => entries ≫= compensations
  end.

(** What runs once the transaction has committed: the commit hooks of kept
    work and the compensations of discarded work. *)
Fixpoint due_on_commit (e : Entry) : list H :=
  match e with
  | OnCommit hook => [hook]
  | OnRollback _ => []
  | Savepoint true entries => entries ≫= compensations
  | Savepoint false entries => entries ≫= due_on_commit
  end.

(** A command's origin is put around the hooks that run after a commit. *)
Fixpoint rewrap_entry (rewrap : H → H) (e : Entry) : Entry :=
  match e with
  | OnCommit hook => OnCommit (rewrap hook)
  | OnRollback hook => OnRollback hook
  | Savepoint true entries => Savepoint true entries
  | Savepoint false entries => Savepoint false (rewrap_entry rewrap <$> entries)
  end.

#[export] Instance ledger_sinks : SinkOps H (list Entry) := {|
  no_hooks := [];
  push_commit := λ hook l, l ++ [OnCommit hook];
  push_rollback := λ hook l, l ++ [OnRollback hook];
  carry_savepoint := λ rolledBack inner outer, outer ++ [Savepoint rolledBack inner];
  sink_length := length;
  rewrap_hooks := λ rewrap n l, take n l ++ (rewrap_entry rewrap <$> drop n l);
  commit_hooks := λ l, l ≫= due_on_commit;
  rollback_hooks := λ l, l ≫= compensations |}.
End sinks.
Arguments Entry : clear implicits.

(** ** The sinks implement the ledger *)

(** What happens to the sinks of a transaction: registrations, a savepoint with
    whether it is rolled back, and a command whose origin is put around the
    hooks it has queued. *)
Inductive SinkEvent (H : Type) :=
| RegisterCommit (hook : H)
| RegisterRollback (hook : H)
| InSavepoint (rolledBack : bool) (events : list (SinkEvent H))
| UnderOrigin (rewrap : H → H) (events : list (SinkEvent H)).
Arguments RegisterCommit {H}.
Arguments RegisterRollback {H}.
Arguments InSavepoint {H}.
Arguments UnderOrigin {H}.

Section run.
Context {H S : Type} `{!SinkOps H S}.

Fixpoint sink_event (e : SinkEvent H) (s : S) : S :=
  match e with
  | RegisterCommit hook => push_commit hook s
  | RegisterRollback hook => push_rollback hook s
  | InSavepoint rolledBack events => carry_savepoint rolledBack (foldl (λ s e, sink_event e s) no_hooks events) s
  | UnderOrigin rewrap events => rewrap_hooks rewrap (sink_length s) (foldl (λ s e, sink_event e s) s events)
  end.

Definition sink_events (events : list (SinkEvent H)) (s : S) : S := foldl (λ s e, sink_event e s) s events.
End run.

Section refinement.
Context {H : Type}.
#[local] Set Default Proof Using "Type".

(** A compensation carries the origin of its handler: putting another around it
    changes nothing. *)
Fixpoint compensations_fixed (rewraps : list (H → H)) (e : SinkEvent H) : Prop :=
  match e with
  | RegisterCommit _ => True
  | RegisterRollback hook => Forall (λ rewrap, rewrap hook = hook) rewraps
  | InSavepoint _ events => foldr (λ e P, compensations_fixed rewraps e ∧ P) True events
  | UnderOrigin rewrap events => foldr (λ e P, compensations_fixed (rewrap :: rewraps) e ∧ P) True events
  end.

Lemma SinkEvent_ind' (Pr : SinkEvent H → Prop) :
  (∀ hook, Pr (RegisterCommit hook)) → (∀ hook, Pr (RegisterRollback hook)) →
  (∀ b events, Forall Pr events → Pr (InSavepoint b events)) → (∀ rewrap events, Forall Pr events → Pr (UnderOrigin rewrap events)) →
  ∀ e, Pr e.
Proof.
  intros Hc Hr Hs Hu. fix IH 1. intros [hook|hook|b events|rewrap events]; [apply Hc|apply Hr|apply Hs|apply Hu];
    induction events; constructor; auto.
Qed.

Lemma fmap_fixed (f : H → H) (l : list H) : Forall (λ x, f x = x) l → f <$> l = l.
Proof. induction 1 as [|x l Hx _ IH]; [done|]. by rewrite fmap_cons, Hx, IH. Qed.

Lemma rewrap_due rewrap (e : Entry H) :
  Forall (λ hook, rewrap hook = hook) (compensations e) → due_on_commit (rewrap_entry rewrap e) = rewrap <$> due_on_commit e.
Proof.
  revert e. fix IH 1. intros [hook|hook|[] entries] Hf; simpl in *; try done.
  - by rewrite (fmap_fixed _ _ Hf).
  - induction entries as [|e entries IHl]; simpl in *; [done|]. apply Forall_app in Hf as [He Hl]. rewrite fmap_app.
    f_equal; [by apply IH|by apply IHl].
Qed.

Lemma rewrap_compensations rewrap (e : Entry H) : compensations (rewrap_entry rewrap e) = compensations e.
Proof.
  revert e. fix IH 1. intros [hook|hook|[] entries]; simpl; try done.
  induction entries as [|e entries IHl]; simpl; [done|]. f_equal; [apply IH|apply IHl].
Qed.

Lemma rewrap_all (rewrap : H → H) (l : list (Entry H)) :
  Forall (λ hook, rewrap hook = hook) (l ≫= compensations) →
  (rewrap_entry rewrap <$> l) ≫= due_on_commit = rewrap <$> (l ≫= due_on_commit) ∧
  (rewrap_entry rewrap <$> l) ≫= compensations = l ≫= compensations.
Proof.
  induction l as [|e l IH]; [done|]. rewrite fmap_cons, !bind_cons, Forall_app. intros [He Hl]. destruct (IH Hl) as [-> ->].
  by rewrite rewrap_due, rewrap_compensations, fmap_app.
Qed.

(** Events add the same to the sinks and to the ledger. *)
Definition adds (rewraps : list (H → H)) (s s' : Sinks H) (l l' : list (Entry H)) : Prop :=
  ∃ k, l' = l ++ k ∧ commitSink s' = commitSink s ++ (k ≫= due_on_commit) ∧ rollbackSink s' = rollbackSink s ++ (k ≫= compensations) ∧
    Forall (λ hook, Forall (λ rewrap, rewrap hook = hook) rewraps) (k ≫= compensations).

Definition event_simulates (e : SinkEvent H) : Prop :=
  ∀ rewraps s l, compensations_fixed rewraps e → adds rewraps s (sink_event e s) l (sink_event e l).

Lemma events_simulate events rewraps s l :
  Forall event_simulates events → foldr (λ e P, compensations_fixed rewraps e ∧ P) True events →
  adds rewraps s (sink_events events s) l (sink_events events l).
Proof.
  intros Hev. revert s l. induction Hev as [|e events He _ IH]; intros s l; simpl.
  - intros _. exists []. by rewrite !app_nil_r.
  - intros [Hfix Hrest]. destruct (He rewraps s l Hfix) as (k1 & Hl1 & Hc1 & Hr1 & Hf1).
    destruct (IH (sink_event e s) (sink_event e l) Hrest) as (k2 & Hl2 & Hc2 & Hr2 & Hf2).
    exists (k1 ++ k2). unfold sink_events in *. simpl. rewrite Hl2, Hc2, Hr2, Hl1, Hc1, Hr1, !bind_app, <- !app_assoc.
    split_and!; [done..|]. by apply Forall_app.
Qed.

Lemma event_simulation e : event_simulates e.
Proof.
  induction e as [hook|hook|b events IH|rewrap events IH] using SinkEvent_ind'; intros rewraps s l Hfix; simpl in *.
  - exists [OnCommit hook]. simpl. by rewrite app_nil_r.
  - exists [OnRollback hook]. simpl. rewrite app_nil_r. split_and!; try done. by constructor.
  - destruct (events_simulate events rewraps no_hooks [] IH Hfix) as (k & Hl & Hc & Hr & Hf).
    exists [Savepoint b k]. unfold sink_events in *. simpl in *. rewrite Hl. unfold afterRollbackHooksOf. rewrite Hr.
    destruct b; simpl; rewrite ?Hc, !app_nil_r; done.
  - destruct (events_simulate events (rewrap :: rewraps) s l IH Hfix) as (k & Hl & Hc & Hr & Hf).
    assert (Hf1 : Forall (λ hook, rewrap hook = hook) (k ≫= compensations)).
    { eapply Forall_impl; [exact Hf|]. intros hook Hh. by inversion Hh. }
    destruct (rewrap_all rewrap k Hf1) as [Hdue Hcomp]. exists (rewrap_entry rewrap <$> k). unfold sink_events in *.
    unfold rewrapHooksWithOrigin. simpl. rewrite Hl, Hc, Hr, !take_app_length, !drop_app_length, Hdue, Hcomp. split_and!; [done..|].
    eapply Forall_impl; [exact Hf|]. intros hook Hh. by inversion Hh.
Qed.

(** C10: The commit and rollback lists of a transaction implement its ledger:
    whatever is registered in it, in savepoints of any depth, kept or rolled
    back, and under whatever origins, a commit runs exactly the commit hooks of
    kept work and the compensations of discarded savepoints, in their order, and
    a rollback runs every compensation once. *)
Theorem sinks_refine_ledger (events : list (SinkEvent H)) :
  Forall (compensations_fixed []) events →
  commit_hooks (S := Sinks H) (sink_events events no_hooks) = commit_hooks (S := list (Entry H)) (sink_events events no_hooks) ∧
  rollback_hooks (S := Sinks H) (sink_events events no_hooks) = rollback_hooks (S := list (Entry H)) (sink_events events no_hooks).
Proof.
  intros Hfix. destruct (events_simulate events [] (no_hooks (S := Sinks H)) [] (Forall_true _ _ event_simulation)) as (k & Hl & Hc & Hr & _).
  { clear -Hfix. induction Hfix; simpl; auto. }
  change ([] : list (Entry H)) with (no_hooks (S := list (Entry H))) in Hl. rewrite Hl. split; [exact Hc|exact Hr].
Qed.
End refinement.

(** A nested write is rolled back after registering a mail and a refund, then
    the command queues a mail of its own. *)
Definition sample_events : list (SinkEvent nat) :=
  [UnderOrigin (λ hook, if decide (hook = 2) then 2 else hook + 10)
     [InSavepoint true [RegisterCommit 1; RegisterRollback 2]; RegisterCommit 3]].

Lemma sinks_refine_ledger_witness :
  Forall (compensations_fixed []) sample_events ∧
  commit_hooks (S := list (Entry nat)) (sink_events sample_events no_hooks) = [2; 13] ∧
  commit_hooks (S := Sinks nat) (sink_events sample_events no_hooks) = [2; 13].
Proof.
  assert (Hf : Forall (compensations_fixed []) sample_events) by (repeat constructor).
  split_and!; [exact Hf|reflexivity|]. rewrite (proj1 (sinks_refine_ledger sample_events Hf)). reflexivity.
Defined.
