(* ===== verification/CommandDispatch.v ===== *)
(** * Command dispatcher: data and the nested calls of a handler

    [pipeline/dispatch-write.ts], [dispatch-nested-write.ts],
    [dispatch-batch.ts], [pre-transaction-reservations.ts],
    [handler-context-dispatch.ts] and [lifecycle-pipeline.ts].  A handler is a
    [Program]: what it does to the database and to the outside world, and the
    writes it dispatches, as a tree.  The database [D] and the world outside
    [E] are any types.  A nested write is a call of the dispatcher itself, so
    the definitions take it as the argument [nested]; [CommandBatch] ties the
    knot with the depth of nesting as fuel. *)

From S2P Require Import Prelude Origins QualifiedName Ownership FieldAccess Redis Idempotency TransitionGuard Gates WriteOrigin ClientMasking CommitSinks.

Open Scope string_scope.
Open Scope list_scope.

(** ** Handlers *)

(** What a handler returns: [inl] is the object a nested write returned. *)
Inductive HandlerReturn :=
| Returned (data : nat + Json) (lifecycle : option Json)
| ReturnedFailure (e : WriteErrorInfo)
| ReturnedMalformed.

(** What [ctx.dispatch.write] resolves to. *)
Inductive NestedResult :=
| NestedSuccess (ref : nat) (data : Json) (lifecycle : option Json)
| NestedFailure (e : WriteErrorInfo).

(** [PWrite] is an insert or an update with the columns it sets, [PDelete] is
    [deleteMany]; [PJob] and [PPublish] call [ctx.services.jobRunner.dispatch] and
    [ctx.services.cacheSync.publish], which do not wait for a commit. *)
Inductive Program (D E : Type) :=
| PReturn (r : HandlerReturn)
| PThrow (t : Thrown)
| PRead (k : D → E → Program D E)
| PWrite (table : string) (keys : list string) (f : D → result Thrown D) (k : result Thrown () → Program D E)
| PDelete (table : string) (f : D → result Thrown D) (k : result Thrown () → Program D E)
| PJob (jobName : string) (payload : Json) (k : result Thrown () → Program D E)
| PPublish (topic : string) (message : Json) (k : result Thrown () → Program D E)
| PExt (f : E → E) (k : Program D E)
| PDispatch (asUser : option Principal) (type : string) (payload : Json) (k : result Thrown NestedResult → Program D E)
| PAfterCommit (hook : E → result Thrown () * E) (k : result Thrown () → Program D E)
| PAfterRollback (hook : E → result Thrown () * E) (k : result Thrown () → Program D E).
Arguments PReturn {D E}.
Arguments PThrow {D E}.
Arguments PRead {D E}.
Arguments PWrite {D E}.
Arguments PDelete {D E}.
Arguments PJob {D E}.
Arguments PPublish {D E}.
Arguments PExt {D E}.
Arguments PDispatch {D E}.
Arguments PAfterCommit {D E}.
Arguments PAfterRollback {D E}.

Record WriteEvent := mkEvent {
  ev_type : string;
  ev_payload : Json;
  ev_user : Principal;
  ev_prepared : option Json }.

(** A reservation gives back what it took; it may confirm inside the
    transaction. *)
Record ReservationHandle (D E : Type) := mkHandle {
  rh_release : D * E → result Thrown () * (D * E);
  rh_confirmInTransaction : D → result Thrown D }.
Arguments mkHandle {D E}.
Arguments rh_release {D E}.
Arguments rh_confirmInTransaction {D E}.

(** A reservation hands out a bare release or a handle. *)
Inductive Reserved (D E : Type) :=
| ReservedNothing
| ReservedRelease (release : D * E → result Thrown () * (D * E))
| ReservedHandle (h : ReservationHandle D E).
Arguments ReservedNothing {D E}.
Arguments ReservedRelease {D E}.
Arguments ReservedHandle {D E}.

Inductive PhaseResult (D E : Type) :=
| PhaseOk (data : Json) (release : option (D * E → result Thrown () * (D * E)))
| PhaseFailed (e : WriteErrorInfo).
Arguments PhaseOk {D E}.
Arguments PhaseFailed {D E}.

Record WriteHandlerDef (D E : Type) := mkHandler {
  wh_gates : HandlerGates;
  wh_perCommand : bool;
  wh_unsafeSkipTransitionGuard : bool;
  wh_identityGrant : bool;
  wh_reserveBeforeTransaction : option (WriteEvent → D * E → result Thrown (Reserved D E) * (D * E));
  wh_beforeTransaction : option (WriteEvent → D * E → result Thrown (PhaseResult D E) * (D * E));
  wh_skipWhenNested : bool;
  wh_handler : WriteEvent → Program D E }.
Arguments wh_gates {D E}.
Arguments wh_perCommand {D E}.
Arguments wh_unsafeSkipTransitionGuard {D E}.
Arguments wh_identityGrant {D E}.
Arguments wh_reserveBeforeTransaction {D E}.
Arguments wh_beforeTransaction {D E}.
Arguments wh_skipWhenNested {D E}.
Arguments wh_handler {D E}.
Arguments mkHandler {D E}.

Inductive HookPhase := InTransaction | AfterCommit.

#[export] Instance HookPhase_eq_dec : EqDecision HookPhase.
Proof. solve_decision. Defined.

(** A registered hook runs under its own identity-switch grant. *)
Record LifecycleHook (D E : Type) := mkHook { lk_grant : bool; lk_fn : Json → Program D E }.
Arguments mkHook {D E}.
Arguments lk_grant {D E}.
Arguments lk_fn {D E}.

Record SystemHookDef (D E : Type) := mkSystemHook {
  sh_name : string;
  sh_priority : Z;
  sh_phase : option HookPhase;
  sh_fn : Json → Program D E }.
Arguments mkSystemHook {D E}.
Arguments sh_name {D E}.
Arguments sh_priority {D E}.
Arguments sh_phase {D E}.
Arguments sh_fn {D E}.

(** The hooks of the registry by handler or entity, phase and effective
    features, and those of the system. *)
Record LifecycleHooks (D E : Type) := mkLifecycle {
  lh_postSave : string → HookPhase → option (gset string) → list (LifecycleHook D E);
  lh_entityPostSave : string → HookPhase → option (gset string) → list (LifecycleHook D E);
  lh_preDelete : string → HookPhase → option (gset string) → list (LifecycleHook D E);
  lh_entityPreDelete : string → HookPhase → option (gset string) → list (LifecycleHook D E);
  lh_postDelete : string → HookPhase → option (gset string) → list (LifecycleHook D E);
  lh_entityPostDelete : string → HookPhase → option (gset string) → list (LifecycleHook D E);
  lh_systemPostSave : list (SystemHookDef D E);
  lh_systemPreDelete : list (SystemHookDef D E);
  lh_systemPostDelete : list (SystemHookDef D E);
  lh_postSaveBatch : list (SystemHookDef D E);
  lh_postDeleteBatch : list (SystemHookDef D E);
  lh_eventDedup : option (option Z) }.
Arguments lh_postSave {D E}.
Arguments lh_entityPostSave {D E}.
Arguments lh_preDelete {D E}.
Arguments lh_entityPreDelete {D E}.
Arguments lh_postDelete {D E}.
Arguments lh_entityPostDelete {D E}.
Arguments lh_systemPostSave {D E}.
Arguments lh_systemPreDelete {D E}.
Arguments lh_systemPostDelete {D E}.
Arguments lh_postSaveBatch {D E}.
Arguments lh_postDeleteBatch {D E}.
Arguments lh_eventDedup {D E}.
Arguments mkLifecycle {D E}.

(** ** Deferred work *)

Inductive Hook (E : Type) :=
| HandlerHook (run : E → result Thrown () * E)
| LifecycleAfterCommit (kind : LifecycleKind) (type : string) (payload : nat + Json) (user : Principal) (origin : WriteOrigin)
| JobEvent (type : string) (payload : Json) (user : Principal)
| ConfigWritten (type : string) (user : Principal) (ref : nat).
Arguments HandlerHook {E}.
Arguments LifecycleAfterCommit {E}.
Arguments JobEvent {E}.
Arguments ConfigWritten {E}.

(** A hook with the write origin it runs under, once one is put around it. *)
Record QueuedHook (E : Type) := mkQueued { qh_origin : option WriteOrigin; qh_hook : Hook E }.
Arguments mkQueued {E}.
Arguments qh_origin {E}.
Arguments qh_hook {E}.

(** [runWithWriteOrigin]: the innermost origin counts. *)
Definition with_origin {E} (origin : WriteOrigin) (q : QueuedHook E) : QueuedHook E :=
  mkQueued (match qh_origin q with Some o => Some o | None => Some origin end) (qh_hook q).

(** What has reached the job runner: the dispatcher's [handleEvent] after a
    commit, or a handler's own [dispatch]. *)
Inductive JobCall :=
| JobForEvent (type : string) (payload : Json) (user : Principal) (origin : option WriteOrigin)
| JobDispatched (jobName : string) (payload : Json).

Inductive SyncMessage := SyncAll (key : string) | SyncTenant (tenantId key : string).

(** What has reached the cache bus: the dispatcher's note of a config write, or
    a handler's own message. *)
Inductive Published := ConfigSync (m : SyncMessage) | DirectMessage (topic : string) (message : Json).

(** ** Configuration *)

Inductive RelationDefinition :=
| HasMany (target foreignKey : string) (nestedWrite : bool)
| OtherRelation.

(** Parts of the framework outside this file enter by what they do:
    projections, the settling of file references, the row a transition guard or
    a parent check reads, the secrets guard, and the outcome of COMMIT ([Some]
    is the error with whether the work was applied). *)
Record DispatchContext (D E : Type) := mkContext {
  dc_env : GateEnv;
  dc_reg : GateRegistry;
  dc_writeHandler : string → option (WriteHandlerDef D E);
  dc_access : string → option AccessDeclaration;
  dc_relations : string → list (string * RelationDefinition);
  dc_personal : list (string * PersonalEntity);
  dc_transitions : string → option EntityDef;
  dc_readRow : D → string → Json → option Row;
  dc_tenantRow : D → string → string → string → option Row;
  dc_hasTenantColumn : string → bool;
  dc_hasDb : bool;
  dc_lifecycle : option (LifecycleHooks D E);
  dc_projections : Json → D → result Thrown D;
  dc_settleFileRefs : Json → Principal → D → result Thrown D;
  dc_jobRunner : bool;
  dc_cacheSync : bool;
  dc_idempotency : option IdempotencyOptions;
  dc_requestTime : RequestTime;
  dc_encode : BatchResult → string;
  dc_decode : string → option BatchResult;
  dc_commit : D → option (Thrown * bool) }.
Arguments dc_env {D E}.
Arguments dc_reg {D E}.
Arguments dc_writeHandler {D E}.
Arguments dc_access {D E}.
Arguments dc_relations {D E}.
Arguments dc_personal {D E}.
Arguments dc_transitions {D E}.
Arguments dc_readRow {D E}.
Arguments dc_tenantRow {D E}.
Arguments dc_hasTenantColumn {D E}.
Arguments dc_hasDb {D E}.
Arguments dc_lifecycle {D E}.
Arguments dc_projections {D E}.
Arguments dc_settleFileRefs {D E}.
Arguments dc_jobRunner {D E}.
Arguments dc_cacheSync {D E}.
Arguments dc_idempotency {D E}.
Arguments dc_requestTime {D E}.
Arguments dc_encode {D E}.
Arguments dc_decode {D E}.
Arguments dc_commit {D E}.
Arguments mkContext {D E}.

(** ** State *)

Record ConsumedReservation (D : Type) := mkConsumed {
  cr_confirmInTransaction : option (D → result Thrown D);
  cr_prepared : option Json;
  cr_parsedPayload : Json }.
Arguments mkConsumed {D}.
Arguments cr_confirmInTransaction {D}.
Arguments cr_prepared {D}.
Arguments cr_parsedPayload {D}.

(** [rs_heap] holds the data objects of write results: the nested-write
    expansion changes a parent's data in place, and hooks queued before see the
    change. *)
Record RunState (D E S : Type) := mkRun {
  rs_db : D;
  rs_ext : E;
  rs_gates : GateState;
  rs_redis : gmap string (string * Z);
  rs_reserved : gmap string (ConsumedReservation D);
  rs_heap : list Json;
  rs_sinks : S;
  rs_timezones : gmap string (option string);
  rs_transitions : gmap string (gmap string (list string));
  rs_jobs : list JobCall;
  rs_published : list Published }.
Arguments mkRun {D E S}.
Arguments rs_db {D E S}.
Arguments rs_ext {D E S}.
Arguments rs_gates {D E S}.
Arguments rs_redis {D E S}.
Arguments rs_reserved {D E S}.
Arguments rs_heap {D E S}.
Arguments rs_sinks {D E S}.
Arguments rs_timezones {D E S}.
Arguments rs_transitions {D E S}.
Arguments rs_jobs {D E S}.
Arguments rs_published {D E S}.

(** ** State passing *)

Section state.
Context {D E S : Type}.

Definition set_db (v : D) (s : RunState D E S) : RunState D E S :=
  mkRun v (rs_ext s) (rs_gates s) (rs_redis s) (rs_reserved s) (rs_heap s) (rs_sinks s) (rs_timezones s) (rs_transitions s) (rs_jobs s) (rs_published s).

Definition set_ext (v : E) (s : RunState D E S) : RunState D E S :=
  mkRun (rs_db s) v (rs_gates s) (rs_redis s) (rs_reserved s) (rs_heap s) (rs_sinks s) (rs_timezones s) (rs_transitions s) (rs_jobs s) (rs_published s).

Definition set_gates (v : GateState) (s : RunState D E S) : RunState D E S :=
  mkRun (rs_db s) (rs_ext s) v (rs_redis s) (rs_reserved s) (rs_heap s) (rs_sinks s) (rs_timezones s) (rs_transitions s) (rs_jobs s) (rs_published s).

Definition set_redis (v : gmap string (string * Z)) (s : RunState D E S) : RunState D E S :=
  mkRun (rs_db s) (rs_ext s) (rs_gates s) v (rs_reserved s) (rs_heap s) (rs_sinks s) (rs_timezones s) (rs_transitions s) (rs_jobs s) (rs_published s).

Definition set_reserved (v : gmap string (ConsumedReservation D)) (s : RunState D E S) : RunState D E S :=
  mkRun (rs_db s) (rs_ext s) (rs_gates s) (rs_redis s) v (rs_heap s) (rs_sinks s) (rs_timezones s) (rs_transitions s) (rs_jobs s) (rs_published s).

Definition set_heap (v : list Json) (s : RunState D E S) : RunState D E S :=
  mkRun (rs_db s) (rs_ext s) (rs_gates s) (rs_redis s) (rs_reserved s) v (rs_sinks s) (rs_timezones s) (rs_transitions s) (rs_jobs s) (rs_published s).

Definition set_sinks (v : S) (s : RunState D E S) : RunState D E S :=
  mkRun (rs_db s) (rs_ext s) (rs_gates s) (rs_redis s) (rs_reserved s) (rs_heap s) v (rs_timezones s) (rs_transitions s) (rs_jobs s) (rs_published s).

Definition set_timezones (v : gmap string (option string)) (s : RunState D E S) : RunState D E S :=
  mkRun (rs_db s) (rs_ext s) (rs_gates s) (rs_redis s) (rs_reserved s) (rs_heap s) (rs_sinks s) v (rs_transitions s) (rs_jobs s) (rs_published s).

Definition set_transitions (v : gmap string (gmap string (list string))) (s : RunState D E S) : RunState D E S :=
  mkRun (rs_db s) (rs_ext s) (rs_gates s) (rs_redis s) (rs_reserved s) (rs_heap s) (rs_sinks s) (rs_timezones s) v (rs_jobs s) (rs_published s).

Definition set_jobs (v : list JobCall) (s : RunState D E S) : RunState D E S :=
  mkRun (rs_db s) (rs_ext s) (rs_gates s) (rs_redis s) (rs_reserved s) (rs_heap s) (rs_sinks s) (rs_timezones s) (rs_transitions s) v (rs_published s).

Definition set_published (v : list Published) (s : RunState D E S) : RunState D E S :=
  mkRun (rs_db s) (rs_ext s) (rs_gates s) (rs_redis s) (rs_reserved s) (rs_heap s) (rs_sinks s) (rs_timezones s) (rs_transitions s) (rs_jobs s) v.

(** [None] is running out of fuel, [Err] a throw. *)
Definition M (A : Type) : Type := RunState D E S → option (result Thrown A * RunState D E S).

Definition ret {A} (a : A) : M A := λ s, Some (Ok a, s).
Definition throw {A} (t : Thrown) : M A := λ s, Some (Err t, s).
Definition bind {A B} (m : M A) (f : A → M B) : M B :=
  λ s, match m s with
       | None => None
       | Some (Ok a, s') => f a s'
       | Some (Err t, s') => Some (Err t, s')
       end.

(** [try { return m } catch]: a throw becomes a value. *)
Definition attempt {A} (m : M A) : M (result Thrown A) :=
  λ s, match m s with None => None | Some (r, s') => Some (Ok r, s') end.

Definition gets {A} (f : RunState D E S → A) : M A := λ s, Some (Ok (f s), s).
Definition modify (f : RunState D E S → RunState D E S) : M () := λ s, Some (Ok tt, f s).

Definition lift {A} (r : result Thrown A) : M A := λ s, Some (r, s).

(** A function of the database that may throw. *)
Definition on_db (f : D → result Thrown D) : M () :=
  λ s, match f (rs_db s) with Ok d => Some (Ok tt, set_db d s) | Err t => Some (Err t, s) end.

Definition run_gate {A} (g : Gate A) : M (result WriteErrorInfo A) :=
  λ s, match g (rs_gates s) with
       | (Pass a, gs) => Some (Ok (Ok a), set_gates gs s)
       | (Refused e, gs) => Some (Ok (Err e), set_gates gs s)
       | (GateThrew t, gs) => Some (Err t, set_gates gs s)
       end.
End state.
Arguments M : clear implicits.

Notation "'let*' x ':=' c1 'in' c2" := (bind c1 (λ x, c2))
  (at level 10, x pattern, c1 at level 100, c2 at level 200) : kumiko_scope.
