(* ===== verification/CommandWrite.v ===== *)
(** * Command dispatcher: one write

    [pipeline/dispatch-write.ts] ([executeWrite] and its steps), the hooks of
    [lifecycle-pipeline.ts] and the handler context of
    [handler-context-dispatch.ts].  Hooks that the source starts in parallel run
    one after the other here. *)

From S2P Require Import Prelude Origins QualifiedName Ownership FieldAccess Redis Idempotency TransitionGuard Gates SecretLeak WriteOrigin ClientMasking CommitSinks CommandDispatch.

Open Scope string_scope.
Open Scope list_scope.

(** ** Results and scopes *)

(** A write result inside the dispatcher: its data object by reference. *)
Inductive DispatchResult :=
| DSuccess (ref : nat) (lifecycle : option Json)
| DFailure (e : WriteErrorInfo).

(** [inTransaction]: nested writes join the open transaction.
    [withoutTransaction]: they run as commands of their own. *)
Inductive HandlerTransactionScope := InTx | WithoutTx | PostCommit.

#[export] Instance HandlerTransactionScope_eq_dec : EqDecision HandlerTransactionScope.
Proof. solve_decision. Defined.

Record HandlerContextScope := mkScope {
  sc_type : string;
  sc_user : Principal;
  sc_origin : WriteOrigin;
  sc_tx : bool;
  sc_mode : HandlerTransactionScope;
  sc_hasLiveCommitSink : bool;
  sc_hasIdentitySwitchGrant : bool }.

Definition with_grant (grant : bool) (sc : HandlerContextScope) : HandlerContextScope :=
  mkScope (sc_type sc) (sc_user sc) (sc_origin sc) (sc_tx sc) (sc_mode sc) (sc_hasLiveCommitSink sc) grant.

Definition tenant_of (p : Principal) : string := us_tenantId (pr_user p).

(** ** Config writes *)

Definition TENANT_TIMEZONE_CONFIG_KEY : string := "tenant:config:timezone".
Definition CONFIG_WRITE_SET_TYPE : string := "config:write:set".
Definition CONFIG_WRITE_RESET_TYPE : string := "config:write:reset".

(** [isConfigWriteResult], with the key and whether the scope is the system. *)
Definition isConfigWriteResult (data : Json) : option (string * bool) :=
  match prop_of data "key" with
  | Some (JStr key) =>
      Some (key, match prop_of data "scope" with Some (JStr scope) => bool_decide (scope = "system") | _ => false end)
  | _ => None
  end.

Definition is_config_write (type : string) : bool :=
  bool_decide (type = CONFIG_WRITE_SET_TYPE) || bool_decide (type = CONFIG_WRITE_RESET_TYPE).

Definition invalidateTenantTimezoneCache (type tenantId : string) (data : Json) (cache : gmap string (option string))
    : gmap string (option string) :=
  if is_config_write type then
    match isConfigWriteResult data with
    | Some (key, system) =>
        if decide (key = TENANT_TIMEZONE_CONFIG_KEY) then if system : bool then ∅ else delete tenantId cache else cache
    | None => cache
    end
  else cache.

Definition publishConfigWrite (hasSync : bool) (type tenantId : string) (data : Json) : list SyncMessage :=
  if is_config_write type && hasSync then
    match isConfigWriteResult data with
    | Some (key, system) => [if system : bool then SyncAll key else SyncTenant tenantId key]
    | None => []
    end
  else [].

(** ** Event ids of hooks *)

Definition json_text (v : Json) : string :=
  match v with
  | JNum n => pretty n
  | JStr s => s
  | JBool b => if b then "true" else "false"
  | _ => "[object Object]"
  end.

Definition buildEventId (handlerName : string) (payload : Json) (phase : string) : option string :=
  let version := json_text (default (JNum 0) (nullish (prop_of payload "data" ≫= λ data, prop_of data "version") None)) in
  match prop_of payload "id" with
  | Some (JStr id) =>
      if decide (id = "") then None
      else Some (colon_join handlerName (colon_join id (colon_join version phase)))
  | Some (JNum id) =>
      if decide (id = 0%Z) then None
      else Some (colon_join handlerName (colon_join (pretty id) (colon_join version phase)))
  | _ => None
  end.

Definition phase_name (phase : HookPhase) : string :=
  match phase with InTransaction => "inTransaction" | AfterCommit => "afterCommit" end.

(** [payload.entityName], if it is not empty. *)
Definition entity_name (payload : Json) : option string :=
  match prop_of payload "entityName" with
  | Some (JStr name) => if decide (name = "") then None else Some name
  | _ => None
  end.

Section write.
Context {D E S : Type} `{!SinkOps (QueuedHook E) S} (ctx : DispatchContext D E).

Notation M := (M D E S).
Notation Run := (RunState D E S).

(** ** Objects *)

Definition object_at (s : Run) (ref : nat) : Json := nth ref (rs_heap s) JNull.

Definition alloc (v : Json) : M nat :=
  λ s, Some (Ok (length (rs_heap s)), set_heap (rs_heap s ++ [v]) s).

Definition value_of (s : Run) (payload : nat + Json) : Json :=
  match payload with inl ref => object_at s ref | inr v => v end.

Definition nested_view (s : Run) (r : DispatchResult) : NestedResult :=
  match r with
  | DSuccess ref lifecycle => NestedSuccess ref (object_at s ref) lifecycle
  | DFailure e => NestedFailure e
  end.

(** ** The handler context *)

Definition hasIdentitySwitchGrant (type : string) : bool :=
  gr_isHandlerSystemScoped (dc_reg ctx) type
  || match dc_writeHandler ctx type with Some h => wh_identityGrant h | None => false end.

Definition buildHandlerContext (type : string) (user : Principal) (origin : WriteOrigin) (tx hasSink : bool)
    (mode : HandlerTransactionScope) : HandlerContextScope :=
  mkScope type user origin tx mode (hasSink && bool_decide (mode ≠ PostCommit)) (hasIdentitySwitchGrant type).

(** Whether a write through the handler's database is refused. *)
Definition write_denied (sc : HandlerContextScope) (table : string) (keys : list string) : option Thrown :=
  if negb (dc_hasDb ctx) then Some (ThrewOther "no database connection")
  else if decide (sc_mode sc = WithoutTx) then Some (ThrewKumiko (InternalError "writes are not available without an open transaction"))
  else ThrewKumiko <$> personalDataGate (dc_personal ctx) (sc_origin sc) table keys None.

(** [deleteMany] has no columns, so the personal-data gate does not see it. *)
Definition delete_denied (sc : HandlerContextScope) : option Thrown :=
  if negb (dc_hasDb ctx) then Some (ThrewOther "no database connection")
  else if decide (sc_mode sc = WithoutTx) then Some (ThrewKumiko (InternalError "writes are not available without an open transaction"))
  else None.

Definition switch_denied (sc : HandlerContextScope) (asUser : option Principal) : option WriteErrorInfo :=
  match asUser with
  | None => None
  | Some p => if isIdentitySwitchAllowed (Some (sc_user sc)) p (sc_hasIdentitySwitchGrant sc) then None
              else Some (identitySwitchDenied p)
  end.

Context (nested : HandlerContextScope → Principal → string → Json → M DispatchResult).

Fixpoint run_program (sc : HandlerContextScope) (p : Program D E) : M HandlerReturn :=
  match p with
  | PReturn r => ret r
  | PThrow t => throw t
  | PRead k => λ s, run_program sc (k (rs_db s) (rs_ext s)) s
  | PWrite table keys f k =>
      match write_denied sc table keys with
      | Some t => run_program sc (k (Err t))
      | None => let* r := attempt (on_db f) in run_program sc (k r)
      end
  | PDelete table f k =>
      match delete_denied sc with
      | Some t => run_program sc (k (Err t))
      | None => let* r := attempt (on_db f) in run_program sc (k r)
      end
  | PJob jobName payload k =>
      if dc_jobRunner ctx then
        let* _ := modify (λ s, set_jobs (rs_jobs s ++ [JobDispatched jobName payload]) s) in run_program sc (k (Ok tt))
      else run_program sc (k (Err (ThrewOther "jobRunner is undefined")))
  | PPublish topic message k =>
      if dc_cacheSync ctx then
        let* _ := modify (λ s, set_published (rs_published s ++ [DirectMessage topic message]) s) in run_program sc (k (Ok tt))
      else run_program sc (k (Err (ThrewOther "cacheSync is undefined")))
  | PExt f k => let* _ := modify (λ s, set_ext (f (rs_ext s)) s) in run_program sc k
  | PDispatch asUser type payload k =>
      match switch_denied sc asUser with
      | Some e => run_program sc (k (Err (ThrewKumiko e)))
      | None =>
          let* r := attempt (nested sc (default (sc_user sc) asUser) type payload) in
          λ s, run_program sc (k (result_map (nested_view s) r)) s
      end
  | PAfterCommit hook k =>
      if sc_hasLiveCommitSink sc then
        let* _ := modify (λ s, set_sinks (push_commit (mkQueued None (HandlerHook hook)) (rs_sinks s)) s) in
        run_program sc (k (Ok tt))
      else run_program sc (k (Err (ThrewOther "afterCommit is not a function")))
  | PAfterRollback hook k =>
      if sc_hasLiveCommitSink sc && bool_decide (sc_mode sc = InTx) then
        let* _ := modify (λ s, set_sinks (push_rollback (mkQueued (Some (sc_origin sc)) (HandlerHook hook)) (rs_sinks s)) s) in
        run_program sc (k (Ok tt))
      else run_program sc (k (Err (ThrewOther "afterRollback is not a function")))
  end.

(** ** Lifecycle hooks *)

Definition currentEffectiveFeatures (sc : HandlerContextScope) : option (gset string) :=
  (λ f, f (tenant_of (sc_user sc))) <$> ge_effectiveFeatures (dc_env ctx).

(** In a transaction an error stops the loop; after the commit it is logged. *)
Fixpoint run_each (throwOnError : bool) (hooks : list (M ())) : M () :=
  match hooks with
  | [] => ret tt
  | hook :: rest =>
      if throwOnError then let* _ := hook in run_each throwOnError rest
      else let* _ := attempt hook in run_each throwOnError rest
  end.

Definition run_hook (sc : HandlerContextScope) (payload : Json) (hook : LifecycleHook D E) : M () :=
  let* _ := run_program (with_grant (lk_grant hook) sc) (lk_fn hook payload) in ret tt.

Definition run_system_hook (sc : HandlerContextScope) (payload : Json) (hook : SystemHookDef D E) : M () :=
  let* _ := run_program sc (sh_fn hook payload) in ret tt.

Definition sortByPriority (hooks : list (SystemHookDef D E)) : list (SystemHookDef D E) := sort_by sh_priority hooks.

Definition claim_event (eventDedup : option (option Z)) (eventId : option string) : M bool :=
  match eventDedup, eventId with
  | Some ttlOption, Some eventId => λ s,
      let '(acquired, r) := dedup_tryAcquire ttlOption (ge_redisNow (dc_env ctx)) (rs_redis s) eventId in
      Some (Ok acquired, set_redis r s)
  | _, _ => ret true
  end.

Definition runHookSet (lh : LifecycleHooks D E) (handlerName : string) (payload : Json) (sc : HandlerContextScope)
    (handlerHooks entityHooks : list (LifecycleHook D E)) (systemHookDefs : list (SystemHookDef D E))
    (phaseLabel : string) (hookPhase : HookPhase) : M () :=
  let throwOnError := bool_decide (hookPhase = InTransaction) in
  let* acquired :=
    (if throwOnError then ret true
     else claim_event (lh_eventDedup lh) (buildEventId handlerName payload phaseLabel)) in
  if acquired : bool then
    let* _ := run_each throwOnError (run_hook sc payload <$> handlerHooks) in
    let* _ := run_each throwOnError (run_hook sc payload <$> entityHooks) in
    run_each throwOnError
      (run_system_hook sc payload
         <$> filter (λ h, bool_decide (default AfterCommit (sh_phase h) = hookPhase) = true) (sortByPriority systemHookDefs))
  else ret tt.

Definition entity_hooks {A} (payload : Json) (hooks : string → list A) : list A :=
  match entity_name payload with Some name => hooks name | None => [] end.

Definition runPostSave (lh : LifecycleHooks D E) (handlerName : string) (result : Json) (sc : HandlerContextScope)
    (phase : HookPhase) : M () :=
  let eff := currentEffectiveFeatures sc in
  runHookSet lh handlerName result sc (lh_postSave lh handlerName phase eff)
    (entity_hooks result (λ n, lh_entityPostSave lh n phase eff)) (lh_systemPostSave lh)
    ("postSave:" +:+ phase_name phase) phase.

Definition runPostDelete (lh : LifecycleHooks D E) (handlerName : string) (payload : Json) (sc : HandlerContextScope)
    (phase : HookPhase) : M () :=
  let eff := currentEffectiveFeatures sc in
  runHookSet lh handlerName payload sc (lh_postDelete lh handlerName phase eff)
    (entity_hooks payload (λ n, lh_entityPostDelete lh n phase eff)) (lh_systemPostDelete lh)
    ("postDelete:" +:+ phase_name phase) phase.

Definition runPreDelete (lh : LifecycleHooks D E) (handlerName : string) (payload : Json) (sc : HandlerContextScope) : M () :=
  let eff := currentEffectiveFeatures sc in
  let* _ := run_each true (run_hook sc payload <$> lh_preDelete lh handlerName InTransaction eff) in
  let* _ := run_each true (run_hook sc payload <$> entity_hooks payload (λ n, lh_entityPreDelete lh n InTransaction eff)) in
  run_each true
    (run_system_hook sc payload
       <$> filter (λ h, bool_decide (default InTransaction (sh_phase h) = InTransaction) = true)
             (sortByPriority (lh_systemPreDelete lh))).

(** ** One write *)

Definition runProjections (data : Json) : M () :=
  match prop_of data "event" with
  | None => ret tt
  | Some _ =>
      if dc_hasDb ctx then on_db (dc_projections ctx data)
      else throw (ThrewKumiko (InternalError "runProjections requires a database connection"))
  end.

Definition queueAfterCommit (hook : Hook E) : M () :=
  modify (λ s, set_sinks (push_commit (mkQueued None hook) (rs_sinks s)) s).

Definition runLifecycle (type : string) (payload : nat + Json) (sc : HandlerContextScope) (user : Principal)
    (origin : WriteOrigin) : M () :=
  match dc_lifecycle ctx with
  | None => ret tt
  | Some lh =>
      let* data := gets (λ s, value_of s payload) in
      match lifecycle_kind data with
      | None => ret tt
      | Some kind =>
          let* _ := runProjections data in
          let* _ := match kind with
                    | KindSave =>
                        let* _ := (if dc_hasDb ctx then on_db (dc_settleFileRefs ctx data user) else ret tt) in
                        runPostSave lh type data sc InTransaction
                    | KindDelete =>
                        let* _ := runPreDelete lh type data sc in
                        runPostDelete lh type data sc InTransaction
                    end in
          queueAfterCommit (LifecycleAfterCommit kind type payload user origin)
      end
  end.

Definition perCommandNestedDenied : WriteErrorInfo := InternalError "perCommand handler as a nested write".

Definition resolveWriteEntry (type : string) (user : Principal) (tx : bool)
    : result WriteErrorInfo (WriteHandlerDef D E) :=
  match dc_writeHandler ctx type with
  | None => Err (NotFoundError "handler")
  | Some handler =>
      if isMemberResolutionPrincipal user then Err memberResolutionReadOnlyDenied
      else if wh_perCommand handler && tx then Err perCommandNestedDenied
      else Ok handler
  end.

Definition hasPreTransactionPhase (h : WriteHandlerDef D E) : bool :=
  bool_decide (is_Some (wh_reserveBeforeTransaction h)) || bool_decide (is_Some (wh_beforeTransaction h)).

Definition runsWithoutPhaseWhenNested (h : WriteHandlerDef D E) : bool :=
  wh_skipWhenNested h && negb (bool_decide (is_Some (wh_reserveBeforeTransaction h))).

Definition nestedPreTransactionDenial (h : WriteHandlerDef D E) : option WriteErrorInfo :=
  if negb (hasPreTransactionPhase h) || runsWithoutPhaseWhenNested h then None
  else Some (InternalError "a pre-transaction phase cannot run nested").

(** One-shot: the reservation is taken out of the command's store. *)
Definition consumeReservation (type : string) : M (option (ConsumedReservation D)) :=
  λ s, Some (Ok (rs_reserved s !! type), set_reserved (delete type (rs_reserved s)) s).

Definition runWriteGates (h : WriteHandlerDef D E) (type : string) (payload : Json) (user : Principal)
    : M (result WriteErrorInfo (Json * option (ConsumedReservation D))) :=
  let* reservation := (if hasPreTransactionPhase h then consumeReservation type else ret None) in
  let* gates := run_gate (runPreHandlerGates (dc_env ctx) (dc_reg ctx) (wh_gates h) type (pr_user user)
                            (if reservation then Recheck else Charge) payload) in
  match gates with
  | Err e => ret (Err e)
  | Ok parsed =>
      let parsedPayload := match reservation with Some r => cr_parsedPayload r | None => parsed end in
      match (if reservation then None else nestedPreTransactionDenial h) with
      | Some e => ret (Err e)
      | None => ret (Ok (parsedPayload, reservation))
      end
  end.

Definition payload_row (payload : Json) : Row := match payload with JObj row => row | _ => [] end.

(** A refused transition is a throw, which nothing on the way catches. *)
Definition guard_transitions (h : WriteHandlerDef D E) (type : string) (parsed : Json) : M () :=
  λ s, match guardAutoTransitions (gr_handlerEntity (dc_reg ctx)) (dc_transitions ctx) (dc_readRow ctx (rs_db s))
               (rs_transitions s) (wh_unsafeSkipTransitionGuard h) (dc_hasDb ctx) type (payload_row parsed) with
       | (Ok _, cache) => Some (Ok tt, set_transitions cache s)
       | (Err _, cache) => Some (Err (ThrewKumiko (UnprocessableError "invalid_transition")), set_transitions cache s)
       end.

Definition invokeWriteHandler (h : WriteHandlerDef D E) (type : string) (parsed : Json)
    (reservation : option (ConsumedReservation D)) (user : Principal) (sc : HandlerContextScope) : M DispatchResult :=
  let* r := attempt (run_program sc (wh_handler h (mkEvent type parsed user (reservation ≫= cr_prepared)))) in
  match r with
  | Err t => ret (DFailure (wrapToKumiko t))
  | Ok (ReturnedFailure e) => ret (DFailure e)
  | Ok ReturnedMalformed => ret (DFailure (InternalError "write handler returned an invalid shape"))
  | Ok (Returned (inl ref) lifecycle) => ret (DSuccess ref lifecycle)
  | Ok (Returned (inr data) lifecycle) => let* ref := alloc data in ret (DSuccess ref lifecycle)
  end.

(** [Some] is the failure the write ends with. *)
Definition confirmReservation (reservation : option (ConsumedReservation D)) (tx : bool) : M (option WriteErrorInfo) :=
  match reservation ≫= cr_confirmInTransaction with
  | None => ret None
  | Some confirm =>
      if negb tx then ret (Some (InternalError "a reservation that settles in the transaction needs a transaction"))
      else let* r := attempt (on_db confirm) in
           ret (match r with Ok _ => None | Err t => Some (wrapToKumiko t) end)
  end.

Definition runWriteLifecycle (type : string) (user : Principal) (origin : WriteOrigin) (sc : HandlerContextScope)
    (ref : nat) (lifecycle : option Json) : M (option WriteErrorInfo) :=
  let* r := attempt (runLifecycle type (match lifecycle with Some l => inr l | None => inl ref end) sc user origin) in
  ret (match r with Ok _ => None | Err t => Some (wrapToKumiko t) end).

Definition invalidate_timezone (type : string) (user : Principal) (ref : nat) : M () :=
  modify (λ s, set_timezones (invalidateTenantTimezoneCache type (tenant_of user) (object_at s ref) (rs_timezones s)) s).

(** [parsedPayload ?? {}] *)
Definition event_data (parsed : Json) : Json := match parsed with JNull => JObj [] | v => v end.

Definition scheduleWriteAfterCommit (type : string) (user : Principal) (parsed : Json) (ref : nat) : M () :=
  let* _ := (if dc_jobRunner ctx then queueAfterCommit (JobEvent type (event_data parsed) user) else ret tt) in
  let* _ := invalidate_timezone type user ref in
  queueAfterCommit (ConfigWritten type user ref).

Definition settleSuccessfulWrite (type : string) (user : Principal) (origin : WriteOrigin) (tx : bool) (parsed : Json)
    (reservation : option (ConsumedReservation D)) (isPerCommand : bool) (sc : HandlerContextScope) (ref : nat)
    (lifecycle : option Json) : M (option WriteErrorInfo) :=
  let* confirmFailure := confirmReservation reservation tx in
  match confirmFailure with
  | Some e => ret (Some e)
  | None =>
      let* lifecycleFailure := (if isPerCommand then ret None else runWriteLifecycle type user origin sc ref lifecycle) in
      match lifecycleFailure with
      | Some e => ret (Some e)
      | None => let* _ := scheduleWriteAfterCommit type user parsed ref in ret None
      end
  end.

Definition refuse_secret (v : Json) : M () :=
  match assertNoSecretLeak (Some v) with Some t => throw t | None => ret tt end.

Definition executeWriteInner (type : string) (payload : Json) (user : Principal) (origin : WriteOrigin) (tx : bool)
    : M DispatchResult :=
  match resolveWriteEntry type user tx with
  | Err e => ret (DFailure e)
  | Ok handler =>
      let* gated := runWriteGates handler type payload user in
      match gated with
      | Err e => ret (DFailure e)
      | Ok (parsed, reservation) =>
          let sc := buildHandlerContext type user origin tx true (if wh_perCommand handler then WithoutTx else InTx) in
          let* _ := guard_transitions handler type parsed in
          let* result := invokeWriteHandler handler type parsed reservation user sc in
          match result with
          | DFailure e => ret (DFailure e)
          | DSuccess ref lifecycle =>
              let* settleFailure :=
                settleSuccessfulWrite type user origin tx parsed reservation (wh_perCommand handler) sc ref lifecycle in
              match settleFailure with
              | Some e => ret (DFailure e)
              | None =>
                  let* data := gets (λ s, object_at s ref) in
                  let* _ := refuse_secret data in
                  let* _ := match lifecycle with Some l => refuse_secret l | None => ret tt end in
                  ret (DSuccess ref lifecycle)
              end
          end
      end
  end.

(** [runHandlerInstrumented]: the outermost dispatch opens the record of what
    the request was charged for; nested ones share it. *)
Definition in_entry_scope {A} (m : M A) : M A :=
  λ s, match gs_charged (rs_gates s) with
       | Some _ => m s
       | None =>
           match m (set_gates (mkGateState (gs_buckets (rs_gates s)) (Some [])) s) with
           | None => None
           | Some (r, s') => Some (r, set_gates (mkGateState (gs_buckets (rs_gates s')) None) s')
           end
       end.

Definition executeWrite (type : string) (payload : Json) (user : Principal) (origin : WriteOrigin) (tx : bool)
    : M DispatchResult :=
  in_entry_scope (executeWriteInner type payload user origin tx).

(** ** A nested write in its savepoint *)

(** A failure result or a throw rolls the database back to the savepoint; what
    was registered for a commit is dropped, the compensations are kept. *)
Definition runInSavepoint (m : M DispatchResult) : M DispatchResult :=
  λ s, match m (set_sinks no_hooks s) with
       | None => None
       | Some (Ok (DSuccess ref lifecycle), s') =>
           Some (Ok (DSuccess ref lifecycle), set_sinks (carry_savepoint false (rs_sinks s') (rs_sinks s)) s')
       | Some (r, s') =>
           Some (r, set_db (rs_db s) (set_sinks (carry_savepoint true (rs_sinks s') (rs_sinks s)) s'))
       end.

Definition isPerCommandHandler (type : string) : bool :=
  match dc_writeHandler ctx type with Some h => wh_perCommand h | None => false end.

Definition runNestedWriteInSavepoint (sc : HandlerContextScope) (asUser : Principal) (targetType : string) (payload : Json)
    : M DispatchResult :=
  if isPerCommandHandler targetType then ret (DFailure perCommandNestedDenied)
  else if negb (sc_tx sc) then executeWrite targetType payload asUser (sc_origin sc) false
  else runInSavepoint (executeWrite targetType payload asUser (sc_origin sc) true).
End write.
