(* ===== verification/CommandBatch.v ===== *)
(** * Command dispatcher: nested children, reservations and batches

    [pipeline/dispatch-nested-write.ts], [nested-write-parent-guard.ts],
    [pre-transaction-reservations.ts] and [dispatch-batch.ts].  [writeAsUser]
    ties the knot between a handler's nested writes and the dispatcher: its fuel
    is the depth of nesting. *)

From S2P Require Import Prelude Origins QualifiedName Ownership FieldAccess Redis Idempotency TransitionGuard Gates WriteOrigin ClientMasking CommitSinks CommandDispatch CommandWrite.

Open Scope string_scope.
Open Scope list_scope.

(** ** Nested children of a create *)

Record NestedSpec := mkSpec {
  ns_key : string;
  ns_subType : string;
  ns_foreignKey : string;
  ns_items : list Json }.

Fixpoint ends_with (suffix s : string) : bool :=
  if decide (s = suffix) then true
  else match s with String _ s' => ends_with suffix s' | EmptyString => false end.

Record Extracted := mkExtracted {
  ex_cleanPayload : Row;
  ex_specs : list NestedSpec;
  ex_typeIssues : list FieldIssue }.

(** One relation of the loop of [extractNestedSpecs]. *)
Definition extract_relation (parsed : ParsedQn) (source : Row) (acc : Extracted) (relation : string * RelationDefinition)
    : result QnError Extracted :=
  match relation.2 with
  | HasMany target foreignKey true =>
      match assoc_get relation.1 source with
      | None => Ok acc
      | Some (JArr items) =>
          let? subType := qn (pq_scope parsed) (pq_type parsed) (target +:+ ":create") in
          Ok (mkExtracted (assoc_delete relation.1 (ex_cleanPayload acc))
                (ex_specs acc ++ [mkSpec relation.1 subType foreignKey items]) (ex_typeIssues acc))
      | Some _ =>
          Ok (mkExtracted (assoc_delete relation.1 (ex_cleanPayload acc)) (ex_specs acc)
                (ex_typeIssues acc ++ [mkIssue relation.1 "invalid_type"]))
      end
  | _ => Ok acc
  end.

Fixpoint extract_relations (parsed : ParsedQn) (source : Row) (acc : Extracted) (relations : list (string * RelationDefinition))
    : result QnError Extracted :=
  match relations with
  | [] => Ok acc
  | r :: rest => let? acc := extract_relation parsed source acc r in extract_relations parsed source acc rest
  end.

Definition extractNestedSpecs (reg : GateRegistry) (relations : string → list (string * RelationDefinition))
    (parentType : string) (payload : Json) : result QnError (option Extracted) :=
  match payload with
  | JObj source =>
      match parseQn parentType with
      | Err _ => Ok None
      | Ok parsed =>
          if negb (ends_with ":create" (pq_name parsed)) then Ok None
          else match gr_handlerEntity reg parentType with
               | None => Ok None
               | Some entityName =>
                   let? ex := extract_relations parsed source (mkExtracted source [] []) (relations entityName) in
                   Ok (match ex_specs ex, ex_typeIssues ex with [], [] => None | _, _ => Some ex end)
               end
      end
  | _ => Ok None
  end.

Definition prefixValidationPath (info : WriteErrorInfo) (prefix : string) : WriteErrorInfo :=
  if decide (we_code info = "validation_error")
  then mkErrorInfo (we_code info) (we_httpStatus info) (we_reason info)
         ((λ f, mkIssue (prefix +:+ "." +:+ fi_path f) (fi_code f)) <$> we_fields info)
  else info.

Definition carries_key (key : string) (item : Json) : bool :=
  match item with JObj kvs => bool_decide (is_Some (assoc_get key kvs)) | _ => false end.

Definition item_path (spec : NestedSpec) (i : nat) : string := ns_key spec +:+ "." +:+ pretty i.

Definition foreign_key_issues (spec : NestedSpec) : list FieldIssue :=
  concat (imap (λ i item, if carries_key (ns_foreignKey spec) item
                          then [mkIssue (item_path spec i +:+ "." +:+ ns_foreignKey spec) "unexpected_field"] else [])
            (ns_items spec)).

Definition collectNestedForeignKeyIssues (nested : Extracted) : list FieldIssue :=
  ex_typeIssues nested ++ (ex_specs nested ≫= foreign_key_issues).

(** [wrapper.data ?? wrapper]; on [null] the property read throws. *)
Definition unwrapSaveRow (data : Json) : result Thrown Json :=
  match data with
  | JNull => Err (ThrewOther "cannot read properties of null")
  | _ => Ok (default data (nullish (prop_of data "data") None))
  end.

(** [unwrapSaveRow(data)[key] = v], in place. *)
Definition set_in_save_row (key : string) (v : Json) (data : Json) : Json :=
  match data with
  | JObj kvs =>
      match nullish (assoc_get "data" kvs) None with
      | Some (JObj inner) => JObj (assoc_set "data" (JObj (assoc_set key v inner)) kvs)
      | Some _ => data
      | None => JObj (assoc_set key v kvs)
      end
  | _ => data
  end.

Definition child_payload (spec : NestedSpec) (item : Json) (parentId : string) : Json :=
  JObj (assoc_set (ns_foreignKey spec) (JStr parentId) (entries_of item)).

(** ** Commands *)

Record BatchCommand := mkCommand { cmd_type : string; cmd_payload : Json }.

(** How the commands of a batch end. *)
Inductive BodyEnd :=
| BodyDone
| BodyFailed (index : nat) (e : WriteErrorInfo)
| BodyThrew (t : Thrown).

Definition unwrapSingle (batchResult : BatchResult) : WriteResult :=
  match batchResult with
  | BatchOk results => default (WriteFailed (InternalError "empty_batch_result")) (head results)
  | BatchFailed e failedIndex results => default (WriteFailed e) (results !! failedIndex)
  end.

(** What the idempotency check leaves for the rest of the batch. *)
Inductive IdempotencyCheck :=
| CheckSkipped
| CheckCached (result : BatchResult)
| CheckToken (token : string).

Section batch.
Context {D E S : Type} `{!SinkOps (QueuedHook E) S} (ctx : DispatchContext D E).

Notation M := (M D E S).
Notation Run := (RunState D E S).

Context (nested : HandlerContextScope → Principal → string → Json → M DispatchResult).

Notation executeWrite := (executeWrite ctx nested).

(** ** Nested writes *)

(** The rows of the children, or the failure of the first that failed. *)
Fixpoint writeNestedChildren (spec : NestedSpec) (parentId : string) (user : Principal) (origin : WriteOrigin) (tx : bool)
    (i : nat) (items : list Json) : M (result WriteErrorInfo (list Json)) :=
  match items with
  | [] => ret (Ok [])
  | item :: rest =>
      let* subResult := executeWrite (ns_subType spec) (child_payload spec item parentId) user origin tx in
      match subResult with
      | DFailure e => ret (Err (prefixValidationPath e (item_path spec i)))
      | DSuccess ref _ =>
          let* data := gets (λ s, object_at s ref) in
          let* subRow := lift (unwrapSaveRow data) in
          let row := match gr_handlerEntity (dc_reg ctx) (ns_subType spec) ≫= gr_entity (dc_reg ctx), subRow with
                     | Some entity, JObj kvs => JObj (maskWriteOnlyFields entity kvs)
                     | _, _ => subRow
                     end in
          let* rows := writeNestedChildren spec parentId user origin tx (Datatypes.S i) rest in
          ret (match rows with Ok rows => Ok (row :: rows) | Err e => Err e end)
      end
  end.

Definition isForeignTenantParentRow (rowTenantId : string) (user : Principal) : bool :=
  bool_decide (rowTenantId ≠ tenant_of user).

Definition isParentRowHiddenFromCaller (s : Run) (parentEntityName : option string) (parentId : string) (user : Principal)
    : bool :=
  match parentEntityName with
  | None => true
  | Some name =>
      match gr_entity (dc_reg ctx) name with
      | None => true
      | Some _ =>
          if negb (dc_hasDb ctx) then true
          else match dc_tenantRow ctx (rs_db s) name parentId (tenant_of user) with
               | None => true
               | Some row => dc_hasTenantColumn ctx name
                             && negb (match assoc_get "tenantId" row with
                                      | Some (JStr t) => bool_decide (t = tenant_of user)
                                      | _ => false
                                      end)
               end
      end
  end.

Definition completeParentRow (s : Run) (parentEntityName : string) (entity : Entity) (parentRow : Row) (user : Principal) : Row :=
  if forallb (λ f, bool_decide (is_Some (assoc_get f.1 parentRow))) entity then parentRow
  else if negb (dc_hasDb ctx) then parentRow
  else match assoc_get "id" parentRow with
       | Some (JStr id) =>
           match dc_tenantRow ctx (rs_db s) parentEntityName id (tenant_of user) with
           | Some stored => assoc_spread stored parentRow
           | None => parentRow
           end
       | _ => parentRow
       end.

Definition is_parent_foreign (s : Run) (type : string) (parentRow : Row) (parentId : string) (user : Principal) : bool :=
  negb (gr_isHandlerSystemScoped (dc_reg ctx) type)
  && match assoc_get "tenantId" parentRow with
     | Some (JStr t) => isForeignTenantParentRow t user
     | _ => isParentRowHiddenFromCaller s (gr_handlerEntity (dc_reg ctx) type) parentId user
     end.

Definition rejectUnverifiedParent (s : Run) (type : string) (parentRow : Row) (parentId : string) (user : Principal)
    : option WriteErrorInfo :=
  if is_parent_foreign s type parentRow parentId user then Some (AccessDeniedError "field_access_denied")
  else match gr_handlerEntity (dc_reg ctx) type with
       | None => None
       | Some name =>
           match gr_entity (dc_reg ctx) name with
           | None => None
           | Some entity =>
               let ownershipRow := completeParentRow s name entity parentRow user in
               match checkWriteFieldOwnership entity ownershipRow (pr_user user) None ownershipRow false with
               | Some _ => Some (AccessDeniedError "field_access_denied")
               | None => None
               end
           end
       end.

(** Each relation's children, and their rows put on the parent. *)
Fixpoint attach_children (specs : list NestedSpec) (parentRef : nat) (parentId : string) (user : Principal)
    (origin : WriteOrigin) (tx : bool) : M (option WriteErrorInfo) :=
  match specs with
  | [] => ret None
  | spec :: rest =>
      let* children := writeNestedChildren spec parentId user origin tx 0 (ns_items spec) in
      match children with
      | Err e => ret (Some e)
      | Ok rows =>
          let* _ := modify (λ s, set_heap (alter (set_in_save_row (ns_key spec) (JArr rows)) parentRef (rs_heap s)) s) in
          attach_children rest parentRef parentId user origin tx
      end
  end.

Definition executeNestedWrite (type : string) (payload : Json) (user : Principal) (origin : WriteOrigin) (tx : bool)
    : M DispatchResult :=
  match extractNestedSpecs (dc_reg ctx) (dc_relations ctx) type payload with
  | Err _ => throw (ThrewOther "invalid qualified name")
  | Ok None => executeWrite type payload user origin tx
  | Ok (Some ex) =>
      match collectNestedForeignKeyIssues ex with
      | [] =>
          let* parentResult := executeWrite type (JObj (ex_cleanPayload ex)) user origin tx in
          match parentResult with
          | DFailure e => ret (DFailure e)
          | DSuccess ref lifecycle =>
              let* data := gets (λ s, object_at s ref) in
              let* parentRow := lift (unwrapSaveRow data) in
              match prop_of parentRow "id" with
              | Some (JStr parentId) =>
                  let* rejection := gets (λ s, rejectUnverifiedParent s type (payload_row parentRow) parentId user) in
                  match rejection with
                  | Some e => ret (DFailure e)
                  | None =>
                      let* failure := attach_children (ex_specs ex) ref parentId user origin tx in
                      ret (match failure with Some e => DFailure e | None => DSuccess ref lifecycle end)
                  end
              | _ => ret (DFailure (InternalError "parent handler returned no string id"))
              end
          end
      | issues => ret (DFailure (ValidationError issues))
      end
  end.

(** ** Pre-transaction phases *)

Definition Release : Type := D * E → result Thrown () * (D * E).

(** A phase runs on the committed database and the world outside. *)
Definition outside {A} (f : D * E → result Thrown A * (D * E)) : M A :=
  λ s, let '(r, (d, e)) := f (rs_db s, rs_ext s) in Some (r, set_ext e (set_db d s)).

(** The last phase is given back first; a failing release is logged. *)
Definition releaseAll (releases : list Release) : M () := run_each false (outside <$> reverse releases).

Inductive PreTransactionReservations :=
| ReservationsOk (reserved : gmap nat (ConsumedReservation D)) (releases : list Release)
| ReservationsFailed (e : WriteErrorInfo) (failedIndex : nat).

Definition toReservationHandle (taken : Reserved D E) : option (ReservationHandle D E) :=
  match taken with
  | ReservedNothing => None
  | ReservedRelease release => Some (mkHandle release (λ d, Ok d))
  | ReservedHandle h => Some h
  end.

Definition origin_of (type : string) (user : Principal) (inherited : option WriteOrigin) : WriteOrigin :=
  effectiveWriteOrigin (rootWriteOrigin (dc_access ctx) type (pr_user user)) inherited.

(** The two phases of one command: what it consumes, and the releases with its
    own added as far as it got. *)
Definition reserve_phase (h : WriteHandlerDef D E) (event : WriteEvent) (releases : list Release)
    : M (result Thrown (option (D → result Thrown D)) * list Release) :=
  match wh_reserveBeforeTransaction h with
  | None => ret (Ok None, releases)
  | Some reserve =>
      let* taken := attempt (outside (reserve event)) in
      ret (match taken with
           | Err t => (Err t, releases)
           | Ok taken => match toReservationHandle taken with
                         | Some handle => (Ok (Some (rh_confirmInTransaction handle)), releases ++ [rh_release handle])
                         | None => (Ok None, releases)
                         end
           end)
  end.

Definition before_phase (h : WriteHandlerDef D E) (event : WriteEvent) (releases : list Release)
    : M (result WriteErrorInfo (option Json) * list Release) :=
  match wh_beforeTransaction h with
  | None => ret (Ok None, releases)
  | Some before =>
      let* phase := attempt (outside (before event)) in
      ret (match phase with
           | Err t => (Err (wrapToKumiko t), releases)
           | Ok (PhaseFailed e) => (Err e, releases)
           | Ok (PhaseOk data release) =>
               (Ok (Some data), releases ++ match release with Some r => [r] | None => [] end)
           end)
  end.

Definition reserve_command (h : WriteHandlerDef D E) (cmd : BatchCommand) (user : Principal) (releases : list Release)
    : M (result WriteErrorInfo (ConsumedReservation D) * list Release) :=
  let* gates := attempt (run_gate (runPreHandlerGates (dc_env ctx) (dc_reg ctx) (wh_gates h) (cmd_type cmd) (pr_user user)
                                     Charge (cmd_payload cmd))) in
  match gates with
  | Err t => ret (Err (wrapToKumiko t), releases)
  | Ok (Err e) => ret (Err e, releases)
  | Ok (Ok payload) =>
      let event := mkEvent (cmd_type cmd) payload user None in
      let* reserved := reserve_phase h event releases in
      match reserved with
      | (Err t, releases) => ret (Err (wrapToKumiko t), releases)
      | (Ok confirm, releases) =>
          let* prepared := before_phase h event releases in
          match prepared with
          | (Err e, releases) => ret (Err e, releases)
          | (Ok data, releases) => ret (Ok (mkConsumed confirm data payload), releases)
          end
      end
  end.

Fixpoint reserve_commands (index : nat) (commands : list BatchCommand) (user : Principal)
    (reserved : gmap nat (ConsumedReservation D)) (releases : list Release) : M PreTransactionReservations :=
  match commands with
  | [] => ret (ReservationsOk reserved releases)
  | cmd :: rest =>
      match dc_writeHandler ctx (cmd_type cmd) with
      | None => reserve_commands (Datatypes.S index) rest user reserved releases
      | Some h =>
          if negb (hasPreTransactionPhase h) then reserve_commands (Datatypes.S index) rest user reserved releases
          else
            let* taken := reserve_command h cmd user releases in
            match taken with
            | (Err e, releases) => let* _ := releaseAll releases in ret (ReservationsFailed e index)
            | (Ok consumed, releases) =>
                reserve_commands (Datatypes.S index) rest user (<[index := consumed]> reserved) releases
            end
      end
  end.

Definition reserveBeforeTransaction (commands : list BatchCommand) (user : Principal) : M PreTransactionReservations :=
  if isMemberResolutionPrincipal user then ret (ReservationsOk ∅ [])
  else reserve_commands 0 commands user ∅ [].

(** ** The commands of a batch *)

Definition runAsCommand {A} (reserved : gmap string (ConsumedReservation D)) (m : M A) : M A :=
  λ s, match m (set_reserved reserved s) with
       | None => None
       | Some (r, s') => Some (r, set_reserved (rs_reserved s) s')
       end.

Definition toReservedScope (reserved : gmap nat (ConsumedReservation D)) (index : nat) (cmd : BatchCommand)
    : gmap string (ConsumedReservation D) :=
  match reserved !! index with Some r => {[cmd_type cmd := r]} | None => ∅ end.

Definition runReservedCommand (reserved : gmap nat (ConsumedReservation D)) (user : Principal)
    (inherited : option WriteOrigin) (cmd : BatchCommand) (index : nat) (tx : bool) : M DispatchResult :=
  let origin := origin_of (cmd_type cmd) user inherited in
  let* hookStart := gets (λ s, sink_length (rs_sinks s)) in
  let* res := runAsCommand (toReservedScope reserved index cmd)
                (if isPerCommandHandler ctx (cmd_type cmd)
                 then executeWrite (cmd_type cmd) (cmd_payload cmd) user origin tx
                 else executeNestedWrite (cmd_type cmd) (cmd_payload cmd) user origin tx) in
  let* _ := modify (λ s, set_sinks (rewrap_hooks (with_origin origin) hookStart (rs_sinks s)) s) in
  ret res.

(** Runs the commands until one fails or throws; the results so far are kept
    in either case. *)
Fixpoint run_commands (reserved : gmap nat (ConsumedReservation D)) (user : Principal) (inherited : option WriteOrigin)
    (tx : bool) (index : nat) (commands : list BatchCommand) : M (list DispatchResult * BodyEnd) :=
  match commands with
  | [] => ret ([], BodyDone)
  | cmd :: rest =>
      let* r := attempt (runReservedCommand reserved user inherited cmd index tx) in
      match r with
      | Err t => ret ([], BodyThrew t)
      | Ok (DFailure e) => ret ([DFailure e], BodyFailed index e)
      | Ok res =>
          let* more := run_commands reserved user inherited tx (Datatypes.S index) rest in
          ret (res :: more.1, more.2)
      end
  end.

(** ** The transaction *)

(** The flag is [transactionCallbackCompleted]. *)
Definition transaction (body : M (list DispatchResult * BodyEnd)) : M (list DispatchResult * BodyEnd * bool) :=
  λ s, match body s with
       | None => None
       | Some (Ok (results, BodyDone), s') =>
           match dc_commit ctx (rs_db s') with
           | None => Some (Ok (results, BodyDone, true), s')
           | Some (t, applied) =>
               Some (Ok (results, BodyThrew t, true), if applied : bool then s' else set_db (rs_db s) s')
           end
       | Some (Ok (results, failed), s') => Some (Ok (results, failed, false), set_db (rs_db s) s')
       | Some (Err t, s') => Some (Err t, s')
       end.

(** ** After the transaction *)

Definition gated_origin (q : QueuedHook E) : option WriteOrigin :=
  match qh_origin q with Some o => if isPersonalDataGated o then Some o else None | None => None end.

Definition run_queued (q : QueuedHook E) : M () :=
  match qh_hook q with
  | HandlerHook run => λ s, let '(r, e) := run (rs_ext s) in Some (r, set_ext e s)
  | LifecycleAfterCommit kind type payload user origin =>
      match dc_lifecycle ctx with
      | None => ret tt
      | Some lh =>
          let sc := buildHandlerContext ctx type user origin false false PostCommit in
          let* data := gets (λ s, value_of s payload) in
          match kind with
          | KindSave => runPostSave ctx nested lh type data sc AfterCommit
          | KindDelete => runPostDelete ctx nested lh type data sc AfterCommit
          end
      end
  | JobEvent type payload user =>
      modify (λ s, set_jobs (rs_jobs s ++ [JobForEvent type payload user (gated_origin q)]) s)
  | ConfigWritten type user ref =>
      let* _ := invalidate_timezone type user ref in
      modify (λ s, set_published (rs_published s ++ (ConfigSync <$> publishConfigWrite (dc_cacheSync ctx) type (tenant_of user) (object_at s ref))) s)
  end.

Definition flushAfterCommit : M () :=
  let* hooks := gets (λ s, commit_hooks (rs_sinks s)) in
  run_each false (run_queued <$> hooks).

Definition flushAfterRollback : M () :=
  let* hooks := gets (λ s, rollback_hooks (rs_sinks s)) in
  run_each false (run_queued <$> hooks).

(** The save or delete contexts of the successful results. *)
Definition lifecycle_results (kind : LifecycleKind) (s : Run) (results : list DispatchResult) : list Json :=
  omap (λ r, match r with
             | DFailure _ => None
             | DSuccess ref lifecycle =>
                 let v := default (object_at s ref) lifecycle in
                 match lifecycle_kind v, kind with
                 | Some KindSave, KindSave => Some v
                 | Some KindDelete, KindDelete => Some v
                 | _, _ => None
                 end
             end) results.

Definition BATCH_HOOKS_CONTEXT_TYPE : string := "dispatcher:batch-hooks".

Definition runBatchHooks (hooks : list (SystemHookDef D E)) (payload : list Json) (sc : HandlerContextScope) : M () :=
  match payload with
  | [] => ret tt
  | _ => run_each false (run_system_hook ctx nested sc (JArr payload) <$> sortByPriority hooks)
  end.

Definition hasBatchHooks (lh : LifecycleHooks D E) : bool :=
  match lh_postSaveBatch lh, lh_postDeleteBatch lh with [], [] => false | _, _ => true end.

(** Batch hooks see every command's saves, so they run under the strictest of
    the commands' origins. *)
Definition strictest_origin (origins : list WriteOrigin) : option WriteOrigin :=
  match filter (λ o, isPersonalDataGated o = true) origins with o :: _ => Some o | [] => head origins end.

Definition flushBatchHooks (user : Principal) (origins : list WriteOrigin) (results : list DispatchResult) : M () :=
  match strictest_origin origins, dc_lifecycle ctx with
  | Some strictest, Some lh =>
      let* saves := gets (λ s, lifecycle_results KindSave s results) in
      let* deletes := gets (λ s, lifecycle_results KindDelete s results) in
      if hasBatchHooks lh then
        let sc := buildHandlerContext ctx BATCH_HOOKS_CONTEXT_TYPE user strictest false false PostCommit in
        let* _ := runBatchHooks (lh_postSaveBatch lh) saves sc in
        runBatchHooks (lh_postDeleteBatch lh) deletes sc
      else ret tt
  | _, _ => ret tt
  end.

(** ** Idempotency of a batch *)

Definition batch_key (user : Principal) (requestId : string) : string :=
  request_key (tenant_of user) (us_id (pr_user user)) requestId.

(** [requestId && idempotency]: an empty request id is none. *)
Definition guarded_request (requestId : option string) : option (string * IdempotencyOptions) :=
  match requestId, dc_idempotency ctx with
  | Some rid, Some o => if decide (rid = "") then None else Some (rid, o)
  | _, _ => None
  end.

Definition checkBatchIdempotency (user : Principal) (requestId : option string) : M IdempotencyCheck :=
  match guarded_request requestId with
  | Some (rid, o) => λ s,
      match check o (batch_key user rid) (rt_check (dc_requestTime ctx)) (rs_redis s) AtCheck with
      | (Owner token _, r) => Some (Ok (CheckToken token), set_redis r s)
      | (Cached text, r) =>
          Some (Ok (match dc_decode ctx text with Some result => CheckCached result | None => CheckSkipped end), set_redis r s)
      | (Contended, r) => Some (Err (ThrewKumiko (InternalError "idempotency lock contention")), set_redis r s)
      | _ => None
      end
  | None => ret CheckSkipped
  end.

Definition batch_result (s : Run) (r : DispatchResult) : WriteResult :=
  match r with DSuccess ref lifecycle => WriteSuccess (object_at s ref) lifecycle | DFailure e => WriteFailed e end.

Definition maskForClient (commands : list BatchCommand) (result : BatchResult) : BatchResult :=
  maskBatchResultForClient (dc_reg ctx) (cmd_type <$> commands) result.

Section finalize.
Context (commands : list BatchCommand) (user : Principal) (requestId : option string) (token : option string).

Definition finalize (result : BatchResult) : M BatchResult :=
  let masked := maskForClient commands result in
  match guarded_request requestId, token with
  | Some (rid, o), Some token => λ s,
      let answer := rt_answer (dc_requestTime ctx) in
      Some (Ok masked, set_redis (storeScript o (mo_now answer) (mo_others answer (rs_redis s)) (batch_key user rid) token (dc_encode ctx masked)).2 s)
  | _, _ => ret masked
  end.

Definition releaseOrFinalize (result : BatchResult) (isRetryableRollback : bool) : M BatchResult :=
  match isRetryableRollback, guarded_request requestId, token with
  | true, Some (rid, _), Some token => λ s,
      let answer := rt_answer (dc_requestTime ctx) in
      Some (Ok (maskForClient commands result),
            set_redis (releaseScript (mo_now answer) (mo_others answer (rs_redis s)) (batch_key user rid) token).2 s)
  | _, _, _ => finalize result
  end.
End finalize.

(** ** A batch *)

Definition is_retryable (e : WriteErrorInfo) : bool := (500 <=? we_httpStatus e)%Z.

Definition perCommandBatchRejection (commands : list BatchCommand) : option BatchResult :=
  match list_find (λ c, isPerCommandHandler ctx (cmd_type c) = true) commands with
  | Some (index, _) =>
      if (length commands <? 2)%nat then None
      else Some (BatchFailed (UnprocessableError "per_command_handler_in_batch") index [])
  | None => None
  end.

(** The commands without a transaction: a failure stops them and gives the
    reservations back, but undoes nothing. *)
Definition runCommandsWithoutTransaction (reserved : gmap nat (ConsumedReservation D)) (releases : list Release)
    (user : Principal) (inherited : option WriteOrigin) (commands : list BatchCommand)
    : M (list DispatchResult * BodyEnd) :=
  let* ended := run_commands reserved user inherited false 0 commands in
  match ended.2 with
  | BodyDone => ret ended
  | _ => let* _ := releaseAll releases in let* _ := flushAfterRollback in ret ended
  end.

Definition with_fresh_sinks {A} (m : M A) : M A :=
  λ s, match m (set_sinks no_hooks s) with
       | None => None
       | Some (r, s') => Some (r, set_sinks (rs_sinks s) s')
       end.

Definition batch_without_transaction (commands : list BatchCommand) (user : Principal) (inherited : option WriteOrigin)
    (reserved : gmap nat (ConsumedReservation D)) (releases : list Release) (isPerCommand : bool) : M BatchResult :=
  let* ended := runCommandsWithoutTransaction reserved releases user inherited commands in
  match ended.2 with
  | BodyThrew t => throw t
  | BodyFailed index e =>
      let* results := gets (λ s, batch_result s <$> ended.1) in ret (BatchFailed e index results)
  | BodyDone =>
      let* _ := flushAfterCommit in
      let* _ := (if isPerCommand then ret tt
                 else flushBatchHooks user ((λ c, origin_of (cmd_type c) user inherited) <$> commands) ended.1) in
      let* results := gets (λ s, batch_result s <$> ended.1) in
      ret (BatchOk results)
  end.

(** The result with whether it is a rollback that may be retried. *)
Definition batch_in_transaction (commands : list BatchCommand) (user : Principal) (inherited : option WriteOrigin)
    (reserved : gmap nat (ConsumedReservation D)) (releases : list Release) : M (BatchResult * bool) :=
  let* ended := transaction (run_commands reserved user inherited true 0 commands) in
  match ended with
  | (done, BodyDone, _) =>
      let* _ := flushAfterCommit in
      let* _ := flushBatchHooks user ((λ c, origin_of (cmd_type c) user inherited) <$> commands) done in
      let* results := gets (λ s, batch_result s <$> done) in
      ret (BatchOk results, false)
  | (done, BodyFailed index e, _) =>
      let* _ := releaseAll releases in
      let* _ := flushAfterRollback in
      let* results := gets (λ s, batch_result s <$> done) in
      ret (BatchFailed e index results, is_retryable e)
  | (done, BodyThrew t, completed) =>
      let* _ := releaseAll releases in
      let* _ := flushAfterRollback in
      let* results := gets (λ s, batch_result s <$> done) in
      ret (BatchFailed (wrapToKumiko t) (length done) results, negb completed && is_retryable (wrapToKumiko t))
  end.

(** The batch after its idempotency check. *)
Definition runCheckedBatch (commands : list BatchCommand) (user : Principal) (requestId : option string)
    (inherited : option WriteOrigin) (token : option string) : M BatchResult :=
  let releaseOrFinalize := releaseOrFinalize commands user requestId token in
  match perCommandBatchRejection commands with
  | Some rejection => releaseOrFinalize rejection false
  | None =>
      let isPerCommand := existsb (λ c, isPerCommandHandler ctx (cmd_type c)) commands in
      let* reservations := reserveBeforeTransaction commands user in
      match reservations with
      | ReservationsFailed e index => releaseOrFinalize (BatchFailed e index []) (is_retryable e)
      | ReservationsOk reserved releases =>
          if negb (dc_hasDb ctx) || isPerCommand
          then let* r := batch_without_transaction commands user inherited reserved releases isPerCommand in
               finalize commands user requestId token r
          else let* ended := batch_in_transaction commands user inherited reserved releases in
               releaseOrFinalize ended.1 ended.2
      end
  end.

Definition runBatchBody (commands : list BatchCommand) (user : Principal) (requestId : option string)
    (inherited : option WriteOrigin) : M BatchResult :=
  match commands with
  | [] => ret (BatchOk [])
  | _ =>
      let* check := checkBatchIdempotency user requestId in
      match check with
      | CheckCached result => ret result
      | CheckToken token => runCheckedBatch commands user requestId inherited (Some token)
      | CheckSkipped => runCheckedBatch commands user requestId inherited None
      end
  end.

Definition runBatch (commands : list BatchCommand) (user : Principal) (requestId : option string)
    (inherited : option WriteOrigin) : M BatchResult :=
  with_fresh_sinks (runBatchBody commands user requestId inherited).
End batch.

(** ** The knot *)

Section dispatcher.
Context {D E S : Type} `{!SinkOps (QueuedHook E) S} (ctx : DispatchContext D E).

Definition adopt (r : WriteResult) : M D E S DispatchResult :=
  match r with
  | WriteFailed e => ret (DFailure e)
  | WriteSuccess data lifecycle => let* ref := alloc data in ret (DSuccess ref lifecycle)
  end.

(** [ctx.dispatch.write] and [writeAs]: inside a transaction a savepoint of it,
    elsewhere a batch of one. *)
Fixpoint writeAsUser (fuel : nat) (sc : HandlerContextScope) (asUser : Principal) (targetType : string) (payload : Json)
    : M D E S DispatchResult :=
  match fuel with
  | O => λ _, None
  | Datatypes.S fuel =>
      if decide (sc_mode sc = InTx) then runNestedWriteInSavepoint ctx (writeAsUser fuel) sc asUser targetType payload
      else let* r := runBatch ctx (writeAsUser fuel) [mkCommand targetType payload] asUser None (Some (sc_origin sc)) in
           adopt (unwrapSingle r)
  end.

(** [dispatcher.batch] and [dispatcher.write]. *)
Definition batch (fuel : nat) (commands : list BatchCommand) (user : Principal) (requestId : option string)
    : M D E S BatchResult :=
  runBatch ctx (writeAsUser fuel) commands user requestId None.

Definition write (fuel : nat) (type : string) (payload : Json) (user : Principal) (requestId : option string)
    : M D E S WriteResult :=
  let* r := batch fuel [mkCommand type payload] user requestId in ret (unwrapSingle r).
End dispatcher.
