(* ===== verification/CommandLogic.v ===== *)
(** * Command dispatcher: a logic for its computations

    [spec V m]: from a state whose queued hooks and reservations are well
    formed, [m] ends in such a state, a value it returns satisfies [V], and the
    states before and after are related by [P]; when [terminates] holds it does
    end.  The rules take the definitions of [CommandWrite] and [CommandBatch]
    apart once, so that a property of the whole dispatcher is an instance: a
    relation [P] and what handlers may do. *)

From S2P Require Import Prelude Origins QualifiedName Ownership FieldAccess Redis Idempotency TransitionGuard Gates SecretLeak WriteOrigin ClientMasking CommitSinks CommandDispatch CommandWrite CommandBatch.

Open Scope string_scope.
Open Scope list_scope.

Lemma elem_of_entity_hooks {A} payload (hooks : string → list A) hook :
  hook ∈ entity_hooks payload hooks → ∃ name, hook ∈ hooks name.
Proof. unfold entity_hooks. destruct (entity_name payload); [eauto|set_solver]. Qed.

(** ** The children of a create *)

(** A relation of the parent's entity that may be written with it, with the
    items the payload has for it. *)
Definition child_of (relations : list (string * RelationDefinition)) (parsed : ParsedQn) (source : Row) (child : NestedSpec) : Prop :=
  ∃ target, (ns_key child, HasMany target (ns_foreignKey child) true) ∈ relations ∧
    qn (pq_scope parsed) (pq_type parsed) (target +:+ ":create") = Ok (ns_subType child) ∧
    assoc_get (ns_key child) source = Some (JArr (ns_items child)).

Lemma extract_relations_children parsed source relations acc ex child :
  extract_relations parsed source acc relations = Ok ex → child ∈ ex_specs ex →
  child ∈ ex_specs acc ∨ child_of relations parsed source child.
Proof.
  revert acc. induction relations as [|[key relation] relations IH]; intros acc Hex Hin; simpl in Hex; [left; by simplify_eq|].
  destruct (extract_relation parsed source acc (key, relation)) as [acc'|] eqn:Hacc; [|done].
  destruct (IH acc' Hex Hin) as [Hin'|(target & Hr & ?)]; [|right; exists target; split; [by right|done]].
  unfold extract_relation in Hacc; simpl in Hacc. destruct relation as [target foreignKey []|]; try (left; by simplify_eq).
  destruct (assoc_get key source) as [[]|] eqn:Hs; try (left; by simplify_eq).
  destruct (qn _ _ _) as [subType|] eqn:Hq; [|done]. simplify_eq/=.
  apply elem_of_app in Hin' as [Hin'| ->%list_elem_of_singleton]; [by left|]. right. exists target. split; [left|done].
Qed.

Lemma extractNestedSpecs_children reg relations type payload ex child :
  extractNestedSpecs reg relations type payload = Ok (Some ex) → child ∈ ex_specs ex →
  ∃ source parsed entity, payload = JObj source ∧ parseQn type = Ok parsed ∧ gr_handlerEntity reg type = Some entity ∧
    child_of (relations entity) parsed source child.
Proof.
  unfold extractNestedSpecs. intros Hex Hin. destruct payload as [| | | | |source]; try done.
  destruct (parseQn type) as [parsed|] eqn:Hp; [|done]. destruct (negb _); [done|].
  destruct (gr_handlerEntity reg type) as [entity|] eqn:He; [|done].
  destruct (extract_relations _ _ _ _) as [ex'|] eqn:Hr; [|done].
  assert (ex' = ex) as -> by (simpl in Hex; repeat case_match; by simplify_eq).
  destruct (extract_relations_children _ _ _ _ _ _ Hr Hin) as [Hnil|Hc]; [set_solver|]. by exists source, parsed, entity.
Qed.

Section logic.
Context {D E : Type}.
Notation Hooks := (Sinks (QueuedHook E)).
Notation Run := (RunState D E Hooks).
Notation M := (M D E Hooks).

(** [Q type scope]: the handler and the hooks of [type] may run in [scope];
    [Qh type user origin]: its hooks may be queued for the commit. *)
Context (ctx : DispatchContext D E) (Q : string → HandlerContextScope → Prop)
  (Qh : string → Principal → WriteOrigin → Prop) (terminates : bool) (P : Run → Run → Prop).

Definition wf_hook (q : QueuedHook E) : Prop :=
  match qh_hook q with
  | LifecycleAfterCommit _ type _ user origin => Qh type user origin
  | _ => True
  end.

(** Compensations are hooks of handlers. *)
Definition handler_hook (q : QueuedHook E) : Prop :=
  match qh_hook q with HandlerHook _ => True | _ => False end.

(** A function that may be applied to the database. *)
Definition db_ok (f : D → result Thrown D) : Prop := ∀ s d, f (rs_db s) = Ok d → P s (set_db d s).

Definition reservation_ok (r : ConsumedReservation D) : Prop :=
  ∀ confirm, cr_confirmInTransaction r = Some confirm → db_ok confirm.

Record state_ok (s : Run) : Prop := {
  ok_commit : Forall wf_hook (commitSink (rs_sinks s));
  ok_rollback : Forall handler_hook (rollbackSink (rs_sinks s));
  ok_reserved : map_Forall (λ _, reservation_ok) (rs_reserved s) }.

Definition spec {A} (V : A → Prop) (m : M A) : Prop :=
  ∀ s, state_ok s →
    match m s with
    | None => terminates = false
    | Some (r, s') => state_ok s' ∧ P s s' ∧ match r with Ok a => V a | Err _ => True end
    end.

Definition anything {A} (_ : A) : Prop := True.

(** The parts of a state that relations speak of. *)
Definition same_core (s s' : Run) : Prop :=
  rs_db s' = rs_db s ∧ rs_redis s' = rs_redis s ∧ rs_jobs s' = rs_jobs s ∧ rs_published s' = rs_published s.

(** What a relation must allow: all that a write does besides the handler's own
    database writes, and undoing database writes. *)
Record Frame : Prop := {
  fr_core : ∀ s s', same_core s s' → P s s';
  fr_trans : ∀ s1 s2 s3, P s1 s2 → P s2 s3 → P s1 s3;
  fr_restore : ∀ s s', P s s' → P s (set_db (rs_db s) s');
  fr_projections : ∀ data, db_ok (dc_projections ctx data);
  fr_files : ∀ data user, db_ok (dc_settleFileRefs ctx data user);
  fr_job : ∀ s jobName payload, P s (set_jobs (rs_jobs s ++ [JobDispatched jobName payload]) s);
  fr_publish : ∀ s topic message, P s (set_published (rs_published s ++ [DirectMessage topic message]) s);
  fr_dedup : ∀ s ttlOption now eventId, P s (set_redis (dedup_tryAcquire ttlOption now (rs_redis s) eventId).2 s) }.

Lemma handler_hook_wf q : handler_hook q → wf_hook q.
Proof. unfold handler_hook, wf_hook. by destruct (qh_hook q). Qed.

Section rules.
Context (HF : Frame).
#[local] Set Default Proof Using "Type*".

Lemma P_refl s : P s s.
Proof. by apply (fr_core HF). Qed.

Lemma state_ok_same s s' : state_ok s → rs_sinks s' = rs_sinks s → rs_reserved s' = rs_reserved s → state_ok s'.
Proof. intros [] Hs Hr. split; by rewrite ?Hs, ?Hr. Qed.

(** ** Rules *)

Lemma spec_weaken {A} (V W : A → Prop) m : spec V m → (∀ a, V a → W a) → spec W m.
Proof.
  intros Hm HVW s Hs. specialize (Hm s Hs). destruct (m s) as [[[a|t] s']|]; [|done|done].
  destruct Hm as (? & ? & ?). split_and!; auto.
Qed.

Lemma spec_any {A} (V : A → Prop) m : spec V m → spec anything m.
Proof. intros Hm. by eapply spec_weaken. Qed.

(** A step that keeps hooks, reservations and core. *)
Lemma spec_step {A} (V : A → Prop) (m : M A) :
  (∀ s, ∃ r s', m s = Some (r, s') ∧ rs_sinks s' = rs_sinks s ∧ rs_reserved s' = rs_reserved s ∧ same_core s s' ∧
     match r with Ok a => V a | Err _ => True end) → spec V m.
Proof.
  intros Hm s Hs. destruct (Hm s) as (r & s' & -> & Hk & Hr & Hc & HV). split_and!; [|by apply (fr_core HF)|done].
  by eapply state_ok_same.
Qed.

Lemma spec_ret {A} (V : A → Prop) a : V a → spec V (ret a).
Proof. intros Ha. apply spec_step. intros s. by exists (Ok a), s. Qed.

Lemma spec_throw {A} (V : A → Prop) t : spec V (throw t).
Proof. apply spec_step. intros s. by exists (Err t), s. Qed.

Lemma spec_lift {A} (r : result Thrown A) : spec anything (lift r).
Proof. apply spec_step. intros s. exists r, s. by destruct r. Qed.

Lemma spec_gets {A} (f : Run → A) : spec anything (gets f).
Proof. apply spec_step. intros s. by exists (Ok (f s)), s. Qed.

Lemma spec_alloc v : spec anything (alloc v).
Proof. apply spec_step. intros s. by exists (Ok (length (rs_heap s))), (set_heap (rs_heap s ++ [v]) s). Qed.

Lemma spec_run_gate {A} (g : Gate A) : spec anything (run_gate g).
Proof.
  apply spec_step. intros s. unfold run_gate.
  destruct (g (rs_gates s)) as [[a|e|t] gs]; by eexists _, (set_gates gs s).
Qed.

Lemma spec_bind {A B} (V : A → Prop) (W : B → Prop) (m : M A) (f : A → M B) :
  spec V m → (∀ a, V a → spec W (f a)) → spec W (bind m f).
Proof.
  intros Hm Hf s Hs. unfold bind. specialize (Hm s Hs). destruct (m s) as [[[a|t] s']|]; [|done|done].
  destruct Hm as (Hs' & HP & Ha). specialize (Hf a Ha s' Hs'). destruct (f a s') as [[r s'']|]; [|done].
  destruct Hf as (? & ? & ?). split_and!; [done|by eapply (fr_trans HF)|done].
Qed.

Lemma spec_then {A B} (W : B → Prop) (m : M A) (f : A → M B) :
  spec anything m → (∀ a, spec W (f a)) → spec W (bind m f).
Proof. intros Hm Hf. eapply spec_bind; [done|]. intros a _. apply Hf. Qed.

Lemma spec_attempt {A} (V : A → Prop) (m : M A) :
  spec V m → spec (λ r, match r with Ok a => V a | Err _ => True end) (attempt m).
Proof. intros Hm s Hs. unfold attempt. specialize (Hm s Hs). by destruct (m s) as [[r s']|]. Qed.

Lemma spec_reads {A B} (V : B → Prop) (f : Run → A) (k : A → M B) : (∀ a, spec V (k a)) → spec V (λ s, k (f s) s).
Proof. intros Hk s. apply Hk. Qed.

Lemma spec_quiet (f : Run → Run) :
  (∀ s, rs_sinks (f s) = rs_sinks s ∧ rs_reserved (f s) = rs_reserved s ∧ same_core s (f s)) → spec anything (modify f).
Proof. intros Hf. apply spec_step. intros s. exists (Ok tt), (f s). destruct (Hf s) as (? & ? & ?). done. Qed.

(** A step that keeps hooks and reservations, and that [P] allows. *)
Lemma spec_same (f : Run → Run) :
  (∀ s, rs_sinks (f s) = rs_sinks s) → (∀ s, rs_reserved (f s) = rs_reserved s) → (∀ s, P s (f s)) → spec anything (modify f).
Proof. intros Hk Hr HP s Hs. split_and!; [by apply (state_ok_same s)|apply HP|done]. Qed.

Lemma spec_on_db f : db_ok f → spec anything (on_db f).
Proof.
  intros Hf s Hs. unfold on_db. destruct (f (rs_db s)) eqn:Hd; (split_and!; [|auto using P_refl|done]); [|done].
  by eapply state_ok_same.
Qed.

Lemma spec_push_commit q : wf_hook q → spec anything (modify (λ s, set_sinks (push_commit q (rs_sinks s)) s)).
Proof.
  intros Hq s [Hc Hr Hv]. split_and!; [|by apply (fr_core HF)|done].
  split; simpl; [|done|done]. apply Forall_app. split; [done|]. by constructor.
Qed.

Lemma spec_push_rollback q : handler_hook q → spec anything (modify (λ s, set_sinks (push_rollback q (rs_sinks s)) s)).
Proof.
  intros Hq s [Hc Hr Hv]. split_and!; [|by apply (fr_core HF)|done].
  split; simpl; [done| |done]. apply Forall_app. split; [done|]. by constructor.
Qed.

Lemma spec_run_each b hooks : Forall (spec anything) hooks → spec anything (run_each b hooks).
Proof.
  induction 1 as [|hook hooks Hh _ IH]; simpl; [by apply spec_ret|].
  destruct b; eapply spec_bind; try done. by eapply spec_any, spec_attempt.
Qed.

(** ** Programs *)

Context (nested : HandlerContextScope → Principal → string → Json → M DispatchResult).

(** What a program may do in a scope: database writes that [P] allows, and
    nested writes that are themselves well behaved. *)
Fixpoint prog_ok (sc : HandlerContextScope) (p : Program D E) : Prop :=
  match p with
  | PReturn _ | PThrow _ => True
  | PRead k => ∀ d e, prog_ok sc (k d e)
  | PWrite table keys f k => (write_denied ctx sc table keys = None → db_ok f) ∧ ∀ r, prog_ok sc (k r)
  | PDelete table f k => (delete_denied ctx sc = None → db_ok f) ∧ ∀ r, prog_ok sc (k r)
  | PJob _ _ k | PPublish _ _ k => ∀ r, prog_ok sc (k r)
  | PExt f k => prog_ok sc k
  | PDispatch asUser type payload k =>
      (switch_denied sc asUser = None → spec anything (nested sc (default (sc_user sc) asUser) type payload))
      ∧ ∀ r, prog_ok sc (k r)
  | PAfterCommit _ k | PAfterRollback _ k => ∀ r, prog_ok sc (k r)
  end.

Lemma spec_run_program sc p : prog_ok sc p → spec anything (run_program ctx nested sc p).
Proof.
  revert sc. induction p as [r|t|k IH|table keys f k IH|table f k IH|jobName payload k IH|topic message k IH|f k IH|asUser type payload k IH|hook k IH|hook k IH];
    intros sc Hp; simpl in Hp; cbn [run_program].
  - by apply spec_ret.
  - by apply spec_throw.
  - apply (spec_reads anything (λ s, (rs_db s, rs_ext s)) (λ de, run_program ctx nested sc (k de.1 de.2))).
    intros [d e]. apply IH, Hp.
  - destruct Hp as [Hf Hk]. destruct (write_denied ctx sc table keys); [by apply IH|].
    eapply spec_bind; [eapply spec_attempt, spec_on_db; auto|]. intros r _. by apply IH.
  - destruct Hp as [Hf Hk]. destruct (delete_denied ctx sc); [by apply IH|].
    eapply spec_bind; [eapply spec_attempt, spec_on_db; auto|]. intros r _. by apply IH.
  - destruct (dc_jobRunner ctx); [|by apply IH]. apply spec_then; [|intros _; by apply IH].
    apply spec_same; intros s; [done..|apply (fr_job HF)].
  - destruct (dc_cacheSync ctx); [|by apply IH]. apply spec_then; [|intros _; by apply IH].
    apply spec_same; intros s; [done..|apply (fr_publish HF)].
  - apply spec_then; [by apply spec_quiet|]. intros _. by apply IH.
  - destruct Hp as [Hn Hk]. destruct (switch_denied sc asUser); [by apply IH|].
    eapply spec_bind; [eapply spec_attempt; auto|]. intros r _.
    apply (spec_reads anything (λ s, result_map (nested_view s) r) (λ v, run_program ctx nested sc (k v))). intros v. by apply IH.
  - destruct (sc_hasLiveCommitSink sc); [|by apply IH]. apply spec_then; [by apply spec_push_commit|]. intros _. by apply IH.
  - destruct (_ && _); [|by apply IH]. apply spec_then; [by apply spec_push_rollback|]. intros _. by apply IH.
Qed.

(** Compensations change the world outside only. *)
Lemma spec_run_compensation q : handler_hook q → spec anything (run_queued ctx nested q).
Proof.
  unfold handler_hook, run_queued. destruct (qh_hook q) as [run| | |]; try done. intros _. apply spec_step. intros s.
  destruct (run (rs_ext s)) as [r e]. exists r, (set_ext e s). by destruct r.
Qed.

Lemma spec_flushAfterRollback : spec anything (flushAfterRollback ctx nested).
Proof.
  apply (spec_bind (Forall handler_hook)).
  - intros s Hs. split_and!; [done|apply P_refl|apply (ok_rollback s Hs)].
  - intros hooks Hh. apply spec_run_each, Forall_fmap. eapply Forall_impl; [exact Hh|]. apply spec_run_compensation.
Qed.

(** ** One write *)

(** [R type user origin tx]: the write may be executed so.  Handlers and hooks
    are well behaved in the scopes they run in. *)
Context (R : string → Principal → WriteOrigin → bool → Prop).

Record WellBehaved : Prop := {
  wb_scope : ∀ type user origin tx h, R type user origin tx → resolveWriteEntry ctx type user tx = Ok h →
    Q type (buildHandlerContext ctx type user origin tx true (if wh_perCommand h then WithoutTx else InTx)) ∧
    Qh type user origin;
  wb_handler : ∀ type h event sc, dc_writeHandler ctx type = Some h → Q type sc → prog_ok sc (wh_handler h event);
  wb_hook : ∀ lh type sc hook payload phase eff, dc_lifecycle ctx = Some lh → Q type sc →
    hook ∈ lh_postSave lh type phase eff ++ lh_preDelete lh type phase eff ++ lh_postDelete lh type phase eff →
    prog_ok (with_grant (lk_grant hook) sc) (lk_fn hook payload);
  wb_entity_hook : ∀ lh type name sc hook payload phase eff, dc_lifecycle ctx = Some lh → Q type sc →
    hook ∈ lh_entityPostSave lh name phase eff ++ lh_entityPreDelete lh name phase eff ++ lh_entityPostDelete lh name phase eff →
    prog_ok (with_grant (lk_grant hook) sc) (lk_fn hook payload);
  wb_system_hook : ∀ lh type sc hook payload, dc_lifecycle ctx = Some lh → Q type sc →
    hook ∈ lh_systemPostSave lh ++ lh_systemPreDelete lh ++ lh_systemPostDelete lh ++ lh_postSaveBatch lh ++ lh_postDeleteBatch lh →
    prog_ok sc (sh_fn hook payload) }.

Context (HW : WellBehaved).

Lemma spec_run_hook sc payload hook :
  prog_ok (with_grant (lk_grant hook) sc) (lk_fn hook payload) → spec anything (run_hook ctx nested sc payload hook).
Proof. intros Hp. apply spec_then; [by apply spec_run_program|]. intros _. by apply spec_ret. Qed.

Lemma spec_run_system_hook sc payload hook :
  prog_ok sc (sh_fn hook payload) → spec anything (run_system_hook ctx nested sc payload hook).
Proof. intros Hp. apply spec_then; [by apply spec_run_program|]. intros _. by apply spec_ret. Qed.

Lemma spec_hooks b sc payload hooks :
  (∀ hook, hook ∈ hooks → prog_ok (with_grant (lk_grant hook) sc) (lk_fn hook payload)) →
  spec anything (run_each b (run_hook ctx nested sc payload <$> hooks)).
Proof.
  intros Hh. apply spec_run_each, Forall_fmap, Forall_forall. intros hook Hin. simpl. by apply spec_run_hook, Hh.
Qed.

Lemma spec_system_hooks b sc payload p (hooks : list (SystemHookDef D E)) :
  (∀ hook, hook ∈ hooks → prog_ok sc (sh_fn hook payload)) →
  spec anything (run_each b (run_system_hook ctx nested sc payload <$> filter (λ h, p h = true) (sortByPriority hooks))).
Proof.
  intros Hh. apply spec_run_each, Forall_fmap, Forall_forall. intros hook Hin. simpl. apply spec_run_system_hook, Hh.
  apply list_elem_of_filter in Hin as [_ Hin]. unfold sortByPriority, sort_by in Hin. by rewrite merge_sort_Permutation in Hin.
Qed.

Lemma spec_claim_event eventDedup eventId : spec anything (claim_event ctx eventDedup eventId).
Proof.
  unfold claim_event. destruct eventDedup as [ttlOption|]; [|by apply spec_ret].
  destruct eventId as [eventId|]; [|by apply spec_ret]. intros s Hs.
  pose proof (fr_dedup HF s ttlOption (ge_redisNow (dc_env ctx)) eventId) as HP.
  destruct (dedup_tryAcquire _ _ _ _) as [acquired r]. split_and!; [by eapply state_ok_same|done|done].
Qed.

Lemma spec_runHookSet lh name payload sc handlerHooks entityHooks systemHooks label phase :
  (∀ hook, hook ∈ handlerHooks ++ entityHooks → prog_ok (with_grant (lk_grant hook) sc) (lk_fn hook payload)) →
  (∀ hook, hook ∈ systemHooks → prog_ok sc (sh_fn hook payload)) →
  spec anything (runHookSet ctx nested lh name payload sc handlerHooks entityHooks systemHooks label phase).
Proof.
  intros Hh Hsys. unfold runHookSet. apply spec_then.
  { destruct (bool_decide _); [by apply spec_ret|apply spec_claim_event]. }
  intros acquired. destruct acquired; [|by apply spec_ret].
  apply spec_then; [apply spec_hooks; set_solver|]. intros _. apply spec_then; [apply spec_hooks; set_solver|].
  intros _. by apply spec_system_hooks.
Qed.

Lemma spec_runPostSave lh type payload sc phase :
  dc_lifecycle ctx = Some lh → Q type sc → spec anything (runPostSave ctx nested lh type payload sc phase).
Proof.
  intros Hl HQ. apply spec_runHookSet.
  - intros hook [Hin|[name Hin]%elem_of_entity_hooks]%elem_of_app.
    + eapply (wb_hook HW lh); [done..|]. apply elem_of_app. by left.
    + eapply (wb_entity_hook HW lh); [done..|]. apply elem_of_app. by left.
  - intros hook Hin. eapply (wb_system_hook HW lh); [done..|]. set_solver.
Qed.

Lemma spec_runPostDelete lh type payload sc phase :
  dc_lifecycle ctx = Some lh → Q type sc → spec anything (runPostDelete ctx nested lh type payload sc phase).
Proof.
  intros Hl HQ. apply spec_runHookSet.
  - intros hook [Hin|[name Hin]%elem_of_entity_hooks]%elem_of_app.
    + eapply (wb_hook HW lh); [done..|]. rewrite !elem_of_app. right. right. exact Hin.
    + eapply (wb_entity_hook HW lh); [done..|]. rewrite !elem_of_app. right. right. exact Hin.
  - intros hook Hin. eapply (wb_system_hook HW lh); [done..|]. set_solver.
Qed.

Lemma spec_runPreDelete lh type payload sc :
  dc_lifecycle ctx = Some lh → Q type sc → spec anything (runPreDelete ctx nested lh type payload sc).
Proof.
  intros Hl HQ. unfold runPreDelete. apply spec_then.
  { apply spec_hooks. intros hook Hin. eapply (wb_hook HW lh); [done..|]. rewrite !elem_of_app. right. left. exact Hin. }
  intros _. apply spec_then.
  { apply spec_hooks. intros hook [name Hin]%elem_of_entity_hooks. eapply (wb_entity_hook HW lh); [done..|].
    rewrite !elem_of_app. right. left. exact Hin. }
  intros _. apply spec_system_hooks. intros hook Hin. eapply (wb_system_hook HW lh); [done..|]. set_solver.
Qed.

Lemma spec_runProjections data : spec anything (runProjections ctx data).
Proof.
  unfold runProjections. destruct (prop_of data "event"); [|by apply spec_ret].
  destruct (dc_hasDb ctx); [|apply spec_throw]. apply spec_on_db, (fr_projections HF).
Qed.

Lemma spec_runLifecycle type payload sc user origin :
  Q type sc → Qh type user origin → spec anything (runLifecycle ctx nested type payload sc user origin).
Proof.
  intros HQ Hpost. unfold runLifecycle. destruct (dc_lifecycle ctx) as [lh|] eqn:Hl; [|by apply spec_ret].
  apply spec_then; [apply spec_gets|]. intros data. destruct (lifecycle_kind data) as [kind|]; [|by apply spec_ret].
  apply spec_then; [apply spec_runProjections|]. intros _. apply spec_then.
  - destruct kind.
    + apply spec_then; [|intros _; by apply spec_runPostSave].
      destruct (dc_hasDb ctx); [apply spec_on_db, (fr_files HF)|by apply spec_ret].
    + apply spec_then; [by apply spec_runPreDelete|]. intros _. by apply spec_runPostDelete.
  - intros _. by apply spec_push_commit.
Qed.

(** A consumed reservation may confirm. *)
Definition consumed_ok (r : option (ConsumedReservation D)) : Prop := ∀ c, r = Some c → reservation_ok c.

Lemma spec_consumeReservation type : spec consumed_ok (consumeReservation type).
Proof.
  intros s [Hc Hr Hv]. unfold consumeReservation. split_and!; [|by apply (fr_core HF)|].
  - split; [done|done|]. by apply map_Forall_delete.
  - intros c Hl. by eapply map_Forall_lookup_1 in Hl; [|exact Hv].
Qed.

Lemma spec_runWriteGates h type payload user :
  spec (λ r, match r with Ok (_, reservation) => consumed_ok reservation | Err _ => True end)
    (runWriteGates ctx h type payload user).
Proof.
  unfold runWriteGates. eapply (spec_bind consumed_ok).
  { destruct (hasPreTransactionPhase h); [apply spec_consumeReservation|by apply spec_ret]. }
  intros reservation Hr. apply spec_then; [apply spec_run_gate|]. intros [parsed|e]; [|by apply spec_ret].
  destruct reservation; [by apply spec_ret|]. destruct (nestedPreTransactionDenial h); by apply spec_ret.
Qed.

Lemma spec_guard_transitions h type parsed : spec anything (guard_transitions ctx h type parsed).
Proof.
  apply spec_step. intros s. unfold guard_transitions.
  destruct (guardAutoTransitions _ _ _ _ _ _ _ _) as [[]cache]; by eexists _, (set_transitions cache s).
Qed.

Lemma spec_invokeWriteHandler h type parsed reservation user sc :
  dc_writeHandler ctx type = Some h → Q type sc →
  spec anything (invokeWriteHandler ctx nested h type parsed reservation user sc).
Proof.
  intros Hh HQ. unfold invokeWriteHandler. eapply spec_bind.
  { by eapply spec_attempt, spec_run_program, (wb_handler HW). }
  intros [[[ref|data] lifecycle|e|]|t] _; try by apply spec_ret. apply spec_then; [apply spec_alloc|]. intros ref. by apply spec_ret.
Qed.

Lemma spec_confirmReservation reservation tx : consumed_ok reservation → spec anything (confirmReservation reservation tx).
Proof.
  intros Hr. unfold confirmReservation. destruct (reservation ≫= cr_confirmInTransaction) as [confirm|] eqn:Hc; [|by apply spec_ret].
  destruct (negb tx); [by apply spec_ret|]. eapply spec_bind; [|intros r _; by apply spec_ret].
  eapply spec_attempt, spec_on_db. destruct reservation as [c|]; [|done]. by apply (Hr c).
Qed.

Lemma spec_scheduleWriteAfterCommit type user parsed ref :
  spec anything (scheduleWriteAfterCommit ctx type user parsed ref).
Proof.
  unfold scheduleWriteAfterCommit. apply spec_then; [destruct (dc_jobRunner ctx); [by apply spec_push_commit|by apply spec_ret]|].
  intros _. apply spec_then; [by apply spec_quiet|]. intros _. by apply spec_push_commit.
Qed.

Lemma spec_settleSuccessfulWrite type user origin tx parsed reservation isPerCommand sc ref lifecycle :
  consumed_ok reservation → Q type sc → Qh type user origin →
  spec anything (settleSuccessfulWrite ctx nested type user origin tx parsed reservation isPerCommand sc ref lifecycle).
Proof.
  intros Hr HQ Hpost. unfold settleSuccessfulWrite. apply spec_then; [by apply spec_confirmReservation|].
  intros [e|]; [by apply spec_ret|]. apply spec_then.
  { destruct isPerCommand; [by apply spec_ret|]. unfold runWriteLifecycle.
    eapply spec_bind; [by eapply spec_attempt, spec_runLifecycle|]. intros r _. by apply spec_ret. }
  intros [e|]; [by apply spec_ret|]. apply spec_then; [apply spec_scheduleWriteAfterCommit|]. intros _. by apply spec_ret.
Qed.

Lemma spec_refuse_secret v : spec anything (refuse_secret v).
Proof. unfold refuse_secret. destruct (assertNoSecretLeak _); [apply spec_throw|by apply spec_ret]. Qed.

Lemma spec_executeWriteInner type payload user origin tx :
  R type user origin tx → spec anything (executeWriteInner ctx nested type payload user origin tx).
Proof.
  intros HR. unfold executeWriteInner. destruct (resolveWriteEntry ctx type user tx) as [h|e] eqn:He; [|by apply spec_ret].
  destruct (wb_scope HW type user origin tx h HR He) as [HQ Hpost].
  assert (Hh : dc_writeHandler ctx type = Some h)
    by (unfold resolveWriteEntry in He; destruct (dc_writeHandler ctx type); [|done]; by repeat case_match; simplify_eq).
  eapply spec_bind; [apply spec_runWriteGates|]. intros [[parsed reservation]|e] Hr; [|by apply spec_ret].
  apply spec_then; [apply spec_guard_transitions|]. intros _. apply spec_then; [by apply spec_invokeWriteHandler|].
  intros [ref lifecycle|e]; [|by apply spec_ret]. apply spec_then; [by apply spec_settleSuccessfulWrite|].
  intros [e|]; [by apply spec_ret|]. apply spec_then; [apply spec_gets|]. intros data.
  apply spec_then; [apply spec_refuse_secret|]. intros _.
  apply spec_then; [destruct lifecycle; [apply spec_refuse_secret|by apply spec_ret]|]. intros _. by apply spec_ret.
Qed.

Lemma spec_in_entry_scope {A} (m : M A) : spec anything m → spec anything (in_entry_scope m).
Proof.
  intros Hm s Hs. unfold in_entry_scope. destruct (gs_charged (rs_gates s)); [by apply Hm|].
  set (s1 := set_gates _ s). assert (Hs1 : state_ok s1) by by apply (state_ok_same s).
  specialize (Hm s1 Hs1). destruct (m s1) as [[r s']|]; [|done]. destruct Hm as (Hs' & HP & HV).
  split_and!; [by apply (state_ok_same s')| |done].
  apply (fr_trans HF s s1); [by apply (fr_core HF)|]. apply (fr_trans HF s1 s'); [exact HP|by apply (fr_core HF)].
Qed.

Lemma spec_executeWrite type payload user origin tx :
  R type user origin tx → spec anything (executeWrite ctx nested type payload user origin tx).
Proof. intros HR. by apply spec_in_entry_scope, spec_executeWriteInner. Qed.

Lemma state_ok_no_hooks s : state_ok s → state_ok (set_sinks no_hooks s).
Proof. intros []. split; simpl; [constructor..|done]. Qed.

Lemma spec_runInSavepoint (m : M DispatchResult) : spec anything m → spec anything (runInSavepoint m).
Proof.
  intros Hm s Hs. unfold runInSavepoint. specialize (Hm _ (state_ok_no_hooks s Hs)).
  destruct (m (set_sinks no_hooks s)) as [[r s']|]; [|done]. destruct Hm as (Hs' & HP & HV).
  assert (HPs : P s s') by (apply (fr_trans HF s (set_sinks no_hooks s)); [by apply (fr_core HF)|exact HP]).
  assert (Hback : P s (set_db (rs_db s) (set_sinks (carry_savepoint true (rs_sinks s') (rs_sinks s)) s')))
    by (apply (fr_trans HF s (set_db (rs_db s) s')); [by apply (fr_restore HF)|by apply (fr_core HF)]).
  assert (Hok : ∀ d b, state_ok (set_db d (set_sinks (carry_savepoint b (rs_sinks s') (rs_sinks s)) s'))).
  { intros d b. destruct Hs as [Hc Hr Hv], Hs' as [Hc' Hr' Hv'].
    assert (Hw : Forall wf_hook (rollbackSink (rs_sinks s'))) by (eapply Forall_impl; [exact Hr'|apply handler_hook_wf]).
    destruct b; split; simpl; rewrite ?Forall_app; auto. }
  destruct r as [[ref lifecycle|e]|t]; split_and!; try done.
  - by apply (state_ok_same _ _ (Hok (rs_db s') false)).
  - apply (fr_trans HF s s'); [exact HPs|by apply (fr_core HF)].
Qed.

(** A nested write in a transaction. *)
Lemma spec_nested_in_savepoint sc asUser type payload :
  (∀ tx, sc_tx sc = tx → isPerCommandHandler ctx type = false → R type asUser (sc_origin sc) tx) →
  spec anything (runNestedWriteInSavepoint ctx nested sc asUser type payload).
Proof.
  intros HR. unfold runNestedWriteInSavepoint. destruct (isPerCommandHandler ctx type); [by apply spec_ret|].
  destruct (sc_tx sc); simpl; [apply spec_runInSavepoint|]; by apply spec_executeWrite, HR.
Qed.

(** ** The commands of a batch *)

(** The children of a command are commands themselves. *)
Definition ChildrenOk : Prop :=
  ∀ type user origin tx payload ex child, R type user origin tx →
    extractNestedSpecs (dc_reg ctx) (dc_relations ctx) type payload = Ok (Some ex) → child ∈ ex_specs ex →
    R (ns_subType child) user origin tx.

Context (HC : ChildrenOk).

Lemma spec_writeNestedChildren child parentId user origin tx i items :
  R (ns_subType child) user origin tx →
  spec anything (writeNestedChildren ctx nested child parentId user origin tx i items).
Proof.
  intros HR. revert i. induction items as [|item items IH]; intros i; cbn [writeNestedChildren]; [by apply spec_ret|].
  apply spec_then; [by apply spec_executeWrite|]. intros [ref lifecycle|e]; [|by apply spec_ret].
  apply spec_then; [apply spec_gets|]. intros data. apply spec_then; [apply spec_lift|]. intros subRow.
  apply spec_then; [apply IH|]. intros rows. by apply spec_ret.
Qed.

Lemma spec_attach_children specs ref parentId user origin tx :
  (∀ child, child ∈ specs → R (ns_subType child) user origin tx) →
  spec anything (attach_children ctx nested specs ref parentId user origin tx).
Proof.
  induction specs as [|child specs IH]; intros HR; cbn [attach_children]; [by apply spec_ret|].
  apply spec_then; [apply spec_writeNestedChildren, HR; left|]. intros [rows|e]; [|by apply spec_ret].
  apply spec_then; [by apply spec_quiet|]. intros _. apply IH. intros c Hc. apply HR. by right.
Qed.

Lemma spec_executeNestedWrite type payload user origin tx :
  R type user origin tx → spec anything (executeNestedWrite ctx nested type payload user origin tx).
Proof.
  intros HR. unfold executeNestedWrite.
  destruct (extractNestedSpecs _ _ type payload) as [[ex|]|e] eqn:Hex; [|by apply spec_executeWrite|apply spec_throw].
  destruct (collectNestedForeignKeyIssues ex); [|by apply spec_ret].
  apply spec_then; [by apply spec_executeWrite|]. intros [ref lifecycle|e]; [|by apply spec_ret].
  apply spec_then; [apply spec_gets|]. intros data. apply spec_then; [apply spec_lift|]. intros row.
  destruct (prop_of row "id") as [[]|]; try by apply spec_ret.
  apply spec_then; [apply spec_gets|]. intros [e|]; [by apply spec_ret|].
  apply spec_then; [|intros failure; by apply spec_ret]. apply spec_attach_children.
  intros child Hc. by eapply HC.
Qed.

Lemma spec_runAsCommand {A} (V : A → Prop) reserved (m : M A) :
  map_Forall (λ _, reservation_ok) reserved → spec V m → spec V (runAsCommand reserved m).
Proof.
  intros Hres Hm s Hs. unfold runAsCommand.
  assert (Hs1 : state_ok (set_reserved reserved s)) by (destruct Hs; by split).
  specialize (Hm _ Hs1). destruct (m (set_reserved reserved s)) as [[r s']|]; [|done]. destruct Hm as (Hs' & HP & HV).
  split_and!; [destruct Hs, Hs'; by split| |done].
  apply (fr_trans HF s (set_reserved reserved s)); [by apply (fr_core HF)|].
  apply (fr_trans HF _ s'); [exact HP|by apply (fr_core HF)].
Qed.

Lemma toReservedScope_ok reserved index cmd :
  map_Forall (λ _, reservation_ok) reserved → map_Forall (λ _, reservation_ok) (toReservedScope (D := D) reserved index cmd).
Proof.
  intros Hres. unfold toReservedScope. destruct (reserved !! index) as [r|] eqn:Hr; [|apply map_Forall_empty].
  apply map_Forall_singleton. exact (map_Forall_lookup_1 _ _ _ _ Hres Hr).
Qed.

Lemma spec_rewrap origin hookStart :
  spec anything (modify (λ s, set_sinks (rewrap_hooks (with_origin origin) hookStart (rs_sinks s)) s)).
Proof.
  intros s [Hc Hr Hv]. split_and!; [|by apply (fr_core HF)|done]. split; simpl; [|done|done].
  apply Forall_app. rewrite Forall_fmap. rewrite <- (take_drop hookStart (commitSink (rs_sinks s))) in Hc.
  by apply Forall_app in Hc.
Qed.

Definition commands_ok (user : Principal) (inherited : option WriteOrigin) (tx : bool) (commands : list BatchCommand) : Prop :=
  ∀ cmd, cmd ∈ commands → R (cmd_type cmd) user (origin_of ctx (cmd_type cmd) user inherited) tx.

Lemma spec_runReservedCommand reserved user inherited cmd index tx :
  map_Forall (λ _, reservation_ok) reserved → R (cmd_type cmd) user (origin_of ctx (cmd_type cmd) user inherited) tx →
  spec anything (runReservedCommand ctx nested reserved user inherited cmd index tx).
Proof.
  intros Hres HR. unfold runReservedCommand. apply spec_then; [apply spec_gets|]. intros hookStart.
  apply spec_then.
  { apply spec_runAsCommand; [by apply toReservedScope_ok|].
    destruct (isPerCommandHandler ctx (cmd_type cmd)); [by apply spec_executeWrite|by apply spec_executeNestedWrite]. }
  intros res. apply spec_then; [apply spec_rewrap|]. intros _. by apply spec_ret.
Qed.

Lemma spec_run_commands reserved user inherited tx index commands :
  map_Forall (λ _, reservation_ok) reserved → commands_ok user inherited tx commands →
  spec anything (run_commands ctx nested reserved user inherited tx index commands).
Proof.
  intros Hres. revert index. induction commands as [|cmd commands IH]; intros index Hok; cbn [run_commands]; [by apply spec_ret|].
  eapply spec_bind; [eapply spec_attempt, spec_runReservedCommand; [done|apply Hok; left]|].
  intros [[ref lifecycle|e]|t] _; try by apply spec_ret.
  apply spec_then; [apply IH; intros c Hc; apply Hok; by right|]. intros more. by apply spec_ret.
Qed.

Lemma spec_transaction body : spec anything body → spec anything (transaction ctx body).
Proof.
  intros Hm s Hs. unfold transaction. specialize (Hm s Hs). destruct (body s) as [[r s']|]; [|done].
  destruct Hm as (Hs' & HP & HV). assert (Hback : P s (set_db (rs_db s) s')) by by apply (fr_restore HF).
  assert (Hok : state_ok (set_db (rs_db s) s')) by by apply (state_ok_same s').
  destruct r as [[results [| |]]|t]; try done. destruct (dc_commit ctx (rs_db s')) as [[t applied]|]; [|done].
  by destruct applied.
Qed.

Lemma spec_adopt r : spec anything (adopt r).
Proof.
  destruct r; [|by apply spec_ret]. simpl. apply spec_then; [apply spec_alloc|]. intros ref. by apply spec_ret.
Qed.

(** One level of the knot: a nested write in a transaction or as a batch. *)
Lemma spec_writeAsUser fuel sc asUser type payload :
  nested = writeAsUser ctx fuel →
  (∀ tx, sc_tx sc = tx → isPerCommandHandler ctx type = false → R type asUser (sc_origin sc) tx) →
  (sc_mode sc ≠ InTx → spec anything (runBatch ctx nested [mkCommand type payload] asUser None (Some (sc_origin sc)))) →
  spec anything (writeAsUser ctx (Datatypes.S fuel) sc asUser type payload).
Proof.
  intros Hn Htx Hbatch. cbn [writeAsUser]. rewrite <- Hn. destruct (decide _); [by apply spec_nested_in_savepoint|].
  apply spec_then; [by apply Hbatch|]. intros r. apply spec_adopt.
Qed.

(** ** A batch *)

(** A function of the committed database and the world outside. *)
Definition outside_ok {A} (f : D * E → result Thrown A * (D * E)) : Prop :=
  ∀ s, P s (set_ext (f (rs_db s, rs_ext s)).2.2 (set_db (f (rs_db s, rs_ext s)).2.1 s)).

Definition reserved_ok (r : Reserved D E) : Prop :=
  match r with
  | ReservedNothing => True
  | ReservedRelease release => outside_ok release
  | ReservedHandle h => outside_ok (rh_release h) ∧ db_ok (rh_confirmInTransaction h)
  end.

Definition phase_ok (r : PhaseResult D E) : Prop :=
  match r with PhaseOk _ (Some release) => outside_ok release | _ => True end.

Record BatchWellBehaved : Prop := {
  bw_queued : ∀ type user origin, Qh type user origin →
    Q type (buildHandlerContext ctx type user origin false false PostCommit);
  bw_batch_hooks : ∀ type user origin tx, R type user origin tx →
    Q BATCH_HOOKS_CONTEXT_TYPE (buildHandlerContext ctx BATCH_HOOKS_CONTEXT_TYPE user origin false false PostCommit);
  bw_jobs : ∀ s jobs, P s (set_jobs jobs s);
  bw_published : ∀ s published, P s (set_published published s);
  bw_reserve : ∀ type h reserve event, dc_writeHandler ctx type = Some h → wh_reserveBeforeTransaction h = Some reserve →
    outside_ok (reserve event) ∧ ∀ de r, (reserve event de).1 = Ok r → reserved_ok r;
  bw_before : ∀ type h before event, dc_writeHandler ctx type = Some h → wh_beforeTransaction h = Some before →
    outside_ok (before event) ∧ ∀ de r, (before event de).1 = Ok r → phase_ok r }.

Context (HB : BatchWellBehaved).

Lemma spec_outside {A} (V : A → Prop) (f : D * E → result Thrown A * (D * E)) :
  outside_ok f → (∀ de a, (f de).1 = Ok a → V a) → spec V (outside f).
Proof.
  intros Hf HV s Hs. unfold outside. specialize (Hf s). specialize (HV (rs_db s, rs_ext s)).
  destruct (f (rs_db s, rs_ext s)) as [r [d e]]. split_and!; [by apply (state_ok_same s)|exact Hf|].
  destruct r; [by apply HV|done].
Qed.

Definition releases_ok (releases : list (Release (D := D) (E := E))) : Prop := Forall outside_ok releases.

Lemma releases_ok_snoc releases release : releases_ok releases → outside_ok release → releases_ok (releases ++ [release]).
Proof. intros. apply Forall_app. split; [done|]. by constructor. Qed.

Lemma spec_releaseAll releases : releases_ok releases → spec anything (releaseAll releases).
Proof.
  intros Hr. apply spec_run_each, Forall_fmap. rewrite reverse_Permutation. eapply Forall_impl; [exact Hr|].
  intros release Ho. by apply (spec_any (λ _, True)), spec_outside.
Qed.

Lemma spec_reserve_phase type h event releases :
  dc_writeHandler ctx type = Some h → releases_ok releases →
  spec (λ r, releases_ok r.2 ∧ match r.1 with Ok (Some confirm) => db_ok confirm | _ => True end)
    (reserve_phase h event releases).
Proof.
  intros Hh Hrel. unfold reserve_phase. destruct (wh_reserveBeforeTransaction h) as [reserve|] eqn:Hres; [|by apply spec_ret].
  destruct (bw_reserve HB type h reserve event Hh Hres) as [Ho Hv].
  eapply spec_bind; [by eapply spec_attempt, (spec_outside reserved_ok)|].
  intros [[|release|handle]|t] Htaken; apply spec_ret; simpl in *; split; try done.
  - by apply releases_ok_snoc.
  - intros s d [= <-]. by apply (fr_core HF).
  - destruct Htaken. by apply releases_ok_snoc.
  - by destruct Htaken.
Qed.

Lemma spec_before_phase type h event releases :
  dc_writeHandler ctx type = Some h → releases_ok releases →
  spec (λ r, releases_ok r.2) (before_phase h event releases).
Proof.
  intros Hh Hrel. unfold before_phase. destruct (wh_beforeTransaction h) as [before|] eqn:Hbef; [|by apply spec_ret].
  destruct (bw_before HB type h before event Hh Hbef) as [Ho Hv].
  eapply spec_bind; [by eapply spec_attempt, (spec_outside phase_ok)|].
  intros [[data [release|]|e]|t] Hp; apply spec_ret; simpl in *; try done.
  - by apply releases_ok_snoc.
  - by rewrite app_nil_r.
Qed.

Definition command_reserved (r : result WriteErrorInfo (ConsumedReservation D) * list (Release (D := D) (E := E))) : Prop :=
  releases_ok r.2 ∧ match r.1 with Ok consumed => reservation_ok consumed | Err _ => True end.

Lemma spec_reserve_command h cmd user releases :
  dc_writeHandler ctx (cmd_type cmd) = Some h → releases_ok releases →
  spec command_reserved (reserve_command ctx h cmd user releases).
Proof.
  intros Hh Hrel. unfold reserve_command. eapply spec_bind; [eapply spec_attempt, spec_run_gate|].
  intros [[payload|e]|t] _; try by apply spec_ret. eapply spec_bind; [by eapply spec_reserve_phase|].
  intros [[confirm|t] releases'] [Hrel' Hc]; simpl in *; [|by apply spec_ret].
  eapply spec_bind; [by eapply spec_before_phase|]. intros [[data|e] releases''] Hrel''; apply spec_ret; [|done].
  split; [done|]. intros c Hcc. simpl in Hcc. by subst confirm.
Qed.

Definition reservations_ok (r : PreTransactionReservations (D := D) (E := E)) : Prop :=
  match r with
  | ReservationsOk reserved releases => map_Forall (λ _, reservation_ok) reserved ∧ releases_ok releases
  | ReservationsFailed _ _ => True
  end.

Lemma spec_reserve_commands index commands user reserved releases :
  map_Forall (λ _, reservation_ok) reserved → releases_ok releases →
  spec reservations_ok (reserve_commands ctx index commands user reserved releases).
Proof.
  revert index reserved releases. induction commands as [|cmd commands IH]; intros index reserved releases Hres Hrel;
    cbn [reserve_commands]; [by apply spec_ret|].
  destruct (dc_writeHandler ctx (cmd_type cmd)) as [h|] eqn:Hh; [|by apply IH].
  destruct (negb (hasPreTransactionPhase h)); [by apply IH|].
  eapply spec_bind; [by apply spec_reserve_command|]. intros [[consumed|e] releases'] [Hrel' Hc]; simpl in *.
  - apply IH; [|done]. by apply map_Forall_insert_2.
  - apply spec_then; [by apply spec_releaseAll|]. intros _. by apply spec_ret.
Qed.

Lemma spec_reserveBeforeTransaction commands user :
  spec reservations_ok (reserveBeforeTransaction ctx commands user).
Proof.
  unfold reserveBeforeTransaction. destruct (isMemberResolutionPrincipal user).
  - apply spec_ret. split; [apply map_Forall_empty|constructor].
  - apply spec_reserve_commands; [apply map_Forall_empty|constructor].
Qed.


Lemma spec_run_queued q : wf_hook q → spec anything (run_queued ctx nested q).
Proof.
  intros Hq. unfold wf_hook in Hq. unfold run_queued. destruct (qh_hook q) as [run|kind type payload user origin|type payload user|type user ref].
  - apply spec_step. intros s. destruct (run (rs_ext s)) as [r e]. exists r, (set_ext e s). by destruct r.
  - destruct (dc_lifecycle ctx) as [lh|] eqn:Hl; [|by apply spec_ret]. apply spec_then; [apply spec_gets|].
    intros data. apply (bw_queued HB) in Hq. destruct kind; [by apply spec_runPostSave|by apply spec_runPostDelete].
  - intros s Hs. split_and!; [by apply (state_ok_same s)|apply (bw_jobs HB)|done].
  - apply spec_then; [by apply spec_quiet|]. intros _. intros s Hs.
    split_and!; [by apply (state_ok_same s)|apply (bw_published HB)|done].
Qed.

Lemma spec_flush hooks : Forall wf_hook hooks → spec anything (run_each false (run_queued ctx nested <$> hooks)).
Proof. intros Hh. apply spec_run_each, Forall_fmap. eapply Forall_impl; [exact Hh|]. apply spec_run_queued. Qed.

Lemma spec_flushAfterCommit : spec anything (flushAfterCommit ctx nested).
Proof.
  apply (spec_bind (Forall wf_hook)); [|apply spec_flush].
  intros s Hs. split_and!; [done|apply P_refl|apply (ok_commit s Hs)].
Qed.

Lemma spec_runBatchHooks hooks payload sc :
  (∀ hook v, hook ∈ hooks → prog_ok sc (sh_fn hook v)) → spec anything (runBatchHooks ctx nested hooks payload sc).
Proof.
  intros Hh. unfold runBatchHooks. destruct payload as [|v payload]; [by apply spec_ret|].
  apply spec_run_each, Forall_fmap, Forall_forall. intros hook Hin. simpl. apply spec_run_system_hook, Hh.
  unfold sortByPriority, sort_by in Hin. by rewrite merge_sort_Permutation in Hin.
Qed.

Lemma spec_flushBatchHooks user origins results :
  (∀ origin, origin ∈ origins →
     Q BATCH_HOOKS_CONTEXT_TYPE (buildHandlerContext ctx BATCH_HOOKS_CONTEXT_TYPE user origin false false PostCommit)) →
  spec anything (flushBatchHooks ctx nested user origins results).
Proof.
  intros HQ. unfold flushBatchHooks. destruct (strictest_origin origins) as [strictest|] eqn:Hst; [|by apply spec_ret].
  destruct (dc_lifecycle ctx) as [lh|] eqn:Hl; [|by apply spec_ret].
  apply spec_then; [apply spec_gets|]. intros saves. apply spec_then; [apply spec_gets|]. intros deletes.
  destruct (hasBatchHooks lh); [|by apply spec_ret].
  assert (Hin : strictest ∈ origins).
  { unfold strictest_origin in Hst. destruct (filter _ origins) as [|o l] eqn:Hf.
    - destruct origins; [done|]. injection Hst as <-. left.
    - injection Hst as <-. assert (Ho : o ∈ filter (λ o, isPersonalDataGated o = true) origins) by (rewrite Hf; left).
      by apply list_elem_of_filter in Ho as [_ Ho]. }
  assert (Hh : ∀ hook v, hook ∈ lh_postSaveBatch lh ++ lh_postDeleteBatch lh →
            prog_ok (buildHandlerContext ctx BATCH_HOOKS_CONTEXT_TYPE user strictest false false PostCommit) (sh_fn hook v)).
  { intros hook v Hhook. eapply (wb_system_hook HW lh); [done|by apply HQ|]. set_solver. }
  apply spec_then; [apply spec_runBatchHooks; intros; apply Hh; set_solver|]. intros _.
  apply spec_runBatchHooks. intros. apply Hh. set_solver.
Qed.

Lemma commands_origins user inherited tx commands origin :
  commands_ok user inherited tx commands → origin ∈ ((λ c, origin_of ctx (cmd_type c) user inherited) <$> commands) →
  Q BATCH_HOOKS_CONTEXT_TYPE (buildHandlerContext ctx BATCH_HOOKS_CONTEXT_TYPE user origin false false PostCommit).
Proof. intros Hok (cmd & -> & Hc)%list_elem_of_fmap. by eapply (bw_batch_hooks HB), Hok. Qed.

Lemma spec_batch_without_transaction commands user inherited reserved releases isPerCommand :
  commands_ok user inherited false commands → map_Forall (λ _, reservation_ok) reserved → releases_ok releases →
  spec anything (batch_without_transaction ctx nested commands user inherited reserved releases isPerCommand).
Proof.
  intros Hok Hres Hrel. unfold batch_without_transaction. apply spec_then.
  { unfold runCommandsWithoutTransaction. apply spec_then; [by apply spec_run_commands|]. intros [results [| |]];
      try by apply spec_ret.
    all: apply spec_then; [by apply spec_releaseAll|]; intros _; apply spec_then; [apply spec_flushAfterRollback|];
      intros _; by apply spec_ret. }
  intros [results [|index e|t]]; simpl; [| |apply spec_throw].
  - apply spec_then; [apply spec_flushAfterCommit|]. intros _. apply spec_then.
    { destruct isPerCommand; [by apply spec_ret|]. apply spec_flushBatchHooks. intros o. by eapply commands_origins. }
    intros _. apply spec_then; [apply spec_gets|]. intros rs. by apply spec_ret.
  - apply spec_then; [apply spec_gets|]. intros rs. by apply spec_ret.
Qed.

Lemma spec_batch_in_transaction commands user inherited reserved releases :
  commands_ok user inherited true commands → map_Forall (λ _, reservation_ok) reserved → releases_ok releases →
  spec anything (batch_in_transaction ctx nested commands user inherited reserved releases).
Proof.
  intros Hok Hres Hrel. unfold batch_in_transaction. apply spec_then; [by apply spec_transaction, spec_run_commands|].
  intros [[results [|index e|t]] completed].
  - apply spec_then; [apply spec_flushAfterCommit|]. intros _. apply spec_then.
    { apply spec_flushBatchHooks. intros o. by eapply commands_origins. }
    intros _. apply spec_then; [apply spec_gets|]. intros rs. by apply spec_ret.
  - apply spec_then; [by apply spec_releaseAll|]. intros _. apply spec_then; [apply spec_flushAfterRollback|].
    intros _. apply spec_then; [apply spec_gets|]. intros rs. by apply spec_ret.
  - apply spec_then; [by apply spec_releaseAll|]. intros _. apply spec_then; [apply spec_flushAfterRollback|].
    intros _. apply spec_then; [apply spec_gets|]. intros rs. by apply spec_ret.
Qed.

(** The steps around the commands that touch the idempotency keys. *)
Definition idempotency_ok (commands : list BatchCommand) (user : Principal) (requestId : option string) : Prop :=
  spec anything (checkBatchIdempotency ctx user requestId) ∧
  ∀ token r b, spec anything (releaseOrFinalize ctx commands user requestId token r b) ∧
               spec anything (finalize ctx commands user requestId token r).

Lemma idempotency_ok_without commands user : idempotency_ok commands user None.
Proof.
  split; [by apply spec_ret|]. intros token r b. by destruct b; split; apply spec_ret.
Qed.

(** The moments of a request are enough for [check] to end. *)
Definition check_ends (user : Principal) (requestId : option string) : Prop :=
  ∀ rid o r, guarded_request ctx requestId = Some (rid, o) →
    match (check o (batch_key user rid) (rt_check (dc_requestTime ctx)) r AtCheck).1 with
    | Owner _ _ | Cached _ | Contended => True
    | _ => False
    end.

Lemma idempotency_ok_any commands user requestId :
  (terminates = false ∨ check_ends user requestId) → (∀ s v, P s (set_redis v s)) → idempotency_ok commands user requestId.
Proof.
  intros Hends Hred. assert (Hstep : ∀ {A} (a : result Thrown A) f,
    spec anything (λ s : Run, Some (a, set_redis (f s) s))).
  { intros A a f s Hs. split_and!; [by apply (state_ok_same s)|apply Hred|by destruct a]. }
  assert (Hfin : ∀ token r, spec anything (finalize ctx commands user requestId token r)).
  { intros token r. unfold finalize. repeat case_match; try (by apply spec_ret); apply Hstep. }
  split.
  - unfold checkBatchIdempotency. destruct (guarded_request ctx requestId) as [[rid o]|] eqn:Hg; [|by apply spec_ret]. intros s Hs.
    assert (Hend : terminates = false ∨ match (check o (batch_key user rid) (rt_check (dc_requestTime ctx)) (rs_redis s) AtCheck).1 with
                                        | Owner _ _ | Cached _ | Contended => True | _ => False end)
      by (destruct Hends as [|Hends]; [by left|right; by apply (Hends rid o (rs_redis s))]).
    destruct (check _ _ _ _ _) as [[] r]; try (by destruct Hend); (split_and!; [by apply (state_ok_same s)|apply Hred|done]).
  - intros token r b. split; [|apply Hfin]. unfold releaseOrFinalize. repeat case_match; try apply Hfin; apply Hstep.
Qed.

Lemma spec_runCheckedBatch commands user requestId inherited token :
  (∀ tx, commands_ok user inherited tx commands) → idempotency_ok commands user requestId →
  spec anything (runCheckedBatch ctx nested commands user requestId inherited token).
Proof.
  intros Hok [_ Hfin]. assert (Hrel : ∀ r b, spec anything (releaseOrFinalize ctx commands user requestId token r b))
    by (intros r b; apply (Hfin token r b)).
  unfold runCheckedBatch. cbv zeta. destruct (perCommandBatchRejection ctx commands) as [rejection|]; [apply Hrel|].
  eapply spec_bind; [apply spec_reserveBeforeTransaction|]. intros [reserved releases|e index] Hr; [|apply Hrel].
  destruct Hr as [Hres Hgive]. destruct (_ || _).
  - apply spec_then; [by apply spec_batch_without_transaction|]. intros r. by apply (Hfin token r false).
  - apply spec_then; [by apply spec_batch_in_transaction|]. intros ended. apply Hrel.
Qed.

Lemma spec_runBatchBody commands user requestId inherited :
  (∀ tx, commands_ok user inherited tx commands) → idempotency_ok commands user requestId →
  spec anything (runBatchBody ctx nested commands user requestId inherited).
Proof.
  intros Hok Hid. unfold runBatchBody. destruct commands as [|cmd commands]; [by apply spec_ret|].
  apply spec_then; [apply Hid|]. intros [|result|token]; [|by apply spec_ret|]; by apply spec_runCheckedBatch.
Qed.
End rules.
End logic.

(** A batch has sinks of its own, so what is queued around it does not matter
    to it. *)
Lemma spec_with_fresh_sinks {D E A} (ctx : DispatchContext D E) Qh Qh' terminates P (m : M D E _ A) :
  Frame ctx P → spec Qh terminates P anything m → spec Qh' terminates P anything (with_fresh_sinks m).
Proof.
  intros HF Hm s [Hc Hr Hv]. unfold with_fresh_sinks. specialize (Hm (set_sinks no_hooks s)).
  destruct (m (set_sinks no_hooks s)) as [[r s']|]; [|apply Hm; split; simpl; [constructor..|done]].
  destruct Hm as (Hs' & HP & HV); [split; simpl; [constructor..|done]|].
  split_and!; [destruct Hs'; by split| |done].
  apply (fr_trans _ _ HF s (set_sinks no_hooks s)); [by apply (fr_core _ _ HF)|].
  apply (fr_trans _ _ HF _ s'); [exact HP|by apply (fr_core _ _ HF)].
Qed.

Lemma spec_runBatch {D E} (ctx : DispatchContext D E) Q Qh Qh' terminates P nested R commands user requestId inherited :
  Frame ctx P → WellBehaved ctx Q Qh terminates P nested R → ChildrenOk ctx R → BatchWellBehaved ctx Q Qh P R →
  (∀ tx, commands_ok ctx R user inherited tx commands) → idempotency_ok ctx Qh terminates P commands user requestId →
  spec Qh' terminates P anything (runBatch ctx nested commands user requestId inherited).
Proof.
  intros HF HW HC HB Hok Hid. apply (spec_with_fresh_sinks ctx Qh); [done|].
  by apply (spec_runBatchBody ctx Q Qh terminates P HF nested R HW HC HB).
Qed.
