(* ===== verification/CommandExample.v ===== *)
(** * Command dispatcher: a shop

    A small application on the dispatcher: the definitions of [CommandBatch] are
    run on it, and the witnesses of the theorems instantiate them with it.  The
    database is a list of rows, the world outside a list of messages. *)

From S2P Require Import Prelude Origins QualifiedName Ownership FieldAccess Redis Idempotency TransitionGuard Gates WriteOrigin ClientMasking CommitSinks CommandDispatch CommandWrite CommandBatch.

Open Scope string_scope.
Open Scope list_scope.

Notation Shop := (list string) (only parsing).
Notation Mails := (list string) (only parsing).

Definition add_row (row : string) (d : Shop) : result Thrown Shop := Ok (d ++ [row]).
Definition remove_guests (d : Shop) : result Thrown Shop := Ok (filter (λ row, row ≠ "guest") d).
Definition send (mail : string) (e : Mails) : result Thrown () * Mails := (Ok tt, e ++ [mail]).

Definition saved (id : string) : Json :=
  JObj [("kind", JStr "save"); ("id", JStr id); ("data", JObj [("id", JStr id); ("tenantId", JStr "t1")])].

Definition answer (id : string) : Program Shop Mails := PReturn (Returned (inr (saved id)) None).

(** A handler that writes one row. *)
Definition insert_program (table : string) (keys : list string) (row : string) : Program Shop Mails :=
  PWrite table keys (add_row row) (λ r, match r with
                                        | Ok _ => answer row
                                        | Err t => PReturn (ReturnedFailure (wrapToKumiko t))
                                        end).

Definition public_access : AccessRule := RoleAccessRule [ANONYMOUS_ROLE; "clerk"] false.
Definition clerk_access : AccessRule := RoleAccessRule ["clerk"] false.

Definition shop_handler (access : AccessRule) (run : WriteEvent → Program Shop Mails) : WriteHandlerDef Shop Mails :=
  mkHandler (mkGates (Some access) NoRateLimit None None Ok) false false false None None false run.

(** A visit notes the page and tries to sign the visitor up; an order queues a
    mail and a refund; a payment starts a job of its own after its write and
    fails. *)
Definition shop_write_handler (type : string) : option (WriteHandlerDef Shop Mails) :=
  if decide (type = "shop:write:guest:create") then Some (shop_handler public_access (λ _, insert_program "guests" ["email"] "guest"))
  else if decide (type = "shop:write:visit:create") then
    Some (shop_handler public_access (λ _, PWrite "visits" ["page"] (add_row "visit")
            (λ _, PDispatch None "shop:write:guest:create" (JObj []) (λ _, answer "visit"))))
  else if decide (type = "shop:write:order:create") then
    Some (shop_handler clerk_access (λ _, PAfterCommit (send "mail") (λ _,
            PAfterRollback (send "refund") (λ _, insert_program "orders" ["id"] "order"))))
  else if decide (type = "shop:write:line:create") then Some (shop_handler clerk_access (λ _, insert_program "lines" ["id"] "line"))
  else if decide (type = "shop:write:payment:create") then
    Some (shop_handler clerk_access (λ _, PWrite "payments" ["id"] (add_row "payment") (λ _,
            PJob "shop:job:charge" (JObj []) (λ _, PThrow (ThrewOther "declined")))))
  else if decide (type = "shop:write:guest:delete") then
    Some (shop_handler public_access (λ _, PDelete "guests" remove_guests (λ _, answer "guest")))
  else None.

Definition shop_relations (entity : string) : list (string * RelationDefinition) :=
  if decide (entity = "order") then [("lines", HasMany "line" "orderId" true)] else [].

Definition shop_reg : GateRegistry :=
  mkGateRegistry (λ _, Some "shop") (λ _, false)
    (λ type, if decide (type = "shop:write:order:create") then Some "order" else None) (λ _, Some []) [].

Definition shop_guests : list (string * PersonalEntity) := [("guests", mkPersonal [("email", mkPii true None false)] None)].

Definition shop_at (time : RequestTime) : DispatchContext Shop Mails := {|
  dc_env := mkGateEnv None None None None (λ v _, v) None 0 0;
  dc_reg := shop_reg;
  dc_writeHandler := shop_write_handler;
  dc_access := λ _, Some (mkAccess public_access None);
  dc_relations := shop_relations;
  dc_personal := shop_guests;
  dc_transitions := λ _, None;
  dc_readRow := λ _ _ _, None;
  dc_tenantRow := λ _ _ _ _, Some [];
  dc_hasTenantColumn := λ _, false;
  dc_hasDb := true;
  dc_lifecycle := None;
  dc_projections := λ _ d, Ok d;
  dc_settleFileRefs := λ _ _ d, Ok d;
  dc_jobRunner := true;
  dc_cacheSync := false;
  dc_idempotency := Some (mkIdempotency None None None);
  dc_requestTime := time;
  dc_encode := λ b, match b with BatchOk _ => "ok" | BatchFailed e _ _ => we_reason e end;
  dc_decode := λ s, if decide (s = "ok") then Some (BatchOk []) else None;
  dc_commit := λ _, None |}.

(** A request that claims its key at once and answers twenty seconds later. *)
Definition shop : DispatchContext Shop Mails := shop_at (mkRequestTime [mkMoment 0 "id1" id] (mkMoment 20000 "" id)).

Definition shop_clerk : Principal := mkPrincipal (mkUser "u1" "t1" ["clerk"] None) None.
Definition shop_visitor : Principal := mkPrincipal (mkUser "anon" "t1" [ANONYMOUS_ROLE] None) None.

Definition shop_start : RunState Shop Mails (Sinks (QueuedHook Mails)) :=
  mkRun [] [] (mkGateState ∅ None) ∅ ∅ [] no_hooks ∅ ∅ [] [].

Definition job_name (job : JobCall) : string :=
  match job with JobForEvent type _ _ _ => type | JobDispatched jobName _ => jobName end.

(** What a batch leaves behind: whether it succeeded, the rows, the messages
    and the jobs. *)
Definition outcome {S} (r : option (result Thrown BatchResult * RunState Shop Mails S)) : option (bool * list string * list string * list string) :=
  match r with
  | Some (Ok b, s) =>
      Some (match b with BatchOk _ => true | BatchFailed _ _ _ => false end, rs_db s, rs_ext s, job_name <$> rs_jobs s)
  | _ => None
  end.

Definition order_with_lines : Json := JObj [("lines", JArr [JObj []; JObj []])].

Example order_writes_its_lines :
  outcome (batch shop 1 [mkCommand "shop:write:order:create" order_with_lines] shop_clerk None shop_start)
  = Some (true, ["order"; "line"; "line"], ["mail"],
          ["shop:write:order:create"; "shop:write:line:create"; "shop:write:line:create"]).
Proof. vm_compute. reflexivity. Qed.

Example payment_undoes_the_order :
  outcome (batch shop 1 [mkCommand "shop:write:order:create" order_with_lines; mkCommand "shop:write:payment:create" (JObj [])]
             shop_clerk None shop_start)
  = Some (false, [], ["refund"], ["shop:job:charge"]).
Proof. vm_compute. reflexivity. Qed.

(** The gate does not see the columns a delete removes. *)
Example visitor_deletes_guests :
  outcome (batch shop 2 [mkCommand "shop:write:guest:delete" (JObj [])] shop_visitor None (set_db ["guest"; "visit"] shop_start))
  = Some (true, ["visit"], [], ["shop:write:guest:delete"]).
Proof. vm_compute. reflexivity. Qed.

Example visitor_is_not_signed_up :
  outcome (batch shop 2 [mkCommand "shop:write:visit:create" (JObj [])] shop_visitor None shop_start)
  = Some (true, ["visit"], [], ["shop:write:visit:create"]).
Proof. vm_compute. reflexivity. Qed.

Example clerk_signs_up :
  outcome (batch shop 2 [mkCommand "shop:write:visit:create" (JObj [])] shop_clerk None shop_start)
  = Some (true, ["visit"; "guest"], [], ["shop:write:guest:create"; "shop:write:visit:create"]).
Proof. vm_compute. reflexivity. Qed.

(** A property of every handler of the shop. *)
Lemma shop_handlers (Pr : string → WriteHandlerDef Shop Mails → Prop) :
  Forall (λ type, from_option (Pr type) True (shop_write_handler type))
    ["shop:write:guest:create"; "shop:write:visit:create"; "shop:write:order:create"; "shop:write:line:create"; "shop:write:payment:create"; "shop:write:guest:delete"] →
  ∀ type h, shop_write_handler type = Some h → Pr type h.
Proof.
  intros Hall type h Hh. assert (Hin : type ∈ ["shop:write:guest:create"; "shop:write:visit:create"; "shop:write:order:create";
    "shop:write:line:create"; "shop:write:payment:create"; "shop:write:guest:delete"]).
  { unfold shop_write_handler in Hh. repeat case_decide; set_solver. }
  rewrite Forall_forall in Hall. specialize (Hall type Hin). by rewrite Hh in Hall.
Qed.

Lemma shop_has_no_phases type h :
  shop_write_handler type = Some h → wh_reserveBeforeTransaction h = None ∧ wh_beforeTransaction h = None ∧ wh_perCommand h = false.
Proof.
  apply (shop_handlers (λ _ h, wh_reserveBeforeTransaction h = None ∧ wh_beforeTransaction h = None ∧ wh_perCommand h = false)).
  by repeat (apply Forall_cons; split).
Qed.
