(* ===== verification/CommandProofs.v ===== *)
(** * Command dispatcher: theorems

    Instances of [CommandLogic] and the case analyses of a batch: personal data
    under a gated origin, the end of nested dispatches, a failed batch, the
    idempotency key of a request, and the sinks against their ledger. *)

From S2P Require Import Prelude Origins QualifiedName TableInfo Ownership FieldAccess Redis Idempotency TransitionGuard Gates WriteOrigin ClientMasking CommitSinks CommandDispatch CommandWrite CommandBatch CommandLogic CommandExample.

Open Scope string_scope.
Open Scope list_scope.

(** A dispatcher before a request: nothing queued, nothing reserved. *)
Definition idle {D E} (s : RunState D E (Sinks (QueuedHook E))) : Prop :=
  rs_sinks s = no_hooks ∧ rs_reserved s = ∅.

Lemma idle_ok {D E} Qh P (s : RunState D E (Sinks (QueuedHook E))) : idle s → state_ok Qh P s.
Proof. intros [Hs Hr]. split; rewrite ?Hs, ?Hr; [constructor..|apply map_Forall_empty]. Qed.

(** ** Personal data under a gated origin *)

Section personal.
Context {D E V : Type} (ctx : DispatchContext D E) (view : D → V) (le : relation V) `{!PreOrder le}.
#[local] Set Default Proof Using "Type".

(** No written column holds personal data. *)
Definition impersonal (table : string) (keys : list string) : Prop :=
  ∀ personal, buildPersonalDataTableMap (dc_personal ctx) !! table = Some personal →
    ∀ k, k ∈ keys → toSnakeCase k ∉ personal.

(** [le (view d') (view d)]: [d'] holds no personal data that [d] does not. *)
Definition adds_none (f : D → result Thrown D) : Prop := ∀ d d', f d = Ok d' → le (view d') (view d).

Definition adds_none_outside {A} (f : D * E → result Thrown A * (D * E)) : Prop := ∀ d e, le (view (f (d, e)).2.1) (view d).

(** What a program writes, it declares: a write whose columns hold no personal
    data adds none, and neither does a delete. *)
Fixpoint honest (p : Program D E) : Prop :=
  match p with
  | PReturn _ | PThrow _ => True
  | PRead k => ∀ d e, honest (k d e)
  | PWrite table keys f k => (impersonal table keys → adds_none f) ∧ ∀ r, honest (k r)
  | PDelete _ f k => adds_none f ∧ ∀ r, honest (k r)
  | PJob _ _ k | PPublish _ _ k => ∀ r, honest (k r)
  | PExt f k => honest k
  | PDispatch _ _ _ k => ∀ r, honest (k r)
  | PAfterCommit _ k | PAfterRollback _ k => ∀ r, honest (k r)
  end.

(** Handlers and hooks are honest; projections, the settling of file references
    and the phases outside the transaction add no personal data. *)
Record HonestContext : Prop := {
  hc_handler : ∀ type h event, dc_writeHandler ctx type = Some h → honest (wh_handler h event);
  hc_hook : ∀ lh name hook payload phase eff, dc_lifecycle ctx = Some lh →
    hook ∈ lh_postSave lh name phase eff ++ lh_preDelete lh name phase eff ++ lh_postDelete lh name phase eff ++
           lh_entityPostSave lh name phase eff ++ lh_entityPreDelete lh name phase eff ++ lh_entityPostDelete lh name phase eff →
    honest (lk_fn hook payload);
  hc_system_hook : ∀ lh hook payload, dc_lifecycle ctx = Some lh →
    hook ∈ lh_systemPostSave lh ++ lh_systemPreDelete lh ++ lh_systemPostDelete lh ++ lh_postSaveBatch lh ++ lh_postDeleteBatch lh →
    honest (sh_fn hook payload);
  hc_projections : ∀ data, adds_none (dc_projections ctx data);
  hc_files : ∀ data user, adds_none (dc_settleFileRefs ctx data user);
  hc_reserve : ∀ type h reserve event, dc_writeHandler ctx type = Some h → wh_reserveBeforeTransaction h = Some reserve →
    adds_none_outside (reserve event) ∧
    ∀ de r, (reserve event de).1 = Ok r →
      match r with
      | ReservedNothing => True
      | ReservedRelease release => adds_none_outside release
      | ReservedHandle h => adds_none_outside (rh_release h) ∧ adds_none (rh_confirmInTransaction h)
      end;
  hc_before : ∀ type h before event, dc_writeHandler ctx type = Some h → wh_beforeTransaction h = Some before →
    adds_none_outside (before event) ∧
    ∀ de data release, (before event de).1 = Ok (PhaseOk data (Some release)) → adds_none_outside release }.

Context (HH : HonestContext).
#[local] Set Default Proof Using "Type*".

Notation Run := (RunState D E (Sinks (QueuedHook E))).

Definition no_more (s s' : Run) : Prop := le (view (rs_db s')) (view (rs_db s)).

Notation gated_scope := (λ (_ : string) sc, isPersonalDataGated (sc_origin sc) = true).
Notation gated_write := (λ (_ : string) (_ : Principal) origin (_ : bool), isPersonalDataGated origin = true).
Notation gated_hook := (λ (_ : string) (_ : Principal) origin, isPersonalDataGated origin = true).
Notation keeps := (spec gated_hook false no_more).

Lemma view_frame : Frame ctx no_more.
Proof.
  split; unfold no_more; simpl; intros *; try reflexivity.
  - intros (-> & _). reflexivity.
  - intros H12 H23. by transitivity (view (rs_db s2)).
  - intros s d Hd. by apply (hc_projections HH data).
  - intros s d Hd. by apply (hc_files HH data user).
Qed.

Lemma allowed_write_impersonal sc table keys :
  isPersonalDataGated (sc_origin sc) = true → write_denied ctx sc table keys = None → impersonal table keys.
Proof.
  intros Hg. unfold write_denied. destruct (negb (dc_hasDb ctx)); [done|]. destruct (decide _); [done|].
  destruct (personalDataGate _ _ _ _ _) eqn:Hgate; [done|]. intros _.
  apply personalDataGate_decides in Hgate as [Hgate|Hgate]; [congruence|exact Hgate].
Qed.

(** An honest program under a gated origin keeps the view, if its nested writes
    do. *)
Lemma honest_prog_ok nested sc p :
  isPersonalDataGated (sc_origin sc) = true →
  (∀ asUser type payload, keeps anything (nested sc asUser type payload)) →
  honest p → prog_ok ctx gated_hook false no_more nested sc p.
Proof.
  intros Hg Hn. induction p; simpl; intros Hh; auto.
  - destruct Hh as [Hf Hk]. split; [|auto]. intros Hw s d Hd. apply Hf; [|done].
    by eapply allowed_write_impersonal.
  - destruct Hh as [Hf Hk]. split; [|auto]. intros _ s d Hd. by apply Hf.
Qed.

Lemma gated_well_behaved nested :
  (∀ sc asUser type payload, isPersonalDataGated (sc_origin sc) = true → keeps anything (nested sc asUser type payload)) →
  WellBehaved ctx gated_scope gated_hook false no_more nested gated_write.
Proof.
  intros Hn. split.
  - done.
  - intros type h event sc Hh Hg. apply honest_prog_ok; [done|auto|]. by eapply (hc_handler HH).
  - intros lh type sc hook payload phase eff Hl Hg Hin. apply honest_prog_ok; [done|intros; by apply Hn|].
    eapply (hc_hook HH); [done|]. rewrite !elem_of_app in *. naive_solver.
  - intros lh type name sc hook payload phase eff Hl Hg Hin. apply honest_prog_ok; [done|intros; by apply Hn|].
    eapply (hc_hook HH); [done|]. rewrite !elem_of_app in *. naive_solver.
  - intros lh type sc hook payload Hl Hg Hin. apply honest_prog_ok; [done|auto|]. by eapply (hc_system_hook HH).
Qed.

Lemma gated_children : ChildrenOk ctx gated_write.
Proof. by intros ?. Qed.

Lemma gated_batch_behaved : BatchWellBehaved ctx gated_scope gated_hook no_more gated_write.
Proof.
  split; try done; try by intros; unfold no_more; simpl.
  - intros type h reserve event Hh Hr. destruct (hc_reserve HH type h reserve event Hh Hr) as [Ho Hv].
    split; [intros s; apply Ho|]. intros de r Hd. specialize (Hv de r Hd). destruct r as [|release|handle]; simpl; [done| |].
    + intros s. apply Hv.
    + destruct Hv as [Hrel Hc]. split; [intros s; apply Hrel|]. intros s d Hcd. by apply Hc.
  - intros type h before event Hh Hb. destruct (hc_before HH type h before event Hh Hb) as [Ho Hv].
    split; [intros s; apply Ho|]. intros de [data [release|]|e] Hd; simpl; [|done|done]. intros s. by eapply Hv.
Qed.

Lemma gated_origin_of type user inherited :
  from_option isPersonalDataGated false inherited = true → isPersonalDataGated (origin_of ctx type user inherited) = true.
Proof. intros Hi. unfold origin_of. by rewrite effectiveWriteOrigin_gated, Hi, orb_true_r. Qed.

Lemma gated_writeAsUser fuel sc asUser type payload :
  isPersonalDataGated (sc_origin sc) = true → keeps anything (writeAsUser ctx fuel sc asUser type payload).
Proof.
  revert sc asUser type payload. induction fuel as [|fuel IH]; intros sc asUser type payload Hg; [by intros s Hs|].
  pose proof (gated_well_behaved (writeAsUser ctx fuel) IH) as HW.
  eapply (spec_writeAsUser ctx gated_scope _ _ _ view_frame _ _ HW); [apply gated_children|done|done|]. intros _.
  eapply (spec_runBatch ctx gated_scope _ _ _ _ _ _ _ _ _ _ view_frame HW gated_children gated_batch_behaved).
  - intros tx cmd _. by apply gated_origin_of.
  - eapply (idempotency_ok_without ctx gated_scope), gated_batch_behaved; [apply view_frame|exact HW|apply gated_children].
Qed.

(** C6: A request whose every command goes back to an anonymous caller without
    public intake adds or changes no personal data: the gate refuses every
    insert and update that sets a column with personal data, under any identity
    and at any depth of nesting, in handlers and in hooks, in the transaction
    and after it, in nested batches and batch hooks.  Personal data is any view
    of the database with an order "holds no more than".  Handlers and hooks are
    assumed to write through the tenant database and to name the columns they
    set; deletes, which the gate does not see (Example visitor_deletes_guests),
    may only remove; the same is assumed of projections, the settling of file
    references and the phases outside the transaction, and raw SQL is left
    out. *)
Theorem gated_batch_spares_personal_data fuel commands user requestId inherited s r s' :
  idle s → (∀ cmd, cmd ∈ commands → isPersonalDataGated (origin_of ctx (cmd_type cmd) user inherited) = true) →
  runBatch ctx (writeAsUser ctx fuel) commands user requestId inherited s = Some (r, s') →
  le (view (rs_db s')) (view (rs_db s)).
Proof.
  intros Hidle Hg Hrun. pose proof (gated_well_behaved _ (gated_writeAsUser fuel)) as HW.
  pose proof (spec_runBatch ctx gated_scope gated_hook gated_hook false no_more _ gated_write commands user requestId
                inherited view_frame HW gated_children gated_batch_behaved) as Hspec.
  pose proof (idempotency_ok_any ctx gated_scope gated_hook false no_more view_frame _ gated_write HW gated_children
                gated_batch_behaved commands user requestId ltac:(by left) ltac:(by intros; unfold no_more)) as Hid.
  specialize (Hspec ltac:(by intros tx) Hid s (idle_ok _ _ s Hidle)). rewrite Hrun in Hspec. apply Hspec.
Qed.
End personal.

(** ** Nested dispatches end *)

Section ranked.
Context {D E : Type} (ctx : DispatchContext D E) (rank : string → nat).
#[local] Set Default Proof Using "Type".

(** Every write a program dispatches has a rank below [b]. *)
Fixpoint dispatches_below (b : nat) (p : Program D E) : Prop :=
  match p with
  | PReturn _ | PThrow _ => True
  | PRead k => ∀ d e, dispatches_below b (k d e)
  | PWrite _ _ _ k => ∀ r, dispatches_below b (k r)
  | PDelete _ _ k | PJob _ _ k | PPublish _ _ k => ∀ r, dispatches_below b (k r)
  | PExt _ k => dispatches_below b k
  | PDispatch _ type _ k => (rank type < b)%nat ∧ ∀ r, dispatches_below b (k r)
  | PAfterCommit _ k | PAfterRollback _ k => ∀ r, dispatches_below b (k r)
  end.

(** A handler and its hooks dispatch handlers of lower rank only; the hooks of
    entities and of the system dispatch none. *)
Record RankedContext : Prop := {
  rc_handler : ∀ type h event, dc_writeHandler ctx type = Some h → dispatches_below (rank type) (wh_handler h event);
  rc_hook : ∀ lh type hook payload phase eff, dc_lifecycle ctx = Some lh →
    hook ∈ lh_postSave lh type phase eff ++ lh_preDelete lh type phase eff ++ lh_postDelete lh type phase eff →
    dispatches_below (rank type) (lk_fn hook payload);
  rc_entity_hook : ∀ lh name hook payload phase eff, dc_lifecycle ctx = Some lh →
    hook ∈ lh_entityPostSave lh name phase eff ++ lh_entityPreDelete lh name phase eff ++ lh_entityPostDelete lh name phase eff →
    dispatches_below 0 (lk_fn hook payload);
  rc_system_hook : ∀ lh hook payload, dc_lifecycle ctx = Some lh →
    hook ∈ lh_systemPostSave lh ++ lh_systemPreDelete lh ++ lh_systemPostDelete lh ++ lh_postSaveBatch lh ++ lh_postDeleteBatch lh →
    dispatches_below 0 (sh_fn hook payload);
  rc_children : ∀ type payload ex child,
    extractNestedSpecs (dc_reg ctx) (dc_relations ctx) type payload = Ok (Some ex) → child ∈ ex_specs ex →
    (rank (ns_subType child) ≤ rank type)%nat;
  rc_batch : rank BATCH_HOOKS_CONTEXT_TYPE = 0%nat }.

Context (HR : RankedContext).
#[local] Set Default Proof Using "Type*".

Notation Run := (RunState D E (Sinks (QueuedHook E))).
Notation any := (λ _ _ : Run, True).
Notation within n := (λ (type : string) (_ : HandlerContextScope), (rank type ≤ n)%nat).
Notation queued n := (λ (type : string) (_ : Principal) (_ : WriteOrigin), (rank type ≤ n)%nat).
Notation written n := (λ (type : string) (_ : Principal) (_ : WriteOrigin) (_ : bool), (rank type ≤ n)%nat).

Lemma any_frame : Frame ctx any.
Proof. by split. Qed.

Lemma dispatches_below_mono b c p : (b ≤ c)%nat → dispatches_below b p → dispatches_below c p.
Proof.
  intros Hbc. induction p; simpl; intros Hp; auto. destruct Hp as [Hr Hk]. split; [lia|auto].
Qed.

Lemma ranked_prog_ok m n nested sc p :
  (∀ sc asUser type payload, (rank type < m)%nat → spec (queued n) true any anything (nested sc asUser type payload)) →
  dispatches_below m p → prog_ok ctx (queued n) true any nested sc p.
Proof.
  intros Hn. revert sc. induction p as [r|t|k IH|table keys f k IH|table f k IH|jobName job k IH|topic message k IH|f k IH|asUser type payload k IH|hook k IH|hook k IH];
    simpl; intros sc Hp; auto.
  - split; [|auto]. by intros _ s d.
  - split; [|auto]. by intros _ s d.
  - destruct Hp as [Hr Hk]. split; [|auto]. intros _. by apply Hn.
Qed.

(** At depth [m], whatever is queued around it up to [n]. *)
Lemma ranked_well_behaved m n nested :
  (m ≤ n)%nat →
  (∀ sc asUser type payload, (rank type < m)%nat → spec (queued n) true any anything (nested sc asUser type payload)) →
  WellBehaved ctx (within m) (queued n) true any nested (written m).
Proof.
  intros Hmn Hn. split.
  - intros. lia.
  - intros type h event sc Hh Hr. apply (ranked_prog_ok m); [done|]. eapply dispatches_below_mono; [exact Hr|]. by apply (rc_handler HR).
  - intros lh type sc hook payload phase eff Hl Hr Hin. apply (ranked_prog_ok m); [done|].
    eapply dispatches_below_mono; [exact Hr|]. by eapply (rc_hook HR).
  - intros lh type name sc hook payload phase eff Hl Hr Hin. apply (ranked_prog_ok m); [done|].
    eapply (dispatches_below_mono 0); [lia|]. by eapply (rc_entity_hook HR).
  - intros lh type sc hook payload Hl Hr Hin. apply (ranked_prog_ok m); [done|].
    eapply (dispatches_below_mono 0); [lia|]. by eapply (rc_system_hook HR).
Qed.

Lemma ranked_children n : ChildrenOk ctx (written n).
Proof. intros type user origin tx payload ex child Hr Hex Hc. pose proof (rc_children HR _ _ _ _ Hex Hc). lia. Qed.

Lemma ranked_batch_behaved n : BatchWellBehaved ctx (within n) (queued n) any (written n).
Proof.
  split; try done.
  - intros. rewrite (rc_batch HR). lia.
  - intros. split; [done|]. intros de r _. by destruct r.
  - intros. split; [done|]. intros de r _. by destruct r as [? []|].
Qed.

Lemma ranked_writeAsUser m n sc asUser type payload :
  (rank type < m)%nat → (m ≤ Datatypes.S n)%nat → spec (queued n) true any anything (writeAsUser ctx m sc asUser type payload).
Proof.
  revert n sc asUser type payload. induction m as [|m IH]; intros n sc asUser type payload Hr Hmn; [lia|].
  eapply (spec_writeAsUser ctx (within m) _ _ _ any_frame _ (written m)); [apply ranked_well_behaved|apply ranked_children|done| |].
  - lia.
  - intros. apply IH; lia.
  - intros. lia.
  - intros _. assert (HW : WellBehaved ctx (within m) (queued m) true any (writeAsUser ctx m) (written m))
      by (apply ranked_well_behaved; [lia|intros; apply IH; lia]).
    eapply (spec_runBatch ctx (within m) (queued m) _ _ _ _ (written m)); [apply any_frame|exact HW|apply ranked_children|apply ranked_batch_behaved| |].
    + intros tx cmd ->%list_elem_of_singleton. simpl. lia.
    + eapply (idempotency_ok_without ctx (within m)), ranked_batch_behaved; [apply any_frame|exact HW|apply ranked_children].
Qed.

(** The fuel is enough: where handlers, their own hooks and nested children
    dispatch only handlers of lower rank and the hooks of entities and of the
    system none, a batch whose commands have rank at most [fuel] returns a result
    (if its moments last until [check] ends). *)
Theorem ranked_batch_ends fuel commands user requestId s :
  idle s → (∀ cmd, cmd ∈ commands → (rank (cmd_type cmd) ≤ fuel)%nat) → check_ends ctx user requestId →
  ∃ r s', batch ctx fuel commands user requestId s = Some (r, s').
Proof.
  intros Hidle Hr Hends.
  assert (HW : WellBehaved ctx (within fuel) (queued fuel) true any (writeAsUser ctx fuel) (written fuel))
    by (apply ranked_well_behaved; [lia|intros; apply ranked_writeAsUser; lia]).
  pose proof (spec_runBatch ctx (within fuel) (queued fuel) (queued fuel) true any _ (written fuel) commands user requestId
                None any_frame HW (ranked_children fuel) (ranked_batch_behaved fuel) ltac:(by intros tx)) as Hspec.
  specialize (Hspec (idempotency_ok_any ctx (within fuel) _ _ _ any_frame _ _ HW (ranked_children fuel)
                       (ranked_batch_behaved fuel) commands user requestId ltac:(by right) ltac:(done)) s (idle_ok _ _ s Hidle)).
  unfold batch. destruct (runBatch _ _ _ _ _ _ s) as [[r s']|]; [by exists r, s'|done].
Qed.
End ranked.

(** ** Witnesses *)

Definition shop_rank (type : string) : nat := if decide (type = "shop:write:visit:create") then 1 else 0.

Lemma shop_ranked : RankedContext shop shop_rank.
Proof.
  split; try done.
  - intros type h event. apply (shop_handlers (λ type h, dispatches_below shop_rank (shop_rank type) (wh_handler h event))).
    repeat (apply Forall_cons; split); [..|constructor]; simpl.
    + by intros [].
    + intros _. split; [cbv; lia|done].
    + intros _ _. by intros [].
    + by intros [].
    + done.
    + done.
  - intros type payload ex child Hex Hin. assert (Hs : ns_subType child ≠ "shop:write:visit:create"); [|unfold shop_rank at 1; case_decide; [done|lia]].
    intros Hv. destruct (extractNestedSpecs_children _ _ _ _ _ _ Hex Hin) as (source & parsed & entity & _ & Hp & He & target & Hr & Hq & _).
    simpl in He. destruct (decide (type = "shop:write:order:create")) as [->|]; [|done]. injection He as <-.
    apply list_elem_of_singleton in Hr. injection Hr as Hk Ht Hf. subst target. vm_compute in Hp. injection Hp as <-. rewrite Hv in Hq. vm_compute in Hq. discriminate Hq.
Qed.

Lemma shop_start_idle : idle shop_start.
Proof. done. Qed.

Lemma ranked_batch_ends_witness :
  RankedContext shop shop_rank ∧
  ∃ r s', batch shop 1 [mkCommand "shop:write:visit:create" (JObj [])] shop_visitor None shop_start = Some (r, s').
Proof.
  split; [exact shop_ranked|]. apply (ranked_batch_ends shop shop_rank shop_ranked); [exact shop_start_idle| |].
  - intros cmd ->%list_elem_of_singleton. cbv. lia.
  - done.
Defined.

(** The guests among the rows; one database holds no more than another if its
    guests are among those of the other, each as often at most. *)
Definition guests (d : list string) : list string := filter (λ row, row = "guest") d.

Lemma guests_app d d' : guests (d ++ d') = guests d ++ guests d'.
Proof. apply filter_app. Qed.

Lemma remove_guests_adds_none : adds_none guests (submseteq (A := string)) remove_guests.
Proof.
  intros d d' [= <-]. assert (guests (filter (λ row, row ≠ "guest") d) = []) as ->; [|apply submseteq_nil_l].
  induction d as [|row d IH]; [done|]. rewrite filter_cons. case_decide; [|done]. unfold guests. by rewrite filter_cons_False.
Qed.

Lemma shop_honest : HonestContext shop guests submseteq.
Proof.
  assert (Hadd : ∀ row d d', row ≠ "guest" → add_row row d = Ok d' → guests d' ⊆+ guests d).
  { intros row d d' Hrow [= <-]. rewrite guests_app. unfold guests at 2. rewrite filter_cons_False, filter_nil by done. by rewrite app_nil_r. }
  split; try done.
  - intros type h event. apply (shop_handlers (λ type h, honest shop guests submseteq (wh_handler h event))).
    repeat (apply Forall_cons; split); [..|constructor]; simpl.
    + split; [|by intros []]. intros Himp. exfalso. apply (Himp ["email"] eq_refl "email"); set_solver.
    + split; [|done]. intros _ d d'. by apply Hadd.
    + intros _ _. split; [|by intros []]. intros _ d d'. by apply Hadd.
    + split; [|by intros []]. intros _ d d'. by apply Hadd.
    + split; [|done]. intros _ d d'. by apply Hadd.
    + split; [apply remove_guests_adds_none|done].
  - intros data d d' [= <-]. done.
  - intros data user d d' [= <-]. done.
  - intros type h reserve event Hh Hr. destruct (shop_has_no_phases type h Hh) as (? & _). congruence.
  - intros type h before event Hh Hb. destruct (shop_has_no_phases type h Hh) as (_ & ? & _). congruence.
Qed.

Lemma gated_batch_spares_personal_data_witness :
  HonestContext shop guests submseteq ∧
  ∀ r s', runBatch shop (writeAsUser shop 2) [mkCommand "shop:write:visit:create" (JObj [])] shop_visitor None None shop_start = Some (r, s') →
    guests (rs_db s') ⊆+ [].
Proof.
  split; [exact shop_honest|]. intros r s' Hrun.
  apply (gated_batch_spares_personal_data shop guests submseteq shop_honest 2 _ _ _ _ shop_start r s' shop_start_idle) in Hrun; [exact Hrun|].
  intros cmd ->%list_elem_of_singleton. vm_compute. reflexivity.
Defined.
