(* ===== verification/BatchProofs.v ===== *)
(** * Command dispatcher: how a batch ends

    What a failed batch leaves behind, what the idempotency key of a request
    holds after it, and the foreign keys of nested children. *)

From S2P Require Import Prelude Origins QualifiedName Ownership FieldAccess Redis Idempotency TransitionGuard Gates WriteOrigin ClientMasking CommitSinks CommandDispatch CommandWrite CommandBatch CommandLogic CommandExample CommandProofs.

Open Scope string_scope.
Open Scope list_scope.

(** ** Steps that change little *)

Section steps.
Context {D E : Type} (ctx : DispatchContext D E) (nested : HandlerContextScope → Principal → string → Json → M D E (Sinks (QueuedHook E)) DispatchResult).
#[local] Set Default Proof Using "Type".

Lemma bind_returns {A B} (m : M D E (Sinks (QueuedHook E)) A) (f : A → M D E (Sinks (QueuedHook E)) B) s b s' :
  bind m f s = Some (Ok b, s') → ∃ a s1, m s = Some (Ok a, s1) ∧ f a s1 = Some (Ok b, s').
Proof. unfold bind. destruct (m s) as [[[a|t] s1]|]; [|done|done]. by exists a, s1. Qed.

Lemma bind_ext {A B} (m : M D E (Sinks (QueuedHook E)) A) (f g : A → M D E (Sinks (QueuedHook E)) B) s :
  (∀ a s', f a s' = g a s') → bind m f s = bind m g s.
Proof. intros Hfg. unfold bind. destruct (m s) as [[[a|t] s1]|]; [apply Hfg|done|done]. Qed.

(** Steps that do not throw. *)
Definition never_throws {A} (m : M D E (Sinks (QueuedHook E)) A) : Prop := ∀ s t s', m s ≠ Some (Err t, s').

Lemma never_throws_bind {A B} (m : M D E (Sinks (QueuedHook E)) A) (f : A → M D E (Sinks (QueuedHook E)) B) :
  never_throws m → (∀ a, never_throws (f a)) → never_throws (bind m f).
Proof.
  intros Hm Hf s t s'. unfold bind. specialize (Hm s). destruct (m s) as [[[a|t'] s1]|]; [apply Hf|by destruct (Hm t' s1)|done].
Qed.

Lemma never_throws_quiet_each hooks : never_throws (run_each (S := Sinks (QueuedHook E)) (D := D) false hooks).
Proof.
  induction hooks as [|hook hooks IH]; simpl; [done|]. apply never_throws_bind; [|done].
  intros s t s'. unfold attempt. by destruct (hook s) as [[]|].
Qed.

Lemma never_throws_batch_hooks hooks payload sc : never_throws (runBatchHooks ctx nested hooks payload sc).
Proof. unfold runBatchHooks. destruct payload; [done|apply never_throws_quiet_each]. Qed.

Lemma never_throws_flushBatchHooks user origins results : never_throws (flushBatchHooks ctx nested user origins results).
Proof.
  unfold flushBatchHooks. destruct (strictest_origin origins); [|done]. destruct (dc_lifecycle ctx) as [lh|]; [|done].
  apply never_throws_bind; [done|intros saves]. apply never_throws_bind; [done|intros deletes].
  destruct (hasBatchHooks lh); [|done]. apply never_throws_bind; [apply never_throws_batch_hooks|intros _; apply never_throws_batch_hooks].
Qed.

Lemma never_throws_commands reserved user inherited tx index commands :
  never_throws (run_commands ctx nested reserved user inherited tx index commands).
Proof.
  revert index. induction commands as [|cmd commands IH]; intros index; cbn [run_commands]; [done|].
  apply never_throws_bind. { intros s t s'. unfold attempt. by destruct (runReservedCommand _ _ _ _ _ _ _ _ s) as [[]|]. }
  intros [[]|]; try done. by apply never_throws_bind.
Qed.

Lemma never_throws_transaction commands user inherited reserved releases :
  never_throws (batch_in_transaction ctx nested commands user inherited reserved releases).
Proof.
  unfold batch_in_transaction, flushAfterCommit, flushAfterRollback, releaseAll. apply never_throws_bind.
  { intros s t s'. unfold transaction. pose proof (never_throws_commands reserved user inherited true 0 commands s) as Hc.
    destruct (run_commands _ _ _ _ _ _ _ _ s) as [[[[fin []]|t'] s1]|]; try done; [|by destruct (Hc t' s1)].
    by destruct (dc_commit ctx (rs_db s1)) as [[]|]. }
  intros [[fin []] completed]; repeat (apply never_throws_bind; [try done|intros ?]); try done;
    try apply never_throws_quiet_each; try apply never_throws_flushBatchHooks.
  all: apply never_throws_bind; [done|intros ?; apply never_throws_quiet_each].
Qed.

(** Compensations change the world outside only. *)
Lemma compensations_outside hooks s :
  Forall handler_hook hooks → ∃ e, run_each false (run_queued ctx nested <$> hooks) s = Some (Ok (), set_ext e s).
Proof.
  intros Hh. revert s. induction Hh as [|q hooks Hq _ IH]; intros s; simpl; [by exists (rs_ext s); destruct s|].
  unfold handler_hook in Hq. unfold bind, attempt, run_queued at 1. destruct (qh_hook q) as [run| | |]; try done.
  destruct (run (rs_ext s)) as [r e]. destruct (IH (set_ext e s)) as [e' He]. exists e'. exact He.
Qed.

(** A command that neither reserves nor runs outside a transaction. *)
Definition plain_command (cmd : BatchCommand) : Prop :=
  ∀ h, dc_writeHandler ctx (cmd_type cmd) = Some h →
    wh_perCommand h = false ∧ wh_reserveBeforeTransaction h = None ∧ wh_beforeTransaction h = None.

Lemma plain_not_per_command commands :
  Forall plain_command commands → Forall (λ c, isPerCommandHandler ctx (cmd_type c) = false) commands.
Proof.
  intros Hp. eapply Forall_impl; [exact Hp|]. intros c Hc. unfold isPerCommandHandler.
  destruct (dc_writeHandler ctx (cmd_type c)) as [h|] eqn:Hh; [|done]. by destruct (Hc h Hh).
Qed.

Lemma plain_no_rejection commands : Forall plain_command commands → perCommandBatchRejection ctx commands = None.
Proof.
  intros Hp%plain_not_per_command. unfold perCommandBatchRejection. rewrite (proj2 (list_find_None _ _)); [done|].
  eapply Forall_impl; [exact Hp|]. simpl. congruence.
Qed.

Lemma plain_in_transaction commands :
  Forall plain_command commands → existsb (λ c, isPerCommandHandler ctx (cmd_type c)) commands = false.
Proof.
  intros Hp%plain_not_per_command. induction Hp as [|c commands Hc _ IH]; simpl; [done|]. by rewrite Hc.
Qed.

Lemma plain_reserves_nothing index commands user reserved releases s :
  Forall plain_command commands →
  reserve_commands (S := Sinks (QueuedHook E)) ctx index commands user reserved releases s = Some (Ok (ReservationsOk reserved releases), s).
Proof.
  intros Hp. revert index. induction Hp as [|c commands Hc _ IH]; intros index; cbn [reserve_commands]; [done|].
  destruct (dc_writeHandler ctx (cmd_type c)) as [h|] eqn:Hh; [|apply IH].
  destruct (Hc h Hh) as (_ & Hr & Hb). unfold hasPreTransactionPhase. rewrite Hr, Hb. apply IH.
Qed.

Lemma plain_reservations commands user s :
  Forall plain_command commands →
  reserveBeforeTransaction (S := Sinks (QueuedHook E)) ctx commands user s = Some (Ok (ReservationsOk ∅ []), s).
Proof. intros Hp. unfold reserveBeforeTransaction. destruct (isMemberResolutionPrincipal user); [done|]. by apply plain_reserves_nothing. Qed.
End steps.

(** ** What programs cannot change *)

(** A relation that database writes respect holds for every program, once it
    holds for its nested writes. *)
Section any_program.
Context {D E : Type} (ctx : DispatchContext D E).
Notation Run := (RunState D E (Sinks (QueuedHook E))).
Notation any_hook := (λ (_ : string) (_ : Principal) (_ : WriteOrigin), True).
Context (P : Run → Run → Prop).

Record Indifferent : Prop := {
  in_core : ∀ s s', same_core s s' → P s s';
  in_trans : ∀ s1 s2 s3, P s1 s2 → P s2 s3 → P s1 s3;
  in_db : ∀ s d, P s (set_db d s);
  in_job : ∀ s jobName payload, P s (set_jobs (rs_jobs s ++ [JobDispatched jobName payload]) s);
  in_publish : ∀ s topic message, P s (set_published (rs_published s ++ [DirectMessage topic message]) s);
  in_dedup : ∀ s ttlOption now eventId, P s (set_redis (dedup_tryAcquire ttlOption now (rs_redis s) eventId).2 s) }.

Context (HP : Indifferent).
#[local] Set Default Proof Using "Type*".

Lemma indifferent_db_ok f : db_ok P f.
Proof. intros s d _. apply (in_db HP). Qed.

Lemma indifferent_frame : Frame ctx P.
Proof.
  split; [apply (in_core HP)|apply (in_trans HP)| | | |apply (in_job HP)|apply (in_publish HP)|apply (in_dedup HP)].
  - intros s s' Hs. apply (in_trans HP s s'); [done|apply (in_db HP)].
  - intros data. apply indifferent_db_ok.
  - intros data user. apply indifferent_db_ok.
Qed.

Lemma indifferent_prog_ok nested sc p :
  (∀ asUser type payload, spec any_hook false P anything (nested sc asUser type payload)) →
  prog_ok ctx any_hook false P nested sc p.
Proof. intros Hn. induction p; simpl; auto; (split; [intros _; apply indifferent_db_ok|auto]). Qed.

Lemma indifferent_well_behaved (Q : string → HandlerContextScope → Prop) (R : string → Principal → WriteOrigin → bool → Prop) nested :
  (∀ type user origin tx h, R type user origin tx → resolveWriteEntry ctx type user tx = Ok h →
     Q type (buildHandlerContext ctx type user origin tx true (if wh_perCommand h then WithoutTx else InTx))) →
  (∀ type sc grant asUser target payload, Q type sc → spec any_hook false P anything (nested (with_grant grant sc) asUser target payload)) →
  WellBehaved ctx Q any_hook false P nested R.
Proof.
  intros Hscope Hn.
  assert (Hn' : ∀ type sc asUser target payload, Q type sc → spec any_hook false P anything (nested sc asUser target payload)).
  { intros type sc asUser target payload HQ. specialize (Hn type sc (sc_hasIdentitySwitchGrant sc) asUser target payload HQ). by destruct sc. }
  split; [by eauto|..].
  - intros type h event sc _ HQ. apply indifferent_prog_ok. eauto.
  - intros lh type sc hook payload phase eff _ HQ _. apply indifferent_prog_ok. eauto.
  - intros lh type name sc hook payload phase eff _ HQ _. apply indifferent_prog_ok. eauto.
  - intros lh type sc hook payload _ HQ _. apply indifferent_prog_ok. eauto.
Qed.
End any_program.

(** ** Inside a transaction *)

Section in_transaction.
Context {D E : Type} (ctx : DispatchContext D E).
Notation Run := (RunState D E (Sinks (QueuedHook E))).
Notation any_hook := (λ (_ : string) (_ : Principal) (_ : WriteOrigin), True).

(** The dispatcher's jobs and messages wait for the commit: what was sent, a
    handler or hook sent directly. *)
Definition only_direct (s s' : Run) : Prop :=
  (∃ calls, rs_jobs s' = rs_jobs s ++ ((λ call, JobDispatched call.1 call.2) <$> calls)) ∧
  ∃ messages, rs_published s' = rs_published s ++ ((λ m, DirectMessage m.1 m.2) <$> messages).

Lemma only_direct_same s s' : rs_jobs s' = rs_jobs s → rs_published s' = rs_published s → only_direct s s'.
Proof. intros Hj Hp. split; exists []; by rewrite app_nil_r. Qed.

Lemma only_direct_indifferent : Indifferent only_direct.
Proof.
  split.
  - intros s s' (_ & _ & ? & ?). by apply only_direct_same.
  - intros s1 s2 s3 [[c1 H1] [m1 H1']] [[c2 H2] [m2 H2']].
    split; [exists (c1 ++ c2)|exists (m1 ++ m2)]; by rewrite ?H2, ?H2', ?H1, ?H1', fmap_app, app_assoc.
  - intros. by apply only_direct_same.
  - intros s jobName payload. split; [by exists [(jobName, payload)]|exists []; simpl; by rewrite app_nil_r].
  - intros s topic message. split; [exists []; simpl; by rewrite app_nil_r|by exists [(topic, message)]].
  - intros. by apply only_direct_same.
Qed.

Notation joined := (λ (_ : string) sc, sc_mode sc = InTx ∧ sc_tx sc = true).
Notation in_tx := (λ (_ : string) (_ : Principal) (_ : WriteOrigin) tx, tx = true).

Lemma joined_well_behaved nested :
  (∀ sc asUser target payload, sc_mode sc = InTx → sc_tx sc = true → spec any_hook false only_direct anything (nested sc asUser target payload)) →
  WellBehaved ctx joined any_hook false only_direct nested in_tx.
Proof.
  intros Hn. apply indifferent_well_behaved; [apply only_direct_indifferent| |].
  - intros type user origin tx h -> He. unfold resolveWriteEntry in He. destruct (dc_writeHandler ctx type) as [h'|]; [|done].
    destruct (isMemberResolutionPrincipal user); [done|]. destruct (wh_perCommand h') eqn:Hp; [done|]. simplify_eq/=. by rewrite Hp.
  - intros type sc grant asUser target payload [Hm Ht]. by apply Hn.
Qed.

Lemma joined_children : ChildrenOk ctx in_tx.
Proof. by intros ?. Qed.

Lemma joined_writeAsUser fuel sc asUser target payload :
  sc_mode sc = InTx → sc_tx sc = true → spec any_hook false only_direct anything (writeAsUser ctx fuel sc asUser target payload).
Proof.
  revert sc asUser target payload. induction fuel as [|fuel IH]; intros sc asUser target payload Hm Ht; [done|].
  eapply (spec_writeAsUser ctx joined); [apply indifferent_frame, only_direct_indifferent|by apply joined_well_behaved|apply joined_children|done| |done].
  intros tx <- _. exact Ht.
Qed.

Lemma commands_send_nothing fuel reserved user inherited commands s r s' :
  state_ok any_hook only_direct s → map_Forall (λ _, reservation_ok only_direct) reserved →
  run_commands ctx (writeAsUser ctx fuel) reserved user inherited true 0 commands s = Some (r, s') →
  state_ok any_hook only_direct s' ∧ only_direct s s'.
Proof.
  intros Hs Hres Hrun.
  pose proof (spec_run_commands ctx joined any_hook false only_direct (indifferent_frame ctx _ only_direct_indifferent)
                (writeAsUser ctx fuel) in_tx (joined_well_behaved _ (joined_writeAsUser fuel)) joined_children reserved user inherited
                true 0 commands Hres ltac:(done) s Hs) as Hspec.
  rewrite Hrun in Hspec. naive_solver.
Qed.

(** After a rollback compensations run, and the results are read. *)
Lemma after_rollback {A B} nested (f : Run → A) (g : A → B) s :
  Forall handler_hook (rollbackSink (rs_sinks s)) →
  ∃ e, (let* _ := releaseAll [] in let* _ := flushAfterRollback ctx nested in let* results := gets f in ret (g results)) s
       = Some (Ok (g (f (set_ext e s))), set_ext e s).
Proof.
  intros Hh. destruct (compensations_outside ctx nested _ s Hh) as [e He]. exists e.
  unfold flushAfterRollback, bind, gets, ret. change (releaseAll [] s) with (Some (Ok tt, s) : option (result Thrown () * Run)).
  cbn beta iota. change (rollback_hooks (rs_sinks s)) with (rollbackSink (rs_sinks s)). by rewrite He.
Qed.

(** COMMIT either applies the work or reports that it did not. *)
Definition commit_is_clean : Prop := ∀ d t applied, dc_commit ctx d = Some (t, applied) → applied = false.

(** A transaction that did not commit is followed by compensations only. *)
Lemma failed_transaction fuel commands user inherited s e index results retry s' :
  idle s →
  batch_in_transaction ctx (writeAsUser ctx fuel) commands user inherited ∅ [] s = Some (Ok (BatchFailed e index results, retry), s') →
  only_direct s s' ∧ (retry = true ∨ commit_is_clean → rs_db s' = rs_db s) ∧ (retry = true → is_retryable e = true).
Proof.
  intros Hidle. unfold batch_in_transaction, bind at 1, transaction.
  destruct (run_commands _ _ _ _ _ _ _ _ s) as [[r s1]|] eqn:Hrun; [|done].
  destruct (commands_send_nothing _ _ _ _ _ _ _ _ (idle_ok _ _ s Hidle) (map_Forall_empty _) Hrun) as [[_ Hh _] Hsent].
  destruct r as [[fin [|i e'|t]]|t]; [destruct (dc_commit ctx (rs_db s1)) as [[t applied]|] eqn:Hc| | |done].
  - set (s2 := if applied then s1 else set_db (rs_db s) s1).
    assert (Hh2 : Forall handler_hook (rollbackSink (rs_sinks s2))) by by destruct applied.
    destruct (after_rollback (writeAsUser ctx fuel) (λ s, batch_result s <$> fin)
      (λ results, (BatchFailed (wrapToKumiko t) (length fin) results, negb true && is_retryable (wrapToKumiko t))) s2 Hh2) as [x ->].
    intros [= <- <- <- <- <-]. simpl. split_and!; [by destruct applied| |done]. intros [?|Hclean]; [done|]. subst s2. by rewrite (Hclean _ _ _ Hc).
  - intros Hr. apply bind_returns in Hr as (? & ? & _ & Hr). apply bind_returns in Hr as (? & ? & _ & Hr).
    by apply bind_returns in Hr as (? & ? & _ & [=]).
  - destruct (after_rollback (writeAsUser ctx fuel) (λ s, batch_result s <$> fin)
      (λ results, (BatchFailed e' i results, is_retryable e')) (set_db (rs_db s) s1) Hh) as [x ->].
    intros [= <- <- <- <- <-]. done.
  - destruct (after_rollback (writeAsUser ctx fuel) (λ s, batch_result s <$> fin)
      (λ results, (BatchFailed (wrapToKumiko t) (length fin) results, negb false && is_retryable (wrapToKumiko t)))
      (set_db (rs_db s) s1) Hh) as [x ->].
    intros [= <- <- <- <- <-]. done.
Qed.
End in_transaction.

(** ** A whole batch *)

Section whole.
Context {D E : Type} (ctx : DispatchContext D E).
Notation Run := (RunState D E (Sinks (QueuedHook E))).
#[local] Set Default Proof Using "Type".

Lemma set_redis_same (s : Run) : set_redis (rs_redis s) s = s.
Proof. by destruct s. Qed.

Lemma returns_same {A} (a : result Thrown A) (s : Run) : ∃ redis, Some (a, s) = Some (a, set_redis redis s).
Proof. exists (rs_redis s). by rewrite set_redis_same. Qed.

(** Storing or releasing the key of a request touches Redis only. *)
Lemma finalize_steps commands user requestId token r (s : Run) :
  ∃ redis, finalize ctx commands user requestId token r s = Some (Ok (maskForClient ctx commands r), set_redis redis s).
Proof. unfold finalize. repeat case_match; try apply returns_same. by eexists. Qed.

Lemma releaseOrFinalize_steps commands user requestId token r b (s : Run) :
  ∃ redis, releaseOrFinalize ctx commands user requestId token r b s = Some (Ok (maskForClient ctx commands r), set_redis redis s).
Proof. unfold releaseOrFinalize. repeat case_match; try apply finalize_steps. by eexists. Qed.

Lemma checkBatchIdempotency_steps user requestId (s : Run) :
  checkBatchIdempotency ctx user requestId s = None ∨
  ∃ r redis, checkBatchIdempotency ctx user requestId s = Some (r, set_redis redis s).
Proof.
  unfold checkBatchIdempotency. destruct (guarded_request ctx requestId) as [[rid o]|]; [|right; eexists; apply returns_same].
  destruct (check _ _ _ _ _) as [[] r]; try (by left); right; by eexists _, r.
Qed.

(** A batch of plain commands runs in its transaction. *)
Lemma plain_batch nested commands user requestId inherited token (s : Run) :
  dc_hasDb ctx = true → Forall (plain_command ctx) commands →
  runCheckedBatch ctx nested commands user requestId inherited token s =
  bind (batch_in_transaction ctx nested commands user inherited ∅ [])
    (λ ended, releaseOrFinalize ctx commands user requestId token ended.1 ended.2) s.
Proof.
  intros Hdb Hplain. unfold runCheckedBatch. cbv zeta. rewrite (plain_no_rejection ctx _ Hplain). unfold bind at 1.
  by rewrite (plain_reservations ctx _ user s Hplain), Hdb, (plain_in_transaction ctx _ Hplain).
Qed.

(** C5: A batch that does not succeed is undone: whatever its handlers, hooks and
    nested writes did through their transaction, the database is as it was before
    the batch, and the dispatcher itself queued no job (its job events) and
    published no message (its notes of config writes): every job and message sent
    meanwhile is from a direct call of [ctx.services.jobRunner.dispatch] or
    [ctx.services.cacheSync.publish] by a handler or hook, in addition to what was
    sent before.  (What else handlers and compensations do to the world outside
    stays.  The commands need no phase outside the transaction and none is
    per-command, handlers do not use the handle outside the transaction, and
    COMMIT is clean: an error of COMMIT means that nothing was applied.) *)
Theorem failed_batch_undoes_everything fuel commands user requestId inherited (s s' : Run) r :
  idle s → dc_hasDb ctx = true → Forall (plain_command ctx) commands → commit_is_clean ctx →
  runBatch ctx (writeAsUser ctx fuel) commands user requestId inherited s = Some (r, s') →
  (∀ results, r ≠ Ok (BatchOk results)) →
  rs_db s' = rs_db s ∧ only_direct s s'.
Proof.
  intros [Hk Hres] Hdb Hplain Hclean Hrun Hfail. unfold runBatch, with_fresh_sinks in Hrun.
  set (s0 := set_sinks no_hooks s) in *. destruct (runBatchBody _ _ _ _ _ _ s0) as [[r0 s1]|] eqn:Hbody; [|done].
  injection Hrun as <- <-. simpl. destruct commands as [|cmd commands].
  { injection Hbody as <- <-. by destruct (Hfail []). }
  unfold runBatchBody, bind in Hbody.
  destruct (checkBatchIdempotency_steps user requestId s0) as [Hcheck|(check & redis & Hcheck)]; rewrite Hcheck in Hbody; [done|].
  destruct check as [check|t]; [|injection Hbody as <- <-; split; [done|by apply only_direct_same]].
  assert (Hgo : ∀ token, runCheckedBatch ctx (writeAsUser ctx fuel) (cmd :: commands) user requestId inherited token
      (set_redis redis s0) = Some (r0, s1) → rs_db s1 = rs_db s ∧ only_direct s (set_sinks (rs_sinks s) s1)).
  { intros token Hgo. rewrite plain_batch in Hgo by done. unfold bind in Hgo. destruct (batch_in_transaction _ _ _ _ _ _ _ _) as [[[[result retry]|t] s2]|] eqn:Hbatch; [| |done].
    - destruct (releaseOrFinalize_steps (cmd :: commands) user requestId token result retry s2) as [redis' Hfin].
      simpl in Hgo. rewrite Hfin in Hgo. injection Hgo as <- <-. destruct result as [results|e index results]; [by destruct (Hfail (mask_results (dc_reg ctx) (cmd_type <$> cmd :: commands) results))|].
      apply failed_transaction in Hbatch as (Hsent & Hback & _); [|done]. simpl in *. rewrite Hback by auto. split; [done|exact Hsent].
    - by apply never_throws_transaction in Hbatch. }
  destruct check as [|result|token]; [by apply (Hgo None)| |by apply (Hgo (Some token))].
  injection Hbody as <- <-. split; [done|by apply only_direct_same].
Qed.
End whole.

(** ** A retry *)

(** The first two commands of [check] find the key holding [text], the second
    before the deadline. *)
Definition finds {D E} (ctx : DispatchContext D E) (o : IdempotencyOptions) user rid (r : Redis) (text : string) : Prop :=
  ∃ m1 m2 rest, rt_check (dc_requestTime ctx) = m1 :: m2 :: rest ∧ mo_now m2 < mo_now m1 + waitTimeoutMs o ∧
    redis_get (mo_now m1) (mo_others m1 r) (batch_key user rid) = Some text ∧
    redis_get (mo_now m2) (mo_others m2 (mo_others m1 r)) (batch_key user rid) = Some text.

(** It gets the cached result, and no command runs. *)
Lemma cached_answer_is_returned {D E} (ctx : DispatchContext D E) nested o commands user rid inherited text result (t : RunState D E (Sinks (QueuedHook E))) :
  rid ≠ "" → dc_idempotency ctx = Some o → commands ≠ [] → is_pending text = false → dc_decode ctx text = Some result →
  finds ctx o user rid (rs_redis t) text →
  ∃ redis, runBatch ctx nested commands user (Some rid) inherited t = Some (Ok result, set_redis redis t).
Proof.
  intros Hrid Ho Hne Hpend Hdec (m1 & m2 & rest & Hm & Hlt & H1 & H2).
  assert (Hcheck : check o (batch_key user rid) (rt_check (dc_requestTime ctx)) (rs_redis t) AtCheck
                   = (Cached text, mo_others m2 (mo_others m1 (rs_redis t)))).
  { rewrite Hm. cbn [check]. unfold request_step at 1, tryAcquire, redis_set_nx. rewrite H1. cbn [check].
    unfold request_step. rewrite (proj2 (Z.ltb_lt _ _) Hlt), H2, Hpend. by destruct rest. }
  destruct commands as [|cmd commands]; [done|]. exists (mo_others m2 (mo_others m1 (rs_redis t))).
  unfold runBatch, with_fresh_sinks, runBatchBody, checkBatchIdempotency, guarded_request, bind. rewrite Ho, decide_False by done.
  cbn [rs_redis set_sinks]. rewrite Hcheck, Hdec. by destruct t.
Qed.

(** ** The key of a request *)

Section request_key.
Context {D E : Type} (ctx : DispatchContext D E) (user : Principal) (rid : string).
Notation Run := (RunState D E (Sinks (QueuedHook E))).
Notation any_hook := (λ (_ : string) (_ : Principal) (_ : WriteOrigin), True).
Notation key := (batch_key user rid).
Notation now := (mo_now (rt_answer (dc_requestTime ctx))).
Notation others := (mo_others (rt_answer (dc_requestTime ctx))).
#[local] Set Default Proof Using "Type".

Definition key_kept (s s' : Run) : Prop := rs_redis s' !! key = rs_redis s !! key.

Lemma key_kept_indifferent : Indifferent key_kept.
Proof.
  unfold key_kept. split; simpl; try done; [by intros s s' (_ & -> & _)|congruence|].
  intros s ttlOption t eventId. unfold dedup_tryAcquire. destruct (redis_set_nx _ _ _ _ _) as [r|] eqn:Hset; [|done].
  unfold redis_set_nx in Hset. destruct (redis_get _ _ _); [done|]. injection Hset as <-. simpl. by rewrite lookup_insert_ne.
Qed.

Notation everywhere := (λ (_ : string) (_ : HandlerContextScope), True).
Notation always := (λ (_ : string) (_ : Principal) (_ : WriteOrigin) (_ : bool), True).

Lemma key_well_behaved nested :
  (∀ sc asUser target payload, spec any_hook false key_kept anything (nested sc asUser target payload)) →
  WellBehaved ctx everywhere any_hook false key_kept nested always.
Proof. intros Hn. by apply indifferent_well_behaved; [apply key_kept_indifferent|..]. Qed.

Lemma key_batch_behaved : BatchWellBehaved ctx everywhere any_hook key_kept always.
Proof.
  split; try done.
  - intros. split; [done|]. intros de r _. by destruct r.
  - intros. split; [done|]. intros de r _. by destruct r as [? []|].
Qed.

Lemma key_frame : Frame ctx key_kept.
Proof. apply indifferent_frame, key_kept_indifferent. Qed.

Lemma key_children : ChildrenOk ctx always.
Proof. done. Qed.

Lemma key_writeAsUser fuel sc asUser target payload :
  spec any_hook false key_kept anything (writeAsUser ctx fuel sc asUser target payload).
Proof.
  revert sc asUser target payload. induction fuel as [|fuel IH]; intros sc asUser target payload; [done|].
  pose proof (key_well_behaved _ IH) as HW.
  eapply (spec_writeAsUser ctx everywhere); [apply key_frame|exact HW|apply key_children|done|done|]. intros _.
  eapply (spec_runBatch ctx everywhere); [apply key_frame|exact HW|apply key_children|apply key_batch_behaved|done|].
  eapply (idempotency_ok_without ctx everywhere); [apply key_frame|exact HW|apply key_children|apply key_batch_behaved].
Qed.

Context (o : IdempotencyOptions) (token : string) (Hrid : rid ≠ "") (Ho : dc_idempotency ctx = Some o).
#[local] Set Default Proof Using "Type*".

Lemma request_is_guarded : guarded_request ctx (Some rid) = Some (rid, o).
Proof. unfold guarded_request. by rewrite Ho, decide_False. Qed.

(** How the answer of a request changes Redis: only while the key is still
    held by the token. *)
Definition answered (keeps : Prop) (r r' : Redis) (result : BatchResult) : Prop :=
  if decide (redis_get now r key = Some token) then
    r' = <[key := (dc_encode ctx result, now + ttl o * 1000)]> r ∨
    r' = delete key r ∧ keeps ∧ ∃ e index results, result = BatchFailed e index results ∧ is_retryable e = true
  else r' = r.

Lemma finalize_answers commands r keeps (s s' : Run) result :
  finalize ctx commands user (Some rid) (Some token) r s = Some (Ok result, s') →
  answered keeps (others (rs_redis s)) (rs_redis s') result.
Proof.
  unfold finalize. rewrite request_is_guarded. intros [= <- <-]. unfold answered, storeScript. simpl. case_decide; [by left|done].
Qed.

Lemma releaseOrFinalize_answers commands r b (s s' : Run) result (keeps : Prop) :
  (b = true → (rs_db s' = rs_db s → keeps) ∧ ∃ e index results, r = BatchFailed e index results ∧ is_retryable e = true) →
  releaseOrFinalize ctx commands user (Some rid) (Some token) r b s = Some (Ok result, s') →
  answered keeps (others (rs_redis s)) (rs_redis s') result.
Proof.
  intros Hb. unfold releaseOrFinalize. rewrite request_is_guarded. destruct b; [|apply finalize_answers].
  intros [= <- <-]. destruct (Hb eq_refl) as (Hk & e & index & results & -> & He). unfold answered, releaseScript. simpl.
  case_decide; [|done]. right. split_and!; [done|by apply Hk|]. by eexists _, _, _.
Qed.

Lemma retry_is_failure nested commands inherited reserved releases (s s' : Run) result :
  batch_in_transaction ctx nested commands user inherited reserved releases s = Some (Ok (result, true), s') →
  ∃ e index results, result = BatchFailed e index results ∧ is_retryable e = true.
Proof.
  unfold batch_in_transaction. intros Hr. apply bind_returns in Hr as ([[fin []] completed] & s1 & _ & Hr);
    repeat (apply bind_returns in Hr as (? & ? & _ & Hr)); injection Hr as <- Hb _; [done|by eexists _, _, _|].
  apply andb_true_iff in Hb as []. by eexists _, _, _.
Qed.

(** What the batch did to Redis before the answer leaves the key alone. *)
Definition answers (keeps : Prop) (s s' : Run) (result : BatchResult) : Prop :=
  ∃ r, r !! key = rs_redis s !! key ∧ answered keeps (others r) (rs_redis s') result.

Lemma answers_after keeps (s s1 s' : Run) result :
  key_kept s s1 → answered keeps (others (rs_redis s1)) (rs_redis s') result → answers keeps s s' result.
Proof. intros Hk Ha. by exists (rs_redis s1). Qed.

Lemma kept_after {A V} (m : M D E (Sinks (QueuedHook E)) A) s s1 r s' :
  state_ok any_hook key_kept s1 → key_kept s s1 → spec any_hook false key_kept V m → m s1 = Some (r, s') → key_kept s s'.
Proof.
  intros Hok Hk Hm Hrun. specialize (Hm s1 Hok). rewrite Hrun in Hm. destruct Hm as (_ & Hk' & _).
  by apply (in_trans _ key_kept_indifferent s s1).
Qed.

Lemma checked_answers fuel commands inherited (s s' : Run) result :
  idle s →
  runCheckedBatch ctx (writeAsUser ctx fuel) commands user (Some rid) inherited (Some token) s = Some (Ok result, s') →
  answers (dc_hasDb ctx = true → Forall (plain_command ctx) commands → rs_db s' = rs_db s) s s' result.
Proof.
  intros Hidle. pose proof (key_well_behaved _ (key_writeAsUser fuel)) as HW. pose proof (idle_ok any_hook key_kept s Hidle) as Hok.
  assert (Hrefl : key_kept s s) by done.
  unfold runCheckedBatch. cbv zeta.
  destruct (perCommandBatchRejection ctx commands) as [rejection|].
  { intros Hr. apply (answers_after _ s s); [done|]. by eapply releaseOrFinalize_answers, Hr. }
  intros Hr. apply bind_returns in Hr as (reservations & s1 & Hreserve & Hr).
  pose proof (spec_reserveBeforeTransaction ctx everywhere any_hook false key_kept key_frame _ always HW key_children key_batch_behaved
                commands user) as Hspec.
  pose proof (kept_after _ s s _ _ Hok Hrefl Hspec Hreserve) as Hk1. specialize (Hspec s Hok). rewrite Hreserve in Hspec.
  destruct Hspec as (Hs1 & _ & Hres). destruct reservations as [reserved releases|e index].
  - destruct Hres as [Hres Hrel]. destruct (negb (dc_hasDb ctx) || _) eqn:Hpath.
    + apply bind_returns in Hr as (r & s2 & Hrun & Hr). apply (answers_after _ s s2); [|by eapply finalize_answers].
      eapply kept_after, Hrun; [done..|]. by eapply (spec_batch_without_transaction ctx everywhere _ _ _ key_frame _ always HW key_children key_batch_behaved).
    + apply bind_returns in Hr as ([r b] & s2 & Hrun & Hr). apply (answers_after _ s s2).
      { eapply kept_after, Hrun; [done..|]. by eapply (spec_batch_in_transaction ctx everywhere _ _ _ key_frame _ always HW key_children key_batch_behaved). }
      eapply releaseOrFinalize_answers; [|exact Hr].
      simpl. intros ->. split; [|by eapply retry_is_failure].
      intros Hsame Hdb Hplain. rewrite (plain_reservations ctx _ user s Hplain) in Hreserve. injection Hreserve as <- <- <-.
      rewrite Hsame. pose proof (retry_is_failure _ _ _ _ _ _ _ _ Hrun) as (e & index & results & -> & _).
      apply failed_transaction in Hrun as (_ & Hback & _); [|done]. apply Hback. by left.
  - apply (answers_after _ s s1); [done|]. eapply releaseOrFinalize_answers; [|exact Hr]. intros He. split; [|by eexists _, _, _].
    intros _ _ Hplain. by rewrite (plain_reservations ctx _ user s Hplain) in Hreserve.
Qed.

(** C9: How a request leaves its key.  A batch with a request id that has claimed the key (by the commands of
    [Idempotency.check], with the clock and the other clients of Redis at each of them) and returns a result
    leaves the key alone until it comes to its answer, at a later time and after whatever others did.  If the
    key then still holds its token, either the key is set to exactly the masked result that is returned, for
    the time to live, and a retry whose first two Redis commands find that text gets this result and runs
    nothing; or the key is free again and the result is a retryable failure, for which the database is as it
    was before the batch (if its commands need no phase outside the transaction).  If the lock has expired or
    was claimed by another request meanwhile, the request changes nothing in Redis, so it overwrites no claim
    or result of another.  (The retry takes an encoded result to be no pending marker and to decode to
    itself; a batch that throws answers nothing and its lock expires.) *)
Theorem claimed_request_is_answered fuel commands inherited (s s' : Run) since r0 result :
  idle s → commands ≠ [] →
  check o key (rt_check (dc_requestTime ctx)) (rs_redis s) AtCheck = (Owner token since, r0) →
  runBatch ctx (writeAsUser ctx fuel) commands user (Some rid) inherited s = Some (Ok result, s') →
  ∃ r, r !! key = r0 !! key ∧
    if decide (redis_get now (others r) key = Some token) then
      (rs_redis s' = <[key := (dc_encode ctx result, now + ttl o * 1000)]> (others r) ∧
       ∀ (ctx' : DispatchContext D E) nested (t : Run),
         dc_idempotency ctx' = Some o → dc_decode ctx' (dc_encode ctx result) = Some result →
         is_pending (dc_encode ctx result) = false → finds ctx' o user rid (rs_redis t) (dc_encode ctx result) →
         ∃ redis, runBatch ctx' nested commands user (Some rid) inherited t = Some (Ok result, set_redis redis t)) ∨
      rs_redis s' = delete key (others r) ∧
      (∃ e index results, result = BatchFailed e index results ∧ is_retryable e = true) ∧
      (dc_hasDb ctx = true → Forall (plain_command ctx) commands → rs_db s' = rs_db s)
    else rs_redis s' = others r.
Proof.
  intros [Hk Hres] Hne Hclaim Hrun. unfold runBatch, with_fresh_sinks in Hrun.
  destruct (runBatchBody _ _ _ _ _ _ (set_sinks no_hooks s)) as [[r1 s1]|] eqn:Hbody; [|done]. injection Hrun as -> <-. simpl.
  destruct commands as [|cmd commands]; [done|]. set (all := cmd :: commands) in *.
  set (s0 := set_redis r0 (set_sinks no_hooks s)).
  assert (Hbody' : runCheckedBatch ctx (writeAsUser ctx fuel) all user (Some rid) inherited (Some token) s0 = Some (Ok result, s1)).
  { unfold runBatchBody, all in Hbody. unfold bind at 1, checkBatchIdempotency in Hbody. rewrite request_is_guarded in Hbody.
    cbn [rs_redis set_sinks] in Hbody. by rewrite Hclaim in Hbody. }
  apply checked_answers in Hbody' as (r & Hr & Ha); [|done]. exists r. split; [exact Hr|]. unfold answered in Ha.
  case_decide; [|exact Ha]. destruct Ha as [Ha|(Ha & Hdb & Hf)]; [left|by right]. split; [exact Ha|].
  intros ctx' nested t Ho' Hdec Hpend Hfinds. by eapply cached_answer_is_returned.
Qed.
End request_key.

(** ** Foreign keys of nested children *)

(** The items of a nested relation become one [NestedSpec]. *)
Lemma extract_relations_complete parsed source relations acc ex key target foreignKey items :
  extract_relations parsed source acc relations = Ok ex →
  (key, HasMany target foreignKey true) ∈ relations → assoc_get key source = Some (JArr items) →
  ∃ subType, mkSpec key subType foreignKey items ∈ ex_specs ex.
Proof.
  intros Hex Hin Hs. revert acc Hex. assert (Hkeep : ∀ relations acc ex, extract_relations parsed source acc relations = Ok ex → ∀ spec, spec ∈ ex_specs acc → spec ∈ ex_specs ex).
  { clear. induction relations as [|r relations IH]; intros acc ex Hex spec Hspec; simpl in Hex; [by simplify_eq|].
    destruct (extract_relation parsed source acc r) as [acc'|] eqn:Hacc; [|done]. apply (IH acc' ex Hex).
    unfold extract_relation in Hacc. destruct r as [k [t f []|]]; simpl in Hacc; try by simplify_eq.
    destruct (assoc_get k source) as [[]|]; try by simplify_eq. destruct (qn _ _ _); [|done]. simplify_eq/=. set_solver. }
  induction relations as [|r relations IH]; intros acc Hex; [set_solver|]. simpl in Hex. apply elem_of_cons in Hin as [<-|Hin].
  - unfold extract_relation in Hex. simpl in Hex. rewrite Hs in Hex. destruct (qn _ _ _) as [subType|]; [|done].
    exists subType. eapply Hkeep; [exact Hex|]. set_solver.
  - destruct (extract_relation parsed source acc r) as [acc'|]; [|done]. by apply (IH Hin acc').
Qed.

(** A client never chooses the parent of a nested child: a create whose
    payload carries the foreign key of a nested relation in one of its items is
    refused with that path among the issues (or throws for a relation without a
    valid handler name), and nothing runs. *)
Theorem nested_foreign_key_is_refused {D E S} `{!SinkOps (QueuedHook E) S} (ctx : DispatchContext D E) nested type source user origin tx
    (s : RunState D E S) parsed entity key target foreignKey items i item :
  parseQn type = Ok parsed → ends_with ":create" (pq_name parsed) = true → gr_handlerEntity (dc_reg ctx) type = Some entity →
  (key, HasMany target foreignKey true) ∈ dc_relations ctx entity → assoc_get key source = Some (JArr items) →
  items !! i = Some item → carries_key foreignKey item = true →
  (∃ t, executeNestedWrite ctx nested type (JObj source) user origin tx s = Some (Err t, s)) ∨
  ∃ issues, mkIssue (key +:+ "." +:+ pretty i +:+ "." +:+ foreignKey) "unexpected_field" ∈ issues ∧
    executeNestedWrite ctx nested type (JObj source) user origin tx s = Some (Ok (DFailure (ValidationError issues)), s).
Proof.
  intros Hp Hc He Hr Hs Hi Hk. unfold executeNestedWrite, extractNestedSpecs. rewrite Hp, Hc, He. simpl.
  destruct (extract_relations parsed source (mkExtracted source [] []) (dc_relations ctx entity)) as [ex|] eqn:Hex; simpl; [|by left; eexists].
  destruct (extract_relations_complete _ _ _ _ _ _ _ _ _ Hex Hr Hs) as [subType Hspec].
  assert (Hissue : mkIssue (key +:+ "." +:+ pretty i +:+ "." +:+ foreignKey) "unexpected_field" ∈ collectNestedForeignKeyIssues ex).
  { unfold collectNestedForeignKeyIssues. apply elem_of_app. right. apply list_elem_of_bind. exists (mkSpec key subType foreignKey items).
    split; [|done]. unfold foreign_key_issues. simpl. apply list_elem_of_In, in_concat. eexists. split.
    - apply list_elem_of_In, elem_of_lookup_imap. exists i, item. by split.
    - rewrite Hk. left. unfold item_path. simpl. by rewrite <- !string_app_assoc. }
  right. destruct (ex_specs ex) as [|spec specs] eqn:Hspecs; [set_solver|].
  destruct (collectNestedForeignKeyIssues ex) as [|issue issues] eqn:Hcol; [set_solver|]. by exists (issue :: issues).
Qed.

(** ** Witnesses *)

Lemma shop_is_plain commands : Forall (plain_command shop) commands.
Proof. apply Forall_true. intros cmd h Hh. destruct (shop_has_no_phases _ h Hh) as (? & ? & ?). done. Qed.

Definition declined_commands : list BatchCommand :=
  [mkCommand "shop:write:order:create" order_with_lines; mkCommand "shop:write:payment:create" (JObj [])].

Notation declined_run := (runBatch shop (writeAsUser shop 1) declined_commands shop_clerk None None shop_start).

Definition is_failure {A} (r : option (result Thrown BatchResult * A)) : bool :=
  match r with Some (Ok (BatchFailed _ _ _), _) => true | _ => false end.

Lemma declined_run_fails : is_failure declined_run = true.
Proof. vm_compute. reflexivity. Qed.

Lemma failed_batch_undoes_everything_witness :
  ∃ r s', declined_run = Some (r, s') ∧ rs_db s' = [] ∧ only_direct shop_start s'.
Proof.
  pose proof declined_run_fails as Hf. destruct declined_run as [[r s']|] eqn:Hrun; [|discriminate Hf].
  exists r, s'. split; [reflexivity|].
  apply (failed_batch_undoes_everything shop 1 declined_commands shop_clerk None None shop_start s' r shop_start_idle eq_refl
           (shop_is_plain _) ltac:(intros d t applied H; discriminate H) Hrun).
  intros results ->. discriminate Hf.
Defined.

Notation request_run :=
  (runBatch shop (writeAsUser shop 2) [mkCommand "shop:write:visit:create" (JObj [])] shop_clerk (Some "r1") None shop_start).

Lemma request_run_returns : match request_run with Some (Ok _, _) => true | _ => false end = true.
Proof. vm_compute. reflexivity. Qed.

Lemma request_claim :
  check (mkIdempotency None None None) (batch_key shop_clerk "r1") [mkMoment 0 "id1" id] ∅ AtCheck
  = (Owner "__pending__:id1" 0, <[batch_key shop_clerk "r1" := ("__pending__:id1", 30000%Z)]> ∅).
Proof. vm_compute. reflexivity. Qed.

(** The lock of a request that answers after forty seconds was taken over. *)
Definition late_shop : DispatchContext (list string) (list string) :=
  shop_at (mkRequestTime [mkMoment 0 "id1" id]
    (mkMoment 40000 "" (<[batch_key shop_clerk "r1" := ("__pending__:id2", 65000%Z)]>))).

Example late_answer_is_dropped :
  (λ p, redis_get 40000 (rs_redis p.2) (batch_key shop_clerk "r1")) <$>
    runBatch late_shop (writeAsUser late_shop 2) [mkCommand "shop:write:visit:create" (JObj [])] shop_clerk (Some "r1") None shop_start
  = Some (Some "__pending__:id2").
Proof. vm_compute. reflexivity. Qed.

Lemma claimed_request_is_answered_witness :
  ∃ result s', request_run = Some (Ok result, s') ∧
    ∃ r, r !! batch_key shop_clerk "r1" = Some ("__pending__:id1", 30000%Z) ∧
      (redis_get 20000 r (batch_key shop_clerk "r1") = Some "__pending__:id1" →
       redis_get 20000 (rs_redis s') (batch_key shop_clerk "r1") = Some (dc_encode shop result) ∨
       rs_redis s' !! batch_key shop_clerk "r1" = None).
Proof.
  pose proof request_run_returns as Hr. destruct request_run as [[[result|t] s']|] eqn:Hrun; [|discriminate Hr..].
  exists result, s'. split; [reflexivity|].
  destruct (claimed_request_is_answered shop shop_clerk "r1" (mkIdempotency None None None) "__pending__:id1" ltac:(discriminate) eq_refl 2
              [mkCommand "shop:write:visit:create" (JObj [])] None shop_start s' 0 _ result shop_start_idle ltac:(discriminate)
              request_claim Hrun) as (r & Hk & Hans).
  exists r. split; [rewrite Hk; vm_compute; reflexivity|]. intros Hheld. simpl in Hans. rewrite decide_True in Hans by exact Hheld.
  destruct Hans as [[-> _]|[-> _]]; [left|right; apply lookup_delete_eq].
  rewrite redis_get_insert. reflexivity.
Defined.

Definition forged_lines : Row := [("lines", JArr [JObj []; JObj [("orderId", JStr "o9")]])].

Lemma nested_foreign_key_is_refused_witness :
  (∃ t, executeNestedWrite shop (writeAsUser shop 1) "shop:write:order:create" (JObj forged_lines) shop_clerk
          (mkOrigin "shop:write:order:create" false false None) true shop_start = Some (Err t, shop_start)) ∨
  ∃ issues, mkIssue "lines.1.orderId" "unexpected_field" ∈ issues ∧
    executeNestedWrite shop (writeAsUser shop 1) "shop:write:order:create" (JObj forged_lines) shop_clerk
      (mkOrigin "shop:write:order:create" false false None) true shop_start = Some (Ok (DFailure (ValidationError issues)), shop_start).
Proof.
  apply (nested_foreign_key_is_refused shop (writeAsUser shop 1) "shop:write:order:create" forged_lines shop_clerk
           (mkOrigin "shop:write:order:create" false false None) true shop_start (mkParsedQn "shop" "write" "order:create") "order" "lines" "line"
           "orderId" [JObj []; JObj [("orderId", JStr "o9")]] 1 (JObj [("orderId", JStr "o9")])); try reflexivity. left.
Defined.
