(* ===== verification/Cursor.v ===== *)
(** * Paging cursors

    [db/cursor.ts]: a cursor is the base64url text of an id, or of a JSON object
    with an id and the sort value the page ended at.  Strings are their UTF-8
    bytes.  [Buffer.from(text, "base64url")], [JSON.stringify] of the payload
    and [JSON.parse] are written out on them: the decoder skips characters
    outside the alphabet and drops trailing bits, and the parser accepts JSON
    and nothing else.  Bytes that are not UTF-8 stay as they are. *)

From Stdlib Require Import Ascii.
From S2P Require Import Prelude.

Open Scope string_scope.
Open Scope N_scope.

(** ** base64url *)

Definition base64url_alphabet : string := "ABCDEFGHIJKLMNOPQRSTUVWXYZabcdefghijklmnopqrstuvwxyz0123456789-_".

Definition sextet_char (n : N) : ascii := default zero (String.get (N.to_nat n) base64url_alphabet).

(** The value of a character; the plain alphabet's [+] and [/] are accepted. *)
Definition char_sextet (c : ascii) : option N :=
  let n := N_of_ascii c in
  if (65 <=? n) && (n <=? 90) then Some (n - 65)
  else if (97 <=? n) && (n <=? 122) then Some (n - 71)
  else if (48 <=? n) && (n <=? 57) then Some (n + 4)
  else if (n =? 45) || (n =? 43) then Some 62
  else if (n =? 95) || (n =? 47) then Some 63
  else None.

Fixpoint base64url_encode (s : string) : string :=
  match s with
  | String a (String b (String c rest)) =>
      let n := N_of_ascii a * 65536 + N_of_ascii b * 256 + N_of_ascii c in
      String (sextet_char (n / 262144)) (String (sextet_char (n / 4096 mod 64))
        (String (sextet_char (n / 64 mod 64)) (String (sextet_char (n mod 64)) (base64url_encode rest))))
  | String a (String b EmptyString) =>
      let n := N_of_ascii a * 1024 + N_of_ascii b * 4 in
      String (sextet_char (n / 4096)) (String (sextet_char (n / 64 mod 64)) (String (sextet_char (n mod 64)) ""))
  | String a EmptyString =>
      let n := N_of_ascii a * 16 in
      String (sextet_char (n / 64)) (String (sextet_char (n mod 64)) "")
  | EmptyString => ""
  end.

Fixpoint sextets (s : string) : list N :=
  match s with
  | EmptyString => []
  | String c s' => match char_sextet c with Some n => n :: sextets s' | None => sextets s' end
  end.

Fixpoint sextet_bytes (l : list N) : string :=
  match l with
  | w :: x :: y :: z :: rest =>
      let n := w * 262144 + x * 4096 + y * 64 + z in
      String (ascii_of_N (n / 65536)) (String (ascii_of_N (n / 256 mod 256)) (String (ascii_of_N (n mod 256)) (sextet_bytes rest)))
  | [w; x; y] =>
      let n := w * 1024 + x * 16 + y / 4 in String (ascii_of_N (n / 256)) (String (ascii_of_N (n mod 256)) "")
  | [w; x] => String (ascii_of_N (w * 4 + x / 16)) ""
  | _ => ""
  end.

Definition base64url_decode (s : string) : string := sextet_bytes (sextets s).

Definition encodeCursor (id : string) : string := base64url_encode id.

Inductive CursorError := InvalidCursor (cursor : string).

Definition decodeCursor (cursor : string) : result CursorError string :=
  let decoded := base64url_decode cursor in
  if decide (decoded = "") then Err (InvalidCursor cursor) else Ok decoded.

(** ** JSON text *)

Definition quote : ascii := "034"%char.
Definition backslash : ascii := "092"%char.

Definition hex_char (n : N) : ascii := ascii_of_N (if n <? 10 then n + 48 else n + 87).

Definition hex_value (c : ascii) : option N :=
  let n := N_of_ascii c in
  if (48 <=? n) && (n <=? 57) then Some (n - 48)
  else if (97 <=? n) && (n <=? 102) then Some (n - 87)
  else if (65 <=? n) && (n <=? 70) then Some (n - 55)
  else None.

Definition escape_char (c : ascii) : string :=
  let n := N_of_ascii c in
  let short (x : ascii) := String backslash (String x "") in
  if n =? 34 then short quote
  else if n =? 92 then short backslash
  else if n =? 8 then short "b"%char
  else if n =? 12 then short "f"%char
  else if n =? 10 then short "n"%char
  else if n =? 13 then short "r"%char
  else if n =? 9 then short "t"%char
  else if n <? 32 then String backslash ("u00" +:+ String (hex_char (n / 16)) (String (hex_char (n mod 16)) ""))
  else String c "".

Fixpoint escape (s : string) : string :=
  match s with EmptyString => "" | String c s' => escape_char c +:+ escape s' end.

Definition json_string (s : string) : string := String quote (escape s +:+ String quote "").

(** [JSON.stringify] of a value. *)
Fixpoint stringify (v : Json) : string :=
  match v with
  | JNull => "null"
  | JBool b => if b then "true" else "false"
  | JNum n => pretty n
  | JStr s => json_string s
  | JArr l => "[" +:+ join_with "," (map stringify l) +:+ "]"
  | JObj kvs => "{" +:+ join_with "," (map (λ kv, json_string kv.1 +:+ ":" +:+ stringify kv.2) kvs) +:+ "}"
  end.

(** A JSON value; numbers are kept as they are written. *)
#[local] Unset Elimination Schemes.
Inductive JsonValue :=
| VNull
| VBool (b : bool)
| VNumber (lexeme : string)
| VString (s : string)
| VArray (items : list JsonValue)
| VObject (members : list (string * JsonValue)).
#[local] Set Elimination Schemes.

(** UTF-8 of a code point; a lone surrogate has none and is replaced. *)
Definition utf8 (codePoint : N) : string :=
  let n := if (55296 <=? codePoint) && (codePoint <? 57344) then 65533 else codePoint in
  let byte n s := String (ascii_of_N n) s in
  if n <? 128 then byte n ""
  else if n <? 2048 then byte (192 + n / 64) (byte (128 + n mod 64) "")
  else if n <? 65536 then byte (224 + n / 4096) (byte (128 + n / 64 mod 64) (byte (128 + n mod 64) ""))
  else byte (240 + n / 262144) (byte (128 + n / 4096 mod 64) (byte (128 + n / 64 mod 64) (byte (128 + n mod 64) ""))).

Definition hex4 (a b c d : ascii) : option N :=
  match hex_value a, hex_value b, hex_value c, hex_value d with
  | Some a, Some b, Some c, Some d => Some (a * 4096 + b * 256 + c * 16 + d)
  | _, _, _, _ => None
  end.

Definition short_escape (c : ascii) : option ascii :=
  let n := N_of_ascii c in
  if (n =? 34) || (n =? 92) || (n =? 47) then Some c
  else if n =? 98 then Some "008"%char
  else if n =? 102 then Some "012"%char
  else if n =? 110 then Some "010"%char
  else if n =? 114 then Some "013"%char
  else if n =? 116 then Some "009"%char
  else None.

(** The rest of a string literal after its opening quote, with what follows it.
    A surrogate pair is one code point. *)
Fixpoint parse_string (s : string) : option (string * string) :=
  let prepend (p : string) (r : option (string * string)) := (λ x, (p +:+ x.1, x.2)) <$> r in
  match s with
  | EmptyString => None
  | String c s1 =>
      if Ascii.eqb c quote then Some ("", s1)
      else if Ascii.eqb c backslash then
        match s1 with
        | EmptyString => None
        | String e s2 =>
            if Ascii.eqb e "u"%char then
              match s2 with
              | String h1 (String h2 (String h3 (String h4 s3))) =>
                  match hex4 h1 h2 h3 h4 with
                  | None => None
                  | Some n =>
                      match s3 with
                      | String b1 (String u1 (String l1 (String l2 (String l3 (String l4 s4))))) =>
                          if (55296 <=? n) && (n <? 56320) && Ascii.eqb b1 backslash && Ascii.eqb u1 "u"%char then
                            match hex4 l1 l2 l3 l4 with
                            | Some m =>
                                if (56320 <=? m) && (m <? 57344)
                                then prepend (utf8 (65536 + (n - 55296) * 1024 + (m - 56320))) (parse_string s4)
                                else prepend (utf8 n) (parse_string s3)
                            | None => None
                            end
                          else prepend (utf8 n) (parse_string s3)
                      | _ => prepend (utf8 n) (parse_string s3)
                      end
                  end
              | _ => None
              end
            else match short_escape e with Some x => prepend (String x "") (parse_string s2) | None => None end
        end
      else if N_of_ascii c <? 32 then None
      else prepend (String c "") (parse_string s1)
  end.

Fixpoint skip_ws (s : string) : string :=
  match s with
  | String c s' => let n := N_of_ascii c in if (n =? 32) || (n =? 9) || (n =? 10) || (n =? 13) then skip_ws s' else s
  | EmptyString => s
  end.

Definition is_digit (c : ascii) : bool := let n := N_of_ascii c in (48 <=? n) && (n <=? 57).

(** The digits a text starts with. *)
Fixpoint span_digits (s : string) : string * string :=
  match s with
  | String c s' => if is_digit c then let r := span_digits s' in (String c r.1, r.2) else ("", s)
  | EmptyString => ("", "")
  end.

(** A number literal: sign, integer without leading zeros, fraction, exponent. *)
Definition parse_number (s : string) : option (string * string) :=
  let sign := match s with String c s' => if Ascii.eqb c "-"%char then (String c "", s') else ("", s) | _ => ("", s) end in
  let int := span_digits sign.2 in
  match int.1 with
  | EmptyString => None
  | String d more =>
      if Ascii.eqb d "0"%char && negb (bool_decide (more = "")) then None
      else
        let fraction := match int.2 with
                        | String c s' => if Ascii.eqb c "."%char then
                                           let f := span_digits s' in
                                           match f.1 with EmptyString => None | _ => Some (String c f.1, f.2) end
                                         else Some ("", int.2)
                        | _ => Some ("", int.2)
                        end in
        match fraction with
        | None => None
        | Some (f, s2) =>
            match s2 with
            | String e s3 =>
                if Ascii.eqb e "e"%char || Ascii.eqb e "E"%char then
                  let esign := match s3 with
                               | String c s' => if Ascii.eqb c "-"%char || Ascii.eqb c "+"%char then (String c "", s') else ("", s3)
                               | _ => ("", s3)
                               end in
                  let digits := span_digits esign.2 in
                  match digits.1 with
                  | EmptyString => None
                  | _ => Some (sign.1 +:+ int.1 +:+ f +:+ String e (esign.1 +:+ digits.1), digits.2)
                  end
                else Some (sign.1 +:+ int.1 +:+ f, s2)
            | EmptyString => Some (sign.1 +:+ int.1 +:+ f, "")
            end
        end
  end.

Definition parse_keyword (word : string) (v : JsonValue) (s : string) : option (JsonValue * string) :=
  if starts_with word s then Some (v, slice_from (String.length word) s) else None.

(** The fuel bounds the number of values and separators. *)
Fixpoint parse_value (fuel : nat) (s : string) : option (JsonValue * string) :=
  match fuel with
  | O => None
  | S fuel =>
      match skip_ws s with
      | EmptyString => None
      | String c rest =>
          if Ascii.eqb c quote then (λ x, (VString x.1, x.2)) <$> parse_string rest
          else if Ascii.eqb c "{"%char then
            match skip_ws rest with
            | String d rest' => if Ascii.eqb d "}"%char then Some (VObject [], rest') else parse_members fuel rest []
            | EmptyString => None
            end
          else if Ascii.eqb c "["%char then
            match skip_ws rest with
            | String d rest' => if Ascii.eqb d "]"%char then Some (VArray [], rest') else parse_items fuel rest []
            | EmptyString => None
            end
          else match parse_keyword "null" VNull (String c rest), parse_keyword "true" (VBool true) (String c rest),
                     parse_keyword "false" (VBool false) (String c rest) with
               | Some r, _, _ | _, Some r, _ | _, _, Some r => Some r
               | None, None, None => (λ x, (VNumber x.1, x.2)) <$> parse_number (String c rest)
               end
      end
  end
with parse_members (fuel : nat) (s : string) (members : list (string * JsonValue)) : option (JsonValue * string) :=
  match fuel with
  | O => None
  | S fuel =>
      match skip_ws s with
      | String q rest =>
          if negb (Ascii.eqb q quote) then None
          else match parse_string rest with
               | None => None
               | Some (key, rest) =>
                   match skip_ws rest with
                   | String colon rest =>
                       if negb (Ascii.eqb colon ":"%char) then None
                       else match parse_value fuel rest with
                            | None => None
                            | Some (v, rest) =>
                                let members := assoc_set key v members in
                                match skip_ws rest with
                                | String c rest =>
                                    if Ascii.eqb c ","%char then parse_members fuel rest members
                                    else if Ascii.eqb c "}"%char then Some (VObject members, rest) else None
                                | EmptyString => None
                                end
                            end
                   | EmptyString => None
                   end
               end
      | EmptyString => None
      end
  end
with parse_items (fuel : nat) (s : string) (items : list JsonValue) : option (JsonValue * string) :=
  match fuel with
  | O => None
  | S fuel =>
      match parse_value fuel s with
      | None => None
      | Some (v, rest) =>
          match skip_ws rest with
          | String c rest =>
              if Ascii.eqb c ","%char then parse_items fuel rest (items ++ [v])
              else if Ascii.eqb c "]"%char then Some (VArray (items ++ [v]), rest) else None
          | EmptyString => None
          end
      end
  end.

Definition json_parse (s : string) : option JsonValue :=
  match parse_value (S (2 * String.length s)) s with
  | Some (v, rest) => if bool_decide (skip_ws rest = "") then Some v else None
  | None => None
  end.

(** ** Keyset cursors *)

(** [dk_sortValue]: [None] is undefined, [Some None] is null. *)
Record DecodedKeysetCursor := mkKeyset { dk_id : string; dk_sortValue : option (option string) }.

Definition keyset_payload (sortValue : option string) (id : string) : string :=
  "{" +:+ json_string "v" +:+ ":" +:+ match sortValue with None => "null" | Some v => json_string v end
      +:+ "," +:+ json_string "i" +:+ ":" +:+ json_string id +:+ "}".

Definition encodeKeysetCursor (sortValue : option string) (id : string) : string :=
  encodeCursor (keyset_payload sortValue id).

Definition parseKeysetPayload (decoded : string) : option DecodedKeysetCursor :=
  if negb (starts_with "{" decoded) then None
  else match json_parse decoded with
       | Some (VObject members) =>
           match assoc_get "i" members with
           | Some (VString i) =>
               if decide (i = "") then None
               else match assoc_get "v" members with
                    | Some VNull => Some (mkKeyset i (Some None))
                    | Some (VString v) => Some (mkKeyset i (Some (Some v)))
                    | _ => None
                    end
           | _ => None
           end
       | _ => None
       end.

Definition decodeKeysetCursor (cursor : string) : result CursorError DecodedKeysetCursor :=
  let? decoded := decodeCursor cursor in
  Ok (default (mkKeyset decoded None) (parseKeysetPayload decoded)).

Example keyset_cursor_text :
  encodeKeysetCursor (Some "a") "7" = "eyJ2IjoiYSIsImkiOiI3In0" ∧
  decodeKeysetCursor "eyJ2IjoiYSIsImkiOiI3In0" = Ok (mkKeyset "7" (Some (Some "a"))).
Proof. split; vm_compute; reflexivity. Qed.

Example legacy_cursor : decodeKeysetCursor (encodeCursor "42") = Ok (mkKeyset "42" None).
Proof. vm_compute. reflexivity. Qed.

(** ** base64url round trip *)

Lemma N_of_ascii_lt c : N_of_ascii c < 256.
Proof. by destruct c as [[] [] [] [] [] [] [] []]. Qed.

Lemma sextet_chars : Forall (λ n, char_sextet (sextet_char n) = Some n) (N.of_nat <$> seq 0 64).
Proof. apply (bool_decide_unpack _). vm_compute. exact I. Qed.

Lemma char_sextet_char n : n < 64 → char_sextet (sextet_char n) = Some n.
Proof.
  intros Hn. pose proof sextet_chars as Hall. rewrite Forall_forall in Hall. apply Hall.
  apply list_elem_of_fmap. exists (N.to_nat n). split; [lia|]. apply elem_of_seq. lia.
Qed.

#[local] Ltac Zify.zify_post_hook ::= Z.to_euclidean_division_equations.

Lemma byte_of n c : n = N_of_ascii c → ascii_of_N n = c.
Proof. intros ->. apply ascii_N_embedding. Qed.

Lemma sextets_cons n s : n < 64 → sextets (String (sextet_char n) s) = n :: sextets s.
Proof. intros Hn. simpl. by rewrite char_sextet_char. Qed.

Lemma base64url_round_trip s : base64url_decode (base64url_encode s) = s.
Proof.
  unfold base64url_decode. revert s. fix IH 1. intros [|a [|b [|c s]]]; [done|..].
  - pose proof (N_of_ascii_lt a) as Ha. cbn [base64url_encode]. rewrite !sextets_cons by lia.
    cbn [sextets sextet_bytes]. f_equal. apply byte_of. lia.
  - pose proof (N_of_ascii_lt a) as Ha. pose proof (N_of_ascii_lt b) as Hb. cbn [base64url_encode].
    rewrite !sextets_cons by lia. cbn [sextets sextet_bytes]. repeat f_equal; apply byte_of; lia.
  - pose proof (N_of_ascii_lt a) as Ha. pose proof (N_of_ascii_lt b) as Hb. pose proof (N_of_ascii_lt c) as Hc.
    cbn [base64url_encode]. rewrite !sextets_cons by lia. cbn [sextet_bytes].
    f_equal; [|f_equal; [|f_equal; [|apply IH]]]; apply byte_of; lia.
Qed.

#[local] Ltac Zify.zify_post_hook ::= idtac.

(** ** JSON round trip *)

Definition prepend (p : string) (r : option (string * string)) : option (string * string) :=
  (λ x, (p +:+ x.1, x.2)) <$> r.

(** Every character is read back from its escaped form. *)
Lemma parse_escape_char c t : parse_string (escape_char c +:+ t) = prepend (String c "") (parse_string t).
Proof.
  destruct c as [[] [] [] [] [] [] [] []];
    first [reflexivity | destruct t as [|? [|? [|? [|? [|? [|? t]]]]]]; reflexivity].
Qed.

Lemma parse_escape s r : parse_string (escape s +:+ String quote r) = Some (s, r).
Proof.
  induction s as [|c s IH]; [done|]. cbn [escape]. rewrite <- string_app_assoc, parse_escape_char, IH. done.
Qed.

Lemma json_string_app s r : json_string s +:+ r = String quote (escape s +:+ String quote r).
Proof. unfold json_string. change (String quote ((escape s +:+ String quote "") +:+ r) = String quote (escape s +:+ String quote r)). by rewrite <- string_app_assoc. Qed.

Lemma skip_ws_quote s : skip_ws (String quote s) = String quote s.
Proof. done. Qed.

Lemma skip_ws_colon s : skip_ws (":" +:+ s) = ":" +:+ s.
Proof. done. Qed.

Lemma parse_value_string fuel s r : parse_value (S fuel) (json_string s +:+ r) = Some (VString s, r).
Proof. rewrite json_string_app. cbn [parse_value]. by rewrite skip_ws_quote, Ascii.eqb_refl, parse_escape. Qed.

Lemma parse_value_null fuel r : parse_value (S fuel) ("null" +:+ r) = Some (VNull, r).
Proof. cbn. by destruct r. Qed.

(** One member of an object, up to the separator behind its value. *)
Lemma parse_member fuel key value v sep members r :
  parse_value fuel (value +:+ String sep r) = Some (v, String sep r) → skip_ws (String sep r) = String sep r →
  parse_members (S fuel) (json_string key +:+ ":" +:+ value +:+ String sep r) members
  = let members := assoc_set key v members in
    if Ascii.eqb sep ","%char then parse_members fuel r members
    else if Ascii.eqb sep "}"%char then Some (VObject members, r) else None.
Proof.
  intros Hv Hs. rewrite json_string_app. cbn [parse_members].
  rewrite skip_ws_quote, Ascii.eqb_refl, parse_escape. cbn [negb]. rewrite skip_ws_colon.
  change (":" +:+ ?s) with (String ":"%char s). cbn [negb Ascii.eqb Bool.eqb]. rewrite Hv, Hs. done.
Qed.

Definition sort_json (sortValue : option string) : string * JsonValue :=
  match sortValue with None => ("null", VNull) | Some v => (json_string v, VString v) end.

Lemma parse_sort_json fuel sortValue r :
  parse_value (S fuel) ((sort_json sortValue).1 +:+ r) = Some ((sort_json sortValue).2, r).
Proof. destruct sortValue; [apply parse_value_string|apply parse_value_null]. Qed.

Lemma keyset_payload_parts sortValue id :
  keyset_payload sortValue id
  = "{" +:+ json_string "v" +:+ ":" +:+ (sort_json sortValue).1
        +:+ String ","%char (json_string "i" +:+ ":" +:+ json_string id +:+ String "}"%char "").
Proof. by destruct sortValue. Qed.

Lemma parse_object fuel key r :
  parse_value (S fuel) ("{" +:+ json_string key +:+ r) = parse_members fuel (json_string key +:+ r) [].
Proof. by rewrite json_string_app. Qed.

Lemma parse_keyset_payload fuel sortValue id :
  parse_value (S (S (S (S fuel)))) (keyset_payload sortValue id)
  = Some (VObject [("v", (sort_json sortValue).2); ("i", VString id)], "").
Proof.
  rewrite keyset_payload_parts, parse_object.
  rewrite (parse_member _ _ _ (sort_json sortValue).2 ","%char); [|by rewrite parse_sort_json|done].
  change (Ascii.eqb ","%char ","%char) with true. cbv zeta iota.
  rewrite (parse_member _ _ _ (VString id) "}"%char); [done|by rewrite parse_value_string|done].
Qed.

(** A cursor made from a page's last row is read back as it was. *)
Lemma keyset_cursor_decodes sortValue id :
  id ≠ "" →
  decodeKeysetCursor (encodeKeysetCursor sortValue id) = Ok (mkKeyset id (Some sortValue)).
Proof.
  intros Hid. unfold decodeKeysetCursor, decodeCursor, encodeKeysetCursor, encodeCursor.
  rewrite base64url_round_trip. set (p := keyset_payload sortValue id).
  assert (Hp : ∃ r, p = String "{"%char (String quote (String "v"%char (String quote r)))).
  { unfold p. rewrite keyset_payload_parts. by eexists. }
  destruct Hp as (r & Hr). assert (Hl : (4 ≤ String.length p)%nat) by (rewrite Hr; simpl; lia).
  assert (Hj : json_parse p = Some (VObject [("v", (sort_json sortValue).2); ("i", VString id)])).
  { unfold json_parse. replace (S (2 * String.length p)) with (S (S (S (S (2 * String.length p - 3))))) by lia.
    unfold p at 2. by rewrite parse_keyset_payload. }
  rewrite decide_False by by rewrite Hr. cbn [result_bind]. f_equal.
  assert (Hk : parseKeysetPayload p = Some (mkKeyset id (Some sortValue))); [|by rewrite Hk].
  unfold parseKeysetPayload. rewrite Hj, Hr. cbn -[assoc_get].
  change (assoc_get "i" _) with (Some (VString id)). change (assoc_get "v" _) with (Some (sort_json sortValue).2).
  cbv beta iota. rewrite decide_False by done. by destruct sortValue.
Qed.

(** A cursor made from an id alone is taken for one, unless it reads as a payload. *)
Lemma id_cursor_round_trip id :
  id ≠ "" → starts_with "{" id = false → decodeKeysetCursor (encodeCursor id) = Ok (mkKeyset id None).
Proof.
  intros Hid Hs. unfold decodeKeysetCursor, decodeCursor, encodeCursor.
  rewrite base64url_round_trip, decide_False by done. cbn [result_bind]. unfold parseKeysetPayload. by rewrite Hs.
Qed.

(** C37: a cursor is read back as it was made.  Decoding the text of a keyset
    cursor yields its id and its sort value, null told from a value, whatever
    characters they hold (quotes, backslashes, control characters); a cursor of
    an id alone yields the id without a sort value, unless the id itself reads
    as an object.  So two pages never end in the same cursor by accident. *)
Theorem keyset_cursor_round_trip (sortValue : option string) (id : string) (Hid : id ≠ "") :
  decodeKeysetCursor (encodeKeysetCursor sortValue id) = Ok (mkKeyset id (Some sortValue)) ∧
  (starts_with "{" id = false → decodeKeysetCursor (encodeCursor id) = Ok (mkKeyset id None)) ∧
  ∀ sortValue' id', id' ≠ "" → encodeKeysetCursor sortValue id = encodeKeysetCursor sortValue' id' →
    sortValue = sortValue' ∧ id = id'.
Proof.
  split; [by apply keyset_cursor_decodes|]. split; [by apply id_cursor_round_trip|]. intros sv' id' Hid' Heq.
  pose proof (keyset_cursor_decodes sortValue id Hid) as H. rewrite Heq, keyset_cursor_decodes in H by done. by simplify_eq.
Qed.

Lemma keyset_cursor_round_trip_witness :
  decodeKeysetCursor (encodeKeysetCursor (Some (String quote "e\")) "7") = Ok (mkKeyset "7" (Some (Some (String quote "e\")))).
Proof. apply (keyset_cursor_round_trip (Some (String quote "e\")) "7"). done. Defined.
