(* ===== verification/ListRead.v ===== *)
(** * Entity lists

    The [list] verb of [db/event-store-executor-read.ts] with its steps
    ([event-store-executor-read-where.ts], [-read-filter.ts], [-read-sort.ts],
    [-read-paging.ts]) and the guards on secret fields of
    [entity-field-encryption.ts].  The statement is a syntax tree with its
    printed form and its meaning on the rows of the table.

    Full-text search, aggregates and derived columns are left out.  The parent
    and read-gate clauses, the sort expressions of derived and reference fields
    and the lint of where-rules are arguments; rows are returned as stored. *)

From S2P Require Import Prelude TableInfo Ownership FieldAccess WhereClause TenantDb Cursor.

Open Scope list_scope.

(** ** Data *)

Inductive SortNulls := NullsFirst | NullsLast.

Record ListField := mkListField {
  lf_type : string;
  lf_multiple : bool;
  lf_read : option AccessEntry;
  lf_sortNulls : option SortNulls;
  lf_encrypted : bool;
  lf_sensitive : bool;
  lf_lookupable : bool;
  (** annotated with the subject whose data it holds *)
  lf_subject : bool }.

Record ListEntity := mkListEntity {
  le_fields : list (string * ListField);
  le_read : option OwnershipMap;
  le_softDelete : bool }.

(** The entity, the column handles of its table and the table. *)
Record ListContext := mkListContext {
  lc_entity : ListEntity;
  lc_handles : Table;
  lc_table : DbTable }.

Definition list_field (entity : ListEntity) (field : string) : option ListField := assoc_get field (le_fields entity).

Definition physicalColumnName (table : Table) (field : string) : string :=
  default (toSnakeCase field) (columnSqlName table field).

Definition has_handle (table : Table) (field : string) : bool :=
  match columnSqlName table field with Some _ => true | None => false end.

Inductive FilterOp := OpEq | OpNe | OpLt | OpGt | OpLte | OpGte | OpIn.

Record ListFilter := mkListFilter { f_field : string; f_op : FilterOp; f_value : Js }.

Inductive ListError :=
| ErrInvalidLimit
| ErrInvalidOffset
| ErrNotSoftDelete
| ErrNotFilterable (field : string)
| ErrWhereRule
| ErrCursor (e : CursorError).

Definition as_where_rule {A} (r : result () A) : result ListError A :=
  match r with Ok a => Ok a | Err _ => Err ErrWhereRule end.

(** ** Secret fields *)

Definition is_encrypted_field (f : ListField) : bool :=
  bool_decide (lf_type f = "text" ∨ lf_type f = "longText") && lf_encrypted f.

Definition isFileField (f : ListField) : bool :=
  bool_decide (lf_type f ∈ ["file"; "image"; "files"; "images"]).

Definition isSensitiveLabelField (entity : ListEntity) (field : string) : bool :=
  match list_field entity field with
  | None => false
  | Some f => is_encrypted_field f || (lf_subject f && negb (isFileField f))
  end.

Definition holdsCiphertextOrSecret (entity : ListEntity) (field : string) : bool :=
  match list_field entity field with
  | None => false
  | Some f => lf_sensitive f || isSensitiveLabelField entity field
  end.

Definition isBlindIndexEqualityTarget (entity : ListEntity) (field : string) : bool :=
  match list_field entity field with
  | None => false
  | Some f => bool_decide (lf_type f = "text") && lf_lookupable f && negb (lf_sensitive f) && negb (is_encrypted_field f)
  end.

Definition is_eq (op : FilterOp) : bool := match op with OpEq => true | _ => false end.

Definition isListFilterAllowed (entity : ListEntity) (field : string) (f : ListFilter) : bool :=
  if negb (holdsCiphertextOrSecret entity field) then true
  else isBlindIndexEqualityTarget entity field && is_eq (f_op f)
       && match f_value f with JsJson (JStr _) => true | _ => false end.

Definition isListSortAllowed (entity : ListEntity) (field : string) : bool := negb (holdsCiphertextOrSecret entity field).

(** ** Conditions *)

(** What the rows are ordered by: a column, or an expression with its text. *)
Inductive SortKey := KeyColumn (column : string) | KeyExpr (text : string) (value : gmap string Json → Json).

Inductive ListCond :=
| LCond (c : Cond)
| LOwned (s : Sql)
| LAnyOf (column sqlType : string) (n : nat)
| LKeyNull (k : SortKey)
| LKeyNotNull (k : SortKey)
| LKeyCompare (k : SortKey) (symbol : string) (n : nat)
| LAll (cs : list ListCond)
| LSome (cs : list ListCond).

(** Column names are written between quotes as they are. *)
Definition col_ref (column : string) : string := String dquote (column +:+ String dquote "").

Definition key_text (k : SortKey) : string :=
  match k with KeyColumn c => col_ref c | KeyExpr text _ => text end.

Fixpoint list_cond_text (c : ListCond) : string :=
  match c with
  | LCond c => cond_text col_ref c
  | LOwned s => sql_text s
  | LAnyOf col t n => col_ref col +:+ " = ANY(" +:+ placeholder n +:+ "::" +:+ t +:+ "[])"
  | LKeyNull k => key_text k +:+ " IS NULL"
  | LKeyNotNull k => key_text k +:+ " IS NOT NULL"
  | LKeyCompare k symbol n => key_text k +:+ " " +:+ symbol +:+ " " +:+ placeholder n
  | LAll cs => "(" +:+ join_with " AND " (map list_cond_text cs) +:+ ")"
  | LSome cs => "(" +:+ join_with " OR " (map list_cond_text cs) +:+ ")"
  end.

(** ** The WHERE under construction *)

Record ListWhere := mkListWhere { lw_conds : list ListCond; lw_params : list Bound }.

Definition push_cond (c : ListCond) (w : ListWhere) : ListWhere := mkListWhere (lw_conds w ++ [c]) (lw_params w).

(** [params.push(...values)]: the placeholders of the values. *)
Definition bind_values (values : list Bound) (w : ListWhere) : list nat * ListWhere :=
  (seq (S (length (lw_params w))) (length values), mkListWhere (lw_conds w) (lw_params w ++ values)).

Definition bind_value (value : Bound) (w : ListWhere) : nat * ListWhere :=
  (S (length (lw_params w)), mkListWhere (lw_conds w) (lw_params w ++ [value])).

Definition appendShiftedClause (f : SqlFragment) (w : ListWhere) : ListWhere :=
  let shifted := shiftParams f (length (lw_params w)) in
  mkListWhere (lw_conds w ++ [LOwned (sf_sql shifted)])
    (lw_params w ++ ((λ v, BoundValue (JsJson v)) <$> sf_params shifted)).

(** ** Filters *)

Definition declared_type (table : DbTable) (field : string) : option string :=
  cm_pgType <$> find (λ c, bool_decide (cm_name c = columnOf (info_of table) field)) (tm_columns (dt_meta table)).

Definition op_param (n : nat) : Operand := OpParam n NoCast.

Definition inListSql (ctx : ListContext) (field : string) (values : list Js) (w : ListWhere) : ListWhere :=
  let column := physicalColumnName (lc_handles ctx) field in
  let placeholders :=
    let (ns, w) := bind_values (BoundValue <$> values) w in
    push_cond (LCond (CIn column false (op_param <$> ns))) w in
  match declared_type (lc_table ctx) field with
  | Some t =>
      if bool_decide (t ∈ ["jsonb"; "serial"; "bigserial"]) then placeholders
      else let (n, w) := bind_value (BoundValue (JsArray values)) w in
           push_cond (LAnyOf column (pgTypeToSqlType t) n) w
  | None => placeholders
  end.

Definition push_false : ListWhere → ListWhere := push_cond (LCond CFalse).

Definition contains_cond (column : string) (n : nat) : Cond := CContains column (OpParam n CastTextJsonb).

(** [JSON.stringify] of a list, bound as text. *)
Definition json_array (values : list Js) : Bound := BoundJsonText (JsArray values).

Definition applyMultiSelectFilter (ctx : ListContext) (f : ListFilter) (w : ListWhere) : ListWhere :=
  let column := physicalColumnName (lc_handles ctx) (f_field f) in
  match f_op f with
  | OpLt | OpGt | OpLte | OpGte => push_false w
  | OpIn =>
      match as_array (f_value f) with
      | None | Some [] => push_false w
      | Some values =>
          let (ns, w) := bind_values ((λ v, json_array [v]) <$> values) w in
          push_cond (LCond (CAny (contains_cond column <$> ns))) w
      end
  | OpEq | OpNe =>
      match default [f_value f] (as_array (f_value f)) with
      | [] => push_false w
      | candidates =>
          let (n, w) := bind_value (json_array candidates) w in
          let containment := contains_cond column n in
          push_cond (LCond (match f_op f with OpNe => CNullOrNot column [containment] | _ => containment end)) w
      end
  end.

Definition buildFilterWhere (field : string) (op : FilterOp) (value : Js) : option WhereObject :=
  let operator key := Some [(field, JsObject [(key, value)])] in
  match op with
  | OpEq => Some [(field, value)]
  | OpNe => operator "ne"
  | OpLt => operator "lt"
  | OpGt => operator "gt"
  | OpLte => operator "lte"
  | OpGte => operator "gte"
  | OpIn => match as_array value with Some (_ :: _) => Some [(field, value)] | _ => None end
  end.

Definition opMap : list (string * string) := [("gt", ">"); ("gte", ">="); ("lt", "<"); ("lte", "<="); ("ne", "<>")].

Definition operator_conds (column : string) (o : list (string * Js)) (w : ListWhere) : ListWhere :=
  foldl (λ w op, match assoc_get op.1 o with
                 | None => w
                 | Some v => let (n, w) := bind_value (BoundValue v) w in
                             push_cond (LCond (CCompare column op.2 (op_param n))) w
                 end) w opMap.

(** The loop body over the entries of the screen filter. *)
Definition screen_entry (blindIndex : option (string → string)) (ctx : ListContext) (w : ListWhere)
    (entry : string * Js) : ListWhere :=
  let '(field, value) := entry in
  let column := physicalColumnName (lc_handles ctx) field in
  let equality :=
    let (n, w) := bind_value (BoundValue value) w in push_cond (LCond (CCompare column "=" (op_param n))) w in
  if is_null value then push_cond (LCond (CIsNull column)) w
  else match as_array value with
       | Some values => inListSql ctx field values w
       | None =>
           match as_object value with
           | Some o =>
               if is_null (js_get "ne" o) && (length o =? 1)%nat then push_cond (LCond (CIsNotNull column)) w
               else operator_conds column o w
           | None =>
               match blindIndex, value with
               | Some hmac, JsJson (JStr s) =>
                   let bidx := field +:+ "Bidx" in
                   if has_handle (lc_handles ctx) bidx then
                     let (n, w) := bind_value (BoundValue value) w in
                     let (m, w) := bind_value (BoundValue (JsJson (JStr (hmac s)))) w in
                     push_cond (LCond (CAny [CCompare column "=" (op_param n);
                                             CCompare (physicalColumnName (lc_handles ctx) bidx) "=" (op_param m)])) w
                   else equality
               | _, _ => equality
               end
           end
       end.

Definition applyScreenFilter (blindIndex : option (string → string)) (ctx : ListContext) (f : ListFilter)
    (w : ListWhere) : ListWhere :=
  match buildFilterWhere (f_field f) (f_op f) (f_value f) with
  | None => push_false w
  | Some screen => foldl (screen_entry blindIndex ctx) w screen
  end.

Definition collectListFilters (filter : option ListFilter) (filters : option (list ListFilter)) : list ListFilter :=
  option_list filter ++ default [] filters.

Definition isJsonbArrayField (field : option ListField) : bool :=
  match field with
  | None => false
  | Some f => bool_decide (lf_type f = "multiSelect") || (bool_decide (lf_type f = "reference") && lf_multiple f)
  end.

Section list.
Context (lint : Sql → Table → bool) (blindIndex : option (string → string)) (ctx : ListContext).

Notation entity := (lc_entity ctx).
Notation handles := (lc_handles ctx).
Notation colSql := (physicalColumnName handles).

(** ** The WHERE of a list *)

Definition fieldReadClause (user : SessionUser) (field : string) : result ListError OwnershipClause :=
  as_where_rule (buildOwnershipClause lint user (normalizeAccessEntry (list_field entity field ≫= lf_read)) handles 1 None).

Definition applyListFilter (user : SessionUser) (w : ListWhere) (f : ListFilter) : result ListError ListWhere :=
  if negb (has_handle handles (f_field f)) then Ok w
  else
    let? readClause := fieldReadClause user (f_field f) in
    match readClause with
    | ClauseEmpty => Ok (push_false w)
    | _ =>
        if negb (isListFilterAllowed entity (f_field f) f) then Err (ErrNotFilterable (f_field f))
        else
          let w := match readClause with ClauseSql fragment => appendShiftedClause fragment w | _ => w end in
          Ok (if isJsonbArrayField (list_field entity (f_field f)) then applyMultiSelectFilter ctx f w
              else applyScreenFilter blindIndex ctx f w)
    end.

Inductive Trash := TrashLive | TrashWithDeleted | TrashOnlyDeleted.

(** The tenant filter of [TenantDb], on a raw statement. *)
Definition add_tenant_scope (db : TenantDb) (w : ListWhere) : ListWhere :=
  if has_handle handles "tenantId" && is_tenant_mode db then
    let (ns, w) := bind_values [BoundValue (JsJson (JStr (td_tenantId db))); BoundValue (JsJson (JStr SYSTEM_TENANT_ID))] w in
    push_cond (LCond (CIn (colSql "tenantId") false (op_param <$> ns))) w
  else w.

Definition deleted_is (text : string) : ListCond := LCond (CCompare (colSql "isDeleted") "=" (OpLiteral text)).

Definition appendTenantAndSoftDeleteScope (db : TenantDb) (trash : Trash) (w : ListWhere) : ListWhere :=
  let w := add_tenant_scope db w in
  if le_softDelete entity && has_handle handles "isDeleted" then
    match trash with
    | TrashWithDeleted => w
    | TrashOnlyDeleted => push_cond (deleted_is "TRUE") w
    | TrashLive => push_cond (deleted_is "FALSE") w
    end
  else w.

Record ListPayload := mkListPayload {
  lp_limit : Js;
  lp_offset : Js;
  lp_cursor : option string;
  lp_sort : option string;
  lp_descending : bool;
  lp_totalCount : bool;
  lp_filter : option ListFilter;
  lp_filters : option (list ListFilter) }.

Record ListOptions := mkListOptions { lo_includeDeleted : bool; lo_onlyDeleted : bool }.

(** [resolveReadOwnership]: the parent and gate clauses depend on the trash. *)
Definition resolveReadOwnership (parentClause : bool → OwnershipClause) (gateClause : OwnershipClause)
    (user : SessionUser) (includeDeleted : bool) : result ListError OwnershipClause :=
  let? own := as_where_rule (buildOwnershipClause lint user (le_read entity) handles 1 (Some (tb_name handles))) in
  Ok (combineClauses (combineClauses own (parentClause includeDeleted)) gateClause).

Fixpoint apply_filters (user : SessionUser) (w : ListWhere) (fs : list ListFilter) : result ListError ListWhere :=
  match fs with
  | [] => Ok w
  | f :: rest => let? w := applyListFilter user w f in apply_filters user w rest
  end.

(** [Ok None] is the build of kind [empty]: no row can match. *)
Definition buildListWhere (parentClause : bool → OwnershipClause) (gateClause : OwnershipClause)
    (payload : ListPayload) (user : SessionUser) (db : TenantDb) (options : ListOptions)
    : result ListError (option ListWhere) :=
  if lo_onlyDeleted options && negb (le_softDelete entity) then Err ErrNotSoftDelete
  else
    let includeDeleted := lo_onlyDeleted options || lo_includeDeleted options in
    let? ownership := resolveReadOwnership parentClause gateClause user includeDeleted in
    match ownership with
    | ClauseEmpty => Ok None
    | _ =>
        let w := appendTenantAndSoftDeleteScope db
                   (if lo_onlyDeleted options then TrashOnlyDeleted
                    else if includeDeleted then TrashWithDeleted else TrashLive) (mkListWhere [] []) in
        let w := match ownership with ClauseSql f => appendShiftedClause f w | _ => w end in
        let? w := apply_filters user w (collectListFilters (lp_filter payload) (lp_filters payload)) in
        Ok (Some w)
    end.

(** ** Sorting *)

(** An expression to order by: its parameters, its text with them from a
    position on, and its value on a row. *)
Record SortExpr := mkSortExpr {
  se_params : list Json;
  se_text : nat → string;
  se_value : gmap string Json → Json }.

Inductive ListSort :=
| Unsorted
| SortColumn (field : string) (descending : bool) (nulls : option SortNulls)
| SortExpression (field : string) (descending : bool) (nulls : option SortNulls) (sql : SortExpr).

Definition declaredSortNulls (field : string) : option SortNulls := list_field entity field ≫= lf_sortNulls.

Definition sortsNullsFirst (descending : bool) (nulls : option SortNulls) : bool :=
  match nulls with None => descending | Some NullsFirst => true | Some NullsLast => false end.

Definition nullsClause (nulls : option SortNulls) : string :=
  match nulls with None => "" | Some NullsFirst => " NULLS FIRST" | Some NullsLast => " NULLS LAST" end.

Definition is_reference (field : string) : bool :=
  match list_field entity field with Some f => bool_decide (lf_type f = "reference") | None => false end.

Definition resolveListSort (derivedSortExpr referenceSortExpr : string → option SortExpr)
    (payload : ListPayload) (user : SessionUser) : result ListError ListSort :=
  let descending := lp_descending payload in
  match lp_sort payload with
  | None | Some "" => Ok Unsorted
  | Some field =>
      match derivedSortExpr field with
      | Some sql => Ok (SortExpression field descending None sql)
      | None =>
          if negb (has_handle handles field) then Ok Unsorted
          else
            let? readClause := fieldReadClause user field in
            match readClause with
            | ClausePass =>
                if negb (isListSortAllowed entity field) then Ok Unsorted
                else
                  let nulls := declaredSortNulls field in
                  if negb (is_reference field) then Ok (SortColumn field descending nulls)
                  else Ok (match referenceSortExpr field with
                           | None => Unsorted
                           | Some sql => SortExpression field descending nulls sql
                           end)
            | _ => Ok Unsorted
            end
      end
  end.

(** Binds the parameters of an expression and renders it. *)
Definition renderSortSql (field : string) (sql : option SortExpr) (w : ListWhere) : SortKey * ListWhere :=
  match sql with
  | None => (KeyColumn (colSql field), w)
  | Some e => let (ns, w') := bind_values ((λ v, BoundValue (JsJson v)) <$> se_params e) w in
              (KeyExpr (se_text e (S (length (lw_params w)))) (se_value e), w')
  end.

(** Field, direction, declared NULLS order and expression of a sorted list. *)
Definition sorted_by (sort : ListSort) : option (string * bool * option SortNulls * option SortExpr) :=
  match sort with
  | Unsorted => None
  | SortColumn field descending nulls => Some (field, descending, nulls, None)
  | SortExpression field descending nulls sql => Some (field, descending, nulls, Some sql)
  end.

Definition SORT_LABEL_ALIAS : string := "__kumiko_sort_label".

(** The texts of ORDER BY and of the projected label. *)
Definition renderListOrderBy (sort : ListSort) (w : ListWhere) : string * string * ListWhere :=
  let idAscending := col_ref (colSql "id") +:+ " ASC" in
  match sorted_by sort with
  | None => (" ORDER BY " +:+ idAscending, "", w)
  | Some (field, descending, nulls, sql) =>
      let (key, w) := renderSortSql field sql w in
      let direction := (if descending then "DESC" else "ASC") +:+ nullsClause nulls in
      match sql with
      | None => (" ORDER BY " +:+ key_text key +:+ " " +:+ direction +:+ ", " +:+ idAscending, "", w)
      | Some _ => (" ORDER BY " +:+ col_ref SORT_LABEL_ALIAS +:+ " " +:+ direction +:+ ", " +:+ idAscending,
                   ", " +:+ key_text key +:+ " AS " +:+ col_ref SORT_LABEL_ALIAS, w)
      end
  end.

(** ** Paging *)

Definition MAX_LIST_LIMIT : Z := 200.
Definition DEFAULT_LIST_LIMIT : Z := 50.

(** [value ?? fallback], a non-negative number. *)
Definition page_number (value : Js) (fallback : Z) : option Z :=
  match value with
  | JsUndefined | JsJson JNull => Some fallback
  | JsJson (JNum n) => if (n <? 0)%Z then None else Some n
  | _ => None
  end.

Definition resolveListPagination (payload : ListPayload) : result ListError (nat * nat) :=
  match page_number (lp_limit payload) DEFAULT_LIST_LIMIT, page_number (lp_offset payload) 0 with
  | None, _ => Err ErrInvalidLimit
  | _, None => Err ErrInvalidOffset
  | Some limit, Some offset => Ok (Z.to_nat (Z.min limit MAX_LIST_LIMIT), Z.to_nat offset)
  end.

(** [None] is undefined, [Some None] null. *)
Definition toCursorSortText (value : Js) : option (option string) :=
  match value with
  | JsUndefined => None
  | JsJson JNull => Some None
  | JsJson (JStr s) => Some (Some s)
  | JsJson (JNum n) => Some (Some (pretty n))
  | JsJson (JBool b) => Some (Some (if b then "true" else "false"))
  | _ => Some (Some (stringify (js_json value)))
  end.

(** The boundary behind a cursor for ORDER BY key, id. *)
Definition keysetBoundarySql (key : SortKey) (idCol : string) (id : string) (sortValue : option string)
    (descending nullsComeFirst : bool) (w : ListWhere) : ListCond * ListWhere :=
  let (n, w) := bind_value (BoundValue (JsJson (JStr id))) w in
  let afterId := LCond (CCompare idCol ">" (op_param n)) in
  match sortValue with
  | None => (if nullsComeFirst then LSome [LKeyNotNull key; afterId] else LAll [LKeyNull key; afterId], w)
  | Some v =>
      let (m, w) := bind_value (BoundValue (JsJson (JStr v))) w in
      let beyond := LKeyCompare key (if descending then "<" else ">") m in
      let tie := LAll [LKeyCompare key "=" m; afterId] in
      (if nullsComeFirst then LAll [LKeyNotNull key; LSome [beyond; tie]] else LSome [LKeyNull key; beyond; tie], w)
  end.

Definition appendCursorBoundary (w : ListWhere) (encodedCursor : string) (sort : ListSort) : result ListError ListWhere :=
  match decodeKeysetCursor encodedCursor with
  | Err e => Err (ErrCursor e)
  | Ok cursor =>
      match sorted_by sort, dk_sortValue cursor with
      | Some (field, descending, nulls, sql), Some sortValue =>
          let (key, w) := renderSortSql field sql w in
          let (c, w) := keysetBoundarySql key (colSql "id") (dk_id cursor) sortValue descending
                          (sortsNullsFirst descending nulls) w in
          Ok (push_cond c w)
      | _, _ =>
          let (n, w) := bind_value (BoundValue (JsJson (JStr (dk_id cursor)))) w in
          Ok (push_cond (LCond (CCompare (colSql "id") ">" (op_param n))) w)
      end
  end.

(** The value a row is ordered by, as the driver returns it. *)
Definition sort_value (sort : ListSort) (row : gmap string Json) : Json :=
  match sort with
  | Unsorted => JNull
  | SortColumn field _ _ => column_value row (colSql field)
  | SortExpression _ _ _ sql => se_value sql row
  end.

Definition encodeNextCursor (cursorId : string) (sort : ListSort) (lastRaw : gmap string Json) : string :=
  match sort with
  | Unsorted => encodeCursor cursorId
  | _ => match toCursorSortText (JsJson (sort_value sort lastRaw)) with
         | None => encodeCursor cursorId
         | Some sortText => encodeKeysetCursor sortText cursorId
         end
  end.
End list.

(** ** ORDER BY *)

Section order_by.
Context {A : Type} (before : A → A → bool).

Fixpoint insert_before (x : A) (l : list A) : list A :=
  match l with
  | [] => [x]
  | y :: rest => if before y x then y :: insert_before x rest else x :: l
  end.

Definition order_by (l : list A) : list A := foldr insert_before [] l.
End order_by.

(** ** The statement of a list *)

Record ListStatement := mkListStatement {
  (** the WHERE with its own parameters *)
  ls_where : ListWhere;
  ls_sort : ListSort;
  ls_limit : nat;
  ls_offset : nat;
  ls_text : string;
  (** every parameter the text binds *)
  ls_params : list Bound }.

Definition STREAM_VERSION_ALIAS : string := "__streamVersion".

(** The stream version of each row, read in the same statement. *)
Definition appendStreamVersionProjection (tableName streamTenantId : string) (w : ListWhere) : string * ListWhere :=
  let (n, w) := bind_value (BoundValue (JsJson (JStr streamTenantId))) w in
  (", (SELECT MAX(" +:+ col_ref "version" +:+ ") FROM " +:+ col_ref "kumiko_events" +:+ " WHERE "
     +:+ col_ref "aggregate_id" +:+ " = " +:+ col_ref tableName +:+ "." +:+ col_ref "id" +:+ " AND "
     +:+ col_ref "tenant_id" +:+ " = " +:+ placeholder n +:+ ") AS " +:+ col_ref STREAM_VERSION_ALIAS, w).

Definition where_text (w : ListWhere) : string :=
  match lw_conds w with
  | [] => ""
  | conds => " WHERE " +:+ join_with " AND " (list_cond_text <$> conds)
  end.

Definition has_cursor (payload : ListPayload) : option string :=
  match lp_cursor payload with None | Some "" => None | c => c end.

Section statement.
Context (lint : Sql → Table → bool) (blindIndex : option (string → string)) (ctx : ListContext)
  (parentClause : bool → OwnershipClause) (gateClause : OwnershipClause)
  (derivedSortExpr referenceSortExpr : string → option SortExpr).

(** [Ok None]: the page is empty without a query. *)
Definition listStatement (payload : ListPayload) (user : SessionUser) (db : TenantDb) (options : ListOptions)
    (streamTenantId : string) : result ListError (option ListStatement) :=
  let tableName := tb_name (lc_handles ctx) in
  let? (limit, offset) := resolveListPagination payload in
  let? built := buildListWhere lint blindIndex ctx parentClause gateClause payload user db options in
  match built with
  | None => Ok None
  | Some w =>
      let? sort := resolveListSort lint ctx derivedSortExpr referenceSortExpr payload user in
      let? w := match has_cursor payload with
                | None => Ok w
                | Some cursor => appendCursorBoundary ctx w cursor sort
                end in
      let '(orderBy, label, all) := renderListOrderBy ctx sort w in
      let offset := match has_cursor payload with None => offset | Some _ => 0%nat end in
      let offsetClause := if (0 <? offset)%nat then " OFFSET " +:+ pretty offset else "" in
      let (streamVersion, all) := appendStreamVersionProjection tableName streamTenantId all in
      Ok (Some (mkListStatement w sort limit offset
        ("SELECT *" +:+ label +:+ streamVersion +:+ " FROM " +:+ col_ref tableName +:+ where_text w
           +:+ orderBy +:+ " LIMIT " +:+ pretty limit +:+ offsetClause)
        (lw_params all)))
  end.

(** ** The meaning of the statement *)

Section meaning.
Context (pg : PgSemantics) (sem : SqlSemantics).

Definition and3 (a b : option bool) : option bool :=
  match a, b with
  | Some false, _ | _, Some false => Some false
  | Some true, Some true => Some true
  | _, _ => None
  end.

Definition all3 (l : list (option bool)) : option bool := foldr and3 (Some true) l.

Definition key_value (k : SortKey) (row : gmap string Json) : Json :=
  match k with KeyColumn c => column_value row c | KeyExpr _ value => value row end.

Definition is_sql_null (v : Json) : bool := match v with JNull => true | _ => false end.

Fixpoint list_cond_eval (env : nat → Json) (row : gmap string Json) (c : ListCond) : option bool :=
  match c with
  | LCond c => cond_eval pg env (column_value row) c
  | LOwned s => Some (sql_admits sem (λ n, Some (env n)) (map_to_list row) s)
  | LAnyOf col _ n =>
      match env n with
      | JArr values => any3 ((λ v, compare3 pg "=" (column_value row col) v) <$> values)
      | _ => None
      end
  | LKeyNull k => Some (is_sql_null (key_value k row))
  | LKeyNotNull k => Some (negb (is_sql_null (key_value k row)))
  | LKeyCompare k symbol n => compare3 pg symbol (key_value k row) (env n)
  | LAll cs => all3 (map (list_cond_eval env row) cs)
  | LSome cs => any3 (map (list_cond_eval env row) cs)
  end.

Definition is_true3 (b : option bool) : bool := match b with Some true => true | _ => false end.

Definition row_matches (conds : list ListCond) (params : list Bound) (row : gmap string Json) : bool :=
  forallb (λ c, is_true3 (list_cond_eval (bound_at 1 params) row c)) conds.

(** ORDER BY key direction nulls, id ASC. *)
Definition id_of (row : gmap string Json) : Json := column_value row (physicalColumnName (lc_handles ctx) "id").

Definition lt_by (descending : bool) (a b : Json) : bool :=
  if descending then pg_op pg "<" b a else pg_op pg "<" a b.

Definition value_before (descending nullsFirst : bool) (a b : Json) : bool :=
  match non_null a, non_null b with
  | Some x, Some y => lt_by descending x y
  | None, Some _ => nullsFirst
  | Some _, None => negb nullsFirst
  | None, None => false
  end.

Definition key_before (sort : ListSort) (a b : gmap string Json) : bool :=
  match sorted_by sort with
  | None => false
  | Some (_, descending, nulls, _) =>
      value_before descending (sortsNullsFirst descending nulls) (sort_value ctx sort a) (sort_value ctx sort b)
  end.

(** [a] stands before [b]. *)
Definition row_before (sort : ListSort) (a b : gmap string Json) : bool :=
  key_before sort a b || (negb (key_before sort b a) && pg_op pg "<" (id_of a) (id_of b)).

Definition order_rows (sort : ListSort) (rows : list (gmap string Json)) : list (gmap string Json) :=
  order_by (row_before sort) rows.

Definition page_rows (st : ListStatement) (rows : list (gmap string Json)) : list (gmap string Json) :=
  take (ls_limit st) (drop (ls_offset st) (order_rows (ls_sort st)
    (filter (λ row, row_matches (lw_conds (ls_where st)) (ls_params st) row = true) rows))).

(** [countListRows]: the WHERE text with its own parameters. *)
Definition countListRows (w : ListWhere) (rows : list (gmap string Json)) : nat :=
  length (filter (λ row, row_matches (lw_conds w) (lw_params w) row = true) rows).

Definition id_text (row : gmap string Json) : string := match id_of row with JStr s => s | _ => "" end.

Record ListResult := mkListResult {
  lr_rows : list (gmap string Json);
  lr_nextCursor : option string;
  lr_total : option nat }.

(** The [list] verb on what the statement's scope lets it see of the table. *)
Definition list_verb (rls : bool) (payload : ListPayload) (user : SessionUser) (db : TenantDb) (options : ListOptions)
    (streamTenantId : string) (table : list (gmap string Json)) : result ListError ListResult :=
  let? statement := listStatement payload user db options streamTenantId in
  let total n := if lp_totalCount payload then Some n else None in
  match statement with
  | None => Ok (mkListResult [] None (total 0%nat))
  | Some st =>
      let visible := filter (λ row, rls_selects rls (tenantDbRowLevelSecurityScope db (lc_table ctx)) (lc_table ctx) row = true)
                       table in
      let rows := page_rows st visible in
      Ok (mkListResult rows
            (if (length rows =? ls_limit st)%nat
             then (λ row, encodeNextCursor ctx (id_text row) (ls_sort st) row) <$> last rows else None)
            (total (countListRows (ls_where st) visible)))
  end.
End meaning.
End statement.
