(* ===== verification/ListPaging.v ===== *)
(** * Properties of entity lists

    The theorems on [ListRead]: following the cursors of a list visits every
    matching row once and in order; the rows it returns are in the caller's
    scope; a field the caller may not read is not probed by filters or sorting. *)

From S2P Require Import Prelude TableInfo Ownership FieldAccess WhereClause TenantDb Cursor ListRead.

Open Scope list_scope.

(** ** ORDER BY on a strict total order of the rows *)

Section ordering.
Context {A : Type} (before : A → A → bool).

Record strict_order_on (l : list A) : Prop := {
  so_irrefl : ∀ x, x ∈ l → before x x = false;
  so_trans : ∀ x y z, x ∈ l → y ∈ l → z ∈ l → before x y = true → before y z = true → before x z = true;
  so_total : ∀ x y, x ∈ l → y ∈ l → x ≠ y → before x y = true ∨ before y x = true }.

Notation R := (λ a b, before a b = true).

Lemma strict_order_sub l k : (∀ x, x ∈ k → x ∈ l) → strict_order_on l → strict_order_on k.
Proof. intros Hs [Hi Ht Hc]. split; eauto. Qed.

Lemma so_asym l x y : strict_order_on l → x ∈ l → y ∈ l → before x y = true → before y x = false.
Proof.
  intros [Hi Ht _] Hx Hy Hxy. destruct (before y x) eqn:Hyx; [|done].
  specialize (Hi x Hx). by rewrite (Ht x y x Hx Hy Hx Hxy Hyx) in Hi.
Qed.

Lemma insert_before_perm x l : insert_before before x l ≡ₚ x :: l.
Proof.
  induction l as [|y l IH]; simpl; [done|]. destruct (before y x); [|done]. rewrite IH. constructor.
Qed.

Lemma order_by_perm l : order_by before l ≡ₚ l.
Proof. induction l as [|x l IH]; simpl; [done|]. rewrite insert_before_perm. by constructor. Qed.

Lemma elem_of_order_by x l : x ∈ order_by before l ↔ x ∈ l.
Proof. by rewrite order_by_perm. Qed.

Lemma insert_before_sorted x l :
  strict_order_on (x :: l) → x ∉ l → StronglySorted R l → StronglySorted R (insert_before before x l).
Proof.
  intros Hso Hx Hs. induction Hs as [|y l Hs IH Hf]; simpl; [repeat constructor|]. rewrite Forall_forall in Hf.
  destruct (before y x) eqn:Hyx.
  - constructor.
    + apply IH; [apply (strict_order_sub (x :: y :: l)); [set_solver|done]|set_solver].
    + rewrite insert_before_perm. constructor; [done|]. by apply Forall_forall.
  - assert (Hxy : before x y = true).
    { destruct (so_total _ Hso x y) as [?|?]; [set_solver..|congruence]. }
    constructor; [constructor; [done|by apply Forall_forall]|]. constructor; [done|].
    apply Forall_forall. intros z Hz. by apply (so_trans _ Hso x y z); [set_solver..|apply Hf].
Qed.

Lemma order_by_sorted l : strict_order_on l → NoDup l → StronglySorted R (order_by before l).
Proof.
  intros Hso Hn. induction Hn as [|x l Hx Hn IH]; simpl; [constructor|]. apply insert_before_sorted.
  - apply (strict_order_sub (x :: l)); [|done]. intros y. by rewrite !elem_of_cons, elem_of_order_by.
  - by rewrite elem_of_order_by.
  - apply IH, (strict_order_sub (x :: l)); [set_solver|done].
Qed.

Lemma order_by_unique k l : strict_order_on l → NoDup l → StronglySorted R k → k ≡ₚ l → order_by before l = k.
Proof.
  intros Hso Hn Hk Hp. apply (StronglySorted_unique_strong R).
  - intros a b Ha Hb Hab Hba. rewrite elem_of_order_by in Ha. rewrite Hp in Hb.
    rewrite (so_asym l a b) in Hba; done.
  - by apply order_by_sorted.
  - done.
  - by rewrite order_by_perm.
Qed.

Lemma order_by_filter (P : A → Prop) `{∀ x, Decision (P x)} l :
  strict_order_on l → NoDup l → order_by before (filter P l) = filter P (order_by before l).
Proof.
  intros Hso Hn. apply order_by_unique.
  - apply (strict_order_sub l); [|done]. intros x [_ Hx]%list_elem_of_filter. done.
  - by apply NoDup_filter.
  - by apply strongly_sorted_filter, order_by_sorted.
  - by rewrite order_by_perm.
Qed.

(** The rows behind one of an ordered list are those it comes before. *)
Lemma filter_behind a x b :
  strict_order_on (a ++ x :: b) → StronglySorted R (a ++ x :: b) →
  filter (λ y, before x y = true) (a ++ x :: b) = b.
Proof.
  intros Hso Hs. rewrite filter_app, filter_keeps_none.
  - simpl. rewrite filter_cons_False; [|by rewrite (so_irrefl _ Hso x) by set_solver].
    apply StronglySorted_app_1_r in Hs. apply StronglySorted_cons in Hs as [Hf _].
    rewrite Forall_forall in Hf. by apply filter_keeps_all.
  - intros y Hy. rewrite (so_asym (a ++ x :: b) y x); [done..|set_solver|set_solver|].
    apply (StronglySorted_app_1_elem_of _ _ _ y x) in Hs; [done|done|set_solver].
Qed.
End ordering.

(** ** Placeholders *)

Fixpoint list_cond_placeholders (c : ListCond) : list nat :=
  match c with
  | LCond c => cond_placeholders c
  | LOwned s => placeholders s
  | LAnyOf _ _ n | LKeyCompare _ _ n => [n]
  | LKeyNull _ | LKeyNotNull _ => []
  | LAll cs | LSome cs => concat (map list_cond_placeholders cs)
  end.

(** Every placeholder of the conditions refers to one of the parameters. *)
Definition binds_own (conds : list ListCond) (params : list Bound) : Prop :=
  Forall (λ n, 1 ≤ n ≤ length params)%nat (conds ≫= list_cond_placeholders).

Definition closed_where (w : ListWhere) : Prop := binds_own (lw_conds w) (lw_params w).

Lemma Cond_nested_ind (P : Cond → Prop) :
  (∀ c, match c with CAny _ | CNullOrNot _ _ => True | _ => P c end) →
  (∀ cs, Forall P cs → P (CAny cs)) → (∀ col cs, Forall P cs → P (CNullOrNot col cs)) → ∀ c, P c.
Proof.
  intros H1 H2 H3. fix IH 1. intros c. specialize (H1 c) as Hc. destruct c; try exact Hc.
  - apply H2. induction alternatives; constructor; [apply IH|assumption].
  - apply H3. induction alternatives; constructor; [apply IH|assumption].
Qed.

Lemma ListCond_nested_ind (P : ListCond → Prop) :
  (∀ c, match c with LAll _ | LSome _ => True | _ => P c end) →
  (∀ cs, Forall P cs → P (LAll cs)) → (∀ cs, Forall P cs → P (LSome cs)) → ∀ c, P c.
Proof.
  intros H1 H2 H3. fix IH 1. intros c. specialize (H1 c) as Hc. destruct c; try exact Hc.
  - apply H2. induction cs; constructor; [apply IH|assumption].
  - apply H3. induction cs; constructor; [apply IH|assumption].
Qed.

(** The values of a list of conditions agree when each one's do. *)
Lemma map_ext_ph {A B} (ph : A → list nat) (f g : A → B) (agree : nat → Prop) l :
  Forall (λ x, (∀ n, n ∈ ph x → agree n) → f x = g x) l →
  (∀ n, n ∈ concat (map ph l) → agree n) → map f l = map g l.
Proof.
  intros Hall Hn. induction Hall as [|x l Hx _ IH]; simpl in *; [done|]. f_equal; [apply Hx|apply IH]; set_solver.
Qed.

Section eval_ext.
#[local] Set Default Proof Using "Type*".
Context (pg : PgSemantics) (sem : SqlSemantics) (e1 e2 : nat → Json).

Lemma operand_value_ext o :
  (∀ n, n ∈ operand_placeholders o → e1 n = e2 n) → operand_value pg e1 o = operand_value pg e2 o.
Proof. destruct o; simpl; [|done]. intros H. apply H. set_solver. Qed.

Lemma cond_eval_ext row c :
  (∀ n, n ∈ cond_placeholders c → e1 n = e2 n) → cond_eval pg e1 row c = cond_eval pg e2 row c.
Proof.
  pattern c. apply Cond_nested_ind; clear c; [intros c|intros cs IH|intros col cs IH].
  - destruct c as [| |col|col|col symbol o|col negated os|col o|col n|col keys n|cs|col cs];
      cbn [cond_eval cond_placeholders]; try done; intros H.
    + by rewrite (operand_value_ext o).
    + assert (Heq : (λ o, compare3 pg "=" (row col) (operand_value pg e1 o)) <$> os
                  = (λ o, compare3 pg "=" (row col) (operand_value pg e2 o)) <$> os); [|by rewrite Heq].
      apply list_fmap_ext. intros i o Ho. rewrite operand_value_ext; [done|]. intros n Hn. apply H.
      apply list_elem_of_bind. exists o. split; [done|by eapply list_elem_of_lookup_2].
    + by rewrite (operand_value_ext o).
    + by rewrite H by set_solver.
    + rewrite (H n) by set_solver.
      assert (Heq : omap (λ k, text_at pg (row col) (e1 k)) keys = omap (λ k, text_at pg (row col) (e2 k)) keys);
        [|by rewrite Heq].
      assert (Hk : ∀ k, k ∈ keys → e1 k = e2 k) by (intros; apply H; set_solver). clear H.
      apply list_omap_ext, Forall_Forall2_diag, Forall_forall. intros k Hin. by rewrite Hk.
  - simpl. intros H. f_equal. by apply (map_ext_ph cond_placeholders _ _ (λ n, e1 n = e2 n)).
  - simpl. intros H. rewrite (map_ext_ph cond_placeholders _ _ (λ n, e1 n = e2 n) cs IH H). done.
Qed.

Lemma list_cond_eval_ext row c :
  (∀ n, n ∈ list_cond_placeholders c → e1 n = e2 n) →
  list_cond_eval pg sem e1 row c = list_cond_eval pg sem e2 row c.
Proof.
  pattern c. apply ListCond_nested_ind; clear c; [intros c|intros cs IH|intros cs IH].
  - destruct c; simpl; try done; intros H.
    + by apply cond_eval_ext.
    + f_equal. apply admits_ext. intros n Hn. by rewrite H.
    + by rewrite H by set_solver.
    + by rewrite H by set_solver.
  - simpl. intros H. f_equal. by apply (map_ext_ph list_cond_placeholders _ _ (λ n, e1 n = e2 n)).
  - simpl. intros H. f_equal. by apply (map_ext_ph list_cond_placeholders _ _ (λ n, e1 n = e2 n)).
Qed.
End eval_ext.

Lemma bound_at_app params more n : (1 ≤ n ≤ length params)%nat → bound_at 1 (params ++ more) n = bound_at 1 params n.
Proof. intros Hn. unfold bound_at. by rewrite lookup_app_l by lia. Qed.

(** Later parameters do not change what closed conditions mean. *)
Lemma row_matches_app pg sem conds params more row :
  binds_own conds params →
  row_matches pg sem conds (params ++ more) row = row_matches pg sem conds params row.
Proof.
  unfold binds_own, row_matches. intros Hb. induction conds as [|c conds IH]; simpl in *; [done|].
  apply Forall_app in Hb as [Hc Hb]. rewrite (IH Hb). f_equal. f_equal. apply list_cond_eval_ext.
  intros n Hn. rewrite Forall_forall in Hc. by apply bound_at_app, Hc.
Qed.

(** ** The conditions a list binds *)

Definition rule_within (rule : OwnershipRule) : Prop :=
  match rule with RuleWhere where_ => ∀ user name start, within start (where_ user name start) | _ => True end.

(** Where-rules number their placeholders from the position they are given. *)
Definition rules_within (m : option OwnershipMap) : Prop := Forall (λ kr, rule_within kr.2) (default [] m).

Lemma ruleToFragment_within lint rule user table start name f :
  rule_within rule → ruleToFragment lint rule user table start name = Ok (Some f) → within start f.
Proof.
  intros Hr. destruct rule as [|r|w]; simpl; [intros [= <-]; constructor| |].
  - destruct (columnSqlName table _) as [c|]; [|done].
    destruct (resolveUserValue r user) as [[| | | |[|v vs]|]|]; intros [= <-]; unfold within; simpl;
      try (by repeat constructor; lia).
    constructor; [lia|]. apply Forall_forall. intros n Hn%elem_of_seq. lia.
  - destruct (lint _ _); intros [= <-]. apply Hr.
Qed.

Lemma within_mono start start' len (ns : list nat) :
  (start' ≤ start)%nat → Forall (λ n, start ≤ n < start + len)%nat ns →
  ∀ len', (start + len ≤ start' + len')%nat → Forall (λ n, start' ≤ n < start' + len')%nat ns.
Proof. intros Hs Hf len' Hl. eapply Forall_impl; [exact Hf|]. simpl. lia. Qed.

Lemma collect_clauses_within lint m user table name roles start clauses any :
  rules_within (Some m) → collect_clauses lint m user table name roles start = Ok (inr (clauses, any)) →
  Forall (λ n, start ≤ n < start + length (all_params clauses))%nat (clauses ≫= λ f, placeholders (sf_sql f)).
Proof.
  intros Hm. unfold rules_within in Hm. simpl in Hm. rewrite Forall_forall in Hm.
  revert start clauses any. induction roles as [|role roles IH]; intros start clauses any; simpl.
  { intros [= <- <-]. constructor. }
  destruct (assoc_get role m) as [rule|] eqn:Hr; [|apply IH]. apply assoc_get_elem_of, Hm in Hr. simpl in Hr.
  assert (Hstep : ∀ resolved, ruleToFragment lint rule user table start name = Ok resolved →
    (let? more := collect_clauses lint m user table name roles
                    (start + from_option (λ f, length (sf_params f)) 0 resolved)%nat in
     Ok (match more with inl u => inl u | inr (clauses, _) => inr (option_list resolved ++ clauses, true) end))
    = Ok (inr (clauses, any)) →
    Forall (λ n, start ≤ n < start + length (all_params clauses))%nat (clauses ≫= λ f, placeholders (sf_sql f))).
  { intros resolved Hres. rewrite result_bind_Ok. intros ([|[more any']] & Hmore & [= <- <-]).
    specialize (IH _ _ _ Hmore). destruct resolved as [f|]; simpl in *; [|by rewrite Nat.add_0_r in IH].
    apply ruleToFragment_within in Hres; [|done]. unfold all_params in *. simpl. rewrite length_app.
    apply Forall_app. split; [eapply within_mono; [|exact Hres|]; lia|eapply within_mono; [|exact IH|]; lia]. }
  destruct rule as [|r|w]; [done| |]; rewrite result_bind_Ok; intros (resolved & Hres & H); by apply (Hstep resolved).
Qed.

Lemma build_closed lint user m table name clause :
  rules_within m → buildOwnershipClause lint user m table 1 name = Ok clause → closed_clause clause.
Proof.
  unfold buildOwnershipClause. intros Hm. destruct (empty_map m); [by intros [= <-]|].
  rewrite result_bind_Ok. intros (collected & Hc & [= <-]). destruct collected as [[]|[clauses any]]; [done|].
  destruct any; [|done]. apply collect_clauses_within in Hc; [|by destruct m].
  destruct clauses as [|c rest]; [done|]. destruct (join_clauses (c :: rest)) as [| |f] eqn:Hj; [done..|].
  destruct (join_clauses_admits text_columns (λ _, None) [] c rest f Hj) as (_ & Hp & Hph).
  unfold closed_clause, closed_fragment. rewrite Hp, Hph. eapply Forall_impl; [exact Hc|]. unfold all_params.
  simpl. lia.
Qed.

Lemma placeholders_shift s k : placeholders (shift_sql s k) = (λ n, (n + k)%nat) <$> placeholders s.
Proof.
  induction s as [|c n|c ns|parts|t IH|t rest IH IHr|t u IHt IHu] using Sql_nested_ind; simpl; try done.
  - induction parts as [|[x|n] parts IHp]; simpl; [done|done|by f_equal].
  - rewrite fmap_app, IH. f_equal. induction IHr as [|x rest Hx _ IHr]; simpl; [done|]. by rewrite fmap_app, Hx, IHr.
  - by rewrite fmap_app, IHt, IHu.
Qed.

Lemma closed_push c more w :
  closed_where w → Forall (λ n, 1 ≤ n ≤ length (lw_params w ++ more))%nat (list_cond_placeholders c) →
  closed_where (mkListWhere (lw_conds w ++ [c]) (lw_params w ++ more)).
Proof.
  unfold closed_where, binds_own. simpl. intros Hw Hc. rewrite bind_app. apply Forall_app. split.
  - eapply Forall_impl; [exact Hw|]. simpl. rewrite length_app. lia.
  - simpl. by rewrite app_nil_r.
Qed.

(** A condition over values just bound. *)
Lemma closed_bound c more w :
  closed_where w → Forall (λ n, 1 ≤ n ≤ length (lw_params w ++ more))%nat (list_cond_placeholders c) →
  closed_where (push_cond c (mkListWhere (lw_conds w) (lw_params w ++ more))).
Proof. apply closed_push. Qed.

Lemma closed_push_cond c w :
  closed_where w → Forall (λ n, 1 ≤ n ≤ length (lw_params w))%nat (list_cond_placeholders c) → closed_where (push_cond c w).
Proof.
  intros Hw Hc. destruct w as [conds params]. unfold push_cond. simpl. rewrite <- (app_nil_r params) at 1.
  apply (closed_push c [] (mkListWhere conds params)); [done|]. simpl. by rewrite app_nil_r.
Qed.

Lemma closed_shifted f w : closed_where w → closed_fragment f → closed_where (appendShiftedClause f w).
Proof.
  intros Hw Hf. apply closed_push; [done|]. simpl. rewrite length_app, length_fmap, shiftParams_params.
  destruct (shiftParams_sql f (length (lw_params w))) as [->|[Hl ->]].
  - rewrite placeholders_shift. apply Forall_fmap. eapply Forall_impl; [exact Hf|]. simpl. lia.
  - eapply Forall_impl; [exact Hf|]. simpl. lia.
Qed.

Section closed_lists.
#[local] Set Default Proof Using "Type*".
Context (lint : Sql → Table → bool) (blindIndex : option (string → string)) (ctx : ListContext).

Lemma placeholders_op_params ns : (op_param <$> ns) ≫= operand_placeholders = ns.
Proof. induction ns as [|n ns IH]; [done|exact (f_equal (cons n) IH)]. Qed.

Lemma seq_params_bound (ps qs : list Bound) :
  length qs = length ps →
  ∀ base : list Bound, Forall (λ n, 1 ≤ n ≤ length (base ++ qs))%nat (seq (S (length base)) (length ps)).
Proof. intros Hl base. apply Forall_forall. intros n Hn%elem_of_seq. rewrite length_app. lia. Qed.

Ltac bound_params := simpl; rewrite ?length_app; simpl; repeat (apply Forall_cons; split; [lia|]); apply Forall_nil_2.

Lemma closed_inList field values w : closed_where w → closed_where (inListSql ctx field values w).
Proof.
  intros Hw. unfold inListSql.
  assert (Hp : closed_where (push_cond (LCond (CIn (physicalColumnName (lc_handles ctx) field) false
            (op_param <$> seq (S (length (lw_params w))) (length (BoundValue <$> values)))))
            (mkListWhere (lw_conds w) (lw_params w ++ (BoundValue <$> values))))).
  { apply (closed_bound _ (BoundValue <$> values)); [done|]. cbn [list_cond_placeholders cond_placeholders].
    rewrite placeholders_op_params. by apply seq_params_bound. }
  destruct (declared_type _ _) as [t|]; [|exact Hp]. destruct (bool_decide _); [exact Hp|].
  apply (closed_bound _ [BoundValue (JsArray values)]); [done|bound_params].
Qed.

Lemma contains_placeholders column ns : concat (map cond_placeholders (contains_cond column <$> ns)) = ns.
Proof. induction ns as [|n ns IH]; [done|exact (f_equal (cons n) IH)]. Qed.

Lemma closed_multiSelect f w : closed_where w → closed_where (applyMultiSelectFilter ctx f w).
Proof.
  intros Hw. assert (Hf : closed_where (push_false w)) by (apply closed_push_cond; [done|constructor]).
  unfold applyMultiSelectFilter. destruct (f_op f); try exact Hf.
  1, 2: destruct (default _ _) as [|v vs]; [exact Hf|]; apply (closed_bound _ [json_array (v :: vs)]); [done|bound_params].
  destruct (as_array _) as [[|v vs]|]; try exact Hf.
  apply (closed_bound _ ((λ v, json_array [v]) <$> (v :: vs))); [done|].
  cbn [list_cond_placeholders cond_placeholders]. rewrite contains_placeholders. by apply seq_params_bound.
Qed.

Lemma closed_operators column o w : closed_where w → closed_where (operator_conds column o w).
Proof.
  unfold operator_conds. generalize opMap as ops. intros ops. revert w. induction ops as [|op ops IH]; intros w Hw; [done|].
  simpl. apply IH. destruct (assoc_get op.1 o) as [v|]; [|done].
  apply (closed_bound _ [BoundValue v]); [done|bound_params].
Qed.

Lemma closed_entry entry w : closed_where w → closed_where (screen_entry blindIndex ctx w entry).
Proof.
  intros Hw. destruct entry as [field value]. unfold screen_entry. cbv zeta.
  destruct (is_null value); [apply closed_push_cond; [done|constructor]|].
  destruct (as_array value); [by apply closed_inList|]. destruct (as_object value).
  { destruct (is_null (js_get "ne" _) && _); [apply closed_push_cond; [done|constructor]|by apply closed_operators]. }
  assert (Heq : ∀ c, closed_where (push_cond (LCond (CCompare c "=" (op_param (S (length (lw_params w))))))
                                     (mkListWhere (lw_conds w) (lw_params w ++ [BoundValue value])))).
  { intros c. apply (closed_bound _ [BoundValue value]); [done|bound_params]. }
  destruct blindIndex as [hmac|]; [|apply Heq]. destruct value as [|[]| | |]; try apply Heq.
  destruct (has_handle _ _); [|apply Heq]. simpl. rewrite <- app_assoc.
  apply (closed_bound _ [_; _]); [done|bound_params].
Qed.

Lemma closed_screen f w : closed_where w → closed_where (applyScreenFilter blindIndex ctx f w).
Proof.
  intros Hw. unfold applyScreenFilter. destruct (buildFilterWhere _ _ _) as [screen|];
    [|apply closed_push_cond; [done|constructor]].
  revert w Hw. induction screen as [|e screen IH]; intros w Hw; [done|]. simpl. by apply IH, closed_entry.
Qed.

(** The access maps of the fields number their placeholders as asked. *)
Definition fields_within : Prop :=
  ∀ field f, list_field (lc_entity ctx) field = Some f → rules_within (normalizeAccessEntry (lf_read f)).

Lemma fieldReadClause_closed user field clause :
  fields_within → fieldReadClause lint ctx user field = Ok clause → closed_clause clause.
Proof.
  intros Hf. unfold fieldReadClause, as_where_rule. destruct (buildOwnershipClause _ _ _ _ _ _) as [c|] eqn:Hb; [|done].
  intros [= <-]. apply build_closed in Hb; [done|]. destruct (list_field _ field) as [f|] eqn:Hl; [by apply (Hf field)|constructor].
Qed.

Lemma closed_filter user w f w' :
  fields_within → closed_where w → applyListFilter lint blindIndex ctx user w f = Ok w' → closed_where w'.
Proof.
  intros Hf Hw. unfold applyListFilter. destruct (has_handle _ _); simpl; [|by intros [= <-]].
  rewrite result_bind_Ok. intros (clause & Hc & H). apply fieldReadClause_closed in Hc; [|done].
  destruct clause as [| |fragment]; [|injection H as <-; apply closed_push_cond; [done|constructor]|].
  all: destruct (isListFilterAllowed _ _ _); simplify_eq/=.
  all: destruct (isJsonbArrayField _); [apply closed_multiSelect|apply closed_screen]; by try apply closed_shifted.
Qed.

Lemma closed_filters user fs : ∀ w w',
  fields_within → closed_where w → apply_filters lint blindIndex ctx user w fs = Ok w' → closed_where w'.
Proof.
  induction fs as [|f fs IH]; intros w w' Hf Hw; simpl; [by intros [= <-]|].
  rewrite result_bind_Ok. intros (w1 & H1 & H2). eapply IH; [done| |exact H2]. by eapply closed_filter.
Qed.

Lemma closed_tenant db w : closed_where w → closed_where (add_tenant_scope ctx db w).
Proof. intros Hw. unfold add_tenant_scope. destruct (_ && _); [|done]. apply (closed_bound _ [_; _]); [done|bound_params]. Qed.

Lemma closed_scope db trash w : closed_where w → closed_where (appendTenantAndSoftDeleteScope ctx db trash w).
Proof.
  intros Hw. unfold appendTenantAndSoftDeleteScope. pose proof (closed_tenant db w Hw) as H1. cbv zeta.
  destruct (_ && has_handle _ "isDeleted"); [|done]. destruct trash; [|done|]; (apply closed_push_cond; [done|constructor]).
Qed.

Lemma combine_closed a b : closed_clause a → closed_clause b → closed_clause (combineClauses a b).
Proof.
  destruct a as [| |f], b as [| |g]; simpl; try done. unfold closed_fragment. simpl. intros Ha Hb.
  rewrite length_app, shiftParams_params. apply Forall_app. split; [eapply Forall_impl; [exact Ha|]; simpl; lia|].
  destruct (shiftParams_sql g (length (sf_params f))) as [->|[Hl ->]].
  - rewrite placeholders_shift. apply Forall_fmap. eapply Forall_impl; [exact Hb|]. simpl. lia.
  - eapply Forall_impl; [exact Hb|]. simpl. lia.
Qed.

Lemma resolve_closed parentClause gateClause user includeDeleted own :
  rules_within (le_read (lc_entity ctx)) → (∀ b, closed_clause (parentClause b)) → closed_clause gateClause →
  resolveReadOwnership lint ctx parentClause gateClause user includeDeleted = Ok own → closed_clause own.
Proof.
  intros Hr Hp Hg. unfold resolveReadOwnership, as_where_rule. destruct (buildOwnershipClause _ _ _ _ _ _) as [c|] eqn:Hb; [|done].
  intros [= <-]. apply build_closed in Hb; [|done]. by repeat apply combine_closed.
Qed.

Lemma closed_build parentClause gateClause payload user db options w :
  fields_within → rules_within (le_read (lc_entity ctx)) →
  (∀ b, closed_clause (parentClause b)) → closed_clause gateClause →
  buildListWhere lint blindIndex ctx parentClause gateClause payload user db options = Ok (Some w) → closed_where w.
Proof.
  intros Hf Hr Hp Hg. unfold buildListWhere. destruct (_ && _); [done|]. rewrite result_bind_Ok. intros (own & Ho & H).
  assert (Hown : closed_clause own) by by eapply resolve_closed.
  assert (H0 : ∀ trash, closed_where (appendTenantAndSoftDeleteScope ctx db trash (mkListWhere [] []))).
  { intros trash. apply closed_scope. constructor. }
  destruct own as [| |f]; [|done|]; rewrite result_bind_Ok in H; destruct H as (w1 & H1 & [= <-]);
    (eapply closed_filters; [done| |exact H1]); [apply H0|by apply closed_shifted].
Qed.
End closed_lists.

(** ** The order of a list *)

(** A type Postgres compares: its operators are those of a strict weak order
    on the values of the column. *)
Record ColumnOrder (pg : PgSemantics) (dom : Json → Prop) : Prop := {
  co_not_null : ∀ x, dom x → x ≠ JNull;
  co_irrefl : ∀ x, dom x → pg_op pg "<" x x = false;
  co_trans : ∀ x y z, dom x → dom y → dom z → pg_op pg "<" x y = true → pg_op pg "<" y z = true → pg_op pg "<" x z = true;
  co_weak : ∀ x y z, dom x → dom y → dom z → pg_op pg "<" x z = true → pg_op pg "<" x y = true ∨ pg_op pg "<" y z = true;
  co_gt : ∀ x y, dom x → dom y → pg_op pg ">" x y = pg_op pg "<" y x;
  co_eq : ∀ x y, dom x → dom y → pg_equal pg x y = negb (pg_op pg "<" x y) && negb (pg_op pg "<" y x) }.

(** A value's cursor text, bound as a parameter, compares as the value does:
    Postgres reads it as the column's type. *)
Definition cursor_faithful (pg : PgSemantics) (dom : Json → Prop) : Prop :=
  ∀ v t, dom v → toCursorSortText (JsJson v) = Some (Some t) → ∀ x, dom x →
    pg_op pg "<" x (JStr t) = pg_op pg "<" x v ∧ pg_op pg ">" x (JStr t) = pg_op pg ">" x v ∧
    pg_equal pg x (JStr t) = pg_equal pg x v.

Definition is_text (v : Json) : Prop := ∃ s, v = JStr s.

Section order.
#[local] Set Default Proof Using "Type*".
Context (pg : PgSemantics) (sem : SqlSemantics) (ctx : ListContext)
  (sort : ListSort) (dom : Json → Prop).
Hypothesis (Hdom : ColumnOrder pg dom) (Htext : ColumnOrder pg is_text) (Hfaith : cursor_faithful pg dom).

Notation before := (row_before ctx pg sort).
Notation value := (sort_value ctx sort).

(** A row with an id that is no JSON object, and a sort value of the column's type or none. *)
Definition row_ok (row : gmap string Json) : Prop :=
  (∃ s, id_of ctx row = JStr s ∧ s ≠ "" ∧ starts_with "{" s = false) ∧ (value row = JNull ∨ dom (value row)).

Notation null_or_dom v := (v = JNull ∨ dom v).

Lemma non_null_dom v : null_or_dom v → (v = JNull ∧ non_null v = None) ∨ (dom v ∧ non_null v = Some v).
Proof.
  intros [->|Hv]; [by left|]. right. split; [done|]. pose proof (co_not_null _ _ Hdom v Hv). by destruct v.
Qed.

Ltac nulls := repeat match goal with H : _ = JNull ∨ dom _ |- _ => apply non_null_dom in H as [[? ->]|[? ->]] end.

Lemma value_irrefl d nf x : null_or_dom x → value_before pg d nf x x = false.
Proof. intros Hx. unfold value_before, lt_by. nulls; [done|]. destruct d; by apply (co_irrefl _ _ Hdom). Qed.

Lemma value_trans d nf x y z :
  null_or_dom x → null_or_dom y → null_or_dom z →
  value_before pg d nf x y = true → value_before pg d nf y z = true → value_before pg d nf x z = true.
Proof.
  intros Hx Hy Hz. unfold value_before, lt_by. nulls; try done; try (destruct nf; done).
  destruct d; intros; by apply (co_trans _ _ Hdom _ y).
Qed.

Lemma value_weak d nf x y z :
  null_or_dom x → null_or_dom y → null_or_dom z → value_before pg d nf x z = true →
  value_before pg d nf x y = true ∨ value_before pg d nf y z = true.
Proof.
  intros Hx Hy Hz. unfold value_before, lt_by. nulls; try (destruct nf; auto; done).
  destruct d; intros H'; [apply or_comm|]; by apply (co_weak _ _ Hdom).
Qed.

Lemma key_irrefl a : row_ok a → key_before ctx pg sort a a = false.
Proof. intros [_ Ha]. unfold key_before. destruct (sorted_by sort) as [[[[? ?] ?] ?]|]; [by apply value_irrefl|done]. Qed.

Lemma key_trans a b c :
  row_ok a → row_ok b → row_ok c → key_before ctx pg sort a b = true → key_before ctx pg sort b c = true →
  key_before ctx pg sort a c = true.
Proof.
  intros [_ Ha] [_ Hb] [_ Hc]. unfold key_before. destruct (sorted_by sort) as [[[[? ?] ?] ?]|]; [|done].
  by apply value_trans.
Qed.

Lemma key_weak a b c :
  row_ok a → row_ok b → row_ok c → key_before ctx pg sort a c = true →
  key_before ctx pg sort a b = true ∨ key_before ctx pg sort b c = true.
Proof.
  intros [_ Ha] [_ Hb] [_ Hc]. unfold key_before. destruct (sorted_by sort) as [[[[? ?] ?] ?]|]; [|done].
  by apply value_weak.
Qed.

Lemma row_before_order rows :
  (∀ row, row ∈ rows → row_ok row) → (∀ a b, a ∈ rows → b ∈ rows → id_of ctx a = id_of ctx b → a = b) →
  strict_order_on before rows.
Proof.
  intros Hok Hid. assert (Htid : ∀ row, row ∈ rows → is_text (id_of ctx row)).
  { intros row (( s & -> & _) & _)%Hok. by exists s. }
  split; unfold row_before.
  - intros x Hx. rewrite key_irrefl by auto. by rewrite (co_irrefl _ _ Htext) by auto.
  - intros x y z Hx Hy Hz. rewrite !orb_true_iff, !andb_true_iff, !negb_true_iff.
    intros [Hxy|[Hyx Ixy]] [Hyz|[Hzy Iyz]].
    + left. by apply (key_trans x y z); auto.
    + left. destruct (key_weak x z y) as [?|?]; auto. congruence.
    + left. destruct (key_weak y x z) as [?|?]; auto. congruence.
    + right. split; [|by apply (co_trans _ _ Htext _ (id_of ctx y)); auto].
      destruct (key_before ctx pg sort z x) eqn:Hzx; [|done]. destruct (key_weak z y x); auto; congruence.
  - intros x y Hx Hy Hne. destruct (key_before ctx pg sort x y) eqn:Hxy; [by left|].
    destruct (key_before ctx pg sort y x) eqn:Hyx; [by right|]. simpl.
    assert (He : pg_equal pg (id_of ctx x) (id_of ctx y) = false).
    { destruct (Htid x Hx) as [s Hs], (Htid y Hy) as [t Ht]. rewrite Hs, Ht. apply bool_decide_eq_false. intros ->.
      apply Hne, Hid; [done..|]. by rewrite Hs, Ht. }
    rewrite (co_eq _ _ Htext) in He by auto. destruct (pg_op pg "<" (id_of ctx x) (id_of ctx y)); [by left|].
    destruct (pg_op pg "<" (id_of ctx y) (id_of ctx x)); [by right|done].
Qed.

(** ** The boundary behind a cursor *)

Lemma bound_at_middle l1 b l2 : bound_at 1 (l1 ++ b :: l2) (S (length l1)) = bound_json b.
Proof. unfold bound_at. simpl. rewrite Nat.sub_0_r, list_lookup_middle by done. done. Qed.

Lemma key_value_sort field d nulls sql w row :
  sorted_by sort = Some (field, d, nulls, sql) → key_value (renderSortSql ctx field sql w).1 row = value row.
Proof. destruct sort as [|f ? ?|f ? ? e]; simpl; intros [= <- <- <- <-]; done. Qed.

Lemma renderSortSql_where field sql w :
  ∃ ps, (renderSortSql ctx field sql w).2 = mkListWhere (lw_conds w) (lw_params w ++ ps).
Proof. destruct sql as [e|]; simpl; [by eexists|]. exists []. rewrite app_nil_r. by destruct w. Qed.

Lemma after_id env r row n :
  row_ok r → row_ok row → env n = id_of ctx r →
  list_cond_eval pg sem env row (LCond (CCompare (physicalColumnName (lc_handles ctx) "id") ">" (op_param n)))
  = Some (pg_op pg "<" (id_of ctx r) (id_of ctx row)).
Proof.
  intros [(s & Hs & _) _] [(t & Ht & _) _] Hn. simpl. rewrite Hn. fold (id_of ctx row).
  rewrite <- (co_gt _ _ Htext) by (by eexists). unfold id_of in *. rewrite Hs, Ht. done.
Qed.

Notation after_id_cond n := (LCond (CCompare (physicalColumnName (lc_handles ctx) "id") ">" (op_param n))).
Notation id_before r row := (pg_op pg "<" (id_of ctx r) (id_of ctx row)).

(** The boundary conditions on one row, behind a row without a sort value and
    behind one with. *)
Lemma boundary_null env k n (d nf : bool) r row :
  key_value k row = value row → row_ok r → row_ok row → env n = id_of ctx r → value r = JNull →
  is_true3 (list_cond_eval pg sem env row
    (if nf then LSome [LKeyNotNull k; after_id_cond n] else LAll [LKeyNull k; after_id_cond n]))
  = value_before pg d nf (value r) (value row)
    || (negb (value_before pg d nf (value row) (value r)) && id_before r row).
Proof.
  intros Hk Hr Hrow Hn Hv. pose proof (after_id env r row n Hr Hrow Hn) as Ha. cbn [list_cond_eval] in Ha.
  rewrite Hv. unfold value_before.
  destruct nf; cbn [list_cond_eval map]; rewrite Ha, Hk; cbn [any3 all3 foldr].
  all: destruct (non_null_dom (value row)) as [[-> _]|[Hd Hnn]]; [apply Hrow| |]; simpl.
  all: try rewrite Hnn.
  all: try (replace (is_sql_null (value row)) with false by (pose proof (co_not_null _ _ Hdom _ Hd); by destruct (value row))).
  all: simpl; by destruct (id_before r row).
Qed.

Lemma boundary_value env k n m t (d nf : bool) r row :
  key_value k row = value row → row_ok r → row_ok row → env n = id_of ctx r → env m = JStr t →
  dom (value r) → toCursorSortText (JsJson (value r)) = Some (Some t) →
  is_true3 (list_cond_eval pg sem env row
    (let beyond := LKeyCompare k (if d then "<" else ">") m in
     let tie := LAll [LKeyCompare k "=" m; after_id_cond n] in
     if nf then LAll [LKeyNotNull k; LSome [beyond; tie]] else LSome [LKeyNull k; beyond; tie]))
  = value_before pg d nf (value r) (value row)
    || (negb (value_before pg d nf (value row) (value r)) && id_before r row).
Proof.
  intros Hk Hr Hrow Hn Hm Hd Ht. pose proof (after_id env r row n Hr Hrow Hn) as Ha. cbn [list_cond_eval] in Ha.
  assert (Hnr : non_null (value r) = Some (value r)).
  { destruct (non_null_dom (value r)) as [[Hj _]|[_ Hj]]; [by right| |done]. by destruct (co_not_null _ _ Hdom _ Hd). }
  unfold value_before. rewrite Hnr.
  destruct (non_null_dom (value row)) as [[Hv Hnn]|[Hv Hnn]]; [apply Hrow| |].
  - destruct nf; cbn [list_cond_eval map]; rewrite Ha, Hk, Hm, Hv; by destruct d.
  - destruct (Hfaith _ _ Hd Ht (value row) Hv) as (Hlt & Hgt & Heq).
    assert (Hb : compare3 pg (if d then "<" else ">") (value row) (JStr t) = Some (lt_by pg d (value r) (value row))).
    { unfold compare3. rewrite Hnn. simpl. destruct d; simpl; [by rewrite Hlt|by rewrite Hgt, (co_gt _ _ Hdom)]. }
    assert (He : compare3 pg "=" (value row) (JStr t)
                 = Some (negb (lt_by pg d (value r) (value row)) && negb (lt_by pg d (value row) (value r)))).
    { unfold compare3. rewrite Hnn. simpl. rewrite Heq, (co_eq _ _ Hdom) by done. f_equal. destruct d; simpl; [done|by rewrite andb_comm]. }
    assert (Hs : is_sql_null (value row) = false) by (pose proof (co_not_null _ _ Hdom _ Hv); by destruct (value row)).
    rewrite Hnn. destruct nf; cbn [list_cond_eval map]; rewrite Ha, Hk, Hm, Hb, He, Hs.
    all: pose proof (value_trans d false (value r) (value row) (value r)) as Hasym.
    all: pose proof (value_irrefl d false (value r)) as Hirr.
    all: unfold value_before in Hasym, Hirr; rewrite Hnr, Hnn in Hasym; rewrite Hnr in Hirr.
    all: rewrite Hirr in Hasym by auto; specialize (Hasym (or_intror Hd) (or_intror Hv) (or_intror Hd)).
    all: destruct (lt_by pg d (value r) (value row)), (lt_by pg d (value row) (value r)), (id_before r row); done || (exfalso; by discriminate Hasym).
Qed.

Lemma id_text_ok r : row_ok r → id_of ctx r = JStr (id_text ctx r) ∧ id_text ctx r ≠ "" ∧ starts_with "{" (id_text ctx r) = false.
Proof. intros [(s & Hs & Hne & Hb) _]. unfold id_text. by rewrite Hs. Qed.

(** The condition a cursor adds admits exactly the rows behind its row. *)
Lemma cursor_boundary w r :
  row_ok r →
  ∃ c extra, appendCursorBoundary ctx w (encodeNextCursor ctx (id_text ctx r) sort r) sort
             = Ok (mkListWhere (lw_conds w ++ [c]) (lw_params w ++ extra)) ∧
    ∀ more row, row_ok row →
      is_true3 (list_cond_eval pg sem (bound_at 1 (lw_params w ++ extra ++ more)) row c) = before r row.
Proof.
  intros Hr. destruct (id_text_ok r Hr) as (Hid & Hne & Hbrace).
  destruct (sorted_by sort) as [[[[field d] nulls] sql]|] eqn:Hs.
  - destruct (toCursorSortText (JsJson (value r))) as [v|] eqn:Hv; [|by destruct (value r)].
    assert (Henc : encodeNextCursor ctx (id_text ctx r) sort r = encodeKeysetCursor v (id_text ctx r)).
    { unfold encodeNextCursor. rewrite Hv. by destruct sort. }
    unfold appendCursorBoundary. rewrite Henc, keyset_cursor_decodes, Hs by done. simpl dk_sortValue. cbv iota.
    destruct (renderSortSql ctx field sql w) as [k w1] eqn:Hk.
    assert (Hkey : ∀ row, key_value k row = value row).
    { intros row. rewrite <- (key_value_sort field d nulls sql w row Hs). by rewrite Hk. }
    destruct (renderSortSql_where field sql w) as [ps Hps]. rewrite Hk in Hps. simpl in Hps. subst w1.
    unfold keysetBoundarySql, bind_value. simpl lw_params. simpl lw_conds. simpl dk_id.
    set (idp := BoundValue (JsJson (JStr (id_text ctx r)))).
    assert (Hbefore : ∀ row, before r row = value_before pg d (sortsNullsFirst d nulls) (value r) (value row)
        || (negb (value_before pg d (sortsNullsFirst d nulls) (value row) (value r)) && id_before r row)).
    { intros row. unfold row_before, key_before. by rewrite Hs. }
    destruct v as [t|]; eexists _, _; unfold push_cond; simpl lw_params; simpl lw_conds;
      (split; [by rewrite <- ?app_assoc|]); intros more row Hrow; rewrite Hbefore.
    + assert (Hdv : dom (value r)) by (destruct Hr as [_ [Hj|?]]; [by rewrite Hj in Hv|done]).
      apply (boundary_value _ _ _ _ t); try done.
      * rewrite Hid, <- !app_assoc. simpl. rewrite app_assoc. by rewrite bound_at_middle.
      * rewrite <- !app_assoc. simpl. change (idp :: ?x) with ([idp] ++ x). rewrite !app_assoc, app_nil_r.
        by rewrite bound_at_middle.
    + assert (Hnull : value r = JNull).
      { destruct (value r) as [|b|n|s|l|kvs]; simpl in Hv; congruence. }
      apply boundary_null; try done. rewrite Hid, <- !app_assoc. simpl. rewrite app_assoc. by rewrite bound_at_middle.
  - assert (sort = Unsorted) as -> by (destruct sort; done). simpl encodeNextCursor. unfold appendCursorBoundary.
    rewrite id_cursor_round_trip by done. cbn [sorted_by dk_sortValue]. unfold bind_value. eexists _, [_].
    split; [done|]. intros more row Hrow. simpl app. rewrite after_id with (r := r); [|done..|].
    + unfold row_before, key_before. simpl. by destruct (id_before r row).
    + by rewrite bound_at_middle, Hid.
Qed.
End order.

Lemma filter_ext_in {A} (P Q : A → Prop) `{∀ x, Decision (P x)} `{∀ x, Decision (Q x)} (l : list A) :
  (∀ x, x ∈ l → P x ↔ Q x) → filter P l = filter Q l.
Proof.
  induction l as [|x l IH]; intros Hpq; [done|]. rewrite !filter_cons, IH by (intros; apply Hpq; set_solver).
  specialize (Hpq x ltac:(set_solver)). repeat case_decide; tauto.
Qed.

Lemma encodeCursor_not_empty id : id ≠ "" → encodeCursor id ≠ "".
Proof. intros Hid He. apply Hid. rewrite <- (base64url_round_trip id). unfold encodeCursor in He. by rewrite He. Qed.

Lemma encodeNextCursor_not_empty ctx id sort row : id ≠ "" → encodeNextCursor ctx id sort row ≠ "".
Proof.
  intros Hid. unfold encodeNextCursor. destruct sort; [by apply encodeCursor_not_empty|..];
    (destruct (toCursorSortText _); [|by apply encodeCursor_not_empty]; apply encodeCursor_not_empty;
     rewrite keyset_payload_parts; done).
Qed.

Lemma renderListOrderBy_where ctx sort w :
  ∃ ps, (renderListOrderBy ctx sort w).2 = mkListWhere (lw_conds w) (lw_params w ++ ps).
Proof.
  unfold renderListOrderBy. destruct (sorted_by sort) as [[[[field d] nulls] sql]|].
  - destruct (renderSortSql ctx field sql w) as [k w1] eqn:Hk. destruct (renderSortSql_where ctx field sql w) as [ps Hps].
    rewrite Hk in Hps. exists ps. destruct sql; simpl in *; by rewrite Hps.
  - exists []. simpl. rewrite app_nil_r. by destruct w.
Qed.

(** ** Following the cursors *)

Definition with_cursor (cursor : option string) (p : ListPayload) : ListPayload :=
  mkListPayload (lp_limit p) (lp_offset p) cursor (lp_sort p) (lp_descending p) (lp_totalCount p) (lp_filter p) (lp_filters p).

Section paging.
#[local] Set Default Proof Using "Type*".
Context (pg : PgSemantics) (sem : SqlSemantics) (rls : bool)
  (lint : Sql → Table → bool) (blindIndex : option (string → string)) (ctx : ListContext)
  (parentClause : bool → OwnershipClause) (gateClause : OwnershipClause)
  (derivedSortExpr referenceSortExpr : string → option SortExpr)
  (payload : ListPayload) (user : SessionUser) (db : TenantDb) (options : ListOptions) (streamTenantId : string)
  (table : list (gmap string Json)).

Notation statement p := (listStatement lint blindIndex ctx parentClause gateClause derivedSortExpr referenceSortExpr
                           p user db options streamTenantId).
Notation page cursor := (list_verb lint blindIndex ctx parentClause gateClause derivedSortExpr referenceSortExpr
                           pg sem rls (with_cursor cursor payload) user db options streamTenantId table).

(** A client that asks for the next page while it is given a cursor. *)
Fixpoint follow_pages (fuel : nat) (cursor : option string) : result ListError (list (gmap string Json)) :=
  match fuel with
  | O => Ok []
  | S fuel =>
      let? found := page cursor in
      match lr_nextCursor found with
      | None => Ok (lr_rows found)
      | Some next => let? rest := follow_pages fuel (Some next) in Ok (lr_rows found ++ rest)
      end
  end.

(** The rows of the scope that the WHERE of a statement admits. *)
Definition visible_rows : list (gmap string Json) :=
  filter (λ row, rls_selects rls (tenantDbRowLevelSecurityScope db (lc_table ctx)) (lc_table ctx) row = true) table.

Definition matching_rows (st : ListStatement) : list (gmap string Json) :=
  filter (λ row, row_matches pg sem (lw_conds (ls_where st)) (ls_params st) row = true) visible_rows.

(** A statement binds its WHERE first. *)
Lemma statement_params p st :
  statement p = Ok (Some st) → ∃ more, ls_params st = lw_params (ls_where st) ++ more.
Proof.
  unfold listStatement. rewrite result_bind_Ok. intros ([limit offset] & _ & H). rewrite result_bind_Ok in H.
  destruct H as ([w|] & _ & H); [|done]. rewrite result_bind_Ok in H. destruct H as (sort & _ & H).
  rewrite result_bind_Ok in H. destruct H as (w1 & _ & H).
  destruct (renderListOrderBy ctx sort w1) as [[ob label] all] eqn:Ho. destruct (renderListOrderBy_where ctx sort w1) as [ps Hps].
  rewrite Ho in Hps. simpl in Hps. subst all. simpl in H. injection H as <-. simpl. eexists. by rewrite <- app_assoc.
Qed.

(** The statement behind a cursor is the first one with one more condition. *)
Lemma statement_with_cursor st cursor c extra :
  lp_cursor payload = None → cursor ≠ "" → statement payload = Ok (Some st) →
  appendCursorBoundary ctx (ls_where st) cursor (ls_sort st)
    = Ok (mkListWhere (lw_conds (ls_where st) ++ [c]) (lw_params (ls_where st) ++ extra)) →
  ∃ st' more, statement (with_cursor (Some cursor) payload) = Ok (Some st') ∧
    ls_sort st' = ls_sort st ∧ ls_limit st' = ls_limit st ∧ ls_offset st' = 0%nat ∧
    lw_conds (ls_where st') = lw_conds (ls_where st) ++ [c] ∧
    ls_params st' = lw_params (ls_where st) ++ extra ++ more.
Proof.
  intros Hc Hne Hst Hb. unfold listStatement in *. rewrite result_bind_Ok in Hst. destruct Hst as ([limit offset] & Hl & H).
  rewrite result_bind_Ok in H. destruct H as ([w|] & Hw & H); [|done]. rewrite result_bind_Ok in H. destruct H as (sort & Hs & H).
  assert (Hhas : has_cursor payload = None) by (unfold has_cursor; by rewrite Hc). rewrite Hhas in H.
  assert (Hhas' : has_cursor (with_cursor (Some cursor) payload) = Some cursor).
  { unfold has_cursor. simpl. by destruct cursor. }
  simpl in H. destruct (renderListOrderBy ctx sort w) as [[ob label] all]. simpl in H. injection H as <-. simpl in *.
  change (resolveListPagination (with_cursor (Some cursor) payload)) with (resolveListPagination payload).
  change (buildListWhere lint blindIndex ctx parentClause gateClause (with_cursor (Some cursor) payload))
    with (buildListWhere lint blindIndex ctx parentClause gateClause payload).
  change (resolveListSort lint ctx derivedSortExpr referenceSortExpr (with_cursor (Some cursor) payload))
    with (resolveListSort lint ctx derivedSortExpr referenceSortExpr payload).
  rewrite Hl. simpl. rewrite Hw. simpl. rewrite Hs. simpl. rewrite Hhas', Hb. simpl.
  set (w' := mkListWhere _ _). destruct (renderListOrderBy ctx sort w') as [[ob' label'] all'] eqn:Ho.
  destruct (renderListOrderBy_where ctx sort w') as [ps Hps]. rewrite Ho in Hps. simpl in Hps. subst all'. simpl.
  eexists _, _. split; [reflexivity|]. simpl. split_and!; try done. by rewrite <- !app_assoc.
Qed.

Context (st : ListStatement) (dom : Json → Prop).
Hypothesis (Hcursor : lp_cursor payload = None) (Hst : statement payload = Ok (Some st))
  (Hlimit : (0 < ls_limit st)%nat) (Hoffset : ls_offset st = 0%nat) (Hclosed : closed_where (ls_where st))
  (Hdom : ColumnOrder pg dom) (Htext : ColumnOrder pg is_text) (Hfaith : cursor_faithful pg dom)
  (Hnodup : NoDup table)
  (Hok : ∀ row, row ∈ matching_rows st → row_ok ctx (ls_sort st) dom row)
  (Hids : ∀ a b, a ∈ matching_rows st → b ∈ matching_rows st → id_of ctx a = id_of ctx b → a = b).

Notation before := (row_before ctx pg (ls_sort st)).
Notation listed := (order_rows ctx pg (ls_sort st) (matching_rows st)).
Notation cursor_of r := (encodeNextCursor ctx (id_text ctx r) (ls_sort st) r).

(** The page that starts with the rows [rows]. *)
Definition page_of (rows : list (gmap string Json)) (found : ListResult) : Prop :=
  let taken := take (ls_limit st) rows in
  lr_rows found = taken ∧
  lr_nextCursor found = if (length taken =? ls_limit st)%nat then (λ r, cursor_of r) <$> last taken else None.

Lemma matching_order : strict_order_on before (matching_rows st) ∧ NoDup (matching_rows st).
Proof.
  split; [by apply (row_before_order pg ctx (ls_sort st) dom)|].
  apply NoDup_filter. by apply NoDup_filter.
Qed.

Lemma first_page : ∃ found, page None = Ok found ∧ page_of listed found.
Proof.
  assert (Hp : with_cursor None payload = payload) by (destruct payload; simpl in *; by rewrite Hcursor).
  unfold list_verb. rewrite Hp, Hst. cbn [result_bind]. eexists. split; [done|].
  unfold page_of. simpl. unfold page_rows. rewrite Hoffset. done.
Qed.

Lemma next_page a r b : listed = a ++ r :: b → ∃ found, page (Some (cursor_of r)) = Ok found ∧ page_of b found.
Proof.
  intros Hl. destruct matching_order as [Hso Hnd].
  assert (Hr : r ∈ matching_rows st).
  { rewrite <- (elem_of_order_by before). unfold order_rows in Hl. rewrite Hl. set_solver. }
  destruct (cursor_boundary pg sem ctx (ls_sort st) dom Hdom Htext Hfaith (ls_where st) r (Hok r Hr))
    as (c & extra & Hb & Hc).
  destruct (id_text_ok pg ctx (ls_sort st) dom Hdom Htext Hfaith r (Hok r Hr)) as (_ & Hne & _).
  destruct (statement_with_cursor st (cursor_of r) c extra Hcursor (encodeNextCursor_not_empty _ _ _ _ Hne) Hst Hb)
    as (st' & more & Hst' & Hs' & Hl' & Ho' & Hc' & Hp').
  unfold list_verb. rewrite Hst'. cbn [result_bind]. eexists. split; [done|]. unfold page_of. simpl.
  enough (Hrows : page_rows ctx pg sem st' visible_rows = take (ls_limit st) b) by (by fold visible_rows; rewrite Hrows, Hs', Hl').
  unfold page_rows. rewrite Hs', Hl', Ho', Hc', Hp'. simpl drop. f_equal.
  destruct (statement_params payload st Hst) as [more0 Hp0].
  set (P := lw_params (ls_where st) ++ extra ++ more).
  assert (Hbase : ∀ row, row_matches pg sem (lw_conds (ls_where st) ++ [c]) P row
            = row_matches pg sem (lw_conds (ls_where st)) (ls_params st) row
              && is_true3 (list_cond_eval pg sem (bound_at 1 P) row c)).
  { intros row. unfold row_matches at 1. rewrite forallb_app. simpl. rewrite andb_true_r. f_equal.
    change (row_matches pg sem (lw_conds (ls_where st)) P row
            = row_matches pg sem (lw_conds (ls_where st)) (ls_params st) row).
    unfold P. by rewrite Hp0, !row_matches_app by done. }
  assert (Hf : filter (λ row, row_matches pg sem (lw_conds (ls_where st) ++ [c]) P row = true) visible_rows
               = filter (λ row, before r row = true) (matching_rows st)).
  { trans (filter (λ row, is_true3 (list_cond_eval pg sem (bound_at 1 P) row c) = true) (matching_rows st)).
    - unfold matching_rows. rewrite list_filter_filter. apply list_filter_iff. intros row.
      rewrite Hbase, andb_true_iff. tauto.
    - apply filter_ext_in. intros row Hrow. unfold P. by rewrite Hc by auto. }
  unfold order_rows. rewrite Hf, order_by_filter by done. unfold order_rows in Hl. rewrite Hl.
  apply filter_behind; rewrite <- Hl; [|by apply order_by_sorted].
  apply (strict_order_sub _ (matching_rows st)); [|done]. intros x. by rewrite elem_of_order_by.
Qed.

(** From a page on, the cursors lead through the rest of the list. *)
Lemma follow_rest n : ∀ a b cursor found,
  listed = a ++ b → page cursor = Ok found → page_of b found → (length b < n)%nat → follow_pages n cursor = Ok b.
Proof.
  induction n as [|n IH]; intros a b cursor found Hl Hp [Hrows Hnext] Hn; [lia|]. cbn [follow_pages].
  rewrite Hp. cbn [result_bind]. rewrite Hnext, Hrows. set (k := ls_limit st).
  destruct (Nat.eqb_spec (length (take k b)) k) as [Hk|Hk].
  - destruct (last (take k b)) as [r|] eqn:Hr.
    2: { apply last_None in Hr. rewrite Hr in Hk. simpl in Hk. unfold k in Hk. lia. }
    cbn [fmap option_fmap option_map]. apply last_Some in Hr as [t Ht].
    assert (Hl' : listed = (a ++ t) ++ r :: drop k b).
    { rewrite Hl, <- app_assoc. f_equal. rewrite <- (take_drop k b) at 1. by rewrite Ht, <- app_assoc. }
    destruct (next_page _ _ _ Hl') as (found' & Hp' & Hof).
    rewrite (IH ((a ++ t) ++ [r]) (drop k b) _ found'); [|by rewrite <- app_assoc|done|done|].
    + cbn [result_bind]. by rewrite take_drop.
    + rewrite length_drop. rewrite length_take in Hk. unfold k in *. lia.
  - f_equal. apply take_ge. rewrite length_take in Hk. lia.
Qed.

Lemma pages_complete :
  follow_pages (S (length (matching_rows st))) None = Ok listed ∧
  listed ≡ₚ matching_rows st ∧ StronglySorted (λ a b, before a b = true) listed.
Proof.
  destruct matching_order as [Hso Hnd]. destruct first_page as (found & Hp & Hof).
  split_and!; [|apply order_by_perm|by apply order_by_sorted].
  apply (follow_rest _ [] _ _ found); [done..|]. unfold order_rows. rewrite order_by_perm. lia.
Qed.
End paging.

(** Without a cursor the statement's WHERE is the one that was built. *)
Lemma first_statement lint blindIndex ctx parentClause gateClause derivedSortExpr referenceSortExpr p user db options t st :
  lp_cursor p = None →
  listStatement lint blindIndex ctx parentClause gateClause derivedSortExpr referenceSortExpr p user db options t = Ok (Some st) →
  ∃ w, buildListWhere lint blindIndex ctx parentClause gateClause p user db options = Ok (Some w) ∧ ls_where st = w.
Proof.
  intros Hc. unfold listStatement. rewrite result_bind_Ok. intros ([limit offset] & _ & H). rewrite result_bind_Ok in H.
  destruct H as ([w|] & Hw & H); [|done]. rewrite result_bind_Ok in H. destruct H as (sort & _ & H).
  assert (Hhas : has_cursor p = None) by (unfold has_cursor; by rewrite Hc). rewrite Hhas in H. simpl in H.
  destruct (renderListOrderBy ctx sort w) as [[ob label] all]. simpl in H. injection H as <-. by exists w.
Qed.

(** C3: following the cursors of a list visits every matching row once, in the
    requested order.  For a list without offset whose page size is positive,
    sorted by a column or label Postgres can compare or by id alone, and with
    NULLs first or last, the pages put together are the matching rows of the
    table ordered by sort value and id: no row is skipped or repeated at a page
    boundary, rows with equal or missing sort values included.  One request
    more than there are rows is always enough. *)
Theorem pages_visit_every_row_once (pg : PgSemantics) (sem : SqlSemantics) (rls : bool)
    (lint : Sql → Table → bool) (blindIndex : option (string → string)) (ctx : ListContext)
    (parentClause : bool → OwnershipClause) (gateClause : OwnershipClause)
    (derivedSortExpr referenceSortExpr : string → option SortExpr) (payload : ListPayload) (user : SessionUser)
    (db : TenantDb) (options : ListOptions) (streamTenantId : string) (table : list (gmap string Json))
    (st : ListStatement) (dom : Json → Prop)
    (Hfields : fields_within ctx) (Hread : rules_within (le_read (lc_entity ctx)))
    (Hparent : ∀ b, closed_clause (parentClause b)) (Hgate : closed_clause gateClause)
    (Hcursor : lp_cursor payload = None)
    (Hst : listStatement lint blindIndex ctx parentClause gateClause derivedSortExpr referenceSortExpr
             payload user db options streamTenantId = Ok (Some st))
    (Hlimit : (0 < ls_limit st)%nat) (Hoffset : ls_offset st = 0%nat)
    (Hdom : ColumnOrder pg dom) (Htext : ColumnOrder pg is_text) (Hfaith : cursor_faithful pg dom) (Hnodup : NoDup table)
    (Hok : ∀ row, row ∈ matching_rows pg sem rls ctx db table st → row_ok ctx (ls_sort st) dom row)
    (Hids : ∀ a b, a ∈ matching_rows pg sem rls ctx db table st → b ∈ matching_rows pg sem rls ctx db table st →
              id_of ctx a = id_of ctx b → a = b) :
  let matching := matching_rows pg sem rls ctx db table st in
  let listed := order_rows ctx pg (ls_sort st) matching in
  follow_pages pg sem rls lint blindIndex ctx parentClause gateClause derivedSortExpr referenceSortExpr payload user db
    options streamTenantId table (S (length matching)) None = Ok listed ∧
  listed ≡ₚ matching ∧ StronglySorted (λ a b, row_before ctx pg (ls_sort st) a b = true) listed.
Proof.
  intros matching listed.
  assert (Hclosed : closed_where (ls_where st)).
  { destruct (first_statement _ _ _ _ _ _ _ _ _ _ _ _ _ Hcursor Hst) as (w & Hw & ->). by eapply closed_build. }
  by apply (pages_complete pg sem rls lint blindIndex ctx parentClause gateClause derivedSortExpr referenceSortExpr
              payload user db options streamTenantId table st dom).
Qed.

(** ** A table to list *)

(** Strings by their bytes (the collation C). *)
Fixpoint byte_ltb (s t : string) : bool :=
  match s, t with
  | _, EmptyString => false
  | EmptyString, String _ _ => true
  | String a s', String b t' =>
      let x := Ascii.N_of_ascii a in let y := Ascii.N_of_ascii b in
      (x <? y)%N || ((x =? y)%N && byte_ltb s' t')
  end.

Lemma byte_ltb_irrefl s : byte_ltb s s = false.
Proof. induction s as [|a s IH]; simpl; [done|]. by rewrite IH, N.ltb_irrefl, andb_false_r. Qed.

Lemma byte_ltb_trans s t u : byte_ltb s t = true → byte_ltb t u = true → byte_ltb s u = true.
Proof.
  revert t u. induction s as [|a s IH]; intros [|b t] [|c u]; simpl; try done.
  rewrite !orb_true_iff, !andb_true_iff, !N.ltb_lt, !N.eqb_eq. intros [?|[? ?]] [?|[? ?]]; [lia..|].
  right. split; [lia|]. by apply (IH t).
Qed.

Lemma byte_ltb_total s t : byte_ltb s t = false → byte_ltb t s = false → s = t.
Proof.
  revert t. induction s as [|a s IH]; intros [|b t]; simpl; try done.
  rewrite !orb_false_iff, !andb_false_iff, !N.ltb_ge, !N.eqb_neq. intros [? Hst] [? Hts].
  assert (Heq : Ascii.N_of_ascii a = Ascii.N_of_ascii b) by lia. f_equal.
  - by rewrite <- (Ascii.ascii_N_embedding a), Heq, Ascii.ascii_N_embedding.
  - destruct Hst as [?|?]; [done|]. destruct Hts as [?|?]; [congruence|]. by apply IH.
Qed.

Definition text_pg : PgSemantics :=
  mkPg (λ symbol a b, match a, b with
                      | JStr x, JStr y => if bool_decide (symbol = "<") then byte_ltb x y
                                          else if bool_decide (symbol = ">") then byte_ltb y x else false
                      | JBool x, JBool y => bool_decide (symbol = "=") && Bool.eqb x y
                      | _, _ => false
                      end)
    (λ _ _, false) (λ _, "") (λ text, JBool (bool_decide (text = "TRUE"))).

Lemma text_order : ColumnOrder text_pg is_text.
Proof.
  split.
  - by intros x [s ->].
  - intros x [s ->]. apply byte_ltb_irrefl.
  - intros x y z [s ->] [t ->] [u ->]. apply byte_ltb_trans.
  - intros x y z [s ->] [t ->] [u ->]. simpl. intros Hsu. destruct (byte_ltb s t) eqn:Hst; [by left|]. right.
    destruct (byte_ltb t s) eqn:Hts; [by apply (byte_ltb_trans t s u)|]. by rewrite <- (byte_ltb_total s t).
  - by intros x y [s ->] [t ->].
  - intros x y [s ->] [t ->]. simpl. case_bool_decide as Heq; [subst; by rewrite byte_ltb_irrefl|].
    destruct (byte_ltb s t) eqn:Hst; [done|]. destruct (byte_ltb t s) eqn:Hts; [done|]. by destruct Heq; apply byte_ltb_total.
Qed.

Lemma text_faithful : cursor_faithful text_pg is_text.
Proof. intros v t [s ->] [= ->] x [u ->]. done. Qed.

Definition tasks_entity : ListEntity :=
  mkListEntity
    [("title", mkListField "text" false None (Some NullsFirst) false false false false);
     ("owner", mkListField "text" false (Some (EntryMap [("member", RuleFrom (mkFrom KindUser "id" "owner"))]))
                 None false false false false);
     ("note", mkListField "text" false (Some (EntryMap [("lead", RuleAll)])) None false false false false);
     ("tokens", mkListField "text" false None None true false false false)]
    None true.

Definition tasks_columns : list ColumnMeta :=
  (λ c, mkColumn c "text" false) <$> ["id"; "tenant_id"; "title"; "owner"; "note"; "tokens"; "is_deleted"].

Definition tasks : ListContext :=
  mkListContext tasks_entity
    (mkTable "tasks" [("id", "id"); ("tenantId", "tenant_id"); ("title", "title"); ("owner", "owner"); ("note", "note");
                      ("tokens", "tokens"); ("isDeleted", "is_deleted")])
    (mkDbTable (mkMeta "tasks" tasks_columns None [] None) false true).

Definition task (id tenant : string) (title : Json) (owner : string) (deleted : bool) : gmap string Json :=
  list_to_map [("id", JStr id); ("tenant_id", JStr tenant); ("title", title); ("owner", JStr owner);
               ("note", JStr "n"); ("is_deleted", JBool deleted)].

Definition task_rows : list (gmap string Json) :=
  [task "a3" "t1" (JStr "x") "u1" false; task "a1" "t1" (JStr "y") "u2" false; task "a5" "t1" JNull "u1" false;
   task "a2" "t1" (JStr "x") "u1" false; task "a4" "t2" (JStr "w") "u1" false; task "a6" "t1" (JStr "v") "u1" true].

Definition member : SessionUser := mkUser "u1" "t1" ["member"] None.
Definition tenant_db : TenantDb := mkTenantDb "t1" ModeTenant (mkGrants None None None) false.
Definition by_title : ListPayload :=
  mkListPayload (JsJson (JNum 2)) JsUndefined None (Some "title") true false None None.

Notation task_pages := (follow_pages text_pg text_columns true (λ _ _, true) None tasks (λ _, ClausePass) ClausePass
  (λ _, None) (λ _, None) by_title member tenant_db (mkListOptions false false) "t1" task_rows) (only parsing).

Example task_page_ids :
  match task_pages 5 None with Ok rows => id_text tasks <$> rows | Err _ => [] end = ["a5"; "a1"; "a2"; "a3"].
Proof. vm_compute. reflexivity. Qed.

Notation task_statement_of := (listStatement (λ _ _, true) None tasks (λ _, ClausePass) ClausePass (λ _, None) (λ _, None)
  by_title member tenant_db (mkListOptions false false) "t1") (only parsing).

Definition task_statement : ListStatement :=
  Eval vm_compute in match task_statement_of with Ok (Some st) => st | _ => mkListStatement (mkListWhere [] []) Unsorted 0 0 "" [] end.

Lemma task_statement_built : task_statement_of = Ok (Some task_statement).
Proof. vm_compute. reflexivity. Qed.

Notation task_matching := (matching_rows text_pg text_columns true tasks tenant_db task_rows task_statement) (only parsing).

Definition task_ok (row : gmap string Json) : bool :=
  match id_of tasks row with JStr s => negb (bool_decide (s = "")) && negb (starts_with "{" s) | _ => false end
  && match sort_value tasks (ls_sort task_statement) row with JNull | JStr _ => true | _ => false end.

Lemma task_ok_row row : task_ok row = true → row_ok tasks (ls_sort task_statement) is_text row.
Proof.
  unfold task_ok. intros [Hid Hv]%andb_true_iff. split.
  - destruct (id_of tasks row); try done. exists s. apply andb_true_iff in Hid as [H1 H2]. reflect_bools. done.
  - destruct (sort_value _ _ row); try done; [by left|]. right. by eexists.
Qed.

Lemma tasks_are_ok : Forall (λ row, task_ok row = true) task_matching ∧ NoDup (id_text tasks <$> task_matching)
  ∧ length task_matching = 4%nat ∧ NoDup (id_text tasks <$> task_rows).
Proof. apply (bool_decide_unpack _). vm_compute. exact I. Qed.

Lemma tasks_fields_within : fields_within tasks.
Proof.
  intros field f. unfold list_field. simpl. repeat case_decide; intros [= <-]; unfold rules_within; simpl; by repeat constructor.
Qed.

Lemma pages_visit_every_row_once_witness :
  task_pages 5 None = Ok (order_rows tasks text_pg (ls_sort task_statement) task_matching).
Proof.
  destruct tasks_are_ok as (Hok & Hids & Hlen & Hnd). rewrite Forall_forall in Hok.
  destruct (pages_visit_every_row_once text_pg text_columns true (λ _ _, true) None tasks (λ _, ClausePass) ClausePass
              (λ _, None) (λ _, None) by_title member tenant_db (mkListOptions false false) "t1" task_rows task_statement is_text
              tasks_fields_within (List.Forall_nil _) (λ _, I) I eq_refl task_statement_built ltac:(vm_compute; lia) eq_refl
              text_order text_order text_faithful (NoDup_fmap_1 _ _ Hnd)
              (λ row Hrow, task_ok_row row (Hok row Hrow)) (λ a b Ha Hb Heq, NoDup_key_inj (id_text tasks) task_matching a b Hids Ha Hb
                 (f_equal (λ v, match v with JStr s => s | _ => "" end) Heq))) as [H _].
  rewrite Hlen in H. exact H.
Defined.
