(* ===== verification/ListScope.v ===== *)
(** * The scope of entity lists

    Which rows the [list] verb of [ListRead] can return, whatever the table
    holds: the caller's tenant, the ownership and visibility clauses, live rows,
    and, for every filtered field, rows on which the caller may read the field.
    Fields a caller may not read, and secret ones, are not probed. *)

From S2P Require Import Prelude TableInfo Ownership FieldAccess WhereClause TenantDb Cursor ListRead ListPaging.

Open Scope list_scope.

(** ** A WHERE only grows *)

Definition extends (w w' : ListWhere) : Prop :=
  ∃ cs ps, lw_conds w' = lw_conds w ++ cs ∧ lw_params w' = lw_params w ++ ps.

#[global] Instance extends_preorder : PreOrder extends.
Proof.
  split.
  - intros w. exists [], []. by rewrite !app_nil_r.
  - intros a b c (cs & ps & H1 & H2) (cs' & ps' & H3 & H4). exists (cs ++ cs'), (ps ++ ps').
    by rewrite H3, H4, H1, H2, !app_assoc.
Qed.

Lemma extends_bound w c ps : extends w (push_cond c (mkListWhere (lw_conds w) (lw_params w ++ ps))).
Proof. by exists [c], ps. Qed.

Lemma extends_push c w : extends w (push_cond c w).
Proof. exists [c], []. by rewrite app_nil_r. Qed.

Lemma extends_shifted f w : extends w (appendShiftedClause f w).
Proof. by eexists [_], _. Qed.

Create HintDb grow.
#[local] Hint Resolve extends_push extends_bound extends_shifted : grow.
#[local] Hint Extern 1 (extends ?w ?w) => reflexivity : grow.

Lemma extends_foldl {A} (step : ListWhere → A → ListWhere) (l : list A) w :
  (∀ w a, extends w (step w a)) → extends w (foldl step w l).
Proof.
  intros Hs. revert w. induction l as [|a l IH]; intros w; simpl; [reflexivity|]. etrans; [apply Hs|apply IH].
Qed.

Section growth.
#[local] Set Default Proof Using "Type*".
Context (lint : Sql → Table → bool) (blindIndex : option (string → string)) (ctx : ListContext).

Lemma extends_inList field values w : extends w (inListSql ctx field values w).
Proof.
  unfold inListSql. destruct (declared_type _ _) as [t|]; [destruct (bool_decide _)|]; apply extends_bound.
Qed.

Lemma extends_multiSelect f w : extends w (applyMultiSelectFilter ctx f w).
Proof.
  unfold applyMultiSelectFilter, push_false. destruct (f_op f); try apply extends_push.
  1, 2: destruct (default _ _); [apply extends_push|apply extends_bound].
  destruct (as_array _) as [[|v vs]|]; try apply extends_push. apply (extends_bound w _ (_ <$> (v :: vs))).
Qed.

Lemma extends_operators column o w : extends w (operator_conds column o w).
Proof. apply extends_foldl. intros w' op. destruct (assoc_get op.1 o); [apply extends_bound|reflexivity]. Qed.

Lemma extends_entry entry w : extends w (screen_entry blindIndex ctx w entry).
Proof.
  destruct entry as [field value]. unfold screen_entry. cbv zeta. destruct (is_null value); [apply extends_push|].
  destruct (as_array value); [apply extends_inList|]. destruct (as_object value).
  { destruct (_ && _); [apply extends_push|apply extends_operators]. }
  destruct blindIndex as [hmac|]; [|apply extends_bound]. destruct value as [|[]| | |]; try apply extends_bound.
  destruct (has_handle _ _); [|apply extends_bound]. simpl. rewrite <- app_assoc. apply (extends_bound w _ [_; _]).
Qed.

Lemma extends_screen f w : extends w (applyScreenFilter blindIndex ctx f w).
Proof.
  unfold applyScreenFilter. destruct (buildFilterWhere _ _ _); [|apply extends_push].
  apply extends_foldl. intros. apply extends_entry.
Qed.

Lemma extends_filter user w f w' : applyListFilter lint blindIndex ctx user w f = Ok w' → extends w w'.
Proof.
  unfold applyListFilter. destruct (has_handle _ _); simpl; [|intros [= <-]; reflexivity].
  rewrite result_bind_Ok. intros (clause & _ & H). destruct clause as [| |fragment]; [|injection H as <-; apply extends_push|].
  all: destruct (isListFilterAllowed _ _ _); simplify_eq/=.
  all: try (etrans; [apply (extends_shifted fragment)|]); destruct (isJsonbArrayField _);
    [apply extends_multiSelect|apply extends_screen].
Qed.

Lemma extends_filters user fs : ∀ w w', apply_filters lint blindIndex ctx user w fs = Ok w' → extends w w'.
Proof.
  induction fs as [|f fs IH]; intros w w'; simpl; [intros [= <-]; reflexivity|].
  rewrite result_bind_Ok. intros (w1 & H1%extends_filter & H2%IH). by etrans.
Qed.

Lemma extends_boundary w cursor sort w' : appendCursorBoundary ctx w cursor sort = Ok w' → extends w w'.
Proof.
  unfold appendCursorBoundary. destruct (decodeKeysetCursor cursor) as [c|]; [|done].
  destruct (sorted_by sort) as [[[[field d] nulls] sql]|]; [destruct (dk_sortValue c) as [v|]|];
    [|intros [= <-]; apply extends_bound..].
  destruct (renderSortSql ctx field sql w) as [k w1] eqn:Hk. destruct (renderSortSql_where ctx field sql w) as [ps Hps].
  rewrite Hk in Hps. simpl in Hps. subst w1. unfold keysetBoundarySql, bind_value.
  destruct v as [v|]; intros [= <-]; unfold push_cond; simpl; eexists [_], _; by rewrite <- ?app_assoc.
Qed.
End growth.

(** ** What a WHERE guarantees *)

Section where_ensures.
#[local] Set Default Proof Using "Type*".
Context (pg : PgSemantics) (sem : SqlSemantics).

(** Every row the WHERE admits satisfies [Q], whatever is bound behind it. *)
Definition where_ensures (w : ListWhere) (Q : gmap string Json → Prop) : Prop :=
  ∀ more row, row_matches pg sem (lw_conds w) (lw_params w ++ more) row = true → Q row.

Lemma guards_extends w w' Q : extends w w' → where_ensures w Q → where_ensures w' Q.
Proof.
  intros (cs & ps & Hc & Hp) Hg more row. rewrite Hc, Hp. unfold row_matches. rewrite forallb_app, <- app_assoc.
  intros [Hm _]%andb_true_iff. by apply (Hg (ps ++ more)).
Qed.

(** The condition just added holds. *)
Lemma guards_added c ps w Q :
  (∀ more row, is_true3 (list_cond_eval pg sem (bound_at 1 (lw_params w ++ ps ++ more)) row c) = true → Q row) →
  where_ensures (mkListWhere (lw_conds w ++ [c]) (lw_params w ++ ps)) Q.
Proof.
  intros H more row. unfold row_matches. simpl. rewrite forallb_app, <- app_assoc. simpl.
  rewrite andb_true_r. intros [_ Hc]%andb_true_iff. by apply (H more).
Qed.

Lemma guards_bound c ps w Q :
  (∀ more row, is_true3 (list_cond_eval pg sem (bound_at 1 (lw_params w ++ ps ++ more)) row c) = true → Q row) →
  where_ensures (push_cond c (mkListWhere (lw_conds w) (lw_params w ++ ps))) Q.
Proof. apply guards_added. Qed.

Lemma guards_pushed c w Q :
  (∀ env row, is_true3 (list_cond_eval pg sem env row c) = true → Q row) → where_ensures (push_cond c w) Q.
Proof.
  intros H. destruct w as [conds params]. unfold push_cond. simpl. rewrite <- (app_nil_r params).
  apply (guards_added c [] (mkListWhere conds params)). intros more row. apply H.
Qed.

Lemma guards_false w : where_ensures (push_false w) (λ _, False).
Proof.
  destruct w as [conds params]. unfold push_false, push_cond. simpl.
  intros more row. unfold row_matches. simpl. rewrite forallb_app. simpl. by rewrite andb_false_r.
Qed.

Lemma bound_at_in (l1 : list Bound) (vs : list Json) more n :
  (1 ≤ n ≤ length vs)%nat →
  Some (bound_at 1 (l1 ++ ((λ v, BoundValue (JsJson v)) <$> vs) ++ more) (n + length l1)) = bind_of vs n.
Proof.
  intros Hn. destruct n as [|i]; [lia|]. unfold bound_at. replace (S i + length l1 - 1)%nat with (length l1 + i)%nat by lia.
  rewrite lookup_app_r by lia. replace (length l1 + i - length l1)%nat with i by lia.
  rewrite lookup_app_l by (rewrite length_fmap; lia). rewrite list_lookup_fmap. simpl.
  destruct (lookup_lt_is_Some_2 vs i) as [v Hv]; [lia|]. by rewrite Hv.
Qed.

Lemma guards_clause f w :
  closed_fragment f → where_ensures (appendShiftedClause f w) (λ row, clause_admits sem (ClauseSql f) (map_to_list row) = true).
Proof.
  intros Hf. apply guards_added. intros more row. simpl. rewrite admits_shiftParams, shiftParams_params. intros H.
  rewrite <- H. destruct (sql_admits sem _ _ _) eqn:Hb in H; [|done]. simpl in H.
  rewrite Hb. simpl. rewrite <- Hb. apply admits_ext. intros n Hn. symmetry.
  unfold closed_fragment in Hf. rewrite Forall_forall in Hf. by apply bound_at_in, Hf.
Qed.

Lemma empty_clause_or clause : clause = ClauseEmpty ∨ clause ≠ ClauseEmpty.
Proof. by destruct clause; auto. Qed.

(** The clause just added, of any kind. *)
Definition add_clause (clause : OwnershipClause) (w : ListWhere) : ListWhere :=
  match clause with ClauseSql f => appendShiftedClause f w | _ => w end.

Lemma guards_add_clause clause w :
  closed_clause clause → clause ≠ ClauseEmpty →
  where_ensures (add_clause clause w) (λ row, clause_admits sem clause (map_to_list row) = true).
Proof. destruct clause as [| |f]; [done|done|]. intros Hc _. by apply guards_clause. Qed.
End where_ensures.

Section scope.
#[local] Set Default Proof Using "Type".
Context (pg : PgSemantics) (sem : SqlSemantics)
  (lint : Sql → Table → bool) (blindIndex : option (string → string)) (ctx : ListContext).

Notation colSql := (physicalColumnName (lc_handles ctx)).

(** The tenant filter and the trash filter on one row. *)
Definition in_tenant_scope (db : TenantDb) (row : gmap string Json) : Prop :=
  has_handle (lc_handles ctx) "tenantId" = true → is_tenant_mode db = true →
  text_or_null (column_value row (colSql "tenantId")) = true →
  ∃ t, t ∈ allowed_ids db ∧ column_value row (colSql "tenantId") = JStr t.

Definition in_trash_scope (trash : Trash) (row : gmap string Json) : Prop :=
  le_softDelete (lc_entity ctx) = true → has_handle (lc_handles ctx) "isDeleted" = true →
  let holds b := compare3 pg "=" (column_value row (colSql "isDeleted")) (pg_literal pg b) = Some true in
  match trash with TrashLive => holds "FALSE" | TrashOnlyDeleted => holds "TRUE" | TrashWithDeleted => True end.

Lemma equal_text x s : text_or_null x = true → compare3 pg "=" x (JStr s) = Some true → x = JStr s.
Proof. destruct x; try done. simpl. unfold compare3. simpl. intros _ [= ->%bool_decide_eq_true]. done. Qed.

Lemma guards_tenant db w : where_ensures pg sem (add_tenant_scope ctx db w) (in_tenant_scope db).
Proof.
  unfold add_tenant_scope. destruct (has_handle _ _ && _) eqn:Hh.
  - apply guards_bound. intros more row H _ _ Htext.
    set (v := column_value row (colSql "tenantId")) in *.
    assert (Hor : compare3 pg "=" v (JStr (td_tenantId db)) = Some true ∨ compare3 pg "=" v (JStr SYSTEM_TENANT_ID) = Some true).
    { revert H. simpl. fold v. rewrite bound_at_middle. change (?a :: ?b :: more) with ([a] ++ b :: more).
      rewrite app_assoc. replace (S (S (length (lw_params w)))) with (S (length (lw_params w ++ [BoundValue (JsJson (JStr (td_tenantId db)))])))
        by (rewrite length_app; simpl; lia).
      rewrite bound_at_middle. simpl. destruct (compare3 pg "=" v (JStr (td_tenantId db))) as [[]|]; [by left| |];
        destruct (compare3 pg "=" v (JStr SYSTEM_TENANT_ID)) as [[]|]; by auto. }
    unfold allowed_ids. destruct Hor as [He|He]; apply equal_text in He; try done; [exists (td_tenantId db)|exists SYSTEM_TENANT_ID];
      (split; [set_solver|exact He]).
  - intros more row _ Hh' Hm. by rewrite Hh', Hm in Hh.
Qed.

Lemma guards_scope db trash w :
  where_ensures pg sem (appendTenantAndSoftDeleteScope ctx db trash w) (in_tenant_scope db) ∧
  where_ensures pg sem (appendTenantAndSoftDeleteScope ctx db trash w) (in_trash_scope trash).
Proof.
  unfold appendTenantAndSoftDeleteScope.
  pose proof (guards_tenant db w) as Ht. cbv zeta.
  destruct (_ && has_handle _ "isDeleted") eqn:Hd.
  - destruct trash; (split; [eapply guards_extends; [|exact Ht]; first [apply extends_push|reflexivity]|]).
    + apply guards_pushed. intros env row H _ _. simpl in *. by destruct (compare3 pg "=" _ _) as [[]|].
    + by intros more row _ _ _.
    + apply guards_pushed. intros env row H _ _. simpl in *. by destruct (compare3 pg "=" _ _) as [[]|].
  - split; [done|]. intros more row _ Hs Hh. by rewrite Hs, Hh in Hd.
Qed.

(** What a filter guarantees of a row: the caller may read the filtered field
    there, and the field may be filtered this way. *)
Definition filter_allowed (user : SessionUser) (f : ListFilter) (row : gmap string Json) : Prop :=
  has_handle (lc_handles ctx) (f_field f) = true →
  ∃ clause, fieldReadClause lint ctx user (f_field f) = Ok clause ∧
    clause_admits sem clause (map_to_list row) = true ∧ isListFilterAllowed (lc_entity ctx) (f_field f) f = true.

Lemma guards_filter user w f w' :
  fields_within ctx → applyListFilter lint blindIndex ctx user w f = Ok w' → where_ensures pg sem w' (filter_allowed user f).
Proof.
  intros Hf. unfold applyListFilter, filter_allowed. destruct (has_handle _ _); simpl; [|by intros _ more row _ ?].
  rewrite result_bind_Ok. intros (clause & Hc & H).
  destruct (empty_clause_or clause) as [->|Hne].
  { injection H as <-. by intros more row [] %guards_false. }
  assert (Hcl : closed_clause clause) by by eapply fieldReadClause_closed.
  assert (H' : (if negb (isListFilterAllowed (lc_entity ctx) (f_field f) f) then Err (ErrNotFilterable (f_field f))
                else Ok (if isJsonbArrayField (list_field (lc_entity ctx) (f_field f))
                         then applyMultiSelectFilter ctx f (add_clause clause w)
                         else applyScreenFilter blindIndex ctx f (add_clause clause w))) = Ok w').
  { destruct clause; done. }
  destruct (isListFilterAllowed _ _ _); [|done]. simpl in H'. injection H' as H'.
  assert (Hext : extends (add_clause clause w) w').
  { rewrite <- H'. destruct (isJsonbArrayField _); [apply extends_multiSelect|apply extends_screen]. }
  intros more row Hm _. exists clause. split_and!; [done| |done].
  by apply (guards_extends pg sem _ _ _ Hext (guards_add_clause pg sem clause w Hcl Hne) more).
Qed.

Lemma guards_filters user fs : ∀ w w' f,
  fields_within ctx → f ∈ fs → apply_filters lint blindIndex ctx user w fs = Ok w' →
  where_ensures pg sem w' (filter_allowed user f).
Proof.
  induction fs as [|g fs IH]; intros w w' f Hf Hin; [set_solver|]. simpl. rewrite result_bind_Ok. intros (w1 & H1 & H2).
  apply elem_of_cons in Hin as [->|Hin]; [|by eapply IH].
  eapply guards_extends; [by eapply extends_filters|by eapply guards_filter].
Qed.

Lemma build_guards parentClause gateClause payload user db options w :
  fields_within ctx → rules_within (le_read (lc_entity ctx)) →
  (∀ b, closed_clause (parentClause b)) → closed_clause gateClause →
  buildListWhere lint blindIndex ctx parentClause gateClause payload user db options = Ok (Some w) →
  ∃ own, resolveReadOwnership lint ctx parentClause gateClause user (lo_onlyDeleted options || lo_includeDeleted options) = Ok own ∧
    where_ensures pg sem w (λ row, clause_admits sem own (map_to_list row) = true) ∧
    where_ensures pg sem w (in_tenant_scope db) ∧
    where_ensures pg sem w (in_trash_scope (if lo_onlyDeleted options then TrashOnlyDeleted
                             else if lo_includeDeleted options then TrashWithDeleted else TrashLive)) ∧
    ∀ f, f ∈ collectListFilters (lp_filter payload) (lp_filters payload) → where_ensures pg sem w (filter_allowed user f).
Proof.
  intros Hf Hr Hp Hg. unfold buildListWhere. destruct (_ && _); [done|]. rewrite result_bind_Ok. intros (own & Ho & H).
  assert (Hown : closed_clause own) by by eapply resolve_closed.
  set (trash := if lo_onlyDeleted options then _ else _) in H.
  set (w0 := appendTenantAndSoftDeleteScope ctx db trash (mkListWhere [] [])) in H.
  destruct (empty_clause_or own) as [->|Hne]; [done|].
  assert (H' : (let? w := apply_filters lint blindIndex ctx user (add_clause own w0)
                  (collectListFilters (lp_filter payload) (lp_filters payload)) in Ok (Some w)) = Ok (Some w)).
  { by destruct own. }
  rewrite result_bind_Ok in H'. destruct H' as (w1 & H1 & [= ->]).
  assert (Hext : extends (add_clause own w0) w) by by eapply extends_filters.
  assert (Hext0 : extends w0 (add_clause own w0)) by (destruct own; [reflexivity|reflexivity|apply extends_shifted]).
  destruct (guards_scope db trash (mkListWhere [] [])) as [Ht Hd].
  exists own. split; [done|]. split; [|split; [|split]].
  - eapply guards_extends; [done|]. by apply guards_add_clause.
  - eapply guards_extends; [|exact Ht]. by etrans.
  - assert (Htrash : trash = if lo_onlyDeleted options then TrashOnlyDeleted
                             else if lo_includeDeleted options then TrashWithDeleted else TrashLive).
    { unfold trash. by destruct (lo_onlyDeleted options). }
    rewrite <- Htrash. eapply guards_extends; [|exact Hd]. by etrans.
  - intros f Hin. by eapply guards_filters.
Qed.
End scope.

Section results.
#[local] Set Default Proof Using "Type".
Context (pg : PgSemantics) (sem : SqlSemantics) (rls : bool)
  (lint : Sql → Table → bool) (blindIndex : option (string → string)) (ctx : ListContext)
  (parentClause : bool → OwnershipClause) (gateClause : OwnershipClause)
  (derivedSortExpr referenceSortExpr : string → option SortExpr).

Notation statement := (listStatement lint blindIndex ctx parentClause gateClause derivedSortExpr referenceSortExpr).
Notation listing := (list_verb lint blindIndex ctx parentClause gateClause derivedSortExpr referenceSortExpr pg sem rls).

(** The statement's WHERE is the built one, with a cursor's boundary behind it. *)
Lemma statement_where payload user db options t st :
  statement payload user db options t = Ok (Some st) →
  ∃ w, buildListWhere lint blindIndex ctx parentClause gateClause payload user db options = Ok (Some w) ∧
    extends w (ls_where st).
Proof.
  unfold listStatement. rewrite result_bind_Ok. intros ([limit offset] & _ & H). rewrite result_bind_Ok in H.
  destruct H as ([w|] & Hw & H); [|done]. rewrite result_bind_Ok in H. destruct H as (sort & _ & H).
  rewrite result_bind_Ok in H. destruct H as (w1 & H1 & H). exists w. split; [done|].
  destruct (renderListOrderBy ctx sort w1) as [[ob label] all]. simpl in H. injection H as <-. simpl.
  destruct (has_cursor payload); [by eapply extends_boundary|]. by injection H1 as ->.
Qed.

Lemma listing_rows payload user db options t table found :
  listing payload user db options t table = Ok found →
  (lr_rows found = [] ∧ lr_nextCursor found = None ∧ lr_total found = (if lp_totalCount payload then Some 0%nat else None)) ∨
  ∃ st, statement payload user db options t = Ok (Some st) ∧
    (∀ row, row ∈ lr_rows found → row ∈ matching_rows pg sem rls ctx db table st) ∧
    (lr_rows found = [] → lr_nextCursor found = None) ∧
    lr_total found = (if lp_totalCount payload
                      then Some (countListRows pg sem (ls_where st) (visible_rows rls ctx db table)) else None).
Proof.
  unfold list_verb. rewrite result_bind_Ok. intros ([st|] & Hst & [= <-]); [right|by left].
  exists st. split; [done|]. simpl. split; [|split; [|done]].
  - intros row Hrow. unfold page_rows in Hrow. apply elem_of_take in Hrow as (i & Hi & _).
    apply list_elem_of_lookup_2 in Hi.
    assert (Hin : row ∈ order_rows ctx pg (ls_sort st) (matching_rows pg sem rls ctx db table st)).
    { rewrite <- (take_drop (ls_offset st)). apply elem_of_app. by right. }
    unfold order_rows in Hin. by apply elem_of_order_by in Hin.
  - intros Hnil. rewrite Hnil. by destruct (_ =? _)%nat.
Qed.

Lemma matching_guarded st w Q row table user db options t payload :
  statement payload user db options t = Ok (Some st) → extends w (ls_where st) →
  where_ensures pg sem w Q → row ∈ matching_rows pg sem rls ctx db table st → Q row.
Proof.
  intros Hst Hext Hg [Hm _]%list_elem_of_filter.
  destruct (statement_params lint blindIndex ctx parentClause gateClause derivedSortExpr referenceSortExpr user db options t
              payload st Hst) as [more Hp].
  rewrite Hp in Hm. by apply (guards_extends pg sem _ _ _ Hext Hg more).
Qed.
End results.

(** C22: a list returns rows of the caller's scope and nothing else, whatever
    the table holds and whatever the request asks for.  Every row is one the
    database's row-level security shows, belongs to the caller's tenant or the
    system tenant, is admitted by the entity's read rules and by the parent and
    gate clauses, is live unless the trash was asked for, and, for every filter
    on a column, is one on which the caller may read the filtered field, which
    is no secret except for blind-index equality.  A cursor, a sort or further
    filters only narrow this. *)
Theorem listed_rows_are_in_scope (pg : PgSemantics) (sem : SqlSemantics) (rls : bool)
    (lint : Sql → Table → bool) (blindIndex : option (string → string)) (ctx : ListContext)
    (parentClause : bool → OwnershipClause) (gateClause : OwnershipClause)
    (derivedSortExpr referenceSortExpr : string → option SortExpr) (payload : ListPayload) (user : SessionUser)
    (db : TenantDb) (options : ListOptions) (streamTenantId : string) (table : list (gmap string Json))
    (found : ListResult) (row : gmap string Json)
    (Hfields : fields_within ctx) (Hread : rules_within (le_read (lc_entity ctx)))
    (Hparent : ∀ b, closed_clause (parentClause b)) (Hgate : closed_clause gateClause)
    (Hlist : list_verb lint blindIndex ctx parentClause gateClause derivedSortExpr referenceSortExpr pg sem rls
               payload user db options streamTenantId table = Ok found)
    (Hrow : row ∈ lr_rows found) :
  row ∈ table ∧
  rls_selects rls (tenantDbRowLevelSecurityScope db (lc_table ctx)) (lc_table ctx) row = true ∧
  in_tenant_scope ctx db row ∧
  in_trash_scope pg ctx (if lo_onlyDeleted options then TrashOnlyDeleted
                         else if lo_includeDeleted options then TrashWithDeleted else TrashLive) row ∧
  (∃ own, buildOwnershipClause lint user (le_read (lc_entity ctx)) (lc_handles ctx) 1 (Some (tb_name (lc_handles ctx))) = Ok own ∧
     clause_admits sem own (map_to_list row) = true ∧
     clause_admits sem (parentClause (lo_onlyDeleted options || lo_includeDeleted options)) (map_to_list row) = true ∧
     clause_admits sem gateClause (map_to_list row) = true) ∧
  ∀ f, f ∈ collectListFilters (lp_filter payload) (lp_filters payload) → filter_allowed sem lint ctx user f row.
Proof.
  destruct (listing_rows _ _ _ _ _ _ _ _ _ _ _ _ _ _ _ _ _ Hlist) as [(Hnil & _)|(st & Hst & Hsub & _)];
    [rewrite Hnil in Hrow; by apply not_elem_of_nil in Hrow|].
  pose proof (Hsub row Hrow) as Hm. destruct (statement_where _ _ _ _ _ _ _ _ _ _ _ _ _ Hst) as (w & Hw & Hext).
  destruct (build_guards pg sem lint blindIndex ctx parentClause gateClause payload user db options w
              Hfields Hread Hparent Hgate Hw) as (own & Hown & Ho & Ht & Hd & Hfs).
  assert (Hg : ∀ Q, where_ensures pg sem w Q → Q row) by (intros; by eapply matching_guarded).
  pose proof Hm as [_ Hvis]%list_elem_of_filter. apply list_elem_of_filter in Hvis as [Hrls Hin].
  split_and!; [done|done|by apply (Hg _ Ht)|by apply (Hg _ Hd)| |intros f Hf; by apply (Hg _ (Hfs f Hf))].
  apply Hg in Ho. unfold resolveReadOwnership, as_where_rule in Hown.
  destruct (buildOwnershipClause _ _ _ _ _ _) as [c|] eqn:Hb; [|done]. injection Hown as <-.
  exists c. split; [done|]. apply build_closed in Hb; [|done].
  rewrite !combined_clause_is_conjunction in Ho by (done || by apply combine_closed).
  apply andb_true_iff in Ho as [[H1 H2]%andb_true_iff H3]. done.
Qed.

(** ** Hidden fields *)

Definition with_sort (sort : option string) (p : ListPayload) : ListPayload :=
  mkListPayload (lp_limit p) (lp_offset p) (lp_cursor p) sort (lp_descending p) (lp_totalCount p) (lp_filter p) (lp_filters p).

(** A sort the caller may not ask for: the field is unreadable somewhere, or
    stored as ciphertext or secret. *)
Definition sort_hidden (lint : Sql → Table → bool) (ctx : ListContext) (user : SessionUser) (field : string) : Prop :=
  ∃ clause, fieldReadClause lint ctx user field = Ok clause ∧
    (clause ≠ ClausePass ∨ isListSortAllowed (lc_entity ctx) field = false).

Definition filter_hidden (lint : Sql → Table → bool) (ctx : ListContext) (user : SessionUser) (f : ListFilter) : Prop :=
  has_handle (lc_handles ctx) (f_field f) = true ∧
  (fieldReadClause lint ctx user (f_field f) = Ok ClauseEmpty ∨ isListFilterAllowed (lc_entity ctx) (f_field f) f = false).

Lemma hidden_sort_is_dropped lint ctx derivedSortExpr referenceSortExpr payload user field :
  derivedSortExpr field = None → sort_hidden lint ctx user field →
  resolveListSort lint ctx derivedSortExpr referenceSortExpr (with_sort (Some field) payload) user = Ok Unsorted.
Proof.
  intros Hd (clause & Hc & Hh). unfold resolveListSort. simpl. destruct field as [|a field]; [done|].
  rewrite Hd. destruct (has_handle _ _); [|done]. simpl negb. cbv iota. rewrite Hc. cbn [result_bind].
  destruct clause; [|done|done]. destruct Hh as [?|Hs]; [done|]. by rewrite Hs.
Qed.

(** C23: a field the caller may not read, or that holds ciphertext or a secret,
    is not probed.  A filter on it yields an empty page, no cursor and a total
    of zero (or an error), the same for every content of the table; a sort by
    it is ignored: the answer is the one for the request without a sort. *)
Theorem hidden_field_is_not_probed (pg : PgSemantics) (sem : SqlSemantics) (rls : bool)
    (lint : Sql → Table → bool) (blindIndex : option (string → string)) (ctx : ListContext)
    (parentClause : bool → OwnershipClause) (gateClause : OwnershipClause)
    (derivedSortExpr referenceSortExpr : string → option SortExpr) (payload : ListPayload) (user : SessionUser)
    (db : TenantDb) (options : ListOptions) (streamTenantId : string) (table : list (gmap string Json))
    (Hfields : fields_within ctx) (Hread : rules_within (le_read (lc_entity ctx)))
    (Hparent : ∀ b, closed_clause (parentClause b)) (Hgate : closed_clause gateClause) :
  let listing p := list_verb lint blindIndex ctx parentClause gateClause derivedSortExpr referenceSortExpr pg sem rls
                     p user db options streamTenantId table in
  (∀ f found, f ∈ collectListFilters (lp_filter payload) (lp_filters payload) → filter_hidden lint ctx user f →
     listing payload = Ok found →
     lr_rows found = [] ∧ lr_nextCursor found = None ∧
     lr_total found = (if lp_totalCount payload then Some 0%nat else None)) ∧
  (∀ field, derivedSortExpr field = None → sort_hidden lint ctx user field →
     listing (with_sort (Some field) payload) = listing (with_sort None payload)).
Proof.
  intros listing. split.
  - intros f found Hin [Hh Hhid] Hlist.
    destruct (listing_rows _ _ _ _ _ _ _ _ _ _ _ _ _ _ _ _ _ Hlist) as [?|(st & Hst & Hsub & Hnil & Htot)]; [done|].
    destruct (statement_where _ _ _ _ _ _ _ _ _ _ _ _ _ Hst) as (w & Hw & Hext).
    destruct (build_guards pg sem lint blindIndex ctx parentClause gateClause payload user db options w
                Hfields Hread Hparent Hgate Hw) as (_ & _ & _ & _ & _ & Hfs).
    assert (Hno : where_ensures pg sem (ls_where st) (λ _, False)).
    { apply (guards_extends pg sem w); [done|]. intros more row Hm.
      destruct (Hfs f Hin more row Hm Hh) as (clause & Hc & Hadm & Hall).
      destruct Hhid as [He|He]; [|congruence]. by assert (clause = ClauseEmpty) as -> by congruence. }
    assert (Hrows : lr_rows found = []).
    { destruct (lr_rows found) as [|row rows]; [done|]. exfalso.
      by apply (matching_guarded pg sem rls lint blindIndex ctx parentClause gateClause derivedSortExpr referenceSortExpr
                  st (ls_where st) (λ _, False) row table user db options streamTenantId payload Hst (reflexivity _) Hno),
               Hsub, list_elem_of_here. }
    split; [done|]. split; [by apply Hnil|]. rewrite Htot. destruct (lp_totalCount payload); [|done]. f_equal.
    unfold countListRows. rewrite filter_keeps_none; [done|]. intros row _ Hm. apply (Hno [] row). by rewrite app_nil_r.
  - intros field Hd Hs. unfold listing, list_verb, listStatement.
    rewrite (hidden_sort_is_dropped _ _ _ _ payload _ field Hd Hs). reflexivity.
Qed.

(** A filter value that is an object without a comparison adds no condition:
    the filter admits every row. *)
Lemma operatorless_filter_is_dropped blindIndex ctx field kvs w :
  (∀ op, op ∈ opMap → assoc_get op.1 kvs = None) → (is_null (js_get "ne" (prod_map id JsJson <$> kvs)) = false) →
  applyScreenFilter blindIndex ctx (mkListFilter field OpEq (JsJson (JObj kvs))) w = w.
Proof.
  intros Hops Hne. unfold applyScreenFilter. simpl. rewrite Hne. cbn [andb]. unfold operator_conds.
  revert Hops. generalize opMap. intros ops. revert w. induction ops as [|op ops IH]; intros w Hops; [done|]. simpl.
  assert (Hn : assoc_get op.1 (prod_map id JsJson <$> kvs) = None).
  { specialize (Hops op ltac:(set_solver)). clear -Hops. induction kvs as [|[k v] kvs IH]; [done|]. simpl in *. by case_decide; auto. }
  rewrite Hn. apply IH. intros op' Hin. apply Hops. set_solver.
Qed.

Example operatorless_filter :
  lw_conds (applyScreenFilter None tasks (mkListFilter "title" OpEq (JsJson (JObj [("contains", JStr "x")]))) (mkListWhere [] [])) = [].
Proof. reflexivity. Qed.

(** ** Witnesses *)

Definition my_tasks : ListPayload :=
  mkListPayload JsUndefined JsUndefined None None false true (Some (mkListFilter "owner" OpEq (JsJson (JStr "u1")))) None.

Definition note_tasks : ListPayload :=
  mkListPayload JsUndefined JsUndefined None None false true None (Some [mkListFilter "note" OpEq (JsJson (JStr "n"))]).

Notation tasks_list payload := (list_verb (λ _ _, true) None tasks (λ _, ClausePass) ClausePass (λ _, None) (λ _, None)
  text_pg text_columns true payload member tenant_db (mkListOptions false false) "t1" task_rows) (only parsing).

Example my_task_ids :
  match tasks_list my_tasks with Ok found => (id_text tasks <$> lr_rows found, lr_total found) | Err _ => ([], None) end
  = (["a2"; "a3"; "a5"], Some 3%nat).
Proof. vm_compute. reflexivity. Qed.

Definition has_answer {E A} (r : result E A) : bool := match r with Ok _ => true | Err _ => false end.

Lemma my_tasks_answered : has_answer (tasks_list my_tasks) = true.
Proof. vm_compute. reflexivity. Qed.

Lemma listed_rows_are_in_scope_witness :
  match tasks_list my_tasks with
  | Ok found => ∀ row, row ∈ lr_rows found → in_tenant_scope tasks tenant_db row ∧
                  in_trash_scope text_pg tasks TrashLive row
  | Err _ => False
  end.
Proof.
  pose proof my_tasks_answered as Hok. destruct (tasks_list my_tasks) as [found|] eqn:Hl; [|discriminate Hok].
  intros row Hrow.
  destruct (listed_rows_are_in_scope text_pg text_columns true (λ _ _, true) None tasks (λ _, ClausePass) ClausePass
              (λ _, None) (λ _, None) my_tasks member tenant_db (mkListOptions false false) "t1" task_rows found row
              tasks_fields_within (List.Forall_nil _) (λ _, I) I Hl Hrow) as (_ & _ & Ht & Hd & _).
  exact (conj Ht Hd).
Defined.

Lemma note_is_hidden : filter_hidden (λ _ _, true) tasks member (mkListFilter "note" OpEq (JsJson (JStr "n"))).
Proof. split; [reflexivity|left; reflexivity]. Qed.

Lemma secrets_are_unsortable : sort_hidden (λ _ _, true) tasks member "tokens" ∧ sort_hidden (λ _ _, true) tasks member "note".
Proof. split; [exists ClausePass; split; [reflexivity|right; reflexivity]|exists ClauseEmpty; split; [reflexivity|by left]]. Qed.

Lemma note_tasks_answered : has_answer (tasks_list note_tasks) = true.
Proof. vm_compute. reflexivity. Qed.

(** Every task carries the note; the member's filter on it finds none. *)
Lemma hidden_field_is_not_probed_witness :
  match tasks_list note_tasks with Ok found => lr_rows found = [] ∧ lr_total found = Some 0%nat | Err _ => False end ∧
  tasks_list (with_sort (Some "note") by_title) = tasks_list (with_sort None by_title).
Proof.
  pose proof (λ p, hidden_field_is_not_probed text_pg text_columns true (λ _ _, true) None tasks (λ _, ClausePass) ClausePass
              (λ _, None) (λ _, None) p member tenant_db (mkListOptions false false) "t1" task_rows
              tasks_fields_within (List.Forall_nil _) (λ _, I) I) as H. split.
  - pose proof note_tasks_answered as Hok. destruct (tasks_list note_tasks) as [found|] eqn:Hl; [|discriminate Hok].
    destruct (proj1 (H note_tasks) _ found (list_elem_of_here _ _) note_is_hidden Hl) as (H1 & _ & H2). exact (conj H1 H2).
  - exact (proj2 (H by_title) "note" eq_refl (proj2 secrets_are_unsortable)).
Defined.
