(* ===== verification/EntityCache.v ===== *)
(** * The entity cache

    [pipeline/entity-cache.ts].  A row read from the database holds values JSON
    has no form for: a [Temporal.Instant] and a [Date].  The cache keeps the JSON
    document of a row, and reading it back turns every string that looks like an
    ISO date into a [Date], so that a timestamp comes back as a [Date] and so
    does text of that form.  [Date] itself is the interface [Dates]; expiry is
    left out. *)

From Stdlib Require Import Ascii.
From S2P Require Import Prelude QualifiedName.

Open Scope list_scope.

(** ** Values *)

(** An instant is the text its [toJSON] gives, a date its milliseconds. *)
Inductive Value : Type :=
| RdNull
| RdBool (b : bool)
| RdNum (n : Z)
| RdStr (s : string)
| RdArr (l : list Value)
| RdObj (kvs : list (string * Value))
| RdInstant (text : string)
| RdDate (ms : Z).

#[export] Instance Value_eq_dec : EqDecision Value.
Proof.
  refine (fix go (a b : Value) {struct a} : Decision (a = b) :=
    match a, b with
    | RdNull, RdNull => left eq_refl
    | RdBool x, RdBool y => cast_if (decide (x = y))
    | RdNum x, RdNum y | RdDate x, RdDate y => cast_if (decide (x = y))
    | RdStr x, RdStr y | RdInstant x, RdInstant y => cast_if (decide (x = y))
    | RdArr x, RdArr y => cast_if ((fix gol (l k : list Value) : Decision (l = k) :=
        match l, k with
        | [], [] => left eq_refl
        | v :: l', w :: k' => cast_if_and (go v w) (gol l' k')
        | _, _ => right _
        end) x y)
    | RdObj x, RdObj y => cast_if ((fix gol (l k : list (string * Value)) : Decision (l = k) :=
        match l, k with
        | [], [] => left eq_refl
        | (n, v) :: l', (m, w) :: k' => cast_if_and3 (decide (n = m)) (go v w) (gol l' k')
        | _, _ => right _
        end) x y)
    | _, _ => right _
    end); abstract congruence.
Defined.

Notation ReadRow := (gmap string Value) (only parsing).
Notation Document := (gmap string Json) (only parsing).

(** [new Date(text).getTime()], [None] for NaN, and [toJSON]. *)
Class Dates := {
  date_parse : string → option Z;
  date_iso : Z → string }.

(** ** Dates in JSON *)

Fixpoint eat_digits (n : nat) (s : string) : option string :=
  match n, s with
  | O, _ => Some s
  | S n', String c rest => if is_digit c then eat_digits n' rest else None
  | S _, EmptyString => None
  end.

Definition eat_char (c : ascii) (s : string) : option string :=
  match s with String d rest => if Ascii.eqb d c then Some rest else None | EmptyString => None end.

Fixpoint skip_digits (s : string) : string :=
  match s with String c rest => if is_digit c then skip_digits rest else s | EmptyString => s end.

Definition eat_fraction (s : string) : option string :=
  match eat_char dot s with
  | None => Some s
  | Some rest => skip_digits <$> eat_digits 1 rest
  end.

Definition is_zone (s : string) : bool :=
  match s with
  | String c rest =>
      if Ascii.eqb c "Z"%char then bool_decide (rest = "")
      else if Ascii.eqb c "+"%char || Ascii.eqb c dash then
        match eat_digits 2 rest with
        | None => false
        | Some s1 => bool_decide (eat_digits 2 (default s1 (eat_char colon s1)) = Some "")
        end
      else false
  | EmptyString => false
  end.

(** The pattern [ISO_DATE]. *)
Definition iso_date (s : string) : bool :=
  match (s1 ← eat_digits 4 s; s2 ← eat_char dash s1; s3 ← eat_digits 2 s2; s4 ← eat_char dash s3;
         s5 ← eat_digits 2 s4; s6 ← eat_char "T"%char s5; s7 ← eat_digits 2 s6; s8 ← eat_char colon s7;
         s9 ← eat_digits 2 s8; s10 ← eat_char colon s9; s11 ← eat_digits 2 s10; eat_fraction s11) with
  | Some zone => is_zone zone
  | None => false
  end.

Section cache.
Context {dates : Dates}.

Definition dateReviver (s : string) : Value :=
  if iso_date s then match date_parse s with Some ms => RdDate ms | None => RdStr s end else RdStr s.

(** [JSON.stringify] and [JSON.parse(raw, dateReviver)], between values and documents. *)
Fixpoint stringify (v : Value) : Json :=
  match v with
  | RdNull => JNull
  | RdBool b => JBool b
  | RdNum n => JNum n
  | RdStr s => JStr s
  | RdArr l => JArr (map stringify l)
  | RdObj kvs => JObj (map (λ kv, (kv.1, stringify kv.2)) kvs)
  | RdInstant text => JStr text
  | RdDate ms => JStr (date_iso ms)
  end.

Fixpoint parseCached (j : Json) : Value :=
  match j with
  | JNull => RdNull
  | JBool b => RdBool b
  | JNum n => RdNum n
  | JStr s => dateReviver s
  | JArr l => RdArr (map parseCached l)
  | JObj kvs => RdObj (map (λ kv, (kv.1, parseCached kv.2)) kvs)
  end.

(** A value after the cache. *)
Definition reread (v : Value) : Value := parseCached (stringify v).

Definition document_of (row : ReadRow) : Document := stringify <$> row.

Definition reread_row (row : ReadRow) : ReadRow := reread <$> row.

(** ** Operations *)

Notation EntityCache := (gmap string (gmap string Json)) (only parsing).

Definition cacheKey (tenantId entityName id : string) : string :=
  "kumiko:cache:" +:+ tenantId +:+ ":" +:+ entityName +:+ ":" +:+ id.

Definition cache_get (c : EntityCache) (tenantId entityName id : string) : option ReadRow :=
  (λ doc : Document, parseCached <$> doc) <$> c !! cacheKey tenantId entityName id.

Definition cache_set (tenantId entityName id : string) (data : ReadRow) (c : EntityCache) : EntityCache :=
  <[cacheKey tenantId entityName id := document_of data]> c.

Definition cache_del (tenantId entityName id : string) (c : EntityCache) : EntityCache :=
  delete (cacheKey tenantId entityName id) c.

Definition cache_mset (tenantId entityName : string) (entries : list (string * ReadRow)) (c : EntityCache) : EntityCache :=
  foldl (λ c e, cache_set tenantId entityName e.1 e.2 c) c entries.

(** ** What the cache gives back *)

(** Field by field the same value, or the value after the cache. *)
Definition reread_of (row row' : ReadRow) : Prop :=
  ∀ c, row' !! c = row !! c ∨ row' !! c = reread <$> row !! c.

Lemma reread_of_refl row : reread_of row row.
Proof. intros c. by left. Qed.

Lemma reread_of_row row : reread_of row (reread_row row).
Proof. intros c. right. unfold reread_row. by rewrite lookup_fmap. Qed.

Lemma reread_of_insert k v row row' : reread_of row row' → reread_of (<[k := v]> row) (<[k := v]> row').
Proof.
  intros H c. destruct (decide (c = k)) as [->|Hne]; [left; by rewrite !lookup_insert_eq|].
  rewrite !lookup_insert_ne by done. apply H.
Qed.

(** Rows without timestamps and without text of that form are given back as they are. *)
Lemma reread_of_plain row row' :
  (∀ c v, row !! c = Some v → reread v = v) → reread_of row row' → row' = row.
Proof.
  intros Hp H. apply map_eq. intros c. destruct (H c) as [-> | ->]; [done|].
  destruct (row !! c) as [v|] eqn:Hv; [|done]. simpl. by rewrite (Hp c v Hv).
Qed.

Lemma cache_get_document c tenantId entityName id data :
  c !! cacheKey tenantId entityName id = Some (document_of data) →
  cache_get c tenantId entityName id = Some (reread_row data).
Proof. unfold cache_get. intros ->. simpl. unfold document_of, reread_row. by rewrite <- map_fmap_compose. Qed.
End cache.
