(* ===== verification/DetailRead.v ===== *)
(** * Detail reads and the entity cache

    The [detail] verb of [db/event-store-executor-read.ts] with the statements of
    [event-store-executor-context.ts] it issues, on the cache of [EntityCache], and
    what [list] puts into it.  The entity table is a map from ids to rows, the log
    its stream versions; decoding, decryption and encryption of rows are a
    [RowCodec]. *)

From S2P Require Import Prelude EntityCache TableInfo Ownership FieldAccess WhereClause TenantDb Cursor ListRead ListPaging ListScope.

Open Scope Z_scope.
Open Scope list_scope.

(** ** Store and cache *)

(** MAX(version) of a stream by tenant and id, 0 without events; rows by id. *)
Record Store := mkStore {
  st_version : string → string → Z;
  st_rows : gmap string DbRow }.

(** [rc_decrypt] also names the fields that could not be decrypted. *)
Record RowCodec := mkCodec {
  rc_coerce : DbRow → gmap string Value;
  rc_decrypt : gmap string Value → gmap string Value * list string;
  rc_encrypt : SessionUser → gmap string Value → gmap string Value }.

Notation ReadRow := (gmap string Value) (only parsing).
Notation EntityCache := (gmap string (gmap string Json)) (only parsing).

Definition withStreamVersion (row : ReadRow) (streamVersion : Z) : ReadRow :=
  if 0 <? streamVersion then <["version" := RdNum streamVersion]> row else row.

(** [row["version"] === streamVersion] *)
Definition has_version (row : ReadRow) (streamVersion : Z) : bool :=
  match row !! "version" with Some (RdNum v) => v =? streamVersion | _ => false end.

Section detail.
Context {dates : Dates} (pg : PgSemantics) (sem : SqlSemantics) (rls : bool)
  (lint : Sql → Table → bool) (ctx : ListContext) (entityName : string) (systemStream : bool) (codec : RowCodec)
  (parentClause : bool → OwnershipClause) (gateClause : OwnershipClause).

Definition stream_tenant (user : SessionUser) : string := if systemStream then SYSTEM_TENANT_ID else us_tenantId user.

(** [idFilter] *)
Definition idFilter (id : string) : list (string * Json) :=
  ("id", JStr id) :: (if le_softDelete (lc_entity ctx) && has_handle (lc_handles ctx) "isDeleted"
                      then [("isDeleted", JBool false)] else []).

Definition id_condition (w : ListWhere) (entry : string * Json) : ListWhere :=
  let column := physicalColumnName (lc_handles ctx) entry.1 in
  match entry.2 with
  | JBool b => push_cond (LCond (CCompare column "=" (OpLiteral (if b then "TRUE" else "FALSE")))) w
  | v => let (n, w) := bind_value (BoundValue (JsJson v)) w in push_cond (LCond (CCompare column "=" (op_param n))) w
  end.

Definition buildRawIdWhere (db : TenantDb) (idWhere : list (string * Json)) (ownership : OwnershipClause) : ListWhere :=
  let w := foldl id_condition (add_tenant_scope ctx db (mkListWhere [] [])) idWhere in
  match ownership with ClauseSql f => appendShiftedClause f w | _ => w end.

(** The row behind an id when the statement's scope and WHERE admit it. *)
Definition select_by_id (db : TenantDb) (id : string) (w : ListWhere) (store : Store) : option DbRow :=
  match st_rows store !! id with
  | Some row =>
      if rls_selects rls (tenantDbRowLevelSecurityScope db (lc_table ctx)) (lc_table ctx) row
         && row_matches pg sem (lw_conds w) (lw_params w) row
      then Some row else None
  | None => None
  end.

Definition probeOwnershipWithStreamVersion (db : TenantDb) (id : string) (ownership : OwnershipClause)
    (streamTenantId : string) (store : Store) : bool * Z :=
  match select_by_id db id (buildRawIdWhere db (idFilter id) ownership) store with
  | Some _ => (true, st_version store streamTenantId id)
  | None => (false, 0)
  end.

Definition loadDetailSnapshot (db : TenantDb) (id : string) (ownership : OwnershipClause) (streamTenantId : string)
    (store : Store) : option DbRow * Z :=
  match ownership with
  | ClauseEmpty => (None, 0)
  | _ => match select_by_id db id (buildRawIdWhere db (idFilter id) ownership) store with
         | Some row => (Some row, st_version store streamTenantId id)
         | None => (None, 0)
         end
  end.

(** The answer a cached row gives: [None] when it does not count. *)
Definition cached_detail (db : TenantDb) (id : string) (ownership : OwnershipClause) (streamTenantId : string)
    (cached : ReadRow) (store : Store) : option (option ReadRow) :=
  let probe := match ownership with
               | ClauseSql _ => probeOwnershipWithStreamVersion db id ownership streamTenantId store
               | _ => (true, st_version store streamTenantId id)
               end in
  if negb probe.1 then Some None
  else if (0 <? probe.2) && negb (has_version cached probe.2) then None
  else Some (Some (withStreamVersion (rc_decrypt codec cached).1 probe.2)).

(** The read of the table, and the row it caches. *)
Definition cold_detail (db : TenantDb) (id : string) (ownership : OwnershipClause) (user : SessionUser) (store : Store)
    : option ReadRow * option ReadRow :=
  let snapshot := loadDetailSnapshot db id ownership (stream_tenant user) store in
  match snapshot.1 with
  | None => (None, None)
  | Some raw =>
      let decoded := rc_decrypt codec (rc_coerce codec raw) in
      let result := withStreamVersion decoded.1 snapshot.2 in
      (Some result, match decoded.2 with [] => Some (rc_encrypt codec user result) | _ => None end)
  end.

Definition detail (id : string) (user : SessionUser) (db : TenantDb) (store : Store) (cache : EntityCache)
    : result ListError (option ReadRow * EntityCache) :=
  let? ownership := resolveReadOwnership lint ctx parentClause gateClause user false in
  match ownership with
  | ClauseEmpty => Ok (None, cache)
  | _ =>
      match cache_get cache (us_tenantId user) entityName id
              ≫= λ cached, cached_detail db id ownership (stream_tenant user) cached store with
      | Some answer => Ok (answer, cache)
      | None =>
          let found := cold_detail db id ownership user store in
          Ok (found.1, match found.2 with
                       | Some entry => cache_set (us_tenantId user) entityName id entry cache
                       | None => cache
                       end)
      end
  end.

(** Whether a writer may see the row; the row's own trash mark is not asked. *)
Definition isRowReadable (id : string) (user : SessionUser) (db : TenantDb) (store : Store) : result ListError bool :=
  let? ownership := resolveReadOwnership lint ctx parentClause gateClause user false in
  Ok (match ownership with
      | ClausePass => true
      | ClauseEmpty => false
      | ClauseSql _ => match select_by_id db id (buildRawIdWhere db [("id", JStr id)] ownership) store with
                       | Some _ => true
                       | None => false
                       end
      end).

(** What [list] caches: the rows of the page as they are stored. *)
Definition list_entries (rows : list DbRow) : list (string * ReadRow) :=
  (λ raw, let row := rc_coerce codec raw in
          (match row !! "id" with Some (RdStr id) => id | _ => "" end, row)) <$> rows.

Definition cache_list (user : SessionUser) (rows : list DbRow) (cache : EntityCache) : EntityCache :=
  match rows with [] => cache | _ => cache_mset (us_tenantId user) entityName (list_entries rows) cache end.
End detail.

(** ** Writers and readers

    Every row a reader ever puts into the cache, under the key of its tenant,
    is an entry; the cache holds some of them, and a reader may hold one it got
    earlier.  Writers commit events with the row they leave. *)

Record SharedState := mkShared {
  sh_store : Store;
  sh_entries : list (string * string * gmap string Value) }.

Definition commit_store (t id : string) (row : option DbRow) (s : Store) : Store :=
  mkStore (λ t' id', if decide (t' = t ∧ id' = id) then st_version s t id + 1 else st_version s t' id')
    (match row with Some r => <[id := r]> (st_rows s) | None => delete id (st_rows s) end).

Section system.
Context {dates : Dates} (pg : PgSemantics) (sem : SqlSemantics) (rls : bool)
  (ctx : ListContext) (systemStream : bool) (codec : RowCodec).

Notation colSql := (physicalColumnName (lc_handles ctx)).
Notation cold := (cold_detail pg sem rls ctx systemStream codec).

(** The tenant whose stream is compared for a cache key. *)
Definition key_stream (tenantId : string) : string := if systemStream then SYSTEM_TENANT_ID else tenantId.

(** A row of a stream: its id, its tenant, and a version column not ahead. *)
Definition row_of_stream (t id : string) (version : Z) (row : DbRow) : Prop :=
  id_of ctx row = JStr id ∧ column_value row (colSql "tenantId") = JStr t ∧ tenant_is t row = true ∧
  ∀ k, has_version (rc_coerce codec row) k = true → k ≤ version.

Inductive shared_step : SharedState → SharedState → Prop :=
| step_commit s t id row :
    (∀ t', 0 < st_version (sh_store s) t' id → t' = t) →
    (0 < st_version (sh_store s) t id ∨ st_rows (sh_store s) !! id = None) →
    (∀ r, row = Some r → row_of_stream t id (st_version (sh_store s) t id + 1) r) →
    shared_step s (mkShared (commit_store t id row (sh_store s)) (sh_entries s))
| step_read s user db id ownership answer entry :
    cold db id ownership user (sh_store s) = (answer, Some entry) →
    shared_step s (mkShared (sh_store s) ((us_tenantId user, id, entry) :: sh_entries s))
| step_list s user rows :
    (∀ row, row ∈ rows → ∃ id, st_rows (sh_store s) !! id = Some row) →
    shared_step s (mkShared (sh_store s)
      (((λ e, (us_tenantId user, e.1, e.2)) <$> list_entries codec rows) ++ sh_entries s)).

(** Streams of one id belong to one tenant, and rows to their stream. *)
Record store_ok (s : Store) : Prop := {
  so_versions : ∀ t id, 0 ≤ st_version s t id;
  so_unique : ∀ t t' id, 0 < st_version s t id → 0 < st_version s t' id → t = t';
  so_ids : ∀ id row, st_rows s !! id = Some row → id_of ctx row = JStr id;
  so_rows : ∀ t id row, 0 < st_version s t id → st_rows s !! id = Some row → row_of_stream t id (st_version s t id) row }.

Inductive shared_reachable : SharedState → Prop :=
| sr_start store : store_ok store → shared_reachable (mkShared store [])
| sr_step s s' : shared_reachable s → shared_step s s' → shared_reachable s'.

(** What the codec guarantees: the id is read as stored, the version is not
    encrypted, a decrypted row survives encryption, and fields are decrypted by
    themselves, so that one the cache has changed is decrypted to the same value
    or to what the cache makes of it. *)
Record codec_ok : Prop := {
  ck_id : ∀ row id, id_of ctx row = JStr id → rc_coerce codec row !! "id" = Some (RdStr id);
  ck_reread : ∀ row row', reread_of row row' → reread_of (rc_decrypt codec row).1 (rc_decrypt codec row').1;
  ck_version : ∀ user row k, has_version (rc_encrypt codec user row) k = has_version row k;
  ck_round : ∀ user row k, (rc_decrypt codec row).2 = [] →
    (rc_decrypt codec (rc_encrypt codec user (withStreamVersion (rc_decrypt codec row).1 k))).1
    = withStreamVersion (rc_decrypt codec row).1 k }.

Definition read_form (row : DbRow) (v : Z) : ReadRow := withStreamVersion (rc_decrypt codec (rc_coerce codec row)).1 v.

(** What an entry under a key may be. *)
Record entry_ok (s : Store) (tenantId id : string) (entry : ReadRow) : Prop := {
  eo_current : let v := st_version s (key_stream tenantId) id in 0 < v → has_version entry v = true →
    ∃ row, st_rows s !! id = Some row ∧
           reread_of (read_form row v) (withStreamVersion (rc_decrypt codec (reread_row entry)).1 v);
  eo_not_ahead : 0 < st_version s (key_stream tenantId) id →
    ∀ k, has_version entry k = true → k ≤ st_version s (key_stream tenantId) id;
  eo_origin : 0 < st_version s (key_stream tenantId) id ∨ st_rows s !! id ≠ None ∨
    ∃ t', t' ≠ key_stream tenantId ∧ 0 < st_version s t' id }.

Definition shared_ok (s : SharedState) : Prop :=
  store_ok (sh_store s) ∧ ∀ t id entry, (t, id, entry) ∈ sh_entries s → entry_ok (sh_store s) t id entry.

Hypothesis (Hcodec : codec_ok).

Lemma has_version_set row v k : has_version (<["version" := RdNum v]> row) k = true → k = v.
Proof. unfold has_version. rewrite lookup_insert_eq. simpl. intros ?%Z.eqb_eq. lia. Qed.

(** The cache neither makes nor loses a version. *)
Lemma has_version_reread row k : has_version (reread_row row) k = has_version row k.
Proof.
  unfold has_version, reread_row. rewrite lookup_fmap. destruct (row !! "version") as [v|]; [|done]. simpl.
  assert (Hno : ∀ t, match dateReviver t with RdNum n => n =? k | _ => false end = false).
  { intros t. unfold dateReviver. destruct (iso_date t); [|done]. by destruct (date_parse t). }
  destruct v; unfold reread; simpl; first [done|apply Hno].
Qed.

Lemma reread_of_version row row' v : reread_of row row' → reread_of (withStreamVersion row v) (withStreamVersion row' v).
Proof. intros H. unfold withStreamVersion. destruct (0 <? v); [by apply reread_of_insert|done]. Qed.

Lemma withStreamVersion_twice row v : withStreamVersion (withStreamVersion row v) v = withStreamVersion row v.
Proof. unfold withStreamVersion. destruct (0 <? v); [|done]. by rewrite insert_insert_eq. Qed.

Lemma select_by_id_row db id w store row :
  select_by_id pg sem rls ctx db id w store = Some row → st_rows store !! id = Some row.
Proof. unfold select_by_id. destruct (st_rows store !! id) as [r|]; [|done]. by destruct (_ && _); intros [= ->]. Qed.

Lemma cold_entry db id ownership user store answer entry :
  cold db id ownership user store = (answer, Some entry) →
  ∃ row, st_rows store !! id = Some row ∧ (rc_decrypt codec (rc_coerce codec row)).2 = [] ∧
    entry = rc_encrypt codec user (read_form row (st_version store (stream_tenant systemStream user) id)).
Proof.
  unfold cold_detail, loadDetailSnapshot. destruct ownership as [| |f]; [|done|].
  all: destruct (select_by_id _ _ _ _ _ _ _ _) as [row|] eqn:Hs; [|done]; apply select_by_id_row in Hs; simpl.
  all: destruct (rc_decrypt codec (rc_coerce codec row)).2 eqn:Hd; [|done]; intros [= _ <-]; by exists row.
Qed.

Lemma new_entry_ok s user id row entry :
  store_ok s → st_rows s !! id = Some row →
  (entry = rc_coerce codec row ∨
   (rc_decrypt codec (rc_coerce codec row)).2 = [] ∧
   entry = rc_encrypt codec user (read_form row (st_version s (stream_tenant systemStream user) id))) →
  entry_ok s (us_tenantId user) id entry.
Proof using Hcodec.
  intros Hs Hrow He. change (stream_tenant systemStream user) with (key_stream (us_tenantId user)) in He.
  set (v := st_version s (key_stream (us_tenantId user)) id) in *. split; fold v.
  - intros v' Hv _. exists row. split; [done|]. subst v'. destruct He as [->|[Hd ->]].
    + apply reread_of_version, (ck_reread Hcodec), reread_of_row.
    + assert (Htwice : read_form row v = withStreamVersion (read_form row v) v) by (symmetry; apply withStreamVersion_twice).
      rewrite Htwice at 1. apply reread_of_version.
      pose proof (ck_reread Hcodec _ _ (reread_of_row (rc_encrypt codec user (read_form row v)))) as Hd'.
      unfold read_form in Hd' at 1. by rewrite (ck_round Hcodec) in Hd'.
  - intros Hv k Hk. destruct He as [->|[_ ->]].
    + destruct (so_rows _ Hs _ _ _ Hv Hrow) as (_ & _ & _ & H). by apply H.
    + rewrite (ck_version Hcodec) in Hk. unfold read_form, withStreamVersion in Hk.
      assert (0 <? v = true) as Hb by lia. rewrite Hb in Hk. apply has_version_set in Hk. lia.
  - right. left. by rewrite Hrow.
Qed.

Lemma commit_version t id row s t' id' :
  st_version (commit_store t id row s) t' id'
  = if decide (t' = t ∧ id' = id) then st_version s t id + 1 else st_version s t' id'.
Proof. done. Qed.

Lemma commit_row t id row s id' :
  st_rows (commit_store t id row s) !! id' = if decide (id' = id) then row else st_rows s !! id'.
Proof. simpl. destruct row; case_decide; subst; by rewrite ?lookup_insert_eq, ?lookup_insert_ne, ?lookup_delete_eq, ?lookup_delete_ne by done. Qed.

Section commit.
Context (s : Store) (t id : string) (row : option DbRow).
Hypothesis (Hs : store_ok s) (Howner : ∀ t', 0 < st_version s t' id → t' = t)
  (Hfresh : 0 < st_version s t id ∨ st_rows s !! id = None)
  (Hrow : ∀ r, row = Some r → row_of_stream t id (st_version s t id + 1) r).

Lemma commit_store_ok : store_ok (commit_store t id row s).
Proof using Hs Howner Hrow.
  pose proof (so_versions _ Hs) as Hv0. split.
  - intros t' id'. rewrite commit_version. case_decide; [|apply Hv0]. specialize (Hv0 t id). lia.
  - intros t1 t2 id'. rewrite !commit_version. repeat case_decide; intros H1 H2; destruct_and?; subst; try done.
    + symmetry. by apply Howner.
    + by apply Howner.
    + by apply (so_unique _ Hs t1 t2 id').
  - intros id' r. rewrite commit_row. case_decide; [subst|apply (so_ids _ Hs)]. intros Hr. by apply Hrow.
  - intros t' id' r. rewrite commit_version, commit_row. destruct (decide (t' = t ∧ id' = id)) as [[-> ->]|Ht].
    + rewrite decide_True by done. intros _ Hr. by apply Hrow.
    + destruct (decide (id' = id)) as [->|Hid]; [|by apply (so_rows _ Hs)].
      intros Hv _. exfalso. apply Ht. split; [|done]. by apply Howner.
Qed.

Lemma commit_entry_ok key id' entry : entry_ok s key id' entry → entry_ok (commit_store t id row s) key id' entry.
Proof using Hs Howner Hfresh.
  intros [Hc Ha Ho]. pose proof (so_versions _ Hs) as Hv0.
  cut (∀ k, k = key_stream key → entry_ok (commit_store t id row s) key id' entry); [by eauto|]. intros k Hkey.
  rewrite <- Hkey in *.
  destruct (decide (id' = id)) as [->|Hne].
  - destruct (decide (k = t)) as [->|Hk].
    + (* the entry's own stream: its label is now behind *)
      assert (Hpos : 0 < st_version s t id).
      { destruct Ho as [?|[Hsome|(t' & Hne & Hpos)]]; [done| |by destruct Hne; apply Howner].
        destruct Hfresh as [?|?]; [done|congruence]. }
      split; cbv zeta; rewrite <- Hkey, ?commit_version, ?decide_True by done.
      * intros _ Hl. specialize (Ha Hpos _ Hl). lia.
      * intros _ j Hj. specialize (Ha Hpos j Hj). lia.
      * left. lia.
    + assert (Hz : ¬ 0 < st_version s k id) by (intros H; by apply Hk, Howner).
      split; cbv zeta; rewrite <- Hkey, ?commit_version, ?decide_False by (intros [? _]; done); [done|done|].
      right. right. exists t. split; [done|]. rewrite commit_version, decide_True by done. specialize (Hv0 t id). lia.
  - split; cbv zeta; rewrite <- Hkey, commit_version, decide_False by (intros [_ ?]; done).
    + intros Hv Hl. destruct (Hc Hv Hl) as (r & Hr & He). exists r. by rewrite commit_row, decide_False.
    + exact Ha.
    + destruct Ho as [?|[Hsome|(t' & Hne' & Hpos)]]; [by left| |].
      * right. left. by rewrite commit_row, decide_False.
      * right. right. exists t'. split; [done|]. rewrite commit_version, decide_False; [done|]. intros [_ ?]. done.
Qed.
End commit.

Lemma shared_reachable_ok s : shared_reachable s → shared_ok s.
Proof using Hcodec.
  induction 1 as [store Hok|s s' Hr [Hs He] Hstep]; [split; [done|]; intros ??? ?%not_elem_of_nil; done|].
  destruct Hstep as [s t id row Howner Hfresh Hrow|s user db id ownership answer entry Hcold|s user rows Hrows]; simpl.
  - split; [by apply commit_store_ok|]. intros t' id' e Hin. apply commit_entry_ok; try done. by apply He.
  - split; [done|]. intros t' id' e Hin. apply elem_of_cons in Hin as [Heq|Hin]; [|by apply He]. injection Heq as -> -> ->.
    destruct (cold_entry _ _ _ _ _ _ _ Hcold) as (row & Hrow & Hd & ->).
    by apply (new_entry_ok _ user id row); [done|done|right].
  - split; [done|]. intros t' id' e Hin. apply elem_of_app in Hin as [Hin|Hin]; [|by apply He].
    apply list_elem_of_fmap in Hin as ([i r] & [= -> -> ->] & Hin). unfold list_entries in Hin.
    apply list_elem_of_fmap in Hin as (raw & [= -> ->] & Hraw). destruct (Hrows raw Hraw) as (i & Hi).
    rewrite (ck_id Hcodec raw i) by (by apply (so_ids _ Hs)).
    by apply (new_entry_ok _ user i raw); [done|done|left].
Qed.
End system.

Section answers.
#[local] Set Default Proof Using "Type".
Context {dates : Dates} (pg : PgSemantics) (sem : SqlSemantics) (rls : bool)
  (ctx : ListContext) (codec : RowCodec).

Notation colSql := (physicalColumnName (lc_handles ctx)).

(** The soft-delete mark hides the row from a detail read. *)
Definition marked_deleted (row : DbRow) : Prop :=
  le_softDelete (lc_entity ctx) = true ∧ has_handle (lc_handles ctx) "isDeleted" = true ∧
  compare3 pg "=" (column_value row (colSql "isDeleted")) (pg_literal pg "FALSE") ≠ Some true.

Lemma compare_texts (s : string) : compare3 pg "=" (JStr s) (JStr s) = Some true.
Proof. unfold compare3. simpl. by rewrite bool_decide_eq_true_2. Qed.

Lemma matches_push c conds params row :
  row_matches pg sem (conds ++ [c]) params row
  = row_matches pg sem conds params row && is_true3 (list_cond_eval pg sem (bound_at 1 params) row c).
Proof. unfold row_matches. rewrite forallb_app. simpl. by rewrite andb_true_r. Qed.

(** Without a row rule the WHERE of a detail read hides a row of the caller's
    tenant only when it is marked deleted. *)
Lemma own_row_selected db id t row store :
  st_rows store !! id = Some row → (is_tenant_mode db = true → td_tenantId db = t) →
  row_of_stream ctx codec t id (st_version store t id) row →
  select_by_id pg sem rls ctx db id (buildRawIdWhere ctx db (idFilter ctx id) ClausePass) store = Some row ∨
  marked_deleted row.
Proof.
  intros Hrow Hdb (Hid & Hten & Htis & _). unfold select_by_id. rewrite Hrow.
  assert (Hrls : rls_selects rls (tenantDbRowLevelSecurityScope db (lc_table ctx)) (lc_table ctx) row = true).
  { unfold rls_selects, tenantDbRowLevelSecurityScope. destruct (rls && _); [|done].
    unfold is_tenant_mode in Hdb. destruct (td_mode db); [|done]. destruct (is_global _); [done|]. simpl.
    by rewrite Hdb, Htis. }
  rewrite Hrls. unfold buildRawIdWhere, add_tenant_scope, idFilter, marked_deleted. unfold id_of in Hid.
  assert (Htenant : has_handle (lc_handles ctx) "tenantId" && is_tenant_mode db = true → td_tenantId db = t)
    by (intros [_ ?]%andb_true_iff; by apply Hdb).
  destruct (has_handle _ "tenantId" && is_tenant_mode db), (le_softDelete _), (has_handle _ "isDeleted"); simpl;
    unfold bound_at; simpl; rewrite ?Hid, ?Hten, ?(Htenant eq_refl), ?compare_texts; simpl; try (left; done);
    simpl.
  all: destruct (compare3 pg "=" (column_value row (colSql "isDeleted")) (pg_literal pg "FALSE")) as [[]|]; first [by left|by right].
Qed.

(** What an accepted cache entry shows is the live row of its id, and the
    answer of a read of the table unless that read hides the row as deleted. *)
Lemma accepted_entry_is_live s user db id ownership entry answer :
  codec_ok ctx codec → shared_reachable pg sem rls ctx false codec s →
  (us_tenantId user, id, entry) ∈ sh_entries s →
  (is_tenant_mode db = true → td_tenantId db = us_tenantId user) →
  0 < st_version (sh_store s) (us_tenantId user) id → ownership ≠ ClauseEmpty →
  cached_detail pg sem rls ctx codec db id ownership (us_tenantId user) (reread_row entry) (sh_store s) = Some answer →
  option_Forall2 reread_of (cold_detail pg sem rls ctx false codec db id ownership user (sh_store s)).1 answer ∨
  ∃ row shown, ownership = ClausePass ∧ st_rows (sh_store s) !! id = Some row ∧ marked_deleted row ∧
    answer = Some shown ∧ reread_of (read_form codec row (st_version (sh_store s) (us_tenantId user) id)) shown.
Proof.
  intros Hcodec Hreach Hin Hdb Hv Hown Hans.
  destruct (shared_reachable_ok _ _ _ _ _ _ Hcodec _ Hreach) as [Hstore Hentries].
  destruct (Hentries _ _ _ Hin) as [Hcur _ _]. unfold key_stream in Hcur. cbv zeta in Hcur.
  set (v := st_version (sh_store s) (us_tenantId user) id) in *.
  assert (Hb : 0 <? v = true) by lia.
  assert (Hlive : has_version entry v = true →
    ∃ row, st_rows (sh_store s) !! id = Some row ∧
           reread_of (read_form codec row v) (withStreamVersion (rc_decrypt codec (reread_row entry)).1 v))
    by (intros; by apply Hcur).
  unfold cached_detail, cold_detail, loadDetailSnapshot, probeOwnershipWithStreamVersion, stream_tenant in *.
  destruct ownership as [| |f]; [|done|].
  - simpl in Hans. fold v in Hans. rewrite Hb, has_version_reread in Hans. destruct (has_version entry v) eqn:Hl; [|done].
    destruct (Hlive eq_refl) as (row & Hrow & He). injection Hans as <-.
    destruct (own_row_selected db id (us_tenantId user) row (sh_store s)) as [Hsel|Hdel]; try done.
    { by apply (so_rows _ _ _ Hstore). }
    + left. rewrite Hsel. simpl. by constructor.
    + right. by eexists row, _.
  - left. destruct (select_by_id _ _ _ _ _ _ _ _) as [row|] eqn:Hsel; simpl in *; [|injection Hans as <-; constructor].
    fold v in Hans |- *. rewrite Hb, has_version_reread in Hans. destruct (has_version entry v) eqn:Hl; [|done].
    injection Hans as <-. destruct (Hlive eq_refl) as (row' & Hrow & He). apply select_by_id_row in Hsel. simplify_eq.
    by constructor.
Qed.
(** The answer with a cache holding an entry, and the answer without. *)
Lemma cached_detail_reread lint entityName parentClause gateClause s user db id cache (entry : gmap string Value) answer cache' :
  codec_ok ctx codec → shared_reachable pg sem rls ctx false codec s →
  cache !! cacheKey (us_tenantId user) entityName id = Some (document_of entry) →
  (us_tenantId user, id, entry) ∈ sh_entries s →
  (is_tenant_mode db = true → td_tenantId db = us_tenantId user) →
  0 < st_version (sh_store s) (us_tenantId user) id →
  detail pg sem rls lint ctx entityName false codec parentClause gateClause id user db (sh_store s) cache
    = Ok (answer, cache') →
  (∃ uncached cold_cache,
     detail pg sem rls lint ctx entityName false codec parentClause gateClause id user db (sh_store s) ∅
       = Ok (uncached, cold_cache) ∧ option_Forall2 reread_of uncached answer) ∨
  ∃ row shown, st_rows (sh_store s) !! id = Some row ∧ marked_deleted row ∧ answer = Some shown ∧
    reread_of (read_form codec row (st_version (sh_store s) (us_tenantId user) id)) shown.
Proof.
  intros Hcodec Hreach Hget Hin Hdb Hv. unfold detail at 1. rewrite result_bind_Ok. intros (ownership & Hown & H).
  apply cache_get_document in Hget as Hread.
  unfold detail. rewrite Hown, Hread in *. unfold cache_get, result_bind in *. rewrite lookup_empty.
  change (stream_tenant false user) with (us_tenantId user) in H. cbn [mbind option_bind fmap option_fmap option_map] in *.
  assert (Hrefl : ∀ a : option (gmap string Value), option_Forall2 reread_of a a)
    by (intros [x|]; constructor; apply reread_of_refl).
  assert (Hne : ownership = ClauseEmpty ∨ ownership ≠ ClauseEmpty) by (destruct ownership; auto).
  destruct Hne as [->|Hne]; [left; injection H as <- <-; by eexists _, _|].
  destruct (cached_detail pg sem rls ctx codec db id ownership (us_tenantId user) (reread_row entry) (sh_store s)) as [a|] eqn:Hc.
  - assert (a = answer) as -> by (by destruct ownership; simplify_eq).
    destruct (accepted_entry_is_live s user db id ownership entry answer)
      as [Hcold|(row & shown & _ & Hrow & Hdel & Ha & Hs)]; try done; [left|right; by exists row, shown].
    destruct ownership; [by eexists _, _|done|by eexists _, _].
  - left. destruct ownership; [|done|]; injection H as <- _; by eexists _, _.
Qed.
End answers.

(** C24: A detail read served from the cache is current.  Whatever writers and
    readers have run, when the id's stream of the caller's tenant has events, an
    entry any reader ever cached for the tenant and the id yields the answer the
    same read gives without a cache, up to what JSON does to it: each field is the
    same, or the same after JSON.stringify and the parse with the date reviver,
    where an instant comes back as a Date, and so does text in the form of an ISO
    date (cached_timestamp_is_a_date).  A row without either is answered exactly.
    There is one exception: without a row rule, the live row may be answered
    although it is marked deleted. *)
Theorem cached_detail_is_current {dates : Dates} pg sem rls lint ctx entityName codec parentClause gateClause
    s user db id cache (entry : gmap string Value) answer cache' :
  codec_ok ctx codec → shared_reachable pg sem rls ctx false codec s →
  cache !! cacheKey (us_tenantId user) entityName id = Some (document_of entry) →
  (us_tenantId user, id, entry) ∈ sh_entries s →
  (is_tenant_mode db = true → td_tenantId db = us_tenantId user) →
  0 < st_version (sh_store s) (us_tenantId user) id →
  detail pg sem rls lint ctx entityName false codec parentClause gateClause id user db (sh_store s) cache
    = Ok (answer, cache') →
  (∃ uncached cold_cache,
     detail pg sem rls lint ctx entityName false codec parentClause gateClause id user db (sh_store s) ∅
       = Ok (uncached, cold_cache) ∧
     option_Forall2 reread_of uncached answer ∧
     ((∀ row c v, uncached = Some row → row !! c = Some v → reread v = v) → answer = uncached)) ∨
  ∃ row shown, st_rows (sh_store s) !! id = Some row ∧ marked_deleted pg ctx row ∧ answer = Some shown ∧
    reread_of (read_form codec row (st_version (sh_store s) (us_tenantId user) id)) shown.
Proof.
  intros Hcodec Hreach Hget Hin Hdb Hv H.
  destruct (cached_detail_reread pg sem rls ctx codec lint entityName parentClause gateClause s user db id cache entry
    answer cache' Hcodec Hreach Hget Hin Hdb Hv H) as [(u & c & Hu & Hf)|Hdel]; [left|by right].
  exists u, c. split_and!; [done|done|]. intros Hp. destruct Hf as [x y Hxy|]; [|done]. f_equal.
  apply reread_of_plain; [|done]. intros k v. by apply Hp.
Qed.

(** ** Tasks read and cached *)

Definition stored_task (title : string) (tenant : string) (deleted : bool) (version : Z) : DbRow :=
  <["version" := JNum version]> (<["insertedAt" := JStr "2025-01-01T00:00:00Z"]> (task "a1" tenant (JStr title) "u1" deleted)).

#[local] Instance new_year : Dates := {|
  date_parse s := if bool_decide (s = "2025-01-01T00:00:00Z") then Some 1735689600000 else None;
  date_iso _ := "2025-01-01T00:00:00.000Z" |}.

Fixpoint value_of (j : Json) : Value :=
  match j with
  | JNull => RdNull
  | JBool b => RdBool b
  | JNum n => RdNum n
  | JStr s => RdStr s
  | JArr l => RdArr (map value_of l)
  | JObj kvs => RdObj (map (λ kv, (kv.1, value_of kv.2)) kvs)
  end.

(** Nothing is encrypted; the timestamp is read as an instant. *)
Definition coerce_task (row : DbRow) : gmap string Value :=
  map_imap (λ c v, Some (match v with
                         | JStr text => if bool_decide (c = "insertedAt") then RdInstant text else RdStr text
                         | _ => value_of v
                         end)) row.

Definition plain_codec : RowCodec := mkCodec coerce_task (λ row, (row, [])) (λ _ row, row).

Lemma plain_codec_ok : codec_ok tasks plain_codec.
Proof.
  split; [|done..]. intros row id. unfold id_of, column_value. change (physicalColumnName (lc_handles tasks) "id") with "id".
  simpl. unfold coerce_task. rewrite map_lookup_imap. destruct (row !! "id") as [v|] eqn:Hid; simpl; [by intros ->|done].
Qed.

Definition task_store (tenant : string) (version : Z) (row : DbRow) : Store :=
  mkStore (λ t id, if bool_decide (t = tenant ∧ id = "a1") then version else 0) {["a1" := row]}.

Lemma stored_task_of_stream title t deleted v : row_of_stream tasks plain_codec t "a1" v (stored_task title t deleted v).
Proof.
  unfold row_of_stream, stored_task, task, id_of, tenant_is, column_value. simpl.
  rewrite !lookup_insert_ne by done. repeat (rewrite lookup_insert_eq || rewrite lookup_insert_ne by done). simpl.
  split_and!; [done|done|by case_bool_decide|]. intros k. unfold has_version, coerce_task.
  rewrite map_lookup_imap, lookup_insert_eq. simpl. lia.
Qed.

Lemma task_store_ok title t deleted v : 0 ≤ v → store_ok tasks plain_codec (task_store t v (stored_task title t deleted v)).
Proof.
  intros Hv. split; unfold task_store; cbn [st_version st_rows].
  - intros t' id. by case_bool_decide.
  - intros t1 t2 id. do 2 case_bool_decide; destruct_and?; subst; first [done|lia].
  - intros id row [<- <-]%lookup_singleton_Some. apply (stored_task_of_stream title t deleted v).
  - intros t' id row Hpos [<- <-]%lookup_singleton_Some. revert Hpos. case_bool_decide; [|lia]. destruct_and?. subst.
    intros _. apply stored_task_of_stream.
Qed.

Notation task_detail := (detail text_pg text_columns true (λ _ _, true) tasks "task" false plain_codec (λ _, ClausePass)
  ClausePass "a1") (only parsing).
Notation task_reachable := (shared_reachable text_pg text_columns true tasks false plain_codec) (only parsing).

Definition read_task (title tenant : string) (deleted : bool) (version : Z) : gmap string Value :=
  coerce_task (stored_task title tenant deleted version).

(** A list caches version 2 after the task was retitled. *)
Notation retitled := (mkShared
  (commit_store "t1" "a1" (Some (stored_task "y" "t1" false 2)) (task_store "t1" 1 (stored_task "x" "t1" false 1)))
  [("t1", "a1", read_task "y" "t1" false 2)]) (only parsing).

(** Comparing rows as booleans keeps the checks small. *)
Definition answers (r : result ListError (option (gmap string Value) * gmap string (gmap string Json)))
    (row : option (gmap string Value)) : bool :=
  match r with Ok (answer, _) => bool_decide (answer = row) | Err _ => false end.

Definition answers_and_keeps (r : result ListError (option (gmap string Value) * gmap string (gmap string Json)))
    (row : option (gmap string Value)) (cache : gmap string (gmap string Json)) : bool :=
  match r with Ok (answer, kept) => bool_decide (answer = row) && bool_decide (kept = cache) | Err _ => false end.

Lemma answers_and_keeps_spec r row cache : answers_and_keeps r row cache = true → r = Ok (row, cache).
Proof. destruct r as [[a k]|]; [|done]. simpl. rewrite andb_true_iff, !bool_decide_eq_true. by intros [-> ->]. Qed.

Notation retitled_cache := {[cacheKey "t1" "task" "a1" := document_of (read_task "y" "t1" false 2)]} (only parsing).

Lemma retitled_entries : list_entries plain_codec [stored_task "y" "t1" false 2] = [("a1", read_task "y" "t1" false 2)].
Proof.
  apply (bool_decide_eq_true_1 (list_entries plain_codec [stored_task "y" "t1" false 2] = _)).
  vm_compute. reflexivity.
Qed.

Lemma retitled_reachable : task_reachable retitled.
Proof.
  eapply sr_step; [eapply sr_step; [apply sr_start, (task_store_ok "x" "t1" false 1); lia|]|].
  - apply (step_commit _ _ _ _ _ _ _ "t1" "a1" (Some (stored_task "y" "t1" false 2))); simpl.
    + intros t. by case_bool_decide; destruct_and?.
    + by left.
    + intros r [= <-]. apply stored_task_of_stream.
  - pose proof (step_list text_pg text_columns true tasks false plain_codec (mkShared (sh_store retitled) []) member
      [stored_task "y" "t1" false 2]) as Hlist. rewrite retitled_entries in Hlist. apply Hlist.
    intros row ->%list_elem_of_singleton. by exists "a1".
Qed.

Notation cached_task := (reread_row (read_task "y" "t1" false 2)) (only parsing).

Lemma retitled_detail :
  task_detail member tenant_db (sh_store retitled) retitled_cache = Ok (Some cached_task, retitled_cache).
Proof. apply answers_and_keeps_spec. vm_compute. reflexivity. Qed.

(** Without the cache the timestamp is an instant, with it a date. *)
Example cached_timestamp_is_a_date :
  answers (task_detail member tenant_db (sh_store retitled) ∅) (Some (read_task "y" "t1" false 2))
  && bool_decide (read_task "y" "t1" false 2 !! "insertedAt" = Some (RdInstant "2025-01-01T00:00:00Z"))
  && bool_decide (cached_task !! "insertedAt" = Some (RdDate 1735689600000)) = true.
Proof. vm_compute. reflexivity. Qed.

Lemma cached_detail_is_current_witness :
  (∃ uncached c, task_detail member tenant_db (sh_store retitled) ∅ = Ok (uncached, c) ∧
     option_Forall2 reread_of uncached (Some cached_task)) ∨
  ∃ row, st_rows (sh_store retitled) !! "a1" = Some row ∧ marked_deleted text_pg tasks row.
Proof.
  destruct (cached_detail_is_current text_pg text_columns true (λ _ _, true) tasks "task" plain_codec (λ _, ClausePass) ClausePass
    retitled member tenant_db "a1" retitled_cache (read_task "y" "t1" false 2) (Some cached_task) retitled_cache
    plain_codec_ok retitled_reachable) as [(u & c & Hu & Hf & _)|(row & shown & Hr & Hd & _)].
  - apply lookup_singleton_eq.
  - by left.
  - done.
  - done.
  - exact retitled_detail.
  - left. exists u, c. split; [exact Hu|exact Hf].
  - right. exists row. split; [exact Hr|exact Hd].
Defined.

(** The trash of a task list caches the soft-deleted row under its live version,
    and a detail read then answers a row it hides without the cache. *)
Example trashed_task_is_answered :
  let row := stored_task "x" "t1" true 2 in
  let store := task_store "t1" 2 row in
  let cache := cache_list "task" plain_codec member [row] ∅ in
  answers (task_detail member tenant_db store cache) (Some (reread_row (read_task "x" "t1" true 2)))
  && answers (task_detail member tenant_db store ∅) None = true.
Proof. vm_compute. reflexivity. Qed.

(** A reader in system mode lists a task of another tenant; the stream it
    compares has no events, so the entry is answered after the task changed. *)
Example foreign_task_is_answered_stale :
  let system_db := mkTenantDb "t1" ModeSystem (mkGrants None None None) false in
  let old := stored_task "x" "t2" false 1 in let new := stored_task "y" "t2" false 2 in
  let store := task_store "t2" 2 new in
  let cache := cache_list "task" plain_codec member [old] ∅ in
  answers (task_detail member system_db store cache) (Some (reread_row (coerce_task old)))
  && answers (task_detail member system_db store ∅) (Some (coerce_task new)) = true.
Proof. vm_compute. reflexivity. Qed.
