(* ===== verification/SqlScript.v ===== *)
(** * Splitting a migration file into statements

    [splitSqlStatements] of [db/migrate-runner.ts].  The scanner walks the text
    with one character of lookahead; [SqlToken] is the lexical structure of SQL
    it has to respect, and [statements_of] what a text made of tokens contains.
    Trimming knows ASCII white space. *)

From Stdlib Require Import Ascii.
From S2P Require Import Prelude.

Open Scope string_scope.
Open Scope list_scope.

Notation quote1 := "039"%char (only parsing).
Notation quote2 := "034"%char (only parsing).
Notation newline := "010"%char (only parsing).

Definition chr (c : ascii) : string := String c EmptyString.

(** ** The scanner *)

(** [Verbatim n]: the next [n] characters of a dollar-quoted body are copied. *)
Inductive SqlScanState :=
| Normal
| LineComment
| BlockComment (depth : nat)
| SingleQuote
| DoubleQuote
| Verbatim (n : nat).

Inductive SplitError :=
| UnterminatedDollarBody (opening : string)
| UnterminatedState (st : SqlScanState).

Definition is_ident_start (c : ascii) : bool :=
  let n := nat_of_ascii c in
  ((65 <=? n) && (n <=? 90) || (97 <=? n) && (n <=? 122))%nat || (n =? 95)%nat.

(** [\w] *)
Definition is_word (c : ascii) : bool :=
  let n := nat_of_ascii c in is_ident_start c || ((48 <=? n) && (n <=? 57))%nat.

(** The rest of a tag up to and with its dollar. *)
Fixpoint tag_rest (s : string) : option string :=
  match s with
  | String c rest =>
      if Ascii.eqb c "$" then Some (chr c) else if is_word c then String c <$> tag_rest rest else None
  | EmptyString => None
  end.

(** The opening tag of a dollar-quoted body at the start of the text: a dollar,
    an identifier or nothing, a dollar. *)
Definition dollar_opening (s : string) : option string :=
  match s with
  | String d (String c _ as rest) =>
      if Ascii.eqb d "$" then
        if Ascii.eqb c "$" then Some "$$" else if is_ident_start c then String d <$> tag_rest rest else None
      else None
  | _ => None
  end.

(** [s.indexOf(needle)] *)
Fixpoint find_index (needle s : string) : option nat :=
  if starts_with needle s then Some 0%nat
  else match s with EmptyString => None | String _ rest => S <$> find_index needle rest end.

Definition next_is (c : ascii) (s : string) : bool :=
  match s with String d _ => Ascii.eqb d c | EmptyString => false end.

Definition skip1 (s : string) : string := match s with String _ rest => rest | EmptyString => EmptyString end.

(** The texts between the semicolons; [cur] is the statement so far. *)
Fixpoint scan (st : SqlScanState) (cur s : string) {struct s} : result SplitError (list string) :=
  match s with
  | EmptyString =>
      match st with
      | BlockComment _ | SingleQuote | DoubleQuote => Err (UnterminatedState st)
      | _ => Ok [cur]
      end
  | String ch rest =>
      let second := match rest with String n _ => n | EmptyString => "000"%char end in
      (* the walk goes on behind the next character *)
      let skip st cur := match rest with String _ rest' => scan st cur rest' | EmptyString => scan st cur rest end in
      match st with
      | LineComment => if Ascii.eqb ch newline then scan Normal (cur +:+ chr ch) rest else scan LineComment cur rest
      | BlockComment depth =>
          if Ascii.eqb ch "/" && next_is "*" rest then skip (BlockComment (S depth)) cur
          else if Ascii.eqb ch "*" && next_is "/" rest then
            if (depth - 1 =? 0)%nat then skip Normal (cur +:+ " ") else skip (BlockComment (depth - 1)) cur
          else scan (BlockComment depth) cur rest
      | SingleQuote =>
          let cur := cur +:+ chr ch in
          if Ascii.eqb ch quote1 then
            if next_is quote1 rest then skip SingleQuote (cur +:+ chr second) else scan Normal cur rest
          else scan SingleQuote cur rest
      | DoubleQuote =>
          let cur := cur +:+ chr ch in
          if Ascii.eqb ch quote2 then
            if next_is quote2 rest then skip DoubleQuote (cur +:+ chr second) else scan Normal cur rest
          else scan DoubleQuote cur rest
      | Verbatim (S (S n)) => scan (Verbatim (S n)) (cur +:+ chr ch) rest
      | Verbatim _ => scan Normal (cur +:+ chr ch) rest
      | Normal =>
          if Ascii.eqb ch "-" && next_is "-" rest then skip LineComment cur
          else if Ascii.eqb ch "/" && next_is "*" rest then skip (BlockComment 1) cur
          else if Ascii.eqb ch quote1 then scan SingleQuote (cur +:+ chr ch) rest
          else if Ascii.eqb ch quote2 then scan DoubleQuote (cur +:+ chr ch) rest
          else
            match dollar_opening s with
            | Some opening =>
                match find_index opening (slice_from (String.length opening) s) with
                | None => Err (UnterminatedDollarBody opening)
                | Some closeAt =>
                    scan (Verbatim (String.length opening + closeAt + String.length opening - 1)) (cur +:+ chr ch) rest
                end
            | None =>
                if Ascii.eqb ch ";" then let? more := scan Normal "" rest in Ok (cur :: more)
                else scan Normal (cur +:+ chr ch) rest
            end
      end
  end.

(** Trimmed, without the empty ones, closed by a semicolon. *)
Definition finish_statements (texts : list string) : list string :=
  (λ s, s +:+ ";") <$> filter (λ s, s ≠ "") (trim <$> texts).

Definition splitSqlStatements (sqlText : string) : result SplitError (list string) :=
  let? texts := scan Normal "" sqlText in Ok (finish_statements texts).

Example split_example :
  splitSqlStatements ("-- a; b" +:+ chr newline +:+ "SELECT ';' /* ; /* ; */ */ FROM t; DO $x$ ; $x$;")
  = Ok ["SELECT ';'   FROM t;"; "DO $x$ ; $x$;"].
Proof. vm_compute. reflexivity. Qed.

(** ** Tokens *)

(** The parts of a block comment: characters, nested openings and closings. *)
Inductive BlockPart := PChar (c : ascii) | POpen | PClose.

Inductive SqlToken :=
| TChar (c : ascii)
| TString (content : string)
| TIdent (content : string)
(** a comment up to the end of its line, and one the text ends with *)
| TLine (content : string)
| TLastLine (content : string)
| TBlock (parts : list BlockPart)
| TDollar (opening body : string)
| TSemi.

(** A quote inside a literal is written twice. *)
Fixpoint double_char (q : ascii) (s : string) : string :=
  match s with
  | EmptyString => EmptyString
  | String c rest => if Ascii.eqb c q then String c (String c (double_char q rest)) else String c (double_char q rest)
  end.

Definition quoted_with (q : ascii) (s : string) : string := chr q +:+ double_char q s +:+ chr q.

Fixpoint render_parts (parts : list BlockPart) : string :=
  match parts with
  | [] => ""
  | PChar c :: rest => String c (render_parts rest)
  | POpen :: rest => String "/" (String "*" (render_parts rest))
  | PClose :: rest => String "*" (String "/" (render_parts rest))
  end.

Definition render_token (t : SqlToken) : string :=
  match t with
  | TChar c => chr c
  | TString s => quoted_with quote1 s
  | TIdent s => quoted_with quote2 s
  | TLine s => String "-" (String "-" (s +:+ chr newline))
  | TLastLine s => String "-" (String "-" s)
  | TBlock parts => String "/" (String "*" (render_parts parts +:+ "*/"))
  | TDollar opening body => opening +:+ body +:+ opening
  | TSemi => ";"
  end.

Fixpoint render (ts : list SqlToken) : string :=
  match ts with [] => "" | t :: rest => render_token t +:+ render rest end.

(** The character begins neither an opening nor a closing. *)
Definition part_char_ok (c : ascii) (after : string) : bool :=
  negb (Ascii.eqb c "/" && next_is "*" after) && negb (Ascii.eqb c "*" && next_is "/" after).

Fixpoint parts_ok (depth : nat) (parts : list BlockPart) : bool :=
  match parts with
  | [] => (depth =? 1)%nat
  | PChar c :: rest => part_char_ok c (render_parts rest +:+ "*/") && parts_ok depth rest
  | POpen :: rest => parts_ok (S depth) rest
  | PClose :: rest => (2 <=? depth)%nat && parts_ok (depth - 1) rest
  end.

(** The token is not read as something else before what follows. *)
Definition token_ok (t : SqlToken) (after : string) : bool :=
  match t with
  | TChar c =>
      negb (Ascii.eqb c "-" && next_is "-" after) && negb (Ascii.eqb c "/" && next_is "*" after)
      && negb (Ascii.eqb c quote1) && negb (Ascii.eqb c quote2) && negb (Ascii.eqb c ";")
      && match dollar_opening (String c after) with None => true | Some _ => false end
  | TString _ => negb (next_is quote1 after)
  | TIdent _ => negb (next_is quote2 after)
  | TLine s => negb (string_includes newline s)
  | TLastLine s => negb (string_includes newline s) && bool_decide (after = "")
  | TBlock parts => parts_ok 1 parts
  | TDollar opening body =>
      bool_decide (dollar_opening opening = Some opening)
      && bool_decide (find_index opening (body +:+ opening) = Some (String.length body))
  | TSemi => true
  end.

Fixpoint tokens_ok (ts : list SqlToken) : bool :=
  match ts with [] => true | t :: rest => token_ok t (render rest) && tokens_ok rest end.

(** What a statement keeps of a token: comments become white space. *)
Definition kept_text (t : SqlToken) : string :=
  match t with
  | TLine _ => chr newline
  | TLastLine _ => ""
  | TBlock _ => " "
  | _ => render_token t
  end.

Fixpoint texts_of (cur : string) (ts : list SqlToken) : list string :=
  match ts with
  | [] => [cur]
  | TSemi :: rest => cur :: texts_of "" rest
  | t :: rest => texts_of (cur +:+ kept_text t) rest
  end.

Definition statements_of (ts : list SqlToken) : list string := finish_statements (texts_of "" ts).

(** ** The scanner reads tokens *)

Lemma append_cons c s t : String c s +:+ t = String c (s +:+ t).
Proof. done. Qed.

Lemma append_nil_r s : s +:+ "" = s.
Proof. induction s as [|c s IH]; [done|]. by rewrite append_cons, IH. Qed.

Lemma length_append s t : String.length (s +:+ t) = (String.length s + String.length t)%nat.
Proof. induction s as [|c s IH]; [done|]. rewrite append_cons. simpl. by rewrite IH. Qed.

Lemma append_chr cur c s : (cur +:+ chr c) +:+ s = cur +:+ String c s.
Proof. by rewrite <- string_app_assoc. Qed.

Lemma scan_line cur s rest :
  string_includes newline s = false → scan LineComment cur (s +:+ String newline rest) = scan Normal (cur +:+ chr newline) rest.
Proof.
  unfold string_includes. revert cur. induction s as [|c s IH]; intros cur; [done|]. rewrite append_cons. simpl index_of.
  cbn [scan]. destruct (Ascii.eqb c newline) eqn:Hc; [done|]. intros H. apply IH. by destruct (index_of newline s).
Qed.

Lemma scan_last_line cur s : string_includes newline s = false → scan LineComment cur s = Ok [cur].
Proof.
  unfold string_includes. revert cur. induction s as [|c s IH]; intros cur; [done|]. simpl index_of.
  cbn [scan]. destruct (Ascii.eqb c newline) eqn:Hc; [done|]. intros H. apply IH. by destruct (index_of newline s).
Qed.

Lemma scan_single cur s rest :
  next_is quote1 rest = false →
  scan SingleQuote cur (double_char quote1 s +:+ String quote1 rest) = scan Normal (cur +:+ double_char quote1 s +:+ chr quote1) rest.
Proof.
  intros Hn. revert cur. induction s as [|c s IH]; intros cur; simpl double_char.
  - change ("" +:+ ?x) with x. cbn [scan]. by rewrite Hn.
  - destruct (Ascii.eqb c quote1) eqn:Hc.
    + apply Ascii.eqb_eq in Hc as ->. rewrite !append_cons. cbn [scan]. simpl next_is. cbv iota beta.
      rewrite IH. f_equal. by rewrite !append_chr.
    + rewrite append_cons. cbn [scan]. rewrite Hc, IH. f_equal. by rewrite !append_chr.
Qed.

Lemma scan_double cur s rest :
  next_is quote2 rest = false →
  scan DoubleQuote cur (double_char quote2 s +:+ String quote2 rest) = scan Normal (cur +:+ double_char quote2 s +:+ chr quote2) rest.
Proof.
  intros Hn. revert cur. induction s as [|c s IH]; intros cur; simpl double_char.
  - change ("" +:+ ?x) with x. cbn [scan]. by rewrite Hn.
  - destruct (Ascii.eqb c quote2) eqn:Hc.
    + apply Ascii.eqb_eq in Hc as ->. rewrite !append_cons. cbn [scan]. simpl next_is. cbv iota beta.
      rewrite IH. f_equal. by rewrite !append_chr.
    + rewrite append_cons. cbn [scan]. rewrite Hc, IH. f_equal. by rewrite !append_chr.
Qed.

Lemma next_is_append c s t u : s ≠ "" ∨ t = u → next_is c (s +:+ t) = next_is c (s +:+ u).
Proof. intros [Hs | ->]; [|done]. by destruct s. Qed.

Lemma next_is_parts c parts t : next_is c (render_parts parts +:+ String "*" t) = next_is c (render_parts parts +:+ "*/").
Proof. by destruct (render_parts parts). Qed.

Lemma scan_parts cur parts rest d :
  parts_ok (S d) parts = true →
  scan (BlockComment (S d)) cur (render_parts parts +:+ String "*" (String "/" rest)) = scan Normal (cur +:+ " ") rest.
Proof.
  revert d. induction parts as [|[c| |] parts IH]; intros d; cbn [parts_ok render_parts].
  - intros Hd%Nat.eqb_eq. injection Hd as ->. done.
  - unfold part_char_ok. rewrite !andb_true_iff, !negb_true_iff. intros [[Ho Hc] Hp]. rewrite append_cons. cbn [scan].
    rewrite (next_is_parts "*"), (next_is_parts "/"), Ho, Hc. by apply IH.
  - intros Hp. rewrite !append_cons. cbn [scan]. simpl next_is. simpl andb. cbv iota beta. by apply IH.
  - intros [Hd Hp]%andb_true_iff. rewrite !append_cons. cbn [scan]. simpl next_is. simpl andb. cbv iota beta.
    destruct d as [|d]; [done|]. simpl. by apply IH.
Qed.

Lemma scan_verbatim s : ∀ n cur rest, n = String.length s → (0 < n)%nat → scan (Verbatim n) cur (s +:+ rest) = scan Normal (cur +:+ s) rest.
Proof.
  induction s as [|c s IH]; intros n cur rest Hn Hpos; simpl in Hn; [lia|]. subst n. rewrite append_cons.
  destruct s as [|d s]; [done|]. cbn [String.length scan].
  rewrite IH by (simpl; lia). f_equal. apply append_chr.
Qed.

Lemma tag_rest_append s t x : tag_rest s = Some t → tag_rest (s +:+ x) = Some t.
Proof.
  revert t. induction s as [|c s IH]; intros t; [done|]. rewrite append_cons. simpl.
  destruct (Ascii.eqb c "$"); [done|]. destruct (is_word c); [|done].
  intros (t' & Ht & ->)%fmap_Some. by rewrite (IH t').
Qed.

Lemma dollar_opening_append s o x : dollar_opening s = Some o → dollar_opening (s +:+ x) = Some o.
Proof.
  destruct s as [|d [|c s]]; [done..|]. rewrite !append_cons. cbn [dollar_opening]. destruct (Ascii.eqb d "$"); [|done].
  destruct (Ascii.eqb c "$"); [done|]. destruct (is_ident_start c); [|done].
  intros (t & Ht & ->)%fmap_Some. change (String c (s +:+ x)) with (String c s +:+ x). by rewrite (tag_rest_append _ t).
Qed.

Lemma dollar_opening_first s o : dollar_opening s = Some o → ∃ t, s = String "$" t ∧ (1 ≤ String.length t)%nat.
Proof.
  destruct s as [|d [|c s]]; [done..|]. simpl. destruct (Ascii.eqb d "$") eqn:Hd; [|done].
  apply Ascii.eqb_eq in Hd as ->. intros _. exists (String c s). split; [done|]. simpl. lia.
Qed.

Lemma starts_with_append n s x : (String.length n ≤ String.length s)%nat → starts_with n (s +:+ x) = starts_with n s.
Proof.
  revert s. induction n as [|c n IH]; intros [|d s]; simpl; [done..|lia|]. intros H. rewrite IH by lia. done.
Qed.

Lemma find_index_bound n s k : find_index n s = Some k → (k + String.length n ≤ String.length s)%nat.
Proof.
  revert k. induction s as [|c s IH]; intros k.
  - destruct n as [|d n]; cbn [find_index]; [|done]. intros [= <-]. simpl. lia.
  - cbn [find_index]. destruct (starts_with n (String c s)) eqn:Hs.
    + intros [= <-]. apply starts_with_split in Hs. rewrite Hs, length_append. lia.
    + intros (j & Hj & ->)%fmap_Some. apply IH in Hj. simpl. lia.
Qed.

Lemma find_index_append n s x k : find_index n s = Some k → find_index n (s +:+ x) = Some k.
Proof.
  revert k. induction s as [|c s IH]; intros k H.
  - destruct n; [|done]. injection H as <-. by destruct x.
  - pose proof (find_index_bound _ _ _ H) as Hb. rewrite append_cons. cbn [find_index] in *.
    change (String c (s +:+ x)) with (String c s +:+ x). rewrite starts_with_append by lia.
    destruct (starts_with n (String c s)); [done|]. apply fmap_Some in H as (j & Hj & ->). by rewrite (IH j).
Qed.

Lemma scan_dollar cur opening body rest :
  dollar_opening opening = Some opening → find_index opening (body +:+ opening) = Some (String.length body) →
  scan Normal cur (opening +:+ body +:+ opening +:+ rest) = scan Normal (cur +:+ opening +:+ body +:+ opening) rest.
Proof.
  intros Ho Hf. destruct (dollar_opening_first _ _ Ho) as (tag & -> & Hlen).
  pose proof (find_index_append _ _ rest _ Hf) as Hclose. rewrite <- string_app_assoc in Hclose.
  pose proof (dollar_opening_append _ _ (body +:+ String "$" tag +:+ rest) Ho) as Hopen.
  pose proof (slice_from_app (String "$" tag) (body +:+ String "$" tag +:+ rest)) as Hslice.
  rewrite append_cons in Hopen, Hslice |- *. set (after := tag +:+ body +:+ String "$" tag +:+ rest) in *.
  cbn [scan]. rewrite Hopen, Hslice, Hclose. simpl. subst after.
  assert (Heq : tag +:+ body +:+ String "$" tag +:+ rest = (tag +:+ body +:+ String "$" tag) +:+ rest)
    by (by rewrite <- !string_app_assoc).
  rewrite Heq, scan_verbatim by (rewrite ?length_append; simpl; lia). f_equal. by rewrite append_chr, append_cons.
Qed.

Lemma scan_char cur c rest :
  token_ok (TChar c) rest = true → scan Normal cur (String c rest) = scan Normal (cur +:+ chr c) rest.
Proof.
  cbn [token_ok]. rewrite !andb_true_iff, !negb_true_iff. intros [[[[[H1 H2] H3] H4] H5] H6].
  cbn [scan]. rewrite H1, H2, H3, H4, H5. by destruct (dollar_opening (String c rest)).
Qed.

Lemma quoted_append q s rest : quoted_with q s +:+ rest = String q (double_char q s +:+ String q rest).
Proof. unfold quoted_with. rewrite <- !string_app_assoc. done. Qed.

Lemma scan_token t cur rest :
  t ≠ TSemi → (∀ s, t ≠ TLastLine s) → token_ok t rest = true →
  scan Normal cur (render_token t +:+ rest) = scan Normal (cur +:+ kept_text t) rest.
Proof.
  intros Hsemi Hlast Hok. destruct t as [c|s|s|s|s|parts|o b|]; cbn [render_token kept_text]; try done.
  - by apply scan_char.
  - apply negb_true_iff in Hok. rewrite quoted_append. cbn [scan]. simpl. rewrite scan_single by done.
    f_equal. apply append_chr.
  - apply negb_true_iff in Hok. rewrite quoted_append. cbn [scan]. simpl. rewrite scan_double by done.
    f_equal. apply append_chr.
  - apply negb_true_iff in Hok. rewrite !append_cons, <- string_app_assoc. cbn [scan]. simpl. by apply scan_line.
  - by destruct (Hlast s).
  - rewrite !append_cons, <- string_app_assoc. cbn [scan]. simpl. by apply scan_parts.
  - apply andb_true_iff in Hok as [Ho Hf]. reflect_bools. rewrite <- !string_app_assoc. by apply scan_dollar.
Qed.

Lemma scan_semi cur rest : scan Normal cur (";" +:+ rest) = (let? more := scan Normal "" rest in Ok (cur :: more)).
Proof. rewrite append_cons. change ("" +:+ rest) with rest. by destruct rest. Qed.

Lemma render_token_ne t after : token_ok t after = true → render_token t ≠ "".
Proof.
  destruct t as [| | | | | |o b|]; try done. intros [Ho _]%andb_true_iff. reflect_bools.
  by destruct (dollar_opening_first _ _ Ho) as (tag & -> & _).
Qed.

Lemma render_nil ts : tokens_ok ts = true → render ts = "" → ts = [].
Proof.
  destruct ts as [|t ts]; [done|]. cbn [tokens_ok render]. intros [Ht%render_token_ne _]%andb_true_iff Hr.
  by destruct (render_token t).
Qed.

Lemma scan_tokens ts cur : tokens_ok ts = true → scan Normal cur (render ts) = Ok (texts_of cur ts).
Proof.
  revert cur. induction ts as [|t ts IH]; intros cur; [done|]. cbn [tokens_ok render]. intros [Ht Hts]%andb_true_iff.
  destruct t as [c|s|s|s|s|parts|o b|]; try (rewrite scan_token by done; by apply IH).
  - simpl in Ht. apply andb_true_iff in Ht as [Hs He]. reflect_bools. rewrite He, append_nil_r. cbn [render_token scan].
    simpl. apply render_nil in He as ->; [|done]. rewrite !append_nil_r. by apply scan_last_line.
  - cbn [render_token]. rewrite scan_semi, IH by done. done.
Qed.

(** ** Every accepted text is made of tokens *)

Lemma split_line s :
  (∃ a b, s = a +:+ String newline b ∧ string_includes newline a = false) ∨ string_includes newline s = false.
Proof.
  induction s as [|c s IH]; [by right|]. unfold string_includes in *. simpl. destruct (Ascii.eqb c newline) eqn:Hc.
  - apply Ascii.eqb_eq in Hc as ->. left. by exists "", s.
  - destruct IH as [(a & b & -> & Ha)|Hs]; [left|right; by destruct (index_of newline s)].
    exists (String c a), b. split; [done|]. simpl. rewrite Hc. by destruct (index_of newline a).
Qed.

Lemma scan_single_inv n : ∀ s cur r, (String.length s ≤ n)%nat → scan SingleQuote cur s = Ok r →
  ∃ a rest, s = double_char quote1 a +:+ String quote1 rest ∧ next_is quote1 rest = false.
Proof.
  induction n as [|n IH]; intros [|c s] cur r Hn; simpl in Hn; try lia; [done..|]. cbn [scan].
  destruct (Ascii.eqb c quote1) eqn:Hc.
  - apply Ascii.eqb_eq in Hc as ->. destruct (next_is quote1 s) eqn:Hs; [|intros _; by exists "", s].
    destruct s as [|d s]; [done|]. simpl in Hs, Hn. apply Ascii.eqb_eq in Hs as ->.
    intros (a & rest & -> & Ha)%IH; [|lia]. by exists (String quote1 a), rest.
  - intros (a & rest & -> & Ha)%IH; [|lia]. exists (String c a), rest. simpl. by rewrite Hc.
Qed.

Lemma scan_double_inv n : ∀ s cur r, (String.length s ≤ n)%nat → scan DoubleQuote cur s = Ok r →
  ∃ a rest, s = double_char quote2 a +:+ String quote2 rest ∧ next_is quote2 rest = false.
Proof.
  induction n as [|n IH]; intros [|c s] cur r Hn; simpl in Hn; try lia; [done..|]. cbn [scan].
  destruct (Ascii.eqb c quote2) eqn:Hc.
  - apply Ascii.eqb_eq in Hc as ->. destruct (next_is quote2 s) eqn:Hs; [|intros _; by exists "", s].
    destruct s as [|d s]; [done|]. simpl in Hs, Hn. apply Ascii.eqb_eq in Hs as ->.
    intros (a & rest & -> & Ha)%IH; [|lia]. by exists (String quote2 a), rest.
  - intros (a & rest & -> & Ha)%IH; [|lia]. exists (String c a), rest. simpl. by rewrite Hc.
Qed.

Lemma scan_block_inv n : ∀ s d cur r, (String.length s ≤ n)%nat → scan (BlockComment (S d)) cur s = Ok r →
  ∃ parts rest, s = render_parts parts +:+ String "*" (String "/" rest) ∧ parts_ok (S d) parts = true.
Proof.
  induction n as [|n IH]; intros [|c s] d cur r Hn; simpl in Hn; try lia; [done..|]. cbn [scan].
  destruct (Ascii.eqb c "/" && next_is "*" s) eqn:Ho; [|destruct (Ascii.eqb c "*" && next_is "/" s) eqn:Hc].
  - apply andb_true_iff in Ho as [->%Ascii.eqb_eq Hs]. destruct s as [|e s]; [done|]. simpl in Hs, Hn.
    apply Ascii.eqb_eq in Hs as ->. intros (parts & rest & -> & Hp)%IH; [|lia]. by exists (POpen :: parts), rest.
  - apply andb_true_iff in Hc as [->%Ascii.eqb_eq Hs]. destruct s as [|e s]; [done|]. simpl in Hs, Hn.
    apply Ascii.eqb_eq in Hs as ->. simpl. destruct d as [|d]; simpl; [intros _; by exists [], s|].
    intros (parts & rest & -> & Hp)%IH; [|lia]. by exists (PClose :: parts), rest.
  - intros (parts & rest & -> & Hp)%IH; [|lia]. exists (PChar c :: parts), rest. split; [done|].
    cbn [parts_ok]. unfold part_char_ok. by rewrite <- (next_is_parts "*" parts (String "/" rest)),
      <- (next_is_parts "/" parts (String "/" rest)), Ho, Hc, Hp.
Qed.

Lemma tag_rest_self s t : tag_rest s = Some t → tag_rest t = Some t ∧ ∃ x, s = t +:+ x.
Proof.
  revert t. induction s as [|c s IH]; intros t; [done|]. simpl. destruct (Ascii.eqb c "$") eqn:Hc.
  - intros [= <-]. apply Ascii.eqb_eq in Hc as ->. split; [done|]. by exists s.
  - destruct (is_word c) eqn:Hw; [|done]. intros (u & Hu & ->)%fmap_Some. destruct (IH u Hu) as [H (x & ->)].
    simpl. rewrite Hc, Hw, H. split; [done|]. by exists x.
Qed.

Lemma dollar_opening_self s o : dollar_opening s = Some o → dollar_opening o = Some o ∧ ∃ x, s = o +:+ x.
Proof.
  destruct s as [|d [|c s]]; [done..|]. cbn [dollar_opening]. destruct (Ascii.eqb d "$") eqn:Hd; [|done].
  apply Ascii.eqb_eq in Hd as ->. destruct (Ascii.eqb c "$") eqn:Hc.
  { apply Ascii.eqb_eq in Hc as ->. intros [= <-]. split; [done|]. by exists s. }
  destruct (is_ident_start c) eqn:Hi; [|done]. intros (t & Ht & ->)%fmap_Some.
  destruct (tag_rest_self _ _ Ht) as [H (x & Hx)]. destruct t as [|e t]; [done|]. injection Hx as <- Hx.
  cbn [dollar_opening]. simpl Ascii.eqb. rewrite Hc, Hi, H. split; [done|]. exists x. by rewrite Hx.
Qed.

Lemma find_index_split n s k : find_index n s = Some k →
  ∃ body rest, s = body +:+ n +:+ rest ∧ find_index n (body +:+ n) = Some (String.length body).
Proof.
  revert k. induction s as [|c s IH]; intros k.
  - destruct n; [|done]. intros _. by exists "", "".
  - cbn [find_index]. destruct (starts_with n (String c s)) eqn:Hs.
    + intros _. apply starts_with_split in Hs. exists "", (slice_from (String.length n) (String c s)). split; [done|].
      change ("" +:+ n) with n. assert (Hn : starts_with n n = true) by (rewrite <- (append_nil_r n) at 2; apply starts_with_app).
      destruct n; simpl in *; by rewrite ?Hn.
    + intros (j & Hj & ->)%fmap_Some. destruct (IH j Hj) as (body & rest & -> & Hf). exists (String c body), rest.
      split; [done|]. rewrite append_cons. cbn [find_index].
      destruct (starts_with n (String c (body +:+ n))) eqn:Hp; [|simpl; by rewrite Hf].
      rewrite (string_app_assoc body n rest) in Hs. change (String c ((body +:+ n) +:+ rest)) with (String c (body +:+ n) +:+ rest) in Hs.
      rewrite starts_with_append in Hs by (simpl; rewrite length_append; lia). congruence.
Qed.

(** A text the scanner accepts starts with a token. *)
Lemma scan_first_token s cur r : s ≠ "" → scan Normal cur s = Ok r → ∃ t rest, s = render_token t +:+ rest ∧ token_ok t rest = true.
Proof.
  destruct s as [|c s]; [done|]. intros _. cbn [scan].
  destruct (Ascii.eqb c "-" && next_is "-" s) eqn:H1.
  { apply andb_true_iff in H1 as [->%Ascii.eqb_eq H1]. destruct s as [|d s]; [done|]. apply Ascii.eqb_eq in H1 as ->. intros _.
    destruct (split_line s) as [(a & b & -> & Ha)|Hs].
    - exists (TLine a), b. cbn [render_token token_ok]. rewrite Ha, !append_cons, <- string_app_assoc. done.
    - exists (TLastLine s), "". cbn [render_token token_ok]. rewrite Hs, !append_cons, append_nil_r. done. }
  destruct (Ascii.eqb c "/" && next_is "*" s) eqn:H2.
  { apply andb_true_iff in H2 as [->%Ascii.eqb_eq H2]. destruct s as [|d s]; [done|]. apply Ascii.eqb_eq in H2 as ->.
    intros (parts & rest & -> & Hp)%(scan_block_inv (String.length s)); [|lia]. exists (TBlock parts), rest. split; [|done].
    cbn [render_token]. rewrite !append_cons, <- string_app_assoc. done. }
  destruct (Ascii.eqb c quote1) eqn:H3.
  { apply Ascii.eqb_eq in H3 as ->. intros (a & rest & -> & Ha)%(scan_single_inv (String.length s)); [|lia].
    exists (TString a), rest. cbn [render_token token_ok]. by rewrite quoted_append, Ha. }
  destruct (Ascii.eqb c quote2) eqn:H4.
  { apply Ascii.eqb_eq in H4 as ->. intros (a & rest & -> & Ha)%(scan_double_inv (String.length s)); [|lia].
    exists (TIdent a), rest. cbn [render_token token_ok]. by rewrite quoted_append, Ha. }
  destruct (dollar_opening (String c s)) as [o|] eqn:H6.
  { destruct (find_index o _) as [k|] eqn:Hf; [|done]. intros _. destruct (dollar_opening_self _ _ H6) as [Ho (x & Hx)].
    rewrite Hx, slice_from_app in Hf. destruct (find_index_split _ _ _ Hf) as (body & rest & -> & Hb).
    exists (TDollar o body), rest. cbn [render_token token_ok]. rewrite Hx, <- !string_app_assoc. split; [done|].
    by rewrite !bool_decide_eq_true_2. }
  destruct (Ascii.eqb c ";") eqn:H5; intros _.
  - apply Ascii.eqb_eq in H5 as ->. by exists TSemi, s.
  - exists (TChar c), s. cbn [render_token token_ok]. by rewrite H1, H2, H3, H4, H5, H6.
Qed.

Lemma scan_accepts n : ∀ s cur r, (String.length s ≤ n)%nat → scan Normal cur s = Ok r → ∃ ts, tokens_ok ts = true ∧ render ts = s.
Proof.
  induction n as [|n IH]; intros s cur r Hn Hs.
  { destruct s; [|simpl in Hn; lia]. by exists []. }
  destruct (decide (s = "")) as [->|Hne]; [by exists []|].
  destruct (scan_first_token _ _ _ Hne Hs) as (t & rest & -> & Ht).
  pose proof (render_token_ne _ _ Ht) as Hr. rewrite length_append in Hn.
  assert (Hlen : (String.length rest ≤ n)%nat) by (destruct (render_token t); [done|]; simpl in Hn; lia).
  assert (∃ cur' r', scan Normal cur' rest = Ok r') as (cur' & r' & Hrest).
  { destruct t as [c|a|a|a|a|parts|o b|]; try (rewrite scan_token in Hs by done; by eauto).
    - simpl in Ht. apply andb_true_iff in Ht as [_ Hrest]. reflect_bools. subst. by exists "", [""].
    - rewrite scan_semi in Hs. apply result_bind_Ok in Hs as (more & Hmore & _). by eauto. }
  destruct (IH _ _ _ Hlen Hrest) as (ts & Hts & <-). exists (t :: ts). cbn [tokens_ok render]. by rewrite Ht, Hts.
Qed.

(** C19: The splitter cuts a file exactly at its statement ends.  A text is
    accepted if and only if it is made of tokens (string literals, quoted
    identifiers, line and nested block comments, dollar-quoted bodies, semicolons
    and other characters, none of which could be read otherwise), and what comes
    out are the texts between the semicolons with comments turned into white
    space, so that no semicolon inside a literal, a comment or a body ends a
    statement. *)
Theorem split_follows_the_tokens sqlText statements :
  splitSqlStatements sqlText = Ok statements ↔
  ∃ ts, tokens_ok ts = true ∧ render ts = sqlText ∧ statements = statements_of ts.
Proof.
  unfold splitSqlStatements, statements_of. rewrite result_bind_Ok. split.
  - intros (texts & Hs & [= <-]). destruct (scan_accepts _ _ _ _ (le_n _) Hs) as (ts & Hts & <-).
    exists ts. rewrite scan_tokens in Hs by done. by simplify_eq.
  - intros (ts & Hts & <- & ->). exists (texts_of "" ts). by rewrite scan_tokens.
Qed.
