(* ===== verification/MigrationRunner.v ===== *)
(** * Applying migrations

    [db/migrate-runner.ts]: loading the files of a directory, the run that
    applies what is pending under an advisory lock, and the baseline that marks
    files as applied.  A runner is a session that takes one statement after the
    other; several runners and baselines interleave, and a session may be lost
    between any two statements.  What a statement does to the database is the
    argument [exec]; the transaction of one file is one step, undone when a
    statement or the tracking row is refused. *)

From Stdlib Require Import Ascii.
From S2P Require Import Prelude SqlScript.

Open Scope string_scope.
Open Scope list_scope.

Record Migration := mkMigration {
  mg_id : string;
  mg_checksum : string;
  mg_statements : list string }.

Record ApplyResult := mkApplied { ap_applied : list string; ap_skipped : list string }.

(** ** Loading *)

Definition remove_suffix (suffix s : string) : string :=
  if ends_with suffix s then slice_to (String.length s - String.length suffix) s else s.

#[export] Instance String_leb_dec (a b : string) : Decision (String.leb a b = true) := bool_eq_dec (String.leb a b) true.

Section loading.
Context (sha256Hex preprocess : string → string).

Definition load_migration (file : string * string) : result SplitError Migration :=
  let content := preprocess file.2 in
  let? statements := splitSqlStatements content in
  Ok (mkMigration (remove_suffix ".sql" file.1) (sha256Hex content) statements).

Fixpoint load_all (files : list (string * string)) : result SplitError (list Migration) :=
  match files with
  | [] => Ok []
  | file :: rest => let? m := load_migration file in let? ms := load_all rest in Ok (m :: ms)
  end.

(** The files of a directory with their contents. *)
Definition loadMigrationsFromDir (dir : list (string * string)) : result SplitError (list Migration) :=
  load_all (merge_sort (λ a b, String.leb a.1 b.1 = true) (filter (λ f, ends_with ".sql" f.1 = true) dir)).
End loading.

(** ** The database *)

Inductive RunError :=
| ErrNoTrackingTable
| ErrChecksumMismatch (migrationId expected actual : string)
| ErrStatement (migrationId : string)
| ErrDuplicateId (migrationId : string)
| ErrSessionLost.

Section runner.
#[local] Set Default Proof Using "Type".
Context {DB : Type} (exec : string → DB → option DB).

(** [md_tracking]: the rows of [_kumiko_migrations], [None] without the table. *)
Record MigrationDb := mkMigrationDb { md_schema : DB; md_tracking : option (gmap string string) }.

Fixpoint exec_all (statements : list string) (db : DB) : option DB :=
  match statements with [] => Some db | s :: rest => exec s db ≫= exec_all rest end.

(** [MIGRATIONS_TABLE_DDL] *)
Definition ensure_table (db : MigrationDb) : MigrationDb := mkMigrationDb (md_schema db) (Some (default ∅ (md_tracking db))).

(** BEGIN, the statements, the tracking row, COMMIT. *)
Definition apply_migration (m : Migration) (db : MigrationDb) : result RunError MigrationDb :=
  match exec_all (mg_statements m) (md_schema db) with
  | None => Err (ErrStatement (mg_id m))
  | Some schema =>
      match md_tracking db with
      | None => Err ErrNoTrackingTable
      | Some t => match t !! mg_id m with
                  | Some _ => Err (ErrDuplicateId (mg_id m))
                  | None => Ok (mkMigrationDb schema (Some (<[mg_id m := mg_checksum m]> t)))
                  end
      end
  end.

(** ** A run *)

Inductive Phase :=
| PEnsure
| PLock
| PFetch
| PLoop (applied : gmap string string) (todo : list Migration) (res : ApplyResult)
| PUnlock (outcome : result RunError ApplyResult)
| PDone (outcome : result RunError ApplyResult).

(** The database, the session that holds the lock, and, to state theorems, the
    migrations committed so far with their sessions. *)
Record Shared := mkShared {
  sh_db : MigrationDb;
  sh_lock : option nat;
  sh_log : list (nat * Migration) }.

Definition set_db (db : MigrationDb) (sh : Shared) : Shared := mkShared db (sh_lock sh) (sh_log sh).
Definition release (p : nat) (sh : Shared) : Shared :=
  mkShared (sh_db sh) (if decide (sh_lock sh = Some p) then None else sh_lock sh) (sh_log sh).

Definition add_applied (id : string) (r : ApplyResult) : ApplyResult := mkApplied (ap_applied r ++ [id]) (ap_skipped r).
Definition add_skipped (id : string) (r : ApplyResult) : ApplyResult := mkApplied (ap_applied r) (ap_skipped r ++ [id]).

(** The body of the loop over the migrations. *)
Definition loop_step (p : nat) (applied : gmap string string) (m : Migration) (rest : list Migration) (res : ApplyResult)
    (sh : Shared) : Phase * Shared :=
  match applied !! mg_id m with
  | Some prevChecksum =>
      if decide (prevChecksum = mg_checksum m) then (PLoop applied rest (add_skipped (mg_id m) res), sh)
      else (PUnlock (Err (ErrChecksumMismatch (mg_id m) prevChecksum (mg_checksum m))), sh)
  | None =>
      match apply_migration m (sh_db sh) with
      | Err e => (PUnlock (Err e), sh)
      | Ok db => (PLoop applied rest (add_applied (mg_id m) res), mkShared db (sh_lock sh) (sh_log sh ++ [(p, m)]))
      end
  end.

(** The next statement of session [p]; [None] while it waits or has ended. *)
Definition runner_step (p : nat) (ms : list Migration) (ph : Phase) (sh : Shared) : option (Phase * Shared) :=
  match ph with
  | PEnsure => Some (PLock, set_db (ensure_table (sh_db sh)) sh)
  | PLock => match sh_lock sh with
             | None => Some (PFetch, mkShared (sh_db sh) (Some p) (sh_log sh))
             | Some _ => None
             end
  | PFetch => match md_tracking (sh_db sh) with
              | None => Some (PUnlock (Err ErrNoTrackingTable), sh)
              | Some applied => Some (PLoop applied ms (mkApplied [] []), sh)
              end
  | PLoop applied [] res => Some (PUnlock (Ok res), sh)
  | PLoop applied (m :: rest) res => Some (loop_step p applied m rest res sh)
  | PUnlock outcome => Some (PDone outcome, release p sh)
  | PDone _ => None
  end.

Fixpoint run_phases (fuel : nat) (ms : list Migration) (ph : Phase) (sh : Shared) : Phase * Shared :=
  match fuel with
  | O => (ph, sh)
  | S fuel => match runner_step 0 ms ph sh with
              | None => (ph, sh)
              | Some (ph', sh') => run_phases fuel ms ph' sh'
              end
  end.

(** A run without others. *)
Definition runMigrations (ms : list Migration) (db : MigrationDb) : result RunError ApplyResult * MigrationDb :=
  match run_phases (length ms + 5) ms PEnsure (mkShared db None []) with
  | (PDone outcome, sh) => (outcome, sh_db sh)
  | (_, sh) => (Err ErrSessionLost, sh_db sh)
  end.

Definition runMigrationsFromDir (sha256Hex : string → string) (dir : list (string * string)) (db : MigrationDb)
    : result (SplitError + RunError) ApplyResult * MigrationDb :=
  match loadMigrationsFromDir sha256Hex (λ content, content) dir with
  | Err e => (Err (inl e), db)
  | Ok ms => match runMigrations ms db with
             | (Ok res, db') => (Ok res, db')
             | (Err e, db') => (Err (inr e), db')
             end
  end.

(** ** Baselines *)

(** [ON CONFLICT ("id") DO NOTHING] *)
Definition mark_applied (m : Migration) (t : gmap string string) : gmap string string :=
  match t !! mg_id m with Some _ => t | None => <[mg_id m := mg_checksum m]> t end.

Record BaselineResult := mkBaseline { bl_marked : list string; bl_alreadyTracked : list string }.

Fixpoint baseline_loop (applied : gset string) (ms : list Migration) (t : gmap string string) (res : BaselineResult)
    : BaselineResult * gmap string string :=
  match ms with
  | [] => (res, t)
  | m :: rest =>
      if decide (mg_id m ∈ applied) then
        baseline_loop applied rest t (mkBaseline (bl_marked res) (bl_alreadyTracked res ++ [mg_id m]))
      else baseline_loop applied rest (mark_applied m t) (mkBaseline (bl_marked res ++ [mg_id m]) (bl_alreadyTracked res))
  end.

Definition baselineMigrations (ms : list Migration) (db : MigrationDb) : BaselineResult * MigrationDb :=
  let t := default ∅ (md_tracking db) in
  let (res, t') := baseline_loop (dom t) ms t (mkBaseline [] []) in
  (res, mkMigrationDb (md_schema db) (Some t')).

(** ** Many sessions *)

Record System := mkSystem {
  sy_shared : Shared;
  sy_runners : list (list Migration * Phase);
  (** marked by baselines *)
  sy_marked : list Migration }.

Definition is_done (ph : Phase) : bool := match ph with PDone _ => true | _ => false end.

(** A lost session leaves no open transaction and no lock behind. *)
Inductive system_step : System → System → Prop :=
| ss_run sh rs marked p ms ph ph' sh' :
    rs !! p = Some (ms, ph) → runner_step p ms ph sh = Some (ph', sh') →
    system_step (mkSystem sh rs marked) (mkSystem sh' (<[p := (ms, ph')]> rs) marked)
| ss_lost sh rs marked p ms ph :
    rs !! p = Some (ms, ph) → is_done ph = false →
    system_step (mkSystem sh rs marked) (mkSystem (release p sh) (<[p := (ms, PDone (Err ErrSessionLost))]> rs) marked)
| ss_baseline_table sh rs marked :
    system_step (mkSystem sh rs marked) (mkSystem (set_db (ensure_table (sh_db sh)) sh) rs marked)
| ss_baseline_mark sh rs marked m t :
    md_tracking (sh_db sh) = Some t →
    system_step (mkSystem sh rs marked)
      (mkSystem (set_db (mkMigrationDb (md_schema (sh_db sh)) (Some (mark_applied m t))) sh) rs (marked ++ [m])).

Definition system_start (db : MigrationDb) (lists : list (list Migration)) : System :=
  mkSystem (mkShared db None []) ((λ ms, (ms, PEnsure)) <$> lists) [].

(** ** What a committed migration leaves *)

Notation ids := (fmap mg_id).
Notation tracked db := (default ∅ (md_tracking db)).

Lemma apply_migration_Ok m db db' :
  apply_migration m db = Ok db' →
  ∃ t schema, md_tracking db = Some t ∧ t !! mg_id m = None ∧ exec_all (mg_statements m) (md_schema db) = Some schema ∧
    db' = mkMigrationDb schema (Some (<[mg_id m := mg_checksum m]> t)).
Proof.
  unfold apply_migration. destruct (exec_all _ _) as [schema|]; [|done]. destruct (md_tracking db) as [t|]; [|done].
  destruct (t !! mg_id m) eqn:Ht; [done|]. intros [= <-]. by exists t, schema.
Qed.

(** ** A run without others *)

(** The loop of a run, as one function. *)
Fixpoint run_loop (applied : gmap string string) (ms : list Migration) (res : ApplyResult) (db : MigrationDb)
    : result RunError ApplyResult * MigrationDb :=
  match ms with
  | [] => (Ok res, db)
  | m :: rest =>
      match applied !! mg_id m with
      | Some sum => if decide (sum = mg_checksum m) then run_loop applied rest (add_skipped (mg_id m) res) db
                    else (Err (ErrChecksumMismatch (mg_id m) sum (mg_checksum m)), db)
      | None => match apply_migration m db with
                | Err e => (Err e, db)
                | Ok db' => run_loop applied rest (add_applied (mg_id m) res) db'
                end
      end
  end.

Lemma run_phases_loop all applied ms : ∀ res db log fuel, (length ms + 2 ≤ fuel)%nat →
  ∃ sh', run_phases fuel all (PLoop applied ms res) (mkShared db (Some 0) log)
         = (PDone (run_loop applied ms res db).1, sh') ∧ sh_db sh' = (run_loop applied ms res db).2.
Proof.
  induction ms as [|m ms IH]; intros res db log [|[|fuel]] Hf; simpl in Hf; try lia.
  { simpl. destruct fuel; by eexists. }
  assert (Hend : ∀ e sh, sh_lock sh = Some 0 → ∃ sh', run_phases (S fuel) all (PUnlock (Err e)) sh = (PDone (Err e), sh') ∧ sh_db sh' = sh_db sh).
  { intros e sh Hl. simpl. destruct fuel; by eexists. }
  remember (S fuel) as f. cbn [run_phases runner_step]. unfold loop_step. cbn [run_loop sh_db sh_lock sh_log].
  destruct (applied !! mg_id m) as [sum|].
  - destruct (decide (sum = mg_checksum m)); [apply IH; lia|]. subst. by apply Hend.
  - destruct (apply_migration m db) as [db'|e]; [apply IH; lia|]. subst. by apply Hend.
Qed.

Lemma runMigrations_loop ms db :
  runMigrations ms db = run_loop (tracked db) ms (mkApplied [] []) (ensure_table db).
Proof.
  unfold runMigrations. replace (length ms + 5)%nat with (S (S (S (length ms + 2)))) by lia.
  cbn [run_phases runner_step]. unfold set_db. cbn [sh_lock sh_log sh_db md_tracking ensure_table runner_step].
  destruct (run_phases_loop ms (tracked db) ms (mkApplied [] []) (ensure_table db) [] (length ms + 2)) as (sh' & -> & Hdb); [lia|].
  rewrite Hdb. by destruct (run_loop _ _ _ _).
Qed.

Lemma run_loop_app applied pre post : ∀ res db,
  run_loop applied (pre ++ post) res db
  = match run_loop applied pre res db with (Ok r, db1) => run_loop applied post r db1 | e => e end.
Proof.
  induction pre as [|m pre IH]; intros res db; simpl; [done|]. destruct (applied !! mg_id m) as [sum|].
  - by destruct (decide (sum = mg_checksum m)).
  - by destruct (apply_migration m db).
Qed.

Lemma run_loop_ext a b ms : ∀ res db, (∀ m, m ∈ ms → a !! mg_id m = b !! mg_id m) → run_loop a ms res db = run_loop b ms res db.
Proof.
  induction ms as [|m ms IH]; intros res db H; simpl; [done|]. rewrite (H m) by set_solver.
  destruct (b !! mg_id m) as [sum|]; [destruct (decide _); [|done]|destruct (apply_migration m db); [|done]]; apply IH; set_solver.
Qed.

(** What a finished loop has tracked: its own migrations, and nothing else. *)
Lemma run_loop_tracks ms : ∀ applied res db r db',
  run_loop applied ms res db = (Ok r, db') → NoDup (ids ms) → (∀ m, m ∈ ms → applied !! mg_id m = tracked db !! mg_id m) →
  (∀ m, m ∈ ms → tracked db' !! mg_id m = Some (mg_checksum m)) ∧ (∀ id, id ∉ ids ms → tracked db' !! id = tracked db !! id) ∧
  (is_Some (md_tracking db) → is_Some (md_tracking db')).
Proof.
  induction ms as [|m ms IH]; intros applied res db r db'; simpl.
  { intros [= <- <-] _ _. split_and!; [intros ? []%elem_of_nil|done..]. }
  intros Hrun [Hm Hnd]%NoDup_cons Happ. assert (Hne : ∀ m', m' ∈ ms → mg_id m' ≠ mg_id m).
  { intros m' Hm' Heq. apply Hm. rewrite <- Heq. by apply list_elem_of_fmap_2. }
  destruct (applied !! mg_id m) as [sum|] eqn:Ha.
  - destruct (decide (sum = mg_checksum m)) as [->|]; [|done].
    destruct (IH _ _ _ _ _ Hrun Hnd) as (H1 & H2 & H3); [intros; apply Happ; set_solver|]. split_and!; [|set_solver|done].
    intros m' [->|Hin]%elem_of_cons; [|by apply H1]. rewrite H2 by done. rewrite <- Happ by set_solver. done.
  - destruct (apply_migration m db) as [db1|] eqn:Hm1; [|done].
    apply apply_migration_Ok in Hm1 as (t & schema & Ht & Hid & Hex & ->).
    destruct (IH _ _ _ _ _ Hrun Hnd) as (H1 & H2 & H3); simpl in *.
    { intros m' Hin. rewrite lookup_insert_ne by (symmetry; by apply Hne). rewrite Happ by set_solver. by rewrite Ht. }
    rewrite Ht in *. simpl in *. split_and!; [| |by intros; apply H3].
    + intros m' [->|Hin]%elem_of_cons; [|by apply H1]. rewrite H2 by done. by rewrite lookup_insert_eq.
    + intros id [Hne1 Hni]%not_elem_of_cons. rewrite H2 by done. by rewrite lookup_insert_ne.
Qed.

(** Migrations that are tracked are skipped. *)
Lemma run_loop_skips ms : ∀ applied res db, (∀ m, m ∈ ms → applied !! mg_id m = Some (mg_checksum m)) →
  run_loop applied ms res db = (Ok (mkApplied (ap_applied res) (ap_skipped res ++ ids ms)), db).
Proof.
  induction ms as [|m ms IH]; intros applied res db H; simpl.
  { rewrite app_nil_r. by destruct res. }
  rewrite H, decide_True by set_solver. rewrite IH by set_solver. simpl. by rewrite <- app_assoc.
Qed.

Lemma run_loop_result ms : ∀ applied res res' db,
  match run_loop applied ms res db with
  | (Ok r, db') => ∃ a k, r = mkApplied (ap_applied res ++ a) (ap_skipped res ++ k) ∧
      run_loop applied ms res' db = (Ok (mkApplied (ap_applied res' ++ a) (ap_skipped res' ++ k)), db')
  | (Err e, db') => run_loop applied ms res' db = (Err e, db')
  end.
Proof.
  induction ms as [|m ms IH]; intros applied res res' db; simpl.
  { exists [], []. rewrite !app_nil_r. by destruct res, res'. }
  destruct (applied !! mg_id m) as [sum|]; [destruct (decide _); [|done]|destruct (apply_migration m db) as [db1|]; [|done]].
  - specialize (IH applied (add_skipped (mg_id m) res) (add_skipped (mg_id m) res') db).
    destruct (run_loop _ _ _ _) as [[r|err] db']; [|done]. destruct IH as (a & k & -> & ->).
    exists a, (mg_id m :: k). simpl. by rewrite <- !app_assoc.
  - specialize (IH applied (add_applied (mg_id m) res) (add_applied (mg_id m) res') db1).
    destruct (run_loop _ _ _ _) as [[r|err] db']; [|done]. destruct IH as (a & k & -> & ->).
    exists (mg_id m :: a), k. simpl. by rewrite <- !app_assoc.
Qed.

Lemma run_loop_stops ms : ∀ applied res db e db1, run_loop applied ms res db = (Err e, db1) →
  ∃ pre m post r, ms = pre ++ m :: post ∧ run_loop applied pre res db = (Ok r, db1).
Proof.
  induction ms as [|m ms IH]; intros applied res db e db1; simpl; [done|].
  destruct (applied !! mg_id m) as [sum|] eqn:Ha; [destruct (decide (sum = mg_checksum m)) as [Hs|Hs]|destruct (apply_migration m db) as [db2|] eqn:Hm].
  - intros (pre & m' & post & r & -> & Hr)%IH. exists (m :: pre), m', post, r. simpl. by rewrite Ha, decide_True.
  - intros [= <- <-]. by exists [], m, ms, res.
  - intros (pre & m' & post & r & -> & Hr)%IH. exists (m :: pre), m', post, r. simpl. by rewrite Ha, Hm.
  - intros [= <- <-]. by exists [], m, ms, res.
Qed.

(** A repeated run skips what the first one finished and goes on there. *)
Lemma run_resumes pre post db r1 db1 :
  NoDup (ids (pre ++ post)) → runMigrations pre db = (Ok r1, db1) →
  match runMigrations (pre ++ post) db with
  | (Ok r, db2) => ∃ a k, ap_applied r = ap_applied r1 ++ a ∧ runMigrations (pre ++ post) db1 = (Ok (mkApplied a (ids pre ++ k)), db2)
  | (Err e, db2) => runMigrations (pre ++ post) db1 = (Err e, db2)
  end.
Proof.
  rewrite fmap_app, NoDup_app. intros (Hpre & Hdisj & _). rewrite !runMigrations_loop. intros Hrun.
  destruct (run_loop_tracks _ _ _ _ _ _ Hrun Hpre) as (Ht & Hother & [t1 Hsome]); [done|by eexists|].
  assert (Hens : ensure_table db1 = db1) by (destruct db1; simpl in *; by subst). rewrite Hens, !run_loop_app, Hrun.
  rewrite (run_loop_skips pre) by done. simpl.
  rewrite (run_loop_ext (tracked db1) (tracked db) post).
  2:{ intros m Hm. rewrite Hother; [done|]. intros Hin. apply (Hdisj _ Hin). by apply list_elem_of_fmap_2. }
  pose proof (run_loop_result post (tracked db) r1 (mkApplied [] (ids pre)) db1) as H.
  destruct (run_loop (tracked db) post r1 db1) as [[r|e] db2]; [|done]. destruct H as (a & k & -> & ->). by exists a, k.
Qed.

(** C18: A migration run can be broken off and repeated.  A run that is refused
    has applied a prefix of the files completely and the rest not at all, and
    tracks exactly that; whatever the remaining files are replaced by, repeating
    the run on what is there ends in the same database, and with the same error,
    as one run of the repaired files from the start, having executed only what
    was missing. *)
Theorem failed_run_resumes ms db e db1 :
  NoDup (ids ms) → runMigrations ms db = (Err e, db1) →
  ∃ pre m post, ms = pre ++ m :: post ∧
  (∃ r1, runMigrations pre db = (Ok r1, db1) ∧
   ∀ repaired, NoDup (ids (pre ++ repaired)) →
     match runMigrations (pre ++ repaired) db with
     | (Ok r, db2) => ∃ a k, ap_applied r = ap_applied r1 ++ a ∧
         runMigrations (pre ++ repaired) db1 = (Ok (mkApplied a (ids pre ++ k)), db2)
     | (Err e', db2) => runMigrations (pre ++ repaired) db1 = (Err e', db2)
     end) ∧
  (∀ m', m' ∈ pre → tracked db1 !! mg_id m' = Some (mg_checksum m')) ∧
  (∀ m', m' ∈ m :: post → tracked db1 !! mg_id m' = tracked db !! mg_id m').
Proof.
  intros Hnd Hrun. rewrite runMigrations_loop in Hrun.
  destruct (run_loop_stops _ _ _ _ _ _ Hrun) as (pre & m & post & r1 & -> & Hpre).
  rewrite fmap_app, NoDup_app in Hnd. destruct Hnd as (Hnd & Hdisj & _).
  destruct (run_loop_tracks _ _ _ _ _ _ Hpre Hnd) as (Ht & Hother & _); [done|].
  exists pre, m, post. rewrite <- runMigrations_loop in Hpre. split_and!; [done| |done|].
  - exists r1. split; [done|]. intros repaired Hr. by apply run_resumes.
  - intros m' Hm'. rewrite Hother; [done|]. intros Hin. apply (Hdisj _ Hin). by apply list_elem_of_fmap_2.
Qed.

(** ** Runs with others *)

Definition log_of (p : nat) (log : list (nat * Migration)) : list Migration := snd <$> filter (λ e, e.1 = p) log.

Definition exec_log (log : list (nat * Migration)) (schema : DB) : option DB :=
  foldl (λ acc e, acc ≫= exec_all (mg_statements e.2)) (Some schema) log.

Definition tracks (sh : Shared) (ms : list Migration) : Prop :=
  ∀ m, m ∈ ms → tracked (sh_db sh) !! mg_id m = Some (mg_checksum m).

(** What holds of a session between two of its statements. *)
Definition runner_ok (sh : Shared) (marked : list Migration) (p : nat) (ms : list Migration) (ph : Phase) : Prop :=
  let mine := ids (log_of p (sh_log sh)) in
  mine `sublist_of` ids ms ∧
  match ph with
  | PEnsure | PLock => mine = []
  | PFetch => sh_lock sh = Some p ∧ mine = []
  | PLoop applied todo res =>
      sh_lock sh = Some p ∧ ap_applied res = mine ∧
      (∀ id sum, applied !! id = Some sum → tracked (sh_db sh) !! id = Some sum) ∧
      (marked = [] → ∀ m, m ∈ todo → tracked (sh_db sh) !! mg_id m = applied !! mg_id m) ∧
      ∃ finished, ms = finished ++ todo ∧ tracks sh finished ∧ mine `sublist_of` ids finished
  | PUnlock outcome | PDone outcome =>
      (is_done ph = false → sh_lock sh = Some p) ∧
      match outcome with
      | Ok res => ap_applied res = mine ∧ tracks sh ms
      | Err (ErrDuplicateId _) => marked ≠ []
      | Err _ => True
      end
  end.

Record system_ok (db0 : MigrationDb) (s : System) : Prop := {
  so_grows : ∀ id sum, tracked db0 !! id = Some sum → tracked (sh_db (sy_shared s)) !! id = Some sum;
  so_once : NoDup (ids (sh_log (sy_shared s)).*2);
  so_tracked : ∀ e, e ∈ sh_log (sy_shared s) →
    tracked db0 !! mg_id e.2 = None ∧ tracked (sh_db (sy_shared s)) !! mg_id e.2 = Some (mg_checksum e.2);
  so_schema : exec_log (sh_log (sy_shared s)) (md_schema db0) = Some (md_schema (sh_db (sy_shared s)));
  so_owners : ∀ e, e ∈ sh_log (sy_shared s) → (e.1 < length (sy_runners s))%nat;
  so_runners : ∀ p ms ph, sy_runners s !! p = Some (ms, ph) → NoDup (ids ms) ∧ runner_ok (sy_shared s) (sy_marked s) p ms ph }.

Lemma tracks_grows sh sh' ms :
  (∀ id sum, tracked (sh_db sh) !! id = Some sum → tracked (sh_db sh') !! id = Some sum) → tracks sh ms → tracks sh' ms.
Proof. intros Hg Ht m Hm. by apply Hg, Ht. Qed.

(** A session does not notice what the others do. *)
Lemma runner_frame sh sh' marked marked' p ms ph :
  (∀ id sum, tracked (sh_db sh) !! id = Some sum → tracked (sh_db sh') !! id = Some sum) →
  log_of p (sh_log sh') = log_of p (sh_log sh) →
  (sh_lock sh = Some p → sh_lock sh' = Some p ∧ (marked' = [] → ∀ id, tracked (sh_db sh') !! id = tracked (sh_db sh) !! id)) →
  (marked' = [] → marked = []) →
  runner_ok sh marked p ms ph → runner_ok sh' marked' p ms ph.
Proof.
  unfold runner_ok. intros Hg Hl Hlock Hm. rewrite Hl. intros [Hsub H]. split; [done|]. destruct ph as [| | |applied todo res|o|o]; try done.
  - destruct H as [H ->]. split; [by apply Hlock|done].
  - destruct H as (H & Ha & Happ & Heq & f & -> & Ht & Hf). destruct (Hlock H) as [H' Hsame].
    split_and!; [done|done|by eauto| |by exists f; eauto using tracks_grows].
    intros Hmk m Hin. rewrite Hsame by done. by apply Heq; [apply Hm|].
  - destruct H as [H Ho]. split; [intros Hd; by apply Hlock, H|]. destruct o as [res|[]]; try done; [|naive_solver].
    destruct Ho. split; [done|]. by eapply tracks_grows.
  - destruct H as [H Ho]. split; [done|]. destruct o as [res|[]]; try done; [|naive_solver].
    destruct Ho. split; [done|]. by eapply tracks_grows.
Qed.

(** What one statement of a session may do: nothing to the database but the
    tracking table, or one commit under the lock. *)
Inductive effect (p : nat) (sh sh' : Shared) : Prop :=
| eff_quiet :
    sh_log sh' = sh_log sh → md_schema (sh_db sh') = md_schema (sh_db sh) →
    (∀ id, tracked (sh_db sh') !! id = tracked (sh_db sh) !! id) →
    (∀ q, q ≠ p → sh_lock sh = Some q → sh_lock sh' = Some q) → effect p sh sh'
| eff_commit m schema :
    sh_log sh' = sh_log sh ++ [(p, m)] → tracked (sh_db sh) !! mg_id m = None →
    exec_all (mg_statements m) (md_schema (sh_db sh)) = Some schema → md_schema (sh_db sh') = schema →
    tracked (sh_db sh') = <[mg_id m := mg_checksum m]> (tracked (sh_db sh)) →
    sh_lock sh = Some p → sh_lock sh' = Some p → effect p sh sh'.

Lemma effect_grows p sh sh' : effect p sh sh' →
  ∀ id sum, tracked (sh_db sh) !! id = Some sum → tracked (sh_db sh') !! id = Some sum.
Proof.
  intros [_ _ Ht _|m schema _ Hm _ _ Ht _ _] id sum Hid; [by rewrite Ht|]. rewrite Ht, lookup_insert_ne; [done|]. intros Heq. congruence.
Qed.

Lemma log_of_app p log q m : log_of p (log ++ [(q, m)]) = if decide (q = p) then log_of p log ++ [m] else log_of p log.
Proof.
  unfold log_of. rewrite filter_app, fmap_app, filter_cons, filter_nil. simpl. case_decide; [done|]. by rewrite app_nil_r.
Qed.

Lemma effect_frame p q sh sh' marked ms ph :
  effect p sh sh' → p ≠ q → runner_ok sh marked q ms ph → runner_ok sh' marked q ms ph.
Proof.
  intros He Hpq. apply runner_frame; [by eapply effect_grows| | |done].
  - destruct He as [-> _ _ _|m schema -> _ _ _ _ _ _]; [done|]. by rewrite log_of_app, decide_False.
  - intros Hq. destruct He as [_ _ Ht Hl|m schema _ _ _ _ _ Hp _]; [|congruence]. split; [by apply Hl|by intros].
Qed.

Lemma apply_migration_dup m db id : apply_migration m db = Err (ErrDuplicateId id) → tracked db !! mg_id m ≠ None.
Proof.
  unfold apply_migration. destruct (exec_all _ _); [|done]. destruct (md_tracking db) as [t|]; [|done]. simpl.
  by destruct (t !! mg_id m).
Qed.

(** One migration more is finished. *)
Lemma finished_snoc sh f m rest : tracks sh f → tracked (sh_db sh) !! mg_id m = Some (mg_checksum m) →
  f ++ m :: rest = (f ++ [m]) ++ rest ∧ tracks sh (f ++ [m]).
Proof.
  intros Ht Hm. split; [by rewrite <- app_assoc|]. intros m' [Hin| ->%list_elem_of_singleton]%elem_of_app; [by apply Ht|done].
Qed.

Lemma loop_step_ok p ms applied m rest res sh marked ph' sh' :
  NoDup (ids ms) → runner_ok sh marked p ms (PLoop applied (m :: rest) res) →
  loop_step p applied m rest res sh = (ph', sh') → effect p sh sh' ∧ runner_ok sh' marked p ms ph'.
Proof.
  intros Hnd (Hsub & Hl & Ha & Happ & Heq & f & -> & Ht & Hf). unfold loop_step.
  destruct (applied !! mg_id m) as [sum|] eqn:Hm.
  { destruct (decide (sum = mg_checksum m)) as [->|]; intros [= <- <-]; (split; [by apply eff_quiet|]); (split; [done|]); [|done].
    destruct (finished_snoc sh f m rest Ht (Happ _ _ Hm)) as [Hms Ht']. split_and!; [done|done|done| |].
    { intros Hmk m' Hin. apply Heq; set_solver. }
    exists (f ++ [m]). split_and!; [done|done|]. rewrite fmap_app. by apply sublist_inserts_r. }
  destruct (apply_migration m (sh_db sh)) as [db|e] eqn:Hm1.
  2:{ intros [= <- <-]. split; [by apply eff_quiet|]. split; [done|]. split; [done|]. destruct e; try done.
      intros ->. apply apply_migration_dup in Hm1. apply Hm1. rewrite Heq by set_solver. done. }
  intros [= <- <-]. apply apply_migration_Ok in Hm1 as (t & schema & Htr & Hid & Hex & ->).
  assert (He : effect p sh (mkShared (mkMigrationDb schema (Some (<[mg_id m:=mg_checksum m]> t))) (sh_lock sh) (sh_log sh ++ [(p, m)])))
    by (eapply (eff_commit _ _ _ m); rewrite ?Htr; done).
  split; [done|]. pose proof (effect_grows _ _ _ He) as Hg. unfold runner_ok. cbn [sh_log sh_lock sh_db md_tracking].
  rewrite log_of_app, decide_True, fmap_app by done.
  assert (Hf' : ids (log_of p (sh_log sh)) ++ ids [m] `sublist_of` ids (f ++ [m])) by (rewrite fmap_app; by apply sublist_app).
  destruct (finished_snoc (mkShared (mkMigrationDb schema (Some (<[mg_id m:=mg_checksum m]> t))) (sh_lock sh) (sh_log sh ++ [(p, m)]))
              f m rest) as [Hms Ht'].
  { by eapply tracks_grows. }
  { simpl. apply lookup_insert_eq. }
  split_and!; [|done|simpl; by rewrite Ha|intros id sum Hid'; by apply Hg, Happ| |by exists (f ++ [m])].
  - rewrite Hms, fmap_app. by apply sublist_inserts_r.
  - intros Hmk m' Hin. simpl. rewrite lookup_insert_ne; [|].
    + rewrite <- Heq by set_solver. by rewrite Htr.
    + rewrite Hms, fmap_app, NoDup_app in Hnd. destruct Hnd as (_ & Hd & _). intros Heqid. apply (Hd (mg_id m)).
      * rewrite fmap_app. set_solver.
      * rewrite Heqid. by apply list_elem_of_fmap_2.
Qed.

(** A session's next statement keeps its invariant and has a legal effect. *)
Lemma runner_step_ok p ms ph sh marked ph' sh' :
  NoDup (ids ms) → runner_ok sh marked p ms ph → runner_step p ms ph sh = Some (ph', sh') →
  effect p sh sh' ∧ runner_ok sh' marked p ms ph'.
Proof.
  intros Hnd [Hsub Hok] Hstep. destruct ph as [| | |applied [|m rest] res|o|o]; simpl in Hstep.
  - injection Hstep as <- <-. split; [by apply eff_quiet|]. done.
  - destruct (sh_lock sh) eqn:Hl; [done|]. injection Hstep as <- <-.
    split; [apply eff_quiet; [done..|]; intros q _; by rewrite Hl|]. done.
  - destruct Hok as [Hl Hmine]. destruct (md_tracking (sh_db sh)) as [t|] eqn:Ht; injection Hstep as <- <-.
    + split; [by apply eff_quiet|]. split; [done|]. rewrite Ht. split_and!; [done|done|done|done|]. exists []. rewrite Hmine.
      split_and!; [done|intros ? []%elem_of_nil|done].
    + split; [by apply eff_quiet|]. done.
  - injection Hstep as <- <-. destruct Hok as (Hl & Ha & _ & _ & f & -> & Ht & _). rewrite app_nil_r in *.
    split; [by apply eff_quiet|]. done.
  - injection Hstep as Hstep. by eapply loop_step_ok.
  - injection Hstep as <- <-. destruct Hok as [Hl Ho]. split; [|split; [done|]].
    + apply eff_quiet; [done..|]. intros q Hq Hlq. unfold release. simpl. rewrite Hlq, decide_False by congruence. done.
    + split; [done|]. by destruct o as [|[]].
  - done.
Qed.

Lemma exec_log_app log e schema : exec_log (log ++ [e]) schema = exec_log log schema ≫= exec_all (mg_statements e.2).
Proof. unfold exec_log. by rewrite foldl_app. Qed.

(** The facts on the log and the tables, across an effect. *)
Lemma effect_log_ok db0 p sh sh' rs marked rs' marked' :
  effect p sh sh' → system_ok db0 (mkSystem sh rs marked) → (p < length rs)%nat → length rs' = length rs →
  (∀ q ms ph, rs' !! q = Some (ms, ph) → NoDup (ids ms) ∧ runner_ok sh' marked' q ms ph) →
  system_ok db0 (mkSystem sh' rs' marked').
Proof.
  intros He [Hg Ho Ht Hs Hw _] Hp Hlen Hr. simpl in *. pose proof (effect_grows _ _ _ He) as Hgr.
  destruct He as [Hlog Hsch Htr _|m schema Hlog Hm Hex Hsch Htr _ _].
  - split; simpl; rewrite ?Hlog, ?Hlen, ?Hsch; auto. intros e Hin. rewrite Htr. by apply Ht.
  - split; simpl; rewrite ?Hlog, ?Hlen; auto.
    + rewrite !fmap_app. simpl. apply NoDup_app. split_and!; [done| |apply NoDup_singleton].
      intros id Hin ->%list_elem_of_singleton. apply list_elem_of_fmap in Hin as (m' & Heq & Hin).
      apply list_elem_of_fmap in Hin as (e & -> & Hin). destruct (Ht e Hin) as [_ H]. rewrite <- Heq in H. congruence.
    + intros e [Hin| ->%list_elem_of_singleton]%elem_of_app.
      * destruct (Ht e Hin) as [H1 H2]. split; [done|]. by apply Hgr.
      * simpl. split; [|by rewrite Htr, lookup_insert_eq]. destruct (tracked db0 !! mg_id m) eqn:H0; [|done].
        apply Hg in H0. congruence.
    + rewrite exec_log_app, Hs. simpl. by rewrite Hex, Hsch.
    + intros e [Hin| ->%list_elem_of_singleton]%elem_of_app; [by apply Hw|done].
Qed.

Lemma mark_applied_grows m t id sum : t !! id = Some sum → mark_applied m t !! id = Some sum.
Proof. unfold mark_applied. destruct (t !! mg_id m) eqn:Hm; [done|]. intros H. rewrite lookup_insert_ne; [done|]. congruence. Qed.

Lemma system_step_ok db0 s s' : system_ok db0 s → system_step s s' → system_ok db0 s'.
Proof.
  intros Hok Hstep. destruct Hstep as [sh rs marked p ms ph ph' sh' Hp Hst|sh rs marked p ms ph Hp Hd|sh rs marked|sh rs marked m t Ht].
  - pose proof (so_runners _ _ Hok p ms ph Hp) as [Hnd Hr]. simpl in Hr.
    destruct (runner_step_ok _ _ _ _ _ _ _ Hnd Hr Hst) as [He Hr'].
    apply (effect_log_ok db0 p sh sh' rs marked); [done|done|by eapply lookup_lt_Some|by rewrite length_insert|].
    intros q ms' ph1 Hq. apply list_lookup_insert_Some in Hq as [(-> & [= <- <-] & _)|[Hne Hq]]; [done|].
    pose proof (so_runners _ _ Hok q _ _ Hq) as [Hnd' Hr'']. split; [done|]. by eapply effect_frame.
  - assert (He : effect p sh (release p sh)).
    { apply eff_quiet; [done..|]. intros q Hq Hl. unfold release. simpl. by rewrite Hl, decide_False by congruence. }
    apply (effect_log_ok db0 p sh _ rs marked); [done|done|by eapply lookup_lt_Some|by rewrite length_insert|].
    intros q ms' ph1 Hq. apply list_lookup_insert_Some in Hq as [(<- & [= <- <-] & _)|[Hne Hq]].
    + pose proof (so_runners _ _ Hok p ms ph Hp) as [Hnd [Hsub _]]. by split.
    + pose proof (so_runners _ _ Hok q _ _ Hq) as [Hnd' Hr'']. split; [done|]. by eapply effect_frame.
  - destruct Hok as [Hg Ho Ht Hs Hw Hr]. by split.
  - destruct Hok as [Hg Ho Htr Hs Hw Hr]. simpl in *. rewrite Ht in *. simpl in *. split; simpl; try done.
    + intros id sum Hid. by apply mark_applied_grows, Hg.
    + intros e Hin. destruct (Htr e Hin) as [H1 H2]. split; [done|]. by apply mark_applied_grows.
    + intros q ms ph Hq. destruct (Hr q ms ph Hq) as [Hnd Hr']. split; [done|].
      eapply runner_frame; [..|exact Hr']; simpl; [|done| |by destruct marked].
      * rewrite Ht. intros id sum. apply mark_applied_grows.
      * intros Hl. split; [done|]. by destruct marked.
Qed.

Lemma system_start_ok db lists : Forall (λ ms, NoDup (ids ms)) lists → system_ok db (system_start db lists).
Proof.
  intros Hnd. split; simpl; try done; [constructor|intros ? []%elem_of_nil..|].
  intros p ms ph Hp. rewrite list_lookup_fmap in Hp. destruct (lists !! p) as [ms'|] eqn:Hl; [|done]. injection Hp as <- <-.
  split; [by apply (Forall_lookup_1 _ _ _ _ Hnd Hl)|].
  split; [apply sublist_nil_l|done].
Qed.

Lemma reachable_system_ok db lists s : Forall (λ ms, NoDup (ids ms)) lists → rtc system_step (system_start db lists) s → system_ok db s.
Proof.
  intros Hnd. revert s. apply (rtc_ind_r (system_ok db)); [by apply system_start_ok|].
  intros s s' _ Hstep Hok. by eapply system_step_ok.
Qed.

(** The session is between taking the lock and releasing it. *)
Definition holds_lock (ph : Phase) : bool := match ph with PFetch | PLoop _ _ _ | PUnlock _ => true | _ => false end.

Lemma lock_holder sh marked p ms ph : runner_ok sh marked p ms ph → holds_lock ph = true → sh_lock sh = Some p.
Proof. intros [_ H] Hh. destruct ph; try done; destruct H as [H _]; [done..|by apply H]. Qed.

(** C14: Migrations run exactly once, in order.  However the runs of any number
    of sessions and baselines interleave, and whichever sessions are lost: no
    migration is committed twice, none that was tracked before is run, every
    committed one is tracked with its checksum, and the database is the result of
    the committed ones in the order of their commits.  A session commits its
    files in their order; when it reports success all its files are tracked as
    they are on disk and its report names what it committed.  Two sessions are
    never inside the lock together, and no run fails on a tracked id unless a
    baseline came in between. *)
Theorem migrations_run_exactly_once db lists s :
  Forall (λ ms, NoDup (ids ms)) lists → rtc system_step (system_start db lists) s →
  let sh := sy_shared s in
  NoDup (ids (sh_log sh).*2) ∧
  (∀ e, e ∈ sh_log sh → tracked db !! mg_id e.2 = None ∧ tracked (sh_db sh) !! mg_id e.2 = Some (mg_checksum e.2)) ∧
  exec_log (sh_log sh) (md_schema db) = Some (md_schema (sh_db sh)) ∧
  (∀ p ms ph, sy_runners s !! p = Some (ms, ph) →
    ids (log_of p (sh_log sh)) `sublist_of` ids ms ∧
    (∀ res, ph = PDone (Ok res) → ap_applied res = ids (log_of p (sh_log sh)) ∧ tracks sh ms) ∧
    (sy_marked s = [] → ∀ id, ph ≠ PDone (Err (ErrDuplicateId id)))) ∧
  (∀ p q ms ms' ph ph', sy_runners s !! p = Some (ms, ph) → sy_runners s !! q = Some (ms', ph') →
    holds_lock ph = true → holds_lock ph' = true → p = q).
Proof.
  intros Hnd Hr. destruct (reachable_system_ok _ _ _ Hnd Hr) as [Hg Ho Ht Hs _ Hrun]. simpl. split_and!; [done|done|done| |].
  - intros p ms ph Hp. destruct (Hrun _ _ _ Hp) as [_ [Hsub H]]. split_and!; [done| |].
    + intros res ->. by apply H.
    + intros Hm id ->. by apply H.
  - intros p q ms ms' ph ph' Hp Hq H1 H2. destruct (Hrun _ _ _ Hp) as [_ Hp']. destruct (Hrun _ _ _ Hq) as [_ Hq'].
    apply (lock_holder _ _ _ _ _ Hp') in H1. apply (lock_holder _ _ _ _ _ Hq') in H2. congruence.
Qed.

(** The sessions take their statements in the order of a schedule. *)
Fixpoint run_schedule (schedule : list nat) (s : System) : System :=
  match schedule with
  | [] => s
  | p :: rest =>
      run_schedule rest
        match sy_runners s !! p with
        | Some (ms, ph) => match runner_step p ms ph (sy_shared s) with
                           | Some (ph', sh') => mkSystem sh' (<[p := (ms, ph')]> (sy_runners s)) (sy_marked s)
                           | None => s
                           end
        | None => s
        end
  end.

Lemma run_schedule_steps schedule s : rtc system_step s (run_schedule schedule s).
Proof.
  revert s. induction schedule as [|p rest IH]; intros s; [done|]. simpl.
  destruct (sy_runners s !! p) as [[ms ph]|] eqn:Hp; [|done].
  destruct (runner_step p ms ph (sy_shared s)) as [[ph' sh']|] eqn:Hs; [|done].
  eapply rtc_l; [|apply IH]. destruct s. by eapply ss_run.
Qed.
End runner.

(** ** Two deployments *)

(** A database that remembers the statements it ran, and refuses one. *)
Definition journal (s : string) (db : list string) : option (list string) :=
  if bool_decide (s = "boom;") then None else Some (db ++ [s]).

Definition m1 : Migration := mkMigration "0001_init" "c1" ["a;"; "b;"].
Definition m2 : Migration := mkMigration "0002_more" "c2" ["c;"].
Definition m2_broken : Migration := mkMigration "0002_more" "cx" ["c;"; "boom;"].

Definition fresh_db : @MigrationDb (list string) := mkMigrationDb [] None.

Example second_run_skips :
  let db := (runMigrations journal [m1; m2] fresh_db).2 in
  md_schema db = ["a;"; "b;"; "c;"] ∧ (runMigrations journal [m1; m2] db).1 = Ok (mkApplied [] ["0001_init"; "0002_more"]).
Proof. vm_compute. done. Qed.

Notation broken_run := (runMigrations journal [m1; m2_broken] fresh_db) (only parsing).

Lemma failed_run_resumes_witness :
  ∃ pre m post, [m1; m2_broken] = pre ++ m :: post ∧
  (∃ r1, runMigrations journal pre fresh_db = (Ok r1, broken_run.2) ∧
   ∀ repaired, NoDup (mg_id <$> pre ++ repaired) →
     match runMigrations journal (pre ++ repaired) fresh_db with
     | (Ok r, db2) => ∃ a k, ap_applied r = ap_applied r1 ++ a ∧
         runMigrations journal (pre ++ repaired) broken_run.2 = (Ok (mkApplied a ((mg_id <$> pre) ++ k)), db2)
     | (Err e', db2) => runMigrations journal (pre ++ repaired) broken_run.2 = (Err e', db2)
     end) ∧
  (∀ m', m' ∈ pre → default ∅ (md_tracking broken_run.2) !! mg_id m' = Some (mg_checksum m')) ∧
  (∀ m', m' ∈ m :: post → default ∅ (md_tracking broken_run.2) !! mg_id m' = default ∅ (md_tracking fresh_db) !! mg_id m').
Proof.
  apply (failed_run_resumes journal [m1; m2_broken] fresh_db (ErrStatement "0002_more") broken_run.2).
  - apply (bool_decide_unpack _). vm_compute. exact I.
  - vm_compute. reflexivity.
Defined.

(** Both sessions start, the second waits for the lock and then skips. *)
Notation deployments :=
  (run_schedule journal [0; 1; 0; 1; 0; 0; 1; 0; 0; 0; 1; 1; 1; 1; 1; 1] (system_start fresh_db [[m1; m2]; [m1; m2]]))%nat
  (only parsing).

Example deployments_end :
  sh_log (sy_shared deployments) = [(0%nat, m1); (0%nat, m2)] ∧
  (sy_runners deployments).*2 = [PDone (Ok (mkApplied ["0001_init"; "0002_more"] []));
                                 PDone (Ok (mkApplied [] ["0001_init"; "0002_more"]))].
Proof. vm_compute. done. Qed.

Lemma deployed_files_differ : Forall (λ ms, NoDup (mg_id <$> ms)) [[m1; m2]; [m1; m2]].
Proof. apply (bool_decide_unpack _). vm_compute. exact I. Qed.

Lemma migrations_run_exactly_once_witness :
  let sh := sy_shared deployments in
  NoDup (mg_id <$> (sh_log sh).*2) ∧
  exec_log journal (sh_log sh) (md_schema fresh_db) = Some (md_schema (sh_db sh)) ∧
  (∀ p ms ph, sy_runners deployments !! p = Some (ms, ph) → ∀ res, ph = PDone (Ok res) →
    ap_applied res = mg_id <$> log_of p (sh_log sh) ∧ tracks sh ms).
Proof.
  destruct (migrations_run_exactly_once journal fresh_db [[m1; m2]; [m1; m2]] deployments deployed_files_differ
              (run_schedule_steps _ _ _)) as (Honce & _ & Hschema & Hrun & _).
  split; [exact Honce|]. split; [exact Hschema|]. intros p ms ph Hp res Hd. by apply (Hrun p ms ph Hp).
Defined.
