(* ===== verification/MigrationSchema.v ===== *)
(** * Schema migrations

    The migration generator: [db/migrate-generator.ts] with its parts
    [migrate-change-render.ts], [migrate-primary-key.ts], [migrate-rls-diff.ts],
    [render-ddl.ts] and [render-rls-ddl.ts].  A migration is a list of lines,
    each a comment, a statement, or a statement left as a comment for the
    reviewer; lines have their printed form here and their effect on a catalog in
    [MigrationCatalog].  Finding retired framework tables is an argument; the
    reasons in warning comments are printed, dates are an argument. *)

From Stdlib Require Import Ascii.
From S2P Require Import Prelude TableInfo Ownership TenantDb.

Open Scope string_scope.
Open Scope list_scope.

(** ** Metadata *)

Record ColumnMeta := mkColumn {
  cm_name : string;
  cm_pgType : string;
  cm_notNull : bool;
  cm_defaultSql : option string;
  cm_primaryKey : bool;
  cm_identity : bool }.

Record IndexMeta := mkIndex {
  ix_name : string;
  ix_columns : list string;
  ix_unique : bool;
  ix_whereSql : option string;
  ix_needsManualWhere : bool }.

(** [tm_managed]: the source is "managed". *)
Record EntityTableMeta := mkMeta {
  tm_tableName : string;
  tm_columns : list ColumnMeta;
  tm_indexes : list IndexMeta;
  tm_compositePrimaryKey : option (string * list string);
  tm_managed : bool;
  tm_systemRowsReadable : bool }.

Record RowLevelSecurityPolicy := mkPolicy {
  pol_name : string;
  pol_command : string;
  pol_kind : string;
  pol_rolesSql : string;
  pol_using : option string;
  pol_withCheck : option string }.

#[export] Instance RowLevelSecurityPolicy_eq_dec : EqDecision RowLevelSecurityPolicy.
Proof. solve_decision. Defined.

Notation TableRowLevelSecurity := (list RowLevelSecurityPolicy) (only parsing).

Record Snapshot := mkSnapshot {
  sn_tables : list EntityTableMeta;
  sn_rowLevelSecurity : option (list (string * TableRowLevelSecurity)) }.

(** ** Row level security *)

Definition TENANT_ISOLATION_POLICY : string := "kumiko_tenant_isolation".
Definition SYSTEM_TENANT_READ_POLICY : string := "kumiko_system_tenant_read".

Definition session_tenant : string := "NULLIF(current_setting('kumiko.tenant_id', true), '')".

Definition tenantRowLevelSecurityFor (meta : EntityTableMeta) : option TableRowLevelSecurity :=
  match find (λ c, bool_decide (cm_name c = TENANT_COLUMN)) (tm_columns meta) with
  | None => None
  | Some tenantColumn =>
      let sqlType := pgTypeToSqlType (cm_pgType tenantColumn) in
      let column := quoteIdent TENANT_COLUMN in
      let isolation := column +:+ " = " +:+ session_tenant +:+ "::" +:+ sqlType
                         +:+ " OR current_setting('kumiko.scope', true) = 'system'" in
      let isolationPolicy := mkPolicy TENANT_ISOLATION_POLICY "ALL" "PERMISSIVE" "PUBLIC" (Some isolation) (Some isolation) in
      Some (if tm_systemRowsReadable meta then
              [isolationPolicy;
               mkPolicy SYSTEM_TENANT_READ_POLICY "SELECT" "PERMISSIVE" "PUBLIC"
                 (Some (column +:+ " = '" +:+ SYSTEM_TENANT_ID +:+ "'::" +:+ sqlType +:+ " AND " +:+ session_tenant +:+ " IS NOT NULL"))
                 None]
            else [isolationPolicy])
  end.

Definition rowLevelSecurityByTable (metas : list EntityTableMeta) : list (string * TableRowLevelSecurity) :=
  foldl (λ acc meta, match tenantRowLevelSecurityFor meta with
                     | Some spec => assoc_set (tm_tableName meta) spec acc
                     | None => acc
                     end) [] metas.

(** ** Statements *)

Inductive Ddl :=
| CreateTable (meta : EntityTableMeta)
| CreateIndex (table : string) (idx : IndexMeta)
| AddColumn (table : string) (col : ColumnMeta)
| SetNotNull (table col : string)
| DropNotNull (table col : string)
| SetDefault (table col defaultSql : string)
| DropDefault (table col : string)
| AlterType (table col pgType : string) (usingSql : option string)
| DropConstraint (table name : string)
| AddPrimaryKey (table name : string) (cols : list string)
| DropIndex (table name : string)
| DropColumn (table col : string)
| DropTable (table : string)
| CreatePolicy (table : string) (policy : RowLevelSecurityPolicy)
| DropPolicy (table name : string)
| EnableRls (table : string) (on : bool)
| ForceRls (table : string) (on : bool).

(** The table a statement is about; the text of [DropIndex] does not name it. *)
Definition ddl_table (d : Ddl) : string :=
  match d with
  | CreateTable meta => tm_tableName meta
  | CreateIndex t _ | AddColumn t _ | SetNotNull t _ | DropNotNull t _ | SetDefault t _ _ | DropDefault t _
  | AlterType t _ _ _ | DropConstraint t _ | AddPrimaryKey t _ _ | DropIndex t _ | DropColumn t _ | DropTable t
  | CreatePolicy t _ | DropPolicy t _ | EnableRls t _ | ForceRls t _ => t
  end.

(** A comment (or empty line), a statement, or a statement written as a comment
    between a prefix and a suffix, for the reviewer to uncomment. *)
Inductive Line :=
| Note (text : string)
| Run (d : Ddl)
| Review (prefix : string) (d : Ddl) (suffix : string).

(** ** Printing *)

Definition newline : string := String "010" "".
Definition single_quote : ascii := "039".

(** [quoteLiteral] *)
Fixpoint double_single (s : string) : string :=
  match s with
  | EmptyString => EmptyString
  | String c rest => if Ascii.eqb c single_quote then String c (String c (double_single rest)) else String c (double_single rest)
  end.

Definition quoteLiteral (value : string) : string := String single_quote (double_single value +:+ String single_quote "").

Definition when {A} (b : bool) (x : A) : list A := if b then [x] else [].
Definition default_parts (c : ColumnMeta) : list string :=
  match cm_defaultSql c with Some d => ["DEFAULT " +:+ d] | None => [] end.

Definition renderColumn (col : ColumnMeta) : string :=
  join_with " " ([quoteIdent (cm_name col); pgTypeToSqlType (cm_pgType col)]
    ++ when (cm_identity col) "GENERATED ALWAYS AS IDENTITY" ++ when (cm_primaryKey col) "PRIMARY KEY"
    ++ default_parts col ++ when (cm_notNull col && negb (cm_primaryKey col)) "NOT NULL").

Definition renderColumnInline (col : ColumnMeta) : string :=
  join_with " " ([quoteIdent (cm_name col); cm_pgType col] ++ default_parts col ++ when (cm_notNull col) "NOT NULL").

Definition column_list (cols : list string) : string := join_with ", " (quoteIdent <$> cols).

Definition index_kind (idx : IndexMeta) : string := if ix_unique idx then "UNIQUE INDEX" else "INDEX".

Definition index_text (table : string) (idx : IndexMeta) : string :=
  "CREATE " +:+ index_kind idx +:+ " IF NOT EXISTS " +:+ quoteIdent (ix_name idx) +:+ " ON " +:+ quoteIdent table
    +:+ " (" +:+ column_list (ix_columns idx) +:+ ")"
    +:+ match ix_whereSql idx with Some w => " WHERE " +:+ w | None => "" end +:+ ";".

Definition create_table_text (meta : EntityTableMeta) : string :=
  let lines := (renderColumn <$> tm_columns meta)
    ++ match tm_compositePrimaryKey meta with
       | Some (name, cols) => ["CONSTRAINT " +:+ quoteIdent name +:+ " PRIMARY KEY(" +:+ join_with "," (quoteIdent <$> cols) +:+ ")"]
       | None => []
       end in
  "CREATE TABLE IF NOT EXISTS " +:+ quoteIdent (tm_tableName meta) +:+ " (" +:+ newline +:+ "  "
    +:+ join_with ("," +:+ newline +:+ "  ") lines +:+ newline +:+ ");".

Definition renderCreatePolicy (table : string) (p : RowLevelSecurityPolicy) : string :=
  "CREATE POLICY " +:+ quoteIdent (pol_name p) +:+ " ON " +:+ quoteIdent table +:+ " AS " +:+ pol_kind p +:+ " FOR "
    +:+ pol_command p +:+ " TO " +:+ pol_rolesSql p
    +:+ match pol_using p with Some u => " USING (" +:+ u +:+ ")" | None => "" end
    +:+ match pol_withCheck p with Some c => " WITH CHECK (" +:+ c +:+ ")" | None => "" end +:+ ";".

Definition renderDropPolicy (table name : string) : string :=
  "DROP POLICY IF EXISTS " +:+ quoteIdent name +:+ " ON " +:+ quoteIdent table +:+ ";".

Definition ddl_text (d : Ddl) : string :=
  let alter t := "ALTER TABLE " +:+ quoteIdent t in
  let column t c := alter t +:+ " ALTER COLUMN " +:+ quoteIdent c in
  match d with
  | CreateTable meta => create_table_text meta
  | CreateIndex t idx => index_text t idx
  | AddColumn t col => alter t +:+ " ADD COLUMN " +:+ renderColumnInline col +:+ ";"
  | SetNotNull t c => column t c +:+ " SET NOT NULL;"
  | DropNotNull t c => column t c +:+ " DROP NOT NULL;"
  | SetDefault t c d => column t c +:+ " SET DEFAULT " +:+ d +:+ ";"
  | DropDefault t c => column t c +:+ " DROP DEFAULT;"
  | AlterType t c ty usingSql =>
      column t c +:+ " TYPE " +:+ ty +:+ match usingSql with Some u => " USING " +:+ u | None => "" end +:+ ";"
  | DropConstraint t n => alter t +:+ " DROP CONSTRAINT IF EXISTS " +:+ quoteIdent n +:+ ";"
  | AddPrimaryKey t n cols => alter t +:+ " ADD CONSTRAINT " +:+ quoteIdent n +:+ " PRIMARY KEY (" +:+ column_list cols +:+ ");"
  | DropIndex _ n => "DROP INDEX IF EXISTS " +:+ quoteIdent n +:+ ";"
  | DropColumn t c => alter t +:+ " DROP COLUMN " +:+ quoteIdent c +:+ ";"
  | DropTable t => "DROP TABLE IF EXISTS " +:+ quoteIdent t +:+ ";"
  | CreatePolicy t p => renderCreatePolicy t p
  | DropPolicy t n => renderDropPolicy t n
  | EnableRls t on => alter t +:+ (if on then " ENABLE" else " DISABLE") +:+ " ROW LEVEL SECURITY;"
  | ForceRls t on => alter t +:+ (if on then " FORCE" else " NO FORCE") +:+ " ROW LEVEL SECURITY;"
  end.

Definition line_text (l : Line) : string :=
  match l with
  | Note text => text
  | Run d => ddl_text d
  | Review prefix d suffix => prefix +:+ ddl_text d +:+ suffix
  end.

(** [renderIndex]: a predicate that cannot be printed leaves the statement to
    the reviewer. *)
Definition renderIndex (table : string) (idx : IndexMeta) : list Line :=
  if ix_needsManualWhere idx then
    [Note ("-- WARN: partial-index " +:+ String dquote (ix_name idx +:+ String dquote "") +:+ " needs a WHERE clause that the");
     Note "--       generator can't render (entity uses drizzle sql`…` AST).";
     Note "--       Add the WHERE manually before applying:";
     Note ("-- CREATE " +:+ index_kind idx +:+ " IF NOT EXISTS " +:+ quoteIdent (ix_name idx) +:+ " ON " +:+ quoteIdent table
             +:+ " (" +:+ column_list (ix_columns idx) +:+ ") WHERE <your-condition>;")]
  else [Run (CreateIndex table idx)].

Definition renderRowLevelSecurityFlags (table : string) (enabled forced : bool) : list Line :=
  [Run (EnableRls table enabled); Run (ForceRls table forced)].

Definition renderEnableRowLevelSecurity (table : string) (next : TableRowLevelSecurity) (previous : option TableRowLevelSecurity)
    : list Line :=
  let nextNames := pol_name <$> next in
  let vanished := filter (λ p, pol_name p ∉ nextNames) (default [] previous) in
  ((λ p, Run (DropPolicy table (pol_name p))) <$> vanished)
  ++ (next ≫= λ p, [Run (DropPolicy table (pol_name p)); Run (CreatePolicy table p)])
  ++ renderRowLevelSecurityFlags table true true.

Definition renderDisableRowLevelSecurity (table : string) (previous : TableRowLevelSecurity) : list Line :=
  ((λ p, Run (DropPolicy table (pol_name p))) <$> previous) ++ rev (renderRowLevelSecurityFlags table false false).

Definition renderTableRowLevelSecurityDdl (meta : EntityTableMeta) : list Line :=
  match tenantRowLevelSecurityFor meta with
  | None => []
  | Some spec => renderEnableRowLevelSecurity (tm_tableName meta) spec None
  end.

Definition renderTableDdl (meta : EntityTableMeta) (rowLevelSecurity : bool) : list Line :=
  Run (CreateTable meta) :: (tm_indexes meta ≫= renderIndex (tm_tableName meta))
  ++ (if rowLevelSecurity then renderTableRowLevelSecurityDdl meta else []).

Definition renderTablesDdl (metas : list EntityTableMeta) (rowLevelSecurity : bool) : list Line :=
  metas ≫= λ m, renderTableDdl m rowLevelSecurity.

(** ** Differences *)

Record FromTo (A : Type) := mkFromTo { ft_from : A; ft_to : A }.
#[global] Arguments mkFromTo {A} _ _.
#[global] Arguments ft_from {A} _.
#[global] Arguments ft_to {A} _.

Definition fromToWhenDifferent {A} (from to : A) (isEqual : bool) : option (FromTo A) :=
  if isEqual then None else Some (mkFromTo from to).

(** White space collapsed to single spaces. *)
Fixpoint collapse (after_space : bool) (s : string) : string :=
  match s with
  | EmptyString => EmptyString
  | String c rest =>
      if is_space c then (if after_space then collapse true rest else String " " (collapse true rest))
      else String c (collapse false rest)
  end.

Definition toSingleLine (text : string) : string := trim (collapse false text).

Definition whereSqlEqual (a b : option string) : bool :=
  match a, b with
  | Some x, Some y => bool_decide (toSingleLine x = toSingleLine y)
  | None, None => true
  | _, _ => false
  end.

Record ColumnChange := mkColumnChange {
  cc_name : string;
  cc_nullabilityChanged : option (FromTo bool);
  cc_defaultChanged : option (FromTo (option string));
  cc_typeChanged : option (FromTo string) }.

Record IndexChange := mkIndexChange {
  ic_name : string;
  ic_columnsChanged : option (FromTo (list string));
  ic_uniqueChanged : option (FromTo bool);
  ic_whereSqlChanged : option (FromTo (option string));
  ic_needsManualWhereChanged : option (FromTo bool) }.

Record PrimaryKey := mkPrimaryKey { pk_columns : list string; pk_constraintName : string }.
#[export] Instance PrimaryKey_eq_dec : EqDecision PrimaryKey.
Proof. solve_decision. Defined.

Record TableDiff := mkTableDiff {
  td_tableName : string;
  td_newColumns : list ColumnMeta;
  td_droppedColumns : list string;
  td_changedColumns : list ColumnChange;
  td_newIndexes : list IndexMeta;
  td_droppedIndexes : list string;
  td_changedIndexes : list IndexChange;
  td_primaryKeyChanged : option (FromTo PrimaryKey);
  td_nextMeta : EntityTableMeta }.

Record SchemaDiff := mkSchemaDiff {
  sd_newTables : list EntityTableMeta;
  sd_droppedTables : list string;
  sd_changedTables : list TableDiff }.

(** [new Map(entries)]: a repeated key keeps its place and takes the last value. *)
Definition map_of {A} (key : A → string) (l : list A) : list (string * A) := foldl (λ m a, assoc_set (key a) a m) [] l.

Definition columnsByName (meta : EntityTableMeta) : list (string * ColumnMeta) := map_of cm_name (tm_columns meta).
Definition indexesByName (meta : EntityTableMeta) : list (string * IndexMeta) := map_of ix_name (tm_indexes meta).

Record KeyedDiff (T C : Type) := mkKeyedDiff { kd_added : list T; kd_dropped : list string; kd_changed : list C }.
#[global] Arguments mkKeyedDiff {T C} _ _ _.
#[global] Arguments kd_added {T C} _.
#[global] Arguments kd_dropped {T C} _.
#[global] Arguments kd_changed {T C} _.

Definition diffByName {T C} (prev next : list (string * T)) (compare : string → T → T → option C) : KeyedDiff T C :=
  mkKeyedDiff
    (omap (λ e, match assoc_get e.1 prev with None => Some e.2 | Some _ => None end) next)
    (filter (λ name, assoc_get name next = None) prev.*1)
    (omap (λ e, match assoc_get e.1 prev with None => None | Some prevItem => compare e.1 prevItem e.2 end) next).

Definition is_none {A} (o : option A) : bool := match o with None => true | Some _ => false end.

Definition compareColumns (name : string) (prevCol nextCol : ColumnMeta) : option ColumnChange :=
  let nullability := fromToWhenDifferent (cm_notNull prevCol) (cm_notNull nextCol) (Bool.eqb (cm_notNull prevCol) (cm_notNull nextCol)) in
  let defaults := fromToWhenDifferent (cm_defaultSql prevCol) (cm_defaultSql nextCol) (bool_decide (cm_defaultSql prevCol = cm_defaultSql nextCol)) in
  let types := fromToWhenDifferent (cm_pgType prevCol) (cm_pgType nextCol) (bool_decide (cm_pgType prevCol = cm_pgType nextCol)) in
  if is_none nullability && is_none defaults && is_none types then None
  else Some (mkColumnChange name nullability defaults types).

Definition compareIndexes (name : string) (prevIndex nextIndex : IndexMeta) : option IndexChange :=
  let columns := fromToWhenDifferent (ix_columns prevIndex) (ix_columns nextIndex) (bool_decide (ix_columns prevIndex = ix_columns nextIndex)) in
  let unique := fromToWhenDifferent (ix_unique prevIndex) (ix_unique nextIndex) (Bool.eqb (ix_unique prevIndex) (ix_unique nextIndex)) in
  let whereSql := fromToWhenDifferent (ix_whereSql prevIndex) (ix_whereSql nextIndex) (whereSqlEqual (ix_whereSql prevIndex) (ix_whereSql nextIndex)) in
  let manual := fromToWhenDifferent (ix_needsManualWhere prevIndex) (ix_needsManualWhere nextIndex)
                  (Bool.eqb (ix_needsManualWhere prevIndex) (ix_needsManualWhere nextIndex)) in
  if is_none columns && is_none unique && is_none whereSql && is_none manual then None
  else Some (mkIndexChange name columns unique whereSql manual).

Definition MAX_IDENTIFIER_LENGTH : nat := 63.

Definition primaryKeyOf (meta : EntityTableMeta) : PrimaryKey :=
  match tm_compositePrimaryKey meta with
  | Some (name, cols) => mkPrimaryKey cols name
  | None => mkPrimaryKey (cm_name <$> filter (λ c, cm_primaryKey c = true) (tm_columns meta))
              (slice_to (MAX_IDENTIFIER_LENGTH - 5) (tm_tableName meta) +:+ "_pkey")
  end.

Definition diffPrimaryKey (prev next : EntityTableMeta) : option (FromTo PrimaryKey) :=
  fromToWhenDifferent (primaryKeyOf prev) (primaryKeyOf next) (bool_decide (primaryKeyOf prev = primaryKeyOf next)).

Definition is_nil {A} (l : list A) : bool := match l with [] => true | _ => false end.

Definition hasNoTableChanges (d : TableDiff) : bool :=
  is_none (td_primaryKeyChanged d) && is_nil (td_newColumns d) && is_nil (td_droppedColumns d) && is_nil (td_changedColumns d)
  && is_nil (td_newIndexes d) && is_nil (td_droppedIndexes d) && is_nil (td_changedIndexes d).

Definition diffOneTable (prev next : EntityTableMeta) : option TableDiff :=
  let columns := diffByName (columnsByName prev) (columnsByName next) compareColumns in
  let indexes := diffByName (indexesByName prev) (indexesByName next) compareIndexes in
  let diff := mkTableDiff (tm_tableName prev) (kd_added columns) (kd_dropped columns) (kd_changed columns)
                (kd_added indexes) (kd_dropped indexes) (kd_changed indexes) (diffPrimaryKey prev next) next in
  if hasNoTableChanges diff then None else Some diff.

Definition tablesByName (s : Snapshot) : list (string * EntityTableMeta) := map_of tm_tableName (sn_tables s).

Definition diffSnapshots (prev : option Snapshot) (next : Snapshot) : SchemaDiff :=
  let prevByName := match prev with Some s => tablesByName s | None => [] end in
  let tables := diffByName prevByName (tablesByName next) (λ _, diffOneTable) in
  mkSchemaDiff (kd_added tables) (kd_dropped tables) (kd_changed tables).

(** ** Recreating managed projections *)

Definition reason (label : string) (names : list string) : list string :=
  match names with [] => [] | _ => [label +:+ ": " +:+ join_with ", " names] end.

Definition describeRecreateReasons (td : TableDiff) : list string :=
  let uniqueNextNames := ix_name <$> filter (λ i, ix_unique i = true) (tm_indexes (td_nextMeta td)) in
  reason "dropped column(s)" (td_droppedColumns td)
  ++ reason "new NOT NULL column(s) without default"
       (cm_name <$> filter (λ c, cm_notNull c = true ∧ cm_defaultSql c = None) (td_newColumns td))
  ++ reason "new UNIQUE index(es)" (ix_name <$> filter (λ i, ix_unique i = true) (td_newIndexes td))
  ++ reason "changed UNIQUE index(es)" (ic_name <$> filter (λ c, ic_name c ∈ uniqueNextNames) (td_changedIndexes td))
  ++ reason "column(s) set NOT NULL"
       (cc_name <$> filter (λ c, (ft_to <$> cc_nullabilityChanged c) = Some true) (td_changedColumns td))
  ++ reason "column type change" (cc_name <$> filter (λ c, is_none (cc_typeChanged c) = false) (td_changedColumns td))
  ++ match td_primaryKeyChanged td with
     | Some ch => ["primary-key change: " +:+ join_with ", " (pk_columns (ft_from ch)) +:+ " → " +:+ join_with ", " (pk_columns (ft_to ch))]
     | None => []
     end.

Definition managedChangeRequiresRecreate (td : TableDiff) : bool := negb (is_nil (describeRecreateReasons td)).

Definition isRecreatedManagedTable (td : TableDiff) : bool := tm_managed (td_nextMeta td) && managedChangeRequiresRecreate td.

(** ** The lines of changed tables *)

Definition is_timestamptz (t : string) : bool := bool_decide (t = "timestamptz" ∨ t = "timestamptz(3)").

(** The USING clause of a change of type, on the quoted column. *)
Definition type_using (name from to : string) : option string :=
  let col := quoteIdent name in
  if is_timestamptz from && bool_decide (to = "date") then Some ("(" +:+ col +:+ " AT TIME ZONE 'UTC')::date")
  else if bool_decide (from = "date") && is_timestamptz to
  then Some ("(" +:+ col +:+ "::timestamp AT TIME ZONE 'UTC')")
  else None.

Definition type_change_lines (table name from to : string) : list Line :=
  if is_timestamptz from && bool_decide (to = "date") then
    [Note ("-- " +:+ from +:+ " → date: explicit UTC anchor — a bare cast would use the session TimeZone (non-deterministic).");
     Run (AlterType table name "date" (type_using name from to))]
  else if bool_decide (from = "date") && is_timestamptz to then
    [Note ("-- date → " +:+ to +:+ ": explicit UTC anchor — a bare cast would use the session TimeZone (non-deterministic).");
     Run (AlterType table name to (type_using name from to))]
  else
    [Note ("-- WARN: column-type-change " +:+ from +:+ " → " +:+ to +:+ ". Review USING-clause if needed.");
     Run (AlterType table name to (type_using name from to))].

Definition renderColumnChange (table : string) (change : ColumnChange) : list Line :=
  let name := cc_name change in
  match cc_nullabilityChanged change with
  | Some ft => [Run (if ft_to ft then SetNotNull table name else DropNotNull table name)]
  | None => []
  end
  ++ match cc_defaultChanged change with
     | Some ft => [Run (match ft_to ft with Some d => SetDefault table name d | None => DropDefault table name end)]
     | None => []
     end
  ++ match cc_typeChanged change with
     | Some ft => type_change_lines table name (ft_from ft) (ft_to ft)
     | None => []
     end.

Definition renderPrimaryKeyChange (table : string) (change : option (FromTo PrimaryKey)) : list Line :=
  match change with
  | None => []
  | Some (mkFromTo from to) =>
      Note ("-- WARN: primary-key change (" +:+ join_with ", " (pk_columns from) +:+ " → " +:+ join_with ", " (pk_columns to)
              +:+ "). Existing rows must be unique on the new key.")
      :: (if is_nil (pk_columns from) then [] else [Run (DropConstraint table (pk_constraintName from))])
      ++ (if is_nil (pk_columns to) then [] else [Run (AddPrimaryKey table (pk_constraintName to) (pk_columns to))])
  end.

Definition bool_text (b : bool) : string := if b then "true" else "false".

Definition where_text (w : option string) : string := match w with Some t => toSingleLine t | None => "<none>" end.

Definition describeIndexChange (change : IndexChange) : string :=
  join_with "; "
    (match ic_columnsChanged change with
     | Some ft => ["columns (" +:+ join_with ", " (ft_from ft) +:+ ") → (" +:+ join_with ", " (ft_to ft) +:+ ")"] | None => [] end
     ++ match ic_uniqueChanged change with
        | Some ft => ["unique " +:+ bool_text (ft_from ft) +:+ " → " +:+ bool_text (ft_to ft)] | None => [] end
     ++ match ic_whereSqlChanged change with
        | Some ft => ["where " +:+ where_text (ft_from ft) +:+ " → " +:+ where_text (ft_to ft)] | None => [] end
     ++ match ic_needsManualWhereChanged change with
        | Some ft => ["needs-manual-where " +:+ bool_text (ft_from ft) +:+ " → " +:+ bool_text (ft_to ft)] | None => [] end).

(** [None] is the error that the index is missing from the next metadata. *)
Definition renderChangedIndex (td : TableDiff) (change : IndexChange) : option (list Line) :=
  let name := ic_name change in
  idx ← find (λ i, bool_decide (ix_name i = name)) (tm_indexes (td_nextMeta td));
  Some (Note ("-- index " +:+ quoteIdent name +:+ " changed (" +:+ describeIndexChange change +:+ ") — recreated")
        :: (if ix_needsManualWhere idx then Review "-- (review) " (DropIndex (td_tableName td) name) ""
            else Run (DropIndex (td_tableName td) name))
        :: renderIndex (td_tableName td) idx).

Definition renderDroppedColumn (table col : string) : list Line :=
  [Note ("-- DO $$ BEGIN IF EXISTS (SELECT 1 FROM " +:+ quoteIdent table +:+ " WHERE " +:+ quoteIdent col
           +:+ " IS NOT NULL) THEN RAISE EXCEPTION " +:+ quoteLiteral (table +:+ "." +:+ col +:+ " is not empty")
           +:+ "; END IF; END $$;  -- guard: uncomment together with the drop below");
   Review "-- DESTRUCTIVE: " (DropColumn table col) "  -- uncomment + ensure backup"].

Definition renderInPlaceTableChanges (td : TableDiff) : option (list Line) :=
  let t := td_tableName td in
  changedIndexes ← mapM (renderChangedIndex td) (td_changedIndexes td);
  Some (((λ c, Run (AddColumn t c)) <$> td_newColumns td)
        ++ (td_changedColumns td ≫= renderColumnChange t)
        ++ renderPrimaryKeyChange t (td_primaryKeyChanged td)
        ++ (td_newIndexes td ≫= renderIndex t)
        ++ concat changedIndexes
        ++ ((λ n, Review "-- (review) " (DropIndex t n) "") <$> td_droppedIndexes td)
        ++ (td_droppedColumns td ≫= renderDroppedColumn t)
        ++ [Note ""]).

Definition renderRecreatedTable (td : TableDiff) : list Line :=
  [Note "-- managed projection — recreated + rebuilt from events (see .rebuild.json)";
   Note ("-- WARN: destructive change (" +:+ join_with "; " (describeRecreateReasons td) +:+ ") forces DROP+CREATE + full event replay.");
   Note "-- Consider an Expand/Contract split across two releases to avoid the rebuild — see docs/guides/expand-contract-managed-projections.md.";
   Run (DropTable (td_tableName td))]
  ++ renderTableDdl (td_nextMeta td) false ++ [Note ""].

Definition changed_table_lines (td : TableDiff) : option (list Line) :=
  lines ← (if isRecreatedManagedTable td then Some (renderRecreatedTable td) else renderInPlaceTableChanges td);
  Some (Note ("-- " +:+ td_tableName td) :: lines).

Definition renderChangedTables (tds : list TableDiff) : option (list Line) :=
  match tds with
  | [] => Some []
  | _ => lines ← mapM changed_table_lines tds; Some (Note "-- === Changed tables ===" :: concat lines)
  end.

Definition renderNewTables (metas : list EntityTableMeta) : list Line :=
  match metas with
  | [] => []
  | _ => Note "-- === New tables ===" :: (metas ≫= λ m, renderTableDdl m false ++ [Note ""])
  end.

Definition renderDroppedTables (names : list string) : list Line :=
  match names with
  | [] => []
  | _ => Note "-- === Dropped tables ==="
         :: ((λ n, Review "-- DESTRUCTIVE: " (DropTable n) "  -- uncomment + ensure backup + run during maintenance window") <$> names)
         ++ [Note ""]
  end.

(** A retired framework table: name, version and explanation. *)
Definition RetiredFrameworkTable : Type := string * string * string.

Definition renderRetiredDrops (retired : list RetiredFrameworkTable) : list Line :=
  match retired with
  | [] => []
  | _ => Note "-- === Retired framework tables ==="
         :: (retired ≫= λ r, [Note ("-- " +:+ r.1.1 +:+ ": retired since framework " +:+ r.1.2 +:+ " — " +:+ r.2); Run (DropTable r.1.1)])
         ++ [Note ""]
  end.

(** ** Row level security changes *)

Inductive RowLevelSecurityChange :=
| RlsEnable (table : string) (next : TableRowLevelSecurity) (previous : option TableRowLevelSecurity)
| RlsDisable (table : string) (previous : TableRowLevelSecurity).

Definition specOf (view : option Snapshot) (table : string) : option TableRowLevelSecurity :=
  s ← view; specs ← sn_rowLevelSecurity s; assoc_get table specs.

Definition changeForTable (table : string) (previous : option Snapshot) (next : Snapshot) (recreated : bool)
    : option RowLevelSecurityChange :=
  match specOf (Some next) table, specOf previous table with
  | Some nextSpec, previousSpec =>
      let unchanged := match previousSpec with Some p => negb recreated && bool_decide (p = nextSpec) | None => false end in
      if unchanged then None else Some (RlsEnable table nextSpec (if recreated then None else previousSpec))
  | None, Some previousSpec =>
      let existedBefore := match previous with
                           | Some p => existsb (λ m, bool_decide (tm_tableName m = table)) (sn_tables p)
                           | None => false
                           end in
      if existedBefore && negb recreated then Some (RlsDisable table previousSpec) else None
  | None, None => None
  end.

Definition diffRowLevelSecurity (previous : option Snapshot) (next : Snapshot) (recreatedTables : list string)
    : list RowLevelSecurityChange :=
  omap (λ m, changeForTable (tm_tableName m) previous next (bool_decide (tm_tableName m ∈ recreatedTables))) (sn_tables next).

Definition change_table (c : RowLevelSecurityChange) : string := match c with RlsEnable t _ _ | RlsDisable t _ => t end.
Definition change_previous (c : RowLevelSecurityChange) : option TableRowLevelSecurity :=
  match c with RlsEnable _ _ p => p | RlsDisable _ p => Some p end.

Definition renderChange (c : RowLevelSecurityChange) : list Line :=
  match c with
  | RlsEnable t next previous => renderEnableRowLevelSecurity t next previous
  | RlsDisable t previous =>
      Note "-- WARN: row level security switched off, tenant isolation falls back to the application layer"
      :: renderDisableRowLevelSecurity t previous
  end.

Definition renderRowLevelSecurityChanges (changes : list RowLevelSecurityChange) : list Line :=
  match changes with
  | [] => []
  | _ => Note "-- === Row level security ===" :: (changes ≫= λ c, Note ("-- " +:+ change_table c) :: renderChange c) ++ [Note ""]
  end.

Definition tablesChangingTenantColumn (tds : list TableDiff) : list string :=
  td_tableName <$> filter (λ td, isRecreatedManagedTable td = false ∧
    (TENANT_COLUMN ∈ td_droppedColumns td ∨
     existsb (λ c, bool_decide (cc_name c = TENANT_COLUMN) && negb (is_none (cc_typeChanged c))) (td_changedColumns td) = true)) tds.

(** Policies go before the tenant column they mention is changed. *)
Definition pre_drops (changing : list string) (c : RowLevelSecurityChange) : list Line :=
  if bool_decide (change_table c ∈ changing) then
    (λ p, Run (DropPolicy (change_table c) (pol_name p))) <$> default [] (change_previous c)
  else [].

Definition renderPolicyDropsBeforeTenantColumnChange (changes : list RowLevelSecurityChange) (changing : list string) : list Line :=
  match changes ≫= pre_drops changing with
  | [] => []
  | statements => Note "-- === Row level security (pre) ===" :: statements ++ [Note ""]
  end.

(** ** The migration *)

Definition hasNoSchemaChanges (diff : SchemaDiff) (retired : list RetiredFrameworkTable) (changes : list RowLevelSecurityChange) : bool :=
  is_nil (sd_newTables diff) && is_nil (sd_changedTables diff) && is_nil (sd_droppedTables diff) && is_nil retired && is_nil changes.

Definition pad4 (n : nat) : string := let s := pretty n in String.concat "" (replicate (4 - String.length s) "0") +:+ s.

Definition renderMigrationHeader (name : string) (sequenceNumber : nat) (generatedAt : string) : list Line :=
  Note <$> ["-- Migration " +:+ pad4 sequenceNumber +:+ "_" +:+ name; "-- Generated: " +:+ generatedAt; "-- ";
            "-- This file is generated by `kumiko-schema generate`. You may";
            "-- hand-edit it before committing — add partial-indexes, BRIN-";
            "-- variants, performance-tuning. After commit + apply, NEVER edit";
            "-- this file again (production-DBs already ran it). Write a new";
            "-- migration instead."; ""].

Definition migration_lines (name : string) (sequenceNumber : nat) (generatedAt : string) (diff : SchemaDiff)
    (retired : list RetiredFrameworkTable) (changes : list RowLevelSecurityChange) : option (list Line) :=
  changed ← renderChangedTables (sd_changedTables diff);
  Some (renderMigrationHeader name sequenceNumber generatedAt
        ++ renderNewTables (sd_newTables diff)
        ++ renderPolicyDropsBeforeTenantColumnChange changes (tablesChangingTenantColumn (sd_changedTables diff))
        ++ changed
        ++ renderRowLevelSecurityChanges changes
        ++ renderDroppedTables (sd_droppedTables diff)
        ++ renderRetiredDrops retired
        ++ (if hasNoSchemaChanges diff retired changes then [Note "-- No schema changes detected."] else [])).

Definition renderMigrationSql (name : string) (sequenceNumber : nat) (generatedAt : string) (diff : SchemaDiff)
    (retired : list RetiredFrameworkTable) (changes : list RowLevelSecurityChange) : option string :=
  lines ← migration_lines name sequenceNumber generatedAt diff retired changes;
  Some (join_with newline (line_text <$> lines)).

(** ** Entry point *)

Definition is_alnum (c : ascii) : bool :=
  let n := nat_of_ascii c in
  ((48 <=? n) && (n <=? 57) || (65 <=? n) && (n <=? 90) || (97 <=? n) && (n <=? 122))%nat.

Fixpoint all_chars (p : ascii → bool) (s : string) : bool :=
  match s with EmptyString => true | String c rest => p c && all_chars p rest end.

(** A letter or digit, then at most 63 letters, digits, dashes or underscores. *)
Definition valid_migration_name (name : string) : bool :=
  match name with
  | EmptyString => false
  | String c rest => is_alnum c && (String.length rest <=? 63)%nat
                     && all_chars (λ d, is_alnum d || Ascii.eqb d "-" || Ascii.eqb d "_") rest
  end.

Inductive GenerateError := ErrMigrationName | ErrDuplicateTables (names : list string) | ErrIndexMissing.

Definition count_name (name : string) (metas : list EntityTableMeta) : nat :=
  length (filter (λ m, tm_tableName m = name) metas).

Definition assertUniqueTableNames (metas : list EntityTableMeta) : result GenerateError () :=
  match filter (λ n, (1 < count_name n metas)%nat) (map_of tm_tableName metas).*1 with
  | [] => Ok ()
  | duplicates => Err (ErrDuplicateTables duplicates)
  end.

#[export] Instance tableName_le_dec (a b : EntityTableMeta) : Decision (String.leb (tm_tableName a) (tm_tableName b) = true) :=
  bool_eq_dec _ true.

Definition snapshotFromMetas (metas : list EntityTableMeta) (rowLevelSecurity : bool) : Snapshot :=
  let sorted := merge_sort (λ a b, String.leb (tm_tableName a) (tm_tableName b) = true) metas in
  mkSnapshot sorted (if rowLevelSecurity then Some (rowLevelSecurityByTable sorted) else None).

Record GenerateMigrationOutput := mkOutput {
  go_filename : string;
  go_lines : list Line;
  go_sqlContent : string;
  go_snapshot : Snapshot;
  go_diff : SchemaDiff }.

(** [findRetired]: the retired tables to drop, given the next snapshot. *)
Definition generateMigration (findRetired : Snapshot → list RetiredFrameworkTable) (generatedAt : string)
    (metas : list EntityTableMeta) (prevSnapshot : option Snapshot) (name : string) (sequenceNumber : nat)
    (rowLevelSecurity : bool) : result GenerateError GenerateMigrationOutput :=
  if negb (valid_migration_name name) then Err ErrMigrationName
  else
    let? _ := assertUniqueTableNames metas in
    let next := snapshotFromMetas metas rowLevelSecurity in
    let diff := diffSnapshots prevSnapshot next in
    let recreatedTables := td_tableName <$> filter (λ td, isRecreatedManagedTable td = true) (sd_changedTables diff) in
    let changes := diffRowLevelSecurity prevSnapshot next recreatedTables in
    match migration_lines name sequenceNumber generatedAt diff (findRetired next) changes with
    | None => Err ErrIndexMissing
    | Some lines => Ok (mkOutput (pad4 sequenceNumber +:+ "_" +:+ name +:+ ".sql") lines
                          (join_with newline (line_text <$> lines)) next diff)
    end.
