(* ===== verification/MigrationCatalog.v ===== *)
(** * What a generated migration does

    The statements of [MigrationSchema] on a catalog, as the Postgres manual
    documents them: a map from table names to columns, primary key, indexes and
    policies.  Types are kept under their SQL names and index predicates with
    white space collapsed.  Which changes of type and which defaults Postgres
    accepts is the interface [PgTypes]; what depends on the rows of a table (a new
    constraint, the values a cast meets) and the predicates of indexes are taken to
    succeed. *)

From S2P Require Import Prelude TableInfo Ownership TenantDb MigrationSchema.

Open Scope list_scope.

(** ** The catalog *)

Record Column := mkCol { col_type : string; col_notNull : bool; col_default : option string; col_identity : bool }.

Notation IndexShape := (list string * bool * option string)%type (only parsing).

Record TableState := mkTable {
  ts_columns : gmap string Column;
  ts_pk : option (string * list string);
  ts_indexes : gmap string IndexShape;
  ts_enabled : bool;
  ts_forced : bool;
  ts_policies : gmap string RowLevelSecurityPolicy }.

#[export] Instance Column_eq_dec : EqDecision Column.
Proof. solve_decision. Defined.
#[export] Instance TableState_eq_dec : EqDecision TableState.
Proof. solve_decision. Defined.

Notation Catalog := (gmap string TableState) (only parsing).

Definition names_of (meta : EntityTableMeta) : list string := cm_name <$> tm_columns meta.

Definition column_of (c : ColumnMeta) : Column :=
  mkCol (pgTypeToSqlType (cm_pgType c)) (cm_notNull c) (cm_defaultSql c) (cm_identity c).

(** The columns of a primary key are NOT NULL. *)
Definition require (cols : list string) (columns : gmap string Column) : gmap string Column :=
  map_imap (λ n c, Some (mkCol (col_type c) (col_notNull c || bool_decide (n ∈ cols)) (col_default c) (col_identity c))) columns.

Definition key_of (k : PrimaryKey) : option (string * list string) :=
  match pk_columns k with [] => None | cols => Some (pk_constraintName k, cols) end.

Definition columns_of (meta : EntityTableMeta) : gmap string Column :=
  require (pk_columns (primaryKeyOf meta)) (list_to_map ((λ c, (cm_name c, column_of c)) <$> tm_columns meta)).

Definition shape_of (i : IndexMeta) : IndexShape := (ix_columns i, ix_unique i, toSingleLine <$> ix_whereSql i).

Definition indexes_of (meta : EntityTableMeta) : gmap string IndexShape :=
  list_to_map ((λ i, (ix_name i, shape_of i)) <$> tm_indexes meta).

Definition policies_of (spec : list RowLevelSecurityPolicy) : gmap string RowLevelSecurityPolicy :=
  list_to_map ((λ p, (pol_name p, p)) <$> spec).

(** What the metadata and the policies of a table describe. *)
Definition table_state (meta : EntityTableMeta) (spec : option (list RowLevelSecurityPolicy)) : TableState :=
  mkTable (columns_of meta) (key_of (primaryKeyOf meta)) (indexes_of meta) (bool_decide (is_Some spec))
    (bool_decide (is_Some spec)) (policies_of (default [] spec)).

Definition catalog_of (s : Snapshot) : Catalog :=
  list_to_map ((λ m, (tm_tableName m, table_state m (specOf (Some s) (tm_tableName m)))) <$> sn_tables s).

(** ** Statements on one table *)

Definition set_columns (f : gmap string Column → gmap string Column) (ts : TableState) : TableState :=
  mkTable (f (ts_columns ts)) (ts_pk ts) (ts_indexes ts) (ts_enabled ts) (ts_forced ts) (ts_policies ts).
Definition set_indexes (f : gmap string IndexShape → gmap string IndexShape) (ts : TableState) : TableState :=
  mkTable (ts_columns ts) (ts_pk ts) (f (ts_indexes ts)) (ts_enabled ts) (ts_forced ts) (ts_policies ts).
Definition set_pk (k : option (string * list string)) (ts : TableState) : TableState :=
  mkTable (ts_columns ts) k (ts_indexes ts) (ts_enabled ts) (ts_forced ts) (ts_policies ts).
Definition set_policies (f : gmap string RowLevelSecurityPolicy → gmap string RowLevelSecurityPolicy) (ts : TableState) : TableState :=
  mkTable (ts_columns ts) (ts_pk ts) (ts_indexes ts) (ts_enabled ts) (ts_forced ts) (f (ts_policies ts)).
Definition set_flags (enabled forced : bool) (ts : TableState) : TableState :=
  mkTable (ts_columns ts) (ts_pk ts) (ts_indexes ts) enabled forced (ts_policies ts).

Definition pk_cols (ts : TableState) : list string := match ts_pk ts with Some (_, cols) => cols | None => [] end.

Definition has_columns (cols : list string) (ts : TableState) : bool :=
  bool_decide (Forall (λ c, is_Some (ts_columns ts !! c)) cols).

(** A policy mentions the column: it cannot be dropped or change its type. *)
Definition policy_blocks (col : string) (ts : TableState) : bool :=
  bool_decide (col = TENANT_COLUMN) && negb (bool_decide (ts_policies ts = ∅)).

(** What Postgres decides about types, under their SQL names: whether a column of
    the first can become one of the second by assignment, or by a USING
    expression, whether a type takes a default, and whether the default a column
    has survives the change of its type. *)
Class PgTypes := {
  pg_assigns : string → string → bool;
  pg_converts : string → string → string → bool;
  pg_accepts : string → string → bool;
  pg_recasts : string → string → string → bool }.

(** Only a new column can have one of these types. *)
Definition creates_sequence (ty : string) : bool := bool_decide (ty = "serial" ∨ ty = "bigserial")%string.

(** CREATE TABLE accepts the metadata. *)
Definition create_ok (meta : EntityTableMeta) : bool :=
  let flagged := cm_name <$> filter (λ c, cm_primaryKey c = true) (tm_columns meta) in
  bool_decide (NoDup (names_of meta))
  && match tm_compositePrimaryKey meta with
     | Some (_, cols) => is_nil flagged && bool_decide (Forall (λ c, c ∈ names_of meta) cols)
     | None => (length flagged <=? 1)%nat
     end.

Definition on_column (col : string) (f : Column → Column) (ts : TableState) : option TableState :=
  c ← ts_columns ts !! col; Some (set_columns <[col := f c]> ts).

Section catalog.
Context {pg : PgTypes}.

(** ALTER COLUMN TYPE: a cast, and one for the default. *)
Definition retypes (c : Column) (ty : string) (usingSql : option string) : bool :=
  match usingSql with
  | Some e => pg_converts (col_type c) ty e
  | None => pg_assigns (col_type c) ty
  end && match col_default c with Some d => pg_recasts (col_type c) ty d | None => true end.

(** ALTER TABLE and the statements on indexes and policies, on an existing
    table; [None] is an error. *)
Definition alter (d : Ddl) (ts : TableState) : option TableState :=
  match d with
  | CreateTable _ => Some ts
  | DropTable _ => Some ts
  | CreateIndex _ idx =>
      match ts_indexes ts !! ix_name idx with
      | Some _ => Some ts
      | None => if has_columns (ix_columns idx) ts then Some (set_indexes <[ix_name idx := shape_of idx]> ts) else None
      end
  | DropIndex _ n => Some (set_indexes (delete n) ts)
  | AddColumn _ c =>
      match ts_columns ts !! cm_name c with
      | Some _ => None
      | None => Some (set_columns <[cm_name c := mkCol (pgTypeToSqlType (cm_pgType c)) (cm_notNull c) (cm_defaultSql c) false]> ts)
      end
  | SetNotNull _ n => on_column n (λ c, mkCol (col_type c) true (col_default c) (col_identity c)) ts
  | DropNotNull _ n =>
      if bool_decide (n ∈ pk_cols ts) then None
      else on_column n (λ c, mkCol (col_type c) false (col_default c) (col_identity c)) ts
  | SetDefault _ n d =>
      c ← ts_columns ts !! n;
      if pg_accepts (col_type c) d
      then on_column n (λ c, mkCol (col_type c) (col_notNull c) (Some d) (col_identity c)) ts else None
  | DropDefault _ n => on_column n (λ c, mkCol (col_type c) (col_notNull c) None (col_identity c)) ts
  | AlterType _ n ty usingSql =>
      c ← ts_columns ts !! n;
      if policy_blocks n ts || creates_sequence ty || negb (retypes c (pgTypeToSqlType ty) usingSql) then None
      else on_column n (λ c, mkCol (pgTypeToSqlType ty) (col_notNull c) (col_default c) (col_identity c)) ts
  | DropConstraint _ n =>
      Some (match ts_pk ts with Some (m, _) => if decide (m = n) then set_pk None ts else ts | None => ts end)
  | AddPrimaryKey _ n cols =>
      match ts_pk ts with
      | Some _ => None
      | None => if has_columns cols ts then Some (set_pk (Some (n, cols)) (set_columns (require cols) ts)) else None
      end
  | DropColumn _ n =>
      if policy_blocks n ts then None
      else match ts_columns ts !! n with
           | None => None
           | Some _ =>
               let ts' := set_indexes (filter (λ e, n ∉ e.2.1.1)) (set_columns (delete n) ts) in
               Some (if bool_decide (n ∈ pk_cols ts) then set_pk None ts' else ts')
           end
  | CreatePolicy _ p =>
      match ts_policies ts !! pol_name p with Some _ => None | None => Some (set_policies <[pol_name p := p]> ts) end
  | DropPolicy _ n => Some (set_policies (delete n) ts)
  | EnableRls _ on => Some (set_flags on (ts_forced ts) ts)
  | ForceRls _ on => Some (set_flags (ts_enabled ts) on ts)
  end.

(** A statement on its table, which may be missing. *)
Definition exec_local (d : Ddl) (t : option TableState) : option (option TableState) :=
  match d, t with
  | CreateTable meta, None =>
      if create_ok meta then Some (Some (mkTable (columns_of meta) (key_of (primaryKeyOf meta)) ∅ false false ∅)) else None
  | DropTable _, _ => Some None
  | (DropIndex _ _ | DropPolicy _ _), None => Some None
  | _, None => None
  | _, Some ts => ts' ← alter d ts; Some (Some ts')
  end.

(** ** Statements on the catalog *)

Definition index_exists (n : string) (cat : Catalog) : bool :=
  negb (bool_decide (map_Forall (λ _ ts, ts_indexes ts !! n = None) cat)).

Definition exec_own (d : Ddl) (cat : Catalog) : option Catalog :=
  t ← exec_local d (cat !! ddl_table d); Some (partial_alter (λ _, t) (ddl_table d) cat).

(** Index names are unique in the schema. *)
Definition exec_ddl (d : Ddl) (cat : Catalog) : option Catalog :=
  match d with
  | CreateIndex t idx =>
      if index_exists (ix_name idx) cat && bool_decide (is_Some (cat !! t)) then Some cat else exec_own d cat
  | DropIndex _ n => Some (set_indexes (delete n) <$> cat)
  | _ => exec_own d cat
  end.

Definition exec_all (ds : list Ddl) (cat : Catalog) : option Catalog := foldl (λ acc d, acc ≫= exec_ddl d) (Some cat) ds.

(** The statements of a migration, those left to the reviewer included. *)
Definition statement_of (l : Line) : option Ddl := match l with Note _ => None | Run d | Review _ d _ => Some d end.
Definition statements (lines : list Line) : list Ddl := omap statement_of lines.

(** ** Tables are migrated independently *)

Section locality.
#[local] Set Default Proof Using "Type".
Context (owner : string → string).

(** Every index name belongs to one table. *)
Definition names_owned (cat : Catalog) : Prop :=
  ∀ t ts n s, cat !! t = Some ts → ts_indexes ts !! n = Some s → owner n = t.

Definition ddl_owned (d : Ddl) : Prop :=
  match d with CreateIndex t idx => owner (ix_name idx) = t | DropIndex t n => owner n = t | _ => True end.

Lemma on_column_indexes col f ts ts' : on_column col f ts = Some ts' → ts_indexes ts' = ts_indexes ts.
Proof. unfold on_column. intros (c & _ & [= <-])%bind_Some. done. Qed.

Lemma alter_indexes d ts ts' n s : alter d ts = Some ts' → ts_indexes ts' !! n = Some s →
  ts_indexes ts !! n = Some s ∨ ∃ t idx, d = CreateIndex t idx ∧ ix_name idx = n.
Proof.
  destruct d as [meta|t idx|t c|t c|t c|t c dd|t c|t c ty u|t m|t m cols|t m|t c|t|t p|t m|t b|t b]; simpl;
    try (by intros [= <-]; left).
  - destruct (ts_indexes ts !! ix_name idx); [by intros [= <-]; left|]. destruct (has_columns _ _); [|done]. intros [= <-]. simpl.
    intros [[H _]|[_ H]]%lookup_insert_Some; [right; by exists t, idx|by left].
  - destruct (ts_columns ts !! _); [done|]. by intros [= <-]; left.
  - intros ->%on_column_indexes. by left.
  - destruct (bool_decide _); [done|]. intros ->%on_column_indexes. by left.
  - intros (c0 & _ & Hx)%bind_Some. destruct (pg_accepts _ _); [|done]. apply on_column_indexes in Hx as ->. by left.
  - intros ->%on_column_indexes. by left.
  - intros (c0 & _ & Hx)%bind_Some. destruct (_ || _); [done|]. apply on_column_indexes in Hx as ->. by left.
  - intros [= <-]. destruct (ts_pk ts) as [[m' ?]|]; [|by left]. destruct (decide (m' = m)); by left.
  - destruct (ts_pk ts); [done|]. destruct (has_columns _ _); [|done]. by intros [= <-]; left.
  - intros [= <-]. simpl. intros [_ H]%lookup_delete_Some. by left.
  - destruct (policy_blocks _ _); [done|]. destruct (ts_columns ts !! c); [|done]. intros [= <-].
    destruct (bool_decide _); simpl; intros [H _]%map_lookup_filter_Some; by left.
  - destruct (ts_policies ts !! _); [done|]. by intros [= <-]; left.
Qed.

Lemma exec_local_indexes d t r ts n s : exec_local d t = Some r → r = Some ts → ts_indexes ts !! n = Some s →
  (∃ ts0, t = Some ts0 ∧ ts_indexes ts0 !! n = Some s) ∨ ∃ t' idx, d = CreateIndex t' idx ∧ ix_name idx = n.
Proof.
  intros H -> Hn. destruct t as [ts0|].
  - assert (alter d ts0 = Some ts) as Ha.
    { destruct d; simpl in *; simplify_option_eq; try done; by apply bind_Some in H as (x & -> & [= ->]). }
    apply (alter_indexes _ _ _ _ _ Ha) in Hn as [Hn|Hn]; [left; by exists ts0|by right].
  - destruct d; simpl in H; try done. destruct (create_ok meta); [|done]. injection H as <-. done.
Qed.

Lemma exec_own_owned d cat r : names_owned cat → ddl_owned d → exec_local d (cat !! ddl_table d) = Some r →
  names_owned (partial_alter (λ _, r) (ddl_table d) cat).
Proof.
  intros Hn Hd Hr t ts n s Ht Hs. destruct (decide (t = ddl_table d)) as [->|Hne].
  - rewrite lookup_partial_alter_eq in Ht. destruct (exec_local_indexes _ _ _ _ _ _ Hr Ht Hs) as [(ts0 & H0 & H1)|(t' & idx & -> & <-)].
    + by eapply Hn.
    + done.
  - rewrite lookup_partial_alter_ne in Ht by done. by eapply Hn.
Qed.

Lemma exec_ddl_local d cat r : names_owned cat → ddl_owned d → exec_local d (cat !! ddl_table d) = Some r →
  exec_ddl d cat = Some (partial_alter (λ _, r) (ddl_table d) cat).
Proof.
  intros Hn Hd Hr. assert (Hown : exec_own d cat = Some (partial_alter (λ _, r) (ddl_table d) cat)) by (unfold exec_own; by rewrite Hr).
  destruct d as [meta|t idx|t c|t c|t c|t c dd|t c|t c ty u|t m|t m cols|t m|t c|t|t p|t m|t b|t b]; try exact Hown.
  - simpl. destruct (index_exists (ix_name idx) cat && _) eqn:He; [|exact Hown]. f_equal.
    apply andb_true_iff in He as [He Ht]. reflect_bools. destruct Ht as [ts Ht]. simpl in Hr, Hd. rewrite Ht in Hr. simpl in Hr.
    destruct (ts_indexes ts !! ix_name idx) eqn:Hi.
    + injection Hr as <-. rewrite <- Ht. by rewrite partial_alter_self.
    + exfalso. unfold index_exists in He. reflect_bools. apply He. intros t' ts' Ht'. destruct (ts_indexes ts' !! ix_name idx) eqn:Hi'; [|done].
      pose proof (Hn _ _ _ _ Ht' Hi') as Ho. congruence.
  - simpl. f_equal. simpl in Hr, Hd. apply map_eq. intros t'. rewrite lookup_fmap. destruct (decide (t' = t)) as [->|Hne].
    + rewrite lookup_partial_alter_eq. destruct (cat !! t); simpl in *; by simplify_eq.
    + rewrite lookup_partial_alter_ne by done. destruct (cat !! t') as [ts'|] eqn:Ht'; [|done]. simpl. f_equal.
      destruct ts' as [c k i e f p]. unfold set_indexes. simpl. f_equal. apply delete_id.
      destruct (i !! m) eqn:Hi; [|done]. exfalso. apply Hne. rewrite <- Hd. symmetry. by eapply Hn.
Qed.

Definition run_local (ds : list Ddl) (t : option TableState) : option (option TableState) :=
  foldl (λ acc d, acc ≫= exec_local d) (Some t) ds.

Lemma run_local_cons d ds t : run_local (d :: ds) t = (exec_local d t ≫= run_local ds).
Proof.
  unfold run_local. simpl. destruct (exec_local d t) as [r|]; [done|]. induction ds; [done|]. simpl. exact IHds.
Qed.

Lemma run_local_app ds es t : run_local (ds ++ es) t = (run_local ds t ≫= run_local es).
Proof.
  revert t. induction ds as [|d ds IH]; intros t; [done|]. simpl app. rewrite !run_local_cons.
  destruct (exec_local d t); simpl; [apply IH|done].
Qed.

Lemma exec_all_cons d ds cat : exec_all (d :: ds) cat = (exec_ddl d cat ≫= exec_all ds).
Proof.
  unfold exec_all. simpl. destruct (exec_ddl d cat) as [r|]; [done|]. induction ds; [done|]. simpl. exact IHds.
Qed.

Definition of_table (t : string) (ds : list Ddl) : list Ddl := filter (λ d, ddl_table d = t) ds.

(** A migration that works on every table by itself works on the catalog. *)
Lemma exec_all_local ds : ∀ cat (R : string → option TableState),
  names_owned cat → Forall ddl_owned ds → (∀ t, run_local (of_table t ds) (cat !! t) = Some (R t)) →
  ∃ cat', exec_all ds cat = Some cat' ∧ ∀ t, cat' !! t = R t.
Proof.
  induction ds as [|d ds IH]; intros cat R Hn Ho Hr.
  { exists cat. split; [done|]. intros t. specialize (Hr t). by injection Hr. }
  apply Forall_cons in Ho as [Hd Ho]. pose proof (Hr (ddl_table d)) as Hdt. unfold of_table in Hdt.
  rewrite filter_cons_True, run_local_cons in Hdt by done. apply bind_Some in Hdt as (r & Hx & Hdt).
  rewrite exec_all_cons, (exec_ddl_local _ _ _ Hn Hd Hx). simpl. apply IH; [by apply exec_own_owned|done|].
  intros t. destruct (decide (t = ddl_table d)) as [->|Hne]; [by rewrite lookup_partial_alter_eq|].
  rewrite lookup_partial_alter_ne by done. rewrite <- (Hr t). unfold of_table. by rewrite filter_cons_False.
Qed.
End locality.

(** ** Lists with keys *)

Lemma omap_map {A B C} (f : B → option C) (g : A → B) (l : list A) : omap f (g <$> l) = omap (λ a, f (g a)) l.
Proof. induction l as [|a l IH]; [done|]. csimpl. by rewrite IH. Qed.

Lemma omap_ext_in {A B} (f g : A → option B) (l : list A) : (∀ a, a ∈ l → f a = g a) → omap f l = omap g l.
Proof.
  induction l as [|a l IH]; intros H; [done|]. csimpl. rewrite (H a) by (by left). rewrite IH; [done|]. intros b Hb. apply H. by right.
Qed.

Lemma omap_guard {A} (P : A → Prop) `{!∀ a, Decision (P a)} (l : list A) : omap (λ a, if decide (P a) then Some a else None) l = filter P l.
Proof. induction l as [|a l IH]; [done|]. csimpl. rewrite filter_cons. destruct (decide (P a)); by rewrite IH. Qed.

Section keyed.
Context {A B : Type} (key : A → string).

Notation at_key n := (λ a, bool_decide (key a = n)).

Lemma find_Some l n a : find (at_key n) l = Some a → a ∈ l ∧ key a = n.
Proof.
  induction l as [|b l IH]; simpl; [done|]. case_bool_decide; [intros [= <-]; split; [by left|done]|].
  intros [? ?]%IH. split; [by right|done].
Qed.

Lemma find_None l n : find (at_key n) l = None ↔ n ∉ key <$> l.
Proof.
  induction l as [|b l IH]; simpl; [set_solver|]. case_bool_decide; [set_solver|]. rewrite IH. set_solver.
Qed.

Lemma find_elem l a : NoDup (key <$> l) → a ∈ l → find (at_key (key a)) l = Some a.
Proof.
  induction l as [|b l IH]; simpl; intros Hnd; [by intros []%elem_of_nil|]. apply NoDup_cons in Hnd as [Hb Hnd].
  intros [->|Ha]%elem_of_cons; [by rewrite bool_decide_eq_true_2|]. rewrite bool_decide_eq_false_2; [by apply IH|].
  intros Heq. apply Hb. rewrite Heq. by apply list_elem_of_fmap_2.
Qed.

Lemma find_filter (P : A → Prop) `{!∀ a, Decision (P a)} l n : NoDup (key <$> l) →
  find (at_key n) (filter P l) = match find (at_key n) l with Some a => if decide (P a) then Some a else None | None => None end.
Proof.
  induction l as [|b l IH]; simpl; intros Hnd; [done|]. apply NoDup_cons in Hnd as [Hb Hnd]. rewrite filter_cons.
  destruct (decide (P b)) as [Hp|Hp]; simpl; case_bool_decide as Hk; rewrite ?decide_True by done; try done; try by apply IH.
  rewrite IH by done. destruct (find (at_key n) l) as [a|] eqn:Hf; [|by rewrite decide_False].
  exfalso. apply find_Some in Hf as [Ha Hk']. apply Hb. rewrite Hk, <- Hk'. by apply list_elem_of_fmap_2.
Qed.

Lemma lookup_pairs (val : A → B) l n :
  (list_to_map ((λ a, (key a, val a)) <$> l) : gmap string B) !! n = val <$> find (at_key n) l.
Proof.
  induction l as [|b l IH]; simpl; [by rewrite lookup_empty|]. case_bool_decide as Hk.
  - subst. by rewrite lookup_insert_eq.
  - by rewrite lookup_insert_ne.
Qed.

Lemma assoc_set_fresh (n : string) (a : A) m : n ∉ m.*1 → assoc_set n a m = m ++ [(n, a)].
Proof.
  induction m as [|[n' a'] m IH]; simpl; [done|]. intros [Hne Hn]%not_elem_of_cons. rewrite decide_False by done. by rewrite IH.
Qed.

Lemma map_of_nodup l : NoDup (key <$> l) → map_of key l = (λ a, (key a, a)) <$> l.
Proof.
  unfold map_of. cut (∀ acc, NoDup (acc.*1 ++ (key <$> l)) →
    foldl (λ m a, assoc_set (key a) a m) acc l = acc ++ ((λ a, (key a, a)) <$> l)); [intros H Hnd; by apply (H [])|].
  induction l as [|a l IH]; intros acc Hnd; simpl; [by rewrite app_nil_r|]. simpl in Hnd.
  rewrite assoc_set_fresh.
  - rewrite IH; [by rewrite <- app_assoc|]. rewrite fmap_app. simpl. by rewrite <- app_assoc.
  - apply NoDup_app in Hnd as (_ & Hd & _). intros Hin. apply (Hd _ Hin). by left.
Qed.

Lemma assoc_pairs l n : assoc_get n ((λ a, (key a, a)) <$> l) = find (at_key n) l.
Proof. induction l as [|a l IH]; simpl; [done|]. by repeat case_decide || case_bool_decide. Qed.

Lemma map_of_at l n : NoDup (key <$> l) → assoc_get n (map_of key l) = find (at_key n) l.
Proof. intros Hnd. rewrite map_of_nodup by done. apply assoc_pairs. Qed.

(** [diffByName] on lists without repeated keys. *)
Section diff.
Context {C : Type} (compare : string → A → A → option C) (prev next : list A).
Hypothesis (Hp : NoDup (key <$> prev)) (Hn : NoDup (key <$> next)).

Notation diff := (diffByName (map_of key prev) (map_of key next) compare).

Lemma diff_added : kd_added diff = filter (λ a, find (at_key (key a)) prev = None) next.
Proof using Hp Hn.
  unfold diffByName. simpl. rewrite (map_of_nodup next), omap_map by done. simpl. rewrite <- omap_guard.
  apply omap_ext_in. intros a _. rewrite map_of_at by done. by destruct (find _ _).
Qed.

Lemma diff_changed : kd_changed diff
  = omap (λ a, match find (at_key (key a)) prev with None => None | Some b => compare (key a) b a end) next.
Proof using Hp Hn.
  unfold diffByName. simpl. rewrite (map_of_nodup next), omap_map by done. simpl. apply omap_ext_in. intros a _. by rewrite map_of_at.
Qed.

Lemma diff_dropped n : n ∈ kd_dropped diff ↔ n ∈ key <$> prev ∧ n ∉ key <$> next.
Proof using Hp Hn.
  unfold diffByName. simpl. rewrite list_elem_of_filter, map_of_at, find_None, (map_of_nodup prev), <- list_fmap_compose by done.
  naive_solver.
Qed.

Lemma diff_dropped_nodup : NoDup (kd_dropped diff).
Proof using Hp. unfold diffByName. simpl. apply NoDup_filter. by rewrite map_of_nodup, <- list_fmap_compose. Qed.
End diff.
End keyed.

Lemma bind_omap {A B C} (f : A → option B) (g : B → list C) (l : list A) :
  omap f l ≫= g = (l ≫= λ a, match f a with Some b => g b | None => [] end).
Proof. induction l as [|a l IH]; [done|]. csimpl. destruct (f a); csimpl; by rewrite IH. Qed.

Lemma mapM_total {A B} (f : A → option B) (g : A → B) (l : list A) : (∀ a, a ∈ l → f a = Some (g a)) → mapM f l = Some (g <$> l).
Proof.
  intros H. apply mapM_Some. apply Forall2_fmap_r, Forall_Forall2_diag, Forall_forall. done.
Qed.

Lemma statements_app a b : statements (a ++ b) = statements a ++ statements b.
Proof. apply omap_app. Qed.

Lemma statements_bind {A} (f : A → list Line) (l : list A) : statements (l ≫= f) = (l ≫= λ a, statements (f a)).
Proof. induction l as [|a l IH]; [done|]. csimpl. by rewrite statements_app, IH. Qed.

Lemma statements_concat ls : statements (concat ls) = (ls ≫= statements).
Proof. induction ls as [|l ls IH]; [done|]. csimpl. by rewrite statements_app, IH. Qed.

Lemma bind_ext_in {A B} (f g : A → list B) (l : list A) : (∀ a, a ∈ l → f a = g a) → (l ≫= f) = (l ≫= g).
Proof.
  induction l as [|a l IH]; intros H; [done|]. csimpl. rewrite (H a) by (by left). rewrite IH; [done|]. intros b Hb. apply H. by right.
Qed.

(** ** Programs of ALTER statements *)

Definition alters (ds : list Ddl) (ts : TableState) : option TableState := foldl (λ acc d, acc ≫= alter d) (Some ts) ds.

Lemma alters_cons d ds ts : alters (d :: ds) ts = (alter d ts ≫= alters ds).
Proof. unfold alters. simpl. destruct (alter d ts) as [r|]; [done|]. induction ds; [done|]. simpl. exact IHds. Qed.

Lemma alters_app ds es ts : alters (ds ++ es) ts = (alters ds ts ≫= alters es).
Proof.
  revert ts. induction ds as [|d ds IH]; intros ts; [done|]. simpl app. rewrite !alters_cons. destruct (alter d ts); simpl; [apply IH|done].
Qed.

Definition keeps_table (d : Ddl) : Prop := match d with DropTable _ => False | _ => True end.

Lemma run_alters ds : ∀ ts, Forall keeps_table ds → run_local ds (Some ts) = Some <$> alters ds ts.
Proof.
  induction ds as [|d ds IH]; intros ts Hk; [done|]. apply Forall_cons in Hk as [Hd Hk]. rewrite run_local_cons, alters_cons.
  assert (exec_local d (Some ts) = Some <$> alter d ts) as -> by (destruct d; try done; simpl; by destruct (_ : option TableState)).
  destruct (alter d ts) as [ts'|]; simpl; [by apply IH|done].
Qed.

Section inserts.
Context {A : Type} (prog : A → list Ddl) (key : A → string).

(** Programs that each write one column write them all. *)
Lemma alters_columns (val : A → Column) (before : A → option Column) l : ∀ ts,
  NoDup (key <$> l) →
  (∀ a ts', a ∈ l → ts_columns ts' !! key a = before a → ts_pk ts' = ts_pk ts → ts_policies ts' = ts_policies ts →
    alters (prog a) ts' = Some (set_columns <[key a := val a]> ts')) →
  (∀ a, a ∈ l → ts_columns ts !! key a = before a) →
  alters (l ≫= prog) ts = Some (set_columns (λ cs, list_to_map ((λ a, (key a, val a)) <$> l) ∪ cs) ts).
Proof.
  induction l as [|a l IH]; intros ts Hnd Hp Hb.
  { simpl. destruct ts. unfold set_columns. simpl. by rewrite (left_id_L ∅ (∪)). }
  simpl in Hnd. apply NoDup_cons in Hnd as [Ha Hnd]. csimpl. rewrite alters_app, (Hp a ts); [|by left|apply Hb; by left|done..].
  simpl. rewrite IH; [|done| |].
  - unfold set_columns. simpl. f_equal. f_equal. rewrite <- insert_union_r, insert_union_l; [done|].
    apply not_elem_of_list_to_map_1. by rewrite <- list_fmap_compose.
  - intros b ts' Hin. apply Hp. by right.
  - intros b Hin. simpl. rewrite lookup_insert_ne; [apply Hb; by right|]. intros Heq. apply Ha. rewrite Heq. by apply list_elem_of_fmap_2.
Qed.

Lemma alters_indexes (val : A → IndexShape) (before : A → option IndexShape) l : ∀ ts,
  NoDup (key <$> l) →
  (∀ a ts', a ∈ l → ts_indexes ts' !! key a = before a → ts_columns ts' = ts_columns ts →
    alters (prog a) ts' = Some (set_indexes <[key a := val a]> ts')) →
  (∀ a, a ∈ l → ts_indexes ts !! key a = before a) →
  alters (l ≫= prog) ts = Some (set_indexes (λ xs, list_to_map ((λ a, (key a, val a)) <$> l) ∪ xs) ts).
Proof.
  induction l as [|a l IH]; intros ts Hnd Hp Hb.
  { simpl. destruct ts. unfold set_indexes. simpl. by rewrite (left_id_L ∅ (∪)). }
  simpl in Hnd. apply NoDup_cons in Hnd as [Ha Hnd]. csimpl. rewrite alters_app, (Hp a ts); [|by left|apply Hb; by left|done..].
  simpl. rewrite IH; [|done| |].
  - unfold set_indexes. simpl. f_equal. f_equal. rewrite <- insert_union_r, insert_union_l; [done|].
    apply not_elem_of_list_to_map_1. by rewrite <- list_fmap_compose.
  - intros b ts' Hin. apply Hp. by right.
  - intros b Hin. simpl. rewrite lookup_insert_ne; [apply Hb; by right|]. intros Heq. apply Ha. rewrite Heq. by apply list_elem_of_fmap_2.
Qed.
End inserts.
End catalog.
