(* ===== verification/MigrationTables.v ===== *)
(** * A generated migration on one table

    For every table, the statements [MigrationSchema] generates for it take the
    catalog entry of the previous metadata to that of the next: altering it in
    place, creating it, and switching its policies on and off. *)

From S2P Require Import Prelude TableInfo Ownership TenantDb MigrationSchema MigrationCatalog.

Open Scope list_scope.

(** ** Well-formed metadata *)

Definition index_ok (meta : EntityTableMeta) (i : IndexMeta) : Prop :=
  ix_needsManualWhere i = false ∧ Forall (λ c, c ∈ names_of meta) (ix_columns i).

(** Names are distinct, keys and indexes are on columns of the table, columns of
    the key are declared NOT NULL, and every index can be printed. *)
Definition wf_meta (meta : EntityTableMeta) : Prop :=
  create_ok meta = true ∧ NoDup (ix_name <$> tm_indexes meta) ∧ Forall (index_ok meta) (tm_indexes meta) ∧
  Forall (λ n, ∃ c, c ∈ tm_columns meta ∧ cm_name c = n ∧ cm_notNull c = true) (pk_columns (primaryKeyOf meta)).

Definition recreates (prev next : EntityTableMeta) : bool :=
  match diffOneTable prev next with Some td => isRecreatedManagedTable td | None => false end.

Definition has_tenant (meta : EntityTableMeta) : bool := bool_decide (TENANT_COLUMN ∈ names_of meta).

Definition tenant_type (meta : EntityTableMeta) : option string :=
  cm_pgType <$> find (λ c, bool_decide (cm_name c = TENANT_COLUMN)) (tm_columns meta).

(** The policies of a table: named once, on a tenant column. *)
Definition spec_ok (meta : EntityTableMeta) (spec : option (list RowLevelSecurityPolicy)) : Prop :=
  match spec with Some ps => NoDup (pol_name <$> ps) ∧ has_tenant meta = true | None => True end.

Notation col_at n := (λ c, bool_decide (cm_name c = n)).
Notation idx_at n := (λ i, bool_decide (ix_name i = n)).

Section tables.
Context {pg : PgTypes}.

(** The default is taken for the type a column has before its type changes, and
    survives the change. *)
Definition default_fits (prev next : ColumnMeta) : Prop :=
  cm_defaultSql prev ≠ cm_defaultSql next →
  ∀ d, cm_defaultSql next = Some d → pg_accepts (pgTypeToSqlType (cm_pgType prev)) d = true.

Definition type_fits (prev next : ColumnMeta) : Prop :=
  cm_pgType prev ≠ cm_pgType next →
  creates_sequence (cm_pgType next) = false ∧
  retypes (mkCol (pgTypeToSqlType (cm_pgType prev)) (cm_notNull next) (cm_defaultSql next) (cm_identity next))
    (pgTypeToSqlType (cm_pgType next)) (type_using (cm_name next) (cm_pgType prev) (cm_pgType next)) = true.

(** What the generator does not express by altering a table: a column that leaves
    the primary key and loses NOT NULL at once, changes of identity, and a change
    of type or default Postgres does not take, such as one without a cast. *)
Definition alterable (prev next : EntityTableMeta) : Prop :=
  Forall (λ c, match find (λ p, bool_decide (cm_name p = cm_name c)) (tm_columns prev) with
               | None => cm_identity c = false
               | Some p => cm_identity c = cm_identity p ∧
                           (cm_name c ∈ pk_columns (primaryKeyOf prev) → cm_notNull c = true) ∧
                           default_fits p c ∧ type_fits p c
               end) (tm_columns next).

Definition cols_map (meta : EntityTableMeta) : gmap string Column :=
  list_to_map ((λ c, (cm_name c, column_of c)) <$> tm_columns meta).

Lemma wf_names meta : wf_meta meta → NoDup (names_of meta).
Proof. intros [H _]. unfold create_ok in H. apply andb_true_iff in H as [H _]. by reflect_bools. Qed.

Lemma wf_required meta : wf_meta meta → columns_of meta = cols_map meta.
Proof.
  intros Hwf. pose proof (wf_names _ Hwf) as Hnd. destruct Hwf as (_ & _ & _ & Hpk). rewrite Forall_forall in Hpk.
  unfold columns_of. fold (cols_map meta). apply map_eq. intros n. unfold require. rewrite map_lookup_imap.
  destruct (cols_map meta !! n) as [c|] eqn:Hc; [|done]. simpl. f_equal. destruct c as [ty nn d i]. simpl. f_equal.
  case_bool_decide as Hin; [|apply orb_false_r]. rewrite orb_true_r. unfold cols_map in Hc. rewrite lookup_pairs in Hc.
  destruct (Hpk n Hin) as (c & Hcin & <- & Hnn). rewrite (find_elem cm_name) in Hc by done. injection Hc. intros. by subst.
Qed.

Lemma require_twice cols columns : (∀ n, n ∈ cols → ∀ c, columns !! n = Some c → col_notNull c = true) → require cols columns = columns.
Proof.
  intros H. apply map_eq. intros n. unfold require. rewrite map_lookup_imap. destruct (columns !! n) as [[ty nn d i]|] eqn:Hc; [|done].
  simpl. f_equal. f_equal. case_bool_decide as Hin; [|apply orb_false_r]. rewrite orb_true_r. symmetry. by apply (H n Hin _ Hc).
Qed.

(** ** Altering a table in place *)

Section in_place.
Context (p m : EntityTableMeta).
Hypothesis (Hp : wf_meta p) (Hm : wf_meta m) (Halt : alterable p m) (Hname : tm_tableName m = tm_tableName p).

Notation t := (tm_tableName p).

Notation columns := (diffByName (columnsByName p) (columnsByName m) compareColumns).
Notation indexes := (diffByName (indexesByName p) (indexesByName m) compareIndexes).

Definition iprev (n : string) : option IndexMeta := find (idx_at n) (tm_indexes p).

Lemma index_names meta : wf_meta meta → NoDup (ix_name <$> tm_indexes meta).
Proof. by intros (_ & ? & _). Qed.

Lemma added_columns : kd_added columns = filter (λ c, find (col_at (cm_name c)) (tm_columns p) = None) (tm_columns m).
Proof using Hp Hm. by apply diff_added; apply wf_names. Qed.

Lemma changed_columns (f : ColumnChange → list Line) :
  (kd_changed columns ≫= f)
  = (tm_columns m ≫= λ c, match find (col_at (cm_name c)) (tm_columns p) with
                          | None => []
                          | Some pc => match compareColumns (cm_name c) pc c with Some ch => f ch | None => [] end
                          end).
Proof using Hp Hm.
  unfold columnsByName. rewrite diff_changed by (by apply wf_names). rewrite bind_omap. apply bind_ext_in. intros c _.
  by destruct (find _ _).
Qed.

Lemma dropped_columns n : n ∈ kd_dropped columns ↔ n ∈ names_of p ∧ n ∉ names_of m.
Proof using Hp Hm. by apply diff_dropped; apply wf_names. Qed.

Lemma dropped_columns_nodup : NoDup (kd_dropped columns).
Proof using Hp. by apply diff_dropped_nodup, wf_names. Qed.

Lemma added_indexes : kd_added indexes = filter (λ i, iprev (ix_name i) = None) (tm_indexes m).
Proof using Hp Hm. by apply diff_added; apply index_names. Qed.

Lemma changed_indexes : kd_changed indexes
  = omap (λ i, match iprev (ix_name i) with None => None | Some pi => compareIndexes (ix_name i) pi i end) (tm_indexes m).
Proof using Hp Hm. by apply diff_changed; apply index_names. Qed.

Lemma dropped_indexes n : n ∈ kd_dropped indexes ↔ n ∈ ix_name <$> tm_indexes p ∧ n ∉ ix_name <$> tm_indexes m.
Proof using Hp Hm. by apply diff_dropped; apply index_names. Qed.
End in_place.

(** ** The effect of each group of statements *)

Lemma type_change_statement t n from to :
  statements (type_change_lines t n from to) = [AlterType t n to (type_using n from to)].
Proof.
  unfold type_change_lines, type_using. destruct (is_timestamptz from && bool_decide (to = "date"))%string eqn:H1.
  { apply andb_true_iff in H1 as [_ H1]. reflect_bools. by subst. }
  by destruct (bool_decide _ && _).
Qed.

Lemma set_columns_set_columns f g ts : set_columns f (set_columns g ts) = set_columns (λ cs, f (g cs)) ts.
Proof. done. Qed.

Lemma set_columns_id n c ts : ts_columns ts !! n = Some c → set_columns <[n := c]> ts = ts.
Proof. intros H. destruct ts. unfold set_columns. simpl in *. f_equal. by apply insert_id. Qed.

Lemma on_column_at n f ts c : ts_columns ts !! n = Some c → on_column n f ts = Some (set_columns <[n := f c]> ts).
Proof. intros H. unfold on_column. by rewrite H. Qed.

Lemma insert_columns_twice n c c' ts : set_columns <[n := c']> (set_columns <[n := c]> ts) = set_columns <[n := c']> ts.
Proof. unfold set_columns. simpl. by rewrite insert_insert_eq. Qed.

(** A list of statements that write one column, in terms of what they write. *)
Definition writes (ds : list Ddl) (n : string) (ts : TableState) (c c' : Column) : Prop :=
  ts_columns ts !! n = Some c → alters ds ts = Some (set_columns <[n := c']> ts).

Lemma writes_nil n ts c : writes [] n ts c c.
Proof. intros H. unfold alters. simpl. by rewrite set_columns_id. Qed.

Lemma writes_app ds es n ts c c' c'' :
  writes ds n ts c c' → (∀ ts', ts_pk ts' = ts_pk ts → ts_policies ts' = ts_policies ts → writes es n ts' c' c'') →
  writes (ds ++ es) n ts c c''.
Proof.
  intros Hd He H. rewrite alters_app, (Hd H). simpl. rewrite (He (set_columns <[n:=c']> ts)); [|done|done|simpl; apply lookup_insert_eq].
  by rewrite insert_columns_twice.
Qed.

Lemma writes_column d n ts c c' f :
  (ts_columns ts !! n = Some c → alter d ts = on_column n f ts) → f c = c' → writes [d] n ts c c'.
Proof. intros Ha <- Hc. rewrite alters_cons, (Ha Hc), (on_column_at _ _ _ _ Hc). done. Qed.

Lemma change_column t pc c ts :
  cm_identity c = cm_identity pc → (cm_name c ∈ pk_cols ts → cm_notNull c = true) →
  (cm_name c = TENANT_COLUMN → cm_pgType pc ≠ cm_pgType c → ts_policies ts = ∅) →
  default_fits pc c → type_fits pc c →
  ts_columns ts !! cm_name c = Some (column_of pc) →
  alters (statements (match compareColumns (cm_name c) pc c with Some ch => renderColumnChange t ch | None => [] end)) ts
  = Some (set_columns <[cm_name c := column_of c]> ts).
Proof.
  intros Hid Hpk Hpol Hdef Hty H.
  assert (He : statements (match compareColumns (cm_name c) pc c with Some ch => renderColumnChange t ch | None => [] end)
    = (if Bool.eqb (cm_notNull pc) (cm_notNull c) then [] else [if cm_notNull c then SetNotNull t (cm_name c) else DropNotNull t (cm_name c)])
      ++ (if bool_decide (cm_defaultSql pc = cm_defaultSql c) then []
          else [match cm_defaultSql c with Some d => SetDefault t (cm_name c) d | None => DropDefault t (cm_name c) end])
      ++ (if bool_decide (cm_pgType pc = cm_pgType c) then [] else statements (type_change_lines t (cm_name c) (cm_pgType pc) (cm_pgType c)))).
  { unfold compareColumns, fromToWhenDifferent. destruct (Bool.eqb _ _), (bool_decide (cm_defaultSql pc = _)), (bool_decide (cm_pgType pc = _));
      simpl; unfold renderColumnChange; simpl; rewrite ?statements_app; try done; by destruct (cm_notNull c). }
  rewrite He. clear He.
  cut (writes ((if Bool.eqb (cm_notNull pc) (cm_notNull c) then [] else [if cm_notNull c then SetNotNull t (cm_name c) else DropNotNull t (cm_name c)])
      ++ (if bool_decide (cm_defaultSql pc = cm_defaultSql c) then []
          else [match cm_defaultSql c with Some d => SetDefault t (cm_name c) d | None => DropDefault t (cm_name c) end])
      ++ (if bool_decide (cm_pgType pc = cm_pgType c) then [] else statements (type_change_lines t (cm_name c) (cm_pgType pc) (cm_pgType c))))
      (cm_name c) ts (column_of pc) (column_of c)); [intros W; by apply W|].
  unfold column_of. rewrite <- Hid.
  eapply (writes_app _ _ _ _ _ (mkCol (pgTypeToSqlType (cm_pgType pc)) (cm_notNull c) (cm_defaultSql pc) (cm_identity c))).
  { destruct (Bool.eqb (cm_notNull pc) (cm_notNull c)) eqn:Hn; [apply Bool.eqb_prop in Hn as ->; apply writes_nil|].
    destruct (cm_notNull c) eqn:Hc.
    - by apply (writes_column _ _ _ _ _ (λ c, mkCol (col_type c) true (col_default c) (col_identity c))).
    - apply (writes_column _ _ _ _ _ (λ c, mkCol (col_type c) false (col_default c) (col_identity c))).
      2: done. intros _. simpl. rewrite bool_decide_eq_false_2; [done|]. by intros Hin%Hpk. }
  intros ts1 Hk1 Hp1.
  eapply (writes_app _ _ _ _ _ (mkCol (pgTypeToSqlType (cm_pgType pc)) (cm_notNull c) (cm_defaultSql c) (cm_identity c))).
  { case_bool_decide as Hd; [rewrite Hd; apply writes_nil|]. specialize (Hdef Hd).
    destruct (cm_defaultSql c) as [d|].
    - apply (writes_column _ _ _ _ _ (λ c, mkCol (col_type c) (col_notNull c) (Some d) (col_identity c))); [|done].
      intros Hc. simpl. rewrite Hc. simpl. by rewrite Hdef.
    - by apply (writes_column _ _ _ _ _ (λ c, mkCol (col_type c) (col_notNull c) None (col_identity c))). }
  intros ts2 Hk2 Hp2. case_bool_decide as Ht; [rewrite Ht; apply writes_nil|].
  rewrite type_change_statement. destruct (Hty Ht) as [Hseq Hcast].
  apply (writes_column _ _ _ _ _ (λ c0, mkCol (pgTypeToSqlType (cm_pgType c)) (col_notNull c0) (col_default c0) (col_identity c0))); [|done].
  intros Hc. simpl. rewrite Hc. simpl. rewrite Hcast. simpl. rewrite orb_false_r.
  unfold policy_blocks. rewrite Hp2, Hp1, Hseq, orb_false_r. case_bool_decide as Htc; [|done].
  by rewrite bool_decide_eq_true_2 by (by apply Hpol).
Qed.

Definition del_all {V} (ns : list string) (xs : gmap string V) : gmap string V := foldl (λ acc n, delete n acc) xs ns.

Lemma lookup_del_all {V} ns (xs : gmap string V) n : del_all ns xs !! n = if decide (n ∈ ns) then None else xs !! n.
Proof.
  revert xs. induction ns as [|k ns IH]; intros xs; [by rewrite decide_False by set_solver|]. simpl. rewrite IH.
  destruct (decide (n ∈ ns)); [by rewrite decide_True by set_solver|]. destruct (decide (n = k)) as [->|Hne].
  - by rewrite lookup_delete_eq, decide_True by set_solver.
  - by rewrite lookup_delete_ne, decide_False by set_solver.
Qed.

Lemma drop_indexes t ns ts : alters (DropIndex t <$> ns) ts = Some (set_indexes (del_all ns) ts).
Proof.
  revert ts. induction ns as [|n ns IH]; intros ts; [by destruct ts|]. csimpl. rewrite alters_cons. simpl. by rewrite IH.
Qed.

Lemma drop_columns t ns : ∀ ts, NoDup ns →
  (∀ n, n ∈ ns → is_Some (ts_columns ts !! n) ∧ n ∉ pk_cols ts ∧ (n = TENANT_COLUMN → ts_policies ts = ∅)) →
  (∀ i s n, ts_indexes ts !! i = Some s → n ∈ ns → n ∉ s.1.1) →
  alters (DropColumn t <$> ns) ts = Some (set_columns (del_all ns) ts).
Proof.
  induction ns as [|n ns IH]; intros ts Hnd Hc Hi; [by destruct ts|]. apply NoDup_cons in Hnd as [Hn Hnd].
  destruct (Hc n) as ([c Hcol] & Hpk & Hpol); [by left|]. csimpl. rewrite alters_cons. simpl.
  unfold policy_blocks. rewrite Hcol, (bool_decide_eq_false_2 (n ∈ pk_cols ts)) by done.
  assert (Hb : bool_decide (n = TENANT_COLUMN) && negb (bool_decide (ts_policies ts = ∅)) = false).
  { case_bool_decide as Ht; [|done]. by rewrite bool_decide_eq_true_2 by (by apply Hpol). }
  rewrite Hb. simpl. assert (Hf : set_indexes (filter (λ e, n ∉ e.2.1.1)) (set_columns (delete n) ts) = set_columns (delete n) ts).
  { destruct ts as [cs k is_ e f ps]. unfold set_indexes, set_columns. simpl in *. f_equal. apply map_filter_id.
    intros i s Hs. simpl. apply (Hi i s); [done|by left]. }
  rewrite Hf, IH; [done|done| |].
  - intros n' Hn'. destruct (Hc n') as (Hs & Hk & Hp); [by right|]. simpl. rewrite lookup_delete_ne by (by intros ->). done.
  - intros i s n' Hs Hn'. apply (Hi i s); [done|by right].
Qed.

Lemma primary_key_change t p m ts :
  ts_pk ts = key_of (primaryKeyOf p) →
  (∀ n, n ∈ pk_columns (primaryKeyOf m) → ∃ c, ts_columns ts !! n = Some c ∧ col_notNull c = true) →
  alters (statements (renderPrimaryKeyChange t (diffPrimaryKey p m))) ts = Some (set_pk (key_of (primaryKeyOf m)) ts).
Proof.
  intros Hk Hc. unfold diffPrimaryKey, fromToWhenDifferent. case_bool_decide as Heq.
  { simpl. rewrite <- Heq, <- Hk. by destruct ts. }
  unfold renderPrimaryKeyChange. destruct (primaryKeyOf p) as [fcols fname], (primaryKeyOf m) as [tcols tname]. simpl in *.
  rewrite statements_app. unfold key_of in *. simpl in *.
  assert (Hdrop : alters (statements (if is_nil fcols then [] else [Run (DropConstraint t fname)])) ts = Some (set_pk None ts)).
  { destruct fcols as [|f fcols]; simpl.
    - unfold set_pk. rewrite <- Hk. by destruct ts.
    - rewrite alters_cons. simpl. rewrite Hk, decide_True by done. done. }
  change (Note ?x :: ?l) with ([Note x] ++ l). rewrite alters_app, Hdrop. simpl. destruct tcols as [|n tcols]; [done|]. simpl.
  rewrite alters_cons. simpl. unfold has_columns. rewrite bool_decide_eq_true_2.
  2:{ apply Forall_forall. intros n' Hn'. simpl. destruct (Hc n' Hn') as (c & -> & _). by eexists. }
  simpl. unfold alters. simpl. f_equal. unfold set_pk, set_columns. simpl. f_equal. apply require_twice.
  intros n' Hn' c Hcol. destruct (Hc n' Hn') as (c' & H' & Hnn). congruence.
Qed.

Lemma create_index t i ts : ix_needsManualWhere i = false → ts_indexes ts !! ix_name i = None →
  (∀ n, n ∈ ix_columns i → is_Some (ts_columns ts !! n)) →
  alters (statements (renderIndex t i)) ts = Some (set_indexes <[ix_name i := shape_of i]> ts).
Proof.
  intros Hm Hn Hc. unfold renderIndex. rewrite Hm. simpl. rewrite alters_cons. simpl. rewrite Hn. unfold has_columns.
  rewrite bool_decide_eq_true_2 by (apply Forall_forall; exact Hc). done.
Qed.

Lemma same_shape n pi i : compareIndexes n pi i = None → shape_of pi = shape_of i.
Proof.
  unfold compareIndexes, fromToWhenDifferent, whereSqlEqual, shape_of. destruct (bool_decide (ix_columns pi = ix_columns i)) eqn:H1; [|done].
  destruct (Bool.eqb (ix_unique pi) (ix_unique i)) eqn:H2; [|done]. apply Bool.eqb_prop in H2. reflect_bools. rewrite H1, H2. simpl.
  destruct (ix_whereSql pi) as [x|], (ix_whereSql i) as [y|]; simpl; try done. case_bool_decide as H3; [|done]. by rewrite H3.
Qed.

Lemma change_name n pi i ch : compareIndexes n pi i = Some ch → ic_name ch = n.
Proof. unfold compareIndexes. destruct (_ && _); [done|]. by intros [= <-]. Qed.

(** ** The statements of a table altered in place *)

Lemma nodup_filter_keys {A} (key : A → string) (P : A → Prop) `{!∀ a, Decision (P a)} (l : list A) :
  NoDup (key <$> l) → NoDup (key <$> filter P l).
Proof.
  induction l as [|a l IH]; [done|]. csimpl. intros [Ha Hnd]%NoDup_cons. rewrite filter_cons.
  destruct (decide (P a)); [|by apply IH]. csimpl. apply NoDup_cons. split; [|by apply IH].
  intros (b & Hb & Hin)%list_elem_of_fmap. apply list_elem_of_filter in Hin as [_ Hin]. apply Ha. rewrite Hb. by apply list_elem_of_fmap_2.
Qed.

Section alter_table.
Context (p m : EntityTableMeta).
Hypothesis (Hp : wf_meta p) (Hm : wf_meta m) (Halt : alterable p m).

Notation t := (tm_tableName p).
Notation columns := (diffByName (columnsByName p) (columnsByName m) compareColumns).
Notation indexes := (diffByName (indexesByName p) (indexesByName m) compareIndexes).
Notation prev_col n := (find (col_at n) (tm_columns p)).
Notation next_col n := (find (col_at n) (tm_columns m)).

Definition the_diff : TableDiff :=
  mkTableDiff t (kd_added columns) (kd_dropped columns) (kd_changed columns) (kd_added indexes) (kd_dropped indexes)
    (kd_changed indexes) (diffPrimaryKey p m) m.

Definition change_index (i : IndexMeta) : list Ddl :=
  match iprev p (ix_name i) with
  | None => []
  | Some pi => match compareIndexes (ix_name i) pi i with Some _ => [DropIndex t (ix_name i); CreateIndex t i] | None => [] end
  end.

Definition change_columns (c : ColumnMeta) : list Ddl :=
  match prev_col (cm_name c) with
  | None => []
  | Some pc => statements (match compareColumns (cm_name c) pc c with Some ch => renderColumnChange t ch | None => [] end)
  end.

Definition in_place : list Ddl :=
  ((λ c, AddColumn t c) <$> kd_added columns)
  ++ (tm_columns m ≫= change_columns)
  ++ statements (renderPrimaryKeyChange t (diffPrimaryKey p m))
  ++ (kd_added indexes ≫= λ i, statements (renderIndex t i))
  ++ (tm_indexes m ≫= change_index)
  ++ (DropIndex t <$> kd_dropped indexes)
  ++ (DropColumn t <$> kd_dropped columns).

Lemma statements_runs {A} (f : A → Ddl) (l : list A) : statements ((λ a, Run (f a)) <$> l) = f <$> l.
Proof. induction l as [|a l IH]; [done|]. csimpl. by rewrite IH. Qed.

Lemma list_bind_fmap_l {A B C} (g : A → B) (f : B → list C) (l : list A) : ((g <$> l) ≫= f) = (l ≫= λ a, f (g a)).
Proof. induction l as [|a l IH]; [done|]. csimpl. by rewrite IH. Qed.

Lemma fmap_bind {A B} (f : A → B) (l : list A) : f <$> l = (l ≫= λ a, [f a]).
Proof. induction l as [|a l IH]; [done|]. csimpl. by rewrite IH. Qed.

Lemma index_in i : i ∈ tm_indexes m → find (idx_at (ix_name i)) (tm_indexes m) = Some i ∧ index_ok m i.
Proof using Hm.
  intros Hi. destruct Hm as (_ & Hnd & Hok & _). split; [by apply find_elem|]. rewrite Forall_forall in Hok. by apply Hok.
Qed.

(** The lines of the generator are these statements. *)
Lemma in_place_lines : ∃ lines, renderInPlaceTableChanges the_diff = Some lines ∧ statements lines = in_place.
Proof using Hp Hm.
  assert (Hch : ∀ ch, ch ∈ kd_changed indexes → ∃ i, i ∈ tm_indexes m ∧ ic_name ch = ix_name i).
  { intros ch. rewrite changed_indexes by done. intros (i & Hi & Hc)%list_elem_of_omap. exists i. split; [done|].
    destruct (iprev p (ix_name i)) as [pi|]; [|done]. by apply change_name in Hc. }
  set (g := λ ch : IndexChange, default [] (renderChangedIndex the_diff ch)).
  unfold renderInPlaceTableChanges. rewrite (mapM_total _ g).
  2:{ intros ch Hin. subst g. simpl. destruct (Hch _ Hin) as (i & Hi & Hn). unfold renderChangedIndex. simpl. rewrite Hn.
      destruct (index_in i Hi) as [-> _]. done. }
  cbn [mbind option_bind td_changedIndexes the_diff]. eexists. split; [reflexivity|].
  assert (H2 : statements (kd_changed columns ≫= renderColumnChange t) = (tm_columns m ≫= change_columns)).
  { rewrite changed_columns, statements_bind by done. apply bind_ext_in. intros c _. unfold change_columns.
    by destruct (prev_col (cm_name c)). }
  assert (H5 : statements (concat (g <$> kd_changed indexes)) = (tm_indexes m ≫= change_index)).
  { rewrite statements_concat, changed_indexes by done. rewrite list_bind_fmap_l, bind_omap. apply bind_ext_in. intros i Hi.
    unfold change_index. destruct (iprev p (ix_name i)) as [pi|]; [|done].
    destruct (compareIndexes (ix_name i) pi i) as [ch|] eqn:Hc; [|done]. apply change_name in Hc. subst g. simpl.
    unfold renderChangedIndex. simpl. rewrite Hc. destruct (index_in i Hi) as [-> [Hman _]]. simpl. unfold renderIndex. by rewrite Hman. }
  assert (H6 : statements ((λ n, Review "-- (review) " (DropIndex t n) "") <$> kd_dropped indexes) = (DropIndex t <$> kd_dropped indexes))
    by (induction (kd_dropped indexes) as [|n l IH]; [done|]; csimpl; by rewrite IH).
  assert (H7 : statements (kd_dropped columns ≫= renderDroppedColumn t) = (DropColumn t <$> kd_dropped columns))
    by (rewrite statements_bind, fmap_bind; by apply bind_ext_in).
  unfold in_place. rewrite !statements_app. cbn [td_tableName td_changedColumns td_newIndexes td_newColumns td_droppedIndexes td_droppedColumns
    td_changedIndexes td_primaryKeyChanged the_diff]. rewrite H2, H5, H6, H7, statements_runs, statements_bind. by rewrite app_nil_r.
Qed.

Definition indexes_map (meta : EntityTableMeta) : gmap string IndexShape := indexes_of meta.

Lemma cols_at meta n : cols_map meta !! n = column_of <$> find (col_at n) (tm_columns meta).
Proof. apply lookup_pairs. Qed.

Lemma indexes_at meta n : indexes_of meta !! n = shape_of <$> find (idx_at n) (tm_indexes meta).
Proof. apply lookup_pairs. Qed.

Lemma next_column c : c ∈ tm_columns m → next_col (cm_name c) = Some c.
Proof using Hm. intros Hc. apply (find_elem cm_name); [by apply wf_names|done]. Qed.

Lemma alterable_at c : c ∈ tm_columns m →
  match prev_col (cm_name c) with
  | None => cm_identity c = false
  | Some pc => cm_identity c = cm_identity pc ∧ (cm_name c ∈ pk_columns (primaryKeyOf p) → cm_notNull c = true) ∧
               default_fits pc c ∧ type_fits pc c
  end.
Proof using Halt. intros Hc. unfold alterable in Halt. rewrite Forall_forall in Halt. by apply Halt. Qed.

Lemma pk_cols_key (k : PrimaryKey) ts n : ts_pk ts = key_of k → n ∈ pk_cols ts → n ∈ pk_columns k.
Proof. unfold pk_cols, key_of. intros ->. by destruct (pk_columns k). Qed.

(** The columns while the table is being altered. *)
Notation added_map := (list_to_map ((λ c, (cm_name c, column_of c)) <$> kd_added columns) : gmap string Column).

Lemma added_at n : added_map !! n = match next_col n with
  | Some c => if decide (prev_col n = None) then Some (column_of c) else None | None => None end.
Proof using Hp Hm.
  rewrite lookup_pairs, added_columns by done. rewrite find_filter by (by apply wf_names).
  destruct (next_col n) as [c|] eqn:Hc; [|done]. apply (find_Some cm_name) in Hc as [_ <-]. by destruct (decide _).
Qed.

Section run.
Context (ts : TableState).
Hypothesis (Hcols : ts_columns ts = cols_map p) (Hpk : ts_pk ts = key_of (primaryKeyOf p)) (Hidx : ts_indexes ts = indexes_of p)
  (Hpol : tenant_type m ≠ tenant_type p → ts_policies ts = ∅).

Lemma type_change_policies c pc : c ∈ tm_columns m → prev_col (cm_name c) = Some pc → cm_name c = TENANT_COLUMN →
  cm_pgType pc ≠ cm_pgType c → ts_policies ts = ∅.
Proof using Hm Hpol.
  intros Hc Hpc Hn Hne. apply Hpol. unfold tenant_type. rewrite <- Hn, Hpc, next_column by done. simpl. congruence.
Qed.

Lemma columns_effect : alters (((λ c, AddColumn t c) <$> kd_added columns) ++ (tm_columns m ≫= change_columns)) ts
  = Some (set_columns (λ cs, cols_map m ∪ (added_map ∪ cs)) ts).
Proof using Hp Hm Halt Hcols Hpk Hpol.
  rewrite alters_app, fmap_bind.
  rewrite (alters_columns _ cm_name column_of (λ _, None)).
  2:{ rewrite added_columns by done. by apply nodup_filter_keys, (wf_names m). }
  2:{ intros c ts' Hc Hb _ _. rewrite added_columns in Hc by done. apply list_elem_of_filter in Hc as [Hpc Hc].
      rewrite alters_cons. simpl. rewrite Hb. simpl. pose proof (alterable_at c Hc) as Ha. rewrite Hpc in Ha.
      unfold column_of. by rewrite Ha. }
  2:{ intros c Hc. rewrite added_columns in Hc by done. apply list_elem_of_filter in Hc as [Hpc Hc]. by rewrite Hcols, cols_at, Hpc. }
  simpl. rewrite (alters_columns _ cm_name column_of
    (λ c, Some (column_of (default c (prev_col (cm_name c)))))); [done|by apply (wf_names m)| |].
  - intros c ts' Hc Hb Hk Hpo. pose proof (alterable_at c Hc) as Ha. unfold change_columns.
    destruct (prev_col (cm_name c)) as [pc|] eqn:Hpc; simpl in Hb; [|unfold alters; simpl; by rewrite set_columns_id].
    destruct Ha as (Hi & Hn & Hdef & Hty). apply change_column; [done| | |done..].
    + intros Hin. apply Hn. apply (pk_cols_key _ ts'); [by rewrite Hk|done].
    + intros Htn Hne. rewrite Hpo. by eapply type_change_policies.
  - intros c Hc. simpl. rewrite lookup_union, added_at, next_column, Hcols, cols_at by done.
    by destruct (prev_col (cm_name c)).
Qed.

Lemma indexes_effect ts' : ts_indexes ts' = indexes_of p → (∀ n, n ∈ names_of m → is_Some (ts_columns ts' !! n)) →
  alters ((kd_added indexes ≫= λ i, statements (renderIndex t i)) ++ (tm_indexes m ≫= change_index) ++ (DropIndex t <$> kd_dropped indexes)) ts'
  = Some (set_indexes (λ _, indexes_of m) ts').
Proof using Hp Hm.
  intros Hi Hc. rewrite alters_app.
  assert (Hcreate : ∀ i ts1, i ∈ tm_indexes m → ts_columns ts1 = ts_columns ts' → ts_indexes ts1 !! ix_name i = None →
    alters (statements (renderIndex t i)) ts1 = Some (set_indexes <[ix_name i := shape_of i]> ts1)).
  { intros i ts1 Hin Hts Hn. destruct (index_in i Hin) as [_ [Hman Hcs]]. apply create_index; [done..|].
    intros n Hcn. rewrite Hts. apply Hc. rewrite Forall_forall in Hcs. by apply Hcs. }
  rewrite (alters_indexes _ ix_name shape_of (λ _, None)).
  2:{ rewrite added_indexes by done. by apply nodup_filter_keys, index_names. }
  2:{ intros i ts1 Hin Hb Hts. rewrite added_indexes in Hin by done. apply list_elem_of_filter in Hin as [_ Hin]. by apply Hcreate. }
  2:{ intros i Hin. rewrite added_indexes in Hin by done. apply list_elem_of_filter in Hin as [Hpi _]. rewrite Hi, indexes_at. unfold iprev in Hpi. by rewrite Hpi. }
  cbn [mbind option_bind]. rewrite alters_app. set (added := (list_to_map ((λ a, (ix_name a, shape_of a)) <$> kd_added indexes) : gmap string IndexShape)).
  assert (Hadd : ∀ n, added !! n = match find (idx_at n) (tm_indexes m) with
            | Some i => if decide (iprev p n = None) then Some (shape_of i) else None | None => None end).
  { intros n. subst added. rewrite lookup_pairs, added_indexes by done. rewrite find_filter by (by apply index_names).
    destruct (find (idx_at n) (tm_indexes m)) as [i|] eqn:Hin; [|done]. apply (find_Some ix_name) in Hin as [_ <-]. by destruct (decide _). }
  rewrite (alters_indexes _ ix_name shape_of (λ i, Some (shape_of (default i (iprev p (ix_name i)))))); [|by apply index_names| |].
  - cbn [mbind option_bind]. rewrite drop_indexes. unfold set_indexes. cbn [ts_indexes ts_columns ts_pk ts_enabled ts_forced ts_policies]. f_equal. f_equal. apply map_eq. intros n.
    rewrite lookup_del_all, !lookup_union, Hadd, Hi, !indexes_at, lookup_pairs.
    destruct (find (idx_at n) (tm_indexes m)) as [i|] eqn:Hf.
    + rewrite decide_False; [cbn [fmap option_fmap option_map]; apply union_Some_l|].
      rewrite dropped_indexes by done. intros [_ Hn]. apply Hn. apply (find_Some ix_name) in Hf as [Hf <-]. by apply list_elem_of_fmap_2.
    + destruct (decide (n ∈ kd_dropped indexes)) as [Hd|Hd]; [done|].
      rewrite dropped_indexes in Hd by done. apply (find_None ix_name) in Hf.
      assert (find (idx_at n) (tm_indexes p) = None) as ->; [|done]. apply (find_None ix_name). naive_solver.
  - intros i ts1 Hin Hb Hts. unfold change_index. destruct (iprev p (ix_name i)) as [pi|] eqn:Hpi; simpl in Hb.
    2:{ unfold alters. simpl. f_equal. destruct ts1. unfold set_indexes. simpl in *. f_equal. symmetry. by apply insert_id. }
    destruct (compareIndexes (ix_name i) pi i) as [ch|] eqn:Hcmp.
    2:{ apply same_shape in Hcmp. unfold alters. simpl. f_equal. destruct ts1. unfold set_indexes. simpl in *. f_equal. symmetry.
        apply insert_id. by rewrite Hb, Hcmp. }
    destruct (index_in i Hin) as [_ [Hman Hcs]]. pose proof (Hcreate i (set_indexes (delete (ix_name i)) ts1) Hin Hts (lookup_delete_eq _ _)) as Hr.
    unfold renderIndex in Hr. rewrite Hman in Hr. simpl in Hr. rewrite alters_cons. simpl. rewrite Hr. unfold set_indexes. simpl.
    by rewrite insert_delete_eq.
  - intros i Hin. simpl. destruct (index_in i Hin) as [Hfi _]. rewrite lookup_union, Hadd, Hfi, Hi, indexes_at.
    unfold iprev. by destruct (find (idx_at (ix_name i)) (tm_indexes p)).
Qed.

Notation columns2 := (cols_map m ∪ (added_map ∪ cols_map p)).

Lemma columns2_next c : c ∈ tm_columns m → columns2 !! cm_name c = Some (column_of c).
Proof using Hm. intros Hc. apply lookup_union_Some_l. by rewrite cols_at, next_column. Qed.

Lemma columns2_other n : n ∉ names_of m → columns2 !! n = cols_map p !! n.
Proof using Hp Hm.
  intros Hn. apply (find_None cm_name) in Hn. rewrite !lookup_union, added_at, cols_at, Hn. by destruct (cols_map p !! n).
Qed.

Lemma final_columns : del_all (kd_dropped columns) columns2 = cols_map m.
Proof using Hp Hm.
  apply map_eq. intros n. rewrite lookup_del_all. destruct (decide (n ∈ names_of m)) as [Hn|Hn].
  - rewrite decide_False by (rewrite dropped_columns by done; naive_solver).
    apply list_elem_of_fmap in Hn as (c & -> & Hc). by rewrite columns2_next, cols_at, next_column.
  - rewrite columns2_other, !cols_at by done. apply (find_None cm_name) in Hn as Hf. rewrite Hf.
    destruct (decide (n ∈ kd_dropped columns)) as [Hd|Hd]; [done|]. rewrite dropped_columns in Hd by done.
    destruct (find (col_at n) (tm_columns p)) as [c|] eqn:Hc; [|done]. exfalso. apply Hd. split; [|done].
    apply (find_Some cm_name) in Hc as [Hc <-]. by apply list_elem_of_fmap_2.
Qed.

Lemma in_place_effect : alters in_place ts
  = Some (mkTable (cols_map m) (key_of (primaryKeyOf m)) (indexes_of m) (ts_enabled ts) (ts_forced ts) (ts_policies ts)).
Proof using Hp Hm Halt Hcols Hpk Hidx Hpol.
  unfold in_place. rewrite app_assoc, alters_app, columns_effect. cbn [mbind option_bind].
  assert (Hmine : ∀ n, n ∈ names_of m → ∃ c, c ∈ tm_columns m ∧ columns2 !! n = Some (column_of c) ∧ cm_name c = n).
  { intros n (c & -> & Hc)%list_elem_of_fmap. exists c. by rewrite columns2_next. }
  assert (Hkeys : ∀ n, n ∈ pk_columns (primaryKeyOf m) → ∃ c, c ∈ tm_columns m ∧ cm_name c = n ∧ cm_notNull c = true).
  { destruct Hm as (_ & _ & _ & Hk). rewrite Forall_forall in Hk. exact Hk. }
  rewrite alters_app, (primary_key_change t p m); [|done|].
  2:{ intros n (c & Hc & <- & Hnn)%Hkeys. exists (column_of c). cbn [ts_columns set_columns set_indexes set_pk]. rewrite Hcols. by rewrite columns2_next. }
  cbn [mbind option_bind]. rewrite !(app_assoc _ _ (DropColumn t <$> kd_dropped columns)), <- !app_assoc.
  assert (Happ : ∀ (a b c d : list Ddl), a ++ b ++ c ++ d = (a ++ b ++ c) ++ d) by (intros; by rewrite <- !app_assoc).
  rewrite Happ, alters_app, indexes_effect; [|done|].
  2:{ intros n (c & Hc & Hn & _)%Hmine. cbn [ts_columns set_columns set_indexes set_pk]. rewrite Hcols, Hn. by eexists. }
  cbn [mbind option_bind]. rewrite drop_columns; [|by apply dropped_columns_nodup| |].
  - unfold set_columns, set_indexes, set_pk. cbn [ts_columns ts_indexes ts_pk ts_enabled ts_forced ts_policies].
    by rewrite Hcols, final_columns.
  - intros n [Hn Hnm]%dropped_columns; [|done..]. split_and!.
    + cbn [ts_columns set_columns set_indexes set_pk]. rewrite Hcols, columns2_other by done. rewrite cols_at. apply list_elem_of_fmap in Hn as (c & -> & Hc).
      rewrite (find_elem cm_name) by (done || by apply wf_names). by eexists.
    + intros Hk. apply (pk_cols_key (primaryKeyOf m)) in Hk; [|done]. apply Hkeys in Hk as (c & Hc & <- & _).
      apply Hnm. by apply list_elem_of_fmap_2.
    + intros ->. cbn [ts_policies set_columns set_indexes set_pk]. apply Hpol. unfold tenant_type. apply (find_None cm_name) in Hnm. rewrite Hnm. simpl.
      apply list_elem_of_fmap in Hn as (c & Hcn & Hc). rewrite Hcn, (find_elem cm_name) by (done || by apply wf_names). done.
  - intros i s n Hs [_ Hnm]%dropped_columns; [|done..]. simpl in Hs. rewrite indexes_at in Hs.
    apply fmap_Some in Hs as (idx & Hf & ->). apply (find_Some ix_name) in Hf as [Hin _].
    destruct (index_in idx Hin) as [_ [_ Hcs]]. rewrite Forall_forall in Hcs. simpl. intros Hx. by apply Hnm, Hcs.
Qed.
End run.
End alter_table.

(** ** Policies *)

Lemma drop_policies t ns ts : alters (DropPolicy t <$> ns) ts = Some (set_policies (del_all ns) ts).
Proof.
  revert ts. induction ns as [|n ns IH]; intros ts; [by destruct ts|]. csimpl. rewrite alters_cons. simpl. by rewrite IH.
Qed.

Lemma create_policies t next : ∀ ts, NoDup (pol_name <$> next) →
  alters (next ≫= λ p, [DropPolicy t (pol_name p); CreatePolicy t p]) ts = Some (set_policies (λ ps, policies_of next ∪ ps) ts).
Proof.
  induction next as [|q next IH]; intros ts Hnd.
  { destruct ts. unfold set_policies. simpl. unfold policies_of. simpl. by rewrite (left_id_L ∅ (∪)). }
  csimpl. simpl in Hnd. apply NoDup_cons in Hnd as [Hq Hnd]. rewrite alters_cons. simpl. rewrite alters_cons. simpl. rewrite lookup_delete_eq. simpl.
  rewrite IH by done. unfold set_policies. simpl. rewrite insert_delete_eq. f_equal. f_equal. unfold policies_of. simpl.
  rewrite <- insert_union_r, insert_union_l; [done|]. apply not_elem_of_list_to_map_1. by rewrite <- list_fmap_compose.
Qed.

Definition with_policies (enabled : bool) (ps : gmap string RowLevelSecurityPolicy) (ts : TableState) : TableState :=
  mkTable (ts_columns ts) (ts_pk ts) (ts_indexes ts) enabled enabled ps.

Lemma policies_at spec n : policies_of spec !! n = find (λ p, bool_decide (pol_name p = n)) spec.
Proof. unfold policies_of. rewrite lookup_pairs. by destruct (find _ spec). Qed.

Lemma enable_effect t next previous ts :
  NoDup (pol_name <$> next) →
  (∀ n, is_Some (ts_policies ts !! n) → n ∈ pol_name <$> default [] previous) →
  alters (statements (renderEnableRowLevelSecurity t next previous)) ts = Some (with_policies true (policies_of next) ts).
Proof.
  intros Hnd Hps. unfold renderEnableRowLevelSecurity. set (vanished := filter _ (default [] previous)).
  assert (Hv : statements ((λ p, Run (DropPolicy t (pol_name p))) <$> vanished) = (DropPolicy t <$> (pol_name <$> vanished)))
    by (rewrite <- list_fmap_compose; apply statements_runs).
  assert (Hc : statements (next ≫= λ p, [Run (DropPolicy t (pol_name p)); Run (CreatePolicy t p)])
               = (next ≫= λ p, [DropPolicy t (pol_name p); CreatePolicy t p])) by (rewrite statements_bind; by apply bind_ext_in).
  rewrite !statements_app, Hv, Hc, alters_app, drop_policies. cbn [mbind option_bind]. rewrite alters_app, create_policies by done.
  cbn [mbind option_bind]. unfold alters. simpl. f_equal. unfold with_policies, set_flags, set_policies. simpl. f_equal.
  apply map_eq. intros n. rewrite lookup_union, policies_at. destruct (find _ next) as [q|] eqn:Hf; [apply union_Some_l|].
  rewrite (left_id_L None (∪)), lookup_del_all. apply (find_None pol_name) in Hf. case_decide as Hin; [done|].
  destruct (ts_policies ts !! n) as [q|] eqn:Hq; [|done]. exfalso. apply Hin.
  destruct (proj1 (list_elem_of_fmap _ _ _) (Hps n (ex_intro _ q Hq))) as (p & -> & Hp). apply list_elem_of_fmap_2.
  subst vanished. by apply list_elem_of_filter.
Qed.

Lemma disable_effect t previous ts :
  (∀ n, is_Some (ts_policies ts !! n) → n ∈ pol_name <$> previous) →
  alters (statements (renderDisableRowLevelSecurity t previous)) ts = Some (with_policies false ∅ ts).
Proof.
  intros Hps. unfold renderDisableRowLevelSecurity.
  assert (Hv : statements ((λ p, Run (DropPolicy t (pol_name p))) <$> previous) = (DropPolicy t <$> (pol_name <$> previous)))
    by (rewrite <- list_fmap_compose; apply statements_runs).
  rewrite statements_app, Hv, alters_app, drop_policies. cbn [mbind option_bind]. unfold alters. simpl. f_equal.
  unfold with_policies, set_flags, set_policies. simpl. f_equal. apply map_eq. intros n. rewrite lookup_del_all, lookup_empty.
  case_decide as Hin; [done|]. destruct (ts_policies ts !! n) as [q|] eqn:Hq; [|done]. exfalso. apply Hin, Hps. by eexists.
Qed.

(** ** Creating a table *)

Lemma create_effect m : wf_meta m →
  run_local (statements (renderTableDdl m false)) None
  = Some (Some (mkTable (columns_of m) (key_of (primaryKeyOf m)) (indexes_of m) false false ∅)).
Proof.
  intros Hm. pose proof Hm as (Hc & Hnd & Hok & _). rewrite Forall_forall in Hok. unfold renderTableDdl. rewrite app_nil_r.
  change (Run ?d :: ?l) with ([Run d] ++ l). rewrite statements_app, statements_bind. cbn [statements omap list_omap statement_of app].
  rewrite run_local_cons. cbn [exec_local]. rewrite Hc. cbn [mbind option_bind].
  assert (Hman : ∀ i, i ∈ tm_indexes m → statements (renderIndex (tm_tableName m) i) = [CreateIndex (tm_tableName m) i]).
  { intros i Hi. destruct (Hok i Hi) as [Hn _]. unfold renderIndex. by rewrite Hn. }
  rewrite (bind_ext_in _ (λ i, [CreateIndex (tm_tableName m) i])) by done.
  rewrite run_alters by (rewrite <- fmap_bind; apply Forall_fmap, Forall_true; done).
  rewrite (alters_indexes _ ix_name shape_of (λ _, None)); [|done| |done].
  - cbn [fmap option_fmap option_map]. f_equal. f_equal. unfold set_indexes. cbn [ts_columns ts_pk ts_indexes ts_enabled ts_forced ts_policies].
    by rewrite (right_id_L ∅ (∪)).
  - intros i ts' Hi Hn Hcols. rewrite alters_cons. simpl in *. rewrite Hn. unfold has_columns. rewrite bool_decide_eq_true_2; [done|].
    apply Forall_forall. intros c Hcin. rewrite Hcols, wf_required, cols_at by done. destruct (Hok i Hi) as [_ Hcs].
    rewrite Forall_forall in Hcs. apply Hcs, list_elem_of_fmap in Hcin as (col & -> & Hcol).
    rewrite (find_elem cm_name) by (done || by apply wf_names). by eexists.
Qed.
End tables.
