(* ===== verification/MigrationReach.v ===== *)
(** * A generated migration reaches the declared schema

    The statements of a whole migration, table by table: the catalog of the
    previous snapshot becomes the catalog of the next one. *)

From Stdlib Require Import Ascii.
From S2P Require Import Prelude TableInfo Ownership TenantDb MigrationSchema MigrationCatalog MigrationTables.

Open Scope list_scope.

Notation table_at t := (λ m, bool_decide (tm_tableName m = t)).
Notation table_names s := (tm_tableName <$> sn_tables s).

Section reach.
Context {pg : PgTypes}.

(** ** Statements by table *)

Lemma of_table_app t a b : of_table t (a ++ b) = of_table t a ++ of_table t b.
Proof. apply filter_app. Qed.

Lemma of_table_none t ds : Forall (λ d, ddl_table d ≠ t) ds → of_table t ds = [].
Proof. induction 1; [done|]. unfold of_table. by rewrite filter_cons_False. Qed.

Lemma of_table_all t ds : Forall (λ d, ddl_table d = t) ds → of_table t ds = ds.
Proof. induction 1; [done|]. unfold of_table. rewrite filter_cons_True by done. by f_equal. Qed.

Lemma section_of (F : EntityTableMeta → list Ddl) t ms : NoDup (tm_tableName <$> ms) →
  (∀ m, m ∈ ms → Forall (λ d, ddl_table d = tm_tableName m) (F m)) →
  of_table t (ms ≫= F) = match find (table_at t) ms with Some m => F m | None => [] end.
Proof.
  induction ms as [|m ms IH]; [done|]. csimpl. intros [Hm Hnd]%NoDup_cons HF. rewrite of_table_app.
  rewrite IH by (done || intros; apply HF; by right). case_bool_decide as Ht.
  - rewrite of_table_all by (rewrite <- Ht; apply HF; by left).
    assert (find (table_at t) ms = None) as ->; [|apply app_nil_r]. apply (find_None tm_tableName). by rewrite <- Ht.
  - rewrite of_table_none; [done|]. eapply Forall_impl; [apply HF; by left|]. intros d ->. done.
Qed.

(** Statements that only drop tables. *)
Lemma drops_of t ns : of_table t (DropTable <$> ns) = DropTable <$> filter (λ n, n = t) ns.
Proof.
  induction ns as [|n ns IH]; [done|]. csimpl. rewrite filter_cons. unfold of_table in *. rewrite filter_cons. simpl.
  destruct (decide (n = t)); [csimpl; by rewrite IH|done].
Qed.

Lemma run_drops ns st : run_local (DropTable <$> ns) st = Some (match ns with [] => st | _ => None end).
Proof.
  revert st. induction ns as [|n ns IH]; intros st; [done|]. csimpl. rewrite run_local_cons. simpl. rewrite IH. by destruct ns.
Qed.

(** ** Snapshots *)

Lemma specs_at ms : ∀ acc t, NoDup (tm_tableName <$> ms) →
  assoc_get t (foldl (λ acc meta, match tenantRowLevelSecurityFor meta with
                     | Some spec => assoc_set (tm_tableName meta) spec acc
                     | None => acc
                     end) acc ms)
  = match find (table_at t) ms ≫= tenantRowLevelSecurityFor with Some spec => Some spec | None => assoc_get t acc end.
Proof.
  induction ms as [|m ms IH]; intros acc t; [done|]. csimpl. intros [Hm Hnd]%NoDup_cons. rewrite IH by done. case_bool_decide as Ht.
  - assert (find (table_at t) ms = None) as -> by (apply (find_None tm_tableName); by rewrite <- Ht). simpl.
    destruct (tenantRowLevelSecurityFor m); [|done]. rewrite Ht. apply assoc_get_set_eq.
  - destruct (find (table_at t) ms ≫= tenantRowLevelSecurityFor); [done|].
    destruct (tenantRowLevelSecurityFor m); [|done]. by rewrite assoc_get_set_ne by (by intros ->).
Qed.

Lemma tenant_spec_ok m : spec_ok m (tenantRowLevelSecurityFor m).
Proof.
  unfold tenantRowLevelSecurityFor, spec_ok. destruct (find _ _) as [c|] eqn:Hc; [|done]. split.
  - destruct (tm_systemRowsReadable m); apply (bool_decide_unpack _); vm_compute; done.
  - unfold has_tenant. apply bool_decide_eq_true_2. apply (find_Some cm_name) in Hc as [Hc <-]. by apply list_elem_of_fmap_2.
Qed.

(** Tables are described once and well, and policies are kept for tables only. *)
Definition wf_snapshot (s : Snapshot) : Prop :=
  NoDup (table_names s) ∧ Forall wf_meta (sn_tables s)
  ∧ Forall (λ m, spec_ok m (specOf (Some s) (tm_tableName m))) (sn_tables s)
  ∧ ∀ t, is_Some (specOf (Some s) t) → t ∈ table_names s.

Lemma sorted_permutation metas rls : sn_tables (snapshotFromMetas metas rls) ≡ₚ metas.
Proof. apply merge_sort_Permutation. Qed.

Lemma snapshot_spec metas rls t : NoDup (tm_tableName <$> metas) →
  specOf (Some (snapshotFromMetas metas rls)) t
  = if rls then find (table_at t) (sn_tables (snapshotFromMetas metas rls)) ≫= tenantRowLevelSecurityFor else None.
Proof.
  intros Hnd. unfold specOf, snapshotFromMetas. destruct rls; [|done]. cbn [mbind option_bind sn_rowLevelSecurity sn_tables].
  unfold rowLevelSecurityByTable. rewrite specs_at; [by destruct (find _ _ ≫= _)|]. by rewrite merge_sort_Permutation.
Qed.

Lemma snapshot_wf metas rls : NoDup (tm_tableName <$> metas) → Forall wf_meta metas → wf_snapshot (snapshotFromMetas metas rls).
Proof.
  intros Hnd Hwf. assert (Hnd' : NoDup (table_names (snapshotFromMetas metas rls))) by by rewrite sorted_permutation.
  split_and!; [done|by rewrite sorted_permutation| |].
  - apply Forall_forall. intros m Hm. rewrite snapshot_spec by done. destruct rls; [|done].
    rewrite (find_elem tm_tableName) by done. apply tenant_spec_ok.
  - intros t. rewrite snapshot_spec by done. destruct rls; [|by intros []]. destruct (find _ _) as [m|] eqn:Hm; [|by intros []].
    intros _. apply (find_Some tm_tableName) in Hm as [Hm <-]. by apply list_elem_of_fmap_2.
Qed.

(** Between two snapshots every table that is not recreated can be altered, and
    its policies change with the type of its tenant column. *)
Definition evolves (s next : Snapshot) : Prop :=
  ∀ p m, p ∈ sn_tables s → m ∈ sn_tables next → tm_tableName p = tm_tableName m → recreates p m = false →
  alterable p m ∧
  (tenant_type m ≠ tenant_type p → specOf (Some s) (tm_tableName m) = specOf (Some next) (tm_tableName m) →
   specOf (Some s) (tm_tableName m) = None).

Lemma diff_is p m td : diffOneTable p m = Some td → td = the_diff p m.
Proof. unfold diffOneTable. destruct (hasNoTableChanges _); [done|]. by intros [= <-]. Qed.

Lemma no_diff p m : wf_meta p → wf_meta m → diffOneTable p m = None → in_place p m = [].
Proof.
  intros Hp Hm H. destruct (in_place_lines p m Hp Hm) as (lines & Hl & <-). revert Hl.
  unfold diffOneTable in H. fold (the_diff p m) in H. destruct (hasNoTableChanges (the_diff p m)) eqn:Hno; [|done]. clear H.
  unfold hasNoTableChanges in Hno. reflect_bools. unfold renderInPlaceTableChanges.
  destruct (td_primaryKeyChanged _), (td_newColumns _), (td_droppedColumns _), (td_changedColumns _), (td_newIndexes _),
    (td_droppedIndexes _), (td_changedIndexes _); try done. by intros [= <-].
Qed.

(** ** Statements stay on their table *)

Section on_table.
#[local] Set Default Proof Using "Type".
Context (owner : string → string).

Definition on_table (t : string) (d : Ddl) : Prop := ddl_table d = t ∧ ddl_owned owner d.
Definition alters_table (t : string) (d : Ddl) : Prop := on_table t d ∧ keeps_table d.
Definition owns_indexes (m : EntityTableMeta) : Prop := Forall (λ i, owner (ix_name i) = tm_tableName m) (tm_indexes m).

Lemma alters_table_weaken t ds : Forall (alters_table t) ds → Forall (on_table t) ds ∧ Forall keeps_table ds.
Proof. intros H. split; (eapply Forall_impl; [exact H|]; by intros d []). Qed.

Lemma forall_bind {A B} (P : B → Prop) (f : A → list B) l : (∀ a, a ∈ l → Forall P (f a)) → Forall P (l ≫= f).
Proof. intros H. by apply Forall_bind, Forall_forall. Qed.

Lemma index_statements t i : owner (ix_name i) = t → Forall (alters_table t) (statements (renderIndex t i)).
Proof. intros Hi. unfold renderIndex. destruct (ix_needsManualWhere i); simpl; repeat constructor; done. Qed.

Lemma create_statements m : owns_indexes m → Forall (on_table (tm_tableName m)) (statements (renderTableDdl m false)).
Proof.
  intros Ho. unfold owns_indexes in Ho. rewrite Forall_forall in Ho. unfold renderTableDdl. rewrite app_nil_r. csimpl. constructor; [done|].
  rewrite statements_bind. apply forall_bind. intros i Hi. apply alters_table_weaken, index_statements. by apply Ho.
Qed.

Lemma column_statements t ch : Forall (alters_table t) (statements (renderColumnChange t ch)).
Proof.
  unfold renderColumnChange. rewrite !statements_app, !Forall_app. split_and!.
  - destruct (cc_nullabilityChanged ch) as [[f [|]]|]; repeat constructor.
  - destruct (cc_defaultChanged ch) as [[f [d|]]|]; repeat constructor.
  - destruct (cc_typeChanged ch) as [[f to]|]; [|by constructor]. simpl. rewrite type_change_statement.
    repeat constructor.
Qed.

Lemma key_statements t ch : Forall (alters_table t) (statements (renderPrimaryKeyChange t ch)).
Proof.
  destruct ch as [[from to]|]; [|by constructor]. unfold renderPrimaryKeyChange. destruct (is_nil _), (is_nil _); simpl; repeat constructor.
Qed.

Lemma in_place_statements p m : wf_meta p → wf_meta m → tm_tableName p = tm_tableName m → owns_indexes p → owns_indexes m →
  Forall (alters_table (tm_tableName m)) (in_place p m).
Proof.
  intros Hp Hm Hn Hop Hom. unfold owns_indexes in *. rewrite Forall_forall in Hop, Hom. unfold in_place. rewrite Hn, !Forall_app. split_and!.
  - apply Forall_fmap, Forall_forall. by repeat constructor.
  - apply forall_bind. intros c _. unfold change_columns. rewrite Hn. destruct (find _ _); [|by constructor].
    destruct (compareColumns _ _ _); [apply column_statements|by constructor].
  - apply key_statements.
  - apply forall_bind. intros i Hi. rewrite added_indexes in Hi by done. apply list_elem_of_filter in Hi as [_ Hi]. by apply index_statements, Hom.
  - apply forall_bind. intros i Hi. unfold change_index. rewrite Hn. destruct (iprev p _); [|by constructor].
    destruct (compareIndexes _ _ _); repeat constructor; by apply Hom.
  - apply Forall_fmap, Forall_forall. intros n [Hi _]%dropped_indexes; [|done..]. apply list_elem_of_fmap in Hi as (i & -> & Hi).
    repeat constructor. simpl. rewrite <- Hn. by apply Hop.
  - apply Forall_fmap, Forall_forall. by repeat constructor.
Qed.

Lemma policy_statements t (names : list string) : Forall (alters_table t) (DropPolicy t <$> names).
Proof. apply Forall_fmap, Forall_forall. by repeat constructor. Qed.

Lemma change_statements c : Forall (alters_table (change_table c)) (statements (renderChange c)).
Proof.
  destruct c as [t ns previous|t previous]; cbn [renderChange change_table];
    [unfold renderEnableRowLevelSecurity|change (Note ?x :: ?l) with ([Note x] ++ l); unfold renderDisableRowLevelSecurity];
    rewrite !statements_app, !Forall_app; split_and!; try (by repeat constructor).
  - rewrite statements_runs. apply Forall_fmap, Forall_forall. by repeat constructor.
  - rewrite statements_bind. apply forall_bind. by repeat constructor.
  - rewrite statements_runs. apply Forall_fmap, Forall_forall. by repeat constructor.
Qed.
End on_table.

(** Tables created with their policies, as tests and setup do. *)
Lemma create_with_policies m : wf_meta m →
  run_local (statements (renderTableDdl m true)) None = Some (Some (table_state m (tenantRowLevelSecurityFor m))).
Proof.
  intros Hm. assert (He : renderTableDdl m true = renderTableDdl m false ++ renderTableRowLevelSecurityDdl m)
    by (unfold renderTableDdl; by rewrite app_nil_r).
  rewrite He, statements_app, run_local_app, create_effect by done. cbn [mbind option_bind]. unfold renderTableRowLevelSecurityDdl.
  pose proof (tenant_spec_ok m) as Hok. destruct (tenantRowLevelSecurityFor m) as [spec|]; [|done]. destruct Hok as [Hnd _].
  assert (Hen : alters (statements (renderEnableRowLevelSecurity (tm_tableName m) spec None)) (mkTable (columns_of m)
    (key_of (primaryKeyOf m)) (indexes_of m) false false ∅) = Some (table_state m (Some spec))).
  { rewrite enable_effect; [done|done|]. simpl. intros n. rewrite lookup_empty. by intros []. }
  rewrite run_alters; [by rewrite Hen|]. apply (alters_table_weaken (λ n, n) (tm_tableName m)).
  apply (change_statements _ (RlsEnable (tm_tableName m) spec None)).
Qed.

Section migration.
Context (s next : Snapshot).
Hypothesis (Hs : wf_snapshot s) (Hn : wf_snapshot next) (Hev : evolves s next).

Notation prev_of t := (find (table_at t) (sn_tables s)).
Notation diff := (diffSnapshots (Some s) next).
Notation recreatedTables := (td_tableName <$> filter (λ td, isRecreatedManagedTable td = true) (sd_changedTables diff)).
Notation changing := (tablesChangingTenantColumn (sd_changedTables diff)).

Definition was (m : EntityTableMeta) : option EntityTableMeta := prev_of (tm_tableName m).

Lemma was_some m p : was m = Some p → p ∈ sn_tables s ∧ tm_tableName p = tm_tableName m.
Proof. apply (find_Some tm_tableName). Qed.

Lemma prev_wf m p : was m = Some p → wf_meta p.
Proof using Hs. intros [Hp _]%was_some. destruct Hs as (_ & Hwf & _). rewrite Forall_forall in Hwf. by apply Hwf. Qed.

Lemma next_wf m : m ∈ sn_tables next → wf_meta m.
Proof using Hn. destruct Hn as (_ & Hwf & _). rewrite Forall_forall in Hwf. apply Hwf. Qed.

Lemma next_at_name m : m ∈ sn_tables next → find (table_at (tm_tableName m)) (sn_tables next) = Some m.
Proof using Hn. apply (find_elem tm_tableName). apply Hn. Qed.

Lemma new_tables : sd_newTables diff = filter (λ m, was m = None) (sn_tables next).
Proof using Hs Hn. apply (diff_added tm_tableName (λ _, diffOneTable)); [apply Hs|apply Hn]. Qed.

Lemma changed_tables : sd_changedTables diff
  = omap (λ m, match was m with None => None | Some p => diffOneTable p m end) (sn_tables next).
Proof using Hs Hn. apply (diff_changed tm_tableName (λ _, diffOneTable)); [apply Hs|apply Hn]. Qed.

Lemma dropped_tables t : t ∈ sd_droppedTables diff ↔ t ∈ table_names s ∧ t ∉ table_names next.
Proof using Hs Hn. apply (diff_dropped tm_tableName (λ _, diffOneTable)); [apply Hs|apply Hn]. Qed.

(** A changed table of a given name is the difference of the two tables of that name. *)
Lemma changed_table_at m td : m ∈ sn_tables next →
  td ∈ sd_changedTables diff ∧ td_tableName td = tm_tableName m ↔ ∃ p, was m = Some p ∧ diffOneTable p m = Some td.
Proof using Hs Hn.
  intros Hm. rewrite changed_tables, list_elem_of_omap. split.
  - intros [(m' & Hm' & Hd) Ht]. destruct (was m') as [p|] eqn:Hp; [|done]. pose proof (diff_is _ _ _ Hd) as ->.
    simpl in Ht. destruct (was_some _ _ Hp) as [_ Hpn]. assert (m' = m) as ->; [|by exists p].
    pose proof (next_at_name m Hm) as Ha. rewrite <- Ht, Hpn, (next_at_name m') in Ha by done. by injection Ha.
  - intros (p & Hp & Hd). split; [exists m; by rewrite Hp|]. rewrite (diff_is _ _ _ Hd). by apply was_some in Hp as [_ ?].
Qed.

Lemma recreated_at m : m ∈ sn_tables next →
  bool_decide (tm_tableName m ∈ recreatedTables) = match was m with Some p => recreates p m | None => false end.
Proof using Hs Hn.
  intros Hm. apply eq_bool_prop_intro. rewrite bool_decide_spec, list_elem_of_fmap. split.
  - intros (td & Ht & [Hr Htd]%list_elem_of_filter). destruct (proj1 (changed_table_at m td Hm)) as (p & -> & Hd); [done|].
    unfold recreates. rewrite Hd, Hr. done.
  - destruct (was m) as [p|] eqn:Hp; [|done]. unfold recreates. destruct (diffOneTable p m) as [td|] eqn:Hd; [|done]. intros Hr%Is_true_true.
    destruct (proj2 (changed_table_at m td Hm)) as [Hin Hname]; [by exists p|]. exists td. split; [done|]. by apply list_elem_of_filter.
Qed.

Lemma changing_at m p : m ∈ sn_tables next → was m = Some p → recreates p m = false → has_tenant p = true →
  tenant_type m ≠ tenant_type p → tm_tableName m ∈ changing.
Proof using Hs Hn.
  intros Hm Hp Hr Ht Htt. pose proof (prev_wf _ _ Hp) as Hwp. pose proof (next_wf _ Hm) as Hwm.
  unfold has_tenant in Ht. reflect_bools. pose proof Ht as (c & Hcn & Hc)%list_elem_of_fmap.
  assert (Hfp : find (col_at TENANT_COLUMN) (tm_columns p) = Some c) by (rewrite Hcn; apply (find_elem cm_name); [by apply wf_names|done]).
  assert (Hch : TENANT_COLUMN ∈ td_droppedColumns (the_diff p m) ∨
     existsb (λ c, bool_decide (cc_name c = TENANT_COLUMN) && negb (is_none (cc_typeChanged c))) (td_changedColumns (the_diff p m)) = true).
  { unfold tenant_type in Htt. rewrite Hfp in Htt. destruct (find (col_at TENANT_COLUMN) (tm_columns m)) as [c'|] eqn:Hfm.
    - right. simpl in Htt. apply existsb_exists. cbn [td_changedColumns the_diff]. unfold columnsByName. rewrite diff_changed by (by apply wf_names).
      assert (Hne : bool_decide (cm_pgType c = cm_pgType c') = false) by (apply bool_decide_eq_false_2; congruence).
      destruct (find_Some cm_name _ _ _ Hfm) as [Hc' Hcn'].
      assert (∃ ch, compareColumns TENANT_COLUMN c c' = Some ch ∧ cc_name ch = TENANT_COLUMN ∧ is_none (cc_typeChanged ch) = false)
        as (ch & Hcc & Hchn & Htc).
      { unfold compareColumns, fromToWhenDifferent. rewrite Hne, andb_false_r. eexists. split; [reflexivity|]. done. }
      exists ch. split; [|by rewrite Hchn, Htc]. apply list_elem_of_In, list_elem_of_omap. exists c'. split; [done|].
      by rewrite Hcn', Hfp.
    - left. cbn [td_droppedColumns the_diff]. apply dropped_columns; [done..|]. split; [done|]. by apply (find_None cm_name). }
  destruct (diffOneTable p m) as [td|] eqn:Hd.
  - destruct (proj2 (changed_table_at m td Hm)) as [Hin Hname]; [by exists p|]. rewrite <- Hname. apply list_elem_of_fmap_2, list_elem_of_filter.
    split; [|done]. unfold recreates in Hr. rewrite Hd in Hr. split; [done|]. by rewrite (diff_is _ _ _ Hd).
  - exfalso. unfold diffOneTable in Hd. fold (the_diff p m) in Hd. destruct (hasNoTableChanges (the_diff p m)) eqn:Hno; [|done].
    unfold hasNoTableChanges in Hno. reflect_bools. destruct Hch as [Hch|Hch].
    + destruct (td_droppedColumns (the_diff p m)); [by apply not_elem_of_nil in Hch|done].
    + by destruct (td_changedColumns (the_diff p m)).
Qed.

(** ** The statements of one table *)

Notation spec_next m := (specOf (Some next) (tm_tableName m)).
Notation spec_was m := (specOf (Some s) (tm_tableName m)).

Definition created (m : EntityTableMeta) : list Ddl :=
  match was m with None => statements (renderTableDdl m false) | Some _ => [] end.

Definition the_change (m : EntityTableMeta) : option RowLevelSecurityChange :=
  changeForTable (tm_tableName m) (Some s) next (bool_decide (tm_tableName m ∈ recreatedTables)).

Definition before (m : EntityTableMeta) : list Ddl :=
  match the_change m with Some c => statements (pre_drops changing c) | None => [] end.

Definition altered (m : EntityTableMeta) : list Ddl :=
  match was m with
  | None => []
  | Some p => match diffOneTable p m with Some td => statements (default [] (changed_table_lines td)) | None => [] end
  end.

Definition after (m : EntityTableMeta) : list Ddl :=
  match the_change m with Some c => statements (renderChange c) | None => [] end.

Lemma changed_lines m p td : m ∈ sn_tables next → was m = Some p → diffOneTable p m = Some td →
  ∃ lines, changed_table_lines td = Some lines ∧
    statements lines = if recreates p m then DropTable (tm_tableName m) :: statements (renderTableDdl m false) else in_place p m.
Proof using Hs Hn.
  intros Hm Hp Hd. unfold recreates. rewrite Hd. unfold changed_table_lines. destruct (isRecreatedManagedTable td).
  - eexists. split; [reflexivity|]. rewrite (diff_is _ _ _ Hd). unfold renderRecreatedTable. cbn [td_tableName td_nextMeta the_diff].
    destruct (was_some _ _ Hp) as [_ ->]. csimpl. f_equal. rewrite statements_app. by rewrite app_nil_r.
  - destruct (in_place_lines p m) as (lines & Hl & Hst); [by eapply prev_wf|by apply next_wf|].
    rewrite (diff_is _ _ _ Hd), Hl. eexists. split; [reflexivity|]. by rewrite <- Hst.
Qed.

Lemma altered_is m p : m ∈ sn_tables next → was m = Some p →
  altered m = if recreates p m then DropTable (tm_tableName m) :: statements (renderTableDdl m false) else in_place p m.
Proof using Hs Hn.
  intros Hm Hp. unfold altered. rewrite Hp. destruct (diffOneTable p m) as [td|] eqn:Hd.
  - destruct (changed_lines m p td Hm Hp Hd) as (lines & -> & Hst). exact Hst.
  - unfold recreates. rewrite Hd. symmetry. apply no_diff; [by eapply prev_wf|by apply next_wf|done].
Qed.

(** A table without policies gets those of the next snapshot. *)
Definition fresh (m : EntityTableMeta) : TableState :=
  mkTable (columns_of m) (key_of (primaryKeyOf m)) (indexes_of m) false false ∅.

Lemma next_spec_ok m : m ∈ sn_tables next → spec_ok m (spec_next m).
Proof using Hn. intros Hm. destruct Hn as (_ & _ & Hok & _). rewrite Forall_forall in Hok. by apply Hok. Qed.

Lemma fresh_policies m : m ∈ sn_tables next → the_change m = (λ ns, RlsEnable (tm_tableName m) ns None) <$> spec_next m →
  before m = [] ∧ alters (after m) (fresh m) = Some (table_state m (spec_next m)).
Proof using Hn.
  intros Hm Hc. unfold before, after. rewrite Hc. pose proof (next_spec_ok m Hm) as Hok.
  destruct (spec_next m) as [ns|]; [|done]. cbn [fmap option_fmap option_map]. split.
  - unfold pre_drops. simpl. by case_bool_decide.
  - destruct Hok as [Hnd _]. unfold renderChange. rewrite enable_effect; [done|done|]. simpl. intros n. rewrite lookup_empty. by intros [].
Qed.

Lemma change_new m : m ∈ sn_tables next → was m = None → the_change m = (λ ns, RlsEnable (tm_tableName m) ns None) <$> spec_next m.
Proof using Hs Hn.
  intros Hm Hw. unfold the_change. rewrite recreated_at, Hw by done. unfold changeForTable.
  assert (spec_was m = None) as ->; [|by destruct (spec_next m)].
  destruct (spec_was m) as [ps|] eqn:Hps; [|done]. exfalso. destruct Hs as (_ & _ & _ & Hin). apply (find_None tm_tableName) in Hw.
  apply Hw, Hin. by eexists.
Qed.

Lemma change_recreated m p : m ∈ sn_tables next → was m = Some p → recreates p m = true →
  the_change m = (λ ns, RlsEnable (tm_tableName m) ns None) <$> spec_next m.
Proof using Hs Hn.
  intros Hm Hw Hr. unfold the_change. rewrite recreated_at, Hw, Hr by done. unfold changeForTable.
  destruct (spec_next m), (spec_was m); try done. simpl. by rewrite andb_false_r.
Qed.

Lemma change_in_place m p : m ∈ sn_tables next → was m = Some p → recreates p m = false →
  the_change m = match spec_next m, spec_was m with
                 | Some ns, Some ps => if bool_decide (ps = ns) then None else Some (RlsEnable (tm_tableName m) ns (Some ps))
                 | Some ns, None => Some (RlsEnable (tm_tableName m) ns None)
                 | None, Some ps => Some (RlsDisable (tm_tableName m) ps)
                 | None, None => None
                 end.
Proof using Hs Hn.
  intros Hm Hw Hr. unfold the_change. rewrite recreated_at, Hw, Hr by done. unfold changeForTable.
  destruct (spec_next m), (spec_was m); try done. rewrite andb_true_r.
  assert (existsb (table_at (tm_tableName m)) (sn_tables s) = true) as ->; [|done].
  apply existsb_exists. destruct (was_some _ _ Hw) as [Hp Hpn]. exists p. split; [by apply list_elem_of_In|]. by apply bool_decide_eq_true_2.
Qed.

Lemma pre_drops_statements c : statements (pre_drops changing c)
  = if bool_decide (change_table c ∈ changing) then DropPolicy (change_table c) <$> (pol_name <$> default [] (change_previous c)) else [].
Proof. unfold pre_drops. case_bool_decide; [|done]. rewrite statements_runs. apply list_fmap_compose. Qed.

Lemma del_policies ps : del_all (pol_name <$> ps) (policies_of ps) = ∅.
Proof.
  apply map_eq. intros n. rewrite lookup_del_all, policies_at, lookup_empty. destruct (decide (n ∈ pol_name <$> ps)) as [|Hx]; [done|].
  by apply (find_None pol_name).
Qed.

(** Before the table is altered its policies are kept, or all dropped; they are
    dropped when the type of the tenant column changes. *)
Lemma before_effect m p : m ∈ sn_tables next → was m = Some p → recreates p m = false →
  ∃ P, alters (before m) (table_state p (spec_was m)) = Some (set_policies (λ _, P) (table_state p (spec_was m)))
    ∧ (P = policies_of (default [] (spec_was m)) ∨ P = ∅ ∧ is_Some (the_change m))
    ∧ (tenant_type m ≠ tenant_type p → P = ∅).
Proof using Hs Hn Hev.
  intros Hm Hw Hr. destruct (was_some _ _ Hw) as [Hp Hpn]. destruct (Hev p m Hp Hm Hpn Hr) as [_ Hfollow].
  pose proof (change_in_place m p Hm Hw Hr) as Hc. unfold before.
  assert (Hkeep : ∀ spec, alters [] (table_state p spec) = Some (set_policies (λ _, policies_of (default [] spec)) (table_state p spec))) by done.
  destruct (spec_was m) as [ps|] eqn:Hps.
  2:{ exists ∅. split; [|by split; [left|]]. rewrite Hc. destruct (spec_next m); [|done].
      rewrite pre_drops_statements. simpl. by case_bool_decide. }
  assert (Hold : spec_ok p (Some ps)).
  { destruct Hs as (_ & _ & Hok & _). rewrite Forall_forall in Hok. specialize (Hok p Hp). by rewrite Hpn, Hps in Hok. }
  destruct (the_change m) as [c|] eqn:Htc.
  2:{ exists (policies_of ps). split; [done|]. split; [by left|]. intros Htt. exfalso.
      assert (spec_next m = Some ps) as Hns by (destruct (spec_next m); [case_bool_decide; [by subst|done]|done]).
      rewrite Hns in Hfollow. by specialize (Hfollow Htt eq_refl). }
  assert (change_table c = tm_tableName m ∧ change_previous c = Some ps) as [Ht Hcp].
  { destruct (spec_next m) as [ns|]; [case_bool_decide; [done|]|]; by injection Hc as ->. }
  rewrite pre_drops_statements, Ht, Hcp. case_bool_decide as Hch.
  - exists ∅. rewrite drop_policies. split; [|split; [right; split; [done|by eexists]|done]]. unfold set_policies. simpl.
    by rewrite del_policies.
  - exists (policies_of ps). split; [done|]. split; [by left|]. intros Htt. exfalso. apply Hch. eapply changing_at; [done..| |done]. apply Hold.
Qed.

Lemma after_effect m p ts : m ∈ sn_tables next → was m = Some p → recreates p m = false →
  ts_enabled ts = bool_decide (is_Some (spec_was m)) → ts_forced ts = bool_decide (is_Some (spec_was m)) →
  (ts_policies ts = policies_of (default [] (spec_was m)) ∨ ts_policies ts = ∅ ∧ is_Some (the_change m)) →
  alters (after m) ts = Some (mkTable (ts_columns ts) (ts_pk ts) (ts_indexes ts) (bool_decide (is_Some (spec_next m)))
                                (bool_decide (is_Some (spec_next m))) (policies_of (default [] (spec_next m)))).
Proof using Hs Hn.
  intros Hm Hw Hr He Hf HP. pose proof (change_in_place m p Hm Hw Hr) as Hc. unfold after. pose proof (next_spec_ok m Hm) as Hok.
  assert (Hnames : ∀ n, is_Some (ts_policies ts !! n) → n ∈ pol_name <$> default [] (spec_was m)).
  { intros n. destruct HP as [->|[-> _]]; [|rewrite lookup_empty; by intros []]. rewrite policies_at.
    intros [q (Hq & <-)%(find_Some pol_name)]. by apply list_elem_of_fmap_2. }
  assert (Hsame : the_change m = None → spec_was m = spec_next m →
    alters [] ts = Some (mkTable (ts_columns ts) (ts_pk ts) (ts_indexes ts) (bool_decide (is_Some (spec_next m)))
                                (bool_decide (is_Some (spec_next m))) (policies_of (default [] (spec_next m))))).
  { intros Htc <-. rewrite <- He at 1. rewrite <- Hf. destruct HP as [<-|[_ Hx]]; [by destruct ts|]. rewrite Htc in Hx. by destruct Hx. }
  destruct (spec_next m) as [ns|], (spec_was m) as [ps|]; [destruct (bool_decide (ps = ns)) eqn:Heq|..]; rewrite Hc.
  - reflect_bools. apply Hsame; [done|by f_equal].
  - apply enable_effect; [apply Hok|done].
  - apply enable_effect; [apply Hok|done].
  - apply disable_effect. exact Hnames.
  - by apply Hsame.
Qed.

Lemma in_place_reached m p : m ∈ sn_tables next → was m = Some p → recreates p m = false →
  alters (before m ++ in_place p m ++ after m) (table_state p (spec_was m)) = Some (table_state m (spec_next m)).
Proof using Hs Hn Hev.
  intros Hm Hw Hr. destruct (before_effect m p Hm Hw Hr) as (P & Hb & HP & Htt). destruct (was_some _ _ Hw) as [Hp Hpn].
  destruct (Hev p m Hp Hm Hpn Hr) as [Halt _]. rewrite alters_app, Hb. cbn [mbind option_bind]. rewrite alters_app.
  rewrite in_place_effect; [|by eapply prev_wf|by apply next_wf|done|exact (wf_required _ (prev_wf _ _ Hw))|done..].
  cbn [mbind option_bind]. rewrite (after_effect m p) by done. cbn [ts_columns ts_pk ts_indexes].
  unfold table_state. by rewrite (wf_required m) by (by apply next_wf).
Qed.

(** ** One table *)

Section owned.
#[local] Set Default Proof Using "Type".
Context (owner : string → string).
Hypothesis (Howner : ∀ m, m ∈ sn_tables s ∨ m ∈ sn_tables next → owns_indexes owner m).

Lemma change_table_is m c : the_change m = Some c → change_table c = tm_tableName m.
Proof.
  unfold the_change, changeForTable. intros H. destruct (specOf (Some next) _), (specOf (Some s) _).
  - destruct (_ && _) in H; [done|]. by injection H as <-.
  - by injection H as <-.
  - destruct (_ && _) in H; [|done]. by injection H as <-.
  - done.
Qed.

Lemma before_on m : Forall (alters_table owner (tm_tableName m)) (before m).
Proof.
  unfold before. destruct (the_change m) as [c|] eqn:Hc; [|by constructor]. apply change_table_is in Hc as <-.
  rewrite pre_drops_statements. case_bool_decide; [apply policy_statements|by constructor].
Qed.

Lemma after_on m : Forall (alters_table owner (tm_tableName m)) (after m).
Proof.
  unfold after. destruct (the_change m) as [c|] eqn:Hc; [|by constructor]. apply change_table_is in Hc as <-. apply change_statements.
Qed.

Lemma created_on m : m ∈ sn_tables next → Forall (on_table owner (tm_tableName m)) (created m).
Proof using Howner.
  intros Hm. unfold created. destruct (was m); [by constructor|]. apply create_statements, Howner. by right.
Qed.

Lemma altered_in_place_on m p : m ∈ sn_tables next → was m = Some p → Forall (alters_table owner (tm_tableName m)) (in_place p m).
Proof using Howner Hs Hn.
  intros Hm Hw. destruct (was_some _ _ Hw) as [Hp Hpn].
  apply in_place_statements; [by eapply prev_wf|by apply next_wf|done|apply Howner; by left|apply Howner; by right].
Qed.

Lemma altered_on m : m ∈ sn_tables next → Forall (on_table owner (tm_tableName m)) (altered m).
Proof using Howner Hs Hn.
  intros Hm. destruct (was m) as [p|] eqn:Hw; [|unfold altered; rewrite Hw; by constructor]. rewrite (altered_is m p) by done.
  destruct (recreates p m).
  - constructor; [done|]. apply create_statements, Howner. by right.
  - by apply alters_table_weaken, altered_in_place_on.
Qed.

Definition table_statements (m : EntityTableMeta) : list Ddl := created m ++ before m ++ altered m ++ after m.

Lemma catalog_at snapshot t : catalog_of snapshot !! t
  = (λ m, table_state m (specOf (Some snapshot) (tm_tableName m))) <$> find (table_at t) (sn_tables snapshot).
Proof. apply lookup_pairs. Qed.

Lemma create_reached m : m ∈ sn_tables next → the_change m = (λ ns, RlsEnable (tm_tableName m) ns None) <$> spec_next m →
  run_local (statements (renderTableDdl m false) ++ after m) None = Some (Some (table_state m (spec_next m))).
Proof using Hn owner.
  intros Hm Hc. destruct (fresh_policies m Hm Hc) as [_ Ha]. rewrite run_local_app, create_effect by (by apply next_wf).
  cbn [mbind option_bind]. rewrite run_alters by apply (alters_table_weaken owner (tm_tableName m)), after_on. fold (fresh m). by rewrite Ha.
Qed.

Lemma table_reached m : m ∈ sn_tables next →
  run_local (table_statements m) (catalog_of s !! tm_tableName m) = Some (catalog_of next !! tm_tableName m).
Proof using Hs Hn Hev Howner.
  intros Hm. rewrite !catalog_at, (next_at_name m Hm). fold (was m). unfold table_statements, created.
  destruct (was m) as [p|] eqn:Hw; cbn [fmap option_fmap option_map app].
  2:{ pose proof (change_new m Hm Hw) as Hc. destruct (fresh_policies m Hm Hc) as [-> _]. unfold altered. rewrite Hw. by apply create_reached. }
  destruct (was_some _ _ Hw) as [Hp Hpn]. rewrite (altered_is m p) by done. destruct (recreates p m) eqn:Hr.
  - pose proof (change_recreated m p Hm Hw Hr) as Hc. destruct (fresh_policies m Hm Hc) as [-> _]. simpl. rewrite run_local_cons.
    by apply create_reached.
  - rewrite Hpn, run_alters, in_place_reached; [done..|]. rewrite !Forall_app.
    split_and!; apply (alters_table_weaken owner (tm_tableName m)); [apply before_on|by apply altered_in_place_on|apply after_on].
Qed.

(** ** The lines of the migration *)

Lemma statements_titled {A} (f : list A → list Line) (title : Line) (end_ : list Line) (l : list A) (g : A → list Line) :
  statement_of title = None → statements end_ = [] → (f l = match l with [] => [] | _ => title :: (l ≫= g) ++ end_ end) →
  statements (f l) = (l ≫= λ a, statements (g a)).
Proof.
  intros Ht He ->. destruct l as [|a l]; [done|]. rewrite <- statements_bind. unfold statements at 1. csimpl. rewrite Ht.
  fold (statements ((g a ++ (l ≫= g)) ++ end_)). by rewrite statements_app, He, app_nil_r.
Qed.

Lemma all_statements name sequenceNumber generatedAt retired :
  let changes := diffRowLevelSecurity (Some s) next recreatedTables in
  ∃ lines, migration_lines name sequenceNumber generatedAt diff retired changes = Some lines ∧
    statements lines
    = (sn_tables next ≫= created) ++ (sn_tables next ≫= before) ++ (sn_tables next ≫= altered) ++ (sn_tables next ≫= after)
      ++ (DropTable <$> sd_droppedTables diff) ++ (DropTable <$> retired.*1.*1).
Proof using Hs Hn.
  intros changes. set (g := λ td, default [] (changed_table_lines td)).
  assert (Hch : ∃ lines, renderChangedTables (sd_changedTables diff) = Some lines ∧ statements lines = (sn_tables next ≫= altered)).
  { assert (HM : mapM changed_table_lines (sd_changedTables diff) = Some (g <$> sd_changedTables diff)).
    { apply mapM_total. intros td Htd. rewrite changed_tables in Htd. apply list_elem_of_omap in Htd as (m & Hm & Hd).
      destruct (was m) as [p|] eqn:Hw; [|done]. destruct (changed_lines m p td Hm Hw Hd) as (lines & Hl & _). subst g. simpl. by rewrite Hl. }
    assert (Hst : statements (concat (g <$> sd_changedTables diff)) = (sn_tables next ≫= altered)).
    { rewrite statements_concat, list_bind_fmap_l, changed_tables, bind_omap. apply bind_ext_in. intros m _. unfold altered.
      destruct (was m) as [p|]; [|done]. by destruct (diffOneTable p m). }
    unfold renderChangedTables. rewrite HM. cbn [mbind option_bind]. rewrite <- Hst.
    destruct (sd_changedTables diff); by eexists. }
  destruct Hch as (changed & Hl & Hst). unfold migration_lines. rewrite Hl. cbn [mbind option_bind]. eexists. split; [reflexivity|].
  rewrite !statements_app, Hst.
  assert (statements (if hasNoSchemaChanges diff retired changes then [Note "-- No schema changes detected."] else []) = []) as ->
    by by destruct (hasNoSchemaChanges _ _ _).
  rewrite app_nil_r. change (statements (renderMigrationHeader name sequenceNumber generatedAt)) with (@nil Ddl). rewrite app_nil_l.
  f_equal; [|f_equal; [|f_equal; f_equal; [|f_equal]]].
  - rewrite (statements_titled renderNewTables (Note "-- === New tables ===") [] _ (λ m, renderTableDdl m false ++ [Note ""])); [|done..|].
    2:{ unfold renderNewTables. destruct (sd_newTables diff); [done|]. by rewrite app_nil_r. }
    rewrite new_tables, <- omap_guard, bind_omap. apply bind_ext_in. intros m _. unfold created.
    destruct (was m); simpl; [done|]. by rewrite statements_app, app_nil_r.
  - transitivity (statements (changes ≫= pre_drops changing)).
    + unfold renderPolicyDropsBeforeTenantColumnChange. destruct (changes ≫= pre_drops changing) as [|l ls]; [done|].
      change (Note ?x :: ?l) with ([Note x] ++ l). by rewrite !statements_app, app_nil_r.
    + unfold changes, diffRowLevelSecurity. rewrite bind_omap, statements_bind. apply bind_ext_in. intros m _. unfold before, the_change.
      by destruct (changeForTable _ _ _ _).
  - rewrite (statements_titled renderRowLevelSecurityChanges (Note "-- === Row level security ===") [Note ""] _
      (λ c, Note ("-- " +:+ change_table c) :: renderChange c)); [|done..|by destruct changes].
    unfold changes, diffRowLevelSecurity. rewrite bind_omap. apply bind_ext_in. intros m _. unfold after, the_change.
    by destruct (changeForTable _ _ _ _).
  - unfold renderDroppedTables. induction (sd_droppedTables diff) as [|n ns IH]; [done|]. csimpl. f_equal. by destruct ns.
  - unfold renderRetiredDrops. induction retired as [|r rs IH]; [done|]. csimpl. f_equal. by destruct rs.
Qed.

(** ** All tables *)

Lemma catalog_owned : names_owned owner (catalog_of s).
Proof using Howner.
  intros t ts n shape. rewrite catalog_at. destruct (find _ _) as [p|] eqn:Hp; [|done]. intros [= <-]. cbn [ts_indexes table_state].
  apply (find_Some tm_tableName) in Hp as [Hp <-]. rewrite indexes_at. destruct (find _ (tm_indexes p)) as [i|] eqn:Hi; [|done]. intros _.
  apply (find_Some ix_name) in Hi as [Hi <-]. pose proof (Howner p (or_introl Hp)) as Ho. unfold owns_indexes in Ho. rewrite Forall_forall in Ho.
  by apply Ho.
Qed.

Lemma on_table_of t ds : Forall (on_table owner t) ds → Forall (λ d, ddl_table d = t) ds ∧ Forall (ddl_owned owner) ds.
Proof. intros H. split; (eapply Forall_impl; [exact H|]; by intros d []). Qed.

Lemma filter_at (t : string) ns : t ∉ ns → filter (λ n, n = t) ns = [].
Proof.
  induction ns as [|n ns IH]; [done|]. intros [Hne Hin]%not_elem_of_cons. rewrite filter_cons_False by done. by apply IH.
Qed.

Lemma catalog_reached (retired : list string) ds :
  ds = (sn_tables next ≫= created) ++ (sn_tables next ≫= before) ++ (sn_tables next ≫= altered) ++ (sn_tables next ≫= after)
       ++ (DropTable <$> sd_droppedTables diff) ++ (DropTable <$> retired) →
  Forall (λ t, t ∉ table_names next) retired →
  exec_all ds (catalog_of s) = Some (catalog_of next).
Proof using Hs Hn Hev Howner.
  intros -> Hret. rewrite Forall_forall in Hret.
  assert (Hbefore : ∀ m, Forall (on_table owner (tm_tableName m)) (before m)) by (intros m; apply alters_table_weaken, before_on).
  assert (Hafter : ∀ m, Forall (on_table owner (tm_tableName m)) (after m)) by (intros m; apply alters_table_weaken, after_on).
  assert (Hdrops : ∀ ns, Forall (ddl_owned owner) (DropTable <$> ns)) by (intros ns; apply Forall_fmap, Forall_forall; done).
  edestruct (exec_all_local owner) as (cat & Hrun & Hcat); [apply catalog_owned| | |rewrite Hrun; f_equal; apply map_eq; exact Hcat].
  - rewrite !Forall_app. split_and!; try apply Hdrops; apply forall_bind; intros m Hm; eapply on_table_of;
      [by apply created_on|apply Hbefore|by apply altered_on|apply Hafter].
  - intros t. rewrite !of_table_app, !drops_of.
    rewrite !(section_of _ t) by (apply Hn || (intros m Hm; eapply on_table_of; first [by apply created_on|apply Hbefore|by apply altered_on|apply Hafter])).
    destruct (find (table_at t) (sn_tables next)) as [m|] eqn:Hm.
    + apply (find_Some tm_tableName) in Hm as [Hm <-]. rewrite (filter_at _ (sd_droppedTables diff)), (filter_at _ retired).
      2:{ intros Hr%Hret. apply Hr. by apply list_elem_of_fmap_2. }
      2:{ rewrite dropped_tables. intros [_ Hx]. apply Hx. by apply list_elem_of_fmap_2. }
      cbn [fmap list_fmap]. rewrite !app_nil_r. by apply table_reached.
    + cbn [app]. rewrite run_local_app, run_drops. cbn [mbind option_bind]. rewrite run_drops. f_equal.
      rewrite (catalog_at next), Hm. cbn [fmap option_fmap option_map]. apply (find_None tm_tableName) in Hm.
      destruct (filter (λ n, n = t) (sd_droppedTables diff)) as [|x xs] eqn:Hd; [|by destruct (filter _ retired)].
      assert (find (table_at t) (sn_tables s) = None) as Hps.
      { apply (find_None tm_tableName). intros Hin. assert (t ∈ filter (λ n, n = t) (sd_droppedTables diff)) as Hx.
        - apply list_elem_of_filter. split; [done|]. by apply dropped_tables.
        - rewrite Hd in Hx. by apply not_elem_of_nil in Hx. }
      rewrite catalog_at, Hps. by destruct (filter _ retired).
Qed.
End owned.
End migration.

(** ** The generated migration *)

Lemma count_name_one metas n : NoDup (tm_tableName <$> metas) → (count_name n metas <= 1)%nat.
Proof.
  unfold count_name. induction metas as [|m ms IH]; [by simpl; lia|]. csimpl. intros [Hm Hnd]%NoDup_cons. rewrite filter_cons.
  destruct (decide (tm_tableName m = n)) as [<-|]; [|by apply IH]. simpl.
  assert (filter (λ m', tm_tableName m' = tm_tableName m) ms = []) as ->; [|done]. clear IH Hnd.
  induction ms as [|m' ms IH]; [done|]. csimpl in Hm. apply not_elem_of_cons in Hm as [Hne Hm].
  rewrite filter_cons_False by (by intros Heq; rewrite Heq in Hne). by apply IH.
Qed.

Lemma unique_names_accepted metas : NoDup (tm_tableName <$> metas) → assertUniqueTableNames metas = Ok ().
Proof.
  intros Hnd. unfold assertUniqueTableNames. destruct (filter _ _) as [|n ns] eqn:Hf; [done|]. exfalso.
  assert (n ∈ filter (λ n, (1 < count_name n metas)%nat) (map_of tm_tableName metas).*1) as [Hc _]%list_elem_of_filter by (rewrite Hf; by left).
  pose proof (count_name_one metas n Hnd). lia.
Qed.

(** Without a previous snapshot a migration starts from an empty catalog. *)
Definition starting (prevSnapshot : option Snapshot) : Snapshot := default (mkSnapshot [] None) prevSnapshot.

Lemma generate_from_starting findRetired generatedAt metas prev name sequenceNumber rls :
  generateMigration findRetired generatedAt metas prev name sequenceNumber rls
  = generateMigration findRetired generatedAt metas (Some (starting prev)) name sequenceNumber rls.
Proof. destruct prev as [s|]; [done|]. unfold generateMigration. destruct (valid_migration_name name); [|done]. simpl. done. Qed.

(** C13: running a generated migration, with the statements it leaves to the
    reviewer, takes the catalog the previous snapshot describes to exactly the
    catalog the declared tables describe: the generator answers, no statement is
    refused for the schema it meets, and columns, primary keys, indexes, policies
    and row-level-security flags of every table are as declared, tables no longer
    declared are gone.  It is shown for well-formed metadata whose changes the
    generator expresses and Postgres takes ([evolves]): in particular, a column
    altered in place needs an assignment cast from its old type, since the
    generator writes no USING clause but between dates and timestamps, its new
    default must suit the old type, and a default must survive the new one
    (text_to_integer_is_refused, default_before_type_is_refused).  Index names
    belong to one table each, retired tables are not declared, and what depends on
    rows or on index predicates is taken to succeed. *)
Theorem generated_migration_reaches_the_schema findRetired generatedAt metas prev name sequenceNumber rls owner :
  let next := snapshotFromMetas metas rls in
  valid_migration_name name = true → NoDup (tm_tableName <$> metas) → Forall wf_meta metas →
  wf_snapshot (starting prev) → evolves (starting prev) next →
  Forall (owns_indexes owner) (sn_tables (starting prev) ++ metas) →
  Forall (λ r, r.1.1 ∉ tm_tableName <$> metas) (findRetired next) →
  ∃ out, generateMigration findRetired generatedAt metas prev name sequenceNumber rls = Ok out
    ∧ go_snapshot out = next
    ∧ exec_all (statements (go_lines out)) (catalog_of (starting prev)) = Some (catalog_of next).
Proof.
  intros next Hname Hnd Hwf Hs Hev Hown Hret. rewrite generate_from_starting. unfold generateMigration.
  rewrite Hname, unique_names_accepted by done. simpl negb. cbn iota. cbn [result_bind]. fold next.
  assert (Hn : wf_snapshot next) by (by apply snapshot_wf).
  destruct (all_statements (starting prev) next Hs Hn name sequenceNumber generatedAt (findRetired next)) as (lines & -> & Hst).
  eexists. split; [reflexivity|]. split; [done|]. cbn [go_lines]. eapply (catalog_reached _ _ Hs Hn Hev owner _ _ _ Hst).
  Unshelve.
  - apply Forall_fmap, Forall_fmap. eapply Forall_impl; [exact Hret|]. intros r Hr. unfold compose, next. by rewrite sorted_permutation.
  - intros m. unfold next. rewrite sorted_permutation, <- elem_of_app. rewrite Forall_forall in Hown. apply Hown.
Qed.

End reach.

(** ** Examples *)

(** Of the types below: everything can be assigned to text and an integer to a
    bigint; numbers take digits for a default, and other types anything. *)
Definition is_numeric (ty : string) : bool := bool_decide (ty = "integer" ∨ ty = "bigint")%string.

#[local] Instance some_types : PgTypes := {|
  pg_assigns from to := bool_decide (from = to ∨ to = "text"%string ∨ (from = "integer" ∧ to = "bigint")%string);
  pg_converts _ _ _ := true;
  pg_accepts ty d := if is_numeric ty then all_chars (λ c, (48 <=? N_of_ascii c)%N && (N_of_ascii c <=? 57)%N) d else true;
  pg_recasts from to _ := bool_decide (to = "text"%string) || Bool.eqb (is_numeric from) (is_numeric to) |}.

Definition key_column : ColumnMeta := mkColumn "id" "uuid" true None true false.
Definition tenant_column (ty : string) : ColumnMeta := mkColumn TENANT_COLUMN ty true None false false.
Definition plain_column (n ty : string) : ColumnMeta := mkColumn n ty false None false false.

Definition users_before : EntityTableMeta :=
  mkMeta "users" [key_column; tenant_column "uuid"; plain_column "age" "integer"]
    [mkIndex "users_tenant" [TENANT_COLUMN] false None false] None false false.
Definition users_after : EntityTableMeta :=
  mkMeta "users" [key_column; tenant_column "text"; plain_column "mail" "text"]
    [mkIndex "users_tenant" [TENANT_COLUMN; "mail"%string] true None false] None false true.
Definition report (ty : string) : EntityTableMeta :=
  mkMeta "report" [key_column; tenant_column "uuid"; plain_column "total" ty] [] None true false.
Definition bare (n : string) : EntityTableMeta := mkMeta n [key_column] [] None false false.

Definition declared_before : list EntityTableMeta := [users_before; report "integer"; bare "old"].
Definition declared_after : list EntityTableMeta := [users_after; report "bigint"; bare "fresh"].

Lemma generated_migration_reaches_the_schema_witness :
  ∃ out, generateMigration (λ _, []) "2025-01-01" declared_after (Some (snapshotFromMetas declared_before true)) "change" 2 true = Ok out
    ∧ go_snapshot out = snapshotFromMetas declared_after true
    ∧ exec_all (statements (go_lines out)) (catalog_of (snapshotFromMetas declared_before true))
      = Some (catalog_of (snapshotFromMetas declared_after true)).
Proof.
  assert (Hwf : ∀ metas, bool_decide (NoDup (tm_tableName <$> metas)) = true → Forall wf_meta metas → wf_snapshot (snapshotFromMetas metas true))
    by (intros metas Hnd; apply snapshot_wf; by apply bool_decide_eq_true in Hnd).
  assert (Hkey : ∀ m, (key_column :: tail (tm_columns m) = tm_columns m) → pk_columns (primaryKeyOf m) = ["id"%string] →
    Forall (λ n, ∃ c, c ∈ tm_columns m ∧ cm_name c = n ∧ cm_notNull c = true) (pk_columns (primaryKeyOf m))).
  { intros m Hc ->. constructor; [|constructor]. exists key_column. rewrite <- Hc. split; [by left|done]. }
  assert (Hmeta : ∀ m, m ∈ declared_before ++ declared_after → wf_meta m).
  { intros m Hm. unfold declared_before, declared_after in Hm. cbn [app] in Hm. repeat (apply elem_of_cons in Hm as [->|Hm]); [..|by apply not_elem_of_nil in Hm];
      (split; [reflexivity|split; [by apply (bool_decide_unpack _)|split; [|by apply Hkey]]]);
      repeat constructor; by apply (bool_decide_unpack _). }
  apply (generated_migration_reaches_the_schema (λ _, []) "2025-01-01" declared_after (Some (snapshotFromMetas declared_before true))
    "change" 2 true (λ _, "users"%string)).
  - reflexivity.
  - by apply (bool_decide_unpack _).
  - apply Forall_forall. intros m Hm. apply Hmeta, elem_of_app. by right.
  - apply Hwf; [reflexivity|]. apply Forall_forall. intros m Hm. apply Hmeta, elem_of_app. by left.
  - intros p m Hp Hm Hn. simpl starting in Hp. rewrite sorted_permutation in Hp, Hm.
    unfold declared_before in Hp. unfold declared_after in Hm.
    repeat (apply elem_of_cons in Hp as [->|Hp]); [..|by apply not_elem_of_nil in Hp];
    repeat (apply elem_of_cons in Hm as [->|Hm]); try (by apply not_elem_of_nil in Hm); try discriminate Hn; intros Hr; try discriminate Hr.
    split; [repeat constructor; done|]. intros _ Hx. discriminate Hx.
  - simpl starting. rewrite Forall_app. split; [rewrite sorted_permutation|]; repeat constructor.
  - constructor.
Defined.

(** The statements generated between two states of one table, and their effect. *)
Definition migrated (p m : EntityTableMeta) : result GenerateError (option bool) :=
  let? out := generateMigration (λ _, []) "2025-01-01" [m] (Some (snapshotFromMetas [p] false)) "change" 2 false in
  Ok ((λ cat, bool_decide (cat = catalog_of (snapshotFromMetas [m] false)))
        <$> exec_all (statements (go_lines out)) (catalog_of (snapshotFromMetas [p] false))).

Definition counted (identity : bool) : EntityTableMeta :=
  mkMeta "counted" [key_column; mkColumn "n" "bigint" true None false identity] [] None false false.

(** A column that becomes (or stops being) an identity column is no change to
    the generator: the catalog keeps the old column. *)
Example identity_is_not_migrated : migrated (counted false) (counted true) = Ok (Some false).
Proof. vm_compute. reflexivity. Qed.

Definition keyed_by (key other : string) (other_required : bool) : EntityTableMeta :=
  mkMeta "keyed" [mkColumn key "uuid" true None true false; mkColumn other "uuid" other_required None false false] [] None false false.

(** A column that leaves the primary key and becomes nullable in one step: DROP
    NOT NULL comes before DROP CONSTRAINT, and is refused. *)
Example leaving_the_key_nullable_is_refused : migrated (keyed_by "a" "b" true) (keyed_by "b" "a" false) = Ok None.
Proof. vm_compute. reflexivity. Qed.

(** Leaving the key alone is migrated. *)
Example leaving_the_key_is_migrated : migrated (keyed_by "a" "b" true) (keyed_by "b" "a" true) = Ok (Some true).
Proof. vm_compute. reflexivity. Qed.

Definition valued (ty : string) (default : option string) : EntityTableMeta :=
  mkMeta "valued" [key_column; mkColumn "value" ty false default false false] [] None false false.

(** Postgres has no assignment cast from text to integer, whatever the rows hold,
    and the generator writes no USING clause. *)
Example text_to_integer_is_refused : migrated (valued "text" None) (valued "integer" None) = Ok None.
Proof. vm_compute. reflexivity. Qed.

(** The new default is set on the old type. *)
Example default_before_type_is_refused : migrated (valued "integer" None) (valued "text" (Some "'none'"%string)) = Ok None.
Proof. vm_compute. reflexivity. Qed.

Example integer_to_text_is_migrated : migrated (valued "integer" (Some "0"%string)) (valued "text" (Some "0"%string)) = Ok (Some true).
Proof. vm_compute. reflexivity. Qed.

(** A column cannot become a serial one. *)
Example to_serial_is_refused : migrated (bare "t") (mkMeta "t" [mkColumn "id" "serial" true None true false] [] None false false) = Ok None.
Proof. vm_compute. reflexivity. Qed.
