(* ===== verification/QueryDispatch.v ===== *)
(** * Queries and streams of the dispatcher

    [pipeline/dispatch-query.ts] and [dispatch-stream.ts] with
    [dispatch-scope.ts], [effective-system-scope.ts],
    [member-read-only-transaction.ts] and the access invalidation of
    [api/sse-broker.ts].  A query handler and a hook are any
    functions on the state of a request (the buckets of its rate limits, the
    database, the world outside); a stream handler is an async generator that is
    pulled.  What a pull that was given up still does is left out.
    Answers are JSON values. *)

From Stdlib Require Import Ascii String.
From S2P Require Import Prelude Ownership FieldAccess TenantDb RateLimit TransitionGuard Executor Gates SecretLeak.

Open Scope string_scope.
Open Scope list_scope.

Definition MemberReadTimeoutError : WriteErrorInfo := mkErrorInfo "member_read_timeout" 504 "" [].

(** ** The scope a dispatch runs in *)

Section scope.
Context (reg : GateRegistry) (is_convention has_escapeHatch entity_is_global : string → bool) (agentToolCall : bool).

(** [is_convention] and [has_escapeHatch] hold of no type without a query handler. *)
Definition isGlobalEntityReadInAgentToolCall (type : string) : bool :=
  agentToolCall && is_convention type && negb (has_escapeHatch type)
  && match gr_handlerEntity reg type with Some e => entity_is_global e | None => false end.

Definition isEffectivelySystemScoped (type : string) : bool :=
  gr_isHandlerSystemScoped reg type && negb (isGlobalEntityReadInAgentToolCall type).

Definition dispatchRowLevelSecurityScope (types : list string) (user : SessionUser) : RowLevelSecurityScope :=
  match types with
  | [] => ScopeTenant (us_tenantId user)
  | _ => if forallb isEffectivelySystemScoped types then ScopeSystem else ScopeTenant (us_tenantId user)
  end.
End scope.

(** ** Handlers *)

Record ReadState (D E : Type) := mkRead { rs_gates : GateState; rs_db : D; rs_ext : E }.
Arguments mkRead {D E}.
Arguments rs_gates {D E}.
Arguments rs_db {D E}.
Arguments rs_ext {D E}.

Record TrashScope := mkTrash { includeDeleted : bool; onlyDeleted : bool }.

Record ReadEvent := mkReadEvent { re_type : string; re_payload : Json; re_user : Principal }.

(** What the context of a handler adds to the event. *)
Record ReadView := mkView { rv_trash : TrashScope; rv_readOnly : bool; rv_scope : RowLevelSecurityScope }.

(** What a handler returns; an answered aggregate is told by its identity. *)
Record Answer := mkAnswer { an_aggregate : bool; an_value : option Json }.

Section dispatch.
#[local] Set Default Proof Using "Type".
Context {D E G : Type}.

Notation State := (ReadState D E).
Definition Eff (A : Type) : Type := State → result Thrown A * State.

Record QueryHandlerDef := mkQuery {
  qh_access : option AccessRule;
  qh_rateLimit : RateLimitDeclaration;
  qh_schema : Json → result (list FieldIssue) Json;
  qh_handler : ReadEvent → ReadView → Eff Answer }.

(** A hook gets the entity, the rows and the view. *)
Definition PostQueryHook : Type := option string → list Json → ReadView → Eff (list Json).

Inductive PullResult :=
| PullChunk (v : option Json) (g : G)
| PullDone
| PullThrew (t : Thrown).

Record StreamHandlerDef := mkStream {
  st_access : option AccessRule;
  st_rateLimit : RateLimitDeclaration;
  st_schema : Json → result (list FieldIssue) Json;
  st_handler : ReadEvent → ReadView → G;
  st_pull : G → State → PullResult * State }.

Record ReadRegistry := mkReadRegistry {
  rr_gates : GateRegistry;
  rr_query : string → option QueryHandlerDef;
  rr_stream : string → option StreamHandlerDef;
  rr_postQuery : string → list PostQueryHook;
  rr_entityPostQuery : string → list PostQueryHook;
  rr_convention : string → bool;
  rr_escapeHatch : string → bool;
  rr_entityGlobal : string → bool }.

(** [rc_sqlstate]: the SQLSTATE of a thrown value, as [PgErrors] finds it. *)
Record ReadContext := mkReadContext {
  rc_env : GateEnv;
  rc_agentToolCall : bool;
  rc_hasPool : bool;
  rc_memberReadTimeoutMs : Z;
  rc_sqlstate : Thrown → option string }.

Definition ret {A} (a : A) : Eff A := λ s, (Ok a, s).
Definition throw {A} (t : Thrown) : Eff A := λ s, (Err t, s).
Definition ebind {A B} (m : Eff A) (f : A → Eff B) : Eff B :=
  λ s, match m s with (Ok a, s') => f a s' | (Err t, s') => (Err t, s') end.

Notation "'let*' x ':=' c1 'in' c2" := (ebind c1 (λ x, c2))
  (at level 10, x pattern, c1 at level 100, c2 at level 200).

Definition throw_if (t : option Thrown) : Eff () := match t with Some t => throw t | None => ret tt end.
Definition lift {A} (r : result Thrown A) : Eff A := λ s, (r, s).

(** ** The gates of a query or a stream *)

Section gates.
Context (ctx : ReadContext) (reg : ReadRegistry) (type : string) (user : SessionUser).

Definition ensureFeatureEnabled (env : GateEnv) : option Thrown :=
  ThrewKumiko <$> checkFeatureEnabled env (rr_gates reg) type (us_tenantId user).

Definition chargeRateLimit (d : RateLimitDeclaration) : Eff () :=
  λ s, match enforceRateLimit (rc_env ctx) d type user (gr_isHandlerSystemScoped (rr_gates reg) type) None (rs_gates s) with
       | (r, gs) => (r, mkRead gs (rs_db s) (rs_ext s))
       end.

Definition read_gates (access : option AccessRule) (rateLimit : RateLimitDeclaration)
    (schema : Json → result (list FieldIssue) Json) (payload : Json) : Eff Json :=
  let* _ := throw_if (ensureFeatureEnabled (rc_env ctx)) in
  let* _ := chargeRateLimit rateLimit in
  if negb (hasAccess (us_roles user) access) then throw (ThrewKumiko (handlerAccessError user))
  else match schema payload with
       | Err issues => throw (ThrewKumiko (ValidationError issues))
       | Ok data => let* _ := throw_if (ThrewKumiko <$> tenantOverrideDenied user data) in ret data
       end.
End gates.

(** ** Answers of queries *)

Inductive Shape :=
| ShapeRows (rows : list Json)
| ShapePage (page : Row) (rows : list Json)
| ShapeSingle (row : Json)
| ShapeScalar.

Definition shape_of_answer (v : option Json) : Shape :=
  match v with
  | Some (JArr rows) => ShapeRows rows
  | Some (JObj r) => match assoc_get "rows" r with Some (JArr rows) => ShapePage r rows | _ => ShapeSingle (JObj r) end
  | _ => ShapeScalar
  end.

Fixpoint run_hooks (hooks : list PostQueryHook) (entityName : option string) (view : ReadView) (rows : list Json) : Eff (list Json) :=
  match hooks with
  | [] => ret rows
  | hook :: rest => let* rows' := hook entityName rows view in run_hooks rest entityName view rows'
  end.

Definition apply_postQuery (hooks : list PostQueryHook) (entityName : option string) (view : ReadView) (v : option Json)
    : Eff (option Json) :=
  match hooks with
  | [] => ret v
  | _ =>
      match shape_of_answer v with
      | ShapeRows rows => let* rows' := run_hooks hooks entityName view rows in ret (Some (JArr rows'))
      | ShapePage page rows =>
          let* rows' := run_hooks hooks entityName view rows in ret (Some (JObj (assoc_set "rows" (JArr rows') page)))
      | ShapeSingle row =>
          let* rows' := run_hooks hooks entityName view [row] in
          match rows' with
          | [row'] => ret (Some row')
          | _ => throw (ThrewOther "postQuery hook on single-object result must return exactly one row")
          end
      | ShapeScalar => ret v
      end
  end.

(** [Object.entries] *)
Definition row_entries (v : Json) : Row :=
  match v with
  | JStr s => imap (λ i c, (pretty i, JStr (String c ""))) (String.list_ascii_of_string s)
  | _ => entries_of v
  end.

Definition filter_row (entity : Entity) (user : SessionUser) (row : Json) : result Thrown Json :=
  match row with
  | JNull => Err (ThrewOther "cannot convert null to object")
  | _ => Ok (JObj (filterReadFields entity (row_entries row) user))
  end.

Fixpoint filter_rows (entity : Entity) (user : SessionUser) (rows : list Json) : result Thrown (list Json) :=
  match rows with
  | [] => Ok []
  | row :: rest => let? row' := filter_row entity user row in let? rest' := filter_rows entity user rest in Ok (row' :: rest')
  end.

Definition filter_answer (entity : Entity) (user : SessionUser) (v : option Json) : result Thrown (option Json) :=
  match shape_of_answer v with
  | ShapeRows rows => let? rows' := filter_rows entity user rows in Ok (Some (JArr rows'))
  | ShapePage page rows => let? rows' := filter_rows entity user rows in Ok (Some (JObj (assoc_set "rows" (JArr rows') page)))
  | ShapeSingle row => let? row' := filter_row entity user row in Ok (Some row')
  | ShapeScalar => Ok v
  end.

(** The hooks of the type, then those of its entity. *)
Definition query_hooks (reg : ReadRegistry) (type : string) : list PostQueryHook :=
  rr_postQuery reg type ++ match gr_handlerEntity (rr_gates reg) type with Some e => rr_entityPostQuery reg e | None => [] end.

Definition runQueryHandler (reg : ReadRegistry) (type : string) (h : QueryHandlerDef) (payload : Json) (view : ReadView)
    (p : Principal) : Eff (option Json) :=
  let* answer := qh_handler h (mkReadEvent type payload p) view in
  let entityName := gr_handlerEntity (rr_gates reg) type in
  let hooks := query_hooks reg type in
  let* v := (if an_aggregate answer then
               match hooks with
               | [] => ret (an_value answer)
               | _ => throw (ThrewKumiko (AccessDeniedError "field_access_denied"))
               end
             else apply_postQuery hooks entityName view (an_value answer)) in
  let* v := match entityName ≫= gr_entity (rr_gates reg) with
            | Some entity => if an_aggregate answer then ret v else lift (filter_answer entity (pr_user p) v)
            | None => ret v
            end in
  let* _ := throw_if (assertNoSecretLeak v) in
  ret v.

(** ** Reads of a resolved member *)

(** A savepoint, and a transaction: what throws is undone in the database. *)
Definition undone_on_error {Er A} (fn : State → result Er A * State) : State → result Er A * State :=
  λ s, match fn s with
       | (Ok a, s') => (Ok a, s')
       | (Err e, s') => (Err e, mkRead (rs_gates s') (rs_db s) (rs_ext s'))
       end.

Definition valid_timeout (ms : Z) : bool := (0 <? ms)%Z && (ms <=? 9007199254740991)%Z.

(** The outcome is kept aside and the savepoint always discarded. *)
Definition runInDiscardedReadOnlySavepoint {A} (timeoutMs : Z) (fn : Eff A) : Eff A :=
  λ s,
    match undone_on_error (A := Empty_set)
            (λ s, if negb (valid_timeout timeoutMs) then
                    (Err (inl (ThrewKumiko (InternalError "member read timeout must be a positive integer"))), s)
                  else match fn s with (Ok v, s') => (Err (inr v), s') | (Err t, s') => (Err (inl t), s') end) s with
    | (Err (inr v), s') => (Ok v, s')
    | (Err (inl t), s') => (Err t, s')
    | (Ok a, _) => match a with end
    end.

Definition is_access_denied (t : Thrown) : bool :=
  match t with ThrewKumiko e => bool_decide (we_code e = "access_denied") | _ => false end.

Definition runInMemberReadOnlyTransaction {A} (ctx : ReadContext) (tx : bool) (fn : Eff A) : Eff A :=
  λ s,
    let inner := runInDiscardedReadOnlySavepoint (rc_memberReadTimeoutMs ctx) fn in
    let attempt :=
      if tx then inner s
      else if rc_hasPool ctx then undone_on_error inner s
      else (Err (ThrewKumiko (InternalError "ctx.dispatch.queryAsMember requires a database connection")), s) in
    match attempt with
    | (Ok v, s') => (Ok v, s')
    | (Err t, s') =>
        (Err (if is_access_denied t then t
              else if bool_decide (rc_sqlstate ctx t = Some "25006") then ThrewKumiko memberResolutionReadOnlyDenied
              else if bool_decide (rc_sqlstate ctx t = Some "57014") then ThrewKumiko MemberReadTimeoutError
              else t), s')
    end.

(** ** A query *)

Definition flag (data : Json) (name : string) : bool := bool_decide (prop_of data name = Some (JBool true)).

(** [tx]: the caller has a transaction open. *)
Definition executeQuery (ctx : ReadContext) (reg : ReadRegistry) (type : string) (payload : Json) (p : Principal) (tx : bool)
    : Eff (option Json) :=
  match rr_query reg type with
  | None => throw (ThrewKumiko (NotFoundError "handler"))
  | Some h =>
      let* data := read_gates ctx reg type (pr_user p) (qh_access h) (qh_rateLimit h) (qh_schema h) payload in
      let trash := mkTrash (flag data "includeDeleted") (flag data "onlyDeleted") in
      if includeDeleted trash && onlyDeleted trash then
        throw (ThrewKumiko (ValidationError [mkIssue "onlyDeleted" "conflicts_with_include_deleted"]))
      else
        let scope := dispatchRowLevelSecurityScope (rr_gates reg) (rr_convention reg) (rr_escapeHatch reg) (rr_entityGlobal reg)
                       (rc_agentToolCall ctx) [type] (pr_user p) in
        if isMemberResolutionPrincipal p
        then runInMemberReadOnlyTransaction ctx tx (runQueryHandler reg type h data (mkView trash true scope) p)
        else runQueryHandler reg type h data (mkView trash false scope) p
  end.

(** ** Streams *)

Inductive AccessInvalidationScope :=
| InvalidateUser
| InvalidateAllExceptSession (keptSessionId : string)
| InvalidateSessions (sessionIds : list string)
| InvalidatePatTokens (tokenIds : list string).

Record Credential := mkCredential { cr_sid : option string; cr_patTokenId : option string }.

Definition shouldInvalidateListener (credential : Credential) (scope : AccessInvalidationScope) : bool :=
  match scope with
  | InvalidateUser => true
  | InvalidateAllExceptSession kept => negb (bool_decide (cr_sid credential = Some kept))
  | InvalidateSessions ids =>
      match cr_sid credential with
      | Some sid => bool_decide (sid ∈ ids)
      | None => match cr_patTokenId credential with None => true | Some _ => false end
      end
  | InvalidatePatTokens ids =>
      match cr_patTokenId credential with
      | Some t => bool_decide (t ∈ ids)
      | None => match cr_sid credential with None => true | Some _ => false end
      end
  end.

Definition MAX_TIMER_DELAY_MS : Z := 2 ^ 31 - 1.

(** The delay of the timer; [None] without a token. *)
Definition scheduleTokenExpiry (tokenExpiresAtSec : option Z) (now : Z) : option Z :=
  (λ exp, Z.min MAX_TIMER_DELAY_MS (Z.max 0 (exp * 1000 - now))) <$> tokenExpiresAtSec.

Inductive EndReason := Revoked | TokenExpired.

(** [Pulling]: a pull is in flight; [Checking]: it gave a chunk, whose checks are
    under way; [Yielded]: the consumer has a chunk. *)
Inductive StreamPhase :=
| Pulling
| Checking (v : option Json)
| Yielded
| Finished (outcome : option Thrown).

Record StreamRun := mkRun {
  sr_phase : StreamPhase;
  (** the promise that ends the stream: it resolves once *)
  sr_ended : option EndReason;
  sr_generator : G;
  sr_state : State;
  sr_delivered : list (option Json);
  (** calls of [iterator.return] *)
  sr_returned : nat;
  sr_subscribed : bool;
  sr_timer : bool }.

(** What happens to a stream: the access is invalidated, the timer fires, the
    pull in flight settles, the checks of a chunk end (with the features of that
    moment), the consumer asks for the next chunk, or it walks away. *)
Inductive StreamEvent :=
| EvInvalidated (scope : AccessInvalidationScope)
| EvTimer
| EvSettled
| EvChecked (env : GateEnv)
| EvNext
| EvReturn.

Definition end_error (reason : EndReason) : Thrown :=
  ThrewKumiko (match reason with TokenExpired => UnauthenticatedError | Revoked => AccessDeniedError "" end).

(** The [finally] block, and the iterator's [return]. *)
Definition finish (outcome : option Thrown) (r : StreamRun) : StreamRun :=
  mkRun (Finished outcome) (sr_ended r) (sr_generator r) (sr_state r) (sr_delivered r) (S (sr_returned r)) false false.

Definition set_ended (reason : EndReason) (r : StreamRun) : StreamRun :=
  mkRun (sr_phase r) (Some reason) (sr_generator r) (sr_state r) (sr_delivered r) (sr_returned r) (sr_subscribed r) (sr_timer r).

(** Resolving [ended] wins the race against a pull in flight. *)
Definition resolve_ended (reason : EndReason) (r : StreamRun) : StreamRun :=
  match sr_ended r, sr_phase r with
  | None, Pulling => finish (Some (end_error reason)) (set_ended reason r)
  | None, _ => set_ended reason r
  | Some _, _ => r
  end.

Section stream.
Context (reg : ReadRegistry) (type : string) (h : StreamHandlerDef) (p : Principal) (credential : Credential).

Definition with_phase (ph : StreamPhase) (g : G) (s : State) (r : StreamRun) : StreamRun :=
  mkRun ph (sr_ended r) g s (sr_delivered r) (sr_returned r) (sr_subscribed r) (sr_timer r).

Definition settle (r : StreamRun) : StreamRun :=
  match st_pull h (sr_generator r) (sr_state r) with
  | (PullDone, s') => finish None (with_phase Pulling (sr_generator r) s' r)
  | (PullThrew t, s') => finish (Some t) (with_phase Pulling (sr_generator r) s' r)
  | (PullChunk v g, s') => with_phase (Checking v) g s' r
  end.

Definition check_chunk (env : GateEnv) (v : option Json) (r : StreamRun) : StreamRun :=
  match ensureFeatureEnabled reg type (pr_user p) env with
  | Some t => finish (Some t) r
  | None =>
      match assertNoSecretLeak v with
      | Some t => finish (Some t) r
      | None => mkRun Yielded (sr_ended r) (sr_generator r) (sr_state r) (sr_delivered r ++ [v]) (sr_returned r)
                  (sr_subscribed r) (sr_timer r)
      end
  end.

Definition stream_step (r : StreamRun) (ev : StreamEvent) : StreamRun :=
  match ev, sr_phase r with
  | EvInvalidated scope, _ =>
      if sr_subscribed r && shouldInvalidateListener credential scope then resolve_ended Revoked r else r
  | EvTimer, _ => if sr_timer r then resolve_ended TokenExpired r else r
  | EvSettled, Pulling => settle r
  | EvChecked env, Checking v => check_chunk env v r
  | EvNext, Yielded =>
      match sr_ended r with
      | Some reason => finish (Some (end_error reason)) r
      | None => with_phase Pulling (sr_generator r) (sr_state r) r
      end
  | EvReturn, Yielded => finish None r
  | _, _ => r
  end.

Definition stream_run (evs : list StreamEvent) (r : StreamRun) : StreamRun := foldl stream_step r evs.
End stream.

(** [hasBroker]: an access-invalidation channel is configured. *)
Definition executeStream (ctx : ReadContext) (reg : ReadRegistry) (type : string) (payload : Json) (p : Principal)
    (hasBroker : bool) (tokenExpiresAtSec : option Z) : Eff (StreamHandlerDef * StreamRun) :=
  match rr_stream reg type with
  | None => throw (ThrewKumiko (NotFoundError "handler"))
  | Some h =>
      if isMemberResolutionPrincipal p then throw (ThrewKumiko memberResolutionReadOnlyDenied)
      else
        let* data := read_gates ctx reg type (pr_user p) (st_access h) (st_rateLimit h) (st_schema h) payload in
        let scope := dispatchRowLevelSecurityScope (rr_gates reg) (rr_convention reg) (rr_escapeHatch reg) (rr_entityGlobal reg)
                       (rc_agentToolCall ctx) [type] (pr_user p) in
        λ s, (Ok (h, mkRun Pulling None (st_handler h (mkReadEvent type data p) (mkView (mkTrash false false) false scope)) s [] 0
                       hasBroker (bool_decide (is_Some (scheduleTokenExpiry tokenExpiresAtSec 0)))), s)
  end.

(** ** Steps of a query *)

Lemma ebind_Ok {A B} (m : Eff A) (f : A → Eff B) s b s' :
  ebind m f s = (Ok b, s') ↔ ∃ a s1, m s = (Ok a, s1) ∧ f a s1 = (Ok b, s').
Proof.
  unfold ebind. destruct (m s) as [[a|t] s1] eqn:Hm; split.
  - intros H. by exists a, s1.
  - by intros (a' & s1' & [= <- <-] & H).
  - done.
  - by intros (a' & s1' & [=] & _).
Qed.

Lemma throw_if_Ok t s u s' : throw_if t s = (Ok u, s') ↔ t = None ∧ s' = s.
Proof. destruct t, u; simpl; unfold ret, throw; split; [done|by intros [? _]|by intros [= <-]|by intros [_ ->]]. Qed.

Section gate_lemmas.
Context (ctx : ReadContext) (reg : ReadRegistry) (type : string) (user : SessionUser).

Lemma charge_keeps d s r s' : chargeRateLimit ctx reg type user d s = (r, s') → rs_db s' = rs_db s ∧ rs_ext s' = rs_ext s.
Proof. unfold chargeRateLimit. destruct (enforceRateLimit _ _ _ _ _ _ _) as [q gs]. by intros [= <- <-]. Qed.

Lemma read_gates_keep access d schema payload s r s' :
  read_gates ctx reg type user access d schema payload s = (r, s') → rs_db s' = rs_db s ∧ rs_ext s' = rs_ext s.
Proof.
  unfold read_gates, ebind. destruct (ensureFeatureEnabled _ _ _ _); simpl; [by intros [= <- <-]|].
  destruct (chargeRateLimit _ _ _ _ _ s) as [[u|t] s1] eqn:Hc; apply charge_keeps in Hc; [|by intros [= <- <-]].
  destruct (hasAccess _ _); simpl; [|by intros [= <- <-]]. destruct (schema payload); simpl; [|by intros [= <- <-]].
  destruct (tenantOverrideDenied _ _); by intros [= <- <-].
Qed.

Lemma read_gates_Ok access d schema payload s data s' :
  read_gates ctx reg type user access d schema payload s = (Ok data, s') →
  checkFeatureEnabled (rc_env ctx) (rr_gates reg) type (us_tenantId user) = None ∧ hasAccess (us_roles user) access = true ∧
  schema payload = Ok data ∧ tenantOverrideDenied user data = None.
Proof.
  unfold read_gates. intros (u & s1 & [Hf ->]%throw_if_Ok & H)%ebind_Ok. apply ebind_Ok in H as (u2 & s2 & _ & H).
  unfold ensureFeatureEnabled in Hf. apply fmap_None in Hf. destruct (hasAccess _ _); simpl in H; [|done].
  destruct (schema payload) as [data'|]; [|done]. apply ebind_Ok in H as (u3 & s3 & [Ht ->]%throw_if_Ok & [= <- <-]).
  apply fmap_None in Ht. done.
Qed.
End gate_lemmas.

(** What is answered for what the handler and its hooks gave, shape by shape.  A
    record with a list under [rows] is taken for a page. *)
Definition answered_by (P : Json → Json → Prop) (given v : option Json) : Prop :=
  match given with
  | Some (JArr rows) => ∃ rows', v = Some (JArr rows') ∧ Forall2 P rows rows'
  | Some (JObj r) =>
      match assoc_get "rows" r with
      | Some (JArr rows) => ∃ rows', v = Some (JObj (assoc_set "rows" (JArr rows') r)) ∧ Forall2 P rows rows'
      | _ => ∃ row', v = Some row' ∧ P (JObj r) row'
      end
  | _ => v = given
  end.

(** Of a row, the entries of undeclared fields and of those the caller may read
    on it: write-only fields masked, embedded ones filtered themselves. *)
Definition shows_readable (entity : Entity) (user : SessionUser) (raw row : Json) : Prop :=
  ∃ visible, row = JObj visible ∧ ∀ key x, (key, x) ∈ visible ↔
    ∃ value, (key, value) ∈ row_entries raw ∧
      match assoc_get key entity with
      | None => x = value
      | Some f =>
          userCanReadFieldRow user (normalizeAccessEntry (fd_read f)) (row_entries raw) = true ∧
          x = (if is_writeOnly f then maskWriteOnlyValue (Some value)
               else match fd_kind f with FieldEmbedded schema => filter_embedded schema user value | _ => value end)
      end.

Lemma filter_row_Ok entity user row row' : filter_row entity user row = Ok row' → shows_readable entity user row row'.
Proof.
  unfold filter_row. intros H. exists (filterReadFields entity (row_entries row) user). split; [by destruct row; inversion H|].
  intros key x. unfold filterReadFields. rewrite list_elem_of_omap. split.
  - intros ([k value] & Hin & Hs). unfold shown in Hs. destruct (assoc_get k entity) as [f|] eqn:Hk.
    + destruct (userCanReadFieldRow user _ _) eqn:Hr; cbn [negb] in Hs; [|done].
      assert (k = key) as -> by (destruct (is_writeOnly f), (fd_kind f); congruence).
      exists value. split; [done|]. rewrite Hk. split; [done|]. destruct (is_writeOnly f), (fd_kind f); congruence.
    + injection Hs as -> ->. exists x. split; [done|]. by rewrite Hk.
  - intros (value & Hin & Hx). exists (key, value). split; [done|]. unfold shown.
    destruct (assoc_get key entity) as [f|]; [|by subst]. destruct Hx as [-> ->]. simpl. by destruct (is_writeOnly f), (fd_kind f).
Qed.

Lemma filter_rows_Ok entity user rows rows' : filter_rows entity user rows = Ok rows' → Forall2 (shows_readable entity user) rows rows'.
Proof.
  revert rows'. induction rows as [|row rows IH]; intros rows'; simpl; [intros [= <-]; constructor|].
  rewrite result_bind_Ok. intros (row1 & Hr & H). rewrite result_bind_Ok in H. destruct H as (rest & Hrest & [= <-]).
  constructor; [by apply filter_row_Ok|by apply IH].
Qed.

(** What a single row, a list or a page becomes. *)
Lemma filter_answer_Ok entity user v v' : filter_answer entity user v = Ok v' → answered_by (shows_readable entity user) v v'.
Proof.
  unfold filter_answer, answered_by, shape_of_answer. destruct v as [[| | | |rows|r]|]; try by intros [= <-].
  - rewrite result_bind_Ok. intros (rows' & H%filter_rows_Ok & [= <-]). by exists rows'.
  - destruct (assoc_get "rows" r) as [[| | | |rows|r']|]; rewrite result_bind_Ok;
      try (intros (row' & H%filter_row_Ok & [= <-]); by exists row').
    intros (rows' & H%filter_rows_Ok & [= <-]). by exists rows'.
Qed.

Lemma run_query_Ok reg type h data view p s v s' : runQueryHandler reg type h data view p s = (Ok v, s') →
  ∃ answer s1, qh_handler h (mkReadEvent type data p) view s = (Ok answer, s1) ∧ assertNoSecretLeak v = None ∧
    (an_aggregate answer = true → v = an_value answer) ∧
    ∀ entity, gr_handlerEntity (rr_gates reg) type ≫= gr_entity (rr_gates reg) = Some entity → an_aggregate answer = false →
      ∃ given s2, apply_postQuery (query_hooks reg type) (gr_handlerEntity (rr_gates reg) type) view (an_value answer) s1 = (Ok given, s2) ∧
        answered_by (shows_readable entity (pr_user p)) given v.
Proof.
  unfold runQueryHandler. fold (query_hooks reg type). intros (answer & s1 & Ha & H)%ebind_Ok. exists answer, s1. split; [done|].
  apply ebind_Ok in H as (v1 & s2 & Hh & H). apply ebind_Ok in H as (v2 & s3 & Hf & H).
  apply ebind_Ok in H as (u & s4 & [Hl ->]%throw_if_Ok & [= -> ->]). split; [done|]. split.
  - intros Hagg. rewrite Hagg in Hh, Hf. destruct (query_hooks reg type); [|done]. injection Hh as <- <-.
    destruct (_ ≫= _); by injection Hf.
  - intros entity He Hagg. rewrite Hagg in Hh. rewrite He, Hagg in Hf. unfold lift in Hf. injection Hf as Hf _.
    exists v1, s2. split; [exact Hh|]. by apply filter_answer_Ok in Hf.
Qed.

(** A member's read runs its function once, and drops what it did to the database. *)
Lemma discarded_savepoint {A} ms (fn : Eff A) s r s' : runInDiscardedReadOnlySavepoint ms fn s = (r, s') →
  rs_db s' = rs_db s ∧ (∀ a, r = Ok a → ∃ s1, fn s = (Ok a, s1)).
Proof.
  unfold runInDiscardedReadOnlySavepoint, undone_on_error. destruct (valid_timeout ms); simpl.
  - destruct (fn s) as [[a|t] s1] eqn:Hf; intros [= <- <-]; (split; [done|]); intros b [= <-]. by exists s1.
  - intros [= <- <-]. by split.
Qed.

Lemma member_transaction {A} ctx tx (fn : Eff A) s r s' : runInMemberReadOnlyTransaction ctx tx fn s = (r, s') →
  rs_db s' = rs_db s ∧ (∀ a, r = Ok a → ∃ s1, fn s = (Ok a, s1)).
Proof.
  unfold runInMemberReadOnlyTransaction. intros H.
  destruct (if tx then _ else _) as [q s1] eqn:Hq.
  assert (Hd : rs_db s1 = rs_db s ∧ ∀ a, q = Ok a → ∃ s1, fn s = (Ok a, s1)).
  { destruct tx; [by apply discarded_savepoint in Hq|]. destruct (rc_hasPool ctx); [|by injection Hq as <- <-].
    unfold undone_on_error in Hq. destruct (runInDiscardedReadOnlySavepoint _ fn s) as [[a|t] s2] eqn:Hr; injection Hq as <- <-;
      apply discarded_savepoint in Hr; [done|]. by split. }
  destruct q as [a|t]; injection H as <- <-; [done|]. split; [apply Hd|done].
Qed.

(** ** Streams *)

(** The chunks that pulling the generator gives, in order. *)
Inductive pulled (h : StreamHandlerDef) (g0 : G) (s0 : State) : list (option Json) → G → State → Prop :=
| pulled_none : pulled h g0 s0 [] g0 s0
| pulled_chunk l g s v g' s' : pulled h g0 s0 l g s → st_pull h g s = (PullChunk v g', s') → pulled h g0 s0 (l ++ [v]) g' s'.

Section stream_invariant.
Context (reg : ReadRegistry) (type : string) (h : StreamHandlerDef) (p : Principal) (credential : Credential).
Context (g0 : G) (s0 : State) (hasBroker hasToken : bool).

Definition is_finished (r : StreamRun) : bool := match sr_phase r with Finished _ => true | _ => false end.

(** The chunk that is being checked. *)
Definition pending (r : StreamRun) : list (option Json) := match sr_phase r with Checking v => [v] | _ => [] end.

(** How a stream may end once its access has. *)
Definition ending (reason : EndReason) (outcome : option Thrown) : Prop :=
  outcome = Some (end_error reason) ∨ outcome = None ∨ outcome = Some (ThrewKumiko FeatureDisabledError)
  ∨ ∃ v, outcome = assertNoSecretLeak v.

(** A live stream watches its access and holds its generator open; a finished one
    has let go of everything once. *)
Record run_ok (r : StreamRun) : Prop := {
  ok_chunks : ∃ l g s, pulled h g0 s0 l g s ∧ (sr_delivered r ++ pending r) `prefix_of` l ∧
    (is_finished r = false → l = sr_delivered r ++ pending r ∧ g = sr_generator r ∧ s = sr_state r);
  ok_secrets : Forall (λ v, assertNoSecretLeak v = None) (sr_delivered r);
  ok_pulling : sr_phase r = Pulling → sr_ended r = None;
  ok_live : is_finished r = false → sr_returned r = 0%nat ∧ sr_subscribed r = hasBroker ∧ sr_timer r = hasToken;
  ok_done : is_finished r = true → sr_returned r = 1%nat ∧ sr_subscribed r = false ∧ sr_timer r = false;
  ok_outcome : ∀ reason outcome, sr_ended r = Some reason → sr_phase r = Finished outcome → ending reason outcome }.

Notation step := (stream_step reg type h p credential).
Notation run := (stream_run reg type h p credential).

Lemma finish_ok outcome r : run_ok r → is_finished r = false →
  (∀ reason, sr_ended r = Some reason → ending reason outcome) → run_ok (finish outcome r).
Proof.
  intros [(l & g & s & Hc & Hpre & _) Hs _ Hl _ _] Hf Ho. destruct (Hl Hf) as (Hr & _ & _). split; simpl; try done.
  - exists l, g, s. split_and!; [done| |done]. unfold pending; simpl. rewrite app_nil_r.
    etrans; [|exact Hpre]. by apply prefix_app_r.
  - intros _. by rewrite Hr.
  - intros reason o Hreason [= <-]. by apply Ho.
Qed.

Lemma phase_live r : (∀ o, sr_phase r ≠ Finished o) ↔ is_finished r = false.
Proof. unfold is_finished. destruct (sr_phase r); split; try done. intros H. by destruct (H outcome). Qed.

Lemma set_ended_ok reason r : run_ok r → is_finished r = false → sr_phase r ≠ Pulling → run_ok (set_ended reason r).
Proof.
  intros Hr Hf Hp. pose proof (proj2 (phase_live r) Hf) as Hnf. destruct Hr as [Hc Hs Hpu Hl Hd Ho]. split; try done.
  intros reason' o _ H. by destruct (Hnf o).
Qed.

Lemma resolve_ok reason r : run_ok r → is_finished r = false → run_ok (resolve_ended reason r).
Proof.
  intros Hr Hf. unfold resolve_ended. destruct (sr_ended r) eqn:He; [done|].
  destruct (sr_phase r) as [|v| |o] eqn:Hp; [|apply set_ended_ok; try done; by rewrite Hp..|].
  - destruct Hr as [(l & g & s & Hc & Hpre & _) Hs _ Hl _ _]. destruct (Hl Hf) as (Hret & _ & _). split; simpl; try done.
    + exists l, g, s. split_and!; [done| |done]. unfold pending in *; simpl. by rewrite Hp in Hpre.
    + intros _. by rewrite Hret.
    + intros reason' o [= <-] [= <-]. by left.
  - unfold is_finished in Hf. by rewrite Hp in Hf.
Qed.

Lemma with_phase_ok ph g s r : run_ok r → is_finished r = false → sr_ended r = None → (∀ o, ph ≠ Finished o) →
  pulled h g0 s0 (sr_delivered r ++ pending (with_phase ph g s r)) g s → run_ok (with_phase ph g s r).
Proof.
  intros [Hc Hs Hpu Hl Hd Ho] Hf He Hph Hc'. split; simpl; try done.
  - eexists _, g, s. split; [exact Hc'|]. by split.
  - intros _. by apply Hl.
  - intros Hx. assert (is_finished (with_phase ph g s r) = false) by by apply phase_live. congruence.
  - intros reason o Hx. congruence.
Qed.

Lemma settle_ok r : run_ok r → sr_phase r = Pulling → run_ok (settle h r).
Proof.
  intros Hr Hp. pose proof (ok_pulling _ Hr Hp) as He. assert (Hf : is_finished r = false) by (unfold is_finished; by rewrite Hp).
  destruct (ok_chunks _ Hr) as (l & g & s & Hc & _ & Hg). destruct (Hg Hf) as (-> & -> & ->).
  unfold pending in Hc. rewrite Hp, app_nil_r in Hc.
  assert (Hfin : ∀ o s', run_ok (finish o (with_phase Pulling (sr_generator r) s' r))).
  { intros o s'. destruct Hr as [_ Hs _ Hl _ _]. destruct (Hl Hf) as (Hret & _ & _). split; simpl; try done.
    - eexists _, _, _. split; [exact Hc|]. split; [|done]. unfold pending; simpl. by rewrite app_nil_r.
    - intros _. by rewrite Hret.
    - intros reason o' Hx. congruence. }
  unfold settle. destruct (st_pull h _ _) as [[v g'| |t] s'] eqn:Hpull; [|apply Hfin..].
  apply with_phase_ok; try done. simpl. by econstructor.
Qed.

Lemma check_ok env v r : run_ok r → sr_phase r = Checking v → run_ok (check_chunk reg type p env v r).
Proof.
  intros Hr Hp. assert (Hf : is_finished r = false) by (unfold is_finished; by rewrite Hp). unfold check_chunk.
  destruct (ensureFeatureEnabled _ _ _ env) as [t|] eqn:Hen.
  { apply finish_ok; [done..|]. intros reason _. right; right; left. unfold ensureFeatureEnabled, checkFeatureEnabled in Hen.
    repeat case_match; simplify_eq/=; done. }
  destruct (assertNoSecretLeak v) as [t|] eqn:Hleak.
  { apply finish_ok; [done..|]. intros reason _. right; right; right. by exists v. }
  destruct (ok_chunks _ Hr) as (l & g & s & Hc & _ & Hg). destruct (Hg Hf) as (-> & -> & ->).
  unfold pending in Hc. rewrite Hp in Hc. destruct Hr as [_ Hs _ Hl _ _]. split; simpl; try done.
  - eexists _, _, _. split; [exact Hc|]. unfold pending; simpl. by rewrite app_nil_r.
  - apply Forall_app. split; [done|]. by constructor.
  - intros _. by apply Hl.
Qed.

Lemma step_ok r ev : run_ok r → run_ok (step r ev).
Proof.
  intros Hr. assert (Hsub : sr_subscribed r = true → is_finished r = false).
  { intros H. destruct (is_finished r) eqn:Hf; [|done]. destruct (ok_done _ Hr Hf) as (_ & ? & _). congruence. }
  assert (Htim : sr_timer r = true → is_finished r = false).
  { intros H. destruct (is_finished r) eqn:Hf; [|done]. destruct (ok_done _ Hr Hf) as (_ & _ & ?). congruence. }
  destruct ev as [scope| | |env| |]; unfold stream_step.
  - destruct (sr_subscribed r) eqn:Hs; [|done]. simpl. destruct (shouldInvalidateListener _ _); [|done]. apply resolve_ok; auto.
  - destruct (sr_timer r) eqn:Ht; [|done]. apply resolve_ok; auto.
  - destruct (sr_phase r) eqn:Hp; [|done..]. by apply settle_ok.
  - destruct (sr_phase r) eqn:Hp; [done| |done..]. by apply check_ok.
  - destruct (sr_phase r) eqn:Hp; [done|done| |done]. assert (Hf : is_finished r = false) by (unfold is_finished; by rewrite Hp).
    destruct (sr_ended r) as [reason|] eqn:He.
    + apply finish_ok; [done..|]. intros reason'. rewrite He. intros [= <-]. by left.
    + destruct (ok_chunks _ Hr) as (l & g & s & Hc & _ & Hg). destruct (Hg Hf) as (-> & -> & ->). unfold pending in Hc. rewrite Hp in Hc.
      by apply with_phase_ok.
  - destruct (sr_phase r) eqn:Hp; [done|done| |done]. apply finish_ok; [done|unfold is_finished; by rewrite Hp|]. by right; left.
Qed.

Lemma stream_run_ok evs r : run_ok r → run_ok (run evs r).
Proof. revert r. induction evs as [|ev evs IH]; intros r Hr; [done|]. by apply IH, step_ok. Qed.

(** ** After the end of the access *)

(** What has been delivered and what is about to be. *)
Definition at_hand (r : StreamRun) : list (option Json) := sr_delivered r ++ pending r.

(** A stream that has ended, or is finished, delivers at most the chunk at hand. *)
Definition over (r : StreamRun) : Prop := is_finished r = true ∨ is_Some (sr_ended r).

Lemma finish_at_hand o r : at_hand (finish o r) `prefix_of` at_hand r.
Proof. unfold at_hand, pending. simpl. rewrite app_nil_r. by apply prefix_app_r. Qed.

Lemma resolve_at_hand reason r : at_hand (resolve_ended reason r) `prefix_of` at_hand r ∧ over (resolve_ended reason r).
Proof.
  unfold resolve_ended, over. destruct (sr_ended r) eqn:He; [split; [done|right; rewrite He; by eexists]|].
  destruct (sr_phase r) eqn:Hp; [split; [|by left]|split; [|right; by eexists]..]; try done.
  exact (finish_at_hand _ (set_ended reason r)).
Qed.

Lemma step_over r ev : run_ok r → over r → at_hand (step r ev) `prefix_of` at_hand r ∧ over (step r ev).
Proof.
  intros Hr Hov. destruct ev as [scope| | |env| |]; unfold stream_step.
  - destruct (_ && _); [apply resolve_at_hand|done].
  - destruct (sr_timer r); [apply resolve_at_hand|done].
  - destruct (sr_phase r) eqn:Hp; [|done..]. pose proof (ok_pulling _ Hr Hp) as He. destruct Hov as [Hf|Hx].
    + unfold is_finished in Hf. by rewrite Hp in Hf.
    + rewrite He in Hx. by destruct Hx.
  - destruct (sr_phase r) eqn:Hp; [done| |done..]. unfold check_chunk.
    destruct (ensureFeatureEnabled _ _ _ env); [split; [apply finish_at_hand|by left]|].
    destruct (assertNoSecretLeak v); [split; [apply finish_at_hand|by left]|]. split.
    + unfold at_hand, pending. rewrite Hp. simpl. by rewrite app_nil_r.
    + destruct Hov as [Hf|Hx]; [|by right]. unfold is_finished in Hf. by rewrite Hp in Hf.
  - destruct (sr_phase r) eqn:Hp; [done|done| |done]. destruct Hov as [Hf|[reason Hx]].
    + unfold is_finished in Hf. by rewrite Hp in Hf.
    + rewrite Hx. split; [apply finish_at_hand|by left].
  - destruct (sr_phase r); [done|done| |done]. split; [apply finish_at_hand|by left].
Qed.

Lemma run_over evs r : run_ok r → over r → at_hand (run evs r) `prefix_of` at_hand r.
Proof.
  revert r. induction evs as [|ev evs IH]; intros r Hr Hov; [done|]. destruct (step_over r ev Hr Hov) as [Hd Ho].
  simpl. etrans; [apply IH; [by apply step_ok|done]|done].
Qed.

Lemma run_app e1 e2 r : run (e1 ++ e2) r = run e2 (run e1 r).
Proof. apply foldl_app. Qed.

Lemma finished_stays evs r : run_ok r → is_finished r = true → run evs r = r.
Proof.
  intros Hr Hf. induction evs as [|ev evs IH]; [done|]. simpl. destruct (ok_done _ Hr Hf) as (_ & Hs & Ht).
  assert (stream_step reg type h p credential r ev = r) as ->; [|done]. unfold is_finished in Hf. unfold stream_step.
  destruct ev; rewrite ?Hs, ?Ht; by destruct (sr_phase r).
Qed.

(** What ends a stream. *)
Definition ends_stream (ev : StreamEvent) : Prop :=
  match ev with
  | EvInvalidated scope => hasBroker = true ∧ shouldInvalidateListener credential scope = true
  | EvTimer => hasToken = true
  | _ => False
  end.

Lemma ends_at e1 ev e2 r : run_ok r → ends_stream ev →
  sr_delivered (run (e1 ++ ev :: e2) r) `prefix_of` at_hand (run e1 r) ∧
  (sr_phase (run e1 r) = Pulling → is_finished (run (e1 ++ ev :: e2) r) = true).
Proof.
  intros Hr Hev. rewrite run_app. change (run (ev :: e2) ?x) with (run e2 (step x ev)).
  pose proof (stream_run_ok e1 _ Hr) as H1. set (r1 := run e1 r) in *.
  assert (Hstep : at_hand (step r1 ev) `prefix_of` at_hand r1 ∧ over (step r1 ev) ∧
                  (sr_phase r1 = Pulling → is_finished (step r1 ev) = true)).
  { destruct (is_finished r1) eqn:Hf.
    { destruct (step_over r1 ev H1 (or_introl Hf)) as [Hd Ho]. split_and!; [done..|]. unfold is_finished in Hf. intros Hp. by rewrite Hp in Hf. }
    destruct (ok_live _ H1 Hf) as (_ & Hsub & Htim). pose proof (ok_pulling _ H1) as Hpu.
    assert (Hres : ∀ reason, sr_phase r1 = Pulling → is_finished (resolve_ended reason r1) = true)
      by (intros reason Hp; unfold resolve_ended; by rewrite (Hpu Hp), Hp).
    destruct ev as [scope| | |env| |]; try done; unfold stream_step, ends_stream in *.
    - rewrite Hsub. destruct Hev as [-> ->]. simpl. destruct (resolve_at_hand Revoked r1). by split_and!; [..|apply Hres].
    - rewrite Htim, Hev. destruct (resolve_at_hand TokenExpired r1). by split_and!; [..|apply Hres]. }
  destruct Hstep as (Hd & Ho & Hfin). split.
  - etrans; [|exact Hd]. etrans; [|apply run_over; [by apply step_ok|done]]. unfold at_hand. by apply prefix_app_r.
  - intros Hp. specialize (Hfin Hp). by rewrite finished_stays by (by try apply step_ok).
Qed.

(** A chunk that comes while the feature is off. *)
Lemma feature_off_ends e1 env e2 v r : run_ok r → sr_phase (run e1 r) = Checking v →
  checkFeatureEnabled env (rr_gates reg) type (us_tenantId (pr_user p)) ≠ None →
  is_finished (run (e1 ++ EvChecked env :: e2) r) = true ∧ sr_delivered (run (e1 ++ EvChecked env :: e2) r) = sr_delivered (run e1 r).
Proof.
  intros Hr Hp Hoff. rewrite run_app. change (run (EvChecked env :: e2) ?x) with (run e2 (step x (EvChecked env))).
  pose proof (stream_run_ok e1 _ Hr) as H1. set (r1 := run e1 r) in *.
  assert (Hstep : is_finished (step r1 (EvChecked env)) = true ∧ sr_delivered (step r1 (EvChecked env)) = sr_delivered r1).
  { unfold stream_step. rewrite Hp. unfold check_chunk, ensureFeatureEnabled. by destruct (checkFeatureEnabled env _ _ _). }
  destruct Hstep as [Hf Hd]. by rewrite finished_stays by (by try apply step_ok).
Qed.
End stream_invariant.

(** ** Properties *)

(** C25: What a query answers.  A query that answers passed every gate (feature,
    access, schema, tenant override) before its handler ran, and the gates
    touched neither the database nor the world outside.  Its answer holds no
    secret value within twelve levels of objects and arrays (the depth of the
    guard).  When the handler belongs to an entity and did not answer an
    aggregate, what the handler and the hooks gave is answered row by row: a
    list, the list under the key rows of a record, or a record without such a
    list.  Of each of these rows exactly the entries are shown whose field is
    undeclared or may be read by the caller on that very row, with its own
    values: write-only fields masked and embedded ones filtered.  A record with a
    list under rows counts as a page whatever it is: its other members are
    answered unfiltered. *)
Theorem query_shows_readable_fields_only ctx reg type payload p tx s v s' :
  executeQuery ctx reg type payload p tx s = (Ok v, s') →
  ∃ h data view answer sg s1,
    rr_query reg type = Some h ∧ qh_schema h payload = Ok data ∧
    checkFeatureEnabled (rc_env ctx) (rr_gates reg) type (us_tenantId (pr_user p)) = None ∧
    hasAccess (us_roles (pr_user p)) (qh_access h) = true ∧ tenantOverrideDenied (pr_user p) data = None ∧
    rs_db sg = rs_db s ∧ rs_ext sg = rs_ext s ∧
    qh_handler h (mkReadEvent type data p) view sg = (Ok answer, s1) ∧ rv_readOnly view = isMemberResolutionPrincipal p ∧
    (∀ x k w, v = Some x → (k <= 12)%nat → inside k x w → isSecret w = false) ∧
    (an_aggregate answer = true → v = an_value answer) ∧
    ∀ entity, gr_handlerEntity (rr_gates reg) type ≫= gr_entity (rr_gates reg) = Some entity → an_aggregate answer = false →
      ∃ given s2, apply_postQuery (query_hooks reg type) (gr_handlerEntity (rr_gates reg) type) view (an_value answer) s1 = (Ok given, s2) ∧
        answered_by (shows_readable entity (pr_user p)) given v.
Proof.
  unfold executeQuery. destruct (rr_query reg type) as [h|]; [|done]. intros (data & sg & Hg & H)%ebind_Ok.
  pose proof (read_gates_keep _ _ _ _ _ _ _ _ _ _ _ Hg) as [Hdb Hext]. apply read_gates_Ok in Hg as (Hf & Ha & Hs & Ht).
  destruct (_ && _) in H; [done|]. set (view := λ trash, mkView trash (isMemberResolutionPrincipal p)
    (dispatchRowLevelSecurityScope (rr_gates reg) (rr_convention reg) (rr_escapeHatch reg) (rr_entityGlobal reg) (rc_agentToolCall ctx) [type] (pr_user p))).
  assert (Hrun : ∃ s1, runQueryHandler reg type h data (view (mkTrash (flag data "includeDeleted") (flag data "onlyDeleted"))) p sg = (Ok v, s1)).
  { subst view. destruct (isMemberResolutionPrincipal p); [|by exists s']. apply member_transaction in H as [_ H]. by apply H. }
  destruct Hrun as (s2 & Hrun). apply run_query_Ok in Hrun as (answer & s1 & Hh & Hleak & Hagg & Hrows).
  exists h, data, (view (mkTrash (flag data "includeDeleted") (flag data "onlyDeleted"))), answer, sg, s1. split_and!; try done.
  intros x k w Hx Hk Hi. by eapply no_leak.
Qed.

(** Whatever the handler of a query or a hook does, a query of a resolved member
    leaves the database as it was, whether it answers or fails. *)
Lemma member_query_leaves_the_database ctx reg type payload p tx s r s' :
  isMemberResolutionPrincipal p = true → executeQuery ctx reg type payload p tx s = (r, s') → rs_db s' = rs_db s.
Proof.
  intros Hm. unfold executeQuery. destruct (rr_query reg type) as [h|]; [|by intros [= <- <-]]. unfold ebind.
  destruct (read_gates _ _ _ _ _ _ _ _ s) as [[data|t] sg] eqn:Hg; apply read_gates_keep in Hg as [<- _]; [|by intros [= <- <-]].
  rewrite Hm. destruct (_ && _); [by intros [= <- <-]|]. intros H. by apply member_transaction in H as [-> _].
Qed.

Lemma executeStream_Ok ctx reg type payload p hasBroker tokenExpiresAtSec s h r0 s' :
  executeStream ctx reg type payload p hasBroker tokenExpiresAtSec s = (Ok (h, r0), s') →
  (rr_stream reg type = Some h ∧ isMemberResolutionPrincipal p = false ∧
   checkFeatureEnabled (rc_env ctx) (rr_gates reg) type (us_tenantId (pr_user p)) = None ∧
   hasAccess (us_roles (pr_user p)) (st_access h) = true ∧
   ∃ data, st_schema h payload = Ok data ∧ tenantOverrideDenied (pr_user p) data = None) ∧
  run_ok h (sr_generator r0) s' hasBroker (bool_decide (is_Some tokenExpiresAtSec)) r0.
Proof.
  unfold executeStream. destruct (rr_stream reg type) as [h'|]; [|done]. destruct (isMemberResolutionPrincipal p); [done|].
  intros (data & sg & Hg & H)%ebind_Ok. injection H as -> <- <-. apply read_gates_Ok in Hg as (Hf & Ha & Hsch & Ht).
  split; [split_and!; [done..|by exists data]|]. split; simpl; try done.
  - eexists [], _, sg. split; [constructor|]. by split.
  - intros _. split_and!; [done..|]. destruct tokenExpiresAtSec; simpl; by rewrite ?bool_decide_eq_true_2 by by eexists.
Qed.

(** C26: A stream ends with the access it was opened under.  It is opened only for
    callers that pass the gates and are no resolved members.  Whatever order
    chunks, invalidations, the expiry of the token and the consumer come in: what
    is delivered are the first chunks the generator gave, in order, and none
    holds a secret value within twelve levels of objects and arrays; after an
    invalidation that concerns the credential, or the end of the token, a pull in
    flight is given up at once, and otherwise at most the chunk that was already
    pulled and is being checked is still delivered; a chunk checked while the
    feature is off is not delivered and ends the stream; a finished stream has
    closed its generator exactly once and holds neither listener nor timer.  A
    stream whose access ended finishes with 401 for the token and 403 for the
    access, unless the consumer walked away or the last chunk failed its check. *)
Theorem stream_ends_with_its_access ctx reg type payload p hasBroker tokenExpiresAtSec credential s h r0 s' :
  executeStream ctx reg type payload p hasBroker tokenExpiresAtSec s = (Ok (h, r0), s') →
  (rr_stream reg type = Some h ∧ isMemberResolutionPrincipal p = false ∧
   checkFeatureEnabled (rc_env ctx) (rr_gates reg) type (us_tenantId (pr_user p)) = None ∧
   hasAccess (us_roles (pr_user p)) (st_access h) = true ∧
   ∃ data, st_schema h payload = Ok data ∧ tenantOverrideDenied (pr_user p) data = None) ∧
  ∀ evs, let run evs := stream_run reg type h p credential evs r0 in let r := run evs in
    (∃ l g s1, pulled h (sr_generator r0) s' l g s1 ∧ sr_delivered r `prefix_of` l) ∧
    (∀ x k w, Some x ∈ sr_delivered r → (k <= 12)%nat → inside k x w → isSecret w = false) ∧
    (is_finished r = true → sr_returned r = 1%nat ∧ sr_subscribed r = false ∧ sr_timer r = false) ∧
    (∀ reason outcome, sr_ended r = Some reason → sr_phase r = Finished outcome → ending reason outcome) ∧
    (∀ e1 ev e2, evs = e1 ++ ev :: e2 →
       match ev with
       | EvInvalidated scope => hasBroker = true ∧ shouldInvalidateListener credential scope = true
       | EvTimer => is_Some tokenExpiresAtSec
       | _ => False
       end →
       sr_delivered r `prefix_of` at_hand (run e1) ∧ (sr_phase (run e1) = Pulling → is_finished r = true)) ∧
    (∀ e1 env v e2, evs = e1 ++ EvChecked env :: e2 → sr_phase (run e1) = Checking v →
       checkFeatureEnabled env (rr_gates reg) type (us_tenantId (pr_user p)) ≠ None →
       is_finished r = true ∧ sr_delivered r = sr_delivered (run e1)).
Proof.
  intros (Hgates & H0)%executeStream_Ok. split; [done|]. intros evs run r.
  assert (Hok : run_ok h (sr_generator r0) s' hasBroker (bool_decide (is_Some tokenExpiresAtSec)) r) by by apply stream_run_ok.
  split_and!.
  - destruct (ok_chunks _ _ _ _ _ _ Hok) as (l & g & s1 & Hc & Hp & _). exists l, g, s1. split; [done|].
    etrans; [|exact Hp]. by apply prefix_app_r.
  - intros x k w Hx Hk Hi. eapply no_leak; [|done|exact Hk|exact Hi].
    pose proof (ok_secrets _ _ _ _ _ _ Hok) as Hs. rewrite Forall_forall in Hs. by apply Hs.
  - apply (ok_done _ _ _ _ _ _ Hok).
  - apply (ok_outcome _ _ _ _ _ _ Hok).
  - intros e1 ev e2 -> Hev. eapply ends_at; [exact H0|]. destruct ev; try done. simpl. by apply bool_decide_eq_true_2.
  - intros e1 env v e2 -> Hp Hoff. by eapply feature_off_ends.
Qed.
End dispatch.

(** ** Examples *)

Definition reader : Principal := mkPrincipal seller None.
Definition member : Principal := mkPrincipal seller (Some "member-resolution").

Definition plain_env : GateEnv := mkGateEnv None None None None (λ v _, v) None 0 0.
Definition plain_ctx : ReadContext := mkReadContext plain_env false true 5000 (λ _, None).
Definition start_state : ReadState nat unit := mkRead (mkGateState ∅ None) 0%nat tt.

(** [report] is read restricted, [rows] is an embedded list. *)
Definition report_entity : Entity :=
  [("total", mkField (FieldOther "number") (Some (EntryRoles ["hr"])) None); ("rows", mkField (FieldEmbedded []) None None)].

Definition open_access : option AccessRule := Some (RoleAccessRule ["owner"] false).

(** A handler that answers [v], and counts its runs in the database. *)
Definition answering (v : Json) : @QueryHandlerDef nat unit :=
  mkQuery open_access NoRateLimit (λ raw, Ok raw)
    (λ _ _ s, (Ok (mkAnswer false (Some v)), mkRead (rs_gates s) (S (rs_db s)) (rs_ext s))).

Definition streaming (chunks : list (option Json)) : @StreamHandlerDef nat unit (list (option Json)) :=
  mkStream open_access NoRateLimit (λ raw, Ok raw) (λ _ _, chunks)
    (λ g s, match g with [] => (PullDone, s) | v :: rest => (PullChunk v rest, s) end).

Definition report_registry (v : Json) (chunks : list (option Json)) : @ReadRegistry nat unit (list (option Json)) :=
  mkReadRegistry (mkGateRegistry (λ _, None) (λ _, false) (λ _, Some "report") (λ _, Some report_entity) [])
    (λ _, Some (answering v)) (λ _, Some (streaming chunks)) (λ _, []) (λ _, []) (λ _, false) (λ _, false) (λ _, false).

Definition total_row : Json := JObj [("id", JStr "r1"); ("total", JNum 9)].

Definition ask (v : Json) (p : Principal) :=
  executeQuery plain_ctx (report_registry v []) "shop:query:report:detail" (JObj []) p false start_state.

Example detail_is_filtered : (ask total_row reader).1 = Ok (Some (JObj [("id", JStr "r1")])).
Proof. reflexivity. Qed.

Example list_is_filtered : (ask (JArr [total_row]) reader).1 = Ok (Some (JArr [JObj [("id", JStr "r1")]])).
Proof. reflexivity. Qed.

Example secret_is_caught : (ask (JArr [JObj [("key", JObj [(SecretBrand, JBool true)])]]) reader).1
  = Err (ThrewKumiko (InternalError "Secret<> leaked into response")).
Proof. reflexivity. Qed.

Example member_leaves_the_database : rs_db (ask total_row reader).2 = 1%nat ∧ rs_db (ask total_row member).2 = 0%nat.
Proof. by split. Qed.

(** A record whose own field is called [rows] and holds a list is taken for a
    page: the filter runs on that list only, and the other fields are shown as
    they are. *)
Example rows_field_escapes_the_filter :
  (ask (JObj [("id", JStr "r1"); ("total", JNum 9); ("rows", JArr [])]) reader).1
  = Ok (Some (JObj [("id", JStr "r1"); ("total", JNum 9); ("rows", JArr [])])).
Proof. reflexivity. Qed.

Lemma query_shows_readable_fields_only_witness :
  (ask (JArr [total_row]) reader).1 = Ok (Some (JArr [JObj [("id", JStr "r1")]])) ∧
  ∃ given, answered_by (shows_readable report_entity seller) given (Some (JArr [JObj [("id", JStr "r1")]])).
Proof.
  split; [reflexivity|].
  destruct (query_shows_readable_fields_only plain_ctx (report_registry (JArr [total_row]) []) "shop:query:report:detail" (JObj []) reader false
    start_state _ _ eq_refl) as (h & data & view & answer & sg & s1 & Hh & Hd & _ & _ & _ & _ & _ & Ha & _ & _ & _ & H).
  injection Hh as <-. injection Ha as <- _. destruct (H report_entity eq_refl eq_refl) as (given & s2 & _ & Hg).
  exists given. exact Hg.
Defined.

(** Two chunks, a revocation of the session while the third is pulled. *)
Definition chunks : list (option Json) := [Some (JNum 1); Some (JNum 2); Some (JNum 3)].

Definition opened : result Thrown (StreamHandlerDef * StreamRun) * ReadState nat unit :=
  executeStream plain_ctx (report_registry total_row chunks) "shop:stream:report" (JObj []) reader true (Some 60%Z) start_state.

Definition watched (evs : list StreamEvent) : option (@StreamRun nat unit (list (option Json))) :=
  match opened with
  | (Ok (h, r0), _) =>
      Some (stream_run (report_registry total_row chunks) "shop:stream:report" h reader (mkCredential (Some "s1") None) evs r0)
  | _ => None
  end.

Example revoked_stream :
  (λ r, (sr_delivered r, sr_phase r, sr_returned r)) <$>
    watched [EvSettled; EvChecked plain_env; EvNext; EvInvalidated (InvalidateSessions ["s2"]); EvSettled; EvChecked plain_env; EvNext;
             EvInvalidated (InvalidateSessions ["s1"]); EvSettled; EvChecked plain_env; EvNext]
  = Some ([Some (JNum 1); Some (JNum 2)], Finished (Some (ThrewKumiko (AccessDeniedError ""))), 1%nat).
Proof. reflexivity. Qed.

(** A revocation between the arrival of a chunk and its check: that chunk is
    still delivered, the next is not. *)
Example chunk_in_check_is_delivered :
  (λ r, (sr_delivered r, sr_phase r)) <$>
    watched [EvSettled; EvInvalidated (InvalidateSessions ["s1"]); EvChecked plain_env; EvNext; EvSettled]
  = Some ([Some (JNum 1)], Finished (Some (ThrewKumiko (AccessDeniedError "")))).
Proof. reflexivity. Qed.

Definition opened_run : @StreamRun nat unit (list (option Json)) := mkRun Pulling None chunks start_state [] 0 true true.

Lemma stream_ends_with_its_access_witness :
  opened = (Ok (streaming chunks, opened_run), start_state) ∧
  ∀ e1 e2, let run evs := stream_run (report_registry total_row chunks) "shop:stream:report" (streaming chunks) reader
                            (mkCredential (Some "s1") None) evs opened_run in
    sr_delivered (run (e1 ++ EvInvalidated (InvalidateSessions ["s1"]) :: e2)) `prefix_of` at_hand (run e1).
Proof.
  split; [reflexivity|]. intros e1 e2 run.
  destruct (stream_ends_with_its_access plain_ctx (report_registry total_row chunks) "shop:stream:report" (JObj []) reader true
    (Some 60%Z) (mkCredential (Some "s1") None) start_state (streaming chunks) opened_run start_state eq_refl) as [_ H].
  destruct (H (e1 ++ EvInvalidated (InvalidateSessions ["s1"]) :: e2)) as (_ & _ & _ & _ & He & _).
  destruct (He e1 (EvInvalidated (InvalidateSessions ["s1"])) e2 eq_refl (conj eq_refl eq_refl)) as [Hd _]. exact Hd.
Defined.

(** The timer of a token never fires before the token has expired, unless the
    delay is cut at the longest a timer takes. *)
Lemma timer_waits_for_the_token exp now d :
  scheduleTokenExpiry (Some exp) now = Some d →
  (0 <= d <= MAX_TIMER_DELAY_MS ∧ (d < MAX_TIMER_DELAY_MS → exp * 1000 <= now + d))%Z.
Proof. unfold scheduleTokenExpiry, MAX_TIMER_DELAY_MS. simpl. intros [= <-]. lia. Qed.
