(* ===== verification/HttpRequest.v ===== *)
(** * Requests, session cookies and their origin

    [api/session-cookies.ts] with [types/src/session-cookies.ts],
    [api/origin-middleware.ts], [api/csrf-middleware.ts],
    [api/client-ip.ts] and the path sets of [api/api-constants.ts].  Header
    names are in lower case; strings are bytes.  How the server library parses a
    cookie header and how the platform parses a URL are the record [Platform]. *)

From Stdlib Require Import Ascii String.
From S2P Require Import Prelude.

Open Scope string_scope.
Open Scope list_scope.

(** ** Requests *)

(** [rq_body]: the body as JSON; [None] when it does not parse. *)
Record ApiRequest := mkRequest {
  rq_method : string;
  rq_path : string;
  rq_headers : list (string * string);
  rq_body : option Json }.

Definition header (rq : ApiRequest) (name : string) : option string := assoc_get name (rq_headers rq).

(** [pf_cookie]: Hono's [getCookie] on a cookie header and a name;
    [pf_urlHost] and [pf_urlOrigin]: [new URL(s).host] and [.origin], [None]
    when the constructor throws. *)
Record Platform := mkPlatform {
  pf_cookie : string → string → option string;
  pf_urlHost : string → option string;
  pf_urlOrigin : string → option string }.

Definition STATE_CHANGING_METHODS : list string := ["POST"; "PUT"; "PATCH"; "DELETE"].
Definition is_state_changing (rq : ApiRequest) : bool := bool_decide (rq_method rq ∈ STATE_CHANGING_METHODS).

Definition TENANT_HEADER_NAME : string := "x-tenant".
Definition CSRF_HEADER_NAME : string := "x-csrf-token".

(** [a || undefined] on an optional string. *)
Definition truthy_string (s : option string) : option string := match s with Some "" => None | _ => s end.

(** ** Session cookies *)

Definition AUTH_COOKIE_BASE : string := "kumiko_auth".
Definition CSRF_COOKIE_BASE : string := "kumiko_csrf".
Definition TENANT_COOKIE_BASE : string := "kumiko_tenant".
Definition HOST_COOKIE_PREFIX : string := "__Host-".

Record SessionCookieNames := mkNames { cn_auth : string; cn_csrf : string; cn_tenant : string }.

Definition sessionCookieName (base : string) (secure : bool) (domain : option string) : string :=
  if secure && bool_decide (domain = None) then HOST_COOKIE_PREFIX +:+ base else base.

Definition isHostPrefixedCookieName (name : string) : bool := starts_with HOST_COOKIE_PREFIX name.

Definition resolveSessionCookieNames (secure : bool) (domain : option string) : SessionCookieNames :=
  mkNames (sessionCookieName AUTH_COOKIE_BASE secure domain) (sessionCookieName CSRF_COOKIE_BASE secure domain)
    (sessionCookieName TENANT_COOKIE_BASE secure None).

Record ResolvedSessionCookies := mkCookies {
  sc_secure : bool;
  sc_names : SessionCookieNames;
  sc_domain : option string;
  sc_retiredDomains : list string }.

(** [production]: [NODE_ENV] is [production]. *)
Definition resolveSessionCookies (production : bool) (secureCookies : option bool) (cookieDomain : option string)
    (retiredCookieDomains : list string) : ResolvedSessionCookies :=
  let secure := default production secureCookies in
  mkCookies secure (resolveSessionCookieNames secure cookieDomain) cookieDomain retiredCookieDomains.

(** A [Set-Cookie] that expires a cookie; its path is [/]. *)
Record Deletion := mkDeletion { dl_name : string; dl_domain : option string; dl_secure : bool }.

Definition host_only_delete (name : string) : Deletion := mkDeletion name None (isHostPrefixedCookieName name).

Definition expireLegacySessionCookieVariants (cookies : ResolvedSessionCookies) : list Deletion :=
  if isHostPrefixedCookieName (cn_auth (sc_names cookies)) then
    [mkDeletion AUTH_COOKIE_BASE None false; mkDeletion CSRF_COOKIE_BASE None false]
  else
    [mkDeletion (sessionCookieName AUTH_COOKIE_BASE true None) None true;
     mkDeletion (sessionCookieName CSRF_COOKIE_BASE true None) None true].

Definition delete_under (domain : string) : list Deletion :=
  [mkDeletion AUTH_COOKIE_BASE (Some domain) false; mkDeletion CSRF_COOKIE_BASE (Some domain) false].

Definition clearSessionCookies (cookies : ResolvedSessionCookies) : list Deletion :=
  [host_only_delete (cn_auth (sc_names cookies)); host_only_delete (cn_csrf (sc_names cookies))]
  ++ expireLegacySessionCookieVariants cookies
  ++ match sc_domain cookies with Some d => delete_under d | None => [] end
  ++ (sc_retiredDomains cookies ≫= delete_under).

Definition pair_name (pair : string) : string :=
  trim (match index_of "="%char pair with Some n => slice_to n pair | None => pair end).

Definition cookieNameOccurrences (cookieHeader name : string) : nat :=
  length (filter (λ pair, pair_name pair = name) (split_on ";"%char cookieHeader)).

Definition hasDuplicateSessionCookie (rq : ApiRequest) (names : SessionCookieNames) : bool :=
  match header rq "cookie" with
  | None => false
  | Some h => (1 <? cookieNameOccurrences h (cn_auth names))%nat || (1 <? cookieNameOccurrences h (cn_csrf names))%nat
  end.

Definition getCookie (pf : Platform) (rq : ApiRequest) (name : string) : option string :=
  header rq "cookie" ≫= λ h, pf_cookie pf h name.

(** ** Origins *)

(** [s.replace(/\/+$/, "")] *)
Fixpoint drop_trailing_slashes (s : string) : string :=
  match s with
  | EmptyString => EmptyString
  | String c rest => match drop_trailing_slashes rest with
                     | EmptyString => if Ascii.eqb c "/" then EmptyString else String c EmptyString
                     | t => String c t
                     end
  end.

Definition normalizeOrigin (value : string) : string := drop_trailing_slashes (to_lower (trim value)).

Definition isOriginAllowed (origin : string) (normalizedAllowlist : list string) : bool :=
  bool_decide (normalizeOrigin origin ∈ normalizedAllowlist).

Definition isForeignCookieOrigin (rq : ApiRequest) (allowlist : list string) : bool :=
  is_state_changing rq
  && match header rq "origin" with
     | Some origin => negb (isOriginAllowed origin allowlist)
     | None => bool_decide (header rq "sec-fetch-site" = Some "cross-site")
     end.

Definition isSameHostOrigin (pf : Platform) (rq : ApiRequest) : bool :=
  match header rq "origin" with
  | None => false
  | Some origin =>
      negb (bool_decide (origin = "null"))
      && match to_lower <$> pf_urlHost pf origin, to_lower <$> header rq "host" with
         | Some originHost, Some requestHost => bool_decide (originHost = requestHost)
         | _, _ => false
         end
  end.

Definition publicOriginOf (pf : Platform) (baseUrl : string) : option string :=
  match pf_urlOrigin pf baseUrl with
  | Some origin => if bool_decide (origin = "null") then None else Some (normalizeOrigin origin)
  | None => None
  end.

Inductive AuthTransport := Cookie | Bearer.
#[export] Instance AuthTransport_eq_dec : EqDecision AuthTransport.
Proof. solve_decision. Defined.

Definition isWebSocketOriginAllowed (pf : Platform) (transport : option AuthTransport) (rq : ApiRequest)
    (normalizedAllowlist : option (list string)) : bool :=
  if negb (bool_decide (transport = Some Cookie)) then true
  else match header rq "origin" with
       | None => false
       | Some origin =>
           if bool_decide (origin = "null") then false
           else match normalizedAllowlist with
                | Some ((_ :: _) as l) => isOriginAllowed origin l
                | _ => isSameHostOrigin pf rq
                end
       end.

(** What a middleware answers instead of the handlers. *)
Record Rejection := mkRejection { rj_status : Z; rj_code : string; rj_reason : string }.

Definition rejectOrigin : Rejection := mkRejection 403 "origin_not_allowed" "".
Definition csrfRejection : Rejection := mkRejection 403 "csrf_token_mismatch" "".

Record OriginGuard := mkOriginGuard { og_allowlist : list string; og_allowRequestHost : bool }.

Definition originMiddleware (pf : Platform) (guard : OriginGuard) (transport : option AuthTransport) (rq : ApiRequest)
    : option Rejection :=
  if negb (bool_decide (transport = Some Cookie)) then None
  else if isForeignCookieOrigin rq (og_allowlist guard) then
    if og_allowRequestHost guard && isSameHostOrigin pf rq then None else Some rejectOrigin
  else None.

(** What [auth] of the server options says about origins. *)
Record OriginConfig := mkOriginConfig {
  oc_cookieDomain : option string;
  oc_allowedOrigins : list string;
  oc_publicOrigin : option string;
  oc_unsafeSkipOriginCheck : bool }.

Inductive BootError :=
| OptOutWithAllowlist
| WideCookieWithoutAllowlist
| SessionCallbacksPartial (missing : list string)
| ResolverWithoutTrust
| UnknownEntry (path : string)
| UserRouteOutsideApi (path : string)
| SignatureWildcard (path : string)
| ShadowsFrameworkPath (path shadowed : string).

Definition assertOriginGuardConfig (auth : OriginConfig) : option BootError :=
  let hasAllowlist := negb (bool_decide (oc_allowedOrigins auth = [])) in
  if oc_unsafeSkipOriginCheck auth && hasAllowlist then Some OptOutWithAllowlist
  else if bool_decide (is_Some (truthy_string (oc_cookieDomain auth))) && negb hasAllowlist && negb (oc_unsafeSkipOriginCheck auth)
  then Some WideCookieWithoutAllowlist
  else None.

Definition resolveOriginGuard (auth : OriginConfig) : option OriginGuard :=
  match oc_allowedOrigins auth with
  | _ :: _ => Some (mkOriginGuard (normalizeOrigin <$> oc_allowedOrigins auth) false)
  | [] =>
      match oc_publicOrigin auth with
      | None => None
      | Some publicOrigin =>
          if oc_unsafeSkipOriginCheck auth then None
          else if bool_decide (is_Some (truthy_string (oc_cookieDomain auth))) then None
          else Some (mkOriginGuard [normalizeOrigin publicOrigin] true)
      end
  end.

(** ** The double-submit token *)

Definition csrfMiddleware (pf : Platform) (names : SessionCookieNames) (transport : option AuthTransport) (rq : ApiRequest)
    : option Rejection :=
  if negb (bool_decide (transport = Some Cookie)) then None
  else if negb (is_state_changing rq) then None
  else match truthy_string (getCookie pf rq (cn_csrf names)), truthy_string (header rq CSRF_HEADER_NAME) with
       | Some cookieToken, Some headerToken => if bool_decide (cookieToken = headerToken) then None else Some csrfRejection
       | _, _ => Some csrfRejection
       end.

(** ** The address of a client *)

Definition UNKNOWN_CLIENT_IP : string := "unknown".

Definition forwarded_entries (xff : option string) : list string :=
  filter (λ entry, entry ≠ "") (trim <$> split_on ","%char (default "" xff)).

Definition resolve_client_ip (trustedProxyHops : nat) (headers : string → option string) (socketAddress : option string)
    : string :=
  match trustedProxyHops with
  | O => default UNKNOWN_CLIENT_IP socketAddress
  | _ =>
      let entries := forwarded_entries (headers "x-forwarded-for") in
      if (trustedProxyHops <=? length entries)%nat then default UNKNOWN_CLIENT_IP (entries !! (length entries - trustedProxyHops)%nat)
      else match truthy_string (trim <$> headers "x-real-ip") with
           | Some realIp => realIp
           | None => default UNKNOWN_CLIENT_IP socketAddress
           end
  end.

(** *** Spoofed addresses *)

(** Whatever a client puts into the forwarded header before the entries of the
    trusted proxies: the address is the one the outermost of them saw. *)
Lemma spoofed_entries_are_ignored trusted spoofed headers socketAddress first :
  head trusted = Some first → Forall (λ e, string_includes "," e = false ∧ trim e ≠ "") trusted →
  headers "x-forwarded-for" = Some (spoofed +:+ String "," (join_with "," trusted)) →
  resolve_client_ip (length trusted) headers socketAddress = trim first.
Proof.
  intros Hfirst Ht Hh. destruct trusted as [|e trusted]; [done|]. injection Hfirst as ->.
  assert (Hentries : forwarded_entries (headers "x-forwarded-for") =
            filter (λ entry, entry ≠ "") (trim <$> split_on ","%char spoofed) ++ (trim <$> first :: trusted)).
  { unfold forwarded_entries. rewrite Hh. cbn [default from_option id]. unfold from_option. rewrite split_on_app, split_on_join; [|done|].
    - rewrite fmap_app, filter_app. f_equal.
      assert (Hall : ∀ l : list string, Forall (λ e, string_includes "," e = false ∧ trim e ≠ "") l →
                filter (λ entry, entry ≠ "") (trim <$> l) = trim <$> l).
      { induction 1 as [|e l [_ He] Hl IH]; [done|]. rewrite fmap_cons, filter_cons_True, IH by done. done. }
      by apply Hall.
    - eapply Forall_impl; [exact Ht|]. by intros e [He _]. }
  unfold resolve_client_ip. cbn [length]. rewrite Hentries. set (prefix := filter _ _). rewrite length_app, length_fmap. cbn [length].
  rewrite (proj2 (Nat.leb_le _ _)) by lia. replace (length prefix + S (length trusted) - S (length trusted))%nat with (length prefix) by lia.
  rewrite fmap_cons. by rewrite list_lookup_middle.
Qed.
