(* ===== verification/ExtraRoutes.v ===== *)
(** * Routes that need no session

    The path sets of [api/api-constants.ts] and the declared routes of
    [api/server-extra-routes.ts]: which requests skip the guards, and the boot
    check that keeps a declared route from taking the guards off a path of the
    framework.  The regular expression of a route is a list of atoms, and its
    test the backtracking match of the whole path. *)

From Stdlib Require Import Ascii String.
From S2P Require Import Prelude QualifiedName HttpRequest.

Open Scope string_scope.
Open Scope list_scope.

(** ** Paths of the framework *)

Definition PUBLIC_API_PATHS : list string := (λ route, "/api" +:+ route) <$>
  ["/auth/login"; "/auth/mfa/verify"; "/auth/mfa/preauth-enable-start"; "/auth/mfa/preauth-confirm";
   "/auth/request-password-reset"; "/auth/reset-password"; "/auth/request-email-verification"; "/auth/verify-email";
   "/auth/request-account-unlock"; "/auth/confirm-account-unlock"; "/auth/signup-request"; "/auth/signup-confirm";
   "/auth/invite-accept-with-login"; "/auth/invite-signup-complete"; "/auth/invite-info";
   "/health"; "/health/ready"; "/version"; "/client-errors"].

Definition NON_PUBLIC_API_PATHS : list string := (λ route, "/api" +:+ route) <$>
  ["/write"; "/batch"; "/query"; "/command"; "/sse"; "/stream"; "/export/xlsx"; "/auth"; "/auth/logout"; "/auth/tenants";
   "/auth/switch-tenant"; "/auth/invite-accept"; "/files"; "/schema"].

Definition SESSION_REQUIRED_API_PREFIXES : list string := ["/api/auth/"].
Definition SESSION_REQUIRED_API_EXACT_PATHS : list string := ["/api/schema"].

Definition isSessionRequiredApiPath (path : string) : bool :=
  bool_decide (path ∈ SESSION_REQUIRED_API_EXACT_PATHS) || existsb (λ prefix, starts_with prefix path) SESSION_REQUIRED_API_PREFIXES.

(** ** Path patterns *)

(** [AtomSegment] is [[^/]+], [AtomAny] is [.*]; any other character of a
    pattern is escaped and stands for itself. *)
Inductive RegexAtom := AtomChar (c : ascii) | AtomSegment | AtomAny.

Definition is_slash (c : ascii) : bool := Ascii.eqb c "/".

(** [.] does not match the end of a line. *)
Definition is_line_end (c : ascii) : bool := let n := nat_of_ascii c in (n =? 10)%nat || (n =? 13)%nat.

Definition segment_regex (segment : string) : list RegexAtom :=
  if starts_with ":" segment then [AtomSegment]
  else if bool_decide (segment = "*") then [AtomAny]
  else AtomChar <$> String.list_ascii_of_string segment.

Fixpoint join_atoms (parts : list (list RegexAtom)) : list RegexAtom :=
  match parts with
  | [] => []
  | [part] => part
  | part :: rest => part ++ AtomChar "/" :: join_atoms rest
  end.

Definition honoPathToRegex (path : string) : list RegexAtom := join_atoms (segment_regex <$> split_on "/"%char path).

Fixpoint regex_test (atoms : list RegexAtom) (s : string) : bool :=
  match atoms with
  | [] => bool_decide (s = "")
  | AtomChar c :: rest => match s with String d s' => Ascii.eqb c d && regex_test rest s' | EmptyString => false end
  | AtomSegment :: rest =>
      (fix more s := match s with
                     | String d s' => negb (is_slash d) && (regex_test rest s' || more s')
                     | EmptyString => false
                     end) s
  | AtomAny :: rest =>
      (fix more s := regex_test rest s
                     || match s with String d s' => negb (is_line_end d) && more s' | EmptyString => false end) s
  end.

(** ** Declared routes *)

Inductive ExtraRouteEntry := EntryAnonymous | EntryUser | EntrySignature | EntryOther (entry : string).

Record ExtraRouteDefinition := mkExtraRoute { er_method : string; er_path : string; er_entry : ExtraRouteEntry }.

Definition is_signature (route : ExtraRouteDefinition) : bool := match er_entry route with EntrySignature => true | _ => false end.

Definition isPublicApiRequest (extraRoutes : list ExtraRouteDefinition) (rq : ApiRequest) : bool :=
  bool_decide (rq_path rq ∈ PUBLIC_API_PATHS)
  || existsb (λ route, is_signature route && bool_decide (er_method route = rq_method rq)
                       && regex_test (honoPathToRegex (er_path route)) (rq_path rq)) extraRoutes.

Definition under_api (path : string) : bool := starts_with "/api/" path.

Definition assertValidExtraRoute (route : ExtraRouteDefinition) : option BootError :=
  match er_entry route with
  | EntryOther _ => Some (UnknownEntry (er_path route))
  | EntryAnonymous => None
  | EntryUser => if under_api (er_path route) then None else Some (UserRouteOutsideApi (er_path route))
  | EntrySignature =>
      if under_api (er_path route) && string_includes "*"%char (er_path route) then Some (SignatureWildcard (er_path route))
      else match List.find (regex_test (honoPathToRegex (er_path route))) (PUBLIC_API_PATHS ++ NON_PUBLIC_API_PATHS) with
           | Some shadowed => Some (ShadowsFrameworkPath (er_path route) shadowed)
           | None => None
           end
  end.

Fixpoint validate_routes (routes : list ExtraRouteDefinition) : option BootError :=
  match routes with
  | [] => None
  | route :: rest => match assertValidExtraRoute route with Some e => Some e | None => validate_routes rest end
  end.

(** ** Patterns match segment by segment *)

Definition segment_matches (pattern segment : string) : Prop :=
  if starts_with ":" pattern then segment ≠ "" else segment = pattern.

Lemma test_chars cs rest s :
  regex_test ((AtomChar <$> cs) ++ rest) s = true ↔ ∃ s', s = String.string_of_list_ascii cs +:+ s' ∧ regex_test rest s' = true.
Proof.
  revert s. induction cs as [|c cs IH]; intros s; simpl; [split; [by exists s|by intros (s' & -> & H)]|].
  destruct s as [|d s]; [split; [done|by intros (s' & [=] & _)]|]. rewrite andb_true_iff, Ascii.eqb_eq, IH. split.
  - intros (-> & s' & -> & H). by exists s'.
  - intros (s' & [= -> ->] & H). split; [done|]. by exists s'.
Qed.

Lemma test_char c rest s : regex_test (AtomChar c :: rest) s = true ↔ ∃ s', s = String c s' ∧ regex_test rest s' = true.
Proof.
  destruct s as [|d s]; cbn [regex_test]; [split; [done|by intros (s' & [=] & _)]|]. rewrite andb_true_iff, Ascii.eqb_eq. split.
  - intros [-> H]. by exists s.
  - by intros (s' & [= -> ->] & H).
Qed.

Lemma test_segment rest s :
  regex_test (AtomSegment :: rest) s = true ↔
  ∃ seg s', s = seg +:+ s' ∧ seg ≠ "" ∧ all_chars (λ c, negb (is_slash c)) seg = true ∧ regex_test rest s' = true.
Proof.
  simpl. induction s as [|d s IH].
  - split; [done|]. by intros ([|? ?] & s' & [=] & Hne & _).
  - rewrite andb_true_iff, orb_true_iff, IH. split.
    + intros (Hd & [H|(seg & s' & -> & Hne & Hseg & H)]).
      * exists (String d ""), s. simpl. by rewrite Hd.
      * exists (String d seg), s'. simpl. by rewrite Hd.
    + intros ([|c seg] & s' & Heq & Hne & Hseg & H); [done|]. injection Heq as -> ->. cbn in Hseg. apply andb_true_iff in Hseg as [Hc Hseg]. split; [exact Hc|].
      destruct seg as [|e seg]; [by left|]. right. by exists (String e seg), s'.
Qed.

Definition slash_free (s : string) : bool := all_chars (λ c, negb (is_slash c)) s.

Lemma string_app_nil (s : string) : s +:+ "" = s.
Proof. induction s as [|c s IH]; [done|]. exact (f_equal (String c) IH). Qed.

Lemma chars_of_string s : String.string_of_list_ascii (String.list_ascii_of_string s) = s.
Proof. induction s as [|c s IH]; [done|]. simpl. by rewrite IH. Qed.

(** The first segment of a pattern takes the first segment of the text. *)
Lemma test_first pattern rest s : slash_free pattern = true → pattern ≠ "*" →
  regex_test (segment_regex pattern ++ rest) s = true ↔
  ∃ seg s', s = seg +:+ s' ∧ segment_matches pattern seg ∧ slash_free seg = true ∧ regex_test rest s' = true.
Proof.
  intros Hp Hstar. unfold segment_regex, segment_matches. destruct (starts_with ":" pattern) eqn:Hc.
  - change ([AtomSegment] ++ rest) with (AtomSegment :: rest). rewrite test_segment. by split; intros (seg & s' & H); exists seg, s'; naive_solver.
  - rewrite bool_decide_eq_false_2 by done. rewrite test_chars, chars_of_string. split.
    + intros (s' & -> & H). by exists pattern, s'.
    + intros (seg & s' & -> & -> & _ & H). by exists s'.
Qed.

(** What [split] says of a text. *)
Lemma split_slash s seg l : split_on "/"%char s = seg :: l ↔
  slash_free seg = true ∧ (l = [] ∧ s = seg ∨ ∃ t, l = split_on "/"%char t ∧ s = seg +:+ String "/" t).
Proof.
  revert seg l. induction s as [|c s IH]; intros seg l; simpl.
  { split; [intros [= <- <-]; split; [done|by left]|]. intros (_ & [[-> <-]|(t & _ & H)]); [done|]. by destruct seg. }
  destruct (Ascii.eqb c "/") eqn:Hc.
  - apply Ascii.eqb_eq in Hc as ->. split; [intros [= <- <-]; split; [done|right; by exists s]|].
    intros (Hs & [[-> <-]|(t & -> & H)]); [by cbn in Hs|]. destruct seg as [|d seg]; [by injection H as ->|].
    injection H as <- _. by cbn in Hs.
  - destruct (split_on "/" s) as [|w ws] eqn:Hs; [by destruct s as [|d s]; simpl in Hs; repeat case_match|]. split.
    + intros [= <- <-]. destruct (proj1 (IH w ws) eq_refl) as (Hw & Hl). cbn. unfold is_slash at 1. rewrite Hc.
      split; [done|]. destruct Hl as [[-> ->]|(t & -> & ->)]; [by left|right; by exists t].
    + intros (Hf & [[-> <-]|(t & -> & H)]).
      * cbn in Hf. apply andb_true_iff in Hf as [_ Hf]. assert (Hx : w :: ws = [s]) by (apply IH; split; [done|by left]). by injection Hx as -> ->.
      * destruct seg as [|d seg]; [injection H as -> _; by cbn in Hc|]. injection H as <- ->.
        cbn in Hf. apply andb_true_iff in Hf as [_ Hf].
        assert (Hx : w :: ws = seg :: split_on "/" t) by (apply IH; split; [done|right; by exists t]). by injection Hx as -> ->.
Qed.

(** A pattern without wildcards matches segment by segment. *)
Lemma regex_by_segments patterns s : patterns ≠ [] → Forall (λ p, slash_free p = true ∧ p ≠ "*") patterns →
  regex_test (join_atoms (segment_regex <$> patterns)) s = true ↔ Forall2 segment_matches patterns (split_on "/"%char s).
Proof.
  revert s. induction patterns as [|p ps IH]; intros s Hne Hps; [done|]. apply Forall_cons in Hps as ((Hp & Hstar) & Hps).
  destruct ps as [|q ps].
  - change (join_atoms (segment_regex <$> [p])) with (segment_regex p). rewrite <- (app_nil_r (segment_regex p)), (test_first p) by done.
    simpl. split.
    + intros (seg & s' & -> & Hm & Hf & ->%bool_decide_eq_true). rewrite string_app_nil.
      rewrite (proj2 (split_slash seg seg [])) by (by split; [|left]). by repeat constructor.
    + intros H. inversion H as [|? seg ? l Hm Hl]; subst. inversion Hl; subst. symmetry in H2. apply split_slash in H2 as (Hf & [[_ ->]|(t & Ht & _)]).
      * exists seg, "". rewrite string_app_nil. by rewrite bool_decide_eq_true_2.
      * destruct t as [|d t]; simpl in Ht; repeat case_match; done.
  - change (join_atoms (segment_regex <$> p :: q :: ps)) with (segment_regex p ++ AtomChar "/" :: join_atoms (segment_regex <$> q :: ps)).
    rewrite (test_first p) by done. split.
    + intros (seg & s' & -> & Hm & Hf & (t & -> & H)%test_char). apply IH in H; [|done..]. rewrite (proj2 (split_slash _ seg (split_on "/" t))) by (split; [done|right; by exists t]). by constructor.
    + intros H. inversion H as [|? seg ? l Hm Hl Heq1 Heq]; subst. symmetry in Heq. apply split_slash in Heq as (Hf & [[-> _]|(t & -> & ->)]);
        [by inversion Hl|]. exists seg, (String "/" t). split_and!; [done..|]. apply test_char. exists t. split; [done|]. by apply IH.
Qed.

Lemma includes_cons c d s : string_includes c (String d s) = Ascii.eqb d c || string_includes c s.
Proof. unfold string_includes. simpl. destruct (Ascii.eqb d c); [done|]. by destruct (index_of c s). Qed.

(** The segments of a path have no slash, and no star the path has not. *)
Lemma segments_of path :
  Forall (λ seg, slash_free seg = true ∧ (string_includes "*" path = false → string_includes "*" seg = false)) (split_on "/"%char path).
Proof.
  induction path as [|c path IH]; simpl; [by repeat constructor|].
  assert (Hmono : ∀ seg, (string_includes "*" path = false → string_includes "*" seg = false) →
                         string_includes "*" (String c path) = false → string_includes "*" seg = false).
  { intros seg H. rewrite includes_cons. intros [_ Hp]%orb_false_iff. by apply H. }
  destruct (Ascii.eqb c "/") eqn:Hc.
  - constructor; [done|]. eapply Forall_impl; [exact IH|]. intros seg [Hf H]. split; [done|]. by apply Hmono.
  - destruct (split_on "/" path) as [|w ws] eqn:Hs; [by destruct (split_not_nil _ _ Hs)|]. apply Forall_cons in IH as [[Hf H] IH]. constructor.
    + split; [unfold slash_free; simpl; unfold is_slash at 1; rewrite Hc; exact Hf|].
      rewrite !includes_cons. intros [-> Hp]%orb_false_iff. by apply H.
    + eapply Forall_impl; [exact IH|]. intros seg [Hseg H']. split; [done|]. by apply Hmono.
Qed.

Lemma starless_pattern pattern path : string_includes "*" pattern = false →
  regex_test (honoPathToRegex pattern) path = true ↔ Forall2 segment_matches (split_on "/"%char pattern) (split_on "/"%char path).
Proof.
  intros H. apply regex_by_segments; [apply split_not_nil|]. eapply Forall_impl; [apply segments_of|].
  intros seg [Hf Hs]. split; [done|]. intros ->. specialize (Hs H). by cbn in Hs.
Qed.

Lemma valid_signature routes route : validate_routes routes = None → route ∈ routes → is_signature route = true →
  (under_api (er_path route) = true → string_includes "*" (er_path route) = false) ∧
  ∀ path, path ∈ PUBLIC_API_PATHS ++ NON_PUBLIC_API_PATHS → regex_test (honoPathToRegex (er_path route)) path = false.
Proof.
  intros Hv Hin Hs. assert (Ha : assertValidExtraRoute route = None).
  { induction routes as [|r rs IH]; [by apply elem_of_nil in Hin|]. simpl in Hv. destruct (assertValidExtraRoute r) eqn:Hr; [done|].
    apply elem_of_cons in Hin as [->|Hin]; [done|by apply IH]. }
  unfold is_signature in Hs. unfold assertValidExtraRoute in Ha. destruct (er_entry route); try done.
  destruct (_ && _) eqn:Hw; [done|]. destruct (List.find _ _) eqn:Hf; [done|]. split.
  - intros Hu. by rewrite Hu in Hw.
  - intros path Hp. by eapply List.find_none in Hf; [|by apply list_elem_of_In].
Qed.

(** What a declared route matches: under [/api/] segment by segment, literal
    segments only themselves and a parameter one non-empty segment; elsewhere
    what its expression accepts. *)
Definition route_matches (route : ExtraRouteDefinition) (path : string) : Prop :=
  if under_api (er_path route) then Forall2 segment_matches (split_on "/"%char (er_path route)) (split_on "/"%char path)
  else regex_test (honoPathToRegex (er_path route)) path = true.

Lemma route_matches_regex routes route path : validate_routes routes = None → route ∈ routes → is_signature route = true →
  route_matches route path ↔ regex_test (honoPathToRegex (er_path route)) path = true.
Proof.
  intros Hv Hin Hs. unfold route_matches. destruct (under_api (er_path route)) eqn:Hu; [|done].
  symmetry. apply starless_pattern. by apply (valid_signature routes route Hv Hin Hs).
Qed.

(** C32: Which requests skip the guards of the API.  Once the boot check accepts
    the declared routes, it is those on a path of the list [PUBLIC_API_PATHS],
    and those on a path outside the list [NON_PUBLIC_API_PATHS] for which a
    signature route of their method is declared that matches: under [/api/]
    segment by segment, so that it takes the guards off paths of its own length
    and shape only.  A path of the second list keeps its guards whatever patterns
    the routes have.  Both lists hold paths without parameters: a framework route
    with one, such as the files, is on neither and loses its guards to a
    signature route of its shape. *)
Theorem framework_paths_keep_their_guards routes rq : validate_routes routes = None →
  isPublicApiRequest routes rq = true ↔
  rq_path rq ∈ PUBLIC_API_PATHS ∨
  rq_path rq ∉ NON_PUBLIC_API_PATHS ∧
  ∃ route, route ∈ routes ∧ is_signature route = true ∧ er_method route = rq_method rq ∧ route_matches route (rq_path rq).
Proof.
  intros Hv. unfold isPublicApiRequest. rewrite orb_true_iff, bool_decide_eq_true, existsb_exists. split.
  - intros [Hp|(route & Hin%list_elem_of_In & ((Hs & Hmeth%bool_decide_eq_true)%andb_true_iff & Hm)%andb_true_iff)]; [by left|right].
    split.
    + intros Hp. destruct (valid_signature routes route Hv Hin Hs) as [_ Hno]. rewrite Hno in Hm; [done|]. apply elem_of_app. by right.
    + exists route. split_and!; [done..|]. by apply (route_matches_regex routes).
  - intros [Hp|(_ & route & Hin & Hs & Hmeth & Hm)]; [by left|right]. exists route. split; [by apply list_elem_of_In|].
    rewrite Hs, bool_decide_eq_true_2 by done. by apply (route_matches_regex routes) in Hm.
Qed.

(** ** Examples *)

Definition get (path : string) : ApiRequest := mkRequest "GET" path [] None.

Definition webhook : ExtraRouteDefinition := mkExtraRoute "POST" "/api/webhooks/:provider" EntrySignature.

Example wildcard_is_refused :
  validate_routes [mkExtraRoute "POST" "/api/*" EntrySignature] = Some (SignatureWildcard "/api/*").
Proof. vm_compute. reflexivity. Qed.

Example broad_parameter_is_refused :
  validate_routes [mkExtraRoute "POST" "/:area/write" EntrySignature] = Some (ShadowsFrameworkPath "/:area/write" "/api/write").
Proof. vm_compute. reflexivity. Qed.

(** The boot check knows the paths without parameters only: a route over the
    files of [files/file-routes.ts] passes, and takes the guards off them. *)
Example parameter_paths_are_not_protected :
  validate_routes [mkExtraRoute "GET" "/api/files/:id" EntrySignature] = None ∧
  isPublicApiRequest [mkExtraRoute "GET" "/api/files/:id" EntrySignature] (get "/api/files/f1") = true.
Proof. split; vm_compute; reflexivity. Qed.

Lemma framework_paths_keep_their_guards_witness :
  validate_routes [webhook] = None ∧
  isPublicApiRequest [webhook] (get "/api/write") = false ∧
  isPublicApiRequest [webhook] (mkRequest "POST" "/api/webhooks/stripe" [] None) = true.
Proof.
  assert (Hv : validate_routes [webhook] = None) by (vm_compute; reflexivity).
  assert (Hn : ("/api/write" : string) ∈ NON_PUBLIC_API_PATHS ∧ ("/api/write" : string) ∉ PUBLIC_API_PATHS).
  { split; [|intros Hp%(bool_decide_pack _); vm_compute in Hp; exact Hp]. apply (bool_decide_unpack _). vm_compute. exact I. }
  split; [exact Hv|]. split.
  - destruct (isPublicApiRequest [webhook] (get "/api/write")) eqn:Hp; [|reflexivity]. exfalso.
    destruct (proj1 (framework_paths_keep_their_guards [webhook] (get "/api/write") Hv) Hp) as [H|[H _]]; [exact (proj2 Hn H)|exact (H (proj1 Hn))].
  - apply (proj2 (framework_paths_keep_their_guards [webhook] (mkRequest "POST" "/api/webhooks/stripe" [] None) Hv)). right.
    split; [intros Hp%(bool_decide_pack _); vm_compute in Hp; exact Hp|]. exists webhook.
    split; [left|]. split; [reflexivity|]. split; [reflexivity|].
    unfold route_matches. vm_compute. repeat (apply List.Forall2_cons); try apply List.Forall2_nil; try reflexivity. discriminate.
Defined.
