(* ===== verification/RequestAuth.v ===== *)
(** * Who a request runs as

    [api/auth-middleware.ts] and the guards behind it, in the order of
    [api/server-middleware.ts]: authentication, the routes and the rate limit of
    personal access tokens ([pat-route-guard.ts],
    [server-pat-rate-limit-guard.ts]), the origin and the double-submit token,
    then the scopes of a token ([pat-scope.ts], [routes.ts]).  The stores that
    are asked (sessions, tokens, tenants, resolvers) are functions that may
    throw; the verification of a token is [JwtKeyring] or any other. *)

From Stdlib Require Import Ascii String.
From S2P Require Import Prelude QualifiedName Ownership FieldAccess TenantDb TransitionGuard Executor Gates HttpRequest ExtraRoutes.

Open Scope string_scope.
Open Scope list_scope.

(** ** Callers *)

Record Pat := mkPat { pat_tokenId : string; pat_scopes : list string; pat_allowedQns : list string }.

Record Caller := mkCaller {
  ca_user : SessionUser;
  ca_timezone : option string;
  ca_locale : option string;
  ca_sid : option string;
  ca_pat : option Pat }.

Record JwtPayload := mkPayload {
  jp_sub : string;
  jp_tenantId : string;
  jp_roles : list string;
  jp_timezone : option string;
  jp_locale : option string;
  jp_claims : option Row;
  jp_jti : option string;
  jp_exp : option Z }.

Definition ANONYMOUS_USER_ID : string := "anonymous".

Definition createAnonymousUser (tenantId : string) : Caller :=
  mkCaller (mkUser ANONYMOUS_USER_ID tenantId [ANONYMOUS_ROLE] None) None None None None.

Definition parseTenantId (value : string) : option string := if isUuid value then Some value else None.

(** ** Verdicts *)

(** [Crash] is an error the middleware does not catch. *)
Inductive Verdict (A : Type) :=
| Pass (a : A)
| Refuse (r : Rejection)
| Crash (t : Thrown).
Arguments Pass {A} a.
Arguments Refuse {A} r.
Arguments Crash {A} t.

Definition vbind {A B} (m : Verdict A) (f : A → Verdict B) : Verdict B :=
  match m with Pass a => f a | Refuse r => Refuse r | Crash t => Crash t end.

Notation "'let!' x ':=' c1 'in' c2" := (vbind c1 (λ x, c2))
  (at level 10, x pattern, c1 at level 100, c2 at level 200).

Definition ask {A} (r : result Thrown A) : Verdict A := match r with Ok a => Pass a | Err t => Crash t end.

Definition refuse_when (r : option Rejection) : Verdict () := match r with Some r => Refuse r | None => Pass tt end.

(** ** What the middleware consults *)

Inductive AuthSessionStatus := SessionLive | SessionRevoked | SessionExpired | SessionMissing | SessionBlocked.

Definition session_status_name (s : AuthSessionStatus) : string :=
  match s with
  | SessionLive => "live" | SessionRevoked => "revoked" | SessionExpired => "expired"
  | SessionMissing => "missing" | SessionBlocked => "blocked"
  end.

Inductive AuthSessionCheckResult := BareStatus (s : AuthSessionStatus) | LiveWithRoles (roles : list string).

Definition sessionCheckStatus (r : AuthSessionCheckResult) : AuthSessionStatus :=
  match r with BareStatus s => s | LiveWithRoles _ => SessionLive end.

Inductive ResolverTrust := Authoritative | FallbackOnly.
Inductive TenantSource := FromHeader | FromCookie | FromResolver | FromDefault | Tenantless.

#[export] Instance ResolverTrust_eq_dec : EqDecision ResolverTrust.
Proof. solve_decision. Defined.
#[export] Instance TenantSource_eq_dec : EqDecision TenantSource.
Proof. solve_decision. Defined.
#[export] Instance AuthSessionStatus_eq_dec : EqDecision AuthSessionStatus.
Proof. solve_decision. Defined.

Record AnonymousAccess := mkAnonymous {
  aa_defaultTenantId : option string;
  aa_tenantResolver : option (ApiRequest → result Thrown (option string));
  aa_tenantExists : option (string → result Thrown bool);
  aa_resolverTrust : option ResolverTrust }.

Record AuthOptions := mkAuthOptions {
  ao_sessionChecker : option (string → string → result Thrown AuthSessionCheckResult);
  ao_tokenVerifier : option (string → result Thrown (option Caller));
  ao_anonymousAccess : option AnonymousAccess;
  ao_lifecycleStatus : option (string → result Thrown (option string));
  ao_foreignCookieOrigins : option (list string);
  ao_tenantlessWrite : option (string → bool) }.

(** What the request carries on: the caller, the transport, the expiry of the
    token and the code of a stale cookie that was dropped. *)
Record AuthContext := mkAuthContext {
  ad_caller : Caller;
  ad_transport : option AuthTransport;
  ad_tokenExpiry : option Z;
  ad_staleCredential : option string }.

(** ** Rejections *)

Definition missingToken : Rejection := mkRejection 401 "missing_token" "".
Definition ambiguousAuth : Rejection := mkRejection 400 "ambiguous_auth" "".
Definition INVALID_TOKEN_REJECTION : Rejection := mkRejection 401 "invalid_token" "".
Definition sessionInvalidRejection (reason : string) : Rejection := mkRejection 401 "session_invalid" reason.
Definition tenantMismatch : Rejection := mkRejection 400 "tenant_mismatch" "".
Definition invalidTenantFormat : Rejection := mkRejection 400 "invalid_tenant_format" "".
Definition tenantRequiredError : Rejection := mkRejection 400 "tenant_required" "".
Definition tenantNotFound : Rejection := mkRejection 404 "tenant_not_found" "".
Definition tenantUnavailable (status : string) : Rejection := mkRejection 410 "tenant_unavailable" status.

(** ** Tokens *)

Inductive TokenExtraction := ExtractedBoth | ExtractedMissing | ExtractedToken (token : string) (transport : AuthTransport).

Definition BEARER : string := "Bearer ".

Definition bearer_token (rq : ApiRequest) : option string :=
  header rq "authorization" ≫= λ h, if starts_with BEARER h then Some (slice_from 7 h) else None.

Definition extractToken (pf : Platform) (cookies : ResolvedSessionCookies) (rq : ApiRequest) : list Deletion * TokenExtraction :=
  let duplicate := hasDuplicateSessionCookie rq (sc_names cookies) in
  let cookieToken := if duplicate then None else getCookie pf rq (cn_auth (sc_names cookies)) in
  (if duplicate then clearSessionCookies cookies else [],
   match truthy_string cookieToken, truthy_string (bearer_token rq) with
   | Some _, Some _ => ExtractedBoth
   | Some token, None => ExtractedToken token Cookie
   | None, Some token => ExtractedToken token Bearer
   | None, None => ExtractedMissing
   end).

(** ** Tenants in teardown *)

Definition TENANT_TEARDOWN_STATUSES : list string :=
  ["destroyRequested"; "destroying"; "destroyHeld"; "destroyFailed"; "destroyed"].

Definition TENANT_LIFECYCLE_CANCEL_QN : string := "tenant-lifecycle:write:cancel-destruction".

Definition is_type (qn : string) (command : Json) : bool := bool_decide (prop_of command "type" = Some (JStr qn)).

Definition requestsCancelDestruction (rq : ApiRequest) : bool :=
  bool_decide (rq_method rq = "POST")
  && match rq_body rq with
     | None => false
     | Some body =>
         if bool_decide (rq_path rq = "/api/write") then is_type TENANT_LIFECYCLE_CANCEL_QN body
         else if bool_decide (rq_path rq = "/api/batch") then
           match prop_of body "commands" with
           | Some (JArr ((_ :: _) as commands)) => forallb (is_type TENANT_LIFECYCLE_CANCEL_QN) commands
           | _ => false
           end
         else false
     end.

Section middleware.
#[local] Set Default Proof Using "Type".
Context (pf : Platform) (cookies : ResolvedSessionCookies) (jwtVerify : string → option JwtPayload) (opts : AuthOptions).

Definition resolveTenantTeardownStatus (tenantId : string) : Verdict (option string) :=
  match ao_lifecycleStatus opts with
  | None => Pass None
  | Some resolve =>
      let! status := ask (resolve tenantId) in
      Pass (match status with
            | Some s => if bool_decide (s ∈ TENANT_TEARDOWN_STATUSES) then Some s else None
            | None => None
            end)
  end.

Definition rejectIfTenantTeardown (rq : ApiRequest) (tenantId : string) : Verdict () :=
  let! status := resolveTenantTeardownStatus tenantId in
  match status with
  | None => Pass tt
  | Some s => if bool_decide (s = "destroyRequested") && requestsCancelDestruction rq then Pass tt else Refuse (tenantUnavailable s)
  end.

(** ** Anonymous requests *)

Definition parseClientTenant (raw : option string) : Verdict (option string) :=
  match truthy_string raw with
  | None => Pass None
  | Some raw => match parseTenantId raw with Some t => Pass (Some t) | None => Refuse invalidTenantFormat end
  end.

Definition ClientTenant : Type := option (string * TenantSource).

Definition resolveAgainstDefault (defaultTenantId : string) (client : ClientTenant) : Verdict (string * TenantSource) :=
  match client with
  | Some (t, _) => if bool_decide (t = defaultTenantId) then Pass (defaultTenantId, FromDefault) else Refuse tenantMismatch
  | None => Pass (defaultTenantId, FromDefault)
  end.

Definition resolveWithAuthoritativeResolver (rq : ApiRequest) (resolver : ApiRequest → result Thrown (option string))
    (client : ClientTenant) : Verdict (string * TenantSource) :=
  let! resolved := ask (resolver rq) in
  match resolved with
  | Some t =>
      match client with
      | Some (c, FromHeader) => if bool_decide (c = t) then Pass (t, FromResolver) else Refuse tenantMismatch
      | _ => Pass (t, FromResolver)
      end
  | None => Refuse tenantRequiredError
  end.

Definition resolveWithClientPrecedence (rq : ApiRequest) (resolver : option (ApiRequest → result Thrown (option string)))
    (client : ClientTenant) : Verdict (string * TenantSource) :=
  match client with
  | Some c => Pass c
  | None =>
      match resolver with
      | None => Refuse tenantRequiredError
      | Some resolver =>
          let! resolved := ask (resolver rq) in
          match resolved with Some t => Pass (t, FromResolver) | None => Refuse tenantRequiredError end
      end
  end.

Definition resolveTenant (rq : ApiRequest) (config : AnonymousAccess) (client : ClientTenant) : Verdict (string * TenantSource) :=
  match aa_defaultTenantId config with
  | Some d => resolveAgainstDefault d client
  | None =>
      match aa_tenantResolver config, aa_resolverTrust config with
      | Some resolver, Some Authoritative => resolveWithAuthoritativeResolver rq resolver client
      | resolver, _ => resolveWithClientPrecedence rq resolver client
      end
  end.

Definition isFlaggedTenantlessWrite (rq : ApiRequest) (flagged : string → bool) : bool :=
  bool_decide (rq_method rq = "POST") && bool_decide (rq_path rq = "/api/write")
  && match rq_body rq ≫= λ body, prop_of body "type" with Some (JStr t) => flagged t | _ => false end.

Definition resolveTenantOrTenantless (rq : ApiRequest) (config : AnonymousAccess) (client : ClientTenant)
    (allowTenantless : bool) (flagged : option (string → bool)) : Verdict (string * TenantSource) :=
  match resolveTenant rq config client with
  | Refuse r =>
      if bool_decide (rj_code r = "tenant_required") && negb (bool_decide (snd <$> client = Some FromHeader)) && allowTenantless
         && match flagged with Some f => isFlaggedTenantlessWrite rq f | None => false end
      then Pass (SYSTEM_TENANT_ID, Tenantless) else Refuse r
  | v => v
  end.

(** A stale credential answers with its own rejection. *)
Definition instead_of (stale : option Rejection) {A} (v : Verdict A) : Verdict A :=
  match v, stale with Refuse _, Some r => Refuse r | _, _ => v end.

Definition client_tenant (headerTenant cookieTenant : option string) : ClientTenant :=
  match headerTenant, cookieTenant with
  | Some t, _ => Some (t, FromHeader)
  | None, Some t => Some (t, FromCookie)
  | None, None => None
  end.

Definition checked_source (s : TenantSource) : bool := match s with FromDefault | Tenantless => false | _ => true end.

Definition handleAnonymous (rq : ApiRequest) (config : AnonymousAccess) (stale : option Rejection) (flagged : option (string → bool))
    : Verdict AuthContext :=
  instead_of stale
    (let! headerTenant := parseClientTenant (header rq TENANT_HEADER_NAME) in
     let! cookieTenant := parseClientTenant (getCookie pf rq (cn_tenant (sc_names cookies))) in
     let! resolved := resolveTenantOrTenantless rq config (client_tenant headerTenant cookieTenant) (bool_decide (stale = None)) flagged in
     let '(tenantId, source) := resolved in
     let! _ := match aa_tenantExists config with
               | Some tenantExists =>
                   if checked_source source then let! found := ask (tenantExists tenantId) in if found then Pass tt else Refuse tenantNotFound
                   else Pass tt
               | None => Pass tt
               end in
     let! _ := match source with Tenantless => Pass tt | _ => rejectIfTenantTeardown rq tenantId end in
     Pass (mkAuthContext (createAnonymousUser tenantId) None None (rj_code <$> stale))).

(** ** Authenticated requests *)

Definition agrees_with_header (rq : ApiRequest) (tenantId : string) : Verdict () :=
  match header rq TENANT_HEADER_NAME with
  | Some t => if bool_decide (t = tenantId) then Pass tt else Refuse tenantMismatch
  | None => Pass tt
  end.

Definition handleVerifiedBearerUser (rq : ApiRequest) (caller : Caller) : Verdict AuthContext :=
  let! _ := agrees_with_header rq (us_tenantId (ca_user caller)) in
  let! _ := rejectIfTenantTeardown rq (us_tenantId (ca_user caller)) in
  Pass (mkAuthContext caller (Some Bearer) None None).

Definition is_auth_path (rq : ApiRequest) : bool := starts_with "/api/auth/" (rq_path rq).

Definition rejectInvalidCredential (rq : ApiRequest) (transport : AuthTransport) (r : Rejection) : Verdict AuthContext :=
  match transport, ao_anonymousAccess opts with
  | Cookie, Some config => if is_auth_path rq then Refuse r else handleAnonymous rq config (Some r) None
  | _, _ => Refuse r
  end.

Definition caller_of (payload : JwtPayload) (roles : list string) : Caller :=
  mkCaller (mkUser (jp_sub payload) (jp_tenantId payload) roles (jp_claims payload))
    (truthy_string (jp_timezone payload)) (truthy_string (jp_locale payload)) (truthy_string (jp_jti payload)) None.

(** The roles of a live session, or what is wrong with it. *)
Definition check_session (payload : JwtPayload) : Verdict (result Rejection (list string)) :=
  match ao_sessionChecker opts with
  | None => Pass (Ok (jp_roles payload))
  | Some check =>
      match truthy_string (jp_jti payload) with
      | None => Pass (Err (sessionInvalidRejection "no_sid"))
      | Some jti =>
          let! r := ask (check jti (jp_sub payload)) in
          if bool_decide (sessionCheckStatus r = SessionLive)
          then Pass (Ok (match r with LiveWithRoles roles => roles | BareStatus _ => jp_roles payload end))
          else Pass (Err (sessionInvalidRejection (session_status_name (sessionCheckStatus r))))
      end
  end.

Definition verify_session (rq : ApiRequest) (token : string) (transport : AuthTransport) : Verdict AuthContext :=
  match jwtVerify token with
  | None => rejectInvalidCredential rq transport INVALID_TOKEN_REJECTION
  | Some payload =>
      let! session := check_session payload in
      match session with
      | Err r => rejectInvalidCredential rq transport r
      | Ok roles =>
          let! _ := agrees_with_header rq (jp_tenantId payload) in
          let! _ := rejectIfTenantTeardown rq (jp_tenantId payload) in
          Pass (mkAuthContext (caller_of payload roles) (Some transport) (jp_exp payload) None)
      end
  end.

Definition handle_missing (rq : ApiRequest) : Verdict AuthContext :=
  match ao_anonymousAccess opts with
  | Some config => if isSessionRequiredApiPath (rq_path rq) then Refuse missingToken
                   else handleAnonymous rq config None (ao_tenantlessWrite opts)
  | None => Refuse missingToken
  end.

(** A cookie that comes from a foreign origin is not looked at. *)
Definition drops_foreign_cookie (rq : ApiRequest) (transport : AuthTransport) : option AnonymousAccess :=
  match transport, ao_anonymousAccess opts, ao_foreignCookieOrigins opts with
  | Cookie, Some config, Some origins =>
      if negb (is_auth_path rq) && isForeignCookieOrigin rq origins then Some config else None
  | _, _, _ => None
  end.

Definition handle_token (rq : ApiRequest) (token : string) (transport : AuthTransport) : Verdict AuthContext :=
  match drops_foreign_cookie rq transport with
  | Some config => handleAnonymous rq config None (ao_tenantlessWrite opts)
  | None =>
      let! verified := match ao_tokenVerifier opts, transport with
                       | Some verify, Bearer => ask (verify token)
                       | _, _ => Pass None
                       end in
      match verified with
      | Some caller => handleVerifiedBearerUser rq caller
      | None => verify_session rq token transport
      end
  end.

Definition authMiddleware (rq : ApiRequest) : list Deletion * Verdict AuthContext :=
  let '(deletions, extracted) := extractToken pf cookies rq in
  (deletions,
   match extracted with
   | ExtractedBoth => Refuse ambiguousAuth
   | ExtractedMissing => handle_missing rq
   | ExtractedToken token transport => handle_token rq token transport
   end).
End middleware.

Definition checkResolverTrust (config : option AnonymousAccess) : option BootError :=
  match config with
  | Some c => match aa_tenantResolver c, aa_resolverTrust c with Some _, None => Some ResolverWithoutTrust | _, _ => None end
  | None => None
  end.

(** ** Personal access tokens *)

Definition PAT_ALLOWED_API_PATHS : list string := ["/api/write"; "/api/batch"; "/api/query"; "/api/command"; "/api/stream"].

Definition patRouteGuard (a : AuthContext) (rq : ApiRequest) : Verdict () :=
  match ca_pat (ad_caller a) with
  | Some _ => if bool_decide (rq_path rq ∈ PAT_ALLOWED_API_PATHS) then Pass tt
              else Refuse (mkRejection 403 "access_denied" "pat_dispatcher_routes_only")
  | None => Pass tt
  end.

Definition patRateLimitGuard (check : string → result Thrown bool) (a : AuthContext) (rq : ApiRequest) : Verdict () :=
  match ca_pat (ad_caller a) with
  | Some pat => let! allowed := ask (check (pat_tokenId pat)) in
                if allowed then Pass tt else Refuse (mkRejection 429 "pat_rate_limited" "")
  | None => Pass tt
  end.

Definition qnMatches (pattern type : string) : bool :=
  if ends_with "*" pattern then starts_with (slice_to (String.length pattern - 1) pattern) type
  else bool_decide (pattern = type).

Definition patAllows (allowedQns : list string) (type : string) : bool := existsb (λ pattern, qnMatches pattern type) allowedQns.

Definition assertPatAllowed (caller : Caller) (type : string) : option Thrown :=
  match ca_pat caller with
  | Some pat => if patAllows (pat_allowedQns pat) type then None else Some (ThrewKumiko (AccessDeniedError ""))
  | None => None
  end.

(** ** The chain of a server *)

Record ServerOptions := mkServer {
  so_platform : Platform;
  so_production : bool;
  so_secureCookies : option bool;
  so_retiredCookieDomains : list string;
  so_origin : OriginConfig;
  so_jwtVerify : string → option JwtPayload;
  so_sessionCreator : bool;
  so_sessionRevoker : bool;
  so_sessionChecker : option (string → string → result Thrown AuthSessionCheckResult);
  so_tokenVerifier : option (string → result Thrown (option Caller));
  so_lifecycleStatus : option (string → result Thrown (option string));
  so_patRateLimiter : option (string → result Thrown bool);
  so_anonymousAccess : option AnonymousAccess;
  so_tenantlessAnonymous : list string;
  so_extraRoutes : list ExtraRouteDefinition }.

Definition installSessionCookies (o : ServerOptions) : ResolvedSessionCookies :=
  resolveSessionCookies (so_production o) (so_secureCookies o) (oc_cookieDomain (so_origin o)) (so_retiredCookieDomains o).

Definition buildJwtGuard (o : ServerOptions) : AuthOptions :=
  mkAuthOptions (so_sessionChecker o) (so_tokenVerifier o) (so_anonymousAccess o) (so_lifecycleStatus o)
    (match oc_allowedOrigins (so_origin o) with [] => None | l => Some (normalizeOrigin <$> l) end)
    (match so_tenantlessAnonymous o with [] => None | qns => Some (λ qn, bool_decide (qn ∈ qns)) end).

Definition buildSessionOnlyGuard (o : ServerOptions) : AuthOptions :=
  mkAuthOptions (so_sessionChecker o) (so_tokenVerifier o) None (so_lifecycleStatus o) None None.

Definition assertSessionCallbacksPaired (creator revoker checker : bool) : option BootError :=
  if creator || revoker then
    match (if creator then [] else ["sessionCreator"]) ++ (if revoker then [] else ["sessionRevoker"])
          ++ (if checker then [] else ["sessionChecker"]) with
    | [] => None
    | missing => Some (SessionCallbacksPartial missing)
    end
  else None.

Definition first_error (checks : list (option BootError)) : option BootError := head (omap id checks).

(** [None]: the server starts. *)
Definition boot (o : ServerOptions) : option BootError :=
  first_error [
    checkResolverTrust (so_anonymousAccess o);
    assertOriginGuardConfig (so_origin o);
    assertSessionCallbacksPaired (so_sessionCreator o) (so_sessionRevoker o) (bool_decide (is_Some (so_sessionChecker o)));
    validate_routes (so_extraRoutes o)].

Definition Guard : Type := AuthContext → ApiRequest → Verdict ().

Fixpoint run_guards (guards : list Guard) (a : AuthContext) (rq : ApiRequest) : Verdict () :=
  match guards with
  | [] => Pass tt
  | guard :: rest => let! _ := guard a rq in run_guards rest a rq
  end.

Definition origin_guards (o : ServerOptions) : list Guard :=
  match resolveOriginGuard (so_origin o) with
  | Some g => [λ a rq, refuse_when (originMiddleware (so_platform o) g (ad_transport a) rq)]
  | None => []
  end.

Definition csrf_guard (o : ServerOptions) : Guard :=
  λ a rq, refuse_when (csrfMiddleware (so_platform o) (sc_names (installSessionCookies o)) (ad_transport a) rq).

Definition api_guards (o : ServerOptions) : list Guard :=
  [patRouteGuard]
  ++ match so_patRateLimiter o with Some check => [patRateLimitGuard check] | None => [] end
  ++ origin_guards o ++ [csrf_guard o].

Definition sessionOnlyHttpRouteGuards (o : ServerOptions) : list Guard := [patRouteGuard] ++ origin_guards o ++ [csrf_guard o].

Definition guarded (o : ServerOptions) (opts : AuthOptions) (guards : list Guard) (rq : ApiRequest) : list Deletion * Verdict AuthContext :=
  let '(deletions, v) := authMiddleware (so_platform o) (installSessionCookies o) (so_jwtVerify o) opts rq in
  (deletions, let! a := v in let! _ := run_guards guards a rq in Pass a).

(** A request under [/api/]: [None] is a public one, that no guard sees. *)
Definition apiRequest (o : ServerOptions) (rq : ApiRequest) : list Deletion * Verdict (option AuthContext) :=
  if isPublicApiRequest (so_extraRoutes o) rq then ([], Pass None)
  else match guarded o (buildJwtGuard o) (api_guards o) rq with
       | (deletions, v) => (deletions, let! a := v in Pass (Some a))
       end.

(** A declared route outside [/api/] that asks for a session. *)
Definition httpRouteRequest (o : ServerOptions) (rq : ApiRequest) : list Deletion * Verdict AuthContext :=
  guarded o (buildSessionOnlyGuard o) (sessionOnlyHttpRouteGuards o) rq.

(** ** What an admitted request has shown *)

Section spec.
Context (o : ServerOptions) (rq : ApiRequest).

Notation pf := (so_platform o).
Notation names := (sc_names (installSessionCookies o)).

(** The tenant is not being torn down, or the request only cancels that. *)
Definition tenant_available (tenantId : string) : Prop :=
  ∀ resolve, so_lifecycleStatus o = Some resolve →
    ∃ status, resolve tenantId = Ok status ∧
      ∀ s, status = Some s → s ∈ TENANT_TEARDOWN_STATUSES → s = "destroyRequested" ∧ requestsCancelDestruction rq = true.

(** The session behind a token is live; its fresh roles replace those of the token. *)
Definition live_session (payload : JwtPayload) (roles : list string) : Prop :=
  match so_sessionChecker o with
  | None => roles = jp_roles payload
  | Some check =>
      ∃ jti, jp_jti payload = Some jti ∧
        (check jti (jp_sub payload) = Ok (BareStatus SessionLive) ∧ roles = jp_roles payload ∨
         check jti (jp_sub payload) = Ok (LiveWithRoles roles))
  end.

(** The header of the tenant, if sent, names this one. *)
Definition header_agrees (tenantId : string) : Prop := ∀ t, header rq TENANT_HEADER_NAME = Some t → t = tenantId.

Definition session_of (token : string) (c : Caller) : Prop :=
  ∃ payload roles, so_jwtVerify o token = Some payload ∧ live_session payload roles ∧ c = caller_of payload roles ∧
    header_agrees (jp_tenantId payload) ∧ tenant_available (jp_tenantId payload).

Definition auth_cookie : option string :=
  if hasDuplicateSessionCookie rq names then None else getCookie pf rq (cn_auth names).



Definition by_bearer (a : AuthContext) : Prop :=
  ∃ token, bearer_token rq = Some token ∧ truthy_string auth_cookie = None ∧
    (session_of token (ad_caller a) ∨
     (∃ verify, so_tokenVerifier o = Some verify ∧ verify token = Ok (Some (ad_caller a))) ∧
     header_agrees (us_tenantId (ca_user (ad_caller a))) ∧ tenant_available (us_tenantId (ca_user (ad_caller a)))).

(** The tenant the client names: the header before the cookie. *)
Definition named_tenant (client : ClientTenant) : Prop :=
  ∃ h c, parseClientTenant (header rq TENANT_HEADER_NAME) = Pass h ∧
    parseClientTenant (getCookie pf rq (cn_tenant names)) = Pass c ∧ client = client_tenant h c.

Definition tenant_exists (config : AnonymousAccess) (tenantId : string) : Prop :=
  ∀ tenantExists, aa_tenantExists config = Some tenantExists → tenantExists tenantId = Ok true.

(** The tenant of an anonymous request: the only one of a locked server, the
    answer of an authoritative resolver, or else the client's, with the resolver
    as a last resort; the system tenant for writes that are flagged for it. *)
Definition anonymous_tenant (config : AnonymousAccess) (stale : option string) (tenantId : string) : Prop :=
  ∃ client, named_tenant client ∧
    (aa_defaultTenantId config = Some tenantId ∧ (∀ t s, client = Some (t, s) → t = tenantId) ∧ tenant_available tenantId
     ∨ aa_defaultTenantId config = None ∧ tenant_exists config tenantId ∧ tenant_available tenantId ∧
       match aa_tenantResolver config, aa_resolverTrust config with
       | Some resolver, Some Authoritative => resolver rq = Ok (Some tenantId) ∧ ∀ t, client = Some (t, FromHeader) → t = tenantId
       | resolver, _ => (∃ s, client = Some (tenantId, s)) ∨ client = None ∧ ∃ r, resolver = Some r ∧ r rq = Ok (Some tenantId)
       end
     ∨ tenantId = SYSTEM_TENANT_ID ∧ aa_defaultTenantId config = None ∧ stale = None ∧ (∀ t, client ≠ Some (t, FromHeader)) ∧
       rq_method rq = "POST" ∧ rq_path rq = "/api/write" ∧
       ∃ body qn, rq_body rq = Some body ∧ prop_of body "type" = Some (JStr qn) ∧ qn ∈ so_tenantlessAnonymous o).

End spec.

(** *** Verdicts *)

Lemma vbind_Pass {A B} (m : Verdict A) (f : A → Verdict B) b : vbind m f = Pass b ↔ ∃ a, m = Pass a ∧ f a = Pass b.
Proof. destruct m; simpl; [split; [by eexists|by intros (? & [= ->] & ?)]|split; [done|by intros (? & [=] & _)]..]. Qed.

Lemma ask_Pass {A} (r : result Thrown A) a : ask r = Pass a ↔ r = Ok a.
Proof. destruct r; simpl; split; congruence. Qed.

Lemma instead_of_Pass stale {A} (v : Verdict A) a : instead_of stale v = Pass a ↔ v = Pass a.
Proof. unfold instead_of. destruct v, stale; naive_solver. Qed.

Lemma run_guards_Pass guards a rq u : run_guards guards a rq = Pass u ↔ Forall (λ g : Guard, g a rq = Pass tt) guards.
Proof.
  destruct u. induction guards as [|g guards IH]; simpl; [by split|]. rewrite vbind_Pass, Forall_cons, <- IH. split.
  - by intros ([] & Hg & H).
  - intros [Hg H]. by exists tt.
Qed.


Lemma truthy_string_Some s t : truthy_string s = Some t → s = Some t ∧ t ≠ "".
Proof. destruct s as [[|c s]|]; simpl; [done| |done]. by intros [= <-]. Qed.

(** *** The guards behind the authentication *)



Lemma pat_guard_passes a rq u : patRouteGuard a rq = Pass u → is_Some (ca_pat (ad_caller a)) → rq_path rq ∈ PAT_ALLOWED_API_PATHS.
Proof. unfold patRouteGuard. intros H [pat Hp]. rewrite Hp in H. by case_bool_decide. Qed.

(** *** Authentication *)

Section authentication.
Context (o : ServerOptions) (rq : ApiRequest) (opts : AuthOptions).
Hypothesis Hlife : ao_lifecycleStatus opts = so_lifecycleStatus o.
Hypothesis Hcheck : ao_sessionChecker opts = so_sessionChecker o.
Hypothesis Hverifier : ao_tokenVerifier opts = so_tokenVerifier o.
Hypothesis Hflagged : ∀ f qn, ao_tenantlessWrite opts = Some f → f qn = true → qn ∈ so_tenantlessAnonymous o.

Lemma teardown_passes tenantId u : rejectIfTenantTeardown opts rq tenantId = Pass u → tenant_available o rq tenantId.
Proof using Hlife.
  unfold rejectIfTenantTeardown, resolveTenantTeardownStatus, tenant_available. rewrite Hlife. intros H resolve Hr. rewrite Hr in H.
  apply vbind_Pass in H as (st & (status & Hs%ask_Pass & [= <-])%vbind_Pass & H). exists status. split; [done|].
  intros s -> Hin. rewrite bool_decide_eq_true_2 in H by done. destruct (_ && _) eqn:Hc; [|done].
  by apply andb_true_iff in Hc as [?%bool_decide_eq_true ?].
Qed.

Lemma header_passes tenantId u : agrees_with_header rq tenantId = Pass u → header_agrees rq tenantId.
Proof. unfold agrees_with_header, header_agrees. intros H t Ht. rewrite Ht in H. by case_bool_decide. Qed.

Lemma session_passes payload roles : check_session opts payload = Pass (Ok roles) → live_session o payload roles.
Proof using Hcheck.
  unfold check_session, live_session. rewrite Hcheck. destruct (so_sessionChecker o) as [check|]; [|by intros [= ->]].
  destruct (truthy_string (jp_jti payload)) as [jti|] eqn:Hj; [|done]. apply truthy_string_Some in Hj as [Hj _].
  intros (r & Hr%ask_Pass & H)%vbind_Pass. exists jti. split; [done|]. rewrite Hr. case_bool_decide as Hlive; [|done].
  injection H as <-. destruct r as [s|roles]; simpl in *; [left; by subst|by right].
Qed.

(** An anonymous request and its tenant. *)
Lemma resolve_passes config client tenantId source : resolveTenant rq config client = Pass (tenantId, source) →
  (source = FromDefault ∧ aa_defaultTenantId config = Some tenantId ∧ ∀ t s, client = Some (t, s) → t = tenantId) ∨
  (aa_defaultTenantId config = None ∧ (source = FromResolver ∨ client = Some (tenantId, source)) ∧
   match aa_tenantResolver config, aa_resolverTrust config with
   | Some resolver, Some Authoritative => resolver rq = Ok (Some tenantId) ∧ ∀ t, client = Some (t, FromHeader) → t = tenantId
   | resolver, _ => (∃ s, client = Some (tenantId, s)) ∨ client = None ∧ ∃ r, resolver = Some r ∧ r rq = Ok (Some tenantId)
   end).
Proof.
  unfold resolveTenant. destruct (aa_defaultTenantId config) as [d|].
  { intros H. left. unfold resolveAgainstDefault in H. destruct client as [[t s]|]; [case_bool_decide|]; simplify_eq; split_and!; naive_solver. }
  intros H. right. split; [done|].
  assert (Hclient : ∀ resolver, resolveWithClientPrecedence rq resolver client = Pass (tenantId, source) →
            (source = FromResolver ∨ client = Some (tenantId, source)) ∧
            ((∃ s, client = Some (tenantId, s)) ∨ client = None ∧ ∃ r, resolver = Some r ∧ r rq = Ok (Some tenantId))).
  { unfold resolveWithClientPrecedence. intros resolver Hr. destruct client as [c|]; [injection Hr as ->; split; [by right|left; by eexists]|].
    destruct resolver as [resolver|]; [|done]. apply vbind_Pass in Hr as ([t|] & Ha%ask_Pass & Hr); [|done]. injection Hr as -> <-.
    split; [by left|]. right. split; [done|]. by exists resolver. }
  destruct (aa_tenantResolver config) as [resolver|], (aa_resolverTrust config) as [[]|]; try by apply Hclient.
  unfold resolveWithAuthoritativeResolver in H. apply vbind_Pass in H as ([t|] & Ha%ask_Pass & H); [|done].
  destruct client as [[c []]|]; [case_bool_decide; [|done]|..]; injection H as -> <-; (split; [by left|]; split; [done|]); naive_solver.
Qed.

Lemma anonymous_passes config stale flagged a : handleAnonymous (so_platform o) (installSessionCookies o) opts rq config stale flagged = Pass a →
  (∀ f qn, flagged = Some f → f qn = true → qn ∈ so_tenantlessAnonymous o) →
  ad_transport a = None ∧ ad_staleCredential a = rj_code <$> stale ∧
  ∃ tenantId, ad_caller a = createAnonymousUser tenantId ∧ anonymous_tenant o rq config (rj_code <$> stale) tenantId.
Proof using Hlife.
  unfold handleAnonymous. intros H%instead_of_Pass Hfl.
  apply vbind_Pass in H as (h & Hh & H). apply vbind_Pass in H as (c & Hc & H). set (client := client_tenant h c) in *.
  apply vbind_Pass in H as ([tenantId source] & Hres & H). apply vbind_Pass in H as (u & Hex & H).
  apply vbind_Pass in H as (u' & Hlc & [= <-]). split_and!; [done..|]. exists tenantId. split; [done|]. exists client.
  split; [by exists h, c|]. unfold resolveTenantOrTenantless in Hres.
  destruct (resolveTenant rq config client) as [[t s]|r|] eqn:Ht; [|destruct (_ && _) eqn:Hg|done]; [|injection Hres as <- <-|done].
  - injection Hres as -> ->. apply resolve_passes in Ht as [(-> & Hd & Hcl)|(Hd & Hsrc & Ht)].
    + left. split_and!; [done..|]. by eapply teardown_passes.
    + right; left. assert (Hkind : source = FromResolver ∨ source = FromHeader ∨ source = FromCookie).
      { destruct Hsrc as [->|Hcl]; [by left|]. subst client. unfold client_tenant in Hcl. destruct h, c; naive_solver. }
      split_and!; [done| |destruct Hkind as [Hk|[Hk|Hk]]; rewrite Hk in Hlc; by eapply teardown_passes|done].
      intros tenantExists He. rewrite He in Hex. assert (checked_source source = true) as Hk by (by destruct Hkind as [-> | [-> | ->]]).
      rewrite Hk in Hex. by apply vbind_Pass in Hex as ([] & ?%ask_Pass & Hex).
  - right; right. apply andb_true_iff in Hg as (((Hr%bool_decide_eq_true & Hhdr%negb_true_iff)%andb_true_iff & Hst%bool_decide_eq_true)%andb_true_iff & Hf).
    apply bool_decide_eq_false in Hhdr. destruct flagged as [f|]; [|done]. unfold isFlaggedTenantlessWrite in Hf.
    apply andb_true_iff in Hf as ((Hm%bool_decide_eq_true & Hp%bool_decide_eq_true)%andb_true_iff & Hf).
    destruct (rq_body rq) as [body|] eqn:Hb; [|done]. simpl in Hf. destruct (prop_of body "type") as [[| | |qn| |]|] eqn:Hty; try done.
    split_and!; [done| |by rewrite Hst|by intros t ->|done|done|exists body, qn; by eauto].
    unfold resolveTenant in Ht. destruct (aa_defaultTenantId config) as [d|]; [|done].
    unfold resolveAgainstDefault in Ht. by repeat case_match; simplify_eq.
Qed.

(** *** The middleware *)

Lemma verified_session_passes token transport a : verify_session (so_platform o) (installSessionCookies o) (so_jwtVerify o) opts rq token transport = Pass a →
  (ad_transport a = Some transport ∧ session_of o rq token (ad_caller a)) ∨
  (transport = Cookie ∧ ad_transport a = None ∧ ∃ config tenantId, ao_anonymousAccess opts = Some config ∧
     ad_caller a = createAnonymousUser tenantId ∧ is_auth_path rq = false ∧ anonymous_tenant o rq config (ad_staleCredential a) tenantId).
Proof using Hlife Hcheck.
  intros H. assert (Hstale : ∀ r, rejectInvalidCredential (so_platform o) (installSessionCookies o) opts rq transport r = Pass a →
    transport = Cookie ∧ ad_transport a = None ∧ ∃ config tenantId, ao_anonymousAccess opts = Some config ∧
     ad_caller a = createAnonymousUser tenantId ∧ is_auth_path rq = false ∧ anonymous_tenant o rq config (ad_staleCredential a) tenantId).
  { unfold rejectInvalidCredential. intros r Hr. destruct transport; [|done]. destruct (ao_anonymousAccess opts) as [config|]; [|done].
    destruct (is_auth_path rq); [done|]. apply anonymous_passes in Hr as (Ht & Hs & tenantId & Hc & Hat); [|done].
    split_and!; [done..|]. exists config, tenantId. by rewrite Hs. }
  unfold verify_session in H. destruct (so_jwtVerify o token) as [payload|] eqn:Hv; [|right; by eapply Hstale].
  apply vbind_Pass in H as ([roles|r] & Hs & H); [|right; by eapply Hstale]. left.
  apply vbind_Pass in H as (u & Hh & H). apply vbind_Pass in H as (u' & Ht & [= <-]). split; [done|].
  exists payload, roles. split_and!; [done|by apply session_passes|done|by eapply header_passes|by eapply teardown_passes].
Qed.

(** How a request that passes the authentication was authenticated. *)
Lemma middleware_passes deletions a :
  authMiddleware (so_platform o) (installSessionCookies o) (so_jwtVerify o) opts rq = (deletions, Pass a) →
  match ad_transport a with
  | Some Cookie => ∃ token, auth_cookie o rq = Some token ∧ truthy_string (bearer_token rq) = None ∧ session_of o rq token (ad_caller a)
  | Some Bearer => by_bearer o rq a
  | None => ∃ config tenantId, ao_anonymousAccess opts = Some config ∧ ad_caller a = createAnonymousUser tenantId ∧
              is_auth_path rq = false ∧ anonymous_tenant o rq config (ad_staleCredential a) tenantId
  end.
Proof using Hlife Hcheck Hverifier Hflagged.
  unfold authMiddleware, extractToken. fold (auth_cookie o rq). intros [= _ H].
  assert (Hanon : ∀ config, ao_anonymousAccess opts = Some config → is_auth_path rq = false →
    handleAnonymous (so_platform o) (installSessionCookies o) opts rq config None (ao_tenantlessWrite opts) = Pass a →
    ad_transport a = None ∧ ∃ config tenantId, ao_anonymousAccess opts = Some config ∧ ad_caller a = createAnonymousUser tenantId ∧
      is_auth_path rq = false ∧ anonymous_tenant o rq config (ad_staleCredential a) tenantId).
  { intros config Hc Hp (Ht & Hs & tenantId & Hcl & Hat)%anonymous_passes; [|done]. split; [done|]. exists config, tenantId. by rewrite Hs. }
  destruct (truthy_string (auth_cookie o rq)) as [cookie|] eqn:Hcookie, (truthy_string (bearer_token rq)) as [bearer|] eqn:Hbearer; [done|..].
  - apply truthy_string_Some in Hcookie as [Hcookie _]. unfold handle_token in H.
    destruct (drops_foreign_cookie opts rq Cookie) as [config|] eqn:Hd.
    + unfold drops_foreign_cookie in Hd. destruct (ao_anonymousAccess opts) as [c|] eqn:Ha; [|done].
      destruct (ao_foreignCookieOrigins opts); [|done]. destruct (is_auth_path rq) eqn:Hp; [done|]. simpl in Hd.
      destruct (isForeignCookieOrigin _ _); [|done]. injection Hd as <-. apply Hanon in H as [-> H]; [|done..]. exact H.
    + apply vbind_Pass in H as (verified & Hv & H). assert (verified = None) as -> by (destruct (ao_tokenVerifier opts); by injection Hv).
      apply verified_session_passes in H as [[-> H]|(_ & -> & H)]; [by exists cookie|exact H].
  - apply truthy_string_Some in Hbearer as [Hbearer _]. unfold handle_token in H. simpl in H. apply vbind_Pass in H as (verified & Hv & H).
    destruct verified as [c|].
    + unfold handleVerifiedBearerUser in H. apply vbind_Pass in H as (u & Hh & H). apply vbind_Pass in H as (u' & Ht & [= <-]). simpl.
      exists bearer. split_and!; [done..|]. right. rewrite Hverifier in Hv. destruct (so_tokenVerifier o) as [verify|]; [|done].
      apply ask_Pass in Hv. split; [by exists verify|]. split; [by eapply header_passes|by eapply teardown_passes].
    + apply verified_session_passes in H as [[-> H]|(? & _)]; [|done]. exists bearer. split_and!; [done..|]. by left.
  - unfold handle_missing in H. destruct (ao_anonymousAccess opts) as [config|] eqn:Ha; [|done].
    destruct (isSessionRequiredApiPath (rq_path rq)) eqn:Hp; [done|]. apply Hanon in H as [-> H]; [exact H|done|].
    unfold isSessionRequiredApiPath in Hp. apply orb_false_iff in Hp as [_ Hp]. simpl in Hp. by rewrite orb_false_r in Hp.
Qed.
End authentication.

(** *** The chain *)




Lemma guarded_Pass o opts guards rq deletions a : guarded o opts guards rq = (deletions, Pass a) →
  authMiddleware (so_platform o) (installSessionCookies o) (so_jwtVerify o) opts rq = (deletions, Pass a) ∧
  Forall (λ g : Guard, g a rq = Pass tt) guards.
Proof.
  unfold guarded. destruct (authMiddleware _ _ _ _ _) as [d v]. intros [= -> H].
  apply vbind_Pass in H as (a' & -> & (u & Hg%run_guards_Pass & [= ->])%vbind_Pass). done.
Qed.




(** The silence of an authoritative resolver is final: no tenant the client
    names is used instead. *)
Lemma authoritative_silence_is_final rq config resolver client v :
  aa_defaultTenantId config = None → aa_tenantResolver config = Some resolver → aa_resolverTrust config = Some Authoritative →
  resolver rq = Ok None → resolveTenant rq config client ≠ Pass v.
Proof.
  intros Hd Hr Ht Hn. unfold resolveTenant, resolveWithAuthoritativeResolver. by rewrite Hd, Hr, Ht, Hn.
Qed.

(** A route outside [/api/] that asks for a session gets one, and never that of
    a personal access token. *)
Lemma http_route_needs_session o rq a : (httpRouteRequest o rq).2 = Pass a → rq_path rq ∉ PAT_ALLOWED_API_PATHS →
  is_Some (ad_transport a) ∧ ca_pat (ad_caller a) = None.
Proof.
  unfold httpRouteRequest. destruct (guarded o _ _ rq) as [deletions v] eqn:Hg. simpl. intros -> Hp.
  apply guarded_Pass in Hg as [Hauth (Hpat & _)%Forall_cons]. split.
  - apply (middleware_passes o) in Hauth; [|done..]. destruct (ad_transport a); [by eexists|]. by destruct Hauth as (? & ? & [=] & _).
  - destruct (ca_pat (ad_caller a)) eqn:Hc; [|done]. destruct Hp. eapply pat_guard_passes; [exact Hpat|by rewrite Hc].
Qed.

(** ** Examples *)

Definition demo_cookie (cookieHeader name : string) : option string :=
  snd <$> List.find (λ kv, bool_decide (kv.1 = name))
    ((λ pair, match index_of "="%char pair with
              | Some n => (trim (slice_to n pair), slice_from (S n) pair)
              | None => (trim pair, "")
              end) <$> split_on ";"%char cookieHeader).

Definition demo_host (url : string) : option string :=
  if starts_with "https://" url then Some (slice_from 8 url) else None.

Definition tenant_a : string := "aaaaaaaa-0000-4000-8000-000000000001".
Definition tenant_b : string := "bbbbbbbb-0000-4000-8000-000000000002".

Definition demo_payload : JwtPayload := mkPayload "u1" tenant_a ["editor"] None None None (Some "s1") (Some 900%Z).

(** The session [s1] is live and has fresh roles; [gone] is a tenant in teardown. *)
Definition shop : ServerOptions := {|
  so_platform := mkPlatform demo_cookie demo_host demo_host;
  so_production := true;
  so_secureCookies := None;
  so_retiredCookieDomains := [];
  so_origin := mkOriginConfig (Some "shop.test") ["https://shop.test/"] None false;
  so_jwtVerify := λ token, if bool_decide (token = "good") then Some demo_payload else None;
  so_sessionCreator := true;
  so_sessionRevoker := true;
  so_sessionChecker := Some (λ sid _, Ok (if bool_decide (sid = "s1") then LiveWithRoles ["owner"] else BareStatus SessionMissing));
  so_tokenVerifier := Some (λ token, Ok (if starts_with "kpat_" token
                                         then Some (mkCaller (mkUser "u2" tenant_a ["editor"] None) None None None (Some (mkPat "t1" [] ["shop:query:*"])))
                                         else None));
  so_lifecycleStatus := Some (λ t, Ok (if bool_decide (t = tenant_b) then Some "destroyRequested" else None));
  so_patRateLimiter := None;
  so_anonymousAccess := Some (mkAnonymous None None None None);
  so_tenantlessAnonymous := ["intake:write:cancel"];
  so_extraRoutes := [webhook] |}.

Definition post (headers : list (string * string)) (type : string) : ApiRequest :=
  mkRequest "POST" "/api/write" headers (Some (JObj [("type", JStr type)])).

Definition signed_in : list (string * string) :=
  [("cookie", "kumiko_auth=good; kumiko_csrf=c1"); ("origin", "https://shop.test"); ("x-csrf-token", "c1")].

Definition owner : AuthContext :=
  mkAuthContext (mkCaller (mkUser "u1" tenant_a ["owner"] None) None None (Some "s1") None) (Some Cookie) (Some 900%Z) None.

Definition verdict (rq : ApiRequest) : Verdict (option AuthContext) := (apiRequest shop rq).2.

Example shop_boots : boot shop = None.
Proof. vm_compute. reflexivity. Qed.

Example signed_in_write : verdict (post signed_in "shop:write:order") = Pass (Some owner).
Proof. vm_compute. reflexivity. Qed.

Example token_missing_in_header :
  verdict (post [("cookie", "kumiko_auth=good; kumiko_csrf=c1"); ("origin", "https://shop.test")] "shop:write:order") = Refuse csrfRejection.
Proof. vm_compute. reflexivity. Qed.

(** A page elsewhere makes the browser send the cookie: the request runs as an
    anonymous one, here without a tenant. *)
Example foreign_page :
  verdict (post [("cookie", "kumiko_auth=good; kumiko_csrf=c1"); ("origin", "https://evil.test")] "shop:write:order") = Refuse tenantRequiredError ∧
  verdict (post [("cookie", "kumiko_auth=good; kumiko_csrf=c1"); ("origin", "https://evil.test"); ("x-tenant", tenant_a)] "shop:write:order")
  = Pass (Some (mkAuthContext (createAnonymousUser tenant_a) None None None)).
Proof. split; vm_compute; reflexivity. Qed.

(** A second cookie of the same name makes both worthless, and expires them. *)
Example planted_cookie :
  verdict (post [("cookie", "kumiko_auth=good; kumiko_auth=planted"); ("x-tenant", tenant_a)] "shop:write:order")
  = Pass (Some (mkAuthContext (createAnonymousUser tenant_a) None None None)) ∧
  length (apiRequest shop (post [("cookie", "kumiko_auth=good; kumiko_auth=planted"); ("x-tenant", tenant_a)] "shop:write:order")).1 = 6%nat.
Proof. split; vm_compute; reflexivity. Qed.

Example stale_cookie :
  verdict (post [("cookie", "kumiko_auth=old")] "shop:write:order") = Refuse INVALID_TOKEN_REJECTION ∧
  verdict (post [("cookie", "kumiko_auth=old"); ("x-tenant", tenant_a)] "shop:write:order")
  = Pass (Some (mkAuthContext (createAnonymousUser tenant_a) None None (Some "invalid_token"))).
Proof. split; vm_compute; reflexivity. Qed.

Example tenant_in_teardown :
  verdict (post [("x-tenant", tenant_b)] "shop:write:order") = Refuse (tenantUnavailable "destroyRequested") ∧
  verdict (post [("x-tenant", tenant_b)] TENANT_LIFECYCLE_CANCEL_QN)
  = Pass (Some (mkAuthContext (createAnonymousUser tenant_b) None None None)).
Proof. split; vm_compute; reflexivity. Qed.

Example flagged_write_needs_no_tenant :
  verdict (post [] "intake:write:cancel") = Pass (Some (mkAuthContext (createAnonymousUser SYSTEM_TENANT_ID) None None None)).
Proof. vm_compute. reflexivity. Qed.

Example access_token_stays_on_the_dispatcher :
  verdict (mkRequest "GET" "/api/files/f1" [("authorization", "Bearer kpat_1")] None)
  = Refuse (mkRejection 403 "access_denied" "pat_dispatcher_routes_only") ∧
  (λ c, assertPatAllowed c "shop:write:order") <$>
    match verdict (post [("authorization", "Bearer kpat_1")] "shop:write:order") with Pass (Some a) => Some (ad_caller a) | _ => None end
  = Some (Some (ThrewKumiko (AccessDeniedError ""))).
Proof. split; vm_compute; reflexivity. Qed.

