(* ===== verification/JwtKeyring.v ===== *)
(** * Tokens of a session and the rotation of their keys

    [api/jwt.ts]: the keys from the environment, signing, and verifying with a
    ring of keys.  What the library [jose] does to a token is the record [Jose];
    tokens are of any type.  Strings are bytes. *)

From Stdlib Require Import Ascii String.
From S2P Require Import Prelude QualifiedName Ownership FieldAccess TenantDb TransitionGuard Executor HttpRequest RequestAuth.

Open Scope string_scope.
Open Scope list_scope.
Open Scope Z_scope.

(** ** Keys from the environment *)

Inductive JwtSecret :=
| SingleSecret (secret : string)
| Keyring (keys : list (string * string)) (signKid : string).

Inductive JwtConfigError :=
| EmptyVersionedSecret (name : string)
| SecretTooShort (name : string)
| SecretNotSet
| CurrentVersionNotSet
| CurrentVersionUnknown (kid : string)
| SignKidMissing (kid : string).

(** An environment: unique names, and a name may be there without a value. *)
Definition Env : Type := list (string * option string).

Definition env_get (env : Env) (name : string) : option string := mjoin (assoc_get name env).

Definition JWT_KEY_VAR_PREFIX : string := "JWT_SECRET_V".
Definition JWT_CURRENT_VERSION_VAR : string := "JWT_SECRET_CURRENT_VERSION".
Definition MIN_JWT_SECRET_LENGTH : nat := 32.

Definition is_number (s : string) : bool := negb (bool_decide (s = "")) && all_chars is_digit s.

(** [/^JWT_SECRET_V(\d+)$/] *)
Definition version_of (name : string) : option string :=
  if starts_with JWT_KEY_VAR_PREFIX name then
    let v := slice_from 12 name in if is_number v then Some v else None
  else None.

Definition long_enough (value : string) : bool := (MIN_JWT_SECRET_LENGTH <=? String.length value)%nat.

Fixpoint collect_keys (env : Env) (keys : list (string * string)) : result JwtConfigError (list (string * string)) :=
  match env with
  | [] => Ok keys
  | (name, value) :: rest =>
      match version_of name with
      | None => collect_keys rest keys
      | Some v =>
          match truthy_string value with
          | None => Err (EmptyVersionedSecret name)
          | Some secret =>
              if long_enough secret then collect_keys rest (assoc_set ("v" +:+ v) secret keys) else Err (SecretTooShort name)
          end
      end
  end.

Definition loadJwtSecretOrKeyring (env : Env) : result JwtConfigError JwtSecret :=
  let? keys := collect_keys env [] in
  match keys with
  | [] =>
      match truthy_string (env_get env "JWT_SECRET") with
      | None => Err SecretNotSet
      | Some secret => if long_enough secret then Ok (SingleSecret secret) else Err (SecretTooShort "JWT_SECRET")
      end
  | _ =>
      match truthy_string (env_get env JWT_CURRENT_VERSION_VAR) with
      | None => Err CurrentVersionNotSet
      | Some current =>
          let signKid := "v" +:+ current in
          match assoc_get signKid keys with
          | None => Err (CurrentVersionUnknown signKid)
          | Some _ =>
              match truthy_string (env_get env "JWT_SECRET") with
              | None => Ok (Keyring keys signKid)
              | Some legacy => if long_enough legacy then Ok (Keyring (assoc_set "legacy" legacy keys) signKid)
                               else Err (SecretTooShort "JWT_SECRET")
              end
          end
      end
  end.

(** ** The ring *)

Record NormalizedKeyring := mkRing { kr_verifyKeys : list (string * string); kr_signKid : option string; kr_signKey : string }.

Definition normalizeKeyring (s : JwtSecret) : result JwtConfigError NormalizedKeyring :=
  match s with
  | SingleSecret secret => Ok (mkRing [] None secret)
  | Keyring keys signKid =>
      match assoc_get signKid keys with
      | None => Err (SignKidMissing signKid)
      | Some key => Ok (mkRing keys (Some signKid) key)
      end
  end.

(** [jo_sign]: a token with its [kid], claims and key; [jo_kid]: the [kid] of
    the protected header, [None] when the token does not decode; [jo_verify]
    with an issuer, at an instant in seconds. *)
Record Jose (T : Type) := mkJose {
  jo_sign : option string → Row → string → T;
  jo_kid : T → option (option string);
  jo_verify : T → string → string → Z → option Row }.
Arguments mkJose {T}.
Arguments jo_sign {T}.
Arguments jo_kid {T}.
Arguments jo_verify {T}.

(** What the documentation of [jose] promises: a signed token decodes to its
    header, verifies with its own key for its issuer until it expires, and with
    no other key. *)
Record jose_laws {T} (J : Jose T) : Prop := {
  kid_of_signed : ∀ kid claims key, jo_kid J (jo_sign J kid claims key) = Some kid;
  verifies_signed : ∀ kid claims key issuer expiry now,
    assoc_get "iss" claims = Some (JStr issuer) → assoc_get "exp" claims = Some (JNum expiry) →
    jo_verify J (jo_sign J kid claims key) key issuer now = if now <? expiry then Some claims else None;
  rejects_other_key : ∀ kid claims key key' issuer now, key ≠ key' → jo_verify J (jo_sign J kid claims key) key' issuer now = None }.

Section helper.
Context {T : Type} (J : Jose T) (ring : NormalizedKeyring) (issuer : string) (ttlSeconds : Z).

Fixpoint try_keys (token : T) (keys : list string) (now : Z) : option Row :=
  match keys with
  | [] => None
  | key :: rest => match jo_verify J token key issuer now with Some claims => Some claims | None => try_keys token rest now end
  end.

Definition verifyWithKeyring (token : T) (now : Z) : option Row :=
  let fallback := try_keys token (match kr_verifyKeys ring with [] => [kr_signKey ring] | keys => keys.*2 end) now in
  match jo_kid J token with
  | None => None
  | Some None => fallback
  | Some (Some kid) =>
      match kr_verifyKeys ring with
      | [] => fallback
      | keys => match assoc_get kid keys with Some key => jo_verify J token key issuer now | None => None end
      end
  end.

Definition optional (key : string) (v : option Json) : Row := match v with Some v => [(key, v)] | None => [] end.

(** [nowMs]: the clock; [origin]: the origin of the session, if it was not an
    interactive one. *)
Definition sign (caller : Caller) (origin : option string) (nowMs : Z) : result string T :=
  match origin with
  | Some o => Err ("refusing to sign a SessionUser with origin " +:+ o)
  | None =>
      let user := ca_user caller in
      let nowSec := nowMs / 1000 in
      Ok (jo_sign J (kr_signKid ring)
            ([("tenantId", JStr (us_tenantId user)); ("roles", JArr (JStr <$> us_roles user))]
             ++ optional "timezone" (JStr <$> truthy_string (ca_timezone caller))
             ++ optional "locale" (JStr <$> truthy_string (ca_locale caller))
             ++ optional "claims" (JObj <$> us_claims user)
             ++ [("sub", JStr (us_id user)); ("iss", JStr issuer); ("iat", JNum nowSec); ("exp", JNum (nowSec + ttlSeconds))]
             ++ optional "jti" (JStr <$> truthy_string (ca_sid caller)))
            (kr_signKey ring))
  end.

Fixpoint string_roles (roles : list Json) : option (list string) :=
  match roles with
  | [] => Some []
  | JStr r :: rest => (r ::.) <$> string_roles rest
  | _ => None
  end.

Definition string_claim (claims : Row) (key : string) : option string :=
  match assoc_get key claims with Some (JStr s) => Some s | _ => None end.

(** [None]: it throws. *)
Definition parse_claims (claims : Row) : option JwtPayload :=
  match string_claim claims "tenantId" ≫= parseTenantId, assoc_get "roles" claims with
  | Some tenantId, Some (JArr rawRoles) =>
      match string_roles rawRoles, truthy_string (string_claim claims "sub") with
      | Some roles, Some sub =>
          Some (mkPayload sub tenantId (stripReservedTokenRoles roles)
                  (string_claim claims "timezone") (string_claim claims "locale")
                  (match assoc_get "claims" claims with Some (JObj kvs) => Some kvs | Some (JArr l) => Some (entries_of (JArr l)) | _ => None end)
                  (string_claim claims "jti")
                  (match assoc_get "exp" claims with Some (JNum e) => Some e | _ => None end))
      | _, _ => None
      end
  | _, _ => None
  end.

Definition verify (token : T) (now : Z) : option JwtPayload := verifyWithKeyring token now ≫= parse_claims.
End helper.

(** ** Round trip *)

Section round_trip.
Context {T : Type} (J : Jose T) (HJ : jose_laws J) (issuer : string) (ttlSeconds : Z).

Lemma string_roles_of roles : string_roles (JStr <$> roles) = Some roles.
Proof. induction roles as [|r rs IH]; [done|]. rewrite fmap_cons. cbn [string_roles]. by rewrite IH. Qed.

(** What a token says of its caller. *)
Definition payload_of (caller : Caller) (nowMs : Z) : JwtPayload :=
  let user := ca_user caller in
  mkPayload (us_id user) (us_tenantId user) (stripReservedTokenRoles (us_roles user)) (truthy_string (ca_timezone caller)) (truthy_string (ca_locale caller))
    (us_claims user) (truthy_string (ca_sid caller)) (Some (nowMs / 1000 + ttlSeconds)).

Lemma signed_claims ring caller nowMs token : sign J ring issuer ttlSeconds caller None nowMs = Ok token →
  us_id (ca_user caller) ≠ "" → isUuid (us_tenantId (ca_user caller)) = true →
  ∃ claims, token = jo_sign J (kr_signKid ring) claims (kr_signKey ring) ∧ assoc_get "iss" claims = Some (JStr issuer) ∧
    assoc_get "exp" claims = Some (JNum (nowMs / 1000 + ttlSeconds)) ∧ parse_claims claims = Some (payload_of caller nowMs).
Proof.
  destruct caller as [[id tenantId roles claims] tz locale sid pat]. unfold sign, payload_of. simpl. intros [= <-] Hid Ht.
  eexists. split; [done|]. unfold parse_claims, string_claim, optional, parseTenantId.
  destruct (truthy_string tz), (truthy_string locale), claims, (truthy_string sid); simpl; rewrite Ht, string_roles_of; simpl;
    (split; [done|]; split; [done|]); destruct id; done.
Qed.

Lemma try_keys_own kid claims key keys expiry now :
  assoc_get "iss" claims = Some (JStr issuer) → assoc_get "exp" claims = Some (JNum expiry) → key ∈ keys →
  try_keys J issuer (jo_sign J kid claims key) keys now = if now <? expiry then Some claims else None.
Proof using HJ.
  intros Hi He Hin. induction keys as [|k keys IH]; [by apply elem_of_nil in Hin|]. simpl. destruct (decide (k = key)) as [->|Hk].
  - rewrite (verifies_signed J HJ _ _ _ _ expiry) by done. destruct (now <? expiry) eqn:Hn; [done|].
    destruct (decide (key ∈ keys)) as [Hk|Hk]; [by apply IH|]. clear IH Hin. induction keys as [|k keys IH]; [done|]. simpl.
    apply not_elem_of_cons in Hk as [Hne Hk]. rewrite (rejects_other_key J HJ) by done. by apply IH.
  - rewrite (rejects_other_key J HJ) by done. apply IH. apply elem_of_cons in Hin as [->|Hin]; done.
Qed.

(** A ring trusts what another one signs. *)
Definition trusts (ring2 ring1 : NormalizedKeyring) : Prop :=
  match kr_verifyKeys ring2 with
  | [] => kr_signKey ring2 = kr_signKey ring1
  | keys => match kr_signKid ring1 with
            | Some kid => assoc_get kid keys = Some (kr_signKey ring1)
            | None => kr_signKey ring1 ∈ keys.*2
            end
  end.

Lemma trusted_token ring1 ring2 caller nowMs token now : trusts ring2 ring1 → sign J ring1 issuer ttlSeconds caller None nowMs = Ok token →
  us_id (ca_user caller) ≠ "" → isUuid (us_tenantId (ca_user caller)) = true →
  verify J ring2 issuer token now = if now <? nowMs / 1000 + ttlSeconds then Some (payload_of caller nowMs) else None.
Proof using HJ.
  intros Htr Hs Hid Ht. destruct (signed_claims ring1 caller nowMs token Hs Hid Ht) as (claims & -> & Hi & He & Hp).
  unfold verify, verifyWithKeyring. rewrite (kid_of_signed J HJ).
  assert (Hfb : ∀ keys, kr_signKey ring1 ∈ keys →
    try_keys J issuer (jo_sign J (kr_signKid ring1) claims (kr_signKey ring1)) keys now ≫= parse_claims
    = if now <? nowMs / 1000 + ttlSeconds then Some (payload_of caller nowMs) else None).
  { intros keys Hin. rewrite (try_keys_own _ _ _ _ (nowMs / 1000 + ttlSeconds)) by done. by destruct (now <? _). }
  unfold trusts in Htr. destruct (kr_verifyKeys ring2) as [|kv keys] eqn:Hk.
  - destruct (kr_signKid ring1); apply Hfb; rewrite Htr; by apply list_elem_of_singleton.
  - destruct (kr_signKid ring1) as [kid|] eqn:Hkid; [|by apply Hfb]. rewrite Htr.
    rewrite (verifies_signed J HJ _ _ _ _ (nowMs / 1000 + ttlSeconds)) by done. by destruct (now <? _).
Qed.
End round_trip.

(** ** Rotation *)

Lemma version_of_Some name v : version_of name = Some v ↔ name = JWT_KEY_VAR_PREFIX +:+ v ∧ is_number v = true.
Proof.
  unfold version_of. split.
  - destruct (starts_with _ name) eqn:Hp; [|done]. apply starts_with_split in Hp. change (String.length JWT_KEY_VAR_PREFIX) with 12%nat in Hp.
    destruct (is_number _) eqn:Hn; [|done]. intros [= <-]. done.
  - intros [-> Hn]. rewrite starts_with_app. change 12%nat with (String.length JWT_KEY_VAR_PREFIX). rewrite slice_from_app. by rewrite Hn.
Qed.

Lemma env_get_head name value env n : env_get ((name, value) :: env) n = if decide (name = n) then value else env_get env n.
Proof. unfold env_get. simpl. by destruct (decide (name = n)). Qed.

Lemma env_get_absent env n : n ∉ env.*1 → env_get env n = None.
Proof.
  induction env as [|[name value] env IH]; intros H; [done|]. rewrite env_get_head. simpl in H. apply not_elem_of_cons in H as [Hne H].
  destruct (decide _); [by subst|by apply IH].
Qed.

(** What the loop makes of the environment. *)
Lemma collected env keys keys' : collect_keys env keys = Ok keys' → NoDup env.*1 →
  ∀ k, assoc_get k keys' = match k with
                           | String "v" v => if is_number v then match env_get env (JWT_KEY_VAR_PREFIX +:+ v) with
                                                                 | Some s => Some s
                                                                 | None => assoc_get k keys
                                                                 end
                                             else assoc_get k keys
                           | _ => assoc_get k keys
                           end.
Proof.
  revert keys. induction env as [|[name value] env IH]; intros keys H Hnd k.
  { injection H as <-. destruct k as [|c k]; [done|]. repeat case_match; done. }
  apply NoDup_cons in Hnd as [Hnot Hnd]. cbn [collect_keys] in H.
  destruct (version_of name) as [v|] eqn:Hv.
  - apply version_of_Some in Hv as [-> Hn]. destruct (truthy_string value) as [secret|] eqn:Hs; [|done]. apply truthy_string_Some in Hs as [-> _].
    destruct (long_enough secret); [|done]. rewrite (IH _ H Hnd k).
    assert (Hset : ∀ k, k ≠ "v" +:+ v → assoc_get k (assoc_set ("v" +:+ v) secret keys) = assoc_get k keys)
      by (intros k' Hk; by apply assoc_get_set_ne).
    destruct k as [|c k]; [by apply Hset|].
    destruct (decide (c = "v"%char)) as [->|Hc]; [|assert (String c k ≠ "v" +:+ v) by (by intros [= ->]); repeat case_match; try done; by apply Hset].
    destruct (is_number k) eqn:Hk; [|by apply Hset; intros Heq; assert (k = v) as Hkv by (by injection Heq); congruence]. rewrite env_get_head. destruct (decide _) as [Heq|Hne].
    + assert (v = k) as -> by (by injection Heq). rewrite env_get_absent by done. exact (assoc_get_set_eq _ _ _).
    + destruct (env_get env _); [done|]. apply Hset. intros Heq. assert (k = v) as -> by (by injection Heq). done.
  - rewrite (IH _ H Hnd k). destruct k as [|c k]; [done|]. destruct (decide (c = "v"%char)) as [->|Hc]; [|by repeat case_match].
    destruct (is_number k) eqn:Hk; [|done]. rewrite env_get_head. destruct (decide _) as [->|Hne]; [|done].
    by rewrite (proj2 (version_of_Some _ k)) in Hv.
Qed.

Lemma collected_version env keys : collect_keys env [] = Ok keys → NoDup env.*1 →
  ∀ v, assoc_get ("v" +:+ v) keys = if is_number v then env_get env (JWT_KEY_VAR_PREFIX +:+ v) else None.
Proof.
  intros Hc Hnd v. etrans; [exact (collected env [] keys Hc Hnd ("v" +:+ v))|]. cbn [String.append]. destruct (is_number v); [|done].
  by destruct (env_get _ _).
Qed.

(** The keys to verify with: the old single secret stays as the key [legacy]. *)
Definition ring_keys (env : Env) (keys : list (string * string)) : list (string * string) :=
  match truthy_string (env_get env "JWT_SECRET") with Some legacy => assoc_set "legacy" legacy keys | None => keys end.

Lemma ring_keys_get env keys v : assoc_get ("v" +:+ v) (ring_keys env keys) = assoc_get ("v" +:+ v) keys.
Proof. unfold ring_keys. destruct (truthy_string _); [|done]. by apply assoc_get_set_ne. Qed.

Lemma loaded env secret ring : loadJwtSecretOrKeyring env = Ok secret → normalizeKeyring secret = Ok ring →
  ∃ keys, collect_keys env [] = Ok keys ∧
    (keys = [] ∧ (∃ s, truthy_string (env_get env "JWT_SECRET") = Some s ∧ ring = mkRing [] None s) ∨
     keys ≠ [] ∧ ∃ v key, assoc_get ("v" +:+ v) keys = Some key ∧ ring = mkRing (ring_keys env keys) (Some ("v" +:+ v)) key).
Proof.
  unfold loadJwtSecretOrKeyring, ring_keys. rewrite result_bind_Ok. intros (keys & Hc & H) Hn. exists keys. split; [done|].
  destruct keys as [|kv keys].
  - left. split; [done|]. destruct (truthy_string _) as [s|] eqn:Hs; [|done].
    destruct (long_enough s); [|done]. injection H as <-. injection Hn as <-. by exists s.
  - right. remember (kv :: keys) as ks eqn:Hks. split; [by subst|]. destruct (truthy_string (env_get env JWT_CURRENT_VERSION_VAR)) as [v|]; [|done].
    destruct (assoc_get ("v" +:+ v) ks) as [key|] eqn:Hg; [|done]. exists v, key. split; [done|].
    destruct (truthy_string (env_get env "JWT_SECRET")) as [legacy|]; [destruct (long_enough legacy); [|done]|]; injection H as <-; unfold normalizeKeyring in Hn.
    + rewrite assoc_get_set_ne, Hg in Hn by done. by injection Hn as <-.
    + rewrite Hg in Hn. by injection Hn as <-.
Qed.

Lemma trusts_ring ring2 ring1 : kr_verifyKeys ring2 ≠ [] →
  match kr_signKid ring1 with
  | Some kid => assoc_get kid (kr_verifyKeys ring2) = Some (kr_signKey ring1)
  | None => kr_signKey ring1 ∈ (kr_verifyKeys ring2).*2
  end → trusts ring2 ring1.
Proof. unfold trusts. by destruct (kr_verifyKeys ring2). Qed.

Lemma ring_keys_not_nil env keys v key : assoc_get ("v" +:+ v) keys = Some key → ring_keys env keys ≠ [].
Proof. intros Hk Hr. pose proof (ring_keys_get env keys v) as Hx. by rewrite Hr, Hk in Hx. Qed.

Lemma rotated_trusts env1 env2 secret1 secret2 ring1 ring2 : NoDup env1.*1 → NoDup env2.*1 →
  loadJwtSecretOrKeyring env1 = Ok secret1 → normalizeKeyring secret1 = Ok ring1 →
  loadJwtSecretOrKeyring env2 = Ok secret2 → normalizeKeyring secret2 = Ok ring2 →
  (∀ name s, name = "JWT_SECRET" ∨ is_Some (version_of name) → env_get env1 name = Some s → env_get env2 name = Some s) →
  trusts ring2 ring1.
Proof.
  intros Hnd1 Hnd2 Hl1 Hn1 Hl2 Hn2 Hkept.
  destruct (loaded _ _ _ Hl1 Hn1) as (keys1 & Hc1 & H1), (loaded _ _ _ Hl2 Hn2) as (keys2 & Hc2 & H2).
  pose proof (collected_version _ _ Hc1 Hnd1) as Hget1. pose proof (collected_version _ _ Hc2 Hnd2) as Hget2.
  destruct H1 as [(-> & s & Hs & ->)|(_ & v & key & Hkey & ->)].
  - assert (Hs2 : truthy_string (env_get env2 "JWT_SECRET") = Some s).
    { apply truthy_string_Some in Hs as [Hs Hne]. apply Hkept in Hs; [|by left]. rewrite Hs. by destruct s. }
    destruct H2 as [(-> & s2 & Hs' & ->)|(Hne & v & key & Hkey & ->)]; [unfold trusts; simpl; congruence|].
    apply trusts_ring; cbn [kr_verifyKeys kr_signKid kr_signKey]; [by eapply ring_keys_not_nil|].
    unfold ring_keys. rewrite Hs2. apply list_elem_of_fmap. exists ("legacy", s). split; [done|]. apply assoc_get_elem_of, assoc_get_set_eq.
  - assert (Hk2 : assoc_get ("v" +:+ v) keys2 = Some key).
    { rewrite Hget1 in Hkey. rewrite Hget2. destruct (is_number v) eqn:Hv; [|done].
      apply Hkept in Hkey; [done|]. right. exists v. by apply version_of_Some. }
    destruct H2 as [(-> & _)|(Hne & v2 & key2 & Hkey2 & ->)]; [done|].
    apply trusts_ring; cbn [kr_verifyKeys kr_signKid kr_signKey]; [by eapply ring_keys_not_nil|]. by rewrite ring_keys_get.
Qed.

(** C31: Rotating the keys ends no session.  Let a server sign the token of a
    caller with the keys of one environment, and a server with a second
    environment verify it, which keeps the secrets of the first and may add
    versions, switch the current one or move from a single secret to a ring.
    Until it expires, the token verifies, and says who the caller is with the
    same tenant, claims and session and without roles a token may not carry;
    afterwards it does not. *)
Theorem rotation_keeps_sessions {T} (J : Jose T) issuer ttlSeconds env1 env2 secret1 secret2 ring1 ring2 caller nowMs token :
  jose_laws J → NoDup env1.*1 → NoDup env2.*1 →
  loadJwtSecretOrKeyring env1 = Ok secret1 → normalizeKeyring secret1 = Ok ring1 →
  loadJwtSecretOrKeyring env2 = Ok secret2 → normalizeKeyring secret2 = Ok ring2 →
  (∀ name s, name = "JWT_SECRET" ∨ is_Some (version_of name) → env_get env1 name = Some s → env_get env2 name = Some s) →
  us_id (ca_user caller) ≠ "" → isUuid (us_tenantId (ca_user caller)) = true →
  sign J ring1 issuer ttlSeconds caller None nowMs = Ok token →
  (∀ now, verify J ring2 issuer token now =
     if now <? nowMs / 1000 + ttlSeconds then
       Some (mkPayload (us_id (ca_user caller)) (us_tenantId (ca_user caller)) (stripReservedTokenRoles (us_roles (ca_user caller)))
               (truthy_string (ca_timezone caller)) (truthy_string (ca_locale caller)) (us_claims (ca_user caller)) (truthy_string (ca_sid caller))
               (Some (nowMs / 1000 + ttlSeconds)))
     else None) ∧
  includes (stripReservedTokenRoles (us_roles (ca_user caller))) SYSTEM_ROLE = false.
Proof.
  intros HJ Hnd1 Hnd2 Hl1 Hn1 Hl2 Hn2 Hkept Hid Ht Hs. split.
  - intros now. apply (trusted_token J HJ issuer ttlSeconds ring1 ring2); [|done..]. exact (rotated_trusts env1 env2 secret1 secret2 ring1 ring2 Hnd1 Hnd2 Hl1 Hn1 Hl2 Hn2 Hkept).
  - unfold includes. apply bool_decide_eq_false. unfold stripReservedTokenRoles. intros [Hx _]%list_elem_of_filter. discriminate Hx.
Qed.

(** A resolved member never gets a token. *)
Lemma members_are_not_signed {T} (J : Jose T) ring issuer ttl caller origin nowMs token :
  sign J ring issuer ttl caller origin nowMs = Ok token → origin = None.
Proof. unfold sign. by destruct origin. Qed.

(** ** Examples *)

(** A library whose tokens are what was signed, with the key. *)
Definition transparent : Jose (option string * Row * string) :=
  mkJose (λ kid claims key, (kid, claims, key)) (λ t, Some t.1.1)
    (λ t key issuer now,
       if bool_decide (t.2 = key) && bool_decide (assoc_get "iss" t.1.2 = Some (JStr issuer))
          && match assoc_get "exp" t.1.2 with Some (JNum e) => now <? e | _ => false end
       then Some t.1.2 else None).

Lemma transparent_laws : jose_laws transparent.
Proof.
  split; [done|..].
  - intros kid claims key issuer expiry now Hi He. simpl. rewrite !bool_decide_eq_true_2 by done. by rewrite He.
  - intros kid claims key key' issuer now Hne. simpl. by rewrite bool_decide_eq_false_2.
Qed.

Definition secret_a : string := "aaaaaaaaaaaaaaaaaaaaaaaaaaaaaaaa".
Definition secret_b : string := "bbbbbbbbbbbbbbbbbbbbbbbbbbbbbbbb".

Definition before_rotation : Env := [("JWT_SECRET", Some secret_a)].
Definition after_rotation : Env :=
  [("JWT_SECRET", Some secret_a); ("JWT_SECRET_V1", Some secret_b); ("JWT_SECRET_CURRENT_VERSION", Some "1")].

Definition demo_caller : Caller := mkCaller (mkUser "u1" tenant_a ["owner"; "all"] None) (Some "Europe/Berlin") None (Some "s1") None.

Definition demo_payload_of : JwtPayload := mkPayload "u1" tenant_a ["owner"] (Some "Europe/Berlin") None None (Some "s1") (Some 3601).

Example retired_secret_ends_the_session :
  ∃ ring, normalizeKeyring (Keyring [("v1", secret_b)] "v1") = Ok ring ∧
    verify transparent ring "kumiko" (None, [("iss", JStr "kumiko"); ("exp", JNum 9)], secret_a) 1 = None.
Proof. eexists. split; vm_compute; reflexivity. Qed.

Example versions_need_a_current_one :
  loadJwtSecretOrKeyring [("JWT_SECRET_V1", Some secret_b)] = Err CurrentVersionNotSet ∧
  loadJwtSecretOrKeyring [("JWT_SECRET_V1", Some "short")] = Err (SecretTooShort "JWT_SECRET_V1").
Proof. split; vm_compute; reflexivity. Qed.

Lemma rotation_keeps_sessions_witness :
  ∃ token, sign transparent (mkRing [] None secret_a) "kumiko" 3600 demo_caller None 1000 = Ok token ∧
    verify transparent (mkRing [("v1", secret_b); ("legacy", secret_a)] (Some "v1") secret_b) "kumiko" token 3600 = Some demo_payload_of.
Proof.
  eexists. split; [reflexivity|].
  assert (Hkept : ∀ name s, name = "JWT_SECRET" ∨ is_Some (version_of name) → env_get before_rotation name = Some s →
                            env_get after_rotation name = Some s).
  { intros name s _. unfold before_rotation, after_rotation. rewrite !env_get_head. destruct (decide _); [done|]. intros H. discriminate H. }
  exact (proj1 (rotation_keeps_sessions transparent "kumiko" 3600 before_rotation after_rotation (SingleSecret secret_a)
    (Keyring [("v1", secret_b); ("legacy", secret_a)] "v1") (mkRing [] None secret_a)
    (mkRing [("v1", secret_b); ("legacy", secret_a)] (Some "v1") secret_b) demo_caller 1000 _ transparent_laws
    ltac:(apply (bool_decide_unpack _); vm_compute; exact I) ltac:(apply (bool_decide_unpack _); vm_compute; exact I)
    eq_refl eq_refl eq_refl eq_refl Hkept ltac:(discriminate) eq_refl eq_refl) 3600).
Defined.
